(* ===== verification/_CoqProject ===== *)
-Q . S2P
Prelude.v
Sort.v
Values.v
Container.v
Expr.v
HashAst.v
Smt.v
Solver.v
World.v
Z3Expr.v
SmtSwitch.v
ExprOp.v
VarContainer.v
AstHub.v
IlaVars.v
Collect.v
Unroller.v
UnrollerSpec.v
UnrollerSmt.v
Rewrite.v
AbsKnob.v
AbsKnobSpec.v
Passes.v
SolverPasses.v
SolverPassesSpec.v
MonoSpec.v
CfgPassSpec.v
Json.v
SerDes.v
SerSpec.v
SerDesSpec.v
SerDesVars.v
SerDesIla.v
SerDesRound.v
Bmc.v
TermSpec.v
Crr.v
CrrSpec.v
McmAst.v
Mcm.v
McmSpec.v
McmLink.v
McmRun.v
McmReg.v
McmSc.v
McmSample.v
McmLoose.v
StrUtil.v
Verilog.v
VlgSem.v
VlgText.v
VlgOps.v
VlgSpec.v
VlgTrans.v
VlgDecl.v
VlgClock.v
VlgInstr.v
