(* ===== verification/Prelude.v ===== *)
(** * ILAng: a verification library

    ILAng models hardware at the level of instructions: an instruction-level
    abstraction (ILA) has inputs, state variables, a fetch and a valid function,
    and instructions, each with a decode function and one next-state function per
    state variable it updates; ILAs nest into hierarchies.  The C++ program
    builds such models, rewrites them, translates their expressions for a solver
    and unrolls them into formulas.  This library models that core from the
    sources under [src/src] and [src/include/ilang], and proves it against a
    semantics of expressions and of instruction execution.

    ** Parts of the program, and the files that model them

    - [Sort]: [ast/sort.cc], [ast/sort_value.cc]: sorts and constant values
      (a memory constant is a default and an address/data map).
    - [Container]: [util/container.h]: the keyed vector every list of states,
      inputs, instructions and children is kept in.
    - [Expr]: [symbol.cc], [ast/expr.cc], [ast/func.cc], the operator enumeration
      of [ast/expr_op.h]: the expression tree, its typing [wt], its reference
      meaning [eval], and the depth-first visits of [ast/expr.h] with the
      induction they are reasoned about with.  A node carries the unique id of its
      symbol, as the C++ compares pointers.
    - [ExprOp] and [AstHub]: the constructors of [ast/expr_op.cc] with their
      assertions, and the client functions of [ast_hub.cc], constant overloads
      with their width adjustments included.
    - [World]: [instr.cc], [transition.cc], [instr_lvl_abs.cc]: the store of
      mutable ILA and instruction objects; registration of variables,
      instructions and children, update functions, sequencing; the execution
      semantics [instr_run], [ila_run] the rest of the library refers to.
    - [Smt] and [Z3Expr]: the Z3 C++ API is not in the repository: it is the
      interface [Z3Api] with laws [Z3Laws]; [GetZ3Expr] of every node class and
      [z3_expr_adapter.cc] are translated over it.
    - [SmtSwitch]: [target-smt/smt_switch_itf.cc], the same translation to the
      solver-agnostic library smt-switch, with its caches and its caught
      exceptions.
    - [HashAst]: [hash_ast.cc]: the hash-consing manager on an explicit heap of
      nodes whose argument pointers it redirects, and [asthub::TopEq].
    - [VarContainer] and [IlaVars]: [var_container.cc] and the functions of
      [instr_lvl_abs.cc] and [ast_hub.cc] that make variables.
    - [Collect]: the [Get*] and [Insert*] functions of [ila-mngr/u_abs_knob.cc].
    - [AbsKnob] and [AbsKnobSpec]: the rest of [u_abs_knob.cc], with the two
      function objects of [u_rewrite_ila.cc]: copying, extracting and flattening
      hierarchies.
    - [Unroller] and [UnrollerSpec]: [ila-mngr/u_unroller.cc]: time-stamped
      copies of the state, equation assembly, path unrolling, monolithic
      unrolling; the specification of their formulas as runs.  [MonoSpec] has the
      runs of a monolithic unrolling.
    - [UnrollerSmt]: [u_unroller_smt.cc] with [smt_shim.h]: the unroller over a
      generator of terms, and its two generators.
    - [Solver], [SolverPasses], [SolverPassesSpec] and [CfgPassSpec]: the query
      [z3::solver::check], and the passes that ask it:
      [p_sanity_check_and_fix.cc], [p_infer_child_prog_cfg.cc],
      [p_map_child_prog_entry.cc] and [p_simplify_semantic.cc].
    - [Json] and [SerDes]: the JSON values and operations of [nlohmann/json] that
      are used, and [target-json]: [ila_to_json_serializer.cc],
      [json_to_ila_deserializer.cc], [interface.cc].  [SerSpec] has the value that
      is written; [SerDesSpec] (nodes), [SerDesVars] (variables and hierarchy) and
      [SerDesIla] (conditions and instructions) what is read back, composed in
      [SerDesRound].
    - [Bmc]: [ila-mngr/v_eq_check_bmc.cc]: the legacy bounded equivalence check of
      two ILAs, what its query asks, and a difference it misses.
    - [Crr] and [CrrSpec]: [v_refinement.cc] and [v_eq_check_crr.cc]: refinement
      relations and the equivalence checks by commuting diagrams, monolithic and
      incremental; what the monolithic check decides.  The unrollers are the
      members of [CommDiag] and the locals of [IncEqCheck], by name in [Unr].
    - [McmAst] and [Mcm]: [src/mcm]: the memory consistency models: what steps
      read and write ([ast_helper.cc]), trace steps, axiom functions and local
      states ([memory_model.cc], [axiom_helper.cc]), the models [Sc] and [Tso]
      ([sc_manual.cc], [tso_manual.cc]) and the unroller of several ILAs
      ([inter_ila_unroller.cc]).  [McmSpec] has what the axioms mean in a solver
      model, [McmLink] what the equations on private states mean, [McmRun] the
      machine of sequential consistency and how a solver model gives a run of it,
      [McmReg] what registering a program does, [McmSc] the theorem on the whole
      session, [McmSample] an instance of every interface with two cores that
      exchange values, [McmLoose] a system for which the constraints are too weak.  [TermSpec] has the meaning of the terms of expressions
      over the solver that these proofs share.
    - [StrUtil]: [util/str_util.cc]: numbers in any base, splitting, joining,
      replacing ([StrToUpper] and [StrToBool] are in [Sort]).
    - [Verilog]: [verilog-out/verilog_gen.cc]: the Verilog generator, with the
      names, declarations and statements as the strings the code builds.  What the
      text means is in [VlgSem] (lexer, parser, sizes, signedness, values,
      assignments, the clocked block at an edge), which translates no code; [VlgText]
      reads generated text, [VlgOps] has the text and value of each operation,
      [VlgSpec] the invariant of the generator, [VlgTrans] the translation of
      expressions, [VlgDecl] the declarations and the theorem on expressions,
      [VlgClock] the clocked block as it is printed, [VlgInstr] the theorem on an exported instruction.
    - [Rewrite] and [Passes]: [ila-mngr/u_rewrite_expr.cc] and the passes
      [p_rewrite_generic.cc], [p_rewrite_conditional_store.cc],
      [p_rewrite_store_load.cc].
    - [Values] translates no code: it is the value domain (fixed-width vectors
      as a width and a number, memories as finite maps) and the SMT-LIB meaning of
      the operators.  [Prelude] (this file) has the error monads, the tactics and
      the generic lemmas.

    ** How they interact

    A pure computation returns a [Res]; a computation on objects is an [ST S A],
    [S -> Res (A * S)], with [S] the store ([World]), the expression heap
    ([Heap]: the symbol counter) or a component's members.  Interfaces are
    classes: [Layout] (the enumeration order of unordered containers), [Z3Api] /
    [Z3Laws] (terms), [Z3Solver] / [Z3SolverLaws] (queries, which may go
    unanswered), [Z3Forall] ([z3::forall]), [Z3Time] / [Z3TimeLaws] (integer
    time-stamps), [MemoryModelOps] (the virtual methods of a memory model), [Transitions] / [TransitionsSpec] (the virtual methods
    of [Unroller] and what its engine needs of them), [RewriteOpLaws] (the
    virtual method of the expression rewriter), [RewrSpec] (what the generic pass
    needs of the rewriter it is given).  The generic theorems are proved against
    the class; the instances discharge it.

    ** What the theorems show

    Expressions: well-typed trees evaluate to values of their sort; each
    constructor builds the node it names exactly when its guards hold, and stops
    otherwise; the client functions mean the arithmetic they name, constants
    wrapped to the width.  Translation: on every well-typed expression the Z3
    term has the meaning of the expression, with the constants named after host,
    variable and suffix.  Objects: registration keeps the store well formed;
    duplicates are errors or ignored as the code has it; the root name always
    terminates on a well-formed hierarchy.  Unrolling: the formula of a path holds
    in a model exactly when the model spells out a run of its instructions.
    Rewriting: copying under replacements is substitution; the conditional-store
    pass preserves the meaning of every expression of the hierarchy; the
    store-load pass, as the code declares its method, changes nothing.
    Sharing: the hash-consing manager keeps the structure of every expression,
    and two expressions have one representative exactly when their structures
    agree.  Unrollers: the two path unrollers build formulas with the same
    models.  Hierarchies: a copy corresponds to its source object by object, and
    its expressions mean what the originals do on the copied variables.  Solver
    passes: what each pass concludes from the answers holds of the hierarchy,
    and no answer makes it fail.  Equivalence checks: the verdicts in terms of the
    runs of the two models, and where the checks ask for something else than
    what they mean.  Memory models: a model of the constraints of sequential
    consistency is an interleaved run of the programs on one store, for shared
    states that are not memories, instructions without inputs and undefined
    functions, programs in order, a final property of private states, and
    instructions that use only variables of their read sets and either always
    decode or read every private state they write (otherwise the code leaves the
    state arbitrary, which [McmLoose] shows on a run).  Exchange: what is written can be read back in
    any store, and the result corresponds to the original object by object,
    except for the parts that are not written (programs, sequencing, the
    specification flag, containers of variables).  Verilog: the module that is
    generated for an instruction can be read back as Verilog, its assignments can
    hold for all values of the variables, and when they hold its outputs and its
    registers are what the instruction says, in reset and while the instruction is
    not valid or not decoded too.  The theorems leave out what the
    generator does not translate faithfully or not in general: signed division,
    remainders by a divisor that may be zero, updates of memories (nested stores
    are written in the wrong order), one-bit selects, rotations by zero, and names
    that need sanitizing or look like generated ones; uninterpreted functions and
    external memories are modules and ports outside of the text.  The clocked block
    is the text that [dump_always] prints: the reset, the guard by the valid signal
    and by the start signal if there is one, the start counter and the conditional
    updates ([ite_stmts]).  The declarations that [DumpToFile] prints are modelled
    and are not read back: the theorems take them from the tables they are printed
    from.

    ** Bounds and fuel

    Recursion over expressions and sorts is structural.  [GetRootName] and
    [GetHost] chains use fuel [S id]: a parent is created before its child, so
    its id is smaller, and [World.IlaOk.GetRootName_spec] proves the fuel enough.
    Walks over a hierarchy use the number of objects in the store as fuel;
    [RewriteGeneric] uses the object counter plus one, and its theorem starts from
    a tree that fits it.  A visit of the expression heap in [HashAst] uses the
    number of nodes plus one; the deserializer recurses at most to the depth of
    the JSON value; the loop of an incremental check runs for [max - min + 2]
    rounds, which a positive step never exhausts.  A computation that exhausts its fuel returns
    [EDiverge], never a result, and the correctness theorems state that a result
    is returned.  Bit-vector widths are integers with the guards the code has;
    values wrap modulo [2 ^ w]; [int] time-stamps are unbounded integers, which
    no unrolling of under [2^31] steps tells from [int].

    ** What is not modelled

    Verilog import ([verilog-in]) analyses the syntax tree of a parser that is
    not in the repository; the verification-target generators ([vtarget-out]) and
    the SystemC generator ([target-sc]) write text for tools that are not in the
    repository from configuration files; [smt-inout] reads the output of such
    tools; the C++ front end wraps the modelled operations; the synthesis import
    calls an engine that is not in the repository.  Logging has no effect on
    results and is left out; [ILA_ASSERT], which a release build drops, is modelled
    as a stop.  [p_simplify_syntactic.cc] runs the manager over the expressions of
    a hierarchy, which [World] holds as trees and not as nodes of a heap.  Of the
    exchange format, files and floating-point numbers are left out, of the string
    utilities the regular expressions, of the checks the models they log.  What
    the incremental checks of [Crr] and the model TSO conclude is modelled and not
    proved. *)
From stdpp Require Export base list gmap strings pretty fin_maps numbers sorting.
From Stdlib Require Export Ascii ZArith Lia.
From stdpp Require Import options.

#[export] Set Warnings "-register-all,-clear-no-such-hyp".

(** The hint databases of the library: [ilang] for [auto]/[eauto], [ilang] for
    [autorewrite]. *)
Create HintDb ilang.
Create Rewrite HintDb ilang.

(** * Failures

    The ways an ILAng call stops.  [EAssert] is a failing [ILA_ASSERT] of a
    debug build, [ECheck] a failing [ILA_CHECK] / [ILA_NOT_NULL] (fatal in every
    build), [ENull] the dereference of a null [shared_ptr], [EThrow] a C++
    exception (an out-of-range [at], a [z3::exception]).  [EDiverge] is no stop
    at all: a recursion over a cyclic object graph exhausted its fuel. *)
Inductive Err := EAssert | ECheck | ENull | EThrow | EDiverge.

#[export] Instance Err_eq_dec : EqDecision Err.
Proof. solve_decision. Defined.

Inductive Res (A : Type) := Ok (a : A) | Fail (e : Err).
Arguments Ok {_} _.
Arguments Fail {_} _.

#[export] Instance Res_ret : MRet Res := fun A => @Ok A.
#[export] Instance Res_bind : MBind Res := fun A B f m =>
  match m with Ok a => f a | Fail e => Fail e end.

#[export] Instance Res_eq_dec `{EqDecision A} : EqDecision (Res A).
Proof. solve_decision. Defined.

(** [ILA_ASSERT(b)] and [ILA_CHECK(b)] as computations. *)
Definition ila_assert (b : bool) : Res unit := if b then Ok () else Fail EAssert.
Definition ila_check (b : bool) : Res unit := if b then Ok () else Fail ECheck.

(** A possibly-null pointer that the code goes on to use. *)
Definition deref {A} (p : option A) : Res A :=
  match p with Some a => Ok a | None => Fail ENull end.
Definition not_null {A} (p : option A) : Res A :=
  match p with Some a => Ok a | None => Fail ECheck end.

(** * State passing

    [ST S A]: a computation on a store [S] that may fail. *)
Definition ST (S A : Type) : Type := S -> Res (A * S).

#[export] Instance ST_ret {S} : MRet (ST S) := fun A a s => Ok (a, s).
#[export] Instance ST_bind {S} : MBind (ST S) := fun A B f m s =>
  match m s with Ok (a, s') => f a s' | Fail e => Fail e end.

Definition lift {S A} (r : Res A) : ST S A := fun s => a ← r; Ok (a, s).
Definition get {S} : ST S S := fun s => Ok (s, s).
Definition gets {S A} (f : S -> A) : ST S A := fun s => Ok (f s, s).
Definition modify {S} (f : S -> S) : ST S unit := fun s => Ok ((), f s).

(** * Inversion and evaluation of monadic runs *)
Section monads.
Context {S A B : Type}.

Lemma Res_bind_ok (m : Res A) (f : A -> Res B) b :
  (m ≫= f) = Ok b <-> exists a, m = Ok a /\ f a = Ok b.
Proof. destruct m; cbn; naive_solver. Qed.

Lemma ST_bind_ok (m : ST S A) (f : A -> ST S B) s b s'' :
  (m ≫= f) s = Ok (b, s'') <->
  exists a s', m s = Ok (a, s') /\ f a s' = Ok (b, s'').
Proof.
  unfold mbind, ST_bind. destruct (m s) as [[a s']|e]; naive_solver.
Qed.

(** Running a computation step by step. *)
Lemma ST_bind_run (m : ST S A) (f : A -> ST S B) s a s' :
  m s = Ok (a, s') -> (m ≫= f) s = f a s'.
Proof. unfold mbind, ST_bind. by intros ->. Qed.

Lemma lift_bind_run (r : Res A) (f : A -> ST S B) s a :
  r = Ok a -> (lift r ≫= f) s = f a s.
Proof. unfold mbind, ST_bind. by intros ->. Qed.

Lemma ST_ret_ok (a a' : A) (s s' : S) :
  (mret a : ST S A) s = Ok (a', s') <-> a = a' /\ s = s'.
Proof. unfold mret, ST_ret. naive_solver. Qed.

Lemma lift_ok (r : Res A) (s s' : S) a :
  lift r s = Ok (a, s') <-> r = Ok a /\ s = s'.
Proof. unfold lift. destruct r; cbn; naive_solver. Qed.

Lemma get_ok (s s' r : S) : get s = Ok (r, s') <-> s = r /\ s = s'.
Proof. unfold get. naive_solver. Qed.

Lemma gets_ok (f : S -> A) s s' a : gets f s = Ok (a, s') <-> f s = a /\ s = s'.
Proof. unfold gets. naive_solver. Qed.

Lemma modify_ok (f : S -> S) s s' u : modify f s = Ok (u, s') <-> s' = f s.
Proof. unfold modify. destruct u. naive_solver. Qed.

Lemma ila_assert_ok b u : ila_assert b = Ok u <-> b = true.
Proof. destruct b, u; cbn; naive_solver. Qed.

Lemma ila_check_ok b u : ila_check b = Ok u <-> b = true.
Proof. destruct b, u; cbn; naive_solver. Qed.

Lemma deref_ok (p : option A) a : deref p = Ok a <-> p = Some a.
Proof. destruct p; cbn; naive_solver. Qed.

Lemma not_null_ok (p : option A) a : not_null p = Ok a <-> p = Some a.
Proof. destruct p; cbn; naive_solver. Qed.

Lemma Ok_inj (a a' : A) : Ok a = Ok a' -> a = a'.
Proof. congruence. Qed.
End monads.

(** [run_inv]: peel a successful monadic run into its steps. *)
Ltac run_inv_in H :=
  lazymatch type of H with
  | (_ ≫= _) _ = Ok (_, _) =>
      let a := fresh "a" in let s := fresh "s" in
      let H1 := fresh "Hr" in let H2 := fresh "Hr" in
      apply ST_bind_ok in H as (a & s & H1 & H2); cbn beta in H2;
      try run_inv_in H1; try run_inv_in H2
  | (_ ≫= _) = Ok _ =>
      let a := fresh "a" in
      let H1 := fresh "Hr" in let H2 := fresh "Hr" in
      apply Res_bind_ok in H as (a & H1 & H2); cbn beta in H2;
      try run_inv_in H1; try run_inv_in H2
  | mret _ _ = Ok (_, _) => apply ST_ret_ok in H as [??]; subst
  | lift _ _ = Ok (_, _) =>
      apply lift_ok in H as [H ?]; subst; try run_inv_in H
  | get _ = Ok (_, _) => apply get_ok in H as [??]; subst
  | gets _ _ = Ok (_, _) => apply gets_ok in H as [??]; subst
  | modify _ _ = Ok (_, _) => apply modify_ok in H; subst
  | ila_assert _ = Ok _ => apply ila_assert_ok in H
  | ila_check _ = Ok _ => apply ila_check_ok in H
  | deref _ = Ok _ => apply deref_ok in H
  | not_null _ = Ok _ => apply not_null_ok in H
  | mret _ = Ok _ => apply Ok_inj in H; subst
  | Ok _ = Ok _ => apply Ok_inj in H; simplify_eq
  | Fail _ = Ok _ => discriminate H
  end.

Ltac run_inv :=
  repeat match goal with
  | H : _ = Ok _ |- _ => progress (run_inv_in H)
  end.

(** Split conjunctions and booleans that guards leave behind. *)
Ltac bool_inv :=
  repeat match goal with
  | H : _ && _ = true |- _ => apply andb_true_iff in H as [? ?]
  | H : _ || _ = false |- _ => apply orb_false_iff in H as [? ?]
  | H : negb _ = true |- _ => apply negb_true_iff in H
  | H : negb _ = false |- _ => apply negb_false_iff in H
  | H : Z.eqb _ _ = true |- _ => apply Z.eqb_eq in H
  | H : Z.eqb _ _ = false |- _ => apply Z.eqb_neq in H
  | H : Z.leb _ _ = true |- _ => apply Z.leb_le in H
  | H : Z.leb _ _ = false |- _ => apply Z.leb_gt in H
  | H : Z.ltb _ _ = true |- _ => apply Z.ltb_lt in H
  | H : Z.ltb _ _ = false |- _ => apply Z.ltb_ge in H
  | H : Nat.eqb _ _ = true |- _ => apply Nat.eqb_eq in H
  | H : String.eqb _ _ = true |- _ => apply String.eqb_eq in H
  | H : String.eqb _ _ = false |- _ => apply String.eqb_neq in H
  | H : bool_decide _ = true |- _ => apply bool_decide_eq_true in H
  | H : bool_decide _ = false |- _ => apply bool_decide_eq_false in H
  end.

(** Case analysis on an innermost scrutinee of the goal. *)
Ltac case_inner :=
  match goal with
  | |- context [match ?x with _ => _ end] =>
      lazymatch x with
      | context [match _ with _ => _ end] => fail
      | _ => let E := fresh "E" in destruct x eqn:E; cbn; try discriminate
      end
  end.

(** * Calls that return

    A computation returns, and [Q] holds of its result and the state it leaves. *)
Section returns.
Context {S : Type}.
Definition returns {A} (m : ST S A) (s : S) (Q : A -> S -> Prop) : Prop :=
  exists a s', m s = Ok (a, s') /\ Q a s'.

Lemma returns_ret {A} (a : A) s (Q : A -> S -> Prop) : Q a s -> returns (mret a) s Q.
Proof. by exists a, s. Qed.
Lemma returns_bind {A B} (m : ST S A) (k : A -> ST S B) s (P : A -> S -> Prop) Q :
  returns m s P -> (forall a s', P a s' -> returns (k a) s' Q) -> returns (m ≫= k) s Q.
Proof.
  intros (a & s' & E & H) Hk. destruct (Hk a s' H) as (b & s'' & E' & H'). exists b, s''.
  unfold mbind, ST_bind. by rewrite E.
Qed.
Lemma returns_lift {A B} (r : Res A) a (k : A -> ST S B) s Q :
  r = Ok a -> returns (k a) s Q -> returns (lift r ≫= k) s Q.
Proof. intros ->. by intros H. Qed.
Lemma returns_impl {A} (m : ST S A) s (P Q : A -> S -> Prop) :
  returns m s P -> (forall a s', P a s' -> Q a s') -> returns m s Q.
Proof. intros (a & s' & E & H) HPQ. exists a, s'. auto. Qed.
End returns.

(** * Loops

    [foldM] is the C++ [for (auto x : l) s = f(x, s)]; [mapM] of stdpp is the
    loop that pushes back one result per element. *)
Fixpoint foldM {F : Type -> Type} `{MRet F, MBind F} {A S} (f : A -> S -> F S)
    (l : list A) (s : S) : F S :=
  match l with
  | [] => mret s
  | a :: l => s' ← f a s; foldM f l s'
  end.

Lemma foldM_Res_inv {A S} (f : A -> S -> Res S) (I : S -> Prop) l s s' :
  (forall a s1 s2, a ∈ l -> I s1 -> f a s1 = Ok s2 -> I s2) ->
  I s -> foldM f l s = Ok s' -> I s'.
Proof.
  revert s. induction l as [|a l IH]; cbn; intros s Hf Hs Hr; run_inv; [done|].
  eapply IH; [| |done]; [|by eapply Hf; [left| |]].
  intros. eapply Hf; [by right|..]; done.
Qed.

Lemma foldM_Res_ext {A S} (f g : A -> S -> Res S) l s :
  (forall a s, f a s = g a s) -> foldM f l s = foldM g l s.
Proof.
  intros H. revert s. induction l as [|a l IH]; intros s; cbn; [done|]. rewrite H.
  destruct (g a s); [apply IH|done].
Qed.

Lemma Forall2_same {A} (R : A -> A -> Prop) l :
  Forall2 R l l <-> forall x, x ∈ l -> R x x.
Proof.
  split.
  - intros H x [i Hi]%list_elem_of_lookup. by eapply Forall2_lookup_lr.
  - intros H. apply Forall_Forall2_diag, Forall_forall. exact H.
Qed.

(** Prove a property of each element of a literal list. *)
Ltac each := repeat apply Forall_cons_2; try apply Forall_nil_2; auto.

(** Run the next [lift], whose argument computes. *)
Ltac step :=
  match goal with
  | |- context [(lift ?r ≫= ?f) ?s] =>
      let r' := eval cbn in r in
      lazymatch r' with Ok ?a => rewrite (lift_bind_run r f s a eq_refl) end
  end.

(** Run the next call, whose result is a hypothesis. *)
Ltac call :=
  match goal with
  | H : ?m ?s = Ok (_, _) |- context [(?m ≫= _) ?s] => rewrite (ST_bind_run _ _ _ _ _ H)
  end.

(** * Printed keys

    Text put together from fields is taken apart at a separator that no field
    contains. *)
Fixpoint str_no (c : ascii) (s : string) : bool :=
  match s with
  | EmptyString => true
  | String a s => negb (Ascii.eqb a c) && str_no c s
  end.

Lemma str_app_assoc s t u : s +:+ (t +:+ u) = (s +:+ t) +:+ u.
Proof. induction s as [|a s IH]; [done|]. exact (f_equal (String a) IH). Qed.
Lemma str_app_nil s : s +:+ "" = s.
Proof. induction s as [|a s IH]; [done|]. exact (f_equal (String a) IH). Qed.

Lemma str_no_app c s t : str_no c (s +:+ t) = str_no c s && str_no c t.
Proof.
  induction s as [|a s IH]; [done|].
  change (negb (Ascii.eqb a c) && str_no c (s +:+ t) = negb (Ascii.eqb a c) && str_no c s && str_no c t).
  by rewrite IH, andb_assoc.
Qed.

Lemma str_split c s s' t t' : str_no c s = true -> str_no c s' = true ->
  s +:+ String c t = s' +:+ String c t' -> s = s' /\ t = t'.
Proof.
  revert s'. induction s as [|a s IH]; intros [|a' s'] Hs Hs' E; inversion E; clear E;
    cbn in Hs, Hs'; subst; rewrite ?Ascii.eqb_refl in *; try discriminate; [done|].
  bool_inv. by destruct (IH s') as [-> ->].
Qed.

Lemma str_split_end c s s' t : str_no c s = true -> str_no c s' = true -> s <> s' +:+ String c t.
Proof.
  intros Hs Hs' ->. rewrite str_no_app in Hs. cbn in Hs.
  by rewrite Ascii.eqb_refl, andb_false_r in Hs.
Qed.

(** Digits. *)
Definition digit (a : ascii) : bool :=
  (N.leb 48 (N_of_ascii a) && N.leb (N_of_ascii a) 57)%N.
Fixpoint digits (s : string) : bool :=
  match s with EmptyString => true | String a s => digit a && digits s end.

Lemma digits_no c s : digit c = false -> digits s = true -> str_no c s = true.
Proof.
  intros Hc. induction s as [|a s IH]; [done|]. cbn. intros. bool_inv.
  rewrite IH by done. rewrite andb_true_r. apply negb_true_iff.
  destruct (Ascii.eqb_spec a c); congruence.
Qed.

Lemma pretty_N_go_digits x s : digits s = true -> digits (pretty_N_go x s) = true.
Proof.
  revert s. induction (N.lt_wf_0 x) as [x _ IH]; intros s Hs.
  destruct (decide (x = 0)%N) as [->|Hx]; [by rewrite pretty_N_go_0|].
  rewrite pretty_N_go_step by lia. apply IH; [apply N.div_lt; lia|]. cbn. rewrite Hs, andb_true_r.
  unfold pretty_N_char. by repeat case_match.
Qed.
Lemma pretty_N_digits (n : N) : digits (pretty n) = true.
Proof. unfold pretty, pretty_N. case_decide; [done|]. by apply pretty_N_go_digits. Qed.
Lemma pretty_Z_digits (z : Z) : (0 <= z)%Z -> digits (pretty z) = true.
Proof. destruct z; intros; [done|apply pretty_N_digits|lia]. Qed.

Lemma pretty_N_go_length x s : String.length s <= String.length (pretty_N_go x s).
Proof.
  revert s. induction (N.lt_wf_0 x) as [x _ IH]; intros s.
  destruct (decide (x = 0)%N) as [->|Hx]; [by rewrite pretty_N_go_0|].
  rewrite pretty_N_go_step by lia. etrans; [|apply IH; apply N.div_lt; lia]. cbn. lia.
Qed.
Lemma pretty_N_ne (n : N) : pretty n <> "".
Proof.
  unfold pretty, pretty_N. case_decide; [done|]. rewrite pretty_N_go_step by lia. intros E.
  pose proof (pretty_N_go_length (n `div` 10) (String (pretty_N_char (n `mod` 10)) "")) as Hl.
  rewrite E in Hl. cbn in Hl. lia.
Qed.
Lemma pretty_Z_ne (z : Z) : (0 <= z)%Z -> pretty z <> "".
Proof. destruct z; intros; [done|apply pretty_N_ne|lia]. Qed.

(** [fmt::join(l, ",")]. *)
Fixpoint join (c : ascii) (l : list string) : string :=
  match l with
  | [] => ""
  | [s] => s
  | s :: l => s +:+ String c (join c l)
  end.

Lemma join_inj c l l' :
  Forall (fun s => str_no c s = true /\ s <> "") l ->
  Forall (fun s => str_no c s = true /\ s <> "") l' -> join c l = join c l' -> l = l'.
Proof.
  revert l'. induction l as [|s l IH]; intros [|s' l'] Hl Hl' E; [done|..].
  - apply Forall_cons in Hl' as [[_ Hs] _]. destruct l'; cbn in E; [congruence|]. by destruct s'.
  - apply Forall_cons in Hl as [[_ Hs] _]. destruct l; cbn in E; [congruence|]. by destruct s.
  - apply Forall_cons in Hl as [[Hs Hne] Hl], Hl' as [[Hs' Hne'] Hl'].
    destruct l as [|a l], l' as [|a' l'].
    + cbn in E. by subst.
    + cbn [join] in E. exfalso. by eapply str_split_end in E.
    + cbn [join] in E. exfalso. symmetry in E. by eapply str_split_end in E.
    + change (s +:+ String c (join c (a :: l)) = s' +:+ String c (join c (a' :: l'))) in E.
      apply str_split in E as [-> E]; [|done..]. f_equal. by apply IH.
Qed.

Lemma join_no c d l : c <> d -> Forall (fun s => str_no d s = true) l -> str_no d (join c l) = true.
Proof.
  intros Hcd. induction 1 as [|s l Hs Hl IH]; [done|]. destruct l as [|a l]; [done|].
  change (str_no d (s +:+ String c (join c (a :: l))) = true). rewrite str_no_app, Hs. cbn [str_no].
  rewrite IH. destruct (Ascii.eqb_spec c d); done.
Qed.
