(* ===== verification/Sort.v ===== *)
(** * Sorts and constant values

    [include/ilang/ila/ast/sort.h], [src/ila/ast/sort.cc],
    [src/ila/ast/sort_value.cc] and the Boolean parser of
    [src/util/str_util.cc].  A [SortPtr] is the sort it points to: sorts are
    never mutated and are compared by [Equal], not by address. *)
From S2P Require Import Prelude.
Local Open Scope Z_scope.

Inductive AstUidSort := kBool | kBv | kMem | kStruct | kVec.

Inductive Sort :=
| SortBool
| SortBv (bit_width_ : Z)
| SortMem (addr_width_ data_width_ : Z)
| SortStruct (members_ : list (string * Sort))
| SortVector (da_ : Sort) (size_ : Z).

(** The induction principle that reaches the members of a struct. *)
Section sort_ind.
Context (P : Sort -> Prop).
Context (Hbool : P SortBool) (Hbv : forall w, P (SortBv w))
  (Hmem : forall a d, P (SortMem a d))
  (Hstruct : forall ms, Forall (fun p => P p.2) ms -> P (SortStruct ms))
  (Hvec : forall da n, P da -> P (SortVector da n)).

Fixpoint Sort_ind' (s : Sort) : P s :=
  match s with
  | SortBool => Hbool
  | SortBv w => Hbv w
  | SortMem a d => Hmem a d
  | SortStruct ms => Hstruct ms
      ((fix go ms : Forall (fun p => P p.2) ms :=
          match ms with
          | [] => Forall_nil_2 _
          | p :: ms => Forall_cons_2 _ _ _ (Sort_ind' p.2) (go ms)
          end) ms)
  | SortVector da n => Hvec da n (Sort_ind' da)
  end.
End sort_ind.

Module Sorts.

Definition uid (s : Sort) : AstUidSort :=
  match s with
  | SortBool => kBool
  | SortBv _ => kBv
  | SortMem _ _ => kMem
  | SortStruct _ => kStruct
  | SortVector _ _ => kVec
  end.

Definition is_bool (s : Sort) : bool :=
  match s with SortBool => true | _ => false end.

(** [is_bv(width)]; the default argument of the header is [is_bv s 0]. *)
Definition is_bv (s : Sort) (width : Z) : bool :=
  match s with
  | SortBv bit_width_ => if width =? 0 then true else width =? bit_width_
  | _ => false
  end.

Definition is_mem (s : Sort) : bool :=
  match s with SortMem _ _ => true | _ => false end.

Definition is_struct (s : Sort) : bool :=
  match s with SortStruct _ => true | _ => false end.

Definition is_vec (s : Sort) : bool :=
  match s with SortVector _ _ => true | _ => false end.

Definition bit_width (s : Sort) : Res Z :=
  match s with SortBv w => Ok w | _ => Fail EAssert end.

Definition addr_width (s : Sort) : Res Z :=
  match s with SortMem a _ => Ok a | _ => Fail EAssert end.

Definition data_width (s : Sort) : Res Z :=
  match s with SortMem _ d => Ok d | _ => Fail EAssert end.

Fixpoint find_member (name : string) (ms : list (string * Sort)) : Res Sort :=
  match ms with
  | [] => Fail EAssert
  | (n, sort) :: ms => if String.eqb n name then Ok sort else find_member name ms
  end.

Definition get_member_sort (s : Sort) (name : string) : Res Sort :=
  match s with SortStruct ms => find_member name ms | _ => Fail EAssert end.

Definition members (s : Sort) : Res (list (string * Sort)) :=
  match s with SortStruct ms => Ok ms | _ => Fail EAssert end.

Definition data_atom (s : Sort) : Res Sort :=
  match s with SortVector da _ => Ok da | _ => Fail EAssert end.

Definition vec_size (s : Sort) : Res Z :=
  match s with SortVector _ n => Ok n | _ => Fail EAssert end.

Definition MakeBoolSort : Sort := SortBool.
Definition MakeBvSort (bit_width : Z) : Sort := SortBv bit_width.
Definition MakeMemSort (addr_width data_width : Z) : Sort :=
  SortMem addr_width data_width.
Definition MakeStructSort (members : list (string * Sort)) : Sort :=
  SortStruct members.

(** The [SortVector] constructor refuses a negative size. *)
Definition MakeVectorSort (da : Sort) (vec_size : Z) : Res Sort :=
  ila_assert (0 <=? vec_size);; Ok (SortVector da vec_size).

(** [Equal], one line per override; [operator==] on [SortPtr] is [Equal], so
    the comparison of member lists and of data-atoms recurses. *)
Fixpoint Equal (lhs rhs : Sort) : bool :=
  match lhs with
  | SortBool => is_bool rhs
  | SortBv bit_width_ =>
      match rhs with SortBv w => w =? bit_width_ | _ => false end
  | SortMem addr_width_ data_width_ =>
      match rhs with
      | SortMem a d => (a =? addr_width_) && (d =? data_width_)
      | _ => false
      end
  | SortStruct members_ =>
      match rhs with
      | SortStruct members' =>
          (fix go (l r : list (string * Sort)) : bool :=
             match l, r with
             | [], [] => true
             | (n, s) :: l, (n', s') :: r => String.eqb n n' && Equal s s' && go l r
             | _, _ => false
             end) members_ members'
      | _ => false
      end
  | SortVector da_ size_ =>
      match rhs with
      | SortVector da n => (size_ =? n) && Equal da_ da
      | _ => false
      end
  end.

Fixpoint Print (s : Sort) : string :=
  match s with
  | SortBool => "Boolean"
  | SortBv w => "Bv(" +:+ pretty w +:+ ")"
  | SortMem a d => "Mem(" +:+ pretty a +:+ ", " +:+ pretty d +:+ ")"
  | SortStruct ms =>
      "{ " +:+
      (fix go (first : bool) (ms : list (string * Sort)) : string :=
         match ms with
         | [] => ""
         | (name, sort) :: ms =>
             (if first then "" else ", ") +:+ name +:+ ": " +:+ Print sort +:+
             go false ms
         end) true ms +:+ " }"
  | SortVector da n => "Array[" +:+ pretty n +:+ "](" +:+ Print da +:+ ")"
  end.

Lemma Equal_refl s : Equal s s = true.
Proof.
  induction s as [| | |ms IH|da n IH] using Sort_ind'; cbn;
    rewrite ?Z.eqb_refl; try done.
  induction IH as [|[n s] ms Hs _ IH]; cbn in *; [done|].
  by rewrite String.eqb_refl, Hs, IH.
Qed.

Lemma Equal_eq s s' : Equal s s' = true -> s = s'.
Proof.
  revert s'. induction s as [| | |ms IH|da n IH] using Sort_ind'; intros [];
    cbn; intros H; try done; bool_inv; subst; try done.
  - f_equal. revert members_ H.
    induction IH as [|[n s] ms Hs _ IH]; intros [|[n' s'] r]; cbn;
      intros H; try done; bool_inv; subst.
    apply Hs in H1. cbn in H1. subst. f_equal. by apply IH.
  - f_equal. by apply IH.
Qed.

(** C36.  Two sorts are [operator==] exactly when they have the same structure:
    same constructor, same widths, the same member names and sorts in the same
    order, the same size and data-atom. *)
Theorem Equal_spec s s' : Equal s s' = true <-> s = s'.
Proof. split; [apply Equal_eq|intros ->; apply Equal_refl]. Qed.

End Sorts.

#[export] Instance Sort_eq_dec : EqDecision Sort.
Proof.
  intros s s'. destruct (Sorts.Equal s s') eqn:E.
  - left. by apply Sorts.Equal_eq.
  - right. intros ->. by rewrite Sorts.Equal_refl in E.
Defined.

#[export] Hint Rewrite Sorts.Equal_refl : ilang.

(** * Constant values: [src/ila/ast/sort_value.cc] *)
Module SortValue.

(** [BvValType] is [uint64_t]; [BvValTypeBitWidth] its number of bits. *)
Definition BvValTypeBitWidth : Z := 64.
Definition uint64 (z : Z) : Z := z mod 2 ^ 64.

Definition toupper (c : ascii) : ascii :=
  let n := nat_of_ascii c in
  if (97 <=? n)%nat && (n <=? 122)%nat then ascii_of_nat (n - 32) else c.

Fixpoint StrToUpper (str : string) : string :=
  match str with
  | EmptyString => EmptyString
  | String c str => String (toupper c) (StrToUpper str)
  end.

Definition StrToBool (str : string) : Res bool :=
  let up := StrToUpper str in
  ila_assert (String.eqb up "TRUE" || String.eqb up "FALSE");;
  Ok (String.eqb up "TRUE").

Definition BoolVal_of_string (str : string) : Res bool := StrToBool str.
Definition BoolVal_str (val_ : bool) : string := if val_ then "TRUE" else "FALSE".

(** [BvVal::str] is [std::to_string] of the stored word. *)
Definition BvVal_str (val_ : Z) : string := pretty val_.

(** [MemVal]: a default word and the explicitly given addresses. *)
Record MemVal := { default_ : Z; val_map_ : gmap Z Z }.

Definition MemVal_def (def_val : Z) : MemVal :=
  {| default_ := def_val; val_map_ := ∅ |}.
Definition MemVal_map (def_val : Z) (vals : gmap Z Z) : MemVal :=
  {| default_ := def_val; val_map_ := vals |}.

Definition get_data (m : MemVal) (addr : Z) : Z :=
  match val_map_ m !! addr with None => default_ m | Some d => d end.

(** [val_map_.emplace(addr, data)]: [std::map::emplace] keeps an existing entry. *)
Definition set_data (m : MemVal) (addr data : Z) : MemVal :=
  {| default_ := default_ m;
     val_map_ := match val_map_ m !! addr with
                 | Some _ => val_map_ m
                 | None => <[addr := data]> (val_map_ m)
                 end |}.

#[global] Instance MemVal_eq_dec : EqDecision MemVal.
Proof. solve_decision. Defined.

(** Printing a Boolean constant and parsing the text back gives the
    constant; the parser accepts the text in any letter case. *)
Lemma BoolVal_roundtrip b s :
  StrToUpper s = BoolVal_str b -> BoolVal_of_string s = Ok b.
Proof.
  unfold BoolVal_of_string, StrToBool. intros ->. by destruct b.
Qed.


(** What [set_data] really does: the written address reads back the new
    data only if it had no entry; an address that has one keeps its old data,
    and every other address is unchanged. *)
Theorem get_set_data m a d a' :
  get_data (set_data m a d) a' =
  (if decide (a' = a) then default d (val_map_ m !! a) else get_data m a').
Proof.
  unfold get_data, set_data; cbn. destruct (val_map_ m !! a) eqn:E; cbn;
    case_decide; subst; cbn; rewrite ?E, ?lookup_insert_eq, ?lookup_insert_ne; done.
Qed.

End SortValue.
