(* ===== verification/Values.v ===== *)
(** * The value domain and its operators (specification)

    What an ILA expression denotes: Booleans, bit-vectors and memories, with the
    fixed-width operators of SMT-LIB.  This file translates no code; it is the
    reference the expression, solver and unrolling files are measured against.
    A bit-vector is a width and a number below [2 ^ w]; a memory is a finite map
    that stores the non-zero words only, so equal memories are equal terms. *)
From S2P Require Import Prelude Sort.
Local Open Scope Z_scope.

Inductive val :=
| VBool (b : bool)
| VBv (w n : Z)
| VMem (aw dw : Z) (m : gmap Z Z).

#[export] Instance val_eq_dec : EqDecision val.
Proof. solve_decision. Defined.

(** ** Fixed-width arithmetic *)
Module Bits.

Definition wrap (w n : Z) : Z := n mod 2 ^ w.
Definition sgn (w n : Z) : Z := if n <? 2 ^ (w - 1) then n else n - 2 ^ w.
Definition ones (w : Z) : Z := 2 ^ w - 1.

Definition neg (w x : Z) : Z := wrap w (- x).
Definition not (w x : Z) : Z := ones w - x.
Definition shl (w x y : Z) : Z := if w <=? y then 0 else wrap w (Z.shiftl x y).
Definition lshr (w x y : Z) : Z := if w <=? y then 0 else Z.shiftr x y.
Definition ashr (w x y : Z) : Z := wrap w (Z.shiftr (sgn w x) (Z.min y w)).
Definition add (w x y : Z) : Z := wrap w (x + y).
Definition sub (w x y : Z) : Z := wrap w (x - y).
Definition mul (w x y : Z) : Z := wrap w (x * y).
(** [bvsdiv], [bvsrem], [bvurem], [bvsmod]: division by zero gives all ones
    (one for a negative dividend), remainder by zero gives the dividend. *)
Definition sdiv (w x y : Z) : Z :=
  if y =? 0 then (if sgn w x <? 0 then wrap w 1 else ones w)
  else wrap w (Z.quot (sgn w x) (sgn w y)).
Definition srem (w x y : Z) : Z :=
  if y =? 0 then x else wrap w (Z.rem (sgn w x) (sgn w y)).
Definition urem (w x y : Z) : Z := if y =? 0 then x else x mod y.
Definition smod (w x y : Z) : Z :=
  if y =? 0 then x else wrap w (sgn w x mod sgn w y).
Definition slt (w x y : Z) : bool := sgn w x <? sgn w y.
Definition concat (wl hi lo : Z) : Z := Z.shiftl hi wl + lo.
Definition extract (hi lo x : Z) : Z := wrap (hi - lo + 1) (Z.shiftr x lo).
Definition sext (w w' x : Z) : Z := wrap w' (sgn w x).
Definition rotl (w k x : Z) : Z :=
  let k := k mod w in wrap w (Z.shiftl x k) + Z.shiftr x (w - k).
Definition rotr (w k x : Z) : Z := rotl w (w - k mod w) x.

Section range.
Context (w : Z) (Hw : 0 < w).

Lemma pow_pos : 0 < 2 ^ w.
Proof using Hw. apply Z.pow_pos_nonneg; lia. Qed.

Lemma wrap_range n : 0 <= wrap w n < 2 ^ w.
Proof using Hw. apply Z.mod_pos_bound, pow_pos. Qed.

Lemma wrap_small n : 0 <= n < 2 ^ w -> wrap w n = n.
Proof using Type. apply Z.mod_small. Qed.

Lemma ones_range : 0 <= ones w < 2 ^ w.
Proof using Hw. pose proof pow_pos. unfold ones. lia. Qed.

Lemma zero_range : 0 <= 0 < 2 ^ w.
Proof using Hw. pose proof pow_pos. lia. Qed.

Lemma testbit_small x i : 0 <= x < 2 ^ w -> w <= i -> Z.testbit x i = false.
Proof using Hw.
  intros Hx Hi. destruct (decide (x = 0)) as [->|?]; [apply Z.bits_0|].
  apply Z.bits_above_log2; [lia|].
  enough (Z.log2 x < w) by lia. apply Z.log2_lt_pow2; lia.
Qed.

Lemma bits_range x :
  0 <= x -> (forall i, w <= i -> Z.testbit x i = false) -> 0 <= x < 2 ^ w.
Proof using Hw.
  intros Hx Hb. split; [done|].
  replace x with (x mod 2 ^ w); [apply Z.mod_pos_bound, pow_pos|].
  apply Z.bits_inj'. intros i Hi. destruct (Z.ltb_spec i w).
  - by rewrite Z.mod_pow2_bits_low.
  - rewrite Z.mod_pow2_bits_high by lia. symmetry. by apply Hb.
Qed.

Lemma land_range x y : 0 <= x < 2 ^ w -> 0 <= y < 2 ^ w -> 0 <= Z.land x y < 2 ^ w.
Proof using Hw.
  intros. apply bits_range; [apply Z.land_nonneg; lia|].
  intros i Hi. rewrite Z.land_spec, !testbit_small by done. done.
Qed.

Lemma lor_range x y : 0 <= x < 2 ^ w -> 0 <= y < 2 ^ w -> 0 <= Z.lor x y < 2 ^ w.
Proof using Hw.
  intros. apply bits_range; [apply Z.lor_nonneg; lia|].
  intros i Hi. rewrite Z.lor_spec, !testbit_small by done. done.
Qed.

Lemma lxor_range x y : 0 <= x < 2 ^ w -> 0 <= y < 2 ^ w -> 0 <= Z.lxor x y < 2 ^ w.
Proof using Hw.
  intros. apply bits_range; [apply Z.lxor_nonneg; lia|].
  intros i Hi. rewrite Z.lxor_spec, !testbit_small by done. done.
Qed.

Lemma neg_range x : 0 <= neg w x < 2 ^ w.
Proof using Hw. apply wrap_range. Qed.
Lemma ashr_range x y : 0 <= ashr w x y < 2 ^ w.
Proof using Hw. apply wrap_range. Qed.
Lemma add_range x y : 0 <= add w x y < 2 ^ w.
Proof using Hw. apply wrap_range. Qed.
Lemma sub_range x y : 0 <= sub w x y < 2 ^ w.
Proof using Hw. apply wrap_range. Qed.
Lemma mul_range x y : 0 <= mul w x y < 2 ^ w.
Proof using Hw. apply wrap_range. Qed.

Lemma not_range x : 0 <= x < 2 ^ w -> 0 <= not w x < 2 ^ w.
Proof using Hw. unfold not, ones. lia. Qed.

Lemma shiftr_range x y : 0 <= x < 2 ^ w -> 0 <= y -> 0 <= Z.shiftr x y < 2 ^ w.
Proof using Hw.
  intros Hx Hy. rewrite Z.shiftr_div_pow2 by done.
  assert (0 < 2 ^ y) by (apply Z.pow_pos_nonneg; lia).
  split; [apply Z.div_pos; lia|]. apply Z.div_lt_upper_bound; nia.
Qed.

Lemma shl_range x y : 0 <= shl w x y < 2 ^ w.
Proof using Hw. unfold shl. case_match; [apply zero_range|apply wrap_range]. Qed.

Lemma lshr_range x y :
  0 <= x < 2 ^ w -> 0 <= y < 2 ^ w -> 0 <= lshr w x y < 2 ^ w.
Proof using Hw.
  unfold lshr. case_match; intros; [apply zero_range|apply shiftr_range; lia].
Qed.

Lemma sdiv_range x y : 0 <= sdiv w x y < 2 ^ w.
Proof using Hw.
  unfold sdiv. repeat case_match; auto using wrap_range, ones_range.
Qed.

Lemma srem_range x y : 0 <= x < 2 ^ w -> 0 <= srem w x y < 2 ^ w.
Proof using Hw. unfold srem. case_match; auto using wrap_range. Qed.

Lemma urem_range x y : 0 <= x < 2 ^ w -> 0 <= y < 2 ^ w -> 0 <= urem w x y < 2 ^ w.
Proof using Hw.
  unfold urem. case_match; bool_inv; intros; [done|].
  pose proof (Z.mod_pos_bound x y). lia.
Qed.

Lemma smod_range x y : 0 <= x < 2 ^ w -> 0 <= smod w x y < 2 ^ w.
Proof using Hw. unfold smod. case_match; auto using wrap_range. Qed.

Lemma concat_range wl x y :
  0 <= wl -> 0 <= x < 2 ^ w -> 0 <= y < 2 ^ wl -> 0 <= concat wl x y < 2 ^ (w + wl).
Proof using Hw.
  intros. unfold concat. rewrite Z.shiftl_mul_pow2, Z.pow_add_r by lia. nia.
Qed.

Lemma zext_range w' x : w <= w' -> 0 <= x < 2 ^ w -> 0 <= x < 2 ^ w'.
Proof using Hw. intros. pose proof (Z.pow_le_mono_r 2 w w'). lia. Qed.

Lemma rotl_range k x : 0 <= x < 2 ^ w -> 0 <= rotl w k x < 2 ^ w.
Proof using Hw.
  intros Hx. unfold rotl. pose proof (Z.mod_pos_bound k w Hw) as Hk.
  set (j := k mod w) in *. unfold wrap.
  rewrite Z.shiftl_mul_pow2, Z.shiftr_div_pow2 by lia.
  assert (Hp : 2 ^ w = 2 ^ (w - j) * 2 ^ j)
    by (rewrite <- Z.pow_add_r by lia; f_equal; lia).
  assert (0 < 2 ^ (w - j)) by (apply Z.pow_pos_nonneg; lia).
  assert (0 < 2 ^ j) by (apply Z.pow_pos_nonneg; lia).
  rewrite Hp, Zmult_mod_distr_r.
  pose proof (Z.mod_pos_bound x (2 ^ (w - j))).
  assert (0 <= x / 2 ^ (w - j) < 2 ^ j).
  { split; [apply Z.div_pos; lia|]. apply Z.div_lt_upper_bound; lia. }
  nia.
Qed.

Lemma rotr_range k x : 0 <= x < 2 ^ w -> 0 <= rotr w k x < 2 ^ w.
Proof using Hw. apply rotl_range. Qed.

Lemma sext_range w' x : w <= w' -> 0 <= sext w w' x < 2 ^ w'.
Proof using Hw. intros. apply Z.mod_pos_bound, Z.pow_pos_nonneg; lia. Qed.
End range.

Lemma extract_range hi lo x : lo <= hi -> 0 <= extract hi lo x < 2 ^ (hi - lo + 1).
Proof. intros. apply wrap_range. lia. Qed.

End Bits.

Create HintDb bits.
#[export] Hint Resolve Bits.shl_range Bits.wrap_range Bits.lshr_range Bits.sdiv_range
  Bits.srem_range Bits.urem_range Bits.smod_range Bits.land_range Bits.lor_range
  Bits.lxor_range Bits.not_range Bits.neg_range Bits.ashr_range Bits.add_range
  Bits.sub_range Bits.mul_range Bits.rotl_range Bits.rotr_range Bits.concat_range
  Bits.sext_range Bits.extract_range Bits.zext_range : bits.

(** ** Memories *)
Definition mem_load (m : gmap Z Z) (a : Z) : Z := default 0 (m !! a).
Definition mem_store (m : gmap Z Z) (a d : Z) : gmap Z Z :=
  if d =? 0 then delete a m else <[a := d]> m.
(** The memory that holds [d] everywhere. *)
Definition mem_const (aw d : Z) : gmap Z Z :=
  if d =? 0 then ∅ else list_to_map ((., d) <$> seqZ 0 (2 ^ aw)).

(** ** Typing of values *)
Definition sort_ok (s : Sort) : bool :=
  match s with
  | SortBool => true
  | SortBv w => 0 <? w
  | SortMem aw dw => (0 <? aw) && (0 <? dw)
  | _ => false
  end.

Definition mem_ok (aw dw : Z) (m : gmap Z Z) : bool :=
  bool_decide (map_Forall (fun a d => 0 <= a < 2 ^ aw /\ 0 < d < 2 ^ dw) m).

Definition has_sort (v : val) (s : Sort) : bool :=
  match v, s with
  | VBool _, SortBool => true
  | VBv w n, SortBv w' => (w =? w') && (0 <? w) && (0 <=? n) && (n <? 2 ^ w)
  | VMem aw dw m, SortMem aw' dw' =>
      (aw =? aw') && (dw =? dw') && (0 <? aw) && (0 <? dw) && mem_ok aw dw m
  | _, _ => false
  end.

Lemma has_sort_bool v : has_sort v SortBool = true <-> exists b, v = VBool b.
Proof. destruct v; cbn; naive_solver. Qed.

Lemma has_sort_bv v w :
  has_sort v (SortBv w) = true <-> exists n, v = VBv w n /\ 0 < w /\ 0 <= n < 2 ^ w.
Proof.
  destruct v; cbn; [naive_solver| |naive_solver].
  rewrite !andb_true_iff, Z.eqb_eq, Z.ltb_lt, Z.leb_le, Z.ltb_lt. naive_solver.
Qed.

Lemma has_sort_mem v aw dw :
  has_sort v (SortMem aw dw) = true <->
  exists m, v = VMem aw dw m /\ 0 < aw /\ 0 < dw /\
    map_Forall (fun a d => 0 <= a < 2 ^ aw /\ 0 < d < 2 ^ dw) m.
Proof.
  destruct v; cbn; [naive_solver..|]. unfold mem_ok.
  rewrite !andb_true_iff, !Z.eqb_eq, !Z.ltb_lt, bool_decide_eq_true. naive_solver.
Qed.

Lemma has_sort_ok v s : has_sort v s = true -> sort_ok s = true.
Proof.
  destruct v, s; cbn; intros; bool_inv; subst; try done;
    rewrite ?andb_true_iff, ?Z.ltb_lt; done.
Qed.

Lemma has_sort_inj v s s' : has_sort v s = true -> has_sort v s' = true -> s = s'.
Proof. destruct v, s, s'; cbn; intros; bool_inv; congruence. Qed.

(** Every supported sort is inhabited. *)
Definition default_val (s : Sort) : val :=
  match s with
  | SortBv w => VBv w 0
  | SortMem aw dw => VMem aw dw ∅
  | _ => VBool false
  end.

Lemma default_val_sort s : sort_ok s = true -> has_sort (default_val s) s = true.
Proof.
  destruct s; cbn [default_val sort_ok]; intros; bool_inv; try done.
  - apply has_sort_bv. exists 0. split; [done|]. split; [done|].
    by apply Bits.zero_range.
  - apply has_sort_mem. exists ∅. split_and!; done.
Qed.

(** Well-typed memories are equal when they load equally. *)
Lemma mem_ext aw dw m m' :
  mem_ok aw dw m = true -> mem_ok aw dw m' = true ->
  (forall a, 0 <= a < 2 ^ aw -> mem_load m a = mem_load m' a) -> m = m'.
Proof.
  unfold mem_ok, mem_load. rewrite !bool_decide_eq_true. intros H H' Heq.
  apply map_eq. intros a.
  destruct (m !! a) as [d|] eqn:E, (m' !! a) as [d'|] eqn:E'; [| | |done].
  - specialize (Heq a). rewrite E, E' in Heq. f_equal. apply Heq.
    apply H in E. cbn in E. lia.
  - specialize (Heq a). rewrite E, E' in Heq. apply H in E. cbn in *. lia.
  - specialize (Heq a). rewrite E, E' in Heq. apply H' in E'. cbn in *. lia.
Qed.

Section mem_lemmas.
Context (aw dw : Z).
Local Abbreviation in_range := (fun a d => 0 <= a < 2 ^ aw /\ 0 < d < 2 ^ dw).

Lemma mem_load_range m a :
  0 < dw -> map_Forall in_range m -> 0 <= mem_load m a < 2 ^ dw.
Proof using Type.
  intros Hdw Hm. unfold mem_load. destruct (m !! a) eqn:E; cbn.
  - apply Hm in E. lia.
  - pose proof (Bits.pow_pos dw). lia.
Qed.

Lemma mem_store_range m a d :
  0 <= a < 2 ^ aw -> 0 <= d < 2 ^ dw -> map_Forall in_range m ->
  map_Forall in_range (mem_store m a d).
Proof using Type.
  intros Ha Hd Hm. unfold mem_store. case_match; bool_inv.
  - by apply map_Forall_delete.
  - apply map_Forall_insert_2; [lia|done].
Qed.

Lemma mem_load_store m a d a' :
  mem_load (mem_store m a d) a' = if decide (a = a') then d else mem_load m a'.
Proof using Type.
  unfold mem_load, mem_store. case_match; bool_inv; subst.
  - rewrite lookup_delete. by case_decide.
  - rewrite lookup_insert. by case_decide.
Qed.

Lemma mem_store_load m a :
  map_Forall in_range m -> mem_store m a (mem_load m a) = m.
Proof using Type.
  intros Hm. unfold mem_store, mem_load. destruct (m !! a) eqn:E; cbn.
  - case_match; bool_inv; [|by apply insert_id]. apply Hm in E. lia.
  - by apply delete_id.
Qed.

Lemma mem_load_const d a :
  0 <= a < 2 ^ aw -> mem_load (mem_const aw d) a = d.
Proof using Type.
  intros Ha. unfold mem_load, mem_const. case_match; bool_inv; subst.
  - by rewrite lookup_empty.
  - erewrite elem_of_list_to_map_1'; [done| |].
    + intros y. rewrite list_elem_of_fmap. naive_solver.
    + apply list_elem_of_fmap. exists a. split; [done|]. apply elem_of_seqZ. lia.
Qed.

Lemma mem_const_range d :
  0 <= d < 2 ^ dw -> map_Forall in_range (mem_const aw d).
Proof using Type.
  intros Hd. unfold mem_const. case_match; bool_inv.
  - apply map_Forall_empty.
  - intros a d' E. apply elem_of_list_to_map_2, list_elem_of_fmap in E as (b & E & Hb).
    simplify_eq. apply elem_of_seqZ in Hb. lia.
Qed.
End mem_lemmas.
