(* ===== verification/Container.v ===== *)
(** * Containers

    [include/ilang/util/container.h]: [KeyVec], a vector with a key index, and
    [MapSet], a map to sets.  Keys of a [KeyVec] are strings: a [Symbol] is
    compared by its name.  The lookup of [KeyVec] returns a shared pseudo-iterator whose
    comparison looks at its FOUND/END field only; it is modelled by an option. *)
From S2P Require Import Prelude.

Module KeyVec.

Record KeyVec (T : Type) := { vec_ : list T; map_ : gmap string nat }.
Arguments vec_ {_} _.
Arguments map_ {_} _.

Definition empty {T} : KeyVec T := {| vec_ := []; map_ := ∅ |}.

#[global] Instance KeyVec_eq_dec `{EqDecision T} : EqDecision (KeyVec T).
Proof. solve_decision. Defined.

Section ops.
Context {T : Type}.
Implicit Type v : KeyVec T.

(** [push_back]: [try_emplace] of the next index, then the data when the key
    was new; the returned status says which. *)
Definition push_back v (key : string) (data : T) : bool * KeyVec T :=
  match map_ v !! key with
  | Some _ => (false, v)
  | None => (true, {| vec_ := vec_ v ++ [data];
                      map_ := <[key := length (vec_ v)]> (map_ v) |})
  end.

(** [operator[]] is [vec_.at]. *)
Definition at_ v (idx : nat) : Res T :=
  match vec_ v !! idx with Some t => Ok t | None => Fail EThrow end.

Definition size v : nat := length (vec_ v).

Definition clear v : KeyVec T := empty.

(** [find]: [vec_[idx]] of the recorded index (undefined when it is out of
    range, which [wf] excludes). *)
Definition find v (key : string) : option T := idx ← map_ v !! key; vec_ v !! idx.

(** The index maps the registered keys one to one onto the positions. *)
Record wf v : Prop := {
  wf_lt k i : map_ v !! k = Some i -> i < size v;
  wf_inj k k' i : map_ v !! k = Some i -> map_ v !! k' = Some i -> k = k';
  wf_sur i : i < size v -> exists k, map_ v !! k = Some i }.

Lemma empty_wf : wf empty.
Proof using Type. split; cbn; [done..|lia]. Qed.

Lemma push_back_wf v key data : wf v -> wf (push_back v key data).2.
Proof using Type.
  intros [Hlt Hinj Hsur]. unfold push_back.
  destruct (map_ v !! key) eqn:E; cbn; [by split|].
  assert (Hk : forall k i, <[key:=length (vec_ v)]> (map_ v) !! k = Some i ->
            (k = key /\ i = size v) \/ (k <> key /\ map_ v !! k = Some i)).
  { intros k i. destruct (decide (k = key)) as [->|?].
    - rewrite lookup_insert_eq. intros [= <-]. by left.
    - rewrite lookup_insert_ne by done. by right. }
  split; unfold size in *; cbn; rewrite ?length_app; cbn.
  - intros k i [[-> ->]|[_ H]]%Hk; [lia|]. apply Hlt in H. lia.
  - intros k k' i [[-> ->]|[? H]]%Hk [[-> H']|[? H']]%Hk; try done.
    + apply Hlt in H'. lia.
    + apply Hlt in H. lia.
    + by eapply Hinj.
  - intros i Hi. destruct (decide (i = length (vec_ v))) as [->|?].
    + exists key. by rewrite lookup_insert_eq.
    + destruct (Hsur i) as [k Hk']; [lia|]. exists k.
      rewrite lookup_insert_ne; [done|]. intros ->. congruence.
Qed.

Lemma find_push_back v key data k :
  wf v -> find (push_back v key data).2 k =
  match find v k with
  | Some t => Some t
  | None => if decide (k = key) then Some data else None
  end.
Proof using Type.
  intros [Hlt _ _]. unfold find, push_back.
  destruct (map_ v !! key) as [i|] eqn:E; cbn.
  - destruct (map_ v !! k) as [j|] eqn:E'; cbn; [|case_decide; congruence].
    assert (H := Hlt _ _ E'). apply lookup_lt_is_Some_2 in H as [t ->]. done.
  - destruct (decide (k = key)) as [->|?].
    + rewrite lookup_insert_eq, E. cbn. by rewrite list_lookup_middle.
    + rewrite lookup_insert_ne by done.
      destruct (map_ v !! k) as [j|] eqn:E'; cbn; [|done].
      assert (H := Hlt _ _ E'). unfold size in H. rewrite lookup_app_l by done.
        by apply lookup_lt_is_Some_2 in H as [t ->].
Qed.

(** A sequence of [push_back]s. *)
Definition push_all v (l : list (string * T)) : KeyVec T :=
  foldl (fun v p => (push_back v p.1 p.2).2) v l.

Lemma push_all_wf v l : wf v -> wf (push_all v l).
Proof using Type.
  revert v. induction l as [|p l IH]; cbn; [done|]. intros v Hv.
  by apply IH, push_back_wf.
Qed.

(** The abstract container: the registrations with a fresh key, in order. *)
Fixpoint lookup_first (k : string) (l : list (string * T)) : option T :=
  match l with
  | [] => None
  | p :: l => if decide (k = p.1) then Some p.2 else lookup_first k l
  end.

Fixpoint first_of_each (seen : gset string) (l : list (string * T)) : list T :=
  match l with
  | [] => []
  | p :: l => if decide (p.1 ∈ seen) then first_of_each seen l
              else p.2 :: first_of_each ({[p.1]} ∪ seen) l
  end.

Lemma find_push_all v l k :
  wf v -> find (push_all v l) k =
  match find v k with Some t => Some t | None => lookup_first k l end.
Proof using Type.
  revert v. induction l as [|p l IH]; cbn; intros v Hv; [by case_match|].
  rewrite IH, find_push_back by auto using push_back_wf.
  by destruct (find v k); [|case_decide].
Qed.

Lemma vec_push_all v l :
  vec_ (push_all v l) = vec_ v ++ first_of_each (dom (map_ v)) l.
Proof using Type.
  revert v. induction l as [|p l IH]; cbn; intros v; [by rewrite app_nil_r|].
  rewrite IH. unfold push_back. destruct (map_ v !! p.1) eqn:E; cbn.
  - rewrite decide_True; [done|]. by apply elem_of_dom_2 in E.
  - rewrite decide_False by by apply not_elem_of_dom.
    rewrite dom_insert_L, <- app_assoc. done.
Qed.
End ops.
#[export] Hint Resolve empty_wf push_back_wf : ilang.

(** C38.  A [KeyVec] filled by any sequence of [push_back]s is the ordered,
    keyed collection it stands for: its index stays a bijection between the
    registered keys and the positions, a key finds the first value registered
    under it, and the positions hold exactly the first registrations in order. *)
Theorem KeyVec_spec {T} (l : list (string * T)) :
  let v := push_all empty l in
  wf v /\ (forall k, find v k = lookup_first k l) /\ vec_ v = first_of_each ∅ l.
Proof.
  cbn. split; [auto using push_all_wf, empty_wf|]. split.
  - intros k. by rewrite find_push_all by apply empty_wf.
  - rewrite vec_push_all. cbn. by rewrite dom_empty_L.
Qed.
End KeyVec.
Abbreviation KeyVec := KeyVec.KeyVec.

(** [class MapSet]: a map to sets.  [begin] and [end] give the iterators of the
    underlying map. *)
Module MapSet.
Section ops.
Context {Key T : Type} `{Countable Key, Countable T}.

Definition MapSet := gmap Key (gset T).

(** [map_[k]] creates the empty set of a new key. *)
Definition insert (map_ : gmap Key (gset T)) (k : Key) (t : T) : MapSet :=
  <[k := {[t]} ∪ default ∅ (map_ !! k)]> map_.

(** [map_.at(k)] throws when no pair of that key was inserted. *)
Definition get (map_ : gmap Key (gset T)) (k : Key) : Res (gset T) :=
  match map_ !! k with Some s => Ok s | None => Fail EThrow end.

Definition insert_all (l : list (Key * T)) (map_ : gmap Key (gset T)) : MapSet :=
  foldl (fun m p => insert m p.1 p.2) map_ l.

(** After any insertions, a key gets exactly the values inserted with it, and
    throws when there is none. *)
Lemma get_insert_all l (map_ : gmap Key (gset T)) k :
  get (insert_all l map_) k =
  let s := list_to_set (omap (fun p => if decide (p.1 = k) then Some p.2 else None) l) in
  match map_ !! k with
  | Some s0 => Ok (s0 ∪ s)
  | None => if decide (s = ∅) then Fail EThrow else Ok s
  end.
Proof using Type.
  revert map_. induction l as [|[k' t] l IH]; intros m.
  - cbn. unfold get. destruct (m !! k); [f_equal; set_solver|by rewrite decide_True by done].
  - change (insert_all ((k', t) :: l) m) with (insert_all l (insert m k' t)).
    rewrite IH. unfold insert. cbn [omap list_omap fst snd].
    destruct (decide (k' = k)) as [->|Hk]; cbn [list_to_set].
    + rewrite lookup_insert_eq. destruct (m !! k); cbn; [f_equal; set_solver|].
      rewrite decide_False by set_solver. f_equal. set_solver.
    + by rewrite lookup_insert_ne.
Qed.
End ops.
End MapSet.
