(* ===== verification/Expr.v ===== *)
(** * Expressions

    [include/ilang/ila/symbol.h], [src/ila/symbol.cc], [ast/ast.h],
    [ast/expr.{h,cc}], [ast/func.{h,cc}], the operator enumeration and printed
    names of [ast/expr_op.{h,cc}], and the reference semantics of expressions.

    An [ExprPtr] is modelled by the tree it points to, every node carrying the
    unique id of its symbol; two pointers are equal when the ids are.  Nodes are
    built once and then shared.  The one component that rewrites the arguments of
    existing nodes, [ExprMngr], is modelled in [HashAst], on a heap of nodes. *)
From S2P Require Import Prelude Sort Values.
Local Open Scope Z_scope.

Inductive AstUidExprOp :=
| kInvalid | kNegate | kNot | kComplement | kAnd | kOr | kXor | kShiftLeft
| kArithShiftRight | kLogicShiftRight | kAdd | kSubtract | kMultiply | kEqual
| kLessThan | kGreaterThan | kUnsignedLessThan | kUnsignedGreaterThan | kLoad
| kStore | kConcatenate | kExtract | kZeroExtend | kSignedExtend | kApplyFunc
| kImply | kIfThenElse | kDivide | kRotateLeft | kRotateRight | kSignedRemainder
| kUnsignedRemainder | kSignedModular.

#[export] Instance AstUidExprOp_eq_dec : EqDecision AstUidExprOp.
Proof. solve_decision. Defined.

(** Object ids ([Symbol::id_]) and pointers to ILAs and instructions, which are
    the ids of the objects they point to. *)
Abbreviation objid := N.

(** The fields every [Expr] inherits from [Object], [Ast] and [Expr]: the
    symbol (id and name), the hosting ILA and the sort. *)
Record Hdr := { h_id : objid; h_name : string; h_host : option objid; h_sort : Sort }.

#[export] Instance Hdr_eq_dec : EqDecision Hdr.
Proof. solve_decision. Defined.

(** [class Func]: an uninterpreted function. *)
Record Func := {
  f_id : objid; f_name : string; f_host : option objid;
  out_ : Sort; args_ : list Sort }.

#[export] Instance Func_eq_dec : EqDecision Func.
Proof. solve_decision. Defined.

(** The value of an [ExprConst]: [BoolVal], [BvVal] or [MemVal]. *)
Inductive ConstVal :=
| CBool (b : bool)
| CBv (n : Z)
| CMem (m : SortValue.MemVal).

#[export] Instance ConstVal_eq_dec : EqDecision ConstVal.
Proof. solve_decision. Defined.

(** [ExprVar], [ExprConst] and [ExprOp]; [fn] is the function of an
    [ExprOpAppFunc] and absent from every other operation. *)
Inductive Expr :=
| ExprVar (h : Hdr) (params : list Z)
| ExprConst (h : Hdr) (v : ConstVal) (params : list Z)
| ExprOp (h : Hdr) (op : AstUidExprOp) (fn : option Func) (args : list Expr)
         (params : list Z).

Section expr_ind.
Context (P : Expr -> Prop).
Context (Hvar : forall h ps, P (ExprVar h ps)) (Hconst : forall h v ps, P (ExprConst h v ps))
  (Hop : forall h op fn args ps, Forall P args -> P (ExprOp h op fn args ps)).

Fixpoint Expr_ind' (e : Expr) : P e :=
  match e with
  | ExprVar h ps => Hvar h ps
  | ExprConst h v ps => Hconst h v ps
  | ExprOp h op fn args ps => Hop h op fn args ps
      ((fix go l : Forall P l :=
          match l with
          | [] => Forall_nil_2 _
          | a :: l => Forall_cons_2 _ _ _ (Expr_ind' a) (go l)
          end) args)
  end.
End expr_ind.

(** ** [class Symbol] *)
Module Symbol.
(** The name of a symbol created without one: [$] and its id. *)
Definition default_name (id : objid) : string := "$" +:+ pretty id.

Definition format_str (name prefix suffix : string) : string :=
  let res := name in
  let res := if String.eqb prefix "" then res else prefix +:+ "_sEp_" +:+ res in
  if String.eqb suffix "" then res else res +:+ "_sEp_" +:+ suffix.
End Symbol.

(** ** Accessors of [class Expr] *)
Module Exprs.

Definition hdr (e : Expr) : Hdr :=
  match e with ExprVar h _ | ExprConst h _ _ | ExprOp h _ _ _ _ => h end.

Definition id (e : Expr) : objid := h_id (hdr e).
Definition name (e : Expr) : string := h_name (hdr e).
Definition host (e : Expr) : option objid := h_host (hdr e).
Definition sort (e : Expr) : Sort := h_sort (hdr e).

(** Pointer equality of [ExprPtr]. *)
Definition ptr_eq (a b : Expr) : bool := (id a =? id b)%N.

Definition args (e : Expr) : list Expr :=
  match e with ExprOp _ _ _ args _ => args | _ => [] end.
Definition params (e : Expr) : list Z :=
  match e with ExprVar _ ps | ExprConst _ _ ps | ExprOp _ _ _ _ ps => ps end.

Definition arg_num (e : Expr) : nat := length (args e).
Definition param_num (e : Expr) : nat := length (params e).

(** [args_.at(i)] and [params_.at(i)] throw out of range. *)
Definition at_ {A} (l : list A) (i : nat) : Res A :=
  match l !! i with Some a => Ok a | None => Fail EThrow end.
Definition arg (e : Expr) (i : nat) : Res Expr := at_ (args e) i.
Definition param (e : Expr) (i : nat) : Res Z := at_ (params e) i.

Definition is_const (e : Expr) : bool := match e with ExprConst _ _ _ => true | _ => false end.
Definition is_var (e : Expr) : bool := match e with ExprVar _ _ => true | _ => false end.
Definition is_op (e : Expr) : bool := match e with ExprOp _ _ _ _ _ => true | _ => false end.
Definition is_bool (e : Expr) : bool := Sorts.is_bool (sort e).
Definition is_bv (e : Expr) (width : Z) : bool := Sorts.is_bv (sort e) width.
Definition is_mem (e : Expr) : bool := Sorts.is_mem (sort e).

(** [asthub::GetUidExprOp]: a failing cast dereferences null. *)
Definition GetUidExprOp (e : Expr) : Res AstUidExprOp :=
  match e with ExprOp _ op _ _ _ => Ok op | _ => Fail ENull end.

Definition with_args (e : Expr) (l : list Expr) : Expr :=
  match e with ExprOp h op fn _ ps => ExprOp h op fn l ps | _ => e end.

(** [replace_arg(idx, arg)]. *)
Definition replace_arg_at (e : Expr) (idx : nat) (a : Expr) : Res Expr :=
  if (idx <? arg_num e)%nat then Ok (with_args e (<[idx := a]> (args e)))
  else Fail EThrow.

(** [replace_arg(a, b)]: the loop keeps the last position that holds [a]; when
    there is none the node is unchanged and an error is logged. *)
Fixpoint last_idx (a : Expr) (l : list Expr) (i idx : nat) : nat :=
  match l with
  | [] => idx
  | x :: l => last_idx a l (S i) (if ptr_eq x a then i else idx)
  end.
Definition replace_arg (e a b : Expr) : Expr :=
  let idx := last_idx a (args e) 0 (arg_num e) in
  if (idx =? arg_num e)%nat then e else with_args e (<[idx := b]> (args e)).

(** [DepthFirstVisit]: the arguments in order, then the node. *)
Fixpoint DepthFirstVisit {F : Type -> Type} `{MRet F, MBind F} {S}
    (func : Expr -> S -> F S) (e : Expr) (s : S) : F S :=
  match e with
  | ExprOp _ _ _ args _ =>
      s' ← (fix go (l : list Expr) (s : S) : F S :=
              match l with
              | [] => mret s
              | a :: l => s' ← DepthFirstVisit func a s; go l s'
              end) args s;
      func e s'
  | _ => func e s
  end.

(** [DepthFirstVisitPrePost]: [pre] returning true stops the descent. *)
Fixpoint DepthFirstVisitPrePost {F : Type -> Type} `{MRet F, MBind F} {S}
    (pre : Expr -> S -> bool) (post : Expr -> S -> F S) (e : Expr) (s : S) : F S :=
  if pre e s then mret s else
  match e with
  | ExprOp _ _ _ args _ =>
      s' ← (fix go (l : list Expr) (s : S) : F S :=
              match l with
              | [] => mret s
              | a :: l => s' ← DepthFirstVisitPrePost pre post a s; go l s'
              end) args s;
      post e s'
  | _ => post e s
  end.

(** [kOpName]; [op_name] asserts that the operator is in the table. *)
Definition op_name (op : AstUidExprOp) : Res string :=
  match op with
  | kInvalid => Fail EAssert
  | kNegate => Ok "NEGATE" | kNot => Ok "NOT" | kComplement => Ok "COMPLEMENT"
  | kAnd => Ok "AND" | kOr => Ok "OR" | kXor => Ok "XOR"
  | kShiftLeft => Ok "SHL" | kArithShiftRight => Ok "ASHR"
  | kLogicShiftRight => Ok "LSHR" | kAdd => Ok "ADD" | kSubtract => Ok "SUB"
  | kMultiply => Ok "MUL" | kEqual => Ok "EQ" | kLessThan => Ok "LT"
  | kGreaterThan => Ok "GT" | kUnsignedLessThan => Ok "ULT"
  | kUnsignedGreaterThan => Ok "UGT" | kLoad => Ok "LOAD" | kStore => Ok "STORE"
  | kConcatenate => Ok "CONCAT" | kExtract => Ok "EXTRACT"
  | kZeroExtend => Ok "ZERO_EXTEND" | kSignedExtend => Ok "SIGN_EXTEND"
  | kApplyFunc => Ok "APP" | kImply => Ok "IMPLY" | kIfThenElse => Ok "ITE"
  | kDivide => Ok "DIV" | kRotateLeft => Ok "LEFT_ROTATE"
  | kRotateRight => Ok "RIGHT_ROTATE" | kSignedRemainder => Ok "SREM"
  | kUnsignedRemainder => Ok "UREM" | kSignedModular => Ok "SMOD"
  end.

End Exprs.

(** ** Reference semantics *)

(** The entries of a [std::map] in ascending key order. *)
Definition entries_le (p q : Z * Z) : Prop := p.1 <= q.1.
#[export] Instance entries_le_dec : RelDecision entries_le.
Proof. unfold entries_le. intros p q. apply _. Defined.
Definition map_entries (m : gmap Z Z) : list (Z * Z) :=
  merge_sort entries_le (map_to_list m).

Definition const_sem (s : Sort) (c : ConstVal) : option val :=
  match s, c with
  | SortBool, CBool b => Some (VBool b)
  | SortBv w, CBv n => Some (VBv w (Bits.wrap w n))
  | SortMem aw dw, CMem mv =>
      Some (VMem aw dw
        (foldl (fun m p => mem_store m (Bits.wrap aw p.1) (Bits.wrap dw p.2))
           (mem_const aw (Bits.wrap dw (SortValue.default_ mv)))
           (map_entries (SortValue.val_map_ mv))))
  | _, _ => None
  end.

(** Two operands of one width. *)
Definition bv2 (f : Z -> Z -> Z -> Z) (a b : val) : option val :=
  match a, b with
  | VBv w x, VBv w' y => if w =? w' then Some (VBv w (f w x y)) else None
  | _, _ => None
  end.
Definition cmp2 (f : Z -> Z -> Z -> bool) (a b : val) : option val :=
  match a, b with
  | VBv w x, VBv w' y => if w =? w' then Some (VBool (f w x y)) else None
  | _, _ => None
  end.
Definition logic2 (f : bool -> bool -> bool) (g : Z -> Z -> Z) (a b : val) : option val :=
  match a, b with
  | VBool x, VBool y => Some (VBool (f x y))
  | _, _ => bv2 (fun _ => g) a b
  end.

(** What each operator computes. *)
Definition op_sem (op : AstUidExprOp) (ps : list Z) (vs : list val) : option val :=
  match op, ps, vs with
  | kNegate, [], [VBv w x] => Some (VBv w (Bits.neg w x))
  | kNot, [], [VBool b] => Some (VBool (negb b))
  | kComplement, [], [VBv w x] => Some (VBv w (Bits.not w x))
  | kAnd, [], [a; b] => logic2 andb Z.land a b
  | kOr, [], [a; b] => logic2 orb Z.lor a b
  | kXor, [], [a; b] => logic2 xorb Z.lxor a b
  | kShiftLeft, [], [a; b] => bv2 Bits.shl a b
  | kArithShiftRight, [], [a; b] => bv2 Bits.ashr a b
  | kLogicShiftRight, [], [a; b] => bv2 Bits.lshr a b
  | kAdd, [], [a; b] => bv2 Bits.add a b
  | kSubtract, [], [a; b] => bv2 Bits.sub a b
  | kMultiply, [], [a; b] => bv2 Bits.mul a b
  | kDivide, [], [a; b] => bv2 Bits.sdiv a b
  | kSignedRemainder, [], [a; b] => bv2 Bits.srem a b
  | kUnsignedRemainder, [], [a; b] => bv2 Bits.urem a b
  | kSignedModular, [], [a; b] => bv2 Bits.smod a b
  | kEqual, [], [a; b] => Some (VBool (bool_decide (a = b)))
  | kLessThan, [], [a; b] => cmp2 Bits.slt a b
  | kGreaterThan, [], [a; b] => cmp2 (fun w x y => Bits.slt w y x) a b
  | kUnsignedLessThan, [], [a; b] => cmp2 (fun _ => Z.ltb) a b
  | kUnsignedGreaterThan, [], [a; b] => cmp2 (fun _ => Z.gtb) a b
  | kLoad, [], [VMem aw dw m; VBv w a] =>
      if w =? aw then Some (VBv dw (mem_load m a)) else None
  | kStore, [], [VMem aw dw m; VBv w a; VBv w' d] =>
      if (w =? aw) && (w' =? dw) then Some (VMem aw dw (mem_store m a d)) else None
  | kConcatenate, [], [VBv wh h; VBv wl l] =>
      Some (VBv (wh + wl) (Bits.concat wl h l))
  | kExtract, [hi; lo], [VBv w x] => Some (VBv (hi - lo + 1) (Bits.extract hi lo x))
  | kZeroExtend, [w'], [VBv w x] => Some (VBv w' x)
  | kSignedExtend, [w'], [VBv w x] => Some (VBv w' (Bits.sext w w' x))
  | kRotateLeft, [k], [VBv w x] => Some (VBv w (Bits.rotl w k x))
  | kRotateRight, [k], [VBv w x] => Some (VBv w (Bits.rotr w k x))
  | kImply, [], [VBool a; VBool b] => Some (VBool (implb a b))
  | kIfThenElse, [], [VBool c; a; b] => Some (if c then a else b)
  | _, _, _ => None
  end.

Definition bv2_sort (a b : Sort) : option Sort :=
  match a, b with
  | SortBv w, SortBv w' => if (w =? w') && (0 <? w) then Some (SortBv w) else None
  | _, _ => None
  end.
Definition cmp2_sort (a b : Sort) : option Sort := bv2_sort a b;; Some SortBool.
Definition logic2_sort (a b : Sort) : option Sort :=
  match a, b with SortBool, SortBool => Some SortBool | _, _ => bv2_sort a b end.

(** The sort discipline of the operators. *)
Definition op_sort (op : AstUidExprOp) (ps : list Z) (ss : list Sort) : option Sort :=
  match op, ps, ss with
  | (kNegate | kComplement), [], [SortBv w] => Some (SortBv w)
  | kNot, [], [SortBool] => Some SortBool
  | (kAnd | kOr | kXor), [], [a; b] => logic2_sort a b
  | (kShiftLeft | kArithShiftRight | kLogicShiftRight | kAdd | kSubtract | kMultiply
     | kDivide | kSignedRemainder | kUnsignedRemainder | kSignedModular), [], [a; b] =>
      bv2_sort a b
  | kEqual, [], [a; b] => if decide (a = b) then Some SortBool else None
  | (kLessThan | kGreaterThan | kUnsignedLessThan | kUnsignedGreaterThan), [], [a; b] =>
      cmp2_sort a b
  | kLoad, [], [SortMem aw dw; SortBv w] =>
      if w =? aw then Some (SortBv dw) else None
  | kStore, [], [SortMem aw dw; SortBv w; SortBv w'] =>
      if (w =? aw) && (w' =? dw) then Some (SortMem aw dw) else None
  | kConcatenate, [], [SortBv wh; SortBv wl] => Some (SortBv (wh + wl))
  | kExtract, [hi; lo], [SortBv w] =>
      if (0 <=? lo) && (lo <=? hi) && (hi <? w) then Some (SortBv (hi - lo + 1)) else None
  | (kZeroExtend | kSignedExtend), [w'], [SortBv w] =>
      if w <=? w' then Some (SortBv w') else None
  | (kRotateLeft | kRotateRight), [k], [SortBv w] =>
      if 0 <=? k then Some (SortBv w) else None
  | kImply, [], [SortBool; SortBool] => Some SortBool
  | kIfThenElse, [], [SortBool; a; b] => if decide (a = b) then Some a else None
  | _, _, _ => None
  end.

(** An environment: the values of the variables, the interpretation of the
    functions, and of the zero-argument applications ("nondeterministic"
    values, which belong to the host of the applying node). *)
Record Env := {
  ev_var : Hdr -> val;
  ev_fun : Func -> list val -> val;
  ev_nondet : option objid -> Func -> val }.

Fixpoint eval (ρ : Env) (e : Expr) : option val :=
  match e with
  | ExprVar h _ => Some (ev_var ρ h)
  | ExprConst h c _ => const_sem (h_sort h) c
  | ExprOp h op fn args ps =>
      vs ← (fix go (l : list Expr) : option (list val) :=
              match l with
              | [] => Some []
              | a :: l => v ← eval ρ a; vs ← go l; Some (v :: vs)
              end) args;
      match fn with
      | None => op_sem op ps vs
      | Some f => Some (if args is [] then ev_nondet ρ (h_host h) f else ev_fun ρ f vs)
      end
  end.

Definition evals (ρ : Env) (l : list Expr) : option (list val) := mapM (eval ρ) l.

Definition fn_sem (ρ : Env) (h : Hdr) (f : Func) (vs : list val) : val :=
  if vs is [] then ev_nondet ρ (h_host h) f else ev_fun ρ f vs.

Lemma eval_op ρ h op fn args ps :
  eval ρ (ExprOp h op fn args ps) =
  vs ← evals ρ args;
  match fn with None => op_sem op ps vs | Some f => Some (fn_sem ρ h f vs) end.
Proof.
  cbn. unfold evals.
  assert (E : forall l,
    (fix go (l : list Expr) : option (list val) :=
       match l with
       | [] => Some []
       | a :: l => v ← eval ρ a; vs ← go l; Some (v :: vs)
       end) l = mapM (eval ρ) l).
  { induction l as [|a l IH]; [done|]. cbn. by rewrite IH. }
  rewrite E. clear E. destruct fn as [f|]; [|done].
  destruct args as [|a l]; cbn; [done|].
  destruct (eval ρ a); cbn; [|done]. by destruct (mapM _ l).
Qed.

(** Well-sorted expressions. *)
Definition const_ok (s : Sort) (c : ConstVal) : bool :=
  match s, c with
  | SortBool, CBool _ => true
  | SortBv w, CBv n => (0 <? w) && (0 <=? n) && (n <? 2 ^ w)
  | SortMem aw dw, CMem _ => (0 <? aw) && (0 <? dw)
  | _, _ => false
  end.

Definition fn_ok (op : AstUidExprOp) (f : Func) (ss : list Sort) (s : Sort) : bool :=
  bool_decide (op = kApplyFunc) && bool_decide (args_ f = ss) &&
  bool_decide (out_ f = s) && sort_ok s.

Fixpoint wt (e : Expr) : bool :=
  match e with
  | ExprVar h _ => sort_ok (h_sort h)
  | ExprConst h c _ => const_ok (h_sort h) c
  | ExprOp h op fn args ps =>
      (fix go (l : list Expr) : bool :=
         match l with [] => true | a :: l => wt a && go l end) args &&
      match fn with
      | None => bool_decide (op_sort op ps (Exprs.sort <$> args) = Some (h_sort h))
      | Some f => fn_ok op f (Exprs.sort <$> args) (h_sort h)
      end
  end.

Lemma wt_op h op fn args ps :
  wt (ExprOp h op fn args ps) = true <->
  Forall (fun a => wt a = true) args /\
  match fn with
  | None => op_sort op ps (Exprs.sort <$> args) = Some (h_sort h)
  | Some f => fn_ok op f (Exprs.sort <$> args) (h_sort h) = true
  end.
Proof.
  cbn. rewrite andb_true_iff.
  assert (E : forall l, (fix go (l : list Expr) : bool :=
     match l with [] => true | a :: l => wt a && go l end) l = true <->
     Forall (fun a => wt a = true) l).
  { induction l; [by rewrite Forall_nil|]. rewrite andb_true_iff, Forall_cons. naive_solver. }
  rewrite E. destruct fn; [done|]. by rewrite bool_decide_eq_true.
Qed.

Record env_ok (ρ : Env) : Prop := {
  env_var_ok h : sort_ok (h_sort h) = true -> has_sort (ev_var ρ h) (h_sort h) = true;
  env_fun_ok f vs : sort_ok (out_ f) = true -> has_sort (ev_fun ρ f vs) (out_ f) = true;
  env_nondet_ok m f : sort_ok (out_ f) = true -> has_sort (ev_nondet ρ m f) (out_ f) = true }.

(** ** Well-sorted operators are defined and sort preserving *)
Lemma bv2_sort_Some a b s :
  bv2_sort a b = Some s -> exists w, a = SortBv w /\ b = SortBv w /\ s = SortBv w /\ 0 < w.
Proof.
  unfold bv2_sort. intros H. repeat case_match; bool_inv; simplify_eq. eauto.
Qed.

Lemma has_sort_bv_2 w n : 0 < w -> 0 <= n < 2 ^ w -> has_sort (VBv w n) (SortBv w) = true.
Proof. intros. apply has_sort_bv. eauto. Qed.

Lemma bv2_sound f a b sa sb s :
  (forall w x y, 0 < w -> 0 <= x < 2 ^ w -> 0 <= y < 2 ^ w -> 0 <= f w x y < 2 ^ w) ->
  bv2_sort sa sb = Some s -> has_sort a sa = true -> has_sort b sb = true ->
  exists v, bv2 f a b = Some v /\ has_sort v s = true.
Proof.
  intros Hf (w & -> & -> & -> & Hw)%bv2_sort_Some
    (x & -> & _ & Hx)%has_sort_bv (y & -> & _ & Hy)%has_sort_bv.
  cbn [bv2]. rewrite Z.eqb_refl. eauto using has_sort_bv_2.
Qed.

Lemma cmp2_sound f a b sa sb s :
  cmp2_sort sa sb = Some s -> has_sort a sa = true -> has_sort b sb = true ->
  exists v, cmp2 f a b = Some v /\ has_sort v s = true.
Proof.
  unfold cmp2_sort. destruct (bv2_sort sa sb) eqn:E; [|done]. intros [= <-].
  apply bv2_sort_Some in E as (w & -> & -> & -> & Hw).
  intros (x & -> & _)%has_sort_bv (y & -> & _)%has_sort_bv.
  cbn [cmp2]. rewrite Z.eqb_refl. eauto.
Qed.

Lemma logic2_sound f g a b sa sb s :
  (forall w x y, 0 < w -> 0 <= x < 2 ^ w -> 0 <= y < 2 ^ w -> 0 <= g x y < 2 ^ w) ->
  logic2_sort sa sb = Some s -> has_sort a sa = true -> has_sort b sb = true ->
  exists v, logic2 f g a b = Some v /\ has_sort v s = true.
Proof.
  intros Hg Hs Ha Hb. destruct sa, sb; try discriminate Hs.
  - apply has_sort_bool in Ha as [x ->], Hb as [y ->]. cbn in *. simplify_eq. eauto.
  - destruct a, b; try discriminate. eapply (bv2_sound (fun _ => g) _ _ (SortBv _) (SortBv _)); [exact Hg|done..].
Qed.

Ltac vals_inv :=
  repeat match goal with
  | H : Forall2 _ _ [] |- _ => apply Forall2_nil_inv_r in H; subst
  | H : Forall2 _ _ (_ :: _) |- _ => apply Forall2_cons_inv_r in H as (?&?&?&?&?); subst
  | H : has_sort _ SortBool = true |- _ => apply has_sort_bool in H as [? ->]
  | H : has_sort _ (SortBv _) = true |- _ => apply has_sort_bv in H as (?&->&?&?)
  | H : has_sort _ (SortMem _ _) = true |- _ => apply has_sort_mem in H as (?&->&?&?&?)
  end.

Section op_sound.
Context (op : AstUidExprOp) (ps : list Z) (ss : list Sort) (s : Sort) (vs : list val).
Hypothesis Hs : op_sort op ps ss = Some s.
Hypothesis Hvs : Forall2 (fun v s => has_sort v s = true) vs ss.

Lemma op_sem_sound : exists v, op_sem op ps vs = Some v /\ has_sort v s = true.
Proof using Hs Hvs.
  destruct op; cbn [op_sort] in Hs; repeat (case_match; try discriminate Hs);
    bool_inv; try injection Hs as <-; vals_inv; cbn [op_sem].
  all: try (eapply bv2_sound; [|eassumption..]; intros; cbn beta; eauto with bits; fail).
  all: try (eapply cmp2_sound; eassumption).
  all: try (eapply logic2_sound; [|eassumption..]; intros; eauto with bits; fail).
  all: rewrite ?Z.eqb_refl; cbn [andb].
  all: try (eexists; split; [reflexivity|]; first [done|apply has_sort_bv_2];
            eauto with bits lia; fail).
  all: try discriminate Hs.
  - eexists; split; [done|]. apply has_sort_bv_2; [done|]. exact (mem_load_range addr_width_ data_width_ _ _ H2 H3).
  - eexists; split; [done|]. apply has_sort_mem.
    eexists; split_and!; [done..|]. by apply mem_store_range.
  - match goal with c : bool |- _ => destruct c end; eauto.
Qed.
End op_sound.

Lemma const_sound s c : const_ok s c = true ->
  exists v, const_sem s c = Some v /\ has_sort v s = true.
Proof.
  destruct s, c; cbn [const_ok const_sem]; intros; bool_inv; try done; [eauto| |].
  - eexists; split; [done|]. by apply has_sort_bv_2, Bits.wrap_range.
  - eexists; split; [done|]. apply has_sort_mem. eexists; split_and!; [done..|].
    generalize (mem_const_range addr_width_ data_width_
                  (Bits.wrap data_width_ (SortValue.default_ m))
                  (Bits.wrap_range _ ltac:(done) _)).
    generalize (mem_const addr_width_ (Bits.wrap data_width_ (SortValue.default_ m))).
    induction (map_entries _) as [|p l IH]; cbn; [done|].
    intros g Hg. apply IH. apply mem_store_range; eauto using Bits.wrap_range.
Qed.

Lemma eval_sound_list ρ l :
  Forall (fun e => wt e = true -> exists v, eval ρ e = Some v /\ has_sort v (Exprs.sort e) = true) l ->
  Forall (fun e => wt e = true) l ->
  exists vs, evals ρ l = Some vs /\
    Forall2 (fun v s => has_sort v s = true) vs (Exprs.sort <$> l).
Proof.
  unfold evals. induction 1 as [|e l He _ IH]; intros Hl; [by exists []|].
  apply Forall_cons in Hl as [Hw Hl]. destruct (He Hw) as (v & Hv & Hs).
  destruct (IH Hl) as (vs & Hvs & Hss). exists (v :: vs). cbn.
  rewrite Hv, Hvs. split; [done|]. by constructor.
Qed.

Lemma eval_sound ρ e : env_ok ρ -> wt e = true ->
  exists v, eval ρ e = Some v /\ has_sort v (Exprs.sort e) = true.
Proof.
  intros Hρ. induction e as [h ps|h c ps|h op fn args ps IH] using Expr_ind'.
  - intros Hw. cbn. eauto using env_var_ok.
  - apply const_sound.
  - intros [Hargs Hfn]%wt_op. rewrite eval_op.
    destruct (eval_sound_list ρ args IH Hargs) as (vs & -> & Hvs). cbn.
    destruct fn as [f|]; [|by eapply op_sem_sound].
    unfold fn_ok in Hfn. bool_inv. subst. eexists; split; [done|].
    unfold fn_sem, Exprs.sort in *; cbn in *. destruct vs.
    + rewrite <- H1. apply env_nondet_ok; congruence.
    + rewrite <- H1. apply env_fun_ok; congruence.
Qed.

(** The environment that gives every variable the default of its sort. *)
Definition default_env : Env :=
  {| ev_var h := default_val (h_sort h);
     ev_fun f _ := default_val (out_ f);
     ev_nondet _ f := default_val (out_ f) |}.

Lemma default_env_ok : env_ok default_env.
Proof. split; cbn; auto using default_val_sort. Qed.

Lemma wt_sort_ok e : wt e = true -> sort_ok (Exprs.sort e) = true.
Proof.
  intros Hw. destruct (eval_sound _ _ default_env_ok Hw) as (v & _ & Hv).
  by eapply has_sort_ok.
Qed.

(** ** Object graphs

    An expression is a directed acyclic graph whose nodes are told apart by
    their ids: in [registered T e] every node under [e] is the one the table
    [T] has under its id, so equal ids mean equal sub-expressions. *)
Fixpoint registered (T : gmap objid Expr) (e : Expr) : Prop :=
  T !! Exprs.id e = Some e /\
  match e with
  | ExprOp _ _ _ args _ =>
      (fix go (l : list Expr) : Prop :=
         match l with [] => True | a :: l => registered T a /\ go l end) args
  | _ => True
  end.

Lemma registered_unfold T e :
  registered T e <-> T !! Exprs.id e = Some e /\ Forall (registered T) (Exprs.args e).
Proof.
  destruct e as [h ps|h c ps|h op fn args ps]; cbn [registered Exprs.args];
    [rewrite Forall_nil; tauto..|].
  assert (E : (fix go (l : list Expr) : Prop :=
             match l with [] => True | a :: l => registered T a /\ go l end) args <->
          Forall (registered T) args).
  { induction args as [|a l IH]; [by rewrite Forall_nil|]. rewrite Forall_cons. tauto. }
  by rewrite E.
Qed.

Lemma registered_lookup T e : registered T e -> T !! Exprs.id e = Some e.
Proof. by intros [H _]%registered_unfold. Qed.

(** The visitors, as a loop over the arguments followed by the node. *)
Lemma DepthFirstVisit_unfold {S} (f : Expr -> S -> Res S) e s :
  Exprs.DepthFirstVisit f e s =
  (s' ← foldM (Exprs.DepthFirstVisit f) (Exprs.args e) s; f e s').
Proof.
  destruct e as [h ps|h c ps|h op fn args ps]; [done..|]. cbn.
  assert (E : forall l s, (fix go (l : list Expr) (s : S) : Res S :=
             match l with
             | [] => mret s
             | a :: l => s' ← Exprs.DepthFirstVisit f a s; go l s'
             end) l s = foldM (Exprs.DepthFirstVisit f) l s).
  { induction l as [|a l IH]; [done|]. intros s1. cbn.
    by destruct (Exprs.DepthFirstVisit f a s1); cbn. }
  by rewrite E.
Qed.

Lemma DepthFirstVisitPrePost_unfold {S} (pre : Expr -> S -> bool) (post : Expr -> S -> Res S)
    e s :
  Exprs.DepthFirstVisitPrePost pre post e s =
  if pre e s then Ok s else
  (s' ← foldM (Exprs.DepthFirstVisitPrePost pre post) (Exprs.args e) s; post e s').
Proof.
  destruct e as [h ps|h c ps|h op fn args ps]; cbn; [by case_match..|].
  destruct (pre _ s); [done|].
  assert (E : forall l s, (fix go (l : list Expr) (s : S) : Res S :=
             match l with
             | [] => mret s
             | a :: l => s' ← Exprs.DepthFirstVisitPrePost pre post a s; go l s'
             end) l s = foldM (Exprs.DepthFirstVisitPrePost pre post) l s).
  { induction l as [|a l IH]; [done|]. intros s1. cbn.
    by destruct (Exprs.DepthFirstVisitPrePost pre post a s1); cbn. }
  by rewrite E.
Qed.

(** The plain visit never stops early. *)
Lemma foldM_ext {A S} (f g : A -> S -> Res S) l s :
  Forall (fun a => forall s, f a s = g a s) l -> foldM f l s = foldM g l s.
Proof.
  intros H. revert s. induction H as [|a l Ha _ IH]; intros s; [done|]. cbn. rewrite Ha.
  by destruct (g a s); cbn.
Qed.

(** Induction on the arguments, through the accessor. *)
Lemma Expr_args_ind (P : Expr -> Prop) :
  (forall e, Forall P (Exprs.args e) -> P e) -> forall e, P e.
Proof.
  intros H e. induction e as [h ps|h c ps|h op fn args ps IH] using Expr_ind';
    apply H; cbn; auto using Forall_nil_2.
Qed.

Lemma DepthFirstVisit_pre {S} (f : Expr -> S -> Res S) e s :
  Exprs.DepthFirstVisit f e s = Exprs.DepthFirstVisitPrePost (fun _ _ => false) f e s.
Proof.
  revert s. induction e as [e IH] using Expr_args_ind. intros s.
  by rewrite DepthFirstVisit_unfold, DepthFirstVisitPrePost_unfold, (foldM_ext _ _ _ _ IH).
Qed.

Lemma wt_args e : wt e = true -> Forall (fun a => wt a = true) (Exprs.args e).
Proof. destruct e; cbn [Exprs.args]; auto using Forall_nil_2. by intros [? _]%wt_op. Qed.

(** ** Traversals with a state

    What a visitor establishes of the nodes it has [seen]: [inv] holds of the
    state, the state only grows, and a node whose arguments are seen can be
    visited, which makes it seen (a leaf is visited only when [pre] did not stop
    the descent).  Then both traversals reach the root. *)
Section visits.
Context {S : Type} (T : gmap objid Expr) (pre : Expr -> S -> bool) (f : Expr -> S -> Res S).
Context (ok : Expr -> Prop) (inv : S -> Prop) (le : S -> S -> Prop) (seen : Expr -> S -> Prop).
Context {Hle : PreOrder le}.
Hypothesis ok_args : forall e, ok e -> Forall ok (Exprs.args e).
Hypothesis seen_le : forall e s s', registered T e -> inv s -> inv s' -> le s s' ->
  seen e s -> seen e s'.

Definition visits (g : S -> Res S) (es : list Expr) (s : S) : Prop :=
  exists s', g s = Ok s' /\ inv s' /\ le s s' /\ Forall (fun e => seen e s') es.

Hypothesis f_step : forall e s, registered T e -> ok e -> inv s ->
  (Exprs.args e = [] -> pre e s = false) ->
  Forall (fun a => seen a s) (Exprs.args e) -> visits (f e) [e] s.

Lemma visits_loop (visit : Expr -> S -> Res S) es s :
  Forall (fun e => registered T e -> ok e -> forall s, inv s -> visits (visit e) [e] s) es ->
  Forall (registered T) es -> Forall ok es -> inv s -> visits (foldM visit es) es s.
Proof using Hle seen_le.
  intros Hv. revert s. induction Hv as [|e es He _ IH]; intros s Hr Hok Hs.
  - exists s. split; [done|]. split; [done|]. split; [done|constructor].
  - apply Forall_cons in Hr as [Hre Hr]. apply Forall_cons in Hok as [Hoe Hok].
    destruct (He Hre Hoe s Hs) as (s1 & E1 & H1 & Hs1 & Hd1).
    destruct (IH s1 Hr Hok H1) as (s2 & E2 & H2 & Hs2 & Hd2). exists s2. cbn. rewrite E1.
    split; [exact E2|]. split; [done|]. split; [by etrans|]. constructor; [|done].
    apply Forall_inv in Hd1. exact (seen_le _ _ _ Hre H1 H2 Hs2 Hd1).
Qed.

Lemma visits_node (visit : Expr -> S -> Res S) e s :
  Forall (fun e => registered T e -> ok e -> forall s, inv s -> visits (visit e) [e] s)
    (Exprs.args e) ->
  registered T e -> ok e -> inv s -> pre e s = false ->
  visits (fun s => s' ← foldM visit (Exprs.args e) s; f e s') [e] s.
Proof using Hle f_step ok_args seen_le.
  intros IH Hr Hok Hs Hp. pose proof Hr as [_ Hra]%registered_unfold.
  destruct (visits_loop _ _ s IH Hra (ok_args _ Hok) Hs) as (s1 & E1 & H1 & Hs1 & Hd1).
  destruct (f_step e s1 Hr Hok H1) as (s2 & E2 & H2 & Hs2 & Hd2); [|exact Hd1|].
  { intros Ha. rewrite Ha in E1. by injection E1 as <-. }
  exists s2. rewrite E1. split; [exact E2|]. split; [done|]. split; [by etrans|done].
Qed.

Lemma visits_run e : (forall e s, pre e s = true -> registered T e -> inv s -> seen e s) ->
  registered T e -> ok e -> forall s, inv s ->
  visits (Exprs.DepthFirstVisitPrePost pre f e) [e] s.
Proof using Hle f_step ok_args seen_le.
  intros Hpre. induction e as [e IH] using Expr_args_ind. intros Hr Hok s Hs.
  destruct (pre e s) eqn:Ep.
  - exists s. rewrite DepthFirstVisitPrePost_unfold, Ep. split; [done|]. split; [done|].
    split; [done|]. constructor; [by apply Hpre|constructor].
  - destruct (visits_node _ e s IH Hr Hok Hs Ep) as (s' & E & H). exists s'.
    by rewrite DepthFirstVisitPrePost_unfold, Ep.
Qed.
End visits.

(** ** Memoised traversals

    A visitor that keeps one entry per node: [memo_inv] holds of the table, a
    node whose arguments have entries can be given one, and entries are never
    lost. *)
Section memo.
Context {V : Type} (T : gmap objid Expr) (f : Expr -> gmap objid V -> Res (gmap objid V)).
Context (ok : Expr -> Prop) (good : Expr -> V -> Prop).
Hypothesis ok_args : forall e, ok e -> Forall ok (Exprs.args e).

Definition memo_inv (m : gmap objid V) : Prop :=
  forall i v, m !! i = Some v -> exists e, T !! i = Some e /\ good e v.

(** A node with a good entry. *)
Definition memo_seen (e : Expr) (m : gmap objid V) : Prop :=
  exists v, m !! Exprs.id e = Some v /\ good e v.

Definition memo_visits : (gmap objid V -> Res (gmap objid V)) -> list Expr -> gmap objid V -> Prop :=
  visits memo_inv (⊆) memo_seen.

Lemma memo_entry e m : registered T e -> memo_inv m -> is_Some (m !! Exprs.id e) ->
  memo_seen e m.
Proof using Type.
  intros Hr%registered_lookup Hm [v Hv]. exists v. split; [done|].
  destruct (Hm _ _ Hv) as (e' & He' & Hg). by simplify_eq.
Qed.

Hypothesis f_step : forall e m, registered T e -> ok e -> memo_inv m ->
  Forall (fun a => memo_seen a m) (Exprs.args e) -> memo_visits (f e) [e] m.

Lemma memo_visit e : registered T e -> ok e -> forall m, memo_inv m ->
  memo_visits (Exprs.DepthFirstVisit f e) [e] m.
Proof using ok_args f_step.
  assert (Hle : forall e m m', registered T e -> memo_inv m -> memo_inv m' -> m ⊆ m' ->
    memo_seen e m -> memo_seen e m').
  { intros e' m m' _ _ _ Hle (v & Hv & Hg). exists v. split; [by eapply lookup_weaken|done]. }
  intros Hr Hok m Hm.
  destruct (visits_run T (fun _ _ => false) f ok memo_inv (⊆) memo_seen ok_args Hle
    (fun e m H1 H2 H3 _ => f_step e m H1 H2 H3) e ltac:(done) Hr Hok m Hm) as (m' & E & H).
  exists m'. by rewrite DepthFirstVisit_pre.
Qed.
End memo.
