(* ===== verification/HashAst.v ===== *)
(** * Sharing nodes

    [src/ila/hash_ast.cc]: [ExprMngr], which gives every expression a
    representative, one per structure, and [asthub::TopEq].  It is the one part
    of the program that changes the arguments of nodes that exist, so expressions
    are nodes of a heap here; [unfolds H i e] relates a node to the tree of
    [Expr] it unfolds to. *)
From S2P Require Import Prelude Sort Values Expr.
Local Open Scope Z_scope.

(** ** The heap of nodes *)
Inductive NodeKind :=
| NVar
| NConst (v : ConstVal)
| NOp (op : AstUidExprOp) (fn : option Func).

(** [args_] is a vector of pointers. *)
Record Node := { n_hdr : Hdr; n_kind : NodeKind; n_args : list objid; n_params : list Z }.
Abbreviation Nodes := (gmap objid Node).

Definition set_args (n : Node) (args : list objid) : Node :=
  {| n_hdr := n_hdr n; n_kind := n_kind n; n_args := args; n_params := n_params n |}.

(** ** [ExprMngr] *)
Module ExprMngr.

Definition uid_num (u : AstUidSort) : Z :=
  match u with kBool => 1 | kBv => 2 | kMem => 3 | kStruct => 4 | kVec => 5 end.
Definition op_num (op : AstUidExprOp) : Z :=
  match op with
  | kInvalid => 0 | kNegate => 1 | kNot => 2 | kComplement => 3 | kAnd => 4 | kOr => 5
  | kXor => 6 | kShiftLeft => 7 | kArithShiftRight => 8 | kLogicShiftRight => 9
  | kAdd => 10 | kSubtract => 11 | kMultiply => 12 | kEqual => 13 | kLessThan => 14
  | kGreaterThan => 15 | kUnsignedLessThan => 16 | kUnsignedGreaterThan => 17
  | kLoad => 18 | kStore => 19 | kConcatenate => 20 | kExtract => 21 | kZeroExtend => 22
  | kSignedExtend => 23 | kApplyFunc => 24 | kImply => 25 | kIfThenElse => 26
  | kDivide => 27 | kRotateLeft => 28 | kRotateRight => 29 | kSignedRemainder => 30
  | kUnsignedRemainder => 31 | kSignedModular => 32
  end.

(** "{type}_{bit}_{addr}_{data}"; an unscoped enumeration prints as its number. *)
Definition GetSortHash (s : Sort) : string :=
  let bit := match s with SortBv w => w | _ => 0 end in
  let addr := match s with SortMem aw _ => aw | _ => 0 end in
  let data := match s with SortMem _ dw => dw | _ => 0 end in
  pretty (uid_num (Sorts.uid s)) +:+ "_" +:+ pretty bit +:+ "_" +:+ pretty addr +:+ "_" +:+
  pretty data.

(** The value of a constant: memories are told apart by their symbol. *)
Definition const_value (h : Hdr) (v : ConstVal) : string :=
  match h_sort h, v with
  | SortBool, CBool b => SortValue.BoolVal_str b
  | SortBv _, CBv n => SortValue.BvVal_str n
  | _, _ => pretty (h_id h)
  end.

(** A parameter is pushed to a vector of [size_t]. *)
Definition size_t (z : Z) : Z := z mod 2 ^ 64.

Definition Hash (n : Node) : string :=
  let h := n_hdr n in
  match n_kind n with
  | NVar => "var::" +:+ GetSortHash (h_sort h) +:+ "::" +:+ pretty (h_id h)
  | NConst v => "const::" +:+ GetSortHash (h_sort h) +:+ "::" +:+ const_value h v
  | NOp op fn =>
      let arg_list := n_args n ++ match fn with Some f => [f_id f] | None => [] end in
      let param_list := size_t <$> n_params n in
      "op::" +:+ GetSortHash (h_sort h) +:+ "::" +:+ pretty (op_num op) +:+ "::" +:+
      join "," (pretty <$> arg_list) +:+ "::" +:+ join "," (pretty <$> param_list)
  end.

(** The heap and the table [map_]. *)
Record St := { nodes : Nodes; map_ : gmap string objid }.
Abbreviation S := (ST St).

Definition node (i : objid) : S Node := fun s => n ← deref (nodes s !! i); Ok (n, s).

(** [map_.find(Hash(node))], which must succeed. *)
Definition find (i : objid) : S objid := fun s =>
  n ← deref (nodes s !! i);
  match map_ s !! Hash n with Some r => Ok (r, s) | None => Fail EAssert end.

Definition put_args (i : objid) (reps : list objid) : S unit := fun s =>
  n ← deref (nodes s !! i);
  Ok ((), {| nodes := <[i := set_args n reps]> (nodes s); map_ := map_ s |}).

Definition emplace (i : objid) : S unit := fun s =>
  n ← deref (nodes s !! i);
  match map_ s !! Hash n with
  | Some _ => Ok ((), s)
  | None => Ok ((), {| nodes := nodes s; map_ := <[Hash n := i]> (map_ s) |})
  end.

(** [operator()]. *)
Definition visit (i : objid) : S unit :=
  n ← node i;
  reps ← mapM find (n_args n);
  put_args i reps;;
  emplace i.

(** [node->DepthFirstVisit(mngr)]: the argument is read again at each step of
    the loop (its number never changes: [set_args] is given as many). *)
Fixpoint visit_args (dfv : objid -> S unit) (i : objid) (k : nat) (l : list objid) : S unit :=
  match l with
  | [] => mret ()
  | _ :: l =>
      n ← node i;
      arg_i ← lift (Exprs.at_ (n_args n) k);
      dfv arg_i;;
      visit_args dfv i (Datatypes.S k) l
  end.
Fixpoint DepthFirstVisit (fuel : nat) (i : objid) : S unit :=
  match fuel with
  | O => lift (Fail EDiverge)
  | Datatypes.S fuel =>
      n ← node i;
      visit_args (DepthFirstVisit fuel) i 0 (n_args n);;
      visit i
  end.

(** Fuel: no path of the graph is longer than its number of nodes. *)
Definition GetRep (i : objid) : S objid := fun s =>
  (DepthFirstVisit (Datatypes.S (size (nodes s))) i;; find i) s.

Definition clear (s : St) : St := {| nodes := nodes s; map_ := ∅ |}.
End ExprMngr.

(** [asthub::TopEq], with a manager of its own. *)
Definition TopEq (a b : objid) : ST Nodes bool := fun H =>
  p ← ExprMngr.GetRep a {| ExprMngr.nodes := H; ExprMngr.map_ := ∅ |};
  q ← ExprMngr.GetRep b p.2;
  Ok ((p.1 =? q.1)%N, ExprMngr.nodes q.2).

(** ** Nodes and trees *)
Fixpoint unfolds (H : Nodes) (i : objid) (e : Expr) : Prop :=
  match e with
  | ExprVar h ps =>
      H !! i = Some {| n_hdr := h; n_kind := NVar; n_args := []; n_params := ps |}
  | ExprConst h v ps =>
      H !! i = Some {| n_hdr := h; n_kind := NConst v; n_args := []; n_params := ps |}
  | ExprOp h op fn es ps =>
      exists js, H !! i = Some {| n_hdr := h; n_kind := NOp op fn; n_args := js; n_params := ps |} /\
        (fix go (js : list objid) (es : list Expr) {struct es} : Prop :=
           match js, es with
           | [], [] => True
           | i :: js, e :: es => unfolds H i e /\ go js es
           | _, _ => False
           end) js es
  end.

Lemma unfolds_op H i h op fn es ps : unfolds H i (ExprOp h op fn es ps) <->
  exists js, H !! i = Some {| n_hdr := h; n_kind := NOp op fn; n_args := js; n_params := ps |} /\
    Forall2 (unfolds H) js es.
Proof.
  cbn [unfolds].
  assert (E : forall js es, (fix go (js : list objid) (es : list Expr) {struct es} : Prop :=
      match js, es with
      | [], [] => True
      | i :: js, e :: es => unfolds H i e /\ go js es
      | _, _ => False
      end) js es <-> Forall2 (unfolds H) js es).
  { induction js as [|j js IH]; intros [|e es']; split; intros Hx; try done;
      try (by inversion Hx); try constructor; try (by apply Hx).
    - apply IH, Hx.
    - by inversion Hx.
    - apply IH. by inversion Hx. }
  split; intros (js & H1 & H2); exists js; (split; [done|]); by apply E.
Qed.

(** The equality the manager decides: structure, up to the symbols of the
    operations and of the constants that are not memories. *)
Fixpoint same (e e' : Expr) : Prop :=
  match e, e' with
  | ExprVar h _, ExprVar h' _ => h = h'
  | ExprConst h v _, ExprConst h' v' _ =>
      h_sort h = h_sort h' /\ v = v' /\ (Sorts.is_mem (h_sort h) = true -> h_id h = h_id h')
  | ExprOp h op fn es ps, ExprOp h' op' fn' es' ps' =>
      h_sort h = h_sort h' /\ op = op' /\ fn = fn' /\ ps = ps' /\
      (fix go (es es' : list Expr) : Prop :=
         match es, es' with
         | [], [] => True
         | e :: es, e' :: es' => same e e' /\ go es es'
         | _, _ => False
         end) es es'
  | _, _ => False
  end.

Lemma same_op h op fn es ps e' : same (ExprOp h op fn es ps) e' <->
  exists h' es', e' = ExprOp h' op fn es' ps /\ h_sort h = h_sort h' /\ Forall2 same es es'.
Proof.
  assert (E : forall es es', (fix go (es es' : list Expr) : Prop :=
      match es, es' with
      | [], [] => True
      | e :: es, e' :: es' => same e e' /\ go es es'
      | _, _ => False
      end) es es' <-> Forall2 same es es').
  { clear. induction es as [|e es IH]; intros [|e' es']; split; intros Hx; try done;
      try (by inversion Hx); try constructor; try (by apply Hx).
    - apply IH, Hx.
    - by inversion Hx.
    - apply IH. by inversion Hx. }
  split.
  - destruct e' as [| |h' op' fn' es' ps']; cbn; try done. rewrite E.
    intros (? & <- & <- & <- & ?). eauto.
  - intros (h' & es' & -> & ? & ?). cbn. by rewrite E.
Qed.

Fixpoint depth (e : Expr) : nat :=
  match e with
  | ExprOp _ _ _ es _ =>
      S ((fix go (l : list Expr) : nat :=
            match l with [] => O | a :: l => Nat.max (depth a) (go l) end) es)
  | _ => O
  end.

Lemma depth_arg h op fn es ps e : e ∈ es -> (depth e < depth (ExprOp h op fn es ps))%nat.
Proof.
  intros He. cbn. induction He as [e l|e a l _ IH]; cbn; lia.
Qed.
Lemma depth_bound h op fn es ps d : (forall e, e ∈ es -> (depth e < d)%nat) -> (0 < d)%nat ->
  (depth (ExprOp h op fn es ps) <= d)%nat.
Proof.
  intros He Hd. cbn. induction es as [|e es IH]; [lia|].
  specialize (IH (fun a Ha => He a ltac:(by right))). specialize (He e ltac:(by left)). lia.
Qed.

Lemma same_refl e : same e e.
Proof.
  induction e as [h ps|h v ps|h op fn es ps IH] using Expr_ind'; [done|done|].
  apply same_op. exists h, es. split; [done|]. split; [done|]. by apply Forall_Forall2_diag.
Qed.

Lemma same_trans e1 e2 e3 : same e1 e2 -> same e2 e3 -> same e1 e3.
Proof.
  revert e2 e3. induction e1 as [h ps|h v ps|h op fn es ps IH] using Expr_ind'; intros e2 e3.
  - destruct e2; cbn; try done. intros ->. done.
  - destruct e2, e3; cbn; try done. intros (E1 & -> & H1) (E2 & -> & H2).
    split; [congruence|]. split; [done|]. intros Hm. rewrite H1 by done. apply H2. congruence.
  - intros (h2 & es2 & -> & E2 & Hes2)%same_op (h3 & es3 & -> & E3 & Hes3)%same_op.
    apply same_op. exists h3, es3. split; [done|]. split; [congruence|]. clear -IH Hes2 Hes3.
    revert es2 es3 Hes2 Hes3. induction IH as [|e es He _ IH]; intros es2 es3 H2 H3.
    + apply Forall2_nil_inv_l in H2 as ->. by apply Forall2_nil_inv_l in H3 as ->.
    + apply Forall2_cons_inv_l in H2 as (a & l & Ha & Hl & ->).
      apply Forall2_cons_inv_l in H3 as (b & k & Hb & Hk & ->). constructor; eauto.
Qed.

Lemma same_sym e1 e2 : same e1 e2 -> same e2 e1.
Proof.
  revert e2. induction e1 as [h ps|h v ps|h op fn es ps IH] using Expr_ind'; intros e2.
  - destruct e2; cbn; try done.
  - destruct e2; cbn; try done. intros (E & -> & H). split; [done|]. split; [done|].
    rewrite <- E. intros Hm. symmetry. by apply H.
  - intros (h2 & es2 & -> & E2 & Hes2)%same_op. apply same_op. exists h, es. split; [done|].
    split; [done|]. clear -IH Hes2. induction Hes2 as [|a b l k Hab _ IHl]; [constructor|].
    apply Forall_cons in IH as [Ha IH]. constructor; auto.
Qed.

#[export] Instance same_equiv : Equivalence same.
Proof. split; [exact same_refl|exact same_sym|exact same_trans]. Qed.

Lemma same_depth e e' : same e e' -> depth e = depth e'.
Proof.
  revert e'. induction e as [h ps|h v ps|h op fn es ps IH] using Expr_ind'; intros e'.
  - by destruct e'.
  - by destruct e'.
  - intros (h2 & es2 & -> & _ & Hes2)%same_op. cbn. f_equal.
    induction Hes2 as [|a b l k Hab _ IHl]; [done|]. apply Forall_cons in IH as [Ha IH].
    rewrite (Ha _ Hab). f_equal. by apply IHl.
Qed.

(** Equal structures have equal values, in environments where a value chosen by
    a function without arguments does not depend on who applies it. *)
Lemma same_eval ρ e e' : (forall m m' f, ev_nondet ρ m f = ev_nondet ρ m' f) ->
  same e e' -> eval ρ e = eval ρ e'.
Proof.
  intros Hρ. revert e'. induction e as [h ps|h v ps|h op fn es ps IH] using Expr_ind'; intros e'.
  - destruct e'; cbn; try done. by intros ->.
  - destruct e'; cbn; try done. intros (-> & -> & _). done.
  - intros (h2 & es2 & -> & Hs & Hes2)%same_op. rewrite !eval_op.
    assert (E : evals ρ es = evals ρ es2).
    { unfold evals. clear -IH Hes2. induction Hes2 as [|a b l k Hab _ IHl]; [done|].
      apply Forall_cons in IH as [Ha IH]. cbn. by rewrite (Ha _ Hab), IHl. }
    rewrite E. destruct (evals ρ es2) as [vs|]; [|done]. cbn. destruct fn as [f|]; [|done].
    unfold fn_sem. destruct vs; [|done]. by rewrite (Hρ (h_host h) (h_host h2)).
Qed.

Lemma unfolds_fun H i e e' : unfolds H i e -> unfolds H i e' -> e = e'.
Proof.
  revert i e'. induction e as [h ps|h v ps|h op fn es ps IH] using Expr_ind'; intros i e' H1 H2.
  - cbn in H1. destruct e'; cbn in H2; try (destruct H2 as (? & H2 & _)); rewrite H1 in H2; congruence.
  - cbn in H1. destruct e'; cbn in H2; try (destruct H2 as (? & H2 & _)); rewrite H1 in H2; congruence.
  - apply unfolds_op in H1 as (js & Hi & Hes). destruct e' as [| |h' op' fn' es' ps'].
    + cbn in H2. congruence.
    + cbn in H2. congruence.
    + apply unfolds_op in H2 as (js' & Hi' & Hes'). rewrite Hi in Hi'. injection Hi' as -> -> -> -> ->.
      f_equal. clear Hi. revert es' Hes'. induction Hes as [|j a js l Ha _ IHl]; intros l' Hl'.
      * by apply Forall2_nil_inv_l in Hl' as ->.
      * apply Forall2_cons_inv_l in Hl' as (b & k & Hb & Hk & ->).
        apply Forall_cons in IH as [IHa IH]. f_equal; eauto.
Qed.

(** ** The keys *)
Section keys.
Context (FT : gmap objid Func).
Import ExprMngr.

(** A well-formed node: its symbol is its address, its sort has a width, its
    constant fits its sort, its parameters are [int]s, and it applies a function
    of the table exactly when it is an application. *)
Definition kind_ok (n : Node) : Prop :=
  match n_kind n with
  | NVar => n_args n = []
  | NConst v => n_args n = [] /\ const_ok (h_sort (n_hdr n)) v = true
  | NOp op fn =>
      match fn with
      | Some f => op = kApplyFunc /\ FT !! f_id f = Some f
      | None => op <> kApplyFunc
      end /\ Forall (fun p => - 2 ^ 31 <= p < 2 ^ 31) (n_params n)
  end.
Definition node_ok (i : objid) (n : Node) : Prop :=
  h_id (n_hdr n) = i /\ sort_ok (h_sort (n_hdr n)) = true /\ kind_ok n.

Lemma op_num_inj op op' : op_num op = op_num op' -> op = op'.
Proof. by destruct op, op'. Qed.
Lemma op_num_pos op : 0 <= op_num op.
Proof. by destruct op. Qed.

Lemma pretty_Z_no c z : digit c = false -> 0 <= z -> str_no c (pretty z) = true.
Proof. intros Hc Hz. by apply digits_no, pretty_Z_digits. Qed.
Lemma pretty_N_no c (z : N) : digit c = false -> str_no c (pretty z) = true.
Proof. intros Hc. by apply digits_no, pretty_N_digits. Qed.

Lemma sort_hash_no s : sort_ok s = true -> str_no ":" (GetSortHash s) = true.
Proof.
  intros Hs. unfold GetSortHash. repeat (rewrite str_no_app; apply andb_true_iff; split);
    try done; apply pretty_Z_no; try done; destruct s; cbn in *; bool_inv; lia.
Qed.

Lemma sort_hash_inj s s' : sort_ok s = true -> sort_ok s' = true ->
  GetSortHash s = GetSortHash s' -> s = s'.
Proof.
  intros Hs Hs' E. unfold GetSortHash in E.
  repeat match type of E with
  | ?a +:+ "_" +:+ ?t = ?b +:+ "_" +:+ ?t' =>
      apply (str_split "_" a b t t') in E as [? E];
        [|apply pretty_Z_no; [done|destruct s; cbn in *; bool_inv; lia]
         |apply pretty_Z_no; [done|destruct s'; cbn in *; bool_inv; lia]]
  end.
  repeat match goal with H : pretty _ = pretty _ |- _ => apply (inj pretty) in H end.
  destruct s, s'; cbn in *; congruence.
Qed.

Lemma const_value_inj h h' v v' : h_sort h = h_sort h' ->
  const_ok (h_sort h) v = true -> const_ok (h_sort h') v' = true ->
  const_value h v = const_value h' v' ->
  if Sorts.is_mem (h_sort h) then h_id h = h_id h' else v = v'.
Proof.
  unfold const_value. intros <-. destruct (h_sort h), v, v'; cbn; try done; intros _ _ E.
  - by destruct b, b0.
  - apply (inj pretty) in E. by subst.
  - by apply (inj pretty) in E.
Qed.

Lemma ids_no c (l : list objid) : digit c = false ->
  Forall (fun s => str_no c s = true /\ s <> "") (pretty <$> l).
Proof.
  intros Hc. apply Forall_fmap, Forall_true. intros z. split; [by apply pretty_N_no|apply pretty_N_ne].
Qed.
Lemma size_t_range z : 0 <= size_t z < 2 ^ 64.
Proof. unfold size_t. apply Z.mod_pos_bound. lia. Qed.
Lemma params_no c (l : list Z) : digit c = false ->
  Forall (fun s => str_no c s = true /\ s <> "") (pretty <$> (size_t <$> l)).
Proof.
  intros Hc. apply Forall_fmap, Forall_fmap, Forall_true. intros z.
  pose proof (size_t_range z). split; [apply pretty_Z_no; [done|lia]|apply pretty_Z_ne; lia].
Qed.
Lemma size_t_inj z z' : - 2 ^ 31 <= z < 2 ^ 31 -> - 2 ^ 31 <= z' < 2 ^ 31 ->
  size_t z = size_t z' -> z = z'.
Proof. unfold size_t. intros. Z.to_euclidean_division_equations. lia. Qed.

Lemma fmap_inj_on {A B} (P : A -> Prop) (f : A -> B) l l' :
  (forall x y, P x -> P y -> f x = f y -> x = y) -> Forall P l -> Forall P l' ->
  f <$> l = f <$> l' -> l = l'.
Proof.
  intros Hf. revert l'. induction l as [|x l IH]; intros [|y l'] Hl Hl' E; try done.
  apply Forall_cons in Hl as [Hx Hl], Hl' as [Hy Hl']. injection E as E1 E2.
  f_equal; auto.
Qed.

Lemma arg_list_inj (l l' : list objid) : join "," (pretty <$> l) = join "," (pretty <$> l') -> l = l'.
Proof.
  intros E%join_inj; [|by apply ids_no..]. by apply (inj (fmap pretty)) in E.
Qed.
Lemma param_list_inj l l' : Forall (fun p => - 2 ^ 31 <= p < 2 ^ 31) l ->
  Forall (fun p => - 2 ^ 31 <= p < 2 ^ 31) l' ->
  join "," (pretty <$> (size_t <$> l)) = join "," (pretty <$> (size_t <$> l')) -> l = l'.
Proof.
  intros Hl Hl' E%join_inj; [|by apply params_no..]. apply (inj (fmap pretty)) in E.
  eapply fmap_inj_on; [|exact Hl|exact Hl'|exact E]. intros. by apply size_t_inj.
Qed.

(** What a key determines. *)
Definition node_same (n n' : Node) : Prop :=
  match n_kind n, n_kind n' with
  | NVar, NVar => h_id (n_hdr n) = h_id (n_hdr n')
  | NConst v, NConst v' => h_sort (n_hdr n) = h_sort (n_hdr n') /\
      if Sorts.is_mem (h_sort (n_hdr n)) then h_id (n_hdr n) = h_id (n_hdr n') else v = v'
  | NOp op fn, NOp op' fn' => h_sort (n_hdr n) = h_sort (n_hdr n') /\ op = op' /\ fn = fn' /\
      n_args n = n_args n' /\ n_params n = n_params n'
  | _, _ => False
  end.

Lemma field_inj a b (t t' : string) : str_no ":" a = true -> str_no ":" b = true ->
  a +:+ "::" +:+ t = b +:+ "::" +:+ t' -> a = b /\ t = t'.
Proof.
  intros Ha Hb E. apply (str_split ":" a b (String ":" t) (String ":" t')) in E as [-> E]; [|done..].
  by injection E as ->.
Qed.

Lemma Hash_inj i i' n n' : node_ok i n -> node_ok i' n' -> Hash n = Hash n' -> node_same n n'.
Proof.
  intros (_ & Hs & Hk) (_ & Hs' & Hk') E. unfold Hash, node_same, kind_ok in *.
  destruct (n_kind n) as [|v|op fn], (n_kind n') as [|v'|op' fn']; try discriminate E.
  - apply (inj (String.append "var::")), field_inj in E as [_ E]; [|by apply sort_hash_no..].
    by apply (inj pretty) in E.
  - apply (inj (String.append "const::")), field_inj in E as [E1 E]; [|by apply sort_hash_no..].
    apply sort_hash_inj in E1; [|done..]. split; [done|].
    destruct Hk as [_ Hk], Hk' as [_ Hk']. by apply const_value_inj.
  - apply (inj (String.append "op::")), field_inj in E as [E1 E]; [|by apply sort_hash_no..].
    apply sort_hash_inj in E1; [|done..].
    apply field_inj in E as [E2 E]; [|apply pretty_Z_no; [done|apply op_num_pos]..].
    apply (inj pretty), op_num_inj in E2. subst op'.
    assert (Hno : forall l : list objid, str_no ":" (join "," (pretty <$> l)) = true).
    { intros l. apply join_no; [done|]. eapply Forall_impl; [by apply (ids_no ":")|]. by intros ? []. }
    apply field_inj in E as [E3 E4]; [|apply Hno..]. apply arg_list_inj in E3.
    destruct Hk as [Hf Hp], Hk' as [Hf' Hp']. apply param_list_inj in E4; [|done..].
    split; [done|]. split; [done|]. destruct fn as [f|], fn' as [f'|].
    + apply app_inj_2 in E3 as [Ea Ef]; [|done]. destruct Hf as [_ Hf], Hf' as [_ Hf'].
      injection Ef as Ef. rewrite Ef, Hf' in Hf. by injection Hf as ->.
    + by destruct Hf as [-> _].
    + by destruct Hf' as [-> _].
    + rewrite !app_nil_r in E3. done.
Qed.
End keys.

(** ** The table *)
Section mngr.
Context (FT : gmap objid Func).
Import ExprMngr.

Definition is_rep (s : St) (a : objid) : Prop :=
  exists n, nodes s !! a = Some n /\ map_ s !! Hash n = Some a.
(** The arguments are representatives: the node is not changed any more. *)
Definition settled (s : St) (i : objid) : Prop :=
  exists n, nodes s !! i = Some n /\ Forall (is_rep s) (n_args n).
(** [r] is what [GetRep] answers for [i]. *)
Definition rep_of (s : St) (i r : objid) : Prop :=
  settled s i /\ exists n, nodes s !! i = Some n /\ map_ s !! Hash n = Some r.

Record mngr_ok (s : St) : Prop := {
  mo_node i n : nodes s !! i = Some n -> node_ok FT i n;
  mo_map k r : map_ s !! k = Some r -> settled s r /\
    exists n e, nodes s !! r = Some n /\ Hash n = k /\ unfolds (nodes s) r e }.

Record grown (s s' : St) : Prop := {
  gr_size : size (nodes s') = size (nodes s);
  gr_map : map_ s ⊆ map_ s';
  gr_settled i n : nodes s !! i = Some n -> settled s i -> nodes s' !! i = Some n;
  gr_unfolds i e : unfolds (nodes s) i e -> exists e', unfolds (nodes s') i e' /\ same e e' }.

Lemma is_rep_settled s a : mngr_ok s -> is_rep s a -> settled s a.
Proof. intros Hs (n & _ & Hm). apply (mo_map _ Hs _ _ Hm). Qed.

Lemma is_rep_grown s s' a : mngr_ok s -> grown s s' -> is_rep s a -> is_rep s' a.
Proof.
  intros Hs Hg Ha. pose proof (is_rep_settled _ _ Hs Ha) as Hr.
  destruct Ha as (n & Hn & Hm). exists n. split.
  - by apply (gr_settled _ _ Hg).
  - by eapply lookup_weaken, (gr_map _ _ Hg).
Qed.

Lemma settled_grown s s' i : mngr_ok s -> grown s s' -> settled s i -> settled s' i.
Proof.
  intros Hs Hg Hi. pose proof Hi as (n & Hn & Hr). exists n. split.
  - by apply (gr_settled _ _ Hg).
  - eapply Forall_impl; [exact Hr|]. intros a. by apply is_rep_grown.
Qed.

Lemma rep_of_grown s s' i r : mngr_ok s -> grown s s' -> rep_of s i r -> rep_of s' i r.
Proof.
  intros Hs Hg [Hi (n & Hn & Hm)]. split; [by eapply settled_grown|]. exists n. split.
  - by apply (gr_settled _ _ Hg).
  - by eapply lookup_weaken, (gr_map _ _ Hg).
Qed.

#[local] Instance grown_refl : Reflexive grown.
Proof. intros s. split; try done. intros i e He. by exists e. Qed.
Lemma grown_trans s1 s2 s3 : mngr_ok s1 -> grown s1 s2 -> grown s2 s3 -> grown s1 s3.
Proof.
  intros Hok H1 H2. split.
  - by rewrite (gr_size _ _ H2), (gr_size _ _ H1).
  - etrans; [apply (gr_map _ _ H1)|apply (gr_map _ _ H2)].
  - intros i n Hn Hi. apply (gr_settled _ _ H2); [by apply (gr_settled _ _ H1)|].
    by eapply settled_grown.
  - intros i e He. destruct (gr_unfolds _ _ H1 i e He) as (e1 & He1 & Hs1).
    destruct (gr_unfolds _ _ H2 i e1 He1) as (e2 & He2 & Hs2). exists e2. split; [done|]. by etrans.
Qed.

(** A node unfolds to a tree of its kind; nodes that one key describes unfold to
    equal structures. *)
Lemma unfolds_same_node s i j ei n n' : mngr_ok s -> nodes s !! i = Some n ->
  nodes s !! j = Some n' -> Hash n = Hash n' -> (exists ej, unfolds (nodes s) j ej) ->
  unfolds (nodes s) i ei -> exists ej, unfolds (nodes s) j ej /\ same ei ej.
Proof.
  intros Hs Hi Hj Hh (ej & Hej) Hei. exists ej. split; [done|].
  pose proof (mo_node _ Hs _ _ Hi) as Hni. pose proof (mo_node _ Hs _ _ Hj) as Hnj.
  pose proof (Hash_inj FT _ _ _ _ Hni Hnj Hh) as Hsame. unfold node_same in Hsame.
  destruct ei as [h ps|h v ps|h op fn es ps].
  - cbn in Hei. simplify_eq. cbn in Hsame. destruct (n_kind n') eqn:Ek; try done.
    destruct Hni as [Hid _], Hnj as [Hid' _]. cbn in Hid. assert (i = j) as <- by congruence.
    simplify_eq. destruct ej; cbn in Hej; try (destruct Hej as (? & Hej & _)); simplify_eq. done.
  - cbn in Hei. simplify_eq. cbn in Hsame. destruct ej as [h' ps'|h' v' ps'|h' op' fn' es' ps'];
      cbn in Hej; try (destruct Hej as (? & Hej & _)); simplify_eq; cbn in Hsame; try done.
    destruct Hsame as [Hsort Hv]. cbn. split; [done|].
    destruct (Sorts.is_mem (h_sort h)); [|by split].
    destruct Hni as [Hid _], Hnj as [Hid' _]. cbn in Hid, Hid'.
    assert (i = j) as <- by congruence. simplify_eq. done.
  - apply unfolds_op in Hei as (js & Hn & Hes). rewrite Hi in Hn. simplify_eq. cbn in Hsame.
    destruct ej as [h' ps'|h' v' ps'|h' op' fn' es' ps'];
      [cbn in Hej; simplify_eq; done|cbn in Hej; simplify_eq; done|].
    apply unfolds_op in Hej as (js' & Hn' & Hes'). rewrite Hj in Hn'. simplify_eq. cbn in Hsame.
    destruct Hsame as (Hsort & <- & <- & <- & <-). apply same_op. exists h', es'.
    split; [done|]. split; [done|]. clear -Hes Hes'. revert es' Hes'.
    induction Hes as [|a x js es Hx _ IH]; intros es' Hes'.
    + by apply Forall2_nil_inv_l in Hes' as ->.
    + apply Forall2_cons_inv_l in Hes' as (y & k & Hy & Hk & ->). constructor; [|auto].
      by rewrite (unfolds_fun _ _ _ _ Hx Hy).
Qed.

Lemma rep_of_same s i r e : mngr_ok s -> rep_of s i r -> unfolds (nodes s) i e ->
  exists e', unfolds (nodes s) r e' /\ same e e'.
Proof.
  intros Hs [_ (n & Hn & Hm)] He. destruct (mo_map _ Hs _ _ Hm) as [_ (n' & e' & Hn' & Hh & He')].
  eapply unfolds_same_node; [done|exact Hn|exact Hn'|done|by exists e'|done].
Qed.

(** ** Replacing the arguments of a node *)
Section put.
Context (H : Nodes) (i : objid) (n : Node) (reps : list objid).
Hypothesis Hi : H !! i = Some n.
(** Each argument is replaced by a node of the same structure. *)
Hypothesis Hreps : Forall2 (fun a r => forall e, unfolds H a e ->
  exists e', unfolds H r e' /\ same e e') (n_args n) reps.
Local Abbreviation H' := (<[i := set_args n reps]> H).

Lemma put_list d es js (rs : list objid) :
  (forall j e, (depth e < d)%nat -> unfolds H j e -> exists e', unfolds H' j e' /\ same e e') ->
  (forall e, e ∈ es -> (depth e < d)%nat) ->
  Forall2 (unfolds H) js es ->
  Forall2 (fun a r => forall e, unfolds H a e -> exists e', unfolds H r e' /\ same e e') js rs ->
  exists es', Forall2 (unfolds H') rs es' /\ Forall2 same es es'.
Proof using Type.
  intros IH Hd Hes. revert rs. induction Hes as [|j e js es Hj _ IHl]; intros rs Hrs.
  - apply Forall2_nil_inv_l in Hrs as ->. by exists [].
  - apply Forall2_cons_inv_l in Hrs as (r & rs' & Hr & Hrs & ->).
    destruct (Hr e Hj) as (e1 & He1 & Hs1).
    destruct (IH r e1) as (e2 & He2 & Hs2); [rewrite <- (same_depth _ _ Hs1); apply Hd; by left|done|].
    destruct (IHl (fun a Ha => Hd a ltac:(by right)) _ Hrs) as (l & Hl & Hsl).
    exists (e2 :: l). split; constructor; try done. by etrans.
Qed.

Lemma put_unfolds d : forall j e, (depth e < d)%nat -> unfolds H j e ->
  exists e', unfolds H' j e' /\ same e e'.
Proof using Hi Hreps.
  induction d as [|d IH]; intros j e Hd He; [lia|].
  destruct e as [h ps|h v ps|h op fn es ps].
  - exists (ExprVar h ps). split; [|done]. cbn in He |- *. destruct (decide (i = j)) as [<-|].
    + rewrite Hi in He. injection He as ->. apply Forall2_nil_inv_l in Hreps as ->.
      by rewrite lookup_insert_eq.
    + by rewrite lookup_insert_ne.
  - exists (ExprConst h v ps). split; [|apply same_refl]. cbn in He |- *.
    destruct (decide (i = j)) as [<-|].
    + rewrite Hi in He. injection He as ->. apply Forall2_nil_inv_l in Hreps as ->.
      by rewrite lookup_insert_eq.
    + by rewrite lookup_insert_ne.
  - apply unfolds_op in He as (js & Hn & Hes).
    assert (Hde : forall e, e ∈ es -> (depth e < d)%nat).
    { intros e He. pose proof (depth_arg h op fn es ps e He). lia. }
    destruct (decide (i = j)) as [<-|Hne].
    + rewrite Hi in Hn. injection Hn as En. rewrite En in Hreps. cbn in Hreps.
      destruct (put_list d es js reps IH Hde Hes Hreps) as (es' & He' & Hs').
      exists (ExprOp h op fn es' ps). split; [|apply same_op; eauto].
      apply unfolds_op. exists reps.
      split; [by rewrite lookup_insert_eq, En|done].
    + destruct (put_list d es js js IH Hde Hes) as (es' & He' & Hs').
      { apply Forall2_same. intros a _ e' Ha. exists e'. split; [done|apply same_refl]. }
      exists (ExprOp h op fn es' ps). split; [|apply same_op; eauto].
      apply unfolds_op. exists js.
      split; [by rewrite lookup_insert_ne|done].
Qed.
End put.

(** ** One visit *)
Lemma rep_is_rep s a r : mngr_ok s -> rep_of s a r -> is_rep s r.
Proof.
  intros Hs [_ (n & _ & Hm)]. destruct (mo_map _ Hs _ _ Hm) as [_ (n' & _ & Hn' & Hh & _)].
  exists n'. by rewrite Hh.
Qed.
Lemma rep_of_rep s a r : is_rep s a -> rep_of s a r -> r = a.
Proof. intros (n & Hn & Hm) [_ (n' & Hn' & Hm')]. by simplify_eq. Qed.

Lemma find_all s l reps : Forall2 (rep_of s) l reps -> mapM find l s = Ok (reps, s).
Proof.
  induction 1 as [|a r l k [_ (n & Hn & Hm)] _ IH]; [done|]. cbn.
  rewrite (ST_bind_run _ _ s r s) by (unfold find; rewrite Hn; cbn; by rewrite Hm).
  by rewrite (ST_bind_run _ _ _ _ _ IH).
Qed.

(** Nodes of a greater depth are not touched. *)
Definition above (d : nat) (s s' : St) : Prop :=
  forall j e, unfolds (nodes s) j e -> (d < depth e)%nat -> nodes s' !! j = nodes s !! j.

Lemma above_trans d d' s1 s2 s3 : (d <= d')%nat -> grown s1 s2 ->
  above d s1 s2 -> above d' s2 s3 -> above d' s1 s3.
Proof.
  intros Hd Hg H1 H2 j e He Hlt. destruct (gr_unfolds _ _ Hg _ _ He) as (e' & He' & Hs).
  rewrite (H2 j e' He'); [|by rewrite <- (same_depth _ _ Hs)]. apply (H1 j e He). lia.
Qed.

Section visit.
Context (s : St) (i : objid) (n : Node) (e : Expr) (reps : list objid).
Hypothesis Hs : mngr_ok s.
Hypothesis Hn : nodes s !! i = Some n.
Hypothesis He : unfolds (nodes s) i e.
Hypothesis Hreps : Forall2 (rep_of s) (n_args n) reps.
Let n1 : Node := set_args n reps.
Let s1 : St := {| nodes := <[i := n1]> (nodes s); map_ := map_ s |}.

Lemma settled_reps : settled s i -> reps = n_args n.
Proof using Hn Hreps.
  intros (n' & Hn' & Hr). rewrite Hn in Hn'. injection Hn' as <-.
  clear n1 s1 Hn. revert Hr. induction Hreps as [|a r l k Har _ IH]; [done|]. intros [Ha Hl]%Forall_cons.
  by rewrite (rep_of_rep _ _ _ Ha Har), (IH ltac:(by inversion Hreps) Hl).
Qed.

Lemma put_settled j nj : nodes s !! j = Some nj -> settled s j -> nodes s1 !! j = Some nj.
Proof using Hn Hreps.
  intros Hj Hset. cbn. destruct (decide (i = j)) as [<-|]; [|by rewrite lookup_insert_ne].
  rewrite lookup_insert_eq, <- Hj, Hn. unfold n1. rewrite (settled_reps Hset). by destruct n.
Qed.

Lemma put_is_rep a : is_rep s a -> is_rep s1 a.
Proof using Hn Hreps Hs.
  intros Ha. pose proof (is_rep_settled _ _ Hs Ha) as Hset. destruct Ha as (na & Hna & Hm).
  exists na. split; [|done]. by apply put_settled.
Qed.

Lemma reps_is_rep : Forall (is_rep s1) reps.
Proof using Hn Hreps Hs.
  assert (Forall (is_rep s) reps) as H.
  { clear Hn s1 n1. induction Hreps as [|a r l k Har _ IH]; constructor;
      [by eapply rep_is_rep|apply IH; by inversion Hreps]. }
  eapply Forall_impl; [exact H|]. apply put_is_rep.
Qed.

Lemma put_same j ej : unfolds (nodes s) j ej -> exists ej', unfolds (nodes s1) j ej' /\ same ej ej'.
Proof using Hn Hreps Hs.
  intros Hj. refine (put_unfolds (nodes s) i n reps Hn _ (1 + depth ej)%nat j ej _ Hj); [|lia].
  eapply Forall2_impl; [exact Hreps|]. intros a r Har ea Hea. by eapply rep_of_same.
Qed.

Lemma put_ok : mngr_ok s1 /\ grown s s1 /\ above (depth e) s s1.
Proof using He Hn Hreps Hs.
  split; [split|split; [split|]].
  - intros j nj. cbn. rewrite lookup_insert_Some. intros [[<- <-]|[_ Hj]]; [|by apply (mo_node _ Hs)].
    destruct (mo_node _ Hs _ _ Hn) as (H1 & H2 & H3). split; [done|]. split; [done|].
    unfold kind_ok in *. cbn. destruct (n_kind n); [|destruct H3 as [H3 ?]; split; [|done]|done].
    all: rewrite H3 in Hreps; by apply Forall2_nil_inv_l in Hreps.
  - intros k r Hm. cbn in Hm. destruct (mo_map _ Hs _ _ Hm) as [Hset (nr & er & Hnr & Hh & Her)].
    pose proof (put_settled _ _ Hnr Hset) as Hnr1. split.
    + destruct Hset as (nr' & Hnr' & Hargs). simplify_eq. exists nr'. split; [done|].
      eapply Forall_impl; [exact Hargs|]. apply put_is_rep.
    + destruct (put_same _ _ Her) as (er' & Her' & _). by exists nr, er'.
  - cbn. by rewrite map_size_insert_Some by eauto.
  - done.
  - apply put_settled.
  - apply put_same.
  - intros j ej Hj Hlt. cbn. rewrite lookup_insert_ne; [done|]. intros <-.
    pose proof (unfolds_fun _ _ _ _ He Hj). subst. lia.
Qed.

Lemma visit_run : exists s', visit i s = Ok ((), s') /\ mngr_ok s' /\ grown s s' /\
  above (depth e) s s' /\ exists r, rep_of s' i r.
Proof using He Hn Hreps Hs.
  destruct put_ok as (H1 & Hg & Ha).
  assert (Hset : settled s1 i).
  { exists n1. split; [cbn; by rewrite lookup_insert_eq|apply reps_is_rep]. }
  assert (Hn1 : nodes s1 !! i = Some n1) by (cbn; by rewrite lookup_insert_eq).
  assert (Er : forall s', emplace i s1 = Ok ((), s') -> visit i s = Ok ((), s')).
  { intros s' E. unfold visit. rewrite (ST_bind_run _ _ s n s) by (unfold node; by rewrite Hn).
    pose proof (find_all _ _ _ Hreps) as Ef.
    rewrite (ST_bind_run _ _ _ _ _ Ef).
    rewrite (ST_bind_run _ _ s () s1) by (unfold put_args; by rewrite Hn). exact E. }
  destruct (map_ s1 !! Hash n1) as [r|] eqn:Em.
  - exists s1. split; [apply Er; unfold emplace; rewrite Hn1; cbn [mbind Res_bind deref]; by rewrite Em|].
    do 3 (split; [done|]). exists r. split; [done|]. by exists n1.
  - set (s2 := {| nodes := nodes s1; map_ := <[Hash n1 := i]> (map_ s1) |}).
    assert (Hrep : forall a, is_rep s1 a -> is_rep s2 a).
    { intros a (na & Hna & Hma). exists na. split; [done|]. cbn. rewrite lookup_insert_ne; [done|].
      intros E. rewrite E in Em. cbn in Em, Hma. congruence. }
    assert (Hsettled : forall a, settled s1 a -> settled s2 a).
    { intros a (na & Hna & Hra). exists na. split; [done|]. eapply Forall_impl; [exact Hra|done]. }
    exists s2. split; [apply Er; unfold emplace; rewrite Hn1; cbn [mbind Res_bind deref]; by rewrite Em|].
    split; [|split; [|split; [exact Ha|]]].
    + split; [apply (mo_node _ H1)|]. intros k r. cbn. rewrite lookup_insert_Some.
      intros [[<- <-]|[_ Hk]].
      * split; [by apply Hsettled|]. destruct (gr_unfolds _ _ Hg _ _ He) as (e' & He' & _).
        by exists n1, e'.
      * destruct (mo_map _ H1 _ _ Hk) as [Hr Hx]. split; [by apply Hsettled|done].
    + eapply grown_trans; [exact Hs|exact Hg|]. split; [done| |done|].
      * by apply insert_subseteq.
      * intros j ej Hj. exists ej. split; [done|apply same_refl].
    + exists i. split; [by apply Hsettled|]. exists n1. split; [done|]. cbn. by rewrite lookup_insert_eq.
Qed.
End visit.

(** ** The whole traversal *)
Definition visits_node (f : objid -> S unit) (i : objid) (e : Expr) (s : St) : Prop :=
  exists s', f i s = Ok ((), s') /\ mngr_ok s' /\ grown s s' /\ above (depth e) s s' /\
    exists r, rep_of s' i r.

(** The node [i] is deeper than its arguments, so their visits leave it alone. *)
Lemma visit_args_run f i n e d s pre l :
  (forall a ea s, mngr_ok s -> unfolds (nodes s) a ea -> (depth ea <= d)%nat ->
     visits_node f a ea s) ->
  mngr_ok s -> nodes s !! i = Some n -> unfolds (nodes s) i e -> (d < depth e)%nat ->
  n_args n = pre ++ l -> Forall (fun a => exists r, rep_of s a r) pre ->
  Forall (fun a => exists ea, unfolds (nodes s) a ea /\ (depth ea <= d)%nat) l ->
  exists s', visit_args f i (length pre) l s = Ok ((), s') /\ mngr_ok s' /\ grown s s' /\
    above d s s' /\ nodes s' !! i = Some n /\
    Forall (fun a => exists r, rep_of s' a r) (n_args n).
Proof.
  intros Hf. revert s pre e. induction l as [|a l IH]; intros s pre e Hs Hn He Hd Hargs Hpre Hl.
  - exists s. split; [done|]. split; [done|]. split; [done|]. split; [done|]. split; [done|].
    by rewrite Hargs, app_nil_r.
  - apply Forall_cons in Hl as [(ea & Hea & Hda) Hl].
    destruct (Hf a ea s Hs Hea Hda) as (s1 & E1 & Hs1 & Hg1 & Ha1 & Hr1).
    assert (Hn1 : nodes s1 !! i = Some n) by (rewrite (Ha1 i e He) by lia; done).
    destruct (gr_unfolds _ _ Hg1 _ _ He) as (e1 & He1 & Hse).
    destruct (IH s1 (pre ++ [a]) e1) as (s2 & E2 & Hs2 & Hg2 & Ha2 & Hn2 & Hall); try done.
    + by rewrite <- (same_depth _ _ Hse).
    + by rewrite Hargs, <- app_assoc.
    + apply Forall_app. split; [|by constructor]. eapply Forall_impl; [exact Hpre|].
      intros b (r & Hr). exists r. by apply (rep_of_grown s).
    + eapply Forall_impl; [exact Hl|]. intros b (eb & Heb & Hdb).
      destruct (gr_unfolds _ _ Hg1 _ _ Heb) as (eb' & Heb' & Hsb). exists eb'. split; [done|].
      by rewrite <- (same_depth _ _ Hsb).
    + exists s2. split; [|split; [done|split; [by eapply grown_trans|split; [|done]]]].
      * cbn [visit_args]. rewrite (ST_bind_run _ _ s n s) by (unfold node; by rewrite Hn).
        rewrite (lift_bind_run _ _ s a).
        2: { unfold Exprs.at_. by rewrite Hargs, list_lookup_middle. }
        rewrite (ST_bind_run _ _ _ _ _ E1). rewrite length_app in E2. cbn in E2.
        by rewrite Nat.add_1_r in E2.
      * by eapply above_trans.
Qed.

Lemma DepthFirstVisit_run fuel : forall i e s, mngr_ok s -> unfolds (nodes s) i e ->
  (depth e < fuel)%nat -> visits_node (DepthFirstVisit fuel) i e s.
Proof.
  induction fuel as [|fuel IH]; intros i e s Hs He Hd; [lia|].
  assert (exists n, nodes s !! i = Some n /\ Forall (fun a => exists ea, unfolds (nodes s) a ea /\
    (depth ea <= pred (depth e))%nat) (n_args n) /\ (n_args n = [] \/ (pred (depth e) < depth e)%nat))
    as (n & Hn & Hargs & Hpos).
  { destruct e as [h ps|h v ps|h op fn es ps].
    - eexists. split; [exact He|]. by split; [|left].
    - eexists. split; [exact He|]. by split; [|left].
    - apply unfolds_op in He as (js & Hn & Hes). eexists. split; [exact Hn|]. split; [|right; cbn; lia].
      apply Forall_forall. intros a [k Hk]%list_elem_of_lookup.
      destruct (Forall2_lookup_l _ _ _ _ _ Hes Hk) as (ea & Hea & Hu). exists ea. split; [done|].
      pose proof (depth_arg h op fn es ps ea ltac:(by eapply list_elem_of_lookup_2)). lia. }
  assert (exists s1, visit_args (DepthFirstVisit fuel) i 0 (n_args n) s = Ok ((), s1) /\ mngr_ok s1 /\
    grown s s1 /\ above (depth e) s s1 /\ nodes s1 !! i = Some n /\
    Forall (fun a => exists r, rep_of s1 a r) (n_args n)) as (s1 & E1 & Hs1 & Hg1 & Ha1 & Hn1 & Hr1).
  { destruct Hpos as [Hnil|Hpos].
    { exists s. rewrite Hnil. by repeat (split; [done|]). }
    destruct (visit_args_run (DepthFirstVisit fuel) i n e (pred (depth e)) s [] (n_args n))
      as (s1 & E1 & Hs1 & Hg1 & Ha1 & Hn1 & Hr1); try done.
    - intros a ea s' Hs' Hea Hda. apply IH; [done|done|lia].
    - exists s1. do 3 (split; [done|]). split; [|done].
      eapply (above_trans 0); [lia|apply grown_refl|done|]. intros j ej Hj Hlt. apply (Ha1 j ej Hj). lia. }
  destruct (gr_unfolds _ _ Hg1 _ _ He) as (e1 & He1 & Hse).
  assert (exists reps, Forall2 (rep_of s1) (n_args n) reps) as [reps Hreps].
  { clear -Hr1. induction Hr1 as [|a l [r Hr] _ [reps IH]]; [by exists []|]. exists (r :: reps). by constructor. }
  destruct (visit_run s1 i n e1 reps Hs1 Hn1 He1 Hreps) as (s2 & E2 & Hs2 & Hg2 & Ha2 & Hr2).
  exists s2. cbn [DepthFirstVisit]. rewrite (ST_bind_run _ _ s n s) by (unfold node; by rewrite Hn).
  rewrite (ST_bind_run _ _ _ _ _ E1). split; [exact E2|]. split; [done|].
  split; [by apply (grown_trans s s1)|]. split; [|done].
  rewrite <- (same_depth _ _ Hse) in Ha2. by eapply above_trans.
Qed.

(** ** The fuel: a longest path has no repetition *)
Lemma deepest (es : list Expr) : es = [] \/ exists e, e ∈ es /\ forall e', e' ∈ es -> (depth e' <= depth e)%nat.
Proof.
  induction es as [|e es IH]; [by left|]. right. destruct IH as [->|(m & Hm & Hmax)].
  - exists e. split; [by left|]. by intros e' ->%list_elem_of_singleton.
  - destruct (decide (depth m <= depth e)%nat).
    + exists e. split; [by left|]. intros e' [->|He']%elem_of_cons; [done|]. specialize (Hmax _ He'). lia.
    + exists m. split; [by right|]. intros e' [->|He']%elem_of_cons; [lia|auto].
Qed.

Lemma unfolds_path H i e : unfolds H i e -> exists l, NoDup l /\ (depth e <= length l)%nat /\
  Forall (fun j => is_Some (H !! j) /\ exists ej, unfolds H j ej /\ (depth ej <= depth e)%nat) l.
Proof.
  revert i. induction e as [h ps|h v ps|h op fn es ps IH] using Expr_ind'; intros i He.
  - exists []. split; [constructor|]. split; [cbn; lia|constructor].
  - exists []. split; [constructor|]. split; [cbn; lia|constructor].
  - pose proof He as (js & Hi & Hes)%unfolds_op.
    assert (Hself : is_Some (H !! i) /\ exists ej, unfolds H i ej /\
      (depth ej <= depth (ExprOp h op fn es ps))%nat) by (split; eauto).
    destruct (deepest es) as [->|(m & Hm & Hmax)].
    { exists [i]. split; [by apply NoDup_singleton|]. split; [cbn; lia|by constructor]. }
    pose proof (depth_arg h op fn es ps m Hm) as Hlt.
    assert (Hdm : (depth (ExprOp h op fn es ps) <= 1 + depth m)%nat).
    { apply depth_bound; [|lia]. intros e He'. specialize (Hmax e He'). lia. }
    apply list_elem_of_lookup in Hm as [k Hk].
    destruct (Forall2_lookup_r _ _ _ _ _ Hes Hk) as (j & Hj & Hu).
    rewrite Forall_forall in IH. destruct (IH m (list_elem_of_lookup_2 _ _ _ Hk) j Hu) as (l & Hnd & Hlen & Hl).
    exists (i :: l). split; [|split; [cbn [length]; lia|]].
    + constructor; [|done]. intros Hil. rewrite Forall_forall in Hl.
      destruct (Hl i Hil) as [_ (ei & Hei & Hd)]. rewrite (unfolds_fun _ _ _ _ Hei He) in Hd. lia.
    + constructor; [done|]. eapply Forall_impl; [exact Hl|]. intros x [Hx (ex & Hex & Hd)].
      split; [done|]. exists ex. split; [done|lia].
Qed.

Lemma depth_size H i e : unfolds H i e -> (depth e <= size H)%nat.
Proof.
  intros (l & Hnd & Hlen & Hl)%unfolds_path. rewrite <- (size_dom (D := gset objid)).
  assert (Hsub : (list_to_set l : gset objid) ⊆ dom H).
  { intros j Hj%elem_of_list_to_set. rewrite Forall_forall in Hl. apply elem_of_dom, (Hl j Hj). }
  apply subseteq_size in Hsub. rewrite size_list_to_set in Hsub by done. lia.
Qed.

(** ** Representatives *)
Lemma GetRep_run s i e : mngr_ok s -> unfolds (nodes s) i e ->
  exists r s', GetRep i s = Ok (r, s') /\ mngr_ok s' /\ grown s s' /\ is_rep s' r /\
    exists er, unfolds (nodes s') r er /\ same e er.
Proof.
  intros Hs He. pose proof (depth_size _ _ _ He) as Hd.
  destruct (DepthFirstVisit_run (Datatypes.S (size (nodes s))) i e s Hs He) as (s' & E & Hs' & Hg & _ & r & Hr);
    [lia|]. exists r, s'. unfold GetRep. rewrite (ST_bind_run _ _ _ _ _ E).
  destruct (gr_unfolds _ _ Hg _ _ He) as (e' & He' & Hse).
  destruct (rep_of_same _ _ _ _ Hs' Hr He') as (er & Her & Hse').
  split; [|split; [done|split; [done|split; [by eapply rep_is_rep|]]]].
  - destruct Hr as [_ (n & Hn & Hm)]. unfold find. rewrite Hn. cbn. by rewrite Hm.
  - exists er. split; [done|]. by etrans.
Qed.

(** One representative per structure. *)
Lemma rep_unique s ea : forall a b eb, mngr_ok s -> is_rep s a -> is_rep s b ->
  unfolds (nodes s) a ea -> unfolds (nodes s) b eb -> same ea eb -> a = b.
Proof.
  induction ea as [h ps|h v ps|h op fn es ps IH] using Expr_ind'; intros a b eb Hs Ha Hb Hea Heb Hsame.
  - destruct eb as [h' ps'| |]; cbn in Hsame; try done. subst h'. cbn in Hea, Heb.
    destruct (mo_node _ Hs _ _ Hea) as [H1 _], (mo_node _ Hs _ _ Heb) as [H2 _]. cbn in H1, H2. congruence.
  - destruct eb as [|h' v' ps'|]; cbn in Hsame; try done. destruct Hsame as (Hsort & <- & Hid).
    cbn in Hea, Heb. destruct Ha as (na & Hna & Hma), Hb as (nb & Hnb & Hmb). simplify_eq.
    enough (E : Hash {| n_hdr := h; n_kind := NConst v; n_args := []; n_params := ps |} =
            Hash {| n_hdr := h'; n_kind := NConst v; n_args := []; n_params := ps' |}) by congruence.
    destruct (mo_node _ Hs _ _ Hna) as (_ & _ & _ & Hv). unfold Hash, const_value. cbn in Hv |- *.
    rewrite <- Hsort. destruct (h_sort h), v; cbn in Hv, Hid; try done. by rewrite Hid.
  - apply same_op in Hsame as (h' & es' & -> & Hsort & Hes).
    apply unfolds_op in Hea as (ja & Hja & Hua), Heb as (jb & Hjb & Hub).
    pose proof (is_rep_settled _ _ Hs Ha) as (na & Hna & Hra).
    pose proof (is_rep_settled _ _ Hs Hb) as (nb & Hnb & Hrb).
    rewrite Hja in Hna. rewrite Hjb in Hnb. injection Hna as <-. injection Hnb as <-. cbn in Hra, Hrb.
    assert (ja = jb) as <-.
    { clear -IH Hs Hes Hua Hub Hra Hrb. revert jb es' Hes Hub Hrb Hra.
      induction Hua as [|j e ja es Hj _ IHl]; intros jb es' Hes Hub Hrb Hra.
      - apply Forall2_nil_inv_l in Hes as ->. by apply Forall2_nil_inv_r in Hub as ->.
      - apply Forall2_cons_inv_l in Hes as (e' & es2 & He & Hes & ->).
        apply Forall2_cons_inv_r in Hub as (j' & jb' & Hj' & Hub & ->).
        apply Forall_cons in IH as [IHe IH], Hra as [Hr Hra], Hrb as [Hr' Hrb].
        f_equal; [by apply (IHe j j' e')|]. by apply (IHl IH jb' es2). }
    destruct Ha as (na & Hna & Hma), Hb as (nb & Hnb & Hmb).
    rewrite Hja in Hna. rewrite Hjb in Hnb. injection Hna as <-. injection Hnb as <-.
    unfold Hash in Hma, Hmb. cbn in Hma, Hmb. rewrite <- Hsort in Hmb. congruence.
Qed.

(** C11.  [GetRep] is correct.  On every acyclic graph of well-formed nodes it
    terminates and returns a node of the same structure; it may redirect the
    arguments of any node, but every node of the graph keeps its structure, and so
    its value in every environment whose nondeterministic values do not depend on
    who applies them; and the table stays consistent. *)
Theorem GetRep_correct s i e : mngr_ok s -> unfolds (nodes s) i e ->
  exists r s', GetRep i s = Ok (r, s') /\ mngr_ok s' /\
    (exists er, unfolds (nodes s') r er /\ same e er) /\
    forall j ej, unfolds (nodes s) j ej -> exists ej', unfolds (nodes s') j ej' /\ same ej ej' /\
      forall ρ, (forall m m' f, ev_nondet ρ m f = ev_nondet ρ m' f) -> eval ρ ej = eval ρ ej'.
Proof.
  intros Hs He. destruct (GetRep_run s i e Hs He) as (r & s' & E & Hs' & Hg & _ & Hr).
  exists r, s'. split; [done|]. split; [done|]. split; [done|]. intros j ej Hj.
  destruct (gr_unfolds _ _ Hg _ _ Hj) as (ej' & Hj' & Hsame). exists ej'. split; [done|].
  split; [done|]. intros ρ Hρ. by apply same_eval.
Qed.

Lemma TopEq_run H a b ea eb : (forall i n, H !! i = Some n -> node_ok FT i n) ->
  unfolds H a ea -> unfolds H b eb ->
  exists t H', TopEq a b H = Ok (t, H') /\ (t = true <-> same ea eb).
Proof.
  intros HH Ha Hb. set (s0 := {| nodes := H; map_ := ∅ |}).
  assert (Hs0 : mngr_ok s0).
  { split; [exact HH|]. intros k r Hk. cbn in Hk. by rewrite lookup_empty in Hk. }
  destruct (GetRep_run s0 a ea Hs0 Ha) as (x & s1 & E1 & Hs1 & Hg1 & Hx & ex & Hex & Hsx).
  destruct (gr_unfolds _ _ Hg1 _ _ Hb) as (eb1 & Hb1 & Hsb1).
  destruct (GetRep_run s1 b eb1 Hs1 Hb1) as (y & s2 & E2 & Hs2 & Hg2 & Hy & ey & Hey & Hsy).
  destruct (gr_unfolds _ _ Hg2 _ _ Hex) as (ex2 & Hex2 & Hsx2).
  exists (x =? y)%N, (nodes s2). unfold TopEq. fold s0. rewrite E1. cbn [mbind Res_bind snd]. rewrite E2.
  split; [done|]. rewrite N.eqb_eq. split.
  - intros ->. pose proof (unfolds_fun _ _ _ _ Hex2 Hey). subst.
    etrans; [exact Hsx|]. etrans; [exact Hsx2|]. symmetry. by etrans.
  - intros Hab. apply (rep_unique s2 ex2 x y ey); try done; [by apply (is_rep_grown s1)|].
    symmetry in Hsx2, Hsx. do 3 (etrans; [eassumption|]). by etrans.
Qed.

(** C10.  [TopEq] decides structural equality.  On a graph of well-formed nodes it
    returns (no assertion fails, no recursion runs away) and answers true exactly
    when the two expressions have the same structure, whatever nodes they share. *)
Theorem TopEq_correct H a b ea eb : (forall i n, H !! i = Some n -> node_ok FT i n) ->
  unfolds H a ea -> unfolds H b eb ->
  exists t H', TopEq a b H = Ok (t, H') /\ (t = true <-> same ea eb).
Proof. apply TopEq_run. Qed.
End mngr.

(** Two copies of [x + 1], and [x + x]. *)
Module Shared.
Definition hdr (i : objid) (n : string) : Hdr :=
  {| h_id := i; h_name := n; h_host := None; h_sort := SortBv 8 |}.
Definition node (i : objid) (k : NodeKind) (l : list objid) : Node :=
  {| n_hdr := hdr i "n"; n_kind := k; n_args := l; n_params := [] |}.
Definition heap : Nodes :=
  <[2%N := node 2 NVar []]> (<[3%N := node 3 (NConst (CBv 1)) []]>
  (<[4%N := node 4 (NOp kAdd None) [2%N; 3%N]]> (<[5%N := node 5 (NConst (CBv 1)) []]>
  (<[6%N := node 6 (NOp kAdd None) [2%N; 5%N]]>
  {[7%N := node 7 (NOp kAdd None) [2%N; 2%N]]})))).
Definition x : Expr := ExprVar (hdr 2 "n") [].
Definition plus (i j : objid) : Expr :=
  ExprOp (hdr i "n") kAdd None [x; ExprConst (hdr j "n") (CBv 1) []] [].

Lemma heap_ok i n : heap !! i = Some n -> node_ok ∅ i n.
Proof.
  unfold heap. rewrite !lookup_insert_Some, lookup_singleton_Some. intros Hi.
  decompose [and or] Hi; subst; (split; [done|]); (split; [done|]); cbn; auto; by split.
Qed.
Lemma unfolds_4 : unfolds heap 4 (plus 4 3).
Proof. apply unfolds_op. exists [2%N; 3%N]. split; [done|]. by repeat constructor. Qed.
Lemma unfolds_6 : unfolds heap 6 (plus 6 5).
Proof. apply unfolds_op. exists [2%N; 5%N]. split; [done|]. by repeat constructor. Qed.
End Shared.

Lemma GetRep_correct_witness :
  exists r s', ExprMngr.GetRep 4 {| ExprMngr.nodes := Shared.heap; ExprMngr.map_ := ∅ |} = Ok (r, s').
Proof.
  destruct (GetRep_correct ∅ {| ExprMngr.nodes := Shared.heap; ExprMngr.map_ := ∅ |} 4%N (Shared.plus 4 3))
    as (r & s' & E & _).
  - split; [exact Shared.heap_ok|]. intros k r Hk. cbn in Hk. by rewrite lookup_empty in Hk.
  - exact Shared.unfolds_4.
  - exists r, s'. exact E.
Defined.

Lemma TopEq_correct_witness :
  match TopEq 4 6 Shared.heap with Ok (t, _) => t = true | Fail _ => False end /\
  match TopEq 4 7 Shared.heap with Ok (t, _) => t = false | Fail _ => False end.
Proof.
  split; [|vm_compute; reflexivity].
  destruct (TopEq_correct ∅ Shared.heap 4%N 6%N _ _ Shared.heap_ok Shared.unfolds_4 Shared.unfolds_6)
    as (t & H' & E & Ht).
  rewrite E. apply Ht. cbn. done.
Defined.
