(* ===== verification/Smt.v ===== *)
(** * The solver interface

    The Z3 C++ API is not part of this repository: what [expr_op.cc],
    [expr_const.cc], [sort.cc] and the unroller call is the class [Z3Api], and
    what they rely on is the class [Z3Laws]: SMT-LIB meaning of the operators,
    [simplify] preserving meaning, [substitute] replacing constants.  A [None]
    result is a [z3::exception].  [Terms] is a concrete instance (syntax trees
    that are never simplified), so the laws are satisfiable. *)
From S2P Require Import Prelude Sort Values Expr.
Local Open Scope Z_scope.

(** The operations applied to terms, with their indices. *)
Inductive SmtOp :=
| SNeg | SNot | SBvNot | SAnd | SOr | SXor | SBvAnd | SBvOr | SBvXor
| SShl | SAshr | SLshr | SAdd | SSub | SMul | SDiv | SRem | SURem | SMod
| SEq | SSlt | SSgt | SUlt | SUgt | SSelect | SStore | SConcat
| SExtract (hi lo : Z) | SZext (k : Z) | SSext (k : Z) | SRotl (k : Z) | SRotr (k : Z)
| SImplies | SIte.

#[export] Instance SmtOp_eq_dec : EqDecision SmtOp.
Proof. solve_decision. Defined.

(** The SMT-LIB meaning of the operations. *)
Definition smt_sem (op : SmtOp) (vs : list val) : option val :=
  match op, vs with
  | SNeg, [VBv w x] => Some (VBv w (Bits.neg w x))
  | SNot, [VBool b] => Some (VBool (negb b))
  | SBvNot, [VBv w x] => Some (VBv w (Bits.not w x))
  | SAnd, [VBool a; VBool b] => Some (VBool (a && b))
  | SOr, [VBool a; VBool b] => Some (VBool (a || b))
  | SXor, [VBool a; VBool b] => Some (VBool (xorb a b))
  | SBvAnd, [a; b] => bv2 (fun _ => Z.land) a b
  | SBvOr, [a; b] => bv2 (fun _ => Z.lor) a b
  | SBvXor, [a; b] => bv2 (fun _ => Z.lxor) a b
  | SShl, [a; b] => bv2 Bits.shl a b
  | SAshr, [a; b] => bv2 Bits.ashr a b
  | SLshr, [a; b] => bv2 Bits.lshr a b
  | SAdd, [a; b] => bv2 Bits.add a b
  | SSub, [a; b] => bv2 Bits.sub a b
  | SMul, [a; b] => bv2 Bits.mul a b
  | SDiv, [a; b] => bv2 Bits.sdiv a b
  | SRem, [a; b] => bv2 Bits.srem a b
  | SURem, [a; b] => bv2 Bits.urem a b
  | SMod, [a; b] => bv2 Bits.smod a b
  | SEq, [a; b] => Some (VBool (bool_decide (a = b)))
  | SSlt, [a; b] => cmp2 Bits.slt a b
  | SSgt, [a; b] => cmp2 (fun w x y => Bits.slt w y x) a b
  | SUlt, [a; b] => cmp2 (fun _ => Z.ltb) a b
  | SUgt, [a; b] => cmp2 (fun _ => Z.gtb) a b
  | SSelect, [VMem aw dw m; VBv w a] =>
      if w =? aw then Some (VBv dw (mem_load m a)) else None
  | SStore, [VMem aw dw m; VBv w a; VBv w' d] =>
      if (w =? aw) && (w' =? dw) then Some (VMem aw dw (mem_store m a d)) else None
  | SConcat, [VBv wh h; VBv wl l] => Some (VBv (wh + wl) (Bits.concat wl h l))
  | SExtract hi lo, [VBv w x] => Some (VBv (hi - lo + 1) (Bits.extract hi lo x))
  | SZext k, [VBv w x] => Some (VBv (w + k) x)
  | SSext k, [VBv w x] => Some (VBv (w + k) (Bits.sext w (w + k) x))
  | SRotl k, [VBv w x] => Some (VBv w (Bits.rotl w k x))
  | SRotr k, [VBv w x] => Some (VBv w (Bits.rotr w k x))
  | SImplies, [VBool a; VBool b] => Some (VBool (implb a b))
  | SIte, [VBool c; a; b] => Some (if c then a else b)
  | _, _ => None
  end.

(** Which applications are well sorted (the others throw). *)
Definition smt_sort (op : SmtOp) (ss : list Sort) : option Sort :=
  match op, ss with
  | (SNeg | SBvNot), [SortBv w] => Some (SortBv w)
  | SNot, [SortBool] => Some SortBool
  | (SAnd | SOr | SXor | SImplies), [SortBool; SortBool] => Some SortBool
  | (SBvAnd | SBvOr | SBvXor | SShl | SAshr | SLshr | SAdd | SSub | SMul | SDiv | SRem
     | SURem | SMod), [a; b] => bv2_sort a b
  | SEq, [a; b] => if decide (a = b) then Some SortBool else None
  | (SSlt | SSgt | SUlt | SUgt), [a; b] => cmp2_sort a b
  | SSelect, [SortMem aw dw; SortBv w] => if w =? aw then Some (SortBv dw) else None
  | SStore, [SortMem aw dw; SortBv w; SortBv w'] =>
      if (w =? aw) && (w' =? dw) then Some (SortMem aw dw) else None
  | SConcat, [SortBv wh; SortBv wl] => Some (SortBv (wh + wl))
  | SExtract hi lo, [SortBv w] =>
      if (0 <=? lo) && (lo <=? hi) && (hi <? w) then Some (SortBv (hi - lo + 1)) else None
  | (SZext k | SSext k), [SortBv w] => if 0 <=? k then Some (SortBv (w + k)) else None
  | (SRotl k | SRotr k), [SortBv w] => if 0 <=? k then Some (SortBv w) else None
  | SIte, [SortBool; a; b] => if decide (a = b) then Some a else None
  | _, _ => None
  end.

(** A model: the values of the constants and the functions. *)
Record Model := {
  m_const : string -> Sort -> val;
  m_fun : string -> list Sort -> Sort -> list val -> val }.

Record model_ok (m : Model) : Prop := {
  m_const_ok n s : sort_ok s = true -> has_sort (m_const m n s) s = true;
  m_fun_ok n ss s vs : sort_ok s = true -> has_sort (m_fun m n ss s vs) s = true }.

(** The model with the listed constants changed. *)
Definition m_over (m : Model) (l : list (string * Sort * val)) : Model :=
  {| m_const n s :=
       match list_find (fun p => p.1 = (n, s)) l with
       | Some (_, p) => p.2
       | None => m_const m n s
       end;
     m_fun := m_fun m |}.

(** What the code calls. *)
Class Z3Api := {
  zexpr : Type;
  z_bool_val : bool -> zexpr;
  z_bv_val : Z -> Z -> option zexpr;
  z_const : string -> Sort -> option zexpr;
  z_const_array : Z -> zexpr -> option zexpr;
  z_app : SmtOp -> list zexpr -> option zexpr;
  z_func : string -> list Sort -> Sort -> list zexpr -> option zexpr;
  z_simplify : zexpr -> zexpr;
  z_substitute : list zexpr -> list zexpr -> zexpr -> zexpr }.

(** What it relies on.  [z_has e s]: [e] is a term of sort [s]; [z_eval m e]:
    its value in the model [m]. *)
Class Z3Laws (Z3 : Z3Api) := {
  z_has : zexpr -> Sort -> Prop;
  z_eval : Model -> zexpr -> val;
  z_eval_sort m e s : model_ok m -> z_has e s -> has_sort (z_eval m e) s = true;
  z_bool_val_law b : z_has (z_bool_val b) SortBool /\
    forall m, z_eval m (z_bool_val b) = VBool b;
  z_bv_val_law n w : 0 < w -> exists e, z_bv_val n w = Some e /\ z_has e (SortBv w) /\
    forall m, z_eval m e = VBv w (Bits.wrap w n);
  z_const_law n s : sort_ok s = true -> exists e, z_const n s = Some e /\ z_has e s /\
    z_simplify e = e /\ forall m, z_eval m e = m_const m n s;
  z_const_array_law aw dw d : 0 < aw -> 0 < dw -> z_has d (SortBv dw) ->
    exists e, z_const_array aw d = Some e /\ z_has e (SortMem aw dw) /\
      forall m n, z_eval m d = VBv dw n -> z_eval m e = VMem aw dw (mem_const aw n);
  z_app_law op es ss s : Forall2 z_has es ss -> smt_sort op ss = Some s ->
    exists e, z_app op es = Some e /\ z_has e s /\
      forall m, model_ok m -> Some (z_eval m e) = smt_sem op (z_eval m <$> es);
  z_func_law n ss s es : sort_ok s = true -> Forall2 z_has es ss ->
    exists e, z_func n ss s es = Some e /\ z_has e s /\
      forall m, z_eval m e = m_fun m n ss s (z_eval m <$> es);
  z_simplify_law e s : z_has e s -> z_has (z_simplify e) s /\
    forall m, model_ok m -> z_eval m (z_simplify e) = z_eval m e;
  z_substitute_law ks src dst e s :
    Forall2 (fun k x => z_const k.1 k.2 = Some x) ks src -> NoDup ks ->
    Forall2 (fun k y => sort_ok k.2 = true /\ z_has y k.2) ks dst -> z_has e s ->
    z_has (z_substitute src dst e) s /\
    forall m, model_ok m ->
      z_eval m (z_substitute src dst e) = z_eval (m_over m (zip ks (z_eval m <$> dst))) e }.

(** ** The operations preserve sorts *)
Section smt_sound.
Context (op : SmtOp) (ss : list Sort) (s : Sort) (vs : list val).
Hypothesis Hs : smt_sort op ss = Some s.
Hypothesis Hvs : Forall2 (fun v s => has_sort v s = true) vs ss.

Lemma smt_sem_sound : exists v, smt_sem op vs = Some v /\ has_sort v s = true.
Proof using Hs Hvs.
  destruct op; cbn [smt_sort] in Hs; repeat (case_match; try discriminate Hs);
    bool_inv; try injection Hs as <-; vals_inv; cbn [smt_sem].
  all: try (eapply bv2_sound; [|eassumption..]; intros; cbn beta; eauto with bits; fail).
  all: try (eapply cmp2_sound; eassumption).
  all: rewrite ?Z.eqb_refl; cbn [andb].
  all: try discriminate Hs.
  all: try (eexists; split; [reflexivity|]; first [done|apply has_sort_bv_2];
            eauto with bits lia; fail).
  - eexists; split; [done|]. apply has_sort_bv_2; [done|].
    by apply (mem_load_range addr_width_ data_width_).
  - eexists; split; [done|]. apply has_sort_mem.
    eexists; split_and!; [done..|]. by apply mem_store_range.
  - match goal with c : bool |- _ => destruct c end; eauto.
Qed.
End smt_sound.

(** ** Models *)
Lemma m_over_ok m l : model_ok m -> Forall (fun p => has_sort p.2 p.1.2 = true) l ->
  model_ok (m_over m l).
Proof.
  intros [Hc Hf] Hl. split; cbn; [|done]. intros n s Hs.
  destruct (list_find _ l) as [[i [k v]]|] eqn:E; [|by apply Hc].
  apply list_find_Some in E as (Hi & Hp & _). cbn in Hp. subst k.
  rewrite Forall_lookup in Hl. exact (Hl _ _ Hi).
Qed.

(** The model that gives every constant the default of its sort. *)
Definition default_model : Model :=
  {| m_const _ s := default_val s; m_fun _ _ s _ := default_val s |}.
Lemma default_model_ok : model_ok default_model.
Proof. split; cbn; auto using default_val_sort. Qed.

(** ** Syntax trees: an instance *)
Module Terms.

Inductive Term :=
| TBool (b : bool)
| TBv (w n : Z)
| TConst (n : string) (s : Sort)
| TConstArray (aw : Z) (d : Term)
| TApp (op : SmtOp) (ts : list Term)
| TFun (n : string) (ss : list Sort) (s : Sort) (ts : list Term).

Section term_ind.
Context (P : Term -> Prop).
Context (Hb : forall b, P (TBool b)) (Hv : forall w n, P (TBv w n))
  (Hc : forall n s, P (TConst n s)) (Ha : forall aw d, P d -> P (TConstArray aw d))
  (Happ : forall op ts, Forall P ts -> P (TApp op ts))
  (Hf : forall n ss s ts, Forall P ts -> P (TFun n ss s ts)).
Fixpoint Term_ind' (t : Term) : P t :=
  let go := fix go l : Forall P l :=
    match l with
    | [] => Forall_nil_2 _
    | a :: l => Forall_cons_2 _ _ _ (Term_ind' a) (go l)
    end in
  match t with
  | TBool b => Hb b
  | TBv w n => Hv w n
  | TConst n s => Hc n s
  | TConstArray aw d => Ha aw d (Term_ind' d)
  | TApp op ts => Happ op ts (go ts)
  | TFun n ss s ts => Hf n ss s ts (go ts)
  end.
End term_ind.

Fixpoint has (t : Term) (s : Sort) : Prop :=
  match t with
  | TBool _ => s = SortBool
  | TBv w n => s = SortBv w /\ 0 < w /\ 0 <= n < 2 ^ w
  | TConst _ s' => s = s' /\ sort_ok s = true
  | TConstArray aw d => exists dw, s = SortMem aw dw /\ 0 < aw /\ 0 < dw /\ has d (SortBv dw)
  | TApp op ts => exists ss, smt_sort op ss = Some s /\
      (fix go ts ss := match ts, ss with
        | [], [] => True
        | t :: ts, s :: ss => has t s /\ go ts ss
        | _, _ => False
        end) ts ss
  | TFun _ ss s' ts => s = s' /\ sort_ok s = true /\
      (fix go ts ss := match ts, ss with
        | [], [] => True
        | t :: ts, s :: ss => has t s /\ go ts ss
        | _, _ => False
        end) ts ss
  end.

Fixpoint teval (m : Model) (t : Term) : val :=
  match t with
  | TBool b => VBool b
  | TBv w n => VBv w n
  | TConst n s => m_const m n s
  | TConstArray aw d =>
      match teval m d with VBv dw n => VMem aw dw (mem_const aw n) | v => v end
  | TApp op ts => default (VBool false) (smt_sem op (teval m <$> ts))
  | TFun n ss s ts => m_fun m n ss s (teval m <$> ts)
  end.

(** Replacing constants, all at once. *)
Fixpoint find_subst (src dst : list Term) (n : string) (s : Sort) : option Term :=
  match src, dst with
  | TConst n' s' :: src, d :: dst =>
      if decide ((n', s') = (n, s)) then Some d else find_subst src dst n s
  | _ :: src, _ :: dst => find_subst src dst n s
  | _, _ => None
  end.
Fixpoint tsubst (src dst : list Term) (t : Term) : Term :=
  match t with
  | TBool _ | TBv _ _ => t
  | TConst n s => default t (find_subst src dst n s)
  | TConstArray aw d => TConstArray aw (tsubst src dst d)
  | TApp op ts => TApp op (tsubst src dst <$> ts)
  | TFun n ss s ts => TFun n ss s (tsubst src dst <$> ts)
  end.

(** The sort of a term, computed: the applications check it. *)
Fixpoint tsort (t : Term) : option Sort :=
  match t with
  | TBool _ => Some SortBool
  | TBv w _ => Some (SortBv w)
  | TConst _ s => Some s
  | TConstArray aw d =>
      match tsort d with Some (SortBv dw) => Some (SortMem aw dw) | _ => None end
  | TApp op ts => ss ← mapM tsort ts; smt_sort op ss
  | TFun _ _ s _ => Some s
  end.

#[export] Instance terms : Z3Api := {|
  zexpr := Term;
  z_bool_val := TBool;
  z_bv_val n w := if 0 <? w then Some (TBv w (Bits.wrap w n)) else None;
  z_const n s := if sort_ok s then Some (TConst n s) else None;
  z_const_array aw d := if 0 <? aw then Some (TConstArray aw d) else None;
  z_app op ts := match tsort (TApp op ts) with Some _ => Some (TApp op ts) | None => None end;
  z_func n ss s ts := Some (TFun n ss s ts);
  z_simplify t := t;
  z_substitute := tsubst |}.

(** *** The laws hold of syntax trees *)
Lemma has_go ts ss :
  (fix go ts ss := match ts, ss with
     | [], [] => True
     | t :: ts, s :: ss => has t s /\ go ts ss
     | _, _ => False
     end) ts ss <-> Forall2 has ts ss.
Proof.
  revert ss. induction ts as [|t ts IH]; intros [|s ss]; split; intros H;
    try inversion H; subst; try done; constructor; try done; by apply IH.
Qed.

Lemma has_app op ts s : has (TApp op ts) s <->
  exists ss, smt_sort op ss = Some s /\ Forall2 has ts ss.
Proof. cbn. by setoid_rewrite has_go. Qed.
Lemma has_fun n ss s' ts s : has (TFun n ss s' ts) s <->
  s = s' /\ sort_ok s = true /\ Forall2 has ts ss.
Proof. cbn. by rewrite has_go. Qed.

Lemma Forall2_of {A B} (P : A -> Prop) (R S : A -> B -> Prop) l k :
  Forall P l -> Forall2 R l k -> (forall a b, P a -> R a b -> S a b) -> Forall2 S l k.
Proof. intros Hl HR HS. induction HR; inversion Hl; subst; constructor; auto. Qed.

Lemma has_tsort t : forall s, has t s -> tsort t = Some s.
Proof.
  induction t as [b|w n|n s'|aw d IH|op ts IH|n ss s' ts IH] using Term_ind'; intros s H.
  - cbn in H. by subst.
  - destruct H as [-> _]. done.
  - destruct H as [-> _]. done.
  - destruct H as (dw & -> & _ & _ & H). cbn. by rewrite (IH _ H).
  - apply has_app in H as (ss & Hs & H). cbn.
    assert (E : mapM tsort ts = Some ss).
    { apply mapM_Some. eapply Forall2_of; [exact IH|exact H|]. intros t s'' Ht. apply Ht. }
    by rewrite E.
  - apply has_fun in H as (-> & _). done.
Qed.

Lemma teval_sort m t : model_ok m -> forall s, has t s -> has_sort (teval m t) s = true.
Proof.
  intros Hm. induction t as [b|w n|n s'|aw d IH|op ts IH|n ss s' ts IH] using Term_ind'; intros s H.
  - cbn in *. by subst.
  - destruct H as (-> & Hw & Hn). by apply has_sort_bv_2.
  - destruct H as [-> H]. by apply m_const_ok.
  - destruct H as (dw & -> & Haw & Hdw & H). cbn.
    apply IH, has_sort_bv in H as (n & -> & _ & Hn). apply has_sort_mem.
    eexists. split; [done|]. split; [done|]. split; [done|]. by apply mem_const_range.
  - apply has_app in H as (ss & Hs & H). cbn.
    destruct (smt_sem_sound op ss s (teval m <$> ts) Hs) as (v & -> & Hv); [|done].
    apply Forall2_fmap_l. eapply Forall2_of; [exact IH|exact H|]. auto.
  - apply has_fun in H as (-> & Hs & _). by apply m_fun_ok.
Qed.

Lemma find_subst_keys ks (src dst : list Term) n s :
  Forall2 (fun k x => z_const k.1 k.2 = Some x) ks src -> length ks = length dst ->
  find_subst src dst n s =
  snd ∘ snd <$> list_find (fun p => p.1 = (n, s)) (zip ks dst).
Proof.
  intros H. revert dst. induction H as [|[n' s'] x ks src Hx _ IH]; intros [|d dst] Hl; try done.
  cbn in Hx. destruct (sort_ok s'); [|done]. injection Hx as <-. cbn.
  case_decide; [done|]. rewrite IH by (cbn in Hl; lia).
  by destruct (list_find _ _) as [[]|].
Qed.

Lemma find_zip_fmap {A} (f : Term -> A) (ks : list (string * Sort)) ys n s :
  list_find (fun p => p.1 = (n, s)) (zip ks (f <$> ys)) =
  (fun q => (q.1, (q.2.1, f q.2.2))) <$> list_find (fun p => p.1 = (n, s)) (zip ks ys).
Proof.
  revert ys. induction ks as [|k ks IH]; intros [|y ys]; try done. cbn.
  case_decide; [done|]. rewrite IH. by destruct (list_find _ (zip ks ys)) as [[]|].
Qed.

Section subst.
Context (ks : list (string * Sort)) (src dst : list Term).
Hypothesis Hsrc : Forall2 (fun k x => z_const k.1 k.2 = Some x) ks src.
Hypothesis Hdst : Forall2 (fun k y => sort_ok k.2 = true /\ has y k.2) ks dst.

Lemma find_subst_has n s d : find_subst src dst n s = Some d -> has d s.
Proof using Hsrc Hdst.
  rewrite (find_subst_keys ks) by (done || by eapply Forall2_length).
  destruct (list_find _ _) as [[i [k d']]|] eqn:E; [|done]. intros [= <-].
  apply list_find_Some in E as (Hi & Hk & _). cbn in Hk. subst k. cbn.
  rewrite lookup_zip_with in Hi. destruct (ks !! i) as [k|] eqn:Hks; [|done].
  destruct (dst !! i) as [y|] eqn:Hy; [|done]. cbn in Hi. injection Hi as -> ->.
  by apply (Forall2_lookup_lr _ _ _ _ _ _ Hdst Hks Hy).
Qed.

Lemma tsubst_has t : forall s, has t s -> has (tsubst src dst t) s.
Proof using Hsrc Hdst.
  induction t as [b|w n|n s'|aw d IH|op ts IH|n ss s' ts IH] using Term_ind'; intros s H;
    cbn [tsubst]; try done.
  - destruct (find_subst src dst n s') as [d|] eqn:E; [|done].
    destruct H as [-> _]. by apply find_subst_has in E.
  - destruct H as (dw & -> & ? & ? & H). exists dw. auto.
  - apply has_app in H as (ss & Hs & H). apply has_app. exists ss. split; [done|].
    apply Forall2_fmap_l. eapply Forall2_of; [exact IH|exact H|]. auto.
  - apply has_fun in H as (-> & Hs & H). apply has_fun. do 2 (split; [done|]).
    apply Forall2_fmap_l. eapply Forall2_of; [exact IH|exact H|]. auto.
Qed.

Lemma tsubst_eval m t :
  teval m (tsubst src dst t) = teval (m_over m (zip ks (teval m <$> dst))) t.
Proof using Hsrc Hdst.
  assert (Hmap : forall ts, Forall (fun t => teval m (tsubst src dst t) =
             teval (m_over m (zip ks (teval m <$> dst))) t) ts ->
            teval m <$> (tsubst src dst <$> ts) =
            teval (m_over m (zip ks (teval m <$> dst))) <$> ts).
  { intros ts H. rewrite <- list_fmap_compose. by apply Forall_fmap_ext_1. }
  induction t as [b|w n|n s'|aw d IH|op ts IH|n ss s' ts IH] using Term_ind';
    cbn [tsubst teval]; [done|done| |by rewrite IH|by rewrite Hmap|by rewrite Hmap].
  rewrite (find_subst_keys ks) by (done || by eapply Forall2_length).
  cbn. rewrite find_zip_fmap. by destruct (list_find _ _) as [[i [k d]]|].
Qed.
End subst.

Lemma smt_sound_terms m op ts ss s : model_ok m -> Forall2 has ts ss ->
  smt_sort op ss = Some s -> Some (teval m (TApp op ts)) = smt_sem op (teval m <$> ts).
Proof.
  intros Hm Hts Hs. cbn. destruct (smt_sem_sound op ss s (teval m <$> ts) Hs) as (v & -> & _);
    [|done]. apply Forall2_fmap_l. eapply Forall2_impl; [exact Hts|].
  intros t s' Ht. by apply teval_sort.
Qed.

#[export] Instance terms_laws : Z3Laws terms.
Proof.
  refine {| z_has := (has : @zexpr terms -> Sort -> Prop);
            z_eval := (teval : Model -> @zexpr terms -> val) |}.
  - intros. by apply teval_sort.
  - done.
  - intros n w Hw. cbn. rewrite (proj2 (Z.ltb_lt 0 w) Hw). eexists. split; [done|].
    split; [|done]. cbn. eauto using Bits.wrap_range.
  - intros n s Hs. cbn. rewrite Hs. eexists. split; [done|]. done.
  - intros aw dw d Haw Hdw Hd. cbn. rewrite (proj2 (Z.ltb_lt 0 aw) Haw). eexists.
    split; [done|]. split; [cbn; eauto 10|]. intros m n Hn. cbn. by rewrite Hn.
  - intros op es ss s Hes Hs. assert (H : has (TApp op es) s) by (apply has_app; eauto).
    cbn -[tsort]. rewrite (has_tsort _ _ H). eexists. split; [done|]. split; [done|].
    intros m Hm. by eapply smt_sound_terms.
  - intros n ss s es Hs Hes. eexists. split; [done|]. split; [by apply has_fun|]. done.
  - done.
  - intros ks src dst e s Hsrc _ Hdst He. split; [by eapply tsubst_has|].
    intros m _. by apply tsubst_eval.
Defined.
End Terms.
