(* ===== verification/Solver.v ===== *)
(** * Queries to the solver

    The passes and the equivalence checks ask [z3::solver::check] whether a list
    of assertions is satisfiable.  [Z3Solver] is that call, [Z3SolverLaws] what
    its answer means; it may always answer [unknown].  [Prop] is a concrete
    instance, by enumeration of the Boolean constants. *)
From S2P Require Import Prelude Sort Values Expr Smt.

(** [z3::check_result]. *)
Inductive CheckResult := sat | unsat | unknown.

#[export] Instance CheckResult_eq_dec : EqDecision CheckResult.
Proof. solve_decision. Defined.

Class Z3Solver (Z3 : Z3Api) := { z_check : list zexpr -> CheckResult }.

Section laws.
Context {Z3 : Z3Api} {LZ : Z3Laws Z3}.

Definition models (m : Model) (es : list zexpr) : Prop :=
  model_ok m /\ Forall (fun z => z_eval m z = VBool true) es.

Class Z3SolverLaws (S : Z3Solver Z3) := {
  z_check_sat es : Forall (fun z => z_has z SortBool) es -> z_check es = sat ->
    exists m, models m es;
  z_check_unsat es : Forall (fun z => z_has z SortBool) es -> z_check es = unsat ->
    forall m, ~ models m es }.

(** A solver that always decides. *)
Definition decides (S : Z3Solver Z3) : Prop := forall es, z_check es <> unknown.
End laws.

(** ** Enumeration of Boolean constants *)
Module PropSolver.
Import Terms.

(** The constants of a term; [None] for a term with functions. *)
Fixpoint consts (t : Term) : option (list (string * Sort)) :=
  match t with
  | TBool _ | TBv _ _ => Some []
  | TConst n s => Some [(n, s)]
  | TConstArray _ d => consts d
  | TApp _ ts => mjoin <$> mapM consts ts
  | TFun _ _ _ _ => None
  end.

Lemma teval_consts m m' t ks : consts t = Some ks ->
  (forall k, k ∈ ks -> m_const m k.1 k.2 = m_const m' k.1 k.2) -> teval m t = teval m' t.
Proof.
  revert ks. induction t as [b|w n|n s|aw d IH|op ts IH|n ss s ts IH] using Term_ind';
    intros ks Hk Hm; cbn in *; try done.
  - injection Hk as <-. apply (Hm (n, s)). by left.
  - by rewrite (IH ks).
  - destruct (mapM consts ts) as [kss|] eqn:E; [|done]. injection Hk as <-.
    apply mapM_Some in E. f_equal. f_equal. clear op. induction E as [|t ks' ts kss Ht _ IHE]; [done|].
    apply Forall_cons in IH as [IHt IH]. cbn. f_equal.
    + apply (IHt ks'); [done|]. intros k Hk. apply Hm. cbn. apply elem_of_app. by left.
    + apply IHE; [done|]. intros k Hk. apply Hm. cbn. apply elem_of_app. by right.
Qed.

(** All values of the listed Boolean constants. *)
Fixpoint assigns (ks : list (string * Sort)) : list (list (string * Sort * val)) :=
  match ks with
  | [] => [[]]
  | k :: ks => l ← assigns ks; [(k, VBool true) :: l; (k, VBool false) :: l]
  end.

Definition base : Model := {| m_const _ s := default_val s; m_fun _ _ s _ := default_val s |}.

Definition holds_in (m : Model) (es : list Term) : bool :=
  forallb (fun t => bool_decide (teval m t = VBool true)) es.

Definition all_consts (es : list Term) : option (list (string * Sort)) :=
  match mapM consts es with Some kss => Some (remove_dups (mjoin kss)) | None => None end.

Definition check (es : list Term) : CheckResult :=
  match all_consts es with
  | None => unknown
  | Some ks =>
      if forallb (fun k => bool_decide (k.2 = SortBool)) ks then
        if existsb (fun l => holds_in (m_over base l) es) (assigns ks) then sat else unsat
      else unknown
  end.

#[export] Instance solver : Z3Solver terms := {| z_check := check : list (@zexpr terms) -> _ |}.

Lemma base_ok l : Forall (fun p => has_sort p.2 p.1.2 = true) l -> model_ok (m_over base l).
Proof.
  intros Hl. split; intros; cbn; [|by apply default_val_sort].
  destruct (list_find _ l) as [[i p]|] eqn:E; [|by apply default_val_sort].
  apply list_find_Some in E as (Hp & Hk & _). apply list_elem_of_lookup_2 in Hp.
  rewrite Forall_forall in Hl. specialize (Hl _ Hp). by rewrite Hk in Hl.
Qed.

Lemma assigns_sorts ks l : Forall (fun k => k.2 = SortBool) ks -> l ∈ assigns ks ->
  Forall (fun p => has_sort p.2 p.1.2 = true) l.
Proof.
  intros Hk. revert l. induction Hk as [|[n s] ks Hs _ IH]; intros l.
  - cbn. intros ->%list_elem_of_singleton. constructor.
  - cbn in Hs. subst s. cbn. rewrite list_elem_of_bind. intros (l' & Hl & Hl').
    rewrite elem_of_cons, list_elem_of_singleton in Hl. destruct Hl as [->| ->]; constructor; auto.
Qed.

(** The values that a model gives to the constants are among them. *)
Lemma assigns_all m ks : model_ok m -> Forall (fun k => k.2 = SortBool) ks ->
  (fun k => (k, m_const m k.1 k.2)) <$> ks ∈ assigns ks.
Proof.
  intros Hm. induction 1 as [|[n s] ks Hs _ IH]; [by left|]. cbn in Hs. subst s.
  cbn. apply list_elem_of_bind. eexists. split; [|exact IH].
  pose proof (m_const_ok _ Hm n SortBool eq_refl) as H. apply has_sort_bool in H as [[|] ->];
    [left|right; left].
Qed.

Lemma over_self m ks k : k ∈ ks ->
  m_const (m_over base ((fun k => (k, m_const m k.1 k.2)) <$> ks)) k.1 k.2 = m_const m k.1 k.2.
Proof.
  intros Hk. cbn. destruct (list_find _ _) as [[i p]|] eqn:E.
  - apply list_find_Some in E as (Hp & He & _).
    apply list_lookup_fmap_Some in Hp as (k' & -> & _). cbn in He. subst k'. by destruct k.
  - exfalso. rewrite list_find_None, Forall_forall in E. destruct k as [n s].
    apply (E ((n, s), m_const m n s)); [|done]. apply list_elem_of_fmap. by exists (n, s).
Qed.

Lemma holds_in_models m es : model_ok m -> holds_in m es = true ->
  models (LZ := terms_laws) m es.
Proof.
  intros Hm H. split; [done|]. apply Forall_forall. intros t Ht. unfold holds_in in H.
  rewrite forallb_forall in H. apply list_elem_of_In in Ht. exact (bool_decide_eq_true_1 _ (H t Ht)).
Qed.

Lemma check_Some es ks : all_consts es = Some ks ->
  exists kss, mapM consts es = Some kss /\ ks = remove_dups (mjoin kss).
Proof. unfold all_consts. destruct (mapM consts es); [|done]. intros [= <-]. eauto. Qed.

Lemma bools ks : forallb (fun k : string * Sort => bool_decide (k.2 = SortBool)) ks = true ->
  Forall (fun k => k.2 = SortBool) ks.
Proof.
  rewrite forallb_forall. intros H. apply Forall_forall. intros k Hk%list_elem_of_In.
  exact (bool_decide_eq_true_1 _ (H k Hk)).
Qed.

Lemma models_assigned m es ks : all_consts es = Some ks ->
  Forall (fun k => k.2 = SortBool) ks -> models (LZ := terms_laws) m es ->
  existsb (fun l => holds_in (m_over base l) es) (assigns ks) = true.
Proof.
  intros (kss & E & ->)%check_Some Hks [Hm He]. apply existsb_exists.
  eexists. split; [by apply list_elem_of_In, assigns_all|].
  apply forallb_forall. intros t Ht%list_elem_of_In. apply bool_decide_eq_true_2.
  rewrite Forall_forall in He. specialize (He t Ht).
  apply mapM_Some in E. apply list_elem_of_lookup in Ht as [i Hi].
  destruct (Forall2_lookup_l _ _ _ _ _ E Hi) as (ks & Hk & Hc).
  erewrite (teval_consts _ m t ks Hc); [exact He|]. intros k Hin. apply over_self.
  apply elem_of_remove_dups, list_elem_of_join. exists ks. split; [done|]. by eapply list_elem_of_lookup_2.
Qed.

#[export] Instance solver_laws : Z3SolverLaws (LZ := terms_laws) solver.
Proof.
  split; intros es _; cbn; unfold check.
  - destruct (all_consts es) as [ks|]; [|done]. destruct (forallb _ _) eqn:Hks; [|done].
    destruct (existsb _ _) eqn:Hex; [|done]. intros _. apply existsb_exists in Hex as (l & Hl & H).
    apply list_elem_of_In in Hl. exists (m_over base l). apply holds_in_models; [|done].
    apply base_ok. eapply assigns_sorts; [by apply bools|done].
  - destruct (all_consts es) as [ks|] eqn:E; [|done]. destruct (forallb _ _) eqn:Hks; [|done].
    destruct (existsb _ _) eqn:Hex; [done|]. intros _ m Hm.
    by rewrite (models_assigned m es ks E (bools _ Hks) Hm) in Hex.
Qed.
End PropSolver.
