(* ===== verification/World.v ===== *)
(** * ILAs, instructions and the objects they are made of

    [src/ila/instr.cc], [src/ila/transition.cc], [src/ila/instr_lvl_abs.cc] and
    the data of [src/ila/var_container.cc].  ILAs and instructions are shared,
    mutable objects: they live in a store [World], indexed by the id of their
    symbol, and an [InstrLvlAbsPtr] or [InstrPtr] is such an id.

    [kUnifyAst] is false in [instr_lvl_abs.cc], so [Unify] is the identity and
    no expression manager is attached. *)
From S2P Require Import Prelude Sort Values Container Expr.

(** [class VarContainer]: a primitive variable, or a vector or struct of
    containers with the sort it was built at. *)
Inductive VarContainer :=
| VarPrimitive (impl_ : Expr)
| VarVector (sort_ : Sort) (impl_ : list VarContainer)
| VarStruct (sort_ : Sort) (impl_ : list (string * VarContainer)).

(** [InstrTranEdge] and [InstrTranNode]; a node is named by its instruction. *)
Record InstrTranEdge := { src_ : objid; dst_ : objid; cnd_ : option Expr }.
Record InstrTranNode := { next_ : list objid; prev_ : list objid }.

Record InstrSeq := {
  root_ : option objid;
  edges_ : list InstrTranEdge;
  nodes_ : gmap objid InstrTranNode }.

Record Instr := {
  i_name : string;
  i_host : option objid;
  decode_ : option Expr;
  updates_ : gmap string (option Expr);
  prog_ : option objid }.

Record InstrLvlAbs := {
  l_name : string;
  parent_ : option objid;
  inputs_ : KeyVec Expr;
  states_ : KeyVec Expr;
  input_objects_ : KeyVec VarContainer;
  state_objects_ : KeyVec VarContainer;
  inits_ : list Expr;
  fetch_ : option Expr;
  valid_ : option Expr;
  instrs_ : KeyVec objid;
  childs_ : KeyVec objid;
  instr_seq_ : option InstrSeq;
  is_spec_ : bool }.

(** [counter_] is [Symbol::counter_]; the model advances it once per object. *)
Record World := {
  counter_ : objid;
  w_ilas : gmap objid InstrLvlAbs;
  w_instrs : gmap objid Instr }.

Abbreviation M := (ST World).

(** Iteration of a set of pointers ([std::set] by address, [unordered_set] by
    hash): some enumeration of its elements that the program does not choose. *)
Class Layout := {
  set_order : list objid -> list objid;
  set_order_perm l : NoDup l -> set_order l ≡ₚ l }.

(** The layout in which objects are laid out in creation order. *)
Definition layout_id : Layout :=
  {| set_order := fun l => l; set_order_perm := fun l _ => Permutation_refl l |}.

(** ** The store *)
Definition fresh : M objid := fun w =>
  let id := (counter_ w + 1)%N in
  Ok (id, {| counter_ := id; w_ilas := w_ilas w; w_instrs := w_instrs w |}).

Definition ila (m : objid) : M InstrLvlAbs :=
  fun w => l ← deref (w_ilas w !! m); Ok (l, w).
Definition instr_ (i : objid) : M Instr :=
  fun w => l ← deref (w_instrs w !! i); Ok (l, w).

Lemma ila_run m w l : w_ilas w !! m = Some l -> ila m w = Ok (l, w).
Proof. unfold ila. by intros ->. Qed.
Lemma instr_run i w x : w_instrs w !! i = Some x -> instr_ i w = Ok (x, w).
Proof. unfold instr_. by intros ->. Qed.

Definition put_ila (m : objid) (l : InstrLvlAbs) : M unit := modify (fun w =>
  {| counter_ := counter_ w; w_ilas := <[m := l]> (w_ilas w); w_instrs := w_instrs w |}).
Definition put_instr (i : objid) (l : Instr) : M unit := modify (fun w =>
  {| counter_ := counter_ w; w_ilas := w_ilas w; w_instrs := <[i := l]> (w_instrs w) |}).

Definition assert_ (b : bool) : M unit := lift (ila_assert b).
Definition check_ (b : bool) : M unit := lift (ila_check b).
Definition notnull {A} (p : option A) : M A := lift (not_null p).

Definition is_some {A} (o : option A) : bool := if o is Some _ then true else false.

(** ** [src/ila/instr.cc] *)
Module Instrs.

Definition with_decode (i : Instr) (d : option Expr) : Instr :=
  {| i_name := i_name i; i_host := i_host i; decode_ := d;
     updates_ := updates_ i; prog_ := prog_ i |}.
Definition with_updates (i : Instr) (u : gmap string (option Expr)) : Instr :=
  {| i_name := i_name i; i_host := i_host i; decode_ := decode_ i;
     updates_ := u; prog_ := prog_ i |}.
Definition with_prog (i : Instr) (p : option objid) : Instr :=
  {| i_name := i_name i; i_host := i_host i; decode_ := decode_ i;
     updates_ := updates_ i; prog_ := p |}.

Definition New (name : string) (host : option objid) : M objid :=
  id ← fresh;
  put_instr id {| i_name := name; i_host := host; decode_ := None;
                  updates_ := ∅; prog_ := None |};;
  mret id.

Definition ForceSetDecode (i : objid) (decode : option Expr) : M unit :=
  d ← notnull decode;
  check_ (Exprs.is_bool d);;
  x ← instr_ i;
  put_instr i (with_decode x (Some d)).

(** An error is logged, and the call has no effect, when one is set already. *)
Definition set_decode (i : objid) (decode : option Expr) : M unit :=
  x ← instr_ i;
  match decode_ x with
  | Some _ => mret ()
  | None => ForceSetDecode i decode
  end.

Definition ForceAddUpdate (i : objid) (name : string) (update : option Expr) : M unit :=
  x ← instr_ i;
  put_instr i (with_updates x (<[name := update]> (updates_ x))).

Definition set_update (i : objid) (name : string) (update : option Expr) : M unit :=
  x ← instr_ i;
  match updates_ x !! name with
  | Some _ => mret ()
  | None => ForceAddUpdate i name update
  end.

Definition set_update_state (i : objid) (state : Expr) (update : option Expr) : M unit :=
  set_update i (Exprs.name state) update.

Definition set_program (i : objid) (program : option objid) : M unit :=
  x ← instr_ i;
  assert_ (negb (is_some (prog_ x)));;
  assert_ (is_some program);;
  put_instr i (with_prog x program).

(** [update(name)]: null when there is none (or null was given). *)
Definition update (x : Instr) (name : string) : option Expr :=
  match updates_ x !! name with Some u => u | None => None end.

Definition update_state (x : Instr) (state : Expr) : option Expr :=
  update x (Exprs.name state).

(** [updated_states]: the keys of the [std::map], in string order. *)
Definition str_le (a b : string) : Prop := String.leb a b = true.
#[global] Instance str_le_dec : RelDecision str_le.
Proof. unfold str_le. intros a b. apply _. Defined.
Definition updated_states (x : Instr) : list string :=
  merge_sort str_le (elements (dom (updates_ x))).
End Instrs.

(** ** [src/ila/transition.cc] *)
Module InstrSeqs.

Definition New : InstrSeq := {| root_ := None; edges_ := []; nodes_ := ∅ |}.
Definition clear (s : InstrSeq) : InstrSeq :=
  {| root_ := root_ s; edges_ := []; nodes_ := ∅ |}.

Definition node_new : InstrTranNode := {| next_ := []; prev_ := [] |}.
Definition AddNext (n : InstrTranNode) (next : objid) : InstrTranNode :=
  {| next_ := next_ n ++ [next]; prev_ := prev_ n |}.
Definition AddPrev (n : InstrTranNode) (prev : objid) : InstrTranNode :=
  {| next_ := next_ n; prev_ := prev_ n ++ [prev] |}.

Definition next (n : InstrTranNode) (i : nat) : Res objid :=
  ila_assert (i <? length (next_ n))%nat;; Exprs.at_ (next_ n) i.
Definition prev (n : InstrTranNode) (i : nat) : Res objid :=
  ila_assert (i <? length (prev_ n))%nat;; Exprs.at_ (prev_ n) i.

(** The node of an instruction, created on first sight. *)
Definition find_or_new (nodes : gmap objid InstrTranNode) (i : objid) :
    gmap objid InstrTranNode :=
  match nodes !! i with Some _ => nodes | None => <[i := node_new]> nodes end.

Definition AddTran (s : InstrSeq) (src dst : objid) (cnd : option Expr) : InstrSeq :=
  let edges := edges_ s ++ [{| src_ := src; dst_ := dst; cnd_ := cnd |}] in
  let nodes := find_or_new (nodes_ s) src in
  let nodes := find_or_new nodes dst in
  let nodes := alter (fun n => AddNext n dst) src nodes in
  let nodes := alter (fun n => AddPrev n src) dst nodes in
  {| root_ := root_ s; edges_ := edges; nodes_ := nodes |}.

Definition set_root (s : InstrSeq) (i : objid) : InstrSeq :=
  {| root_ := Some i; edges_ := edges_ s; nodes_ := nodes_ s |}.

(** The adjacency lists agree with the edges. *)
Definition successors (s : InstrSeq) (i : objid) : list objid :=
  dst_ <$> filter (fun e => src_ e = i) (edges_ s).
Definition predecessors (s : InstrSeq) (i : objid) : list objid :=
  src_ <$> filter (fun e => dst_ e = i) (edges_ s).

Definition node_at (s : InstrSeq) (i : objid) : InstrTranNode :=
  default node_new (nodes_ s !! i).

Definition seq_ok (s : InstrSeq) : Prop :=
  forall i, next_ (node_at s i) = successors s i /\
            prev_ (node_at s i) = predecessors s i.

Lemma find_or_new_at nodes i j :
  default node_new (find_or_new nodes i !! j) = default node_new (nodes !! j).
Proof.
  unfold find_or_new. destruct (nodes !! i) eqn:E; [done|].
  destruct (decide (i = j)) as [->|].
  - by rewrite lookup_insert_eq, E.
  - by rewrite lookup_insert_ne.
Qed.

Lemma find_or_new_dom nodes i j :
  is_Some (find_or_new nodes i !! j) <-> i = j \/ is_Some (nodes !! j).
Proof.
  unfold find_or_new. destruct (nodes !! i) eqn:E.
  - split; [by right|]. intros [<-|?]; [by rewrite E|done].
  - rewrite lookup_insert_is_Some. destruct (decide (i = j)); naive_solver.
Qed.

Lemma AddTran_node s src dst cnd i :
  node_at (AddTran s src dst cnd) i =
  let n := node_at s i in
  let n := if decide (src = i) then AddNext n dst else n in
  if decide (dst = i) then AddPrev n src else n.
Proof.
  unfold node_at, AddTran; cbn [nodes_].
  set (ns := find_or_new (find_or_new (nodes_ s) src) dst).
  assert (Hn : default node_new (ns !! i) = default node_new (nodes_ s !! i))
    by (unfold ns; by rewrite !find_or_new_at).
  assert (Hd : src = i \/ dst = i -> is_Some (ns !! i))
    by (unfold ns; rewrite !find_or_new_dom; tauto).
  rewrite lookup_alter, !lookup_alter. cbn. rewrite <- Hn. clearbody ns.
  repeat case_decide; subst; try congruence;
    try (destruct Hd as [n ->]; [tauto|]); cbn; done.
Qed.

(** The adjacency lists of the sequencing graph always agree with its edge
    set: after [AddTran] every node's [next_] (and [prev_]) lists exactly the
    targets (sources) of its edges, in insertion order. *)
Theorem AddTran_ok s src dst cnd :
  seq_ok s -> seq_ok (AddTran s src dst cnd).
Proof.
  intros Hs i. destruct (Hs i) as [Hn Hp]. rewrite AddTran_node.
  unfold successors, predecessors in *. cbn [AddTran edges_].
  rewrite !filter_app, !fmap_app, <- Hn, <- Hp. cbn.
  repeat case_decide; cbn; rewrite ?app_nil_r; done.
Qed.

Lemma AddTran_ok_witness :
  let s := AddTran (AddTran New 1 2 None) 1 3 None in
  seq_ok s /\ next_ (node_at s 1) = [2%N; 3%N].
Proof.
  split; [|reflexivity]. apply (AddTran_ok _ 1%N 3%N None), (AddTran_ok _ 1%N 2%N None).
  intros i. unfold node_at, New; cbn. by rewrite lookup_empty.
Defined.
End InstrSeqs.

(** ** [src/ila/instr_lvl_abs.cc] *)
Module Ila.

(** Field updates. *)
Section setters.
Context (l : InstrLvlAbs).
Definition with_inputs (x : KeyVec Expr) : InstrLvlAbs :=
  {| l_name := l_name l; parent_ := parent_ l; inputs_ := x; states_ := states_ l;
     input_objects_ := input_objects_ l; state_objects_ := state_objects_ l;
     inits_ := inits_ l; fetch_ := fetch_ l; valid_ := valid_ l;
     instrs_ := instrs_ l; childs_ := childs_ l; instr_seq_ := instr_seq_ l;
     is_spec_ := is_spec_ l |}.
Definition with_states (x : KeyVec Expr) : InstrLvlAbs :=
  {| l_name := l_name l; parent_ := parent_ l; inputs_ := inputs_ l; states_ := x;
     input_objects_ := input_objects_ l; state_objects_ := state_objects_ l;
     inits_ := inits_ l; fetch_ := fetch_ l; valid_ := valid_ l;
     instrs_ := instrs_ l; childs_ := childs_ l; instr_seq_ := instr_seq_ l;
     is_spec_ := is_spec_ l |}.
Definition with_input_objects (x : KeyVec VarContainer) : InstrLvlAbs :=
  {| l_name := l_name l; parent_ := parent_ l; inputs_ := inputs_ l;
     states_ := states_ l; input_objects_ := x; state_objects_ := state_objects_ l;
     inits_ := inits_ l; fetch_ := fetch_ l; valid_ := valid_ l;
     instrs_ := instrs_ l; childs_ := childs_ l; instr_seq_ := instr_seq_ l;
     is_spec_ := is_spec_ l |}.
Definition with_state_objects (x : KeyVec VarContainer) : InstrLvlAbs :=
  {| l_name := l_name l; parent_ := parent_ l; inputs_ := inputs_ l;
     states_ := states_ l; input_objects_ := input_objects_ l; state_objects_ := x;
     inits_ := inits_ l; fetch_ := fetch_ l; valid_ := valid_ l;
     instrs_ := instrs_ l; childs_ := childs_ l; instr_seq_ := instr_seq_ l;
     is_spec_ := is_spec_ l |}.
Definition with_inits (x : list Expr) : InstrLvlAbs :=
  {| l_name := l_name l; parent_ := parent_ l; inputs_ := inputs_ l;
     states_ := states_ l; input_objects_ := input_objects_ l;
     state_objects_ := state_objects_ l; inits_ := x; fetch_ := fetch_ l;
     valid_ := valid_ l; instrs_ := instrs_ l; childs_ := childs_ l;
     instr_seq_ := instr_seq_ l; is_spec_ := is_spec_ l |}.
Definition with_fetch (x : option Expr) : InstrLvlAbs :=
  {| l_name := l_name l; parent_ := parent_ l; inputs_ := inputs_ l;
     states_ := states_ l; input_objects_ := input_objects_ l;
     state_objects_ := state_objects_ l; inits_ := inits_ l; fetch_ := x;
     valid_ := valid_ l; instrs_ := instrs_ l; childs_ := childs_ l;
     instr_seq_ := instr_seq_ l; is_spec_ := is_spec_ l |}.
Definition with_valid (x : option Expr) : InstrLvlAbs :=
  {| l_name := l_name l; parent_ := parent_ l; inputs_ := inputs_ l;
     states_ := states_ l; input_objects_ := input_objects_ l;
     state_objects_ := state_objects_ l; inits_ := inits_ l; fetch_ := fetch_ l;
     valid_ := x; instrs_ := instrs_ l; childs_ := childs_ l;
     instr_seq_ := instr_seq_ l; is_spec_ := is_spec_ l |}.
Definition with_instrs (x : KeyVec objid) : InstrLvlAbs :=
  {| l_name := l_name l; parent_ := parent_ l; inputs_ := inputs_ l;
     states_ := states_ l; input_objects_ := input_objects_ l;
     state_objects_ := state_objects_ l; inits_ := inits_ l; fetch_ := fetch_ l;
     valid_ := valid_ l; instrs_ := x; childs_ := childs_ l;
     instr_seq_ := instr_seq_ l; is_spec_ := is_spec_ l |}.
Definition with_childs (x : KeyVec objid) : InstrLvlAbs :=
  {| l_name := l_name l; parent_ := parent_ l; inputs_ := inputs_ l;
     states_ := states_ l; input_objects_ := input_objects_ l;
     state_objects_ := state_objects_ l; inits_ := inits_ l; fetch_ := fetch_ l;
     valid_ := valid_ l; instrs_ := instrs_ l; childs_ := x;
     instr_seq_ := instr_seq_ l; is_spec_ := is_spec_ l |}.
Definition with_instr_seq (x : option InstrSeq) : InstrLvlAbs :=
  {| l_name := l_name l; parent_ := parent_ l; inputs_ := inputs_ l;
     states_ := states_ l; input_objects_ := input_objects_ l;
     state_objects_ := state_objects_ l; inits_ := inits_ l; fetch_ := fetch_ l;
     valid_ := valid_ l; instrs_ := instrs_ l; childs_ := childs_ l;
     instr_seq_ := x; is_spec_ := is_spec_ l |}.
Definition with_is_spec (x : bool) : InstrLvlAbs :=
  {| l_name := l_name l; parent_ := parent_ l; inputs_ := inputs_ l;
     states_ := states_ l; input_objects_ := input_objects_ l;
     state_objects_ := state_objects_ l; inits_ := inits_ l; fetch_ := fetch_ l;
     valid_ := valid_ l; instrs_ := instrs_ l; childs_ := childs_ l;
     instr_seq_ := instr_seq_ l; is_spec_ := x |}.
End setters.

(** [InstrLvlAbs(name, parent)]: every container empty, [is_spec_] true. *)
Definition New (name : string) (parent : option objid) : M objid :=
  id ← fresh;
  put_ila id
    {| l_name := name; parent_ := parent; inputs_ := KeyVec.empty;
       states_ := KeyVec.empty; input_objects_ := KeyVec.empty;
       state_objects_ := KeyVec.empty; inits_ := []; fetch_ := None;
       valid_ := None; instrs_ := KeyVec.empty; childs_ := KeyVec.empty;
       instr_seq_ := None; is_spec_ := true |};;
  mret id.

(** Read [m], compute its new value, write it back. *)
Definition update_ila (m : objid) (f : InstrLvlAbs -> Res InstrLvlAbs) : M unit :=
  l ← ila m; l' ← lift (f l); put_ila m l'.

Definition set_spec (m : objid) (spec : bool) : M unit :=
  update_ila m (fun l => Ok (with_is_spec l spec)).

Definition input_num (l : InstrLvlAbs) : nat := KeyVec.size (inputs_ l).
Definition state_num (l : InstrLvlAbs) : nat := KeyVec.size (states_ l).
Definition instr_num (l : InstrLvlAbs) : nat := KeyVec.size (instrs_ l).
Definition child_num (l : InstrLvlAbs) : nat := KeyVec.size (childs_ l).
Definition init_num (l : InstrLvlAbs) : nat := length (inits_ l).

Definition find_input (l : InstrLvlAbs) (name : string) : option Expr :=
  KeyVec.find (inputs_ l) name.
Definition find_state (l : InstrLvlAbs) (name : string) : option Expr :=
  KeyVec.find (states_ l) name.
Definition find_input_object (l : InstrLvlAbs) (name : string) : option VarContainer :=
  KeyVec.find (input_objects_ l) name.
Definition find_state_object (l : InstrLvlAbs) (name : string) : option VarContainer :=
  KeyVec.find (state_objects_ l) name.
Definition find_instr (l : InstrLvlAbs) (name : string) : option objid :=
  KeyVec.find (instrs_ l) name.
Definition find_child (l : InstrLvlAbs) (name : string) : option objid :=
  KeyVec.find (childs_ l) name.

(** The guard of [AddInput] and [AddState]: the name is neither an input nor a
    state of this ILA. *)
Definition var_new (l : InstrLvlAbs) (name : string) : Res unit :=
  ila_assert (negb (is_some (find_input l name)));;
  ila_assert (negb (is_some (find_state l name))).

Definition add_input (input_var : Expr) (l : InstrLvlAbs) : Res InstrLvlAbs :=
  ila_assert (Exprs.is_var input_var);;
  var_new l (Exprs.name input_var);;
  Ok (with_inputs l (KeyVec.push_back (inputs_ l) (Exprs.name input_var) input_var).2).
Definition AddInput (m : objid) (input_var : option Expr) : M unit :=
  e ← notnull input_var; update_ila m (add_input e).

Definition add_state (state_var : Expr) (l : InstrLvlAbs) : Res InstrLvlAbs :=
  ila_assert (Exprs.is_var state_var);;
  var_new l (Exprs.name state_var);;
  Ok (with_states l (KeyVec.push_back (states_ l) (Exprs.name state_var) state_var).2).
Definition AddState (m : objid) (state_var : option Expr) : M unit :=
  e ← notnull state_var; update_ila m (add_state e).

Definition AddInit (m : objid) (cntr_expr : option Expr) : M unit :=
  e ← notnull cntr_expr;
  assert_ (Exprs.is_bool e);;
  update_ila m (fun l => Ok (with_inits l (inits_ l ++ [e]))).

Definition ForceSetFetch (m : objid) (fetch_expr : option Expr) : M unit :=
  e ← notnull fetch_expr;
  assert_ (Exprs.is_bv e 0);;
  update_ila m (fun l => Ok (with_fetch l (Some e))).

Definition SetFetch (m : objid) (fetch_expr : option Expr) : M unit :=
  l ← ila m;
  assert_ (negb (is_some (fetch_ l)));;
  ForceSetFetch m fetch_expr.

Definition ForceSetValid (m : objid) (valid_expr : option Expr) : M unit :=
  e ← notnull valid_expr;
  assert_ (Exprs.is_bool e);;
  update_ila m (fun l => Ok (with_valid l (Some e))).

Definition SetValid (m : objid) (valid_expr : option Expr) : M unit :=
  l ← ila m;
  assert_ (negb (is_some (valid_ l)));;
  ForceSetValid m valid_expr.

(** The status of [push_back] is ignored: a second instruction (or child) of
    the same name is not registered. *)
Definition AddInstr (m : objid) (instr : objid) : M unit :=
  x ← instr_ instr;
  update_ila m (fun l =>
    Ok (with_instrs l (KeyVec.push_back (instrs_ l) (i_name x) instr).2)).

Definition AddChild (m : objid) (child : objid) : M unit :=
  c ← ila child;
  update_ila m (fun l =>
    Ok (with_childs l (KeyVec.push_back (childs_ l) (l_name c) child).2)).

Definition NewInstr (m : objid) (name : string) : M objid :=
  l ← ila m;
  let tmp_name := if String.eqb name "" then "I." +:+ pretty (instr_num l) else name in
  instr ← Instrs.New tmp_name (Some m);
  AddInstr m instr;;
  mret instr.

(** The child starts with the states and then the inputs of its parent. *)
Definition NewChild (m : objid) (name : string) : M objid :=
  child ← New name (Some m);
  l ← ila m;
  foldM (fun s (_ : unit) => AddState child (Some s)) (KeyVec.vec_ (states_ l)) ();;
  foldM (fun s (_ : unit) => AddInput child (Some s)) (KeyVec.vec_ (inputs_ l)) ();;
  AddChild m child;;
  mret child.

Definition AddSeqTran (m : objid) (src dst : objid) (cnd : option Expr) : M unit :=
  update_ila m (fun l =>
    let s := default InstrSeqs.New (instr_seq_ l) in
    Ok (with_instr_seq l (Some (InstrSeqs.AddTran s src dst cnd)))).

(** [GetRootName] recurses through the parents.  A parent is created before its
    child, so the ids decrease along the chain and [id + 1] is enough fuel. *)
Fixpoint root_name (n : nat) (w : gmap objid InstrLvlAbs) (m : objid) : Res string :=
  match n with
  | O => Fail EDiverge
  | S n =>
      l ← deref (w !! m);
      match parent_ l with
      | Some p => r ← root_name n w p; Ok (r +:+ "." +:+ l_name l)
      | None => Ok (l_name l)
      end
  end.
Definition GetRootName (m : objid) : M string := fun w =>
  r ← root_name (S (N.to_nat m)) (w_ilas w) m; Ok (r, w).

(** The visitors of the hierarchy, children first ([DepthFirstVisit]) and with
    a cut-off before them ([DepthFirstVisitPrePost]).  The number of children
    is read again at each step of the loop, as in the header.  [n] bounds the
    depth and [k] the number of children visited. *)
Section visit.
Context {X : Type} (func : objid -> X -> M X).
Context (pre : objid -> X -> M (bool * X)) (post : objid -> X -> M X).

Fixpoint visit_childs (rec : objid -> X -> M X) (m : objid) (k i : nat) (s : X) : M X :=
  match k with
  | O => lift (Fail EDiverge)
  | S k =>
      l ← ila m;
      if (i =? child_num l)%nat then mret s else
      c ← lift (KeyVec.at_ (childs_ l) i);
      s' ← rec c s; visit_childs rec m k (S i) s'
  end.

Fixpoint DepthFirstVisit (n : nat) (m : objid) (s : X) : M X :=
  match n with
  | O => lift (Fail EDiverge)
  | S n => s' ← visit_childs (DepthFirstVisit n) m n 0 s; func m s'
  end.

Fixpoint DepthFirstVisitPrePost (n : nat) (m : objid) (s : X) : M X :=
  match n with
  | O => lift (Fail EDiverge)
  | S n =>
      '(stop, s1) ← pre m s;
      if (stop : bool) then mret s1 else
      s2 ← visit_childs (DepthFirstVisitPrePost n) m n 0 s1; post m s2
  end.
End visit.
End Ila.

(** ** Well-formed variable tables *)
Module IlaOk.
Import Ila.

(** A table of variables keyed by their names. *)
Record keyed (v : KeyVec Expr) : Prop := {
  keyed_wf : KeyVec.wf v;
  keyed_name k i e : KeyVec.map_ v !! k = Some i -> KeyVec.vec_ v !! i = Some e ->
    Exprs.name e = k;
  keyed_var e : e ∈ KeyVec.vec_ v -> Exprs.is_var e = true }.

(** Inputs and states are tables of variables with disjoint names. *)
Record vars_ok (l : InstrLvlAbs) : Prop := {
  ok_inputs : keyed (inputs_ l);
  ok_states : keyed (states_ l);
  ok_disj k : find_input l k = None \/ find_state l k = None }.

Lemma is_some_false {A} (o : option A) : is_some o = false <-> o = None.
Proof. by destruct o. Qed.

Lemma keyed_empty : keyed KeyVec.empty.
Proof. split; cbn; [apply KeyVec.empty_wf|done|by intros e ?%elem_of_nil]. Qed.

Lemma find_None {T} (v : KeyVec T) k :
  KeyVec.wf v -> KeyVec.find v k = None <-> KeyVec.map_ v !! k = None.
Proof.
  intros Hw. unfold KeyVec.find. destruct (KeyVec.map_ v !! k) as [i|] eqn:E; cbn; [|done].
  apply (KeyVec.wf_lt _ Hw), lookup_lt_is_Some_2 in E as [t ->]. done.
Qed.

Lemma find_name v k e : keyed v -> KeyVec.find v k = Some e -> Exprs.name e = k.
Proof.
  intros Hv. unfold KeyVec.find. destruct (KeyVec.map_ v !! k) eqn:E; [|done].
  cbn. by apply (keyed_name _ Hv).
Qed.

Lemma find_elem {T} (v : KeyVec T) k e : KeyVec.find v k = Some e -> e ∈ KeyVec.vec_ v.
Proof.
  unfold KeyVec.find. destruct (KeyVec.map_ v !! k); [|done]. cbn.
  apply list_elem_of_lookup_2.
Qed.

Lemma elem_find v e : keyed v -> e ∈ KeyVec.vec_ v ->
  KeyVec.find v (Exprs.name e) = Some e.
Proof.
  intros Hv [i Hi]%list_elem_of_lookup.
  destruct (KeyVec.wf_sur _ (keyed_wf _ Hv) i) as [k Hk]; [by eapply lookup_lt_Some|].
  unfold KeyVec.find. rewrite (keyed_name _ Hv _ _ _ Hk Hi), Hk. done.
Qed.

Lemma keyed_NoDup v : keyed v -> NoDup (Exprs.name <$> KeyVec.vec_ v).
Proof.
  intros Hv. apply NoDup_alt. intros i j k.
  rewrite !list_lookup_fmap, !fmap_Some. intros (e & Hi & ->) (e' & Hj & Hn).
  pose proof (keyed_wf _ Hv) as Hw.
  destruct (KeyVec.wf_sur _ Hw i) as [ki Hki]; [by eapply lookup_lt_Some|].
  destruct (KeyVec.wf_sur _ Hw j) as [kj Hkj]; [by eapply lookup_lt_Some|].
  pose proof (keyed_name _ Hv _ _ _ Hki Hi). pose proof (keyed_name _ Hv _ _ _ Hkj Hj).
  congruence.
Qed.

Lemma keyed_push v e :
  keyed v -> Exprs.is_var e = true -> KeyVec.find v (Exprs.name e) = None ->
  keyed (KeyVec.push_back v (Exprs.name e) e).2.
Proof.
  intros Hv He Hf. split; [by apply KeyVec.push_back_wf, keyed_wf| |].
  - apply find_None in Hf; [|by apply keyed_wf]. unfold KeyVec.push_back. rewrite Hf. cbn.
    intros k i e'. destruct (decide (k = Exprs.name e)) as [->|?].
    + rewrite lookup_insert_eq. intros [= <-].
      rewrite lookup_app_r, Nat.sub_diag by done. by intros [= ->].
    + rewrite lookup_insert_ne by done. intros Hk.
      pose proof (KeyVec.wf_lt _ (keyed_wf _ Hv) _ _ Hk) as Hi.
      unfold KeyVec.size in Hi. rewrite lookup_app_l by done. by apply (keyed_name _ Hv).
  - apply find_None in Hf; [|by apply keyed_wf]. unfold KeyVec.push_back. rewrite Hf. cbn.
    intros e' [?| ->%list_elem_of_singleton]%elem_of_app; [by apply (keyed_var _ Hv)|done].
Qed.

Lemma var_new_ok l k u :
  var_new l k = Ok u <-> find_input l k = None /\ find_state l k = None.
Proof.
  unfold var_new. destruct (find_input l k), (find_state l k), u; cbn; naive_solver.
Qed.

Lemma add_input_ok e l l' :
  add_input e l = Ok l' <->
  Exprs.is_var e = true /\ find_input l (Exprs.name e) = None /\
  find_state l (Exprs.name e) = None /\
  l' = with_inputs l (KeyVec.push_back (inputs_ l) (Exprs.name e) e).2.
Proof.
  unfold add_input. rewrite Res_bind_ok. setoid_rewrite Res_bind_ok.
  setoid_rewrite ila_assert_ok. setoid_rewrite var_new_ok. naive_solver.
Qed.

Lemma add_state_ok e l l' :
  add_state e l = Ok l' <->
  Exprs.is_var e = true /\ find_input l (Exprs.name e) = None /\
  find_state l (Exprs.name e) = None /\
  l' = with_states l (KeyVec.push_back (states_ l) (Exprs.name e) e).2.
Proof.
  unfold add_state. rewrite Res_bind_ok. setoid_rewrite Res_bind_ok.
  setoid_rewrite ila_assert_ok. setoid_rewrite var_new_ok. naive_solver.
Qed.

Lemma find_push v e k : keyed v -> KeyVec.find v (Exprs.name e) = None ->
  KeyVec.find (KeyVec.push_back v (Exprs.name e) e).2 k =
  if decide (k = Exprs.name e) then Some e else KeyVec.find v k.
Proof.
  intros Hv Hf. rewrite KeyVec.find_push_back by by apply keyed_wf.
  case_decide; subst; [by rewrite Hf|]. by destruct (KeyVec.find v k).
Qed.

Lemma add_input_vars e l l' : vars_ok l -> add_input e l = Ok l' -> vars_ok l'.
Proof.
  intros [Hi Hs Hd] (He & Hf & Hf' & ->)%add_input_ok. split; cbn; auto using keyed_push.
  intros k. unfold find_input, find_state in *; cbn. rewrite find_push by done.
  case_decide; subst; auto.
Qed.

Lemma add_state_vars e l l' : vars_ok l -> add_state e l = Ok l' -> vars_ok l'.
Proof.
  intros [Hi Hs Hd] (He & Hf & Hf' & ->)%add_state_ok. split; cbn; auto using keyed_push.
  intros k. unfold find_input, find_state in *; cbn. rewrite find_push by done.
  case_decide; subst; auto.
Qed.

(** C28.  Registering a variable.  From a well-formed ILA, [AddInput] succeeds
    exactly for a variable whose name is no input and no state yet (otherwise
    it asserts); it then appends the variable, makes it the one found under its
    name, leaves every other lookup as it was and keeps the tables well formed.
    The same holds of [AddState]. *)
Theorem AddVar_spec e l (add_st : bool) :
  vars_ok l ->
  let add := if add_st then add_state else add_input in
  let tbl := if add_st then states_ else inputs_ in
  let other := if add_st then inputs_ else states_ in
  if Exprs.is_var e && negb (is_some (find_input l (Exprs.name e)))
       && negb (is_some (find_state l (Exprs.name e)))
  then exists l', add e l = Ok l' /\ vars_ok l' /\
       KeyVec.vec_ (tbl l') = KeyVec.vec_ (tbl l) ++ [e] /\ other l' = other l /\
       forall k, KeyVec.find (tbl l') k =
                 if decide (k = Exprs.name e) then Some e else KeyVec.find (tbl l) k
  else add e l = Fail EAssert.
Proof.
  intros Hl. cbn. destruct (_ && _) eqn:E.
  - bool_inv. apply is_some_false in H0, H1. destruct Hl as [Hi Hs Hd].
    destruct add_st; eexists; (split; [by first [apply add_state_ok|apply add_input_ok]|]).
    + split; [eapply add_state_vars; [by split|by apply add_state_ok]|]. cbn.
      split; [|split; [done|intros k; by apply find_push]].
      unfold KeyVec.push_back. apply find_None in H0; [|by apply keyed_wf]. by rewrite H0.
    + split; [eapply add_input_vars; [by split|by apply add_input_ok]|]. cbn.
      split; [|split; [done|intros k; by apply find_push]].
      unfold KeyVec.push_back. apply find_None in H1; [|by apply keyed_wf]. by rewrite H1.
  - destruct add_st; unfold add_state, add_input, var_new;
      destruct (Exprs.is_var e), (is_some (find_input _ _)), (is_some (find_state _ _)); done.
Qed.

Definition nil_var (id : objid) (name : string) (s : Sort) : Expr :=
  ExprVar {| h_id := id; h_name := name; h_host := None; h_sort := s |} [].

Definition nil_ila (name : string) (parent : option objid) : InstrLvlAbs :=
  {| l_name := name; parent_ := parent; inputs_ := KeyVec.empty;
     states_ := KeyVec.empty; input_objects_ := KeyVec.empty;
     state_objects_ := KeyVec.empty; inits_ := []; fetch_ := None;
     valid_ := None; instrs_ := KeyVec.empty; childs_ := KeyVec.empty;
     instr_seq_ := None; is_spec_ := true |}.

Lemma nil_ila_vars name parent : vars_ok (nil_ila name parent).
Proof. split; cbn; auto using keyed_empty. Qed.

Lemma AddVar_spec_witness :
  exists l', add_state (nil_var 1 "x" SortBool) (nil_ila "m" None) = Ok l' /\
    add_input (nil_var 2 "x" SortBool) l' = Fail EAssert.
Proof.
  destruct (AddVar_spec (nil_var 1 "x" SortBool) (nil_ila "m" None) true
              (nil_ila_vars _ _)) as (l' & E & Hl & _).
  exists l'. split; [exact E|].
  generalize (AddVar_spec (nil_var 2 "x" SortBool) l' false Hl).
  cbn in E. injection E as <-. cbn. exact id.
Defined.

(** ** Children *)

(** Objects have ids up to the counter; a parent is older than its child. *)
Definition ilas_ok (w : gmap objid InstrLvlAbs) : Prop := forall m l p,
  w !! m = Some l -> parent_ l = Some p -> (p < m)%N /\ is_Some (w !! p).
Record world_ok (w : World) : Prop := {
  ok_ila_le m l : w_ilas w !! m = Some l -> (m <= counter_ w)%N;
  ok_parent : ilas_ok (w_ilas w) }.

Definition set_ila (w : World) (m : objid) (l : InstrLvlAbs) : World :=
  {| counter_ := counter_ w; w_ilas := <[m := l]> (w_ilas w); w_instrs := w_instrs w |}.

Lemma set_ila_id w m l : w_ilas w !! m = Some l -> set_ila w m l = w.
Proof. intros H. destruct w; unfold set_ila; cbn in *. by rewrite insert_id. Qed.

Lemma set_ila_twice w m l l' : set_ila (set_ila w m l) m l' = set_ila w m l'.
Proof. unfold set_ila; cbn. by rewrite insert_insert_eq. Qed.

Lemma update_ila_run m f w l : w_ilas w !! m = Some l ->
  update_ila m f w = (l' ← f l; Ok ((), set_ila w m l')).
Proof.
  intros H. unfold update_ila, ila, mbind, ST_bind, lift. cbn. rewrite H. cbn.
  by destruct (f l).
Qed.

Lemma foldM_update m (f : Expr -> InstrLvlAbs -> Res InstrLvlAbs)
    (g : Expr -> M unit) es w l :
  (forall e, g e = update_ila m (f e)) -> w_ilas w !! m = Some l ->
  foldM (fun e (_ : unit) => g e) es () w = (l' ← foldM f es l; Ok ((), set_ila w m l')).
Proof.
  intros Hg. revert w l. induction es as [|e es IH]; intros w l H; cbn [foldM].
  - cbn. unfold mret, ST_ret. by rewrite set_ila_id.
  - unfold mbind at 1, ST_bind. rewrite Hg, (update_ila_run _ _ _ l) by done.
    destruct (f e l) as [l1|]; cbn; [|done].
    rewrite (IH _ l1) by (cbn; by rewrite lookup_insert_eq).
    destruct (foldM f es l1) as [l2|]; cbn; [|done]. by rewrite set_ila_twice.
Qed.

Definition push_vars (v : KeyVec Expr) (es : list Expr) : KeyVec Expr :=
  KeyVec.push_all v ((fun e => (Exprs.name e, e)) <$> es).

Lemma with_states_twice l x y : with_states (with_states l x) y = with_states l y.
Proof. done. Qed.
Lemma with_inputs_twice l x y : with_inputs (with_inputs l x) y = with_inputs l y.
Proof. done. Qed.

(** Registering variables with distinct new names succeeds. *)
Lemma foldM_add_state es l :
  vars_ok l -> NoDup (Exprs.name <$> es) ->
  (forall e, e ∈ es -> Exprs.is_var e = true /\
     find_input l (Exprs.name e) = None /\ find_state l (Exprs.name e) = None) ->
  foldM add_state es l = Ok (with_states l (push_vars (states_ l) es)).
Proof.
  revert l. induction es as [|e es IH]; intros l Hl Hnd He; cbn [foldM].
  - by destruct l.
  - apply NoDup_cons in Hnd as [Hn Hnd].
    destruct (He e) as (Hv & Hi & Hs); [by left|].
    rewrite (proj2 (add_state_ok e l _) (conj Hv (conj Hi (conj Hs eq_refl)))). cbn.
    rewrite IH; [done|..|done|].
    + eapply add_state_vars; [done|]. by apply add_state_ok.
    + intros e' He'. destruct (He e') as (? & ? & ?); [by right|]. split_and!; [done..|].
      unfold find_state; cbn. rewrite find_push by (done || apply Hl).
      rewrite decide_False; [done|]. intros Hx. apply Hn. rewrite <- Hx.
      by apply list_elem_of_fmap_2.
Qed.

Lemma foldM_add_input es l :
  vars_ok l -> NoDup (Exprs.name <$> es) ->
  (forall e, e ∈ es -> Exprs.is_var e = true /\
     find_input l (Exprs.name e) = None /\ find_state l (Exprs.name e) = None) ->
  foldM add_input es l = Ok (with_inputs l (push_vars (inputs_ l) es)).
Proof.
  revert l. induction es as [|e es IH]; intros l Hl Hnd He; cbn [foldM].
  - by destruct l.
  - apply NoDup_cons in Hnd as [Hn Hnd].
    destruct (He e) as (Hv & Hi & Hs); [by left|].
    rewrite (proj2 (add_input_ok e l _) (conj Hv (conj Hi (conj Hs eq_refl)))). cbn.
    rewrite IH; [done|..|done|].
    + eapply add_input_vars; [done|]. by apply add_input_ok.
    + intros e' He'. destruct (He e') as (? & ? & ?); [by right|]. split_and!; [done| |done].
      unfold find_input; cbn. rewrite find_push by (done || apply Hl).
      rewrite decide_False; [done|]. intros Hx. apply Hn. rewrite <- Hx.
      by apply list_elem_of_fmap_2.
Qed.

Lemma find_push_vars es k :
  KeyVec.find (push_vars KeyVec.empty es) k = None <-> k ∉ Exprs.name <$> es.
Proof.
  unfold push_vars. rewrite KeyVec.find_push_all by apply KeyVec.empty_wf. cbn.
  induction es as [|e es IH]; cbn; [set_solver|].
  rewrite not_elem_of_cons, <- IH. case_decide; naive_solver.
Qed.

Lemma first_of_each_vars es (seen : gset string) :
  NoDup (Exprs.name <$> es) -> (forall e, e ∈ es -> Exprs.name e ∉ seen) ->
  KeyVec.first_of_each seen ((fun e => (Exprs.name e, e)) <$> es) = es.
Proof.
  revert seen. induction es as [|e es IH]; cbn; [done|].
  intros seen [Hn Hnd]%NoDup_cons Hs.
  rewrite decide_False by (apply Hs; by left). f_equal. apply IH; [done|].
  intros e' He'. rewrite not_elem_of_union, not_elem_of_singleton.
  split; [|apply Hs; by right]. intros Hx. apply Hn. rewrite <- Hx.
  by apply list_elem_of_fmap_2.
Qed.

Lemma vec_push_vars es : NoDup (Exprs.name <$> es) ->
  KeyVec.vec_ (push_vars KeyVec.empty es) = es.
Proof.
  intros H. unfold push_vars. rewrite KeyVec.vec_push_all. cbn. rewrite dom_empty_L.
  apply first_of_each_vars; [done|]. set_solver.
Qed.

(** The child record after the two inheriting loops. *)
Definition child_ila (l : InstrLvlAbs) (m : objid) (name : string) : InstrLvlAbs :=
  with_inputs
    (with_states (nil_ila name (Some m)) (push_vars KeyVec.empty (KeyVec.vec_ (states_ l))))
    (push_vars KeyVec.empty (KeyVec.vec_ (inputs_ l))).

Lemma inherit_states l m name : vars_ok l ->
  foldM add_state (KeyVec.vec_ (states_ l)) (nil_ila name (Some m)) =
  Ok (with_states (nil_ila name (Some m)) (push_vars KeyVec.empty (KeyVec.vec_ (states_ l)))).
Proof.
  intros [Hi Hs Hd]. rewrite foldM_add_state; [done|apply nil_ila_vars|by apply keyed_NoDup|].
  intros e He. by split; [apply (keyed_var _ Hs)|].
Qed.

Lemma with_states_vars l m name : vars_ok l ->
  vars_ok (with_states (nil_ila name (Some m)) (push_vars KeyVec.empty (KeyVec.vec_ (states_ l)))).
Proof.
  intros Hl. pose proof (inherit_states l m name Hl) as H.
  eapply (foldM_Res_inv add_state vars_ok); [|apply nil_ila_vars|exact H].
  intros. by eapply add_state_vars.
Qed.

Lemma names_disjoint l e : vars_ok l ->
  e ∈ KeyVec.vec_ (inputs_ l) -> Exprs.name e ∉ Exprs.name <$> KeyVec.vec_ (states_ l).
Proof.
  intros [Hi Hs Hd] He (s & Hn & Hs')%list_elem_of_fmap.
  apply elem_find in He; [|done]. apply elem_find in Hs'; [|done].
  destruct (Hd (Exprs.name e)); unfold find_input, find_state in *; congruence.
Qed.

Lemma inherit_inputs l m name : vars_ok l ->
  let c := with_states (nil_ila name (Some m))
             (push_vars KeyVec.empty (KeyVec.vec_ (states_ l))) in
  foldM add_input (KeyVec.vec_ (inputs_ l)) c = Ok (child_ila l m name).
Proof.
  intros Hl. cbn zeta. rewrite foldM_add_input; [done|by apply with_states_vars|..].
  - apply keyed_NoDup, Hl.
  - intros e He. split; [by apply (keyed_var _ (ok_inputs _ Hl))|]. split; [done|].
    unfold find_state; cbn. apply find_push_vars. by apply names_disjoint.
Qed.

Lemma child_ila_vars l m name : vars_ok l -> vars_ok (child_ila l m name).
Proof.
  intros Hl. pose proof (inherit_inputs l m name Hl) as H.
  eapply (foldM_Res_inv add_input vars_ok); [|by apply with_states_vars|exact H].
  intros. by eapply add_input_vars.
Qed.

Lemma NewChild_run w m name l :
  w_ilas w !! m = Some l -> m <> (counter_ w + 1)%N -> vars_ok l ->
  let c := (counter_ w + 1)%N in
  NewChild m name w = Ok (c,
    {| counter_ := c;
       w_ilas := <[m := with_childs l (KeyVec.push_back (childs_ l) name c).2]>
                   (<[c := child_ila l m name]> (w_ilas w));
       w_instrs := w_instrs w |}).
Proof.
  intros Hm Hne Hl c. unfold NewChild, New, put_ila, modify.
  cbv [mbind ST_bind mret ST_ret fresh]. cbn [counter_ w_ilas w_instrs]. fold c.
  set (w1 := {| counter_ := c; w_ilas := <[c:=_]> (w_ilas w); w_instrs := w_instrs w |}).
  assert (H1 : w_ilas w1 !! m = Some l) by (cbn; by rewrite lookup_insert_ne).
  assert (Hc : w_ilas w1 !! c = Some (nil_ila name (Some m)))
    by (cbn; by rewrite lookup_insert_eq).
  unfold ila at 1. rewrite H1. cbn [deref mbind Res_bind].
  rewrite (foldM_update c add_state _ _ _ _ (fun e => eq_refl) Hc), (inherit_states l m name Hl).
  cbn [mbind Res_bind].
  erewrite (foldM_update c add_input _ _ _ _ (fun e => eq_refl))
    by (cbn; apply lookup_insert_eq).
  rewrite inherit_inputs by done. cbn [mbind Res_bind]. rewrite set_ila_twice.
  unfold AddChild. cbv [mbind ST_bind]. unfold ila at 1; cbn. rewrite !lookup_insert_eq. cbn.
  rewrite (update_ila_run _ _ _ l) by (cbn; by rewrite !lookup_insert_ne).
  cbn. unfold set_ila; cbn. by rewrite !insert_insert_eq.
Qed.

Lemma world_ok_child w m l l1 lc :
  world_ok w -> w_ilas w !! m = Some l -> parent_ l1 = parent_ l -> parent_ lc = Some m ->
  let c := (counter_ w + 1)%N in
  world_ok {| counter_ := c; w_ilas := <[m := l1]> (<[c := lc]> (w_ilas w));
              w_instrs := w_instrs w |}.
Proof.
  intros [Hle Hpar] Hm Hl1 Hlc c. pose proof (Hle _ _ Hm) as Hmc.
  assert (Hin : forall k, is_Some (w_ilas w !! k) ->
            is_Some (<[m := l1]> (<[c := lc]> (w_ilas w)) !! k)).
  { intros k Hk. rewrite !lookup_insert_is_Some.
    destruct (decide (m = k)), (decide (c = k)); tauto. }
  split; cbn [counter_ w_ilas].
  - intros k l'. rewrite !lookup_insert_Some.
    intros [[<- _]|[_ [[<- _]|[_ Hk]]]]; [lia|lia|apply Hle in Hk; lia].
  - intros k l' p. rewrite !lookup_insert_Some.
    intros [[<- <-]|[_ [[<- <-]|[_ Hk]]]] Hp.
    + rewrite Hl1 in Hp. destruct (Hpar _ _ _ Hm Hp). eauto.
    + rewrite Hlc in Hp. injection Hp as <-. split; [lia|]. eauto.
    + destruct (Hpar _ _ _ Hk Hp). eauto.
Qed.

(** C27.  [NewChild] always succeeds on a well-formed ILA and builds a child
    that starts with the parent's states and inputs, in order and shared (the
    same variables, not copies), and with no instruction, initial condition,
    fetch, valid or child; the parent's own tables are unchanged, the child is
    registered under its name unless the name was taken, and no other ILA is
    touched. *)
Theorem NewChild_spec w m name l :
  world_ok w -> w_ilas w !! m = Some l -> vars_ok l -> KeyVec.wf (childs_ l) ->
  let c := (counter_ w + 1)%N in
  exists w' lc lm,
    NewChild m name w = Ok (c, w') /\ world_ok w' /\
    w_ilas w' !! c = Some lc /\ vars_ok lc /\
    KeyVec.vec_ (states_ lc) = KeyVec.vec_ (states_ l) /\
    KeyVec.vec_ (inputs_ lc) = KeyVec.vec_ (inputs_ l) /\
    parent_ lc = Some m /\ l_name lc = name /\
    instr_num lc = 0 /\ child_num lc = 0 /\ init_num lc = 0 /\
    fetch_ lc = None /\ valid_ lc = None /\
    w_ilas w' !! m = Some lm /\ states_ lm = states_ l /\ inputs_ lm = inputs_ l /\
    find_child lm name = (if find_child l name is Some d then Some d else Some c) /\
    (forall k, k <> m -> k <> c -> w_ilas w' !! k = w_ilas w !! k).
Proof.
  intros Hw Hm Hl Hc c. assert (Hmc : m <> c) by (apply (ok_ila_le _ Hw) in Hm; lia).
  eexists _, (child_ila l m name), _. split; [by apply NewChild_run|]. cbn [w_ilas].
  split; [by eapply world_ok_child|].
  rewrite lookup_insert_ne, lookup_insert_eq by done. split; [done|].
  split; [by apply child_ila_vars|].
  split; [cbn; by apply vec_push_vars, keyed_NoDup, Hl|].
  split; [cbn; by apply vec_push_vars, keyed_NoDup, Hl|].
  do 7 (split; [done|]). rewrite lookup_insert_eq. do 3 (split; [done|]).
  split; [unfold find_child; cbn; rewrite KeyVec.find_push_back, decide_True by done; done|].
  intros k ??. by rewrite !lookup_insert_ne.
Qed.

(** The store with a single root ILA. *)
Definition root_world : World :=
  {| counter_ := 1; w_ilas := {[1%N := nil_ila "top" None]}; w_instrs := ∅ |}.

Lemma root_world_ok : world_ok root_world.
Proof.
  split; cbn; intros k l; [intros [<- _]%lookup_singleton_Some; lia|].
  intros p [<- <-]%lookup_singleton_Some. done.
Qed.

Lemma NewChild_spec_witness :
  world_ok root_world /\
  match NewChild 1 "c" root_world with Ok (c, _) => c = 2%N | Fail _ => False end.
Proof.
  split; [apply root_world_ok|].
  destruct (NewChild_spec root_world 1 "c" (nil_ila "top" None) root_world_ok eq_refl
              (nil_ila_vars _ _) KeyVec.empty_wf) as (w' & lc & lm & H & _).
  rewrite H. reflexivity.
Defined.

Lemma root_name_S n w m l : w !! m = Some l ->
  root_name (S n) w m =
  match parent_ l with
  | Some p => r ← root_name n w p; Ok (r +:+ "." +:+ l_name l)
  | None => Ok (l_name l)
  end.
Proof. intros H. cbn. by rewrite H. Qed.

Lemma root_name_fuel w n n' m l :
  ilas_ok w -> w !! m = Some l -> (N.to_nat m < n)%nat -> (N.to_nat m < n')%nat ->
  root_name n w m = root_name n' w m /\ exists s, root_name n w m = Ok s.
Proof.
  intros Hw. revert n' m l. induction n as [|n IH]; intros [|n'] m l Hm Hn Hn'; try lia.
  cbn. rewrite Hm. cbn. destruct (parent_ l) as [p|] eqn:Hp; [|by eauto].
  destruct (Hw _ _ _ Hm Hp) as [Hlt [lp Hlp]].
  destruct (IH n' p lp) as [-> [s ->]]; [done|lia|lia|]. cbn. eauto.
Qed.

(** C29.  The fully qualified name of an ILA.  [GetRootName] terminates and is
    the name of the parent's root name, a dot and the ILA's own name, or just
    the name at a root. *)
Theorem GetRootName_spec w m l :
  world_ok w -> w_ilas w !! m = Some l ->
  GetRootName m w =
    (match parent_ l with
     | Some p => r ← GetRootName p; mret (r +:+ "." +:+ l_name l)
     | None => mret (l_name l)
     end) w /\
  exists s, GetRootName m w = Ok (s, w).
Proof.
  intros Hw Hm. unfold GetRootName.
  pose proof (ok_parent _ Hw) as Hok.
  destruct (root_name_fuel (w_ilas w) (S (N.to_nat m)) (S (N.to_nat m)) m l) as [_ [s Hs]];
    [done..|lia|lia|].
  split; [|exists s; by rewrite Hs]. rewrite (root_name_S _ _ _ _ Hm).
  destruct (parent_ l) as [p|] eqn:Hp; [|done].
  destruct (Hok _ _ _ Hm Hp) as [Hlt [lp Hlp]].
  destruct (root_name_fuel (w_ilas w) (N.to_nat m) (S (N.to_nat p)) p lp) as [-> [s' Hs']];
    [done..|lia|lia|].
  cbv [mbind ST_bind Res_bind mret ST_ret]. by rewrite Hs'.
Qed.

(** The same store with one child [c] of the root. *)
Definition child_world : World :=
  let top := nil_ila "top" None in
  {| counter_ := 2;
     w_ilas := <[1%N := with_childs top (KeyVec.push_back KeyVec.empty "c" 2%N).2]>
                 (<[2%N := child_ila top 1 "c"]> (w_ilas root_world));
     w_instrs := ∅ |}.

Lemma child_world_ok : world_ok child_world.
Proof. by apply (world_ok_child root_world 1 (nil_ila "top" None)); [apply root_world_ok|..]. Qed.

Lemma GetRootName_spec_witness :
  GetRootName 2 child_world = Ok ("top.c", child_world).
Proof.
  destruct (GetRootName_spec child_world 2 (child_ila (nil_ila "top" None) 1 "c")
              child_world_ok eq_refl) as [E _].
  rewrite E. reflexivity.
Defined.
End IlaOk.
