(* ===== verification/Z3Expr.v ===== *)
(** * Translation to Z3

    The [GetZ3Expr] methods of [src/ila/ast/expr_op.cc], [expr_var.cc],
    [expr_const.cc], [sort.cc] and [func.cc], and the memoising visitor
    [src/target-smt/z3_expr_adapter.cc].  The store is only read: it gives the
    names of the hosts, which prefix the names of the solver's constants. *)
From S2P Require Import Prelude Sort Values Container Expr Smt World.
Local Open Scope Z_scope.

(** A [z3::exception] when the API refuses. *)
Definition throw {A} (p : option A) : Res A :=
  match p with Some a => Ok a | None => Fail EThrow end.

Section translate.
Context {Z3 : Z3Api} (w : gmap objid InstrLvlAbs).

(** ** Names *)
Definition host_root_name (host : option objid) : Res string :=
  match host with
  | Some m => Ila.root_name (S (N.to_nat m)) w m
  | None => Ok ""
  end.
Definition host_name (host : option objid) : Res string :=
  match host with
  | Some m => l ← deref (w !! m); Ok (l_name l)
  | None => Ok ""
  end.

(** [Sort::GetZ3Expr(ctx, name)]: a constant of the sort. *)
Definition Sort_GetZ3Expr (s : Sort) (name : string) : Res zexpr := throw (z_const name s).

Definition ExprVar_GetZ3Expr (h : Hdr) (suffix : string) : Res zexpr :=
  prefix ← host_root_name (h_host h);
  let e_name := Symbol.format_str (h_name h) prefix suffix in
  Sort_GetZ3Expr (h_sort h) e_name.

(** The constant memory with one store per entry of the map, in key order. *)
Fixpoint store_all (aw dw : Z) (l : list (Z * Z)) (e1 : zexpr) : Res zexpr :=
  match l with
  | [] => Ok e1
  | p :: l =>
      addr_expr ← throw (z_bv_val p.1 aw);
      data_expr ← throw (z_bv_val p.2 dw);
      e2 ← throw (z_app SStore [e1; addr_expr; data_expr]);
      store_all aw dw l e2
  end.

Definition ExprConst_GetZ3Expr (h : Hdr) (v : ConstVal) (z3expr_vec : list zexpr) :
    Res zexpr :=
  ila_assert (length z3expr_vec =? 0)%nat;;
  match h_sort h, v with
  | SortBool, CBool b => Ok (z_bool_val b)
  | SortBv width, CBv n => throw (z_bv_val n width)
  | SortMem aw dw, CMem mem =>
      def_expr ← throw (z_bv_val (SortValue.default_ mem) dw);
      e1 ← throw (z_const_array aw def_expr);
      store_all aw dw (map_entries (SortValue.val_map_ mem)) e1
  | _, _ => Fail EAssert
  end.

(** [Func::GetZ3FuncDecl] and the application of the declaration. *)
Definition Func_name (f : Func) : Res string :=
  prefix ← host_name (f_host f); Ok (Symbol.format_str (f_name f) prefix "").
Definition GetZ3FuncDecl (f : Func) : Res (list zexpr -> Res zexpr) :=
  f_name ← Func_name f;
  Ok (fun args => throw (z_func f_name (args_ f) (out_ f) args)).

(** ** The operators

    Each method checks the number of arguments and calls the API on them. *)
Section ops.
Context (e : Expr) (expr_vec : list zexpr) (suffix : string).

Definition unary (op : SmtOp) : Res zexpr :=
  ila_assert (length expr_vec =? 1)%nat;; throw (z_app op expr_vec).
Definition binary (op : SmtOp) : Res zexpr :=
  ila_assert (length expr_vec =? 2)%nat;; throw (z_app op expr_vec).
Definition ternary (op : SmtOp) : Res zexpr :=
  ila_assert (length expr_vec =? 3)%nat;; throw (z_app op expr_vec).
(** With the additional guard that the node is a bit-vector. *)
Definition binary_bv (op : SmtOp) : Res zexpr :=
  ila_assert (length expr_vec =? 2)%nat;;
  ila_assert (Exprs.is_bv e 0);;
  throw (z_app op expr_vec).
(** The connectives choose by the sort of the node. *)
Definition logic (op_bool op_bv : SmtOp) : Res zexpr :=
  ila_assert (length expr_vec =? 2)%nat;;
  ila_assert (Exprs.is_bool e || Exprs.is_bv e 0);;
  throw (z_app (if Exprs.is_bool e then op_bool else op_bv) expr_vec).

Definition ExprOpNeg_GetZ3Expr : Res zexpr := unary SNeg.
Definition ExprOpNot_GetZ3Expr : Res zexpr := unary SNot.
Definition ExprOpCompl_GetZ3Expr : Res zexpr := unary SBvNot.
Definition ExprOpAnd_GetZ3Expr : Res zexpr := logic SAnd SBvAnd.
Definition ExprOpOr_GetZ3Expr : Res zexpr := logic SOr SBvOr.
(** [Xor] tests [is_bv] first; the guard makes the two tests complementary. *)
Definition ExprOpXor_GetZ3Expr : Res zexpr :=
  ila_assert (length expr_vec =? 2)%nat;;
  ila_assert (Exprs.is_bool e || Exprs.is_bv e 0);;
  throw (z_app (if Exprs.is_bv e 0 then SBvXor else SXor) expr_vec).
Definition ExprOpShl_GetZ3Expr : Res zexpr := binary SShl.
Definition ExprOpAshr_GetZ3Expr : Res zexpr := binary SAshr.
Definition ExprOpLshr_GetZ3Expr : Res zexpr := binary SLshr.
Definition ExprOpAdd_GetZ3Expr : Res zexpr := binary_bv SAdd.
Definition ExprOpSub_GetZ3Expr : Res zexpr := binary_bv SSub.
(** [operator/] of [z3::expr] is the signed division. *)
Definition ExprOpDiv_GetZ3Expr : Res zexpr := binary_bv SDiv.
Definition ExprOpSRem_GetZ3Expr : Res zexpr := binary_bv SRem.
Definition ExprOpURem_GetZ3Expr : Res zexpr := binary_bv SURem.
Definition ExprOpSMod_GetZ3Expr : Res zexpr := binary_bv SMod.
Definition ExprOpMul_GetZ3Expr : Res zexpr := binary_bv SMul.
Definition ExprOpEq_GetZ3Expr : Res zexpr := binary SEq.
Definition ExprOpLt_GetZ3Expr : Res zexpr := binary SSlt.
Definition ExprOpGt_GetZ3Expr : Res zexpr := binary SSgt.
Definition ExprOpUlt_GetZ3Expr : Res zexpr := binary SUlt.
Definition ExprOpUgt_GetZ3Expr : Res zexpr := binary SUgt.
Definition ExprOpLoad_GetZ3Expr : Res zexpr := binary SSelect.
Definition ExprOpStore_GetZ3Expr : Res zexpr := ternary SStore.
Definition ExprOpConcat_GetZ3Expr : Res zexpr := binary SConcat.

(** [static_cast<unsigned>] of an [int]. *)
Definition unsigned (z : Z) : Z := z mod 2 ^ 32.

Definition ExprOpExtract_GetZ3Expr : Res zexpr :=
  ila_assert (length expr_vec =? 1)%nat;;
  ila_assert (Exprs.param_num e =? 2)%nat;;
  hi ← Exprs.param e 0;
  lo ← Exprs.param e 1;
  throw (z_app (SExtract (unsigned hi) (unsigned lo)) expr_vec).

Definition extend (op : Z -> SmtOp) : Res zexpr :=
  ila_assert (length expr_vec =? 1)%nat;;
  ila_assert (Exprs.param_num e =? 1)%nat;;
  a ← Exprs.arg e 0;
  org_wid ← Sorts.bit_width (Exprs.sort a);
  p ← Exprs.param e 0;
  let wid := unsigned (p - org_wid) in
  throw (z_app (op wid) expr_vec).
Definition ExprOpZExt_GetZ3Expr : Res zexpr := extend SZext.
Definition ExprOpSExt_GetZ3Expr : Res zexpr := extend SSext.

Definition rotate (op : Z -> SmtOp) : Res zexpr :=
  ila_assert (length expr_vec =? 1)%nat;;
  ila_assert (Exprs.param_num e =? 1)%nat;;
  p ← Exprs.param e 0;
  let immediate := unsigned p in
  throw (z_app (op immediate) expr_vec).
Definition ExprOpLRotate_GetZ3Expr : Res zexpr := rotate SRotl.
Definition ExprOpRRotate_GetZ3Expr : Res zexpr := rotate SRotr.

(** Without arguments: a free constant, named after the host of the
    application and the suffix ("non-deterministic"). *)
Definition nondet_name (host : option objid) (f : Func) : Res string :=
  prefix ← host_name host; Ok (Symbol.format_str (f_name f) prefix suffix).
Definition ExprOpAppFunc_GetZ3Expr (f : Func) : Res zexpr :=
  match expr_vec with
  | [] =>
      name ← nondet_name (Exprs.host e) f;
      Sort_GetZ3Expr (out_ f) name
  | _ =>
      f_decl ← GetZ3FuncDecl f;
      f_decl expr_vec
  end.

Definition ExprOpImply_GetZ3Expr : Res zexpr := binary SImplies.
Definition ExprOpIte_GetZ3Expr : Res zexpr := ternary SIte.

(** The virtual dispatch. *)
Definition GetZ3Expr : Res zexpr :=
  match e with
  | ExprVar h _ => ExprVar_GetZ3Expr h suffix
  | ExprConst h v _ => ExprConst_GetZ3Expr h v expr_vec
  | ExprOp _ op fn _ _ =>
      match op, fn with
      | kNegate, None => ExprOpNeg_GetZ3Expr
      | kNot, None => ExprOpNot_GetZ3Expr
      | kComplement, None => ExprOpCompl_GetZ3Expr
      | kAnd, None => ExprOpAnd_GetZ3Expr
      | kOr, None => ExprOpOr_GetZ3Expr
      | kXor, None => ExprOpXor_GetZ3Expr
      | kShiftLeft, None => ExprOpShl_GetZ3Expr
      | kArithShiftRight, None => ExprOpAshr_GetZ3Expr
      | kLogicShiftRight, None => ExprOpLshr_GetZ3Expr
      | kAdd, None => ExprOpAdd_GetZ3Expr
      | kSubtract, None => ExprOpSub_GetZ3Expr
      | kMultiply, None => ExprOpMul_GetZ3Expr
      | kDivide, None => ExprOpDiv_GetZ3Expr
      | kSignedRemainder, None => ExprOpSRem_GetZ3Expr
      | kUnsignedRemainder, None => ExprOpURem_GetZ3Expr
      | kSignedModular, None => ExprOpSMod_GetZ3Expr
      | kEqual, None => ExprOpEq_GetZ3Expr
      | kLessThan, None => ExprOpLt_GetZ3Expr
      | kGreaterThan, None => ExprOpGt_GetZ3Expr
      | kUnsignedLessThan, None => ExprOpUlt_GetZ3Expr
      | kUnsignedGreaterThan, None => ExprOpUgt_GetZ3Expr
      | kLoad, None => ExprOpLoad_GetZ3Expr
      | kStore, None => ExprOpStore_GetZ3Expr
      | kConcatenate, None => ExprOpConcat_GetZ3Expr
      | kExtract, None => ExprOpExtract_GetZ3Expr
      | kZeroExtend, None => ExprOpZExt_GetZ3Expr
      | kSignedExtend, None => ExprOpSExt_GetZ3Expr
      | kRotateLeft, None => ExprOpLRotate_GetZ3Expr
      | kRotateRight, None => ExprOpRRotate_GetZ3Expr
      | kApplyFunc, Some f => ExprOpAppFunc_GetZ3Expr f
      | kImply, None => ExprOpImply_GetZ3Expr
      | kIfThenElse, None => ExprOpIte_GetZ3Expr
      | _, _ => Fail ENull
      end
  end.
End ops.

(** ** [class Z3ExprAdapter] *)
Abbreviation ExprMap := (gmap objid zexpr).

Definition find_arg (expr_map_ : ExprMap) (a : Expr) : Res zexpr :=
  match expr_map_ !! Exprs.id a with Some z => Ok z | None => Fail EAssert end.

Definition PopulateExprMap (suffix : string) (expr : Expr) (expr_map_ : ExprMap) :
    Res ExprMap :=
  expr_vec ← mapM (find_arg expr_map_) (Exprs.args expr);
  res ← GetZ3Expr expr expr_vec suffix;
  let res := z_simplify res in
  Ok (<[Exprs.id expr := res]> expr_map_).

(** [operator()]: an exception of the solver is logged, and nothing stored. *)
Definition visit (suffix : string) (expr : Expr) (expr_map_ : ExprMap) : Res ExprMap :=
  match expr_map_ !! Exprs.id expr with
  | Some _ => Ok expr_map_
  | None =>
      match PopulateExprMap suffix expr expr_map_ with
      | Fail EThrow => Ok expr_map_
      | r => r
      end
  end.

Definition GetExpr (expr : Expr) (suffix : string) : Res zexpr :=
  expr_map_ ← Exprs.DepthFirstVisit (visit suffix) expr ∅;
  match expr_map_ !! Exprs.id expr with Some z => Ok z | None => Fail EAssert end.
End translate.

(** ** The environment a model induces *)
Section env.
Context (w : gmap objid InstrLvlAbs) (m : Model) (suffix : string).

(** The value of a free variable is that of the constant it is named to. *)
Definition env_of : Env := {|
  ev_var h :=
    match host_root_name w (h_host h) with
    | Ok prefix => m_const m (Symbol.format_str (h_name h) prefix suffix) (h_sort h)
    | Fail _ => default_val (h_sort h)
    end;
  ev_fun f vs :=
    match Func_name w f with
    | Ok name => m_fun m name (args_ f) (out_ f) vs
    | Fail _ => default_val (out_ f)
    end;
  ev_nondet host f :=
    match nondet_name w suffix host f with
    | Ok name => m_const m name (out_ f)
    | Fail _ => default_val (out_ f)
    end |}.

Lemma env_of_ok : model_ok m -> env_ok env_of.
Proof.
  intros [Hc Hf]. split; cbn; intros; case_match; auto using default_val_sort.
Qed.
End env.

(** What the translation needs of an expression besides its sorts: hosts that
    exist and parameters that fit an [int]. *)
Definition hosted (w : gmap objid InstrLvlAbs) (host : option objid) : bool :=
  match host with Some m => is_some (w !! m) | None => true end.
Definition params_ok (ps : list Z) : bool := forallb (fun p => p <? 2 ^ 31) ps.

Fixpoint translatable (w : gmap objid InstrLvlAbs) (e : Expr) : bool :=
  match e with
  | ExprVar h _ => hosted w (h_host h)
  | ExprConst _ _ _ => true
  | ExprOp h _ fn args ps =>
      params_ok ps && hosted w (h_host h) &&
      (if fn is Some f then hosted w (f_host f) else true) &&
      (fix go (l : list Expr) : bool :=
         match l with [] => true | a :: l => translatable w a && go l end) args
  end.

Lemma translatable_args w e : translatable w e = true ->
  Forall (fun a => translatable w a = true) (Exprs.args e).
Proof.
  destruct e as [h ps|h c ps|h op fn args ps]; cbn [Exprs.args translatable]; [constructor..|].
  intros [_ H]%andb_true_iff. induction args as [|a l IH]; [constructor|].
  apply andb_true_iff in H as [Ha Hl]. constructor; auto.
Qed.

Section correct.
Context {Z3 : Z3Api} {LZ : Z3Laws Z3} (w : gmap objid InstrLvlAbs) (Hw : IlaOk.ilas_ok w).

Lemma hosted_root host : hosted w host = true -> exists n, host_root_name w host = Ok n.
Proof using Hw.
  destruct host as [m|]; cbn [hosted host_root_name]; [|by eauto].
  destruct (w !! m) as [l|] eqn:E; [|done]. intros _.
  destruct (IlaOk.root_name_fuel w (S (N.to_nat m)) (S (N.to_nat m)) m l Hw E)
    as [_ [s Hs]]; [lia..|]. exists s. exact Hs.
Qed.

Lemma hosted_name host : hosted w host = true -> exists n, host_name w host = Ok n.
Proof using Type.
  destruct host as [m|]; cbn; [|by eauto]. destruct (w !! m); cbn; [eauto|done].
Qed.

(** The meaning a translation must have. *)
Definition denotes (suffix : string) (e : Expr) (z : zexpr) : Prop :=
  z_has z (Exprs.sort e) /\
  forall m, model_ok m -> Some (z_eval m z) = eval (env_of w m suffix) e.

Lemma denotes_args suffix es zs m :
  model_ok m -> Forall2 (denotes suffix) es zs ->
  evals (env_of w m suffix) es = Some (z_eval m <$> zs) /\
  Forall2 z_has zs (Exprs.sort <$> es).
Proof using Type.
  intros Hm. unfold evals. induction 1 as [|e z es zs [Hh He] _ [IH1 IH2]]; cbn.
  - split; [done|constructor].
  - rewrite <- He by done. cbn. rewrite IH1. split; [done|]. by constructor.
Qed.

Lemma z_values suffix es zs m : model_ok m -> Forall2 (denotes suffix) es zs ->
  Forall2 (fun v s => has_sort v s = true) (z_eval m <$> zs) (Exprs.sort <$> es).
Proof using Type.
  intros Hm H. destruct (denotes_args suffix es zs m Hm H) as [_ H'].
  apply Forall2_fmap_l. eapply Forall2_impl; [exact H'|]. intros. by apply z_eval_sort.
Qed.

(** One API call that agrees with the operator on well-sorted values. *)
Lemma app_denotes suffix h op args ps zs sop :
  Forall2 (denotes suffix) args zs ->
  smt_sort sop (Exprs.sort <$> args) = Some (h_sort h) ->
  (forall vs, Forall2 (fun v s => has_sort v s = true) vs (Exprs.sort <$> args) ->
     smt_sem sop vs = op_sem op ps vs) ->
  exists z, throw (z_app sop zs) = Ok z /\ denotes suffix (ExprOp h op None args ps) z.
Proof using Type.
  intros Hz Hs Hsem.
  destruct (denotes_args suffix args zs default_model default_model_ok Hz) as [_ Hh].
  destruct (z_app_law sop zs _ _ Hh Hs) as (z & E & Hzh & Hv).
  exists z. rewrite E. split; [done|]. split; [done|]. intros m Hm.
  rewrite Hv by done. destruct (denotes_args suffix args zs m Hm Hz) as [Ha _].
  rewrite eval_op, Ha. cbn. apply Hsem. by eapply z_values.
Qed.

Lemma params_ok_inv ps i p : params_ok ps = true -> ps !! i = Some p -> p < 2 ^ 31.
Proof using Type.
  unfold params_ok. rewrite forallb_forall. intros H Hi.
  apply Z.ltb_lt, H, list_elem_of_In. by eapply list_elem_of_lookup_2.
Qed.

Lemma unsigned_small p : 0 <= p < 2 ^ 31 -> unsigned p = p.
Proof using Type. intros. unfold unsigned. apply Z.mod_small. lia. Qed.

End correct.

(** The API operation that stands for an operator. *)
Definition smt_of (op : AstUidExprOp) (ps : list Z) (ss : list Sort) (s : Sort) : SmtOp :=
  match op with
  | kNegate => SNeg | kNot => SNot | kComplement => SBvNot
  | kAnd => if Sorts.is_bool s then SAnd else SBvAnd
  | kOr => if Sorts.is_bool s then SOr else SBvOr
  | kXor => if Sorts.is_bool s then SXor else SBvXor
  | kShiftLeft => SShl | kArithShiftRight => SAshr | kLogicShiftRight => SLshr
  | kAdd => SAdd | kSubtract => SSub | kMultiply => SMul | kDivide => SDiv
  | kSignedRemainder => SRem | kUnsignedRemainder => SURem | kSignedModular => SMod
  | kEqual => SEq | kLessThan => SSlt | kGreaterThan => SSgt
  | kUnsignedLessThan => SUlt | kUnsignedGreaterThan => SUgt
  | kLoad => SSelect | kStore => SStore | kConcatenate => SConcat
  | kExtract => SExtract (nth 0 ps 0) (nth 1 ps 0)
  | kZeroExtend => SZext (nth 0 ps 0 - match ss with [SortBv w] => w | _ => 0 end)
  | kSignedExtend => SSext (nth 0 ps 0 - match ss with [SortBv w] => w | _ => 0 end)
  | kRotateLeft => SRotl (nth 0 ps 0) | kRotateRight => SRotr (nth 0 ps 0)
  | kImply => SImplies | kIfThenElse => SIte
  | kApplyFunc | kInvalid => SEq
  end.

(** Split the sorts of a well-sorted application. *)
Ltac sorts_inv H :=
  repeat match type of H with
  | context [match ?x with _ => _ end] =>
      lazymatch x with
      | context [match _ with _ => _ end] => fail
      | _ => let E := fresh "E" in destruct x eqn:E; try discriminate H
      end
  end.

Lemma smt_of_sort op ps ss s :
  op_sort op ps ss = Some s -> smt_sort (smt_of op ps ss s) ss = Some s.
Proof.
  intros Hs. destruct op; cbn [op_sort smt_of nth] in Hs |- *; try discriminate Hs.
  1-31: destruct ps as [|p [|q [|]]], ss as [|a [|b [|c [|]]]]; try discriminate Hs;
    cbn [smt_sort] in *; try exact Hs.
  all: unfold logic2_sort in Hs; try (destruct a; try discriminate Hs; exact Hs).
  all: sorts_inv Hs; try (apply bv2_sort_Some in Hs as (? & ? & ? & -> & ?)); simplify_eq;
    cbn [Sorts.is_bool smt_sort]; unfold bv2_sort; rewrite ?Z.eqb_refl; bool_inv; try done.
  1-3: by rewrite (proj2 (Z.ltb_lt 0 _)).
  all: cbn [nth]; rewrite (proj2 (Z.leb_le 0 _)) by lia; do 2 f_equal; lia.
Qed.

Lemma smt_of_sem op ps ss s vs :
  op_sort op ps ss = Some s -> Forall2 (fun v s => has_sort v s = true) vs ss ->
  smt_sem (smt_of op ps ss s) vs = op_sem op ps vs.
Proof.
  intros Hs Hv. destruct op; cbn [op_sort smt_of nth] in Hs |- *; try discriminate Hs.
  1-31: destruct ps as [|p [|q [|]]], ss as [|a [|b [|c [|]]]]; try discriminate Hs.
  all: unfold logic2_sort in Hs.
  all: try match type of Hs with bv2_sort _ _ = _ =>
      apply bv2_sort_Some in Hs as (? & -> & -> & -> & ?); vals_inv; reflexivity end.
  all: try match type of Hs with cmp2_sort _ _ = _ => vals_inv; reflexivity end.
  all: sorts_inv Hs; try (apply bv2_sort_Some in Hs as (? & ? & ? & -> & ?)); simplify_eq;
    vals_inv; try reflexivity.
  all: try (cbn; rewrite Zplus_minus; reflexivity).
Qed.

Section correct.
Context {Z3 : Z3Api} {LZ : Z3Laws Z3} (w : gmap objid InstrLvlAbs) (Hw : IlaOk.ilas_ok w).

(** Every operator method makes the call that stands for the operator. *)
Lemma op_method suffix h op args ps zs :
  length zs = length args -> params_ok ps = true ->
  Forall (fun s => sort_ok s = true) (Exprs.sort <$> args) ->
  op_sort op ps (Exprs.sort <$> args) = Some (h_sort h) ->
  GetZ3Expr w (ExprOp h op None args ps) zs suffix =
  throw (z_app (smt_of op ps (Exprs.sort <$> args) (h_sort h)) zs).
Proof using Type.
  intros Hlen Hps Hok Hs.
  destruct args as [|a [|b [|c [|? ?]]]], zs as [|za [|zb [|zc [|? ?]]]]; try discriminate Hlen;
    destruct ps as [|p [|q [|? ?]]]; destruct op; try discriminate Hs; clear Hlen.
  all: cbn [op_sort fmap list_fmap] in Hs, Hok |- *; try reflexivity.
  all: unfold logic2_sort in Hs.
  all: sorts_inv Hs; bool_inv; simplify_eq.
  all: try (apply bv2_sort_Some in Hs as (? & ? & ? & Hs & ?); simplify_eq).
  all: cbn; unfold Exprs.is_bool, Exprs.is_bv.
  6-18: change (Exprs.sort (ExprOp h _ _ _ _)) with (h_sort h);
    first [rewrite <- Hs|rewrite Hs]; reflexivity.
  all: repeat match goal with
    | H : params_ok (_ :: _) = true |- _ => apply andb_true_iff in H as [?%Z.ltb_lt H]
    | H : Forall _ (_ :: _) |- _ => apply Forall_cons in H as [?%Z.ltb_lt H]
    end.
  1-2: rewrite E; cbn.
  all: by rewrite !unsigned_small by lia.
Qed.

(** The three kinds of leaves and nodes. *)
Lemma var_denotes suffix h ps : sort_ok (h_sort h) = true -> hosted w (h_host h) = true ->
  exists z, ExprVar_GetZ3Expr w h suffix = Ok z /\ denotes w suffix (ExprVar h ps) z.
Proof using Hw.
  intros Hs Hh. destruct (hosted_root w Hw _ Hh) as [n Hn]. unfold ExprVar_GetZ3Expr.
  rewrite Hn. cbn. unfold Sort_GetZ3Expr.
  destruct (z_const_law (Symbol.format_str (h_name h) n suffix) (h_sort h) Hs)
    as (z & -> & Hz & _ & Hv).
  exists z. split; [done|]. split; [done|]. intros m _. cbn. by rewrite Hv, Hn.
Qed.

Lemma store_all_denotes aw dw l e1 g1 :
  0 < aw -> 0 < dw -> z_has e1 (SortMem aw dw) ->
  (forall m, model_ok m -> z_eval m e1 = VMem aw dw g1) ->
  exists e2, store_all aw dw l e1 = Ok e2 /\ z_has e2 (SortMem aw dw) /\
    forall m, model_ok m -> z_eval m e2 = VMem aw dw
      (foldl (fun g p => mem_store g (Bits.wrap aw p.1) (Bits.wrap dw p.2)) g1 l).
Proof using Type.
  intros Haw Hdw. revert e1 g1. induction l as [|p l IH]; intros e1 g1 H1 Hv1; [eauto|].
  cbn [store_all foldl].
  destruct (z_bv_val_law p.1 aw Haw) as (za & -> & Ha & Hva). cbn.
  destruct (z_bv_val_law p.2 dw Hdw) as (zd & -> & Hd & Hvd). cbn.
  destruct (z_app_law SStore [e1; za; zd] [SortMem aw dw; SortBv aw; SortBv dw]
              (SortMem aw dw)) as (z & -> & Hz & Hvz).
  { by repeat constructor. }
  { cbn. by rewrite !Z.eqb_refl. }
  cbn. apply IH; [done|]. intros m Hm. specialize (Hvz m Hm). cbn in Hvz.
  rewrite Hv1, Hva, Hvd in Hvz by done. cbn in Hvz. rewrite !Z.eqb_refl in Hvz. cbn in Hvz.
  congruence.
Qed.

Lemma const_denotes suffix h v ps : const_ok (h_sort h) v = true ->
  exists z, ExprConst_GetZ3Expr h v [] = Ok z /\ denotes w suffix (ExprConst h v ps) z.
Proof using Type.
  intros Hok. unfold ExprConst_GetZ3Expr, denotes, Exprs.sort. cbn -[eval].
  cbn [eval]. destruct (h_sort h) as [|n|aw dw| |], v as [b|x|mv];
    try discriminate Hok; cbn in Hok; bool_inv.
  - eexists; split; [done|]. destruct (z_bool_val_law b) as [Hz Hv]. split; [done|].
    intros m _. by rewrite Hv.
  - destruct (z_bv_val_law x n ltac:(done)) as (z & -> & Hz & Hv). exists z.
    split; [done|]. split; [done|]. intros m _. by rewrite Hv.
  - destruct (z_bv_val_law (SortValue.default_ mv) dw ltac:(done)) as (zd & -> & Hd & Hvd).
    cbn. destruct (z_const_array_law aw dw zd ltac:(done) ltac:(done) Hd) as (z1 & -> & H1 & Hv1).
    cbn. destruct (store_all_denotes aw dw (map_entries (SortValue.val_map_ mv)) z1
      (mem_const aw (Bits.wrap dw (SortValue.default_ mv)))) as (z2 & -> & H2 & Hv2);
      [done..|by intros; apply Hv1|].
    exists z2. split; [done|]. split; [done|]. intros m Hm. by rewrite Hv2.
Qed.

Lemma app_func_denotes suffix h f args ps zs :
  Forall2 (denotes w suffix) args zs ->
  fn_ok kApplyFunc f (Exprs.sort <$> args) (h_sort h) = true ->
  hosted w (h_host h) = true -> hosted w (f_host f) = true ->
  exists z, GetZ3Expr w (ExprOp h kApplyFunc (Some f) args ps) zs suffix = Ok z /\
    denotes w suffix (ExprOp h kApplyFunc (Some f) args ps) z.
Proof using Type.
  intros Hz Hfn Hh Hf. unfold fn_ok in Hfn. bool_inv.
  cbn [GetZ3Expr]. unfold ExprOpAppFunc_GetZ3Expr.
  destruct (denotes_args w suffix args zs default_model default_model_ok Hz) as [_ Hzs].
  inversion Hz as [|a z1 args' zs' Ha Hrest]; subst.
  - unfold nondet_name. destruct (hosted_name w _ Hh) as [n Hn]. change (Exprs.host _) with (h_host h).
    rewrite Hn. cbn. unfold Sort_GetZ3Expr.
    destruct (z_const_law (Symbol.format_str (f_name f) n suffix) (out_ f)) as (z & -> & Hz' & _ & Hv);
      [congruence|]. exists z. split; [done|]. split; [by unfold Exprs.sort; cbn; congruence|].
    intros m _. cbn. unfold nondet_name. rewrite Hn. cbn. by rewrite Hv.
  - unfold GetZ3FuncDecl, Func_name. destruct (hosted_name w _ Hf) as [n Hn]. rewrite Hn.
    cbn [mbind Res_bind].
    destruct (z_func_law (Symbol.format_str (f_name f) n "") (args_ f) (out_ f) (z1 :: zs'))
      as (z & -> & Hz' & Hv); [congruence|by rewrite H2|]. exists z. split; [done|].
    split; [by unfold Exprs.sort; cbn; congruence|]. intros m Hm. rewrite Hv, eval_op.
    destruct (denotes_args w suffix _ _ m Hm Hz) as [-> _].
    cbn [mbind option_bind fn_sem fmap list_fmap env_of ev_fun].
    unfold Func_name. by rewrite Hn.
Qed.

Lemma node_denotes suffix e zs :
  wt e = true -> translatable w e = true ->
  Forall2 (denotes w suffix) (Exprs.args e) zs ->
  exists z, GetZ3Expr w e zs suffix = Ok z /\ denotes w suffix e z.
Proof using Hw.
  intros Hwt Ht Hz. destruct e as [h ps|h v ps|h op fn args ps]; cbn [Exprs.args] in Hz.
  - inversion Hz; subst. by apply var_denotes.
  - inversion Hz; subst. by apply const_denotes.
  - apply wt_op in Hwt as [Hargs Hop].
    pose proof (translatable_args _ _ Ht) as _. cbn [translatable] in Ht. bool_inv.
    destruct fn as [f|].
    + assert (op = kApplyFunc) as ->.
      { unfold fn_ok in Hop. bool_inv. done. }
      by apply app_func_denotes.
    + rewrite op_method; [|by erewrite <- Forall2_length|done| |done].
      * eapply app_denotes; [done|by apply smt_of_sort|]. intros vs Hvs. by apply smt_of_sem.
      * apply Forall_fmap. eapply Forall_impl; [done|]. intros a. apply wt_sort_ok.
Qed.

(** ** The adapter *)
Section adapter.
Context (T : gmap objid Expr) (suffix : string).

Definition adapter_ok (e : Expr) : Prop := wt e = true /\ translatable w e = true.

Lemma adapter_ok_args e : adapter_ok e -> Forall adapter_ok (Exprs.args e).
Proof using Type.
  intros [Hw1%wt_args Ht%translatable_args]. rewrite Forall_forall in *.
  intros a Ha. split; auto.
Qed.

Lemma simplify_denotes e z : denotes w suffix e z -> denotes w suffix e (z_simplify z).
Proof using Type.
  intros [Hz Hv]. destruct (z_simplify_law _ _ Hz) as [Hs Hsv]. split; [done|].
  intros m Hm. by rewrite Hsv, Hv.
Qed.

Lemma find_args_denotes es (m : gmap objid zexpr) :
  Forall (fun a => exists z, m !! Exprs.id a = Some z /\ denotes w suffix a z) es ->
  exists zs, mapM (find_arg m) es = Ok zs /\ Forall2 (denotes w suffix) es zs.
Proof using Type.
  induction 1 as [|a es (z & Hz & Hd) _ (zs & Hzs & Hds)]; [by exists []|].
  exists (z :: zs). cbn [mapM].
  replace (find_arg m a) with (Ok z) by (unfold find_arg; by rewrite Hz).
  cbn. rewrite Hzs. cbn.
  split; [done|]. by constructor.
Qed.

Lemma visit_step e m : registered T e -> adapter_ok e -> memo_inv T (denotes w suffix) m ->
  Forall (fun a => memo_seen (denotes w suffix) a m) (Exprs.args e) ->
  memo_visits T (denotes w suffix) (visit w suffix e) [e] m.
Proof using Hw.
  intros Hr [Hwt Ht] Hm Hargs. unfold memo_visits, visits, visit.
  destruct (m !! Exprs.id e) as [z|] eqn:E.
  { exists m. split; [done|]. split; [done|]. split; [done|]. constructor; [|constructor].
    eapply memo_entry; eauto. }
  unfold PopulateExprMap. destruct (find_args_denotes _ _ Hargs) as (zs & -> & Hzs). cbn.
  destruct (node_denotes suffix e zs Hwt Ht Hzs) as (z & -> & Hz). cbn.
  apply simplify_denotes in Hz. eexists. split; [done|]. split; [|split].
  - intros i v. rewrite lookup_insert_Some. intros [[<- <-]|[_ Hi]]; [|by apply Hm].
    exists e. split; [by apply registered_lookup|done].
  - by apply insert_subseteq.
  - constructor; [|constructor]. eexists. by rewrite lookup_insert_eq.
Qed.

Lemma GetExpr_denotes e : registered T e -> wt e = true -> translatable w e = true ->
  exists z, GetExpr w e suffix = Ok z /\ denotes w suffix e z.
Proof using Hw.
  intros Hr Hwt Ht.
  destruct (memo_visit T (visit w suffix) adapter_ok (denotes w suffix) adapter_ok_args
              visit_step e Hr (conj Hwt Ht) ∅) as (m & E & Hm & _ & Hd); [done|].
  unfold GetExpr. rewrite E. cbn. apply Forall_inv in Hd as (z & Hz & Hd). exists z. by rewrite Hz.
Qed.

(** A variable translates to the constant of its name. *)
Lemma GetExpr_var h ps : sort_ok (h_sort h) = true -> hosted w (h_host h) = true ->
  exists n z, host_root_name w (h_host h) = Ok n /\
    z_const (Symbol.format_str (h_name h) n suffix) (h_sort h) = Some z /\
    GetExpr w (ExprVar h ps) suffix = Ok z.
Proof using Hw LZ.
  intros Hs Hh. destruct (hosted_root w Hw _ Hh) as [n Hn].
  destruct (z_const_law (Symbol.format_str (h_name h) n suffix) (h_sort h) Hs)
    as (z & Hz & _ & Hsimp & _).
  exists n, z. split; [done|]. split; [done|]. unfold GetExpr, visit, PopulateExprMap.
  cbn [Exprs.DepthFirstVisit Exprs.args mapM]. rewrite lookup_empty.
  cbn [mbind Res_bind mret Res_ret GetZ3Expr]. unfold ExprVar_GetZ3Expr, Sort_GetZ3Expr.
  rewrite Hn. cbn [mbind Res_bind]. rewrite Hz. cbn [throw mbind Res_bind]. rewrite Hsimp.
  by rewrite lookup_insert_eq.
Qed.
End adapter.

(** C6.  The translation to Z3 is correct and total.  For every well-sorted
    expression over existing hosts, [GetExpr] returns a term (no exception, no
    assertion), the term has the sort of the expression, and in every model its
    value is the value of the expression when each variable takes the value of
    the solver constant named after it ([host _sEp_ name _sEp_ suffix]). *)
Theorem GetExpr_correct T e suffix :
  registered T e -> wt e = true -> translatable w e = true ->
  exists z, GetExpr w e suffix = Ok z /\ z_has z (Exprs.sort e) /\
    forall m, model_ok m -> Some (z_eval m z) = eval (env_of w m suffix) e.
Proof using Hw. intros Hr Hwt Ht. exact (GetExpr_denotes T suffix e Hr Hwt Ht). Qed.
End correct.

(** A shared node: [(x + x) < x] with [x] hosted by the root ILA. *)
Definition sample : Expr :=
  let hdr id name s := {| h_id := id; h_name := name; h_host := Some 1%N; h_sort := s |} in
  let x := ExprVar (hdr 2%N "x" (SortBv 8)) [] in
  let s := ExprOp (hdr 3%N "$3" (SortBv 8)) kAdd None [x; x] [] in
  ExprOp (hdr 4%N "$4" SortBool) kUnsignedLessThan None [s; x] [].

(** The table of the nodes under an expression. *)
Fixpoint nodes_of (e : Expr) : gmap objid Expr :=
  <[Exprs.id e := e]>
    match e with
    | ExprOp _ _ _ args _ => foldr (fun a m => nodes_of a ∪ m) ∅ args
    | _ => ∅
    end.

Lemma sample_registered : registered (nodes_of sample) sample.
Proof. cbn. rewrite !lookup_insert_eq. vm_compute. done. Qed.

Lemma GetExpr_correct_witness :
  match GetExpr (Z3 := Terms.terms) (w_ilas IlaOk.root_world) sample "0_" with
  | Ok z => z = Terms.TApp SUlt
      [Terms.TApp SAdd [Terms.TConst "top_sEp_x_sEp_0_" (SortBv 8);
                        Terms.TConst "top_sEp_x_sEp_0_" (SortBv 8)];
       Terms.TConst "top_sEp_x_sEp_0_" (SortBv 8)]
  | Fail _ => False
  end.
Proof.
  destruct (GetExpr_correct (Z3 := Terms.terms) (LZ := Terms.terms_laws) (w_ilas IlaOk.root_world)
              (IlaOk.ok_parent _ IlaOk.root_world_ok)
              (nodes_of sample) sample "0_" sample_registered eq_refl eq_refl)
    as (z & E & _ & _).
  rewrite E. enough (Ok z = Ok (Terms.TApp SUlt
      [Terms.TApp SAdd [Terms.TConst "top_sEp_x_sEp_0_" (SortBv 8);
                        Terms.TConst "top_sEp_x_sEp_0_" (SortBv 8)];
       Terms.TConst "top_sEp_x_sEp_0_" (SortBv 8)])) by congruence.
  rewrite <- E. reflexivity.
Defined.
