(* ===== verification/SmtSwitch.v ===== *)
(** * Translation to smt-switch

    [src/target-smt/smt_switch_itf.cc]: [class SmtSwitchItf], which translates
    expressions for the solver-agnostic library smt-switch.  Unlike the Z3
    adapter it keeps its caches between calls, and a solver declares each symbol
    once: the solver is a state.  An exception of the library ([SmtException])
    does not undo what was done before it, so a computation returns the members
    of the object whether it throws or not. *)
From S2P Require Import Prelude Sort Values Container Expr Smt World Z3Expr.
Local Open Scope Z_scope.

(** What the code calls.  [None] is an [SmtException]; [solver] is the state
    behind the [SmtSolver] pointer. *)
Class SwitchApi := {
  sterm : Type;
  ssort : Type;
  solver : Type;
  make_sort_BOOL : ssort;
  make_sort_BV : Z -> option ssort;
  make_sort_ARRAY : ssort -> ssort -> option ssort;
  make_sort_FUNCTION : list ssort -> option ssort;
  make_symbol : string -> ssort -> solver -> option (sterm * solver);
  make_term_bool : bool -> sterm;
  make_term_int : Z -> ssort -> option sterm;
  make_term_const_array : sterm -> ssort -> option sterm;
  make_term_op : SmtOp -> list sterm -> option sterm;
  make_term_Apply : list sterm -> option sterm;
  solver_reset : solver -> option solver }.

Section itf.
Context {SW : SwitchApi} (w : gmap objid InstrLvlAbs).

(** ** The members, and computations on them *)
Record SmtSwitchItf := {
  solver_ : solver;
  expr_map_ : gmap objid sterm;
  func_map_ : gmap objid sterm;
  suffix_ : string }.

Definition New (s : solver) : SmtSwitchItf :=
  {| solver_ := s; expr_map_ := ∅; func_map_ := ∅; suffix_ := "" |}.

Definition X (A : Type) : Type := SmtSwitchItf -> Res (option A * SmtSwitchItf).
#[local] Instance X_ret : MRet X := fun A a s => Ok (Some a, s).
#[local] Instance X_bind : MBind X := fun A B f m s =>
  match m s with
  | Ok (Some a, s') => f a s'
  | Ok (None, s') => Ok (None, s')
  | Fail e => Fail e
  end.

(** A step that stops the program, and one that throws an [SmtException]. *)
Definition fatal {A} (r : Res A) : X A := fun s => a ← r; Ok (Some a, s).
Definition smt {A} (r : option A) : X A := fun s => Ok (r, s).

Definition with_solver (t : SmtSwitchItf) (s : solver) : SmtSwitchItf :=
  {| solver_ := s; expr_map_ := expr_map_ t; func_map_ := func_map_ t; suffix_ := suffix_ t |}.
Definition with_expr_map (t : SmtSwitchItf) (m : gmap objid sterm) : SmtSwitchItf :=
  {| solver_ := solver_ t; expr_map_ := m; func_map_ := func_map_ t; suffix_ := suffix_ t |}.
Definition with_func_map (t : SmtSwitchItf) (m : gmap objid sterm) : SmtSwitchItf :=
  {| solver_ := solver_ t; expr_map_ := expr_map_ t; func_map_ := m; suffix_ := suffix_ t |}.
Definition with_suffix (t : SmtSwitchItf) (s : string) : SmtSwitchItf :=
  {| solver_ := solver_ t; expr_map_ := expr_map_ t; func_map_ := func_map_ t; suffix_ := s |}.

(** [Reset]: the caches are cleared also when the solver cannot be reset. *)
Definition Reset (t : SmtSwitchItf) : SmtSwitchItf :=
  {| solver_ := default (solver_ t) (solver_reset (solver_ t));
     expr_map_ := ∅; func_map_ := ∅; suffix_ := suffix_ t |}.

(** [solver_->make_symbol]. *)
Definition symbol (name : string) (s : ssort) : X sterm := fun t =>
  match make_symbol name s (solver_ t) with
  | Some (x, s') => Ok (Some x, with_solver t s')
  | None => Ok (None, t)
  end.

(** ** Sorts, variables and functions *)
Definition bv_sort (width : Z) : X ssort := smt (make_sort_BV width).
Definition mem_sort (aw dw : Z) : X ssort :=
  a ← bv_sort aw; d ← bv_sort dw; smt (make_sort_ARRAY a d).

Definition IlaSort2SmtSort (s : Sort) : X ssort :=
  match s with
  | SortBool => smt (Some make_sort_BOOL)
  | SortBv width => bv_sort width
  | SortMem aw dw => mem_sort aw dw
  | _ => fatal (Fail EAssert)
  end.

Definition format_name (host : option objid) (name : string) : X string := fun t =>
  fatal (prefix ← host_root_name w host; Ok (Symbol.format_str name prefix (suffix_ t))) t.

Definition ExprVar2Term (h : Hdr) : X sterm :=
  e_name ← format_name (h_host h) (h_name h);
  smt_sort ← IlaSort2SmtSort (h_sort h);
  symbol e_name smt_sort.

Definition Func2Term (func : Func) : X sterm :=
  f_name ← format_name (f_host func) (f_name func);
  arg_sorts ← mapM IlaSort2SmtSort (args_ func);
  out ← IlaSort2SmtSort (out_ func);
  func_sort ← smt (make_sort_FUNCTION (arg_sorts ++ [out]));
  symbol f_name func_sort.

(** ** Constants

    [make_term] takes an [int64_t]; the values are [uint64_t]. *)
Definition int64 (n : Z) : Z := if 2 ^ 63 <=? n then n - 2 ^ 64 else n.
Definition bv_val (n : Z) (s : ssort) : X sterm := smt (make_term_int (int64 n) s).

Fixpoint write_all (addr_sort data_sort : ssort) (l : list (Z * Z)) (const_memory : sterm) :
    X sterm :=
  match l with
  | [] => mret const_memory
  | p :: l =>
      addr_term ← bv_val p.1 addr_sort;
      data_term ← bv_val p.2 data_sort;
      memory_wr ← smt (make_term_op SStore [const_memory; addr_term; data_term]);
      write_all addr_sort data_sort l memory_wr
  end.

Definition ExprConst2Term (h : Hdr) (v : ConstVal) : X sterm :=
  match h_sort h, v with
  | SortBool, CBool b => smt (Some (make_term_bool b))
  | SortBv bw, CBv n => s ← bv_sort bw; bv_val n s
  | SortMem aw dw, CMem memory_value =>
      addr_sort ← bv_sort aw;
      data_sort ← bv_sort dw;
      mem_sort ← smt (make_sort_ARRAY addr_sort data_sort);
      def_val_term ← bv_val (SortValue.default_ memory_value) data_sort;
      const_memory ← smt (make_term_const_array def_val_term mem_sort);
      write_all addr_sort data_sort (map_entries (SortValue.val_map_ memory_value)) const_memory
  | _, _ => fatal (Fail EAssert)
  end.

(** ** Operators *)
Section op.
Context (expr : Expr) (arg_terms : list sterm).

Definition at_ (i : nat) : X sterm := fatal (Exprs.at_ arg_terms i).
Definition make1 (op : SmtOp) : X sterm := a ← at_ 0; smt (make_term_op op [a]).
Definition make2 (op : SmtOp) : X sterm :=
  a ← at_ 0; b ← at_ 1; smt (make_term_op op [a; b]).
Definition make3 (op : SmtOp) : X sterm :=
  a ← at_ 0; b ← at_ 1; c ← at_ 2; smt (make_term_op op [a; b; c]).

(** A parameter, as the [uint64_t] index of an operator. *)
Definition index (z : Z) : Z := z mod 2 ^ 64.
Definition param (i : nat) : X Z := fatal (Exprs.param expr i).

(** The index of the extensions is the difference of the widths. *)
Definition make_ext (op : Z -> SmtOp) : X sterm :=
  p ← param 0;
  a ← fatal (Exprs.arg expr 0);
  bit_width ← fatal (Sorts.bit_width (Exprs.sort a));
  make1 (op (index (p - bit_width))).
Definition make_rot (op : Z -> SmtOp) : X sterm := p ← param 0; make1 (op (index p)).
Definition make_extract : X sterm :=
  hi ← param 0; lo ← param 1; make1 (SExtract (index hi) (index lo)).

(** The term of a function, made at its first visit. *)
Definition find_func (func : Func) : X (option sterm) := fun t =>
  Ok (Some (func_map_ t !! f_id func), t).
Definition remember_func (func : Func) (x : sterm) : X unit := fun t =>
  Ok (Some (), with_func_map t (<[f_id func := x]> (func_map_ t))).
Definition func_term (func : Func) : X sterm :=
  pos ← find_func func;
  match pos with
  | Some x => mret x
  | None => x ← Func2Term func; remember_func func x;; mret x
  end.
Definition make_apply (func : Func) : X sterm :=
  f ← func_term func; smt (make_term_Apply (f :: arg_terms)).

Definition logic (op_bool op_bv : SmtOp) : X sterm :=
  make2 (if Exprs.is_bool expr then op_bool else op_bv).

Definition ExprOp2Term (op : AstUidExprOp) (fn : option Func) : X sterm :=
  match op, fn with
  | kNegate, _ => make1 SNeg
  | kNot, _ => make1 SNot
  | kComplement, _ => make1 SBvNot
  | kAnd, _ => logic SAnd SBvAnd
  | kOr, _ => logic SOr SBvOr
  | kXor, _ => logic SXor SBvXor
  | kShiftLeft, _ => make2 SShl
  | kArithShiftRight, _ => make2 SAshr
  | kLogicShiftRight, _ => make2 SLshr
  | kAdd, _ => make2 SAdd
  | kSubtract, _ => make2 SSub
  | kDivide, _ => make2 SDiv
  | kSignedRemainder, _ => make2 SRem
  | kUnsignedRemainder, _ => make2 SURem
  | kSignedModular, _ => make2 SMod
  | kMultiply, _ => make2 SMul
  | kEqual, _ => make2 SEq
  | kLessThan, _ => make2 SSlt
  | kGreaterThan, _ => make2 SSgt
  | kUnsignedLessThan, _ => make2 SUlt
  | kUnsignedGreaterThan, _ => make2 SUgt
  | kLoad, _ => make2 SSelect
  | kStore, _ => make3 SStore
  | kConcatenate, _ => make2 SConcat
  | kExtract, _ => make_extract
  | kZeroExtend, _ => make_ext SZext
  | kSignedExtend, _ => make_ext SSext
  | kRotateLeft, _ => make_rot SRotl
  | kRotateRight, _ => make_rot SRotr
  | kImply, _ => make2 SImplies
  | kIfThenElse, _ => make3 SIte
  | kApplyFunc, Some f => make_apply f
  | kApplyFunc, None => fatal (Fail ENull)
  | kInvalid, _ => fatal (Fail ECheck)
  end.
End op.

(** ** The visitor *)
Definition find_term (a : Expr) : X sterm := fun t =>
  match expr_map_ t !! Exprs.id a with
  | Some x => Ok (Some x, t)
  | None => Fail EAssert
  end.

Definition Expr2Term (e : Expr) (args : list sterm) : X sterm :=
  match e with
  | ExprVar h _ => ExprVar2Term h
  | ExprConst h v _ => ExprConst2Term h v
  | ExprOp _ op fn _ _ => ExprOp2Term e args op fn
  end.

(** [expr_map_.insert]: an entry that is there is kept. *)
Definition cache (e : Expr) (x : sterm) : X unit := fun t =>
  match expr_map_ t !! Exprs.id e with
  | Some _ => Ok (Some (), t)
  | None => Ok (Some (), with_expr_map t (<[Exprs.id e := x]> (expr_map_ t)))
  end.

Definition PopulateExprMap (expr : Expr) : X unit :=
  arg_terms ← mapM find_term (Exprs.args expr);
  res ← Expr2Term expr arg_terms;
  cache expr res.

Definition pre (expr : Expr) (t : SmtSwitchItf) : bool := is_some (expr_map_ t !! Exprs.id expr).

(** An exception is logged. *)
Definition post (expr : Expr) (t : SmtSwitchItf) : Res SmtSwitchItf :=
  r ← PopulateExprMap expr t; Ok r.2.

Definition GetSmtTerm (expr : Expr) (suffix : string) : ST SmtSwitchItf sterm := fun t =>
  t ← Exprs.DepthFirstVisitPrePost pre post expr (with_suffix t suffix);
  match expr_map_ t !! Exprs.id expr with Some x => Ok (x, t) | None => Fail EAssert end.
End itf.

(** ** What the code relies on

    [sw_sort]: a sort of the library stands for a sort; [sw_has], [sw_eval]: the
    sort and the value of a term; [sw_fun]: a term is the symbol of a function;
    [declared]: the names of the symbols a solver has. *)
Class SwitchLaws (SW : SwitchApi) := {
  sw_sort : ssort -> Sort -> Prop;
  sw_fsort : ssort -> list Sort -> Sort -> Prop;
  sw_has : sterm -> Sort -> Prop;
  sw_eval : Model -> sterm -> val;
  sw_fun : sterm -> string -> list Sort -> Sort -> Prop;
  declared : solver -> gset string;
  sw_eval_sort m x s : model_ok m -> sw_has x s -> has_sort (sw_eval m x) s = true;
  sort_BOOL_law : sw_sort make_sort_BOOL SortBool;
  sort_BV_law n : 0 < n -> exists s, make_sort_BV n = Some s /\ sw_sort s (SortBv n);
  sort_ARRAY_law a d aw dw : sw_sort a (SortBv aw) -> sw_sort d (SortBv dw) ->
    exists s, make_sort_ARRAY a d = Some s /\ sw_sort s (SortMem aw dw);
  sort_FUNCTION_law l ss r s : Forall2 sw_sort l ss -> sw_sort r s -> ss <> [] ->
    exists f, make_sort_FUNCTION (l ++ [r]) = Some f /\ sw_fsort f ss s;
  symbol_law n t s σ : sw_sort t s -> sort_ok s = true -> n ∉ declared σ ->
    exists x σ', make_symbol n t σ = Some (x, σ') /\ declared σ' = {[n]} ∪ declared σ /\
      sw_has x s /\ forall m, sw_eval m x = m_const m n s;
  symbol_fun_law n t ss s σ : sw_fsort t ss s -> n ∉ declared σ ->
    exists x σ', make_symbol n t σ = Some (x, σ') /\ declared σ' = {[n]} ∪ declared σ /\
      sw_fun x n ss s;
  term_bool_law b : sw_has (make_term_bool b) SortBool /\
    forall m, sw_eval m (make_term_bool b) = VBool b;
  term_int_law n t bw : sw_sort t (SortBv bw) -> 0 < bw -> 0 <= n < 2 ^ bw ->
    exists x, make_term_int n t = Some x /\ sw_has x (SortBv bw) /\
      forall m, sw_eval m x = VBv bw n;
  term_array_law d t aw dw : sw_sort t (SortMem aw dw) -> 0 < aw -> 0 < dw ->
    sw_has d (SortBv dw) ->
    exists x, make_term_const_array d t = Some x /\ sw_has x (SortMem aw dw) /\
      forall m n, sw_eval m d = VBv dw n -> sw_eval m x = VMem aw dw (mem_const aw n);
  term_op_law op xs ss s : Forall2 sw_has xs ss -> smt_sort op ss = Some s ->
    exists x, make_term_op op xs = Some x /\ sw_has x s /\
      forall m, model_ok m -> Some (sw_eval m x) = smt_sem op (sw_eval m <$> xs);
  term_Apply_law f n ss s xs : sw_fun f n ss s -> Forall2 sw_has xs ss -> ss <> [] ->
    sort_ok s = true ->
    exists x, make_term_Apply (f :: xs) = Some x /\ sw_has x s /\
      forall m, sw_eval m x = m_fun m n ss s (sw_eval m <$> xs) }.

(** ** What a translation must mean *)
Section sem.
Context (w : gmap objid InstrLvlAbs) (suffix : string).

Definition name_of (host : option objid) (name : string) : string :=
  match host_root_name w host with
  | Ok prefix => Symbol.format_str name prefix suffix
  | Fail _ => ""
  end.

(** Functions, too, are named after the root of their host, and suffixed. *)
Definition sw_env (m : Model) : Env := {|
  ev_var h := m_const m (name_of (h_host h) (h_name h)) (h_sort h);
  ev_fun f vs := m_fun m (name_of (f_host f) (f_name f)) (args_ f) (out_ f) vs;
  ev_nondet _ f := default_val (out_ f) |}.

(** The symbols an expression needs, with their names. *)
Fixpoint syms (e : Expr) : list ((objid + objid) * string) :=
  match e with
  | ExprVar h _ => [(inl (h_id h), name_of (h_host h) (h_name h))]
  | ExprConst _ _ _ => []
  | ExprOp _ _ fn args _ =>
      match fn with
      | Some f => [(inr (f_id f), name_of (f_host f) (f_name f))]
      | None => []
      end ++ flat_map syms args
  end.

Lemma syms_arg e a : a ∈ Exprs.args e -> syms a ⊆ syms e.
Proof.
  destruct e as [h ps|h c ps|h op fn args ps]; cbn [Exprs.args syms]; [by intros ?%not_elem_of_nil..|].
  intros Ha x Hx. apply elem_of_app. right. apply list_elem_of_In, in_flat_map. exists a.
  by rewrite <- !list_elem_of_In.
Qed.
End sem.

(** The additional demands of this interface: values below [2^63] that fit their
    width, functions with arguments, and one function per id. *)
Definition fits (bw n : Z) : bool := (0 <=? n) && (n <? 2 ^ bw) && (n <? 2 ^ 63).
Definition const_fits (s : Sort) (v : ConstVal) : bool :=
  match s, v with
  | SortBv bw, CBv n => fits bw n
  | SortMem aw dw, CMem mv =>
      fits dw (SortValue.default_ mv) &&
      forallb (fun p => fits aw p.1 && fits dw p.2) (map_entries (SortValue.val_map_ mv))
  | _, _ => true
  end.
Fixpoint switchable (FT : gmap objid Func) (e : Expr) : bool :=
  match e with
  | ExprVar _ _ => true
  | ExprConst h v _ => const_fits (h_sort h) v
  | ExprOp _ _ fn args _ =>
      match fn with
      | Some f => negb (bool_decide (args = [])) && bool_decide (FT !! f_id f = Some f)
      | None => true
      end && forallb (switchable FT) args
  end.

Section correct.
Context {SW : SwitchApi} {SL : SwitchLaws SW} (w : gmap objid InstrLvlAbs)
  (Hw : IlaOk.ilas_ok w) (suffix : string).
#[local] Existing Instance X_ret.
#[local] Existing Instance X_bind.

Definition denotes (e : Expr) (x : sterm) : Prop :=
  sw_has x (Exprs.sort e) /\
  forall m, model_ok m -> Some (sw_eval m x) = eval (sw_env w suffix m) e.

(** A computation that returns [x] and leaves the members alone. *)
Definition yields {A} (c : X A) (P : A -> Prop) : Prop :=
  forall t, exists x, c t = Ok (Some x, t) /\ P x.

Lemma X_bind_run {A B} (c : X A) (f : A -> X B) t x t' :
  c t = Ok (Some x, t') -> (c ≫= f) t = f x t'.
Proof using Type. unfold mbind, X_bind. by intros ->. Qed.

Lemma xyields_bind {A B} (c : X A) (f : A -> X B) P Q :
  yields c P -> (forall x, P x -> yields (f x) Q) -> yields (c ≫= f) Q.
Proof using Type.
  intros Hc Hf t. destruct (Hc t) as (x & E & Hx). destruct (Hf x Hx t) as (y & E' & Hy).
  exists y. by rewrite (X_bind_run _ _ _ _ _ E).
Qed.

Lemma yields_smt {A} (r : option A) (P : A -> Prop) :
  (exists x, r = Some x /\ P x) -> yields (smt r) P.
Proof using Type. intros (x & -> & Hx) t. exists x. by split. Qed.
Lemma yields_fatal {A} (r : Res A) (P : A -> Prop) :
  (exists x, r = Ok x /\ P x) -> yields (fatal r) P.
Proof using Type. intros (x & -> & Hx) t. exists x. by split. Qed.
Lemma xyields_ret {A} (x : A) (P : A -> Prop) : P x -> yields (mret x) P.
Proof using Type. intros Hx t. exists x. by split. Qed.

Lemma bv_sort_yields n : 0 < n -> yields (bv_sort n) (fun s => sw_sort s (SortBv n)).
Proof using Type. intros. by apply yields_smt, sort_BV_law. Qed.

Lemma IlaSort2SmtSort_yields s : sort_ok s = true ->
  yields (IlaSort2SmtSort s) (fun x => sw_sort x s).
Proof using Type.
  destruct s; cbn; intros; bool_inv; try done.
  - apply yields_smt. eexists. split; [done|apply sort_BOOL_law].
  - by apply bv_sort_yields.
  - eapply xyields_bind; [by apply bv_sort_yields|]. intros a Ha.
    eapply xyields_bind; [by apply bv_sort_yields|]. intros d Hd.
    by apply yields_smt, sort_ARRAY_law.
Qed.

Lemma sorts_yield ss : Forall (fun s => sort_ok s = true) ss ->
  yields (mapM IlaSort2SmtSort ss) (fun l => Forall2 sw_sort l ss).
Proof using Type.
  induction 1 as [|s ss Hs _ IH]; [by apply xyields_ret|]. cbn.
  eapply xyields_bind; [by apply IlaSort2SmtSort_yields|]. intros x Hx.
  eapply xyields_bind; [exact IH|]. intros l Hl. apply xyields_ret. by constructor.
Qed.

Lemma format_name_run host name t : hosted w host = true -> suffix_ t = suffix ->
  format_name w host name t = Ok (Some (name_of w suffix host name), t).
Proof using Hw.
  intros [n Hn]%(hosted_root w Hw) Ht. unfold format_name, fatal, name_of. by rewrite Hn, Ht.
Qed.

Lemma int64_small n : n < 2 ^ 63 -> int64 n = n.
Proof using Type. intros. unfold int64. rewrite (proj2 (Z.leb_gt _ _)); lia. Qed.

(** ** Constants *)
Lemma bv_val_yields bw n s : 0 < bw -> fits bw n = true -> sw_sort s (SortBv bw) ->
  yields (bv_val n s) (fun x => sw_has x (SortBv bw) /\
    forall m, sw_eval m x = VBv bw (Bits.wrap bw n)).
Proof using Type.
  unfold fits. intros Hbw Hf Hs. bool_inv. unfold bv_val. rewrite int64_small by done.
  apply yields_smt. unfold Bits.wrap. rewrite Z.mod_small by lia. by eapply term_int_law.
Qed.

Lemma write_all_yields aw dw sa sd l e1 g1 :
  0 < aw -> 0 < dw -> sw_sort sa (SortBv aw) -> sw_sort sd (SortBv dw) ->
  forallb (fun p => fits aw p.1 && fits dw p.2) l = true ->
  sw_has e1 (SortMem aw dw) ->
  (forall m, model_ok m -> sw_eval m e1 = VMem aw dw g1) ->
  yields (write_all sa sd l e1) (fun e2 => sw_has e2 (SortMem aw dw) /\
    forall m, model_ok m -> sw_eval m e2 = VMem aw dw
      (foldl (fun g p => mem_store g (Bits.wrap aw p.1) (Bits.wrap dw p.2)) g1 l)).
Proof using Type.
  intros Haw Hdw Ha Hd. revert e1 g1. induction l as [|p l IH]; intros e1 g1 Hl H1 Hv1;
    [by apply xyields_ret|].
  cbn [write_all foldl forallb] in *. bool_inv.
  eapply xyields_bind; [by apply (bv_val_yields aw)|]. intros za [Hza Hva].
  eapply xyields_bind; [by apply (bv_val_yields dw)|]. intros zd [Hzd Hvd].
  eapply xyields_bind; [eapply yields_smt, (term_op_law SStore _
    [SortMem aw dw; SortBv aw; SortBv dw] (SortMem aw dw)); [by repeat constructor|]|].
  { cbn. by rewrite !Z.eqb_refl. }
  intros z [Hz Hvz]. apply IH; [done..|]. intros m Hm. specialize (Hvz m Hm).
  cbn in Hvz. rewrite Hv1, Hva, Hvd in Hvz by done. cbn in Hvz.
  rewrite !Z.eqb_refl in Hvz. cbn in Hvz. congruence.
Qed.

Lemma const_yields h v ps : const_ok (h_sort h) v = true -> const_fits (h_sort h) v = true ->
  yields (ExprConst2Term h v) (denotes (ExprConst h v ps)).
Proof using Type.
  intros Hok Hf. unfold ExprConst2Term, denotes, Exprs.sort. cbn -[eval const_sem].
  cbn [eval]. destruct (h_sort h) as [|n|aw dw| |], v as [b|x|mv];
    try discriminate Hok; cbn in Hok, Hf; bool_inv.
  - apply yields_smt. eexists. split; [done|]. destruct (term_bool_law b) as [Hz Hv].
    split; [done|]. intros m _. by rewrite Hv.
  - eapply xyields_bind; [by apply bv_sort_yields|]. intros s Hs. intros t.
    destruct (bv_val_yields n x s ltac:(done) Hf Hs t) as (z & E & Hz & Hv). exists z.
    split; [done|]. split; [done|]. intros m _. by rewrite Hv.
  - eapply xyields_bind; [by apply bv_sort_yields|]. intros sa Hsa.
    eapply xyields_bind; [by apply bv_sort_yields|]. intros sd Hsd.
    eapply xyields_bind; [exact (yields_smt _ _ (sort_ARRAY_law _ _ _ _ Hsa Hsd))|]. intros sm Hsm.
    eapply xyields_bind; [by apply (bv_val_yields dw)|]. intros zd [Hd Hvd].
    eapply xyields_bind; [eapply yields_smt, (term_array_law zd sm aw dw); done|]. intros z1 [Hz1 Hv1].
    intros t. destruct (write_all_yields aw dw sa sd (map_entries (SortValue.val_map_ mv)) z1
      (mem_const aw (Bits.wrap dw (SortValue.default_ mv)))
      ltac:(done) ltac:(done) Hsa Hsd ltac:(done) Hz1) with (t := t) as (z2 & E & Hz2 & Hv2);
      [by intros; apply Hv1|].
    exists z2. split; [done|]. split; [done|]. intros m Hm. by rewrite Hv2.
Qed.

(** ** Operators *)
Lemma denote_args es xs m : model_ok m -> Forall2 denotes es xs ->
  evals (sw_env w suffix m) es = Some (sw_eval m <$> xs) /\
  Forall2 sw_has xs (Exprs.sort <$> es).
Proof using Type.
  intros Hm. unfold evals. induction 1 as [|e z es zs [Hh He] _ [IH1 IH2]]; cbn.
  - split; [done|constructor].
  - rewrite <- He by done. cbn. rewrite IH1. split; [done|]. by constructor.
Qed.

Lemma arg_values es xs m : model_ok m -> Forall2 denotes es xs ->
  Forall2 (fun v s => has_sort v s = true) (sw_eval m <$> xs) (Exprs.sort <$> es).
Proof using Type.
  intros Hm H. destruct (denote_args es xs m Hm H) as [_ H'].
  apply Forall2_fmap_l. eapply Forall2_impl; [exact H'|]. intros. by apply sw_eval_sort.
Qed.

Lemma op_yields h op args ps xs :
  Forall2 denotes args xs ->
  op_sort op ps (Exprs.sort <$> args) = Some (h_sort h) ->
  yields (smt (make_term_op (smt_of op ps (Exprs.sort <$> args) (h_sort h)) xs))
    (denotes (ExprOp h op None args ps)).
Proof using Type.
  intros Hx Hs. destruct (denote_args args xs default_model default_model_ok Hx) as [_ Hh].
  destruct (term_op_law _ xs _ _ Hh (smt_of_sort _ _ _ _ Hs)) as (z & E & Hz & Hv).
  apply yields_smt. exists z. split; [done|]. split; [done|]. intros m Hm.
  rewrite Hv by done. destruct (denote_args args xs m Hm Hx) as [Ha _].
  rewrite eval_op, Ha. cbn. apply smt_of_sem; [done|]. by apply arg_values.
Qed.

Lemma index_small p : 0 <= p < 2 ^ 31 -> index p = p.
Proof using Type. intros. unfold index. apply Z.mod_small. lia. Qed.

(** Every branch of the switch makes the term that stands for the operator. *)
Lemma op_branch h op args ps xs :
  length xs = length args -> params_ok ps = true ->
  Forall (fun s => sort_ok s = true) (Exprs.sort <$> args) ->
  op_sort op ps (Exprs.sort <$> args) = Some (h_sort h) ->
  forall t, ExprOp2Term w (ExprOp h op None args ps) xs op None t =
    smt (make_term_op (smt_of op ps (Exprs.sort <$> args) (h_sort h)) xs) t.
Proof using Type.
  intros Hlen Hps Hok Hs t.
  destruct args as [|a [|b [|c [|? ?]]]], xs as [|za [|zb [|zc [|? ?]]]]; try discriminate Hlen;
    destruct ps as [|p [|q [|? ?]]]; destruct op; try discriminate Hs; clear Hlen.
  all: try reflexivity.
  all: cbn [op_sort fmap list_fmap] in Hs, Hok |- *.
  all: sorts_inv Hs; bool_inv; simplify_eq; try reflexivity.
  all: repeat match goal with
    | H : params_ok (_ :: _) = true |- _ => apply andb_true_iff in H as [?%Z.ltb_lt H]
    | H : Forall _ (_ :: _) |- _ => apply Forall_cons in H as [?%Z.ltb_lt H]
    end.
  all: cbn; unfold make_extract, make_ext, make_rot, param, make1, at_; cbn.
  all: cbv [fatal mbind X_bind Res_bind Exprs.param Exprs.at_]; cbn.
  all: try (rewrite E; cbn).
  all: by rewrite !index_small by lia.
Qed.

(** ** Symbols

    [T], [FT]: the nodes and the functions by id; [Σ]: the symbols of the
    expression to translate; [σ0]: the solver at the start. *)
Section visitor.
Context (T : gmap objid Expr) (FT : gmap objid Func) (Σ : list ((objid + objid) * string))
  (σ0 : solver).
Hypothesis Σ_fresh : forall k n, (k, n) ∈ Σ -> n ∉ declared σ0.
Hypothesis Σ_inj : forall k k' n, (k, n) ∈ Σ -> (k', n) ∈ Σ -> k = k'.

Definition ok (e : Expr) : Prop :=
  wt e = true /\ translatable w e = true /\ switchable FT e = true /\ syms w suffix e ⊆ Σ.

Lemma ok_args e : ok e -> Forall ok (Exprs.args e).
Proof using Type.
  intros (H1%wt_args & H2%translatable_args & H3 & H4). rewrite Forall_forall in *.
  intros a Ha. split; [auto|]. split; [auto|]. split.
  - destruct e as [h ps|h c ps|h op fn args ps]; cbn [Exprs.args switchable] in *;
      [by apply not_elem_of_nil in Ha..|].
    apply andb_true_iff in H3 as [_ H3]. rewrite forallb_forall in H3.
    by apply H3, list_elem_of_In.
  - etrans; [|exact H4]. by apply syms_arg.
Qed.

(** The symbol [k] has been declared. *)
Definition made (k : objid + objid) (t : SmtSwitchItf) : Prop :=
  match k with
  | inl i => is_Some (expr_map_ t !! i)
  | inr i => is_Some (func_map_ t !! i)
  end.

Record inv (t : SmtSwitchItf) : Prop := {
  inv_suffix : suffix_ t = suffix;
  inv_expr i x : expr_map_ t !! i = Some x -> exists e, T !! i = Some e /\ denotes e x;
  inv_func i x : func_map_ t !! i = Some x -> exists f, FT !! i = Some f /\
    sw_fun x (name_of w suffix (f_host f) (f_name f)) (args_ f) (out_ f);
  inv_decl n : n ∈ declared (solver_ t) ->
    n ∈ declared σ0 \/ exists k, (k, n) ∈ Σ /\ made k t }.

Definition grows (t t' : SmtSwitchItf) : Prop :=
  expr_map_ t ⊆ expr_map_ t' /\ func_map_ t ⊆ func_map_ t'.
#[local] Instance grows_preorder : PreOrder grows.
Proof using Type.
  split; [by intros t; split|]. intros a b c [? ?] [? ?]. split; by etrans.
Qed.

Definition seen (e : Expr) (t : SmtSwitchItf) : Prop :=
  exists x, expr_map_ t !! Exprs.id e = Some x /\ denotes e x.

Lemma made_grows k t t' : grows t t' -> made k t -> made k t'.
Proof using Type.
  intros [H1 H2]. destruct k; intros [x Hx]; exists x; by eapply lookup_weaken.
Qed.

Lemma not_declared t k n : inv t -> (k, n) ∈ Σ -> ~ made k t -> n ∉ declared (solver_ t).
Proof using Σ_fresh Σ_inj.
  intros Ht Hk Hm Hn. destruct (inv_decl _ Ht n Hn) as [H|(k' & Hk' & Hm')].
  - by eapply Σ_fresh.
  - by rewrite (Σ_inj _ _ _ Hk Hk') in Hm.
Qed.

(** An expression is entered in the cache. *)
Lemma cache_run e x t : registered T e -> inv t -> denotes e x ->
  exists t', cache e x t = Ok (Some (), t') /\ inv t' /\ grows t t' /\ seen e t' /\
    solver_ t' = solver_ t.
Proof using Type.
  intros Hr%registered_lookup Ht Hx. unfold cache.
  destruct (expr_map_ t !! Exprs.id e) as [y|] eqn:Ey.
  - exists t. do 2 (split; [done|]). split; [done|]. split; [|done]. exists y. split; [done|].
    destruct (inv_expr _ Ht _ _ Ey) as (e' & He' & Hy). by simplify_eq.
  - assert (Hg : grows t (with_expr_map t (<[Exprs.id e:=x]> (expr_map_ t)))).
    { split; [by apply insert_subseteq|done]. }
    eexists. split; [done|]. split; [|split; [exact Hg|split; [|done]]].
    + split; try apply Ht.
      * intros i y. cbn. rewrite lookup_insert_Some. intros [[<- <-]|[_ Hi]]; [by exists e|].
        by apply (inv_expr _ Ht).
      * intros n Hn. destruct (inv_decl _ Ht n Hn) as [H|(k & Hk & Hm)]; [by left|].
        right. exists k. split; [done|]. by eapply made_grows.
    + exists x. cbn. by rewrite lookup_insert_eq.
Qed.

(** A variable: its symbol is declared, then cached. *)
Lemma var_step h ps t : registered T (ExprVar h ps) -> ok (ExprVar h ps) -> inv t ->
  expr_map_ t !! h_id h = None ->
  exists t', PopulateExprMap w (ExprVar h ps) t = Ok (Some (), t') /\ inv t' /\ grows t t' /\
    seen (ExprVar h ps) t'.
Proof using Hw Σ_fresh Σ_inj.
  intros Hr (Hs & Hh & _ & Hsub) Ht Hnone. cbn in Hs, Hh, Hsub.
  set (n := name_of w suffix (h_host h) (h_name h)) in *.
  assert (Hn : (inl (h_id h), n) ∈ Σ) by (apply Hsub; by left).
  destruct (IlaSort2SmtSort_yields (h_sort h) Hs t) as (s & Es & Hss).
  destruct (symbol_law n s (h_sort h) (solver_ t) Hss Hs) as (x & σ' & Ex & Hd & Hx & Hv).
  { eapply not_declared; [done..|]. intros [y Hy]. by rewrite Hnone in Hy. }
  assert (Hden : denotes (ExprVar h ps) x).
  { split; [done|]. intros m _. cbn. by rewrite Hv. }
  unfold PopulateExprMap. cbn [Exprs.args mapM].
  rewrite (X_bind_run _ _ t [] t eq_refl).
  assert (E : ExprVar2Term w h t = Ok (Some x, with_solver t σ')).
  { unfold ExprVar2Term. rewrite (X_bind_run _ _ _ _ _ (format_name_run _ _ t Hh (inv_suffix _ Ht))).
    rewrite (X_bind_run _ _ _ _ _ Es). unfold symbol. fold n. by rewrite Ex. }
  cbn [Expr2Term]. rewrite (X_bind_run _ _ _ _ _ E). unfold cache. cbn [expr_map_ with_solver].
  change (Exprs.id (ExprVar h ps)) with (h_id h). rewrite Hnone.
  eexists. split; [done|]. split; [|split; [split; [by apply insert_subseteq|done]|]].
  - split; try apply Ht.
    + intros i y. cbn. rewrite lookup_insert_Some. intros [[<- <-]|[_ Hi]]; [|by apply (inv_expr _ Ht)].
      exists (ExprVar h ps). split; [by apply (registered_lookup _ _ Hr)|done].
    + intros n'. cbn. rewrite Hd. intros [->%elem_of_singleton|Hn']%elem_of_union.
      * right. exists (inl (h_id h)). split; [done|]. cbn. by rewrite lookup_insert_eq.
      * destruct (inv_decl _ Ht n' Hn') as [H|(k & Hk & Hm)]; [by left|]. right.
        exists k. split; [done|]. eapply made_grows; [|done]. split; [by apply insert_subseteq|done].
  - exists x. split; [|done]. cbn. by rewrite lookup_insert_eq.
Qed.

(** A function: its term is found, or declared and remembered. *)
Lemma func_term_run f t : FT !! f_id f = Some f -> hosted w (f_host f) = true ->
  Forall (fun s => sort_ok s = true) (args_ f) -> sort_ok (out_ f) = true -> args_ f <> [] ->
  (inr (f_id f), name_of w suffix (f_host f) (f_name f)) ∈ Σ -> inv t ->
  exists x t', func_term w f t = Ok (Some x, t') /\ inv t' /\ grows t t' /\
    expr_map_ t' = expr_map_ t /\
    sw_fun x (name_of w suffix (f_host f) (f_name f)) (args_ f) (out_ f).
Proof using Hw Σ_fresh Σ_inj.
  intros Hf Hh Hargs Hout Hne Hn Ht. unfold func_term, find_func.
  destruct (func_map_ t !! f_id f) as [x|] eqn:Ex.
  { exists x, t. rewrite (X_bind_run _ _ t (Some x) t) by (by rewrite Ex).
    do 3 (split; [done|]). split; [done|].
    destruct (inv_func _ Ht _ _ Ex) as (f' & Hf' & Hx). by simplify_eq. }
  rewrite (X_bind_run _ _ t None t) by (by rewrite Ex).
  set (n := name_of w suffix (f_host f) (f_name f)) in *.
  destruct (sorts_yield _ Hargs t) as (l & El & Hl).
  destruct (IlaSort2SmtSort_yields _ Hout t) as (r & Er & Hr).
  destruct (sort_FUNCTION_law l _ r _ Hl Hr Hne) as (fs & Efs & Hfs).
  destruct (symbol_fun_law n fs _ _ (solver_ t) Hfs) as (x & σ' & Es & Hd & Hx).
  { eapply not_declared; [done..|]. intros [y Hy]. by rewrite Ex in Hy. }
  assert (E : Func2Term w f t = Ok (Some x, with_solver t σ')).
  { unfold Func2Term. rewrite (X_bind_run _ _ _ _ _ (format_name_run _ _ t Hh (inv_suffix _ Ht))).
    rewrite (X_bind_run _ _ _ _ _ El), (X_bind_run _ _ _ _ _ Er).
    rewrite (X_bind_run (smt _) _ t fs t) by (unfold smt; by rewrite Efs).
    unfold symbol. fold n. by rewrite Es. }
  rewrite (X_bind_run _ _ _ _ _ E). unfold remember_func.
  eexists x, _. split; [done|]. split; [|split; [split; [done|by apply insert_subseteq]|done]].
  split; try apply Ht.
  - intros i y. cbn. rewrite lookup_insert_Some.
    intros [[<- <-]|[_ Hi]]; [by exists f|by apply (inv_func _ Ht)].
  - intros n'. cbn. rewrite Hd. intros [->%elem_of_singleton|Hn']%elem_of_union.
    + right. exists (inr (f_id f)). split; [done|]. cbn. by rewrite lookup_insert_eq.
    + destruct (inv_decl _ Ht n' Hn') as [H|(k & Hk & Hm)]; [by left|]. right.
      exists k. split; [done|]. eapply made_grows; [|done]. split; [done|by apply insert_subseteq].
Qed.

(** An application of a function to arguments. *)
Lemma apply_run h f args ps xs t :
  ok (ExprOp h kApplyFunc (Some f) args ps) -> Forall2 denotes args xs -> inv t ->
  exists x t', ExprOp2Term w (ExprOp h kApplyFunc (Some f) args ps) xs kApplyFunc (Some f) t =
      Ok (Some x, t') /\ inv t' /\ grows t t' /\
    denotes (ExprOp h kApplyFunc (Some f) args ps) x.
Proof using Hw Σ_fresh Σ_inj.
  intros (Hwt & Htr & Hsw & Hsub) Hxs Ht. apply wt_op in Hwt as [Hargs Hfn].
  unfold fn_ok in Hfn. cbn [translatable switchable] in Htr, Hsw. bool_inv.
  destruct (func_term_run f t) as (fx & t1 & E1 & Ht1 & Hg1 & Hm1 & Hfx); try done.
  { replace (args_ f) with (Exprs.sort <$> args). apply Forall_fmap.
    eapply Forall_impl; [done|]. intros a. apply wt_sort_ok. }
  { congruence. }
  { intros Ha. rewrite Ha in *. by destruct args. }
  { apply Hsub. cbn. by left. }
  destruct (denote_args args xs default_model default_model_ok Hxs) as [_ Hh].
  destruct (term_Apply_law fx _ (args_ f) (out_ f) xs Hfx) as (x & Ex & Hx & Hv).
  { congruence. }
  { intros Ha. rewrite Ha in *. by destruct args. }
  { congruence. }
  exists x, t1. cbn [ExprOp2Term]. unfold make_apply.
  rewrite (X_bind_run _ _ _ _ _ E1). unfold smt. rewrite Ex. split; [done|].
  split; [done|]. split; [done|]. split; [unfold Exprs.sort; cbn; congruence|].
  intros m Hm. rewrite eval_op. destruct (denote_args args xs m Hm Hxs) as [-> _].
  cbn [mbind option_bind]. rewrite Hv. unfold fn_sem.
  destruct Hxs; [done|]. reflexivity.
Qed.

Lemma find_terms_run es t : Forall (fun a => seen a t) es ->
  exists xs, mapM find_term es t = Ok (Some xs, t) /\ Forall2 denotes es xs.
Proof using Type.
  induction 1 as [|a es (x & Hx & Hd) _ (xs & E & Hxs)]; [by exists []|].
  exists (x :: xs). cbn. rewrite (X_bind_run _ _ t x t) by (unfold find_term; by rewrite Hx).
  rewrite (X_bind_run _ _ _ _ _ E). split; [done|]. by constructor.
Qed.

(** Any node but a variable. *)
Lemma node_run e xs t : Exprs.is_var e = false -> ok e -> Forall2 denotes (Exprs.args e) xs ->
  inv t ->
  exists x t', Expr2Term w e xs t = Ok (Some x, t') /\ inv t' /\ grows t t' /\ denotes e x.
Proof using Hw Σ_fresh Σ_inj.
  intros Hv Hok Hxs Ht. pose proof Hok as (Hwt & Htr & Hsw & _).
  destruct e as [h ps|h c ps|h op fn args ps]; [done|..]; cbn [Exprs.args Expr2Term] in *.
  - destruct (const_yields h c ps Hwt Hsw t) as (x & E & Hx). by exists x, t.
  - apply wt_op in Hwt as [Hargs Hop]. destruct fn as [f|].
    + assert (op = kApplyFunc) as -> by (unfold fn_ok in Hop; by bool_inv).
      by apply apply_run.
    + cbn [translatable] in Htr. bool_inv. destruct (op_yields h op args ps xs Hxs Hop t)
        as (x & E & Hx). exists x, t. rewrite op_branch; [done|by erewrite <- Forall2_length|done| |done].
      apply Forall_fmap. eapply Forall_impl; [done|]. intros a. apply wt_sort_ok.
Qed.

Lemma post_step e t : registered T e -> ok e -> inv t ->
  (Exprs.args e = [] -> pre e t = false) -> Forall (fun a => seen a t) (Exprs.args e) ->
  visits inv grows seen (post w e) [e] t.
Proof using Hw Σ_fresh Σ_inj.
  intros Hr Hok Ht Hpre Hargs. unfold visits, post.
  assert (exists t', PopulateExprMap w e t = Ok (Some (), t') /\ inv t' /\ grows t t' /\ seen e t')
    as (t' & -> & H1 & H2 & H3); [|exists t'; do 3 (split; [done|]); by constructor].
  destruct (Exprs.is_var e) eqn:Ev.
  - destruct e as [h ps| |]; try done. apply var_step; try done.
    specialize (Hpre eq_refl). unfold pre, is_some in Hpre. by destruct (expr_map_ t !! _).
  - destruct (find_terms_run _ _ Hargs) as (xs & E & Hxs).
    destruct (node_run e xs t Ev Hok Hxs Ht) as (x & t1 & E1 & Ht1 & Hg1 & Hx).
    destruct (cache_run e x t1 Hr Ht1 Hx) as (t2 & E2 & Ht2 & Hg2 & Hs2 & _).
    exists t2. unfold PopulateExprMap.
    rewrite (X_bind_run _ _ _ _ _ E), (X_bind_run _ _ _ _ _ E1). split; [exact E2|].
    split; [done|]. split; [by etrans|done].
Qed.

Lemma GetSmtTerm_run e t : registered T e -> ok e -> inv (with_suffix t suffix) ->
  exists x t', GetSmtTerm w e suffix t = Ok (x, t') /\ denotes e x /\ inv t' /\
    expr_map_ t' !! Exprs.id e = Some x.
Proof using Hw Σ_fresh Σ_inj.
  intros Hr Hok Ht. unfold GetSmtTerm.
  destruct (visits_run T pre (post w) ok inv grows seen ok_args) with (e := e) (s := with_suffix t suffix)
    as (t' & E & Ht' & _ & Hd); try done.
  - intros e' s s' _ _ _ [Hg _] (x & Hx & Hd). exists x. split; [by eapply lookup_weaken|done].
  - exact post_step.
  - intros e' s Hp Hr' Hs. unfold pre, is_some in Hp.
    destruct (expr_map_ s !! Exprs.id e') as [x|] eqn:Ex; [|done]. exists x. split; [done|].
    destruct (inv_expr _ Hs _ _ Ex) as (e2 & He2 & Hd).
    pose proof (registered_lookup _ _ Hr'). by simplify_eq.
  - apply Forall_inv in Hd as (x & Hx & Hd). exists x, t'. rewrite E. cbn. by rewrite Hx.
Qed.
End visitor.

(** C7.  The translation to smt-switch is correct and total from empty caches.
    When the symbols an expression needs have distinct names that the solver
    does not have yet, [GetSmtTerm] returns a term (no exception is swallowed,
    no assertion fails), of the sort of the expression, whose value in every
    model is the value of the expression, with variables and functions read at
    the symbols named [root _sEp_ name _sEp_ suffix]. *)
Theorem GetSmtTerm_correct T FT e t :
  registered T e -> wt e = true -> translatable w e = true -> switchable FT e = true ->
  expr_map_ t = ∅ -> func_map_ t = ∅ ->
  (forall k n, (k, n) ∈ syms w suffix e -> n ∉ declared (solver_ t)) ->
  (forall k k' n, (k, n) ∈ syms w suffix e -> (k', n) ∈ syms w suffix e -> k = k') ->
  exists x t', GetSmtTerm w e suffix t = Ok (x, t') /\ sw_has x (Exprs.sort e) /\
    forall m, model_ok m -> Some (sw_eval m x) = eval (sw_env w suffix m) e.
Proof using Hw.
  intros Hr Hwt Ht Hs He Hf Hfresh Hinj.
  destruct (GetSmtTerm_run T FT (syms w suffix e) (solver_ t) Hfresh Hinj e t Hr)
    as (x & t' & E & [Hx Hv] & _).
  - done.
  - split; cbn; rewrite ?He, ?Hf; [done|by intros i x ?%lookup_empty_Some..|by left].
  - by exists x, t'.
Qed.
End correct.

(** The cache does not know suffixes.  Once an expression has a term, every
    later [GetSmtTerm] returns that term, whatever the suffix asked for, and
    neither the caches nor the solver change: until [Reset], the second
    time-stamp of an expression is its first. *)
Theorem GetSmtTerm_cached {SW : SwitchApi} w e suffix t x :
  expr_map_ t !! Exprs.id e = Some x ->
  GetSmtTerm w e suffix t = Ok (x, with_suffix t suffix).
Proof.
  intros Hx. unfold GetSmtTerm. rewrite DepthFirstVisitPrePost_unfold. unfold pre. cbn.
  rewrite Hx. cbn. by rewrite Hx.
Qed.

(** ** An instance

    Syntax trees; a solver is the set of the names it has, and refuses to
    declare a name twice. *)
Module SwitchTerms.
Import Terms.

Inductive STerm := STm (t : Term) | SFun (n : string) (ss : list Sort) (s : Sort).
Inductive SSort := SBase (s : Sort) | SFunction (ss : list Sort) (s : Sort).

Definition base (s : SSort) : option Sort := match s with SBase s => Some s | _ => None end.
Definition tm (x : STerm) : option Term := match x with STm t => Some t | _ => None end.

Definition mk_op (op : SmtOp) (xs : list STerm) : option STerm :=
  ts ← mapM (M := option) tm xs; fmap (M := option) STm (z_app (Z3Api := terms) op ts).

#[export] Instance switch_terms : SwitchApi := {|
  sterm := STerm;
  ssort := SSort;
  solver := gset string;
  make_sort_BOOL := SBase SortBool;
  make_sort_BV n := if 0 <? n then Some (SBase (SortBv n)) else None;
  make_sort_ARRAY a d :=
    match a, d with
    | SBase (SortBv aw), SBase (SortBv dw) => Some (SBase (SortMem aw dw))
    | _, _ => None
    end;
  make_sort_FUNCTION l :=
    ss ← mapM base l;
    match rev ss with r :: ss => Some (SFunction (rev ss) r) | [] => None end;
  make_symbol n s σ :=
    if decide (n ∈ σ) then None else
    Some (match s with SBase s => STm (TConst n s) | SFunction ss s => SFun n ss s end,
          {[n]} ∪ σ);
  make_term_bool b := STm (TBool b);
  make_term_int n s := match s with SBase (SortBv bw) => Some (STm (TBv bw n)) | _ => None end;
  make_term_const_array d s :=
    match d, s with
    | STm d, SBase (SortMem aw dw) => Some (STm (TConstArray aw d))
    | _, _ => None
    end;
  make_term_op := mk_op;
  make_term_Apply xs :=
    match xs with
    | SFun n ss s :: xs => ts ← mapM tm xs; Some (STm (TFun n ss s ts))
    | _ => None
    end;
  solver_reset _ := Some ∅ |}.

Definition shas (x : STerm) (s : Sort) : Prop := match x with STm t => has t s | _ => False end.
Definition seval (m : Model) (x : STerm) : val :=
  match x with STm t => teval m t | _ => VBool false end.

Lemma tms_of xs ss : Forall2 shas xs ss ->
  exists ts, mapM tm xs = Some ts /\ Forall2 has ts ss /\
    forall m, seval m <$> xs = teval m <$> ts.
Proof.
  induction 1 as [|x s xs ss Hx _ (ts & E & Hts & Hv)]; [by exists []|].
  destruct x as [t|? ? ?]; [|done]. exists (t :: ts). cbn. rewrite E. cbn.
  split; [done|]. split; [by constructor|]. intros m. by rewrite Hv.
Qed.

Lemma bases_of l ss : Forall2 (fun x s => x = SBase s) l ss -> mapM base l = Some ss.
Proof. induction 1 as [|x s l ss -> _ IH]; [done|]. cbn. by rewrite IH. Qed.

#[export] Instance switch_laws : SwitchLaws switch_terms.
Proof.
  refine {| sw_sort := (fun x s => x = SBase s) : @ssort switch_terms -> Sort -> Prop;
            sw_fsort := (fun x ss s => x = SFunction ss s) : @ssort switch_terms -> _ -> _ -> Prop;
            sw_has := (shas : @sterm switch_terms -> Sort -> Prop);
            sw_eval := (seval : Model -> @sterm switch_terms -> val);
            sw_fun := (fun x n ss s => x = SFun n ss s) : @sterm switch_terms -> _ -> _ -> _ -> Prop;
            declared := (fun σ => σ) : @solver switch_terms -> gset string |}.
  - intros m [t|? ? ?] s0 Hm Hx; [|done]. by apply teval_sort.
  - done.
  - intros n Hn. cbn. rewrite (proj2 (Z.ltb_lt 0 n) Hn). eauto.
  - intros a d aw dw -> ->. eauto.
  - intros l ss r s Hl -> _. cbn. rewrite (bases_of _ (ss ++ [s])).
    2: { apply Forall2_app; [done|by repeat constructor]. }
    cbn. rewrite rev_app_distr. cbn. rewrite rev_involutive. eauto.
  - intros n t s σ -> Hs Hn. cbn. rewrite decide_False by done. eexists _, _. done.
  - intros n t ss s σ -> Hn. cbn. rewrite decide_False by done. eexists _, _. done.
  - done.
  - intros n t bw -> Hbw Hn. cbn. eexists. split; [done|]. done.
  - intros [d|? ? ?] t aw dw -> Haw Hdw Hd; [|done]. cbn. eexists. split; [done|].
    split; [cbn; eauto 10|]. intros m n Hv. cbn in Hv |- *. by rewrite Hv.
  - intros op xs ss s Hxs Hs. cbn [make_term_op switch_terms].
    destruct (tms_of _ _ Hxs) as (ts & E & Hts & Hv).
    destruct (z_app_law (Z3Laws := terms_laws) op ts ss s Hts Hs) as (z & Ez & Hz & Hzv).
    exists (STm z). split; [unfold mk_op; by rewrite E; cbn [mbind option_bind]; rewrite Ez|].
    split; [done|]. intros m Hm. rewrite Hv. exact (Hzv m Hm).
  - intros f n ss s xs -> Hxs _ Hs. destruct (tms_of _ _ Hxs) as (ts & E & Hts & Hv).
    cbn. rewrite E. cbn. eexists. split; [done|]. split; [by apply has_fun|].
    intros m. by rewrite Hv.
Defined.
End SwitchTerms.

Lemma sample_syms : syms (w_ilas IlaOk.root_world) "0_" sample =
  replicate 3 (inl 2%N, "top_sEp_x_sEp_0_").
Proof. vm_compute. reflexivity. Qed.

Lemma GetSmtTerm_correct_witness :
  match GetSmtTerm (SW := SwitchTerms.switch_terms) (w_ilas IlaOk.root_world) sample "0_"
          (New (SW := SwitchTerms.switch_terms) ∅) with
  | Ok (x, _) => x = SwitchTerms.STm (Terms.TApp SUlt
      [Terms.TApp SAdd [Terms.TConst "top_sEp_x_sEp_0_" (SortBv 8);
                        Terms.TConst "top_sEp_x_sEp_0_" (SortBv 8)];
       Terms.TConst "top_sEp_x_sEp_0_" (SortBv 8)])
  | Fail _ => False
  end.
Proof.
  destruct (GetSmtTerm_correct (SW := SwitchTerms.switch_terms) (SL := SwitchTerms.switch_laws)
    (w_ilas IlaOk.root_world) (IlaOk.ok_parent _ IlaOk.root_world_ok) "0_"
    (nodes_of sample) ∅ sample (New (SW := SwitchTerms.switch_terms) ∅) sample_registered
    eq_refl eq_refl eq_refl eq_refl eq_refl) as (x & t' & E & _).
  - intros k n _. apply not_elem_of_empty.
  - rewrite sample_syms. intros k k' n Hk Hk'.
    apply elem_of_replicate_inv in Hk, Hk'. congruence.
  - assert (Ev : (p ← GetSmtTerm (SW := SwitchTerms.switch_terms) (w_ilas IlaOk.root_world)
      sample "0_" (New (SW := SwitchTerms.switch_terms) ∅); Ok p.1) =
      Ok (SwitchTerms.STm (Terms.TApp SUlt
        [Terms.TApp SAdd [Terms.TConst "top_sEp_x_sEp_0_" (SortBv 8);
                          Terms.TConst "top_sEp_x_sEp_0_" (SortBv 8)];
         Terms.TConst "top_sEp_x_sEp_0_" (SortBv 8)]))) by (vm_compute; reflexivity).
    rewrite E in Ev |- *. by injection Ev.
Defined.

Lemma GetSmtTerm_cached_witness :
  let x := SwitchTerms.STm (Terms.TConst "top_sEp_x_sEp_0_" (SortBv 8)) in
  let v := ExprVar {| h_id := 2; h_name := "x"; h_host := Some 1%N; h_sort := SortBv 8 |} [] in
  match GetSmtTerm (SW := SwitchTerms.switch_terms) (w_ilas IlaOk.root_world) v "0_"
          (New (SW := SwitchTerms.switch_terms) ∅) with
  | Ok (y, t) => y = x /\
      GetSmtTerm (SW := SwitchTerms.switch_terms) (w_ilas IlaOk.root_world) v "1_" t =
      Ok (x, with_suffix t "1_")
  | Fail _ => False
  end.
Proof.
  intros x v.
  assert (Ev : (p ← GetSmtTerm (SW := SwitchTerms.switch_terms) (w_ilas IlaOk.root_world) v "0_"
    (New (SW := SwitchTerms.switch_terms) ∅); Ok (p.1, expr_map_ p.2 !! 2%N)) = Ok (x, Some x))
    by (vm_compute; reflexivity).
  destruct (GetSmtTerm _ v "0_" _) as [[y t]|] eqn:E; [|by vm_compute in E].
  injection Ev as Hy Ht. split; [exact Hy|].
  exact (GetSmtTerm_cached (SW := SwitchTerms.switch_terms) (w_ilas IlaOk.root_world) v "1_" t x Ht).
Defined.
