(* ===== verification/ExprOp.v ===== *)
(** * Building expressions

    The constructors of [src/ila/ast/expr_op.cc], [expr_var.cc], [expr_const.cc]
    and [func.cc]: one definition per class, in the order the C++ runs it - the
    base constructor fixes arguments, parameters and host, then the guards of
    the class, then the sort. *)
From S2P Require Import Prelude Sort Values Container Expr World.
Local Open Scope Z_scope.

(** ** Variables, constants and functions *)
Module ExprVars.
Definition New (name : string) (s : Sort) : M Expr :=
  id ← fresh;
  mret (ExprVar {| h_id := id; h_name := name; h_host := None; h_sort := s |} []).

Definition ExprVar_bool (name : string) : M Expr := New name Sorts.MakeBoolSort.
Definition ExprVar_bv (name : string) (bit_width : Z) : M Expr :=
  New name (Sorts.MakeBvSort bit_width).
Definition ExprVar_mem (name : string) (addr_width data_width : Z) : M Expr :=
  New name (Sorts.MakeMemSort addr_width data_width).
End ExprVars.

Module ExprConsts.
Definition New (v : ConstVal) (s : Sort) : M Expr :=
  id ← fresh;
  mret (ExprConst {| h_id := id; h_name := Symbol.default_name id; h_host := None;
                     h_sort := s |} v []).

Definition ExprConst_bool (bool_val : bool) : M Expr :=
  New (CBool bool_val) Sorts.MakeBoolSort.

(** Shifting a [uint64_t] by [bit_width < 64]. *)
Definition ExprConst_bv (bv_val : Z) (bit_width : Z) : M Expr :=
  check_ (0 <? bit_width);;
  check_ ((SortValue.BvValTypeBitWidth <=? bit_width) || (Z.shiftr bv_val bit_width =? 0));;
  New (CBv bv_val) (Sorts.MakeBvSort bit_width).

Definition ExprConst_mem (mem_val : SortValue.MemVal) (addr_width data_width : Z) : M Expr :=
  New (CMem mem_val) (Sorts.MakeMemSort addr_width data_width).
End ExprConsts.

Module Funcs.
Definition New (name : string) (out : Sort) (args : list Sort) : M Func :=
  id ← fresh;
  mret {| f_id := id; f_name := name; f_host := None; out_ := out; args_ := args |}.

Fixpoint check_sorts (l : list (Expr * Sort)) : M unit :=
  match l with
  | [] => mret ()
  | (a, s) :: l => check_ (Sorts.Equal (Exprs.sort a) s);; check_sorts l
  end.
Definition CheckSort (f : Func) (args : list Expr) : M bool :=
  check_ (length args =? length (args_ f))%nat;;
  check_sorts (zip args (args_ f));;
  mret true.
End Funcs.

(** ** [class ExprOp] *)
Module ExprOps.
Section ops.
Context {L : Layout}.

(** [hosts.find(child) == hosts.end()] for every child. *)
Definition is_leaf (w : World) (hosts : list objid) (h : objid) : bool :=
  match w_ilas w !! h with
  | Some l => forallb (fun c => bool_decide (c ∉ hosts)) (KeyVec.vec_ (childs_ l))
  | None => true
  end.

(** [GetHost]: the hosts of the arguments, then the first leaf among them. *)
Definition hosts_of (args : list Expr) : list objid :=
  remove_dups (omap Exprs.host args).
Definition GetHost (w : World) (args : list Expr) : option objid :=
  let hosts := hosts_of args in
  head (filter (fun h => is_leaf w hosts h = true) (set_order hosts)).

(** The part of the node the base constructor fills in. *)
Record Base := { b_id : objid; b_host : option objid; b_args : list Expr; b_params : list Z }.

Definition ExprOpBase (args : list Expr) (params : list Z) : M Base :=
  id ← fresh;
  host ← gets (fun w => GetHost w args);
  mret {| b_id := id; b_host := host; b_args := args; b_params := params |}.

Definition ExprOp1 (arg : Expr) : M Base := ExprOpBase [arg] [].
Definition ExprOp2 (arg0 arg1 : Expr) : M Base := ExprOpBase [arg0; arg1] [].
Definition ExprOp3 (arg0 arg1 arg2 : Expr) : M Base := ExprOpBase [arg0; arg1; arg2] [].
Definition ExprOp1p (arg0 : Expr) (param1 : Z) : M Base := ExprOpBase [arg0] [param1].
Definition ExprOp1pp (arg0 : Expr) (param1 param2 : Z) : M Base :=
  ExprOpBase [arg0] [param1; param2].
Definition ExprOpVec (args : list Expr) : M Base := ExprOpBase args [].

(** [set_sort], the last step of every constructor. *)
Definition set_sort (b : Base) (op : AstUidExprOp) (s : Sort) : Expr :=
  ExprOp {| h_id := b_id b; h_name := Symbol.default_name (b_id b);
            h_host := b_host b; h_sort := s |} op None (b_args b) (b_params b).

Definition GetSortBinaryOperation (e0 e1 : Expr) : M Sort :=
  let s0 := Exprs.sort e0 in
  let s1 := Exprs.sort e1 in
  assert_ (Sorts.Equal s0 s1);; mret s0.

Definition GetSortBinaryComparison (e0 e1 : Expr) : M Sort :=
  let s0 := Exprs.sort e0 in
  let s1 := Exprs.sort e1 in
  assert_ (Sorts.Equal s0 s1);; mret Sorts.MakeBoolSort.

Definition ExprOpNeg (arg : Expr) : M Expr :=
  b ← ExprOp1 arg;
  assert_ (Exprs.is_bv arg 0);;
  mret (set_sort b kNegate (Exprs.sort arg)).

Definition ExprOpNot (arg : Expr) : M Expr :=
  b ← ExprOp1 arg;
  assert_ (Exprs.is_bool arg);;
  mret (set_sort b kNot (Exprs.sort arg)).

Definition ExprOpCompl (arg : Expr) : M Expr :=
  b ← ExprOp1 arg;
  assert_ (Exprs.is_bv arg 0);;
  mret (set_sort b kComplement (Exprs.sort arg)).

(** A binary operator whose only guard is the equality of the sorts. *)
Definition binary_op (op : AstUidExprOp) (arg0 arg1 : Expr) : M Expr :=
  b ← ExprOp2 arg0 arg1;
  s ← GetSortBinaryOperation arg0 arg1;
  mret (set_sort b op s).

Definition ExprOpAnd (arg0 arg1 : Expr) : M Expr := binary_op kAnd arg0 arg1.
Definition ExprOpOr (arg0 arg1 : Expr) : M Expr := binary_op kOr arg0 arg1.
Definition ExprOpXor (arg0 arg1 : Expr) : M Expr := binary_op kXor arg0 arg1.

(** The shifts also require the first operand to be a bit-vector. *)
Definition shift_op (op : AstUidExprOp) (bv n : Expr) : M Expr :=
  b ← ExprOp2 bv n;
  assert_ (Exprs.is_bv bv 0);;
  s ← GetSortBinaryOperation bv n;
  mret (set_sort b op s).

Definition ExprOpShl (bv n : Expr) : M Expr := shift_op kShiftLeft bv n.
Definition ExprOpAshr (bv n : Expr) : M Expr := shift_op kArithShiftRight bv n.
Definition ExprOpLshr (bv n : Expr) : M Expr := shift_op kLogicShiftRight bv n.

Definition ExprOpAdd (arg0 arg1 : Expr) : M Expr := binary_op kAdd arg0 arg1.
Definition ExprOpSub (arg0 arg1 : Expr) : M Expr := binary_op kSubtract arg0 arg1.
Definition ExprOpDiv (arg0 arg1 : Expr) : M Expr := binary_op kDivide arg0 arg1.
Definition ExprOpSRem (arg0 arg1 : Expr) : M Expr := binary_op kSignedRemainder arg0 arg1.
Definition ExprOpURem (arg0 arg1 : Expr) : M Expr := binary_op kUnsignedRemainder arg0 arg1.
Definition ExprOpSMod (arg0 arg1 : Expr) : M Expr := binary_op kSignedModular arg0 arg1.
Definition ExprOpMul (arg0 arg1 : Expr) : M Expr := binary_op kMultiply arg0 arg1.

Definition comparison_op (op : AstUidExprOp) (arg0 arg1 : Expr) : M Expr :=
  b ← ExprOp2 arg0 arg1;
  s ← GetSortBinaryComparison arg0 arg1;
  mret (set_sort b op s).

Definition ExprOpEq (arg0 arg1 : Expr) : M Expr := comparison_op kEqual arg0 arg1.
Definition ExprOpLt (arg0 arg1 : Expr) : M Expr := comparison_op kLessThan arg0 arg1.
Definition ExprOpGt (arg0 arg1 : Expr) : M Expr := comparison_op kGreaterThan arg0 arg1.
Definition ExprOpUlt (arg0 arg1 : Expr) : M Expr :=
  comparison_op kUnsignedLessThan arg0 arg1.
Definition ExprOpUgt (arg0 arg1 : Expr) : M Expr :=
  comparison_op kUnsignedGreaterThan arg0 arg1.

Definition ExprOpLoad (mem addr : Expr) : M Expr :=
  b ← ExprOp2 mem addr;
  aw ← lift (Sorts.addr_width (Exprs.sort mem));
  w ← lift (Sorts.bit_width (Exprs.sort addr));
  assert_ (aw =? w);;
  dw ← lift (Sorts.data_width (Exprs.sort mem));
  mret (set_sort b kLoad (Sorts.MakeBvSort dw)).

Definition ExprOpStore (mem addr data : Expr) : M Expr :=
  b ← ExprOp3 mem addr data;
  aw ← lift (Sorts.addr_width (Exprs.sort mem));
  w ← lift (Sorts.bit_width (Exprs.sort addr));
  assert_ (aw =? w);;
  dw ← lift (Sorts.data_width (Exprs.sort mem));
  w ← lift (Sorts.bit_width (Exprs.sort data));
  assert_ (dw =? w);;
  mret (set_sort b kStore (Exprs.sort mem)).

Definition ExprOpConcat (hi lo : Expr) : M Expr :=
  b ← ExprOp2 hi lo;
  assert_ (Exprs.is_bv hi 0);;
  assert_ (Exprs.is_bv lo 0);;
  wh ← lift (Sorts.bit_width (Exprs.sort hi));
  wl ← lift (Sorts.bit_width (Exprs.sort lo));
  mret (set_sort b kConcatenate (Sorts.MakeBvSort (wh + wl))).

Definition ExprOpExtract (bv : Expr) (hi lo : Z) : M Expr :=
  b ← ExprOp1pp bv hi lo;
  assert_ (Exprs.is_bv bv 0);;
  assert_ (lo <=? hi);;
  mret (set_sort b kExtract (Sorts.MakeBvSort (hi - lo + 1))).

Definition extend_op (op : AstUidExprOp) (bv : Expr) (bit_width : Z) : M Expr :=
  b ← ExprOp1p bv bit_width;
  assert_ (Exprs.is_bv bv 0);;
  w ← lift (Sorts.bit_width (Exprs.sort bv));
  assert_ (w <=? bit_width);;
  mret (set_sort b op (Sorts.MakeBvSort bit_width)).
Definition ExprOpZExt (bv : Expr) (bit_width : Z) : M Expr :=
  extend_op kZeroExtend bv bit_width.
Definition ExprOpSExt (bv : Expr) (bit_width : Z) : M Expr :=
  extend_op kSignedExtend bv bit_width.

Definition rotate_op (op : AstUidExprOp) (bv : Expr) (immediate : Z) : M Expr :=
  b ← ExprOp1p bv immediate;
  assert_ (Exprs.is_bv bv 0);;
  assert_ (0 <=? immediate);;
  mret (set_sort b op (Exprs.sort bv)).
Definition ExprOpLRotate (bv : Expr) (immediate : Z) : M Expr :=
  rotate_op kRotateLeft bv immediate.
Definition ExprOpRRotate (bv : Expr) (immediate : Z) : M Expr :=
  rotate_op kRotateRight bv immediate.

Definition ExprOpAppFunc (f : Func) (args : list Expr) : M Expr :=
  b ← ExprOpVec args;
  ok ← Funcs.CheckSort f args;
  assert_ ok;;
  mret (ExprOp {| h_id := b_id b; h_name := Symbol.default_name (b_id b);
                  h_host := b_host b; h_sort := out_ f |}
          kApplyFunc (Some f) (b_args b) (b_params b)).

Definition ExprOpImply (ante cons : Expr) : M Expr :=
  b ← ExprOp2 ante cons;
  assert_ (Exprs.is_bool ante);;
  assert_ (Exprs.is_bool cons);;
  mret (set_sort b kImply Sorts.MakeBoolSort).

Definition ExprOpIte (cnd true_expr false_expr : Expr) : M Expr :=
  b ← ExprOp3 cnd true_expr false_expr;
  assert_ (Exprs.is_bool cnd);;
  assert_ (Sorts.Equal (Exprs.sort true_expr) (Exprs.sort false_expr));;
  mret (set_sort b kIfThenElse (Exprs.sort true_expr)).

(** ** What a constructor call does *)

(** The world after one object was created, and the node it holds. *)
Definition bump (w : World) : World :=
  {| counter_ := counter_ w + 1; w_ilas := w_ilas w; w_instrs := w_instrs w |}.
Definition node_hdr (w : World) (args : list Expr) (s : Sort) : Hdr :=
  let id := (counter_ w + 1)%N in
  {| h_id := id; h_name := Symbol.default_name id; h_host := GetHost w args; h_sort := s |}.
Definition node (w : World) (op : AstUidExprOp) (s : Sort) (args : list Expr)
    (ps : list Z) : Expr :=
  ExprOp (node_hdr w args s) op None args ps.

Definition built (w : World) (op : AstUidExprOp) (s : Sort) (args : list Expr)
    (ps : list Z) : Res (Expr * World) := Ok (node w op s args ps, bump w).

(** The calls on a bit-vector that is well-sorted. *)
Lemma is_bv_inv a : Exprs.is_bv a 0 = true <-> exists w, Exprs.sort a = SortBv w.
Proof.
  unfold Exprs.is_bv. destruct (Exprs.sort a); cbn; try naive_solver.
Qed.

Lemma is_bool_inv a : Exprs.is_bool a = true <-> Exprs.sort a = SortBool.
Proof. unfold Exprs.is_bool. destruct (Exprs.sort a); cbn; naive_solver. Qed.

(** The dispatch over the classes: the call that builds [op]. *)
Definition construct (op : AstUidExprOp) (args : list Expr) (ps : list Z) :
    option (M Expr) :=
  match op, args, ps with
  | kNegate, [a], [] => Some (ExprOpNeg a)
  | kNot, [a], [] => Some (ExprOpNot a)
  | kComplement, [a], [] => Some (ExprOpCompl a)
  | kAnd, [a; b], [] => Some (ExprOpAnd a b)
  | kOr, [a; b], [] => Some (ExprOpOr a b)
  | kXor, [a; b], [] => Some (ExprOpXor a b)
  | kShiftLeft, [a; b], [] => Some (ExprOpShl a b)
  | kArithShiftRight, [a; b], [] => Some (ExprOpAshr a b)
  | kLogicShiftRight, [a; b], [] => Some (ExprOpLshr a b)
  | kAdd, [a; b], [] => Some (ExprOpAdd a b)
  | kSubtract, [a; b], [] => Some (ExprOpSub a b)
  | kMultiply, [a; b], [] => Some (ExprOpMul a b)
  | kEqual, [a; b], [] => Some (ExprOpEq a b)
  | kLessThan, [a; b], [] => Some (ExprOpLt a b)
  | kGreaterThan, [a; b], [] => Some (ExprOpGt a b)
  | kUnsignedLessThan, [a; b], [] => Some (ExprOpUlt a b)
  | kUnsignedGreaterThan, [a; b], [] => Some (ExprOpUgt a b)
  | kLoad, [a; b], [] => Some (ExprOpLoad a b)
  | kStore, [a; b; c], [] => Some (ExprOpStore a b c)
  | kConcatenate, [a; b], [] => Some (ExprOpConcat a b)
  | kExtract, [a], [hi; lo] => Some (ExprOpExtract a hi lo)
  | kZeroExtend, [a], [w] => Some (ExprOpZExt a w)
  | kSignedExtend, [a], [w] => Some (ExprOpSExt a w)
  | kImply, [a; b], [] => Some (ExprOpImply a b)
  | kIfThenElse, [a; b; c], [] => Some (ExprOpIte a b c)
  | kDivide, [a; b], [] => Some (ExprOpDiv a b)
  | kRotateLeft, [a], [k] => Some (ExprOpLRotate a k)
  | kRotateRight, [a], [k] => Some (ExprOpRRotate a k)
  | kSignedRemainder, [a; b], [] => Some (ExprOpSRem a b)
  | kUnsignedRemainder, [a; b], [] => Some (ExprOpURem a b)
  | kSignedModular, [a; b], [] => Some (ExprOpSMod a b)
  | _, _, _ => None
  end.

(** The sort a constructor gives, from the sorts of its arguments: what the
    guards of [expr_op.cc] let through. *)
Definition ctor_sort (op : AstUidExprOp) (ps : list Z) (ss : list Sort) : option Sort :=
  match op, ps, ss with
  | (kNegate | kComplement), [], [s] => if Sorts.is_bv s 0 then Some s else None
  | kNot, [], [s] => if Sorts.is_bool s then Some s else None
  | (kAnd | kOr | kXor | kAdd | kSubtract | kMultiply | kDivide | kSignedRemainder
     | kUnsignedRemainder | kSignedModular), [], [s; s'] =>
      if Sorts.Equal s s' then Some s else None
  | (kShiftLeft | kArithShiftRight | kLogicShiftRight), [], [s; s'] =>
      if Sorts.is_bv s 0 && Sorts.Equal s s' then Some s else None
  | (kEqual | kLessThan | kGreaterThan | kUnsignedLessThan | kUnsignedGreaterThan), [],
      [s; s'] => if Sorts.Equal s s' then Some SortBool else None
  | kLoad, [], [SortMem aw dw; SortBv w] => if aw =? w then Some (SortBv dw) else None
  | kStore, [], [SortMem aw dw; SortBv w; SortBv w'] =>
      if (aw =? w) && (dw =? w') then Some (SortMem aw dw) else None
  | kConcatenate, [], [SortBv wh; SortBv wl] => Some (SortBv (wh + wl))
  | kExtract, [hi; lo], [SortBv _] => if lo <=? hi then Some (SortBv (hi - lo + 1)) else None
  | (kZeroExtend | kSignedExtend), [w'], [SortBv w] =>
      if w <=? w' then Some (SortBv w') else None
  | (kRotateLeft | kRotateRight), [k], [SortBv w] =>
      if 0 <=? k then Some (SortBv w) else None
  | kImply, [], [SortBool; SortBool] => Some SortBool
  | kIfThenElse, [], [SortBool; s; s'] => if Sorts.Equal s s' then Some s else None
  | _, _, _ => None
  end.

(** One equation for all the classes: a call builds the node, or asserts. *)
Lemma construct_run op args ps m w :
  construct op args ps = Some m ->
  m w = match ctor_sort op ps (Exprs.sort <$> args) with
        | Some s => built w op s args ps
        | None => Fail EAssert
        end.
Proof.
  intros H. destruct op; cbn [construct] in H; try discriminate H;
    repeat match type of H with
      | context [match ?x with _ => _ end] => destruct x; try discriminate H
      end; injection H as <-;
    cbn [ctor_sort fmap list_fmap].
  all: cbv [ExprOpNeg ExprOpNot ExprOpCompl ExprOpAnd ExprOpOr ExprOpXor ExprOpShl ExprOpAshr
    ExprOpLshr ExprOpAdd ExprOpSub ExprOpDiv ExprOpSRem ExprOpURem ExprOpSMod ExprOpMul ExprOpEq
    ExprOpLt ExprOpGt ExprOpUlt ExprOpUgt ExprOpLoad ExprOpStore ExprOpConcat ExprOpExtract
    ExprOpZExt ExprOpSExt ExprOpLRotate ExprOpRRotate ExprOpImply ExprOpIte binary_op shift_op
    comparison_op extend_op rotate_op ExprOp1 ExprOp2 ExprOp3 ExprOp1p ExprOp1pp ExprOpBase
    GetSortBinaryOperation GetSortBinaryComparison assert_ lift mbind mret ST_bind ST_ret Res_bind
    Res_ret fresh gets].
  all: unfold Exprs.is_bv, Exprs.is_bool, ila_assert; cbn.
  all: repeat case_inner; try reflexivity.
  all: cbn in *; simplify_eq; bool_inv; try reflexivity; try congruence; lia.
Qed.

(** What the guards let through although the operator has no meaning there:
    logic, arithmetic and order on memories (arithmetic and order also on
    Booleans), and extractions that reach outside the operand. *)
Definition permissive (op : AstUidExprOp) (ps : list Z) (ss : list Sort) : bool :=
  match op, ps, ss with
  | (kAnd | kOr | kXor), [], [s; s'] =>
      Sorts.Equal s s' && negb (Sorts.is_bv s 0 || Sorts.is_bool s)
  | (kAdd | kSubtract | kMultiply | kDivide | kSignedRemainder | kUnsignedRemainder
     | kSignedModular | kLessThan | kGreaterThan | kUnsignedLessThan
     | kUnsignedGreaterThan), [], [s; s'] =>
      Sorts.Equal s s' && negb (Sorts.is_bv s 0)
  | kExtract, [hi; lo], [SortBv w] => (lo <=? hi) && ((lo <? 0) || (w <=? hi))
  | _, _, _ => false
  end.

Lemma Equal_false s s' : s <> s' -> Sorts.Equal s s' = false.
Proof. intros H. destruct (Sorts.Equal s s') eqn:E; [|done]. by apply Sorts.Equal_eq in E. Qed.

(** The guards compared with the sort discipline of the operators. *)
Lemma ctor_sort_spec op ps ss :
  Forall (fun s => sort_ok s = true) ss ->
  match op_sort op ps ss with
  | Some s => ctor_sort op ps ss = Some s
  | None => is_some (ctor_sort op ps ss) = permissive op ps ss
  end.
Proof.
  intros Hss. destruct op, ps as [|p [|q [|]]], ss as [|a [|b [|c [|]]]]; try reflexivity;
    cbn [op_sort ctor_sort permissive].
  all: repeat match goal with H : Forall _ (_ :: _) |- _ => apply Forall_cons in H as [? H] end.
  all: unfold logic2_sort, cmp2_sort, bv2_sort.
  all: try (destruct (decide (b = c)) as [->|?];
              [rewrite Sorts.Equal_refl|rewrite Equal_false by done];
              destruct a; try reflexivity; by rewrite decide_False by done).
  all: try (destruct (decide (a = b)) as [->|?];
              [rewrite Sorts.Equal_refl; destruct b|rewrite Equal_false by done; destruct a, b]).
  all: cbn; try reflexivity; try congruence.
  all: try destruct a; try destruct b; try destruct c; cbn in *; try reflexivity.
  all: repeat case_inner; bool_inv; try congruence; try lia; try done.
Qed.

Lemma wt_node w op s args ps :
  Forall (fun a => wt a = true) args -> op_sort op ps (Exprs.sort <$> args) = Some s ->
  wt (node w op s args ps) = true.
Proof. intros. by apply wt_op. Qed.

(** C26.  What every operator constructor does.  On well-sorted arguments,
    each class accepts exactly the applications that have a sort (or are on the
    short list [permissive]) and asserts on the rest; an accepted application
    yields a node with the next id, the host [GetHost] picks, the sort the
    discipline gives, which is well-sorted and evaluates to the operator applied to
    the values of the arguments. *)
Theorem constructors_spec op args ps m w :
  construct op args ps = Some m ->
  Forall (fun a => wt a = true) args ->
  match op_sort op ps (Exprs.sort <$> args) with
  | Some s =>
      exists e, m w = Ok (e, bump w) /\ Exprs.sort e = s /\ wt e = true /\
        Exprs.id e = (counter_ w + 1)%N /\ Exprs.host e = GetHost w args /\
        forall ρ, eval ρ e = evals ρ args ≫= op_sem op ps
  | None =>
      if permissive op ps (Exprs.sort <$> args)
      then exists e, m w = Ok (e, bump w) /\ wt e = false
      else m w = Fail EAssert
  end.
Proof.
  intros Hc Hargs. rewrite (construct_run _ _ _ _ w Hc).
  assert (Hss : Forall (fun s => sort_ok s = true) (Exprs.sort <$> args)).
  { apply Forall_fmap. eapply Forall_impl; [done|]. apply wt_sort_ok. }
  pose proof (ctor_sort_spec op ps _ Hss) as Hs.
  destruct (op_sort op ps _) as [s|] eqn:E.
  - rewrite Hs. eexists. split; [done|]. do 2 (split; [done || by apply wt_node|]).
    do 2 (split; [done|]). intros ρ. unfold node. by rewrite eval_op.
  - rewrite <- Hs. destruct (ctor_sort _ _ _) as [s|]; [|done].
    eexists. split; [done|]. apply not_true_iff_false. intros Hw.
    apply wt_op in Hw as [_ Hw]. cbn in Hw. congruence.
Qed.
End ops.

(** ** Hosts *)
Section host.
Context {L : Layout}.

(** A child is created after its parent. *)
Definition childs_younger (w : World) : Prop := forall h l c,
  w_ilas w !! h = Some l -> c ∈ KeyVec.vec_ (childs_ l) -> (h < c)%N.

Lemma is_leaf_spec w hosts h : is_leaf w hosts h = true <->
  forall l c, w_ilas w !! h = Some l -> c ∈ KeyVec.vec_ (childs_ l) -> c ∉ hosts.
Proof.
  unfold is_leaf. destruct (w_ilas w !! h) as [l|]; [|naive_solver].
  rewrite forallb_forall. setoid_rewrite bool_decide_eq_true.
  setoid_rewrite <- list_elem_of_In. naive_solver.
Qed.

Lemma elem_of_hosts args h : h ∈ hosts_of args <-> exists a, a ∈ args /\ Exprs.host a = Some h.
Proof. unfold hosts_of. rewrite elem_of_remove_dups, list_elem_of_omap. naive_solver. Qed.

Lemma youngest (l : list objid) : l <> [] -> exists h, h ∈ l /\ forall c, c ∈ l -> (c <= h)%N.
Proof.
  induction l as [|h l IH]; [done|]. intros _. destruct l as [|h' l].
  - exists h. split; [by left|]. intros c ->%list_elem_of_singleton. lia.
  - destruct IH as (k & Hk & Hmax); [done|]. destruct (decide (k <= h)%N).
    + exists h. split; [by left|]. intros c [->|Hc]%elem_of_cons; [lia|].
      specialize (Hmax c Hc). lia.
    + exists k. split; [by right|]. intros c [->|Hc]%elem_of_cons; [lia|auto].
Qed.

(** The host of an operation.  Whatever the iteration order of the pointer
    set, [GetHost] returns the host of one of the arguments none of whose
    children hosts another argument; it returns null only when no argument has
    a host. *)
Theorem GetHost_leaf w args :
  childs_younger w ->
  match GetHost w args with
  | Some h => (exists a, a ∈ args /\ Exprs.host a = Some h) /\
      forall l c a, w_ilas w !! h = Some l -> c ∈ KeyVec.vec_ (childs_ l) ->
        a ∈ args -> Exprs.host a <> Some c
  | None => forall a, a ∈ args -> Exprs.host a = None
  end.
Proof.
  intros Hy. unfold GetHost.
  assert (Hp : forall h, h ∈ set_order (hosts_of args) <-> h ∈ hosts_of args).
  { intros h. unfold hosts_of. by rewrite (set_order_perm _ (NoDup_remove_dups _)). }
  destruct (filter _ _) as [|h hs] eqn:E; cbn.
  - intros a Ha. destruct (Exprs.host a) as [h0|] eqn:Hh; [|done]. exfalso.
    destruct (youngest (hosts_of args)) as (h & Hh1 & Hmax).
    { intros Hn. assert (h0 ∈ hosts_of args) by (apply elem_of_hosts; eauto).
      rewrite Hn in *. by apply elem_of_nil in H. }
    apply Hp in Hh1. eapply (filter_nil_not_elem_of _ _ h); [exact E| |exact Hh1].
    apply is_leaf_spec. intros l c Hl Hc Hc'. specialize (Hmax _ Hc').
    specialize (Hy _ _ _ Hl Hc). lia.
  - assert (Hin : h ∈ filter (fun h => is_leaf w (hosts_of args) h = true)
                    (set_order (hosts_of args))) by (rewrite E; by left).
    apply list_elem_of_filter in Hin as [Hl Hin]. apply Hp, elem_of_hosts in Hin.
    split; [done|]. intros l c a Hwl Hc Ha Hac.
    eapply is_leaf_spec; [exact Hl|exact Hwl|exact Hc|]. apply elem_of_hosts. eauto.
Qed.
End host.

(** A bit-vector variable of an ILA-less world, for concrete inputs. *)
Definition bv_var (id : objid) (width : Z) : Expr :=
  ExprVar {| h_id := id; h_name := Symbol.default_name id; h_host := None;
             h_sort := SortBv width |} [].

Lemma GetHost_leaf_witness :
  let h := fun id m => ExprVar {| h_id := id; h_name := "x"; h_host := Some m;
                                  h_sort := SortBool |} [] in
  GetHost (L := layout_id) IlaOk.child_world [h 3%N 1%N; h 4%N 2%N] = Some 2%N /\
  exists a, a ∈ [h 3%N 1%N; h 4%N 2%N] /\ Exprs.host a = Some 2%N.
Proof.
  intros h. split; [reflexivity|].
  refine (proj1 (GetHost_leaf (L := layout_id) IlaOk.child_world [h 3%N 1%N; h 4%N 2%N] _)).
  intros m l c. unfold IlaOk.child_world; cbn. rewrite !lookup_insert_Some.
  intros [[<- <-]|[_ [[<- <-]|[_ [<- <-]%lookup_singleton_Some]]]]; cbn.
  - intros ->%list_elem_of_singleton. lia.
  - by intros ?%elem_of_nil.
  - by intros ?%elem_of_nil.
Defined.

Definition empty_world : World := {| counter_ := 10; w_ilas := ∅; w_instrs := ∅ |}.

Lemma constructors_spec_witness :
  let L := layout_id in
  (exists e, ExprOpExtract (bv_var 1 8) 5 2 empty_world = Ok (e, bump empty_world) /\
     Exprs.sort e = SortBv 4) /\
  ExprOpAdd (bv_var 1 8) (bv_var 2 4) empty_world = Fail EAssert.
Proof.
  split.
  - destruct (constructors_spec (L := layout_id) kExtract [bv_var 1 8] [5; 2]
      _ empty_world eq_refl ltac:(repeat constructor)) as (e & He & Hs & _). eauto.
  - apply (constructors_spec (L := layout_id) kAdd [bv_var 1 8; bv_var 2 4] []
      _ empty_world eq_refl). repeat constructor.
Defined.
End ExprOps.
