(* ===== verification/VarContainer.v ===== *)
(** * Containers of variables

    [include/ilang/ila/var_container.h], [src/ila/var_container.cc]: vectors and
    structs of state or input variables, how [Make] builds one from a sort, and
    the transformers between them.  A container is never mutated, so it is the
    value it holds; an operation that a class does not override stops at the
    assertion of [invalid_operation_error_].

    Keys of an [std::unordered_map] are enumerated in the order of stdpp's
    [map_to_list]; every use either looks members up by name or reorders them by
    the members of a sort, so the order is immaterial.  A map built from, or
    extended by, a sequence of pairs keeps the first pair of every key. *)
From S2P Require Import Prelude Sort Values Container Expr World ExprOp.
Local Open Scope Z_scope.

Section VarContainer_ind.
Context (P : VarContainer -> Prop).
Context (Hprim : forall e, P (VarPrimitive e))
  (Hvec : forall t l, Forall P l -> P (VarVector t l))
  (Hstruct : forall t l, Forall (fun p => P p.2) l -> P (VarStruct t l)).

Fixpoint VarContainer_ind' (v : VarContainer) : P v :=
  match v with
  | VarPrimitive e => Hprim e
  | VarVector t l => Hvec t l
      ((fix go l : Forall P l :=
          match l with
          | [] => Forall_nil_2 _
          | v :: l => Forall_cons_2 _ _ _ (VarContainer_ind' v) (go l)
          end) l)
  | VarStruct t l => Hstruct t l
      ((fix go l : Forall (fun p => P p.2) l :=
          match l with
          | [] => Forall_nil_2 _
          | p :: l => Forall_cons_2 _ _ _ (VarContainer_ind' p.2) (go l)
          end) l)
  end.
End VarContainer_ind.

Module Vars.
Inductive ContainerType := primitive | vector | structure.

Definition sort (v : VarContainer) : Sort :=
  match v with
  | VarPrimitive e => Exprs.sort e
  | VarVector t _ => t
  | VarStruct t _ => t
  end.

Definition container_type (v : VarContainer) : ContainerType :=
  match v with
  | VarPrimitive _ => primitive
  | VarVector _ _ => vector
  | VarStruct _ _ => structure
  end.

Definition is_primitive (v : VarContainer) : bool :=
  if v is VarPrimitive _ then true else false.
Definition is_vector (v : VarContainer) : bool :=
  if v is VarVector _ _ then true else false.
Definition is_struct (v : VarContainer) : bool :=
  if v is VarStruct _ _ then true else false.

(** [invalid_operation_error_]. *)
Definition invalid {A} : Res A := Fail EAssert.

Definition from_primitive_expr (p : Expr) : VarContainer := VarPrimitive p.

Definition to_primitive_expr (v : VarContainer) : Res Expr :=
  match v with VarPrimitive e => Ok e | _ => invalid end.

Definition elements (v : VarContainer) : Res (list VarContainer) :=
  match v with VarVector _ l => Ok l | _ => invalid end.

Definition size (v : VarContainer) : Res nat :=
  match v with VarVector _ l => Ok (length l) | _ => invalid end.

Definition nth (v : VarContainer) (idx : nat) : Res VarContainer :=
  match v with
  | VarVector _ l => match l !! idx with Some x => Ok x | None => Fail EAssert end
  | _ => invalid
  end.

Definition members (v : VarContainer) : Res (list (string * VarContainer)) :=
  match v with VarStruct _ l => Ok l | _ => invalid end.

(** The first member of that name. *)
Definition member (v : VarContainer) (name : string) : Res VarContainer :=
  match v with
  | VarStruct _ l =>
      match KeyVec.lookup_first name l with Some x => Ok x | None => Fail EAssert end
  | _ => invalid
  end.

(** [visit_with]: the container itself, then its elements. *)
Fixpoint visits (v : VarContainer) : list VarContainer :=
  v :: match v with
       | VarPrimitive _ => []
       | VarVector _ l => flat_map visits l
       | VarStruct _ l => flat_map (fun p => visits p.2) l
       end.
Definition visit_with {S} (visit : VarContainer -> S -> M S) (v : VarContainer) (s : S) : M S :=
  foldM visit (visits v) s.

(** ** [Make] *)
Fixpoint Make (name : string) (t : Sort) : M VarContainer :=
  let prefix := name +:+ "_" in
  match t with
  | SortBool => e ← ExprVars.ExprVar_bool name; mret (VarPrimitive e)
  | SortBv w => e ← ExprVars.ExprVar_bv name w; mret (VarPrimitive e)
  | SortMem aw dw => e ← ExprVars.ExprVar_mem name aw dw; mret (VarPrimitive e)
  | SortVector da n =>
      vc ← (fix make_elems (i k : nat) : M (list VarContainer) :=
              match k with
              | O => mret []
              | S k =>
                  x ← Make (prefix +:+ pretty (Z.of_nat i) +:+ "_") da;
                  xs ← make_elems (S i) k; mret (x :: xs)
              end) O (Z.to_nat n);
      mret (VarVector t vc)
  | SortStruct ms =>
      sc ← (fix make_members ms : M (list (string * VarContainer)) :=
              match ms with
              | [] => mret []
              | (n, s) :: ms =>
                  x ← Make (prefix +:+ n +:+ "_") s;
                  xs ← make_members ms; mret ((n, x) :: xs)
              end) ms;
      mret (VarStruct t sc)
  end.

(** ** [from_cpp_obj]

    One definition per overload: of a container, of a vector and of a sequence
    of named parts, the last two for any way to convert the parts. *)
Definition from_obj (s : Sort) (obj : VarContainer) : Res VarContainer :=
  ila_assert (Sorts.Equal s (sort obj));; Ok obj.

Definition from_expr (s : Sort) (obj : Expr) : Res VarContainer :=
  ila_assert (Sorts.Equal s (Exprs.sort obj));; Ok (from_primitive_expr obj).

Section from.
Context {T : Type} (from_cpp_obj : Sort -> T -> Res VarContainer).

Definition from_vector (s : Sort) (obj : list T) : Res VarContainer :=
  ila_assert (Sorts.is_vec s);;
  v ← mapM (fun x => da ← Sorts.data_atom s; from_cpp_obj da x) obj;
  n ← Sorts.vec_size s;
  ila_assert (n =? Z.of_nat (length v));;
  Ok (VarVector s v).

(** [emplace] of an [unordered_map]. *)
Definition emplace {V} (n : string) (v : V) (m : gmap string V) : gmap string V :=
  match m !! n with Some _ => m | None => <[n := v]> m end.

Definition add_member (s : Sort) (p : string * T) (ms : gmap string VarContainer) :
    Res (gmap string VarContainer) :=
  ms_sort ← Sorts.get_member_sort s p.1;
  x ← from_cpp_obj ms_sort p.2;
  Ok (emplace p.1 x ms).

Definition from_pairs (s : Sort) (obj : list (string * T)) : Res VarContainer :=
  ila_assert (Sorts.is_struct s);;
  ms ← foldM (add_member s) obj ∅;
  sms ← Sorts.members s;
  res ← mapM (fun p => match ms !! p.1 with
                       | Some x => Ok (p.1, x)
                       | None => Fail EAssert
                       end) sms;
  Ok (VarStruct s res).
End from.

(** ** The transformers *)
Definition push_at {A} (i : nat) (x : A) (vec : list (list A)) : list (list A) :=
  alter (fun l => l ++ [x]) i vec.

Definition partition_step (n_parts : nat) (which_part : nat -> nat)
    (p : nat * VarContainer) (parts : list (list VarContainer)) :
    Res (list (list VarContainer)) :=
  let index := which_part p.1 in
  ila_assert (negb (n_parts <=? index)%nat);;
  Ok (push_at index p.2 parts).

Definition order_preserving_partition (v : VarContainer) (n_parts : nat)
    (which_part : nat -> nat) : Res (list VarContainer) :=
  match v with
  | VarVector t l =>
      parts ← foldM (partition_step n_parts which_part) (zip (seq 0 (length l)) l)
                (replicate n_parts []);
      mapM (fun part =>
              da ← Sorts.data_atom t;
              s ← Sorts.MakeVectorSort da (Z.of_nat (length part));
              from_vector from_obj s part) parts
  | _ => invalid
  end.

(** The sorts of the zipped vectors: their common size, -1 before the first, and
    the members of an element. *)
Definition zip_sort (p : string * Sort) (st : Z * list (string * Sort)) :
    Res (Z * list (string * Sort)) :=
  let '(sz, da) := st in
  ila_assert (Sorts.is_vec p.2);;
  n ← Sorts.vec_size p.2;
  sz ← (if sz <? 0 then Ok n else ila_assert (negb (negb (sz =? n)));; Ok sz);
  a ← Sorts.data_atom p.2;
  Ok (sz, da ++ [(p.1, a)]).

Definition zip_elem (p : string * VarContainer) (i : nat)
    (vec : list (list (string * VarContainer))) : Res (list (list (string * VarContainer))) :=
  x ← nth p.2 i; Ok (push_at i (p.1, x) vec).

(** A vector of size -1 cannot be allocated. *)
Definition zip (v : VarContainer) : Res VarContainer :=
  match v with
  | VarStruct t l =>
      ila_assert (negb (bool_decide (l = [])));;
      sms ← Sorts.members t;
      '(sz, da) ← foldM zip_sort sms (-1, []);
      if sz <? 0 then Fail EThrow else
      let n := Z.to_nat sz in
      vec ← foldM (fun p vec => foldM (zip_elem p) (seq 0 n) vec) l (replicate n []);
      s ← Sorts.MakeVectorSort (Sorts.MakeStructSort da) sz;
      from_vector (from_pairs from_obj) s vec
  | _ => invalid
  end.

(** [res[name].push_back(m)], which creates a missing entry. *)
Definition push_member (p : string * VarContainer) (res : gmap string (list VarContainer)) :
    gmap string (list VarContainer) :=
  <[p.1 := default [] (res !! p.1) ++ [p.2]]> res.

Definition unzip_sort (n : nat) (p : string * Sort)
    (st : list (string * Sort) * gmap string (list VarContainer)) :
    Res (list (string * Sort) * gmap string (list VarContainer)) :=
  s ← Sorts.MakeVectorSort p.2 (Z.of_nat n);
  Ok (st.1 ++ [(p.1, s)], emplace p.1 [] st.2).

Definition unzip (v : VarContainer) : Res VarContainer :=
  match v with
  | VarVector t l =>
      da ← Sorts.data_atom t;
      ila_assert (Sorts.is_struct da);;
      ms ← Sorts.members da;
      ila_assert (negb (bool_decide (ms = [])));;
      '(res_sort, res) ← foldM (unzip_sort (length l)) ms ([], ∅);
      res ← foldM (fun x res => xm ← members x; Ok (foldl (fun r p => push_member p r) res xm))
              l res;
      from_pairs (from_vector from_obj) (Sorts.MakeStructSort res_sort) (map_to_list res)
  | _ => invalid
  end.

(** [unordered_map{begin, end}]. *)
Definition insert_pairs {V} (l : list (string * V)) (m : gmap string V) : gmap string V :=
  foldl (fun m p => emplace p.1 p.2 m) m l.

Definition project (v : VarContainer) (names : list string) : Res VarContainer :=
  match v with
  | VarStruct t l =>
      let ms := insert_pairs l ∅ in
      projection ← mapM (fun name => match ms !! name with
                                     | Some x => Ok (name, x)
                                     | None => Fail EAssert
                                     end) names;
      let srt := prod_map id sort <$> projection in
      from_pairs from_obj (Sorts.MakeStructSort srt) projection
  | _ => invalid
  end.

Definition project_without (v : VarContainer) (names : list string) : Res VarContainer :=
  match v with
  | VarStruct t l =>
      let ms := foldl (fun m name => delete name m) (insert_pairs l ∅) names in
      sms ← Sorts.members t;
      let projsort := filter (fun p => is_Some (ms !! p.1)) sms in
      from_pairs from_obj (Sorts.MakeStructSort projsort) (map_to_list ms)
  | _ => invalid
  end.

(** [members()] of [b] is a call that an operand of another class refuses, but
    that is checked first. *)
Definition join_with (v b : VarContainer) : Res VarContainer :=
  match v with
  | VarStruct t l =>
      ila_assert (negb (negb (is_struct b)));;
      bl ← members b;
      let ms := insert_pairs bl (insert_pairs l ∅) in
      ila_assert (negb (negb (base.size ms =? length l + length bl)%nat));;
      joinsort ← Sorts.members t;
      bsort_members ← Sorts.members (sort b);
      from_pairs from_obj (Sorts.MakeStructSort (joinsort ++ bsort_members)) (map_to_list ms)
  | _ => invalid
  end.

(** ** Well-formed containers

    The sort of a container is the sort of what it holds, and the members of a
    struct have different names. *)
#[export] Instance VarContainer_inhabited : Inhabited VarContainer :=
  populate (VarVector SortBool []).

Definition row_sort (l : list (string * VarContainer)) : list (string * Sort) :=
  prod_map id sort <$> l.

Definition prim_sort (s : Sort) : bool :=
  match s with SortBool | SortBv _ | SortMem _ _ => true | _ => false end.

Inductive wf : VarContainer -> Prop :=
| wf_prim e : prim_sort (Exprs.sort e) = true -> wf (VarPrimitive e)
| wf_vector da l : Forall wf l -> Forall (fun x => sort x = da) l ->
    wf (VarVector (SortVector da (Z.of_nat (length l))) l)
| wf_struct l : NoDup l.*1 -> Forall (fun p => wf p.2) l ->
    wf (VarStruct (SortStruct (row_sort l)) l).
#[local] Hint Constructors wf : core.

Lemma row_sort_fst l : (row_sort l).*1 = l.*1.
Proof. unfold row_sort. rewrite <- list_fmap_compose. by apply list_fmap_ext. Qed.

Lemma find_member_ok ms n s : NoDup ms.*1 -> (n, s) ∈ ms -> Sorts.find_member n ms = Ok s.
Proof.
  induction ms as [|[n' s'] ms IH]; cbn; [by intros _ ?%elem_of_nil|].
  intros [Hn Hnd]%NoDup_cons [[= -> ->]|H]%elem_of_cons.
  - by rewrite String.eqb_refl.
  - destruct (String.eqb_spec n' n) as [->|]; [|by apply IH].
    destruct Hn. by apply (list_elem_of_fmap_2 fst _ (n, s)).
Qed.

Lemma lookup_first_elem {T} (l : list (string * T)) n x :
  NoDup l.*1 -> (n, x) ∈ l -> KeyVec.lookup_first n l = Some x.
Proof.
  induction l as [|[n' y] l IH]; cbn; [by intros _ ?%elem_of_nil|].
  intros [Hn Hnd]%NoDup_cons [[= -> ->]|H]%elem_of_cons; [by rewrite decide_True|].
  rewrite decide_False; [by apply IH|]. intros ->. destruct Hn.
  by apply (list_elem_of_fmap_2 fst _ (n', x)).
Qed.

Lemma lookup_first_None {T} (l : list (string * T)) n :
  KeyVec.lookup_first n l = None <-> n ∉ l.*1.
Proof.
  induction l as [|[n' y] l IH]; cbn; [split; [by intros _ ?%elem_of_nil|done]|].
  rewrite not_elem_of_cons. case_decide; naive_solver.
Qed.

Lemma from_obj_ok s x : sort x = s -> from_obj s x = Ok x.
Proof. intros <-. unfold from_obj. by rewrite Sorts.Equal_refl. Qed.

Lemma mapM_ok {A B} (f : A -> Res B) (g : A -> B) l :
  (forall x, x ∈ l -> f x = Ok (g x)) -> mapM f l = Ok (g <$> l).
Proof.
  induction l as [|a l IH]; intros H; [done|]. cbn. rewrite H by by left. cbn.
  rewrite IH; [done|]. intros. apply H. by right.
Qed.

Lemma mapM_fail {A B} (f : A -> Res B) e l a :
  (forall x, x ∈ l -> f x = Fail e \/ exists y, f x = Ok y) -> a ∈ l -> f a = Fail e ->
  mapM f l = Fail e.
Proof.
  intros Hf Ha Hfa. induction l as [|b l IH]; [by apply elem_of_nil in Ha|]. cbn.
  destruct (Hf b ltac:(by left)) as [E|[y E]]; rewrite E; [done|]. cbn.
  apply elem_of_cons in Ha as [->|Ha]; [congruence|].
  rewrite IH; [done|intros; apply Hf; by right|done].
Qed.

(** Vectors and structs of accepted parts are accepted, in any order. *)
Lemma from_vector_ok {T} (from : Sort -> T -> Res VarContainer) g da n obj :
  (forall x, x ∈ obj -> from da x = Ok (g x)) -> n = Z.of_nat (length obj) ->
  from_vector from (SortVector da n) obj = Ok (VarVector (SortVector da n) (g <$> obj)).
Proof.
  intros Hg ->. unfold from_vector. cbn [Sorts.is_vec ila_assert mbind Res_bind Sorts.data_atom].
  rewrite (mapM_ok _ g) by done. cbn. by rewrite length_fmap, Z.eqb_refl.
Qed.

Lemma add_member_ok {T} (from : Sort -> T -> Res VarContainer) ms n x y s m :
  Sorts.find_member n ms = Ok s -> from s x = Ok y ->
  add_member from (SortStruct ms) (n, x) m = Ok (emplace n y m).
Proof. intros Hs Hx. unfold add_member. cbn. rewrite Hs. cbn. by rewrite Hx. Qed.

Lemma from_pairs_ok {T} (from : Sort -> T -> Res VarContainer) ms obj g :
  (forall n x, (n, x) ∈ obj -> exists s, Sorts.find_member n ms = Ok s /\ from s x = Ok (g n)) ->
  (forall n, n ∈ ms.*1 -> n ∈ obj.*1) ->
  from_pairs from (SortStruct ms) obj =
  Ok (VarStruct (SortStruct ms) ((fun p => (p.1, g p.1)) <$> ms)).
Proof.
  intros Hobj Hms. unfold from_pairs. cbn [Sorts.is_struct ila_assert mbind Res_bind].
  assert (Hf : forall m, (forall n x, m !! n = Some x -> x = g n) -> exists m',
    foldM (add_member from (SortStruct ms)) obj m = Ok m' /\
    (forall n x, m' !! n = Some x -> x = g n) /\
    forall n, is_Some (m !! n) \/ n ∈ obj.*1 -> is_Some (m' !! n)).
  { clear Hms. induction obj as [|[n x] obj IH]; intros m Hm.
    { exists m. split; [done|]. split; [done|]. intros n [?|?%elem_of_nil]; done. }
    destruct (Hobj n x ltac:(by left)) as (s & Hs & Hx). cbn [foldM].
    rewrite (add_member_ok _ _ _ _ _ _ _ Hs Hx). cbn [mbind Res_bind].
    destruct (IH (fun n x H => Hobj n x (proj2 (elem_of_cons _ _ _) (or_intror H))) (emplace n (g n) m))
      as (m' & -> & Hm' & Hin).
    - intros k y. unfold emplace. destruct (m !! n) eqn:E; [by apply Hm|].
      rewrite lookup_insert_Some. intros [[<- <-]|[_ ?]]; [done|by apply Hm].
    - exists m'. split; [done|]. split; [done|]. intros k [Hk|[->|Hk]%elem_of_cons]; apply Hin; auto.
      + left. unfold emplace. destruct (m !! n) eqn:E; [done|].
        rewrite lookup_insert_is_Some'. by right.
      + left. unfold emplace. destruct (m !! n) eqn:E; [by rewrite ?E; eauto|]. by rewrite lookup_insert_eq. }
  destruct (Hf ∅) as (m & -> & Hm & Hin); [done|]. cbn.
  rewrite (mapM_ok _ (fun p => (p.1, g p.1))); [done|].
  intros p Hp. destruct (Hin p.1) as [x Hx]; [right; by apply Hms, list_elem_of_fmap_2|].
  rewrite Hx. by rewrite (Hm _ _ Hx).
Qed.

(** Any enumeration of the members of a struct gives the struct. *)
Definition get_member (l : list (string * VarContainer)) (n : string) : VarContainer :=
  default inhabitant (KeyVec.lookup_first n l).

Lemma get_members l : NoDup l.*1 ->
  (fun p => (p.1, get_member l p.1)) <$> row_sort l = l.
Proof.
  intros Hl. unfold row_sort. rewrite <- list_fmap_compose. rewrite <- (list_fmap_id l) at 2.
  apply list_fmap_ext. intros i [n x] Hi. cbn. unfold get_member.
  by rewrite (lookup_first_elem l n x) by (done || by eapply list_elem_of_lookup_2).
Qed.

Lemma from_pairs_members l obj : NoDup l.*1 -> obj ≡ₚ l ->
  from_pairs from_obj (SortStruct (row_sort l)) obj = Ok (VarStruct (SortStruct (row_sort l)) l).
Proof.
  intros Hl Ho. rewrite (from_pairs_ok _ _ _ (get_member l)); [by rewrite get_members|..].
  - intros n x Hx. rewrite Ho in Hx. exists (sort x). split.
    + apply find_member_ok; [by rewrite row_sort_fst|].
      by apply (list_elem_of_fmap_2 (prod_map id sort) _ (n, x)).
    + unfold get_member. rewrite (lookup_first_elem l n x) by done. by apply from_obj_ok.
  - intros n. by rewrite row_sort_fst, Ho.
Qed.

(** ** Columns and rows

    A struct of vectors and a vector of structs over the same table: named
    columns of a common length. *)
Record Col := { c_name : string; c_da : Sort; c_elems : list VarContainer }.

Definition col_sorts (n : nat) (cols : list Col) : list (string * Sort) :=
  (fun c => (c_name c, SortVector (c_da c) (Z.of_nat n))) <$> cols.
Definition columns (n : nat) (cols : list Col) : list (string * VarContainer) :=
  (fun c => (c_name c, VarVector (SortVector (c_da c) (Z.of_nat n)) (c_elems c))) <$> cols.
Definition row_sorts (cols : list Col) : list (string * Sort) :=
  (fun c => (c_name c, c_da c)) <$> cols.
Definition row (cols : list Col) (i : nat) : list (string * VarContainer) :=
  (fun c => (c_name c, c_elems c !!! i)) <$> cols.

Definition col_struct (n : nat) (cols : list Col) : VarContainer :=
  VarStruct (SortStruct (col_sorts n cols)) (columns n cols).
Definition row_struct (cols : list Col) (i : nat) : VarContainer :=
  VarStruct (SortStruct (row_sorts cols)) (row cols i).
Definition row_vector (n : nat) (cols : list Col) : VarContainer :=
  VarVector (SortVector (SortStruct (row_sorts cols)) (Z.of_nat n)) (row_struct cols <$> seq 0 n).

Record col_ok (n : nat) (c : Col) : Prop := {
  col_length : length (c_elems c) = n;
  col_elems x : x ∈ c_elems c -> wf x /\ sort x = c_da c }.

Section table.
Context (n : nat) (cols : list Col).
Hypothesis Hne : cols <> [].
Hypothesis Hnd : NoDup (c_name <$> cols).
Hypothesis Hok : forall c, c ∈ cols -> col_ok n c.

Lemma row_names i : (row cols i).*1 = c_name <$> cols.
Proof using Type. unfold row. rewrite <- list_fmap_compose. by apply list_fmap_ext. Qed.
Lemma column_names : (columns n cols).*1 = c_name <$> cols.
Proof using Type. unfold columns. rewrite <- list_fmap_compose. by apply list_fmap_ext. Qed.

Lemma columns_sort : row_sort (columns n cols) = col_sorts n cols.
Proof using Type. unfold row_sort, columns. rewrite <- list_fmap_compose. by apply list_fmap_ext. Qed.

Lemma col_nth c i : c ∈ cols -> (i < n)%nat -> c_elems c !! i = Some (c_elems c !!! i).
Proof using Hok.
  intros Hc Hi. apply list_lookup_lookup_total_lt. by rewrite (col_length _ _ (Hok _ Hc)).
Qed.

Lemma row_sort_row i : (i < n)%nat -> row_sort (row cols i) = row_sorts cols.
Proof using Hok.
  intros Hi. unfold row_sort, row, row_sorts. rewrite <- list_fmap_compose.
  apply list_fmap_ext. intros j c Hc%list_elem_of_lookup_2. cbn. f_equal.
  by apply (col_elems _ _ (Hok _ Hc)), (list_elem_of_lookup_2 _ i), col_nth.
Qed.

Lemma wf_row i : (i < n)%nat -> wf (row_struct cols i).
Proof using Hok Hnd.
  intros Hi. unfold row_struct. rewrite <- (row_sort_row i) by done. constructor.
  - by rewrite row_names.
  - unfold row. apply Forall_fmap, Forall_forall. intros c Hc. cbn.
    by apply (col_elems _ _ (Hok _ Hc)), (list_elem_of_lookup_2 _ i), col_nth.
Qed.

Lemma wf_row_vector : wf (row_vector n cols).
Proof using Hok Hnd.
  unfold row_vector. replace (Z.of_nat n) with (Z.of_nat (length (row_struct cols <$> seq 0 n)))
    by by rewrite length_fmap, length_seq.
  constructor; apply Forall_fmap, Forall_forall; [|done].
  intros i [_ Hi]%elem_of_seq. by apply wf_row.
Qed.

Lemma wf_col_struct : wf (col_struct n cols).
Proof using Hok Hnd.
  unfold col_struct. rewrite <- columns_sort. constructor; [by rewrite column_names|].
  unfold columns. apply Forall_fmap, Forall_forall. intros c Hc. cbn.
  destruct (Hok _ Hc) as [<- He]. constructor; apply Forall_forall; naive_solver.
Qed.

(** *** [zip] *)
Lemma zip_sort_cols cs sz acc : sz = -1 \/ sz = Z.of_nat n ->
  foldM zip_sort (col_sorts n cs) (sz, acc) =
  Ok (if cs is [] then sz else Z.of_nat n, acc ++ row_sorts cs).
Proof using Type.
  revert sz acc. induction cs as [|c cs IH]; intros sz acc Hsz; cbn; [by rewrite app_nil_r|].
  assert (E : (if sz <? 0 then Ok (Z.of_nat n)
    else ila_assert (negb (negb (sz =? Z.of_nat n)));; Ok sz) = Ok (Z.of_nat n)).
  { destruct Hsz as [->| ->]; [done|]. rewrite (proj2 (Z.ltb_ge _ _)), Z.eqb_refl by lia. done. }
  rewrite E. cbn. rewrite IH by by right. rewrite <- app_assoc. cbn. by destruct cs.
Qed.

Lemma push_at_mid {A} (x : A) l pre rest :
  push_at (length pre) x (pre ++ l :: rest) = (pre ++ [l ++ [x]]) ++ rest.
Proof using Type.
  unfold push_at. rewrite alter_app_r_alt, Nat.sub_diag by done. cbn. by rewrite <- app_assoc.
Qed.

Lemma push_at_all {A} (f : nat -> Res A) (g : nat -> A) (rest pre : list (list A)) :
  (forall i, (length pre <= i < length pre + length rest)%nat -> f i = Ok (g i)) ->
  foldM (fun i vec => x ← f i; Ok (push_at i x vec)) (seq (length pre) (length rest)) (pre ++ rest) =
  Ok (pre ++ imap (fun i l => l ++ [g (length pre + i)%nat]) rest).
Proof using Type.
  revert pre. induction rest as [|l rest IH]; intros pre Hf; cbn [length seq foldM imap]; [done|].
  rewrite Hf by (cbn; lia). cbn [mbind Res_bind]. rewrite push_at_mid.
  specialize (IH (pre ++ [l ++ [g (length pre)]])). rewrite length_app in IH. cbn [length] in IH.
  rewrite Nat.add_1_r in IH. rewrite IH by (intros; apply Hf; cbn; lia). rewrite Nat.add_0_r, <- app_assoc.
  do 3 f_equal. apply imap_ext. intros. cbn. by rewrite Nat.add_succ_r.
Qed.

Lemma zip_rows cs pre : (forall c, c ∈ cs -> c ∈ cols) ->
  foldM (fun p vec => foldM (zip_elem p) (seq 0 n) vec) (columns n cs) (row pre <$> seq 0 n) =
  Ok (row (pre ++ cs) <$> seq 0 n).
Proof using Hok.
  revert pre. induction cs as [|c cs IH]; intros pre Hcs; cbn [columns fmap list_fmap foldM].
  { by rewrite app_nil_r. }
  pose proof (push_at_all (fun i => x ← nth (VarVector (SortVector (c_da c) (Z.of_nat n)) (c_elems c)) i;
    Ok (c_name c, x)) (fun i => (c_name c, c_elems c !!! i)) (row pre <$> seq 0 n) []) as E.
  rewrite length_fmap, length_seq in E. cbn [length app Nat.add] in E.
  replace (foldM (zip_elem _) _ _) with
    (Ok (row (pre ++ [c]) <$> seq 0 n) : Res (list (list (string * VarContainer)))).
  - cbn [mbind Res_bind]. fold (columns n cs). rewrite IH by (intros; apply Hcs; by right).
    by rewrite <- app_assoc.
  - symmetry. etrans; [|etrans; [apply E|]].
    + apply foldM_Res_ext. intros i vec. unfold zip_elem; cbn.
      destruct (c_elems c !! i); done.
    + intros i Hi. cbn. rewrite col_nth by (apply Hcs; by left) || lia. done.
    + f_equal. apply list_eq. intros i. rewrite list_lookup_imap, !list_lookup_fmap.
      destruct (seq 0 n !! i) as [j|] eqn:Ej; [|done]. cbn. apply lookup_seq in Ej as [-> _].
      unfold row. by rewrite fmap_app.
Qed.

Lemma zip_cols : zip (col_struct n cols) = Ok (row_vector n cols).
Proof using Hne Hok Hnd.
  unfold zip, col_struct. rewrite bool_decide_false by (by destruct cols). cbn [negb ila_assert Sorts.members].
  cbn [mbind Res_bind]. rewrite zip_sort_cols by by left. cbn [mbind Res_bind app].
  assert (Hz : match cols with [] => -1 | _ => Z.of_nat n end = Z.of_nat n) by by destruct cols.
  rewrite Hz.
  rewrite (proj2 (Z.ltb_ge _ _)), Nat2Z.id by lia.
  replace (replicate n []) with (row [] <$> seq 0 n).
  - rewrite zip_rows by done. cbn [mbind Res_bind app]. unfold Sorts.MakeVectorSort, Sorts.MakeStructSort.
    rewrite (proj2 (Z.leb_le _ _)) by lia. cbn [ila_assert mbind Res_bind].
    rewrite (from_vector_ok _ (fun r => VarStruct (SortStruct (row_sorts cols)) r)).
    + unfold row_vector. by rewrite <- list_fmap_compose.
    + intros r (i & -> & [_ Hi]%elem_of_seq)%list_elem_of_fmap. rewrite <- (row_sort_row i) by done.
      apply from_pairs_members; [by rewrite row_names|done].
    + by rewrite length_fmap, length_seq.
  - clear. generalize 0%nat. induction n as [|m IH]; intros k; cbn; [done|]. by rewrite <- (IH (S k)).
Qed.

(** *** [unzip] *)
Lemma emplace_lookup {V} k (v : V) m j :
  emplace k v m !! j = if m !! j is Some x then Some x else if decide (j = k) then Some v else None.
Proof using Type.
  unfold emplace. destruct (decide (j = k)) as [->|Hj].
  - destruct (m !! k) eqn:E; [by rewrite E|]. by rewrite lookup_insert_eq.
  - destruct (m !! k); [by case_match|]. rewrite lookup_insert_ne by done. by case_match.
Qed.

Lemma unzip_sort_ok k s acc m :
  unzip_sort n (k, s) (acc, m) = Ok (acc ++ [(k, SortVector s (Z.of_nat n))], emplace k [] m).
Proof using Type.
  unfold unzip_sort, Sorts.MakeVectorSort. rewrite (proj2 (Z.leb_le _ _)) by lia. done.
Qed.

Lemma unzip_sort_cols cs acc m : exists m',
  foldM (unzip_sort n) (row_sorts cs) (acc, m) = Ok (acc ++ col_sorts n cs, m') /\
  forall k, m' !! k = if m !! k is Some x then Some x
                     else if decide (k ∈ c_name <$> cs) then Some [] else None.
Proof using Type.
  revert acc m. induction cs as [|c cs IH]; intros acc m; cbn [row_sorts col_sorts fmap list_fmap foldM].
  { exists m. rewrite app_nil_r. split; [done|]. intros k. destruct (m !! k); [done|].
    rewrite decide_False; [done|]. by intros ?%elem_of_nil. }
  rewrite unzip_sort_ok. cbn [mbind Res_bind]. fold (row_sorts cs) (col_sorts n cs).
  destruct (IH (acc ++ [(c_name c, SortVector (c_da c) (Z.of_nat n))]) (emplace (c_name c) [] m))
    as (m' & -> & Hm').
  exists m'. split; [by rewrite <- app_assoc|]. intros k. rewrite Hm', emplace_lookup.
  destruct (m !! k); [done|]. destruct (decide (k = c_name c)) as [->|Hk].
  - rewrite decide_True; [done|]. by left.
  - apply decide_ext. rewrite elem_of_cons. tauto.
Qed.

Lemma push_members l m k : NoDup l.*1 ->
  foldl (fun r p => push_member p r) m l !! k =
  match KeyVec.lookup_first k l with Some x => Some (default [] (m !! k) ++ [x]) | None => m !! k end.
Proof using Type.
  revert m. induction l as [|[j x] l IH]; intros m; cbn; [done|]. intros [Hj Hl]%NoDup_cons.
  rewrite IH by done. unfold push_member; cbn. case_decide as Hk.
  - subst. rewrite (proj2 (lookup_first_None l j)), lookup_insert_eq by done. done.
  - by rewrite lookup_insert_ne.
Qed.

Lemma unzip_rows idx m :
  (forall c, c ∈ cols -> is_Some (m !! c_name c)) -> (forall k, k ∉ c_name <$> cols -> m !! k = None) ->
  exists m',
  foldM (fun x res => xm ← members x; Ok (foldl (fun r p => push_member p r) res xm))
    (row_struct cols <$> idx) m = Ok m' /\
  (forall c, c ∈ cols ->
     m' !! c_name c = Some (default [] (m !! c_name c) ++ ((fun i => c_elems c !!! i) <$> idx))) /\
  (forall k, k ∉ c_name <$> cols -> m' !! k = None).
Proof using Hnd.
  revert m. induction idx as [|i idx IH]; intros m Hs Hn; cbn.
  { exists m. split; [done|]. split; [|done]. intros c Hc. rewrite app_nil_r.
    by destruct (Hs c Hc) as [x ->]. }
  set (m1 := foldl _ m (row cols i)).
  assert (Hm1 : forall c, c ∈ cols -> m1 !! c_name c =
                 Some (default [] (m !! c_name c) ++ [c_elems c !!! i])).
  { intros c Hc. unfold m1. rewrite push_members by by rewrite row_names.
    rewrite (lookup_first_elem _ _ (c_elems c !!! i)); [done|by rewrite row_names|].
    unfold row. apply list_elem_of_fmap. by exists c. }
  destruct (IH m1) as (m' & E & Hc' & Hn').
  - intros c Hc. rewrite Hm1 by done. eauto.
  - intros k Hk. unfold m1. rewrite push_members by by rewrite row_names.
    rewrite (proj2 (lookup_first_None _ _)) by by rewrite row_names. by apply Hn.
  - exists m'. split; [exact E|]. split; [|done]. intros c Hc. rewrite Hc', Hm1 by done. cbn.
    by rewrite <- app_assoc.
Qed.

Lemma nth_all (l : list VarContainer) :
  (fun i => l !!! i) <$> seq 0 (length l) = l.
Proof using Type.
  apply list_eq. intros i. rewrite list_lookup_fmap. destruct (decide (i < length l)%nat) as [Hi|Hi].
  - rewrite lookup_seq_lt by done. cbn. by rewrite <- list_lookup_lookup_total_lt.
  - rewrite lookup_seq_ge, lookup_ge_None_2 by lia. done.
Qed.

Lemma unzip_cols : unzip (row_vector n cols) = Ok (col_struct n cols).
Proof using Hne Hok Hnd.
  unfold unzip, row_vector. cbn [Sorts.data_atom Sorts.is_struct Sorts.members ila_assert mbind Res_bind].
  rewrite bool_decide_false by (by destruct cols). cbn [negb ila_assert mbind Res_bind].
  rewrite length_fmap, length_seq.
  destruct (unzip_sort_cols cols [] ∅) as (m & -> & Hm). cbn [mbind Res_bind app].
  destruct (unzip_rows (seq 0 n) m) as (m' & -> & Hc & Hn).
  { intros c Hc. rewrite Hm, lookup_empty, decide_True by by apply list_elem_of_fmap_2. eauto. }
  { intros k Hk. by rewrite Hm, lookup_empty, decide_False. }
  cbn [mbind Res_bind]. unfold Sorts.MakeStructSort.
  assert (Hcol : forall c, c ∈ cols -> m' !! c_name c = Some (c_elems c)).
  { intros c Hc'. rewrite Hc, Hm, lookup_empty, decide_True by by first [done|apply list_elem_of_fmap_2].
    pose proof (nth_all (c_elems c)) as E. rewrite (col_length _ _ (Hok _ Hc')) in E. by cbn; f_equal. }
  rewrite (from_pairs_ok _ _ _ (get_member (columns n cols))).
  - rewrite <- columns_sort, get_members by by rewrite column_names. by rewrite columns_sort.
  - intros k xs Hk%elem_of_map_to_list. destruct (decide (k ∈ c_name <$> cols)) as [Hin|];
      [|by rewrite Hn in Hk].
    apply list_elem_of_fmap in Hin as (c & -> & Hin). rewrite Hcol in Hk by done. injection Hk as <-.
    exists (SortVector (c_da c) (Z.of_nat n)). split.
    + apply find_member_ok; [by rewrite <- columns_sort, row_sort_fst, column_names|].
      unfold col_sorts. apply list_elem_of_fmap. by exists c.
    + unfold get_member.
      rewrite (lookup_first_elem _ _ (VarVector (SortVector (c_da c) (Z.of_nat n)) (c_elems c)));
        [|by rewrite column_names|unfold columns; apply list_elem_of_fmap; by exists c].
      cbn [default]. rewrite (from_vector_ok _ id); [by rewrite list_fmap_id|..].
      * intros x Hx. by apply from_obj_ok, (col_elems _ _ (Hok _ Hin)).
      * by rewrite (col_length _ _ (Hok _ Hin)).
  - intros k. rewrite <- columns_sort, row_sort_fst, column_names.
    intros (c & -> & Hin)%list_elem_of_fmap. apply list_elem_of_fmap. exists (c_name c, c_elems c).
    split; [done|]. apply elem_of_map_to_list. by apply Hcol.
Qed.
End table.

(** The structs that can be zipped and the vectors that can be unzipped are the
    two views of a table. *)
Lemma zippable_cols n t l : wf (VarStruct t l) ->
  (forall p, p ∈ l -> exists da, sort p.2 = SortVector da n) -> l <> [] ->
  exists k cols, n = Z.of_nat k /\ VarStruct t l = col_struct k cols /\ cols <> [] /\
    NoDup (c_name <$> cols) /\ forall c, c ∈ cols -> col_ok k c.
Proof.
  intros Hw Hs Hne. inversion Hw as [| |? Hnd Hwf]; subst. exists (Z.to_nat n).
  assert (H : exists cols, l = columns (Z.to_nat n) cols /\ (l <> [] -> 0 <= n) /\
                forall c, c ∈ cols -> col_ok (Z.to_nat n) c).
  { clear Hne Hnd Hw. induction Hwf as [|[k x] l Hx _ IH].
    { exists []. split; [done|]. split; [done|]. by intros c ?%elem_of_nil. }
    destruct IH as (cols & -> & _ & Hc); [intros p Hp; apply Hs; by right|].
    destruct (Hs (k, x) ltac:(by left)) as [da Hda]. cbn in Hda, Hx.
    destruct Hx as [e He|da' xs Hxs Hss|xs]; [|cbn in Hda|done].
    - cbn in Hda. by rewrite Hda in He.
    - injection Hda as -> <-. rewrite Nat2Z.id in *.
      exists ({| c_name := k; c_da := da; c_elems := xs |} :: cols).
      split; [unfold columns; cbn; by rewrite ?Nat2Z.id|]. split; [lia|].
      intros c [->|Hcc]%elem_of_cons; [|by apply Hc]. split; [done|]. cbn. intros x Hx.
      rewrite Forall_forall in Hxs, Hss. auto. }
  destruct H as (cols & -> & Hn & Hc). exists cols. split; [rewrite Z2Nat.id; auto|].
  split; [by unfold col_struct; rewrite columns_sort|]. split; [by intros ->|].
  split; [by rewrite column_names in Hnd|done].
Qed.

Lemma unzippable_cols ms n l : wf (VarVector (SortVector (SortStruct ms) n) l) ->
  ms <> [] -> NoDup ms.*1 ->
  exists k cols, n = Z.of_nat k /\
    VarVector (SortVector (SortStruct ms) n) l = row_vector k cols /\ cols <> [] /\
    NoDup (c_name <$> cols) /\ forall c, c ∈ cols -> col_ok k c.
Proof.
  intros Hw Hms Hnd. inversion Hw as [|? ? Hwf Hs|]; subst.
  assert (Hrow : forall x, x ∈ l -> exists r, x = VarStruct (SortStruct ms) r /\ row_sort r = ms /\
            NoDup r.*1 /\ Forall (fun p => wf p.2) r).
  { rewrite Forall_forall in Hwf, Hs. intros x Hx. specialize (Hwf _ Hx). specialize (Hs _ Hx).
    destruct Hwf as [e He| |r Hr Hwr]; cbn in Hs; [by rewrite Hs in He|done|].
    injection Hs as Hs. exists r. by rewrite Hs. }
  set (elem (x : VarContainer) (k : string) := match x with VarStruct _ r => get_member r k | _ => x end).
  set (cols := (fun p : string * Sort =>
    {| c_name := p.1; c_da := p.2; c_elems := (fun x => elem x p.1) <$> l |}) <$> ms).
  assert (Hn : c_name <$> cols = ms.*1)
    by (unfold cols; rewrite <- list_fmap_compose; by apply list_fmap_ext).
  assert (Hsr : row_sorts cols = ms).
  { unfold row_sorts, cols. rewrite <- list_fmap_compose. rewrite <- (list_fmap_id ms) at 2.
    apply list_fmap_ext. by intros i []. }
  exists (length l), cols. split; [done|]. split.
  { unfold row_vector. rewrite Hsr. f_equal. apply list_eq. intros i. rewrite list_lookup_fmap.
    destruct (l !! i) as [x|] eqn:Hi.
    - rewrite lookup_seq_lt by by eapply lookup_lt_Some. cbn. f_equal. unfold row_struct. rewrite Hsr.
      destruct (Hrow x) as (r & -> & Hr & Hrn & _); [by eapply list_elem_of_lookup_2|]. f_equal.
      rewrite <- (get_members r) at 1 by done. rewrite Hr. unfold row, cols.
      rewrite <- list_fmap_compose. apply list_fmap_ext. intros j p _. cbn. f_equal. symmetry.
      apply list_lookup_total_correct. by rewrite list_lookup_fmap, Hi.
    - rewrite lookup_seq_ge by by apply lookup_ge_None_1. done. }
  split; [unfold cols; by destruct ms|]. split; [by rewrite Hn|].
  intros c ([k s] & -> & Hc)%list_elem_of_fmap. split; cbn; [by rewrite length_fmap|].
  intros x (y & -> & Hy)%list_elem_of_fmap.
  destruct (Hrow y Hy) as (r & -> & Hr & Hrn & Hrw). cbn. rewrite <- Hr in Hc.
  apply list_elem_of_fmap in Hc as ([k' z] & [= -> ->] & Hz). unfold get_member.
  rewrite (lookup_first_elem _ _ z) by done. cbn. split; [|done].
  rewrite Forall_forall in Hrw. by apply (Hrw _ Hz).
Qed.

(** C31.  [zip] and [unzip] are inverse to each other.  A non-empty struct of
    vectors of one size zips to a well-formed vector of structs, the member [k]
    of whose element [i] is the element [i] of the member [k], and unzipping it
    gives the struct back, sorts included; a vector of non-empty structs unzips
    to a well-formed struct of vectors, and zipping that gives the vector back. *)
Theorem zip_unzip v : wf v ->
  (forall t l n, v = VarStruct t l -> l <> [] ->
     (forall p, p ∈ l -> exists da, sort p.2 = SortVector da n) ->
     exists z, zip v = Ok z /\ wf z /\ unzip z = Ok v /\
       forall i k x y, member v k = Ok x -> nth x i = Ok y ->
         exists r, nth z i = Ok r /\ member r k = Ok y) /\
  (forall ms n l, v = VarVector (SortVector (SortStruct ms) n) l -> ms <> [] -> NoDup ms.*1 ->
     exists s, unzip v = Ok s /\ wf s /\ zip s = Ok v).
Proof.
  intros Hw. split.
  - intros t l n -> Hne Hs. destruct (zippable_cols n t l Hw Hs Hne) as (k & cols & _ & -> & Hc & Hnd & Hok).
    exists (row_vector k cols). split; [by apply zip_cols|]. split; [by apply wf_row_vector|].
    split; [by apply unzip_cols|]. intros i j x y. cbn.
    destruct (KeyVec.lookup_first j (columns k cols)) as [z|] eqn:Ez; [|done]. intros [= ->].
    assert (Hin : exists c, c ∈ cols /\ c_name c = j /\
              x = VarVector (SortVector (c_da c) (Z.of_nat k)) (c_elems c)).
    { clear -Ez. induction cols as [|c cols IH]; [done|]. cbn in Ez. case_decide as Hj.
      - injection Ez as <-. exists c. split; [by left|done].
      - destruct (IH Ez) as (c' & ? & ?). exists c'. split; [by right|done]. }
    destruct Hin as (c & Hcc & <- & ->). cbn. destruct (c_elems c !! i) as [e|] eqn:Ei; [|done].
    intros [= <-]. pose proof (lookup_lt_Some _ _ _ Ei) as Hi.
    rewrite (col_length _ _ (Hok _ Hcc)) in Hi. exists (row_struct cols i).
    rewrite list_lookup_fmap, lookup_seq_lt by done. split; [done|]. cbn.
    rewrite (lookup_first_elem _ _ e); [done|by rewrite row_names|].
    apply list_elem_of_fmap. exists c. split; [|done]. f_equal. symmetry.
    by apply list_lookup_total_correct.
  - intros ms n l -> Hne Hnd'.
    destruct (unzippable_cols ms n l Hw Hne Hnd') as (k & cols & -> & -> & Hc & Hnd & Hok).
    exists (col_struct k cols). split; [by apply unzip_cols|]. split; [by apply wf_col_struct|].
    by apply zip_cols.
Qed.

(** ** Projections and joins *)
Lemma insert_pairs_lookup {V} (l : list (string * V)) m k :
  insert_pairs l m !! k = if m !! k is Some x then Some x else KeyVec.lookup_first k l.
Proof.
  revert m. unfold insert_pairs. induction l as [|[j x] l IH]; intros m; cbn; [by case_match|].
  rewrite IH, emplace_lookup. destruct (m !! k); [done|]. by case_decide.
Qed.

Lemma lookup_first_find {T} (l : list (string * T)) k x :
  KeyVec.lookup_first k l = Some x -> (k, x) ∈ l.
Proof.
  induction l as [|[j y] l IH]; [done|]. cbn. case_decide as Hj; [|intros H; right; by apply IH].
  intros [= ->]. cbn in Hj. subst. by left.
Qed.

Lemma delete_all_lookup {V} names (m : gmap string V) k :
  foldl (fun m name => delete name m) m names !! k = if decide (k ∈ names) then None else m !! k.
Proof.
  revert m. induction names as [|j names IH]; intros m; cbn.
  { rewrite decide_False; [done|]. by intros ?%elem_of_nil. }
  rewrite IH. destruct (decide (k = j)) as [->|Hk].
  - rewrite lookup_delete_eq, (decide_True (P := _ ∈ _ :: _)) by by left. by case_decide.
  - rewrite lookup_delete_ne by done. apply decide_ext. rewrite elem_of_cons. tauto.
Qed.

(** The struct of a list of members. *)
Definition struct_of (l : list (string * VarContainer)) : VarContainer :=
  VarStruct (SortStruct (row_sort l)) l.

Definition project_members (l : list (string * VarContainer)) (names : list string) :
    list (string * VarContainer) :=
  (fun k => (k, get_member l k)) <$> names.

Definition without (l : list (string * VarContainer)) (names : list string) :
    list (string * VarContainer) :=
  filter (fun p => p.1 ∉ names) l.

Section struct.
Context (l : list (string * VarContainer)).
Hypothesis Hnd : NoDup l.*1.

Lemma project_ok names : (forall k, k ∈ names -> k ∈ l.*1) ->
  project (struct_of l) names = Ok (struct_of (project_members l names)).
Proof using Type.
  intros Hn. unfold project, struct_of.
  rewrite (mapM_ok _ (fun k => (k, get_member l k))).
  - cbn [mbind Res_bind]. fold (project_members l names).
    unfold Sorts.MakeStructSort. fold (row_sort (project_members l names)).
    rewrite (from_pairs_ok _ _ _ (get_member l)).
    + do 2 f_equal. unfold row_sort, project_members. rewrite <- !list_fmap_compose.
      by apply list_fmap_ext.
    + intros n x (k & [= -> ->] & Hk)%list_elem_of_fmap. exists (sort (get_member l k)).
      split; [|by apply from_obj_ok]. clear Hn. induction names as [|j names IH]; [by apply elem_of_nil in Hk|].
      cbn. destruct (String.eqb_spec j k) as [->|Hj]; [done|]. apply IH.
      apply elem_of_cons in Hk as [?|?]; [congruence|done].
    + intros n. by rewrite row_sort_fst.
  - intros k Hk%Hn. rewrite insert_pairs_lookup, lookup_empty. unfold get_member.
    destruct (KeyVec.lookup_first k l) eqn:E; [done|]. by apply lookup_first_None in E.
Qed.

Lemma project_fail names k : k ∈ names -> k ∉ l.*1 -> project (struct_of l) names = Fail EAssert.
Proof using Type.
  intros Hk Hl. unfold project, struct_of.
  set (f := fun name => match insert_pairs l ∅ !! name with Some x => Ok (name, x) | None => Fail EAssert end).
  rewrite (mapM_fail f EAssert names k); [done| |done|].
  - intros j _. unfold f. destruct (insert_pairs l ∅ !! j); [right; by eexists|by left].
  - unfold f. rewrite insert_pairs_lookup, lookup_empty. by apply lookup_first_None in Hl as ->.
Qed.

(** The map that is left enumerates the members that are left. *)
Lemma members_perm (m : gmap string VarContainer) r : NoDup r.*1 ->
  (forall k x, m !! k = Some x <-> (k, x) ∈ r) -> map_to_list m ≡ₚ r.
Proof using Type.
  intros Hr Hm. apply NoDup_Permutation; [apply NoDup_map_to_list|by eapply NoDup_fmap_1|].
  intros [k x]. by rewrite elem_of_map_to_list, Hm.
Qed.

Lemma without_nodup names : NoDup (without l names).*1.
Proof using Hnd.
  clear -Hnd. unfold without. induction l as [|p k IH]; [constructor|].
  apply NoDup_cons in Hnd as [Hp Hk]. rewrite filter_cons. case_decide; [|by apply IH].
  cbn. apply NoDup_cons. split; [|by apply IH]. intros (q & Hpq & Hq)%list_elem_of_fmap.
  apply Hp. rewrite Hpq. apply list_elem_of_filter in Hq as [_ Hq]. by apply list_elem_of_fmap_2.
Qed.

Lemma project_without_ok names :
  project_without (struct_of l) names = Ok (struct_of (without l names)).
Proof using Hnd.
  unfold project_without, struct_of. cbn [Sorts.members mbind Res_bind].
  set (m := foldl _ _ names).
  assert (Hm : forall k, m !! k = if decide (k ∈ names) then None else KeyVec.lookup_first k l).
  { intros k. unfold m. by rewrite delete_all_lookup, insert_pairs_lookup, lookup_empty. }
  replace (filter _ (row_sort l)) with (row_sort (without l names)).
  - apply from_pairs_members; [apply without_nodup|]. apply members_perm; [apply without_nodup|].
    intros k x. rewrite Hm. unfold without. rewrite list_elem_of_filter. cbn.
    case_decide as Hk; [naive_solver|]. split; [intros H; by apply lookup_first_find in H|].
    intros [_ H]. by apply lookup_first_elem.
  - unfold without, row_sort.
    assert (Hf : forall p, p ∈ l -> (p.1 ∉ names <-> is_Some (m !! p.1))).
    { intros [k x] Hp. cbn. rewrite Hm, (lookup_first_elem l k x) by done. case_decide; naive_solver. }
    clear Hm. clearbody m. induction l as [|p k IH]; [done|]. cbn [fmap list_fmap]. rewrite !filter_cons. cbn [fst prod_map].
    rewrite <- (IH (NoDup_cons_1_2 _ _ Hnd)) by (intros; apply Hf; by right).
    specialize (Hf p ltac:(by left)). repeat case_decide; cbn; tauto || done.
Qed.

Lemma join_size (r : list (string * VarContainer)) : NoDup r.*1 ->
  let m := insert_pairs r (insert_pairs l ∅) in
  base.size m = (length l + length r)%nat <-> Forall (fun k => k ∉ r.*1) l.*1.
Proof using Hnd.
  intros Hr m.
  assert (Hd : dom m = list_to_set (l.*1) ∪ list_to_set (r.*1)).
  { apply set_eq. intros k. rewrite elem_of_dom, elem_of_union, !elem_of_list_to_set. unfold m.
    rewrite !insert_pairs_lookup, lookup_empty.
    destruct (KeyVec.lookup_first k l) as [x|] eqn:E1.
    - split; [|eauto]. intros _. left. apply lookup_first_find in E1. by apply (list_elem_of_fmap_2 fst _ (k, x)).
    - apply lookup_first_None in E1. destruct (KeyVec.lookup_first k r) as [x|] eqn:E2.
      + split; [|eauto]. intros _. right. apply lookup_first_find in E2.
        by apply (list_elem_of_fmap_2 fst _ (k, x)).
      + apply lookup_first_None in E2. split; [by intros []|tauto]. }
  rewrite <- size_dom, Hd. rewrite size_union_alt.
  pose proof (size_list_to_set (C := gset string) l.*1 Hnd) as Hsl. rewrite Hsl, length_fmap.
  pose proof (size_list_to_set (C := gset string) r.*1 Hr) as Hsr. rewrite length_fmap in Hsr.
  rewrite <- Hsr, Forall_forall. split.
  - intros Hle k Hkl Hkr.
    assert (Hlt : (base.size (list_to_set r.*1 ∖ list_to_set l.*1 : gset string) <
             base.size (list_to_set r.*1 : gset string))%nat); [|lia].
    apply subset_size. split; [set_solver|]. intros Hsub.
    specialize (Hsub k). rewrite elem_of_difference, !elem_of_list_to_set in Hsub. tauto.
  - intros Hdj. f_equal. f_equal. apply set_eq. intros k.
    rewrite elem_of_difference, !elem_of_list_to_set. naive_solver.
Qed.

Lemma join_with_run (r : list (string * VarContainer)) : NoDup r.*1 ->
  join_with (struct_of l) (struct_of r) =
  if decide (Forall (fun k => k ∉ r.*1) l.*1) then Ok (struct_of (l ++ r)) else Fail EAssert.
Proof using Hnd.
  intros Hr. pose proof (join_size r Hr) as Hs. unfold join_with, struct_of in *. cbn in Hs |- *.
  case_decide as Hd.
  - rewrite (proj2 (Nat.eqb_eq _ _) (proj2 Hs Hd)). cbn. unfold Sorts.MakeStructSort.
    replace (row_sort l ++ row_sort r) with (row_sort (l ++ r)) by apply fmap_app.
    assert (Hlr : NoDup (l ++ r).*1).
    { rewrite fmap_app. apply NoDup_app. split; [done|]. split; [|done]. by apply Forall_forall. }
    apply from_pairs_members; [done|]. apply members_perm; [done|].
    intros k x. rewrite !insert_pairs_lookup, lookup_empty, elem_of_app.
    rewrite Forall_forall in Hd. split.
    + destruct (KeyVec.lookup_first k l) eqn:E; [intros [= ->]; left|intros H; right];
        by apply lookup_first_find.
    + intros [H|H]; [by rewrite (lookup_first_elem l k x)|].
      rewrite (proj2 (lookup_first_None l k)); [by apply lookup_first_elem|]. intros Hk.
      by apply (Hd k Hk), (list_elem_of_fmap_2 fst _ (k, x)).
  - destruct (_ =? _)%nat eqn:E; [|done]. apply Nat.eqb_eq in E. tauto.
Qed.
End struct.

Lemma member_struct l k x : NoDup l.*1 -> (k, x) ∈ l -> member (struct_of l) k = Ok x.
Proof. intros Hl Hx. cbn. by rewrite (lookup_first_elem l k x). Qed.

Lemma member_perm l r k : NoDup l.*1 -> l ≡ₚ r -> member (struct_of l) k = member (struct_of r) k.
Proof.
  intros Hl Hp. assert (Hr : NoDup r.*1) by by rewrite <- Hp. cbn.
  destruct (KeyVec.lookup_first k l) as [x|] eqn:E.
  - apply lookup_first_find in E. rewrite Hp in E. by rewrite (lookup_first_elem r k x).
  - apply lookup_first_None in E. rewrite Hp in E. by apply lookup_first_None in E as ->.
Qed.

Lemma project_names l names : (project_members l names).*1 = names.
Proof.
  unfold project_members. rewrite <- list_fmap_compose. etrans; [|apply list_fmap_id].
  by apply list_fmap_ext.
Qed.

Lemma split_perm l names : NoDup l.*1 -> NoDup names -> (forall k, k ∈ names -> k ∈ l.*1) ->
  project_members l names ++ without l names ≡ₚ l.
Proof.
  intros Hl Hn Hin. etrans; [|apply (filter_app_complement (fun p : string * VarContainer => p.1 ∈ names) l)].
  apply Permutation_app; [|done]. apply NoDup_Permutation.
  - apply (NoDup_fmap_1 fst). by rewrite project_names.
  - by apply NoDup_filter, (NoDup_fmap_1 fst).
  - intros [k x]. rewrite list_elem_of_filter. unfold project_members. rewrite list_elem_of_fmap. cbn.
    split.
    + intros (j & [= -> ->] & Hj). split; [done|]. unfold get_member.
      destruct (KeyVec.lookup_first j l) eqn:E; [by apply lookup_first_find in E|].
      apply lookup_first_None in E. by destruct E; apply Hin.
    + intros [Hk Hx]. exists k. unfold get_member. by rewrite (lookup_first_elem l k x).
Qed.

Lemma wf_struct_of l : NoDup l.*1 -> Forall (fun p => wf p.2) l -> wf (struct_of l).
Proof. by constructor. Qed.

(** The struct transformers.  On a well-formed struct, [project] keeps the
    named members in the order asked for and asserts when one is missing;
    [project_without] keeps the others in their order; [join_with] appends the
    members of another struct and asserts exactly when the two share a name; and
    joining the projection to some members with the projection to the rest gives
    a well-formed struct with the members of the original. *)
Theorem project_join l r names :
  NoDup l.*1 -> Forall (fun p => wf p.2) l -> NoDup r.*1 ->
  project (struct_of l) names =
    (if decide (Forall (fun k => k ∈ l.*1) names)
     then Ok (struct_of ((fun k => (k, get_member l k)) <$> names)) else Fail EAssert) /\
  project_without (struct_of l) names = Ok (struct_of (filter (fun p => p.1 ∉ names) l)) /\
  join_with (struct_of l) (struct_of r) =
    (if decide (Forall (fun k => k ∉ r.*1) l.*1) then Ok (struct_of (l ++ r)) else Fail EAssert) /\
  (NoDup names -> Forall (fun k => k ∈ l.*1) names ->
   exists p q j, project (struct_of l) names = Ok p /\ project_without (struct_of l) names = Ok q /\
     join_with p q = Ok j /\ wf j /\ forall k, member j k = member (struct_of l) k).
Proof.
  intros Hl Hw Hr. split; [|split; [by apply project_without_ok|split; [by apply join_with_run|]]].
  - case_decide as Hn; [apply project_ok; by apply Forall_forall|].
    apply not_Forall_Exists, Exists_exists in Hn as (k & Hk & Hn); [|apply _].
    by apply (project_fail l names k).
  - intros Hn Hin. rewrite Forall_forall in Hin.
    pose proof (split_perm l names Hl Hn Hin) as Hp.
    assert (Hpn : NoDup (project_members l names ++ without l names).*1) by by rewrite Hp.
    assert (Hpd := Hpn). rewrite fmap_app in Hpd. apply NoDup_app in Hpd as (H1 & Hd & H2).
    exists (struct_of (project_members l names)), (struct_of (without l names)),
      (struct_of (project_members l names ++ without l names)).
    split; [by apply project_ok|]. split; [by apply project_without_ok|]. split.
    { rewrite join_with_run, decide_True; [done|by apply Forall_forall|done|done]. }
    split; [apply wf_struct_of; [done|by rewrite Hp]|]. intros k. by apply member_perm.
Qed.

(** ** What [Make] builds *)
Definition prim (v : VarContainer) : option Expr :=
  if v is VarPrimitive e then Some e else None.
Definition leaves (v : VarContainer) : list Expr := omap prim (visits v).

Lemma omap_flat_map {A B C} (f : B -> option C) (g : A -> list B) l :
  omap f (flat_map g l) = flat_map (fun a => omap f (g a)) l.
Proof. induction l as [|a l IH]; [done|]. cbn. by rewrite omap_app, IH. Qed.

Lemma leaves_vector t l : leaves (VarVector t l) = flat_map leaves l.
Proof. unfold leaves. cbn. by rewrite omap_flat_map. Qed.
Lemma leaves_struct t l : leaves (VarStruct t l) = flat_map (fun p => leaves p.2) l.
Proof. unfold leaves. cbn. by rewrite omap_flat_map. Qed.

(** The names of the variables of an object. *)
Definition elem_name (name : string) (part : string) : string := (name +:+ "_") +:+ part +:+ "_".

Fixpoint leaf_names (name : string) (t : Sort) : list string :=
  match t with
  | SortStruct ms => flat_map (fun p => leaf_names (elem_name name p.1) p.2) ms
  | SortVector da n =>
      flat_map (fun i => leaf_names (elem_name name (pretty (Z.of_nat i))) da) (seq 0 (Z.to_nat n))
  | _ => [name]
  end.

(** Sorts the constructors accept whose members have different names, free of
    the separator. *)
Fixpoint plain (t : Sort) : bool :=
  match t with
  | SortStruct ms =>
      bool_decide (NoDup ms.*1) && forallb (fun p => str_no "_" p.1 && plain p.2) ms
  | SortVector da n => (0 <=? n) && plain da
  | _ => true
  end.

Record made (name : string) (t : Sort) (w : World) (v : VarContainer) (w' : World) : Prop := {
  made_sort : sort v = t;
  made_wf : wf v;
  made_names : Exprs.name <$> leaves v = leaf_names name t;
  made_ilas : w_ilas w' = w_ilas w;
  made_instrs : w_instrs w' = w_instrs w;
  made_counter : (counter_ w <= counter_ w')%N;
  made_vars e : e ∈ leaves v ->
    Exprs.is_var e = true /\ Exprs.host e = None /\ (counter_ w < Exprs.id e <= counter_ w')%N }.

Lemma made_prim name s w : prim_sort s = true ->
  let h := {| h_id := (counter_ w + 1)%N; h_name := name; h_host := None; h_sort := s |} in
  made name s w (VarPrimitive (ExprVar h [])) (ExprOps.bump w).
Proof.
  intros Hs. split; cbn; [done|by constructor|by destruct s|done|done|lia|].
  intros e ->%list_elem_of_singleton. cbn. unfold Exprs.id; cbn. split; [done|]. split; [done|lia].
Qed.

(** Several containers built one after the other. *)
Inductive made_all {A} (nm : A -> string) (st : A -> Sort) :
    list A -> World -> list VarContainer -> World -> Prop :=
| made_nil w : made_all nm st [] w [] w
| made_cons a l w v w1 vs w2 :
    made (nm a) (st a) w v w1 -> made_all nm st l w1 vs w2 -> made_all nm st (a :: l) w (v :: vs) w2.

Lemma made_all_run {A} (nm : A -> string) (st : A -> Sort) l w vs w' :
  made_all nm st l w vs w' ->
  length vs = length l /\ Forall2 (fun a v => sort v = st a) l vs /\ Forall wf vs /\
  Exprs.name <$> flat_map leaves vs = flat_map (fun a => leaf_names (nm a) (st a)) l /\
  w_ilas w' = w_ilas w /\ w_instrs w' = w_instrs w /\ (counter_ w <= counter_ w')%N /\
  forall e, e ∈ flat_map leaves vs ->
    Exprs.is_var e = true /\ Exprs.host e = None /\ (counter_ w < Exprs.id e <= counter_ w')%N.
Proof.
  induction 1 as [w|a l w v w1 vs w2 [] _ (Hl & Hs & Hw & Hn & Hi & Hii & Hc & He)]; cbn.
  { split_and!; try done. by intros e ?%elem_of_nil. }
  split; [by rewrite Hl|]. split; [by constructor|]. split; [by constructor|].
  split; [by rewrite fmap_app, made_names0, Hn|]. split; [congruence|]. split; [congruence|].
  split; [lia|]. intros e [H|H]%elem_of_app.
  - destruct (made_vars0 _ H) as (?&?&?). split_and!; [done..|lia|lia].
  - destruct (He _ H) as (?&?&?). split_and!; [done..|lia|lia].
Qed.

Lemma Make_run t : plain t = true -> forall name w, exists v w',
  Make name t w = Ok (v, w') /\ made name t w v w'.
Proof.
  induction t as [|bw|aw dw|ms IH|da n IH] using Sort_ind'; intros Hp name w;
    try (eexists _, _; split; [reflexivity|by apply made_prim]).
  - cbn [plain] in Hp. bool_inv. cbn [Make].
    match goal with |- context [(?g ms ≫= _) w] => set (go := g) end.
    assert (Hgo : exists sc w', go ms w = Ok (sc, w') /\ sc.*1 = ms.*1 /\
              made_all (fun p => elem_name name p.1) snd ms w sc.*2 w').
    { clear H. revert w. induction IH as [|[k s] ms Hs _ IHms]; intros w.
      { exists [], w. split; [done|]. split; [done|constructor]. }
      cbn in H0. apply andb_true_iff in H0 as [[_ H1]%andb_true_iff H2].
      destruct (Hs H1 (elem_name name k) w) as (v & w1 & E1 & H1').
      destruct (IHms H2 w1) as (sc & w2 & E2 & Hn & Ha). exists ((k, v) :: sc), w2. split.
      - cbn in E1 |- *. fold (elem_name name k). rewrite (ST_bind_run _ _ _ _ _ E1), (ST_bind_run _ _ _ _ _ E2). done.
      - split; [by cbn; rewrite Hn|]. by econstructor. }
    destruct Hgo as (sc & w' & E & Hn & (Hl & Hs & Hw & Hnm & Hi & Hii & Hc & He)%made_all_run).
    exists (VarStruct (SortStruct ms) sc), w'. rewrite (ST_bind_run _ _ _ _ _ E). split; [done|].
    assert (Hms : ms = row_sort sc).
    { clear -Hn Hs. revert ms Hn Hs. induction sc as [|[k v] sc IH]; intros [|[j s] ms] Hn Hs; try done.
      cbn in *. injection Hn as -> Hn. apply Forall2_cons in Hs as [Hs Hss]. cbn in Hs.
      unfold row_sort; cbn. f_equal; [by f_equal|]. by apply IH. }
    assert (Hlv : flat_map leaves sc.*2 = leaves (VarStruct (SortStruct ms) sc)).
    { rewrite leaves_struct. clear. induction sc as [|[k v] sc IH]; [done|]. cbn. by rewrite IH. }
    rewrite Hlv in Hnm, He. split; cbn [leaf_names]; try done.
    rewrite Hms. constructor; [by rewrite Hn|]. rewrite Forall_forall in Hw. apply Forall_forall.
    intros p Hq. by apply Hw, list_elem_of_fmap_2.
  - cbn [plain] in Hp. bool_inv. cbn [Make].
    match goal with |- context [(?g 0%nat (Z.to_nat n) ≫= _) w] => set (go := g) end.
    assert (Hgo : forall k i w, exists vc w', go i k w = Ok (vc, w') /\
              made_all (fun i => elem_name name (pretty (Z.of_nat i))) (fun _ => da) (seq i k) w vc w').
    { clear w. induction k as [|k IHk]; intros i w; [exists [], w; split; [done|constructor]|].
      destruct (IH H0 (elem_name name (pretty (Z.of_nat i))) w) as (v & w1 & E1 & H1).
      destruct (IHk (S i) w1) as (vc & w2 & E2 & Ha). exists (v :: vc), w2. split.
      - cbn. fold (elem_name name (pretty (Z.of_nat i))).
        rewrite (ST_bind_run _ _ _ _ _ E1), (ST_bind_run _ _ _ _ _ E2). done.
      - by econstructor. }
    destruct (Hgo (Z.to_nat n) 0%nat w)
      as (vc & w' & E & (Hl & Hs & Hw & Hnm & Hi & Hii & Hc & He)%made_all_run).
    rewrite length_seq in Hl.
    exists (VarVector (SortVector da n) vc), w'. rewrite (ST_bind_run _ _ _ _ _ E). split; [done|].
    split; cbn [leaf_names]; rewrite ?leaves_vector; try done.
    replace n with (Z.of_nat (length vc)) by lia. constructor; [done|].
    clear -Hs. induction Hs; by constructor.
Qed.

(** The names are different: each tells the path to its variable. *)
Lemma leaf_prefix t : forall name x, x ∈ leaf_names name t -> exists s, x = name +:+ s.
Proof.
  induction t as [|bw|aw dw|ms IH|da n IH] using Sort_ind'; intros name x; cbn [leaf_names];
    try (intros ->%list_elem_of_singleton; exists ""; by rewrite str_app_nil).
  - rewrite list_elem_of_In, in_flat_map. intros (p & Hp & Hx).
    rewrite Forall_forall in IH. apply list_elem_of_In in Hp, Hx.
    destruct (IH _ Hp _ _ Hx) as [s ->]. eexists. unfold elem_name. by rewrite <- !str_app_assoc.
  - rewrite list_elem_of_In, in_flat_map. intros (i & Hi & Hx). apply list_elem_of_In in Hx.
    destruct (IH _ _ Hx) as [s ->]. eexists. unfold elem_name. by rewrite <- !str_app_assoc.
Qed.

Lemma elem_name_inj name k k' s s' : str_no "_" k = true -> str_no "_" k' = true ->
  elem_name name k +:+ s = elem_name name k' +:+ s' -> k = k'.
Proof.
  intros Hk Hk'. unfold elem_name. rewrite <- !str_app_assoc. intros E.
  apply (inj (String.append name)) in E. cbn in E. injection E as E.
  by apply str_split in E as [-> _].
Qed.

Lemma flat_map_nodup {A B} (f : A -> list B) l :
  NoDup l -> (forall a, a ∈ l -> NoDup (f a)) ->
  (forall a a' x, a ∈ l -> a' ∈ l -> x ∈ f a -> x ∈ f a' -> a = a') -> NoDup (flat_map f l).
Proof.
  induction l as [|a l IH]; intros Hl Hf Hd; cbn; [constructor|].
  apply NoDup_cons in Hl as [Ha Hl]. apply NoDup_app. split; [apply Hf; by left|]. split.
  - intros x Hx Hx'. apply list_elem_of_In, in_flat_map in Hx' as (a' & Ha' & Hx').
    apply list_elem_of_In in Ha', Hx'. apply Ha.
    by rewrite (Hd a a' x (list_elem_of_here _ _) (list_elem_of_further _ _ _ Ha') Hx Hx').
  - apply IH; [done|intros; apply Hf; by right|]. intros a1 a2 x H1 H2. apply Hd; by right.
Qed.

Lemma leaf_names_nodup t : plain t = true -> forall name, NoDup (leaf_names name t).
Proof.
  induction t as [|bw|aw dw|ms IH|da n IH] using Sort_ind'; intros Hp name; cbn [leaf_names plain] in *;
    try apply NoDup_singleton; bool_inv.
  - rewrite forallb_forall in H0. rewrite Forall_forall in IH.
    assert (Hin : forall p, p ∈ ms -> str_no "_" p.1 = true /\ plain p.2 = true).
    { intros p Hq. apply andb_true_iff, H0. by apply list_elem_of_In. }
    apply flat_map_nodup; [by eapply NoDup_fmap_1|intros p Hq; by apply IH, Hin|].
    intros p q x Hq Hq' [s Hs]%leaf_prefix [s' Hs']%leaf_prefix. rewrite Hs in Hs'.
    apply elem_name_inj in Hs'; [|by apply Hin..].
    destruct p as [k a], q as [k' b]; cbn in *. subst k'. f_equal.
    pose proof (find_member_ok _ _ _ H Hq). pose proof (find_member_ok _ _ _ H Hq'). congruence.
  - apply flat_map_nodup; [apply NoDup_seq|intros i _; by apply IH|].
    intros i j x _ _ [s Hs]%leaf_prefix [s' Hs']%leaf_prefix. rewrite Hs in Hs'.
    apply elem_name_inj in Hs'; [|by apply digits_no, pretty_Z_digits; [|lia]..].
    apply (inj pretty) in Hs'. lia.
Qed.

(** Two vectors and a flag. *)
Module Sample.
Definition flag (i : N) : VarContainer :=
  VarPrimitive (IlaOk.nil_var i (pretty i) SortBool).
Definition pair_of (i j : N) : VarContainer := VarVector (SortVector SortBool 2) [flag i; flag j].
Definition table : list (string * VarContainer) := [("a", pair_of 1 2); ("b", pair_of 3 4)].
Definition mixed : list (string * VarContainer) := table ++ [("c", flag 5)].

Lemma wf_pair i j : wf (pair_of i j).
Proof. apply (wf_vector SortBool [flag i; flag j]); each; by constructor. Qed.

Lemma table_names : NoDup table.*1.
Proof. apply (bool_decide_unpack _). reflexivity. Qed.
Lemma mixed_names : NoDup mixed.*1.
Proof. apply (bool_decide_unpack _). reflexivity. Qed.
Lemma mixed_wf : Forall (fun p => wf p.2) mixed.
Proof. each; cbn; auto using wf_pair. by constructor. Qed.
End Sample.

Lemma zip_unzip_witness :
  exists z, zip (struct_of Sample.table) = Ok z /\ unzip z = Ok (struct_of Sample.table).
Proof.
  destruct (zip_unzip (struct_of Sample.table)) as [H _].
  - apply wf_struct_of; [exact Sample.table_names|]. each; apply Sample.wf_pair.
  - destruct (H _ Sample.table 2 eq_refl ltac:(done)) as (z & Hz & _ & Hu & _).
    + intros p [->|[->|[]%elem_of_nil]%elem_of_cons]%elem_of_cons; by exists SortBool.
    + exists z. split; [exact Hz|exact Hu].
Defined.

Lemma project_join_witness :
  exists p q j, project (struct_of Sample.mixed) ["c"] = Ok p /\
    project_without (struct_of Sample.mixed) ["c"] = Ok q /\ join_with p q = Ok j.
Proof.
  destruct (project_join Sample.mixed [] ["c"] Sample.mixed_names Sample.mixed_wf (NoDup_nil_2))
    as (_ & _ & _ & H).
  destruct H as (p & q & j & Hp & Hq & Hj & _).
  - apply (bool_decide_unpack _). reflexivity.
  - apply (bool_decide_unpack _). reflexivity.
  - exists p, q, j. split; [exact Hp|]. split; [exact Hq|exact Hj].
Defined.
End Vars.
