(* ===== verification/AstHub.v ===== *)
(** * The expression-building interface

    [src/ila/ast_hub.cc]: the functions clients build expressions with.  C++
    overloads are told apart by a suffix: none for two expressions, [_c] for an
    expression and a constant. *)
From S2P Require Import Prelude Sort Values Container Expr World ExprOp.
Local Open Scope Z_scope.

Module asthub.
Export ExprVars ExprConsts ExprOps.
Section api.
Context {L : Layout}.

Definition NewBoolVar (name : string) : M Expr := ExprVar_bool name.
Definition NewBvVar (name : string) (bit_width : Z) : M Expr := ExprVar_bv name bit_width.
Definition NewMemVar (name : string) (addr_width data_width : Z) : M Expr :=
  ExprVar_mem name addr_width data_width.

Definition BoolConst (val : bool) : M Expr := ExprConst_bool val.
Definition BvConst (val : Z) (bit_width : Z) : M Expr := ExprConst_bv val bit_width.
Definition MemConst (def_val : Z) (addr_width data_width : Z) : M Expr :=
  ExprConst_mem (SortValue.MemVal_def def_val) addr_width data_width.
Definition MemConst_val (val : SortValue.MemVal) (addr_width data_width : Z) : M Expr :=
  ExprConst_mem val addr_width data_width.

Definition Negate (arg : Expr) : M Expr := ExprOpNeg arg.
Definition Not (arg : Expr) : M Expr := ExprOpNot arg.
Definition Complement (arg : Expr) : M Expr := ExprOpCompl arg.

Definition Eq (l r : Expr) : M Expr := ExprOpEq l r.

(** The constant next to [l] in [Eq(l, v)] and [Ne(l, v)]. *)
Definition rc_of (l : Expr) (r : Z) : M Expr :=
  if Exprs.is_bool l then BoolConst (r =? 1)
  else w ← lift (Sorts.bit_width (Exprs.sort l)); BvConst r w.
Definition Eq_c (l : Expr) (r : Z) : M Expr := rc ← rc_of l r; Eq l rc.

(** [And], [Or] and [Xor] share this body: equal sorts build the node, and one
    Boolean next to a one-bit vector is called again with the latter compared
    to 1.  The second call has equal sorts: two levels are all there is. *)
Fixpoint mixed (ctor : Expr -> Expr -> M Expr) (n : nat) (l r : Expr) : M Expr :=
  match n with
  | O => lift (Fail EDiverge)
  | S n =>
      if Sorts.Equal (Exprs.sort l) (Exprs.sort r) then ctor l r
      else if Exprs.is_bv l 1 && Exprs.is_bool r then
        l' ← Eq_c l 1; mixed ctor n l' r
      else
        assert_ (Exprs.is_bool l && Exprs.is_bv r 1);;
        r' ← Eq_c r 1; mixed ctor n l r'
  end.
Definition And (l r : Expr) : M Expr := mixed ExprOpAnd 2 l r.
Definition Or (l r : Expr) : M Expr := mixed ExprOpOr 2 l r.
Definition Xor (l r : Expr) : M Expr := mixed ExprOpXor 2 l r.

Definition Shl (l r : Expr) : M Expr := ExprOpShl l r.
Definition Ashr (l r : Expr) : M Expr := ExprOpAshr l r.
Definition Lshr (l r : Expr) : M Expr := ExprOpLshr l r.
Definition Add (l r : Expr) : M Expr := ExprOpAdd l r.
Definition Sub (l r : Expr) : M Expr := ExprOpSub l r.
Definition Div (l r : Expr) : M Expr := ExprOpDiv l r.
Definition SRem (l r : Expr) : M Expr := ExprOpSRem l r.
Definition URem (l r : Expr) : M Expr := ExprOpURem l r.
Definition SMod (l r : Expr) : M Expr := ExprOpSMod l r.
Definition Mul (l r : Expr) : M Expr := ExprOpMul l r.

Definition And_c (l : Expr) (r : bool) : M Expr := rc ← BoolConst r; And l rc.
Definition Or_c (l : Expr) (r : bool) : M Expr := rc ← BoolConst r; Or l rc.
Definition Xor_c (l : Expr) (r : bool) : M Expr := rc ← BoolConst r; Xor l rc.

(** A bit-vector constant of the width of [l]. *)
Definition bv_like (l : Expr) (r : Z) : M Expr :=
  w ← lift (Sorts.bit_width (Exprs.sort l)); BvConst r w.

(** The [int] operand of a shift is converted to [uint64_t]. *)
Definition Shl_c (l : Expr) (r : Z) : M Expr := rc ← bv_like l (SortValue.uint64 r); Shl l rc.
Definition Ashr_c (l : Expr) (r : Z) : M Expr :=
  rc ← bv_like l (SortValue.uint64 r); Ashr l rc.
Definition Lshr_c (l : Expr) (r : Z) : M Expr :=
  rc ← bv_like l (SortValue.uint64 r); Lshr l rc.
Definition Add_c (l : Expr) (r : Z) : M Expr := rc ← bv_like l r; Add l rc.
Definition Sub_c (l : Expr) (r : Z) : M Expr := rc ← bv_like l r; Sub l rc.
Definition Mul_c (l : Expr) (r : Z) : M Expr := rc ← bv_like l r; Mul l rc.

Definition Ne (l r : Expr) : M Expr := eq ← ExprOpEq l r; ExprOpNot eq.
Definition Lt (l r : Expr) : M Expr := ExprOpLt l r.
Definition Gt (l r : Expr) : M Expr := ExprOpGt l r.
Definition Le (l r : Expr) : M Expr :=
  eq ← ExprOpEq l r; lt ← ExprOpLt l r; ExprOpOr eq lt.
Definition Ge (l r : Expr) : M Expr :=
  eq ← ExprOpEq l r; gt ← ExprOpGt l r; ExprOpOr eq gt.
Definition Ult (l r : Expr) : M Expr := ExprOpUlt l r.
Definition Ugt (l r : Expr) : M Expr := ExprOpUgt l r.
Definition Ule (l r : Expr) : M Expr :=
  eq ← ExprOpEq l r; ult ← ExprOpUlt l r; ExprOpOr eq ult.
Definition Uge (l r : Expr) : M Expr :=
  eq ← ExprOpEq l r; ugt ← ExprOpUgt l r; ExprOpOr eq ugt.

Definition Ne_c (l : Expr) (r : Z) : M Expr := rc ← rc_of l r; Ne l rc.
Definition Lt_c (l : Expr) (r : Z) : M Expr := rc ← bv_like l r; Lt l rc.
Definition Gt_c (l : Expr) (r : Z) : M Expr := rc ← bv_like l r; Gt l rc.
Definition Le_c (l : Expr) (r : Z) : M Expr := rc ← bv_like l r; Le l rc.
Definition Ge_c (l : Expr) (r : Z) : M Expr := rc ← bv_like l r; Ge l rc.
Definition Ult_c (l : Expr) (r : Z) : M Expr := rc ← bv_like l r; Ult l rc.
Definition Ugt_c (l : Expr) (r : Z) : M Expr := rc ← bv_like l r; Ugt l rc.
Definition Ule_c (l : Expr) (r : Z) : M Expr := rc ← bv_like l r; Ule l rc.
Definition Uge_c (l : Expr) (r : Z) : M Expr := rc ← bv_like l r; Uge l rc.

Definition Load (mem addr : Expr) : M Expr := ExprOpLoad mem addr.
Definition Store (mem addr data : Expr) : M Expr := ExprOpStore mem addr data.
Definition Load_c (mem : Expr) (addr : Z) : M Expr :=
  w ← lift (Sorts.addr_width (Exprs.sort mem));
  ac ← BvConst addr w;
  Load mem ac.
Definition Store_c (mem : Expr) (addr data : Z) : M Expr :=
  w ← lift (Sorts.addr_width (Exprs.sort mem));
  ac ← BvConst addr w;
  w ← lift (Sorts.data_width (Exprs.sort mem));
  dc ← BvConst data w;
  Store mem ac dc.

(** [SetMemSize] writes the parameters of the node in place; the model returns
    the written node next to the status. *)
Definition set_params (e : Expr) (ps : list Z) : Expr :=
  match e with
  | ExprVar h _ => ExprVar h ps
  | ExprConst h v _ => ExprConst h v ps
  | ExprOp h op fn args _ => ExprOp h op fn args ps
  end.
Definition SetMemSize (mem : Expr) (size : Z) : Res (bool * Expr) :=
  ila_assert (Exprs.is_mem mem);;
  ila_assert (0 <? size);;
  if (Exprs.param_num mem =? 0)%nat then Ok (true, set_params mem [size])
  else Ok (false, mem).
Definition GetMemSize (mem : Expr) : Res Z :=
  ila_assert (Exprs.is_mem mem);;
  if (Exprs.param_num mem =? 0)%nat then Ok 0
  else ila_assert (Exprs.param_num mem =? 1)%nat;; Exprs.param mem 0.

Definition Ite (cnd true_expr false_expr : Expr) : M Expr :=
  ExprOpIte cnd true_expr false_expr.

Definition Concat (hi lo : Expr) : M Expr :=
  const_zero ← BvConst 0 1;
  const_one ← BvConst 1 1;
  bv_hi ← if Exprs.is_bool hi then Ite hi const_one const_zero else mret hi;
  bv_lo ← if Exprs.is_bool lo then Ite lo const_one const_zero else mret lo;
  ExprOpConcat bv_hi bv_lo.

Definition Extract (bv : Expr) (hi lo : Z) : M Expr := ExprOpExtract bv hi lo.
Definition ZExt (bv : Expr) (out_width : Z) : M Expr := ExprOpZExt bv out_width.
Definition SExt (bv : Expr) (out_width : Z) : M Expr := ExprOpSExt bv out_width.
Definition LRotate (bv : Expr) (immediate : Z) : M Expr := ExprOpLRotate bv immediate.
Definition RRotate (bv : Expr) (immediate : Z) : M Expr := ExprOpRRotate bv immediate.

Definition AppFunc0 (func : Func) : M Expr := ExprOpAppFunc func [].
Definition AppFunc1 (func : Func) (arg0 : Expr) : M Expr := ExprOpAppFunc func [arg0].
Definition AppFunc2 (func : Func) (arg0 arg1 : Expr) : M Expr :=
  ExprOpAppFunc func [arg0; arg1].
Definition AppFunc (func : Func) (args : list Expr) : M Expr := ExprOpAppFunc func args.

Definition Imply (p q : Expr) : M Expr := ExprOpImply p q.
End api.

(** ** What the calls denote

    [yields m w s f]: the call [m] succeeds in [w] with a well-sorted expression
    of sort [s] whose value in every sort-respecting environment is [f]. *)
Definition yields (m : M Expr) (w : World) (s : Sort) (f : Env -> option val) : Prop :=
  exists e w', m w = Ok (e, w') /\ wt e = true /\ Exprs.sort e = s /\
    forall ρ, env_ok ρ -> eval ρ e = f ρ.

Section yields.
Context {L : Layout}.

Lemma yields_bind m k w s s' f g :
  yields m w s f ->
  (forall e w', wt e = true -> Exprs.sort e = s ->
     (forall ρ, env_ok ρ -> eval ρ e = f ρ) -> yields (k e) w' s' g) ->
  yields (m ≫= k) w s' g.
Proof.
  intros (e & w' & Hm & Hw & Hs & He) Hk.
  destruct (Hk e w' Hw Hs He) as (e' & w'' & Hk' & Hrest).
  exists e', w''. split; [|done]. unfold mbind, ST_bind. by rewrite Hm.
Qed.

Lemma yields_weaken m w s f g :
  (forall ρ, env_ok ρ -> f ρ = g ρ) -> yields m w s f -> yields m w s g.
Proof.
  intros Hfg (e & w' & Hm & Hw & Hs & He). exists e, w'. split_and!; [done..|].
  intros ρ Hρ. rewrite He by done. by apply Hfg.
Qed.

Lemma yields_run_eq m m' w s f : m w = m' w -> yields m' w s f -> yields m w s f.
Proof. unfold yields. by intros ->. Qed.

Lemma yields_ret e w f :
  wt e = true -> (forall ρ, env_ok ρ -> eval ρ e = f ρ) ->
  yields (mret e) w (Exprs.sort e) f.
Proof. intros. exists e, w. done. Qed.

Lemma yields_op op args ps m w s :
  construct op args ps = Some m -> Forall (fun a => wt a = true) args ->
  op_sort op ps (Exprs.sort <$> args) = Some s ->
  yields m w s (fun ρ => evals ρ args ≫= op_sem op ps).
Proof.
  intros Hc Hargs Hs.
  assert (Hss : Forall (fun s => sort_ok s = true) (Exprs.sort <$> args)).
  { apply Forall_fmap. eapply Forall_impl; [done|]. apply wt_sort_ok. }
  pose proof (ctor_sort_spec op ps _ Hss) as Hs'. rewrite Hs in Hs'.
  eexists _, _. split; [by rewrite (construct_run _ _ _ _ w Hc), Hs'|].
  split; [by apply wt_node|]. split; [done|]. intros ρ _. unfold node. by rewrite eval_op.
Qed.

Lemma yields_op2 op a b m w s :
  construct op [a; b] [] = Some m -> wt a = true -> wt b = true ->
  op_sort op [] [Exprs.sort a; Exprs.sort b] = Some s ->
  yields m w s (fun ρ => x ← eval ρ a; y ← eval ρ b; op_sem op [] [x; y]).
Proof.
  intros Hc Ha Hb Hs. eapply yields_weaken; [|by eapply yields_op; [|repeat constructor|]].
  intros ρ _. unfold evals. cbn. destruct (eval ρ a); [|done]. cbn. by destruct (eval ρ b).
Qed.

Lemma shiftr_small v n : 0 < n -> 0 <= v < 2 ^ n -> Z.shiftr v n = 0.
Proof. intros. rewrite Z.shiftr_div_pow2 by lia. by apply Z.div_small. Qed.

Lemma shiftr_large v n : 0 < n -> 2 ^ n <= v -> Z.shiftr v n <> 0.
Proof.
  intros. rewrite Z.shiftr_div_pow2 by lia.
  enough (1 <= v / 2 ^ n) by lia. apply Z.div_le_lower_bound; lia.
Qed.

Lemma BvConst_yields v n w : 0 < n -> 0 <= v < 2 ^ n ->
  yields (BvConst v n) w (SortBv n) (fun _ => Some (VBv n v)).
Proof.
  intros Hn Hv. unfold BvConst, ExprConst_bv, check_, lift.
  eexists _, _. split.
  { cbv [mbind ST_bind Res_bind]. rewrite (proj2 (Z.ltb_lt 0 n)) by done. cbn [ila_check].
    rewrite shiftr_small, orb_true_r by done. cbn. reflexivity. }
  cbn [wt const_ok h_sort Exprs.sort Exprs.hdr eval const_sem].
  split; [|split; [done|]].
  - unfold Sorts.MakeBvSort, const_ok. rewrite !andb_true_iff, Z.leb_le, !Z.ltb_lt. lia.
  - intros ρ _. unfold Sorts.MakeBvSort, const_sem. by rewrite Bits.wrap_small.
Qed.

Lemma BvConst_fails v n w : 0 < n < 64 -> 2 ^ n <= v -> BvConst v n w = Fail ECheck.
Proof.
  intros Hn Hv. unfold BvConst, ExprConst_bv, check_, lift. cbv [mbind ST_bind Res_bind].
  rewrite (proj2 (Z.ltb_lt 0 n)) by lia. cbn [ila_check].
  unfold SortValue.BvValTypeBitWidth. rewrite (proj2 (Z.leb_gt 64 n)) by lia.
  pose proof (shiftr_large v n ltac:(lia) Hv) as Hs.
  rewrite (proj2 (Z.eqb_neq _ _) Hs). done.
Qed.

Lemma BoolConst_yields b w :
  yields (BoolConst b) w SortBool (fun _ => Some (VBool b)).
Proof. eexists _, _. split; [done|]. done. Qed.

Lemma bv_like_run l v w n : Exprs.sort l = SortBv n -> bv_like l v w = BvConst v n w.
Proof. intros H. unfold bv_like, lift. cbv [mbind ST_bind]. by rewrite H. Qed.

Lemma wt_width l n : wt l = true -> Exprs.sort l = SortBv n -> 0 < n.
Proof.
  intros Hw Hs. apply wt_sort_ok in Hw. rewrite Hs in Hw. cbn in Hw. by apply Z.ltb_lt.
Qed.

Lemma bv_like_yields l n v w :
  wt l = true -> Exprs.sort l = SortBv n -> 0 <= v < 2 ^ n ->
  yields (bv_like l v) w (SortBv n) (fun _ => Some (VBv n v)).
Proof.
  intros Hl Hs Hv. eapply yields_run_eq; [by apply bv_like_run|].
  apply BvConst_yields; [by eapply wt_width|done].
Qed.

Lemma eval_bv ρ l n : env_ok ρ -> wt l = true -> Exprs.sort l = SortBv n ->
  exists x, eval ρ l = Some (VBv n x) /\ 0 <= x < 2 ^ n.
Proof.
  intros Hρ Hw Hs. destruct (eval_sound _ _ Hρ Hw) as (v & Hv & Hsort).
  rewrite Hs in Hsort. apply has_sort_bv in Hsort as (x & -> & _ & ?). eauto.
Qed.

Lemma eval_bool ρ l : env_ok ρ -> wt l = true -> Exprs.sort l = SortBool ->
  exists b, eval ρ l = Some (VBool b).
Proof.
  intros Hρ Hw Hs. destruct (eval_sound _ _ Hρ Hw) as (v & Hv & Hsort).
  rewrite Hs in Hsort. apply has_sort_bool in Hsort as [b ->]. eauto.
Qed.

(** ** Arithmetic and order *)
Inductive BinKind :=
| BAdd | BSub | BMul | BShl | BAshr | BLshr
| BLt | BGt | BLe | BGe | BUlt | BUgt | BUle | BUge.

Definition bin_api (k : BinKind) : Expr -> Expr -> M Expr :=
  match k with
  | BAdd => Add | BSub => Sub | BMul => Mul | BShl => Shl | BAshr => Ashr | BLshr => Lshr
  | BLt => Lt | BGt => Gt | BLe => Le | BGe => Ge
  | BUlt => Ult | BUgt => Ugt | BUle => Ule | BUge => Uge
  end.
Definition bin_api_c (k : BinKind) : Expr -> Z -> M Expr :=
  match k with
  | BAdd => Add_c | BSub => Sub_c | BMul => Mul_c
  | BShl => Shl_c | BAshr => Ashr_c | BLshr => Lshr_c
  | BLt => Lt_c | BGt => Gt_c | BLe => Le_c | BGe => Ge_c
  | BUlt => Ult_c | BUgt => Ugt_c | BUle => Ule_c | BUge => Uge_c
  end.

(** The value on two [n]-bit words. *)
Definition bin_sem (k : BinKind) (n x y : Z) : val :=
  match k with
  | BAdd => VBv n (Bits.wrap n (x + y))
  | BSub => VBv n (Bits.wrap n (x - y))
  | BMul => VBv n (Bits.wrap n (x * y))
  | BShl => VBv n (Bits.shl n x y)
  | BAshr => VBv n (Bits.ashr n x y)
  | BLshr => VBv n (Bits.lshr n x y)
  | BLt => VBool (Bits.sgn n x <? Bits.sgn n y)
  | BGt => VBool (Bits.sgn n y <? Bits.sgn n x)
  | BLe => VBool (Bits.sgn n x <=? Bits.sgn n y)
  | BGe => VBool (Bits.sgn n y <=? Bits.sgn n x)
  | BUlt => VBool (x <? y)
  | BUgt => VBool (y <? x)
  | BUle => VBool (x <=? y)
  | BUge => VBool (y <=? x)
  end.
Definition bin_sort (k : BinKind) (n : Z) : Sort :=
  match k with
  | BAdd | BSub | BMul | BShl | BAshr | BLshr => SortBv n
  | _ => SortBool
  end.

Definition on_words (ρ : Env) (l r : Expr) (f : Z -> Z -> val) : option val :=
  match eval ρ l, eval ρ r with
  | Some (VBv _ x), Some (VBv _ y) => Some (f x y)
  | _, _ => None
  end.

Lemma sgn_inj n x y :
  0 <= x < 2 ^ n -> 0 <= y < 2 ^ n -> Bits.sgn n x = Bits.sgn n y -> x = y.
Proof. unfold Bits.sgn. intros. repeat case_match; bool_inv; lia. Qed.

Lemma le_eq_or_lt a b : bool_decide (a = b) || (a <? b) = (a <=? b).
Proof.
  destruct (Z.leb_spec a b), (Z.ltb_spec a b), (bool_decide_reflect (a = b)); done || lia.
Qed.

Section binary.
Context (l r : Expr) (n : Z).
Hypothesis Hl : wt l = true.
Hypothesis Hr : wt r = true.
Hypothesis Hsl : Exprs.sort l = SortBv n.
Hypothesis Hsr : Exprs.sort r = SortBv n.

Lemma words_eval ρ : env_ok ρ -> exists x y,
  eval ρ l = Some (VBv n x) /\ eval ρ r = Some (VBv n y) /\
  0 <= x < 2 ^ n /\ 0 <= y < 2 ^ n.
Proof using Hl Hr Hsl Hsr.
  intros Hρ. destruct (eval_bv ρ l n Hρ Hl Hsl) as (x & ? & ?).
  destruct (eval_bv ρ r n Hρ Hr Hsr) as (y & ? & ?). eauto 10.
Qed.

(** One node on two words. *)
Lemma word_node op f m w s :
  construct op [l; r] [] = Some m ->
  op_sort op [] [SortBv n; SortBv n] = Some s ->
  (forall x y, op_sem op [] [VBv n x; VBv n y] = Some (f x y)) ->
  yields m w s (fun ρ => on_words ρ l r f).
Proof using Hl Hr Hsl Hsr L.
  intros Hc Hs Hf. eapply yields_weaken; [|eapply yields_op2; [done..|by rewrite Hsl, Hsr]].
  intros ρ Hρ. destruct (words_eval ρ Hρ) as (x & y & Hx & Hy & _).
  unfold on_words. rewrite Hx, Hy. apply Hf.
Qed.

(** A comparison joined with equality. *)
Lemma le_node op (f : Z -> Z -> bool) (k : Expr -> Expr -> M Expr) w (g : Z -> Z -> bool) :
  construct op [l; r] [] = Some (k l r) ->
  op_sort op [] [SortBv n; SortBv n] = Some SortBool ->
  (forall x y, op_sem op [] [VBv n x; VBv n y] = Some (VBool (f x y))) ->
  (forall x y, 0 <= x < 2 ^ n -> 0 <= y < 2 ^ n -> bool_decide (x = y) || f x y = g x y) ->
  yields (eq ← ExprOpEq l r; lt ← k l r; ExprOpOr eq lt) w SortBool
    (fun ρ => on_words ρ l r (fun x y => VBool (g x y))).
Proof using Hl Hr Hsl Hsr.
  intros Hc Hs Hf Hg. eapply yields_bind.
  { eapply (word_node kEqual (fun x y => VBool (bool_decide (x = y)))); [done|..].
    - cbn. by rewrite decide_True.
    - intros x y. cbn. do 2 f_equal. apply bool_decide_ext. naive_solver. }
  intros e w1 He1 Hs1 Hv1. eapply yields_bind; [eapply word_node; [exact Hc|exact Hs|exact Hf]|].
  intros e' w2 He2 Hs2 Hv2. eapply yields_weaken;
    [|eapply (yields_op2 kOr); [done..|by rewrite Hs1, Hs2]].
  intros ρ Hρ. cbn beta. rewrite Hv1, Hv2 by done. unfold on_words.
  destruct (words_eval ρ Hρ) as (x & y & -> & -> & ? & ?). cbn. by rewrite Hg.
Qed.

Ltac words := first
    [ cbn; unfold cmp2_sort, bv2_sort;
      match goal with H : forall s, _ = Some s |- _ => by rewrite H end
    | intros; cbn; by rewrite ?Z.eqb_refl, ?Z.gtb_ltb ].
Ltac word op := eapply (word_node op); [reflexivity|words..].

Lemma bin_op_yields k w :
  yields (bin_api k l r) w (bin_sort k n)
    (fun ρ => on_words ρ l r (bin_sem k n)).
Proof using Hl Hr Hsl Hsr.
  pose proof (wt_width l n Hl Hsl) as Hn.
  assert (Hs : forall s, (if (n =? n) && (0 <? n) then Some s else None) = Some (s : Sort)).
  { intros s. by rewrite Z.eqb_refl, (proj2 (Z.ltb_lt 0 n)). }
  destruct k; cbn [bin_api bin_sort].
  - word kAdd.
  - word kSubtract.
  - word kMultiply.
  - word kShiftLeft.
  - word kArithShiftRight.
  - word kLogicShiftRight.
  - word kLessThan.
  - word kGreaterThan.
  - eapply (le_node kLessThan (fun x y => Bits.sgn n x <? Bits.sgn n y)); [reflexivity|words..|].
    intros x y Hx Hy. rewrite <- le_eq_or_lt. f_equal. apply bool_decide_ext.
    split; [by intros ->|by apply sgn_inj].
  - eapply (le_node kGreaterThan (fun x y => Bits.sgn n y <? Bits.sgn n x)); [reflexivity|words..|].
    intros x y Hx Hy. rewrite <- le_eq_or_lt. f_equal. apply bool_decide_ext.
    split; [by intros ->|by intros ?%sgn_inj].
  - word kUnsignedLessThan.
  - word kUnsignedGreaterThan.
  - eapply (le_node kUnsignedLessThan Z.ltb); [reflexivity|words..|].
    intros x y _ _. apply le_eq_or_lt.
  - eapply (le_node kUnsignedGreaterThan (fun x y => y <? x)); [reflexivity|words..|].
    intros x y _ _. rewrite <- le_eq_or_lt. f_equal. apply bool_decide_ext. naive_solver.
Qed.
End binary.

(** C36.  The arithmetic and order functions of the API.  On two well-sorted
    words of the same width each call succeeds and its expression computes the
    operation on the two values: modular arithmetic, shifts, and the eight
    orders - the derived [Le], [Ge], [Ule] and [Uge], built from an equality, a
    strict comparison and a disjunction, are the non-strict orders (signed for
    the first two). *)
Theorem bin_api_spec k l r n w :
  wt l = true -> wt r = true -> Exprs.sort l = SortBv n -> Exprs.sort r = SortBv n ->
  yields (bin_api k l r) w (bin_sort k n) (fun ρ => on_words ρ l r (bin_sem k n)).
Proof. intros. by apply bin_op_yields. Qed.

(** The constant operand of a shift goes through [uint64_t]. *)
Definition const_word (k : BinKind) (v : Z) : Z :=
  match k with BShl | BAshr | BLshr => SortValue.uint64 v | _ => v end.

Lemma bin_api_c_run k l v w :
  bin_api_c k l v w = (rc ← bv_like l (const_word k v); bin_api k l rc) w.
Proof. by destruct k. Qed.

(** C37.  The same functions with a constant operand.  A constant that fits the
    width of the other operand gives the operation with that constant; one that
    does not fit (for widths below 64) stops at the check of the constant, so
    nothing is ever silently truncated. *)
Theorem bin_api_c_spec k l v n w :
  wt l = true -> Exprs.sort l = SortBv n -> 0 <= const_word k v ->
  if const_word k v <? 2 ^ n
  then yields (bin_api_c k l v) w (bin_sort k n) (fun ρ =>
         match eval ρ l with
         | Some (VBv _ x) => Some (bin_sem k n x (const_word k v))
         | _ => None
         end)
  else n < 64 -> bin_api_c k l v w = Fail ECheck.
Proof.
  intros Hl Hs Hv. pose proof (wt_width l n Hl Hs) as Hn. case_match; bool_inv.
  - eapply yields_run_eq; [apply bin_api_c_run|].
    eapply yields_bind; [by apply bv_like_yields|]. intros e w' He Hse Hve.
    eapply yields_weaken; [|by apply (bin_op_yields l e n Hl He Hs Hse)].
    intros ρ Hρ. cbn beta. unfold on_words. rewrite Hve by done.
    by destruct (eval_bv ρ l n Hρ Hl Hs) as (x & -> & _).
  - intros Hn'. rewrite bin_api_c_run. cbv [mbind ST_bind].
    rewrite (bv_like_run _ _ _ n), BvConst_fails by done. done.
Qed.

(** ** Equality *)
Lemma Eq_yields l r w : wt l = true -> wt r = true -> Exprs.sort l = Exprs.sort r ->
  yields (Eq l r) w SortBool (fun ρ =>
    x ← eval ρ l; y ← eval ρ r; Some (VBool (bool_decide (x = y)))).
Proof.
  intros Hl Hr Hs. eapply yields_weaken; [|eapply (yields_op2 kEqual); [reflexivity|done..|]].
  - done.
  - cbn. by rewrite decide_True.
Qed.

Lemma Not_yields l w f : wt l = true -> Exprs.sort l = SortBool ->
  (forall ρ, env_ok ρ -> eval ρ l = f ρ) ->
  yields (Not l) w SortBool (fun ρ => v ← f ρ; op_sem kNot [] [v]).
Proof.
  intros Hl Hs Hf. eapply yields_weaken; [|eapply (yields_op kNot [l] []); [done|by constructor|]].
  - intros ρ Hρ. cbn beta. unfold evals. cbn. rewrite Hf by done. by destruct (f ρ).
  - cbn. by rewrite Hs.
Qed.

(** The value a constant operand stands for next to an expression of sort [s]. *)
Definition const_val (s : Sort) (r : Z) : val :=
  match s with SortBv n => VBv n r | _ => VBool (r =? 1) end.
Definition const_fits (s : Sort) (r : Z) : bool :=
  match s with SortBool => true | SortBv n => r <? 2 ^ n | _ => false end.

Lemma rc_of_yields l r w : wt l = true -> 0 <= r -> const_fits (Exprs.sort l) r = true ->
  yields (rc_of l r) w (Exprs.sort l) (fun _ => Some (const_val (Exprs.sort l) r)).
Proof.
  intros Hl Hr Hfit. unfold rc_of, Exprs.is_bool. destruct (Exprs.sort l) as [|n| | |] eqn:E;
    try discriminate Hfit; cbn [Sorts.is_bool].
  - apply BoolConst_yields.
  - cbn in Hfit. bool_inv. eapply (yields_run_eq _ (BvConst r n)); [done|].
    apply BvConst_yields; [by eapply wt_width|done].
Qed.

Lemma Eq_c_yields l r w : wt l = true -> 0 <= r -> const_fits (Exprs.sort l) r = true ->
  yields (Eq_c l r) w SortBool (fun ρ =>
    x ← eval ρ l; Some (VBool (bool_decide (x = const_val (Exprs.sort l) r)))).
Proof.
  intros Hl Hr Hfit. eapply yields_bind; [by apply rc_of_yields|].
  intros e w' He Hs Hv. eapply yields_weaken; [|by apply Eq_yields].
  intros ρ Hρ. cbn beta. rewrite Hv by done. by destruct (eval ρ l).
Qed.

(** Equality and disequality with a constant.  Next to a Boolean the
    constant means true exactly when it is 1, next to a word it means itself
    (when it fits); [Eq] decides whether the values agree and [Ne] whether they
    differ. *)
Theorem Eq_Ne_c_spec l r w :
  wt l = true -> 0 <= r -> const_fits (Exprs.sort l) r = true ->
  let c := const_val (Exprs.sort l) r in
  yields (Eq_c l r) w SortBool (fun ρ => x ← eval ρ l; Some (VBool (bool_decide (x = c)))) /\
  yields (Ne_c l r) w SortBool (fun ρ => x ← eval ρ l; Some (VBool (bool_decide (x <> c)))).
Proof.
  intros Hl Hr Hfit c. split; [by apply Eq_c_yields|].
  unfold Ne_c, Ne. eapply yields_bind; [by apply rc_of_yields|]. intros e w1 He Hs Hv.
  eapply yields_bind; [by apply Eq_yields|]. intros e' w2 He' Hs' Hv'.
  eapply yields_weaken; [|by eapply Not_yields]. intros ρ Hρ. cbn beta. rewrite Hv by done.
  fold c. destruct (eval ρ l) as [x|]; [|done]. cbn. do 2 f_equal.
  rewrite <- bool_decide_not. done.
Qed.

(** ** Logic on Booleans and one-bit words *)
Inductive LogicKind := LAnd | LOr | LXor.

Definition logic_api (k : LogicKind) : Expr -> Expr -> M Expr :=
  match k with LAnd => And | LOr => Or | LXor => Xor end.
Definition logic_ctor (k : LogicKind) : Expr -> Expr -> M Expr :=
  match k with LAnd => ExprOpAnd | LOr => ExprOpOr | LXor => ExprOpXor end.
Definition logic_op (k : LogicKind) : AstUidExprOp :=
  match k with LAnd => kAnd | LOr => kOr | LXor => kXor end.
Definition logic_bool (k : LogicKind) : bool -> bool -> bool :=
  match k with LAnd => andb | LOr => orb | LXor => xorb end.
Definition logic_word (k : LogicKind) : Z -> Z -> Z :=
  match k with LAnd => Z.land | LOr => Z.lor | LXor => Z.lxor end.

(** A one-bit word read as a Boolean. *)
Definition truth (v : val) : val :=
  match v with VBv 1 n => VBool (n =? 1) | _ => v end.

(** A Boolean next to a one-bit vector. *)
Definition coercible (s s' : Sort) : bool :=
  match s, s' with
  | SortBv n, SortBool | SortBool, SortBv n => n =? 1
  | _, _ => false
  end.

Definition logic_sem (k : LogicKind) (ρ : Env) (l r : Expr) (f : val -> val) : option val :=
  x ← eval ρ l; y ← eval ρ r; logic2 (logic_bool k) (logic_word k) (f x) (f y).

Lemma logic_same k l r w : wt l = true -> wt r = true ->
  Exprs.sort l = Exprs.sort r -> Exprs.is_bool l || Exprs.is_bv l 0 = true ->
  yields (logic_ctor k l r) w (Exprs.sort l) (fun ρ => logic_sem k ρ l r id).
Proof.
  intros Hl Hr Hs Hk. eapply yields_weaken;
    [|eapply (yields_op2 (logic_op k)); [by destruct k|done..|]].
  - intros ρ Hρ. unfold logic_sem. by destruct k.
  - rewrite <- Hs. unfold Exprs.is_bool, Exprs.is_bv in Hk.
    pose proof (wt_sort_ok _ Hl) as Ho.
    destruct (Exprs.sort l) as [|n| | |] eqn:E; try discriminate Hk; [by destruct k|].
    cbn in Ho. destruct k; cbn; by rewrite Z.eqb_refl, Ho.
Qed.

Lemma Equal_neq s s' : s <> s' -> Sorts.Equal s s' = false.
Proof. intros H. apply not_true_iff_false. by intros ?%Sorts.Equal_eq. Qed.

Lemma bv1_truth ρ e : env_ok ρ -> wt e = true -> Exprs.sort e = SortBv 1 ->
  (x ← eval ρ e; Some (VBool (bool_decide (x = VBv 1 1)))) = truth <$> eval ρ e.
Proof.
  intros Hρ Hw Hs. destruct (eval_bv ρ e 1 Hρ Hw Hs) as (x & -> & _). cbn. do 2 f_equal.
  destruct (Z.eqb_spec x 1) as [->|?]; [done|]. apply bool_decide_eq_false. congruence.
Qed.

Lemma bool_truth ρ e : env_ok ρ -> wt e = true -> Exprs.sort e = SortBool ->
  truth <$> eval ρ e = eval ρ e.
Proof. intros Hρ Hw Hs. by destruct (eval_bool ρ e Hρ Hw Hs) as [b ->]. Qed.

Lemma mixed_same ctor n l r w : Exprs.sort l = Exprs.sort r ->
  mixed ctor (S n) l r w = ctor l r w.
Proof. intros H. cbn [mixed]. by rewrite H, Sorts.Equal_refl. Qed.

Lemma logic_sem_truth k ρ l r l' r' :
  eval ρ l' = truth <$> eval ρ l -> eval ρ r' = truth <$> eval ρ r ->
  logic_sem k ρ l' r' id = logic_sem k ρ l r truth.
Proof.
  unfold logic_sem. intros -> ->. destruct (eval ρ l); [|done]. cbn. by destruct (eval ρ r).
Qed.

Lemma logic_mixed k l r w : wt l = true -> wt r = true ->
  coercible (Exprs.sort l) (Exprs.sort r) = true ->
  yields (mixed (logic_ctor k) 2 l r) w SortBool (fun ρ => logic_sem k ρ l r truth).
Proof.
  intros Hl Hr Hc. destruct (Exprs.sort l) as [|n| | |] eqn:El; try discriminate Hc;
    destruct (Exprs.sort r) as [|m| | |] eqn:Er; try discriminate Hc; cbn in Hc; bool_inv; subst.
  - eapply (yields_run_eq _ (r' ← Eq_c r 1; mixed (logic_ctor k) 1 l r')).
    { cbn [mixed]. unfold Exprs.is_bv, Exprs.is_bool. by rewrite El, Er. }
    eapply yields_bind; [by apply Eq_c_yields; rewrite ?Er|]. intros r' w1 Hr' Hs' Hv'.
    eapply yields_run_eq; [apply mixed_same; congruence|]. rewrite <- El.
    eapply yields_weaken; [|apply logic_same; try congruence; unfold Exprs.is_bool; by rewrite El].
    intros ρ Hρ. cbn beta. apply logic_sem_truth; [by rewrite bool_truth|].
    rewrite Hv' by done. cbn beta. rewrite Er. by apply bv1_truth.
  - eapply (yields_run_eq _ (l' ← Eq_c l 1; mixed (logic_ctor k) 1 l' r)).
    { cbn [mixed]. unfold Exprs.is_bv, Exprs.is_bool. by rewrite El, Er. }
    eapply yields_bind; [by apply Eq_c_yields; rewrite ?El|]. intros l' w1 Hl' Hs' Hv'.
    eapply yields_run_eq; [apply mixed_same; congruence|]. rewrite <- Hs'.
    eapply yields_weaken; [|apply logic_same; try congruence; unfold Exprs.is_bool; by rewrite Hs'].
    intros ρ Hρ. cbn beta. apply logic_sem_truth; [|by rewrite bool_truth].
    rewrite Hv' by done. cbn beta. rewrite El. by apply bv1_truth.
Qed.

Lemma is_bv_one n : Sorts.is_bv (SortBv n) 1 = (n =? 1).
Proof. apply Z.eqb_sym. Qed.

(** [And], [Or] and [Xor].  Two Booleans give the connective, two words of
    one width the bitwise operation; a Boolean next to a one-bit word reads the
    word as "equals 1" and gives the connective, in either order of the
    operands; any other pair of different sorts asserts. *)
Theorem logic_api_spec k l r w :
  wt l = true -> wt r = true ->
  if decide (Exprs.sort l = Exprs.sort r)
  then Exprs.is_bool l || Exprs.is_bv l 0 = true ->
       yields (logic_api k l r) w (Exprs.sort l) (fun ρ => logic_sem k ρ l r id)
  else if coercible (Exprs.sort l) (Exprs.sort r)
  then yields (logic_api k l r) w SortBool (fun ρ => logic_sem k ρ l r truth)
  else logic_api k l r w = Fail EAssert.
Proof.
  intros Hl Hr.
  assert (Hk : logic_api k l r w = mixed (logic_ctor k) 2 l r w) by by destruct k.
  case_decide as Hs; [|destruct (coercible _ _) eqn:Hc].
  - intros Hb. eapply yields_run_eq; [by rewrite Hk, mixed_same|]. by apply logic_same.
  - eapply yields_run_eq; [exact Hk|]. by apply logic_mixed.
  - rewrite Hk. cbn [mixed]. rewrite Equal_neq by done.
    unfold Exprs.is_bv, Exprs.is_bool.
    destruct (Exprs.sort l), (Exprs.sort r); cbn [coercible] in Hc; try discriminate Hc;
      cbn [Sorts.is_bool]; rewrite ?is_bv_one, ?andb_false_r, ?Hc; reflexivity.
Qed.

(** ** Concatenation *)
Definition to_word (v : val) : val :=
  match v with VBool b => VBv 1 (if b then 1 else 0) | _ => v end.
Definition word_width (s : Sort) : option Z :=
  match s with SortBool => Some 1 | SortBv n => Some n | _ => None end.

Lemma as_word_yields e one zero w n :
  wt e = true -> word_width (Exprs.sort e) = Some n ->
  wt one = true -> Exprs.sort one = SortBv 1 ->
  (forall ρ, env_ok ρ -> eval ρ one = Some (VBv 1 1)) ->
  wt zero = true -> Exprs.sort zero = SortBv 1 ->
  (forall ρ, env_ok ρ -> eval ρ zero = Some (VBv 1 0)) ->
  yields (if Exprs.is_bool e then Ite e one zero else mret e) w (SortBv n)
    (fun ρ => to_word <$> eval ρ e).
Proof.
  intros He Hn H1 H1s H1v H0 H0s H0v. unfold Exprs.is_bool.
  destruct (Exprs.sort e) as [|m| | |] eqn:Es; try discriminate Hn; injection Hn as <-;
    cbn [Sorts.is_bool].
  - eapply yields_weaken;
      [|eapply (yields_op kIfThenElse [e; one; zero] []); [done|by repeat constructor|]].
    + intros ρ Hρ. unfold evals. cbn. rewrite H1v, H0v by done.
      destruct (eval_bool ρ e Hρ He Es) as [[] ->]; done.
    + cbn. rewrite Es, H1s, H0s. by rewrite decide_True.
  - rewrite <- Es. apply yields_ret; [done|]. intros ρ Hρ.
    by destruct (eval_bv ρ e m Hρ He Es) as (x & -> & _).
Qed.

(** [Concat] puts the high part above the low part; a Boolean part counts
    as the one-bit word that is 1 exactly when it is true. *)
Theorem Concat_spec hi lo wh wl w :
  wt hi = true -> wt lo = true ->
  word_width (Exprs.sort hi) = Some wh -> word_width (Exprs.sort lo) = Some wl ->
  yields (Concat hi lo) w (SortBv (wh + wl)) (fun ρ =>
    x ← eval ρ hi; y ← eval ρ lo; op_sem kConcatenate [] [to_word x; to_word y]).
Proof.
  intros Hhi Hlo Hwh Hwl. unfold Concat.
  eapply yields_bind; [by apply BvConst_yields|]. intros zero w1 Hz Hzs Hzv.
  eapply yields_bind; [by apply BvConst_yields|]. intros one w2 H1 H1s H1v.
  eapply yields_bind; [by apply (as_word_yields hi one zero)|]. intros bh w3 Hb Hbs Hbv.
  eapply yields_bind; [by apply (as_word_yields lo one zero)|]. intros bl w4 Hc Hcs Hcv.
  eapply yields_weaken; [|eapply (yields_op2 kConcatenate); [done..|by rewrite Hbs, Hcs]].
  intros ρ Hρ. cbn beta. rewrite Hbv, Hcv by done.
  destruct (eval ρ hi), (eval ρ lo); done.
Qed.
End yields.

(** Concrete instances: the variables [x : bv 8], [y : bv 8], [p : bool] and
    [b : bv 1] in a store without ILAs. *)
Definition var (id : objid) (s : Sort) : Expr :=
  ExprVar {| h_id := id; h_name := Symbol.default_name id; h_host := None; h_sort := s |} [].

Lemma bin_api_spec_witness :
  let L := layout_id in
  yields (Le (var 1 (SortBv 8)) (var 2 (SortBv 8))) empty_world SortBool
    (fun ρ => on_words ρ (var 1 (SortBv 8)) (var 2 (SortBv 8)) (bin_sem BLe 8)).
Proof.
  intros L. exact (bin_api_spec BLe (var 1 (SortBv 8)) (var 2 (SortBv 8)) 8 empty_world
                     eq_refl eq_refl eq_refl eq_refl).
Defined.

Lemma bin_api_c_spec_witness :
  let L := layout_id in Add_c (var 1 (SortBv 8)) 256 empty_world = Fail ECheck.
Proof.
  intros L.
  refine (bin_api_c_spec BAdd (var 1 (SortBv 8)) 256 8 empty_world eq_refl eq_refl _ _).
  - cbn. lia.
  - lia.
Defined.

Lemma Eq_Ne_c_spec_witness :
  let L := layout_id in
  yields (Eq_c (var 3 SortBool) 5) empty_world SortBool (fun ρ =>
    x ← eval ρ (var 3 SortBool); Some (VBool (bool_decide (x = VBool false)))).
Proof.
  intros L. refine (proj1 (Eq_Ne_c_spec (var 3 SortBool) 5 empty_world eq_refl _ eq_refl)).
  lia.
Defined.

Lemma logic_api_spec_witness :
  let L := layout_id in
  yields (And (var 3 SortBool) (var 4 (SortBv 1))) empty_world SortBool
    (fun ρ => logic_sem LAnd ρ (var 3 SortBool) (var 4 (SortBv 1)) truth) /\
  Or (var 3 SortBool) (var 1 (SortBv 8)) empty_world = Fail EAssert.
Proof.
  intros L. split.
  - exact (logic_api_spec LAnd (var 3 SortBool) (var 4 (SortBv 1)) empty_world eq_refl eq_refl).
  - exact (logic_api_spec LOr (var 3 SortBool) (var 1 (SortBv 8)) empty_world eq_refl eq_refl).
Defined.

Lemma Concat_spec_witness :
  let L := layout_id in
  yields (Concat (var 3 SortBool) (var 1 (SortBv 8))) empty_world (SortBv 9) (fun ρ =>
    x ← eval ρ (var 3 SortBool); y ← eval ρ (var 1 (SortBv 8));
    op_sem kConcatenate [] [to_word x; to_word y]).
Proof.
  intros L. exact (Concat_spec (var 3 SortBool) (var 1 (SortBv 8)) 1 8 empty_world
                     eq_refl eq_refl eq_refl eq_refl).
Defined.
End asthub.
