(* ===== verification/IlaVars.v ===== *)
(** * Declaring the variables of an ILA

    The [New*Input], [New*State], [New*FreeVar] and [*Object] methods of
    [src/ila/instr_lvl_abs.cc]: they create variables (or containers of them),
    give them a host and register them. *)
From S2P Require Import Prelude Sort Values Container Expr World ExprOp VarContainer AstHub.
Local Open Scope Z_scope.

Module IlaVars.
Import asthub Vars.

(** [Object::set_host] on an expression nobody else holds yet. *)
Definition set_host (e : Expr) (m : objid) : Expr :=
  let h := Exprs.hdr e in
  let h := {| h_id := h_id h; h_name := h_name h; h_host := Some m; h_sort := h_sort h |} in
  match e with
  | ExprVar _ ps => ExprVar h ps
  | ExprConst _ v ps => ExprConst h v ps
  | ExprOp _ op fn args ps => ExprOp h op fn args ps
  end.

Definition NewBoolFreeVar (m : objid) (name : string) : M Expr :=
  v ← NewBoolVar name; mret (set_host v m).
Definition NewBvFreeVar (m : objid) (name : string) (bit_width : Z) : M Expr :=
  v ← NewBvVar name bit_width; mret (set_host v m).
Definition NewMemFreeVar (m : objid) (name : string) (addr_width data_width : Z) : M Expr :=
  v ← NewMemVar name addr_width data_width; mret (set_host v m).

Definition NewBoolInput (m : objid) (name : string) : M Expr :=
  v ← NewBoolVar name; let v := set_host v m in Ila.AddInput m (Some v);; mret v.
Definition NewBvInput (m : objid) (name : string) (bit_width : Z) : M Expr :=
  v ← NewBvVar name bit_width; let v := set_host v m in Ila.AddInput m (Some v);; mret v.
Definition NewMemInput (m : objid) (name : string) (addr_width data_width : Z) : M Expr :=
  v ← NewMemVar name addr_width data_width;
  let v := set_host v m in Ila.AddInput m (Some v);; mret v.

Definition NewBoolState (m : objid) (name : string) : M Expr :=
  v ← NewBoolVar name; let v := set_host v m in Ila.AddState m (Some v);; mret v.
Definition NewBvState (m : objid) (name : string) (bit_width : Z) : M Expr :=
  v ← NewBvVar name bit_width; let v := set_host v m in Ila.AddState m (Some v);; mret v.
Definition NewMemState (m : objid) (name : string) (addr_width data_width : Z) : M Expr :=
  v ← NewMemVar name addr_width data_width;
  let v := set_host v m in Ila.AddState m (Some v);; mret v.

(** ** Objects

    The lambda of [visit_with]: every primitive part is registered. *)
Definition add_primitive (add : Expr -> M unit) (vc : VarContainer) (_ : unit) : M unit :=
  if is_primitive vc then e ← lift (to_primitive_expr vc); add e else mret ().

(** The guard of both: no object of that name. *)
Definition object_new (m : objid) (name : string) : M unit :=
  l ← ila m;
  assert_ (negb (is_some (Ila.find_input_object l name)));;
  assert_ (negb (is_some (Ila.find_state_object l name))).

Definition AddInputObject (m : objid) (name : string) (obj : option VarContainer) : M unit :=
  obj ← notnull obj;
  object_new m name;;
  visit_with (add_primitive (fun e => Ila.AddInput m (Some e))) obj ();;
  Ila.update_ila m (fun l =>
    Ok (Ila.with_input_objects l (KeyVec.push_back (input_objects_ l) name obj).2)).

Definition AddStateObject (m : objid) (name : string) (obj : option VarContainer) : M unit :=
  obj ← notnull obj;
  object_new m name;;
  visit_with (add_primitive (fun e => Ila.AddState m (Some e))) obj ();;
  Ila.update_ila m (fun l =>
    Ok (Ila.with_state_objects l (KeyVec.push_back (state_objects_ l) name obj).2)).

Definition NewInputObject (m : objid) (name : string) (s : Sort) : M VarContainer :=
  obj ← Make name s; AddInputObject m name (Some obj);; mret obj.
Definition NewStateObject (m : objid) (name : string) (s : Sort) : M VarContainer :=
  obj ← Make name s; AddStateObject m name (Some obj);; mret obj.

(** [NewFreeVarObject] hosts the primitive parts of the new container. *)
Fixpoint set_hosts (v : VarContainer) (p : objid) : VarContainer :=
  match v with
  | VarPrimitive e => VarPrimitive (set_host e p)
  | VarVector t l => VarVector t (map (fun x => set_hosts x p) l)
  | VarStruct t l => VarStruct t (map (fun x => (x.1, set_hosts x.2 p)) l)
  end.
Definition NewFreeVarObject (m : objid) (name : string) (s : Sort) : M VarContainer :=
  obj ← Make name s; mret (set_hosts obj m).

(** ** What the declarations do *)
Import Ila IlaOk.

(** Registering the primitive parts is registering the leaves. *)
Lemma add_primitives (add : Expr -> M unit) vs w :
  foldM (add_primitive add) vs () w = foldM (fun e (_ : unit) => add e) (omap prim vs) () w.
Proof.
  revert w. induction vs as [|v vs IH]; intros w; [done|]. cbn [foldM omap list_omap].
  destruct v as [e| |]; cbn [prim add_primitive is_primitive].
  - cbn [foldM]. unfold mbind, ST_bind, lift; cbn. destruct (add e w) as [[[] w']|]; [apply IH|done].
  - unfold mbind, ST_bind, mret, ST_ret. apply IH.
  - unfold mbind, ST_bind, mret, ST_ret. apply IH.
Qed.

Lemma object_new_run m name w l : w_ilas w !! m = Some l ->
  find_input_object l name = None -> find_state_object l name = None ->
  object_new m name w = Ok ((), w).
Proof.
  intros Hm Hi Hs. unfold object_new. rewrite (ST_bind_run _ _ _ _ _ (ila_run _ _ _ Hm)).
  unfold assert_. by rewrite Hi, Hs.
Qed.

(** One table of variables and its objects. *)
Definition tbl (st : bool) : InstrLvlAbs -> KeyVec Expr := if st then states_ else inputs_.
Definition with_tbl (st : bool) : InstrLvlAbs -> KeyVec Expr -> InstrLvlAbs :=
  if st then with_states else with_inputs.
Definition objs (st : bool) : InstrLvlAbs -> KeyVec VarContainer :=
  if st then state_objects_ else input_objects_.
Definition with_objs (st : bool) : InstrLvlAbs -> KeyVec VarContainer -> InstrLvlAbs :=
  if st then with_state_objects else with_input_objects.
Definition AddObject (st : bool) := if st then AddStateObject else AddInputObject.
Definition NewObject (st : bool) := if st then NewStateObject else NewInputObject.

Lemma foldM_add (st : bool) es l : vars_ok l -> NoDup (Exprs.name <$> es) ->
  (forall e, e ∈ es -> Exprs.is_var e = true /\
     find_input l (Exprs.name e) = None /\ find_state l (Exprs.name e) = None) ->
  let add := if st then add_state else add_input in
  foldM add es l = Ok (with_tbl st l (push_vars (tbl st l) es)) /\
  vars_ok (with_tbl st l (push_vars (tbl st l) es)).
Proof.
  intros Hl Hn He add.
  assert (E : foldM add es l = Ok (with_tbl st l (push_vars (tbl st l) es)))
    by (destruct st; [by apply foldM_add_state|by apply foldM_add_input]).
  split; [done|]. eapply (foldM_Res_inv add vars_ok); [|done|exact E].
  intros e l1 l2 _. destruct st; [apply add_state_vars|apply add_input_vars].
Qed.

Lemma AddObject_run (st : bool) m name obj w l :
  w_ilas w !! m = Some l -> vars_ok l ->
  find_input_object l name = None -> find_state_object l name = None ->
  NoDup (Exprs.name <$> leaves obj) ->
  (forall e, e ∈ leaves obj -> Exprs.is_var e = true /\
     find_input l (Exprs.name e) = None /\ find_state l (Exprs.name e) = None) ->
  AddObject st m name (Some obj) w =
  Ok ((), set_ila w m (with_objs st (with_tbl st l (push_vars (tbl st l) (leaves obj)))
    (KeyVec.push_back (objs st l) name obj).2)).
Proof.
  intros Hm Hl Hi Hs Hn He. pose proof (object_new_run _ _ _ _ Hm Hi Hs) as Hnew.
  destruct (foldM_add st (leaves obj) l Hl Hn He) as [Hf _].
  destruct st; unfold AddObject, AddStateObject, AddInputObject, visit_with;
    cbv [mbind ST_bind notnull lift not_null Res_bind]; rewrite Hnew, add_primitives; fold (leaves obj).
  - erewrite (foldM_update m add_state _ _ _ _ (fun e => eq_refl) Hm), Hf. cbn [mbind Res_bind].
    erewrite update_ila_run by (cbn; apply lookup_insert_eq). cbn. by rewrite set_ila_twice.
  - erewrite (foldM_update m add_input _ _ _ _ (fun e => eq_refl) Hm), Hf. cbn [mbind Res_bind].
    erewrite update_ila_run by (cbn; apply lookup_insert_eq). cbn. by rewrite set_ila_twice.
Qed.

Lemma vec_push_new (v : KeyVec Expr) es : NoDup (Exprs.name <$> es) ->
  (forall e, e ∈ es -> Exprs.name e ∉ dom (KeyVec.map_ v)) ->
  KeyVec.vec_ (push_vars v es) = KeyVec.vec_ v ++ es.
Proof.
  intros Hn He. unfold push_vars. rewrite KeyVec.vec_push_all. f_equal. by apply first_of_each_vars.
Qed.

(** C34.  Declaring an object.  On a well-formed ILA, for a sort whose member
    names are distinct and free of the separator, and a name that is no object
    yet and gives no name already declared, [NewStateObject] (and
    [NewInputObject]) succeeds: the object is well formed, of the sort asked for,
    its variables are new, have the names the code spells, and are appended, in
    the order of the visit, to the states (inputs); the other table is as it was
    and the object is found under its name.  None of the variables has a host. *)
Theorem NewObject_spec (st : bool) w m l name t :
  w_ilas w !! m = Some l -> vars_ok l -> KeyVec.wf (objs st l) -> plain t = true ->
  find_input_object l name = None -> find_state_object l name = None ->
  (forall k, k ∈ leaf_names name t -> find_input l k = None /\ find_state l k = None) ->
  exists obj w' l', NewObject st m name t w = Ok (obj, w') /\
    Vars.sort obj = t /\ wf obj /\ (Exprs.name <$> leaves obj) = leaf_names name t /\
    NoDup (leaf_names name t) /\
    (forall e, e ∈ leaves obj -> Exprs.host e = None /\ (counter_ w < Exprs.id e)%N) /\
    w_ilas w' = <[m := l']> (w_ilas w) /\ vars_ok l' /\
    KeyVec.vec_ (tbl st l') = KeyVec.vec_ (tbl st l) ++ leaves obj /\
    tbl (negb st) l' = tbl (negb st) l /\
    KeyVec.find (objs st l') name = Some obj.
Proof.
  intros Hm Hl Hwf Hp Hi Hs Hk.
  destruct (Make_run t Hp name w) as (obj & w1 & E & [Hso Hwo Hnm Hil _ _ Hvs]).
  pose proof (leaf_names_nodup t Hp name) as Hn. rewrite <- Hnm in Hn.
  assert (He : forall e, e ∈ leaves obj -> Exprs.is_var e = true /\
            find_input l (Exprs.name e) = None /\ find_state l (Exprs.name e) = None).
  { intros e He. split; [by apply Hvs|]. apply Hk. rewrite <- Hnm.
    by apply list_elem_of_fmap_2. }
  assert (Hm1 : w_ilas w1 !! m = Some l) by by rewrite Hil.
  pose proof (AddObject_run st m name obj w1 l Hm1 Hl Hi Hs Hn He) as Ha.
  destruct (foldM_add st (leaves obj) l Hl Hn He) as [_ Hv].
  set (l' := with_objs st _ _) in Ha. exists obj, (set_ila w1 m l'), l'. split.
  { destruct st; cbn in Ha |- *; unfold NewStateObject, NewInputObject;
      rewrite (ST_bind_run _ _ _ _ _ E), (ST_bind_run _ _ _ _ _ Ha); reflexivity. }
  split; [done|]. split; [done|]. split; [done|]. split; [by rewrite <- Hnm|].
  split; [intros e Hin; destruct (Hvs e Hin) as (_ & ? & ?); split; [done|lia]|].
  cbn [set_ila w_ilas]. rewrite Hil. split; [done|].
  split; [destruct Hv; destruct st; by split|].
  split.
  { assert (Hnew : forall e, e ∈ leaves obj -> Exprs.name e ∉ dom (KeyVec.map_ (tbl st l))).
    { intros e Hin. apply not_elem_of_dom. destruct (He e Hin) as (_ & H1 & H2).
      destruct st; apply find_None; (done || apply Hl). }
    destruct st; cbn; by apply vec_push_new. }
  split; [by destruct st|].
  assert (Ho : KeyVec.find (objs st l) name = None) by by destruct st.
  destruct st; cbn in *; rewrite KeyVec.find_push_back, Ho by done; by rewrite decide_True.
Qed.

Lemma NewObject_spec_witness :
  let t := SortStruct [("ready", SortBool); ("data", SortVector (SortBv 8) 2)] in
  exists obj w' l', NewObject true 1 "port" t root_world = Ok (obj, w') /\
    w_ilas w' !! 1%N = Some l' /\
    Exprs.name <$> KeyVec.vec_ (states_ l') = ["port_ready_"; "port_data__0_"; "port_data__1_"].
Proof.
  intros t.
  destruct (NewObject_spec true root_world 1 (nil_ila "top" None) "port" t eq_refl (nil_ila_vars _ _))
    as (obj & w' & l' & E & _ & _ & Hn & _ & _ & Hw & _ & Hv & _).
  - apply KeyVec.empty_wf.
  - reflexivity.
  - reflexivity.
  - reflexivity.
  - intros k _. split; reflexivity.
  - exists obj, w', l'. split; [exact E|]. split; [rewrite Hw; apply lookup_insert_eq|].
    cbn [tbl] in Hv. rewrite Hv. cbn [nil_ila states_ KeyVec.empty KeyVec.vec_ app].
    rewrite Hn. reflexivity.
Defined.
End IlaVars.
