(* ===== verification/Collect.v ===== *)
(** * Collecting variables and instructions

    The [Get*] and [Insert*] helpers of [src/ila-mngr/u_abs_knob.cc].  An
    [ExprSet] is an [unordered_set] of pointers: a list without repeated ids,
    enumerated in the order the [Layout] gives; an [InstrVec] is a list. *)
From S2P Require Import Prelude Sort Values Container Expr World.

(** ** [ExprSet] *)
Module ExprSet.
Definition ids (s : list Expr) : list objid := Exprs.id <$> s.

Definition insert (e : Expr) (s : list Expr) : list Expr :=
  if decide (Exprs.id e ∈ ids s) then s else s ++ [e].

(** Range-based [for] over the set. *)
Definition iter {L : Layout} (s : list Expr) : list Expr :=
  omap (fun i => List.find (fun e => Exprs.id e =? i)%N s) (set_order (ids s)).

Definition wf (s : list Expr) : Prop := NoDup (ids s).

Lemma insert_wf e s : wf s -> wf (insert e s).
Proof.
  unfold wf, insert, ids. intros Hs. case_decide; [done|].
  rewrite fmap_app. cbn. apply NoDup_app. split; [done|]. split; [|by apply NoDup_singleton].
  intros i Hi ->%list_elem_of_singleton. done.
Qed.

Lemma insert_ids e s i : i ∈ ids (insert e s) <-> i = Exprs.id e \/ i ∈ ids s.
Proof.
  unfold insert. case_decide; [naive_solver|]. unfold ids.
  rewrite fmap_app, elem_of_app. cbn. rewrite list_elem_of_singleton. tauto.
Qed.

Lemma insert_elem e s x : x ∈ insert e s -> x = e \/ x ∈ s.
Proof. unfold insert. case_decide; [tauto|]. rewrite elem_of_app, list_elem_of_singleton. tauto. Qed.

Lemma insert_sub e s x : x ∈ s -> x ∈ insert e s.
Proof. unfold insert. case_decide; [done|]. rewrite elem_of_app. tauto. Qed.

Definition insert_all (es s : list Expr) : list Expr := foldl (fun s e => insert e s) s es.
#[global] Arguments insert_all : simpl never.

Lemma insert_all_wf es s : wf s -> wf (insert_all es s).
Proof.
  revert s. induction es as [|e es IH]; cbn; intros s Hs; [done|]. by apply IH, insert_wf.
Qed.

Lemma insert_all_ids es s i : i ∈ ids (insert_all es s) <-> i ∈ ids es \/ i ∈ ids s.
Proof.
  revert s. induction es as [|e es IH]; intros s; [cbn; set_solver|].
  change (insert_all (e :: es) s) with (insert_all es (insert e s)).
  rewrite IH, insert_ids. unfold ids. cbn. rewrite elem_of_cons. tauto.
Qed.

Lemma insert_all_elem es s x : x ∈ insert_all es s -> x ∈ es \/ x ∈ s.
Proof.
  revert s. induction es as [|e es IH]; intros s; [tauto|].
  change (insert_all (e :: es) s) with (insert_all es (insert e s)).
  intros [H| [->|H]%insert_elem]%IH; set_solver.
Qed.

Lemma insert_all_app es es' s : insert_all (es ++ es') s = insert_all es' (insert_all es s).
Proof. apply foldl_app. Qed.

Lemma find_id s e : wf s -> e ∈ s ->
  List.find (fun x => Exprs.id x =? Exprs.id e)%N s = Some e.
Proof.
  unfold wf, ids. induction s as [|x s IH]; intros Hs He; [by apply elem_of_nil in He|].
  cbn in *. apply NoDup_cons in Hs as [Hx Hs]. destruct (N.eqb_spec (Exprs.id x) (Exprs.id e)) as [E|E].
  - apply elem_of_cons in He as [->|He]; [done|]. exfalso. apply Hx. rewrite E.
    by apply list_elem_of_fmap_2.
  - apply elem_of_cons in He as [->|He]; [done|]. by apply IH.
Qed.

(** Whatever the order, the loop meets each element exactly once. *)
Lemma iter_perm {L : Layout} s : wf s -> iter s ≡ₚ s.
Proof.
  intros Hs. unfold iter. rewrite (set_order_perm _ Hs).
  assert (H : forall l, l ⊆ s ->
    omap (fun i => List.find (fun e => Exprs.id e =? i)%N s) (ids l) = l).
  { unfold ids. induction l as [|e l IH]; intros Hl; [done|]. cbn.
    rewrite find_id by (done || apply Hl; by left). f_equal. apply IH. set_solver. }
  by rewrite H.
Qed.
End ExprSet.

Module absknob.

(** ** Inside an expression *)
Definition insert_var (e : Expr) (vars : list Expr) : Res (list Expr) :=
  Ok (if Exprs.is_var e then ExprSet.insert e vars else vars).
Definition GetVar (e : Expr) : Res (list Expr) := Exprs.DepthFirstVisit insert_var e [].

(** ** Inside an ILA

    These read the ILA only, so they are functions of its record. *)
Definition InsertStt (m : InstrLvlAbs) (stts : list Expr) : list Expr :=
  ExprSet.insert_all (KeyVec.vec_ (states_ m)) stts.
Definition InsertInp (m : InstrLvlAbs) (inps : list Expr) : list Expr :=
  ExprSet.insert_all (KeyVec.vec_ (inputs_ m)) inps.
Definition InsertVar (m : InstrLvlAbs) (vars : list Expr) : list Expr :=
  InsertInp m (InsertStt m vars).
Definition GetVarIla (m : InstrLvlAbs) : list Expr := InsertVar m [].
Definition GetStt (m : InstrLvlAbs) : list Expr := InsertStt m [].
Definition GetInp (m : InstrLvlAbs) : list Expr := InsertInp m [].
Definition InsertInstr (m : InstrLvlAbs) (instrs : list objid) : list objid :=
  instrs ++ KeyVec.vec_ (instrs_ m).
Definition GetInstr (m : InstrLvlAbs) : list objid := InsertInstr m [].

(** ** Inside a hierarchy *)

(** Fuel for a traversal: an ILA is older than its children, so no path and no
    list of children is longer than the number of objects. *)
Definition tree_fuel (w : World) : nat := S (S (N.to_nat (counter_ w))).

Definition visit_ila {X} (f : InstrLvlAbs -> X -> X) (m : objid) (s : X) : M X :=
  l ← ila m; mret (f l s).
Definition over_tree {X} (f : InstrLvlAbs -> X -> X) (top : objid) (s : X) : M X :=
  fun w => Ila.DepthFirstVisit (visit_ila f) (tree_fuel w) top s w.

Definition InsertSttTree (top : objid) (stts : list Expr) : M (list Expr) :=
  over_tree InsertStt top stts.
Definition InsertInpTree (top : objid) (inps : list Expr) : M (list Expr) :=
  over_tree InsertInp top inps.
Definition InsertVarTree (top : objid) (vars : list Expr) : M (list Expr) :=
  vars ← InsertSttTree top vars; InsertInpTree top vars.
Definition GetVarTree (top : objid) : M (list Expr) := InsertVarTree top [].
Definition GetSttTree (top : objid) : M (list Expr) := InsertSttTree top [].

(** [GetInpTree] calls [InsertInp], not [InsertInpTree]. *)
Definition GetInpTree (top : objid) : M (list Expr) := l ← ila top; mret (InsertInp l []).

Definition InsertInstrTree (top : objid) (instrs : list objid) : M (list objid) :=
  over_tree InsertInstr top instrs.
Definition GetInstrTree (m : objid) : M (list objid) := InsertInstrTree m [].

(** ** From an instruction: its host *)
Definition InsertSttInstr (i : objid) (vars : list Expr) : M (list Expr) :=
  x ← instr_ i; host ← notnull (i_host x); l ← ila host; mret (InsertStt l vars).
Definition InsertSttTreeInstr (i : objid) (vars : list Expr) : M (list Expr) :=
  x ← instr_ i; host ← notnull (i_host x); InsertSttTree host vars.

(** ** The hierarchy as a list

    [post_order]: the ILAs under [m], children before parents. *)
Fixpoint post_order (n : nat) (W : gmap objid InstrLvlAbs) (m : objid) : list objid :=
  match n with
  | O => []
  | S n =>
      match W !! m with
      | Some l => mjoin (post_order n W <$> KeyVec.vec_ (childs_ l)) ++ [m]
      | None => []
      end
  end.

(** The ILAs below [m]. *)
Inductive under (W : gmap objid InstrLvlAbs) : objid -> objid -> Prop :=
| under_refl m : under W m m
| under_child m l c d : W !! m = Some l -> c ∈ KeyVec.vec_ (childs_ l) ->
    under W c d -> under W m d.

(** Children exist, are younger than their parent, and are listed once. *)
Record tree_ok (w : World) : Prop := {
  tree_le m l : w_ilas w !! m = Some l -> (m <= counter_ w)%N;
  tree_child m l c : w_ilas w !! m = Some l -> c ∈ KeyVec.vec_ (childs_ l) ->
    (m < c)%N /\ is_Some (w_ilas w !! c);
  tree_NoDup m l : w_ilas w !! m = Some l -> NoDup (KeyVec.vec_ (childs_ l)) }.

Definition rec_at (W : gmap objid InstrLvlAbs) (m : objid) : InstrLvlAbs :=
  default (IlaOk.nil_ila "" None) (W !! m).

Section tree.
Context (w : World) (Hw : tree_ok w).
Local Abbreviation W := (w_ilas w).
Local Abbreviation bound n m := (counter_ w < m + N.of_nat n)%N.

Lemma childs_short m l : W !! m = Some l ->
  (length (KeyVec.vec_ (childs_ l)) <= N.to_nat (counter_ w - m))%nat.
Proof using Hw.
  intros Hm. pose proof (tree_NoDup _ Hw _ _ Hm) as Hnd.
  rewrite <- (length_seq (N.to_nat (counter_ w - m)) (S (N.to_nat m))).
  rewrite <- (length_fmap N.to_nat). apply submseteq_length, NoDup_submseteq.
  { apply NoDup_fmap_2; [|done]. intros ?? ?. lia. }
  intros i (c & -> & Hc)%list_elem_of_fmap. apply elem_of_seq.
  destruct (tree_child _ Hw _ _ _ Hm Hc) as [Hlt [lc Hlc]].
  pose proof (tree_le _ Hw _ _ Hlc). lia.
Qed.

Lemma post_order_elem n m d : is_Some (W !! m) -> bound n m ->
  d ∈ post_order n W m <-> under W m d.
Proof using Hw.
  revert m. induction n as [|n IH]; intros m [l Hm] Hn.
  - pose proof (tree_le _ Hw _ _ Hm). lia.
  - cbn. rewrite Hm, elem_of_app, list_elem_of_singleton, list_elem_of_join.
    setoid_rewrite list_elem_of_fmap. split.
    + intros [(ds & Hd & c & -> & Hc)| ->]; [|constructor].
      destruct (tree_child _ Hw _ _ _ Hm Hc) as [Hlt Hsome].
      eapply under_child; [done..|]. apply IH; [done|lia|done].
    + intros Hu. inversion Hu as [|? l' c ? Hm' Hc Hcd]; subst; [by right|].
      left. simplify_eq. destruct (tree_child _ Hw _ _ _ Hm Hc) as [Hlt Hsome].
      eexists. split; [|by exists c]. apply IH; [done|lia|done].
Qed.

Lemma over_childs {X} (f : InstrLvlAbs -> X -> X) (g : objid -> X -> X) n m l k i s :
  W !! m = Some l ->
  (forall c s, c ∈ KeyVec.vec_ (childs_ l) ->
     Ila.DepthFirstVisit (visit_ila f) n c s w = Ok (g c s, w)) ->
  (Ila.child_num l - i < k)%nat -> (i <= Ila.child_num l)%nat ->
  Ila.visit_childs (Ila.DepthFirstVisit (visit_ila f) n) m k i s w =
  Ok (foldl (fun s c => g c s) s (drop i (KeyVec.vec_ (childs_ l))), w).
Proof using Type.
  intros Hm Hg. revert i s. induction k as [|k IH]; intros i s Hk Hi; [lia|].
  cbn [Ila.visit_childs]. cbv [mbind ST_bind]. unfold ila at 1. rewrite Hm.
  cbn [deref mbind Res_bind]. destruct (Nat.eqb_spec i (Ila.child_num l)) as [->|Hne].
  - by rewrite drop_ge.
  - unfold Ila.child_num, KeyVec.size in *. unfold lift, KeyVec.at_.
    destruct (KeyVec.vec_ (childs_ l) !! i) as [c|] eqn:Hc;
      [|apply lookup_ge_None in Hc; lia]. cbn.
    rewrite (Hg c s) by by eapply list_elem_of_lookup_2.
    rewrite IH by lia. by rewrite (drop_S _ _ _ Hc).
Qed.

Lemma over_tree_run {X} (f : InstrLvlAbs -> X -> X) n m s :
  is_Some (W !! m) -> bound n m ->
  Ila.DepthFirstVisit (visit_ila f) (S n) m s w =
  Ok (foldl (fun s d => f (rec_at W d) s) s (post_order n W m), w).
Proof using Hw.
  revert m s. induction n as [|n IH]; intros m s [l Hm] Hn;
    pose proof (tree_le _ Hw _ _ Hm) as Hle; [lia|].
  remember (S n) as k eqn:Ek. cbn [Ila.DepthFirstVisit]. cbv [mbind ST_bind].
  pose proof (childs_short m l Hm) as Hlen.
  rewrite (over_childs f (fun c s => foldl (fun s d => f (rec_at W d) s) s (post_order n W c))
             k m l); [|done| |unfold Ila.child_num, KeyVec.size; lia|lia].
  - rewrite drop_0. unfold visit_ila. cbv [mbind ST_bind]. unfold ila. rewrite Hm. cbn.
    subst k. cbn [post_order]. rewrite Hm, foldl_app. cbn. unfold rec_at at 2. rewrite Hm. cbn.
    unfold mret, ST_ret. do 3 f_equal. clear. revert s.
    induction (KeyVec.vec_ (childs_ l)) as [|c cs IH]; intros s; [done|]. cbn.
    by rewrite foldl_app, IH.
  - intros c s' Hc. destruct (tree_child _ Hw _ _ _ Hm Hc) as [Hlt Hsome]. subst k.
    apply IH; [done|lia].
Qed.

Lemma over_tree_spec {X} (f : InstrLvlAbs -> X -> X) top s : is_Some (W !! top) ->
  over_tree f top s w =
  Ok (foldl (fun s d => f (rec_at W d) s) s (post_order (S (N.to_nat (counter_ w))) W top), w).
Proof using Hw.
  intros [l Hm]. unfold over_tree, tree_fuel. apply over_tree_run; [eauto|].
  pose proof (tree_le _ Hw _ _ Hm). lia.
Qed.

Lemma tree_elem top d : is_Some (W !! top) ->
  d ∈ post_order (S (N.to_nat (counter_ w))) W top <-> under W top d.
Proof using Hw.
  intros [l Hm]. apply post_order_elem; [eauto|]. pose proof (tree_le _ Hw _ _ Hm). lia.
Qed.

Lemma fold_stts (sel : InstrLvlAbs -> list Expr) ds s :
  foldl (fun s d => ExprSet.insert_all (sel (rec_at W d)) s) s ds =
  ExprSet.insert_all (mjoin ((fun d => sel (rec_at W d)) <$> ds)) s.
Proof using Type.
  revert s. induction ds as [|d ds IH]; intros s; [done|]. cbn.
  by rewrite IH, ExprSet.insert_all_app.
Qed.

Lemma fold_instrs ds s :
  foldl (fun s d => InsertInstr (rec_at W d) s) s ds =
  s ++ mjoin ((fun d => KeyVec.vec_ (instrs_ (rec_at W d))) <$> ds).
Proof using Type.
  revert s. induction ds as [|d ds IH]; intros s; cbn; [by rewrite app_nil_r|].
  rewrite IH. unfold InsertInstr. by rewrite <- app_assoc.
Qed.

Lemma elem_of_tree_list {A} (sel : InstrLvlAbs -> list A) top (x : A) :
  is_Some (W !! top) ->
  x ∈ mjoin ((fun d => sel (rec_at W d)) <$>
             post_order (S (N.to_nat (counter_ w))) W top) <->
  exists d, under W top d /\ x ∈ sel (rec_at W d).
Proof using Hw.
  intros Ht. rewrite list_elem_of_join. setoid_rewrite list_elem_of_fmap. split.
  - intros (ys & Hx & d & -> & Hd%tree_elem); eauto.
  - intros (d & Hd%tree_elem & Hx); eauto.
Qed.
End tree.

Lemma GetInstrTree_run w top : tree_ok w -> is_Some (w_ilas w !! top) ->
  exists ins, GetInstrTree top w = Ok (ins, w) /\ forall i,
    i ∈ ins <-> exists d, under (w_ilas w) top d /\
                 i ∈ KeyVec.vec_ (instrs_ (rec_at (w_ilas w) d)).
Proof.
  intros Hw Ht. eexists. split; [by apply over_tree_spec|]. intros i. rewrite fold_instrs. cbn.
  by apply (elem_of_tree_list w Hw (fun l => KeyVec.vec_ (instrs_ l))).
Qed.

(** C30.  Collecting over a hierarchy terminates and is complete: [GetInstrTree]
    lists exactly the instructions of the ILAs under the top, and [GetSttTree]
    (and likewise [GetVarTree] for states and inputs) exactly their variables,
    each once, without touching the store. *)
Theorem collect_tree_spec w top : tree_ok w -> is_Some (w_ilas w !! top) ->
  (exists ins, GetInstrTree top w = Ok (ins, w) /\ forall i,
     i ∈ ins <-> exists d, under (w_ilas w) top d /\
                  i ∈ KeyVec.vec_ (instrs_ (rec_at (w_ilas w) d))) /\
  (exists vs, GetSttTree top w = Ok (vs, w) /\ ExprSet.wf vs /\ forall i,
     i ∈ ExprSet.ids vs <-> exists d, under (w_ilas w) top d /\
       i ∈ ExprSet.ids (KeyVec.vec_ (states_ (rec_at (w_ilas w) d)))) /\
  (exists vs, GetVarTree top w = Ok (vs, w) /\ ExprSet.wf vs /\ forall i,
     i ∈ ExprSet.ids vs <-> exists d, under (w_ilas w) top d /\
       (i ∈ ExprSet.ids (KeyVec.vec_ (states_ (rec_at (w_ilas w) d))) \/
        i ∈ ExprSet.ids (KeyVec.vec_ (inputs_ (rec_at (w_ilas w) d))))).
Proof.
  intros Hw Ht.
  assert (Hids : forall (sel : InstrLvlAbs -> list Expr) i,
    i ∈ ExprSet.ids (mjoin ((fun d => sel (rec_at (w_ilas w) d)) <$>
          post_order (S (N.to_nat (counter_ w))) (w_ilas w) top)) <->
    exists d, under (w_ilas w) top d /\ i ∈ ExprSet.ids (sel (rec_at (w_ilas w) d))).
  { intros sel i. unfold ExprSet.ids. rewrite list_elem_of_fmap. split.
    - intros (e & -> & (d & Hd & He)%elem_of_tree_list); [|done..].
      exists d. split; [done|]. by apply list_elem_of_fmap_2.
    - intros (d & Hd & (e & -> & He)%list_elem_of_fmap). exists e. split; [done|].
      apply elem_of_tree_list; eauto. }
  assert (Hwf : ExprSet.wf []) by constructor.
  split; [|split].
  - by apply GetInstrTree_run.
  - eexists. split; [by apply over_tree_spec|].
    rewrite (fold_stts w (fun l => KeyVec.vec_ (states_ l))).
    split; [by apply ExprSet.insert_all_wf|]. intros i. rewrite ExprSet.insert_all_ids.
    pose proof (Hids (fun l => KeyVec.vec_ (states_ l)) i) as H. cbn beta in H.
    rewrite H. cbn. rewrite elem_of_nil. tauto.
  - unfold GetVarTree, InsertVarTree, InsertSttTree, InsertInpTree. cbv [mbind ST_bind].
    rewrite over_tree_spec by done. eexists. split; [by apply over_tree_spec|].
    rewrite (fold_stts w (fun l => KeyVec.vec_ (states_ l))),
      (fold_stts w (fun l => KeyVec.vec_ (inputs_ l))).
    split; [by apply ExprSet.insert_all_wf, ExprSet.insert_all_wf|]. intros i.
    rewrite !ExprSet.insert_all_ids.
    pose proof (Hids (fun l => KeyVec.vec_ (states_ l)) i) as H.
    pose proof (Hids (fun l => KeyVec.vec_ (inputs_ l)) i) as H'. cbn beta in H, H'.
    rewrite H, H'. cbn. rewrite elem_of_nil. naive_solver.
Qed.

(** A root with one child that has an input of its own. *)
Definition input_world : World :=
  let x := ExprVar {| h_id := 3; h_name := "x"; h_host := Some 2%N; h_sort := SortBool |} [] in
  let top := IlaOk.nil_ila "top" None in
  let child := IlaOk.nil_ila "c" (Some 1%N) in
  {| counter_ := 3;
     w_ilas := {[ 1%N := Ila.with_childs top (KeyVec.push_back KeyVec.empty "c" 2%N).2;
                  2%N := Ila.with_inputs child (KeyVec.push_back KeyVec.empty "x" x).2 ]};
     w_instrs := ∅ |}.

Lemma input_world_tree : tree_ok input_world.
Proof.
  assert (H : forall m l, w_ilas input_world !! m = Some l ->
    (m = 1%N /\ KeyVec.vec_ (childs_ l) = [2%N]) \/ (m = 2%N /\ KeyVec.vec_ (childs_ l) = [])).
  { intros m l. cbn. rewrite lookup_insert_Some, lookup_singleton_Some.
    intros [[<- <-]|[_ [<- <-]]]; [by left|by right]. }
  split; cbn [counter_ input_world].
  - intros m l [[-> _]|[-> _]]%H; cbn; lia.
  - intros m l c [[-> ->]|[-> ->]]%H; [|by intros ?%elem_of_nil].
    intros ->%list_elem_of_singleton. split; [lia|]. by eexists.
  - intros m l [[_ ->]|[_ ->]]%H; [apply NoDup_singleton|apply NoDup_nil_2].
Qed.

Lemma collect_tree_spec_witness :
  exists vs, GetVarTree 1 input_world = Ok (vs, input_world) /\ ExprSet.ids vs = [3%N].
Proof.
  destruct (collect_tree_spec input_world 1 input_world_tree ltac:(by eexists))
    as (_ & _ & vs & E & _). exists vs. split; [exact E|].
  enough (Ok (vs, input_world) = Ok ([ExprVar {| h_id := 3; h_name := "x";
    h_host := Some 2%N; h_sort := SortBool |} []], input_world)) as [= ->] by done.
  rewrite <- E. reflexivity.
Defined.

(** [GetInpTree] does not descend: it returns the inputs of the top ILA
    only, so it misses an input that a child declares, which the traversal
    [InsertInpTree] finds. *)
Theorem GetInpTree_top_only :
  (forall w top l, w_ilas w !! top = Some l -> GetInpTree top w = Ok (GetInp l, w)) /\
  exists w top vs, tree_ok w /\ GetInpTree top w = Ok ([], w) /\
    InsertInpTree top [] w = Ok (vs, w) /\ vs <> [].
Proof.
  split.
  - intros w top l H. unfold GetInpTree. cbv [mbind ST_bind]. unfold ila. by rewrite H.
  - eexists input_world, 1%N, _. split; [apply input_world_tree|].
    split; [reflexivity|]. split; [reflexivity|]. vm_compute. congruence.
Qed.
End absknob.
