(* ===== verification/Unroller.v ===== *)
(** * Unrolling

    [src/ila-mngr/u_unroller.cc]: the base class [Unroller] and the two ways to
    define transitions, [PathUnroll] (a given sequence of instructions) and
    [MonoUnroll] (all instructions of a hierarchy, chosen by selection bits).

    A computation runs on the object store and the members of the unroller.  The
    virtual methods [DefineDepVar] and [Transition] are the class
    [Transitions].  Time-stamps are [int]s; the model uses the integers they
    denote (no unrolling reaches 2^31 steps). *)
From S2P Require Import Prelude Sort Values Container Expr Smt World Z3Expr ExprOp AstHub IlaVars Collect.

Local Open Scope Z_scope.

Section state.
Context {Z3 : Z3Api}.

(** The members of [Unroller]. *)
Record Unroller := {
  vars_ : list Expr;
  k_pred_ : list Expr;
  k_next_ : list Expr;
  extra_suff_ : string;
  g_pred_ : list Expr;
  i_pred_ : list Expr;
  s_pred_ : gmap Z (list Expr);
  k_prev_z3_ : list zexpr;
  k_curr_z3_ : list zexpr;
  k_next_z3_ : list zexpr;
  cstr_ : list zexpr }.

Definition New (suff : string) : Unroller :=
  {| vars_ := []; k_pred_ := []; k_next_ := []; extra_suff_ := suff; g_pred_ := [];
     i_pred_ := []; s_pred_ := ∅; k_prev_z3_ := []; k_curr_z3_ := []; k_next_z3_ := [];
     cstr_ := [] |}.

Section setters.
Context (u : Unroller).
Definition with_tables (vars k_pred k_next : list Expr) : Unroller :=
  {| vars_ := vars; k_pred_ := k_pred; k_next_ := k_next; extra_suff_ := extra_suff_ u;
     g_pred_ := g_pred_ u; i_pred_ := i_pred_ u; s_pred_ := s_pred_ u;
     k_prev_z3_ := k_prev_z3_ u; k_curr_z3_ := k_curr_z3_ u; k_next_z3_ := k_next_z3_ u;
     cstr_ := cstr_ u |}.
Definition with_preds (g i : list Expr) (s : gmap Z (list Expr)) : Unroller :=
  {| vars_ := vars_ u; k_pred_ := k_pred_ u; k_next_ := k_next_ u;
     extra_suff_ := extra_suff_ u; g_pred_ := g; i_pred_ := i; s_pred_ := s;
     k_prev_z3_ := k_prev_z3_ u; k_curr_z3_ := k_curr_z3_ u; k_next_z3_ := k_next_z3_ u;
     cstr_ := cstr_ u |}.
Definition with_z3 (prev curr next cstr : list zexpr) : Unroller :=
  {| vars_ := vars_ u; k_pred_ := k_pred_ u; k_next_ := k_next_ u;
     extra_suff_ := extra_suff_ u; g_pred_ := g_pred_ u; i_pred_ := i_pred_ u;
     s_pred_ := s_pred_ u; k_prev_z3_ := prev; k_curr_z3_ := curr; k_next_z3_ := next;
     cstr_ := cstr |}.
Definition with_cstr (cstr : list zexpr) : Unroller :=
  with_z3 (k_prev_z3_ u) (k_curr_z3_ u) (k_next_z3_ u) cstr.
Definition with_next_z3 (next : list zexpr) : Unroller :=
  with_z3 (k_prev_z3_ u) (k_curr_z3_ u) next (cstr_ u).
Definition with_curr_z3 (curr : list zexpr) : Unroller :=
  with_z3 (k_prev_z3_ u) curr (k_next_z3_ u) (cstr_ u).
Definition with_prev_z3 (prev : list zexpr) : Unroller :=
  with_z3 prev (k_curr_z3_ u) (k_next_z3_ u) (cstr_ u).
End setters.

(** ** The predicates *)
Definition AddGlobPred (u : Unroller) (p : Expr) : Unroller :=
  with_preds u (g_pred_ u ++ [p]) (i_pred_ u) (s_pred_ u).
Definition AddInitPred (u : Unroller) (p : Expr) : Unroller :=
  with_preds u (g_pred_ u) (i_pred_ u ++ [p]) (s_pred_ u).
(** [s_pred_[k]], created empty on first use. *)
Definition step_pred (u : Unroller) (k : Z) : list Expr := default [] (s_pred_ u !! k).
Definition AddStepPred (u : Unroller) (p : Expr) (k : Z) : Unroller :=
  with_preds u (g_pred_ u) (i_pred_ u) (<[k := step_pred u k ++ [p]]> (s_pred_ u)).
Definition ClearGlobPred (u : Unroller) : Unroller := with_preds u [] (i_pred_ u) (s_pred_ u).
Definition ClearInitPred (u : Unroller) : Unroller := with_preds u (g_pred_ u) [] (s_pred_ u).
Definition ClearStepPred (u : Unroller) : Unroller := with_preds u (g_pred_ u) (i_pred_ u) ∅.
Definition ClearPred (u : Unroller) : Unroller :=
  ClearStepPred (ClearInitPred (ClearGlobPred u)).

(** ** Computations *)
Abbreviation U := (ST (World * Unroller)).

Definition on_world {A} (m : M A) : U A := fun s =>
  match m s.1 with Ok (a, w) => Ok (a, (w, s.2)) | Fail e => Fail e end.
Definition self : U Unroller := gets snd.
Definition set_self (f : Unroller -> Unroller) : U unit := modify (fun s => (s.1, f s.2)).

(** [gen().GetExpr]. *)
Definition gen (e : Expr) (suffix : string) : U zexpr := fun s =>
  z ← GetExpr (w_ilas s.1) e suffix; Ok (z, s).

Definition SuffCurr (u : Unroller) (t : Z) : string :=
  pretty t +:+ "_" +:+ extra_suff_ u.
Definition SuffNext (u : Unroller) (t : Z) : string :=
  pretty t +:+ "_" +:+ extra_suff_ u +:+ ".nxt".

Definition CurrState (v : Expr) (t : Z) : U zexpr :=
  lift (ila_assert (Exprs.is_var v));; u ← self; gen v (SuffCurr u t).
Definition NextState (v : Expr) (t : Z) : U zexpr :=
  lift (ila_assert (Exprs.is_var v));; u ← self; gen v (SuffNext u t).
Definition GetZ3Expr_at (e : Expr) (t : Z) : U zexpr := u ← self; gen e (SuffCurr u t).
Definition GetZ3Expr (e : Expr) : U zexpr := u ← self; gen e (extra_suff_ u).
Definition zeq (a b : zexpr) : Res zexpr := throw (z_app SEq [a; b]).
Definition Equal (a : Expr) (ta : Z) (b : Expr) (tb : Z) : U zexpr :=
  u ← self;
  a_expr ← gen a (SuffCurr u ta);
  b_expr ← gen b (SuffCurr u tb);
  lift (zeq a_expr b_expr).

(** ** Helpers: the destination vector is returned *)
Fixpoint IExprToZExpr (i_expr_src : list Expr) (suffix : string) (z_expr_dst : list zexpr) :
    U (list zexpr) :=
  match i_expr_src with
  | [] => mret z_expr_dst
  | i_expr :: src =>
      z_expr ← gen i_expr suffix;
      IExprToZExpr src suffix (z_expr_dst ++ [z_expr])
  end.

Fixpoint IExprToZExpr_subs (i_expr_src : list Expr) (suffix : string)
    (z_expr_dst subs_src subs_dst : list zexpr) : U (list zexpr) :=
  match i_expr_src with
  | [] => mret z_expr_dst
  | i_expr :: src =>
      z_expr ← gen i_expr suffix;
      let z_subs := z_substitute subs_src subs_dst z_expr in
      IExprToZExpr_subs src suffix (z_expr_dst ++ [z_subs]) subs_src subs_dst
  end.

(** Assert the predicates [es]: append them to [cstr_]. *)
Definition assert_preds (es : list Expr) (suffix : string) : U unit :=
  u ← self;
  c ← IExprToZExpr es suffix (cstr_ u);
  set_self (fun u => with_cstr u c).
Definition assert_preds_subs (es : list Expr) (suffix : string)
    (subs_src subs_dst : list zexpr) : U unit :=
  u ← self;
  c ← IExprToZExpr_subs es suffix (cstr_ u) subs_src subs_dst;
  set_self (fun u => with_cstr u c).

Fixpoint equal_loop (ab : list (zexpr * Expr)) (suffix : string) : U unit :=
  match ab with
  | [] => mret ()
  | (ai, b) :: ab =>
      bi ← gen b suffix;
      equal ← lift (zeq ai bi);
      set_self (fun u => with_cstr u (cstr_ u ++ [equal]));;
      equal_loop ab suffix
  end.
Definition AssertEqual (a : list zexpr) (b : list Expr) (suffix : string) : U unit :=
  lift (ila_assert (length a =? length b)%nat);;
  equal_loop (zip a b) suffix.

Fixpoint conj_loop (vec : list zexpr) (conj : zexpr) : Res zexpr :=
  match vec with
  | [] => Ok conj
  | v :: vec => conj ← throw (z_app SAnd [conj; v]); conj_loop vec conj
  end.
Definition ConjPred (vec : list zexpr) : Res zexpr :=
  conj ← conj_loop vec (z_bool_val true);
  Ok (z_simplify conj).

(** [StateUpdCmpl] and [DecodeCmpl]. *)
Definition StateUpdCmpl (instr : Instr) (var : Expr) : Expr :=
  match Instrs.update_state instr var with Some upd => upd | None => var end.
Definition DecodeCmpl (instr : Instr) : M Expr :=
  match decode_ instr with Some dec => mret dec | None => asthub.BoolConst true end.

(** ** The virtual methods *)
Class Transitions := { DefineDepVar : U unit; Transition : nat -> U unit }.

Section unroll.
Context {V : Transitions}.

(** The initial values: every variable at the first time-stamp. *)
Definition prepare_table (pos : Z) : U unit :=
  u ← self;
  zs ← IExprToZExpr (vars_ u) (SuffCurr u pos) (k_prev_z3_ u);
  set_self (fun u => with_prev_z3 u zs).

Definition BootStrap (pos : Z) (cache : bool) : U unit :=
  if negb cache then
    set_self (fun u => with_tables u [] [] []);;
    DefineDepVar;;
    u ← self;
    lift (ila_assert (negb (bool_decide (vars_ u = []))));;
    set_self (fun u => with_z3 u [] [] [] []);;
    prepare_table pos
  else
    u ← self;
    if bool_decide (vars_ u = []) then
      DefineDepVar;;
      u ← self;
      lift (ila_assert (length (k_prev_z3_ u) =? 0)%nat);;
      prepare_table pos
    else mret ().

(** [for (i = start; n times; i++)]. *)
Fixpoint loop (body : nat -> U unit) (i n : nat) : U unit :=
  match n with O => mret () | S n => body i;; loop body (S i) n end.

(** The end state: global and step-specific predicates once more.  The suffix
    is [SuffCurr(len)], not [SuffCurr(pos + len)]. *)
Definition end_state (len : nat) : U unit :=
  u ← self;
  let k_suffix := SuffCurr u (Z.of_nat len) in
  assert_preds (g_pred_ u) k_suffix;;
  assert_preds (step_pred u (Z.of_nat len)) k_suffix.

Definition conj_cstr : U zexpr := u ← self; lift (ConjPred (cstr_ u)).

Definition assn_body (pos : Z) (i : nat) : U unit :=
  u ← self;
  let k_suffix := SuffCurr u (pos + Z.of_nat i) in
  Transition i;;
  (if (i =? 0)%nat then assert_preds (i_pred_ u) k_suffix else mret ());;
  assert_preds (g_pred_ u) k_suffix;;
  assert_preds (step_pred u (Z.of_nat i)) k_suffix;;
  u ← self;
  assert_preds (k_pred_ u) k_suffix;;
  next ← IExprToZExpr (k_next_ u) k_suffix [];
  set_self (fun u => with_next_z3 u next);;
  AssertEqual next (vars_ u) (SuffCurr u (pos + Z.of_nat i + 1)).

Definition UnrollAssn (len : nat) (pos : Z) (cache : bool) : U zexpr :=
  BootStrap pos cache;;
  loop (assn_body pos) 0 len;;
  end_state len;;
  conj_cstr.

Definition none_body (pos : Z) (i : nat) : U unit :=
  u ← self;
  let k_suffix := SuffCurr u (pos + Z.of_nat i) in
  Transition i;;
  (if (i =? 0)%nat then assert_preds (i_pred_ u) k_suffix else mret ());;
  assert_preds (g_pred_ u) k_suffix;;
  u' ← self;
  assert_preds (k_pred_ u') k_suffix;;
  assert_preds (step_pred u (Z.of_nat i)) k_suffix;;
  next ← IExprToZExpr (k_next_ u') k_suffix [];
  set_self (fun u => with_next_z3 u next);;
  AssertEqual next (vars_ u') (SuffNext u (pos + Z.of_nat i)).

Definition UnrollNone (len : nat) (pos : Z) : U zexpr :=
  BootStrap pos false;;
  loop (none_body pos) 0 len;;
  conj_cstr.

Definition subs_body (pos : Z) (i : nat) : U unit :=
  u ← self;
  let k_suffix := SuffCurr u (pos + Z.of_nat i) in
  Transition i;;
  u ← self;
  curr ← IExprToZExpr (vars_ u) k_suffix [];
  set_self (fun u => with_curr_z3 u curr);;
  let subs_src := curr in
  let subs_dst := k_prev_z3_ u in
  (if (i =? 0)%nat then assert_preds_subs (i_pred_ u) k_suffix subs_src subs_dst
   else mret ());;
  assert_preds_subs (g_pred_ u) k_suffix subs_src subs_dst;;
  assert_preds_subs (k_pred_ u) k_suffix subs_src subs_dst;;
  assert_preds_subs (step_pred u (Z.of_nat i)) k_suffix subs_src subs_dst;;
  next ← IExprToZExpr_subs (k_next_ u) k_suffix [] subs_src subs_dst;
  set_self (fun u => with_prev_z3 (with_next_z3 u next) next).

Definition UnrollSubs (len : nat) (pos : Z) : U zexpr :=
  BootStrap pos false;;
  loop (subs_body pos) 0 len;;
  u ← self;
  AssertEqual (k_prev_z3_ u) (vars_ u) (SuffCurr u (Z.of_nat len));;
  end_state len;;
  conj_cstr.
End unroll.
End state.
Abbreviation U := (ST (World * Unroller)).

(** ** [class PathUnroll] *)
Module PathUnroll.
Section path.
Context {Z3 : Z3Api} {L : Layout} (seq_ : list objid).

Definition DefineDepVar : U unit :=
  dep_var ← foldM (fun i s => on_world (absknob.InsertSttInstr i s)) seq_ [];
  set_self (fun u => with_tables u (ExprSet.iter dep_var) (k_pred_ u) (k_next_ u)).

Definition Transition (idx : nat) : U unit :=
  lift (ila_check (idx <? length seq_)%nat);;
  i ← lift (Exprs.at_ seq_ idx);
  instr ← on_world (instr_ i);
  set_self (fun u =>
    with_tables u (vars_ u) (k_pred_ u) (StateUpdCmpl instr <$> vars_ u));;
  dec ← lift (not_null (decode_ instr));
  set_self (fun u => with_tables u (vars_ u) [dec] (k_next_ u)).

Definition transitions : Transitions :=
  {| Unroller.DefineDepVar := DefineDepVar; Unroller.Transition := Transition |}.

Definition PathSubs (pos : Z) : U zexpr := UnrollSubs (V := transitions) (length seq_) pos.
Definition PathAssn (pos : Z) : U zexpr := UnrollAssn (V := transitions) (length seq_) pos false.
Definition PathNone (pos : Z) : U zexpr := UnrollNone (V := transitions) (length seq_) pos.
End path.
End PathUnroll.

(** ** [class MonoUnroll] *)
Module MonoUnroll.
Section mono.
Context {Z3 : Z3Api} {L : Layout} (top_ : objid).
Import asthub IlaVars.

(** [Unroller::NewFreeVar]. *)
Definition NewFreeVar (var : Expr) (name : string) : M Expr :=
  host ← notnull (Exprs.host var);
  match Exprs.sort var with
  | SortBool => NewBoolFreeVar host name
  | SortBv w => NewBvFreeVar host name w
  | SortMem aw dw => NewMemFreeVar host name aw dw
  | _ => lift (Fail EAssert)
  end.

Definition DefineDepVar : U unit :=
  set_self (fun u => with_tables u [] (k_pred_ u) (k_next_ u));;
  dep_var ← on_world (absknob.GetSttTree top_);
  lift (ila_assert (negb (bool_decide (dep_var = []))));;
  set_self (fun u => with_tables u (ExprSet.iter dep_var) (k_pred_ u) (k_next_ u)).

(** The selection bit of an instruction. *)
Definition sel_bit (i : objid) : M Expr :=
  instr ← instr_ i;
  host ← lift (deref (i_host instr));
  NewBoolFreeVar host (i_name instr +:+ ".sel").

(** The constraints of one variable, accumulated over the instructions. *)
Fixpoint upd_loop (var var_next : Expr) (l : list (objid * Expr))
    (acc : Expr * Expr * Expr) : M (Expr * Expr * Expr) :=
  match l with
  | [] => mret acc
  | (i, sel) :: l =>
      let '(not_dec, acc_dec, acc_upd) := acc in
      instr ← instr_ i;
      decode ← DecodeCmpl instr;
      c ← Imply sel decode;
      acc_dec ← And acc_dec c;
      n ← Not decode;
      not_dec ← And not_dec n;
      let next := StateUpdCmpl instr var in
      equal ← Eq var_next next;
      c ← Imply sel equal;
      acc_upd ← And acc_upd c;
      upd_loop var var_next l (not_dec, acc_dec, acc_upd)
  end.

Definition var_constraints (var sel_dum : Expr) (sels : list (objid * Expr)) :
    M (Expr * list Expr) :=
  var_next ← NewFreeVar var (Exprs.name var +:+ ".vnxt");
  not_dec ← BoolConst true;
  acc_dec ← BoolConst true;
  acc_upd ← BoolConst true;
  '(not_dec, acc_dec, acc_upd) ← upd_loop var var_next sels (not_dec, acc_dec, acc_upd);
  c ← Imply sel_dum not_dec;
  acc_dec ← And acc_dec c;
  equal ← Eq var_next var;
  c ← Imply sel_dum equal;
  acc_upd ← And acc_upd c;
  mret (var_next, [acc_dec; acc_upd]).

(** One-hot encoding: at least one, at most one. *)
Definition at_least_one (sel_dum : Expr) (sels : list Expr) : M Expr :=
  foldM (fun sel_i acc => Or acc sel_i) sels sel_dum.

Fixpoint at_most_one_inner (sel_i : Expr) (rest : list Expr) (acc : Expr) : M Expr :=
  match rest with
  | [] => mret acc
  | sel_j :: rest =>
      ni ← Not sel_i;
      nj ← Not sel_j;
      not_both_true ← Or ni nj;
      acc ← And acc not_both_true;
      at_most_one_inner sel_i rest acc
  end.
Fixpoint at_most_one_loop (sels : list Expr) (acc : Expr) : M Expr :=
  match sels with
  | [] => mret acc
  | sel_i :: rest => acc ← at_most_one_inner sel_i rest acc; at_most_one_loop rest acc
  end.
Definition at_most_one (sels : list Expr) : M Expr :=
  t ← BoolConst true; at_most_one_loop sels t.

(** The whole table: next-state variables and constraints. *)
Definition make_table (vars : list Expr) : M (list Expr * list Expr) :=
  instr_set ← absknob.GetInstrTree top_;
  sel_bits ← foldM (fun i l => s ← sel_bit i; mret (l ++ [s])) instr_set [];
  sel_dum ← NewBoolFreeVar top_ "dead.sel";
  '(next, preds) ← foldM (fun var acc =>
      r ← var_constraints var sel_dum (zip instr_set sel_bits);
      mret (acc.1 ++ [r.1], acc.2 ++ r.2)) vars ([], []);
  least ← at_least_one sel_dum sel_bits;
  most ← at_most_one sel_bits;
  mret (next, preds ++ [least; most]).

(** The table is generated once per unrolling. *)
Definition Transition (idx : nat) : U unit :=
  u ← self;
  if negb (bool_decide (k_next_ u = [])) then
    lift (ila_assert (length (k_next_ u) =? length (vars_ u))%nat)
  else
    '(next, preds) ← on_world (make_table (vars_ u));
    set_self (fun u => with_tables u (vars_ u) (k_pred_ u ++ preds) (k_next_ u ++ next)).

Definition transitions : Transitions :=
  {| Unroller.DefineDepVar := DefineDepVar; Unroller.Transition := Transition |}.

Definition MonoSubs (length : nat) (pos : Z) : U zexpr :=
  UnrollSubs (V := transitions) length pos.
Definition MonoAssn (length : nat) (pos : Z) : U zexpr :=
  UnrollAssn (V := transitions) length pos false.
Definition MonoNone (length : nat) (pos : Z) : U zexpr :=
  UnrollNone (V := transitions) length pos.
Definition MonoIncr (length : nat) (pos : Z) : U zexpr :=
  UnrollAssn (V := transitions) length pos false.
End mono.
End MonoUnroll.
