(* ===== verification/UnrollerSpec.v ===== *)
(** * What the unrolled formulas mean

    The formula of [UnrollAssn] holds in a model exactly when the time-stamped
    constants of the model spell out a run of the transition system: the
    predicates hold at their time-stamps and each step is a transition.  The
    proofs are against the interface [TransitionsSpec]; [PathUnroll] implements
    it. *)
From S2P Require Import Prelude Sort Values Container Expr Smt World Z3Expr ExprOp AstHub Collect Unroller.
Local Open Scope Z_scope.

Definition holds (ρ : Env) (e : Expr) : Prop := eval ρ e = Some (VBool true).

Section spec.
Context {Z3 : Z3Api} {LZ : Z3Laws Z3} (W : gmap objid InstrLvlAbs) (HW : IlaOk.ilas_ok W).

(** Expressions the translation accepts. *)
Definition ok_expr (e : Expr) : Prop :=
  (exists T, registered T e) /\ wt e = true /\ translatable W e = true.
Definition ok_pred (e : Expr) : Prop := ok_expr e /\ Exprs.sort e = SortBool.

(** A vector of Boolean terms and the condition it stands for. *)
Definition means (zs : list zexpr) (Φ : Model -> Prop) : Prop :=
  Forall (fun z => z_has z SortBool) zs /\
  forall m, model_ok m -> Forall (fun z => z_eval m z = VBool true) zs <-> Φ m.

Lemma means_nil : means [] (fun _ => True).
Proof using Type. split; [done|]. intros m _. by rewrite Forall_nil. Qed.

Lemma means_app zs zs' Φ Ψ :
  means zs Φ -> means zs' Ψ -> means (zs ++ zs') (fun m => Φ m /\ Ψ m).
Proof using Type.
  intros [H1 H2] [H1' H2']. split; [by apply Forall_app|]. intros m Hm.
  by rewrite Forall_app, H2, H2'.
Qed.

Lemma means_iff zs Φ Ψ : (forall m, model_ok m -> Φ m <-> Ψ m) -> means zs Φ -> means zs Ψ.
Proof using Type. intros H [H1 H2]. split; [done|]. intros m Hm. by rewrite H2, H. Qed.

Lemma gen_run e suffix w u : ok_expr e -> w_ilas w = W ->
  exists z, gen e suffix (w, u) = Ok (z, (w, u)) /\ denotes W suffix e z.
Proof using HW.
  intros ([T HT] & Hw & Ht) Hi. destruct (GetExpr_denotes W HW T suffix e HT Hw Ht) as (z & E & Hz).
  exists z. unfold gen. cbn. by rewrite Hi, E.
Qed.

Lemma IExprToZExpr_run es suffix dst w u : Forall ok_expr es -> w_ilas w = W ->
  exists zs, IExprToZExpr es suffix dst (w, u) = Ok (dst ++ zs, (w, u)) /\
    Forall2 (denotes W suffix) es zs.
Proof using HW.
  intros Hes Hi. revert dst. induction Hes as [|e es He _ IH]; intros dst.
  - exists []. rewrite app_nil_r. by split.
  - destruct (gen_run e suffix w u He Hi) as (z & Hz & Hd).
    destruct (IH (dst ++ [z])) as (zs & E & Hds). exists (z :: zs). cbn [IExprToZExpr].
    cbv [mbind ST_bind]. rewrite Hz, E, <- app_assoc. split; [done|]. by constructor.
Qed.

Lemma preds_means es suffix zs : Forall ok_pred es -> Forall2 (denotes W suffix) es zs ->
  means zs (fun m => Forall (holds (env_of W m suffix)) es).
Proof using Type.
  intros Hes Hz. split.
  - induction Hz as [|e z es zs [Hh _] _ IH]; [constructor|].
    apply Forall_cons in Hes as [[_ Hs] Hes]. constructor; [by rewrite <- Hs|auto].
  - intros m Hm. clear Hes. induction Hz as [|e z es zs [_ Hv] _ IH]; [by rewrite !Forall_nil|].
    rewrite !Forall_cons, IH. unfold holds. rewrite <- Hv by done.
    assert (Some (z_eval m z) = Some (VBool true) <-> z_eval m z = VBool true) by (split; congruence).
    tauto.
Qed.

Lemma assert_preds_run es suffix w u Φ :
  Forall ok_pred es -> w_ilas w = W -> means (cstr_ u) Φ ->
  exists c, assert_preds es suffix (w, u) = Ok ((), (w, with_cstr u c)) /\
    means c (fun m => Φ m /\ Forall (holds (env_of W m suffix)) es).
Proof using HW.
  intros Hes Hi Hc.
  destruct (IExprToZExpr_run es suffix (cstr_ u) w u) as (zs & E & Hzs); [|done|].
  { eapply Forall_impl; [done|]. intros e [H _]. exact H. }
  exists (cstr_ u ++ zs). unfold assert_preds, self, gets, set_self, modify.
  cbv [mbind ST_bind]. cbn [snd]. rewrite E. cbn. split; [done|].
  apply means_app; [done|]. by apply preds_means.
Qed.

Lemma with_cstr_twice (u : Unroller) c c' : with_cstr (with_cstr u c) c' = with_cstr u c'.
Proof using Type. done. Qed.
Lemma with_cstr_id (u : Unroller) : with_cstr u (cstr_ u) = u.
Proof using Type. by destruct u. Qed.

Lemma equal_loop_run azs bs suffix w u Φ :
  Forall2 (fun a b => z_has a (Exprs.sort b)) azs bs -> Forall ok_expr bs ->
  w_ilas w = W -> means (cstr_ u) Φ ->
  exists c, equal_loop (zip azs bs) suffix (w, u) = Ok ((), (w, with_cstr u c)) /\
    means c (fun m => Φ m /\
      Forall2 (fun a b => Some (z_eval m a) = eval (env_of W m suffix) b) azs bs).
Proof using HW.
  intros Hab Hbs Hi. revert u Φ. induction Hab as [|a b azs bs Ha _ IH]; intros u Φ Hc.
  - exists (cstr_ u). cbn. rewrite with_cstr_id. split; [done|].
    eapply means_iff; [|done]. intros m Hm. split; [split; [done|constructor]|tauto].
  - apply Forall_cons in Hbs as [Hb Hbs].
    destruct (gen_run b suffix w u Hb Hi) as (zb & Hzb & Hdb & Hvb).
    destruct (z_app_law SEq [a; zb] [Exprs.sort b; Exprs.sort b] SortBool) as (z & Hz & Hzs & Hzv).
    { by repeat constructor. }
    { cbn. by rewrite decide_True. }
    destruct (IH Hbs (with_cstr u (cstr_ u ++ [z])) (fun m => Φ m /\
      Some (z_eval m a) = eval (env_of W m suffix) b)) as (c & E & Hmc).
    { apply means_app; [done|]. split; [by constructor|]. intros m Hm.
      rewrite Forall_singleton, <- Hvb by done. specialize (Hzv m Hm). cbn in Hzv.
      injection Hzv as ->. split.
      - intros [= H%bool_decide_eq_true]. by f_equal.
      - intros [= ->]. by rewrite bool_decide_true. }
    exists c. cbn [equal_loop zip zip_with]. cbv [mbind ST_bind]. rewrite Hzb. unfold zeq.
    rewrite Hz. cbn. unfold set_self, modify. cbn. cbv [mbind ST_bind] in E.
    rewrite E, with_cstr_twice. split; [done|]. eapply means_iff; [|exact Hmc].
    intros m Hm. cbn beta. rewrite Forall2_cons. tauto.
Qed.

Lemma AssertEqual_run azs bs suffix w u Φ :
  Forall2 (fun a b => z_has a (Exprs.sort b)) azs bs -> Forall ok_expr bs ->
  w_ilas w = W -> means (cstr_ u) Φ ->
  exists c, AssertEqual azs bs suffix (w, u) = Ok ((), (w, with_cstr u c)) /\
    means c (fun m => Φ m /\
      Forall2 (fun a b => Some (z_eval m a) = eval (env_of W m suffix) b) azs bs).
Proof using HW.
  intros Hab Hbs Hi Hc. unfold AssertEqual, lift. cbv [mbind ST_bind].
  rewrite (Forall2_length _ _ _ Hab), Nat.eqb_refl. cbn. by apply equal_loop_run.
Qed.

Lemma conj_loop_run zs conj Φ Ψ : means zs Φ -> means [conj] Ψ ->
  exists z, conj_loop zs conj = Ok z /\ means [z] (fun m => Ψ m /\ Φ m).
Proof using Type.
  revert conj Φ Ψ. induction zs as [|z zs IH]; intros conj Φ Ψ [Hs Hv] Hc.
  - exists conj. split; [done|]. eapply means_iff; [|done]. intros m Hm. cbn beta.
    rewrite <- Hv, Forall_nil by done. tauto.
  - apply Forall_cons in Hs as [Hz Hs]. destruct Hc as [Hcs Hcv].
    destruct (z_app_law SAnd [conj; z] [SortBool; SortBool] SortBool) as (c & E & Hcs' & Hcv').
    { apply Forall_inv in Hcs. by repeat constructor. }
    { done. }
    destruct (IH c (fun m => Forall (fun z => z_eval m z = VBool true) zs)
      (fun m => Ψ m /\ z_eval m z = VBool true)) as (r & E' & Hr).
    { by split. }
    { split; [by constructor|]. intros m Hm. rewrite Forall_singleton, <- Hcv, Forall_singleton by done.
      specialize (Hcv' m Hm). apply Forall_inv in Hcs.
      pose proof (z_eval_sort m conj SortBool Hm Hcs) as [b Hb]%has_sort_bool.
      pose proof (z_eval_sort m z SortBool Hm Hz) as [b' Hb']%has_sort_bool.
      cbn in Hcv'. rewrite Hb, Hb' in *. cbn in Hcv'. injection Hcv' as ->.
      destruct b, b'; naive_solver. }
    exists r. cbn. rewrite E. cbn. split; [done|]. eapply means_iff; [|exact Hr].
    intros m Hm. cbn beta. rewrite <- Hv, Forall_cons by done. tauto.
Qed.

Lemma ConjPred_run zs Φ : means zs Φ ->
  exists z, ConjPred zs = Ok z /\ z_has z SortBool /\
    forall m, model_ok m -> z_eval m z = VBool true <-> Φ m.
Proof using Type.
  intros H. destruct (z_bool_val_law true) as [Ht Hv].
  destruct (conj_loop_run zs (z_bool_val true) Φ (fun _ => True) H) as (z & E & Hz & Hzv).
  { split; [by constructor|]. intros m _. by rewrite Forall_singleton, Hv. }
  apply Forall_inv in Hz. destruct (z_simplify_law _ _ Hz) as [Hs Hsv].
  exists (z_simplify z). unfold ConjPred. rewrite E. split; [done|]. split; [done|].
  intros m Hm. rewrite Hsv by done. specialize (Hzv m Hm). rewrite Forall_singleton in Hzv.
  rewrite Hzv. tauto.
Qed.

(** ** What a transition system promises to the unroller

    [vs]: the variables; [P i], [N i]: the predicates and the next-state
    expressions of step [i].  The store may grow, but its ILAs stay. *)
Record TransitionsSpec (V : Transitions) (w0 : World) (len : nat) (vs : list Expr)
    (P N : nat -> list Expr) : Prop := {
  ts_vars u : DefineDepVar (w0, u) = Ok ((), (w0, with_tables u vs (k_pred_ u) (k_next_ u)));
  ts_step i w u : (i < len)%nat -> w_ilas w = W -> w_instrs w = w_instrs w0 ->
    vars_ u = vs ->
    (i = 0%nat -> w = w0 /\ k_pred_ u = [] /\ k_next_ u = []) ->
    (forall j, i = S j -> k_pred_ u = P j /\ k_next_ u = N j) ->
    exists w', w_ilas w' = W /\ (w_instrs w' = w_instrs w0 /\ (counter_ w <= counter_ w')%N) /\
      Transition i (w, u) = Ok ((), (w', with_tables u vs (P i) (N i)));
  ts_ne : vs <> [];
  ts_vs : Forall ok_expr vs;
  ts_pred i : (i < len)%nat -> Forall ok_pred (P i);
  ts_next i : (i < len)%nat ->
    Forall2 (fun v n => ok_expr n /\ Exprs.sort n = Exprs.sort v) vs (N i) }.

Section assn.
Context (V : Transitions) (w0 : World) (len : nat) (vs : list Expr) (P N : nat -> list Expr).
Context (HV : TransitionsSpec V w0 len vs P N) (Hw0 : w_ilas w0 = W).
Context (ex : string) (g ip : list Expr) (sp : gmap Z (list Expr)).
Hypothesis Hg : Forall ok_pred g.
Hypothesis Hip : Forall ok_pred ip.
Hypothesis Hsp : forall k, Forall ok_pred (default [] (sp !! k)).

(** The members the loops leave alone. *)
Definition conf (u : Unroller) : Prop :=
  extra_suff_ u = ex /\ g_pred_ u = g /\ i_pred_ u = ip /\ s_pred_ u = sp.

Definition suff (t : Z) : string := pretty t +:+ "_" +:+ ex.
Definition at_time (m : Model) (t : Z) : Env := env_of W m (suff t).

Lemma conf_suff u t : conf u -> SuffCurr u t = suff t.
Proof using Type. intros (H & _). unfold SuffCurr, suff. by rewrite H. Qed.
Lemma conf_cstr u c : conf u -> conf (with_cstr u c).
Proof using Type. done. Qed.

(** The conditions of step [i] before the transition. *)
Definition init_ok (m : Model) (pos : Z) (i : nat) : Prop :=
  i = 0%nat -> Forall (holds (at_time m pos)) ip.
Definition preds_ok (m : Model) (t : Z) (k : Z) : Prop :=
  Forall (holds (at_time m t)) g /\ Forall (holds (at_time m t)) (default [] (sp !! k)).
Definition next_ok (m : Model) (i : nat) (t t' : Z) : Prop :=
  Forall2 (fun v n => eval (at_time m t') v = eval (at_time m t) n) vs (N i).
Definition step_ok (m : Model) (pos : Z) (i : nat) : Prop :=
  let t := pos + Z.of_nat i in
  init_ok m pos i /\ preds_ok m t (Z.of_nat i) /\
  Forall (holds (at_time m t)) (P i) /\ next_ok m i t (t + 1).

Lemma next_values i m t t' zs : (i < len)%nat -> model_ok m ->
  Forall2 (denotes W (suff t)) (N i) zs ->
  Forall2 (fun a b => Some (z_eval m a) = eval (env_of W m (suff t')) b) zs vs <->
  next_ok m i t t'.
Proof using HV.
  intros Hi Hm Hz. pose proof (ts_next _ _ _ _ _ _ HV i Hi) as Hn. unfold next_ok, at_time.
  clear -Hm Hz Hn. revert zs Hz. induction Hn as [|v n vs ns _ _ IH]; intros zs Hz;
    inversion Hz as [|? z ? zs' [_ Hv] Hz']; subst; [split; intros; constructor|].
  rewrite !Forall2_cons, IH, Hv by done. naive_solver.
Qed.

Lemma next_sorts i t zs : (i < len)%nat -> Forall2 (denotes W (suff t)) (N i) zs ->
  Forall2 (fun a b => z_has a (Exprs.sort b)) zs vs.
Proof using HV.
  intros Hi Hz. pose proof (ts_next _ _ _ _ _ _ HV i Hi) as Hn. clear -Hz Hn.
  revert zs Hz. induction Hn as [|v n vs ns [_ Hs] _ IH]; intros zs Hz;
    inversion Hz as [|? z ? zs' [Hh _] Hz']; subst; constructor; [by rewrite <- Hs|auto].
Qed.

Lemma next_exprs i : (i < len)%nat -> Forall ok_expr (N i).
Proof using HV.
  intros Hi. pose proof (ts_next _ _ _ _ _ _ HV i Hi) as Hn. clear -Hn.
  induction Hn as [|v n vs ns [H _] _ IH]; by constructor.
Qed.

(** The state before step [i], and its step. *)
Definition inv (Φ : Model -> Prop) (i : nat) (w : World) (u : Unroller) : Prop :=
  w_ilas w = W /\ (w_instrs w = w_instrs w0 /\ (counter_ w0 <= counter_ w)%N) /\ conf u /\ vars_ u = vs /\
  means (cstr_ u) Φ /\
  (i = 0%nat -> w = w0 /\ k_pred_ u = [] /\ k_next_ u = []) /\
  (forall j, i = S j -> k_pred_ u = P j /\ k_next_ u = N j).

Lemma inv_iff Φ Ψ i w u : (forall m, model_ok m -> Φ m <-> Ψ m) -> inv Φ i w u -> inv Ψ i w u.
Proof using Type.
  intros H (H1 & H2 & H3 & H4 & H5 & H6). do 4 (split; [done|]). split; [by eapply means_iff|done].
Qed.

(** The end-state assertions. *)
Lemma end_state_run n w u Φ : w_ilas w = W -> conf u -> means (cstr_ u) Φ ->
  exists c, end_state n (w, u) = Ok ((), (w, with_cstr u c)) /\
    means c (fun m => Φ m /\ preds_ok m (Z.of_nat n) (Z.of_nat n)).
Proof using HW Hg Hsp.
  intros Hi Hc Hm. pose proof Hc as (He & Hg' & Hip' & Hsp').
  destruct (assert_preds_run g (suff (Z.of_nat n)) w u Φ Hg Hi Hm) as (c1 & E1 & Hm1).
  destruct (assert_preds_run (default [] (sp !! Z.of_nat n)) (suff (Z.of_nat n)) w
    (with_cstr u c1) _ (Hsp _) Hi Hm1) as (c2 & E2 & Hm2).
  exists c2. unfold end_state, self, gets, step_pred. cbv [mbind ST_bind]. cbn [snd].
  rewrite (conf_suff _ _ Hc), Hg', Hsp', E1, E2. split; [done|].
  eapply means_iff; [|exact Hm2]. intros m _. unfold preds_ok, at_time. tauto.
Qed.

Lemma assn_step pos i Φ w u : (i < len)%nat -> inv Φ i w u ->
  exists w' u', assn_body pos i (w, u) = Ok ((), (w', u')) /\
    inv (fun m => Φ m /\ step_ok m pos i) (S i) w' u'.
Proof using HW HV Hg Hip Hsp.
  intros Hi (Hw & [Hwi Hcn] & Hc & Hv & Hm & H0 & HS). set (t := pos + Z.of_nat i).
  destruct (ts_step _ _ _ _ _ _ HV i w u Hi Hw Hwi Hv H0 HS)
    as (w' & Hw' & [Hwi' Hcn'] & Etr).
  set (u1 := with_tables u vs (P i) (N i)) in *.
  assert (Hc1 : conf u1) by done. assert (Hm1 : means (cstr_ u1) Φ) by done.
  pose proof Hc as (He & Hg' & Hip' & Hsp').
  assert (Hinit : exists c, (if (i =? 0)%nat then assert_preds ip (suff t) else mret ())
            (w', u1) = Ok ((), (w', with_cstr u1 c)) /\
            means c (fun m => Φ m /\ init_ok m pos i)).
  { destruct (Nat.eqb_spec i 0) as [->|Hne].
    - destruct (assert_preds_run ip (suff t) w' u1 Φ Hip Hw' Hm1) as (c & E & Hmc).
      exists c. split; [done|]. eapply means_iff; [|exact Hmc]. intros m _. unfold init_ok, at_time.
      replace pos with t by (unfold t; lia). naive_solver.
    - exists (cstr_ u1). split; [done|]. eapply means_iff; [|exact Hm1].
      intros m _. unfold init_ok. naive_solver. }
  destruct Hinit as (c1 & E1 & Hm2).
  destruct (assert_preds_run g (suff t) w' (with_cstr u1 c1) _ Hg Hw' Hm2)
    as (c2 & E2 & Hm3).
  destruct (assert_preds_run (default [] (sp !! Z.of_nat i)) (suff t) w'
    (with_cstr u1 c2) _ (Hsp _) Hw' Hm3) as (c3 & E3 & Hm4).
  destruct (assert_preds_run (P i) (suff t) w' (with_cstr u1 c3) _
    (ts_pred _ _ _ _ _ _ HV i Hi) Hw' Hm4) as (c4 & E4 & Hm5).
  destruct (IExprToZExpr_run (N i) (suff t) [] w' (with_cstr u1 c4)
    (next_exprs i Hi) Hw') as (zs & E5 & Hzs).
  destruct (AssertEqual_run zs vs (suff (t + 1)) w'
    (with_next_z3 (with_cstr u1 c4) zs) _ (next_sorts i t zs Hi Hzs)
    (ts_vs _ _ _ _ _ _ HV) Hw' Hm5) as (c5 & E6 & Hm6).
  eexists w', _. split.
  - unfold assn_body, self, gets, set_self, modify, step_pred. cbv [mbind ST_bind].
    cbn [snd]. rewrite Etr, (conf_suff u _ Hc), Hg', Hip', Hsp'.
    fold t. rewrite E1, E2. change (with_cstr (with_cstr u1 c1) c2) with (with_cstr u1 c2).
    rewrite E3. change (with_cstr (with_cstr u1 c2) c3) with (with_cstr u1 c3).
    cbn [fst snd]. rewrite (conf_suff (with_cstr u1 c3) _ Hc1). fold t.
    change (k_pred_ (with_cstr u1 c3)) with (P i).
    change (k_next_ (with_cstr u1 c3)) with (N i).
    change (vars_ (with_cstr u1 c3)) with vs. rewrite E4. change (with_cstr (with_cstr u1 c3) c4) with (with_cstr u1 c4).
    rewrite E5. cbn [app fst snd]. exact E6.
  - split; [done|]. split; [split; [done|by etrans]|]. do 2 (split; [done|]). split.
    + eapply means_iff; [|exact Hm6]. intros m Hmm. cbn beta.
      rewrite (next_values i m t (t + 1) zs Hi Hmm Hzs).
      unfold step_ok, preds_ok. fold t. unfold at_time. tauto.
    + split; [done|]. intros j [= <-]. done.
Qed.

Lemma assn_loop pos n : forall i Φ w u, (i + n <= len)%nat -> inv Φ i w u ->
  exists w' u', loop (assn_body pos) i n (w, u) = Ok ((), (w', u')) /\
    inv (fun m => Φ m /\ forall j, (i <= j < i + n)%nat -> step_ok m pos j) (i + n) w' u'.
Proof using HW HV Hg Hip Hsp.
  induction n as [|n IH]; intros i Φ w u Hn Hinv.
  - exists w, u. split; [done|]. rewrite Nat.add_0_r. eapply inv_iff; [|exact Hinv].
    intros m _. split; [|tauto]. split; [done|]. intros; lia.
  - destruct (assn_step pos i Φ w u) as (w1 & u1 & E1 & H1); [lia|done|].
    destruct (IH (S i) _ w1 u1 ltac:(lia) H1) as (w2 & u2 & E2 & H2). exists w2, u2.
    cbn [loop]. cbv [mbind ST_bind]. rewrite E1. split; [done|].
    replace (i + S n)%nat with (S i + n)%nat by lia.
    eapply inv_iff; [|exact H2]. intros m _. cbn beta. split.
    + intros [[HΦ Hs] Hr]. split; [done|]. intros j Hj.
      destruct (decide (j = i)) as [->|]; [done|]. apply Hr. lia.
    + intros [HΦ Hr]. split; [split; [done|]|]; intros; apply Hr; lia.
Qed.

(** The state the loops start from. *)
Lemma BootStrap_run pos u : conf u ->
  exists zs u', BootStrap pos false (w0, u) = Ok ((), (w0, u')) /\
    inv (fun _ => True) 0 w0 u' /\ k_prev_z3_ u' = zs /\ Forall2 (denotes W (suff pos)) vs zs.
Proof using HW HV Hw0.
  intros Hc. unfold BootStrap. cbn [negb]. unfold set_self, modify, self, gets, lift.
  cbv [mbind ST_bind]. cbn [fst snd]. rewrite (ts_vars _ _ _ _ _ _ HV).
  cbn [fst snd vars_ with_tables]. rewrite bool_decide_false by apply (ts_ne _ _ _ _ _ _ HV).
  cbn [negb ila_assert Res_bind]. unfold prepare_table, self, gets, set_self, modify.
  cbv [mbind ST_bind]. cbn [fst snd].
  match goal with |- context [IExprToZExpr _ _ _ (w0, ?x)] => set (u1 := x) end.
  assert (Hc1 : conf u1) by exact Hc.
  change (vars_ u1) with vs. change (k_prev_z3_ u1) with (@nil zexpr).
  rewrite (conf_suff _ _ Hc1).
  destruct (IExprToZExpr_run vs (suff pos) [] w0 u1) as (zs & E & Hzs);
    [apply (ts_vs _ _ _ _ _ _ HV)|done|].
  rewrite E. cbn [app fst snd]. exists zs, (with_prev_z3 u1 zs). split; [done|].
  split; [|done]. split; [done|]. split; [done|]. do 2 (split; [done|]). split; [apply means_nil|].
  split; [done|]. intros j ?. lia.
Qed.

Lemma UnrollAssn_run pos u : conf u ->
  exists z w' u', UnrollAssn len pos false (w0, u) = Ok (z, (w', u')) /\
    z_has z SortBool /\ (w_ilas w' = W /\ (w_instrs w' = w_instrs w0 /\ (counter_ w0 <= counter_ w')%N) /\ conf u') /\
    forall m, model_ok m -> z_eval m z = VBool true <->
      (forall i, (i < len)%nat -> step_ok m pos i) /\
      preds_ok m (Z.of_nat len) (Z.of_nat len).
Proof using HW HV Hw0 Hg Hip Hsp.
  intros Hc. destruct (BootStrap_run pos u Hc) as (zs & u1 & E1 & H1 & _).
  destruct (assn_loop pos len 0 _ w0 u1 ltac:(lia) H1) as (w2 & u2 & E2 & H2).
  destruct H2 as (Hw2 & Hwi2 & Hc2 & _ & Hm2 & _).
  destruct (end_state_run len w2 u2 _ Hw2 Hc2 Hm2) as (c & E3 & Hm3).
  destruct (ConjPred_run c _ Hm3) as (z & E4 & Hz & Hzv).
  exists z, w2, (with_cstr u2 c). unfold UnrollAssn. cbv [mbind ST_bind].
  rewrite E1, E2, E3. unfold conj_cstr, self, gets, lift. cbv [mbind ST_bind]. cbn [snd].
  change (cstr_ (with_cstr u2 c)) with c. rewrite E4. cbn. split; [done|]. split; [done|].
  split; [done|]. intros m Hm. rewrite Hzv by done. split.
  - intros [[_ Hs] He]. split; [|done]. intros i Hi. apply Hs. lia.
  - intros [Hs He]. split; [split; [done|]|done]. intros i Hi. apply Hs. lia.
Qed.
End assn.
End spec.

(** ** [PathUnroll] *)

(** One execution of an instruction, between two environments: it is decoded,
    and every state variable takes the value of its update (or keeps its own). *)
Definition instr_step (vs : list Expr) (x : Instr) (ρ ρ' : Env) : Prop :=
  (exists d, decode_ x = Some d /\ holds ρ d) /\
  forall v, v ∈ vs -> eval ρ' v = eval ρ (StateUpdCmpl x v).

Section path.
Context {Z3 : Z3Api} {LZ : Z3Laws Z3} {L : Layout}.
Context (w0 : World) (Hok : IlaOk.world_ok w0) (seq_ : list objid).
Local Abbreviation W := (w_ilas w0).
Local Abbreviation ok_expr := (ok_expr W).
Local Abbreviation ok_pred := (ok_pred W).

Definition host_rec (i : objid) : InstrLvlAbs :=
  match w_instrs w0 !! i ≫= i_host with
  | Some h => absknob.rec_at W h
  | None => IlaOk.nil_ila "" None
  end.
(** The variables: the states of the hosts, in the order of the set. *)
Definition path_vars : list Expr :=
  ExprSet.iter (foldl (fun s i => absknob.InsertStt (host_rec i) s) [] seq_).

Record path_ok : Prop := {
  po_instr i : i ∈ seq_ -> exists x h l d, w_instrs w0 !! i = Some x /\ i_host x = Some h /\
    W !! h = Some l /\ decode_ x = Some d /\ ok_pred d;
  po_ne : path_vars <> [];
  po_vars : Forall ok_expr path_vars;
  po_upd i x v e : i ∈ seq_ -> w_instrs w0 !! i = Some x -> v ∈ path_vars ->
    Instrs.update_state x v = Some e -> ok_expr e /\ Exprs.sort e = Exprs.sort v }.

Definition instr_at (i : nat) : option Instr := j ← seq_ !! i; w_instrs w0 !! j.
Definition P_at (i : nat) : list Expr :=
  match instr_at i ≫= decode_ with Some d => [d] | None => [] end.
Definition N_at (i : nat) : list Expr :=
  match instr_at i with Some x => StateUpdCmpl x <$> path_vars | None => [] end.

Lemma instr_at_Some i : path_ok -> (i < length seq_)%nat ->
  exists j x d, seq_ !! i = Some j /\ w_instrs w0 !! j = Some x /\ instr_at i = Some x /\
    decode_ x = Some d /\ ok_pred d /\ j ∈ seq_.
Proof using Type.
  intros Hp [j Hj]%lookup_lt_is_Some_2. pose proof Hj as Hin%list_elem_of_lookup_2.
  destruct (po_instr Hp j Hin) as (x & h & l & d & Hx & _ & _ & Hd & Hdo).
  exists j, x, d. unfold instr_at. rewrite Hj. cbn. done.
Qed.

Lemma collect_run js s u : (forall i, i ∈ js -> i ∈ seq_) -> path_ok ->
  foldM (fun i s => on_world (absknob.InsertSttInstr i s)) js s (w0, u) =
  Ok (foldl (fun s i => absknob.InsertStt (host_rec i) s) s js, (w0, u)).
Proof using Type.
  intros His Hp. revert s. induction js as [|i js IH]; intros s; [done|].
  destruct (po_instr Hp i) as (x & h & l & d & Hx & Hh & Hl & _); [apply His; by left|].
  cbn [foldM]. cbv [mbind ST_bind].
  assert (E : on_world (absknob.InsertSttInstr i s) (w0, u) =
              Ok (absknob.InsertStt (host_rec i) s, (w0, u))).
  { unfold on_world, absknob.InsertSttInstr, notnull, lift. cbv [mbind ST_bind]. cbn [fst].
    unfold instr_, ila. rewrite Hx. cbn [deref mbind Res_bind]. rewrite Hh. cbn. rewrite Hl.
    cbn. unfold host_rec. rewrite Hx. cbn. rewrite Hh. unfold absknob.rec_at. by rewrite Hl. }
  rewrite E. cbn. apply IH. intros j Hj. apply His. by right.
Qed.

Lemma path_spec : path_ok ->
  TransitionsSpec W (PathUnroll.transitions seq_) w0 (length seq_) path_vars P_at N_at.
Proof using Type.
  intros Hp. split.
  - intros u. cbn [DefineDepVar PathUnroll.transitions]. unfold PathUnroll.DefineDepVar.
    cbv [mbind ST_bind]. by rewrite collect_run.
  - intros i w u Hi Hw Hwi Hv _ _. destruct (instr_at_Some i Hp Hi) as (j & x & d & Hj & Hx & Ha & Hd & _).
    exists w. split; [done|]. split; [done|]. cbn [Transition PathUnroll.transitions].
    unfold PathUnroll.Transition, lift, Exprs.at_, on_world, set_self, modify.
    cbv [mbind ST_bind Res_bind]. rewrite (proj2 (Nat.ltb_lt _ _) Hi), Hj. cbn [ila_check fst snd].
    unfold instr_. rewrite Hwi, Hx. cbn [deref mbind Res_bind fst snd]. rewrite Hd.
    cbn [not_null fst snd vars_ with_tables k_pred_ k_next_].
    rewrite Hv. unfold P_at, N_at. rewrite Ha. cbn. by rewrite Hd.
  - apply (po_ne Hp).
  - apply (po_vars Hp).
  - intros i Hi. destruct (instr_at_Some i Hp Hi) as (j & x & d & _ & _ & Ha & Hd & Hdo & _).
    unfold P_at. rewrite Ha. cbn. rewrite Hd. by constructor.
  - intros i Hi. destruct (instr_at_Some i Hp Hi) as (j & x & d & _ & Hx & Ha & _ & _ & Hin).
    unfold N_at. rewrite Ha. apply Forall2_fmap_r, Forall_Forall2_diag, Forall_forall.
    intros v Hv. cbv [compose]. unfold StateUpdCmpl. destruct (Instrs.update_state x v) as [e|] eqn:E.
    + exact (po_upd Hp j x v e Hin Hx Hv E).
    + split; [|done]. pose proof (po_vars Hp) as Hvs. rewrite Forall_forall in Hvs. by apply Hvs.
Qed.

(** What a path formula must say of the environments [ρ t] of the time-stamps:
    the initial predicates at the start, the global and the step predicates at
    every step, the instructions executed one after the other, and the
    predicates of the end state. *)
Definition path_run (u : Unroller) (pos : Z) (ρ : Z -> Env) : Prop :=
  (seq_ <> [] -> Forall (holds (ρ pos)) (i_pred_ u)) /\
  (forall i x, instr_at i = Some x ->
     let t := pos + Z.of_nat i in
     Forall (holds (ρ t)) (g_pred_ u) /\
     Forall (holds (ρ t)) (step_pred u (Z.of_nat i)) /\
     instr_step path_vars x (ρ t) (ρ (t + 1))) /\
  let len := Z.of_nat (length seq_) in
  Forall (holds (ρ len)) (g_pred_ u) /\ Forall (holds (ρ len)) (step_pred u len).

Definition preds_okU (u : Unroller) : Prop :=
  Forall ok_pred (g_pred_ u) /\ Forall ok_pred (i_pred_ u) /\
  forall k, Forall ok_pred (step_pred u k).

Lemma path_run_iff u pos m : path_ok ->
  ((forall i, (i < length seq_)%nat ->
      step_ok W path_vars P_at N_at (extra_suff_ u) (g_pred_ u) (i_pred_ u) (s_pred_ u) m pos i) /\
   preds_ok W (extra_suff_ u) (g_pred_ u) (s_pred_ u) m
     (Z.of_nat (length seq_)) (Z.of_nat (length seq_))) <->
  path_run u pos (fun t => env_of W m (SuffCurr u t)).
Proof using Type.
  intros Hp. unfold path_run, preds_ok, step_pred. cbn zeta.
  assert (Hstep : forall i x, instr_at i = Some x ->
    step_ok W path_vars P_at N_at (extra_suff_ u) (g_pred_ u) (i_pred_ u) (s_pred_ u) m pos i <->
    (i = 0%nat -> Forall (holds (env_of W m (SuffCurr u pos))) (i_pred_ u)) /\
    (let t := pos + Z.of_nat i in
     Forall (holds (env_of W m (SuffCurr u t))) (g_pred_ u) /\
     Forall (holds (env_of W m (SuffCurr u t))) (step_pred u (Z.of_nat i)) /\
     instr_step path_vars x (env_of W m (SuffCurr u t)) (env_of W m (SuffCurr u (t + 1))))).
  { intros i x Hx. assert (Hi : (i < length seq_)%nat).
    { unfold instr_at in Hx. destruct (seq_ !! i) eqn:E; [|done]. by eapply lookup_lt_Some. }
    destruct (instr_at_Some i Hp Hi) as (j & x' & d & _ & _ & Ha & Hd & _).
    rewrite Hx in Ha. injection Ha as <-. unfold step_ok, init_ok, preds_ok, next_ok, instr_step.
    unfold P_at, N_at, step_pred. rewrite Hx. cbn [mbind option_bind]. rewrite Hd, Forall_singleton.
    rewrite Forall2_fmap_r. change (at_time W (extra_suff_ u) m) with
      (fun t => env_of W m (SuffCurr u t)). cbn beta zeta.
    assert (Hd' : forall ρ, holds ρ d <-> exists d', Some d = Some d' /\ holds ρ d').
    { intros ρ. split; [by exists d|]. by intros (d' & [= <-] & H). }
    rewrite <- Hd', Forall2_same. tauto. }
  assert (Hat : forall i, (i < length seq_)%nat <-> exists x, instr_at i = Some x).
  { intros i. split.
    - intros Hi. destruct (instr_at_Some i Hp Hi) as (j & x & d & _ & _ & Ha & _). eauto.
    - intros [x Hx]. unfold instr_at in Hx. destruct (seq_ !! i) eqn:E; [|done].
      by eapply lookup_lt_Some. }
  split.
  - intros [Hs He]. split; [|split; [|exact He]].
    + intros Hne. destruct seq_ as [|j js] eqn:Eseq; [done|].
      assert (H0 : (0 < length (j :: js))%nat) by (cbn; lia).
      destruct (proj1 (Hat 0%nat)) as [x Hx]; [done|].
      by apply (proj1 (Hstep _ _ Hx) (Hs 0%nat H0)).
    + intros i x Hx. apply (Hstep _ _ Hx), Hs, Hat. eauto.
  - intros (Hi & Hs & He). split; [|exact He]. intros i [x Hx]%Hat. apply (Hstep _ _ Hx).
    split; [|by apply Hs]. intros ->. apply Hi. intros E. unfold instr_at in Hx. by rewrite E in Hx.
Qed.

Lemma PathAssn_run pos u : path_ok -> preds_okU u ->
  exists z w' u', PathUnroll.PathAssn seq_ pos (w0, u) = Ok (z, (w', u')) /\
    z_has z SortBool /\
    (w_ilas w' = W /\ (w_instrs w' = w_instrs w0 /\ (counter_ w0 <= counter_ w')%N) /\
     extra_suff_ u' = extra_suff_ u) /\
    forall m, model_ok m ->
      z_eval m z = VBool true <-> path_run u pos (fun t => env_of W m (SuffCurr u t)).
Proof using Hok LZ.
  intros Hp (Hg & Hi & Hs).
  destruct (UnrollAssn_run W (IlaOk.ok_parent _ Hok) (PathUnroll.transitions seq_) w0
    (length seq_) path_vars P_at N_at (path_spec Hp) eq_refl (extra_suff_ u) (g_pred_ u)
    (i_pred_ u) (s_pred_ u) Hg Hi Hs pos u (conj eq_refl (conj eq_refl (conj eq_refl eq_refl))))
    as (z & w' & u' & E & Hz & (Hw & Hwi & He & _) & Hv).
  exists z, w', u'. split; [exact E|]. split; [done|]. split; [done|]. intros m Hm.
  rewrite Hv by done. by apply path_run_iff.
Qed.
(** C1.  [PathAssn] is correct.  On a path of well-formed instructions it
    returns a formula, and a model satisfies the formula exactly when its
    time-stamped constants spell out an execution of the path from time [pos]:
    each instruction decodes at its time-stamp, the states at the next
    time-stamp are its updates, and all asserted predicates hold. *)
Theorem PathAssn_correct pos u : path_ok -> preds_okU u ->
  exists z w' u', PathUnroll.PathAssn seq_ pos (w0, u) = Ok (z, (w', u')) /\
    z_has z SortBool /\
    forall m, model_ok m ->
      z_eval m z = VBool true <-> path_run u pos (fun t => env_of W m (SuffCurr u t)).
Proof using Hok LZ.
  intros Hp Hu. destruct (PathAssn_run pos u Hp Hu) as (z & w' & u' & E & Hz & _ & H). by exists z, w', u'.
Qed.
End path.

(** ** A concrete machine

    The ILA [top] with one state [x : bv 8] and one instruction [inc] that is
    decoded when [x] is below 100 and adds one. *)
Module Sample.
Definition hdr (id : objid) (name : string) (s : Sort) : Hdr :=
  {| h_id := id; h_name := name; h_host := Some 1%N; h_sort := s |}.
Definition x : Expr := ExprVar (hdr 2 "x" (SortBv 8)) [].
Definition konst (id : objid) (n : Z) : Expr := ExprConst (hdr id "c" (SortBv 8)) (CBv n) [].
Definition dec : Expr := ExprOp (hdr 4 "$4" SortBool) kUnsignedLessThan None [x; konst 3 100] [].
Definition upd : Expr := ExprOp (hdr 6 "$6" (SortBv 8)) kAdd None [x; konst 5 1] [].
Definition is_zero : Expr := ExprOp (hdr 8 "$8" SortBool) kEqual None [x; konst 7 0] [].
Definition inc : Instr :=
  {| i_name := "inc"; i_host := Some 1%N; decode_ := Some dec;
     updates_ := {[ "x" := Some upd ]}; prog_ := None |}.
Definition top : InstrLvlAbs :=
  Ila.with_instrs
    (Ila.with_states (IlaOk.nil_ila "top" None) (KeyVec.push_back KeyVec.empty "x" x).2)
    (KeyVec.push_back KeyVec.empty "inc" 9%N).2.
Definition world : World :=
  {| counter_ := 9; w_ilas := {[ 1%N := top ]}; w_instrs := {[ 9%N := inc ]} |}.

Lemma world_ok : IlaOk.world_ok world.
Proof.
  split; cbn; intros k l; [intros [<- _]%lookup_singleton_Some; lia|].
  intros p [<- <-]%lookup_singleton_Some. done.
Qed.

Lemma ok_exprs : Forall (ok_expr (w_ilas world)) [x; dec; upd; is_zero].
Proof.
  repeat constructor.
  - exists (nodes_of x). vm_compute. done.
  - exists (nodes_of dec). vm_compute. repeat split.
  - exists (nodes_of upd). vm_compute. repeat split.
  - exists (nodes_of is_zero). vm_compute. repeat split.
Qed.

Lemma ok_path n : (0 < n)%nat -> path_ok (L := layout_id) world (replicate n 9%N).
Proof.
  intros Hn. pose proof ok_exprs as [Hx [Hd [Hu _]%Forall_cons]%Forall_cons]%Forall_cons.
  assert (Hv : path_vars (L := layout_id) world (replicate n 9%N) = [x]).
  { unfold path_vars. destruct n as [|n]; [lia|]. clear Hn. cbn [replicate foldl].
    assert (E : forall n s, ExprSet.ids s = [2%N] ->
      foldl (fun s i => absknob.InsertStt (host_rec world i) s) s (replicate n 9%N) = s).
    { clear. induction n as [|n IH]; intros s Hs; [done|]. cbn [replicate foldl].
      replace (absknob.InsertStt (host_rec world 9) s) with s; [by apply IH|].
      change (host_rec world 9) with top. unfold absknob.InsertStt.
      change (KeyVec.vec_ (states_ top)) with [x].
      change (ExprSet.insert_all [x] s) with (ExprSet.insert x s).
      unfold ExprSet.insert. rewrite decide_True; [done|]. rewrite Hs. by left. }
    change (absknob.InsertStt (host_rec world 9) []) with [x]. rewrite E by done. done. }
  split.
  - intros i Hi%elem_of_replicate_inv. subst. exists inc, 1%N, top, dec. done.
  - by rewrite Hv.
  - rewrite Hv. by constructor.
  - intros i y v e Hi%elem_of_replicate_inv. subst. rewrite Hv. intros [= <-].
    intros ->%list_elem_of_singleton. intros [= <-]. done.
Qed.
End Sample.

Lemma PathAssn_correct_witness :
  exists z w' u', PathUnroll.PathAssn (Z3 := Terms.terms) (L := layout_id) [9%N; 9%N] 0
    (Sample.world, New "") = Ok (z, (w', u')).
Proof.
  destruct (PathAssn_correct (Z3 := Terms.terms) (LZ := Terms.terms_laws) (L := layout_id)
    Sample.world Sample.world_ok [9%N; 9%N] 0 (New ""))
    as (z & w' & u' & E & _).
  - exact (Sample.ok_path 2 ltac:(lia)).
  - split; [constructor|]. split; [constructor|]. intros k. unfold step_pred, New; cbn.
    rewrite lookup_empty. constructor.
  - exists z, w', u'. exact E.
Defined.

(** The model in which [x] is 1 at time 6 and 0 at every other time. *)
Definition late_model : Model :=
  {| m_const n s := if String.eqb n "top_sEp_x_sEp_6_" && bool_decide (s = SortBv 8)
                    then VBv 8 1 else default_val s;
     m_fun _ _ s _ := default_val s |}.

Lemma late_model_ok : model_ok late_model.
Proof.
  split; intros; cbn; [|by apply default_val_sort].
  destruct (_ && _) eqn:E; bool_inv; subst; [done|by apply default_val_sort].
Qed.

(** C39.  The predicates of the end state are asserted at the wrong time.  The
    path of one [inc] from time 5 ends at time 6, but the predicates of the end
    are put at time [len], here 1: with the global predicate [x = 0] there is a
    model of the formula in which the predicate fails in the end state. *)
Theorem PathAssn_end_state :
  let L := layout_id in
  let u := AddGlobPred (Z3 := Terms.terms) (New "") Sample.is_zero in
  exists z w' u',
    PathUnroll.PathAssn (Z3 := Terms.terms) [9%N] 5 (Sample.world, u) = Ok (z, (w', u')) /\
    exists m, model_ok m /\ z_eval (Z3 := Terms.terms) (Z3Laws := Terms.terms_laws) m z = VBool true /\
      ~ holds (env_of (w_ilas Sample.world) m (SuffCurr u (5 + 1))) Sample.is_zero.
Proof.
  intros L u. pose proof Sample.ok_exprs as Hx. rewrite !Forall_cons in Hx.
  destruct Hx as (_ & _ & _ & Hz & _).
  destruct (PathAssn_run (Z3 := Terms.terms) (LZ := Terms.terms_laws) (L := layout_id)
    Sample.world Sample.world_ok [9%N] 5 u (Sample.ok_path 1 ltac:(lia)))
    as (z & w' & u' & E & _ & _ & Hv).
  - split; [by apply Forall_singleton|]. split; [constructor|]. intros k.
    unfold step_pred. cbn. rewrite lookup_empty. constructor.
  - exists z, w', u'. split; [exact E|]. exists late_model. split; [apply late_model_ok|].
    split.
    + apply Hv; [apply late_model_ok|]. split; [|split; [|split]].
      * intros _. constructor.
      * intros i x. destruct i; [|by destruct i]. intros [= <-]. split; [|split].
        -- constructor; [|constructor]. vm_compute. done.
        -- constructor.
        -- split; [exists Sample.dec; by vm_compute|]. intros v Hv'.
           change (path_vars _ _) with [Sample.x] in Hv'. apply list_elem_of_singleton in Hv' as ->.
           by vm_compute.
      * constructor; [|constructor]. vm_compute. done.
      * constructor.
    + by vm_compute.
Qed.
