(* ===== verification/UnrollerSmt.v ===== *)
(** * Unrolling over any SMT generator

    [src/ila-mngr/u_unroller_smt.cc] and its header: the templates
    [UnrollerSmt<Generator>] and [PathUnroller<Generator>], and
    [target-smt/smt_shim.h], which forwards to the generator.  The template
    parameter is the class [Generator]; the two generators the code instantiates
    it with are the Z3 adapter and [SmtSwitchItf].  Time-stamps are [size_t]s;
    the model uses the integers they denote. *)
From S2P Require Import Prelude Sort Values Container Expr Smt World Z3Expr SmtSwitch ExprOp AstHub Collect Unroller UnrollerSpec.
Local Open Scope Z_scope.

(** What [SmtShim] forwards: the [GetShim*], [BoolAnd] and [Equal] of a
    generator.  The ILAs are only read. *)
Class Generator := {
  shim_expr : Type;
  shim_func : Type;
  gen_state : Type;
  GetShimExpr : gmap objid InstrLvlAbs -> Expr -> string -> ST gen_state shim_expr;
  GetShimFunc : gmap objid InstrLvlAbs -> Func -> ST gen_state shim_func;
  BoolAnd : shim_expr -> shim_expr -> Res shim_expr;
  ShimEqual : shim_expr -> shim_expr -> Res shim_expr }.

(** [Z3ExprAdapter]: its cache is cleared by every [GetExpr]. *)
#[export] Instance Z3ExprAdapter {Z3 : Z3Api} : Generator := {|
  shim_expr := zexpr;
  shim_func := list zexpr -> Res zexpr;
  gen_state := unit;
  GetShimExpr w e suffix := lift (GetExpr w e suffix);
  GetShimFunc w f := lift (GetZ3FuncDecl w f);
  BoolAnd a b := throw (z_app SAnd [a; b]);
  ShimEqual a b := throw (z_app SEq [a; b]) |}.

(** [SmtSwitchItf]: an exception outside [post] is not caught. *)
#[export] Instance SmtSwitch_generator {SW : SwitchApi} : Generator := {|
  shim_expr := sterm;
  shim_func := sterm;
  gen_state := SmtSwitchItf;
  GetShimExpr := SmtSwitch.GetSmtTerm;
  GetShimFunc w f := fun t =>
    match Func2Term w f t with
    | Ok (Some x, t') => Ok (x, t')
    | Ok (None, _) => Fail EThrow
    | Fail e => Fail e
    end;
  BoolAnd a b := throw (make_term_op SAnd [a; b]);
  ShimEqual a b := throw (make_term_op SEq [a; b]) |}.

(** ** The members *)
Record UnrollerSmt := {
  unroller_suffix_ : string;
  global_pred_ : list Expr;
  initial_pred_ : list Expr;
  step_pred_ : gmap Z (list Expr);
  deciding_vars_ : list Expr;
  update_holder_ : list Expr;
  assert_holder_ : list Expr }.

Definition NewSmt (suffix : string) : UnrollerSmt :=
  {| unroller_suffix_ := suffix; global_pred_ := []; initial_pred_ := []; step_pred_ := ∅;
     deciding_vars_ := []; update_holder_ := []; assert_holder_ := [] |}.

Section setters.
Context (u : UnrollerSmt).
Definition with_sets (g i : list Expr) (s : gmap Z (list Expr)) : UnrollerSmt :=
  {| unroller_suffix_ := unroller_suffix_ u; global_pred_ := g; initial_pred_ := i;
     step_pred_ := s; deciding_vars_ := deciding_vars_ u;
     update_holder_ := update_holder_ u; assert_holder_ := assert_holder_ u |}.
Definition with_holders (d up a : list Expr) : UnrollerSmt :=
  {| unroller_suffix_ := unroller_suffix_ u; global_pred_ := global_pred_ u;
     initial_pred_ := initial_pred_ u; step_pred_ := step_pred_ u;
     deciding_vars_ := d; update_holder_ := up; assert_holder_ := a |}.

Definition AssertGlobal (p : Expr) : UnrollerSmt :=
  with_sets (ExprSet.insert p (global_pred_ u)) (initial_pred_ u) (step_pred_ u).
Definition AssertInitial (p : Expr) : UnrollerSmt :=
  with_sets (global_pred_ u) (ExprSet.insert p (initial_pred_ u)) (step_pred_ u).
Definition step_at (k : Z) : list Expr := default [] (step_pred_ u !! k).
(** The [int] step is the [size_t] key of the map. *)
Definition AssertStep (p : Expr) (k : Z) : UnrollerSmt :=
  let k := k mod 2 ^ 64 in
  with_sets (global_pred_ u) (initial_pred_ u)
    (<[k := ExprSet.insert p (step_at k)]> (step_pred_ u)).
Definition ClearGlobalAssertion : UnrollerSmt := with_sets [] (initial_pred_ u) (step_pred_ u).
Definition ClearInitialAssertion : UnrollerSmt := with_sets (global_pred_ u) [] (step_pred_ u).
Definition ClearStepAssertion : UnrollerSmt := with_sets (global_pred_ u) (initial_pred_ u) ∅.

Definition SuffixCurrent (t : Z) : string := pretty t +:+ "_" +:+ unroller_suffix_ u.
Definition SuffixNext (t : Z) : string :=
  pretty t +:+ "_" +:+ unroller_suffix_ u +:+ ".nxt".
End setters.

Section unroll.
Context {G : Generator} {L : Layout}.

(** ** Computations: on the store, the members and the generator *)
Abbreviation S3 := (World * UnrollerSmt * gen_state)%type.
Abbreviation U := (ST S3).

Definition on_store {A} (m : M A) : U A := fun s =>
  match m s.1.1 with Ok (a, w) => Ok (a, (w, s.1.2, s.2)) | Fail e => Fail e end.
Definition this : U UnrollerSmt := gets (fun s => s.1.2).
Definition set_this (f : UnrollerSmt -> UnrollerSmt) : U unit :=
  modify (fun s => (s.1.1, f s.1.2, s.2)).
Definition on_gen {A} (m : gmap objid InstrLvlAbs -> ST gen_state A) : U A := fun s =>
  match m (w_ilas s.1.1) s.2 with Ok (a, g) => Ok (a, (s.1, g)) | Fail e => Fail e end.

(** [smt_gen_.GetShimExpr]. *)
Definition shim (e : Expr) (suffix : string) : U shim_expr :=
  on_gen (fun w => GetShimExpr w e suffix).
Definition GetSmtCurrent (e : Expr) (k : Z) : U shim_expr := u ← this; shim e (SuffixCurrent u k).
Definition GetSmtNext (e : Expr) (k : Z) : U shim_expr := u ← this; shim e (SuffixNext u k).
Definition GetSmtFuncDecl (f : Func) : U shim_func := on_gen (fun w => GetShimFunc w f).

Fixpoint InterpIlaExprAndAppend (ila_expr_src : list Expr) (suffix : string)
    (smt_expr_dst : list shim_expr) : U (list shim_expr) :=
  match ila_expr_src with
  | [] => mret smt_expr_dst
  | e :: src => z ← shim e suffix; InterpIlaExprAndAppend src suffix (smt_expr_dst ++ [z])
  end.

Fixpoint equal_pairs (ab : list (shim_expr * shim_expr)) (dst : list shim_expr) :
    Res (list shim_expr) :=
  match ab with
  | [] => Ok dst
  | (a, b) :: ab => e ← ShimEqual a b; equal_pairs ab (dst ++ [e])
  end.
Definition ElementWiseEqualAndAppend (a b smt_expr_dst : list shim_expr) :
    Res (list shim_expr) :=
  ila_assert (length a =? length b)%nat;; equal_pairs (zip a b) smt_expr_dst.

Fixpoint and_all (vec : list shim_expr) (conjunct_holder : shim_expr) : Res shim_expr :=
  match vec with
  | [] => Ok conjunct_holder
  | e :: vec => c ← BoolAnd conjunct_holder e; and_all vec c
  end.
(** The constant [true] is a new node, translated with the empty suffix. *)
Definition ConjunctAll (vec : list shim_expr) : U shim_expr :=
  t ← on_store (asthub.BoolConst true);
  conjunct_holder ← shim t "";
  lift (and_all vec conjunct_holder).

(** ** The virtual methods, and [Unroll_] *)
Class SmtTransitions := { SetDecidingVars : U unit; MakeOneTransition : nat -> U unit }.

Section virtual.
Context {V : SmtTransitions}.

Definition smt_body (begin_ : Z) (i : nat) (smt_holder : list shim_expr) :
    U (list shim_expr) :=
  u ← this;
  let suffix := SuffixCurrent u (begin_ + Z.of_nat i) in
  let suffix_next := SuffixCurrent u (begin_ + Z.of_nat i + 1) in
  MakeOneTransition i;;
  u ← this;
  h ← InterpIlaExprAndAppend (ExprSet.iter (global_pred_ u)) suffix smt_holder;
  h ← InterpIlaExprAndAppend (ExprSet.iter (step_at u (Z.of_nat i))) suffix h;
  h ← InterpIlaExprAndAppend (assert_holder_ u) suffix h;
  h ← (if (i =? 0)%nat then InterpIlaExprAndAppend (ExprSet.iter (initial_pred_ u)) suffix h
       else mret h);
  smt_next_val ← InterpIlaExprAndAppend (update_holder_ u) suffix [];
  smt_next_var ← InterpIlaExprAndAppend (deciding_vars_ u) suffix_next [];
  lift (ElementWiseEqualAndAppend smt_next_val smt_next_var h).

Fixpoint smt_loop (begin_ : Z) (i n : nat) (smt_holder : list shim_expr) :
    U (list shim_expr) :=
  match n with
  | O => mret smt_holder
  | S n => h ← smt_body begin_ i smt_holder; smt_loop begin_ (S i) n h
  end.

(** The end state is put at the time-stamp [len], not [begin + len]. *)
Definition smt_end (len : nat) (smt_holder : list shim_expr) : U (list shim_expr) :=
  u ← this;
  let suffix := SuffixCurrent u (Z.of_nat len) in
  h ← InterpIlaExprAndAppend (ExprSet.iter (global_pred_ u)) suffix smt_holder;
  InterpIlaExprAndAppend (ExprSet.iter (step_at u (Z.of_nat len))) suffix h.

Definition Unroll_ (len : nat) (begin_ : Z) : U shim_expr :=
  set_this (fun u => with_holders u [] [] []);;
  SetDecidingVars;;
  u ← this;
  lift (ila_assert (negb (bool_decide (deciding_vars_ u = []))));;
  h ← smt_loop begin_ 0 len [];
  h ← smt_end len h;
  ConjunctAll h.

(** Not implemented: a fatal check. *)
Definition UnrollWithStepsUnconnected_ (len : nat) (begin_ : Z) : U shim_expr :=
  lift (ila_check false);; lift (Fail ENull).
End virtual.

(** ** [class PathUnroller]: [seq_] is a member; [Unroll] sets it first. *)
Section path.
Context (seq_ : list objid).

Definition PathSetDecidingVars : U unit :=
  unique_vars ← foldM (fun i s => on_store (absknob.InsertSttInstr i s)) seq_ [];
  set_this (fun u => with_holders u (ExprSet.iter unique_vars) (update_holder_ u)
                       (assert_holder_ u)).

Definition CompleteStateUpdate (instr : Instr) (s : Expr) : Expr :=
  match Instrs.update_state instr s with Some update => update | None => s end.

Definition PathMakeOneTransition (idx : nat) : U unit :=
  lift (ila_assert (idx <? length seq_)%nat);;
  i ← lift (Exprs.at_ seq_ idx);
  instr ← on_store (instr_ i);
  set_this (fun u => with_holders u (deciding_vars_ u)
                       (CompleteStateUpdate instr <$> deciding_vars_ u) (assert_holder_ u));;
  decode ← lift (not_null (decode_ instr));
  set_this (fun u => with_holders u (deciding_vars_ u) (update_holder_ u) [decode]).

Definition path_transitions : SmtTransitions :=
  {| SetDecidingVars := PathSetDecidingVars; MakeOneTransition := PathMakeOneTransition |}.

Definition Unroll (begin_ : Z) : U shim_expr :=
  Unroll_ (V := path_transitions) (length seq_) begin_.
Definition UnrollWithStepsUnconnected (begin_ : Z) : U shim_expr :=
  UnrollWithStepsUnconnected_ (length seq_) begin_.
End path.
End unroll.

(** ** What the unroller needs of a generator

    A term asked for under a suffix denotes the expression in the environment of
    that suffix, however often and under whichever suffixes it was asked for
    before. *)
Class GeneratorSpec (G : Generator) (W : gmap objid InstrLvlAbs) := {
  g_has : shim_expr -> Sort -> Prop;
  g_eval : Model -> shim_expr -> val;
  g_env : Model -> string -> Env;
  g_eval_sort m x s : model_ok m -> g_has x s -> has_sort (g_eval m x) s = true;
  g_expr e suffix s : ok_expr W e -> exists x s', GetShimExpr W e suffix s = Ok (x, s') /\
    g_has x (Exprs.sort e) /\
    forall m, model_ok m -> Some (g_eval m x) = eval (g_env m suffix) e;
  g_and a b : g_has a SortBool -> g_has b SortBool ->
    exists x, BoolAnd a b = Ok x /\ g_has x SortBool /\ forall m, model_ok m ->
      g_eval m x = VBool true <-> g_eval m a = VBool true /\ g_eval m b = VBool true;
  g_equal a b s : g_has a s -> g_has b s ->
    exists x, ShimEqual a b = Ok x /\ g_has x SortBool /\ forall m, model_ok m ->
      g_eval m x = VBool true <-> g_eval m a = g_eval m b }.

(** The Z3 adapter is such a generator. *)
#[export] Instance Z3_spec {Z3 : Z3Api} {LZ : Z3Laws Z3} W (HW : IlaOk.ilas_ok W) :
  GeneratorSpec Z3ExprAdapter W.
Proof.
  refine {| g_has := (z_has : @shim_expr Z3ExprAdapter -> Sort -> Prop);
            g_eval := (z_eval : Model -> @shim_expr Z3ExprAdapter -> val);
            g_env m suffix := env_of W m suffix |}.
  - apply z_eval_sort.
  - intros e suffix s ([T HT] & Hwt & Ht).
    destruct (GetExpr_denotes W HW T suffix e HT Hwt Ht) as (z & E & Hz). exists z, s.
    cbn. unfold lift. by rewrite E.
  - intros a b Ha Hb. destruct (z_app_law SAnd [a; b] [SortBool; SortBool] SortBool)
      as (z & E & Hz & Hv); [by repeat constructor|done|]. exists z.
    split; [exact (f_equal throw E)|]. split; [done|]. intros m Hm. specialize (Hv m Hm).
    pose proof (z_eval_sort m a SortBool Hm Ha) as [x Hx]%has_sort_bool.
    pose proof (z_eval_sort m b SortBool Hm Hb) as [y Hy]%has_sort_bool.
    cbn in Hv. rewrite Hx, Hy in *. cbn in Hv. injection Hv as ->. destruct x, y; naive_solver.
  - intros a b s Ha Hb. destruct (z_app_law SEq [a; b] [s; s] SortBool)
      as (z & E & Hz & Hv); [by repeat constructor|cbn; by rewrite decide_True|].
    exists z. split; [exact (f_equal throw E)|]. split; [done|]. intros m Hm.
    specialize (Hv m Hm). cbn in Hv. injection Hv as ->.
    split; [by intros [= ?%bool_decide_eq_true]|]. intros ->. by rewrite bool_decide_true.
Defined.

Section correct.
Context {G : Generator} {L : Layout} (w0 : World).
Local Abbreviation W := (w_ilas w0).
Context {GS : GeneratorSpec G W}.
Local Abbreviation ok_expr := (ok_expr W).
Local Abbreviation ok_pred := (ok_pred W).

Definition gdenotes (suffix : string) (e : Expr) (x : shim_expr) : Prop :=
  g_has x (Exprs.sort e) /\
  forall m, model_ok m -> Some (g_eval m x) = eval (g_env m suffix) e.

(** A vector of Boolean terms and the condition it stands for. *)
Definition gmeans (xs : list shim_expr) (Φ : Model -> Prop) : Prop :=
  Forall (fun x => g_has x SortBool) xs /\
  forall m, model_ok m -> Forall (fun x => g_eval m x = VBool true) xs <-> Φ m.

Lemma gmeans_app xs ys Φ Ψ : gmeans xs Φ -> gmeans ys Ψ ->
  gmeans (xs ++ ys) (fun m => Φ m /\ Ψ m).
Proof using Type.
  intros [H1 H2] [H1' H2']. split; [by apply Forall_app|]. intros m Hm.
  by rewrite Forall_app, H2, H2'.
Qed.
Lemma gmeans_iff xs Φ Ψ : (forall m, model_ok m -> Φ m <-> Ψ m) -> gmeans xs Φ -> gmeans xs Ψ.
Proof using Type. intros H [H1 H2]. split; [done|]. intros m Hm. by rewrite H2, H. Qed.

Lemma interp_run es suffix dst u s : Forall ok_expr es ->
  exists xs s', InterpIlaExprAndAppend es suffix dst (w0, u, s) = Ok (dst ++ xs, (w0, u, s')) /\
    Forall2 (gdenotes suffix) es xs.
Proof using GS.
  intros Hes. revert dst s. induction Hes as [|e es He _ IH]; intros dst s.
  - exists [], s. rewrite app_nil_r. by split.
  - destruct (g_expr e suffix s He) as (x & s1 & E1 & Hx).
    destruct (IH (dst ++ [x]) s1) as (xs & s2 & E2 & Hxs). exists (x :: xs), s2.
    cbn [InterpIlaExprAndAppend]. rewrite (ST_bind_run _ _ _ x (w0, u, s1)).
    2: { unfold shim, on_gen. cbn. by rewrite E1. }
    rewrite E2, <- app_assoc. split; [done|]. by constructor.
Qed.

(** Predicates, appended to what is asserted already. *)
Lemma interp_preds es suffix dst u s Φ : Forall ok_pred es -> gmeans dst Φ ->
  exists xs s', InterpIlaExprAndAppend es suffix dst (w0, u, s) = Ok (xs, (w0, u, s')) /\
    gmeans xs (fun m => Φ m /\ Forall (holds (g_env m suffix)) es).
Proof using GS.
  intros Hes Hd. destruct (interp_run es suffix dst u s) as (xs & s' & E & Hxs).
  { eapply Forall_impl; [done|]. intros e [H _]. exact H. }
  exists (dst ++ xs), s'. split; [done|]. apply gmeans_app; [done|]. split.
  - clear E. induction Hxs as [|e x es xs [Hh _] _ IH]; [constructor|].
    apply Forall_cons in Hes as [[_ Hs] Hes]. constructor; [by rewrite <- Hs|auto].
  - intros m Hm. clear Hes E. induction Hxs as [|e x es xs [_ Hv] _ IH]; [by rewrite !Forall_nil|].
    rewrite !Forall_cons, IH. unfold holds. rewrite <- Hv by done.
    assert (Some (g_eval m x) = Some (VBool true) <-> g_eval m x = VBool true) by (split; congruence).
    tauto.
Qed.

Lemma equal_pairs_run xs ys ss dst Φ :
  Forall2 g_has xs ss -> Forall2 g_has ys ss -> gmeans dst Φ ->
  exists zs, equal_pairs (zip xs ys) dst = Ok zs /\
    gmeans zs (fun m => Φ m /\ Forall2 (fun x y => g_eval m x = g_eval m y) xs ys).
Proof using Type.
  intros Hx. revert ys dst Φ. induction Hx as [|x s xs ss Hx _ IH]; intros ys dst Φ Hy Hd.
  - apply Forall2_nil_inv_r in Hy as ->. exists dst. split; [done|].
    eapply gmeans_iff; [|done]. intros m _. split; [split; [done|constructor]|tauto].
  - apply Forall2_cons_inv_r in Hy as (y & ys' & Hy & Hys & ->).
    destruct (g_equal x y s Hx Hy) as (z & E & Hz & Hv).
    destruct (IH ys' (dst ++ [z]) (fun m => Φ m /\ g_eval m x = g_eval m y) Hys)
      as (zs & E' & Hzs).
    { apply gmeans_app; [done|]. split; [by constructor|]. intros m Hm.
      rewrite Forall_singleton. by apply Hv. }
    exists zs. cbn. rewrite E. split; [exact E'|]. eapply gmeans_iff; [|exact Hzs].
    intros m _. cbn beta. rewrite Forall2_cons. tauto.
Qed.

Lemma and_all_run xs c Φ Ψ : gmeans xs Φ -> gmeans [c] Ψ ->
  exists z, and_all xs c = Ok z /\ gmeans [z] (fun m => Ψ m /\ Φ m).
Proof using Type.
  revert c Φ Ψ. induction xs as [|x xs IH]; intros c Φ Ψ [Hs Hv] [Hc Hcv].
  - exists c. split; [done|]. split; [done|]. intros m Hm. rewrite Hcv, <- Hv, Forall_nil by done. tauto.
  - apply Forall_cons in Hs as [Hx Hs]. apply Forall_inv in Hc.
    destruct (g_and c x Hc Hx) as (y & E & Hy & Hyv).
    destruct (IH y (fun m => Forall (fun z => g_eval m z = VBool true) xs)
      (fun m => Ψ m /\ g_eval m x = VBool true)) as (z & E' & Hz).
    { by split. }
    { split; [by constructor|]. intros m Hm.
      by rewrite Forall_singleton, Hyv, <- Hcv, Forall_singleton by done. }
    exists z. cbn. rewrite E. split; [exact E'|]. eapply gmeans_iff; [|exact Hz].
    intros m Hm. cbn beta. rewrite <- Hv, Forall_cons by done. tauto.
Qed.

(** ** The run along a path *)
Section run.
Context (seq_ : list objid).
Local Abbreviation vs := (path_vars w0 seq_).
Hypothesis Hp : path_ok w0 seq_.

(** The predicates of an unroller, as those of the [Unroller] of [Unroller]. *)
Definition preds_of `{Z3Api} (u : UnrollerSmt) : Unroller :=
  with_preds (Unroller.New (unroller_suffix_ u)) (ExprSet.iter (global_pred_ u))
    (ExprSet.iter (initial_pred_ u)) (ExprSet.iter <$> step_pred_ u).

Definition smt_preds_ok (u : UnrollerSmt) : Prop :=
  Forall ok_pred (ExprSet.iter (global_pred_ u)) /\
  Forall ok_pred (ExprSet.iter (initial_pred_ u)) /\
  forall k, Forall ok_pred (ExprSet.iter (step_at u k)).

Definition at_suffix (u : UnrollerSmt) (m : Model) (t : Z) : Env := g_env m (SuffixCurrent u t).

(** What a path formula must say: [path_run], for this class. *)
Definition smt_path_run (u : UnrollerSmt) (begin_ : Z) (ρ : Z -> Env) : Prop :=
  (seq_ <> [] -> Forall (holds (ρ begin_)) (ExprSet.iter (initial_pred_ u))) /\
  (forall i x, instr_at w0 seq_ i = Some x ->
     let t := begin_ + Z.of_nat i in
     Forall (holds (ρ t)) (ExprSet.iter (global_pred_ u)) /\
     Forall (holds (ρ t)) (ExprSet.iter (step_at u (Z.of_nat i))) /\
     instr_step vs x (ρ t) (ρ (t + 1))) /\
  let len := Z.of_nat (length seq_) in
  Forall (holds (ρ len)) (ExprSet.iter (global_pred_ u)) /\
  Forall (holds (ρ len)) (ExprSet.iter (step_at u len)).

(** The conditions of one step. *)
Definition smt_step_ok (u : UnrollerSmt) (m : Model) (begin_ : Z) (i : nat) : Prop :=
  let ρ := at_suffix u m in
  let t := begin_ + Z.of_nat i in
  Forall (holds (ρ t)) (ExprSet.iter (global_pred_ u)) /\
  Forall (holds (ρ t)) (ExprSet.iter (step_at u (Z.of_nat i))) /\
  (i = 0%nat -> Forall (holds (ρ begin_)) (ExprSet.iter (initial_pred_ u))) /\
  forall x, instr_at w0 seq_ i = Some x -> instr_step vs x (ρ t) (ρ (t + 1)).

Lemma next_val_ok x : (exists i, i ∈ seq_ /\ w_instrs w0 !! i = Some x) ->
  Forall ok_expr (CompleteStateUpdate x <$> vs) /\
  Exprs.sort <$> (CompleteStateUpdate x <$> vs) = Exprs.sort <$> vs.
Proof using Hp.
  intros (j & Hj & Hx). pose proof (po_vars _ _ Hp) as Hvs.
  assert (H : forall v, v ∈ vs -> ok_expr (CompleteStateUpdate x v) /\
    Exprs.sort (CompleteStateUpdate x v) = Exprs.sort v).
  { intros v Hv. unfold CompleteStateUpdate. destruct (Instrs.update_state x v) as [e|] eqn:E.
    - exact (po_upd _ _ Hp j x v e Hj Hx Hv E).
    - rewrite Forall_forall in Hvs. auto. }
  split.
  - apply Forall_fmap, Forall_forall. intros v Hv. apply (H v Hv).
  - rewrite <- list_fmap_compose. apply Forall_fmap_ext_1, Forall_forall. intros v Hv. apply (H v Hv).
Qed.

Lemma gdenotes_sorts suffix es xs : Forall2 (gdenotes suffix) es xs ->
  Forall2 g_has xs (Exprs.sort <$> es).
Proof using Type. induction 1 as [|e x es xs [H _] _ IH]; constructor; auto. Qed.

(** Equal terms, element by element, are equal values. *)
Lemma next_equal m suf suf' x xs ys : model_ok m ->
  Forall2 (gdenotes suf) (CompleteStateUpdate x <$> vs) xs ->
  Forall2 (gdenotes suf') vs ys ->
  Forall2 (fun a b => g_eval m a = g_eval m b) xs ys <->
  forall v, v ∈ vs -> eval (g_env m suf') v = eval (g_env m suf) (StateUpdCmpl x v).
Proof using Type.
  intros Hm. generalize vs. intros l Hx. revert ys. remember (CompleteStateUpdate x <$> l) as us.
  revert l Hequs. induction Hx as [|e a es xs [_ Ha] _ IH]; intros l Hus ys Hy.
  - destruct l; [|done]. inversion Hy; subst. split; [by intros _ v ?%not_elem_of_nil|constructor].
  - destruct l as [|v l]; [done|]. injection Hus as -> ->.
    inversion Hy as [|? b ? ys' [_ Hb] Hys]; subst. rewrite Forall2_cons, (IH l eq_refl _ Hys).
    setoid_rewrite elem_of_cons. specialize (Ha m Hm). specialize (Hb m Hm).
    assert (g_eval m a = g_eval m b <-> eval (g_env m suf') v = eval (g_env m suf) (StateUpdCmpl x v)).
    { rewrite <- Hb. change (StateUpdCmpl x v) with (CompleteStateUpdate x v). rewrite <- Ha.
      split; [by intros ->|congruence]. }
    naive_solver.
Qed.

Lemma smt_step begin_ i u s dst Φ : (i < length seq_)%nat -> smt_preds_ok u ->
  deciding_vars_ u = vs -> gmeans dst Φ ->
  exists xs u' s', smt_body (V := path_transitions seq_) begin_ i dst (w0, u, s) =
      Ok (xs, (w0, u', s')) /\
    u' = with_holders u vs (update_holder_ u') (assert_holder_ u') /\
    gmeans xs (fun m => Φ m /\ smt_step_ok u m begin_ i).
Proof using GS Hp.
  intros Hi (Hg & Hin & Hst) Hv Hd.
  destruct (instr_at_Some w0 seq_ i Hp Hi) as (j & x & d & Hj & Hx & Hat & Hdec & Hdo & Hmem).
  set (u1 := with_holders u vs (CompleteStateUpdate x <$> vs) [d]).
  assert (Etr : PathMakeOneTransition seq_ i (w0, u, s) = Ok ((), (w0, u1, s))).
  { unfold PathMakeOneTransition, lift, Exprs.at_, on_store, set_this, modify.
    cbv [mbind ST_bind Res_bind]. rewrite (proj2 (Nat.ltb_lt _ _) Hi), Hj. cbn [ila_assert fst snd].
    unfold instr_. rewrite Hx. cbn [deref mbind Res_bind fst snd]. rewrite Hdec.
    cbn [not_null fst snd deciding_vars_ with_holders update_holder_]. by rewrite Hv. }
  set (t := begin_ + Z.of_nat i). set (suf := SuffixCurrent u t).
  destruct (interp_preds (ExprSet.iter (global_pred_ u)) suf dst u1 s Φ Hg Hd) as (x1 & s1 & E1 & H1).
  destruct (interp_preds (ExprSet.iter (step_at u (Z.of_nat i))) suf x1 u1 s1 _ (Hst _) H1)
    as (x2 & s2 & E2 & H2).
  destruct (interp_preds [d] suf x2 u1 s2 _ ltac:(by constructor) H2) as (x3 & s3 & E3 & H3).
  assert (Hinit : exists x4 s4, (if (i =? 0)%nat then
      InterpIlaExprAndAppend (ExprSet.iter (initial_pred_ u)) suf x3 else mret x3) (w0, u1, s3) =
      Ok (x4, (w0, u1, s4)) /\ gmeans x4 (fun m => (((Φ m /\
        Forall (holds (g_env m suf)) (ExprSet.iter (global_pred_ u))) /\
        Forall (holds (g_env m suf)) (ExprSet.iter (step_at u (Z.of_nat i)))) /\
        Forall (holds (g_env m suf)) [d]) /\
        (i = 0%nat -> Forall (holds (g_env m suf)) (ExprSet.iter (initial_pred_ u))))).
  { destruct (Nat.eqb_spec i 0) as [->|Hne].
    - destruct (interp_preds _ suf x3 u1 s3 _ Hin H3) as (x4 & s4 & E4 & H4).
      exists x4, s4. split; [done|]. eapply gmeans_iff; [|exact H4]. naive_solver.
    - exists x3, s3. split; [done|]. eapply gmeans_iff; [|exact H3]. naive_solver. }
  destruct Hinit as (x4 & s4 & E4 & H4).
  destruct (next_val_ok x (ex_intro _ j (conj Hmem Hx))) as [Hno Hns].
  destruct (interp_run (CompleteStateUpdate x <$> vs) suf [] u1 s4 Hno) as (nv & s5 & E5 & Hnv).
  destruct (interp_run vs (SuffixCurrent u (t + 1)) [] u1 s5 (po_vars _ _ Hp)) as (nx & s6 & E6 & Hnx).
  pose proof (gdenotes_sorts _ _ _ Hnv) as Hnv'. rewrite Hns in Hnv'.
  destruct (equal_pairs_run nv nx (Exprs.sort <$> vs) x4 _ Hnv' (gdenotes_sorts _ _ _ Hnx) H4)
    as (x5 & E7 & H5).
  exists x5, u1, s6. split; [|split; [done|]].
  - unfold smt_body. rewrite (ST_bind_run this _ (w0, u, s) u (w0, u, s) eq_refl). fold t suf.
    rewrite (ST_bind_run _ _ _ _ _ Etr), (ST_bind_run this _ (w0, u1, s) u1 (w0, u1, s) eq_refl).
    rewrite (ST_bind_run _ _ _ _ _ E1), (ST_bind_run _ _ _ _ _ E2), (ST_bind_run _ _ _ _ _ E3).
    rewrite (ST_bind_run _ _ _ _ _ E4), (ST_bind_run _ _ _ _ _ E5), (ST_bind_run _ _ _ _ _ E6).
    unfold lift, ElementWiseEqualAndAppend. cbn [app].
    replace (length nv =? length nx)%nat with true.
    { cbn [ila_assert mbind Res_bind]. by rewrite E7. }
    symmetry. apply Nat.eqb_eq. apply Forall2_length in Hnv, Hnx. rewrite length_fmap in Hnv. congruence.
  - eapply gmeans_iff; [|exact H5]. intros m Hm. cbn beta.
    rewrite (next_equal m _ _ x nv nx Hm Hnv Hnx), Forall_singleton.
    unfold smt_step_ok, at_suffix. fold t. fold suf. rewrite Hat. unfold instr_step.
    assert (Hi0 : i = 0%nat -> SuffixCurrent u begin_ = suf).
    { intros ->. unfold suf, t. f_equal. lia. }
    split.
    + intros [[[[[? ?] ?] ?] Hi'] ?]. split; [done|]. split; [done|]. split; [done|].
      split; [intros Hz; rewrite (Hi0 Hz); auto|]. intros x' [= <-]. eauto 10.
    + intros (? & ? & ? & Hi' & Hs'). destruct (Hs' x eq_refl) as [(d' & Hd' & ?) ?].
      rewrite Hdec in Hd'. injection Hd' as <-.
      repeat split; try done. intros Hz. rewrite <- (Hi0 Hz). auto.
Qed.

Lemma smt_loop_run begin_ n : forall i up a s dst Φ u0,
  (i + n <= length seq_)%nat -> smt_preds_ok u0 -> gmeans dst Φ ->
  exists xs up' a' s', smt_loop (V := path_transitions seq_) begin_ i n dst
      (w0, with_holders u0 vs up a, s) = Ok (xs, (w0, with_holders u0 vs up' a', s')) /\
    gmeans xs (fun m => Φ m /\ forall j, (i <= j < i + n)%nat -> smt_step_ok u0 m begin_ j).
Proof using GS Hp.
  induction n as [|n IH]; intros i up a s dst Φ u0 Hn Hu Hd.
  - exists dst, up, a, s. split; [done|]. eapply gmeans_iff; [|exact Hd]. intros m _.
    split; [|tauto]. split; [done|]. intros; lia.
  - destruct (smt_step begin_ i (with_holders u0 vs up a) s dst Φ) as (x1 & u1 & s1 & E1 & Hu1 & H1);
      [lia|done|done|done|].
    destruct (IH (S i) (update_holder_ u1) (assert_holder_ u1) s1 x1 _ u0 ltac:(lia) Hu H1)
      as (x2 & up' & a' & s2 & E2 & H2).
    exists x2, up', a', s2. cbn [smt_loop]. rewrite (ST_bind_run _ _ _ _ _ E1), Hu1.
    split; [exact E2|]. eapply gmeans_iff; [|exact H2]. intros m _. cbn beta. split.
    + intros [[HΦ Hs] Hr]. split; [done|]. intros j Hj.
      destruct (decide (j = i)) as [->|]; [exact Hs|]. apply Hr. lia.
    + intros [HΦ Hr]. split; [split; [done|]|]; intros; apply Hr; lia.
Qed.

Lemma smt_path_run_iff u begin_ m :
  ((forall j, (0 <= j < 0 + length seq_)%nat -> smt_step_ok u m begin_ j) /\
   let ρ := at_suffix u m (Z.of_nat (length seq_)) in
   Forall (holds ρ) (ExprSet.iter (global_pred_ u)) /\
   Forall (holds ρ) (ExprSet.iter (step_at u (Z.of_nat (length seq_))))) <->
  smt_path_run u begin_ (at_suffix u m).
Proof using Hp.
  unfold smt_path_run, smt_step_ok. cbn zeta. split.
  - intros [Hs He]. split; [|split; [|exact He]].
    + intros Hne. destruct (Hs 0%nat) as (_ & _ & H & _); [|by apply H].
      destruct seq_; [done|cbn; lia].
    + intros i x Hx. assert (Hi : (i < length seq_)%nat).
      { unfold instr_at in Hx. destruct (seq_ !! i) eqn:E; [|done]. by eapply lookup_lt_Some. }
      destruct (Hs i) as (? & ? & _ & H); [lia|]. split; [done|]. split; [done|]. by apply H.
  - intros (Hi & Hs & He). split; [|exact He]. intros j [_ Hj].
    destruct (instr_at_Some w0 seq_ j Hp Hj) as (k & x & d & _ & _ & Hx & _).
    destruct (Hs j x Hx) as (? & ? & ?). split; [done|]. split; [done|]. split.
    + intros ->. apply Hi. intros ->. cbn in Hj. lia.
    + intros x' Hx'. by simplify_eq.
Qed.

Lemma conjunct_run xs u s Φ : gmeans xs Φ ->
  exists z w' s', ConjunctAll xs (w0, u, s) = Ok (z, (w', u, s')) /\ g_has z SortBool /\
    forall m, model_ok m -> g_eval m z = VBool true <-> Φ m.
Proof using GS.
  intros Hx. unfold ConjunctAll.
  destruct (asthub.BoolConst true w0) as [[t w1]|] eqn:Et; [|done].
  assert (Hok : ok_expr t /\ Exprs.sort t = SortBool /\ (forall ρ, eval ρ t = Some (VBool true)) /\
    w_ilas w1 = W).
  { cbn in Et. injection Et as <- <-. split; [|done]. split; [|done].
    eexists {[ _ := _ ]}. cbn. split; [apply lookup_singleton_eq|done]. }
  destruct Hok as (Hok & Hs & Hv & Hw1).
  destruct (g_expr t "" s Hok) as (c & s1 & Ec & Hc & Hcv).
  destruct (and_all_run xs c Φ (fun _ => True) Hx) as (z & Ez & Hz & Hzv).
  { split; [constructor; [by rewrite <- Hs|constructor]|]. intros m Hm.
    rewrite Forall_singleton. specialize (Hcv m Hm). rewrite Hv in Hcv. injection Hcv as ->. done. }
  exists z, w1, s1. rewrite (ST_bind_run _ _ _ t (w1, u, s)).
  2: { unfold on_store. cbn [fst snd]. by rewrite Et. }
  rewrite (ST_bind_run _ _ _ c (w1, u, s1)).
  2: { unfold shim, on_gen. cbn [fst snd]. by rewrite Hw1, Ec. }
  unfold lift. rewrite Ez. split; [done|]. split; [by apply Forall_inv in Hz|].
  intros m Hm. specialize (Hzv m Hm). rewrite Forall_singleton in Hzv. rewrite Hzv. tauto.
Qed.

Lemma vars_run u s : PathSetDecidingVars seq_ (w0, u, s) =
  Ok ((), (w0, with_holders u vs (update_holder_ u) (assert_holder_ u), s)).
Proof using Hp.
  unfold PathSetDecidingVars.
  assert (E : forall js acc, (forall i, i ∈ js -> i ∈ seq_) ->
    foldM (fun i s => on_store (absknob.InsertSttInstr i s)) js acc (w0, u, s) =
    Ok (foldl (fun s i => absknob.InsertStt (host_rec w0 i) s) acc js, (w0, u, s))).
  { induction js as [|j js IH]; intros acc Hjs; [done|].
    destruct (po_instr _ _ Hp j) as (x & h & l & d & Hx & Hh & Hl & _); [apply Hjs; by left|].
    cbn [foldM]. rewrite (ST_bind_run _ _ _ (absknob.InsertStt (host_rec w0 j) acc) (w0, u, s)).
    - apply IH. intros i Hi. apply Hjs. by right.
    - unfold on_store, absknob.InsertSttInstr, notnull, lift. cbv [mbind ST_bind]. cbn [fst snd].
      unfold instr_, ila. rewrite Hx. cbn [deref mbind Res_bind]. rewrite Hh. cbn. rewrite Hl.
      cbn. unfold host_rec. rewrite Hx. cbn. rewrite Hh. unfold absknob.rec_at. by rewrite Hl. }
  by rewrite (ST_bind_run _ _ _ _ _ (E seq_ [] ltac:(done))).
Qed.

Lemma Unroll_run begin_ u s : smt_preds_ok u ->
  exists z w' u' s', Unroll seq_ begin_ (w0, u, s) = Ok (z, (w', u', s')) /\
    g_has z SortBool /\
    forall m, model_ok m ->
      g_eval m z = VBool true <-> smt_path_run u begin_ (at_suffix u m).
Proof using GS Hp.
  intros Hu. pose proof Hu as (Hg & _ & Hst).
  destruct (smt_loop_run begin_ (length seq_) 0 [] [] s [] (fun _ => True) u ltac:(lia) Hu)
    as (x1 & up & a & s1 & E1 & H1).
  { split; [constructor|]. intros m _. by rewrite Forall_nil. }
  set (u1 := with_holders u vs up a) in *.
  set (suf := SuffixCurrent u (Z.of_nat (length seq_))).
  destruct (interp_preds (ExprSet.iter (global_pred_ u)) suf x1 u1 s1 _ Hg H1) as (x2 & s2 & E2 & H2).
  destruct (interp_preds (ExprSet.iter (step_at u (Z.of_nat (length seq_)))) suf x2 u1 s2 _ (Hst _) H2)
    as (x3 & s3 & E3 & H3).
  destruct (conjunct_run x3 u1 s3 _ H3) as (z & w' & s4 & E4 & Hz & Hzv).
  assert (E5 : smt_end (length seq_) x1 (w0, u1, s1) = Ok (x3, (w0, u1, s3))).
  { unfold smt_end. rewrite (ST_bind_run this _ (w0, u1, s1) u1 (w0, u1, s1) eq_refl).
    by rewrite (ST_bind_run _ _ _ _ _ E2). }
  exists z, w', u1, s4. split; [|split; [done|]].
  - unfold Unroll, Unroll_. 
    rewrite (ST_bind_run (set_this (fun u => with_holders u [] [] [])) _ (w0, u, s) ()
      (w0, with_holders u [] [] [], s) eq_refl).
    cbn [SetDecidingVars path_transitions]. rewrite (ST_bind_run _ _ _ _ _ (vars_run _ _)).
    change (with_holders (with_holders u [] [] []) vs _ _) with (with_holders u vs [] []).
    rewrite (ST_bind_run this _ (w0, with_holders u vs [] [], s) (with_holders u vs [] [])
      (w0, with_holders u vs [] [], s) eq_refl). cbn [deciding_vars_ with_holders].
    rewrite bool_decide_false by apply (po_ne _ _ Hp).
    rewrite (lift_bind_run (ila_assert (negb false)) _ _ () eq_refl).
    by rewrite (ST_bind_run _ _ _ _ _ E1), (ST_bind_run _ _ _ _ _ E5).
  - intros m Hm. rewrite Hzv, <- smt_path_run_iff by done. cbn zeta. unfold at_suffix. fold suf. tauto.
Qed.
End run.
End correct.

(** C8.  [PathUnroller] is correct for every generator that translates each
    expression afresh under the suffix it is asked for ([GeneratorSpec]).  On a
    path of well-formed instructions it returns a formula, and a model satisfies
    the formula exactly when the environments of the time-stamps are an execution
    of the path from [begin_]: the predicates hold, every instruction decodes at
    its time-stamp, and the states of the next one are its updates. *)
Theorem PathUnroller_correct {G : Generator} {L : Layout} (w0 : World)
    {GS : GeneratorSpec G (w_ilas w0)} seq_ begin_ u s :
  path_ok w0 seq_ -> smt_preds_ok w0 u ->
  exists z w' u' s', Unroll seq_ begin_ (w0, u, s) = Ok (z, (w', u', s')) /\
    g_has z SortBool /\
    forall m, model_ok m -> g_eval m z = VBool true <->
      smt_path_run w0 seq_ u begin_ (fun t => g_env m (SuffixCurrent u t)).
Proof. intros Hp Hu. exact (Unroll_run w0 seq_ Hp begin_ u s Hu). Qed.

Lemma PathUnroller_correct_witness :
  exists z s', Unroll (G := Z3ExprAdapter (Z3 := Terms.terms)) (L := layout_id) [9%N; 9%N] 0
    (Sample.world, NewSmt "", ()) = Ok (z, s').
Proof.
  destruct (PathUnroller_correct (L := layout_id) Sample.world
    (GS := Z3_spec (LZ := Terms.terms_laws) _ (IlaOk.ok_parent _ Sample.world_ok))
    [9%N; 9%N] 0 (NewSmt "") ())
    as (z & w' & u' & s' & E & _).
  - exact (Sample.ok_path 2 ltac:(lia)).
  - split; [constructor|]. split; [constructor|]. intros k. unfold step_at, NewSmt; cbn.
    rewrite lookup_empty. constructor.
  - exists z, (w', u', s'). exact E.
Defined.

(** ** The two path unrollers *)
Section agree.
Context {Z3 : Z3Api} {LZ : Z3Laws Z3} {L : Layout} (w0 : World) (Hok : IlaOk.world_ok w0).

Lemma iter_nil : ExprSet.iter (L := L) [] = [].
Proof.
  unfold ExprSet.iter. cbn. pose proof (set_order_perm [] (NoDup_nil_2)) as H.
  apply Permutation_nil_r in H. by rewrite H.
Qed.

Lemma preds_of_step u k : step_pred (preds_of (L := L) u) k = ExprSet.iter (step_at u k).
Proof using Type.
  unfold step_pred, step_at. cbn. rewrite lookup_fmap.
  destruct (step_pred_ u !! k); cbn; [done|]. by rewrite iter_nil.
Qed.

Lemma smt_path_run_path_run seq_ u begin_ ρ :
  smt_path_run (L := L) w0 seq_ u begin_ ρ <-> path_run (L := L) w0 seq_ (preds_of u) begin_ ρ.
Proof using Type. unfold smt_path_run, path_run. cbn zeta. by setoid_rewrite preds_of_step. Qed.

(** C9.  The two path unrollers of the code are equivalent: for every path and
    every set of predicates, the formulas of [PathUnroll::PathAssn] and of
    [PathUnroller<Z3ExprAdapter>::Unroll] are both built, and satisfied by the
    same models. *)
Theorem unrollers_agree seq_ begin_ u : path_ok (L := L) w0 seq_ -> smt_preds_ok (L := L) w0 u ->
  exists z1 s1 z2 s2,
    PathUnroll.PathAssn seq_ begin_ (w0, preds_of u) = Ok (z1, s1) /\
    Unroll (G := Z3ExprAdapter) seq_ begin_ (w0, u, ()) = Ok (z2, s2) /\
    forall m, model_ok m -> z_eval m z1 = VBool true <-> z_eval m z2 = VBool true.
Proof using Hok LZ.
  intros Hp Hu. pose proof Hu as (Hg & Hi & Hs).
  destruct (PathAssn_run w0 Hok seq_ begin_ (preds_of u) Hp) as (z1 & w1 & u1 & E1 & _ & _ & H1).
  { split; [exact Hg|]. split; [exact Hi|]. intros k. rewrite preds_of_step. apply Hs. }
  destruct (Unroll_run w0 (GS := Z3_spec _ (IlaOk.ok_parent _ Hok)) seq_ Hp begin_ u () Hu)
    as (z2 & w2 & u2 & s2 & E2 & _ & H2).
  exists z1, (w1, u1), z2, (w2, u2, s2). split; [exact E1|]. split; [exact E2|].
  intros m Hm. rewrite (H1 m Hm). etrans; [|symmetry; exact (H2 m Hm)].
  symmetry. apply smt_path_run_path_run.
Qed.
End agree.

Lemma unrollers_agree_witness :
  exists z1 s1 z2 s2,
    PathUnroll.PathAssn (Z3 := Terms.terms) (L := layout_id) [9%N] 3
      (Sample.world, preds_of (L := layout_id) (NewSmt "u")) = Ok (z1, s1) /\
    Unroll (G := Z3ExprAdapter (Z3 := Terms.terms)) (L := layout_id) [9%N] 3
      (Sample.world, NewSmt "u", ()) = Ok (z2, s2).
Proof.
  destruct (unrollers_agree (Z3 := Terms.terms) (LZ := Terms.terms_laws) (L := layout_id)
    Sample.world Sample.world_ok [9%N] 3 (NewSmt "u")) as (z1 & s1 & z2 & s2 & E1 & E2 & _).
  - exact (Sample.ok_path 1 ltac:(lia)).
  - split; [constructor|]. split; [constructor|]. intros k. unfold step_at, NewSmt; cbn.
    rewrite lookup_empty. constructor.
  - exists z1, s1, z2, s2. split; [exact E1|exact E2].
Defined.

(** ** Unrolling over smt-switch

    The term of [x] is asked for at time 0 and, by the equations of the step, at
    time 1: the cache answers with the term of time 0. *)
Definition switch_formula : Res sterm :=
  p ← Unroll (G := SmtSwitch_generator (SW := SwitchTerms.switch_terms)) (L := layout_id)
        [9%N] 0 (Sample.world, NewSmt "", SmtSwitch.New ∅); Ok p.1.

Lemma switch_formula_term : exists a c, switch_formula = Ok (SwitchTerms.STm
  (Terms.TApp SAnd [a; Terms.TApp SEq [Terms.TApp SAdd [Terms.TConst c (SortBv 8); Terms.TBv 8 1];
                                       Terms.TConst c (SortBv 8)]])).
Proof. eexists _, _. vm_compute. reflexivity. Qed.

Lemma succ_neq k : Bits.add 8 k 1 <> k.
Proof. unfold Bits.add, Bits.wrap. change (2 ^ 8) with 256. Z.to_euclidean_division_equations. lia. Qed.

(** The model in which [x] is 1 at time 1 and 0 before. *)
Definition next_model : Model :=
  {| m_const n s := if String.eqb n "top_sEp_x_sEp_1_" && bool_decide (s = SortBv 8)
                    then VBv 8 1 else default_val s;
     m_fun _ _ s _ := default_val s |}.
Lemma next_model_ok : model_ok next_model.
Proof.
  split; intros; cbn; [|by apply default_val_sort].
  destruct (_ && _) eqn:E; bool_inv; subst; [done|by apply default_val_sort].
Qed.

(** C40.  [PathUnroller<SmtSwitchItf>] conflates the time-stamps.  On one step of
    an instruction that adds one to a state, which the machine can execute, the
    formula it returns equates the state with its own successor and has no model,
    while the formula of the Z3 unroller has one. *)
Theorem PathUnroller_switch_stale :
  exists z, switch_formula = Ok z /\
    (forall m, model_ok m ->
       sw_eval (SwitchLaws := SwitchTerms.switch_laws) m z <> VBool true) /\
  exists z' s' m, Unroll (G := Z3ExprAdapter (Z3 := Terms.terms)) (L := layout_id) [9%N] 0
      (Sample.world, NewSmt "", ()) = Ok (z', s') /\ model_ok m /\
    z_eval (Z3Laws := Terms.terms_laws) m z' = VBool true.
Proof.
  destruct switch_formula_term as (a & c & E). eexists. split; [exact E|]. split.
  - intros m Hm. cbn. destruct (Terms.teval m a) as [b| |]; cbn; try done.
    pose proof (m_const_ok m Hm c (SortBv 8) eq_refl) as (k & -> & _ & _)%has_sort_bv.
    cbn. rewrite bool_decide_false; [by destruct b|]. intros [= H]. by apply succ_neq in H.
  - destruct (Unroll_run Sample.world (L := layout_id)
      (GS := Z3_spec (LZ := Terms.terms_laws) _ (IlaOk.ok_parent _ Sample.world_ok))
      [9%N] (Sample.ok_path 1 ltac:(lia)) 0 (NewSmt "") ()) as (z & w' & u' & s' & Ez & _ & Hv).
    { split; [constructor|]. split; [constructor|]. intros k. unfold step_at, NewSmt; cbn.
      rewrite lookup_empty. constructor. }
    pose proof next_model_ok as Hm. exists z, (w', u', s'), next_model.
    split; [exact Ez|]. split; [exact Hm|]. apply Hv; [exact Hm|].
    split; [intros _; constructor|]. split; [|split; constructor].
    intros i x. destruct i; [|by destruct i]. intros [= <-]. split; [constructor|].
    split; [constructor|]. split; [exists Sample.dec; by vm_compute|]. intros v Hv'.
    change (path_vars _ _) with [Sample.x] in Hv'. apply list_elem_of_singleton in Hv' as ->.
    by vm_compute.
Qed.
