(* ===== verification/Rewrite.v ===== *)
(** * Rewriting expressions

    [src/ila-mngr/u_rewrite_expr.cc]: the memoising function object that copies
    an expression under a table of replacements, and [absknob::Rewrite].  The
    virtual method [RewriteOp] is a parameter of the traversal; what the
    traversal needs of it is the interface [RewriteOpLaws], which the default
    method implements here and the passes implement in [Passes]. *)
From S2P Require Import Prelude Sort Values Container Expr World ExprOp AstHub.
Local Open Scope Z_scope.

Module FuncObjRewrExpr.
(** [rule_]: the replacements, a null pointer when a rewriting failed. *)
Abbreviation ExprMap := (gmap objid (option Expr)).

Definition get (rule_ : ExprMap) (e : Expr) : Res (option Expr) :=
  match rule_ !! Exprs.id e with Some d => Ok d | None => Fail EAssert end.

Definition pre (e : Expr) (rule_ : ExprMap) : bool := is_some (rule_ !! Exprs.id e).

(** [get(e->arg(i))]. *)
Definition get_arg (rule_ : ExprMap) (e : Expr) (i : nat) : M (option Expr) :=
  lift (a ← Exprs.arg e i; get rule_ a).

(** A call of the building interface on pointers that it dereferences. *)
Definition call1 (f : Expr -> M Expr) (a : option Expr) : M (option Expr) :=
  a ← lift (deref a); d ← f a; mret (Some d).
Definition call2 (f : Expr -> Expr -> M Expr) (a0 a1 : option Expr) : M (option Expr) :=
  a0 ← lift (deref a0); call1 (f a0) a1.
Definition call3 (f : Expr -> Expr -> Expr -> M Expr) (a0 a1 a2 : option Expr) :
    M (option Expr) :=
  a0 ← lift (deref a0); call2 (f a0) a1 a2.

Section ops.
Context {L : Layout}.

Definition rewr1 (f : Expr -> M Expr) (rule_ : ExprMap) (e : Expr) : M (option Expr) :=
  a ← get_arg rule_ e 0; call1 f a.
Definition rewr2 (f : Expr -> Expr -> M Expr) (rule_ : ExprMap) (e : Expr) :
    M (option Expr) :=
  a0 ← get_arg rule_ e 0; a1 ← get_arg rule_ e 1; call2 f a0 a1.
Definition rewr3 (f : Expr -> Expr -> Expr -> M Expr) (rule_ : ExprMap) (e : Expr) :
    M (option Expr) :=
  a0 ← get_arg rule_ e 0; a1 ← get_arg rule_ e 1; a2 ← get_arg rule_ e 2;
  call3 f a0 a1 a2.
Definition rewr1p (f : Expr -> Z -> M Expr) (rule_ : ExprMap) (e : Expr) :
    M (option Expr) :=
  a0 ← get_arg rule_ e 0; p0 ← lift (Exprs.param e 0); call1 (fun a => f a p0) a0.

(** The [switch] of [RewriteOp]; the remainder and modulus of signed words have
    no case, so the default logs an error and returns null. *)
Definition RewriteOp (rule_ : ExprMap) (e : Expr) : M (option Expr) :=
  expr_op_uid ← lift (Exprs.GetUidExprOp e);
  match expr_op_uid with
  | kNegate => rewr1 asthub.Negate rule_ e
  | kNot => rewr1 asthub.Not rule_ e
  | kComplement => rewr1 asthub.Complement rule_ e
  | kAnd => rewr2 asthub.And rule_ e
  | kOr => rewr2 asthub.Or rule_ e
  | kXor => rewr2 asthub.Xor rule_ e
  | kShiftLeft => rewr2 asthub.Shl rule_ e
  | kArithShiftRight => rewr2 asthub.Ashr rule_ e
  | kLogicShiftRight => rewr2 asthub.Lshr rule_ e
  | kAdd => rewr2 asthub.Add rule_ e
  | kSubtract => rewr2 asthub.Sub rule_ e
  | kDivide => rewr2 asthub.Div rule_ e
  | kUnsignedRemainder => rewr2 asthub.URem rule_ e
  | kMultiply => rewr2 asthub.Mul rule_ e
  | kEqual => rewr2 asthub.Eq rule_ e
  | kLessThan => rewr2 asthub.Lt rule_ e
  | kGreaterThan => rewr2 asthub.Gt rule_ e
  | kUnsignedLessThan => rewr2 asthub.Ult rule_ e
  | kUnsignedGreaterThan => rewr2 asthub.Ugt rule_ e
  | kLoad => rewr2 asthub.Load rule_ e
  | kStore => rewr3 asthub.Store rule_ e
  | kConcatenate => rewr2 asthub.Concat rule_ e
  | kExtract =>
      a0 ← get_arg rule_ e 0;
      p0 ← lift (Exprs.param e 0);
      p1 ← lift (Exprs.param e 1);
      call1 (fun a => asthub.Extract a p0 p1) a0
  | kZeroExtend => rewr1p asthub.ZExt rule_ e
  | kSignedExtend => rewr1p asthub.SExt rule_ e
  | kRotateLeft => rewr1p asthub.LRotate rule_ e
  | kRotateRight => rewr1p asthub.RRotate rule_ e
  | kImply => rewr2 asthub.Imply rule_ e
  | kIfThenElse => rewr3 asthub.Ite rule_ e
  | kApplyFunc =>
      match e with
      | ExprOp _ _ fn args _ =>
          f ← notnull fn;
          args ← lift (mapM (get rule_) args);
          args ← lift (mapM deref args);
          d ← asthub.AppFunc f args; mret (Some d)
      | _ => lift (Fail ENull)
      end
  | kSignedRemainder | kSignedModular | kInvalid => mret None
  end.
End ops.

(** The traversal, for a class with the given [RewriteOp]. *)
Section traversal.
Context (RewriteOp : ExprMap -> Expr -> M (option Expr)).

Definition Rewrite (rule_ : ExprMap) (e : Expr) : M (option Expr) :=
  if Exprs.is_var e || Exprs.is_const e then mret (Some e)
  else assert_ (Exprs.is_op e);; RewriteOp rule_ e.

Definition post (e : Expr) (rule_ : ExprMap) : M ExprMap :=
  dst ← Rewrite rule_ e;
  assert_ (negb (is_some (rule_ !! Exprs.id e)));;
  mret (<[Exprs.id e := dst]> rule_).

Definition visit (e : Expr) (rule_ : ExprMap) : M ExprMap :=
  Exprs.DepthFirstVisitPrePost pre post e rule_.
End traversal.
End FuncObjRewrExpr.
Import FuncObjRewrExpr.

(** [absknob::Rewrite] ([src/ila-mngr/u_abs_knob.cc]). *)
Definition Rewrite {L : Layout} (e : option Expr) (rule : ExprMap) : M Expr :=
  assert_ (is_some e);;
  e ← lift (deref e);
  rule' ← visit RewriteOp e rule;
  rewr ← lift (get rule' e);
  assert_ (is_some rewr);;
  lift (deref rewr).

(** ** Object graphs that grow

    [heap_ok T w]: the table [T] holds expressions of [w] under their ids, with
    their arguments.  [grows] relates two moments of a run that only creates
    expressions. *)
Definition heap_ok (T : gmap objid Expr) (w : World) : Prop :=
  forall i e, T !! i = Some e ->
    Exprs.id e = i /\ (i <= counter_ w)%N /\
    Forall (fun a => T !! Exprs.id a = Some a) (Exprs.args e).

Record grows (T : gmap objid Expr) (w : World) (T' : gmap objid Expr) (w' : World) : Prop := {
  grows_sub : T ⊆ T';
  grows_ok : heap_ok T' w';
  grows_ilas : w_ilas w' = w_ilas w;
  grows_instrs : w_instrs w' = w_instrs w;
  grows_counter : (counter_ w <= counter_ w')%N }.

Definition in_heap (T : gmap objid Expr) (e : Expr) : Prop := T !! Exprs.id e = Some e.

Lemma in_heap_mono T T' e : T ⊆ T' -> in_heap T e -> in_heap T' e.
Proof. unfold in_heap. intros. by eapply lookup_weaken. Qed.

Lemma in_heap_eq T a b : in_heap T a -> in_heap T b -> Exprs.ptr_eq a b = true -> a = b.
Proof. unfold in_heap, Exprs.ptr_eq. intros Ha Hb H%N.eqb_eq. congruence. Qed.

Lemma heap_args T w e : heap_ok T w -> in_heap T e -> Forall (in_heap T) (Exprs.args e).
Proof. intros Hh He. by apply (Hh _ _ He). Qed.

Lemma heap_registered T w e : heap_ok T w -> in_heap T e -> registered T e.
Proof.
  intros Hh. induction e as [e IH] using Expr_args_ind. intros He.
  apply registered_unfold. split; [exact He|].
  pose proof (heap_args _ _ _ Hh He) as Ha. rewrite Forall_forall in *. auto.
Qed.

Lemma grows_refl T w : heap_ok T w -> grows T w T w.
Proof. by split. Qed.

Lemma grows_trans T1 w1 T2 w2 T3 w3 :
  grows T1 w1 T2 w2 -> grows T2 w2 T3 w3 -> grows T1 w1 T3 w3.
Proof. intros [] []. split; [by etrans|done|congruence..|by etrans]. Qed.

Lemma grows_heap T w T' w' e : grows T w T' w' -> in_heap T e -> in_heap T' e.
Proof. intros []. by apply in_heap_mono. Qed.

#[export] Hint Resolve grows_refl grows_heap : ilang.

(** A node built from nodes of the heap. *)
Lemma heap_insert T w e :
  heap_ok T w -> Exprs.id e = (counter_ w + 1)%N -> Forall (in_heap T) (Exprs.args e) ->
  grows T w (<[Exprs.id e := e]> T) (ExprOps.bump w).
Proof.
  intros Hh Hid Ha.
  assert (Hn : T !! Exprs.id e = None).
  { rewrite Hid. destruct (T !! _) as [x|] eqn:E; [|done].
    apply Hh in E as (_ & ? & _). lia. }
  assert (Hsub : T ⊆ <[Exprs.id e := e]> T) by by apply insert_subseteq.
  split; [done| |done|done|cbn; lia]. intros i x. rewrite lookup_insert_Some.
  intros [[<- <-]|[Hi Hx]].
  - split; [done|]. split; [cbn; lia|]. eapply Forall_impl; [exact Ha|].
    intros a. by apply in_heap_mono.
  - destruct (Hh _ _ Hx) as (? & ? & Hax). split; [done|]. split; [cbn; lia|].
    eapply Forall_impl; [exact Hax|]. intros a. by apply in_heap_mono.
Qed.

(** What [RewriteOp] has a case for, and a function without arguments only when
    no ILA hosts the application: the copy has no host, and the host is part of
    what the application denotes. *)
Definition supported (op : AstUidExprOp) : bool :=
  match op with kSignedRemainder | kSignedModular | kInvalid => false | _ => true end.

Fixpoint rewritable (e : Expr) : bool :=
  match e with
  | ExprOp h op fn args _ =>
      supported op &&
      (if fn is Some _ then if args is [] then bool_decide (h_host h = None) else true
       else true) &&
      forallb rewritable args
  | _ => true
  end.

Lemma forallb_Forall {A} (f : A -> bool) l : forallb f l = true <-> Forall (fun a => f a = true) l.
Proof. rewrite forallb_forall, Forall_forall. by setoid_rewrite list_elem_of_In. Qed.

Lemma rewritable_args e : rewritable e = true -> Forall (fun a => rewritable a = true) (Exprs.args e).
Proof.
  destruct e; cbn [rewritable Exprs.args]; auto using Forall_nil_2. intros. bool_inv.
  by apply forallb_Forall.
Qed.

Definition rw_ok (e : Expr) : Prop := wt e = true /\ rewritable e = true.

Lemma rw_ok_args e : rw_ok e -> Forall rw_ok (Exprs.args e).
Proof.
  intros [Hw%wt_args Hr%rewritable_args]. rewrite Forall_forall in *. split; auto.
Qed.

(** [builds T w m s f]: the call [m] builds in [w] a well-sorted expression of
    sort [s] whose value in every sort-respecting environment is [f], and does
    nothing but create expressions. *)
Definition builds (T : gmap objid Expr) (w : World) (m : M Expr) (s : Sort)
    (f : Env -> option val) : Prop :=
  exists d w' T', m w = Ok (d, w') /\ grows T w T' w' /\ in_heap T' d /\ rw_ok d /\ Exprs.sort d = s /\ forall ρ, env_ok ρ -> eval ρ d = f ρ.

Section builds.
Context {L : Layout}.

Lemma builds_run T w m m' w' s f : m w = m' w' -> grows T w T w' ->
  builds T w' m' s f -> builds T w m s f.
Proof.
  intros E Hg (d & w'' & T' & Hm & Hg' & H). exists d, w'', T'. split; [congruence|].
  split; [by eapply grows_trans|done].
Qed.

Lemma builds_ext T w m s f g :
  (forall ρ, env_ok ρ -> f ρ = g ρ) -> builds T w m s f -> builds T w m s g.
Proof.
  intros Hfg (d & w' & T' & Hm & Hg & Hd & Hok & Hs & He). exists d, w', T'.
  split_and!; [done..|]. intros ρ Hρ. by rewrite He, Hfg.
Qed.

Lemma builds_bind T w m k s f s' g :
  builds T w m s f ->
  (forall d T' w', grows T w T' w' -> in_heap T' d -> rw_ok d -> Exprs.sort d = s ->
     (forall ρ, env_ok ρ -> eval ρ d = f ρ) -> builds T' w' (k d) s' g) ->
  builds T w (m ≫= k) s' g.
Proof.
  intros (d & w' & T' & Hm & Hg & Hd & Hok & Hs & He) Hk.
  destruct (Hk d T' w') as (d' & w'' & T'' & Hm' & Hg' & H); [done..|].
  exists d', w'', T''. split; [unfold mbind, ST_bind; by rewrite Hm|].
  split; [by eapply grows_trans|done].
Qed.

Lemma builds_op T w op args ps m s :
  heap_ok T w -> Forall (in_heap T) args -> Forall rw_ok args -> supported op = true ->
  ExprOps.construct op args ps = Some m -> op_sort op ps (Exprs.sort <$> args) = Some s ->
  builds T w m s (fun ρ => evals ρ args ≫= op_sem op ps).
Proof.
  intros Hh Ha Hok Hsup Hc Hs.
  assert (Hw : Forall (fun a => wt a = true) args) by (eapply Forall_impl; [done|]; by intros a []).
  assert (Hss : Forall (fun s => sort_ok s = true) (Exprs.sort <$> args)).
  { apply Forall_fmap. eapply Forall_impl; [done|]. apply wt_sort_ok. }
  pose proof (ExprOps.ctor_sort_spec op ps _ Hss) as Hs'. rewrite Hs in Hs'.
  eexists (ExprOps.node w op s args ps), _, _.
  split; [rewrite (ExprOps.construct_run _ _ _ _ w Hc), Hs'; reflexivity|].
  split; [by apply (heap_insert T w (ExprOps.node w op s args ps))|].
  split; [apply lookup_insert_eq|].
  split; [|split; [done|]].
  - split; [apply ExprOps.wt_node; [exact Hw|exact Hs]|]. cbn. rewrite Hsup. cbn. apply forallb_Forall.
    eapply Forall_impl; [exact Hok|]. by intros a [].
  - intros ρ _. unfold ExprOps.node. by rewrite eval_op.
Qed.

(** Two operands of one sort are joined without coercion. *)
Lemma mixed_run ctor l r w : Exprs.sort l = Exprs.sort r ->
  asthub.mixed ctor 2 l r w = ctor l r w.
Proof. apply asthub.mixed_same. Qed.

Lemma GetHost_nil w : ExprOps.GetHost w [] = None.
Proof.
  unfold ExprOps.GetHost, ExprOps.hosts_of. cbn.
  pose proof (set_order_perm [] (NoDup_nil_2)) as H. apply Permutation_nil_r in H. by rewrite H.
Qed.

Lemma check_sorts_ok l w : Forall (fun p => Exprs.sort p.1 = p.2) l ->
  Funcs.check_sorts l w = Ok ((), w).
Proof.
  induction 1 as [|[a s] l E _ IH]; [done|]. cbn in *. subst.
  unfold check_, lift. cbv [mbind ST_bind Res_bind]. by rewrite Sorts.Equal_refl.
Qed.

Lemma CheckSort_run fn args w : args_ fn = Exprs.sort <$> args ->
  Funcs.CheckSort fn args w = Ok (true, w).
Proof.
  intros H. unfold Funcs.CheckSort, check_ at 1, lift. rewrite H, length_fmap, Nat.eqb_refl.
  cbv [mbind ST_bind Res_bind ila_check]. rewrite check_sorts_ok; [done|].
  clear H. induction args; cbn; by constructor.
Qed.

Lemma AppFunc_run fn args w : args_ fn = Exprs.sort <$> args ->
  asthub.AppFunc fn args w =
  Ok (ExprOp (ExprOps.node_hdr w args (out_ fn)) kApplyFunc (Some fn) args [],
      ExprOps.bump w).
Proof.
  intros H. unfold asthub.AppFunc, ExprOps.ExprOpAppFunc, ExprOps.ExprOpVec, ExprOps.ExprOpBase.
  cbv [mbind ST_bind fresh gets mret ST_ret].
  by rewrite CheckSort_run.
Qed.
End builds.

(** ** What a rewriting means

    Rewriting commutes with evaluation up to a transformer [tr] of the
    environments: the identity for the passes, a substitution for a table of
    replacements. *)
Class EnvTr (tr : Env -> Env) : Prop := {
  tr_ok ρ : env_ok ρ -> env_ok (tr ρ);
  tr_fun ρ : ev_fun (tr ρ) = ev_fun ρ;
  tr_nondet ρ f : ev_nondet (tr ρ) None f = ev_nondet ρ None f }.

#[export] Instance EnvTr_id : EnvTr id.
Proof. by split. Qed.

Record same (tr : Env -> Env) (e d : Expr) : Prop := {
  same_ok : rw_ok d;
  same_sort : Exprs.sort d = Exprs.sort e;
  same_eval ρ : env_ok ρ -> eval ρ d = eval (tr ρ) e }.

Definition entry (tr : Env -> Env) (T : gmap objid Expr) (rule_ : ExprMap) (a : Expr) : Prop :=
  exists d, rule_ !! Exprs.id a = Some (Some d) /\ same tr a d /\ in_heap T d.

(** The interface of a rewriting class: on a node whose arguments have entries,
    [RewriteOp] builds a node of the same sort and meaning. *)
Class RewriteOpLaws (tr : Env -> Env) (RewriteOp : ExprMap -> Expr -> M (option Expr)) : Prop :=
  RewriteOp_law T w rule_ e :
    heap_ok T w -> in_heap T e -> rw_ok e -> Exprs.is_op e = true ->
    Forall (entry tr T rule_) (Exprs.args e) ->
    exists d w' T', RewriteOp rule_ e w = Ok (Some d, w') /\ grows T w T' w' /\
      in_heap T' d /\ same tr e d.

Section laws.
Context {L : Layout} (tr : Env -> Env) {Htr : EnvTr tr}.

(** The entries of the arguments, in one list. *)
Lemma entries T rule_ args : Forall (entry tr T rule_) args ->
  exists ds, mapM (get rule_) args = Ok (Some <$> ds) /\
    Forall2 (fun a d => rule_ !! Exprs.id a = Some (Some d)) args ds /\
    Forall2 (same tr) args ds /\ Forall (in_heap T) ds.
Proof.
  induction 1 as [|a args (d & Hd & Hs & Hin) _ (ds & E & H1 & H2 & H3)].
  - by exists [].
  - exists (d :: ds). cbn.
    assert (get rule_ a = Ok (Some d)) as -> by (unfold get; by rewrite Hd).
    cbn. rewrite E. cbn.
    split_and!; [done|by constructor..].
Qed.

Lemma same_sorts args ds : Forall2 (same tr) args ds -> Exprs.sort <$> ds = Exprs.sort <$> args.
Proof. induction 1 as [|a d args ds H _ IH]; [done|]. cbn. by rewrite IH, (same_sort _ _ _ H). Qed.

Lemma same_evals ρ args ds : env_ok ρ -> Forall2 (same tr) args ds ->
  evals ρ ds = evals (tr ρ) args.
Proof.
  intros Hρ. unfold evals. induction 1 as [|a d args ds H _ IH]; [done|]. cbn.
  by rewrite (same_eval _ _ _ H), IH.
Qed.

Lemma same_rw_ok args ds : Forall2 (same tr) args ds -> Forall rw_ok ds.
Proof. induction 1; constructor; auto. by eapply same_ok. Qed.

(** A node of the default method, from the call it makes. *)
Lemma builds_same T w m e (R : M (option Expr)) f :
  (forall d w', m w = Ok (d, w') -> R w = Ok (Some d, w')) ->
  builds T w m (Exprs.sort e) f -> (forall ρ, env_ok ρ -> f ρ = eval (tr ρ) e) ->
  exists d w' T', R w = Ok (Some d, w') /\ grows T w T' w' /\ in_heap T' d /\ same tr e d.
Proof.
  intros HR (d & w' & T' & Hm & Hg & Hd & Hok & Hs & He) Hf. exists d, w', T'.
  split; [by apply HR|]. split_and!; [done..|]. split; [done..|]. intros ρ Hρ.
  by rewrite He, Hf.
Qed.
Lemma get_arg_run rule_ e i a d w :
  Exprs.args e !! i = Some a -> rule_ !! Exprs.id a = Some (Some d) ->
  get_arg rule_ e i w = Ok (Some d, w).
Proof.
  intros Ha Hd. unfold get_arg, lift, Exprs.arg, Exprs.at_, get. by rewrite Ha; cbn; rewrite Hd.
Qed.

Section calls.
Context (rule_ : ExprMap) (e : Expr) (w : World).

Lemma rewr1_run f a d r w' :
  Exprs.args e = [a] -> rule_ !! Exprs.id a = Some (Some d) ->
  f d w = Ok (r, w') -> rewr1 f rule_ e w = Ok (Some r, w').
Proof using Type.
  intros Ha Hd Hf. unfold rewr1. cbv [mbind ST_bind].
  rewrite (get_arg_run _ _ 0 a d) by (rewrite ?Ha; done). unfold call1, lift.
  cbv [mbind ST_bind Res_bind deref]. by rewrite Hf.
Qed.

Lemma rewr1p_run f a p d r w' :
  Exprs.args e = [a] -> Exprs.params e = [p] -> rule_ !! Exprs.id a = Some (Some d) ->
  f d p w = Ok (r, w') -> rewr1p f rule_ e w = Ok (Some r, w').
Proof using Type.
  intros Ha Hp Hd Hf. unfold rewr1p. cbv [mbind ST_bind].
  rewrite (get_arg_run _ _ 0 a d) by (rewrite ?Ha; done). unfold call1, lift, Exprs.param.
  cbv [mbind ST_bind Res_bind deref]. rewrite Hp. cbn. by rewrite Hf.
Qed.

Lemma rewr2_run f a0 a1 d0 d1 r w' :
  Exprs.args e = [a0; a1] -> rule_ !! Exprs.id a0 = Some (Some d0) ->
  rule_ !! Exprs.id a1 = Some (Some d1) ->
  f d0 d1 w = Ok (r, w') -> rewr2 f rule_ e w = Ok (Some r, w').
Proof using Type.
  intros Ha H0 H1 Hf. unfold rewr2. cbv [mbind ST_bind].
  rewrite (get_arg_run _ _ 0 a0 d0), (get_arg_run _ _ 1 a1 d1) by (rewrite ?Ha; done).
  unfold call2, call1, lift. cbv [mbind ST_bind Res_bind deref]. by rewrite Hf.
Qed.

Lemma rewr3_run f a0 a1 a2 d0 d1 d2 r w' :
  Exprs.args e = [a0; a1; a2] -> rule_ !! Exprs.id a0 = Some (Some d0) ->
  rule_ !! Exprs.id a1 = Some (Some d1) -> rule_ !! Exprs.id a2 = Some (Some d2) ->
  f d0 d1 d2 w = Ok (r, w') -> rewr3 f rule_ e w = Ok (Some r, w').
Proof using Type.
  intros Ha H0 H1 H2 Hf. unfold rewr3. cbv [mbind ST_bind].
  rewrite (get_arg_run _ _ 0 a0 d0), (get_arg_run _ _ 1 a1 d1), (get_arg_run _ _ 2 a2 d2)
    by (rewrite ?Ha; done).
  unfold call3, call2, call1, lift. cbv [mbind ST_bind Res_bind deref]. by rewrite Hf.
Qed.
End calls.
End laws.

(** Invert the entries of a literal argument list. *)
Ltac entries_inv H :=
  lazymatch type of H with
  | Forall2 _ (_ :: _) _ =>
      let H' := fresh in
      apply Forall2_cons_inv_l in H as (? & ? & ? & H' & ?); subst; entries_inv H'
  | Forall2 _ [] _ => apply Forall2_nil_inv_l in H; subst
  end.

(** ** The default method *)
Section default.
Context {L : Layout} (tr : Env -> Env) {Htr : EnvTr tr}.

Lemma mapM_deref {A} (ds : list A) : mapM deref (Some <$> ds) = Ok ds.
Proof. induction ds as [|d ds IH]; [done|]. cbn. by rewrite IH. Qed.

Section node.
Context (T : gmap objid Expr) (w : World) (rule_ : ExprMap).
Context (h : Hdr) (op : AstUidExprOp) (args : list Expr) (ps : list Z) (ds : list Expr).
Hypothesis Hheap : heap_ok T w.
Hypothesis Hsort : op_sort op ps (Exprs.sort <$> args) = Some (h_sort h).
Hypothesis Hsup : supported op = true.
Hypothesis Hsame : Forall2 (same tr) args ds.
Hypothesis Hds : Forall (in_heap T) ds.

(** The operator applied to the copies. *)
Lemma builds_node m : ExprOps.construct op ds ps = Some m ->
  builds T w m (h_sort h) (fun ρ => eval (tr ρ) (ExprOp h op None args ps)).
Proof using Hheap Hsort Hsup Hsame Hds Htr.
  intros Hm. eapply builds_ext; [|eapply builds_op; [done|done| |done|done|]].
  - intros ρ Hρ. rewrite eval_op. cbn beta. by rewrite (same_evals tr ρ args ds).
  - by eapply same_rw_ok.
  - by rewrite (same_sorts tr args ds).
Qed.
End node.

Lemma Concat_builds T w h args ps a b :
  heap_ok T w -> op_sort kConcatenate ps (Exprs.sort <$> args) = Some (h_sort h) ->
  Forall2 (same tr) args [a; b] -> Forall (in_heap T) [a; b] ->
  builds T w (asthub.Concat a b) (h_sort h)
    (fun ρ => eval (tr ρ) (ExprOp h kConcatenate None args ps)).
Proof.
  intros Hh Hs Hsame Hds.
  assert (Hbv : exists wa wb, Exprs.sort a = SortBv wa /\ Exprs.sort b = SortBv wb /\ ps = []).
  { pose proof (same_sorts tr _ _ Hsame) as E. rewrite <- E in Hs.
    cbn in Hs. destruct ps, (Exprs.sort a), (Exprs.sort b); try discriminate Hs; eauto 10. }
  destruct Hbv as (wa & wb & Ha & Hb & ->).
  assert (Hconst : forall v T w, heap_ok T w -> 0 <= v < 2 ->
    builds T w (asthub.BvConst v 1) (SortBv 1) (fun _ => Some (VBv 1 v))).
  { intros v T' w' Hh' Hv.
    destruct (asthub.BvConst_yields v 1 w') as (e & w1 & Hm & Hw & Hse & He); [lia|lia|].
    assert (He1 : Exprs.id e = (counter_ w' + 1)%N /\ Exprs.args e = [] /\
                  rewritable e = true /\ w1 = ExprOps.bump w').
    { unfold asthub.BvConst, ExprConsts.ExprConst_bv, ExprConsts.New, fresh, check_ in Hm.
      run_inv. by simplify_eq. }
    destruct He1 as (Hid & Hargs & Hrw & ->). eexists e, _, _. split; [exact Hm|].
    split; [apply (heap_insert T' w' e); [done..|]; rewrite Hargs; constructor|].
    split; [apply lookup_insert_eq|]. split; [by split|]. split; [done|exact He]. }
  unfold asthub.Concat.
  eapply builds_bind; [by apply Hconst|]. intros z T1 w1 G1 _ _ _ _.
  eapply builds_bind; [apply Hconst; [by destruct G1|lia]|]. intros o T2 w2 G2 _ _ _ _.
  assert (G : grows T w T2 w2) by by eapply grows_trans.
  eapply (builds_run _ _ _ (ExprOps.ExprOpConcat a b)); [|by apply grows_refl; destruct G|].
  - unfold Exprs.is_bool. rewrite Ha, Hb. done.
  - apply (builds_node T2 w2 h kConcatenate args [] [a; b]); [by destruct G|done..| |done].
    eapply Forall_impl; [exact Hds|]. intros x. by apply (grows_heap _ _ _ _ _ G).
Qed.

Lemma AppFunc_law T w rule_ h f args ps :
  heap_ok T w -> rw_ok (ExprOp h kApplyFunc (Some f) args ps) ->
  Forall (entry tr T rule_) args ->
  exists d w' T', RewriteOp rule_ (ExprOp h kApplyFunc (Some f) args ps) w = Ok (Some d, w') /\
    grows T w T' w' /\ in_heap T' d /\
    same tr (ExprOp h kApplyFunc (Some f) args ps) d.
Proof.
  intros Hh [[Hwt Hf]%wt_op Hr] Ha.
  destruct (entries tr _ _ _ Ha) as (ds & Hget & _ & Hsame & Hds).
  pose proof (same_sorts tr _ _ Hsame) as Hsorts. pose proof Hf as Hf'.
  unfold fn_ok in Hf. bool_inv. cbn [rewritable] in Hr. bool_inv.
  set (d := ExprOp (ExprOps.node_hdr w ds (out_ f)) kApplyFunc (Some f) ds []).
  exists d, (ExprOps.bump w), (<[Exprs.id d := d]> T). split; [|split; [|split]].
  - unfold RewriteOp. rewrite (lift_bind_run _ _ _ kApplyFunc) by done.
    unfold notnull. rewrite (lift_bind_run _ _ _ f) by done.
    rewrite (lift_bind_run _ _ _ _ Hget), (lift_bind_run _ _ _ _ (mapM_deref ds)).
    by rewrite (ST_bind_run _ _ _ _ _ (AppFunc_run f ds w ltac:(by rewrite Hsorts))).
  - by apply heap_insert.
  - apply lookup_insert_eq.
  - assert (Hok : Forall rw_ok ds) by by eapply same_rw_ok.
    split; [split|done|].
    + apply wt_op. split; [eapply Forall_impl; [exact Hok|]; by intros a []|].
      unfold d. cbn [h_sort ExprOps.node_hdr]. rewrite Hsorts. unfold fn_ok in *.
      subst. bool_inv. subst. rewrite !bool_decide_true by done. cbn. congruence.
    + cbn. rewrite (proj2 (forallb_Forall _ _)); [|eapply Forall_impl; [exact Hok|]; by intros a []].
      destruct ds; [|done]. by rewrite GetHost_nil.
    + intros ρ Hρ. unfold d. rewrite !eval_op, (same_evals tr ρ args ds) by done.
      destruct (evals (tr ρ) args) as [vs|] eqn:E; [|done]. cbn. f_equal. unfold fn_sem.
      rewrite (tr_fun (tr := tr)). destruct vs; [|done].
      destruct args; [|unfold evals in E; cbn in E; destruct (eval (tr ρ) e); [|done];
                       cbn in E; by destruct (mapM _ args)].
      apply Forall2_nil_inv_l in Hsame. subst ds. cbn in *. rewrite GetHost_nil.
      bool_inv. rewrite H5. by rewrite (tr_nondet (tr := tr)).
Qed.

Ltac rewr_run :=
  intros ? ? ?; unfold RewriteOp;
  rewrite (lift_bind_run _ _ _ _ (eq_refl : Exprs.GetUidExprOp (ExprOp _ _ _ _ _) = Ok _));
  cbn iota;
  first [ eapply rewr1_run; [reflexivity|eassumption..]
        | eapply rewr2_run; [reflexivity|eassumption..]
        | eapply rewr3_run; [reflexivity|eassumption..]
        | eapply rewr1p_run; [reflexivity|reflexivity|eassumption..] ].

(** The sorts of the operands of the connectives agree. *)
Lemma logic2_sort_eq a b s : logic2_sort a b = Some s -> a = b.
Proof.
  unfold logic2_sort, bv2_sort. destruct a, b; intros; try done; case_match; bool_inv; congruence.
Qed.

Lemma op_law T w rule_ h op args ps :
  heap_ok T w -> rw_ok (ExprOp h op None args ps) -> Forall (entry tr T rule_) args ->
  exists d w' T', RewriteOp rule_ (ExprOp h op None args ps) w = Ok (Some d, w') /\
    grows T w T' w' /\ in_heap T' d /\ same tr (ExprOp h op None args ps) d.
Proof.
  intros Hh [[_ Hs]%wt_op Hr] Ha. cbn [rewritable] in Hr. bool_inv.
  destruct (entries tr _ _ _ Ha) as (ds & _ & Hget & Hsame & Hds).
  pose proof (builds_node T w h op args ps ds Hh Hs H Hsame Hds) as Hb.
  pose proof (same_sorts tr _ _ Hsame) as Hsorts.
  pose proof Hs as Hs'. destruct op; try discriminate H; cbn [op_sort] in Hs;
    destruct ps as [|p [|q [|]]]; try discriminate Hs;
    destruct args as [|a [|b [|c [|]]]]; try discriminate Hs;
    try (cbn in Hs; repeat (case_match; try discriminate Hs); fail);
    entries_inv Hget; cbn in Hsorts; simplify_list_eq.
  all: try (eapply builds_same; [rewr_run|by apply Hb|done]).
  4: eapply builds_same; [rewr_run|by apply (Concat_builds T w h [a; b] [])|done].
  all: apply logic2_sort_eq in Hs;
    eapply builds_same;
      [rewr_run|eapply builds_run; [apply mixed_run; congruence|by apply grows_refl|by apply Hb]
      |done].
Qed.

(** The default method implements the interface. *)
#[export] Instance RewriteOp_laws : RewriteOpLaws tr RewriteOp.
Proof.
  intros T w rule_ e Hh He Hok Hop Ha. destruct e as [| |h op [f|] args ps]; try discriminate Hop.
  - destruct Hok as [Hw Hr]. pose proof Hw as [_ Hf]%wt_op. unfold fn_ok in Hf. bool_inv. subst.
    by apply AppFunc_law.
  - by apply op_law.
Qed.
End default.

(** ** The traversal *)
Fixpoint size (e : Expr) : nat :=
  match e with ExprOp _ _ _ args _ => S (sum_list_with size args) | _ => 1%nat end.

Lemma size_arg e a : a ∈ Exprs.args e -> (size a < size e)%nat.
Proof.
  destruct e; cbn; [by intros ?%elem_of_nil..|].
  intros H. pose proof (sum_list_with_in a size args H). lia.
Qed.

Lemma visit_unfold RewriteOp e rule_ w :
  visit RewriteOp e rule_ w =
  if pre e rule_ then Ok (rule_, w)
  else (rule' ← foldM (visit RewriteOp) (Exprs.args e) rule_; post RewriteOp e rule') w.
Proof.
  unfold visit. destruct e as [h ps|h c ps|h op fn args ps];
    cbn [Exprs.DepthFirstVisitPrePost Exprs.args foldM]; [by destruct (pre _ _)..|].
  destruct (pre _ rule_); [done|]. cbv [mbind ST_bind].
  match goal with |- context [match ?go args rule_ w with _ => _ end] =>
    assert (E : forall l s w, go l s w = foldM (visit RewriteOp) l s w) end.
  { induction l as [|a l IH]; [done|]. intros s1 w1. cbn. cbv [mbind ST_bind].
    unfold visit at 1.
    destruct (Exprs.DepthFirstVisitPrePost (F := M) _ _ a s1 w1) as [[s2 w2]|]; [|done].
    apply IH. }
  by rewrite E.
Qed.

Definition table_ok (tr : Env -> Env) (T : gmap objid Expr) (rule_ : ExprMap) : Prop :=
  forall i v, rule_ !! i = Some v ->
    exists e d, T !! i = Some e /\ v = Some d /\ same tr e d /\ in_heap T d.

Lemma table_mono tr T T' rule_ : T ⊆ T' -> table_ok tr T rule_ -> table_ok tr T' rule_.
Proof.
  intros Hs Ht i v Hv. destruct (Ht _ _ Hv) as (e & d & He & -> & Hd & Hin). exists e, d.
  split_and!; [by eapply lookup_weaken|done|done|by eapply in_heap_mono].
Qed.

Lemma table_entry tr T rule_ e : table_ok tr T rule_ -> in_heap T e ->
  is_Some (rule_ !! Exprs.id e) -> entry tr T rule_ e.
Proof.
  intros Ht He [v Hv]. destruct (Ht _ _ Hv) as (e' & d & He' & -> & Hd & Hin).
  unfold in_heap in He. simplify_eq. by exists d.
Qed.

Section traversal.
Context {L : Layout} (tr : Env -> Env) (RewriteOp : ExprMap -> Expr -> M (option Expr)).
Context {Htr : EnvTr tr} {Hop : RewriteOpLaws tr RewriteOp}.
Context (rule0 : ExprMap).
Hypothesis Hleaf : forall h ρ, rule0 !! h_id h = None -> ev_var (tr ρ) h = ev_var ρ h.

(** The new entries of a visit of [es] are those of nodes no larger. *)
Record visited (es : list Expr) (n : nat) (T : gmap objid Expr) (w : World) (rule_ : ExprMap)
    (T' : gmap objid Expr) (w' : World) (rule' : ExprMap) : Prop := {
  v_grows : grows T w T' w';
  v_table : table_ok tr T' rule';
  v_sub : rule_ ⊆ rule';
  v_done : Forall (fun e => is_Some (rule' !! Exprs.id e)) es;
  v_new i : is_Some (rule' !! i) -> is_Some (rule_ !! i) \/
    exists x, T' !! i = Some x /\ (size x <= n)%nat }.

Lemma leaf_same e : rw_ok e -> Exprs.is_op e = false -> rule0 !! Exprs.id e = None ->
  same tr e e.
Proof using Hleaf.
  intros Hok Ho Hr. split; [done..|]. intros ρ _. destruct e; try done. cbn. by rewrite Hleaf.
Qed.

Lemma visit_args n es T w rule_ :
  (forall e, e ∈ es -> (size e <= n)%nat /\ forall T w rule_,
     heap_ok T w -> in_heap T e -> rw_ok e -> table_ok tr T rule_ -> rule0 ⊆ rule_ ->
     exists rule' w' T', visit RewriteOp e rule_ w = Ok (rule', w') /\
       visited [e] (size e) T w rule_ T' w' rule') ->
  heap_ok T w -> Forall (in_heap T) es -> Forall rw_ok es -> table_ok tr T rule_ ->
  rule0 ⊆ rule_ ->
  exists rule' w' T', foldM (visit RewriteOp) es rule_ w = Ok (rule', w') /\
    visited es n T w rule_ T' w' rule'.
Proof using Type.
  revert T w rule_. induction es as [|e es IH]; intros T w rule_ Hv Hh Hin Hok Ht Hr.
  - exists rule_, w, T. split; [done|]. split; [by apply grows_refl|done|done|constructor|by left].
  - apply Forall_cons in Hin as [He Hin], Hok as [Hoe Hok].
    destruct (Hv e) as [Hn Hve]; [by left|].
    destruct (Hve T w rule_) as (r1 & w1 & T1 & E1 & [G1 Ht1 Hs1 Hd1 Hnew1]); [done..|].
    destruct (IH T1 w1 r1) as (r2 & w2 & T2 & E2 & [G2 Ht2 Hs2 Hd2 Hnew2]);
      [intros; apply Hv; by right|by destruct G1| |done|done|by etrans|].
    { eapply Forall_impl; [exact Hin|]. intros x. by apply (grows_heap _ _ _ _ _ G1). }
    exists r2, w2, T2. split; [cbn; cbv [mbind ST_bind]; by rewrite E1|].
    split; [by eapply grows_trans|done|by etrans| |].
    + constructor; [|done]. apply Forall_inv in Hd1 as [v Hv1]. exists v.
      by eapply lookup_weaken.
    + intros i Hi. destruct (Hnew2 i Hi) as [Hi1|?]; [|by right].
      destruct (Hnew1 i Hi1) as [?|(x & Hx & ?)]; [by left|right; exists x].
      split; [|lia]. eapply lookup_weaken; [exact Hx|by destruct G2].
Qed.

Lemma visit_ok e : forall T w rule_,
  heap_ok T w -> in_heap T e -> rw_ok e -> table_ok tr T rule_ -> rule0 ⊆ rule_ ->
  exists rule' w' T', visit RewriteOp e rule_ w = Ok (rule', w') /\
    visited [e] (size e) T w rule_ T' w' rule'.
Proof using Hleaf Hop.
  induction e as [e IH] using Expr_args_ind. intros T w rule_ Hh He Hok Ht Hr.
  rewrite visit_unfold. unfold pre. destruct (rule_ !! Exprs.id e) as [v|] eqn:Ev; cbn [is_some].
  { exists rule_, w, T. split; [done|]. split; [by apply grows_refl|done|done| |intros; by left].
    repeat constructor. by exists v. }
  rewrite Forall_forall in IH.
  destruct (visit_args (pred (size e)) (Exprs.args e) T w rule_)
    as (r1 & w1 & T1 & E1 & [G1 Ht1 Hs1 Hd1 Hnew1]);
    [|done|by eapply heap_args|by apply rw_ok_args|done|done|].
  { intros a Ha. split; [pose proof (size_arg _ _ Ha); lia|]. by apply IH. }
  assert (He1 : in_heap T1 e) by by eapply grows_heap.
  assert (Hn : r1 !! Exprs.id e = None).
  { apply eq_None_not_Some. intros Hi. destruct (Hnew1 _ Hi) as [[? ?]|(x & Hx & Hlt)]; [congruence|].
    unfold in_heap in He1. assert (x = e) as -> by congruence. destruct e; cbn in Hlt; lia. }
  assert (Hrw : exists d w2 T2, FuncObjRewrExpr.Rewrite RewriteOp r1 e w1 = Ok (Some d, w2) /\
                  grows T1 w1 T2 w2 /\ in_heap T2 d /\ same tr e d).
  { unfold FuncObjRewrExpr.Rewrite. destruct (Exprs.is_op e) eqn:Eo.
    - replace (Exprs.is_var e || Exprs.is_const e) with false by by destruct e.
      change (assert_ true ≫= (fun _ => RewriteOp r1 e)) with (RewriteOp r1 e).
      apply RewriteOp_law; [by destruct G1|done..|].
      rewrite Forall_forall in *. intros a Ha. apply table_entry; [done| |by apply Hd1].
      eapply grows_heap; [exact G1|]. pose proof (heap_args _ _ _ Hh He) as Hin.
      rewrite Forall_forall in Hin. by apply Hin.
    - replace (Exprs.is_var e || Exprs.is_const e) with true by by destruct e.
      exists e, w1, T1. split; [done|]. split; [apply grows_refl; by destruct G1|]. split; [done|].
      apply leaf_same; [done|done|]. apply eq_None_not_Some. intros [x Hx].
      eapply lookup_weaken in Hx; [|exact Hr]. congruence. }
  destruct Hrw as (d & w2 & T2 & E2 & G2 & Hd & Hsame).
  exists (<[Exprs.id e := Some d]> r1), w2, T2. split.
  { rewrite (ST_bind_run _ _ _ _ _ E1). unfold post. rewrite (ST_bind_run _ _ _ _ _ E2).
    by rewrite Hn. }
  split.
  - by eapply grows_trans.
  - intros i v. rewrite lookup_insert_Some. intros [[<- <-]|[Hi Hv]].
    + exists e, d. split_and!; [by eapply grows_heap|done..].
    + eapply table_mono; [by destruct G2|exact Ht1|exact Hv].
  - etrans; [exact Hs1|]. by apply insert_subseteq.
  - repeat constructor. rewrite lookup_insert_eq. by eexists.
  - intros i. rewrite lookup_insert_is_Some'. intros [<-|Hi].
    + right. exists e. split; [by eapply grows_heap|done].
    + destruct (Hnew1 i Hi) as [?|(x & Hx & ?)]; [by left|right; exists x].
      split; [eapply lookup_weaken; [exact Hx|by destruct G2]|lia].
Qed.
End traversal.

(** ** [absknob::Rewrite] is substitution *)

(** The environment in which a replaced variable has the value of its
    replacement. *)
Definition subst_env (rule : ExprMap) (ρ : Env) : Env := {|
  ev_var h :=
    match rule !! h_id h with
    | Some (Some d) =>
        if decide (Exprs.sort d = h_sort h) then default (ev_var ρ h) (eval ρ d) else ev_var ρ h
    | _ => ev_var ρ h
    end;
  ev_fun := ev_fun ρ;
  ev_nondet := ev_nondet ρ |}.

(** A table that replaces variables by expressions of their sorts. *)
Definition rule_ok (T : gmap objid Expr) (rule : ExprMap) : Prop :=
  forall i v, rule !! i = Some v ->
    exists h ps d, T !! i = Some (ExprVar h ps) /\ v = Some d /\ in_heap T d /\ rw_ok d /\
      Exprs.sort d = h_sort h.

Section subst.
Context {L : Layout} (T : gmap objid Expr) (w : World) (rule : ExprMap).
Hypothesis Hheap : heap_ok T w.
Hypothesis Hrule : rule_ok T rule.

Lemma subst_env_ok ρ : env_ok ρ -> env_ok (subst_env rule ρ).
Proof using Hrule.
  intros Hρ. split; cbn; intros; [|by apply Hρ..].
  destruct (rule !! h_id h) as [[d|]|] eqn:E; [|by apply Hρ..].
  case_decide as Hs; [|by apply Hρ].
  destruct (Hrule _ _ E) as (h' & ps & d' & _ & [= <-] & _ & [Hw _] & _).
  destruct (eval_sound _ _ Hρ Hw) as (v & -> & Hv). cbn. by rewrite <- Hs.
Qed.

Lemma EnvTr_subst : EnvTr (subst_env rule).
Proof using Hrule. split; [apply subst_env_ok|done..]. Qed.

Lemma rule_table : table_ok (subst_env rule) T rule.
Proof using Hheap Hrule.
  intros i v Hv. destruct (Hrule _ _ Hv) as (h & ps & d & HT & -> & Hd & Hok & Hs).
  exists (ExprVar h ps), d. split_and!; [done..| |done]. split; [done..|].
  intros ρ Hρ. destruct (Hheap _ _ HT) as (Hid & _). cbn in Hid. cbn. unfold Exprs.id in Hid.
  cbn in Hid. rewrite Hid, Hv, decide_True by done.
  destruct Hok as [Hw _]. by destruct (eval_sound _ _ Hρ Hw) as (x & -> & _).
Qed.

Lemma rule_leaf h ρ : rule !! h_id h = None -> ev_var (subst_env rule ρ) h = ev_var ρ h.
Proof using Type. intros H. cbn. by rewrite H. Qed.

Lemma Rewrite_run e : in_heap T e -> rw_ok e ->
  exists d w' T', Rewrite (Some e) rule w = Ok (d, w') /\ grows T w T' w' /\ in_heap T' d /\
    same (subst_env rule) e d.
Proof using Hheap Hrule.
  intros He Hok. pose proof EnvTr_subst as Htr.
  destruct (visit_ok (subst_env rule) RewriteOp rule rule_leaf e T w rule)
    as (r & w' & T' & E & [Hg Ht Hs Hd _]); [done..|by apply rule_table|done|].
  apply Forall_inv in Hd. assert (He' : in_heap T' e) by by eapply grows_heap.
  destruct (table_entry _ _ _ _ Ht He' Hd) as (d & Hr & Hsame & Hin).
  exists d, w', T'. split; [|done]. unfold Rewrite.
  change (assert_ (is_some (Some e)) ≫= ?k) with (k tt).
  change (lift (deref (Some e)) ≫= ?k) with (k e). cbn beta.
  rewrite (ST_bind_run _ _ _ _ _ E). rewrite (lift_bind_run _ _ _ (Some d)); [done|].
  unfold get. by rewrite Hr.
Qed.

(** C15.  Rewriting is substitution.  On an expression of the heap that is
    well-sorted and free of the operators [RewriteOp] has no case for,
    [absknob::Rewrite] succeeds; the copy is well-sorted, has the sort of the
    original, lives in an extension of the heap in which nothing else changed,
    and its value in any environment is the value of the original in the
    environment where the replaced variables have the values of their
    replacements. *)
Theorem Rewrite_correct e : in_heap T e -> wt e = true -> rewritable e = true ->
  exists d w' T', Rewrite (Some e) rule w = Ok (d, w') /\ grows T w T' w' /\ in_heap T' d /\
    wt d = true /\ Exprs.sort d = Exprs.sort e /\
    forall ρ, env_ok ρ -> eval ρ d = eval (subst_env rule ρ) e.
Proof using Hheap Hrule.
  intros He Hw Hr. destruct (Rewrite_run e He (conj Hw Hr)) as (d & w' & T' & ?&?&?&[]).
  exists d, w', T'. destruct same_ok0. done.
Qed.

(** The gap in [RewriteOp].  A signed remainder or modulus, however simple
    its operands, cannot be copied: the default case returns null and the
    assertion of [Rewrite] fails. *)
Theorem Rewrite_unsupported e op h args ps :
  e = ExprOp h op None args ps -> op = kSignedRemainder \/ op = kSignedModular ->
  in_heap T e -> Forall rw_ok args -> rule !! Exprs.id e = None ->
  Rewrite (Some e) rule w = Fail EAssert.
Proof using Hheap Hrule.
  intros -> Hop He Hok Hn. set (e := ExprOp h op None args ps) in *.
  pose proof EnvTr_subst as Htr.
  destruct (visit_args (subst_env rule) RewriteOp rule (pred (size e)) args T w rule)
    as (r1 & w1 & T1 & E1 & [G1 Ht1 Hs1 Hd1 Hnew1]);
    [|done|by apply (heap_args _ _ _ Hheap He)|done|by apply rule_table|done|].
  { intros a Ha. split; [pose proof (size_arg e a Ha); lia|].
    apply (visit_ok (subst_env rule) RewriteOp rule rule_leaf). }
  assert (He1 : in_heap T1 e) by by eapply grows_heap.
  assert (Hn1 : r1 !! Exprs.id e = None).
  { apply eq_None_not_Some. intros Hi. destruct (Hnew1 _ Hi) as [[? ?]|(x & Hx & Hlt)]; [congruence|].
    unfold in_heap in He1. assert (x = e) as -> by congruence. cbn in Hlt. lia. }
  assert (Ep : post RewriteOp e r1 w1 = Ok (<[Exprs.id e := None]> r1, w1)).
  { unfold post. rewrite (ST_bind_run _ _ _ None w1) by (by destruct Hop as [-> | ->]).
    by rewrite Hn1. }
  unfold Rewrite. change (assert_ (is_some (Some e)) ≫= ?k) with (k tt).
  change (lift (deref (Some e)) ≫= ?k) with (k e). cbn beta.
  rewrite (ST_bind_run _ _ _ (<[Exprs.id e := None]> r1) w1).
  - rewrite (lift_bind_run _ _ _ None); [done|]. unfold get. by rewrite lookup_insert_eq.
  - rewrite visit_unfold. unfold pre. rewrite Hn. cbn [is_some].
    by rewrite (ST_bind_run _ _ _ _ _ E1).
Qed.
End subst.

(** Concrete heaps, for the witnesses. *)
Definition heap_of (l : list Expr) : gmap objid Expr :=
  list_to_map ((fun e => (Exprs.id e, e)) <$> l).
Lemma heap_of_ok l w : NoDup (Exprs.id <$> l) ->
  Forall (fun e => (Exprs.id e <= counter_ w)%N /\ Forall (in_heap (heap_of l)) (Exprs.args e)) l ->
  heap_ok (heap_of l) w.
Proof.
  intros Hn Hl i e H. apply elem_of_list_to_map_2, list_elem_of_fmap in H as (e' & [= -> ->] & H).
  rewrite Forall_forall in Hl. by destruct (Hl e' H).
Qed.

Module Samples.
Definition var (id : objid) (n : string) (s : Sort) : Expr :=
  ExprVar {| h_id := id; h_name := n; h_host := None; h_sort := s |} [].
Definition op2 (id : objid) (s : Sort) (op : AstUidExprOp) (a b : Expr) : Expr :=
  ExprOp {| h_id := id; h_name := "$"; h_host := None; h_sort := s |} op None [a; b] [].
Definition x := var 1 "x" (SortBv 8).
Definition y := var 2 "y" (SortBv 8).
Definition z := var 3 "z" (SortBv 8).
Definition sum := op2 4 (SortBv 8) kAdd x y.
Definition eq := op2 5 SortBool kEqual sum y.
Definition rem := op2 6 (SortBv 8) kSignedRemainder x y.
Definition heap : gmap objid Expr := heap_of [x; y; z; sum; eq; rem].
(** [x] is replaced by [z]. *)
Definition rule : ExprMap := {[ 1%N := Some z ]}.

Lemma heap_is_ok : heap_ok heap ExprOps.empty_world.
Proof.
  apply heap_of_ok; [apply (bool_decide_unpack _); reflexivity|].
  each; (split; [by apply N.leb_le|vm_compute; each]).
Qed.

Lemma rule_is_ok : rule_ok heap rule.
Proof.
  intros i v H. unfold rule in H. apply lookup_singleton_Some in H as [<- <-].
  exists (Exprs.hdr x), [], z. split_and!; try reflexivity. by split.
Qed.
End Samples.
Import Samples.

Lemma Rewrite_correct_witness :
  let L := layout_id in
  exists d w' T', Rewrite (Some eq) rule ExprOps.empty_world = Ok (d, w') /\
    grows heap ExprOps.empty_world T' w' /\ in_heap T' d /\
    wt d = true /\ Exprs.sort d = SortBool /\
    forall ρ, env_ok ρ -> eval ρ d = eval (subst_env rule ρ) eq.
Proof.
  intros L. exact (Rewrite_correct heap ExprOps.empty_world rule heap_is_ok rule_is_ok eq
                     eq_refl eq_refl eq_refl).
Defined.

Lemma Rewrite_unsupported_witness :
  let L := layout_id in Rewrite (Some rem) rule ExprOps.empty_world = Fail EAssert.
Proof.
  intros L. refine (Rewrite_unsupported heap ExprOps.empty_world rule heap_is_ok rule_is_ok rem
    kSignedRemainder (Exprs.hdr rem) [x; y] [] eq_refl (or_introl eq_refl) eq_refl _ eq_refl).
  by repeat constructor.
Defined.
