(* ===== verification/AbsKnob.v ===== *)
(** * Copying and flattening hierarchies

    The [Dupl*] functions, [CopyIlaTree], [ExtrDeptModl] and [FlattenIla] of
    [src/ila-mngr/u_abs_knob.cc], and the function objects of
    [src/ila-mngr/u_rewrite_ila.cc] that walk the hierarchy for them.
    [VALID_STACK] is not defined in the source: the code it guards is not part of
    the program.

    Loops over the members of the source ILA read them once: the source and the
    ILA that is extended are different objects in every call. *)
From S2P Require Import Prelude Sort Values Container Expr World ExprOp AstHub IlaVars Collect Rewrite.
Local Open Scope Z_scope.

Module absknob.
Import Collect.absknob FuncObjRewrExpr IlaVars.
Section ops.
Context {L : Layout}.

(** [CnstIlaMap]: ILAs to the ILAs made for them. *)
Abbreviation IlaMap := (gmap objid objid).

(** [DuplInp(m, inp)] and [DuplStt(m, stt)]: a variable of the same name and
    sort. *)
Definition DuplInpVar (m : objid) (inp : Expr) : M Expr :=
  assert_ (Exprs.is_var inp);;
  match Exprs.sort inp with
  | SortBool => NewBoolInput m (Exprs.name inp)
  | SortBv w => NewBvInput m (Exprs.name inp) w
  | SortMem aw dw => NewMemInput m (Exprs.name inp) aw dw
  | _ => lift (Fail EAssert)
  end.
Definition DuplSttVar (m : objid) (stt : Expr) : M Expr :=
  assert_ (Exprs.is_var stt);;
  match Exprs.sort stt with
  | SortBool => NewBoolState m (Exprs.name stt)
  | SortBv w => NewBvState m (Exprs.name stt) w
  | SortMem aw dw => NewMemState m (Exprs.name stt) aw dw
  | _ => lift (Fail EAssert)
  end.

(** [expr_map.try_emplace]. *)
Definition try_emplace (e d : Expr) (expr_map : ExprMap) : ExprMap :=
  match expr_map !! Exprs.id e with
  | Some _ => expr_map
  | None => <[Exprs.id e := Some d]> expr_map
  end.

Definition dupl_inp (dst : objid) (inp_src : Expr) (expr_map : ExprMap) : M ExprMap :=
  d ← ila dst;
  inp_dst ← match Ila.find_input d (Exprs.name inp_src) with
            | Some e => mret e
            | None => DuplInpVar dst inp_src
            end;
  mret (try_emplace inp_src inp_dst expr_map).
Definition DuplInp (src dst : objid) (expr_map : ExprMap) : M ExprMap :=
  l ← ila src; foldM (dupl_inp dst) (ExprSet.iter (GetInp l)) expr_map.

Definition dupl_stt (dst : objid) (stt_src : Expr) (expr_map : ExprMap) : M ExprMap :=
  d ← ila dst;
  stt_dst ← match Ila.find_state d (Exprs.name stt_src) with
            | Some e => mret e
            | None => DuplSttVar dst stt_src
            end;
  mret (try_emplace stt_src stt_dst expr_map).
Definition DuplStt (src dst : objid) (expr_map : ExprMap) : M ExprMap :=
  l ← ila src; foldM (dupl_stt dst) (ExprSet.iter (GetStt l)) expr_map.

Definition DuplFetch (src dst : objid) (expr_map : ExprMap) : M (option Expr) :=
  l ← ila src;
  match fetch_ l with
  | None => mret None
  | Some f_src =>
      f_dst ← Rewrite.Rewrite (Some f_src) expr_map; Ila.SetFetch dst (Some f_dst);; mret (Some f_dst)
  end.

Definition DuplValid (src dst : objid) (expr_map : ExprMap) : M (option Expr) :=
  l ← ila src;
  match valid_ l with
  | None => mret None
  | Some v_src =>
      v_dst ← Rewrite.Rewrite (Some v_src) expr_map; Ila.SetValid dst (Some v_dst);; mret (Some v_dst)
  end.

Definition dupl_init (dst : objid) (expr_map : ExprMap) (i_src : Expr) (_ : unit) : M unit :=
  i_dst ← Rewrite.Rewrite (Some i_src) expr_map; Ila.AddInit dst (Some i_dst).
Definition DuplInit (src dst : objid) (expr_map : ExprMap) : M unit :=
  l ← ila src; foldM (dupl_init dst expr_map) (inits_ l) ().

Definition rewrite_update (src dst : objid) (expr_map : ExprMap) (state : string) (_ : unit) : M unit :=
  x ← instr_ src;
  update_dst ← Rewrite.Rewrite (Instrs.update x state) expr_map;
  Instrs.set_update dst state (Some update_dst).
Definition RewriteInstr (src dst : objid) (expr_map : ExprMap) : M unit :=
  x ← instr_ src;
  d_dst ← Rewrite.Rewrite (decode_ x) expr_map;
  Instrs.set_decode dst (Some d_dst);;
  foldM (rewrite_update src dst expr_map) (Instrs.updated_states x) ().

Definition DuplInstr (i_src dst : objid) (expr_map : ExprMap) (ila_map : IlaMap) : M objid :=
  x ← instr_ i_src;
  i_dst ← Ila.NewInstr dst (i_name x);
  RewriteInstr i_src i_dst expr_map;;
  match prog_ x with
  | None => mret i_dst
  | Some p_src =>
      match ila_map !! p_src with
      | Some p_dst => Instrs.set_program i_dst (Some p_dst);; mret i_dst
      | None => lift (Fail EAssert)
      end
  end.

(** Not implemented in the source. *)
Definition DuplInstrSeq (src dst : objid) : M unit := mret ().

(** ** [FuncObjRewrIla] *)
Record Maps := { ila_map_ : IlaMap; expr_map_ : ExprMap }.

Definition get (m : objid) (s : Maps) : M objid :=
  match ila_map_ s !! m with Some d => mret d | None => lift (Fail ECheck) end.

(** [insert({c_src, c_dst})] keeps an entry that is there. *)
Definition map_child (dst : objid) (c_src : objid) (ila_map : IlaMap) : M IlaMap :=
  c ← ila c_src;
  c_dst ← Ila.NewChild dst (l_name c);
  Ila.set_spec c_dst (is_spec_ c);;
  mret (match ila_map !! c_src with Some _ => ila_map | None => <[c_src := c_dst]> ila_map end).

Definition dupl_instr (dst : objid) (s : Maps) (i_src : objid) (_ : unit) : M unit :=
  DuplInstr i_src dst (expr_map_ s) (ila_map_ s);; mret ().

Definition rewr_pre (src : objid) (s : Maps) : M (bool * Maps) :=
  match ila_map_ s !! src with
  | None => lift (Fail EAssert)
  | Some dst =>
      d ← ila dst;
      n ← match parent_ d with
          | Some p => lp ← ila p; mret (Ila.state_num lp)
          | None => mret 0%nat
          end;
      assert_ (Ila.state_num d =? n)%nat;;
      em ← DuplInp src dst (expr_map_ s);
      em ← DuplStt src dst em;
      l ← ila src;
      im ← foldM (map_child dst) (KeyVec.vec_ (childs_ l)) (ila_map_ s);
      DuplFetch src dst em;;
      DuplValid src dst em;;
      DuplInit src dst em;;
      let s := {| ila_map_ := im; expr_map_ := em |} in
      foldM (dupl_instr dst s) (KeyVec.vec_ (instrs_ l)) ();;
      DuplInstrSeq src dst;;
      mret (false, s)
  end.
Definition rewr_post (src : objid) (s : Maps) : M Maps := mret s.

Definition rewr_ila (top : objid) (s : Maps) : M Maps :=
  fun w => Ila.DepthFirstVisitPrePost rewr_pre rewr_post (tree_fuel w) top s w.

Definition CopyIlaTree (src : objid) (dst_name : string) : M objid :=
  dst ← Ila.New dst_name None;
  l ← ila src;
  Ila.set_spec dst (is_spec_ l);;
  rewr_ila src {| ila_map_ := {[src := dst]}; expr_map_ := ∅ |};;
  mret dst.

(** ** [ExtrDeptModl]

    The handlers of its two [try] blocks are not modelled: the checks of the
    library abort, and nothing else in the blocks throws on an expression that a
    constructor built. *)
Definition ExtrDeptModl (instr : objid) (name : string) : M objid :=
  x ← instr_ instr;
  src ← notnull (i_host x);
  dst ← Ila.New name None;
  em ← DuplInp src dst ∅;
  em ← DuplStt src dst em;
  DuplFetch src dst em;;
  DuplValid src dst em;;
  DuplInit src dst em;;
  DuplInstrSeq src dst;;
  let ila_map : IlaMap := {[src := dst]} in
  ila_map ← match prog_ x with
            | None => mret ila_map
            | Some prog_src =>
                lp ← ila prog_src;
                prog_dst ← Ila.NewChild dst (l_name lp);
                let ila_map := match ila_map !! prog_src with
                               | Some _ => ila_map
                               | None => <[prog_src := prog_dst]> ila_map
                               end in
                rewr_ila prog_src {| ila_map_ := ila_map; expr_map_ := em |};;
                mret ila_map
            end;
  DuplInstr instr dst em ila_map;;
  mret dst.

(** ** [FlattenIla] *)
Definition record_vars (top : objid) (a : objid) (s : Maps) : M Maps :=
  if (a =? top)%N then mret s else
  em ← DuplInp a top (expr_map_ s);
  em ← DuplStt a top em;
  DuplInit a top em;;
  mret {| ila_map_ := match ila_map_ s !! a with
                      | Some _ => ila_map_ s
                      | None => <[a := top]> (ila_map_ s)
                      end;
          expr_map_ := em |}.

(** [FuncObjFlatIla]; a valid condition that is not set is replaced by a fresh
    constant that nothing uses. *)
Definition flat_pre (top : objid) (s : Maps) (src : objid) (_ : unit) : M (bool * unit) :=
  if (src =? top)%N then mret (false, ()) else
  match ila_map_ s !! src with
  | None => lift (Fail EAssert)
  | Some dst =>
      l ← ila src;
      match valid_ l with
      | Some _ => mret ()
      | None => asthub.BoolConst true;; mret ()
      end;;
      foldM (dupl_instr dst s) (KeyVec.vec_ (instrs_ l)) ();;
      mret (false, ())
  end.
Definition flat_post (src : objid) (u : unit) : M unit := mret u.

Definition FlattenIla (top : objid) : M unit := fun w =>
  (s ← Ila.DepthFirstVisit (record_vars top) (tree_fuel w) top {| ila_map_ := ∅; expr_map_ := ∅ |};
   Ila.DepthFirstVisitPrePost (flat_pre top s) flat_post (tree_fuel w) top ()) w.
End ops.
End absknob.
