(* ===== verification/AbsKnobSpec.v ===== *)
(** * Copies of hierarchies are faithful

    The specification of [CopyIlaTree]: a copied ILA has the variables of the
    original under their names, and its functions are those of the original with
    each variable replaced by its copy. *)
From S2P Require Import Prelude Sort Values Container Expr World ExprOp AstHub VarContainer IlaVars Collect Rewrite AbsKnob.
Import IlaOk Collect.absknob AbsKnob.absknob IlaVars.IlaVars.

(** ** What an expression depends on *)
Fixpoint vars (e : Expr) : list Expr :=
  match e with
  | ExprVar _ _ => [e]
  | ExprConst _ _ _ => []
  | ExprOp _ _ _ args _ => flat_map vars args
  end.

Lemma vars_arg e a v : a ∈ Exprs.args e -> v ∈ vars a -> v ∈ vars e.
Proof.
  destruct e as [| |h op fn args ps]; cbn; [by intros ?%elem_of_nil..|]. intros Ha Hv.
  apply list_elem_of_In, in_flat_map. exists a. by rewrite <- !list_elem_of_In.
Qed.

Lemma eval_vars ρ ρ' e :
  (forall v, v ∈ vars e -> ev_var ρ (Exprs.hdr v) = ev_var ρ' (Exprs.hdr v)) ->
  (forall f vs, ev_fun ρ f vs = ev_fun ρ' f vs) -> (forall m f, ev_nondet ρ m f = ev_nondet ρ' m f) ->
  eval ρ e = eval ρ' e.
Proof.
  intros Hv Hf Hn. induction e as [h ps|h c ps|h op fn args ps IH] using Expr_ind'; [|done|].
  - cbn. f_equal. apply (Hv (ExprVar h ps)). by left.
  - rewrite !eval_op.
    assert (E : evals ρ args = evals ρ' args).
    { unfold evals. assert (Ha : forall a, a ∈ args -> eval ρ a = eval ρ' a).
      { rewrite Forall_forall in IH. intros a Hin. apply IH; [done|]. intros v Hva. apply Hv.
        by apply (vars_arg (ExprOp h op fn args ps) a). }
      clear -Ha. induction args as [|a l IH]; [done|]. cbn. rewrite (Ha a) by by left.
      by rewrite IH by (intros; apply Ha; by right). }
    rewrite E. destruct (evals ρ' args) as [vs|]; [|done]. cbn. destruct fn; [|done].
    unfold fn_sem. by destruct vs; rewrite ?Hf, ?Hn.
Qed.

(** ** Copies *)
Abbreviation ExprMap := FuncObjRewrExpr.ExprMap.

(** Every variable of the expression has a replacement. *)
Definition covered (em : ExprMap) (e : Expr) : Prop :=
  forall v, v ∈ vars e -> is_Some (em !! Exprs.id v).

(** [d] is [e] with its variables replaced. *)
Definition copy_of (em : ExprMap) (e d : Expr) : Prop :=
  covered em e /\ same (subst_env em) e d.

Lemma subst_env_mono em em' ρ e : em ⊆ em' -> covered em e ->
  eval (subst_env em ρ) e = eval (subst_env em' ρ) e.
Proof.
  intros Hs Hc. apply eval_vars; [|done..]. intros v Hv. destruct (Hc v Hv) as [x Hx]. cbn.
  change (h_id (Exprs.hdr v)) with (Exprs.id v). by rewrite Hx, (lookup_weaken _ _ _ _ Hx Hs).
Qed.

Lemma covered_mono em em' e : em ⊆ em' -> covered em e -> covered em' e.
Proof. intros Hs Hc v [x Hx]%Hc. exists x. by eapply lookup_weaken. Qed.

Lemma copy_of_mono em em' e d : em ⊆ em' -> copy_of em e d -> copy_of em' e d.
Proof.
  intros Hs [Hc [Hok Hsort Hev]]. split; [by eapply covered_mono|]. split; [done..|].
  intros ρ Hρ. rewrite Hev by done. by apply subst_env_mono.
Qed.

Lemma copy_sort em e d : copy_of em e d -> Exprs.sort d = Exprs.sort e.
Proof. intros [_ []]. done. Qed.

(** ** Duplicating the variables *)
Definition find_tbl (st : bool) (l : InstrLvlAbs) (k : string) : option Expr :=
  KeyVec.find (tbl st l) k.

(** The variables of [l] that have a replacement are those of [ld], which has no
    others. *)
Definition partial_copy (em : ExprMap) (l ld : InstrLvlAbs) : Prop :=
  forall st k, match find_tbl st l k with
               | Some e => em !! Exprs.id e = Some <$> find_tbl st ld k
               | None => find_tbl st ld k = None
               end.

(** Every variable of [l] has the variable of that name of [ld] for replacement. *)
Definition tables_copied (em : ExprMap) (l ld : InstrLvlAbs) : Prop :=
  forall st k, match find_tbl st l k with
               | Some e => exists d, find_tbl st ld k = Some d /\ em !! Exprs.id e = Some (Some d)
               | None => find_tbl st ld k = None
               end.

(** Objects other than [d] that existed are as they were. *)
Record ext (d : objid) (T : gmap objid Expr) (w : World) (T' : gmap objid Expr) (w' : World) : Prop := {
  ext_sub : T ⊆ T';
  ext_heap : heap_ok T' w';
  ext_counter : (counter_ w <= counter_ w')%N;
  ext_ilas k : k <> d -> (k <= counter_ w)%N -> w_ilas w' !! k = w_ilas w !! k;
  ext_instrs i : (i <= counter_ w)%N -> w_instrs w' !! i = w_instrs w !! i }.

Lemma ext_refl d T w : heap_ok T w -> ext d T w T w.
Proof. by split. Qed.

Lemma ext_trans d T1 w1 T2 w2 T3 w3 : ext d T1 w1 T2 w2 -> ext d T2 w2 T3 w3 -> ext d T1 w1 T3 w3.
Proof.
  intros [S1 H1 C1 L1 I1] [S2 H2 C2 L2 I2]. split; [by etrans|done|lia|..].
  - intros k Hk Hle. by rewrite L2, L1 by (done || lia).
  - intros i Hle. by rewrite I2, I1 by (done || lia).
Qed.

Lemma grows_ext d T w T' w' : grows T w T' w' -> ext d T w T' w'.
Proof. intros []. split; [done|done|done|by intros; congruence..]. Qed.

(** Only the variable tables differ. *)
Definition same_rest (ld ld' : InstrLvlAbs) : Prop :=
  ld' = Ila.with_states (Ila.with_inputs ld (inputs_ ld')) (states_ ld').

Lemma same_rest_refl ld : same_rest ld ld.
Proof. by destruct ld. Qed.
Lemma same_rest_trans a b c : same_rest a b -> same_rest b c -> same_rest a c.
Proof. unfold same_rest. intros -> ->. by destruct a, c. Qed.

Definition new_var (w : World) (dst : objid) (e : Expr) : Expr :=
  ExprVar {| h_id := (counter_ w + 1)%N; h_name := Exprs.name e; h_host := Some dst;
             h_sort := Exprs.sort e |} [].

Section dupl.
Context {L : Layout}.

Definition DuplVar (st : bool) := if st then DuplSttVar else DuplInpVar.
Definition dupl_var (st : bool) := if st then dupl_stt else dupl_inp.
Definition DuplTbl (st : bool) := if st then DuplStt else DuplInp.
Definition GetTbl (st : bool) := if st then GetStt else GetInp.

Lemma AddTbl_run (st : bool) dst v w ld : Exprs.is_var v = true -> w_ilas w !! dst = Some ld ->
  (forall st, find_tbl st ld (Exprs.name v) = None) ->
  (if st then Ila.AddState else Ila.AddInput) dst (Some v) w =
  Ok ((), set_ila w dst (with_tbl st ld (KeyVec.push_back (tbl st ld) (Exprs.name v) v).2)).
Proof.
  intros Hv Hd Hn. pose proof (Hn true) as H1. pose proof (Hn false) as H2.
  destruct st; unfold Ila.AddState, Ila.AddInput, notnull; rewrite (lift_bind_run _ _ _ v) by done;
    rewrite (update_ila_run _ _ _ _ Hd).
  - by rewrite (proj2 (add_state_ok v ld _) (conj Hv (conj H2 (conj H1 eq_refl)))).
  - by rewrite (proj2 (add_input_ok v ld _) (conj Hv (conj H2 (conj H1 eq_refl)))).
Qed.

Lemma DuplVar_run (st : bool) dst e w ld : Exprs.is_var e = true -> sort_ok (Exprs.sort e) = true ->
  w_ilas w !! dst = Some ld -> (forall st, find_tbl st ld (Exprs.name e) = None) ->
  let v := new_var w dst e in
  DuplVar st dst e w =
  Ok (v, set_ila (ExprOps.bump w) dst
           (with_tbl st ld (KeyVec.push_back (tbl st ld) (Exprs.name e) v).2)).
Proof.
  intros Hv Hs Hd Hn v.
  pose proof (AddTbl_run st dst v (ExprOps.bump w) ld eq_refl Hd Hn) as Ha.
  assert (Hc : forall f : M Expr,
    f w = Ok (ExprVar {| h_id := (counter_ w + 1)%N; h_name := Exprs.name e; h_host := None;
                         h_sort := Exprs.sort e |} [], ExprOps.bump w) ->
    (v ← f; let v := set_host v dst in
     (if st then Ila.AddState else Ila.AddInput) dst (Some v);; mret v) w =
    Ok (v, set_ila (ExprOps.bump w) dst
           (with_tbl st ld (KeyVec.push_back (tbl st ld) (Exprs.name e) v).2))).
  { intros f Hf. rewrite (ST_bind_run _ _ _ _ _ Hf). cbn zeta.
    rewrite (ST_bind_run _ _ _ () _ Ha). done. }
  destruct st; unfold DuplVar, DuplSttVar, DuplInpVar; rewrite Hv; unfold assert_;
    rewrite (lift_bind_run _ _ _ ()) by done;
    destruct (Exprs.sort e) eqn:E; try discriminate Hs; exact (Hc _ eq_refl).
Qed.

Section loop.
Context (l : InstrLvlAbs) (dst : objid) (T0 : gmap objid Expr).
Hypothesis Hl : vars_ok l.
Hypothesis Hvars : forall st e, e ∈ KeyVec.vec_ (tbl st l) -> in_heap T0 e /\ rw_ok e.

Record looping (T : gmap objid Expr) (w : World) (em : ExprMap) (ld : InstrLvlAbs) : Prop := {
  lp_heap : heap_ok T w;
  lp_sub : T0 ⊆ T;
  lp_at : w_ilas w !! dst = Some ld;
  lp_le : (dst <= counter_ w)%N;
  lp_vars : vars_ok ld;
  lp_rule : rule_ok T em;
  lp_part : partial_copy em l ld }.

Record dupl_step (es : list Expr) (T : gmap objid Expr) (w : World) (em : ExprMap) (ld : InstrLvlAbs)
    (T' : gmap objid Expr) (w' : World) (em' : ExprMap) (ld' : InstrLvlAbs) : Prop := {
  ds_ext : ext dst T w T' w';
  ds_sub : em ⊆ em';
  ds_keys i : is_Some (em' !! i) -> is_Some (em !! i) \/ exists e, e ∈ es /\ Exprs.id e = i;
  ds_find st k : is_Some (find_tbl st ld k) -> is_Some (find_tbl st ld' k);
  ds_rest : same_rest ld ld' }.

Lemma dupl_step_refl T w em ld : heap_ok T w -> dupl_step [] T w em ld T w em ld.
Proof using Type. intros. split; [by apply ext_refl|done|by left|done|apply same_rest_refl]. Qed.

Lemma dupl_step_trans es es' T1 w1 em1 ld1 T2 w2 em2 ld2 T3 w3 em3 ld3 :
  dupl_step es T1 w1 em1 ld1 T2 w2 em2 ld2 -> dupl_step es' T2 w2 em2 ld2 T3 w3 em3 ld3 ->
  dupl_step (es ++ es') T1 w1 em1 ld1 T3 w3 em3 ld3.
Proof using Type.
  intros [X1 S1 K1 F1 R1] [X2 S2 K2 F2 R2].
  split; [by eapply ext_trans|by etrans| |auto|by eapply same_rest_trans].
  intros i [[H|(e & He & Hi)]%K1|(e & He & Hi)]%K2; [by left|right; exists e; split; [|done]; apply elem_of_app..]; auto.
Qed.

Lemma tbl_elem st e : e ∈ KeyVec.vec_ (tbl st l) -> find_tbl st l (Exprs.name e) = Some e.
Proof using Hl. intros He. apply elem_find; [|done]. by destruct st; apply Hl. Qed.

Lemma tbl_var st e : e ∈ KeyVec.vec_ (tbl st l) -> Exprs.is_var e = true.
Proof using Hl. intros He. destruct st; [apply (keyed_var _ (ok_states _ Hl))|apply (keyed_var _ (ok_inputs _ Hl))]; done. Qed.

Lemma find_tbl_elem st k e : find_tbl st l k = Some e -> e ∈ KeyVec.vec_ (tbl st l) /\ Exprs.name e = k.
Proof using Hl.
  intros H. split; [by eapply find_elem|]. eapply find_name; [|exact H]. by destruct st; apply Hl.
Qed.

(** A variable of the other table has another name. *)
Lemma tbl_other st e : e ∈ KeyVec.vec_ (tbl st l) -> find_tbl (negb st) l (Exprs.name e) = None.
Proof using Hl.
  intros He%tbl_elem. destruct (ok_disj _ Hl (Exprs.name e)); destruct st; unfold find_tbl, Ila.find_input, Ila.find_state in *; cbn in *;
    congruence || done.
Qed.

(** A variable is in one place only. *)
Lemma tbl_unique st e st' k e' : e ∈ KeyVec.vec_ (tbl st l) -> find_tbl st' l k = Some e' ->
  Exprs.id e' = Exprs.id e -> st' = st /\ k = Exprs.name e /\ e' = e.
Proof using Hl Hvars.
  intros He H Hid. destruct (find_tbl_elem _ _ _ H) as [He' <-].
  destruct (Hvars _ _ He) as [Hh _], (Hvars _ _ He') as [Hh' _]. unfold in_heap in *.
  assert (e' = e) as -> by congruence. split; [|done].
  destruct (decide (st' = st)) as [->|Hst]; [done|]. exfalso.
  pose proof (tbl_other _ _ He). assert (st' = negb st) as -> by by destruct st, st'. congruence.
Qed.

Lemma find_with_tbl st st' ld v k : vars_ok ld -> find_tbl st ld (Exprs.name v) = None ->
  find_tbl st' (with_tbl st ld (KeyVec.push_back (tbl st ld) (Exprs.name v) v).2) k =
  if decide (st' = st /\ k = Exprs.name v) then Some v else find_tbl st' ld k.
Proof using Type.
  intros Hld Hn. unfold find_tbl in *.
  destruct (decide (st' = st)) as [->|Hst].
  - replace (tbl st (with_tbl st ld _)) with (KeyVec.push_back (tbl st ld) (Exprs.name v) v).2 by by destruct st.
    rewrite find_push by (done || by destruct st; apply Hld). apply decide_ext. tauto.
  - rewrite decide_False by tauto. by destruct st, st'.
Qed.

Lemma with_tbl_vars st ld v : vars_ok ld -> Exprs.is_var v = true ->
  (forall st, find_tbl st ld (Exprs.name v) = None) ->
  vars_ok (with_tbl st ld (KeyVec.push_back (tbl st ld) (Exprs.name v) v).2).
Proof using Type.
  intros Hld Hv Hn. pose proof (Hn true). pose proof (Hn false).
  destruct st; [eapply add_state_vars|eapply add_input_vars]; try done;
    [apply add_state_ok|apply add_input_ok]; done.
Qed.

Lemma dupl_var_run st e T w em ld : looping T w em ld -> e ∈ KeyVec.vec_ (tbl st l) ->
  exists T' w' em' ld', dupl_var st dst e em w = Ok (em', w') /\ looping T' w' em' ld' /\
    dupl_step [e] T w em ld T' w' em' ld' /\ is_Some (find_tbl st ld' (Exprs.name e)).
Proof using Hl Hvars.
  intros Hlp He. destruct Hlp as [Hh HT Hd Hle Hld Hrule Hpart].
  pose proof (tbl_elem _ _ He) as Hf. pose proof (Hpart st (Exprs.name e)) as Hp. rewrite Hf in Hp.
  pose proof (Hpart (negb st) (Exprs.name e)) as Hp'. rewrite (tbl_other _ _ He) in Hp'.
  destruct (Hvars _ _ He) as [Hin Hok].
  destruct (find_tbl st ld (Exprs.name e)) as [d|] eqn:Ed.
  - exists T, w, em, ld. split; [|split; [done|split; [|by rewrite Ed]]].
    + cbn in Hp. destruct st; cbn [dupl_var]; unfold dupl_stt, dupl_inp;
        rewrite (ST_bind_run _ _ _ _ _ (ila_run _ _ _ Hd));
        unfold find_tbl, tbl in Ed; unfold Ila.find_state, Ila.find_input; rewrite Ed;
        cbv [mbind ST_bind mret ST_ret]; unfold try_emplace; by rewrite Hp.
    + split; [by apply ext_refl|done|by left|done|apply same_rest_refl].
  - cbn in Hp. assert (Hn : forall st', find_tbl st' ld (Exprs.name e) = None).
    { intros st'. destruct (decide (st' = st)) as [->|Hst]; [done|]. by replace st' with (negb st) by by destruct st, st'. }
    assert (Hso : sort_ok (Exprs.sort e) = true) by (apply wt_sort_ok, Hok).
    pose proof (DuplVar_run st dst e w ld (tbl_var _ _ He) Hso Hd Hn) as Hrun. cbn zeta in Hrun.
    set (v := new_var w dst e) in *. set (ld' := with_tbl st ld _) in *.
    set (w' := set_ila (ExprOps.bump w) dst ld') in *.
    assert (Hg : grows T w (<[Exprs.id v := v]> T) (ExprOps.bump w)) by (apply heap_insert; [done|done|apply Forall_nil_2]).
    assert (Hheap' : heap_ok (<[Exprs.id v := v]> T) w') by apply (grows_ok _ _ _ _ Hg).
    assert (Hem : try_emplace e v em = <[Exprs.id e := Some v]> em) by (unfold try_emplace; by rewrite Hp).
    assert (Hfind : forall st' k, find_tbl st' ld' k =
              if decide (st' = st /\ k = Exprs.name e) then Some v else find_tbl st' ld k).
    { intros. apply (find_with_tbl st st' ld v k Hld Ed). }
    exists (<[Exprs.id v := v]> T), w', (<[Exprs.id e := Some v]> em), ld'. split.
    { destruct st; cbn [dupl_var DuplVar] in *; unfold dupl_stt, dupl_inp;
        rewrite (ST_bind_run _ _ _ _ _ (ila_run _ _ _ Hd));
        unfold find_tbl, tbl in Ed; unfold Ila.find_state, Ila.find_input; rewrite Ed;
        rewrite (ST_bind_run _ _ _ _ _ Hrun); by rewrite Hem. }
    split; [|split].
    + split; [done|etrans; [exact HT|apply Hg]|cbn; apply lookup_insert_eq|cbn; lia
        |by apply (with_tbl_vars st ld v)| |].
      * intros i x. rewrite lookup_insert_Some. intros [[<- <-]|[_ Hx]].
        -- pose proof (tbl_var _ _ He) as Hev. destruct e as [h ps| |]; try discriminate Hev.
           exists h, ps, v. split; [eapply lookup_weaken; [exact Hin|etrans; [exact HT|apply Hg]]|].
           split; [done|]. split; [apply lookup_insert_eq|]. split; [by split|done].
        -- destruct (Hrule _ _ Hx) as (h & ps & d & H1 & -> & H2 & H3). exists h, ps, d.
           split; [by eapply lookup_weaken; [|apply Hg]|]. split; [done|].
           split; [eapply lookup_weaken; [exact H2|apply Hg]|done].
      * intros st' k. rewrite Hfind. pose proof (Hpart st' k) as Hpk.
        destruct (find_tbl st' l k) as [e'|] eqn:Ee'.
        -- destruct (decide (Exprs.id e' = Exprs.id e)) as [Hid|Hid].
           ++ destruct (tbl_unique _ _ _ _ _ He Ee' Hid) as (-> & -> & ->).
              rewrite lookup_insert_eq, decide_True by done. done.
           ++ rewrite lookup_insert_ne by done. rewrite decide_False; [done|].
              intros [-> ->]. congruence.
        -- rewrite decide_False; [done|]. intros [-> ->]. congruence.
    + split; [|by apply insert_subseteq| | |by destruct st].
      * split; [apply Hg|done|cbn; lia| |done]. intros k Hk _. cbn. by rewrite lookup_insert_ne.
      * intros i. rewrite lookup_insert_is_Some'. intros [<-|?]; [right; exists e; split; [by left|done]|by left].
      * intros st' k. rewrite Hfind. by case_decide.
    + rewrite Hfind, decide_True by done. by eexists.
Qed.

Lemma dupl_loop st es T w em ld : looping T w em ld -> (forall e, e ∈ es -> e ∈ KeyVec.vec_ (tbl st l)) ->
  exists T' w' em' ld', foldM (dupl_var st dst) es em w = Ok (em', w') /\ looping T' w' em' ld' /\
    dupl_step es T w em ld T' w' em' ld' /\ forall e, e ∈ es -> is_Some (find_tbl st ld' (Exprs.name e)).
Proof using Hl Hvars.
  revert T w em ld. induction es as [|e es IH]; intros T w em ld Hlp Hes.
  - exists T, w, em, ld. split; [done|]. split; [done|]. split; [apply dupl_step_refl; apply Hlp|].
    by intros e ?%elem_of_nil.
  - destruct (dupl_var_run st e T w em ld Hlp) as (T1 & w1 & em1 & ld1 & E1 & Hlp1 & S1 & F1); [apply Hes; by left|].
    destruct (IH T1 w1 em1 ld1 Hlp1) as (T2 & w2 & em2 & ld2 & E2 & Hlp2 & S2 & F2); [intros; apply Hes; by right|].
    exists T2, w2, em2, ld2. split; [cbn [foldM]; by rewrite (ST_bind_run _ _ _ _ _ E1)|].
    split; [done|]. split; [by apply (dupl_step_trans [e] es _ _ _ _ _ _ _ _ _ _ _ _ S1 S2)|].
    intros e' [->|He']%elem_of_cons; [by apply (ds_find _ _ _ _ _ _ _ _ _ S2)|by apply F2].
Qed.

Lemma tbl_ids st : NoDup (ExprSet.ids (KeyVec.vec_ (tbl st l))).
Proof using Hl Hvars.
  assert (Hk : keyed (tbl st l)) by (destruct st; apply Hl).
  pose proof (keyed_NoDup _ Hk) as Hn. unfold ExprSet.ids.
  assert (Hin : forall e, e ∈ KeyVec.vec_ (tbl st l) -> T0 !! Exprs.id e = Some e)
    by (intros e He; by apply (Hvars _ _ He)).
  clear -Hn Hin. induction (KeyVec.vec_ (tbl st l)) as [|e es IH]; [constructor|].
  apply NoDup_cons in Hn as [He Hn]. cbn. apply NoDup_cons. split.
  - intros (e' & Hid & He')%list_elem_of_fmap. apply He.
    assert (e = e') as ->; [|by apply list_elem_of_fmap_2].
    pose proof (Hin e ltac:(by left)) as H1. pose proof (Hin e' ltac:(by right)) as H2. congruence.
  - apply IH; [done|]. intros; apply Hin; by right.
Qed.

(** The set of a table is iterated in some order of the table. *)
Lemma iter_tbl st : ExprSet.iter (GetTbl st l) ≡ₚ KeyVec.vec_ (tbl st l).
Proof using Hl Hvars.
  assert (E : GetTbl st l = KeyVec.vec_ (tbl st l)).
  { pose proof (tbl_ids st) as Hn. destruct st; unfold GetTbl, GetStt, GetInp, InsertStt, InsertInp; cbn [tbl] in *;
      (assert (H : forall es s, NoDup (ExprSet.ids (s ++ es)) -> ExprSet.insert_all es s = s ++ es);
      [|by apply (H _ [])]); clear;
      (induction es as [|e es IH]; intros s Hs; [by rewrite app_nil_r|]);
      change (ExprSet.insert_all (e :: es) s) with (ExprSet.insert_all es (ExprSet.insert e s));
      unfold ExprSet.insert, ExprSet.ids in *; rewrite fmap_app in Hs; cbn in Hs;
      apply NoDup_app in Hs as Hs'; destruct Hs' as (_ & Hd & _);
      (rewrite decide_False by (intros Hi; apply (Hd _ Hi); by left));
      rewrite IH; by rewrite <- ?app_assoc, ?fmap_app. }
  rewrite E. apply ExprSet.iter_perm, tbl_ids.
Qed.

Lemma dupl_tables src T w em ld : looping T w em ld -> w_ilas w !! src = Some l -> src <> dst ->
  (src <= counter_ w)%N ->
  exists em1 w1 T' w' em' ld',
    DuplInp src dst em w = Ok (em1, w1) /\ DuplStt src dst em1 w1 = Ok (em', w') /\
    looping T' w' em' ld' /\ tables_copied em' l ld' /\
    dupl_step (KeyVec.vec_ (inputs_ l) ++ KeyVec.vec_ (states_ l)) T w em ld T' w' em' ld'.
Proof using Hl Hvars.
  intros Hlp Hsrc Hne Hle.
  destruct (dupl_loop false (ExprSet.iter (GetTbl false l)) T w em ld Hlp)
    as (T1 & w1 & em1 & ld1 & E1 & Hlp1 & S1 & F1).
  { intros e. by rewrite iter_tbl. }
  assert (Hsrc1 : w_ilas w1 !! src = Some l)
    by (by rewrite (ext_ilas _ _ _ _ _ (ds_ext _ _ _ _ _ _ _ _ _ S1))).
  destruct (dupl_loop true (ExprSet.iter (GetTbl true l)) T1 w1 em1 ld1 Hlp1)
    as (T2 & w2 & em2 & ld2 & E2 & Hlp2 & S2 & F2).
  { intros e. by rewrite iter_tbl. }
  exists em1, w1, T2, w2, em2, ld2.
  split; [unfold DuplInp; by rewrite (ST_bind_run _ _ _ _ _ (ila_run _ _ _ Hsrc))|].
  split; [unfold DuplStt; by rewrite (ST_bind_run _ _ _ _ _ (ila_run _ _ _ Hsrc1))|].
  split; [done|]. split.
  - intros st k. pose proof (lp_part _ _ _ _ Hlp2 st k) as Hp.
    destruct (find_tbl st l k) as [e|] eqn:Ee; [|done].
    destruct (find_tbl_elem _ _ _ Ee) as [He <-].
    assert (Hs : is_Some (find_tbl st ld2 (Exprs.name e))).
    { destruct st; [apply F2; by rewrite (iter_tbl true)|].
      apply (ds_find _ _ _ _ _ _ _ _ _ S2). apply F1. by rewrite (iter_tbl false). }
    destruct Hs as [d Hd]. exists d. split; [done|]. by rewrite Hp, Hd.
  - pose proof (dupl_step_trans _ _ _ _ _ _ _ _ _ _ _ _ _ _ S1 S2) as [X S K F R].
    split; try done. intros i [Hi|(e & He & Hi)]%K; [by left|right; exists e; split; [|done]].
    apply elem_of_app in He as [He|He]; [rewrite (iter_tbl false) in He|rewrite (iter_tbl true) in He];
      apply elem_of_app; auto.
Qed.
End loop.
End dupl.

(** ** The children *)
Lemma find_push_vec v k : keyed v ->
  KeyVec.find (push_vars KeyVec.empty (KeyVec.vec_ v)) k = KeyVec.find v k.
Proof.
  intros Hv. unfold push_vars. rewrite KeyVec.find_push_all by apply KeyVec.empty_wf. cbn.
  set (l := (fun e => (Exprs.name e, e)) <$> KeyVec.vec_ v).
  destruct (KeyVec.find v k) as [e|] eqn:E.
  - pose proof (find_elem _ _ _ E) as He. pose proof (find_name _ _ _ Hv E) as <-.
    apply Vars.lookup_first_elem.
    + unfold l. rewrite <- list_fmap_compose. by apply keyed_NoDup.
    + unfold l. apply list_elem_of_fmap. by exists e.
  - destruct (KeyVec.lookup_first k l) as [e|] eqn:E'; [|done].
    apply Vars.lookup_first_find in E' as (x & [= -> ->] & Hx)%list_elem_of_fmap.
    by rewrite (elem_find _ _ Hv Hx) in E.
Qed.

Definition kid_rec (ld : InstrLvlAbs) (dst : objid) (lc : InstrLvlAbs) : InstrLvlAbs :=
  Ila.with_is_spec (child_ila ld dst (l_name lc)) (is_spec_ lc).

Lemma find_kid st ld dst lc k : vars_ok ld -> find_tbl st (kid_rec ld dst lc) k = find_tbl st ld k.
Proof. intros [Hi Hs _]. destruct st; by apply find_push_vec. Qed.

Lemma kid_vars ld dst lc : vars_ok ld -> vars_ok (kid_rec ld dst lc).
Proof. intros H. by apply (child_ila_vars ld dst (l_name lc)) in H as []. Qed.

Lemma kid_state_num ld dst lc : vars_ok ld ->
  Ila.state_num (kid_rec ld dst lc) = Ila.state_num ld.
Proof.
  intros [_ Hs _]. unfold Ila.state_num, KeyVec.size. cbn. by rewrite vec_push_vars by by apply keyed_NoDup.
Qed.

(** What the loop over the children knows of a child and its copy. *)
Definition kid (w0 w w' : World) (ld : InstrLvlAbs) (dst c cd : objid) : Prop :=
  exists lc, w_ilas w0 !! c = Some lc /\ w_ilas w' !! cd = Some (kid_rec ld dst lc) /\
    (counter_ w < cd <= counter_ w')%N.

Definition zip_names (w0 : World) (cs ids : list objid) : list (string * objid) :=
  zip_with (fun c i => (l_name (rec_at (w_ilas w0) c), i)) cs ids.

Section childs.
Context (w0 : World) (dst : objid).

Record map_childs_post (cs : list objid) (im : gmap objid objid) (w : World) (ld : InstrLvlAbs)
    (ids : list objid) (im' : gmap objid objid) (w' : World) : Prop := {
  mc_kids : Forall2 (kid w0 w w' ld dst) cs ids;
  mc_nodup : NoDup ids;
  mc_ila : w_ilas w' !! dst =
    Some (Ila.with_childs ld (KeyVec.push_all (childs_ ld) (zip_names w0 cs ids)));
  mc_map : im' = list_to_map (zip cs ids) ∪ im;
  mc_counter : (counter_ w <= counter_ w')%N;
  mc_frame k : k <> dst -> (k <= counter_ w)%N -> w_ilas w' !! k = w_ilas w !! k;
  mc_instrs : w_instrs w' = w_instrs w }.

Lemma map_child_run c im w ld lc : w_ilas w !! dst = Some ld -> vars_ok ld ->
  (dst <= counter_ w)%N -> w_ilas w !! c = Some lc -> im !! c = None ->
  let i := (counter_ w + 1)%N in
  let ld' := Ila.with_childs ld (KeyVec.push_back (childs_ ld) (l_name lc) i).2 in
  map_child dst c im w =
  Ok (<[c := i]> im, {| counter_ := i;
    w_ilas := <[i := kid_rec ld dst lc]> (<[dst := ld']> (<[i := child_ila ld dst (l_name lc)]> (w_ilas w)));
    w_instrs := w_instrs w |}).
Proof using Type.
  intros Hd Hld Hle Hc Him i ld'. unfold map_child.
  rewrite (ST_bind_run _ _ _ _ _ (ila_run _ _ _ Hc)).
  rewrite (ST_bind_run _ _ _ _ _ (NewChild_run w dst (l_name lc) ld Hd ltac:(lia) Hld)).
  unfold Ila.set_spec. set (w1 := Build_World _ _ _).
  assert (Hi : w_ilas w1 !! i = Some (child_ila ld dst (l_name lc)))
    by (cbn; rewrite lookup_insert_ne, lookup_insert_eq by lia; done).
  rewrite (ST_bind_run _ _ _ () (set_ila w1 i (kid_rec ld dst lc)))
    by (by rewrite (update_ila_run _ _ _ _ Hi)).
  by rewrite Him.
Qed.

Lemma map_childs_run cs : forall im w ld, w_ilas w !! dst = Some ld -> vars_ok ld ->
  (dst <= counter_ w)%N -> (counter_ w0 <= counter_ w)%N ->
  (forall c, c ∈ cs -> c <> dst /\ (c <= counter_ w0)%N /\ is_Some (w_ilas w0 !! c) /\
     w_ilas w !! c = w_ilas w0 !! c /\ im !! c = None) -> NoDup cs ->
  exists ids im' w', foldM (map_child dst) cs im w = Ok (im', w') /\
    map_childs_post cs im w ld ids im' w'.
Proof using Type.
  induction cs as [|c cs IH]; intros im w ld Hd Hld Hle Hle0 Hcs Hnd.
  { exists [], im, w. split; [done|]. split; [constructor|constructor| | |done|done|done].
    - rewrite Hd. f_equal. by destruct ld.
    - cbn. by rewrite (left_id_L ∅ _). }
  apply NoDup_cons in Hnd as [Hc Hnd].
  destruct (Hcs c ltac:(by left)) as (Hcd & Hc0 & [lc Hlc] & Hcw & Him). rewrite Hlc in Hcw.
  pose proof (map_child_run c im w ld lc Hd Hld Hle Hcw Him) as E. cbn zeta in E.
  set (i := (counter_ w + 1)%N) in *.
  set (ld1 := Ila.with_childs ld _) in *. set (w1 := Build_World _ _ _) in *.
  assert (Hfr : forall k, k <> dst -> k <> i -> w_ilas w1 !! k = w_ilas w !! k)
    by (intros; cbn; by rewrite !lookup_insert_ne).
  destruct (IH (<[c := i]> im) w1 ld1) as (ids & im' & w' & E' & [Hk Hn Hi Hm Hcnt Hf Hins]).
  - cbn. rewrite lookup_insert_ne, lookup_insert_eq by lia. done.
  - by destruct Hld.
  - cbn. lia.
  - cbn. lia.
  - intros c' Hc'. destruct (Hcs c' ltac:(by right)) as (? & ? & ? & ? & ?).
    split_and!; try done; [rewrite Hfr; [done|done|lia]|]. rewrite lookup_insert_ne; [done|].
    intros ->. done.
  - done.
  - assert (Hiw : w_ilas w' !! i = Some (kid_rec ld dst lc)).
    { rewrite Hf by (cbn; lia). cbn. apply lookup_insert_eq. }
    exists (i :: ids), im', w'. split; [cbn [foldM]; by rewrite (ST_bind_run _ _ _ _ _ E)|].
    split.
    + constructor; [exists lc; split; [done|]; split; [done|cbn in Hcnt; lia]|].
      eapply Forall2_impl; [exact Hk|]. intros a b (la & H1 & H2 & H3). exists la.
      split; [done|]. split; [exact H2|]. cbn in H3. lia.
    + apply NoDup_cons. split; [|done]. intros Hin.
      apply list_elem_of_lookup in Hin as [j Hj].
      destruct (Forall2_lookup_r _ _ _ _ _ Hk Hj) as (a & _ & la & _ & _ & H3). cbn in H3. lia.
    + rewrite Hi. unfold zip_names; cbn. unfold rec_at at 2. by rewrite Hlc.
    + rewrite Hm. cbn. rewrite <- insert_union_l. symmetry. apply insert_union_r.
      apply not_elem_of_list_to_map_1. rewrite fst_zip by (by rewrite (Forall2_length _ _ _ Hk)). done.
    + cbn in Hcnt. lia.
    + intros k Hk1 Hk2. rewrite Hf by (cbn; done || cbn; lia). apply Hfr; [done|lia].
    + by rewrite Hins.
Qed.
End childs.

(** ** The functions of an ILA *)
Lemma rule_ok_mono T T' em : T ⊆ T' -> rule_ok T em -> rule_ok T' em.
Proof.
  intros Hs Hr i v Hi. destruct (Hr i v Hi) as (h & ps & d & H1 & -> & H2 & H3). exists h, ps, d.
  split; [by eapply lookup_weaken|]. split; [done|]. split; [by eapply in_heap_mono|done].
Qed.

(** What the copy needs of an expression. *)
Definition copyable (T0 : gmap objid Expr) (em : ExprMap) (e : Expr) : Prop :=
  in_heap T0 e /\ rw_ok e /\ covered em e.

Section fill.
Context {L : Layout} (dst : objid) (em : ExprMap) (T0 : gmap objid Expr).

Lemma copy_run e T w : heap_ok T w -> T0 ⊆ T -> rule_ok T em -> copyable T0 em e ->
  exists d w' T', Rewrite.Rewrite (Some e) em w = Ok (d, w') /\ grows T w T' w' /\ in_heap T' d /\
    copy_of em e d.
Proof using Type.
  intros Hh HT Hr (Hin & Hok & Hc).
  destruct (Rewrite_run T w em Hh Hr e (in_heap_mono _ _ _ HT Hin) Hok) as (d & w' & T' & E & G & Hd & Hs).
  by exists d, w', T'.
Qed.

(** The copy [ld] at [dst] while it is filled. *)
Record fill (T : gmap objid Expr) (w : World) (ld : InstrLvlAbs) : Prop := {
  fl_heap : heap_ok T w;
  fl_sub : T0 ⊆ T;
  fl_at : w_ilas w !! dst = Some ld;
  fl_le : (dst <= counter_ w)%N;
  fl_rule : rule_ok T em }.

Lemma fill_grows T w T' w' ld : fill T w ld -> grows T w T' w' -> fill T' w' ld.
Proof using Type.
  intros [Hh HT Hd Hl Hr] [Hs Hg Ei _ Hc].
  split; [done|by etrans|by rewrite Ei|lia|by eapply rule_ok_mono].
Qed.

Lemma fill_set T w ld ld' : fill T w ld -> fill T (set_ila w dst ld') ld' /\ ext dst T w T (set_ila w dst ld').
Proof using Type.
  intros [Hh HT Hd Hl Hr]. split; split; try done; cbn; [apply lookup_insert_eq|].
  intros k Hk _. by rewrite lookup_insert_ne.
Qed.

Definition opt_copy : option Expr -> option Expr -> Prop := option_Forall2 (copy_of em).

Section one.
Context (src : objid) (l : InstrLvlAbs).

Lemma field_run (fld : InstrLvlAbs -> option Expr) (upd : InstrLvlAbs -> option Expr -> InstrLvlAbs)
    (set : objid -> option Expr -> M unit) T w ld (ok : Expr -> bool) :
  fill T w ld -> upd ld (fld ld) = ld -> fld ld = None -> w_ilas w !! src = Some l ->
  (forall e, fld l = Some e -> copyable T0 em e /\ ok e = true) ->
  (forall e d, Exprs.sort d = Exprs.sort e -> ok d = ok e) ->
  (forall d w, ok d = true -> w_ilas w !! dst = Some ld -> set dst (Some d) w = Ok ((), set_ila w dst (upd ld (Some d)))) ->
  exists o T' w',
    (l ← ila src;
     match fld l with
     | None => mret None
     | Some f => d ← Rewrite.Rewrite (Some f) em; set dst (Some d);; mret (Some d)
     end) w = Ok (o, w') /\ fill T' w' (upd ld o) /\ ext dst T w T' w' /\ opt_copy (fld l) o.
Proof using Type.
  intros Hf Hid Hnone Hl He Hok Hset. rewrite (ST_bind_run _ _ _ _ _ (ila_run _ _ _ Hl)).
  destruct (fld l) as [e|] eqn:E.
  - destruct (He e eq_refl) as [Hc Hb]. pose proof Hf as [Hh HT Hd _ Hr].
    destruct (copy_run e T w Hh HT Hr Hc) as (d & w1 & T1 & E1 & G & Hin & Hcp).
    pose proof (fill_grows _ _ _ _ _ Hf G) as Hf1.
    destruct (fill_set T1 w1 ld (upd ld (Some d)) Hf1) as [Hf2 Hx].
    exists (Some d), T1, (set_ila w1 dst (upd ld (Some d))). split.
    + rewrite (ST_bind_run _ _ _ _ _ E1). rewrite (ST_bind_run _ _ _ () (set_ila w1 dst (upd ld (Some d)))); [done|].
      apply Hset; [|by destruct Hf1]. rewrite (Hok e); [done|by eapply copy_sort].
    + split; [done|]. split; [by eapply ext_trans; [by apply grows_ext|]|by constructor].
  - exists None, T, w. split; [done|]. split; [by rewrite <- Hnone, Hid|].
    split; [apply ext_refl, Hf|constructor].
Qed.

Lemma DuplFetch_run T w ld : fill T w ld -> fetch_ ld = None -> w_ilas w !! src = Some l ->
  (forall e, fetch_ l = Some e -> copyable T0 em e /\ Exprs.is_bv e 0 = true) ->
  exists o T' w', DuplFetch src dst em w = Ok (o, w') /\ fill T' w' (Ila.with_fetch ld o) /\
    ext dst T w T' w' /\ opt_copy (fetch_ l) o.
Proof using Type.
  intros Hf Hn Hl He.
  apply (field_run fetch_ Ila.with_fetch Ila.SetFetch T w ld (fun e => Exprs.is_bv e 0)); try done.
  - by destruct ld.
  - unfold Exprs.is_bv. by intros e d ->.
  - intros d w1 Hb Hd. unfold Ila.SetFetch. rewrite (ST_bind_run _ _ _ _ _ (ila_run _ _ _ Hd)), Hn.
    unfold assert_. rewrite (lift_bind_run _ _ _ ()) by done. unfold Ila.ForceSetFetch, notnull, assert_.
    rewrite (lift_bind_run _ _ _ d), (lift_bind_run _ _ _ ()) by (by rewrite ?Hb).
    by rewrite (update_ila_run _ _ _ _ Hd).
Qed.

Lemma DuplValid_run T w ld : fill T w ld -> valid_ ld = None -> w_ilas w !! src = Some l ->
  (forall e, valid_ l = Some e -> copyable T0 em e /\ Exprs.is_bool e = true) ->
  exists o T' w', DuplValid src dst em w = Ok (o, w') /\ fill T' w' (Ila.with_valid ld o) /\
    ext dst T w T' w' /\ opt_copy (valid_ l) o.
Proof using Type.
  intros Hf Hn Hl He.
  apply (field_run valid_ Ila.with_valid Ila.SetValid T w ld Exprs.is_bool); try done.
  - by destruct ld.
  - unfold Exprs.is_bool. by intros e d ->.
  - intros d w1 Hb Hd. unfold Ila.SetValid. rewrite (ST_bind_run _ _ _ _ _ (ila_run _ _ _ Hd)), Hn.
    unfold assert_. rewrite (lift_bind_run _ _ _ ()) by done. unfold Ila.ForceSetValid, notnull, assert_.
    rewrite (lift_bind_run _ _ _ d), (lift_bind_run _ _ _ ()) by (by rewrite ?Hb).
    by rewrite (update_ila_run _ _ _ _ Hd).
Qed.

Lemma dupl_init_loop es T w ld : fill T w ld ->
  (forall e, e ∈ es -> copyable T0 em e /\ Exprs.is_bool e = true) ->
  exists ds T' w', foldM (dupl_init dst em) es () w = Ok ((), w') /\
    fill T' w' (Ila.with_inits ld (inits_ ld ++ ds)) /\ ext dst T w T' w' /\ Forall2 (copy_of em) es ds.
Proof using Type.
  revert T w ld. induction es as [|e es IH]; intros T w ld Hf He.
  - exists [], T, w. split; [done|]. split; [rewrite app_nil_r; by destruct ld|].
    split; [apply ext_refl, Hf|constructor].
  - destruct (He e ltac:(by left)) as [Hc Hb]. pose proof Hf as [Hh HT Hd _ Hr].
    destruct (copy_run e T w Hh HT Hr Hc) as (d & w1 & T1 & E1 & G & Hin & Hcp).
    pose proof (fill_grows _ _ _ _ _ Hf G) as Hf1.
    set (ld1 := Ila.with_inits ld (inits_ ld ++ [d])).
    destruct (fill_set T1 w1 ld ld1 Hf1) as [Hf2 Hx].
    destruct (IH T1 (set_ila w1 dst ld1) ld1 Hf2) as (ds & T2 & w2 & E2 & Hf3 & Hx2 & Hds);
      [intros; apply He; by right|].
    exists (d :: ds), T2, w2. split.
    + cbn [foldM]. rewrite (ST_bind_run _ _ _ () (set_ila w1 dst ld1)); [done|]. unfold dupl_init.
      rewrite (ST_bind_run _ _ _ _ _ E1). unfold Ila.AddInit, notnull, assert_.
      rewrite (lift_bind_run _ _ _ d) by done. rewrite (lift_bind_run _ _ _ ()).
      * rewrite (update_ila_run _ _ _ ld); [done|by destruct Hf1].
      * unfold Exprs.is_bool in *. by rewrite (copy_sort _ _ _ Hcp), Hb.
    + split; [subst ld1; cbn in Hf3; by rewrite <- app_assoc in Hf3|]. split; [|by constructor].
      eapply ext_trans; [by apply grows_ext|]. by eapply ext_trans.
Qed.
End one.

(** *** An instruction *)
Definition opt_copy2 : option (option Expr) -> option (option Expr) -> Prop := option_Forall2 opt_copy.

Record instr_ready (x : Instr) : Prop := {
  ir_name : i_name x <> "";
  ir_decode : exists e, decode_ x = Some e /\ copyable T0 em e /\ Exprs.is_bool e = true;
  ir_updates s u : updates_ x !! s = Some u -> exists e, u = Some e /\ copyable T0 em e }.

(** [x'] is the copy of [x] in [dst]; the program is set last. *)
Record instr_copied (x x' : Instr) : Prop := {
  ic_name : i_name x' = i_name x;
  ic_host : i_host x' = Some dst;
  ic_decode : opt_copy (decode_ x) (decode_ x');
  ic_updates s : opt_copy2 (updates_ x !! s) (updates_ x' !! s) }.

(** The state while the instruction [j] is filled from the instruction [i]. *)
Record ifill (i j : objid) (x y : Instr) (T : gmap objid Expr) (w : World) : Prop := {
  if_heap : heap_ok T w;
  if_sub : T0 ⊆ T;
  if_rule : rule_ok T em;
  if_src : w_instrs w !! i = Some x;
  if_ne : i <> j;
  if_at : w_instrs w !! j = Some y }.

Record iext (j : objid) (T : gmap objid Expr) (w : World) (T' : gmap objid Expr) (w' : World) : Prop := {
  ix_sub : T ⊆ T';
  ix_counter : (counter_ w <= counter_ w')%N;
  ix_ilas : w_ilas w' = w_ilas w;
  ix_instrs k : k <> j -> w_instrs w' !! k = w_instrs w !! k }.

Lemma iext_refl j T w : iext j T w T w.
Proof using Type. by split. Qed.
Lemma iext_trans j T1 w1 T2 w2 T3 w3 : iext j T1 w1 T2 w2 -> iext j T2 w2 T3 w3 -> iext j T1 w1 T3 w3.
Proof using Type.
  intros [S1 C1 L1 I1] [S2 C2 L2 I2]. split; [by etrans|lia|congruence|].
  intros k Hk. by rewrite I2, I1.
Qed.

(** Rewrite an expression of the source and store it in the copy. *)
Lemma ifill_step i j x y e (f : Expr -> Instr) (set : Expr -> M unit) T w :
  ifill i j x y T w -> copyable T0 em e ->
  (forall d w, copy_of em e d -> w_instrs w !! j = Some y ->
     set d w = Ok ((), {| counter_ := counter_ w; w_ilas := w_ilas w; w_instrs := <[j := f d]> (w_instrs w) |})) ->
  exists d w' T', (d ← Rewrite.Rewrite (Some e) em; set d) w = Ok ((), w') /\
    ifill i j x (f d) T' w' /\ iext j T w T' w' /\ copy_of em e d.
Proof using Type.
  intros [Hh HT Hr Hx Hne Hy] Hc Hset.
  destruct (copy_run e T w Hh HT Hr Hc) as (d & w1 & T1 & E1 & [Hs Hg El Ei Hcnt] & Hin & Hcp).
  exists d. eexists. exists T1. split; [rewrite (ST_bind_run _ _ _ _ _ E1); apply Hset; [done|by rewrite Ei]|].
  split; [|split; [|done]].
  - split; cbn; [done|by etrans|by eapply rule_ok_mono| |done|apply lookup_insert_eq].
    rewrite lookup_insert_ne by done. by rewrite Ei.
  - split; cbn; [done|done|done|]. intros k Hk. by rewrite lookup_insert_ne, Ei.
Qed.

Lemma put_instr_run j y w : put_instr j y w =
  Ok ((), {| counter_ := counter_ w; w_ilas := w_ilas w; w_instrs := <[j := y]> (w_instrs w) |}).
Proof using Type. done. Qed.

Lemma updates_loop i j x ss : forall y T w, ifill i j x y T w -> NoDup ss ->
  (forall s, s ∈ ss -> s ∈ dom (updates_ x) /\ updates_ y !! s = None) ->
  (forall s u, updates_ x !! s = Some u -> exists e, u = Some e /\ copyable T0 em e) ->
  exists y' w' T', foldM (rewrite_update i j em) ss () w = Ok ((), w') /\
    ifill i j x y' T' w' /\ iext j T w T' w' /\
    (forall s, s ∈ ss -> opt_copy2 (updates_ x !! s) (updates_ y' !! s)) /\
    (forall s, s ∉ ss -> updates_ y' !! s = updates_ y !! s) /\
    y' = Instrs.with_updates y (updates_ y').
Proof using Type.
  induction ss as [|s ss IH]; intros y T w Hf Hnd Hss Hx.
  { exists y, w, T. split; [done|]. split; [done|]. split; [apply iext_refl|].
    split; [by intros s ?%elem_of_nil|]. split; [done|by destruct y]. }
  apply NoDup_cons in Hnd as [Hs Hnd]. destruct (Hss s ltac:(by left)) as [Hin Hy].
  apply elem_of_dom in Hin as [u Hu]. destruct (Hx s u Hu) as (e & -> & Hc).
  set (f d := Instrs.with_updates y (<[s := Some d]> (updates_ y))).
  destruct (ifill_step i j x y e f (fun d => Instrs.set_update j s (Some d)) T w Hf Hc)
    as (d & w1 & T1 & E1 & Hf1 & Hx1 & Hcp).
  { intros d w1 _ Hj. unfold Instrs.set_update. rewrite (ST_bind_run _ _ _ _ _ (instr_run _ _ _ Hj)), Hy.
    unfold Instrs.ForceAddUpdate. by rewrite (ST_bind_run _ _ _ _ _ (instr_run _ _ _ Hj)). }
  destruct (IH (f d) T1 w1 Hf1 Hnd) as (y' & w2 & T2 & E2 & Hf2 & Hx2 & Hr & Hn & Hy'); [|done|].
  { intros s' Hs'. split; [by apply Hss; right|]. cbn. rewrite lookup_insert_ne by by intros ->.
    by apply Hss; right. }
  exists y', w2, T2. split; [|split; [done|split; [by eapply iext_trans|]]].
  - cbn [foldM]. rewrite (ST_bind_run _ _ _ () w1); [done|]. unfold rewrite_update.
    rewrite (ST_bind_run _ _ _ _ _ (instr_run _ _ _ (if_src _ _ _ _ _ _ Hf))).
    unfold Instrs.update. by rewrite Hu.
  - split; [|split].
    + intros s' [->|Hs']%elem_of_cons; [|by apply Hr].
      rewrite Hn by done. cbn. rewrite lookup_insert_eq, Hu. by do 2 constructor.
    + intros s' [Hne Hs']%not_elem_of_cons. rewrite Hn by done. cbn. by rewrite lookup_insert_ne.
    + rewrite Hy'. by destruct y, y'.
Qed.

Lemma RewriteInstr_run i j x T w : instr_ready x ->
  ifill i j x {| i_name := i_name x; i_host := Some dst; decode_ := None; updates_ := ∅; prog_ := None |} T w ->
  exists x' w' T', RewriteInstr i j em w = Ok ((), w') /\ ifill i j x x' T' w' /\ iext j T w T' w' /\
    instr_copied x x' /\ prog_ x' = None.
Proof using Type.
  intros [Hn (e & Hdec & Hc & Hb) Hup] Hf. set (y := {| i_name := _ |}) in Hf.
  destruct (ifill_step i j x y e (fun d => Instrs.with_decode y (Some d))
    (fun d => Instrs.set_decode j (Some d)) T w Hf Hc) as (d & w1 & T1 & E1 & Hf1 & Hx1 & Hcp).
  { intros d w1 Hcp Hj. unfold Instrs.set_decode. rewrite (ST_bind_run _ _ _ _ _ (instr_run _ _ _ Hj)).
    cbn [decode_ y]. unfold Instrs.ForceSetDecode, notnull, check_. rewrite (lift_bind_run _ _ _ d) by done.
    rewrite (lift_bind_run _ _ _ ()).
    - by rewrite (ST_bind_run _ _ _ _ _ (instr_run _ _ _ Hj)).
    - unfold Exprs.is_bool in *. by rewrite (copy_sort _ _ _ Hcp), Hb. }
  set (y1 := Instrs.with_decode y (Some d)) in *.
  assert (Hss : forall s, s ∈ Instrs.updated_states x <-> s ∈ dom (updates_ x)).
  { intros s. unfold Instrs.updated_states. by rewrite (merge_sort_Permutation _ _), elem_of_elements. }
  destruct (updates_loop i j x (Instrs.updated_states x) y1 T1 w1 Hf1)
    as (x' & w2 & T2 & E2 & Hf2 & Hx2 & Hr & Hnr & Hx').
  - unfold Instrs.updated_states. rewrite (merge_sort_Permutation _ _). apply NoDup_elements.
  - intros s Hs. split; [by apply Hss|done].
  - done.
  - exists x', w2, T2. split.
    + unfold RewriteInstr. rewrite (ST_bind_run _ _ _ _ _ (instr_run _ _ _ (if_src _ _ _ _ _ _ Hf))), Hdec.
      apply ST_bind_ok in E1 as (d' & w' & Er & E1). rewrite (ST_bind_run _ _ _ _ _ Er).
      by rewrite (ST_bind_run _ _ _ _ _ E1).
    + split; [done|]. split; [by eapply iext_trans|]. rewrite Hx'. split; [|done].
      split; cbn; [done|done|rewrite Hdec; by constructor|].
      intros s. destruct (decide (s ∈ Instrs.updated_states x)) as [Hs|Hs]; [by apply Hr|].
      rewrite Hnr by done. cbn. rewrite lookup_empty. rewrite Hss in Hs.
      apply not_elem_of_dom in Hs as ->. constructor.
Qed.

(** The copy of an instruction, with its program. *)
Definition instr_at (im : gmap objid objid) (w : World) (x : Instr) (j : objid) : Prop :=
  exists x', w_instrs w !! j = Some x' /\ instr_copied x x' /\
    match prog_ x with
    | Some p => exists d, im !! p = Some d /\ prog_ x' = Some d
    | None => prog_ x' = None
    end.

Definition add_instr (ld : InstrLvlAbs) (name : string) (j : objid) : InstrLvlAbs :=
  Ila.with_instrs ld (KeyVec.push_back (instrs_ ld) name j).2.

Lemma NewInstr_run name ld w : w_ilas w !! dst = Some ld -> name <> "" ->
  let j := (counter_ w + 1)%N in
  Ila.NewInstr dst name w = Ok (j,
    {| counter_ := j; w_ilas := <[dst := add_instr ld name j]> (w_ilas w);
       w_instrs := <[j := {| i_name := name; i_host := Some dst; decode_ := None; updates_ := ∅;
                             prog_ := None |}]> (w_instrs w) |}).
Proof using Type.
  intros Hd Hn j. unfold Ila.NewInstr. rewrite (ST_bind_run _ _ _ _ _ (ila_run _ _ _ Hd)).
  cbn zeta. rewrite (proj2 (String.eqb_neq name "") Hn). unfold Instrs.New, Ila.AddInstr.
  cbv [mbind ST_bind mret ST_ret fresh put_instr modify]. cbn [counter_ w_ilas w_instrs]. fold j.
  unfold instr_ at 1; cbn [w_instrs]. rewrite lookup_insert_eq. cbn [deref mbind Res_bind i_name].
  by rewrite (update_ila_run _ _ _ ld).
Qed.

Lemma DuplInstr_run im i x T w ld : fill T w ld -> w_instrs w !! i = Some x -> (i <= counter_ w)%N ->
  instr_ready x -> (forall p, prog_ x = Some p -> is_Some (im !! p)) ->
  exists T' w', DuplInstr i dst em im w = Ok ((counter_ w + 1)%N, w') /\
    fill T' w' (add_instr ld (i_name x) (counter_ w + 1)%N) /\ ext dst T w T' w' /\
    instr_at im w' x (counter_ w + 1)%N /\ (counter_ w + 1 <= counter_ w')%N.
Proof using Type.
  intros [Hh HT Hd Hle Hr] Hi Hic Hx Hp. set (j := (counter_ w + 1)%N).
  pose proof (NewInstr_run (i_name x) ld w Hd (ir_name _ Hx)) as En. cbn zeta in En. fold j in En.
  set (w1 := Build_World _ _ _) in En. set (ld1 := add_instr ld (i_name x) j) in *.
  destruct (RewriteInstr_run i j x T w1 Hx) as (x' & w2 & T2 & E2 & Hf2 & Hx2 & Hcp & Hpn).
  { split; cbn; [|done|done|by rewrite lookup_insert_ne by lia|lia|apply lookup_insert_eq].
    intros k e Hk. destruct (Hh k e Hk) as (? & ? & ?). split; [done|]. split; [cbn; lia|done]. }
  assert (Hd2 : w_ilas w2 !! dst = Some ld1)
    by (rewrite (ix_ilas _ _ _ _ _ Hx2); cbn; apply lookup_insert_eq).
  assert (Hext : forall w3, w_ilas w3 = w_ilas w2 -> counter_ w3 = counter_ w2 ->
            (forall k, k <> j -> w_instrs w3 !! k = w_instrs w2 !! k) ->
            fill T2 w3 ld1 /\ ext dst T w T2 w3 /\ (j <= counter_ w3)%N).
  { intros w3 El Ec Ei. destruct Hf2 as [Hh2 HT2 Hr2 _ _ _]. destruct Hx2 as [Hs Hc Hl Hin].
    assert (Hh3 : heap_ok T2 w3) by (intros k e Hk; rewrite Ec; by apply Hh2). cbn in Hc.
    split; [|split; [|lia]]; (split; [try done..|]); try done.
    - by rewrite El.
    - lia.
    - lia.
    - intros k Hk _. rewrite El, Hl. cbn. by rewrite lookup_insert_ne.
    - intros k Hk. rewrite Ei, Hin by lia. cbn. by rewrite lookup_insert_ne by lia. }
  destruct (prog_ x) as [p|] eqn:Ep.
  - destruct (Hp p eq_refl) as [pd Hpd].
    set (w3 := {| counter_ := counter_ w2; w_ilas := w_ilas w2;
                  w_instrs := <[j := Instrs.with_prog x' (Some pd)]> (w_instrs w2) |}).
    exists T2, w3. split.
    + unfold DuplInstr. rewrite (ST_bind_run _ _ _ _ _ (instr_run _ _ _ Hi)).
      rewrite (ST_bind_run _ _ _ _ _ En), (ST_bind_run _ _ _ _ _ E2), Ep, Hpd.
      unfold Instrs.set_program.
      assert (Hj : w_instrs w2 !! j = Some x') by apply (if_at _ _ _ _ _ _ Hf2).
      unfold mbind, ST_bind. rewrite (instr_run _ _ _ Hj). unfold assert_, lift. by rewrite Hpn.
    + destruct (Hext w3 eq_refl eq_refl) as (H1 & H2 & H3).
      { intros k Hk. cbn. by rewrite lookup_insert_ne. }
      split; [done|]. split; [done|]. split; [|done]. exists (Instrs.with_prog x' (Some pd)).
      split; [cbn; apply lookup_insert_eq|]. split; [by destruct Hcp|]. rewrite Ep. by exists pd.
  - exists T2, w2. split.
    + unfold DuplInstr. rewrite (ST_bind_run _ _ _ _ _ (instr_run _ _ _ Hi)).
      by rewrite (ST_bind_run _ _ _ _ _ En), (ST_bind_run _ _ _ _ _ E2), Ep.
    + destruct (Hext w2 eq_refl eq_refl) as (H1 & H2 & H3); [done|].
      split; [done|]. split; [done|]. split; [|done]. exists x'. rewrite Ep. split; [by destruct Hf2|done].
Qed.

Lemma instr_at_frame im w w' x j : w_instrs w' !! j = w_instrs w !! j -> instr_at im w x j -> instr_at im w' x j.
Proof using Type. intros E (x' & Hx & H). exists x'. by rewrite E. Qed.

(** The loop over the instructions. *)
Lemma dupl_instrs_run im (nm : objid -> string) is_ : forall T w ld, fill T w ld ->
  (forall i, i ∈ is_ -> (i <= counter_ w)%N /\ exists x, w_instrs w !! i = Some x /\ instr_ready x /\
     i_name x = nm i /\ forall p, prog_ x = Some p -> is_Some (im !! p)) ->
  exists js T' w',
    foldM (dupl_instr dst {| ila_map_ := im; expr_map_ := em |}) is_ () w = Ok ((), w') /\
    fill T' w' (Ila.with_instrs ld (KeyVec.push_all (instrs_ ld)
      (zip_with (fun i j => (nm i, j)) is_ js))) /\
    ext dst T w T' w' /\ NoDup js /\
    Forall2 (fun i j => (counter_ w < j <= counter_ w')%N /\
       forall x, w_instrs w !! i = Some x -> instr_at im w' x j) is_ js.
Proof using Type.
  induction is_ as [|i is_ IH]; intros T w ld Hf His.
  { exists [], T, w. split; [done|]. split; [by destruct ld|]. split; [apply ext_refl, Hf|].
    split; constructor. }
  destruct (His i ltac:(by left)) as (Hi & x & Hx & Hrd & Hnm & Hp).
  destruct (DuplInstr_run im i x T w ld Hf Hx Hi Hrd Hp) as (T1 & w1 & E1 & Hf1 & Hx1 & Hat & Hj).
  set (j := (counter_ w + 1)%N) in *.
  destruct (IH T1 w1 (add_instr ld (i_name x) j) Hf1) as (js & T2 & w2 & E2 & Hf2 & Hx2 & Hnd & Hjs).
  { intros i' Hi'. destruct (His i' ltac:(by right)) as (Hle & x' & Hx' & H). split; [lia|].
    exists x'. by rewrite (ext_instrs _ _ _ _ _ Hx1). }
  exists (j :: js), T2, w2. split.
  { cbn [foldM]. rewrite (ST_bind_run _ _ _ () w1); [done|]. unfold dupl_instr; cbn.
    by rewrite (ST_bind_run _ _ _ _ _ E1). }
  pose proof (ext_counter _ _ _ _ _ Hx2) as Hc2.
  split.
  { unfold add_instr in Hf2. rewrite Hnm in Hf2. exact Hf2. }
  split; [by eapply ext_trans|]. split.
  - apply NoDup_cons. split; [|done]. intros Hin. apply list_elem_of_lookup in Hin as [k Hk].
    destruct (Forall2_lookup_r _ _ _ _ _ Hjs Hk) as (a & _ & H3 & _). lia.
  - constructor.
    + split; [lia|]. intros x' Hx'. simplify_eq. eapply instr_at_frame; [|exact Hat].
      apply (ext_instrs _ _ _ _ _ Hx2). lia.
    + apply Forall2_same_length_lookup_2; [by eapply Forall2_length|]. intros k a b Ha Hb.
      destruct (Forall2_lookup_lr _ _ _ _ _ _ Hjs Ha Hb) as [H1 H2]. split; [lia|]. intros x' Hx'.
      apply H2. rewrite (ext_instrs _ _ _ _ _ Hx1); [done|]. apply His. right. by eapply list_elem_of_lookup_2.
Qed.
End fill.

(** ** The hierarchy that is copied *)
Section tree.
Context {L : Layout} (w0 : World) (T0 : gmap objid Expr) (r : objid) (name : string).
Local Abbreviation W0 := (w_ilas w0).

(** An expression over the variables of an ILA. *)
Definition uses (l : InstrLvlAbs) (e : Expr) : Prop :=
  in_heap T0 e /\ rw_ok e /\ forall v, v ∈ vars e -> exists st, v ∈ KeyVec.vec_ (tbl st l).

Record src_instr (l : InstrLvlAbs) (x : Instr) : Prop := {
  sn_name : i_name x <> "";
  sn_decode : exists e, decode_ x = Some e /\ uses l e /\ Exprs.is_bool e = true;
  sn_updates s u : updates_ x !! s = Some u -> exists e, u = Some e /\ uses l e;
  sn_prog p : prog_ x = Some p -> p ∈ KeyVec.vec_ (childs_ l) }.

Definition instr_name (i : objid) : string := default "" (i_name <$> w_instrs w0 !! i).
Definition ila_name (c : objid) : string := l_name (rec_at W0 c).

(** A well-formed ILA of the hierarchy: its own variables are hosted by it, the
    others are inherited from its parent; its functions are over its variables;
    its children have its variables; names are distinct. *)
Record src_ila (m : objid) (l : InstrLvlAbs) : Prop := {
  si_vars : vars_ok l;
  si_expr st e : e ∈ KeyVec.vec_ (tbl st l) -> in_heap T0 e /\ rw_ok e;
  si_host st e : e ∈ KeyVec.vec_ (tbl st l) -> Exprs.host e = Some m \/
    exists p lp, parent_ l = Some p /\ W0 !! p = Some lp /\ e ∈ KeyVec.vec_ (tbl st lp);
  si_child c : c ∈ KeyVec.vec_ (childs_ l) -> exists lc, W0 !! c = Some lc /\ parent_ lc = Some m /\
    forall st k e, find_tbl st l k = Some e -> find_tbl st lc k = Some e;
  si_child_names : NoDup (ila_name <$> KeyVec.vec_ (childs_ l));
  si_instr_names : NoDup (instr_name <$> KeyVec.vec_ (instrs_ l));
  si_fetch e : fetch_ l = Some e -> uses l e /\ Exprs.is_bv e 0 = true;
  si_valid e : valid_ l = Some e -> uses l e /\ Exprs.is_bool e = true;
  si_inits e : e ∈ inits_ l -> uses l e /\ Exprs.is_bool e = true;
  si_instr i : i ∈ KeyVec.vec_ (instrs_ l) -> (i <= counter_ w0)%N /\
    exists x, w_instrs w0 !! i = Some x /\ src_instr l x }.

Hypothesis Htree : tree_ok w0.
Hypothesis Hroot : exists l, W0 !! r = Some l /\ parent_ l = None.
Hypothesis Hsrc : forall m l, under W0 r m -> W0 !! m = Some l -> src_ila m l.
Hypothesis Hheap : heap_ok T0 w0.

Lemma under_trans a b c : under W0 a b -> under W0 b c -> under W0 a c.
Proof using Type. induction 1 as [|m l c' d Hm Hc _ IH]; [done|]. intros H. eapply under_child; eauto. Qed.

Lemma under_step m l c : W0 !! m = Some l -> c ∈ KeyVec.vec_ (childs_ l) -> under W0 m c.
Proof using Type. intros. eapply under_child; [done..|constructor]. Qed.

Lemma under_le m d : under W0 m d -> (m <= d)%N.
Proof using Htree.
  induction 1 as [|m l c d Hm Hc _ IH]; [done|]. destruct (tree_child _ Htree _ _ _ Hm Hc). lia.
Qed.

Lemma under_some m d : under W0 m d -> is_Some (W0 !! m) -> is_Some (W0 !! d).
Proof using Htree.
  induction 1 as [|m l c d Hm Hc _ IH]; [done|]. intros _. apply IH. by apply (tree_child _ Htree _ _ _ Hm Hc).
Qed.

Lemma under_parent m d : under W0 r m -> under W0 m d ->
  d = m \/ exists p ld, W0 !! d = Some ld /\ parent_ ld = Some p /\ under W0 m p /\ (p < d)%N.
Proof using Hsrc Htree.
  intros Hr Hu. revert Hr. induction Hu as [|m l c d Hm Hc Hu IH]; [by left|]. intros Hr. right.
  destruct (si_child _ _ (Hsrc m l Hr Hm) c Hc) as (lc & Hlc & Hp & _).
  destruct IH as [->|(p & ld & Hd & Hpd & Hup & Hlt)]; [by eapply under_trans, under_step|..].
  - exists m, lc. split; [done|]. split; [done|]. split; [constructor|].
    by apply (tree_child _ Htree _ _ _ Hm Hc).
  - exists p, ld. split; [done|]. split; [done|]. split; [by eapply under_trans; [eapply under_step|]|done].
Qed.

(** The subtrees of two children are disjoint. *)
Lemma under_disjoint m l c1 c2 d : under W0 r m -> W0 !! m = Some l ->
  c1 ∈ KeyVec.vec_ (childs_ l) -> c2 ∈ KeyVec.vec_ (childs_ l) ->
  under W0 c1 d -> under W0 c2 d -> c1 = c2.
Proof using Hsrc Htree.
  intros Hr Hm H1 H2. induction d as [d IH] using (well_founded_induction N.lt_wf_0). intros U1 U2.
  assert (Hc : forall c, c ∈ KeyVec.vec_ (childs_ l) -> under W0 r c /\ (m < c)%N /\
            exists lc, W0 !! c = Some lc /\ parent_ lc = Some m).
  { intros c Hc. split; [by eapply under_trans, under_step|].
    split; [by apply (tree_child _ Htree _ _ _ Hm Hc)|].
    destruct (si_child _ _ (Hsrc m l Hr Hm) c Hc) as (lc & ? & ? & _). by exists lc. }
  destruct (Hc c1 H1) as (R1 & L1 & l1 & W1 & P1), (Hc c2 H2) as (R2 & L2 & l2 & W2 & P2).
  destruct (under_parent c1 d R1 U1) as [->|(p & ld & Hd & Hp & Hup & Hlt)],
           (under_parent c2 _ R2 U2) as [E|(p' & ld' & Hd' & Hp' & Hup' & Hlt')]; simplify_eq.
  - done.
  - pose proof (under_le _ _ Hup'). lia.
  - pose proof (under_le _ _ Hup). lia.
  - by apply (IH p).
Qed.

Lemma under_not_up m l c : W0 !! m = Some l -> c ∈ KeyVec.vec_ (childs_ l) -> ~ under W0 c m.
Proof using Htree.
  intros Hm Hc Hu%under_le. destruct (tree_child _ Htree _ _ _ Hm Hc). lia.
Qed.

(** ** The copy of an ILA *)
Record copied (em : ExprMap) (im : gmap objid objid) (w : World) (m d : objid)
    (l ld : InstrLvlAbs) : Prop := {
  cp_src : W0 !! m = Some l;
  cp_dst : w_ilas w !! d = Some ld;
  cp_tables : tables_copied em l ld;
  cp_vars : vars_ok ld;
  cp_spec : is_spec_ ld = is_spec_ l;
  cp_parent p : parent_ l = Some p ->
    l_name ld = l_name l /\ exists pd, im !! p = Some pd /\ parent_ ld = Some pd;
  cp_root : parent_ l = None -> l_name ld = name /\ parent_ ld = None;
  cp_fetch : opt_copy em (fetch_ l) (fetch_ ld);
  cp_valid : opt_copy em (valid_ l) (valid_ ld);
  cp_inits : Forall2 (copy_of em) (inits_ l) (inits_ ld);
  cp_instrs : Forall2 (fun i j => (j <= counter_ w)%N /\
    forall x, w_instrs w0 !! i = Some x -> instr_at d em im w x j)
    (KeyVec.vec_ (instrs_ l)) (KeyVec.vec_ (instrs_ ld));
  cp_childs : Forall2 (fun c cd => im !! c = Some cd) (KeyVec.vec_ (childs_ l)) (KeyVec.vec_ (childs_ ld)) }.

Lemma opt_copy_mono em em' o o' : em ⊆ em' -> opt_copy em o o' -> opt_copy em' o o'.
Proof using Type. intros Hs. inversion 1; constructor. by eapply copy_of_mono. Qed.

Lemma instr_at_mono em em' im im' w d x j : em ⊆ em' -> im ⊆ im' ->
  instr_at d em im w x j -> instr_at d em' im' w x j.
Proof using Type.
  intros He Hi (x' & Hx & [Hn Hh Hd Hu] & Hp). exists x'. split; [done|]. split.
  - split; [done|done|by eapply opt_copy_mono|]. intros s. specialize (Hu s). unfold opt_copy2 in *.
    inversion Hu; constructor. by eapply opt_copy_mono.
  - destruct (prog_ x); [|done]. destruct Hp as (pd & Hp1 & Hp2). exists pd. split; [exact (lookup_weaken _ _ _ _ Hp1 Hi)|done].
Qed.

Lemma copied_mono em em' im im' w w' m d l ld : em ⊆ em' -> im ⊆ im' ->
  w_ilas w' !! d = w_ilas w !! d -> (counter_ w <= counter_ w')%N ->
  (forall j, (j <= counter_ w)%N -> w_instrs w' !! j = w_instrs w !! j) ->
  copied em im w m d l ld -> copied em' im' w' m d l ld.
Proof using Type.
  intros He Hi Hd Hc Hj []. split; try done.
  - by rewrite Hd.
  - intros st k. specialize (cp_tables0 st k). destruct (find_tbl st l k); [|done].
    destruct cp_tables0 as (x & ? & ?). exists x. split; [done|by eapply lookup_weaken].
  - intros p Hp. destruct (cp_parent0 p Hp) as (? & pd & Hp1 & Hp2). split; [done|]. exists pd.
    split; [exact (lookup_weaken _ _ _ _ Hp1 Hi)|done].
  - by eapply opt_copy_mono.
  - by eapply opt_copy_mono.
  - eapply Forall2_impl; [done|]. intros. by eapply copy_of_mono.
  - eapply Forall2_impl; [done|]. intros i j [Hle Hx]. split; [lia|]. intros x Hx0.
    eapply instr_at_frame; [by apply Hj|]. by eapply instr_at_mono; [..|apply Hx].
  - eapply Forall2_impl; [done|]. intros c cd Hcd. exact (lookup_weaken _ _ _ _ Hcd Hi).
Qed.

(** ** The walk *)
Record stage (T : gmap objid Expr) (em : ExprMap) (w : World) : Prop := {
  sg_heap : heap_ok T w;
  sg_sub : T0 ⊆ T;
  sg_rule : rule_ok T em;
  sg_le : (counter_ w0 <= counter_ w)%N;
  sg_ilas k : (k <= counter_ w0)%N -> w_ilas w !! k = W0 !! k;
  sg_instrs i : (i <= counter_ w0)%N -> w_instrs w !! i = w_instrs w0 !! i }.

Lemma stage_ext d T em w T' em' w' : (counter_ w0 < d)%N -> stage T em w -> ext d T w T' w' ->
  rule_ok T' em' -> stage T' em' w'.
Proof using Type.
  intros Hd [Hh HT Hr Hle Hl Hi] [Hs Hh' Hc El Ei] Hr'. split; [done|by etrans|done|lia|..].
  - intros k Hk. rewrite El by lia. by apply Hl.
  - intros i Hk. rewrite Ei by lia. by apply Hi.
Qed.

(** An ILA that has a copy to fill. *)
Record ready (m d : objid) (l ld : InstrLvlAbs) (em : ExprMap) (im : gmap objid objid) (w : World) : Prop := {
  rd_under : under W0 r m;
  rd_src : W0 !! m = Some l;
  rd_map : im !! m = Some d;
  rd_at : w_ilas w !! d = Some ld;
  rd_lt : (counter_ w0 < d)%N;
  rd_le : (d <= counter_ w)%N;
  rd_part : partial_copy em l ld;
  rd_inh st e p lp : parent_ l = Some p -> W0 !! p = Some lp -> e ∈ KeyVec.vec_ (tbl st lp) ->
    is_Some (em !! Exprs.id e);
  rd_keys i : is_Some (em !! i) -> exists v a, T0 !! i = Some v /\ Exprs.host v = Some a /\ ~ under W0 m a;
  rd_vars : vars_ok ld;
  rd_fetch : fetch_ ld = None;
  rd_valid : valid_ ld = None;
  rd_inits : inits_ ld = [];
  rd_instrs : instrs_ ld = KeyVec.empty;
  rd_childs : childs_ ld = KeyVec.empty;
  rd_spec : is_spec_ ld = is_spec_ l;
  rd_parent : match parent_ l with
    | Some p => l_name ld = l_name l /\ exists pd lpd, im !! p = Some pd /\ parent_ ld = Some pd /\
        pd <> d /\ (pd <= counter_ w)%N /\ w_ilas w !! pd = Some lpd /\ Ila.state_num lpd = Ila.state_num ld
    | None => parent_ ld = None /\ Ila.state_num ld = 0%nat /\ l_name ld = name
    end;
  rd_im m' : under W0 m m' -> m' <> m -> im !! m' = None }.

(** The expressions of a copied table can be copied. *)
Lemma uses_copyable em l ld e : (forall st v, v ∈ KeyVec.vec_ (tbl st l) -> find_tbl st l (Exprs.name v) = Some v) ->
  tables_copied em l ld -> uses l e -> copyable T0 em e.
Proof using Type.
  intros Hl Ht (Hin & Hok & Hv). split; [done|]. split; [done|]. intros v Hvin.
  destruct (Hv v Hvin) as [st Hst]. specialize (Ht st (Exprs.name v)). rewrite (Hl st v Hst) in Ht.
  destruct Ht as (x & _ & Hx). by rewrite Hx.
Qed.

(** Members pushed under different names. *)
Lemma push_all_vec {A} (f : A -> string) (l : list A) (js : list objid) :
  NoDup (f <$> l) -> length js = length l ->
  KeyVec.vec_ (KeyVec.push_all KeyVec.empty (zip_with (fun i j => (f i, j)) l js)) = js.
Proof using Type.
  intros Hn Hlen. rewrite KeyVec.vec_push_all. cbn. rewrite dom_empty_L.
  assert (H : forall (seen : gset string), (forall a, a ∈ l -> f a ∉ seen) ->
    KeyVec.first_of_each seen (zip_with (fun i j => (f i, j)) l js) = js); [|apply H; intros; apply not_elem_of_empty].
  revert js Hlen. induction l as [|a l IH]; intros [|j js] Hlen seen Hs; try done. cbn.
  apply NoDup_cons in Hn as [Ha Hn]. rewrite decide_False by (apply Hs; by left). f_equal.
  apply IH; [done|cbn in Hlen; lia|]. intros b Hb. rewrite not_elem_of_union, not_elem_of_singleton.
  split; [|apply Hs; by right]. intros E. apply Ha. rewrite <- E. by apply list_elem_of_fmap_2.
Qed.

Lemma heap_ok_counter T w w' : heap_ok T w -> (counter_ w <= counter_ w')%N -> heap_ok T w'.
Proof using Type. intros Hh Hc i e Hi. destruct (Hh i e Hi) as (?&?&?). split_and!; [done|lia|done]. Qed.

Record pre_post (m d : objid) (l : InstrLvlAbs) (T : gmap objid Expr) (em : ExprMap)
    (im : gmap objid objid) (w : World) (T' : gmap objid Expr) (em' : ExprMap)
    (im' : gmap objid objid) (w' : World) (ld' : InstrLvlAbs) : Prop := {
  pp_stage : stage T' em' w';
  pp_ext : ext d T w T' w';
  pp_em : em ⊆ em';
  pp_im : im ⊆ im';
  pp_copied : copied em' im' w' m d l ld';
  pp_keys i : is_Some (em' !! i) -> is_Some (em !! i) \/
    exists v, T0 !! i = Some v /\ Exprs.host v = Some m;
  pp_dom x : is_Some (im' !! x) -> is_Some (im !! x) \/ x ∈ KeyVec.vec_ (childs_ l);
  pp_ids : NoDup (KeyVec.vec_ (childs_ ld'));
  pp_kids : Forall2 (fun c cd => (counter_ w < cd)%N /\
      exists lc lcd, ready c cd lc lcd em' im' w') (KeyVec.vec_ (childs_ l)) (KeyVec.vec_ (childs_ ld')) }.

(** A child of a copied ILA is ready when its copy has inherited the variables. *)
Lemma kid_ready m d l ld em im c cd lc w : src_ila m l -> W0 !! m = Some l -> under W0 r m ->
  tables_copied em l ld -> vars_ok ld ->
  (forall i, is_Some (em !! i) -> exists v a, T0 !! i = Some v /\ Exprs.host v = Some a /\
     (a = m \/ ~ under W0 m a)) ->
  c ∈ KeyVec.vec_ (childs_ l) -> W0 !! c = Some lc -> im !! c = Some cd -> im !! m = Some d ->
  (forall m', under W0 c m' -> m' <> c -> im !! m' = None) ->
  (counter_ w0 < cd <= counter_ w)%N -> w_ilas w !! cd = Some (kid_rec ld d lc) ->
  d <> cd -> (d <= counter_ w)%N -> forall lpd, w_ilas w !! d = Some lpd -> Ila.state_num lpd = Ila.state_num ld ->
  ready c cd lc (kid_rec ld d lc) em im w.
Proof using Hsrc Htree.
  intros Hs Hm Hu Ht Hv Hk Hc Hlc Hic Him Hun Hcd Hat Hne Hle lpd Hpd Hnum.
  destruct (si_child _ _ Hs c Hc) as (lc' & Hlc' & Hpar & Hinh). simplify_eq.
  assert (Huc : under W0 r c) by by eapply under_trans, under_step.
  pose proof (Hsrc c lc Huc Hlc) as Hsc.
  split; try done; try lia.
  - (* tables *) intros st k. rewrite find_kid by done. specialize (Ht st k).
    destruct (find_tbl st l k) as [e|] eqn:Ee.
    + rewrite (Hinh _ _ _ Ee). destruct Ht as (x & -> & Hx). done.
    + rewrite Ht. destruct (find_tbl st lc k) as [e|] eqn:Ec; [|done]. cbn.
      apply eq_None_not_Some. intros (v & a & Hva & Hha & Hna)%Hk.
      destruct (find_tbl_elem lc (si_vars _ _ Hsc) _ _ _ Ec) as [Hin <-].
      destruct (si_expr _ _ Hsc _ _ Hin) as [Hheape _]. unfold in_heap in Hheape. simplify_eq.
      destruct (si_host _ _ Hsc _ _ Hin) as [Hh|(p & lp & Hp & Hlp & Hinp)].
      * rewrite Hha in Hh. injection Hh as ->. destruct Hna as [->|Hna].
        -- exfalso. apply (under_not_up _ _ _ Hm Hc). constructor.
        -- apply Hna. by eapply under_step.
      * rewrite Hpar in Hp. injection Hp as <-. simplify_eq.
        pose proof (tbl_elem l (si_vars _ _ Hs) _ _ Hinp). congruence.
  - (* inherited *) intros st e p lp Hp Hlp He. rewrite Hpar in Hp. injection Hp as <-. simplify_eq.
    specialize (Ht st (Exprs.name e)). rewrite (tbl_elem l (si_vars _ _ Hs) _ _ He) in Ht.
    destruct Ht as (x & _ & ->). by eexists.
  - (* keys *) intros i (v & a & Hva & Hha & Hna)%Hk. exists v, a. split; [done|]. split; [done|].
    intros Huca. destruct Hna as [->|Hna]; [exact (under_not_up _ _ _ Hm Hc Huca)|].
    apply Hna. eapply under_trans; [by eapply under_step|done].
  - by apply kid_vars.
  - rewrite Hpar. split; [done|]. exists d, lpd. split; [done|]. split; [done|]. split; [done|].
    split; [done|]. split; [done|]. by rewrite Hnum, kid_state_num.
Qed.

Lemma stage_src T em w m l : stage T em w -> W0 !! m = Some l -> w_ilas w !! m = Some l.
Proof using Htree.
  intros Hs Hm. rewrite (sg_ilas _ _ _ Hs); [done|]. by apply (tree_le _ Htree _ _ Hm).
Qed.

(** The functions of the ILA, filled in one after the other. *)
Lemma fill_run m d l em im T w ld : src_ila m l -> W0 !! m = Some l -> stage T em w ->
  (counter_ w0 < d)%N ->
  fill d em T0 T w ld -> tables_copied em l ld ->
  fetch_ ld = None -> valid_ ld = None -> inits_ ld = [] -> instrs_ ld = KeyVec.empty ->
  (forall p, p ∈ KeyVec.vec_ (childs_ l) -> is_Some (im !! p)) ->
  exists fo ov ds js T' w',
    (DuplFetch m d em;; DuplValid m d em;; DuplInit m d em;;
     foldM (dupl_instr d {| ila_map_ := im; expr_map_ := em |}) (KeyVec.vec_ (instrs_ l)) ();;
     DuplInstrSeq m d;; mret (false, {| ila_map_ := im; expr_map_ := em |})) w =
      Ok ((false, {| ila_map_ := im; expr_map_ := em |}), w') /\
    fill d em T0 T' w' (Ila.with_instrs (Ila.with_inits (Ila.with_valid (Ila.with_fetch ld fo) ov) ds)
      (KeyVec.push_all KeyVec.empty (zip_with (fun i j => (instr_name i, j)) (KeyVec.vec_ (instrs_ l)) js))) /\
    ext d T w T' w' /\ opt_copy em (fetch_ l) fo /\ opt_copy em (valid_ l) ov /\
    Forall2 (copy_of em) (inits_ l) ds /\
    Forall2 (fun i j => (j <= counter_ w')%N /\
      forall x, w_instrs w0 !! i = Some x -> instr_at d em im w' x j) (KeyVec.vec_ (instrs_ l)) js.
Proof using Htree.
  intros Hsrcm Hm Hst Hd Hf Ht Hfn Hvn Hin Hisn Him.
  assert (Hcp : forall e, uses l e -> copyable T0 em e).
  { intros e. apply (uses_copyable em l ld); [|done]. intros st v. apply tbl_elem, Hsrcm. }
  destruct (DuplFetch_run d em T0 m l T w ld Hf Hfn (stage_src _ _ _ _ _ Hst Hm))
    as (fo & T1 & w1 & E1 & F1 & X1 & C1).
  { intros e He. destruct (si_fetch _ _ Hsrcm e He). by split; [apply Hcp|]. }
  pose proof (stage_ext d T em w T1 em w1 Hd Hst X1 (fl_rule _ _ _ _ _ _ F1)) as S1.
  destruct (DuplValid_run d em T0 m l T1 w1 _ F1 Hvn (stage_src _ _ _ _ _ S1 Hm))
    as (ov & T2 & w2 & E2 & F2 & X2 & C2).
  { intros e He. destruct (si_valid _ _ Hsrcm e He). by split; [apply Hcp|]. }
  pose proof (stage_ext d T1 em w1 T2 em w2 Hd S1 X2 (fl_rule _ _ _ _ _ _ F2)) as S2.
  destruct (dupl_init_loop d em T0 (inits_ l) T2 w2 _ F2) as (ds & T3 & w3 & E3 & F3 & X3 & C3).
  { intros e He. destruct (si_inits _ _ Hsrcm e He). by split; [apply Hcp|]. }
  pose proof (stage_ext d T2 em w2 T3 em w3 Hd S2 X3 (fl_rule _ _ _ _ _ _ F3)) as S3.
  destruct (dupl_instrs_run d em T0 im instr_name (KeyVec.vec_ (instrs_ l)) T3 w3 _ F3)
    as (js & T4 & w4 & E4 & F4 & X4 & _ & C4).
  { intros i Hi. destruct (si_instr _ _ Hsrcm i Hi) as (Hle & x & Hx & [Hn He Hu Hp]).
    split; [pose proof (sg_le _ _ _ S3); lia|]. exists x. rewrite (sg_instrs _ _ _ S3) by done.
    split; [done|]. split; [|split; [unfold instr_name; by rewrite Hx|]].
    - split; [done|..].
      + destruct He as (e & ? & ? & ?). exists e. split; [done|]. by split; [apply Hcp|].
      + intros s u Hsu. destruct (Hu s u Hsu) as (e & ? & ?). exists e. by split; [|apply Hcp].
    - intros p Hpp. by apply Him, Hp. }
  exists fo, ov, ds, js, T4, w4. split; [|split].
  - rewrite (ST_bind_run _ _ _ _ _ E1), (ST_bind_run _ _ _ _ _ E2).
    unfold DuplInit. rewrite (ST_bind_run _ _ _ () w3)
      by by rewrite (ST_bind_run _ _ _ _ _ (ila_run _ _ _ (stage_src _ _ _ _ _ S2 Hm))).
    by rewrite (ST_bind_run _ _ _ _ _ E4).
  - cbn in F4. rewrite Hisn, Hin in F4. exact F4.
  - split; [eapply ext_trans; [exact X1|]; eapply ext_trans; [exact X2|]; by eapply ext_trans|].
    do 3 (split; [done|]). apply Forall2_same_length_lookup_2; [by eapply Forall2_length|].
    intros k i j Hi Hj. destruct (Forall2_lookup_lr _ _ _ _ _ _ C4 Hi Hj) as [H1 H2]. split; [lia|].
    intros x Hx. apply H2. rewrite (sg_instrs _ _ _ S3); [done|].
    apply (si_instr _ _ Hsrcm). by eapply list_elem_of_lookup_2.
Qed.

Lemma rewr_pre_run m d l ld T em im w : stage T em w -> ready m d l ld em im w ->
  exists T' em' im' w' ld',
    rewr_pre m {| ila_map_ := im; expr_map_ := em |} w =
      Ok ((false, {| ila_map_ := im'; expr_map_ := em' |}), w') /\
    pre_post m d l T em im w T' em' im' w' ld'.
Proof using Hsrc Htree.
  intros Hst Hr. pose proof Hr as [Hu Hm Him Hd Hlt Hle Hpart Hinh Hkeys Hv Hfe Hva Hini Hins Hch Hsp Hpar Hun].
  pose proof (Hsrc m l Hu Hm) as Hsm. pose proof (si_vars _ _ Hsm) as Hl.
  pose proof (tree_le _ Htree _ _ Hm) as Hm0.
  (* the variables *)
  assert (Hlp : looping l d T0 T w em ld) by (destruct Hst; by split).
  destruct (dupl_tables l d T0 Hl (si_expr _ _ Hsm) m T w em ld Hlp (stage_src _ _ _ _ _ Hst Hm))
    as (em1 & w1 & T2 & w2 & em2 & ld2 & E1 & E2 & Hlp2 & Ht2 & [X2 Sub2 K2 _ R2]); [lia..|].
  assert (HR : fetch_ ld2 = None /\ valid_ ld2 = None /\ inits_ ld2 = [] /\ instrs_ ld2 = KeyVec.empty /\
    childs_ ld2 = KeyVec.empty /\ is_spec_ ld2 = is_spec_ l /\ l_name ld2 = l_name ld /\ parent_ ld2 = parent_ ld)
    by (rewrite R2; by repeat split).
  clear R2. destruct HR as (B1 & B2 & B3 & B4 & B5 & B6 & B7 & B8).
  pose proof (stage_ext d T em w T2 em2 w2 Hlt Hst X2 (lp_rule _ _ _ _ _ _ _ Hlp2)) as S2.
  pose proof (lp_vars _ _ _ _ _ _ _ Hlp2) as Hv2. pose proof (lp_le _ _ _ _ _ _ _ Hlp2) as Hle2.
  assert (Hkeys2 : forall i, is_Some (em2 !! i) -> is_Some (em !! i) \/
            exists v, T0 !! i = Some v /\ Exprs.host v = Some m).
  { intros i [Hi|(e & He & <-)]%K2; [by left|].
    assert (Hst' : exists st, e ∈ KeyVec.vec_ (tbl st l))
      by (apply elem_of_app in He as [?|?]; [by exists false|by exists true]).
    destruct Hst' as [st Hin]. destruct (si_expr _ _ Hsm _ _ Hin) as [Hh _].
    destruct (si_host _ _ Hsm _ _ Hin) as [Hho|(p & lp & Hp & Hwp & Hinp)].
    - right. by exists e.
    - left. by eapply Hinh. }
  (* the children *)
  destruct (map_childs_run w0 d (KeyVec.vec_ (childs_ l)) im w2 ld2)
    as (ids & im' & w3 & E3 & [Hk3 Hn3 Hi3 Hm3 Hc3 Hf3 Hins3]);
    [by destruct Hlp2|done|done|apply S2| |by apply (tree_NoDup _ Htree _ _ Hm)|].
  { intros c Hc. destruct (tree_child _ Htree _ _ _ Hm Hc) as [Hmc [lc Hlc]].
    pose proof (tree_le _ Htree _ _ Hlc). split; [lia|]. split; [done|]. split; [by eexists|].
    split; [by apply (sg_ilas _ _ _ S2)|]. apply Hun; [by eapply under_step|lia]. }
  set (ld3 := Ila.with_childs ld2 _) in Hi3.
  assert (X3 : ext d T2 w2 T2 w3).
  { split; [done|eapply heap_ok_counter; [apply S2|done]|done|done|]. intros. by rewrite Hins3. }
  pose proof (stage_ext d T2 em2 w2 T2 em2 w3 Hlt S2 X3 (sg_rule _ _ _ S2)) as S3.
  assert (Himsub : im ⊆ im').
  { rewrite Hm3. apply map_union_subseteq_r. apply map_disjoint_spec. intros c a b Ha Hb.
    apply elem_of_list_to_map_2, elem_of_zip_l in Ha.
    destruct (tree_child _ Htree _ _ _ Hm Ha). rewrite Hun in Hb; [done|by eapply under_step|lia]. }
  assert (Hlen : length ids = length (KeyVec.vec_ (childs_ l))) by (symmetry; by eapply Forall2_length).
  assert (Himc : Forall2 (fun c cd => im' !! c = Some cd) (KeyVec.vec_ (childs_ l)) ids).
  { apply Forall2_same_length_lookup_2; [done|]. intros k c cd Hc Hcd. rewrite Hm3.
    apply lookup_union_Some_l. apply elem_of_list_to_map_1.
    - rewrite fst_zip by lia. by apply (tree_NoDup _ Htree _ _ Hm).
    - apply list_elem_of_lookup. exists k. by apply lookup_zip_with_Some; exists c, cd. }
  (* the functions *)
  assert (F3 : fill d em2 T0 T2 w3 ld3) by (destruct S3; split; try done; lia).
  assert (Ht3 : tables_copied em2 l ld3) by (intros st k; specialize (Ht2 st k); by destruct st).
  destruct (fill_run m d l em2 im' T2 w3 ld3 Hsm Hm S3 Hlt F3 Ht3 B1 B2 B3 B4)
    as (fo & ov & ds & js & T4 & w4 & E4 & F4 & X4 & C1 & C2 & C3 & C4).
  { intros p Hp. apply list_elem_of_lookup in Hp as [k Hk].
    destruct (Forall2_lookup_l _ _ _ _ _ Himc Hk) as (cd & _ & ->). by eexists. }
  set (ld4 := Ila.with_instrs _ _) in F4. exists T4, em2, im', w4, ld4.
  pose proof (stage_ext d T2 em2 w3 T4 em2 w4 Hlt S3 X4 (fl_rule _ _ _ _ _ _ F4)) as S4.
  assert (Hchv : KeyVec.vec_ (childs_ ld4) = ids).
  { cbn. rewrite B5. apply (push_all_vec ila_name); [by apply (si_child_names _ _ Hsm)|done]. }
  split.
  - (* the run *) unfold rewr_pre. cbn [ila_map_ expr_map_]. rewrite Him.
    rewrite (ST_bind_run _ _ _ _ _ (ila_run _ _ _ Hd)).
    rewrite (ST_bind_run _ _ _ (Ila.state_num ld) w).
    + unfold assert_. rewrite (lift_bind_run _ _ _ ()) by by rewrite Nat.eqb_refl.
      rewrite (ST_bind_run _ _ _ _ _ E1), (ST_bind_run _ _ _ _ _ E2).
      rewrite (ST_bind_run _ _ _ _ _ (ila_run _ _ _ (stage_src _ _ _ _ _ S2 Hm))).
      rewrite (ST_bind_run _ _ _ _ _ E3). exact E4.
    + destruct (parent_ l) as [p|].
      * destruct Hpar as (_ & pd & lpd & _ & -> & _ & _ & Hpd & Hnum).
        rewrite (ST_bind_run _ _ _ _ _ (ila_run _ _ _ Hpd)). by rewrite <- Hnum.
      * destruct Hpar as (-> & -> & _). done.
  - assert (Xall : ext d T w T4 w4) by (eapply ext_trans; [exact X2|]; by eapply ext_trans).
    split; try done.
    + (* the copy *) split; try done.
      * by apply F4.
      * intros st k. specialize (Ht2 st k). by destruct st.
      * by destruct Hv2.
      * intros p Hp. rewrite Hp in Hpar. destruct Hpar as (Hnm & pd & lpd & Hpi & Hpp & _). cbn.
        rewrite B7, B8. split; [done|]. exists pd. split; [|done]. exact (lookup_weaken _ _ _ _ Hpi Himsub).
      * intros Hp. rewrite Hp in Hpar. destruct Hpar as (Hp' & _ & Hnm). cbn. by rewrite B7, B8.
      * cbn. rewrite (push_all_vec instr_name); [done|by apply (si_instr_names _ _ Hsm)|].
        symmetry. by eapply Forall2_length.
      * by rewrite Hchv.
    + intros x. rewrite Hm3. intros [[cd Hx]|Hx]%lookup_union_is_Some; [right|by left].
      by apply elem_of_list_to_map_2, elem_of_zip_l in Hx.
    + by rewrite Hchv.
    + rewrite Hchv. apply Forall2_same_length_lookup_2; [done|]. intros k c cd Hc Hcd.
      destruct (Forall2_lookup_lr _ _ _ _ _ _ Hk3 Hc Hcd) as (lc & Hlc & Hkid & Hcnt).
      pose proof (ext_counter _ _ _ _ _ X2). pose proof (ext_counter _ _ _ _ _ X4).
      split; [lia|]. exists lc, (kid_rec ld2 d lc).
      assert (Hcin : c ∈ KeyVec.vec_ (childs_ l)) by by eapply list_elem_of_lookup_2.
      apply (kid_ready m d l ld2 em2 im' c cd lc w4 Hsm Hm Hu Ht2 Hv2) with (lpd := ld4);
        try done; try lia.
      * intros i [Hi|(v & Hvi & Hho)]%Hkeys2.
        -- destruct (Hkeys i Hi) as (v & a & ? & ? & ?). exists v, a. auto.
        -- exists v, m. auto.
      * by apply (Forall2_lookup_lr _ _ _ _ _ _ Himc Hc Hcd).
      * exact (lookup_weaken _ _ _ _ Him Himsub).
      * intros m' Hum' Hne'. apply eq_None_not_Some. rewrite Hm3. intros [[x Hx]|Hx]%lookup_union_is_Some.
        -- apply elem_of_list_to_map_2, elem_of_zip_l in Hx.
           pose proof (under_disjoint m l c m' m' Hu Hm Hcin Hx Hum' (under_refl _ _)). congruence.
        -- rewrite Hun in Hx; [by destruct Hx| |].
           ++ eapply under_trans; [by eapply under_step|done].
           ++ intros ->. by apply (under_not_up _ _ _ Hm Hcin).
      * rewrite (ext_ilas _ _ _ _ _ X4); [done|lia|lia].
      * by apply F4.
Qed.

(** *** A subtree *)
Record visited (cs ds : list objid) (T : gmap objid Expr) (em : ExprMap) (im : gmap objid objid) (w : World)
    (T' : gmap objid Expr) (em' : ExprMap) (im' : gmap objid objid) (w' : World) : Prop := {
  vt_stage : stage T' em' w';
  vt_sub : T ⊆ T';
  vt_em : em ⊆ em';
  vt_im : im ⊆ im';
  vt_counter : (counter_ w <= counter_ w')%N;
  vt_ilas k : k ∉ ds -> (k <= counter_ w)%N -> w_ilas w' !! k = w_ilas w !! k;
  vt_instrs i : (i <= counter_ w)%N -> w_instrs w' !! i = w_instrs w !! i;
  vt_keys i : is_Some (em' !! i) -> is_Some (em !! i) \/
    exists v c a, c ∈ cs /\ T0 !! i = Some v /\ Exprs.host v = Some a /\ under W0 c a;
  vt_dom x : is_Some (im' !! x) -> is_Some (im !! x) \/ exists c, c ∈ cs /\ under W0 c x;
  vt_copies c m' : c ∈ cs -> under W0 c m' -> exists d' l ld, im' !! m' = Some d' /\
    (d' ∈ ds \/ (counter_ w < d')%N) /\ (d' <= counter_ w')%N /\ copied em' im' w' m' d' l ld }.

Lemma visited_nil T em im w : stage T em w -> visited [] [] T em im w T em im w.
Proof using Type.
  intros Hs. split; try done; [by left..|]. by intros c m' ?%elem_of_nil.
Qed.

(** A child that waits stays ready while a sibling is visited. *)
Lemma ready_mono m d l c1 d1 c cd lc lcd T em im w T' em' im' w' :
  under W0 r m -> W0 !! m = Some l -> c1 ∈ KeyVec.vec_ (childs_ l) -> c ∈ KeyVec.vec_ (childs_ l) ->
  c1 <> c -> cd <> d1 -> d <> d1 -> im !! m = Some d ->
  visited [c1] [d1] T em im w T' em' im' w' ->
  ready c cd lc lcd em im w -> ready c cd lc lcd em' im' w'.
Proof using Hsrc Htree.
  intros Hu Hm Hc1 Hc Hne Hcd Hd Him [_ _ He Hi Hcnt Hf _ Hk Hdom _] Hr.
  destruct Hr as [Ru Rs Rm Ra Rlt Rle Rp Rinh Rk Rv Rfe Rva Rini Rins Rch Rsp Rpar Rim].
  assert (Hdis : forall a, under W0 c1 a -> ~ under W0 c a).
  { intros a H1 H2. by apply Hne, (under_disjoint m l c1 c a). }
  assert (Hold : forall i, is_Some (em' !! i) -> (exists v a, T0 !! i = Some v /\ Exprs.host v = Some a /\ under W0 c a) ->
            is_Some (em !! i)).
  { intros i [Hi'|(v & c' & a & ->%list_elem_of_singleton & Hv & Ha & Hua)]%Hk (v' & a' & Hv' & Ha' & Hua'); [done|].
    simplify_eq. by destruct (Hdis a). }
  split; try done.
  - exact (lookup_weaken _ _ _ _ Rm Hi).
  - rewrite Hf; [done|by rewrite list_elem_of_singleton|done].
  - lia.
  - intros st k. specialize (Rp st k). destruct (find_tbl st lc k) as [e|] eqn:Ee; [|done].
    destruct (find_tbl st lcd k) as [x|]; [exact (lookup_weaken _ _ _ _ Rp He)|]. cbn in Rp |- *.
    apply eq_None_not_Some. intros Hi'.
    pose proof (Hsrc c lc Ru Rs) as Hsc.
    destruct (find_tbl_elem lc (si_vars _ _ Hsc) _ _ _ Ee) as [Hin <-].
    destruct (si_expr _ _ Hsc _ _ Hin) as [Hhe _].
    enough (Hs : is_Some (em !! Exprs.id e)) by (rewrite Rp in Hs; by destruct Hs).
    destruct (si_host _ _ Hsc _ _ Hin) as [Hho|(p & lp & Hp & Hlp & Hinp)].
    + apply Hold; [done|]. exists e, c. split; [done|]. split; [done|constructor].
    + by eapply Rinh.
  - intros st e p lp Hp Hlp He'. destruct (Rinh st e p lp Hp Hlp He') as [x Hx].
    rewrite (lookup_weaken _ _ _ _ Hx He). by eexists.
  - intros i [Hi'|(v & c' & a & ->%list_elem_of_singleton & Hv & Ha & Hua)]%Hk; [by apply Rk|].
    exists v, a. split; [done|]. split; [done|by apply Hdis].
  - destruct (si_child _ _ (Hsrc m l Hu Hm) c Hc) as (lc' & Hlc' & Hparc & _). simplify_eq.
    rewrite Hparc in *. destruct Rpar as (Hnm & pd & lpd & Hp1 & Hp2 & Hp3 & Hp4 & Hp5 & Hp6).
    rewrite Him in Hp1. injection Hp1 as <-. split; [done|]. exists d, lpd.
    split; [exact (lookup_weaken _ _ _ _ Him Hi)|]. split; [done|]. split; [done|]. split; [lia|].
    split; [|done]. rewrite Hf; [done|by rewrite list_elem_of_singleton|done].
  - intros m' Hum' Hne'. apply eq_None_not_Some. intros [Hx|(c' & ->%list_elem_of_singleton & Hx)]%Hdom.
    + rewrite Rim in Hx by done. by destruct Hx.
    + by apply (Hdis m').
Qed.

Lemma visited_cons c d cs ds T1 em1 im1 w1 T2 em2 im2 w2 T3 em3 im3 w3 :
  d ∉ ds -> (forall d', d' ∈ ds -> (d' <= counter_ w1)%N) ->
  visited [c] [d] T1 em1 im1 w1 T2 em2 im2 w2 -> visited cs ds T2 em2 im2 w2 T3 em3 im3 w3 ->
  visited (c :: cs) (d :: ds) T1 em1 im1 w1 T3 em3 im3 w3.
Proof using Type.
  intros Hd Hds V1 V2.
  destruct V1 as [_ HT1 E1 I1 C1 F1 N1 K1 D1 P1], V2 as [S2 HT2 E2 I2 C2 F2 N2 K2 D2 P2].
  split; [done|by etrans|by etrans|by etrans|lia|..].
  - intros k [Hk Hk']%not_elem_of_cons Hle. rewrite F2 by (done || lia). apply F1; [|done].
    by rewrite list_elem_of_singleton.
  - intros i Hi. rewrite N2, N1 by lia. done.
  - intros i [[Hi|(v & c' & a & ->%list_elem_of_singleton & H)]%K1|(v & c' & a & Hc & H)]%K2; [by left|right..].
    + exists v, c, a. split; [by left|done].
    + exists v, c', a. split; [by right|done].
  - intros x [[Hx|(c' & ->%list_elem_of_singleton & H)]%D1|(c' & Hc & H)]%D2; [by left|right..].
    + exists c. split; [by left|done].
    + exists c'. split; [by right|done].
  - intros c' m' [->|Hc]%elem_of_cons Hu.
    + destruct (P1 c m' ltac:(by left) Hu) as (d' & l & ld & Hm & Hdd & Hle & Hcp). exists d', l, ld.
      split; [exact (lookup_weaken _ _ _ _ Hm I2)|].
      split; [destruct Hdd as [->%list_elem_of_singleton|?]; [left; by left|by right]|]. split; [lia|].
      eapply copied_mono; [exact E2|exact I2| |exact C2|exact N2|exact Hcp].
      apply F2; [|done]. destruct Hdd as [->%list_elem_of_singleton|Hlt]; [done|].
      intros Hin%Hds. lia.
    + destruct (P2 c' m' Hc Hu) as (d' & l & ld & Hm & Hdd & Hle & Hcp). exists d', l, ld.
      split; [done|]. split; [|done]. destruct Hdd as [?|?]; [left; by right|right; lia].
Qed.

Local Abbreviation maps em im := {| ila_map_ := im; expr_map_ := em |}.
Local Abbreviation walk n m s := (Ila.DepthFirstVisitPrePost rewr_pre rewr_post n m s).

(** The loop over the children, from the [i]th on. *)
Lemma childs_run n m d l : under W0 r m -> W0 !! m = Some l ->
  (forall c cd lc lcd T em im w, c ∈ KeyVec.vec_ (childs_ l) -> stage T em w -> ready c cd lc lcd em im w ->
     exists T' em' im' w', walk n c (maps em im) w = Ok (maps em' im', w') /\
       visited [c] [cd] T em im w T' em' im' w') ->
  forall cs ds i k T em im w, cs = drop i (KeyVec.vec_ (childs_ l)) -> NoDup cs -> NoDup ds ->
  (Ila.child_num l - i < k)%nat -> (i <= Ila.child_num l)%nat ->
  stage T em w -> im !! m = Some d -> d ∉ ds ->
  Forall2 (fun c cd => exists lc lcd, ready c cd lc lcd em im w) cs ds ->
  exists T' em' im' w', Ila.visit_childs (fun c s => walk n c s) m k i (maps em im) w =
      Ok (maps em' im', w') /\ visited cs ds T em im w T' em' im' w'.
Proof using Hsrc Htree.
  intros Hu Hm IH cs. induction cs as [|c cs IHcs]; intros ds i k T em im w Hcs Hnc Hnd Hk Hi Hst Him Hd Hrd.
  - apply Forall2_nil_inv_l in Hrd as ->. exists T, em, im, w. split; [|by apply visited_nil].
    destruct k as [|k]; [lia|]. cbn [Ila.visit_childs].
    rewrite (ST_bind_run _ _ _ _ _ (ila_run _ _ _ (stage_src _ _ _ _ _ Hst Hm))).
    assert (Hlen : length (drop i (KeyVec.vec_ (childs_ l))) = 0%nat) by by rewrite <- Hcs.
    rewrite length_drop in Hlen. unfold Ila.child_num, KeyVec.size in *.
    by rewrite (proj2 (Nat.eqb_eq _ _)) by lia.
  - apply Forall2_cons_inv_l in Hrd as (cd & ds' & (lc & lcd & Hr1) & Hrd & ->).
    apply NoDup_cons in Hnc as [Hc Hnc], Hnd as [Hcd Hnd]. apply not_elem_of_cons in Hd as [Hd1 Hd].
    assert (Hci : KeyVec.vec_ (childs_ l) !! i = Some c).
    { rewrite <- (Nat.add_0_r i), <- lookup_drop, <- Hcs. done. }
    assert (Hin : c ∈ KeyVec.vec_ (childs_ l)) by by eapply list_elem_of_lookup_2.
    assert (Hcs' : cs = drop (S i) (KeyVec.vec_ (childs_ l))).
    { rewrite (drop_S _ _ _ Hci) in Hcs. by injection Hcs. }
    destruct (IH c cd lc lcd T em im w Hin Hst Hr1) as (T1 & em1 & im1 & w1 & E1 & V1).
    pose proof (lookup_lt_Some _ _ _ Hci) as Hlt. unfold Ila.child_num, KeyVec.size in *.
    destruct k as [|k]; [lia|].
    destruct (IHcs ds' (S i) k T1 em1 im1 w1) as (T2 & em2 & im2 & w2 & E2 & V2); try done; try lia.
    { by apply V1. }
    { exact (lookup_weaken _ _ _ _ Him (vt_im _ _ _ _ _ _ _ _ _ _ V1)). }
    { apply Forall2_same_length_lookup_2; [by eapply Forall2_length|]. intros j c' cd' Hj Hj'.
      destruct (Forall2_lookup_lr _ _ _ _ _ _ Hrd Hj Hj') as (lc' & lcd' & Hr'). exists lc', lcd'.
      eapply (ready_mono m d l c cd c' cd'); try done.
      - rewrite <- (take_drop (S i) (KeyVec.vec_ (childs_ l))), elem_of_app, <- Hcs'. right.
        by eapply list_elem_of_lookup_2.
      - intros ->. apply Hc. by eapply list_elem_of_lookup_2.
      - intros ->. apply Hcd. by eapply list_elem_of_lookup_2. }
    exists T2, em2, im2, w2. split.
    + cbn [Ila.visit_childs]. rewrite (ST_bind_run _ _ _ _ _ (ila_run _ _ _ (stage_src _ _ _ _ _ Hst Hm))).
      unfold Ila.child_num, KeyVec.size. rewrite (proj2 (Nat.eqb_neq _ _)) by lia.
      assert (Hat : KeyVec.at_ (childs_ l) i = Ok c) by (unfold KeyVec.at_; by rewrite Hci).
      rewrite (lift_bind_run _ _ _ _ Hat).
      rewrite (ST_bind_run _ _ _ _ _ E1). exact E2.
    + eapply visited_cons; [done| |exact V1|exact V2]. intros d' Hd'.
      apply list_elem_of_lookup in Hd' as [j Hj].
      destruct (Forall2_lookup_r _ _ _ _ _ Hrd Hj) as (c' & _ & lc' & lcd' & Hr').
      pose proof (rd_le _ _ _ _ _ _ _ Hr'). pose proof (vt_counter _ _ _ _ _ _ _ _ _ _ V1). lia.
Qed.

(** What the visit of an ILA and then of its children gives. *)
Lemma visited_node m d l T em im w T1 em1 im1 w1 ld1 ds T2 em2 im2 w2 :
  (d <= counter_ w)%N -> W0 !! m = Some l -> im !! m = Some d ->
  pre_post m d l T em im w T1 em1 im1 w1 ld1 -> KeyVec.vec_ (childs_ ld1) = ds ->
  visited (KeyVec.vec_ (childs_ l)) ds T1 em1 im1 w1 T2 em2 im2 w2 ->
  visited [m] [d] T em im w T2 em2 im2 w2.
Proof using Type.
  intros Hdw Hm Him [S1 X1 E1 I1 C1 K1 D1 _ Hk] Hds [S2 HT2 E2 I2 Hc2 F2 N2 K2 D2 P2].
  assert (Hnew : forall d', d' ∈ ds -> (counter_ w < d')%N).
  { intros d' Hd'. rewrite <- Hds in Hd'. apply list_elem_of_lookup in Hd' as [j Hj].
    by destruct (Forall2_lookup_r _ _ _ _ _ Hk Hj) as (c' & _ & ? & _). }
  pose proof (ext_counter _ _ _ _ _ X1) as Hc1.
  assert (Hdd : d ∉ ds) by (intros Hin%Hnew; lia).
  split; [done|etrans; [apply X1|done]|by etrans|by etrans|lia|..].
  - intros k Hk' Hle. rewrite list_elem_of_singleton in Hk'. rewrite F2; [by apply (ext_ilas _ _ _ _ _ X1)| |lia].
    intros Hin%Hnew. lia.
  - intros i Hi. rewrite N2, (ext_instrs _ _ _ _ _ X1) by lia. done.
  - intros i [[Hi|(v & Hv & Ha)]%K1|(v & c & a & Hc & Hv & Ha & Hu)]%K2; [by left|right..].
    + exists v, m, m. split; [by left|]. split; [done|]. split; [done|constructor].
    + exists v, m, a. split; [by left|]. split; [done|]. split; [done|]. by eapply under_child.
  - intros x [[Hx|Hx]%D1|(c & Hc & Hu)]%D2; [by left|right; exists m; split; [by left|]..].
    + by eapply under_step.
    + by eapply under_child.
  - intros c m' ->%list_elem_of_singleton Hu. inversion Hu as [|? l' c' ? Hm' Hc' Hu']; subst.
    + exists d, l, ld1. split; [exact (lookup_weaken _ _ _ _ (lookup_weaken _ _ _ _ Him I1) I2)|].
      split; [left; by left|]. split; [lia|].
      eapply copied_mono; [exact E2|exact I2|apply F2; [done|lia]|done|exact N2|exact C1].
    + simplify_eq. destruct (P2 c' m' Hc' Hu') as (d' & l' & ld' & H1 & H2 & H3 & H4). exists d', l', ld'.
      split; [done|]. split; [|done]. right. destruct H2 as [H2|H2]; [by apply Hnew|lia].
Qed.

Lemma walk_run n : forall m d l ld T em im w, (counter_ w0 < m + N.of_nat n)%N ->
  stage T em w -> ready m d l ld em im w ->
  exists T' em' im' w', walk (S n) m (maps em im) w = Ok (maps em' im', w') /\
    visited [m] [d] T em im w T' em' im' w'.
Proof using Hsrc Htree.
  induction n as [|n IH]; intros m d l ld T em im w Hn Hst Hr;
    pose proof (rd_src _ _ _ _ _ _ _ Hr) as Hm; pose proof (tree_le _ Htree _ _ Hm) as Hle; [lia|].
  pose proof (rd_under _ _ _ _ _ _ _ Hr) as Hu.
  destruct (rewr_pre_run m d l ld T em im w Hst Hr) as (T1 & em1 & im1 & w1 & ld1 & E1 & P1).
  pose proof (childs_short w0 Htree m l Hm) as Hshort.
  destruct (childs_run (S n) m d l Hu Hm) with (cs := KeyVec.vec_ (childs_ l))
    (ds := KeyVec.vec_ (childs_ ld1)) (i := 0%nat) (k := S n) (T := T1) (em := em1) (im := im1) (w := w1)
    as (T2 & em2 & im2 & w2 & E2 & V2); try done; try (by apply P1).
  - intros c cd lc lcd T' em' im' w' Hc Hst' Hr'. eapply IH; [|done|done].
    destruct (tree_child _ Htree _ _ _ Hm Hc). lia.
  - by apply (tree_NoDup _ Htree _ _ Hm).
  - unfold Ila.child_num, KeyVec.size. lia.
  - lia.
  - exact (lookup_weaken _ _ _ _ (rd_map _ _ _ _ _ _ _ Hr) (pp_im _ _ _ _ _ _ _ _ _ _ _ _ P1)).
  - intros Hin. apply list_elem_of_lookup in Hin as [j Hj].
    destruct (Forall2_lookup_r _ _ _ _ _ (pp_kids _ _ _ _ _ _ _ _ _ _ _ _ P1) Hj) as (c' & _ & Hlt & _).
    pose proof (rd_le _ _ _ _ _ _ _ Hr). lia.
  - eapply Forall2_impl; [exact (pp_kids _ _ _ _ _ _ _ _ _ _ _ _ P1)|]. by intros c cd [_ H].
  - exists T2, em2, im2, w2. split.
    + change (walk (S (S n)) m (maps em im)) with
        ('(stop, s1) ← rewr_pre m (maps em im);
         if (stop : bool) then mret s1 else
         s2 ← Ila.visit_childs (fun c s => walk (S n) c s) m (S n) 0 s1; rewr_post m s2).
      rewrite (ST_bind_run _ _ _ _ _ E1). cbn beta iota. by rewrite (ST_bind_run _ _ _ _ _ E2).
    + eapply visited_node; [apply Hr|exact Hm|apply Hr|exact P1|done|exact V2].
Qed.

Lemma copy_start l : W0 !! r = Some l ->
  let d := (counter_ w0 + 1)%N in
  let ld := Ila.with_is_spec (IlaOk.nil_ila name None) (is_spec_ l) in
  let w1 := {| counter_ := d; w_ilas := <[d := ld]> W0; w_instrs := w_instrs w0 |} in
  CopyIlaTree r name w0 = ('(_, w') ← rewr_ila r (maps ∅ {[r := d]}) w1; Ok (d, w')) /\
  stage T0 ∅ w1 /\ ready r d l ld ∅ {[r := d]} w1.
Proof using Htree Hroot Hheap Hsrc.
  intros Hr d ld w1. pose proof (tree_le _ Htree _ _ Hr) as Hle.
  destruct Hroot as (l' & Hr' & Hp). simplify_eq.
  assert (Hst : stage T0 ∅ w1).
  { split; cbn [counter_ w_ilas w_instrs w1]; [|done|by intros i v ?%lookup_empty_Some|lia| |done].
    - eapply heap_ok_counter; [exact Hheap|]. cbn. lia.
    - intros k Hk. by rewrite lookup_insert_ne by lia. }
  split; [|split; [exact Hst|]].
  - unfold CopyIlaTree, Ila.New, Ila.set_spec.
    cbv [mbind ST_bind mret ST_ret fresh put_ila modify]. cbn [counter_ w_ilas w_instrs]. fold d.
    unfold ila; cbn [w_ilas]. rewrite lookup_insert_ne by lia. rewrite Hr. cbn [deref mbind Res_bind].
    rewrite (IlaOk.update_ila_run _ _ _ (IlaOk.nil_ila name None)) by apply lookup_insert_eq.
    unfold mbind, Res_bind, set_ila. cbn [counter_ w_ilas w_instrs]. rewrite insert_insert_eq.
    change {| counter_ := d; w_ilas := _; w_instrs := _ |} with w1. reflexivity.
  - assert (Hno : forall st k, find_tbl st ld k = None) by (intros [|] k; done).
    split; try done; try (cbn; lia).
    + constructor.
    + apply lookup_singleton_eq.
    + apply lookup_insert_eq.
    + intros st k. rewrite Hno. by destruct (find_tbl st l k).
    + intros st e p lp ?. congruence.
    + intros i [? ?%lookup_empty_Some]. done.
    + split; [apply IlaOk.keyed_empty..|]. intros k. by left.
    + by rewrite Hp.
    + intros m' _ Hne. by apply lookup_singleton_ne.
Qed.

(** C12.  [CopyIlaTree] copies a hierarchy: it succeeds, changes no object that
    existed, and every ILA below the root has its own copy, related to it by
    [copied]: variables of the same name, kind and sort, the rewritten functions
    (evaluating as the originals on the copied variables), instructions with the
    same name, decode, updates and the copied program, children in the same
    order; the copied root bears the given name. *)
Theorem CopyIlaTree_correct : exists im em w' T',
  CopyIlaTree r name w0 = Ok ((counter_ w0 + 1)%N, w') /\
  im !! r = Some (counter_ w0 + 1)%N /\
  heap_ok T' w' /\ T0 ⊆ T' /\ rule_ok T' em /\
  (forall k, (k <= counter_ w0)%N -> w_ilas w' !! k = W0 !! k) /\
  (forall i, (i <= counter_ w0)%N -> w_instrs w' !! i = w_instrs w0 !! i) /\
  (forall m, is_Some (im !! m) <-> under W0 r m) /\
  forall m, under W0 r m -> exists d l ld, im !! m = Some d /\
    (counter_ w0 < d <= counter_ w')%N /\ copied em im w' m d l ld.
Proof using Htree Hroot Hheap Hsrc.
  destruct Hroot as (l & Hr & _). destruct (copy_start l Hr) as (E & Hst & Hrd).
  destruct (walk_run (S (N.to_nat (counter_ w0 + 1))) _ _ _ _ _ _ _ _ ltac:(lia) Hst Hrd)
    as (T' & em & im & w' & Ew & V).
  assert (Him : im !! r = Some (counter_ w0 + 1)%N).
  { eapply lookup_weaken; [|apply (vt_im _ _ _ _ _ _ _ _ _ _ V)]. apply lookup_singleton_eq. }
  assert (Hall : forall m, under W0 r m -> exists d l ld, im !! m = Some d /\
    (counter_ w0 < d <= counter_ w')%N /\ copied em im w' m d l ld).
  { intros m Hm. destruct (vt_copies _ _ _ _ _ _ _ _ _ _ V r m ltac:(by left) Hm) as (d & lm & ld & H1 & H2 & H3 & H4).
    exists d, lm, ld. split; [done|]. split; [|done]. cbn [counter_] in H2.
    destruct H2 as [->%list_elem_of_singleton|H2]; lia. }
  exists im, em, w', T'. destruct (vt_stage _ _ _ _ _ _ _ _ _ _ V). split_and!; try done.
  - rewrite E. unfold rewr_ila, tree_fuel. cbn [counter_]. rewrite Ew. reflexivity.
  - intros m. split; [|intros (d & ? & ? & ? & _)%Hall; by exists d].
    intros [[d Hd]|(c & ->%list_elem_of_singleton & H)]%(vt_dom _ _ _ _ _ _ _ _ _ _ V); [|done].
    apply lookup_singleton_Some in Hd as [<- _]. constructor.
Qed.
End tree.

(** ** A hierarchy of two ILAs *)
Module CopySample.
Definition var (id host : objid) (n : string) (s : Sort) : Expr :=
  ExprVar {| h_id := id; h_name := n; h_host := Some host; h_sort := s |} [].
Definition x := var 2 1 "x" (SortBv 8).
Definition y := var 4 3 "y" (SortBv 8).
Definition sum := Samples.op2 5 (SortBv 8) kAdd x x.
Definition same_x := Samples.op2 6 SortBool kEqual x x.
Definition same_xy := Samples.op2 7 SortBool kEqual x y.
Definition heap : gmap objid Expr := heap_of [x; y; sum; same_x; same_xy].

Definition inc : Instr :=
  {| i_name := "inc"; i_host := Some 1%N; decode_ := Some same_x;
     updates_ := {[ "x" := Some sum ]}; prog_ := Some 3%N |}.
Definition move : Instr :=
  {| i_name := "move"; i_host := Some 3%N; decode_ := Some same_xy;
     updates_ := {[ "y" := Some x ]}; prog_ := None |}.
Definition tab (l : list Expr) : KeyVec Expr :=
  foldl (fun v e => (KeyVec.push_back v (Exprs.name e) e).2) KeyVec.empty l.
Definition top : InstrLvlAbs :=
  Ila.with_instrs
    (Ila.with_childs (Ila.with_states (IlaOk.nil_ila "top" None) (tab [x]))
      (KeyVec.push_back KeyVec.empty "c" 3%N).2)
    (KeyVec.push_back KeyVec.empty "inc" 8%N).2.
Definition child : InstrLvlAbs :=
  Ila.with_instrs (Ila.with_states (IlaOk.nil_ila "c" (Some 1%N)) (tab [x; y]))
    (KeyVec.push_back KeyVec.empty "move" 9%N).2.
Definition world : World :=
  {| counter_ := 9; w_ilas := {[ 1%N := top; 3%N := child ]};
     w_instrs := {[ 8%N := inc; 9%N := move ]} |}.

Lemma at_world m l : w_ilas world !! m = Some l -> (m = 1%N /\ l = top) \/ (m = 3%N /\ l = child).
Proof. cbn. rewrite lookup_insert_Some, lookup_singleton_Some. intros [[<- <-]|[_ [<- <-]]]; auto. Qed.

Lemma world_tree : tree_ok world.
Proof.
  split.
  - intros m l [[-> ->]|[-> ->]]%at_world; cbn; lia.
  - intros m l c [[-> ->]|[-> ->]]%at_world; [|by intros ?%elem_of_nil].
    intros ->%list_elem_of_singleton. split; [lia|]. by eexists.
  - intros m l [[-> ->]|[-> ->]]%at_world; [apply NoDup_singleton|apply NoDup_nil_2].
Qed.

Lemma copy_heap_ok : heap_ok heap world.
Proof.
  apply heap_of_ok; [apply (bool_decide_unpack _); reflexivity|].
  each; (split; [by apply N.leb_le|vm_compute; each]).
Qed.

Lemma tab_x : IlaOk.keyed (tab [x]).
Proof. apply IlaOk.keyed_push; [apply IlaOk.keyed_empty|done..]. Qed.
Lemma tab_xy : IlaOk.keyed (tab [x; y]).
Proof. apply (IlaOk.keyed_push (tab [x])); [apply tab_x|done..]. Qed.

Lemma own_x e : e ∈ [x] -> e = x.
Proof. by intros ->%list_elem_of_singleton. Qed.
Lemma own_xy e : e ∈ [x; y] -> e = x \/ e = y.
Proof. rewrite elem_of_cons, list_elem_of_singleton. done. Qed.

Lemma uses_x (e : Expr) : in_heap heap e -> rw_ok e -> Forall (fun v => v = x) (vars e) ->
  uses heap top e.
Proof.
  intros H1 H2 Hv. split; [done|]. split; [done|]. intros v Hin. exists true.
  rewrite Forall_forall in Hv. rewrite (Hv _ Hin). by left.
Qed.
Lemma uses_xy (e : Expr) : in_heap heap e -> rw_ok e -> Forall (fun v => v = x \/ v = y) (vars e) ->
  uses heap child e.
Proof.
  intros H1 H2 Hv. split; [done|]. split; [done|]. intros v Hin. exists true.
  rewrite Forall_forall in Hv. destruct (Hv _ Hin) as [->| ->]; [by left|right; by left].
Qed.

Lemma top_vars : IlaOk.vars_ok top.
Proof. split; [apply IlaOk.keyed_empty|apply tab_x|]. intros k. by left. Qed.
Lemma child_vars : IlaOk.vars_ok child.
Proof. split; [apply IlaOk.keyed_empty|apply tab_xy|]. intros k. by left. Qed.

Lemma top_ok : src_ila world heap 1 top.
Proof.
  split.
  - apply top_vars.
  - intros [|] e; [|by intros ?%elem_of_nil]. intros ->%own_x. by split.
  - intros [|] e; [|by intros ?%elem_of_nil]. intros ->%own_x. by left.
  - intros c ->%list_elem_of_singleton. exists child. split; [done|]. split; [done|].
    intros [|] k e; [|done]. intros Hf. pose proof (IlaOk.find_name _ _ _ tab_x Hf) as Hk.
    assert (e = x) as -> by (apply own_x, (find_tbl_elem top top_vars true k e); done). subst k. done.
  - apply NoDup_singleton.
  - apply NoDup_singleton.
  - done.
  - done.
  - by intros e ?%elem_of_nil.
  - intros i ->%list_elem_of_singleton. split; [done|]. exists inc. split; [done|]. split.
    + done.
    + exists same_x. split; [done|]. split; [|done]. apply uses_x; [done|done|repeat constructor].
    + intros s u H. cbn [updates_ inc move] in H. apply lookup_singleton_Some in H as [<- <-]. exists sum. split; [done|].
      apply uses_x; [done|done|repeat constructor].
    + intros p [= <-]. by left.
Qed.

Lemma child_ok : src_ila world heap 3 child.
Proof.
  split.
  - apply child_vars.
  - intros [|] e; [|by intros ?%elem_of_nil]. intros [->| ->]%own_xy; by split.
  - intros [|] e; [|by intros ?%elem_of_nil]. intros [->| ->]%own_xy; [|by left].
    right. exists 1%N, top. split; [done|]. split; [done|]. by left.
  - by intros c ?%elem_of_nil.
  - apply NoDup_nil_2.
  - apply NoDup_singleton.
  - done.
  - done.
  - by intros e ?%elem_of_nil.
  - intros i ->%list_elem_of_singleton. split; [done|]. exists move. split; [done|]. split.
    + done.
    + exists same_xy. split; [done|]. split; [|done]. apply uses_xy; [done|done|].
      apply Forall_cons; split; [by left|]. apply Forall_cons; split; [by right|done].
    + intros s u H. cbn [updates_ inc move] in H. apply lookup_singleton_Some in H as [<- <-]. exists x. split; [done|].
      apply uses_xy; [done|done|]. apply Forall_cons; split; [by left|done].
    + done.
Qed.
End CopySample.
Import CopySample.

Lemma CopyIlaTree_correct_witness :
  let L := layout_id in
  exists w' im em d l ld, CopyIlaTree 1 "copy" world = Ok (10%N, w') /\
    w_ilas w' !! 1%N = Some top /\ im !! 3%N = Some d /\ (9 < d)%N /\
    copied world "copy" em im w' 3 d l ld.
Proof.
  intros L.
  destruct (CopyIlaTree_correct world heap 1 "copy" world_tree) as
    (im & em & w' & T' & E & _ & _ & _ & _ & Hw & _ & _ & Hall).
  - by exists top.
  - intros m l _ [[-> ->]|[-> ->]]%at_world; [apply top_ok|apply child_ok].
  - apply copy_heap_ok.
  - destruct (Hall 3%N) as (d & l & ld & Hd & [Hlt _] & Hc).
    { eapply under_child; [reflexivity|by left|constructor]. }
    exists w', im, em, d, l, ld. split; [exact E|].
    split; [exact (Hw 1%N ltac:(by apply N.leb_le))|]. split; [exact Hd|]. split; [exact Hlt|exact Hc].
Defined.

(** The hierarchy of [CopySample] with a valid condition for the child. *)
Definition guarded_world : World :=
  {| counter_ := counter_ world;
     w_ilas := <[3%N := Ila.with_valid child (Some same_xy)]> (w_ilas world);
     w_instrs := <[9%N := Instrs.with_decode move (Some same_x)]> (w_instrs world) |}.

(** [x] is 1 and every other variable 0. *)
Definition one_env : Env :=
  {| ev_var := fun h => if decide (h_name h = "x") then VBv 8 1 else default_val (h_sort h);
     ev_fun := fun f _ => default_val (out_ f);
     ev_nondet := fun _ f => default_val (out_ f) |}.

(** C35.  [FlattenIla] loses the valid conditions of the children.  Here the
    flattened instruction of the child is enabled in a state where the decode
    condition holds and the valid condition of its ILA, on the copied variables,
    does not: the decode of the copy is the decode of the original, without the
    conjunction that the documentation describes. *)
Theorem FlattenIla_drops_valid :
  let L := layout_id in
  exists w' top' child i x d v,
    FlattenIla 1 guarded_world = Ok ((), w') /\
    w_ilas w' !! 1%N = Some top' /\ w_ilas w' !! 3%N = Some child /\
    valid_ child = Some v /\
    KeyVec.find (instrs_ top') "move" = Some i /\ w_instrs w' !! i = Some x /\ decode_ x = Some d /\
    (forall e, e ∈ vars v -> exists e', Ila.find_state top' (Exprs.name e) = Some e' /\
       ev_var one_env (Exprs.hdr e) = ev_var one_env (Exprs.hdr e')) /\
    eval one_env d = Some (VBool true) /\ eval one_env v = Some (VBool false).
Proof.
  intros L. do 7 eexists.
  split; [vm_compute; reflexivity|]. split; [vm_compute; reflexivity|].
  split; [vm_compute; reflexivity|]. split; [reflexivity|].
  split; [vm_compute; reflexivity|]. split; [vm_compute; reflexivity|]. split; [reflexivity|].
  split; [|split; vm_compute; reflexivity].
  apply Forall_forall. repeat constructor; (eexists; split; vm_compute; reflexivity).
Qed.
