(* ===== verification/Passes.v ===== *)
(** * Passes that rewrite the expressions of an ILA

    [src/ila-mngr/p_rewrite_generic.cc], the walk over the hierarchy that the
    rewriting passes share, and its two clients [p_rewrite_conditional_store.cc]
    and [p_rewrite_store_load.cc]. *)
From S2P Require Import Prelude Sort Values Container Expr World ExprOp AstHub Rewrite.
Import FuncObjRewrExpr.
Local Open Scope Z_scope.

(** ** The function objects *)
Module CondStore.
Section ops.
Context {L : Layout}.

(** The lambda [IsStore]. *)
Definition IsStore (x : option Expr) : Res bool :=
  match x with
  | Some x =>
      ila_assert (Exprs.is_mem x);;
      if Exprs.is_op x then op ← Exprs.GetUidExprOp x; Ok (bool_decide (op = kStore))
      else Ok false
  | None => Fail EAssert
  end.

Definition opt_ptr_eq (a b : option Expr) : bool :=
  match a, b with
  | Some a, Some b => Exprs.ptr_eq a b
  | None, None => true
  | _, _ => false
  end.

(** Pattern 1: [ITE(x, STORE(m, a, d), m)]; the test reads
    [IsStore(mem1) && !mem2->is_op()] and then compares the stored memory. *)
Definition store_left (cond mem1 mem2 : option Expr) : M (option Expr) :=
  is_store ← lift (IsStore mem1);
  if negb is_store then mret None else
  mem1 ← lift (deref mem1);
  mem2 ← lift (deref mem2);
  if Exprs.is_op mem2 then mret None else
  m ← lift (Exprs.arg mem1 0);
  if negb (Exprs.ptr_eq m mem2) then mret None else
  mem1_addr ← lift (Exprs.arg mem1 1);
  mem1_data ← lift (Exprs.arg mem1 2);
  ld ← asthub.Load mem2 mem1_addr;
  cond ← lift (deref cond);
  new_data ← asthub.Ite cond mem1_data ld;
  d ← asthub.Store mem2 mem1_addr new_data;
  mret (Some d).

(** Its mirror image [ITE(x, m, STORE(m, a, d))]; here the test reads
    [!mem1->is_op() && IsStore(mem2)]. *)
Definition store_right (cond mem1 mem2 : option Expr) : M (option Expr) :=
  mem1 ← lift (deref mem1);
  if Exprs.is_op mem1 then mret None else
  is_store ← lift (IsStore mem2);
  if negb is_store then mret None else
  mem2 ← lift (deref mem2);
  m ← lift (Exprs.arg mem2 0);
  if negb (Exprs.ptr_eq m mem1) then mret None else
  mem2_addr ← lift (Exprs.arg mem2 1);
  mem2_data ← lift (Exprs.arg mem2 2);
  ld ← asthub.Load mem1 mem2_addr;
  cond ← lift (deref cond);
  new_data ← asthub.Ite cond ld mem2_data;
  d ← asthub.Store mem1 mem2_addr new_data;
  mret (Some d).

(** Pattern 2: [ITE(x, STORE(m, a1, d1), STORE(m, a2, d2))]. *)
Definition store_both (cond mem1 mem2 : option Expr) : M (option Expr) :=
  is_store ← lift (IsStore mem1);
  if negb is_store then mret None else
  is_store ← lift (IsStore mem2);
  if negb is_store then mret None else
  mem1 ← lift (deref mem1);
  mem2 ← lift (deref mem2);
  m1 ← lift (Exprs.arg mem1 0);
  m2 ← lift (Exprs.arg mem2 0);
  if negb (Exprs.ptr_eq m1 m2) then mret None else
  a1 ← lift (Exprs.arg mem1 1);
  a2 ← lift (Exprs.arg mem2 1);
  cond ← lift (deref cond);
  new_addr ← asthub.Ite cond a1 a2;
  d1 ← lift (Exprs.arg mem1 2);
  d2 ← lift (Exprs.arg mem2 2);
  new_data ← asthub.Ite cond d1 d2;
  d ← asthub.Store m1 new_addr new_data;
  mret (Some d).

(** The first pattern that applies, and the default method otherwise. *)
Definition or_else (m : M (option Expr)) (k : M (option Expr)) : M (option Expr) :=
  r ← m; if is_some r then mret r else k.

Definition RewriteCondMem (rule_ : ExprMap) (e : Expr) : M (option Expr) :=
  cond ← get_arg rule_ e 0;
  mem1 ← get_arg rule_ e 1;
  mem2 ← get_arg rule_ e 2;
  if opt_ptr_eq mem1 mem2 then mret mem1
  else or_else (store_left cond mem1 mem2)
      (or_else (store_right cond mem1 mem2)
      (or_else (store_both cond mem1 mem2)
        (FuncObjRewrExpr.RewriteOp rule_ e))).

Definition RewriteOp (rule_ : ExprMap) (e : Expr) : M (option Expr) :=
  op ← lift (Exprs.GetUidExprOp e);
  if Exprs.is_mem e && bool_decide (op = kIfThenElse) then RewriteCondMem rule_ e
  else FuncObjRewrExpr.RewriteOp rule_ e.
End ops.
End CondStore.

Module StoreLoad.
Section ops.
Context {L : Layout}.

(** The memory a store writes to, read only when there is one. *)
Definition stored (is_store : bool) (m : Expr) : M (option Expr) :=
  if is_store then a ← lift (Exprs.arg m 0); mret (Some a) else mret None.

(** [RewriteLoad] and the [RewriteOp(const ExprPtr e)] that calls it.  The
    signature differs from the virtual [RewriteOp(const ExprPtr&)], so this
    method does not override it and the traversal never reaches it. *)
Definition RewriteLoad (rule_ : ExprMap) (e : Expr) : M (option Expr) :=
  mem ← get_arg rule_ e 0;
  m ← lift (deref mem);
  if Exprs.is_var m || Exprs.is_const m then mret (Some e) else
  is_store ← lift (CondStore.IsStore mem);
  a0 ← stored is_store m;
  match a0 with
  | Some a0 =>
      if Exprs.is_op a0 then FuncObjRewrExpr.RewriteOp rule_ e else
      addr_load ← get_arg rule_ e 1;
      addr_store ← lift (Exprs.arg m 1);
      addr_load ← lift (deref addr_load);
      cond ← asthub.Eq addr_load addr_store;
      data_load ← asthub.Load a0 addr_load;
      data_store ← lift (Exprs.arg m 2);
      d ← asthub.Ite cond data_store data_load;
      mret (Some d)
  | None => FuncObjRewrExpr.RewriteOp rule_ e
  end.

Definition RewriteOp_hidden (rule_ : ExprMap) (e : Expr) : M (option Expr) :=
  op ← lift (Exprs.GetUidExprOp e);
  if bool_decide (op = kLoad) then RewriteLoad rule_ e
  else FuncObjRewrExpr.RewriteOp rule_ e.

(** What the virtual call resolves to. *)
Definition RewriteOp : ExprMap -> Expr -> M (option Expr) := FuncObjRewrExpr.RewriteOp.
End ops.
End StoreLoad.

(** ** [RewriteGeneric] *)
Section generic.
Context {X : Type} (Rewr : option Expr -> X -> M (option Expr * X)).

(** The rewriting of one optional field. *)
Definition rewrite_field (fld : InstrLvlAbs -> option Expr)
    (set : objid -> option Expr -> M unit) (m : objid) (s : X) : M X :=
  l ← ila m;
  match fld l with
  | Some e => '(d, s) ← Rewr (Some e) s; set m d;; mret s
  | None => mret s
  end.

Definition rewrite_update (i : objid) (state : string) (s : X) : M X :=
  x ← instr_ i;
  '(d, s) ← Rewr (Instrs.update x state) s;
  Instrs.ForceAddUpdate i state d;; mret s.

Definition rewrite_decode (i : objid) (s : X) : M X :=
  x ← instr_ i;
  decode ← notnull (decode_ x);
  '(d, s) ← Rewr (Some decode) s;
  Instrs.ForceSetDecode i d;; mret s.

Definition rewrite_instr (i : objid) (s : X) : M X :=
  s ← rewrite_decode i s;
  x ← instr_ i;
  foldM (rewrite_update i) (Instrs.updated_states x) s.

(** The recursion on the children; [n] bounds the depth of the hierarchy.  The
    pass registers no instruction and no child, so its loops run over the lists
    it starts with. *)
Fixpoint RewriteGeneric (n : nat) (m : objid) (s : X) : M X :=
  match n with
  | O => lift (Fail EDiverge)
  | S n =>
      s ← rewrite_field valid_ Ila.ForceSetValid m s;
      s ← rewrite_field fetch_ Ila.ForceSetFetch m s;
      l ← ila m;
      s ← foldM rewrite_instr (KeyVec.vec_ (instrs_ l)) s;
      foldM (RewriteGeneric n) (KeyVec.vec_ (childs_ l)) s
  end.
End generic.

(** The lambda [Rewr] of the two passes: one function object, whose table is
    kept from one call to the next. *)
Definition rewr_with (RewriteOp : ExprMap -> Expr -> M (option Expr)) (e : option Expr)
    (rule_ : ExprMap) : M (option Expr * ExprMap) :=
  e ← notnull e;
  rule_ ← visit RewriteOp e rule_;
  d ← lift (get rule_ e);
  mret (d, rule_).

(** A null expression is passed on unchanged by the second one. *)
Definition rewr_with_null (RewriteOp : ExprMap -> Expr -> M (option Expr))
    (e : option Expr) (rule_ : ExprMap) : M (option Expr * ExprMap) :=
  match e with Some _ => rewr_with RewriteOp e rule_ | None => mret (None, rule_) end.

Definition depth (w : World) : nat := S (N.to_nat (counter_ w)).

Definition RewriteConditionalStore {L : Layout} (m : objid) : M bool :=
  n ← gets depth;
  RewriteGeneric (rewr_with CondStore.RewriteOp) n m ∅;; mret true.

Definition RewriteStoreLoad {L : Layout} (m : objid) : M bool :=
  n ← gets depth;
  RewriteGeneric (rewr_with_null StoreLoad.RewriteOp) n m ∅;; mret true.

(** ** The patterns preserve meaning *)
Definition is_store (m : Expr) : bool :=
  match m with ExprOp _ kStore _ _ _ => true | _ => false end.

Lemma IsStore_run m : Exprs.is_mem m = true -> CondStore.IsStore (Some m) = Ok (is_store m).
Proof. intros H. cbn. rewrite H. cbn. destruct m as [| |h op]; try done. by destruct op. Qed.

(** A well-sorted store, opened. *)
Lemma store_inv m : wt m = true -> is_store m = true ->
  exists h m0 a d aw dw, m = ExprOp h kStore None [m0; a; d] [] /\
    Exprs.sort m0 = SortMem aw dw /\ Exprs.sort a = SortBv aw /\ Exprs.sort d = SortBv dw /\
    Exprs.sort m = SortMem aw dw /\ wt m0 = true /\ wt a = true /\ wt d = true.
Proof.
  destruct m as [| |h op [f|] args ps]; intros Hw Hs; try discriminate Hs;
    apply wt_op in Hw as [Ha Ho]; destruct op; try discriminate Hs.
  - unfold fn_ok in Ho. bool_inv. discriminate.
  - destruct ps, args as [|m0 [|a [|d [|]]]]; cbn in Ho;
      repeat (case_match; try discriminate Ho); try discriminate Ho.
    repeat match goal with H : Forall _ (_ :: _) |- _ => apply Forall_cons in H as [? H] end.
    bool_inv. subst. injection Ho as Ho. exists h, m0, a, d. do 2 eexists.
    split_and!; first [done|congruence].
Qed.

Lemma eval_mem ρ l aw dw : env_ok ρ -> wt l = true -> Exprs.sort l = SortMem aw dw ->
  exists m, eval ρ l = Some (VMem aw dw m) /\
    map_Forall (fun a d => 0 <= a < 2 ^ aw /\ 0 < d < 2 ^ dw) m.
Proof.
  intros Hρ Hw Hs. destruct (eval_sound _ _ Hρ Hw) as (v & Hv & Hsort).
  rewrite Hs in Hsort. apply has_sort_mem in Hsort as (m & -> & _ & _ & Hm). eauto.
Qed.

Section stores.
Context (T : gmap objid Expr) (w : World) (aw dw : Z).
Hypothesis Hheap : heap_ok T w.

(** The memory of a store, as an expression of the heap. *)
Lemma store_parts m : in_heap T m /\ rw_ok m /\ Exprs.sort m = SortMem aw dw ->
  is_store m = true ->
  exists h m0 a d, m = ExprOp h kStore None [m0; a; d] [] /\
    Forall (in_heap T) [m0; a; d] /\ Forall rw_ok [m0; a; d] /\
    Exprs.sort m0 = SortMem aw dw /\ Exprs.sort a = SortBv aw /\ Exprs.sort d = SortBv dw.
Proof using Hheap.
  intros (Hi & Hok & Hs) Hst. destruct Hok as [Hw Hr].
  destruct (store_inv m Hw Hst) as (h & m0 & a & d & aw' & dw' & -> & ? & ? & ? & Hs' & _).
  rewrite Hs in Hs'. simplify_eq. exists h, m0, a, d. split; [done|].
  split; [exact (heap_args _ _ _ Hheap Hi)|]. by split; [apply (rw_ok_args _ (conj Hw Hr))|].
Qed.

Lemma eval_store ρ h m0 a d : env_ok ρ -> Forall rw_ok [m0; a; d] ->
  Exprs.sort m0 = SortMem aw dw -> Exprs.sort a = SortBv aw -> Exprs.sort d = SortBv dw ->
  exists m x v, eval ρ m0 = Some (VMem aw dw m) /\ eval ρ a = Some (VBv aw x) /\
    eval ρ d = Some (VBv dw v) /\ map_Forall (fun a d => 0 <= a < 2 ^ aw /\ 0 < d < 2 ^ dw) m /\
    eval ρ (ExprOp h kStore None [m0; a; d] []) = Some (VMem aw dw (mem_store m x v)).
Proof using Type.
  intros Hρ Hok Hm Ha Hd. rewrite !Forall_cons in Hok.
  destruct Hok as ([Hwm _] & [Hwa _] & [Hwd _] & _).
  destruct (eval_mem ρ m0 aw dw Hρ Hwm Hm) as (m & Em & Hr).
  destruct (asthub.eval_bv ρ a aw Hρ Hwa Ha) as (x & Ea & _).
  destruct (asthub.eval_bv ρ d dw Hρ Hwd Hd) as (v & Ed & _).
  exists m, x, v. split_and!; [done..|]. rewrite eval_op. unfold evals. cbn.
  rewrite Em, Ea, Ed. cbn. by rewrite !Z.eqb_refl.
Qed.
End stores.

Section cond_store.
Context {L : Layout} (tr : Env -> Env) {Htr : EnvTr tr}.
Context (T : gmap objid Expr) (w : World) (e c m1 m2 : Expr) (aw dw : Z).
Hypothesis Hheap : heap_ok T w.
Hypothesis Hc : in_heap T c /\ rw_ok c /\ Exprs.sort c = SortBool.
Hypothesis H1 : in_heap T m1 /\ rw_ok m1 /\ Exprs.sort m1 = SortMem aw dw.
Hypothesis H2 : in_heap T m2 /\ rw_ok m2 /\ Exprs.sort m2 = SortMem aw dw.
Hypothesis Hsort : Exprs.sort e = SortMem aw dw.
(** [e] means the choice between the copies of its branches. *)
Hypothesis He : forall ρ, env_ok ρ ->
  eval (tr ρ) e = (b ← eval ρ c; x ← eval ρ m1; y ← eval ρ m2; op_sem kIfThenElse [] [b; x; y]).

Definition rewritten (R : M (option Expr)) : Prop :=
  exists d w' T', R w = Ok (Some d, w') /\ grows T w T' w' /\ in_heap T' d /\ same tr e d.

Lemma is_mem_sort m : Exprs.sort m = SortMem aw dw -> Exprs.is_mem m = true.
Proof using Type. unfold Exprs.is_mem. by intros ->. Qed.

Lemma choice ρ : env_ok ρ -> exists b x y, eval ρ c = Some (VBool b) /\
  eval ρ m1 = Some (VMem aw dw x) /\ eval ρ m2 = Some (VMem aw dw y) /\
  eval (tr ρ) e = Some (VMem aw dw (if b : bool then x else y)).
Proof using Hc H1 H2 He.
  intros Hρ. destruct Hc as (_ & [Hwc _] & Hsc), H1 as (_ & [Hw1 _] & Hs1), H2 as (_ & [Hw2 _] & Hs2).
  destruct (asthub.eval_bool ρ c Hρ Hwc Hsc) as [b Hb].
  destruct (eval_mem ρ m1 aw dw Hρ Hw1 Hs1) as (x & Hx & _).
  destruct (eval_mem ρ m2 aw dw Hρ Hw2 Hs2) as (y & Hy & _).
  exists b, x, y. rewrite He, Hb, Hx, Hy by done. split_and!; [done..|]. by destruct b.
Qed.

(** Pattern 0: the branches are one node. *)
Lemma same_branches : Exprs.ptr_eq m1 m2 = true -> rewritten (mret (Some m1)).
Proof using Hheap Hc H1 H2 He Hsort.
  intros Hp. exists m1, w, T. destruct H1 as (Hi1 & Ho1 & Hs1), H2 as (Hi2 & Ho2 & Hs2).
  assert (m1 = m2) as E by by eapply in_heap_eq.
  split; [done|]. split; [by apply grows_refl|]. split; [done|]. split; [done|congruence|].
  intros ρ Hρ. destruct (choice ρ Hρ) as (b & x & y & _ & Hx & Hy & ->).
  rewrite Hx. subst. destruct b; congruence.
Qed.


(** Building in a heap that has grown. *)
Lemma builds_in T1 w1 op args ps m s : grows T w T1 w1 ->
  Forall (in_heap T1) args -> Forall rw_ok args -> supported op = true ->
  ExprOps.construct op args ps = Some m -> op_sort op ps (Exprs.sort <$> args) = Some s ->
  builds T1 w1 m s (fun ρ => evals ρ args ≫= op_sem op ps).
Proof using Type. intros [] **. by apply builds_op. Qed.

(** [STORE(m, a, ITE(c, t, f))] where one of [t], [f] is the old content. *)
Definition store_ite (m a : Expr) (branches : Expr -> Expr * Expr) : M Expr :=
  ld ← asthub.Load m a;
  nd ← asthub.Ite c (branches ld).1 (branches ld).2;
  asthub.Store m a nd.

Lemma store_ite_builds m a d (left : bool) f :
  Forall (in_heap T) [m; a; d] -> Forall rw_ok [m; a; d] ->
  Exprs.sort m = SortMem aw dw -> Exprs.sort a = SortBv aw -> Exprs.sort d = SortBv dw ->
  (forall ρ b y x v, env_ok ρ -> eval ρ c = Some (VBool b) -> eval ρ m = Some (VMem aw dw y) ->
     eval ρ a = Some (VBv aw x) -> eval ρ d = Some (VBv dw v) ->
     map_Forall (fun a d => 0 <= a < 2 ^ aw /\ 0 < d < 2 ^ dw) y ->
     f ρ = Some (VMem aw dw (mem_store y x
             (if Bool.eqb b left then v else mem_load y x)))) ->
  builds T w (store_ite m a (fun ld => if left then (d, ld) else (ld, d))) (SortMem aw dw) f.
Proof using Hheap Hc.
  intros Hin Hok Hm Ha Hd Hf. destruct Hc as (Hic & Hoc & Hsc).
  pose proof Hin as Hin'. pose proof Hok as Hok'. rewrite !Forall_cons in Hin', Hok'.
  destruct Hin' as (Him & Hia & Hid & _), Hok' as (Hom & Hoa & Hod & _).
  eapply builds_bind.
  { apply (builds_in T w kLoad [m; a] []); [by apply grows_refl|each..|done|done|].
    cbn. by rewrite Hm, Ha, Z.eqb_refl. }
  intros ld T1 w1 G1 Hil Hol Hsl Hvl.
  assert (Hmono : forall x, in_heap T x -> in_heap T1 x) by (intros x; by apply (grows_heap _ _ _ _ _ G1)).
  eapply builds_bind.
  { apply (builds_in T1 w1 kIfThenElse [c; if left then d else ld; if left then ld else d] []);
      [done|destruct left; each..|done|by destruct left|].
    cbn. rewrite Hsc. destruct left; by rewrite Hsl, Hd, decide_True by done. }
  intros nd T2 w2 G2 Hin2 Hon Hsn Hvn.
  assert (G : grows T w T2 w2) by by eapply grows_trans.
  eapply builds_ext; [|apply (builds_in T2 w2 kStore [m; a; nd] []); [done|..|done|done|]].
  - intros ρ Hρ. unfold evals. cbn. rewrite Hvn by done.
    destruct (eval_store aw dw ρ (Exprs.hdr m) m a d Hρ Hok Hm Ha Hd)
      as (y & x & v & Ey & Ex & Ed & Hy & _).
    destruct (asthub.eval_bool ρ c Hρ (proj1 Hoc) Hsc) as [b Eb].
    rewrite (Hf ρ b y x v) by done. rewrite Ey, Ex. unfold evals. cbn. rewrite Eb. cbn.
    specialize (Hvl ρ Hρ). unfold evals in Hvl. cbn in Hvl. rewrite Ey, Ex in Hvl. cbn in Hvl.
    rewrite Z.eqb_refl in Hvl.
    destruct left; rewrite Hvl, Ed; cbn; destruct b; cbn; by rewrite !Z.eqb_refl.
  - each; by apply (grows_heap _ _ _ _ _ G).
  - each.
  - cbn. rewrite Hm, Ha, Hsn. destruct left; by rewrite ?Hd, ?Hsl, !Z.eqb_refl.
Qed.

Lemma or_else_law m k : m w = Ok (None, w) \/ rewritten m -> rewritten k ->
  rewritten (CondStore.or_else m k).
Proof using Type.
  intros [Hm|(d & w' & T' & Hm & H)] Hk; unfold rewritten, CondStore.or_else.
  - by rewrite (ST_bind_run _ _ _ _ _ Hm).
  - exists d, w', T'. by rewrite (ST_bind_run _ _ _ _ _ Hm).
Qed.

Lemma store_left_law :
  CondStore.store_left (Some c) (Some m1) (Some m2) w = Ok (None, w) \/
  rewritten (CondStore.store_left (Some c) (Some m1) (Some m2)).
Proof using Hheap Hc H1 H2 Hsort He.
  pose proof choice as Hch. pose proof H1 as (_ & _ & Hs1).
  pose proof H2 as (Hi2 & Ho2 & Hs2).
  pose proof (IsStore_run m1 (is_mem_sort m1 Hs1)) as Hst.
  destruct (is_store m1) eqn:E1;
    [|left; unfold CondStore.store_left; by rewrite (lift_bind_run _ _ _ _ Hst)].
  destruct (store_parts T w aw dw Hheap m1 H1 E1) as (h & m0 & a & d & -> & Hin & Hok & Hm & Ha & Hd).
  destruct (Exprs.is_op m2) eqn:Eo;
    [left; unfold CondStore.store_left; rewrite (lift_bind_run _ _ _ _ Hst); cbn [negb];
     do 2 step; by rewrite Eo|].
  destruct (Exprs.ptr_eq m0 m2) eqn:Ep;
    [|left; unfold CondStore.store_left; rewrite (lift_bind_run _ _ _ _ Hst); cbn [negb];
      do 2 step; rewrite Eo; step; by rewrite Ep].
  right. apply Forall_cons in Hin as [Him Hin]. apply Forall_cons in Hok as [Hom Hok].
  assert (m0 = m2) as -> by by eapply in_heap_eq.
  eapply (builds_same tr T w (store_ite m2 a (fun ld => (d, ld)))).
  - intros r w' Hr. unfold store_ite in Hr. run_inv_in Hr. cbn [fst snd] in *.
    unfold CondStore.store_left. rewrite (lift_bind_run _ _ _ _ Hst). cbn [negb].
    do 2 step. rewrite Eo. step. rewrite Ep. cbn [negb]. do 2 step.
    call. step. call. by call.
  - rewrite Hsort.
    apply (store_ite_builds m2 a d true (fun ρ => eval (tr ρ) e)); [by apply Forall_cons_2..|done|done|done|].
    intros ρ b y x v Hρ Eb Ey Ex Ev Hy.
    destruct (Hch ρ Hρ) as (b' & x' & y' & Eb' & Ex' & Ey' & ->). simplify_eq.
    destruct (eval_store aw dw ρ h m2 a d Hρ) as (m & x0 & v0 & Em & Ea & Ed & _ & Es);
      [by apply Forall_cons_2|done..|]. rewrite Es in Ex'. simplify_eq.
    destruct b; cbn; [done|]. by rewrite (mem_store_load aw dw).
  - done.
Qed.

Lemma store_right_law :
  CondStore.store_right (Some c) (Some m1) (Some m2) w = Ok (None, w) \/
  rewritten (CondStore.store_right (Some c) (Some m1) (Some m2)).
Proof using Hheap Hc H1 H2 Hsort He.
  pose proof choice as Hch. pose proof H1 as (Hi1 & Ho1 & Hs1).
  pose proof H2 as (_ & _ & Hs2).
  pose proof (IsStore_run m2 (is_mem_sort m2 Hs2)) as Hst.
  destruct (Exprs.is_op m1) eqn:Eo;
    [left; unfold CondStore.store_right; step; by rewrite Eo|].
  destruct (is_store m2) eqn:E2;
    [|left; unfold CondStore.store_right; step; rewrite Eo; by rewrite (lift_bind_run _ _ _ _ Hst)].
  destruct (store_parts T w aw dw Hheap m2 H2 E2) as (h & m0 & a & d & -> & Hin & Hok & Hm & Ha & Hd).
  destruct (Exprs.ptr_eq m0 m1) eqn:Ep;
    [|left; unfold CondStore.store_right; step; rewrite Eo, (lift_bind_run _ _ _ _ Hst);
      cbn [negb]; do 2 step; by rewrite Ep].
  right. apply Forall_cons in Hin as [Him Hin]. apply Forall_cons in Hok as [Hom Hok].
  assert (m0 = m1) as -> by by eapply in_heap_eq.
  eapply (builds_same tr T w (store_ite m1 a (fun ld => (ld, d)))).
  - intros r w' Hr. unfold store_ite in Hr. run_inv_in Hr. cbn [fst snd] in *.
    unfold CondStore.store_right. step. rewrite Eo, (lift_bind_run _ _ _ _ Hst). cbn [negb].
    do 2 step. rewrite Ep. cbn [negb]. do 2 step. call. step. call. by call.
  - rewrite Hsort.
    apply (store_ite_builds m1 a d false (fun ρ => eval (tr ρ) e));
      [by apply Forall_cons_2..|done|done|done|].
    intros ρ b y x v Hρ Eb Ey Ex Ev Hy.
    destruct (Hch ρ Hρ) as (b' & x' & y' & Eb' & Ex' & Ey' & ->). simplify_eq.
    destruct (eval_store aw dw ρ h m1 a d Hρ) as (m & x0 & v0 & Em & Ea & Ed & _ & Es);
      [by apply Forall_cons_2|done..|]. rewrite Es in Ey'. simplify_eq.
    destruct b; cbn; [|done]. by rewrite (mem_store_load aw dw).
  - done.
Qed.

(** Pattern 2: the addresses and the data are chosen separately. *)
Definition store_choice (m a1 a2 d1 d2 : Expr) : M Expr :=
  na ← asthub.Ite c a1 a2; nd ← asthub.Ite c d1 d2; asthub.Store m na nd.

Lemma Ite_builds T1 w1 a b s : grows T w T1 w1 ->
  Forall (in_heap T1) [c; a; b] -> Forall rw_ok [c; a; b] ->
  Exprs.sort a = s -> Exprs.sort b = s ->
  builds T1 w1 (asthub.Ite c a b) s (fun ρ => evals ρ [c; a; b] ≫= op_sem kIfThenElse []).
Proof using Hc.
  intros HG Hin Hok Ha Hb. destruct Hc as (_ & _ & Hsc).
  apply (builds_in T1 w1 kIfThenElse [c; a; b] []); [done..|]. cbn.
  by rewrite Hsc, Ha, Hb, decide_True.
Qed.

Lemma store_choice_builds m a1 a2 d1 d2 f :
  Forall (in_heap T) [m; a1; a2; d1; d2] -> Forall rw_ok [m; a1; a2; d1; d2] ->
  Exprs.sort m = SortMem aw dw -> Exprs.sort a1 = SortBv aw -> Exprs.sort a2 = SortBv aw ->
  Exprs.sort d1 = SortBv dw -> Exprs.sort d2 = SortBv dw ->
  (forall ρ, env_ok ρ -> f ρ =
     (b ← eval ρ c; y ← eval ρ m; x ← evals ρ [a1; d1]; x' ← evals ρ [a2; d2];
      op_sem kStore [] (y :: (if b is VBool true then x else x')))) ->
  builds T w (store_choice m a1 a2 d1 d2) (SortMem aw dw) f.
Proof using Hheap Hc.
  intros Hin Hok Hm Ha1 Ha2 Hd1 Hd2 Hf. destruct Hc as (Hic & Hoc & Hsc).
  rewrite !Forall_cons in Hin, Hok. destruct Hin as (Him & Hi1 & Hi2 & Hj1 & Hj2 & _).
  destruct Hok as (Hom & Ho1 & Ho2 & Hp1 & Hp2 & _).
  eapply builds_bind; [apply (Ite_builds T w a1 a2 (SortBv aw)); [by apply grows_refl|each..]|].
  intros na T1 w1 G1 Hina Hona Hsna Hvna.
  eapply builds_bind; [apply (Ite_builds T1 w1 d1 d2 (SortBv dw));
    [done|each; by apply (grows_heap _ _ _ _ _ G1)|each..]|].
  intros nd T2 w2 G2 Hind Hond Hsnd Hvnd.
  assert (G : grows T w T2 w2) by by eapply grows_trans.
  eapply builds_ext; [|apply (builds_in T2 w2 kStore [m; na; nd] []);
    [done|each; first [by apply (grows_heap _ _ _ _ _ G)|by apply (grows_heap _ _ _ _ _ G2)]
    |each|done|done|]].
  - intros ρ Hρ. rewrite Hf by done. unfold evals in *. cbn in *. rewrite Hvna, Hvnd by done.
    destruct (asthub.eval_bool ρ c Hρ (proj1 Hoc) Hsc) as [b ->].
    destruct (asthub.eval_bv ρ a1 aw Hρ (proj1 Ho1) Ha1) as (x1 & -> & _).
    destruct (asthub.eval_bv ρ a2 aw Hρ (proj1 Ho2) Ha2) as (x2 & -> & _).
    destruct (asthub.eval_bv ρ d1 dw Hρ (proj1 Hp1) Hd1) as (v1 & -> & _).
    destruct (asthub.eval_bv ρ d2 dw Hρ (proj1 Hp2) Hd2) as (v2 & -> & _).
    destruct (eval ρ m); [|done]. by destruct b.
  - cbn. by rewrite Hm, Hsna, Hsnd, !Z.eqb_refl.
Qed.

Lemma store_both_law :
  CondStore.store_both (Some c) (Some m1) (Some m2) w = Ok (None, w) \/
  rewritten (CondStore.store_both (Some c) (Some m1) (Some m2)).
Proof using Hheap Hc H1 H2 Hsort He.
  pose proof choice as Hch. pose proof H1 as (_ & _ & Hs1). pose proof H2 as (_ & _ & Hs2).
  pose proof (IsStore_run m1 (is_mem_sort m1 Hs1)) as Hst1.
  pose proof (IsStore_run m2 (is_mem_sort m2 Hs2)) as Hst2.
  destruct (is_store m1) eqn:E1;
    [|left; unfold CondStore.store_both; by rewrite (lift_bind_run _ _ _ _ Hst1)].
  destruct (is_store m2) eqn:E2;
    [|left; unfold CondStore.store_both;
      rewrite (lift_bind_run _ _ _ _ Hst1); cbn [negb]; by rewrite (lift_bind_run _ _ _ _ Hst2)].
  destruct (store_parts T w aw dw Hheap m1 H1 E1) as (h1 & n1 & a1 & d1 & -> & Hin1 & Hok1 & Hm1 & Ha1 & Hd1).
  destruct (store_parts T w aw dw Hheap m2 H2 E2) as (h2 & n2 & a2 & d2 & -> & Hin2 & Hok2 & Hm2 & Ha2 & Hd2).
  destruct (Exprs.ptr_eq n1 n2) eqn:Ep;
    [|left; unfold CondStore.store_both;
      rewrite (lift_bind_run _ _ _ _ Hst1); cbn [negb];
      rewrite (lift_bind_run _ _ _ _ Hst2); cbn [negb];
      do 4 step; by rewrite Ep].
  right. pose proof Hin1 as [Hi1 _]%Forall_cons. pose proof Hin2 as [Hi2 _]%Forall_cons.
  assert (n1 = n2) as -> by by eapply in_heap_eq.
  eapply (builds_same tr T w (store_choice n2 a1 a2 d1 d2)).
  - intros r w' Hr. unfold store_choice in Hr. run_inv_in Hr.
    unfold CondStore.store_both. rewrite (lift_bind_run _ _ _ _ Hst1). cbn [negb].
    rewrite (lift_bind_run _ _ _ _ Hst2). cbn [negb]. do 4 step. rewrite Ep. cbn [negb]. do 3 step. call. do 2 step. call. by call.
  - rewrite Hsort. rewrite !Forall_cons in Hin1, Hok1, Hin2, Hok2.
    apply (store_choice_builds n2 a1 a2 d1 d2 (fun ρ => eval (tr ρ) e));
      [each; naive_solver..|done|done|done|done|done|].
    intros ρ Hρ. destruct (Hch ρ Hρ) as (b & x & y & Eb & Ex & Ey & ->).
    rewrite Eb. rewrite eval_op in Ex, Ey. unfold evals in *. cbn in *.
    destruct (eval ρ n2), (eval ρ a1), (eval ρ d1), (eval ρ a2), (eval ρ d2); try discriminate.
    by destruct b.
  - done.
Qed.

Lemma cond_mem_law k : rewritten k ->
  rewritten (CondStore.or_else (CondStore.store_left (Some c) (Some m1) (Some m2))
            (CondStore.or_else (CondStore.store_right (Some c) (Some m1) (Some m2))
            (CondStore.or_else (CondStore.store_both (Some c) (Some m1) (Some m2)) k))).
Proof using Hheap Hc H1 H2 Hsort He.
  intros Hk. apply or_else_law; [apply store_left_law|].
  apply or_else_law; [apply store_right_law|]. by apply or_else_law; [apply store_both_law|].
Qed.
End cond_store.

(** A well-sorted choice, opened. *)
Lemma ite_inv h fn args ps : wt (ExprOp h kIfThenElse fn args ps) = true ->
  exists c a b, fn = None /\ args = [c; a; b] /\ ps = [] /\ Exprs.sort c = SortBool /\
    Exprs.sort a = h_sort h /\ Exprs.sort b = h_sort h.
Proof.
  intros [_ Ho]%wt_op. destruct fn as [f|]; [unfold fn_ok in Ho; bool_inv; discriminate|].
  destruct ps, args as [|c [|a [|b [|]]]]; cbn in Ho;
    repeat (case_match; try discriminate Ho); try discriminate Ho.
  exists c, a, b. split_and!; congruence.
Qed.

#[export] Instance CondStore_laws {L : Layout} tr {Htr : EnvTr tr} :
  RewriteOpLaws tr CondStore.RewriteOp.
Proof.
  intros T w rule_ e Hh He Hok Hop Ha. unfold CondStore.RewriteOp.
  destruct e as [| |h op fn args ps]; try discriminate Hop.
  rewrite (lift_bind_run _ _ _ _ (eq_refl : Exprs.GetUidExprOp (ExprOp _ _ _ _ _) = Ok _)).
  destruct (Exprs.is_mem _ && _) eqn:E; [|by apply RewriteOp_law]. bool_inv. subst op.
  unfold Exprs.is_mem in H. destruct (Exprs.sort _) as [| |aw dw| |] eqn:Es; try discriminate H.
  pose proof (proj1 Hok) as Hwt. change (h_sort h = SortMem aw dw) in Es.
  destruct (ite_inv _ _ _ _ Hwt) as (c & m1 & m2 & -> & -> & -> & Hc & H1 & H2).
  rewrite Es in H1, H2.
  pose proof (RewriteOp_law (tr := tr) T w rule_ _ Hh He Hok Hop Ha) as Hdef.
  cbn [Exprs.args] in Ha. rewrite !Forall_cons in Ha.
  destruct Ha as ((c' & Ec & Sc & Ic) & (n1 & E1 & S1 & I1) & (n2 & E2 & S2 & I2) & _).
  unfold CondStore.RewriteCondMem.
  set (e := ExprOp h kIfThenElse None [c; m1; m2] []) in *.
  rewrite (ST_bind_run _ _ _ _ _ (get_arg_run rule_ e 0 c c' w eq_refl Ec)).
  rewrite (ST_bind_run _ _ _ _ _ (get_arg_run rule_ e 1 m1 n1 w eq_refl E1)).
  rewrite (ST_bind_run _ _ _ _ _ (get_arg_run rule_ e 2 m2 n2 w eq_refl E2)).
  assert (HC : in_heap T c' /\ rw_ok c' /\ Exprs.sort c' = SortBool)
    by (split; [done|]; split; [by eapply same_ok|]; by rewrite (same_sort _ _ _ Sc)).
  assert (HN1 : in_heap T n1 /\ rw_ok n1 /\ Exprs.sort n1 = SortMem aw dw)
    by (split; [done|]; split; [by eapply same_ok|]; by rewrite (same_sort _ _ _ S1)).
  assert (HN2 : in_heap T n2 /\ rw_ok n2 /\ Exprs.sort n2 = SortMem aw dw)
    by (split; [done|]; split; [by eapply same_ok|]; by rewrite (same_sort _ _ _ S2)).
  assert (HE : forall ρ, env_ok ρ -> eval (tr ρ) e =
    (b ← eval ρ c'; x ← eval ρ n1; y ← eval ρ n2; op_sem kIfThenElse [] [b; x; y])).
  { intros ρ Hρ. unfold e. rewrite eval_op. unfold evals. cbn.
    rewrite (same_eval _ _ _ Sc), (same_eval _ _ _ S1), (same_eval _ _ _ S2) by done.
    destruct (eval _ c), (eval _ m1), (eval _ m2); done. }
  cbn [CondStore.opt_ptr_eq]. destruct (Exprs.ptr_eq n1 n2) eqn:Ep.
  - by apply (same_branches tr T w e c' n1 n2 aw dw Hh HC HN1 HN2 Es HE).
  - by apply (cond_mem_law tr T w e c' n1 n2 aw dw Hh HC HN1 HN2 Es HE).
Qed.

(** ** A pass preserves the meaning of the model *)

(** Two expressions of one sort and one value in every environment. *)
Definition equiv_expr (e d : Expr) : Prop :=
  Exprs.sort d = Exprs.sort e /\ forall ρ, env_ok ρ -> eval ρ d = eval ρ e.

#[export] Instance equiv_expr_preorder : PreOrder equiv_expr.
Proof.
  split; [by split|]. intros a b c [Hs He] [Hs' He']. split; [congruence|].
  intros ρ Hρ. by rewrite He', He.
Qed.

Definition equiv_opt : relation (option Expr) := option_Forall2 equiv_expr.

(** What a pass may change of an ILA and of an instruction. *)
Definition equiv_ila (l l' : InstrLvlAbs) : Prop :=
  exists v f, l' = Ila.with_fetch (Ila.with_valid l v) f /\
    equiv_opt (valid_ l) v /\ equiv_opt (fetch_ l) f.
Definition equiv_instr (x x' : Instr) : Prop :=
  exists d u, x' = Instrs.with_updates (Instrs.with_decode x d) u /\
    equiv_opt (decode_ x) d /\
    forall s, option_Forall2 equiv_opt (updates_ x !! s) (u !! s).

#[export] Instance option_Forall2_preorder {A} (R : relation A) :
  PreOrder R -> PreOrder (option_Forall2 R).
Proof. intros []. split; apply _. Qed.

#[export] Instance equiv_opt_preorder : PreOrder equiv_opt.
Proof. unfold equiv_opt. apply _. Qed.

#[export] Instance equiv_ila_preorder : PreOrder equiv_ila.
Proof.
  split.
  - intros l. exists (valid_ l), (fetch_ l). by destruct l.
  - intros a b c (v & f & -> & Hv & Hf) (v' & f' & -> & Hv' & Hf'). exists v', f'.
    split; [done|]. by split; etrans.
Qed.

#[export] Instance equiv_instr_preorder : PreOrder equiv_instr.
Proof.
  split.
  - intros x. exists (decode_ x), (updates_ x). by destruct x.
  - intros a b c (d & u & -> & Hd & Hu) (d' & u' & -> & Hd' & Hu'). exists d', u'.
    split; [done|]. split; [by etrans|]. intros s. etrans; [apply Hu|apply Hu'].
Qed.

Definition equiv_world (w w' : World) : Prop :=
  (forall m, option_Forall2 equiv_ila (w_ilas w !! m) (w_ilas w' !! m)) /\
  (forall i, option_Forall2 equiv_instr (w_instrs w !! i) (w_instrs w' !! i)).

#[export] Instance equiv_world_preorder : PreOrder equiv_world.
Proof.
  split.
  - by split.
  - intros a b c [Hl Hi] [Hl' Hi']. split; [intros m; etrans; [apply Hl|apply Hl']|].
    intros i; etrans; [apply Hi|apply Hi'].
Qed.

(** A hierarchy whose expressions live in the heap and can be rewritten; [B]
    bounds the ids of the ILAs. *)
Definition expr_ok (T : gmap objid Expr) (e : Expr) : Prop := in_heap T e /\ rw_ok e.

Record ila_in (T : gmap objid Expr) (w : World) (B m : objid) (l : InstrLvlAbs) : Prop := {
  in_bound : (m <= B)%N;
  in_valid e : valid_ l = Some e -> expr_ok T e /\ Exprs.is_bool e = true;
  in_fetch e : fetch_ l = Some e -> expr_ok T e /\ Exprs.is_bv e 0 = true;
  in_instrs i : i ∈ KeyVec.vec_ (instrs_ l) -> is_Some (w_instrs w !! i);
  in_childs c : c ∈ KeyVec.vec_ (childs_ l) -> is_Some (w_ilas w !! c) /\ (m < c)%N }.

Record instr_in (T : gmap objid Expr) (x : Instr) : Prop := {
  in_decode : exists e, decode_ x = Some e /\ expr_ok T e /\ Exprs.is_bool e = true;
  in_updates s u : updates_ x !! s = Some u -> exists e, u = Some e /\ expr_ok T e }.

Record world_in (T : gmap objid Expr) (w : World) (B : objid) : Prop := {
  in_heap_ok : heap_ok T w;
  in_ilas m l : w_ilas w !! m = Some l -> ila_in T w B m l;
  in_instr i x : w_instrs w !! i = Some x -> instr_in T x }.

Lemma expr_ok_mono T T' e : T ⊆ T' -> expr_ok T e -> expr_ok T' e.
Proof. intros Hs [He Hok]. split; [by eapply in_heap_mono|done]. Qed.

Lemma ila_in_mono T T' w w' B m l : T ⊆ T' ->
  (forall i, is_Some (w_instrs w !! i) -> is_Some (w_instrs w' !! i)) ->
  (forall i, is_Some (w_ilas w !! i) -> is_Some (w_ilas w' !! i)) ->
  ila_in T w B m l -> ila_in T' w' B m l.
Proof.
  intros Hs Hi Hl []. split; [done|..].
  - intros e He. destruct (in_valid0 e He). split; [by eapply expr_ok_mono|done].
  - intros e He. destruct (in_fetch0 e He). split; [by eapply expr_ok_mono|done].
  - auto.
  - intros c Hc. destruct (in_childs0 c Hc). auto.
Qed.

Lemma instr_in_mono T T' x : T ⊆ T' -> instr_in T x -> instr_in T' x.
Proof.
  intros Hs [(e & ? & ? & ?) Hu]. split.
  - exists e. split_and!; [done|by eapply expr_ok_mono|done].
  - intros s u H2. destruct (Hu s u H2) as (e' & -> & ?). eauto using expr_ok_mono.
Qed.

Record evolves (B : objid) (T : gmap objid Expr) (w : World)
    (T' : gmap objid Expr) (w' : World) : Prop := {
  ev_sub : T ⊆ T';
  ev_in : world_in T' w' B;
  ev_equiv : equiv_world w w' }.

Section evolves.
Context (B : objid).

Lemma evolves_refl T w : world_in T w B -> evolves B T w T w.
Proof. by split. Qed.

Lemma evolves_trans T1 w1 T2 w2 T3 w3 :
  evolves B T1 w1 T2 w2 -> evolves B T2 w2 T3 w3 -> evolves B T1 w1 T3 w3.
Proof. intros [] []. split; [by etrans|done|by etrans]. Qed.

Lemma grows_evolves T w T' w' : world_in T w B -> grows T w T' w' -> evolves B T w T' w'.
Proof.
  intros [Hh Hl Hi] [Hs Hh' El Ei]. split; [done| |].
  - split; [done|..].
    + intros m l Hm. rewrite El in Hm. eapply (ila_in_mono T _ w); [done|..|by apply Hl].
      all: intros i; by rewrite ?El, ?Ei.
    + intros i x Hx. rewrite Ei in Hx. eapply instr_in_mono; [done|by eapply Hi].
  - split; intros i; by rewrite ?El, ?Ei.
Qed.

Lemma put_ila_evolves T w m l l' :
  world_in T w B -> w_ilas w !! m = Some l -> equiv_ila l l' -> ila_in T w B m l' ->
  exists w', put_ila m l' w = Ok ((), w') /\ evolves B T w T w' /\ w_ilas w' !! m = Some l' /\
    counter_ w' = counter_ w.
Proof.
  intros [Hh Hl Hi] Hm He Hl'. eexists. split; [reflexivity|].
  split; [|split; [apply lookup_insert_eq|done]]. split; [done| |].
  - split; cbn; [done| |done]. intros m' x. rewrite lookup_insert_Some. intros [[<- <-]|[Hne Hx]].
    + eapply (ila_in_mono T _ w); [done|done| |exact Hl']. intros i. cbn. rewrite lookup_insert_is_Some'. auto.
    + eapply (ila_in_mono T _ w); [done|done| |by apply Hl]. intros i. cbn. rewrite lookup_insert_is_Some'. auto.
  - split; intros i; cbn; [|done]. destruct (decide (m = i)) as [<-|].
    + rewrite lookup_insert_eq, Hm. by constructor.
    + by rewrite lookup_insert_ne.
Qed.

Lemma put_instr_evolves T w i x x' :
  world_in T w B -> w_instrs w !! i = Some x -> equiv_instr x x' -> instr_in T x' ->
  exists w', put_instr i x' w = Ok ((), w') /\ evolves B T w T w' /\
    w_instrs w' !! i = Some x' /\ counter_ w' = counter_ w.
Proof.
  intros [Hh Hl Hi] Hx He Hx'. eexists. split; [reflexivity|].
  split; [|split; [apply lookup_insert_eq|done]]. split; [done| |].
  - split; cbn; [done|..].
    + intros m l Hm. eapply (ila_in_mono T _ w); [done| |done|by apply Hl].
      intros j. cbn. rewrite lookup_insert_is_Some'. auto.
    + intros j y. rewrite lookup_insert_Some. intros [[<- <-]|[Hne Hy]]; [done|by eapply Hi].
  - split; intros j; cbn; [done|]. destruct (decide (i = j)) as [<-|].
    + rewrite lookup_insert_eq, Hx. by constructor.
    + by rewrite lookup_insert_ne.
Qed.

Lemma evolves_ila T w T' w' m l : evolves B T w T' w' -> w_ilas w !! m = Some l ->
  exists l', w_ilas w' !! m = Some l' /\ equiv_ila l l'.
Proof.
  intros [_ _ [Hl _]] Hm. specialize (Hl m). rewrite Hm in Hl. inversion Hl; subst. eauto.
Qed.

Lemma evolves_instr T w T' w' i x : evolves B T w T' w' -> w_instrs w !! i = Some x ->
  exists x', w_instrs w' !! i = Some x' /\ equiv_instr x x'.
Proof.
  intros [_ _ [_ Hi]] Hx. specialize (Hi i). rewrite Hx in Hi. inversion Hi; subst. eauto.
Qed.
End evolves.

(** The interface of the rewriting that the walk applies: it copies an
    expression to an equivalent one; [inv] is what it keeps in its own state. *)
Class RewrSpec {X} (Rewr : option Expr -> X -> M (option Expr * X))
    (inv : gmap objid Expr -> X -> Prop) : Prop := {
  inv_mono T T' x : T ⊆ T' -> inv T x -> inv T' x;
  Rewr_spec T w x e : heap_ok T w -> expr_ok T e -> inv T x ->
    exists d x' w' T', Rewr (Some e) x w = Ok ((Some d, x'), w') /\ grows T w T' w' /\
      expr_ok T' d /\ equiv_expr e d /\ inv T' x' }.

Section walk.
Context {X : Type} (Rewr : option Expr -> X -> M (option Expr * X)).
Context (inv : gmap objid Expr -> X -> Prop) {HR : RewrSpec Rewr inv} (B : objid).

(** A step of the walk succeeds and preserves the model. *)
Definition runs (f : X -> M X) (T : gmap objid Expr) (w : World) (x : X) : Prop :=
  exists x' w' T', f x w = Ok (x', w') /\ evolves B T w T' w' /\ inv T' x'.

Lemma runs_bind f g T w x : runs f T w x ->
  (forall T' w' x', evolves B T w T' w' -> inv T' x' -> runs g T' w' x') ->
  runs (fun x => f x ≫= g) T w x.
Proof using Type.
  intros (x1 & w1 & T1 & E1 & G1 & I1) Hg.
  destruct (Hg T1 w1 x1 G1 I1) as (x2 & w2 & T2 & E2 & G2 & I2). exists x2, w2, T2.
  split; [by rewrite (ST_bind_run _ _ _ _ _ E1)|]. split; [by eapply evolves_trans|done].
Qed.

Lemma runs_loop {A} (f : A -> X -> M X) l T w x :
  world_in T w B -> inv T x ->
  (forall a, a ∈ l -> forall T' w' x', evolves B T w T' w' -> inv T' x' -> runs (f a) T' w' x') ->
  runs (foldM f l) T w x.
Proof using Type.
  revert T w x. induction l as [|a l IH]; intros T w x Hw Hx Hf.
  - exists x, w, T. split; [done|]. split; [by apply evolves_refl|done].
  - apply runs_bind; [apply Hf; [by left|by apply evolves_refl|done]|].
    intros T1 w1 x1 G1 I1. apply IH; [by destruct G1|done|].
    intros b Hb T2 w2 x2 G2 I2. apply Hf; [by right|by eapply evolves_trans|done].
Qed.

Lemma field_runs fld set T w x m l :
  world_in T w B -> inv T x -> w_ilas w !! m = Some l ->
  (forall e, fld l = Some e -> expr_ok T e) ->
  (forall T w e d, world_in T w B -> w_ilas w !! m = Some l -> fld l = Some e ->
     expr_ok T d -> equiv_expr e d ->
     exists w', set m (Some d) w = Ok ((), w') /\ evolves B T w T w') ->
  runs (rewrite_field Rewr fld set m) T w x.
Proof using HR.
  intros Hw Hx Hm He Hset. unfold runs, rewrite_field, ila.
  cbv [mbind ST_bind Res_bind]. rewrite Hm. cbn [deref].
  destruct (fld l) as [e|] eqn:Ef.
  - destruct (Rewr_spec T w x e) as (d & x1 & w1 & T1 & -> & G & Hd & Heq & I1);
      [by destruct Hw|by apply He|done|].
    pose proof (grows_evolves B _ _ _ _ Hw G) as G'.
    destruct (Hset T1 w1 e d) as (w2 & -> & G2); [by destruct G'| |done..|].
    { by rewrite (grows_ilas _ _ _ _ G). }
    exists x1, w2, T1. split; [done|]. split; [by eapply evolves_trans|done].
  - exists x, w, T. split; [done|]. split; [by apply evolves_refl|done].
Qed.

Lemma equiv_is_bool e d : equiv_expr e d -> Exprs.is_bool e = true -> Exprs.is_bool d = true.
Proof using Type. unfold Exprs.is_bool. by intros [-> _]. Qed.

Lemma valid_runs T w x m l : world_in T w B -> inv T x -> w_ilas w !! m = Some l ->
  runs (rewrite_field Rewr valid_ Ila.ForceSetValid m) T w x.
Proof using HR.
  intros Hw Hx Hm. pose proof (in_ilas _ _ _ Hw m l Hm) as Hl.
  eapply field_runs; [done..|intros e He; by destruct (in_valid _ _ _ _ _ Hl e He)|].
  intros T1 w1 e d Hw1 Hm1 Hv Hd Heq. pose proof (in_ilas _ _ _ Hw1 m l Hm1) as Hl1.
  destruct (in_valid _ _ _ _ _ Hl1 e Hv) as [_ Hb].
  destruct (put_ila_evolves B T1 w1 m l (Ila.with_valid l (Some d)) Hw1 Hm1) as (w2 & E & G & _).
  - exists (Some d), (fetch_ l). split; [by destruct l|]. rewrite Hv. by split; [constructor|].
  - destruct Hl1. split; cbn; try done. intros ? [= <-]. split; [done|by eapply equiv_is_bool].
  - exists w2. split; [|done]. unfold Ila.ForceSetValid, notnull.
    rewrite (lift_bind_run _ _ _ d) by done. unfold assert_.
    rewrite (lift_bind_run _ _ _ tt) by (by rewrite (equiv_is_bool _ _ Heq Hb)).
    unfold Ila.update_ila, ila. cbv [mbind ST_bind Res_bind]. by rewrite Hm1.
Qed.

Lemma fetch_runs T w x m l : world_in T w B -> inv T x -> w_ilas w !! m = Some l ->
  runs (rewrite_field Rewr fetch_ Ila.ForceSetFetch m) T w x.
Proof using HR.
  intros Hw Hx Hm. pose proof (in_ilas _ _ _ Hw m l Hm) as Hl.
  eapply field_runs; [done..|intros e He; by destruct (in_fetch _ _ _ _ _ Hl e He)|].
  intros T1 w1 e d Hw1 Hm1 Hv Hd Heq. pose proof (in_ilas _ _ _ Hw1 m l Hm1) as Hl1.
  destruct (in_fetch _ _ _ _ _ Hl1 e Hv) as [_ Hb].
  assert (Hb' : Exprs.is_bv d 0 = true) by (unfold Exprs.is_bv in *; by rewrite (proj1 Heq)).
  destruct (put_ila_evolves B T1 w1 m l (Ila.with_fetch l (Some d)) Hw1 Hm1) as (w2 & E & G & _).
  - exists (valid_ l), (Some d). split; [by destruct l|]. rewrite Hv. by split; [|constructor].
  - destruct Hl1. split; cbn; try done. by intros ? [= <-].
  - exists w2. split; [|done]. unfold Ila.ForceSetFetch, notnull.
    rewrite (lift_bind_run _ _ _ d) by done. unfold assert_.
    rewrite (lift_bind_run _ _ _ tt) by (by rewrite Hb').
    unfold Ila.update_ila, ila. cbv [mbind ST_bind Res_bind]. by rewrite Hm1.
Qed.

Lemma update_runs T w x i y s : world_in T w B -> inv T x -> w_instrs w !! i = Some y ->
  s ∈ dom (updates_ y) -> runs (rewrite_update Rewr i s) T w x.
Proof using HR.
  intros Hw Hx Hi [u Hu]%elem_of_dom. pose proof (in_instr _ _ _ Hw i y Hi) as Hy.
  destruct (in_updates _ _ Hy s u Hu) as (e & -> & He).
  destruct (Rewr_spec T w x e) as (d & x1 & w1 & T1 & E1 & G & Hd & Heq & I1);
    [by destruct Hw|done..|].
  pose proof (grows_evolves B _ _ _ _ Hw G) as G'.
  assert (Hi1 : w_instrs w1 !! i = Some y) by by rewrite (grows_instrs _ _ _ _ G).
  pose proof (in_instr _ _ _ (ev_in _ _ _ _ _ G') i y Hi1) as Hy1.
  destruct (put_instr_evolves B T1 w1 i y (Instrs.with_updates y (<[s := Some d]> (updates_ y))))
    as (w2 & E2 & G2 & _); [by destruct G'|done|..].
  - exists (decode_ y), (<[s := Some d]> (updates_ y)). split; [by destruct y|]. split; [done|].
    intros s'. destruct (decide (s = s')) as [<-|].
    + rewrite lookup_insert_eq, Hu. do 2 constructor. exact Heq.
    + by rewrite lookup_insert_ne.
  - destruct Hy1 as [Hdec Hup]. split; cbn; [done|]. intros s' u. rewrite lookup_insert_Some.
    intros [[<- <-]|[_ Hu']]; [by exists d|by eapply Hup].
  - exists x1, w2, T1. split; [|split; [by eapply evolves_trans|done]].
    unfold rewrite_update, instr_. cbv [mbind ST_bind Res_bind]. rewrite Hi. cbn [deref].
    unfold Instrs.update. rewrite Hu, E1. unfold Instrs.ForceAddUpdate, instr_.
    cbv [mbind ST_bind Res_bind]. rewrite Hi1. cbn [deref]. by rewrite E2.
Qed.

Lemma decode_runs T w x i y : world_in T w B -> inv T x -> w_instrs w !! i = Some y ->
  runs (rewrite_decode Rewr i) T w x.
Proof using HR.
  intros Hw Hx Hi. destruct (in_instr _ _ _ Hw i y Hi) as [(e & Hdec & He & Hb) Hup].
  destruct (Rewr_spec T w x e) as (d & x1 & w1 & T1 & E1 & G & Hd & Heq & I1);
    [by destruct Hw|done..|].
  pose proof (grows_evolves B _ _ _ _ Hw G) as G'.
  assert (Hi1 : w_instrs w1 !! i = Some y) by by rewrite (grows_instrs _ _ _ _ G).
  pose proof (equiv_is_bool _ _ Heq Hb) as Hbd.
  destruct (put_instr_evolves B T1 w1 i y (Instrs.with_decode y (Some d)))
    as (w2 & E2 & G2 & _); [by destruct G'|done|..].
  - exists (Some d), (updates_ y). split; [by destruct y|]. split; [|done].
    rewrite Hdec. by constructor.
  - destruct (in_instr _ _ _ (ev_in _ _ _ _ _ G') i y Hi1). split; cbn; [by exists d|done].
  - exists x1, w2, T1. split; [|split; [by eapply evolves_trans|done]].
    unfold rewrite_decode. rewrite (ST_bind_run _ _ _ _ _ (instr_run _ _ _ Hi)).
    unfold notnull at 1. rewrite (lift_bind_run _ _ _ e) by by rewrite Hdec.
    rewrite (ST_bind_run _ _ _ _ _ E1). cbn beta iota. unfold Instrs.ForceSetDecode, instr_.
    cbv [mbind ST_bind Res_bind notnull lift not_null check_]. rewrite Hbd. cbn [ila_check].
    rewrite Hi1. cbn [deref]. by rewrite E2.
Qed.

Lemma elem_of_updated_states y s : s ∈ Instrs.updated_states y <-> s ∈ dom (updates_ y).
Proof using Type.
  unfold Instrs.updated_states. by rewrite (merge_sort_Permutation _ _), elem_of_elements.
Qed.

Lemma equiv_instr_dom y z : equiv_instr y z -> dom (updates_ y) = dom (updates_ z).
Proof using Type.
  intros (d & u & -> & _ & Hu). apply set_eq. intros s. rewrite !elem_of_dom. cbn.
  specialize (Hu s). by inversion Hu; rewrite <- ?H, <- ?H0, <- ?H1.
Qed.

Lemma instr_runs T w x i : world_in T w B -> inv T x -> is_Some (w_instrs w !! i) ->
  runs (rewrite_instr Rewr i) T w x.
Proof using HR.
  intros Hw Hx [y Hi]. destruct (decode_runs T w x i y Hw Hx Hi) as (x1 & w1 & T1 & E1 & G1 & I1).
  destruct (evolves_instr B _ _ _ _ _ _ G1 Hi) as (z & Hz & Hyz).
  destruct (runs_loop (rewrite_update Rewr i) (Instrs.updated_states z) T1 w1 x1)
    as (x2 & w2 & T2 & E2 & G2 & I2); [by destruct G1|done|..].
  { intros s Hs T' w' x' G' I'. destruct (evolves_instr B _ _ _ _ _ _ G' Hz) as (z' & Hz' & Hzz).
    eapply update_runs; [by destruct G'|done|done|].
    by rewrite <- (equiv_instr_dom _ _ Hzz), <- elem_of_updated_states. }
  exists x2, w2, T2. split; [|split; [by eapply evolves_trans|done]].
  unfold rewrite_instr. rewrite (ST_bind_run _ _ _ _ _ E1).
  by rewrite (ST_bind_run _ _ _ _ _ (instr_run _ _ _ Hz)).
Qed.

(** The walk.  A child is younger than its parent, so [B - m] bounds the depth
    below [m]. *)
Lemma RewriteGeneric_runs n : forall T w x m, world_in T w B -> inv T x ->
  is_Some (w_ilas w !! m) -> (N.to_nat (B - m) < n)%nat ->
  runs (RewriteGeneric Rewr n m) T w x.
Proof using HR.
  induction n as [|n IH]; [lia|]. intros T w x m Hw Hx [l Hm] Hn. cbn [RewriteGeneric].
  apply runs_bind; [by eapply valid_runs|]. intros T1 w1 x1 G1 I1.
  destruct (evolves_ila B _ _ _ _ _ _ G1 Hm) as (l1 & Hm1 & _).
  apply runs_bind; [eapply fetch_runs; [by destruct G1|done|exact Hm1]|].
  intros T2 w2 x2 G2 I2.
  destruct (evolves_ila B _ _ _ _ _ _ G2 Hm1) as (l2 & Hm2 & _).
  pose proof (in_ilas _ _ _ (ev_in _ _ _ _ _ G2) m l2 Hm2) as Hl.
  assert (Hrun : runs (fun x => s ← foldM (rewrite_instr Rewr) (KeyVec.vec_ (instrs_ l2)) x;
                           foldM (RewriteGeneric Rewr n) (KeyVec.vec_ (childs_ l2)) s) T2 w2 x2).
  { apply runs_bind.
    - apply runs_loop; [by destruct G2|done|]. intros i Hi T' w' x' G' I'.
      apply instr_runs; [by destruct G'|done|].
      destruct (in_instrs _ _ _ _ _ Hl i Hi) as [y Hy].
      destruct (evolves_instr B _ _ _ _ _ _ G' Hy) as (z & Hz & _). by exists z.
    - intros T3 w3 x3 G3 I3. apply runs_loop; [by destruct G3|done|]. intros c Hc T' w' x' G' I'.
      destruct (in_childs _ _ _ _ _ Hl c Hc) as [[lc Hlc] Hlt].
      destruct (evolves_ila B _ _ _ _ _ _ G3 Hlc) as (lc3 & Hlc3 & _).
      destruct (evolves_ila B _ _ _ _ _ _ G' Hlc3) as (lc' & Hlc' & _).
      apply IH; [by destruct G'|done|by exists lc'|].
      pose proof (in_bound _ _ _ _ _ (in_ilas _ _ _ (ev_in _ _ _ _ _ G') c lc' Hlc')). lia. }
  destruct Hrun as (x4 & w4 & T4 & E4 & H4). exists x4, w4, T4. split; [|done].
  by rewrite (ST_bind_run _ _ _ _ _ (ila_run _ _ _ Hm2)).
Qed.
End walk.

(** ** The two passes *)
Section passes.
Context {L : Layout}.

(** A function object, with its table, is what the walk applies. *)
#[export] Instance rewr_with_spec RewriteOp {Hop : RewriteOpLaws id RewriteOp} :
  RewrSpec (rewr_with RewriteOp) (table_ok id).
Proof.
  split; [intros T T' x; apply table_mono|].
  intros T w rule_ e Hh [He Hok] Ht.
  destruct (visit_ok id RewriteOp ∅ (fun _ _ _ => eq_refl) e T w rule_)
    as (r & w' & T' & E & [Hg Ht' Hs Hd _]); [done..|apply map_empty_subseteq|].
  apply Forall_inv in Hd. assert (He' : in_heap T' e) by by eapply grows_heap.
  destruct (table_entry _ _ _ _ Ht' He' Hd) as (d & Hr & Hsame & Hin).
  exists d, r, w', T'. split; [|split; [done|]].
  - unfold rewr_with, notnull. rewrite (lift_bind_run _ _ _ e) by done.
    rewrite (ST_bind_run _ _ _ _ _ E), (lift_bind_run _ _ _ (Some d)); [done|].
    unfold get. by rewrite Hr.
  - destruct Hsame as [Hokd Hsd Hed]. split; [by split|]. by split.
Qed.

#[export] Instance rewr_with_null_spec RewriteOp {Hop : RewriteOpLaws id RewriteOp} :
  RewrSpec (rewr_with_null RewriteOp) (table_ok id).
Proof.
  split; [intros T T' x; apply table_mono|]. exact (Rewr_spec (Rewr := rewr_with RewriteOp)).
Qed.

#[export] Instance StoreLoad_laws tr {Htr : EnvTr tr} : RewriteOpLaws tr StoreLoad.RewriteOp.
Proof. exact (RewriteOp_laws tr). Qed.

Lemma pass_run Rewr T w m :
  RewrSpec Rewr (table_ok id) -> world_in T w (counter_ w) -> is_Some (w_ilas w !! m) ->
  exists w' T', (n ← gets depth; RewriteGeneric Rewr n m ∅;; mret true) w = Ok (true, w') /\
    evolves (counter_ w) T w T' w'.
Proof.
  intros HR Hw Hm.
  destruct (RewriteGeneric_runs Rewr (table_ok id) (counter_ w) (depth w) T w ∅ m)
    as (r & w' & T' & E & G & _); [done|by intros i v|done| |].
  { unfold depth. lia. }
  exists w', T'. split; [|done]. rewrite (ST_bind_run _ _ _ (depth w) w) by done.
  by rewrite (ST_bind_run _ _ _ _ _ E).
Qed.

(** C14.  The store passes preserve the model.  On a hierarchy whose expressions
    are well-sorted and free of the operators the rewriting does not cover, both
    passes succeed; afterwards the valid and fetch expressions of every ILA and
    the decode and update expressions of every instruction have the sort and the
    value they had, in every environment, and nothing else has changed. *)
Theorem passes_preserve T w m :
  world_in T w (counter_ w) -> is_Some (w_ilas w !! m) ->
  (exists w' T', RewriteConditionalStore m w = Ok (true, w') /\ T ⊆ T' /\
     world_in T' w' (counter_ w) /\ equiv_world w w') /\
  (exists w' T', RewriteStoreLoad m w = Ok (true, w') /\ T ⊆ T' /\
     world_in T' w' (counter_ w) /\ equiv_world w w').
Proof.
  intros Hw Hm. split.
  - destruct (pass_run (rewr_with CondStore.RewriteOp) T w m _ Hw Hm) as (w' & T' & E & []).
    by exists w', T'.
  - destruct (pass_run (rewr_with_null StoreLoad.RewriteOp) T w m _ Hw Hm) as (w' & T' & E & []).
    by exists w', T'.
Qed.

(** ** The hidden method of [FuncObjRewrStoreLoad] *)
Section load.
Context (T : gmap objid Expr) (w : World) (rule_ : ExprMap) (h : Hdr) (m a n b : Expr).
Context (aw dw : Z).
Hypothesis Hheap : heap_ok T w.
Hypothesis Hn : rule_ !! Exprs.id m = Some (Some n) /\ same id m n /\ in_heap T n.
Hypothesis Hb : rule_ !! Exprs.id a = Some (Some b) /\ same id a b /\ in_heap T b.
Hypothesis Hwt : wt (ExprOp h kLoad None [m; a] []) = true.
Hypothesis Hm : Exprs.sort m = SortMem aw dw.
Hypothesis Ha : Exprs.sort a = SortBv aw.
Hypothesis Hh : h_sort h = SortBv dw.

(** [ITE(b == a', d', LOAD(m', b))] for a store of [d'] at [a'] into [m']. *)
Definition load_ite (m' a' d' : Expr) : M Expr :=
  cond ← asthub.Eq b a'; ld ← asthub.Load m' b; asthub.Ite cond d' ld.

Lemma load_ite_builds m' a' d' :
  Forall (in_heap T) [m'; a'; d'] -> Forall rw_ok [m'; a'; d'] ->
  Exprs.sort m' = SortMem aw dw -> Exprs.sort a' = SortBv aw -> Exprs.sort d' = SortBv dw ->
  builds T w (load_ite m' a' d') (SortBv dw) (fun ρ =>
    x ← eval ρ a'; y ← eval ρ b; v ← eval ρ d'; z ← op_sem kLoad [] [default (VBool true) (eval ρ m'); y];
    Some (if bool_decide (y = x) then v else z)).
Proof using Hheap Hb Ha.
  intros Hin Hok Hsm Hsa Hsd. destruct Hb as (_ & Sb & Ib). pose proof (same_ok _ _ _ Sb) as Ob.
  assert (Hsb : Exprs.sort b = SortBv aw) by by rewrite (same_sort _ _ _ Sb).
  rewrite !Forall_cons in Hin, Hok. destruct Hin as (Im & Ia & Id & _), Hok as (Om & Oa & Od & _).
  assert (Hbv : forall ρ, env_ok ρ -> exists v, eval ρ d' = Some v).
  { intros ρ Hρ. destruct (eval_sound _ _ Hρ (proj1 Od)) as (v & -> & _). by exists v. }
  eapply builds_bind.
  { apply (builds_in T w T w kEqual [b; a'] []); [by apply grows_refl|each..|done|done|].
    cbn. by rewrite Hsb, Hsa, decide_True. }
  intros cond T1 w1 G1 Ic Oc Sc Vc.
  assert (Hmono : forall x, in_heap T x -> in_heap T1 x) by (intros x; by apply (grows_heap _ _ _ _ _ G1)).
  eapply builds_bind.
  { apply (builds_in T w T1 w1 kLoad [m'; b] []); [done|each..|done|done|].
    cbn. by rewrite Hsm, Hsb, Z.eqb_refl. }
  intros ld T2 w2 G2 Il Ol Sl Vl.
  assert (G : grows T w T2 w2) by by eapply grows_trans.
  eapply builds_ext; [|apply (builds_in T w T2 w2 kIfThenElse [cond; d'; ld] []);
    [done|each|each|done|done|]].
  - intros ρ Hρ. unfold evals in *. cbn [mapM] in *. rewrite Vc, Vl by done.
    destruct (asthub.eval_bv ρ a' aw Hρ (proj1 Oa) Hsa) as (x & -> & _).
    destruct (asthub.eval_bv ρ b aw Hρ (proj1 Ob) Hsb) as (y & -> & _).
    destruct (eval_mem ρ m' aw dw Hρ (proj1 Om) Hsm) as (z & -> & _).
    destruct (Hbv ρ Hρ) as [v ->]. cbn. by rewrite Z.eqb_refl.
  - by apply (grows_heap _ _ _ _ _ G2).
  - by apply (grows_heap _ _ _ _ _ G).
  - cbn. by rewrite Sc, Hsd, Sl, decide_True.
Qed.

Lemma Ite_uid c x y w0 d w' : asthub.Ite c x y w0 = Ok (d, w') ->
  Exprs.GetUidExprOp d = Ok kIfThenElse.
Proof using Type.
  rewrite (ExprOps.construct_run kIfThenElse [c; x; y] [] _ w0 eq_refl).
  destruct (ExprOps.ctor_sort _ _ _); [|done]. by intros [= <- _].
Qed.

(** The pass that is never applied.  On a load whose memory was copied to a
    store into a variable or constant, the method written for the case gives a
    choice that means the same as the load; but it takes its argument by another
    type than the virtual method, and the one the traversal calls gives a load
    again. *)
Theorem StoreLoad_hidden hn m' a' d' :
  n = ExprOp hn kStore None [m'; a'; d'] [] -> Exprs.is_op m' = false ->
  (exists d w', StoreLoad.RewriteOp rule_ (ExprOp h kLoad None [m; a] []) w = Ok (Some d, w') /\
     Exprs.GetUidExprOp d = Ok kLoad) /\
  (exists d w' T', StoreLoad.RewriteOp_hidden rule_ (ExprOp h kLoad None [m; a] []) w =
       Ok (Some d, w') /\ grows T w T' w' /\ in_heap T' d /\ Exprs.GetUidExprOp d = Ok kIfThenElse /\
     same id (ExprOp h kLoad None [m; a] []) d).
Proof using All.
  intros En Hop. set (e := ExprOp h kLoad None [m; a] []).
  destruct Hn as (Rn & Sn & In), Hb as (Rb & Sb & Ib).
  assert (Hsn : Exprs.sort n = SortMem aw dw) by by rewrite (same_sort _ _ _ Sn).
  assert (Hsb : Exprs.sort b = SortBv aw) by by rewrite (same_sort _ _ _ Sb).
  assert (Hst : is_store n = true) by by subst n.
  destruct (store_parts T w aw dw Hheap n) as (hn' & m0 & a0 & d0 & E & Hin & Hok & Sm & Sa & Sd);
    [by split; [|split; [eapply same_ok|]]|done|].
  rewrite En in E. injection E as <- <- <- <-. split.
  - do 2 eexists. split.
    + unfold StoreLoad.RewriteOp, RewriteOp. step. eapply rewr2_run; [reflexivity|done|done|].
      rewrite (ExprOps.construct_run kLoad [n; b] [] _ w eq_refl). cbn [fmap list_fmap].
      rewrite Hsn, Hsb. cbn. by rewrite Z.eqb_refl.
    + done.
  - destruct (load_ite_builds m' a' d' Hin Hok Sm Sa Sd)
      as (d & w' & T' & Hrun & Hg & Hd & Hokd & Hsd & Hev).
    pose proof Hrun as Hrun'. unfold load_ite in Hrun'. run_inv_in Hrun'.
    exists d, w', T'. split_and!; [|done|done| |split; [done|by rewrite Hsd|]].
    + unfold StoreLoad.RewriteOp_hidden. step. cbn [bool_decide]. rewrite bool_decide_true by done.
      unfold StoreLoad.RewriteLoad.
      rewrite (ST_bind_run _ _ _ _ _ (get_arg_run rule_ e 0 m n w eq_refl Rn)). step.
      replace (Exprs.is_var n || Exprs.is_const n) with false by by subst n.
      rewrite (lift_bind_run _ _ _ _ (IsStore_run n (is_mem_sort aw dw n Hsn))), Hst.
      rewrite (ST_bind_run _ _ _ (Some m') w) by by subst n. rewrite Hop.
      rewrite (ST_bind_run _ _ _ _ _ (get_arg_run rule_ e 1 a b w eq_refl Rb)).
      rewrite (lift_bind_run _ _ _ a') by by subst n. step. do 2 call.
      rewrite (lift_bind_run _ _ _ d') by by subst n. by call.
    + by eapply Ite_uid.
    + intros ρ Hρ. rewrite Hev by done. unfold e. rewrite eval_op. unfold evals, id. cbn [mapM].
      destruct (eval_store aw dw ρ hn m' a' d' Hρ Hok Sm Sa Sd) as (mm & x & v & Em & Ex & Ed & _ & Es).
      pose proof (same_eval _ _ _ Sn ρ Hρ) as Vn. pose proof (same_eval _ _ _ Sb ρ Hρ) as Vb.
      unfold id in Vn, Vb. rewrite <- Vn, <- Vb, En, Es, Em, Ex, Ed.
      destruct (asthub.eval_bv ρ b aw Hρ (proj1 (same_ok _ _ _ Sb)) Hsb) as (y & -> & _).
      cbn. rewrite !Z.eqb_refl. cbn. rewrite mem_load_store.
      case_decide; [by subst; rewrite bool_decide_true|].
      rewrite bool_decide_false; [done|congruence].
Qed.
End load.
End passes.

(** A model with the update [ITE(c, STORE(m, a, d), m)] of a memory. *)
Module Sample.
Definition c := Samples.var 1 "c" SortBool.
Definition m := Samples.var 2 "m" (SortMem 8 8).
Definition a := Samples.var 3 "a" (SortBv 8).
Definition d := Samples.var 4 "d" (SortBv 8).
Definition op3 (id : objid) (s : Sort) (op : AstUidExprOp) (x y z : Expr) : Expr :=
  ExprOp {| h_id := id; h_name := "$"; h_host := None; h_sort := s |} op None [x; y; z] [].
Definition store := op3 5 (SortMem 8 8) kStore m a d.
Definition choice := op3 6 (SortMem 8 8) kIfThenElse c store m.
Definition load := Samples.op2 7 (SortBv 8) kLoad store d.
Definition heap : gmap objid Expr := heap_of [c; m; a; d; store; choice; load].

Definition instr : Instr :=
  {| i_name := "i"; i_host := Some 8%N; decode_ := Some c;
     updates_ := {[ "m" := Some choice ]}; prog_ := None |}.
Definition top : InstrLvlAbs :=
  {| l_name := "top"; parent_ := None; inputs_ := KeyVec.empty; states_ := KeyVec.empty;
     input_objects_ := KeyVec.empty; state_objects_ := KeyVec.empty; inits_ := [];
     fetch_ := None; valid_ := Some c;
     instrs_ := (KeyVec.push_back KeyVec.empty "i" 9%N).2;
     childs_ := KeyVec.empty; instr_seq_ := None; is_spec_ := true |}.
Definition world : World :=
  {| counter_ := 9; w_ilas := {[ 8%N := top ]}; w_instrs := {[ 9%N := instr ]} |}.

Lemma sample_heap_ok : heap_ok heap world.
Proof.
  apply heap_of_ok; [apply (bool_decide_unpack _); reflexivity|].
  each; (split; [by apply N.leb_le|vm_compute; each]).
Qed.

Lemma sample_world_in : world_in heap world 9.
Proof.
  split; [apply sample_heap_ok|..]; cbn.
  - intros i l [<- <-]%lookup_singleton_Some. split; cbn; [done|..].
    + intros e [= <-]. done.
    + done.
    + intros i ->%list_elem_of_singleton. by eexists.
    + by intros ? ?%elem_of_nil.
  - intros i x [<- <-]%lookup_singleton_Some. split; cbn.
    + by exists c.
    + intros s u [<- <-]%lookup_singleton_Some. by exists choice.
Qed.
End Sample.

Lemma passes_preserve_witness :
  let L := layout_id in
  exists w' T', RewriteConditionalStore 8 Sample.world = Ok (true, w') /\ Sample.heap ⊆ T' /\
     world_in T' w' 9 /\ equiv_world Sample.world w'.
Proof.
  intros L. refine (proj1 (passes_preserve Sample.heap Sample.world 8 Sample.sample_world_in _)).
  by exists Sample.top.
Defined.

Lemma StoreLoad_hidden_witness :
  let L := layout_id in
  let rule := {[ 5%N := Some Sample.store; 4%N := Some Sample.d ]} : ExprMap in
  exists d w', StoreLoad.RewriteOp rule Sample.load Sample.world = Ok (Some d, w') /\
    Exprs.GetUidExprOp d = Ok kLoad.
Proof.
  intros L rule.
  assert (Hs : forall e, rw_ok e -> same id e e) by (intros; by split).
  refine (proj1 (StoreLoad_hidden Sample.heap Sample.world rule (Exprs.hdr Sample.load)
    Sample.store Sample.d Sample.store Sample.d 8 8 Sample.sample_heap_ok _ _ eq_refl eq_refl eq_refl
    eq_refl _ _ _ _ eq_refl eq_refl)); split_and!; try reflexivity; by apply Hs.
Defined.
