(* ===== verification/SolverPasses.v ===== *)
(** * Passes that query the solver

    [p_sanity_check_and_fix.cc], [p_infer_child_prog_cfg.cc],
    [p_map_child_prog_entry.cc] and [p_simplify_semantic.cc] of
    [src/ila-mngr].  A fresh context and solver per query, or a solver that is
    reset before each one, is one call of [z_check]; the time-out that
    [SimplifySemantic] sets only changes which answers are [unknown].  A loop
    whose body does not change what it runs over reads it once. *)
From S2P Require Import Prelude Sort Values Container Expr Smt Solver World Z3Expr ExprOp AstHub Collect Unroller.
Local Open Scope Z_scope.

Section terms.
Context {Z3 : Z3Api}.
(** [operator!] and [operator!=] of [z3::expr] ([mk_distinct] of two terms). *)
Definition znot (a : zexpr) : Res zexpr := throw (z_app SNot [a]).
Definition zand (a b : zexpr) : Res zexpr := throw (z_app SAnd [a; b]).
Definition zor (a b : zexpr) : Res zexpr := throw (z_app SOr [a; b]).
Definition zneq (a b : zexpr) : Res zexpr := e ← zeq a b; znot e.
End terms.

(** ** [SanityCheckAndFix] *)
Module SanityCheck.
Section ops.
Context {Z3 : Z3Api} {SV : Z3Solver Z3} {L : Layout}.
Import Collect.absknob.
(** [gen.GetExpr]. *)
Definition gen (e : Expr) : M zexpr := fun w => z ← GetExpr (w_ilas w) e ""; Ok (z, w).

Definition valid_or_true (l : InstrLvlAbs) : M Expr :=
  match valid_ l with Some v => mret v | None => asthub.BoolConst true end.

Definition overlap (valid : Expr) (i j : objid) : M bool :=
  x ← instr_ i;
  y ← instr_ j;
  di ← lift (deref (decode_ x));
  dj ← lift (deref (decode_ y));
  non_det ← asthub.And di dj;
  zv ← gen valid;
  zn ← gen non_det;
  mret (bool_decide (z_check [zv; zn] = sat)).

(** The two loops; [true] when an overlap was found. *)
Fixpoint overlap_row (valid : Expr) (i : objid) (js : list objid) : M bool :=
  match js with
  | [] => mret false
  | j :: js => b ← overlap valid i j; if (b : bool) then mret true else overlap_row valid i js
  end.
Fixpoint overlap_rows (valid : Expr) (is_ : list objid) : M bool :=
  match is_ with
  | [] => mret false
  | i :: is_ => b ← overlap_row valid i is_; if (b : bool) then mret true else overlap_rows valid is_
  end.

(** [DetermVisitor], whose member is [is_determ]. *)
Definition determ_pre (loc : objid) (is_determ : bool) : M (bool * bool) :=
  mret (negb is_determ, is_determ).
Definition determ_post (loc : objid) (is_determ : bool) : M bool :=
  if negb is_determ then mret is_determ else
  l ← ila loc;
  valid ← valid_or_true l;
  b ← overlap_rows valid (KeyVec.vec_ (instrs_ l));
  mret (negb b).

Definition CheckDeterminism (m : objid) : M bool := fun w =>
  Ila.DepthFirstVisitPrePost determ_pre determ_post (tree_fuel w) m true w.

Definition or_decode (i : objid) (acc : Expr) : M Expr :=
  x ← instr_ i;
  host ← notnull (i_host x);
  l ← ila host;
  valid ← valid_or_true l;
  d ← lift (deref (decode_ x));
  decode ← asthub.And valid d;
  asthub.Or acc decode.

Definition SanityCheckAndFix (m : objid) : M bool :=
  is_determ ← CheckDeterminism m;
  acc ← asthub.BoolConst false;
  instrs ← GetInstrTree m;
  acc ← foldM or_decode instrs acc;
  z ← gen acc;
  nz ← lift (znot z);
  let is_complete := bool_decide (z_check [nz] = unsat) in
  if is_complete then mret (is_determ && is_complete) else
  l ← ila m;
  vars ← lift (GetVar acc);
  let clean := forallb (fun v => is_some (Ila.find_state l (Exprs.name v)) ||
                                 is_some (Ila.find_input l (Exprs.name v))) vars in
  (if clean then
     default_instr ← Ila.NewInstr m "PASS_ADD_DEFAULT_INSTR";
     n ← asthub.Not acc;
     Instrs.set_decode default_instr (Some n)
   else mret ());;
  mret (is_determ && (is_complete && clean)).
End ops.
End SanityCheck.

(** ** [InferChildProgCFG] *)
Module InferCFG.
Section ops.
Context {Z3 : Z3Api} {SV : Z3Solver Z3} {L : Layout}.
Import Collect.absknob.
(** A fresh [PathUnroll] object. *)
Definition with_unroller {A} (body : U A) : M A := fun w =>
  '(a, s) ← body (w, Unroller.New ""); Ok (a, s.1).

Definition GetZ3Expr_opt (e : option Expr) (t : Z) : U zexpr := e ← lift (deref e); GetZ3Expr_at e t.

(** The query of [CheckCausality]. *)
Definition can_trigger (a b : objid) : M bool :=
  with_unroller
    (path ← PathUnroll.PathAssn [a] 0;
     y ← on_world (instr_ b);
     decode ← GetZ3Expr_opt (decode_ y) 1;
     z ← lift (zand path decode);
     mret (bool_decide (z_check [z] = sat))).

Definition CheckCausality (child a b : objid) : M unit :=
  res ← can_trigger a b;
  if (res : bool) then c ← asthub.BoolConst true; Ila.AddSeqTran child a b (Some c) else mret ().

Fixpoint check_pairs (child : objid) (instrs : list objid) : M unit :=
  match instrs with
  | [] => mret ()
  | j :: instrs =>
      CheckCausality child j j;;
      foldM (fun k _ => CheckCausality child j k;; CheckCausality child k j) instrs ();;
      check_pairs child instrs
  end.

Definition infer_child (child : objid) : M unit :=
  l ← ila child;
  match instr_seq_ l with
  | Some _ => mret ()
  | None => check_pairs child (KeyVec.vec_ (instrs_ l))
  end.

Fixpoint infer (n : nat) (m : objid) : M unit :=
  match n with
  | O => lift (Fail EDiverge)
  | S n => l ← ila m; foldM (fun c _ => infer_child c;; infer n c) (KeyVec.vec_ (childs_ l)) ()
  end.
Definition InferChildProgCFG (m : objid) : M bool := fun w =>
  (infer (tree_fuel w) m;; mret true) w.
End ops.
End InferCFG.

(** ** [MapChildProgEntryPoint] *)
Module MapEntry.
Section ops.
Context {Z3 : Z3Api} {SV : Z3Solver Z3} {L : Layout}.
Import Collect.absknob.
Import InferCFG.

Definition CheckCausality (a b : objid) : M bool :=
  with_unroller
    (path ← PathUnroll.PathAssn [a] 0;
     y ← on_world (instr_ b);
     decode ← GetZ3Expr_opt (decode_ y) 1;
     host ← on_world (notnull (i_host y));
     l ← on_world (ila host);
     valid_prev ← GetZ3Expr_opt (valid_ l) 0;
     valid_next ← GetZ3Expr_opt (valid_ l) 1;
     nv ← lift (znot valid_prev);
     z1 ← lift (zand nv path);
     z2 ← lift (zand z1 decode);
     z ← lift (zand z2 valid_next);
     mret (bool_decide (z_check [z] = sat))).

Definition set_program_once (instr child : objid) : M unit :=
  x ← instr_ instr;
  if is_some (prog_ x) then mret () else Instrs.set_program instr (Some child).

Definition set_seq_root (child k : objid) : M unit :=
  Ila.update_ila child (fun l =>
    s ← deref (instr_seq_ l); Ok (Ila.with_instr_seq l (Some (InstrSeqs.set_root s k)))).

Definition try_root (instr child k : objid) (_ : unit) : M unit :=
  res ← CheckCausality instr k;
  l ← ila child;
  s ← lift (deref (instr_seq_ l));
  if res && negb (is_some (root_ s)) then set_seq_root child k;; set_program_once instr child
  else mret ().

Definition map_child (instr child : objid) (_ : unit) : M unit :=
  l ← ila child;
  match instr_seq_ l with
  | None => mret ()
  | Some s =>
      match root_ s with
      | Some entry =>
          res ← CheckCausality instr entry;
          if (res : bool) then set_program_once instr child else mret ()
      | None => foldM (try_root instr child) (KeyVec.vec_ (instrs_ l)) ()
      end
  end.

Definition MapChildProgEntryPoint (m : objid) : M bool :=
  l ← ila m;
  foldM (fun instr _ => foldM (map_child instr) (KeyVec.vec_ (childs_ l)) ())
    (KeyVec.vec_ (instrs_ l)) ();;
  mret true.
End ops.
End MapEntry.

(** ** [SimplifySemantic] *)
Module Simplify.
Section ops.
Context {Z3 : Z3Api} {SV : Z3Solver Z3} {L : Layout}.
Import Collect.absknob.
Section subtree.
(** [FuncObjEqSubtree(target, assump)]; its state is [rule_] and [candidate_]. *)
Context (W : gmap objid InstrLvlAbs) (target_ assump_ : Expr).

Definition CheckEqModAssump (x : Expr) : Res bool :=
  ass ← GetExpr W assump_ "";
  tar ← GetExpr W target_ "";
  can ← GetExpr W x "";
  ne ← zneq can tar;
  z ← zand ass ne;
  Ok (bool_decide (z_check [z] = unsat)).

Definition EqRewrite (e : Expr) (candidate_ : option Expr) : Res (Expr * option Expr) :=
  if Exprs.ptr_eq e target_ then Ok (default e candidate_, candidate_) else
  if negb (is_some candidate_) && Sorts.Equal (Exprs.sort e) (Exprs.sort target_) then
    b ← CheckEqModAssump e;
    Ok (e, if (b : bool) then Some e else candidate_)
  else Ok (e, candidate_).

Definition State : Type := gmap objid Expr * option Expr.
Definition eq_get (s : State) (e : Expr) : Res Expr :=
  match s.1 !! Exprs.id e with Some d => Ok d | None => Fail ECheck end.
Definition eq_pre (e : Expr) (s : State) : bool := is_some (s.1 !! Exprs.id e).
Definition eq_post (e : Expr) (s : State) : Res State :=
  '(dst, c) ← EqRewrite e s.2;
  Ok (match s.1 !! Exprs.id e with Some _ => s.1 | None => <[Exprs.id e := dst]> s.1 end, c).
End subtree.

(** The lambda [SimpEqSubtree]. *)
Definition SimpEqSubtree (e : option Expr) (i : objid) : M Expr :=
  x ← instr_ i;
  host ← notnull (i_host x);
  l ← ila host;
  valid ← notnull (valid_ l);
  decode ← notnull (decode_ x);
  assump ← asthub.And valid decode;
  e ← lift (deref e);
  W ← gets w_ilas;
  s ← lift (Exprs.DepthFirstVisitPrePost eq_pre (eq_post W e assump) e (∅, None));
  lift (eq_get s e).

(** One update, inside the [try] block: [false] when an exception leaves the
    block, which keeps what was done before it. *)
Definition simp_update (i : objid) (state : string) : M bool := fun w =>
  match (x ← instr_ i; u ← SimpEqSubtree (Instrs.update x state) i;
         Instrs.ForceAddUpdate i state (Some u)) w with
  | Ok (_, w') => Ok (true, w')
  | Fail EThrow => Ok (false, w)
  | Fail e => Fail e
  end.

(** A loop that an exception leaves. *)
Fixpoint until_throw {A} (f : A -> M bool) (l : list A) : M bool :=
  match l with
  | [] => mret true
  | a :: l => ok ← f a; if (ok : bool) then until_throw f l else mret false
  end.

Definition simp_instr (i : objid) : M bool :=
  x ← instr_ i; until_throw (simp_update i) (Instrs.updated_states x).

Definition visiter (current : objid) (_ : unit) : M unit :=
  l ← ila current; until_throw simp_instr (KeyVec.vec_ (instrs_ l));; mret ().

Definition SimplifySemantic (m : objid) : M bool := fun w =>
  (Ila.DepthFirstVisit visiter (tree_fuel w) m ();; mret true) w.
End ops.
End Simplify.
