(* ===== verification/SolverPassesSpec.v ===== *)
(** * Correctness of the passes that query the solver

    The statements quantify over the environments [env_of W m ""] that the
    models of the solver give to the variables.  The passes create expressions
    and otherwise change only what the theorems say. *)
From S2P Require Import Prelude Sort Values Container Expr Smt Solver World Z3Expr ExprOp AstHub Collect Unroller UnrollerSpec Rewrite AbsKnobSpec SolverPasses.
Local Open Scope Z_scope.

(** ** Generic lemmas *)

(** The visitor of the children is a loop over them while nobody changes the
    record of the parent. *)
Lemma visit_childs_foldM {X} (P : World -> Prop) (rec : objid -> X -> M X) m l :
  (forall w, P w -> w_ilas w !! m = Some l) ->
  (forall c s w s' w', c ∈ KeyVec.vec_ (childs_ l) -> P w -> rec c s w = Ok (s', w') -> P w') ->
  forall k i s w, P w -> (Ila.child_num l - i < k)%nat -> (i <= Ila.child_num l)%nat ->
  Ila.visit_childs rec m k i s w = foldM rec (drop i (KeyVec.vec_ (childs_ l))) s w.
Proof.
  intros Hl Hrec. unfold Ila.child_num, KeyVec.size.
  induction k as [|k IH]; intros i s w Hw Hk Hi; [lia|]. cbn [Ila.visit_childs].
  rewrite (ST_bind_run _ _ _ _ _ (ila_run _ _ _ (Hl _ Hw))). unfold Ila.child_num, KeyVec.size.
  destruct (Nat.eqb_spec i (length (KeyVec.vec_ (childs_ l)))) as [->|Hne].
  { by rewrite drop_all. }
  destruct (lookup_lt_is_Some_2 (KeyVec.vec_ (childs_ l)) i ltac:(lia)) as [c Hc].
  assert (Hat : KeyVec.at_ (childs_ l) i = Ok c) by (unfold KeyVec.at_; by rewrite Hc).
  rewrite (lift_bind_run _ _ _ _ Hat), (drop_S _ _ _ Hc). cbn [foldM].
  cbv [mbind ST_bind]. destruct (rec c s w) as [[s' w']|] eqn:E; [|done].
  apply IH; [|lia..]. eapply Hrec; [|exact Hw|exact E]. by eapply list_elem_of_lookup_2.
Qed.

(** The variables that are collected are those of the expression. *)
Lemma GetVar_run e : exists vs, Collect.absknob.GetVar e = Ok vs /\ forall v, v ∈ vs -> v ∈ vars e.
Proof.
  unfold Collect.absknob.GetVar.
  enough (H : forall s, exists vs, Exprs.DepthFirstVisit Collect.absknob.insert_var e s = Ok vs /\
            forall v, v ∈ vs -> v ∈ s \/ v ∈ vars e).
  { destruct (H []) as (vs & E & Hv). exists vs. split; [done|].
    intros v [?%elem_of_nil|?]%Hv; done. }
  induction e as [e IH] using Expr_args_ind. intros s. rewrite DepthFirstVisit_unfold.
  assert (Hargs : forall l s, Forall (fun a => forall s, exists vs,
            Exprs.DepthFirstVisit Collect.absknob.insert_var a s = Ok vs /\
            forall v, v ∈ vs -> v ∈ s \/ v ∈ vars a) l ->
          exists vs, foldM (Exprs.DepthFirstVisit Collect.absknob.insert_var) l s = Ok vs /\
            forall v, v ∈ vs -> v ∈ s \/ exists a, a ∈ l /\ v ∈ vars a).
  { clear. induction l as [|a l IHl]; intros s H; [exists s; naive_solver|].
    apply Forall_cons in H as [Ha Hl]. destruct (Ha s) as (s1 & E1 & H1).
    destruct (IHl s1 Hl) as (vs & E & H). exists vs. cbn [foldM]. rewrite E1. split; [exact E|].
    intros v [[?|?]%H1|(b & ? & ?)]%H; [by left|right; exists a; split; [by left|done]|].
    right. exists b. split; [by right|done]. }
  destruct (Hargs _ s IH) as (s1 & E1 & H1). rewrite E1. eexists. split; [reflexivity|].
  intros v Hv. assert (Hs : v ∈ s1 \/ (v = e /\ Exprs.is_var e = true)).
  { destruct (Exprs.is_var e); [|by left]. apply ExprSet.insert_elem in Hv. tauto. }
  destruct Hs as [[?|(a & ? & ?)]%H1|[-> He]]; [by left|right; by eapply vars_arg|].
  right. destruct e; try done. by left.
Qed.

(** ** Creating expressions *)
Section makes.
Context {Z3 : Z3Api} {LZ : Z3Laws Z3} {L : Layout}.

(** An expression that the translation accepts. *)
Record good (W : gmap objid InstrLvlAbs) (T : gmap objid Expr) (e : Expr) : Prop := {
  good_heap : in_heap T e;
  good_wt : wt e = true;
  good_tr : translatable W e = true;
  good_host : hosted W (Exprs.host e) = true }.

Lemma good_grows T w T' w' e : grows T w T' w' -> good (w_ilas w) T e -> good (w_ilas w') T' e.
Proof using Type. intros Hg []. split; rewrite ?(grows_ilas _ _ _ _ Hg); eauto with ilang. Qed.

(** [makes V T w m s f]: [m] creates an expression of sort [s] and value [f]
    over variables in [V], and does nothing else. *)
Definition makes (V : Expr -> Prop) (T : gmap objid Expr) (w : World) (m : M Expr) (s : Sort)
    (f : Env -> option val) : Prop :=
  exists e w' T', m w = Ok (e, w') /\ grows T w T' w' /\ good (w_ilas w') T' e /\
    Exprs.sort e = s /\ (forall v, v ∈ vars e -> V v) /\ forall ρ, env_ok ρ -> eval ρ e = f ρ.

Lemma GetHost_hosted w args : Forall (fun a => hosted (w_ilas w) (Exprs.host a) = true) args ->
  hosted (w_ilas w) (ExprOps.GetHost w args) = true.
Proof using Type.
  intros Ha. unfold ExprOps.GetHost. destruct (head _) as [h|] eqn:E; [|done].
  apply head_Some_elem_of, list_elem_of_filter in E as [_ Hh].
  rewrite (set_order_perm (ExprOps.hosts_of args)), ExprOps.elem_of_hosts in Hh by apply NoDup_remove_dups.
  destruct Hh as (a & Hin & Ha'). rewrite Forall_forall in Ha. specialize (Ha a Hin). by rewrite Ha' in Ha.
Qed.

Lemma makes_op V T w op args ps m s :
  heap_ok T w -> Forall (good (w_ilas w) T) args -> (forall a v, a ∈ args -> v ∈ vars a -> V v) ->
  params_ok ps = true -> ExprOps.construct op args ps = Some m ->
  op_sort op ps (Exprs.sort <$> args) = Some s ->
  makes V T w m s (fun ρ => evals ρ args ≫= op_sem op ps).
Proof using Type.
  intros Hh Ha HV Hps Hc Hs.
  assert (Hw : Forall (fun a => wt a = true) args) by (eapply Forall_impl; [done|]; by intros a []).
  assert (Hss : Forall (fun s => sort_ok s = true) (Exprs.sort <$> args)).
  { apply Forall_fmap. eapply Forall_impl; [done|]. apply wt_sort_ok. }
  pose proof (ExprOps.ctor_sort_spec op ps _ Hss) as Hs'. rewrite Hs in Hs'.
  eexists (ExprOps.node w op s args ps), _, _.
  split; [rewrite (ExprOps.construct_run _ _ _ _ w Hc), Hs'; reflexivity|].
  assert (Hhost : hosted (w_ilas w) (ExprOps.GetHost w args) = true).
  { apply GetHost_hosted. eapply Forall_impl; [exact Ha|]. by intros a []. }
  split; [apply (heap_insert T w (ExprOps.node w op s args ps)); [done|done|];
          eapply Forall_impl; [exact Ha|]; by intros a []|].
  split; [|split; [done|split]].
  - split; [apply lookup_insert_eq|by apply ExprOps.wt_node| |done].
    cbn. rewrite Hps, Hhost. cbn. clear -Ha. induction Ha as [|a l [] _ IH]; [done|]. cbn.
    by apply andb_true_iff.
  - intros v. cbn. rewrite list_elem_of_In, in_flat_map. intros (a & Hin & Hv).
    eapply HV; [by apply list_elem_of_In|by apply list_elem_of_In].
  - intros ρ _. unfold ExprOps.node. by rewrite eval_op.
Qed.

Lemma makes_BoolConst V T w b : heap_ok T w ->
  makes V T w (asthub.BoolConst b) SortBool (fun _ => Some (VBool b)).
Proof using Type.
  intros Hh. pose (e := ExprConst {| h_id := counter_ w + 1; h_name := Symbol.default_name (counter_ w + 1);
    h_host := None; h_sort := SortBool |} (CBool b) []).
  exists e, (ExprOps.bump w), (<[Exprs.id e := e]> T). split; [reflexivity|].
  split; [by apply heap_insert|].
  split; [split; [apply lookup_insert_eq|done..]|]. split; [done|].
  split; [by intros v ?%elem_of_nil|done].
Qed.

(** A Boolean connective of two conditions. *)
Lemma makes_bool2 V T w (op : AstUidExprOp) k (f : bool -> bool -> bool) a b x y :
  (forall l r, Exprs.sort l = Exprs.sort r ->
    exists m, ExprOps.construct op [l; r] [] = Some m /\ forall w, k l r w = m w) ->
  (forall x y, op_sem op [] [VBool x; VBool y] = Some (VBool (f x y))) ->
  op_sort op [] [SortBool; SortBool] = Some SortBool ->
  heap_ok T w -> good (w_ilas w) T a -> good (w_ilas w) T b ->
  Exprs.sort a = SortBool -> Exprs.sort b = SortBool ->
  (forall v, v ∈ vars a \/ v ∈ vars b -> V v) ->
  (forall ρ, env_ok ρ -> eval ρ a = Some (VBool (x ρ))) ->
  (forall ρ, env_ok ρ -> eval ρ b = Some (VBool (y ρ))) ->
  makes V T w (k a b) SortBool (fun ρ => Some (VBool (f (x ρ) (y ρ)))).
Proof using Type.
  intros Hk Hsem Hsort Hh Ha Hb Sa Sb HV Hx Hy.
  destruct (Hk a b) as (m & Hm & E); [congruence|].
  destruct (makes_op V T w op [a; b] [] m SortBool)
      as (e & w' & T' & Em & Hg & He & Hs & Hv & Hev);
    [done|by apply Forall_cons; split; [|apply Forall_singleton]| |done|done|cbn; by rewrite Sa, Sb|].
  { intros c v Hc Hin. apply HV. set_unfold in Hc. destruct Hc as [->|[->|[]]]; auto. }
  exists e, w', T'. rewrite E. split_and!; try done. intros ρ Hρ. rewrite Hev by done.
  cbn. rewrite Hx, Hy by done. apply Hsem.
Qed.

Lemma makes_And V T w a b x y :
  heap_ok T w -> good (w_ilas w) T a -> good (w_ilas w) T b ->
  Exprs.sort a = SortBool -> Exprs.sort b = SortBool ->
  (forall v, v ∈ vars a \/ v ∈ vars b -> V v) ->
  (forall ρ, env_ok ρ -> eval ρ a = Some (VBool (x ρ))) ->
  (forall ρ, env_ok ρ -> eval ρ b = Some (VBool (y ρ))) ->
  makes V T w (asthub.And a b) SortBool (fun ρ => Some (VBool (x ρ && y ρ))).
Proof using Type.
  apply (makes_bool2 V T w kAnd); [|done|done]. intros l r Hs. eexists. split; [done|].
  intros w'. by apply mixed_run.
Qed.
Lemma makes_Or V T w a b x y :
  heap_ok T w -> good (w_ilas w) T a -> good (w_ilas w) T b ->
  Exprs.sort a = SortBool -> Exprs.sort b = SortBool ->
  (forall v, v ∈ vars a \/ v ∈ vars b -> V v) ->
  (forall ρ, env_ok ρ -> eval ρ a = Some (VBool (x ρ))) ->
  (forall ρ, env_ok ρ -> eval ρ b = Some (VBool (y ρ))) ->
  makes V T w (asthub.Or a b) SortBool (fun ρ => Some (VBool (x ρ || y ρ))).
Proof using Type.
  apply (makes_bool2 V T w kOr); [|done|done]. intros l r Hs. eexists. split; [done|].
  intros w'. by apply mixed_run.
Qed.
End makes.

(** ** Queries about expressions *)
Section queries.
Context {Z3 : Z3Api} {LZ : Z3Laws Z3} {SV : Z3Solver Z3} {SL : Z3SolverLaws SV}.
Context (W : gmap objid InstrLvlAbs) (HW : IlaOk.ilas_ok W).
Local Abbreviation ρm m := (env_of W m "").

Definition truth (ρ : Env) (e : Expr) : bool :=
  match eval ρ e with Some (VBool b) => b | _ => false end.

Lemma truth_eval ρ e : env_ok ρ -> wt e = true -> Exprs.sort e = SortBool ->
  eval ρ e = Some (VBool (truth ρ e)).
Proof using Type.
  intros Hρ Hw Hs. destruct (asthub.eval_bool ρ e Hρ Hw Hs) as [b Hb]. unfold truth. by rewrite Hb.
Qed.

Lemma truth_holds ρ e : truth ρ e = true <-> holds ρ e.
Proof using Type. unfold truth, holds. destruct (eval ρ e) as [[[]| |]|]; naive_solver. Qed.

Lemma good_denotes T w e : heap_ok T w -> good W T e ->
  exists z, GetExpr W e "" = Ok z /\ denotes W "" e z.
Proof using HW.
  intros Hh []. eapply (GetExpr_denotes W HW T "" e); [by eapply heap_registered|done..].
Qed.

(** The answer for terms that say [Φ] of the model. *)
Lemma check_answer zs Φ : means zs Φ ->
  (z_check zs = sat -> exists m, model_ok m /\ Φ m) /\
  (z_check zs = unsat -> forall m, model_ok m -> ~ Φ m).
Proof using SL.
  intros [Hz Hm]. split.
  - intros H. destruct (z_check_sat zs Hz H) as (m & Hok & Ha). exists m. split; [done|]. by apply Hm.
  - intros H m Hok Ha. apply (z_check_unsat zs Hz H m). split; [done|]. by apply Hm.
Qed.

Lemma bool_means e z : Exprs.sort e = SortBool -> denotes W "" e z ->
  means [z] (fun m => holds (ρm m) e).
Proof using Type.
  intros Hs [Hz Hv]. rewrite Hs in Hz. split; [by apply Forall_singleton|].
  intros m Hm. rewrite Forall_singleton. unfold holds. rewrite <- Hv by done. split; congruence.
Qed.

Lemma znot_means z Φ : means [z] Φ -> exists nz, znot z = Ok nz /\ means [nz] (fun m => ~ Φ m).
Proof using Type.
  intros [Hz%Forall_inv Hm].
  destruct (z_app_law SNot [z] [SortBool] SortBool) as (nz & E & Hnz & Hv);
    [constructor; [exact Hz|constructor]|done|].
  exists nz. unfold znot. rewrite E. split; [done|]. split; [by apply Forall_singleton|].
  intros m Hok. rewrite Forall_singleton, <- Hm, Forall_singleton by done.
  specialize (Hv m Hok). cbn in Hv.
  pose proof (z_eval_sort m z SortBool Hok Hz) as [b Hb]%has_sort_bool. rewrite Hb in *.
  injection Hv as ->. clear. destruct b; naive_solver.
Qed.

Lemma zand_means a b Φ Ψ : means [a] Φ -> means [b] Ψ ->
  exists z, zand a b = Ok z /\ means [z] (fun m => Φ m /\ Ψ m).
Proof using Type.
  intros [Ha%Forall_inv Hma] [Hb%Forall_inv Hmb].
  destruct (z_app_law SAnd [a; b] [SortBool; SortBool] SortBool) as (z & E & Hz & Hv);
    [constructor; [exact Ha|constructor; [exact Hb|constructor]]|done|].
  exists z. unfold zand. rewrite E. split; [done|]. split; [by apply Forall_singleton|].
  intros m Hok. rewrite Forall_singleton, <- Hma, <- Hmb, !Forall_singleton by done.
  specialize (Hv m Hok). cbn in Hv.
  pose proof (z_eval_sort m a SortBool Hok Ha) as [x Hx]%has_sort_bool.
  pose proof (z_eval_sort m b SortBool Hok Hb) as [y Hy]%has_sort_bool. rewrite Hx, Hy in *.
  injection Hv as ->. clear. destruct x, y; naive_solver.
Qed.
Lemma zor_means a b Φ Ψ : means [a] Φ -> means [b] Ψ ->
  exists z, zor a b = Ok z /\ means [z] (fun m => Φ m \/ Ψ m).
Proof using Type.
  intros [Ha%Forall_inv Hma] [Hb%Forall_inv Hmb].
  destruct (z_app_law SOr [a; b] [SortBool; SortBool] SortBool) as (z & E & Hz & Hv);
    [constructor; [exact Ha|constructor; [exact Hb|constructor]]|done|].
  exists z. unfold zor. rewrite E. split; [done|]. split; [by apply Forall_singleton|].
  intros m Hok. rewrite Forall_singleton, <- Hma, <- Hmb, !Forall_singleton by done.
  specialize (Hv m Hok). cbn in Hv.
  pose proof (z_eval_sort m a SortBool Hok Ha) as [x Hx]%has_sort_bool.
  pose proof (z_eval_sort m b SortBool Hok Hb) as [y Hy]%has_sort_bool. rewrite Hx, Hy in *.
  injection Hv as ->. clear. destruct x, y; naive_solver.
Qed.
End queries.

(** ** [SanityCheckAndFix] *)
Module Sanity.
Import SanityCheck Collect.absknob.
Section sanity.
Context {Z3 : Z3Api} {LZ : Z3Laws Z3} {SV : Z3Solver Z3} {SL : Z3SolverLaws SV} {L : Layout}.
Context (w0 : World) (T0 : gmap objid Expr) (top : objid) (V : Expr -> Prop).
Local Abbreviation W := (w_ilas w0).
Local Abbreviation ρm m := (env_of (w_ilas w0) m "").

(** A condition over the variables [V]. *)
Record cond_ok (e : Expr) : Prop := {
  co_good : good W T0 e;
  co_sort : Exprs.sort e = SortBool;
  co_vars v : v ∈ vars e -> V v }.

Definition instr_ok (d i : objid) : Prop := exists x e,
  w_instrs w0 !! i = Some x /\ i_host x = Some d /\ decode_ x = Some e /\ cond_ok e.
Record ila_ok (d : objid) (l : InstrLvlAbs) : Prop := {
  io_valid v : valid_ l = Some v -> cond_ok v;
  io_instr i : i ∈ KeyVec.vec_ (instrs_ l) -> instr_ok d i }.

Hypothesis HW : IlaOk.ilas_ok W.
Hypothesis Htree : tree_ok w0.
Hypothesis Hheap : heap_ok T0 w0.
Hypothesis Htop : is_Some (W !! top).
Hypothesis Hilas : forall d l, under W top d -> W !! d = Some l -> ila_ok d l.

(** The valid function of an ILA, true when it has none, and the decode function
    of an instruction. *)
Definition valid_in (ρ : Env) (l : InstrLvlAbs) : Prop :=
  match valid_ l with Some v => holds ρ v | None => True end.
Definition decodes (ρ : Env) (i : objid) : Prop := exists x e,
  w_instrs w0 !! i = Some x /\ decode_ x = Some e /\ holds ρ e.
Definition enabled (ρ : Env) (i : objid) : Prop := exists d l,
  under W top d /\ W !! d = Some l /\ i ∈ KeyVec.vec_ (instrs_ l) /\ valid_in ρ l /\ decodes ρ i.

(** Two instructions of an ILA are never enabled together; some instruction of
    the hierarchy always is. *)
Definition overlapping (d : objid) : Prop := exists m l j k i i',
  model_ok m /\ W !! d = Some l /\ (j < k)%nat /\
  KeyVec.vec_ (instrs_ l) !! j = Some i /\ KeyVec.vec_ (instrs_ l) !! k = Some i' /\
  valid_in (ρm m) l /\ decodes (ρm m) i /\ decodes (ρm m) i'.
Definition deterministic : Prop := forall d, under W top d -> ~ overlapping d.
Definition complete : Prop := forall m, model_ok m -> exists i, enabled (ρm m) i.

(** *** The loops over the pairs of instructions *)
Definition both (l : InstrLvlAbs) (i i' : objid) : Prop := exists m, model_ok m /\
  valid_in (ρm m) l /\ decodes (ρm m) i /\ decodes (ρm m) i'.

(** A run that only creates expressions. *)
Definition passes (T : gmap objid Expr) (w w' : World) : Prop := exists T', grows T w T' w'.
Definition at_start (T : gmap objid Expr) (w : World) : Prop := grows T0 w0 T w.

Lemma start_good T w e : at_start T w -> good W T0 e -> good (w_ilas w) T e.
Proof using Type. intros Hg. by apply good_grows. Qed.

Lemma gen_run' T w e : at_start T w -> good (w_ilas w) T e -> Exprs.sort e = SortBool ->
  exists z, gen e w = Ok (z, w) /\ means [z] (fun m => holds (ρm m) e).
Proof using HW.
  intros Hg He Hs. rewrite (grows_ilas _ _ _ _ Hg) in He.
  destruct (good_denotes W HW T w e (grows_ok _ _ _ _ Hg) He) as (z & Ez & Hz). exists z.
  split; [unfold gen; by rewrite (grows_ilas _ _ _ _ Hg), Ez|by apply bool_means].
Qed.

Lemma valid_run T w l : at_start T w -> (forall v, valid_ l = Some v -> cond_ok v) ->
  exists v w' T', valid_or_true l w = Ok (v, w') /\ grows T w T' w' /\ at_start T' w' /\
    good (w_ilas w') T' v /\ Exprs.sort v = SortBool /\ (forall x, x ∈ vars v -> V x) /\
    forall ρ, env_ok ρ -> holds ρ v <-> valid_in ρ l.
Proof using Type.
  intros Hg Hv. unfold valid_or_true, valid_in. destruct (valid_ l) as [v|].
  - destruct (Hv v eq_refl) as [Hgood Hs Hvs]. exists v, w, T. split; [done|].
    split; [apply grows_refl, (grows_ok _ _ _ _ Hg)|]. split; [done|].
    split; [by eapply start_good|]. done.
  - destruct (makes_BoolConst V T w true (grows_ok _ _ _ _ Hg)) as (v & w' & T' & E & Hg' & ? & ? & ? & He).
    exists v, w', T'. split; [done|]. split; [done|]. split; [by eapply grows_trans|].
    split; [done|]. split; [done|]. split; [done|]. intros ρ Hρ. unfold holds. by rewrite He.
Qed.

Lemma instr_start T w i x : at_start T w -> w_instrs w0 !! i = Some x -> w_instrs w !! i = Some x.
Proof using Type. intros Hg. by rewrite (grows_instrs _ _ _ _ Hg). Qed.
Lemma ila_start T w d l : at_start T w -> W !! d = Some l -> w_ilas w !! d = Some l.
Proof using Type. intros Hg. by rewrite (grows_ilas _ _ _ _ Hg). Qed.

Lemma decodes_iff ρ i x e : w_instrs w0 !! i = Some x -> decode_ x = Some e ->
  decodes ρ i <-> holds ρ e.
Proof using Type. intros Hx He. split; [intros (x' & e' & ? & ? & ?); by simplify_eq|intros; by exists x, e]. Qed.

Lemma overlap_run T w d l valid i j : at_start T w -> instr_ok d i -> instr_ok d j ->
  good (w_ilas w) T valid -> Exprs.sort valid = SortBool ->
  (forall x, x ∈ vars valid -> V x) -> (forall ρ, env_ok ρ -> holds ρ valid <-> valid_in ρ l) ->
  exists b w' T', overlap valid i j w = Ok (b, w') /\ grows T w T' w' /\
    (b = true -> both l i j) /\ (decides SV -> b = false -> ~ both l i j).
Proof using SL HW.
  intros Hg (x & ei & Hx & _ & Hi & [Gi Si Vi]) (y & ej & Hy & _ & Hj & [Gj Sj Vj]) Gv Sv Vv Hv.
  destruct (makes_And V T w ei ej (fun ρ => truth ρ ei) (fun ρ => truth ρ ej))
    as (c & w' & T' & E & Hg' & Gc & Sc & _ & Hc); try done.
  { apply (grows_ok _ _ _ _ Hg). } { by eapply start_good. } { by eapply start_good. }
  { intros v [?|?]; eauto. } { intros. apply truth_eval; [done|apply Gi|done]. }
  { intros. apply truth_eval; [done|apply Gj|done]. }
  assert (Hg2 : at_start T' w') by by eapply grows_trans.
  destruct (gen_run' T' w' valid) as (zv & Ev & Mv); [done|exact (good_grows _ _ _ _ _ Hg' Gv)|done|].
  destruct (gen_run' T' w' c) as (zc & Ec & Mc); [done..|].
  eexists _, w', T'. split; [|split; [exact Hg'|]].
  - unfold overlap. rewrite (ST_bind_run _ _ _ _ _ (instr_run _ _ _ (instr_start _ _ _ _ Hg Hx))).
    rewrite (ST_bind_run _ _ _ _ _ (instr_run _ _ _ (instr_start _ _ _ _ Hg Hy))).
    rewrite Hi, Hj, (lift_bind_run (deref (Some ei)) _ _ ei eq_refl),
      (lift_bind_run (deref (Some ej)) _ _ ej eq_refl).
    rewrite (ST_bind_run _ _ _ _ _ E), (ST_bind_run _ _ _ _ _ Ev), (ST_bind_run _ _ _ _ _ Ec).
    reflexivity.
  - assert (Hboth : forall m, model_ok m -> (holds (ρm m) valid /\ holds (ρm m) c) <->
              (valid_in (ρm m) l /\ decodes (ρm m) i /\ decodes (ρm m) j)).
    { intros m Hm. pose proof (env_of_ok W m "" Hm) as Hρ.
      rewrite (Hv _ Hρ), (decodes_iff _ _ _ _ Hx Hi), (decodes_iff _ _ _ _ Hy Hj).
      unfold holds at 1. rewrite (Hc _ Hρ), <- !truth_holds.
      destruct (truth (ρm m) ei), (truth (ρm m) ej); naive_solver. }
    destruct (check_answer _ _ (means_app _ _ _ _ Mv Mc)) as [Hsat Hunsat].
    cbn [app] in Hsat, Hunsat. split.
    + intros Hb%bool_decide_eq_true. destruct (Hsat Hb) as (m & Hm & H). exists m.
      split; [done|]. by apply Hboth.
    + intros Hd Hb%bool_decide_eq_false (m & Hm & H). apply Hboth in H; [|done].
      destruct (z_check [zv; zc]) eqn:Ez; [done| |by apply (Hd [zv; zc])].
      by apply (Hunsat eq_refl m Hm).
Qed.

(** What is known of the valid expression of an ILA during the loops. *)
Record valid_expr (T : gmap objid Expr) (w : World) (l : InstrLvlAbs) (valid : Expr) : Prop := {
  ve_good : good (w_ilas w) T valid;
  ve_sort : Exprs.sort valid = SortBool;
  ve_vars x : x ∈ vars valid -> V x;
  ve_holds ρ : env_ok ρ -> holds ρ valid <-> valid_in ρ l }.

Lemma valid_expr_grows T w T' w' l v : grows T w T' w' -> valid_expr T w l v -> valid_expr T' w' l v.
Proof using Type. intros Hg []. split; [by eapply good_grows|done..]. Qed.

Lemma overlap_row_run d l valid i js : forall T w, at_start T w -> instr_ok d i ->
  (forall j, j ∈ js -> instr_ok d j) -> valid_expr T w l valid ->
  exists b w' T', overlap_row valid i js w = Ok (b, w') /\ grows T w T' w' /\
    (b = true -> exists j, j ∈ js /\ both l i j) /\
    (decides SV -> b = false -> forall j, j ∈ js -> ~ both l i j).
Proof using SL HW.
  induction js as [|j js IH]; intros T w Hg Hi Hjs Hv.
  - exists false, w, T. split; [done|]. split; [apply grows_refl, (grows_ok _ _ _ _ Hg)|].
    split; [done|]. by intros _ _ j ?%elem_of_nil.
  - destruct (overlap_run T w d l valid i j Hg Hi) as (b & w1 & T1 & E1 & G1 & Hb1 & Hd1);
      [apply Hjs; by left|apply Hv..|].
    cbn [overlap_row]. rewrite (ST_bind_run _ _ _ _ _ E1). destruct b.
    + exists true, w1, T1. split; [done|]. split; [done|]. split; [|done].
      intros _. exists j. split; [by left|by apply Hb1].
    + destruct (IH T1 w1) as (b & w2 & T2 & E2 & G2 & Hb2 & Hd2);
        [by eapply grows_trans|done|intros; apply Hjs; by right|by eapply valid_expr_grows|].
      exists b, w2, T2. split; [exact E2|]. split; [by eapply grows_trans|]. split.
      * intros (j' & ? & ?)%Hb2. exists j'. split; [by right|done].
      * intros Hd Hb j' [->|Hj']%elem_of_cons; [by apply Hd1|by apply Hd2].
Qed.

(** Two positions of the list of instructions. *)
Definition pair_in (is_ : list objid) (l : InstrLvlAbs) : Prop :=
  exists j k i i', (j < k)%nat /\ is_ !! j = Some i /\ is_ !! k = Some i' /\ both l i i'.

Lemma pair_in_cons i is_ l : pair_in (i :: is_) l <-> (exists j, j ∈ is_ /\ both l i j) \/ pair_in is_ l.
Proof using Type.
  split.
  - intros (j & k & a & b & Hlt & Ha & Hb & H). destruct k as [|k]; [lia|]. destruct j as [|j].
    + left. injection Ha as <-. exists b. split; [by eapply list_elem_of_lookup_2|done].
    + right. exists j, k, a, b. split; [lia|done].
  - intros [(j & [k Hk]%list_elem_of_lookup & H)|(j & k & a & b & Hlt & H)].
    + exists 0%nat, (S k), i, j. split; [lia|done].
    + exists (S j), (S k), a, b. split; [lia|done].
Qed.

Lemma overlap_rows_run d l valid is_ : forall T w, at_start T w ->
  (forall j, j ∈ is_ -> instr_ok d j) -> valid_expr T w l valid ->
  exists b w' T', overlap_rows valid is_ w = Ok (b, w') /\ grows T w T' w' /\
    (b = true -> pair_in is_ l) /\ (decides SV -> b = false -> ~ pair_in is_ l).
Proof using SL HW.
  induction is_ as [|i is_ IH]; intros T w Hg His Hv.
  - exists false, w, T. split; [done|]. split; [apply grows_refl, (grows_ok _ _ _ _ Hg)|].
    split; [done|]. by intros _ _ (j & k & a & b & _ & ? & _).
  - destruct (overlap_row_run d l valid i is_ T w Hg) as (b & w1 & T1 & E1 & G1 & Hb1 & Hd1);
      [apply His; by left|intros; apply His; by right|done|].
    cbn [overlap_rows]. rewrite (ST_bind_run _ _ _ _ _ E1). destruct b.
    + exists true, w1, T1. split; [done|]. split; [done|]. split; [|done].
      intros _. apply pair_in_cons. left. by apply Hb1.
    + destruct (IH T1 w1) as (b & w2 & T2 & E2 & G2 & Hb2 & Hd2);
        [by eapply grows_trans|intros; apply His; by right|by eapply valid_expr_grows|].
      exists b, w2, T2. split; [exact E2|]. split; [by eapply grows_trans|]. split.
      * intros Hp%Hb2. apply pair_in_cons. by right.
      * intros Hd Hb [(j & Hj & H)|H]%pair_in_cons; [by apply (Hd1 Hd eq_refl j)|by apply Hd2].
Qed.

Lemma pair_overlapping d l : W !! d = Some l -> pair_in (KeyVec.vec_ (instrs_ l)) l <-> overlapping d.
Proof using Type.
  intros Hl. split.
  - intros (j & k & i & i' & Hlt & Hi & Hi' & m & Hm & H). exists m, l, j, k, i, i'. done.
  - intros (m & l' & j & k & i & i' & Hm & Hl' & Hlt & Hi & Hi' & H). simplify_eq.
    exists j, k, i, i'. split; [done|]. split; [done|]. split; [done|]. by exists m.
Qed.

Lemma determ_post_run T w d : at_start T w -> under W top d -> is_Some (W !! d) ->
  exists b w' T', determ_post d true w = Ok (b, w') /\ grows T w T' w' /\
    (b = false -> overlapping d) /\ (decides SV -> b = true -> ~ overlapping d).
Proof using SL HW Hilas.
  intros Hg Hu [l Hl]. destruct (Hilas d l Hu Hl) as [Hv Hi].
  destruct (valid_run T w l Hg Hv) as (v & w1 & T1 & E1 & G1 & S1 & Gv & Sv & Vv & Hiff).
  destruct (overlap_rows_run d l v (KeyVec.vec_ (instrs_ l)) T1 w1 S1 Hi) as (b & w2 & T2 & E2 & G2 & Hb & Hd);
    [by split|].
  exists (negb b), w2, T2. split; [|split; [by eapply grows_trans|]].
  - unfold determ_post. cbn [negb].
    rewrite (ST_bind_run _ _ _ _ _ (ila_run _ _ _ (ila_start _ _ _ _ Hg Hl))).
    rewrite (ST_bind_run _ _ _ _ _ E1), (ST_bind_run _ _ _ _ _ E2). reflexivity.
  - rewrite <- (pair_overlapping d l Hl). destruct b; naive_solver.
Qed.

(** *** The walk over the hierarchy *)
Local Abbreviation walk n := (Ila.DepthFirstVisitPrePost determ_pre determ_post n).

Definition walked (ds : objid -> Prop) (b b' : bool) : Prop :=
  (b = true -> b' = false -> exists d, ds d /\ under W top d /\ overlapping d) /\
  (b = false -> b' = false) /\
  (decides SV -> b' = true -> forall d, ds d -> ~ overlapping d).

Lemma childs_walk n (cs : list objid) :
  (forall c, c ∈ cs -> forall T w b, at_start T w -> exists b' w' T', walk (S n) c b w = Ok (b', w') /\
     grows T w T' w' /\ walked (under W c) b b') ->
  forall T w b, at_start T w -> exists b' w' T', foldM (walk (S n)) cs b w = Ok (b', w') /\
     grows T w T' w' /\ walked (fun d => exists c, c ∈ cs /\ under W c d) b b'.
Proof using Type.
  induction cs as [|c cs IH]; intros Hc T w b Hg.
  - exists b, w, T. split; [done|]. split; [apply grows_refl, (grows_ok _ _ _ _ Hg)|].
    split; [congruence|]. split; [done|]. by intros _ _ d (c & ?%elem_of_nil & _).
  - destruct (Hc c ltac:(by left) T w b Hg) as (b1 & w1 & T1 & E1 & G1 & F1 & N1 & D1).
    destruct (IH (fun c Hin => Hc c ltac:(by right)) T1 w1 b1) as (b2 & w2 & T2 & E2 & G2 & F2 & N2 & D2);
      [by eapply grows_trans|].
    exists b2, w2, T2. cbn [foldM]. rewrite (ST_bind_run _ _ _ _ _ E1).
    split; [exact E2|]. split; [by eapply grows_trans|]. split; [|split].
    + intros Hb Hb2. destruct b1.
      * destruct (F2 eq_refl Hb2) as (d & (c' & ? & ?) & ?). exists d. split; [|done].
        exists c'. split; [by right|done].
      * destruct (F1 Hb eq_refl) as (d & ? & ?). exists d. split; [|done]. exists c. split; [by left|done].
    + auto.
    + intros Hd Hb2 d (c' & [->|Hin]%elem_of_cons & Hu); [|by eapply D2; eauto].
      apply D1; [done| |done]. destruct b1; [done|]. by rewrite N2 in Hb2.
Qed.

Lemma determ_walk_run n : forall m T w b, at_start T w -> under W top m -> (counter_ w0 < m + N.of_nat n)%N ->
  is_Some (W !! m) ->
  exists b' w' T', walk (S n) m b w = Ok (b', w') /\ grows T w T' w' /\ walked (under W m) b b'.
Proof using SL HW Hilas Htree.
  induction n as [|n IH]; intros m T w b Hg Hu Hn [l Hm].
  { pose proof (tree_le _ Htree _ _ Hm). lia. }
  destruct b.
  2:{ exists false, w, T. split; [done|]. split; [apply grows_refl, (grows_ok _ _ _ _ Hg)|]. done. }
  assert (Hc : forall c, c ∈ KeyVec.vec_ (childs_ l) -> under W top c /\ (counter_ w0 < c + N.of_nat n)%N /\
            is_Some (W !! c)).
  { intros c Hc. destruct (tree_child _ Htree _ _ _ Hm Hc). split; [|split; [lia|done]].
    eapply under_trans; [exact Hu|]. by eapply under_step. }
  destruct (childs_walk n (KeyVec.vec_ (childs_ l))) with (T := T) (w := w) (b := true)
    as (b1 & w1 & T1 & E1 & G1 & F1 & N1 & D1); [|done|].
  { intros c Hin T' w' b Hg'. destruct (Hc c Hin) as (? & ? & ?). by apply IH. }
  assert (S1 : at_start T1 w1) by by eapply grows_trans.
  assert (Ek : Ila.visit_childs (fun c s => walk (S n) c s) m (S n) 0 true w = Ok (b1, w1)).
  { rewrite (visit_childs_foldM (fun w => exists T, at_start T w) _ m l); [exact E1| | | | |].
    - intros w' [T' Hg']. by eapply ila_start.
    - intros c s w' s' w2 Hin [T' Hg'] E. destruct (Hc c Hin) as (? & ? & ?).
      destruct (IH c T' w' s) as (b' & w3 & T3 & E3 & G3 & _); try done. rewrite E3 in E. simplify_eq.
      exists T3. by eapply grows_trans.
    - by exists T.
    - pose proof (childs_short w0 Htree m l Hm). unfold Ila.child_num, KeyVec.size. lia.
    - lia. }
  change (walk (S (S n)) m true w) with
    (('(stop, s1) ← determ_pre m true;
      if (stop : bool) then mret s1 else
      s2 ← Ila.visit_childs (fun c s => walk (S n) c s) m (S n) 0 s1; determ_post m s2) w).
  rewrite (ST_bind_run _ _ _ _ _ (eq_refl : determ_pre m true w = Ok ((false, true), w))).
  cbn beta iota. rewrite (ST_bind_run _ _ _ _ _ Ek).
  assert (Hsplit : forall d, under W m d -> d = m \/ exists c, c ∈ KeyVec.vec_ (childs_ l) /\ under W c d).
  { intros d Hd. inversion Hd as [|? l' c ? Hl' Hin Hcd]; subst; [by left|]. simplify_eq. right. by exists c. }
  destruct b1.
  - destruct (determ_post_run T1 w1 m S1 Hu) as (b & w2 & T2 & E2 & G2 & Hb & Hd); [by exists l|].
    exists b, w2, T2. split; [exact E2|]. split; [by eapply grows_trans|]. split; [|split; [done|]].
    + intros _ Hb'. exists m. split; [constructor|]. split; [done|by apply Hb].
    + intros Hdec Hb' d [->|Hcd]%Hsplit; [by apply Hd|by apply D1].
  - exists false, w1, T1. split; [done|]. split; [done|]. split; [|done]. intros _ _.
    destruct (F1 eq_refl eq_refl) as (d & (c & Hin & Hcd) & ?). exists d. split; [|done].
    by eapply under_child.
Qed.

Lemma CheckDeterminism_run : exists b w' T', CheckDeterminism top w0 = Ok (b, w') /\
  at_start T' w' /\ (b = false -> ~ deterministic) /\ (decides SV -> b = true -> deterministic).
Proof using SL HW Hilas Htree Htop Hheap.
  destruct (determ_walk_run (S (N.to_nat (counter_ w0))) top T0 w0 true) as (b & w' & T' & E & G & F & _ & D);
    [by apply grows_refl|constructor|lia|done|].
  exists b, w', T'. split; [exact E|]. split; [done|]. split.
  - intros Hb Hdet. destruct (F eq_refl Hb) as (d & Hd & _ & Ho). by apply (Hdet d).
  - intros Hd Hb d Hu. by apply D.
Qed.

(** *** The disjunction of the decode functions *)
Definition cond (ρ : Env) (l : InstrLvlAbs) : bool :=
  match valid_ l with Some v => truth ρ v | None => true end.
Definition fires (ρ : Env) (i : objid) : bool :=
  match x ← w_instrs w0 !! i; d ← i_host x; l ← W !! d; e ← decode_ x; Some (l, e) with
  | Some (l, e) => cond ρ l && truth ρ e
  | None => false
  end.

Lemma cond_iff ρ l : cond ρ l = true <-> valid_in ρ l.
Proof using Type. unfold cond, valid_in. destruct (valid_ l); [apply truth_holds|done]. Qed.

Definition in_tree (i : objid) : Prop :=
  exists d l, under W top d /\ W !! d = Some l /\ i ∈ KeyVec.vec_ (instrs_ l).

Lemma in_tree_ok i : in_tree i -> exists d l, under W top d /\ W !! d = Some l /\
  i ∈ KeyVec.vec_ (instrs_ l) /\ ila_ok d l /\ instr_ok d i.
Proof using Hilas.
  intros (d & l & Hu & Hl & Hi). exists d, l. pose proof (Hilas d l Hu Hl) as H.
  do 4 (split; [done|]). by apply H.
Qed.

Lemma fires_iff ρ i : in_tree i -> fires ρ i = true <-> enabled ρ i.
Proof using Hilas.
  intros (d & l & Hu & Hl & Hi & _ & x & e & Hx & Hh & He & _)%in_tree_ok. unfold fires.
  rewrite Hx; cbn. rewrite Hh; cbn. rewrite Hl; cbn. rewrite He; cbn.
  rewrite andb_true_iff, cond_iff, truth_holds, <- (decodes_iff _ _ _ _ Hx He). split.
  - intros []. by exists d, l.
  - intros (d' & l' & Hu' & Hl' & Hi' & Hv & Hd).
    destruct (io_instr _ _ (Hilas d' l' Hu' Hl') i Hi') as (x' & e' & ? & ? & _). by simplify_eq.
Qed.

Record acc_is (T : gmap objid Expr) (w : World) (acc : Expr) (g : Env -> bool) : Prop := {
  ac_start : at_start T w;
  ac_good : good (w_ilas w) T acc;
  ac_sort : Exprs.sort acc = SortBool;
  ac_vars v : v ∈ vars acc -> V v;
  ac_eval ρ : env_ok ρ -> eval ρ acc = Some (VBool (g ρ)) }.

Lemma or_decode_run T w acc g i : acc_is T w acc g -> in_tree i ->
  exists acc' w' T', or_decode i acc w = Ok (acc', w') /\ acc_is T' w' acc' (fun ρ => g ρ || fires ρ i).
Proof using Hilas.
  intros [Hg Ga Sa Va Ea] (d & l & Hu & Hl & Hi & [Hv _] & x & e & Hx & Hh & He & [Gd Sd Vd])%in_tree_ok.
  destruct (valid_run T w l Hg Hv) as (v & w1 & T1 & E1 & G1 & S1 & Gv & Sv & Vv & Hiff).
  destruct (makes_And V T1 w1 v e (fun ρ => truth ρ v) (fun ρ => truth ρ e))
    as (c & w2 & T2 & E2 & G2 & Gc & Sc & Vc & Ec); try done.
  { apply (grows_ok _ _ _ _ S1). } { by eapply start_good. } { intros y [?|?]; eauto. }
  { intros. apply truth_eval; [done|apply Gv|done]. } { intros. apply truth_eval; [done|apply Gd|done]. }
  destruct (makes_Or V T2 w2 acc c g (fun ρ => truth ρ v && truth ρ e))
    as (o & w3 & T3 & E3 & G3 & Go & So & Vo & Eo); try done.
  { apply (grows_ok _ _ _ _ G2). }
  { exact (good_grows _ _ _ _ _ G2 (good_grows _ _ _ _ _ G1 Ga)). } { intros y [?|?]; eauto. }
  exists o, w3, T3. split.
  - unfold or_decode. rewrite (ST_bind_run _ _ _ _ _ (instr_run _ _ _ (instr_start _ _ _ _ Hg Hx))).
    unfold notnull. rewrite (lift_bind_run (not_null (i_host x)) _ _ d) by by rewrite Hh.
    rewrite (ST_bind_run _ _ _ _ _ (ila_run _ _ _ (ila_start _ _ _ _ Hg Hl))).
    rewrite (ST_bind_run _ _ _ _ _ E1), (lift_bind_run (deref (decode_ x)) _ _ e) by by rewrite He.
    by rewrite (ST_bind_run _ _ _ _ _ E2).
  - split; [eapply grows_trans; [exact Hg|]; eapply grows_trans; [exact G1|]; by eapply grows_trans|done..|].
    intros ρ Hρ. rewrite Eo by done. do 2 f_equal. f_equal. unfold fires.
    rewrite Hx; cbn. rewrite Hh; cbn. rewrite Hl; cbn. rewrite He; cbn. f_equal.
    apply eq_true_iff_eq. by rewrite cond_iff, truth_holds, Hiff.
Qed.

Lemma or_decodes_run is_ : forall T w acc g, acc_is T w acc g -> (forall i, i ∈ is_ -> in_tree i) ->
  exists acc' w' T', foldM or_decode is_ acc w = Ok (acc', w') /\
    acc_is T' w' acc' (fun ρ => g ρ || existsb (fires ρ) is_).
Proof using Hilas.
  induction is_ as [|i is_ IH]; intros T w acc g Ha Hin.
  - exists acc, w, T. split; [done|]. destruct Ha. split; try done. intros ρ Hρ. cbn.
    rewrite orb_false_r. auto.
  - destruct (or_decode_run T w acc g i Ha) as (a1 & w1 & T1 & E1 & A1); [apply Hin; by left|].
    destruct (IH T1 w1 a1 _ A1) as (a2 & w2 & T2 & E2 & A2); [intros; apply Hin; by right|].
    exists a2, w2, T2. cbn [foldM]. rewrite (ST_bind_run _ _ _ _ _ E1). split; [exact E2|].
    destruct A2. split; try done. intros ρ Hρ. cbn. rewrite orb_assoc. auto.
Qed.

(** *** The pass up to the query for completeness *)
Lemma prefix_run : exists b acc nz w' T',
  (forall (A : Type) (k : bool -> Expr -> zexpr -> M A),
    (is_determ ← CheckDeterminism top;
     acc ← asthub.BoolConst false;
     instrs ← GetInstrTree top;
     acc ← foldM or_decode instrs acc;
     z ← gen acc;
     nz ← lift (znot z);
     k is_determ acc nz) w0 = k b acc nz w') /\
  at_start T' w' /\ good (w_ilas w') T' acc /\ Exprs.sort acc = SortBool /\
  (forall v, v ∈ vars acc -> V v) /\
  (forall ρ, env_ok ρ -> holds ρ acc <-> exists i, enabled ρ i) /\
  means [nz] (fun m => ~ exists i, enabled (ρm m) i) /\
  (b = false -> ~ deterministic) /\ (decides SV -> b = true -> deterministic).
Proof using SL HW Hilas Htree Htop Hheap.
  destruct CheckDeterminism_run as (b & w1 & T1 & E1 & G1 & Hb & Hd).
  destruct (makes_BoolConst V T1 w1 false (grows_ok _ _ _ _ G1)) as (a0 & w2 & T2 & E2 & G2 & Ga & Sa & Va & Ea).
  assert (S2 : at_start T2 w2) by by eapply grows_trans.
  assert (Ei : exists is_, GetInstrTree top w2 = Ok (is_, w2) /\ forall i, i ∈ is_ <-> in_tree i).
  { assert (Htree2 : tree_ok w2).
    { destruct Htree as [T1' T2' T3']. rewrite <- (grows_ilas _ _ _ _ S2) in *. split; [|done..].
      intros m l Hm%T1'. pose proof (grows_counter _ _ _ _ S2). lia. }
    destruct (GetInstrTree_run w2 top Htree2) as (is_ & E & H); [by rewrite (grows_ilas _ _ _ _ S2)|].
    exists is_. split; [done|]. intros i. rewrite H, (grows_ilas _ _ _ _ S2). split.
    - intros (d & Hu & Hin). exists d, (rec_at W d). split; [done|]. split; [|done].
      unfold rec_at in *. destruct (W !! d) eqn:El; [done|]. by apply elem_of_nil in Hin.
    - intros (d & l & Hu & Hl & Hin). exists d. split; [done|]. unfold rec_at. by rewrite Hl. }
  destruct Ei as (is_ & Ei & Hin).
  destruct (or_decodes_run is_ T2 w2 a0 (fun _ => false)) as (acc & w3 & T3 & E3 & [S3 Ga3 Sa3 Va3 Ea3]);
    [by split|intros; by apply Hin|].
  destruct (gen_run' T3 w3 acc) as (z & Ez & Mz); [done..|].
  destruct (znot_means z _ Mz) as (nz & En & Mn).
  assert (Hacc : forall ρ, env_ok ρ -> holds ρ acc <-> exists i, enabled ρ i).
  { intros ρ Hρ. rewrite <- truth_holds. unfold truth. rewrite Ea3 by done. cbn. rewrite existsb_exists.
    split.
    - intros (i & Hi%list_elem_of_In & Hf). exists i. apply fires_iff; [by apply Hin|done].
    - intros [i Hi]. assert (Ht : in_tree i) by (destruct Hi as (d & l & ? & ? & ? & _); by exists d, l).
      exists i. split; [by apply list_elem_of_In, Hin|by apply fires_iff]. }
  exists b, acc, nz, w3, T3. split; [|split_and!; try done].
  - intros A k. rewrite (ST_bind_run _ _ _ _ _ E1), (ST_bind_run _ _ _ _ _ E2), (ST_bind_run _ _ _ _ _ Ei),
      (ST_bind_run _ _ _ _ _ E3), (ST_bind_run _ _ _ _ _ Ez). by rewrite (lift_bind_run _ _ _ _ En).
  - eapply means_iff; [|exact Mn]. intros m Hm. cbn beta. by rewrite (Hacc _ (env_of_ok _ _ _ Hm)).
Qed.

(** *** The default instruction *)
Definition default_name : string := "PASS_ADD_DEFAULT_INSTR".
Definition clean_var (l : InstrLvlAbs) (v : Expr) : bool :=
  is_some (Ila.find_state l (Exprs.name v)) || is_some (Ila.find_input l (Exprs.name v)).

Lemma add_default_run T w acc l : at_start T w -> good (w_ilas w) T acc -> Exprs.sort acc = SortBool ->
  W !! top = Some l ->
  exists i x e w',
    (default_instr ← Ila.NewInstr top default_name; n ← asthub.Not acc;
     Instrs.set_decode default_instr (Some n)) w = Ok ((), w') /\
    (counter_ w0 < i)%N /\ w_instrs w' = <[i := x]> (w_instrs w0) /\
    w_ilas w' = <[top := add_instr l default_name i]> W /\
    i_name x = default_name /\ i_host x = Some top /\ updates_ x = ∅ /\ decode_ x = Some e /\
    Exprs.sort e = SortBool /\ forall ρ, env_ok ρ -> holds ρ e <-> ~ holds ρ acc.
Proof using Type.
  intros Hg Ga Sa Hl. pose proof (ila_start _ _ _ _ Hg Hl) as Hlw.
  pose proof (NewInstr_run top default_name l w Hlw ltac:(done)) as E1. cbn zeta in E1.
  set (i := (counter_ w + 1)%N) in *.
  set (w1 := {| counter_ := i; w_ilas := _; w_instrs := _ |}) in *.
  set (e := ExprOps.node w1 kNot SortBool [acc] []).
  assert (E2 : asthub.Not acc w1 = Ok (e, ExprOps.bump w1)).
  { change (asthub.Not acc) with (ExprOps.ExprOpNot acc).
    rewrite (ExprOps.construct_run kNot [acc] [] _ w1 eq_refl). cbn [fmap list_fmap]. by rewrite Sa. }
  set (x0 := {| i_name := default_name; i_host := Some top; decode_ := None; updates_ := ∅; prog_ := None |}) in *.
  assert (Hx : w_instrs (ExprOps.bump w1) !! i = Some x0) by apply lookup_insert_eq.
  exists i, (Instrs.with_decode x0 (Some e)), e.
  eexists. split; [|split; [pose proof (grows_counter _ _ _ _ Hg); lia|]].
  - rewrite (ST_bind_run _ _ _ _ _ E1), (ST_bind_run _ _ _ _ _ E2). unfold Instrs.set_decode.
    rewrite (ST_bind_run _ _ _ _ _ (instr_run _ _ _ Hx)). cbn [decode_ x0]. unfold Instrs.ForceSetDecode.
    unfold notnull, check_. rewrite (lift_bind_run (not_null (Some e)) _ _ e eq_refl).
    rewrite (lift_bind_run (ila_check (Exprs.is_bool e)) _ _ () eq_refl).
    rewrite (ST_bind_run _ _ _ _ _ (instr_run _ _ _ Hx)). reflexivity.
  - cbn [w_instrs w_ilas ExprOps.bump w1]. rewrite insert_insert_eq, (grows_instrs _ _ _ _ Hg), (grows_ilas _ _ _ _ Hg).
    split_and!; try done. intros ρ Hρ. unfold holds, e, ExprOps.node. rewrite eval_op. cbn.
    rewrite (truth_eval ρ acc Hρ (good_wt _ _ _ Ga) Sa). cbn. destruct (truth ρ acc); naive_solver.
Qed.

Lemma enabled_dec acc ρ : env_ok ρ -> (forall ρ, env_ok ρ -> holds ρ acc <-> exists i, enabled ρ i) ->
  ~ ~ (exists i, enabled ρ i) -> exists i, enabled ρ i.
Proof using Type.
  intros Hρ Hacc Hn. apply Hacc; [done|]. apply truth_holds. destruct (truth ρ acc) eqn:E; [done|].
  exfalso. apply Hn. intros H%Hacc%truth_holds; [congruence|done].
Qed.

(** C16.  The verdict of [SanityCheckAndFix].  The pass returns; an answer [true]
    is given only when in every model some instruction of the hierarchy is enabled,
    and then the model is as it was; with a solver that always decides, [true] is
    the answer exactly when moreover no two instructions of an ILA can be enabled
    together. *)
Theorem SanityCheckAndFix_verdict : exists r w',
  SanityCheckAndFix top w0 = Ok (r, w') /\
  (r = true -> complete /\ w_ilas w' = W /\ w_instrs w' = w_instrs w0) /\
  (decides SV -> r = true <-> deterministic /\ complete).
Proof using SL HW Hilas Htree Htop Hheap.
  destruct prefix_run as (b & acc & nz & w1 & T1 & Hk & Hg & Ga & Sa & _ & Hacc & Mn & Hb & Hd).
  destruct (check_answer _ _ Mn) as [Hsat Hunsat].
  unfold SanityCheckAndFix. setoid_rewrite Hk. destruct (bool_decide (z_check [nz] = unsat)) eqn:Ez.
  - apply bool_decide_eq_true in Ez.
    assert (Hc : complete).
    { intros m Hm. by apply (enabled_dec acc); [apply env_of_ok| |apply Hunsat]. }
    exists b, w1. split; [by rewrite andb_true_r|]. split.
    + intros _. split; [done|]. split; [apply (grows_ilas _ _ _ _ Hg)|apply (grows_instrs _ _ _ _ Hg)].
    + intros Hdec. split; [intros Hr; split; [by apply Hd|done]|]. intros [Hdet _].
      destruct b; [done|]. by destruct (Hb eq_refl).
  - apply bool_decide_eq_false in Ez. destruct Htop as [l Hl].
    destruct (GetVar_run acc) as (vs & Ev & _).
    destruct (add_default_run T1 w1 acc l Hg Ga Sa Hl) as (i & x & e & w2 & E2 & _).
    eexists false, (if forallb (clean_var l) vs then w2 else w1).
    split; [|split; [done|]].
    + rewrite (ST_bind_run _ _ _ _ _ (ila_run _ _ _ (ila_start _ _ _ _ Hg Hl))).
      rewrite (lift_bind_run _ _ _ _ Ev). fold default_name.
      change (forallb _ vs) with (forallb (clean_var l) vs). destruct (forallb _ vs).
      * rewrite (ST_bind_run _ _ _ _ _ E2). by rewrite !andb_false_r.
      * cbn. by rewrite andb_false_r.
    + intros Hdec. split; [done|]. intros [_ Hc]. exfalso.
      destruct (z_check [nz]) eqn:E; [|done|by apply (Hdec [nz])].
      destruct (Hsat eq_refl) as (m & Hm & H). by apply H, Hc.
Qed.

(** C17.  The fix of [SanityCheckAndFix], and its answer.  When some state enables
    no instruction and every variable of the conditions is a state or an input of
    the top by name, the pass gives the top one more instruction, without updates,
    whose decode function holds exactly when no instruction of the hierarchy is
    enabled: in every state an instruction of the hierarchy is enabled or the new one
    decodes.  The answer is [false] all the same: the flag of completeness is conjoined with the
    success of the fix and not replaced by it. *)
Theorem SanityCheckAndFix_fix l :
  W !! top = Some l -> (forall v, V v -> clean_var l v = true) -> ~ complete ->
  KeyVec.map_ (instrs_ l) !! default_name = None ->
  exists i x e l' w',
    SanityCheckAndFix top w0 = Ok (false, w') /\
    (counter_ w0 < i)%N /\ w_instrs w' = <[i := x]> (w_instrs w0) /\
    w_ilas w' = <[top := l']> W /\ KeyVec.vec_ (instrs_ l') = KeyVec.vec_ (instrs_ l) ++ [i] /\
    i_name x = default_name /\ i_host x = Some top /\ updates_ x = ∅ /\ decode_ x = Some e /\
    (forall ρ, env_ok ρ -> holds ρ e <-> ~ exists i, enabled ρ i).
Proof using SL HW Hilas Htree Htop Hheap.
  intros Hl Hclean Hc Hfresh.
  destruct prefix_run as (b & acc & nz & w1 & T1 & Hk & Hg & Ga & Sa & Va & Hacc & Mn & Hb & Hd).
  destruct (check_answer _ _ Mn) as [_ Hunsat].
  assert (Ez : bool_decide (z_check [nz] = unsat) = false).
  { apply bool_decide_eq_false. intros E. apply Hc. intros m Hm.
    by apply (enabled_dec acc); [apply env_of_ok| |apply Hunsat]. }
  destruct (GetVar_run acc) as (vs & Ev & Hvs).
  destruct (add_default_run T1 w1 acc l Hg Ga Sa Hl)
    as (i & x & e & w2 & E2 & Hi & Hw & Hil & Hn & Hh & Hu & He & _ & Hiff).
  exists i, x, e, (add_instr l default_name i), w2.
  split; [|split_and!; try done].
  - unfold SanityCheckAndFix. setoid_rewrite Hk. rewrite Ez.
    rewrite (ST_bind_run _ _ _ _ _ (ila_run _ _ _ (ila_start _ _ _ _ Hg Hl))).
    rewrite (lift_bind_run _ _ _ _ Ev). fold default_name.
    change (forallb _ vs) with (forallb (clean_var l) vs).
    assert (Ec : forallb (clean_var l) vs = true).
    { apply forallb_forall. intros v Hv%list_elem_of_In. by apply Hclean, Va, Hvs. }
    rewrite Ec, (ST_bind_run _ _ _ _ _ E2). by rewrite andb_false_r.
  - unfold add_instr. cbn [instrs_ Ila.with_instrs]. unfold KeyVec.push_back.
    by rewrite Hfresh.
  - intros ρ Hρ. by rewrite Hiff, Hacc.
Qed.
End sanity.
End Sanity.

(** An ILA with a Boolean state and an instruction for each of its values, or
    for one only. *)
Module FlagSample.
Definition b : Expr :=
  ExprVar {| h_id := 2; h_name := "b"; h_host := Some 1%N; h_sort := SortBool |} [].
Definition not_b : Expr :=
  ExprOp {| h_id := 3; h_name := "$3"; h_host := Some 1%N; h_sort := SortBool |} kNot None [b] [].
Definition flag_heap : gmap objid Expr := heap_of [b; not_b].
Definition set (name : string) (d : Expr) : Instr :=
  {| i_name := name; i_host := Some 1%N; decode_ := Some d; updates_ := ∅; prog_ := None |}.
Definition base : InstrLvlAbs :=
  Ila.with_states (IlaOk.nil_ila "top" None) (KeyVec.push_back KeyVec.empty "b" b).2.
Definition one : InstrLvlAbs := Ila.with_instrs base (KeyVec.push_back KeyVec.empty "on" 4%N).2.
Definition two : InstrLvlAbs := Ila.with_instrs one (KeyVec.push_back (instrs_ one) "off" 5%N).2.
Definition flag_world (l : InstrLvlAbs) : World :=
  {| counter_ := 5; w_ilas := {[ 1%N := l ]};
     w_instrs := {[ 4%N := set "on" b; 5%N := set "off" not_b ]} |}.

Lemma flag_heap_ok l : heap_ok flag_heap (flag_world l).
Proof.
  apply heap_of_ok; [apply (bool_decide_unpack _); reflexivity|].
  each; (split; [by apply N.leb_le|vm_compute; each]).
Qed.

Section flag.
Context (l : InstrLvlAbs).
Lemma flag_at m l' : w_ilas (flag_world l) !! m = Some l' -> m = 1%N /\ l' = l.
Proof. intros H. cbn [w_ilas flag_world] in H. by apply lookup_singleton_Some in H as [<- <-]. Qed.

Lemma flag_ilas : parent_ l = None -> IlaOk.ilas_ok (w_ilas (flag_world l)).
Proof. intros Hp m l' p [-> ->]%flag_at. congruence. Qed.

Lemma flag_tree : KeyVec.vec_ (childs_ l) = [] -> Collect.absknob.tree_ok (flag_world l).
Proof.
  intros Hc. split.
  - intros m l' [-> ->]%flag_at. cbn. lia.
  - intros m l' c [-> ->]%flag_at. rewrite Hc. by intros ?%elem_of_nil.
  - intros m l' [-> ->]%flag_at. rewrite Hc. constructor.
Qed.
End flag.

Definition named_b (v : Expr) : Prop := v = b.
Lemma flag_cond l e : e = b \/ e = not_b -> Sanity.cond_ok (flag_world l) flag_heap named_b e.
Proof.
  intros He. split; [split|..]; destruct He as [->| ->]; try done.
  - by intros v ->%list_elem_of_singleton.
  - by intros v ->%list_elem_of_singleton.
Qed.

Lemma flag_instr_ok l i : i ∈ [4%N; 5%N] ->
  Sanity.instr_ok (flag_world l) flag_heap named_b 1 i.
Proof.
  rewrite elem_of_cons, list_elem_of_singleton. intros [->| ->].
  - exists (set "on" b), b. do 3 (split; [done|]). apply flag_cond. by left.
  - exists (set "off" not_b), not_b. do 3 (split; [done|]). apply flag_cond. by right.
Qed.

Lemma flag_ila_ok l d l' : valid_ l = None -> KeyVec.vec_ (instrs_ l) ⊆ [4%N; 5%N] ->
  w_ilas (flag_world l) !! d = Some l' -> Sanity.ila_ok (flag_world l) flag_heap named_b d l'.
Proof.
  intros Hv Hi [-> ->]%flag_at. split; [congruence|]. intros i Hin. by apply flag_instr_ok, Hi.
Qed.
End FlagSample.
Import FlagSample.

Lemma SanityCheckAndFix_verdict_witness :
  let L := layout_id in
  Sanity.complete (flag_world two) 1.
Proof.
  intros L.
  destruct (Sanity.SanityCheckAndFix_verdict (SL := PropSolver.solver_laws) (flag_world two) flag_heap 1 named_b)
    as (r & w' & E & Hr & _).
  - by apply flag_ilas.
  - by apply flag_tree.
  - apply flag_heap_ok.
  - by eexists.
  - intros d l _. by apply flag_ila_ok.
  - apply Hr.
    assert (H : match SanityCheck.SanityCheckAndFix (Z3 := Terms.terms) (SV := PropSolver.solver) 1 (flag_world two) with Ok (r, _) => r | Fail _ => false end
      = true) by (vm_compute; reflexivity).
    rewrite E in H. exact H.
Defined.

Lemma SanityCheckAndFix_fix_witness :
  let L := layout_id in
  exists w', SanityCheck.SanityCheckAndFix (Z3 := Terms.terms) (SV := PropSolver.solver) 1 (flag_world one) = Ok (false, w').
Proof.
  intros L.
  destruct (Sanity.SanityCheckAndFix_fix (SL := PropSolver.solver_laws) (flag_world one) flag_heap 1 named_b)
    with (l := one) as (i & x & e & l' & w' & E & _).
  - by apply flag_ilas.
  - by apply flag_tree.
  - apply flag_heap_ok.
  - by eexists.
  - intros d l _. apply flag_ila_ok; [done|]. intros i ->%list_elem_of_singleton. by left.
  - done.
  - by intros v ->.
  - intros Hc. destruct (Hc PropSolver.base) as (i & d & l & Hu & Hl & Hi & _ & x & e & Hx & He & Hh).
    + exact (PropSolver.base_ok [] ltac:(constructor)).
    + apply flag_at in Hl as [-> ->]. apply list_elem_of_singleton in Hi as ->.
      cbn [w_instrs flag_world] in Hx. rewrite lookup_insert_eq in Hx. injection Hx as <-.
      injection He as <-. discriminate Hh.
  - done.
  - exists w'. exact E.
Defined.

(** ** [SimplifySemantic] *)
Module SimplifyOk.
Import Simplify Collect.absknob.

(** What the translation needs of an expression of the heap. *)
Record fine (W : gmap objid InstrLvlAbs) (T : gmap objid Expr) (e : Expr) : Prop := {
  fine_heap : in_heap T e;
  fine_wt : wt e = true;
  fine_tr : translatable W e = true }.

Section expr.
Context {Z3 : Z3Api} {LZ : Z3Laws Z3} {SV : Z3Solver Z3} {SL : Z3SolverLaws SV}.
Context (W : gmap objid InstrLvlAbs) (HW : IlaOk.ilas_ok W) (T : gmap objid Expr) (w : World).
Context (target assump : Expr).
Hypothesis Hheap : heap_ok T w.
Hypothesis Htarget : fine W T target.
Hypothesis Hassump : fine W T assump.
Hypothesis Hbool : Exprs.sort assump = SortBool.
Local Abbreviation ρm m := (env_of W m "").

Lemma fine_args e : fine W T e -> Forall (fine W T) (Exprs.args e).
Proof using Hheap.
  intros [H1 H2%wt_args H3%translatable_args]. pose proof (heap_args _ _ _ Hheap H1) as Ha.
  rewrite Forall_forall in *. split; auto.
Qed.

Lemma fine_denotes e : fine W T e -> exists z, GetExpr W e "" = Ok z /\ denotes W "" e z.
Proof using HW Hheap.
  intros []. eapply (GetExpr_denotes W HW T "" e); [by eapply heap_registered|done..].
Qed.

(** Equal in every model in which the assumption holds. *)
Definition equal_under (a b : Expr) : Prop :=
  forall m, model_ok m -> holds (ρm m) assump -> eval (ρm m) a = eval (ρm m) b.

Lemma zneq_means a b za zb : Exprs.sort a = Exprs.sort b -> sort_ok (Exprs.sort a) = true ->
  denotes W "" a za -> denotes W "" b zb ->
  exists z, zneq za zb = Ok z /\ means [z] (fun m => eval (ρm m) a <> eval (ρm m) b).
Proof using Type.
  intros Hs Hok [Ha Hva] [Hb Hvb].
  destruct (z_app_law SEq [za; zb] [Exprs.sort a; Exprs.sort b] SortBool) as (z & E & Hz & Hv).
  { constructor; [exact Ha|constructor; [exact Hb|constructor]]. }
  { cbn. by rewrite decide_True. }
  destruct (znot_means z (fun m => eval (ρm m) a = eval (ρm m) b)) as (nz & En & Mn).
  { split; [by apply Forall_singleton|]. intros m Hm. rewrite Forall_singleton.
    specialize (Hv m Hm). cbn in Hv. injection Hv as ->. rewrite <- Hva, <- Hvb by done. clear.
    split; [intros [= H%bool_decide_eq_true]; by f_equal|intros [= H]; f_equal; by apply bool_decide_eq_true]. }
  exists nz. unfold zneq, zeq. rewrite E. by split.
Qed.

Lemma CheckEq_run x : fine W T x -> Exprs.sort x = Exprs.sort target ->
  exists b, CheckEqModAssump W target assump x = Ok b /\ (b = true -> equal_under x target).
Proof using SL HW Hheap Htarget Hassump Hbool.
  intros Hx Hs. destruct (fine_denotes _ Hassump) as (za & Ea & Da), (fine_denotes _ Htarget) as (zt & Et & Dt),
    (fine_denotes _ Hx) as (zx & Ex & Dx).
  destruct (zneq_means x target zx zt Hs) as (zn & En & Mn); [by apply wt_sort_ok, Hx|done|done|].
  destruct (zand_means za zn _ _ (bool_means W assump za Hbool Da) Mn) as (z & Ez & Mz).
  destruct (check_answer _ _ Mz) as [_ Hunsat].
  exists (bool_decide (z_check [z] = unsat)). split.
  - unfold CheckEqModAssump. rewrite Ea, Et, Ex. cbn. rewrite En. cbn. by rewrite Ez.
  - intros Hb%bool_decide_eq_true m Hm Ha. destruct (decide (eval (ρm m) x = eval (ρm m) target)) as [|Hne]; [done|].
    by destruct (Hunsat Hb m Hm).
Qed.

(** What may replace an expression. *)
Record replaces (x d : Expr) : Prop := {
  rp_fine : fine W T d;
  rp_sort : Exprs.sort d = Exprs.sort x;
  rp_eq : equal_under d x }.

Lemma replaces_refl x : fine W T x -> replaces x x.
Proof using Type. by split. Qed.

Definition sinv (s : State) : Prop :=
  (forall i d, s.1 !! i = Some d -> exists x, T !! i = Some x /\ replaces x d) /\
  (forall c, s.2 = Some c -> replaces target c).

Lemma post_run e s : fine W T e -> sinv s -> exists s', eq_post W target assump e s = Ok s' /\
  sinv s' /\ s.1 ⊆ s'.1 /\ is_Some (s'.1 !! Exprs.id e).
Proof using SL HW Hheap Htarget Hassump Hbool.
  intros He [Hr Hc].
  assert (Hrw : exists d c, EqRewrite W target assump e s.2 = Ok (d, c) /\ replaces e d /\
            forall c', c = Some c' -> replaces target c').
  { unfold EqRewrite. destruct (Exprs.ptr_eq e target) eqn:Ep.
    - assert (e = target) as -> by (eapply in_heap_eq; [apply He|apply Htarget|done]).
      exists (default target s.2), s.2. split; [done|]. split; [|done].
      destruct s.2 as [c|] eqn:Ec; cbn; [by apply Hc|by apply replaces_refl].
    - destruct (negb (is_some s.2) && _) eqn:Es.
      + apply andb_true_iff in Es as [_ Es%Sorts.Equal_eq].
        destruct (CheckEq_run e He Es) as (b & -> & Hb). exists e, (if b then Some e else s.2).
        split; [done|]. split; [by apply replaces_refl|]. destruct b; [|done].
        intros c' [= <-]. split; [done|done|by apply Hb].
      + exists e, s.2. split; [done|]. split; [by apply replaces_refl|done]. }
  destruct Hrw as (d & c & E & Hd & Hc'). eexists. unfold eq_post. rewrite E. split; [reflexivity|].
  destruct (s.1 !! Exprs.id e) as [d'|] eqn:Ei; cbn.
  - split; [by split|]. split; [done|]. by exists d'.
  - split; [|split; [by apply insert_subseteq|rewrite lookup_insert_eq; by eexists]].
    split; [|done]. intros i d'. cbn. rewrite lookup_insert_Some. intros [[<- <-]|[_ Hi]]; [|by apply Hr].
    exists e. split; [apply He|done].
Qed.

Lemma eq_walk e : forall s, fine W T e -> sinv s ->
  exists s', Exprs.DepthFirstVisitPrePost eq_pre (eq_post W target assump) e s = Ok s' /\
    sinv s' /\ s.1 ⊆ s'.1 /\ is_Some (s'.1 !! Exprs.id e).
Proof using SL HW Hheap Htarget Hassump Hbool.
  induction e as [e IH] using Expr_args_ind. intros s He Hs. rewrite DepthFirstVisitPrePost_unfold.
  unfold eq_pre at 1. destruct (s.1 !! Exprs.id e) as [d|] eqn:Ed; cbn [is_some].
  { exists s. split; [done|]. split; [done|]. split; [done|by exists d]. }
  assert (Hargs : exists s1, foldM (Exprs.DepthFirstVisitPrePost eq_pre (eq_post W target assump))
            (Exprs.args e) s = Ok s1 /\ sinv s1 /\ s.1 ⊆ s1.1).
  { pose proof (fine_args _ He) as Ha. clear Ed He. revert s Hs.
    induction Ha as [|a l Ha _ IHl]; intros s Hs; [by exists s|].
    apply Forall_cons in IH as [IHa IH']. destruct (IHa s Ha Hs) as (s1 & E1 & H1 & S1 & _).
    destruct (IHl IH' s1 H1) as (s2 & E2 & H2 & S2). exists s2. cbn [foldM]. rewrite E1.
    split; [exact E2|]. split; [done|by etrans]. }
  destruct Hargs as (s1 & E1 & H1 & S1). rewrite E1. cbn [mbind Res_bind].
  destruct (post_run e s1 He H1) as (s2 & E2 & H2 & S2 & Hi). exists s2.
  split; [done|]. split; [done|]. split; [by etrans|done].
Qed.

Lemma subtree_run : exists d,
  (s ← Exprs.DepthFirstVisitPrePost eq_pre (eq_post W target assump) target (∅, None); eq_get s target) = Ok d /\
  replaces target d.
Proof using SL HW Hheap Htarget Hassump Hbool.
  destruct (eq_walk target (∅, None) Htarget) as (s & E & [Hr _] & _ & [d Hd]).
  { split; [|done]. intros i d' H. cbn in H. by apply lookup_empty_Some in H. }
  exists d. rewrite E. cbn. unfold eq_get. rewrite Hd. split; [done|].
  destruct (Hr _ _ Hd) as (x & Hx & H). rewrite (fine_heap _ _ _ Htarget) in Hx. by simplify_eq.
Qed.
End expr.

(** *** The pass *)
Section pass.
Context {Z3 : Z3Api} {LZ : Z3Laws Z3} {SV : Z3Solver Z3} {SL : Z3SolverLaws SV} {L : Layout}.
Context (w0 : World) (T0 : gmap objid Expr) (top : objid).
Local Abbreviation W := (w_ilas w0).
Local Abbreviation ρm m := (env_of (w_ilas w0) m "").

Definition cond_ok (e : Expr) : Prop := good W T0 e /\ Exprs.sort e = SortBool.
Record simp_instr_ok (d : objid) (x : Instr) : Prop := {
  so_host : i_host x = Some d;
  so_decode : exists e, decode_ x = Some e /\ cond_ok e;
  so_update s u : updates_ x !! s = Some u -> exists e, u = Some e /\ fine W T0 e }.
Record simp_ila_ok (d : objid) (l : InstrLvlAbs) : Prop := {
  so_valid : exists v, valid_ l = Some v /\ cond_ok v;
  so_instr i : i ∈ KeyVec.vec_ (instrs_ l) -> exists x, w_instrs w0 !! i = Some x /\ simp_instr_ok d x }.

Hypothesis HW : IlaOk.ilas_ok W.
Hypothesis Htree : tree_ok w0.
Hypothesis Hheap : heap_ok T0 w0.
Hypothesis Htop : is_Some (W !! top).
Hypothesis Hilas : forall d l, under W top d -> W !! d = Some l -> simp_ila_ok d l.

Definition enabling (d : objid) (x : Instr) (ρ : Env) : Prop := exists l v e,
  W !! d = Some l /\ valid_ l = Some v /\ decode_ x = Some e /\ holds ρ v /\ holds ρ e.

(** The simplified update: same sort, and same value whenever the instruction is
    enabled. *)
Definition update_simplified (T : gmap objid Expr) (d : objid) (x0 : Instr) (u0 u : option (option Expr)) : Prop :=
  match u0, u with
  | Some (Some e0), Some (Some e) => fine W T e /\ Exprs.sort e = Exprs.sort e0 /\
      forall m, model_ok m -> enabling d x0 (ρm m) -> eval (ρm m) e = eval (ρm m) e0
  | None, None => True
  | _, _ => False
  end.
Record simplified (T : gmap objid Expr) (d : objid) (x0 x : Instr) : Prop := {
  sd_name : i_name x = i_name x0;
  sd_host : i_host x = i_host x0;
  sd_decode : decode_ x = decode_ x0;
  sd_prog : prog_ x = prog_ x0;
  sd_updates s : update_simplified T d x0 (updates_ x0 !! s) (updates_ x !! s) }.

Definition owned (d i : objid) : Prop :=
  exists l, under W top d /\ W !! d = Some l /\ i ∈ KeyVec.vec_ (instrs_ l).

Record sstage (T : gmap objid Expr) (w : World) : Prop := {
  ss_sub : T0 ⊆ T;
  ss_heap : heap_ok T w;
  ss_ilas : w_ilas w = W;
  ss_counter : (counter_ w0 <= counter_ w)%N;
  ss_other i : (forall d, ~ owned d i) -> w_instrs w !! i = w_instrs w0 !! i;
  ss_instr d i x0 : owned d i -> w_instrs w0 !! i = Some x0 ->
    exists x, w_instrs w !! i = Some x /\ simplified T d x0 x }.

Lemma fine_mono T T' e : T ⊆ T' -> fine W T e -> fine W T' e.
Proof using Type. intros Hs []. split; [by eapply in_heap_mono|done..]. Qed.

Lemma update_simplified_mono T T' d x0 u0 u : T ⊆ T' -> update_simplified T d x0 u0 u -> update_simplified T' d x0 u0 u.
Proof using Type.
  intros Hs. unfold update_simplified. destruct u0 as [[e0|]|], u as [[e|]|]; try done.
  intros (H & ?). split; [by eapply fine_mono|done].
Qed.

Lemma sstage_start : sstage T0 w0.
Proof using Hheap Hilas.
  split; try done. intros d i x0 (l & Hu & Hl & Hi) Hx.
  destruct (so_instr _ _ (Hilas d l Hu Hl) i Hi) as (x & Hx' & Hok).
  assert (x = x0) as -> by congruence. exists x0. split; [done|].
  split; try done. intros s. unfold update_simplified. destruct (updates_ x0 !! s) as [u|] eqn:E; [|done].
  destruct (so_update _ _ Hok s u E) as (e & -> & He). done.
Qed.

Lemma sstage_grows T w T' w' : sstage T w -> grows T w T' w' -> sstage T' w'.
Proof using Type.
  intros [S1 S2 S3 S4 S5 S6] [G1 G2 G3 G4 G5]. split; [by etrans|done|congruence|lia|..].
  - intros i Hi. rewrite G4. auto.
  - intros d i x0 Ho Hx. destruct (S6 d i x0 Ho Hx) as (x & Hx' & []). exists x. rewrite G4.
    split; [done|]. split; try done. intros s. by eapply update_simplified_mono.
Qed.

Lemma owned_unique d d' i x0 : owned d i -> owned d' i -> w_instrs w0 !! i = Some x0 -> d = d'.
Proof using Hilas.
  intros (l & Hu & Hl & Hi) (l' & Hu' & Hl' & Hi') Hx.
  destruct (so_instr _ _ (Hilas d l Hu Hl) i Hi) as (x & Hx1 & H1).
  destruct (so_instr _ _ (Hilas d' l' Hu' Hl') i Hi') as (x' & Hx2 & H2).
  pose proof (so_host _ _ H1). pose proof (so_host _ _ H2). congruence.
Qed.

Lemma SimpEqSubtree_run T w d i x0 x e : sstage T w -> owned d i -> w_instrs w0 !! i = Some x0 ->
  w_instrs w !! i = Some x -> simplified T d x0 x -> fine W T e ->
  exists e' w' T', SimpEqSubtree (Some e) i w = Ok (e', w') /\ grows T w T' w' /\
    fine W T' e' /\ Exprs.sort e' = Exprs.sort e /\
    forall m, model_ok m -> enabling d x0 (ρm m) -> eval (ρm m) e' = eval (ρm m) e.
Proof using SL HW Hilas.
  intros [S1 S2 S3 S4 S5 S6] (l & Hu & Hl & Hi) Hx0 Hx [Sn Sh Sd Sp Su] He.
  destruct (Hilas d l Hu Hl) as [(v & Hv & Gv & Sv) Hins].
  destruct (Hins i Hi) as (x' & Hx' & [Hh (dc & Hdc & Gd & Sdc) _]). assert (x' = x0) as -> by congruence.
  assert (Hgood : forall e, good W T0 e -> good (w_ilas w) T e).
  { intros a []. rewrite S3. split; [by eapply in_heap_mono|done..]. }
  destruct (makes_And (fun _ => True) T w v dc (fun ρ => truth ρ v) (fun ρ => truth ρ dc))
    as (c & w1 & T1 & E1 & G1 & Gc & Sc & _ & Hc); try done; try (by apply Hgood).
  { intros. apply truth_eval; [done|apply Gv|done]. } { intros. apply truth_eval; [done|apply Gd|done]. }
  assert (HWe : w_ilas w1 = W) by (rewrite (grows_ilas _ _ _ _ G1); done).
  destruct (subtree_run W HW T1 w1 e c) as (e' & E2 & [Hf Hs Heq]).
  { apply G1. } { eapply fine_mono; [apply G1|done]. } { destruct Gc. rewrite HWe in *. done. } { done. }
  exists e', w1, T1. split; [|split; [done|split; [done|split; [done|]]]].
  - unfold SimpEqSubtree. rewrite (ST_bind_run _ _ _ _ _ (instr_run _ _ _ Hx)). unfold notnull.
    rewrite (lift_bind_run (not_null (i_host x)) _ _ d) by by rewrite Sh, Hh.
    rewrite (ST_bind_run _ _ _ _ _ (ila_run d w l ltac:(by rewrite S3))).
    rewrite (lift_bind_run (not_null (valid_ l)) _ _ v) by by rewrite Hv.
    rewrite (lift_bind_run (not_null (decode_ x)) _ _ dc) by by rewrite Sd, Hdc.
    rewrite (ST_bind_run _ _ _ _ _ E1), (lift_bind_run (deref (Some e)) _ _ e eq_refl).
    unfold gets. cbv [mbind ST_bind]. rewrite HWe.
    destruct (Exprs.DepthFirstVisitPrePost _ _ _ _) as [s|]; [|done]. cbn in E2 |- *. by rewrite E2.
  - intros m Hm (l' & v' & dc' & Hl' & Hv' & Hdc' & Hhv & Hhd). simplify_eq. apply Heq; [done|].
    unfold holds. rewrite Hc by by apply env_of_ok. apply truth_holds in Hhv, Hhd. by rewrite Hhv, Hhd.
Qed.

Lemma simp_update_run T w d i x0 s : sstage T w -> owned d i -> w_instrs w0 !! i = Some x0 ->
  is_Some (updates_ x0 !! s) -> exists w' T', simp_update i s w = Ok (true, w') /\ sstage T' w'.
Proof using SL HW Hilas.
  intros Hst Ho Hx0 [u0 Hu0]. destruct (ss_instr _ _ Hst d i x0 Ho Hx0) as (x & Hx & Hsx).
  pose proof (sd_updates _ _ _ _ Hsx s) as Hus. rewrite Hu0 in Hus.
  destruct u0 as [e0|]; [|done]. destruct (updates_ x !! s) as [[e|]|] eqn:Eu; try done.
  destruct Hus as (He & Hse & Hve).
  destruct (SimpEqSubtree_run T w d i x0 x e Hst Ho Hx0 Hx Hsx He)
    as (e' & w1 & T1 & E1 & G1 & F1 & Se1 & V1).
  pose proof (sstage_grows _ _ _ _ Hst G1) as Hst1.
  assert (Hx1 : w_instrs w1 !! i = Some x) by by rewrite (grows_instrs _ _ _ _ G1).
  eexists _, T1. split.
  - unfold simp_update. rewrite (ST_bind_run _ _ _ _ _ (instr_run _ _ _ Hx)).
    unfold Instrs.update. rewrite Eu, (ST_bind_run _ _ _ _ _ E1). unfold Instrs.ForceAddUpdate.
    rewrite (ST_bind_run _ _ _ _ _ (instr_run _ _ _ Hx1)). rewrite put_instr_run. reflexivity.
  - destruct Hst1 as [S1 S2 S3 S4 S5 S6]. split; cbn [w_ilas w_instrs counter_]; [done|exact S2|done|done|..].
    + intros j Hj. rewrite lookup_insert_ne; [by apply S5|]. intros ->. by apply (Hj d).
    + intros d' j y0 Hoj Hy0. destruct (decide (i = j)) as [->|Hne].
      * pose proof (owned_unique _ _ _ _ Ho Hoj Hx0) as <-. simplify_eq.
        eexists. split; [apply lookup_insert_eq|]. destruct Hsx as [Sn Sh Sd Sp Su]. split; try done.
        intros s'. cbn [updates_ Instrs.with_updates]. destruct (decide (s = s')) as [<-|Hs].
        -- rewrite Hu0, lookup_insert_eq. cbn. split; [done|]. split; [congruence|].
           intros m Hm Hen. by rewrite V1, Hve.
        -- rewrite lookup_insert_ne by done. eapply update_simplified_mono; [apply G1|apply Su].
      * rewrite lookup_insert_ne by done. by apply S6.
Qed.

Lemma until_throw_run {A} (f : A -> M bool) (P : World -> Prop) l :
  (forall a w, a ∈ l -> P w -> exists w', f a w = Ok (true, w') /\ P w') ->
  forall w, P w -> exists w', until_throw f l w = Ok (true, w') /\ P w'.
Proof using Type.
  induction l as [|a l IH]; intros Hf w Hw; [by exists w|].
  destruct (Hf a w) as (w1 & E1 & H1); [by left|done|].
  destruct (IH (fun b w Hb => Hf b w ltac:(by right)) w1 H1) as (w2 & E2 & H2). exists w2.
  cbn [until_throw]. by rewrite (ST_bind_run _ _ _ _ _ E1).
Qed.

Definition staged (w : World) : Prop := exists T, sstage T w.

Lemma updated_states_elem x s : s ∈ Instrs.updated_states x <-> is_Some (updates_ x !! s).
Proof using Type.
  unfold Instrs.updated_states. rewrite (merge_sort_Permutation Instrs.str_le), elem_of_elements.
  by rewrite elem_of_dom.
Qed.

Lemma visiter_run d w : staged w -> under W top d -> is_Some (W !! d) ->
  exists w', visiter d () w = Ok ((), w') /\ staged w'.
Proof using SL HW Hilas.
  intros [T Hst] Hu [l Hl].
  assert (Hrun : exists w', until_throw simp_instr (KeyVec.vec_ (instrs_ l)) w = Ok (true, w') /\ staged w').
  { apply until_throw_run; [|by exists T]. intros i w1 Hi [T1 Hst1].
    assert (Ho : owned d i) by by exists l.
    destruct (so_instr _ _ (Hilas d l Hu Hl) i Hi) as (x0 & Hx0 & _).
    destruct (ss_instr _ _ Hst1 d i x0 Ho Hx0) as (x & Hx & Hsx).
    unfold simp_instr. rewrite (ST_bind_run _ _ _ _ _ (instr_run _ _ _ Hx)).
    apply until_throw_run; [|by exists T1]. intros s w2 Hs [T2 Hst2].
    destruct (simp_update_run T2 w2 d i x0 s Hst2 Ho Hx0) as (w3 & T3 & E3 & H3); [|exists w3; split; [done|by exists T3]].
    apply updated_states_elem in Hs. pose proof (sd_updates _ _ _ _ Hsx s) as Hus.
    destruct (updates_ x0 !! s) as [u|]; [by exists u|].
    destruct Hs as [u Hs]. by rewrite Hs in Hus. }
  destruct Hrun as (w' & E & H). exists w'. split; [|done]. unfold visiter.
  rewrite (ST_bind_run _ _ _ _ _ (ila_run d w l ltac:(by rewrite (ss_ilas _ _ Hst)))).
  by rewrite (ST_bind_run _ _ _ _ _ E).
Qed.

Lemma simp_walk n : forall m w, staged w -> under W top m -> (counter_ w0 < m + N.of_nat n)%N -> is_Some (W !! m) ->
  exists w', Ila.DepthFirstVisit visiter (S n) m () w = Ok ((), w') /\ staged w'.
Proof using SL HW Hilas Htree.
  induction n as [|n IH]; intros m w Hst Hu Hn [l Hm].
  { pose proof (tree_le _ Htree _ _ Hm). lia. }
  assert (Hc : forall c, c ∈ KeyVec.vec_ (childs_ l) -> under W top c /\ (counter_ w0 < c + N.of_nat n)%N /\
            is_Some (W !! c)).
  { intros c Hc. destruct (tree_child _ Htree _ _ _ Hm Hc). split; [|split; [lia|done]].
    eapply under_trans; [exact Hu|]. by eapply under_step. }
  assert (Hkids : exists w1, foldM (Ila.DepthFirstVisit visiter (S n)) (KeyVec.vec_ (childs_ l)) () w = Ok ((), w1) /\ staged w1).
  { revert w Hst. generalize (KeyVec.vec_ (childs_ l)) Hc. clear Hc.
    intros cs Hc. induction cs as [|c cs IHcs]; intros w Hst; [by exists w|].
    destruct (Hc c ltac:(by left)) as (U1 & U2 & U3). destruct (IH c w Hst U1 U2 U3) as (w1 & E1 & H1).
    destruct (IHcs (fun c H => Hc c ltac:(by right)) w1 H1) as (w2 & E2 & H2). exists w2. cbn [foldM].
    by rewrite (ST_bind_run _ _ _ _ _ E1). }
  destruct Hkids as (w1 & E1 & H1). destruct (visiter_run m w1 H1 Hu) as (w2 & E2 & H2); [by exists l|].
  exists w2. split; [|done].
  assert (Ek : Ila.visit_childs (Ila.DepthFirstVisit visiter (S n)) m (S n) 0 () w = Ok ((), w1)).
  { rewrite (visit_childs_foldM staged _ m l); [exact E1| | |done| |lia].
    - intros w' [T Hst']. by rewrite (ss_ilas _ _ Hst').
    - intros c [] w' [] w3 Hin Hst' E. destruct (Hc c Hin) as (U1 & U2 & U3).
      destruct (IH c w' Hst' U1 U2 U3) as (w4 & E4 & H4). rewrite E4 in E. by simplify_eq.
    - pose proof (childs_short w0 Htree m l Hm). unfold Ila.child_num, KeyVec.size. lia. }
  change (Ila.DepthFirstVisit visiter (S (S n)) m () w) with
    ((s' ← Ila.visit_childs (Ila.DepthFirstVisit visiter (S n)) m (S n) 0 (); visiter m s') w).
  by rewrite (ST_bind_run _ _ _ _ _ Ek).
Qed.

(** C18.  [SimplifySemantic] preserves the instructions.  It succeeds; no exception
    cuts it short; every update of every instruction of the hierarchy is replaced
    by an expression of the same sort that has the same value in every model in
    which the valid function of the ILA and the decode function hold; nothing
    else changes. *)
Theorem SimplifySemantic_preserves : exists w' T',
  SimplifySemantic top w0 = Ok (true, w') /\ heap_ok T' w' /\ w_ilas w' = W /\
  (forall i, (forall d, ~ owned d i) -> w_instrs w' !! i = w_instrs w0 !! i) /\
  forall d i x0, owned d i -> w_instrs w0 !! i = Some x0 ->
    exists x, w_instrs w' !! i = Some x /\ simplified T' d x0 x.
Proof using SL HW Hilas Htree Hheap Htop.
  destruct (simp_walk (S (N.to_nat (counter_ w0))) top w0) as (w' & E & T' & []);
    [exists T0; apply sstage_start|constructor|lia|done|].
  exists w', T'. split; [|done]. unfold SimplifySemantic, tree_fuel. by rewrite (ST_bind_run _ _ _ _ _ E).
Qed.
End pass.
End SimplifyOk.

(** An update [b & b], which becomes [b]. *)
Module SimplifySample.
Definition b_and_b : Expr :=
  ExprOp {| h_id := 3; h_name := "$3"; h_host := Some 1%N; h_sort := SortBool |} kAnd None [b; b] [].
Definition keep : Instr :=
  {| i_name := "keep"; i_host := Some 1%N; decode_ := Some b;
     updates_ := {[ "b" := Some b_and_b ]}; prog_ := None |}.
Definition simp_top : InstrLvlAbs := Ila.with_valid one (Some b).
Definition simp_world : World :=
  {| counter_ := 5; w_ilas := {[ 1%N := simp_top ]}; w_instrs := {[ 4%N := keep ]} |}.
Definition simp_heap : gmap objid Expr := heap_of [b; b_and_b].

Lemma simp_heap_ok : heap_ok simp_heap simp_world.
Proof.
  apply heap_of_ok; [apply (bool_decide_unpack _); reflexivity|].
  each; (split; [by apply N.leb_le|vm_compute; each]).
Qed.

Lemma simp_at d l : w_ilas simp_world !! d = Some l -> d = 1%N /\ l = simp_top.
Proof. intros H. cbn [w_ilas simp_world] in H. by apply lookup_singleton_Some in H as [<- <-]. Qed.

Lemma simp_ila d l : w_ilas simp_world !! d = Some l -> SimplifyOk.simp_ila_ok simp_world simp_heap d l.
Proof.
  intros [-> ->]%simp_at. split; [exists b; split; [done|by repeat split]|].
  intros i ->%list_elem_of_singleton. exists keep. split; [done|]. split; [done|exists b; by repeat split|].
  intros s u H. cbn [updates_ keep] in H. apply lookup_singleton_Some in H as [<- <-]. exists b_and_b. by repeat split.
Qed.

Lemma simp_tree : Collect.absknob.tree_ok simp_world.
Proof.
  split.
  - intros m l [-> ->]%simp_at. cbn. lia.
  - intros m l c [-> ->]%simp_at. by intros ?%elem_of_nil.
  - intros m l [-> ->]%simp_at. constructor.
Qed.
End SimplifySample.
Import SimplifySample.

Lemma SimplifySemantic_preserves_witness :
  let L := layout_id in
  exists w' T' x, Simplify.SimplifySemantic (Z3 := Terms.terms) (SV := PropSolver.solver) 1 simp_world = Ok (true, w') /\
    w_instrs w' !! 4%N = Some x /\ SimplifyOk.simplified simp_world T' 1 keep x.
Proof.
  intros L.
  destruct (SimplifyOk.SimplifySemantic_preserves (SL := PropSolver.solver_laws) simp_world simp_heap 1)
    as (w' & T' & E & _ & _ & _ & H).
  - by intros m l p [-> ->]%simp_at.
  - apply simp_tree.
  - apply simp_heap_ok.
  - by eexists.
  - intros d l _. apply simp_ila.
  - destruct (H 1%N 4%N keep) as (x & Hx & Hs); [|done|].
    + exists simp_top. split; [constructor|]. split; [done|by left].
    + exists w', T', x. split; [exact E|]. split; [exact Hx|exact Hs].
Defined.

Lemma simplify_sample :
  let L := layout_id in
  match Simplify.SimplifySemantic (Z3 := Terms.terms) (SV := PropSolver.solver) 1 simp_world with
  | Ok (_, w') => updates_ <$> w_instrs w' !! 4%N
  | Fail _ => None
  end = Some {[ "b" := Some b ]}.
Proof. vm_compute. reflexivity. Qed.
