(* ===== verification/MonoSpec.v ===== *)
(** * What a monolithic unrolling means

    [MonoUnroll] ([src/ila-mngr/u_unroller.cc]) chooses the instruction of a step
    with fresh selection bits.  Here its table of constraints is shown to say
    that exactly one bit is set, and that the step is the one of the selected
    instruction; the interface [TransitionsSpec] gives the formulas. *)
From S2P Require Import Prelude Sort Values Container Expr Smt World Z3Expr ExprOp AstHub IlaVars Collect Unroller UnrollerSpec Rewrite SolverPassesSpec.
Local Open Scope Z_scope.

Lemma ForallOrdPairs_lookup {A} (R : A -> A -> Prop) l :
  ForallOrdPairs R l <-> forall i j x y, (i < j)%nat -> l !! i = Some x -> l !! j = Some y -> R x y.
Proof.
  split.
  - induction 1 as [|a l Ha _ IH]; intros i j x y Hij Hx Hy; [done|]. destruct j as [|j]; [lia|]. cbn in Hy.
    destruct i as [|i]; cbn in Hx; [|by eapply (IH i j); [lia|..]]. simplify_eq.
    rewrite Forall_lookup in Ha. by eapply Ha.
  - induction l as [|a l IH]; intros H; constructor.
    + apply Forall_lookup. intros j y Hy. by apply (H 0%nat (S j)); [lia|..].
    + apply IH. intros i j x y Hij Hx Hy. by apply (H (S i) (S j)); [lia|..].
Qed.

(** An [ExprSet] of expressions of one heap loses none of them. *)
Lemma ExprSet_of {L : Layout} T l : (forall v, v ∈ l -> in_heap T v) ->
  forall v, v ∈ ExprSet.iter (ExprSet.insert_all l []) <-> v ∈ l.
Proof.
  intros Hl v. assert (Hwf : ExprSet.wf (ExprSet.insert_all l [])) by (apply ExprSet.insert_all_wf; constructor).
  rewrite (ExprSet.iter_perm _ Hwf). split; [intros [?|?%elem_of_nil]%ExprSet.insert_all_elem; done|]. intros Hv.
  assert (Hid : Exprs.id v ∈ ExprSet.ids (ExprSet.insert_all l [])).
  { apply ExprSet.insert_all_ids. left. by apply list_elem_of_fmap_2. }
  apply list_elem_of_fmap in Hid as (v' & Hid & Hv').
  replace v with v'; [done|]. pose proof Hv' as [Hv2|?%elem_of_nil]%ExprSet.insert_all_elem; [|done].
  pose proof (Hl v Hv) as H1. pose proof (Hl v' Hv2) as H2. unfold in_heap in H1, H2. congruence.
Qed.

Module MonoOk.
Import MonoUnroll asthub.
Section mono.
Context {Z3 : Z3Api} {LZ : Z3Laws Z3} {L : Layout}.
Context (w0 : World) (T0 : gmap objid Expr) (top : objid).
Abbreviation W := (w_ilas w0).

(** ** Building conditions

    A condition of the heap [T], and a call that builds one with meaning [Φ]. *)
Definition cond (T : gmap objid Expr) (e : Expr) : Prop := good W T e /\ Exprs.sort e = SortBool.
Definition stage (T : gmap objid Expr) (w : World) : Prop := grows T0 w0 T w.
Definition builds (T : gmap objid Expr) (w : World) (m : M Expr) (Φ : Env -> Prop) : Prop :=
  returns m w (fun e w' => exists T', stage T' w' /\ T ⊆ T' /\ cond T' e /\
    forall ρ, env_ok ρ -> holds ρ e <-> Φ ρ).

Lemma cond_mono T T' e : T ⊆ T' -> cond T e -> cond T' e.
Proof using Type. intros Hs [[] ?]. split; [split; try done; by eapply in_heap_mono|done]. Qed.

Lemma cond_bool T e ρ : cond T e -> env_ok ρ -> exists b, eval ρ e = Some (VBool b) /\ (holds ρ e <-> b = true).
Proof using Type.
  intros [[] Hs] Hρ. destruct (asthub.eval_bool ρ e Hρ) as [b Hb]; [done..|]. exists b. split; [done|].
  unfold holds. rewrite Hb. split; congruence.
Qed.

Lemma makes_builds T w m s f Φ : stage T w -> s = SortBool ->
  makes (fun _ => True) T w m s f ->
  (forall ρ, env_ok ρ -> f ρ = Some (VBool true) <-> Φ ρ) -> builds T w m Φ.
Proof using Type.
  intros Hst -> (e & w' & T' & E & Hg & Hgood & Hs & _ & Hev) HΦ. exists e, w'.
  pose proof (grows_trans _ _ _ _ _ _ Hst Hg) as Hst'. split; [done|]. exists T'. split; [done|].
  split; [apply (grows_sub _ _ _ _ Hg)|]. split.
  - split; [|done]. by rewrite (grows_ilas _ _ _ _ Hst') in Hgood.
  - intros ρ Hρ. unfold holds. by rewrite Hev, HΦ.
Qed.

Lemma stage_good T w e : stage T w -> good W T e -> good (w_ilas w) T e.
Proof using Type. intros Hst. by rewrite (grows_ilas _ _ _ _ Hst). Qed.

(** An operator over given arguments. *)
Lemma build_op op args k m T w Φ :
  stage T w -> Forall (good W T) args -> ExprOps.construct op args [] = Some m ->
  (forall w, k w = m w) -> op_sort op [] (Exprs.sort <$> args) = Some SortBool ->
  (forall ρ, env_ok ρ -> evals ρ args ≫= op_sem op [] = Some (VBool true) <-> Φ ρ) ->
  builds T w k Φ.
Proof using Type.
  intros Hst Ha Hc Hk Hs HΦ.
  destruct (makes_builds T w m SortBool (fun ρ => evals ρ args ≫= op_sem op []) Φ Hst eq_refl) as (e & w' & E & H);
    [|done|].
  - apply makes_op; [apply (grows_ok _ _ _ _ Hst)| |done..].
    eapply Forall_impl; [exact Ha|]. intros a. by apply stage_good.
  - exists e, w'. by rewrite Hk.
Qed.

Lemma build_const T w b : stage T w -> builds T w (BoolConst b) (fun _ => b = true).
Proof using Type.
  intros Hst. eapply (makes_builds T w _ SortBool (fun _ => Some (VBool b))); [done|done| |].
  - apply makes_BoolConst, (grows_ok _ _ _ _ Hst).
  - intros ρ _. split; congruence.
Qed.

Lemma cond_good2 T a b : cond T a -> cond T b -> Forall (good W T) [a; b].
Proof using Type. intros [] []. by repeat apply Forall_cons_2; try apply Forall_nil_2. Qed.

Lemma build_Not T w a : stage T w -> cond T a -> builds T w (Not a) (fun ρ => ~ holds ρ a).
Proof using Type.
  intros Hst Ha. pose proof Ha as [? Sa].
  eapply (build_op kNot [a]); [done|by apply Forall_singleton|reflexivity|done|cbn; by rewrite Sa|].
  intros ρ Hρ. destruct (cond_bool T a ρ Ha Hρ) as (x & Ex & ->). cbn. rewrite Ex. cbn.
  destruct x; naive_solver.
Qed.

Section two.
Context (T : gmap objid Expr) (w : World) (a b : Expr) (Hst : stage T w).

(** A connective of two conditions with the truth table [f]. *)
Lemma build_bin op k m (f : bool -> bool -> bool) (Φ : Prop -> Prop -> Prop) :
  ExprOps.construct op [a; b] [] = Some m -> (forall w, Exprs.sort a = Exprs.sort b -> k w = m w) ->
  (forall x y, op_sem op [] [VBool x; VBool y] = Some (VBool (f x y))) ->
  op_sort op [] [SortBool; SortBool] = Some SortBool ->
  (forall (x y : bool) A B, (A <-> x = true) -> (B <-> y = true) -> f x y = true <-> Φ A B) ->
  cond T a -> cond T b -> builds T w k (fun ρ => Φ (holds ρ a) (holds ρ b)).
Proof using Hst.
  intros Hc Hk Hf Hs HΦ Ha Hb. pose proof Ha as [? Sa]. pose proof Hb as [? Sb].
  eapply (build_op op [a; b]); [done|by apply cond_good2|done| |cbn; by rewrite Sa, Sb|].
  - intros w'. apply Hk. congruence.
  - intros ρ Hρ. destruct (cond_bool T a ρ Ha Hρ) as (x & Ex & Hx), (cond_bool T b ρ Hb Hρ) as (y & Ey & Hy).
    cbn. rewrite Ex, Ey. cbn. rewrite Hf, <- (HΦ x y _ _ Hx Hy). split; congruence.
Qed.

Lemma build_And : cond T a -> cond T b -> builds T w (And a b) (fun ρ => holds ρ a /\ holds ρ b).
Proof using Hst.
  apply (build_bin kAnd _ (ExprOps.ExprOpAnd a b) andb and); [done| |done..|].
  - intros w' Hs. by apply mixed_run.
  - intros x y A B -> ->. by rewrite andb_true_iff.
Qed.
Lemma build_Or : cond T a -> cond T b -> builds T w (Or a b) (fun ρ => holds ρ a \/ holds ρ b).
Proof using Hst.
  apply (build_bin kOr _ (ExprOps.ExprOpOr a b) orb or); [done| |done..|].
  - intros w' Hs. by apply mixed_run.
  - intros x y A B -> ->. by rewrite orb_true_iff.
Qed.
Lemma build_Imply : cond T a -> cond T b -> builds T w (Imply a b) (fun ρ => holds ρ a -> holds ρ b).
Proof using Hst.
  apply (build_bin kImply _ (ExprOps.ExprOpImply a b) implb (fun A B => A -> B)); [done..|].
  intros x y A B -> ->. by rewrite implb_true_iff.
Qed.
Lemma build_Eq : good W T a -> good W T b -> Exprs.sort a = Exprs.sort b ->
  builds T w (Eq a b) (fun ρ => eval ρ a = eval ρ b).
Proof using Hst.
  intros Ha Hb Hs. eapply (build_op kEqual [a; b]); [done| |reflexivity|done| |].
  - by repeat apply Forall_cons_2; try apply Forall_nil_2.
  - cbn. by rewrite Hs, decide_True.
  - intros ρ Hρ. destruct (eval_sound ρ a Hρ) as (x & Ex & _); [apply Ha|].
    destruct (eval_sound ρ b Hρ) as (y & Ey & _); [apply Hb|]. cbn. rewrite Ex, Ey. cbn.
    split; [intros [= H%bool_decide_eq_true]; congruence|]. intros [= ->]. by rewrite bool_decide_true.
Qed.
End two.

(** ** The meaning of the table *)

Definition dec_of (x : Instr) (ρ : Env) : Prop :=
  match decode_ x with Some d => holds ρ d | None => True end.
Definition decodes (ρ : Env) (i : objid) : Prop := exists x, w_instrs w0 !! i = Some x /\ dec_of x ρ.
(** [n] has the value that instruction [i] gives to [v]. *)
Definition updated (ρ : Env) (v n : Expr) (i : objid) : Prop :=
  exists x, w_instrs w0 !! i = Some x /\ eval ρ n = eval ρ (StateUpdCmpl x v).

(** What the table needs of an instruction, and of a state variable. *)
Record minstr_ok (vs : list Expr) (i : objid) : Prop := {
  mi_at : exists x h, w_instrs w0 !! i = Some x /\ i_host x = Some h /\ is_Some (W !! h);
  mi_dec x d : w_instrs w0 !! i = Some x -> decode_ x = Some d -> cond T0 d;
  mi_upd x v : w_instrs w0 !! i = Some x -> v ∈ vs ->
    good W T0 (StateUpdCmpl x v) /\ Exprs.sort (StateUpdCmpl x v) = Exprs.sort v }.
Definition mvar_ok (v : Expr) : Prop :=
  good W T0 v /\ Exprs.is_var v = true /\ exists h, Exprs.host v = Some h /\ is_Some (W !! h).

Lemma instr_returns i x T w Q : stage T w -> w_instrs w0 !! i = Some x -> Q x w -> returns (instr_ i) w Q.
Proof using Type.
  intros Hst Hx HQ. exists x, w. split; [|done]. unfold instr_. by rewrite (grows_instrs _ _ _ _ Hst), Hx.
Qed.

Lemma DecodeCmpl_builds vs i x T w : stage T w -> minstr_ok vs i -> w_instrs w0 !! i = Some x ->
  builds T w (DecodeCmpl x) (dec_of x).
Proof using Type.
  intros Hst Hi Hx. unfold DecodeCmpl, dec_of. destruct (decode_ x) as [d|] eqn:Ed.
  - apply returns_ret. exists T. split; [done|]. split; [done|]. split; [|done].
    eapply cond_mono; [apply (grows_sub _ _ _ _ Hst)|]. by eapply mi_dec.
  - eapply returns_impl; [by apply build_const|]. intros e w' (T' & H1 & H2 & H3 & H4). exists T'.
    split_and!; [done..|]. intros ρ Hρ. rewrite H4 by done. tauto.
Qed.

(** A new variable of an ILA. *)
Definition is_var_of (h : objid) (name : string) (s : Sort) (v : Expr) : Prop :=
  exists i, v = ExprVar {| h_id := i; h_name := name; h_host := Some h; h_sort := s |} [].
Definition declares (T : gmap objid Expr) (w : World) (m : M Expr) (h : objid) (name : string) (s : Sort) : Prop :=
  returns m w (fun v w' => exists T', stage T' w' /\ T ⊆ T' /\ good W T' v /\ is_var_of h name s v).

Lemma declares_var T w m h name s : stage T w -> is_Some (W !! h) -> sort_ok s = true ->
  m w = Ok (ExprVar {| h_id := counter_ w + 1; h_name := name; h_host := Some h; h_sort := s |} [],
            ExprOps.bump w) ->
  declares T w m h name s.
Proof using Type.
  intros Hst Hh Hs E.
  pose (v := ExprVar {| h_id := counter_ w + 1; h_name := name; h_host := Some h; h_sort := s |} []).
  assert (Hg : grows T w (<[Exprs.id v := v]> T) (ExprOps.bump w))
    by (apply heap_insert; [apply (grows_ok _ _ _ _ Hst)|done|apply Forall_nil_2]).
  exists v, (ExprOps.bump w). split; [exact E|]. exists (<[Exprs.id v := v]> T).
  split; [by eapply grows_trans|]. split; [apply (grows_sub _ _ _ _ Hg)|]. split; [|by eexists].
  assert (Hho : hosted W (Some h) = true) by (destruct Hh as [l Hh]; cbn; by rewrite Hh).
  split; [apply lookup_insert_eq|exact Hs|exact Hho|exact Hho].
Qed.

Lemma NewFreeVar_runs T w v name : stage T w -> mvar_ok v ->
  exists h, Exprs.host v = Some h /\ declares T w (NewFreeVar v name) h name (Exprs.sort v).
Proof using Type.
  intros Hst [Hg (_ & h & Hh & Hl)]. exists h. split; [done|]. unfold NewFreeVar. rewrite Hh.
  pose proof (wt_sort_ok v (good_wt _ _ _ Hg)) as Hs.
  apply declares_var; [done..|]. destruct (Exprs.sort v) as [|bw|aw dw| |]; try done.
Qed.

Lemma sel_bit_runs T w vs i : stage T w -> minstr_ok vs i ->
  exists x h, w_instrs w0 !! i = Some x /\ i_host x = Some h /\
    declares T w (sel_bit i) h (i_name x +:+ ".sel") SortBool.
Proof using Type.
  intros Hst Hi. destruct (mi_at _ _ Hi) as (x & h & Hx & Hh & Hl). exists x, h. do 2 (split; [done|]).
  unfold sel_bit. eapply returns_bind; [eapply (instr_returns i x T w (fun y w' => y = x /\ w' = w)); done|]. intros ? ? [-> ->].
  eapply returns_lift; [by rewrite Hh|]. by apply declares_var.
Qed.

(** *** The constraints of one variable *)
Lemma decodes_at ρ i x : w_instrs w0 !! i = Some x -> decodes ρ i <-> dec_of x ρ.
Proof using Type. intros Hx. split; [intros (y & Hy & H); by simplify_eq|]. intros H. by exists x. Qed.
Lemma updated_iff ρ v n i x : w_instrs w0 !! i = Some x ->
  updated ρ v n i <-> eval ρ n = eval ρ (StateUpdCmpl x v).
Proof using Type. intros Hx. split; [intros (y & Hy & H); by simplify_eq|]. intros H. by exists x. Qed.

Lemma stage_heap T w e : stage T w -> good W T0 e -> good W T e.
Proof using Type. intros Hst []. split; try done. eapply in_heap_mono; [apply (grows_sub _ _ _ _ Hst)|done]. Qed.

Lemma conds_mono T T' l : T ⊆ T' -> Forall (cond T) l -> Forall (cond T') l.
Proof using Type. intros Hs Hl. eapply Forall_impl; [exact Hl|]. intros e. by apply cond_mono. Qed.

Lemma good_mono T T' e : T ⊆ T' -> good W T e -> good W T' e.
Proof using Type. intros Hs []. split; try done. by eapply in_heap_mono. Qed.

Definition item_ok (T : gmap objid Expr) (vs : list Expr) (p : objid * Expr) : Prop :=
  minstr_ok vs p.1 /\ cond T p.2.

Lemma items_mono T T' vs l : T ⊆ T' -> Forall (item_ok T vs) l -> Forall (item_ok T' vs) l.
Proof using Type. intros Hs Hl. eapply Forall_impl; [exact Hl|]. intros p [H1 H2]. split; [done|]. by eapply cond_mono. Qed.

(** Run the next call, which [H] describes; what is known of the old heap holds of
    the new one. *)
Ltac carry Sub :=
  repeat match type of Sub with ?A ⊆ ?B => match goal with
    | H : cond A _ |- _ => apply (cond_mono _ _ _ Sub) in H
    | H : good W A _ |- _ => apply (good_mono _ _ _ Sub) in H
    | H : Forall (cond A) _ |- _ => apply (conds_mono _ _ _ Sub) in H
    | H : Forall (item_ok A _) _ |- _ => apply (items_mono _ _ _ _ Sub) in H
    | H : ?C ⊆ A |- _ => apply (fun h => transitivity h Sub) in H
    end end.
Ltac next H e w M :=
  eapply returns_bind; [eapply H; eauto|
  let T := fresh "T" in let St := fresh "St" in let Sub := fresh "Sub" in let C := fresh "C" in
  intros e w (T & St & Sub & C & M); carry Sub; clear Sub].

Lemma upd_loop_runs vs v n l : v ∈ vs -> Exprs.sort n = Exprs.sort v -> forall T w nd ad au,
  stage T w -> good W T n -> Forall (item_ok T vs) l -> cond T nd -> cond T ad -> cond T au ->
  returns (upd_loop v n l (nd, ad, au)) w (fun acc w' => exists T', stage T' w' /\ T ⊆ T' /\
    cond T' acc.1.1 /\ cond T' acc.1.2 /\ cond T' acc.2 /\ forall ρ, env_ok ρ ->
      (holds ρ acc.1.1 <-> holds ρ nd /\ Forall (fun p => ~ decodes ρ p.1) l) /\
      (holds ρ acc.1.2 <-> holds ρ ad /\ Forall (fun p => holds ρ p.2 -> decodes ρ p.1) l) /\
      (holds ρ acc.2 <-> holds ρ au /\ Forall (fun p => holds ρ p.2 -> updated ρ v n p.1) l)).
Proof using Type.
  intros Hv Hs. induction l as [|[i sel] l IH]; intros T w nd ad au Hst Hn Hl Cn Cd Cu.
  - apply returns_ret. exists T. cbn. split_and!; try done. intros ρ _. rewrite !Forall_nil. tauto.
  - apply Forall_cons in Hl as [[Hi Hsel] Hl]. cbn in Hi, Hsel. cbn [upd_loop].
    destruct (mi_at _ _ Hi) as (x & h & Hx & _). assert (H0 : T ⊆ T) by done.
    eapply returns_bind; [apply (instr_returns i x T w (fun y w' => y = x /\ w' = w)); done|]. intros ? ? [-> ->].
    next (DecodeCmpl_builds vs i x T w) d w1 M1.
    next build_Imply c w2 M2.
    next build_And ad' w3 M3.
    next build_Not nc w4 M4.
    next build_And nd' w5 M5.
    destruct (mi_upd _ _ Hi x v Hx Hv) as [Gu Su]. eapply stage_heap in Gu; [|eassumption].
    next build_Eq q w6 M6; [congruence|].
    next build_Imply c' w7 M7.
    next build_And au' w8 M8.
    eapply returns_impl; [eapply IH; eauto|].
    intros acc w' (T' & St' & Sub' & A1 & A2 & A3 & M). exists T'. split; [done|].
    split; [by etrans|]. split_and!; try done. intros ρ Hρ.
    destruct (M ρ Hρ) as (E1 & E2 & E3). rewrite E1, E2, E3, !Forall_cons. cbn [fst snd].
    rewrite M5, M3, M8, M4, M2, M7, M6, M1, (decodes_at ρ i x Hx), (updated_iff ρ v n i x Hx) by done. tauto.
Qed.

(** What the selection bits mean: a selected instruction is decoded and gives
    every variable its next value; the extra bit says that nothing is decoded. *)
Definition sel_dec (ρ : Env) (dum : Expr) (l : list (objid * Expr)) : Prop :=
  Forall (fun p => holds ρ p.2 -> decodes ρ p.1) l /\ (holds ρ dum -> Forall (fun p => ~ decodes ρ p.1) l).
Definition sel_upd (ρ : Env) (dum : Expr) (l : list (objid * Expr)) (v n : Expr) : Prop :=
  Forall (fun p => holds ρ p.2 -> updated ρ v n p.1) l /\ (holds ρ dum -> eval ρ n = eval ρ v).
(** The next-state variable of [v]. *)
Definition vnxt (v n : Expr) : Prop :=
  exists h, Exprs.host v = Some h /\ is_var_of h (Exprs.name v +:+ ".vnxt") (Exprs.sort v) n.

Lemma vnxt_sort v n : vnxt v n -> Exprs.sort n = Exprs.sort v.
Proof using Type. by intros (h & _ & i & ->). Qed.

Lemma var_constraints_runs vs v dum l T w : v ∈ vs -> stage T w -> mvar_ok v ->
  Forall (item_ok T vs) l -> cond T dum ->
  returns (var_constraints v dum l) w (fun r w' => exists T', stage T' w' /\ T ⊆ T' /\
    good W T' r.1 /\ vnxt v r.1 /\ Forall (cond T') r.2 /\
    forall ρ, env_ok ρ -> Forall (holds ρ) r.2 <-> sel_dec ρ dum l /\ sel_upd ρ dum l v r.1).
Proof using Type.
  intros Hv Hst Hok Hl Hd. assert (H0 : T ⊆ T) by done.
  assert (Gv : good W T v) by (eapply stage_heap; [eassumption|apply Hok]). unfold var_constraints.
  destruct (NewFreeVar_runs T w v (Exprs.name v +:+ ".vnxt") Hst Hok) as (h & Hh & Hdecl).
  eapply returns_bind; [exact Hdecl|]. intros n w1 (T1 & St & Sub & Gn & Hn). carry Sub. clear Sub.
  assert (Hs : Exprs.sort n = Exprs.sort v) by (by apply vnxt_sort; exists h).
  next build_const nd w2 Mnd. next build_const ad w3 Mad. next build_const au w4 Mau.
  eapply returns_bind; [eapply upd_loop_runs; eauto|]. intros [[nd' ad'] au'] w5 (T5 & St5 & Sub & C3 & C4 & C5 & M).
  cbn [fst snd] in *. carry Sub. clear Sub.
  next build_Imply c w6 Mc. next build_And ad2 w7 Mad2.
  next build_Eq q w8 Mq. next build_Imply c' w9 Mc'. next build_And au2 w10 Mau2.
  apply returns_ret. eexists. split; [eassumption|]. split; [eassumption|]. cbn [fst snd]. split; [done|].
  split; [by exists h|]. split; [by repeat apply Forall_cons_2; try apply Forall_nil_2|].
  intros ρ Hρ. destruct (M ρ Hρ) as (E1 & E2 & E3). unfold sel_dec, sel_upd.
  rewrite !Forall_cons, Forall_nil, Mad2, Mau2, Mc, Mc', Mq, E1, E2, E3, Mnd, Mad, Mau by done. tauto.
Qed.

(** *** One-hot selection *)
Lemma at_least_one_runs sels : forall T w e, stage T w -> cond T e -> Forall (cond T) sels ->
  builds T w (at_least_one e sels) (fun ρ => holds ρ e \/ Exists (holds ρ) sels).
Proof using Type.
  unfold at_least_one. induction sels as [|s sels IH]; intros T w e Hst He Hs.
  - apply returns_ret. exists T. split_and!; try done. intros ρ _. rewrite Exists_nil. tauto.
  - apply Forall_cons in Hs as [Hs Hl]. cbn [foldM]. assert (H0 : T ⊆ T) by done.
    next build_Or e' w1 M1.
    eapply returns_impl; [eapply IH; eauto|].
    intros r w' (T' & St' & Sub' & A & M). exists T'. split; [done|]. split; [by etrans|]. split; [done|].
    intros ρ Hρ. rewrite M, M1, Exists_cons by done. tauto.
Qed.

Definition not_both (ρ : Env) (a b : Expr) : Prop := ~ holds ρ a \/ ~ holds ρ b.

Lemma at_most_one_inner_runs s l : forall T w acc, stage T w -> cond T s -> cond T acc -> Forall (cond T) l ->
  builds T w (at_most_one_inner s l acc) (fun ρ => holds ρ acc /\ Forall (not_both ρ s) l).
Proof using Type.
  induction l as [|b l IH]; intros T w acc Hst Hs Ha Hl.
  - apply returns_ret. exists T. split_and!; try done. intros ρ _. rewrite Forall_nil. tauto.
  - apply Forall_cons in Hl as [Hb Hl]. cbn [at_most_one_inner]. assert (H0 : T ⊆ T) by done.
    next build_Not ni w1 M1. next build_Not nj w2 M2. next build_Or o w3 M3. next build_And acc' w4 M4.
    eapply returns_impl; [eapply IH; eauto|].
    intros r w' (T' & St' & Sub' & A & M). exists T'. split; [done|]. split; [by etrans|]. split; [done|].
    intros ρ Hρ. rewrite M, M4, M3, M2, M1, Forall_cons by done. unfold not_both. tauto.
Qed.

Lemma at_most_one_loop_runs sels : forall T w acc, stage T w -> cond T acc -> Forall (cond T) sels ->
  builds T w (at_most_one_loop sels acc) (fun ρ => holds ρ acc /\ ForallOrdPairs (not_both ρ) sels).
Proof using Type.
  induction sels as [|s l IH]; intros T w acc Hst Ha Hs.
  - apply returns_ret. exists T. split_and!; try done. intros ρ _. split; [|tauto]. split; [done|constructor].
  - apply Forall_cons in Hs as [Hs Hl]. cbn [at_most_one_loop]. assert (H0 : T ⊆ T) by done.
    next at_most_one_inner_runs acc' w1 M1.
    eapply returns_impl; [eapply IH; eauto|].
    intros r w' (T' & St' & Sub' & A & M). exists T'. split; [done|]. split; [by etrans|]. split; [done|].
    intros ρ Hρ. rewrite M, M1 by done. split.
    + intros [[H1 H2] H3]. split; [done|]. by constructor.
    + intros [H1 H2]. inversion H2; subst. tauto.
Qed.

Lemma at_most_one_runs sels T w : stage T w -> Forall (cond T) sels ->
  builds T w (at_most_one sels) (fun ρ => ForallOrdPairs (not_both ρ) sels).
Proof using Type.
  intros Hst Hs. unfold at_most_one. assert (H0 : T ⊆ T) by done. next build_const t w1 M1.
  eapply returns_impl; [eapply at_most_one_loop_runs; eauto|].
  intros r w' (T' & St' & Sub' & A & M). exists T'. split; [done|]. split; [by etrans|]. split; [done|].
  intros ρ Hρ. rewrite M, M1 by done. tauto.
Qed.

(** *** The table *)
Definition sel_var (i : objid) (s : Expr) : Prop := exists x h, w_instrs w0 !! i = Some x /\ i_host x = Some h /\
  is_var_of h (i_name x +:+ ".sel") SortBool s.

Lemma sel_bits_runs vs ins : Forall (minstr_ok vs) ins -> forall T w acc is_, stage T w -> Forall (cond T) acc ->
  Forall2 sel_var is_ acc ->
  returns (foldM (fun i l => s ← sel_bit i; mret (l ++ [s])) ins acc) w (fun sels w' => exists T', stage T' w' /\
    T ⊆ T' /\ Forall (cond T') sels /\ Forall2 sel_var (is_ ++ ins) sels).
Proof using Type.
  induction 1 as [|i ins Hi _ IH]; intros T w acc is_ Hst Hc Hv.
  - apply returns_ret. exists T. by rewrite app_nil_r.
  - cbn [foldM]. destruct (sel_bit_runs T w vs i Hst Hi) as (x & h & Hx & Hh & Hd).
    assert (H0 : T ⊆ T) by done.
    eapply returns_bind.
    { eapply returns_bind; [exact Hd|]. intros s w1 H. apply returns_ret.
      instantiate (1 := fun l w1 => exists s, l = acc ++ [s] /\ _ s w1). exists s. split; [done|exact H]. }
    intros l w1 (s & -> & T1 & St & Sub & Gs & Hs). carry Sub.
    eapply returns_impl; [eapply (IH T1 w1 (acc ++ [s]) (is_ ++ [i])); [done| |]|].
    + apply Forall_app. split; [done|]. apply Forall_singleton. split; [done|]. by destruct Hs as [? ->].
    + apply Forall2_app; [done|]. repeat constructor. by exists x, h.
    + intros sels w' (T' & A & B & C & D). exists T'. split; [done|]. split; [by etrans|].
      split; [done|]. by rewrite <- app_assoc in D.
Qed.

Lemma table_loop_runs vs dum l us : (forall v, v ∈ us -> v ∈ vs /\ mvar_ok v) ->
  forall T w next preds (Φ : Env -> Prop), stage T w -> Forall (item_ok T vs) l -> cond T dum ->
  Forall (good W T) next -> Forall (cond T) preds ->
  (forall ρ, env_ok ρ -> Forall (holds ρ) preds <-> Φ ρ) ->
  returns (foldM (fun var acc => r ← var_constraints var dum l; mret (acc.1 ++ [r.1], acc.2 ++ r.2)) us (next, preds)) w
    (fun r w' => exists T' new, stage T' w' /\ T ⊆ T' /\ r.1 = next ++ new /\ Forall (good W T') r.1 /\
       Forall2 vnxt us new /\ Forall (cond T') r.2 /\
       forall ρ, env_ok ρ -> Forall (holds ρ) r.2 <->
         Φ ρ /\ Forall2 (fun v n => sel_dec ρ dum l /\ sel_upd ρ dum l v n) us new).
Proof using Type.
  induction us as [|v us IH]; intros Hus T w next preds Φ Hst Hl Hd Hn Hp HΦ.
  - apply returns_ret. exists T, []. rewrite app_nil_r. split_and!; try done.
    intros ρ Hρ. rewrite HΦ by done. split; [|tauto]. split; [done|constructor].
  - destruct (Hus v) as [Hv Hok]; [by left|]. cbn [foldM].
    eapply returns_bind.
    { eapply returns_bind; [by eapply (var_constraints_runs vs v dum l T w)|]. intros r w1 H. apply returns_ret.
      instantiate (1 := fun a w1 => exists r, a = (next ++ [r.1], preds ++ r.2) /\ _ r w1). exists r. split; [done|exact H]. }
    intros a w1 (r & -> & T1 & St & Sub & Gn & Hvn & Cr & M). carry Sub.
    assert (Hg : Forall (good W T1) (next ++ [r.1])).
    { apply Forall_app. split; [|by apply Forall_singleton]. eapply Forall_impl; [exact Hn|]. intros e. by apply good_mono. }
    eapply returns_impl; [eapply (IH ltac:(intros u Hu; apply Hus; by right) T1 w1 (next ++ [r.1]) (preds ++ r.2)
      (fun ρ => Φ ρ /\ sel_dec ρ dum l /\ sel_upd ρ dum l v r.1)); try done|].
    + by apply Forall_app.
    + intros ρ Hρ. rewrite Forall_app, HΦ, M by done. done.
    + intros b w' (T' & new & A & B & C & D & E & F & G). exists T', (r.1 :: new).
      rewrite <- app_assoc in C. split_and!; try done; [by etrans|by constructor|].
      intros ρ Hρ. rewrite G, Forall2_cons by done. tauto.
Qed.

(** What the constraints of the table say. *)
Definition table_ok (vs : list Expr) (ins : list objid) (sels next : list Expr) (dum : Expr) (ρ : Env) : Prop :=
  Forall2 (fun v n => sel_dec ρ dum (zip ins sels) /\ sel_upd ρ dum (zip ins sels) v n) vs next /\
  (holds ρ dum \/ Exists (holds ρ) sels) /\ ForallOrdPairs (not_both ρ) sels.

Record mono_ok (vs : list Expr) (ins : list objid) : Prop := {
  mo_heap : heap_ok T0 w0;
  mo_tree : absknob.tree_ok w0;
  mo_top : is_Some (W !! top);
  mo_ins : absknob.GetInstrTree top w0 = Ok (ins, w0);
  mo_instr : Forall (minstr_ok vs) ins;
  mo_vars : forall v, v ∈ vs -> mvar_ok v }.

Lemma make_table_runs vs ins : mono_ok vs ins ->
  returns (make_table top vs) w0 (fun r w' => exists T' sels dum, stage T' w' /\
    Forall2 sel_var ins sels /\ is_var_of top "dead.sel" SortBool dum /\ Forall2 vnxt vs r.1 /\
    Forall (good W T') r.1 /\ Forall (cond T') r.2 /\
    forall ρ, env_ok ρ -> Forall (holds ρ) r.2 <-> table_ok vs ins sels r.1 dum ρ).
Proof using Type.
  intros [Hh Htr Ht Hi Him Hv]. unfold make_table.
  assert (Hst : stage T0 w0) by by apply grows_refl.
  eapply (returns_bind _ _ _ (fun a w' => a = ins /\ w' = w0)); [by exists ins, w0|]. intros ? ? [-> ->].
  eapply returns_bind; [eapply (sel_bits_runs vs ins Him T0 w0 [] []); [done|constructor|constructor]|].
  intros sels w1 (T1 & St1 & Sub1 & Cs & Hs). cbn [app] in Hs.
  eapply returns_bind; [apply (declares_var T1 w1 _ top "dead.sel" SortBool St1 Ht); done|].
  intros dum w2 (T2 & St2 & Sub2 & Gd & Hd). assert (Cd : cond T2 dum) by (split; [done|by destruct Hd as [? ->]]).
  carry Sub2.
  assert (Hl : Forall (item_ok T2 vs) (zip ins sels)).
  { clear -Hs Him Cs. revert Cs. induction Hs as [|i s ins sels _ _ IH]; intros Cs; [constructor|].
    apply Forall_cons in Him as [H1 H2]. apply Forall_cons in Cs as [H3 H4]. cbn. constructor; [by split|auto]. }
  eapply returns_bind.
  { apply (table_loop_runs vs dum (zip ins sels) vs ltac:(auto) T2 w2 [] [] (fun _ => True) St2 Hl Cd);
      [constructor|constructor|]. intros ρ _. by rewrite Forall_nil. }
  intros [nx preds] w3 (T3 & new & St3 & Sub3 & En & Gn & Hn & Cp & M). cbn [fst snd app] in En, Gn, Hn, Cp, M. subst new.
  carry Sub3.
  assert (H0 : T3 ⊆ T3) by done.
  next at_least_one_runs least w4 M4. next at_most_one_runs most w5 M5.
  apply returns_ret. eexists _, sels, dum. split; [eassumption|]. do 3 (split; [done|]). cbn [fst snd].
  split; [|split].
  - eapply Forall_impl; [exact Gn|]. intros e. by apply good_mono.
  - apply Forall_app. split; [done|]. by repeat apply Forall_cons_2; try apply Forall_nil_2.
  - intros ρ Hρ. unfold table_ok. rewrite Forall_app, !Forall_cons, Forall_nil, M, M4, M5 by done. tauto.
Qed.

(** ** One step

    A step of the instruction at position [k], or one that is none. *)
Inductive chosen (vs : list Expr) (ins : list objid) (sels : list Expr) (dum : Expr) (ρ ρ' : Env) : Prop :=
| chosen_instr k i s x :
    ins !! k = Some i -> sels !! k = Some s -> w_instrs w0 !! i = Some x ->
    holds ρ s -> (forall k' s', k' <> k -> sels !! k' = Some s' -> ~ holds ρ s') -> ~ holds ρ dum ->
    dec_of x ρ -> (forall v, v ∈ vs -> eval ρ' v = eval ρ (StateUpdCmpl x v)) ->
    chosen vs ins sels dum ρ ρ'
| chosen_none :
    holds ρ dum -> Forall (fun s => ~ holds ρ s) sels -> Forall (fun i => ~ decodes ρ i) ins ->
    (forall v, v ∈ vs -> eval ρ' v = eval ρ v) ->
    chosen vs ins sels dum ρ ρ'.

Definition next_is (vs next : list Expr) (ρ ρ' : Env) : Prop :=
  Forall2 (fun v n => eval ρ' v = eval ρ n) vs next.

Section choice.
Context (vs : list Expr) (ins : list objid) (sels nx : list Expr) (dum : Expr) (ρ ρ' : Env).
Hypothesis Hne : vs <> [].
Hypothesis Hlen : length ins = length sels.
Hypothesis Hnx : next_is vs nx ρ ρ'.

Lemma zip_at k i s : ins !! k = Some i -> sels !! k = Some s -> (i, s) ∈ zip ins sels.
Proof using Type.
  intros Hi Hs. apply list_elem_of_lookup_2 with k. by rewrite lookup_zip_with, Hi, Hs.
Qed.
Lemma zip_from i s : (i, s) ∈ zip ins sels -> exists k, ins !! k = Some i /\ sels !! k = Some s.
Proof using Type.
  intros [k Hk]%list_elem_of_lookup. exists k. rewrite lookup_zip_with in Hk.
  destruct (ins !! k) as [j|], (sels !! k) as [r|]; cbn in Hk; try discriminate Hk. by injection Hk as -> ->.
Qed.
Lemma sel_at k i : ins !! k = Some i -> exists s, sels !! k = Some s.
Proof using Hlen. intros Hi. apply lookup_lt_is_Some_2. rewrite <- Hlen. by eapply lookup_lt_Some. Qed.
Lemma ins_at k s : sels !! k = Some s -> exists i, ins !! k = Some i.
Proof using Hlen. intros Hi. apply lookup_lt_is_Some_2. rewrite Hlen. by eapply lookup_lt_Some. Qed.

(** Every variable has its next-state variable. *)
Lemma next_at (R : Expr -> Expr -> Prop) : Forall2 R vs nx ->
  forall v, v ∈ vs -> exists n, R v n /\ eval ρ' v = eval ρ n.
Proof using Hnx.
  intros HR v [k Hk]%list_elem_of_lookup. destruct (Forall2_lookup_l _ _ _ _ _ Hnx Hk) as (n & Hn & He).
  exists n. split; [|done]. eapply Forall2_lookup_lr; [exact HR|done..].
Qed.
Lemma next_all (B : Prop) (A : Expr -> Expr -> Prop) : B ->
  (forall v n, v ∈ vs -> eval ρ' v = eval ρ n -> A v n) -> Forall2 (fun v n => B /\ A v n) vs nx.
Proof using Hnx.
  intros HB. unfold next_is in Hnx. clear -Hnx HB. induction Hnx as [|v n us ns He _ IH]; intros HA; constructor.
  - split; [done|]. apply HA; [by left|done].
  - apply IH; [by inversion Hnx|]. intros u m Hu. apply HA. by right.
Qed.

(** At most one bit is set. *)
Lemma table_exclusive : table_ok vs ins sels nx dum ρ -> sel_dec ρ dum (zip ins sels) /\
  (holds ρ dum -> Forall (fun s => ~ holds ρ s) sels) /\
  forall j k s s', j <> k -> sels !! j = Some s -> sels !! k = Some s' -> ~ (holds ρ s /\ holds ρ s').
Proof using Hne Hlen Hnx.
  intros (Ht & _ & H2). rewrite ForallOrdPairs_lookup in H2. unfold not_both in H2.
  assert (Hd : sel_dec ρ dum (zip ins sels)) by (inversion Ht; [by subst|tauto]).
  split; [done|]. destruct Hd as [Hd1 Hd2]. rewrite Forall_forall in Hd1. split.
  - intros Hd%Hd2. rewrite Forall_forall in Hd. apply Forall_lookup. intros k s Hs Hh.
    destruct (ins_at k s Hs) as [i Hi]. pose proof (zip_at k i s Hi Hs) as Hz. by apply (Hd _ Hz), (Hd1 _ Hz).
  - intros j k s s' Hjk Hj Hk [Hh Hh']. destruct (decide (j < k)%nat).
    + by destruct (H2 j k s s' ltac:(lia) Hj Hk).
    + by destruct (H2 k j s' s ltac:(lia) Hk Hj).
Qed.

Lemma table_chosen : holds ρ dum \/ ~ holds ρ dum ->
  table_ok vs ins sels nx dum ρ -> chosen vs ins sels dum ρ ρ'.
Proof using Hne Hlen Hnx.
  intros Hdec Hok. destruct (table_exclusive Hok) as ([Hd1 Hd2] & Hx & Hex). destruct Hok as (Ht & H1 & _).
  rewrite Forall_forall in Hd1. destruct Hdec as [Hd|Hnd].
  - apply chosen_none; [done|by apply Hx| |].
    + apply Forall_lookup. intros k i Hi. destruct (sel_at k i Hi) as [s Hs]. specialize (Hd2 Hd).
      rewrite Forall_forall in Hd2. by apply (Hd2 _ (zip_at k i s Hi Hs)).
    + intros v Hv. destruct (next_at _ Ht v Hv) as (n & [_ [_ Hu]] & ->). by apply Hu.
  - destruct H1 as [?|H1]; [done|]. apply Exists_exists in H1 as (s & [k Hs]%list_elem_of_lookup & Hh).
    destruct (ins_at k s Hs) as [i Hi]. pose proof (zip_at k i s Hi Hs) as Hz.
    destruct (Hd1 _ Hz Hh) as (x & Hxi & Hdx). cbn in Hxi.
    apply (chosen_instr vs ins sels dum ρ ρ' k i s x); try done.
    + intros k' s' Hk Hs' Hh'. by destruct (Hex k' k s' s Hk Hs' Hs).
    + intros v Hv. destruct (next_at _ Ht v Hv) as (n & [_ [Hu _]] & ->). rewrite Forall_forall in Hu.
      destruct (Hu _ Hz Hh) as (y & Hy & ->). cbn in Hy. congruence.
Qed.

Lemma chosen_table : chosen vs ins sels dum ρ ρ' -> table_ok vs ins sels nx dum ρ.
Proof using Hlen Hnx.
  intros [k i s x Hi Hs Hx Hh Hoth Hnd Hdx Hu|Hd Hno Hnd Hu].
  - assert (Hk : forall p, p ∈ zip ins sels -> holds ρ p.2 -> p.1 = i).
    { intros [i' s'] (k' & Hi' & Hs')%zip_from Hh'. cbn in *. destruct (decide (k' = k)) as [->|Hk]; [congruence|].
      by destruct (Hoth k' s' Hk Hs'). }
    split; [|split].
    + apply next_all; [|intros v n Hv He]; (split; [|done]); apply Forall_forall; intros p Hin Hh';
        rewrite (Hk p Hin Hh'); exists x; split; [done..|]. by rewrite <- He, Hu.
    + right. apply Exists_exists. exists s. split; [by eapply list_elem_of_lookup_2|done].
    + apply ForallOrdPairs_lookup. intros a b sa sb Hab Ha Hb. unfold not_both.
      destruct (decide (a = k)) as [->|]; [right; apply (Hoth b); [lia|done]|left; by apply (Hoth a)].
  - rewrite Forall_forall in Hno. rewrite Forall_forall in Hnd.
    assert (Hz : forall p, p ∈ zip ins sels -> ~ holds ρ p.2 /\ ~ decodes ρ p.1).
    { intros [i' s'] (k' & Hi' & Hs')%zip_from. cbn. split; [apply Hno|apply Hnd]; by eapply list_elem_of_lookup_2. }
    split; [|split; [by left|]].
    + apply next_all.
      * split; [|intros _]; apply Forall_forall; intros p Hp; by destruct (Hz p Hp).
      * intros v n Hv He. split; [|intros _; by rewrite <- He, Hu]. apply Forall_forall. intros p Hp. by destruct (Hz p Hp).
    + apply ForallOrdPairs_lookup. intros a b sa sb Hab Ha Hb. left. apply Hno. by eapply list_elem_of_lookup_2.
Qed.
End choice.

(** ** The formulas

    The states and instructions of the hierarchy. *)
Definition tree_state (v : Expr) : Prop := exists d l,
  absknob.under W top d /\ W !! d = Some l /\ v ∈ KeyVec.vec_ (states_ l).
Definition tree_instr (i : objid) : Prop := exists d l,
  absknob.under W top d /\ W !! d = Some l /\ i ∈ KeyVec.vec_ (instrs_ l).

(** A hierarchy the unroller can translate. *)
Record hier_ok : Prop := {
  ho_ilas : IlaOk.ilas_ok W;
  ho_heap : heap_ok T0 w0;
  ho_tree : absknob.tree_ok w0;
  ho_top : is_Some (W !! top);
  ho_state : exists v, tree_state v;
  ho_var v : tree_state v -> mvar_ok v;
  ho_at i : tree_instr i -> exists x h, w_instrs w0 !! i = Some x /\ i_host x = Some h /\ is_Some (W !! h);
  ho_dec i x d : tree_instr i -> w_instrs w0 !! i = Some x -> decode_ x = Some d -> cond T0 d;
  ho_upd i x v : tree_instr i -> w_instrs w0 !! i = Some x -> tree_state v ->
    good W T0 (StateUpdCmpl x v) /\ Exprs.sort (StateUpdCmpl x v) = Exprs.sort v }.

(** One step of the hierarchy: some instruction that is decoded takes place, or
    none is decoded and nothing changes. *)
Inductive mono_step (ρ ρ' : Env) : Prop :=
| step_instr i x : tree_instr i -> w_instrs w0 !! i = Some x -> dec_of x ρ ->
    (forall v, tree_state v -> eval ρ' v = eval ρ (StateUpdCmpl x v)) -> mono_step ρ ρ'
| step_dead : (forall i, tree_instr i -> ~ decodes ρ i) ->
    (forall v, tree_state v -> eval ρ' v = eval ρ v) -> mono_step ρ ρ'.

Lemma rec_at_elem {A} (sel : InstrLvlAbs -> list A) (x : A) : sel (IlaOk.nil_ila "" None) = [] ->
  (exists d, absknob.under W top d /\ x ∈ sel (absknob.rec_at W d)) <->
  (exists d l, absknob.under W top d /\ W !! d = Some l /\ x ∈ sel l).
Proof using Type.
  intros Hnil. unfold absknob.rec_at. split.
  - intros (d & Hu & Hx). destruct (W !! d) as [l|] eqn:E; cbn in Hx; [by exists d, l|].
    rewrite Hnil in Hx. by apply elem_of_nil in Hx.
  - intros (d & l & Hu & Hl & Hx). exists d. by rewrite Hl.
Qed.

Lemma tree_instrs : hier_ok -> exists ins, absknob.GetInstrTree top w0 = Ok (ins, w0) /\
  forall i, i ∈ ins <-> tree_instr i.
Proof using Type.
  intros Hk. destruct (absknob.GetInstrTree_run w0 top (ho_tree Hk) (ho_top Hk)) as (ins & E & H).
  exists ins. split; [done|]. intros i. rewrite H. by apply (rec_at_elem (fun l => KeyVec.vec_ (instrs_ l))).
Qed.

(** [ExprSet] keeps one expression per id, and the heap has one. *)
Lemma tree_states : hier_ok -> exists vs, absknob.GetSttTree top w0 = Ok (vs, w0) /\
  forall v, v ∈ ExprSet.iter vs <-> tree_state v.
Proof using Type.
  intros Hk. pose (l := mjoin ((fun d => KeyVec.vec_ (states_ (absknob.rec_at W d))) <$>
                       absknob.post_order (S (N.to_nat (counter_ w0))) W top)).
  exists (ExprSet.insert_all l []). split.
  - unfold absknob.GetSttTree, absknob.InsertSttTree. rewrite (absknob.over_tree_spec w0 (ho_tree Hk) _ top [] (ho_top Hk)).
    do 2 f_equal. apply (absknob.fold_stts w0 (fun l => KeyVec.vec_ (states_ l))).
  - assert (Hl : forall v, v ∈ l <-> tree_state v).
    { intros v. unfold l. rewrite (absknob.elem_of_tree_list w0 (ho_tree Hk) (fun l => KeyVec.vec_ (states_ l)) top v (ho_top Hk)).
      by apply (rec_at_elem (fun l => KeyVec.vec_ (states_ l))). }
    intros v. rewrite <- Hl. apply (ExprSet_of T0). intros u Hu%Hl. apply good_heap with W, (ho_var Hk u Hu).
Qed.

(** *** The interface of the unroller *)
Lemma hier_mono vs ins : hier_ok -> absknob.GetInstrTree top w0 = Ok (ins, w0) ->
  (forall i, i ∈ ins <-> tree_instr i) -> (forall v, v ∈ vs <-> tree_state v) -> mono_ok vs ins.
Proof using Type.
  intros Hk Ei Hi Hv. split; [apply Hk..|done| |].
  - apply Forall_forall. intros i Hin%Hi. split.
    + by apply (ho_at Hk).
    + intros x d. by apply (ho_dec Hk).
    + intros x v Hx Hv'%Hv. by apply (ho_upd Hk i).
  - intros v Hin%Hv. by apply (ho_var Hk).
Qed.

Lemma good_ok T w e : stage T w -> good W T e -> ok_expr W e.
Proof using Type.
  intros Hst []. split; [|done]. exists T. eapply heap_registered; [apply (grows_ok _ _ _ _ Hst)|done].
Qed.

Lemma mono_spec vs st ins nx preds w1 T1 n : mono_ok vs ins -> vs <> [] ->
  absknob.GetSttTree top w0 = Ok (st, w0) -> vs = ExprSet.iter st ->
  make_table top vs w0 = Ok ((nx, preds), w1) -> stage T1 w1 ->
  Forall2 vnxt vs nx -> Forall (good W T1) nx -> Forall (cond T1) preds ->
  TransitionsSpec W (transitions top) w0 n vs (fun _ => preds) (fun _ => nx).
Proof using Type.
  intros Hok Hne Es -> Et Hst Hnx Gn Cp. split.
  - intros u. cbn [Unroller.DefineDepVar transitions]. unfold DefineDepVar, set_self, modify, on_world, lift.
    cbv [mbind ST_bind]. cbn [fst snd]. rewrite Es. cbn [fst snd]. rewrite bool_decide_false; [done|].
    intros ->. apply Hne. apply Permutation_nil_r, ExprSet.iter_perm. constructor.
  - intros i w u Hi Hw Hwi Hv H0 HS. cbn [Unroller.Transition transitions]. unfold Transition, self, gets.
    cbv [mbind ST_bind]. cbn [snd].
    destruct i as [|i].
    + destruct (H0 eq_refl) as (-> & Hp & Hn). rewrite Hn. rewrite bool_decide_true by done. cbn [negb].
      unfold on_world. cbn [fst snd]. rewrite Hv, Et. exists w1. split; [by rewrite (grows_ilas _ _ _ _ Hst)|].
      split; [split; [apply (grows_instrs _ _ _ _ Hst)|apply (grows_counter _ _ _ _ Hst)]|].
      unfold set_self, modify. cbn [fst snd]. by rewrite Hp, Hn, Hv.
    + destruct (HS i eq_refl) as [Hp Hn]. exists w. split; [done|]. split; [done|].
      rewrite bool_decide_false. 2: { rewrite Hn. intros ->. by inversion Hnx. }
      cbn [negb]. rewrite Hn, Hv, <- (Forall2_length _ _ _ Hnx), Nat.eqb_refl. cbn. do 3 f_equal. rewrite <- Hv, <- Hp, <- Hn. by destruct u.
  - done.
  - apply Forall_forall. intros v Hv. eapply (good_ok T0 w0); [apply grows_refl, Hok|]. by apply (mo_vars _ _ Hok).
  - intros _ _. eapply Forall_impl; [exact Cp|]. intros e [Hg Hs]. split; [by apply (good_ok T1 w1)|done].
  - intros _ _. rewrite Forall_forall in Gn. clear -Hnx Gn Hst. induction Hnx as [|v n vs' nx Hn _ IH]; constructor.
    + split; [apply (good_ok T1 w1); [done|]; apply Gn; by left|by apply vnxt_sort].
    + apply IH. intros x Hx. apply Gn. by right.
Qed.

(** ** Runs

    The formula of [len] steps from [pos], said of the environments [ρ t] of the
    time-stamps. *)
Record table : Type := {
  tb_vars : list Expr; tb_instrs : list objid; tb_sels : list Expr; tb_next : list Expr; tb_dead : Expr }.
Record table_of (tb : table) : Prop := {
  tb_vars_ok v : v ∈ tb_vars tb <-> tree_state v;
  tb_instrs_ok i : i ∈ tb_instrs tb <-> tree_instr i;
  tb_sels_ok : Forall2 sel_var (tb_instrs tb) (tb_sels tb);
  tb_next_ok : Forall2 vnxt (tb_vars tb) (tb_next tb);
  tb_dead_ok : is_var_of top "dead.sel" SortBool (tb_dead tb) }.
Definition choice (tb : table) (ρ ρ' : Env) : Prop :=
  chosen (tb_vars tb) (tb_instrs tb) (tb_sels tb) (tb_dead tb) ρ ρ' /\ next_is (tb_vars tb) (tb_next tb) ρ ρ'.

Record mono_run (tb : table) (u : Unroller) (len : nat) (pos : Z) (ρ : Z -> Env) : Prop := {
  mr_init : (0 < len)%nat -> Forall (holds (ρ pos)) (i_pred_ u);
  mr_preds i : (i < len)%nat ->
    Forall (holds (ρ (pos + Z.of_nat i))) (g_pred_ u ++ step_pred u (Z.of_nat i));
  mr_step i : (i < len)%nat -> choice tb (ρ (pos + Z.of_nat i)) (ρ (pos + Z.of_nat i + 1));
  mr_end : Forall (holds (ρ (Z.of_nat len))) (g_pred_ u ++ step_pred u (Z.of_nat len)) }.

(** A choice is a step of the hierarchy. *)
Lemma choice_step tb ρ ρ' : table_of tb -> choice tb ρ ρ' -> mono_step ρ ρ'.
Proof using Type.
  intros Ht [[k i s x Hi Hs Hx _ _ _ Hd Hu|_ _ Hd Hu] _].
  - apply (step_instr ρ ρ' i x); [|done..|].
    + apply (tb_instrs_ok tb Ht). by eapply list_elem_of_lookup_2.
    + intros v Hv%(tb_vars_ok tb Ht). by apply Hu.
  - rewrite Forall_forall in Hd. apply step_dead.
    + intros i Hi%(tb_instrs_ok tb Ht). by apply Hd.
    + intros v Hv%(tb_vars_ok tb Ht). by apply Hu.
Qed.

Lemma holds_dec ρ e : holds ρ e \/ ~ holds ρ e.
Proof using Type. unfold holds. destruct (decide (eval ρ e = Some (VBool true))); tauto. Qed.

Lemma MonoAssn_run len pos u : hier_ok -> preds_okU w0 u ->
  exists tb z w' u', MonoAssn top len pos (w0, u) = Ok (z, (w', u')) /\ z_has z SortBool /\ table_of tb /\
    (w_ilas w' = W /\ w_instrs w' = w_instrs w0 /\ (counter_ w0 <= counter_ w')%N /\
     extra_suff_ u' = extra_suff_ u /\ g_pred_ u' = g_pred_ u /\ i_pred_ u' = i_pred_ u /\ s_pred_ u' = s_pred_ u) /\
    forall m, model_ok m -> z_eval m z = VBool true <->
      mono_run tb u len pos (fun t => env_of W m (SuffCurr u t)).
Proof using LZ.
  intros Hk (Hg & Hip & Hsp).
  destruct (tree_instrs Hk) as (ins & Ei & Hins). destruct (tree_states Hk) as (st & Es & Hst).
  pose proof (hier_mono _ _ Hk Ei Hins Hst) as Hok.
  assert (Hne : ExprSet.iter st <> []).
  { destruct (ho_state Hk) as [v Hv%Hst]. intros E. rewrite E in Hv. by apply elem_of_nil in Hv. }
  destruct (make_table_runs _ _ Hok) as ([nx preds] & w1 & Et & T1 & sels & dum & Hst1 & Hs & Hd & Hnx & Gn & Cp & HM).
  cbn [fst snd] in Hnx, Gn, Cp, HM.
  pose proof (mono_spec _ st ins nx preds w1 T1 len Hok Hne Es eq_refl Et Hst1 Hnx Gn Cp) as HV.
  destruct (UnrollAssn_run W (ho_ilas Hk) _ w0 len _ _ _ HV eq_refl (extra_suff_ u) (g_pred_ u) (i_pred_ u) (s_pred_ u)
    Hg Hip Hsp pos u (conj eq_refl (conj eq_refl (conj eq_refl eq_refl))))
    as (z & w' & u' & E & Hz & (Hw & (Hwi & Hc) & Hcf) & Hv).
  exists {| tb_vars := ExprSet.iter st; tb_instrs := ins; tb_sels := sels; tb_next := nx; tb_dead := dum |}, z, w', u'.
  split; [exact E|]. split; [done|]. split; [by split|]. split; [unfold conf in Hcf; tauto|].
  intros m Hm. rewrite Hv by done.
  assert (Hstep : forall t, let ρ t := env_of W m (SuffCurr u t) in
     Forall (holds (ρ t)) preds /\ next_is (ExprSet.iter st) nx (ρ t) (ρ (t + 1)) <->
     chosen (ExprSet.iter st) ins sels dum (ρ t) (ρ (t + 1)) /\ next_is (ExprSet.iter st) nx (ρ t) (ρ (t + 1))).
  { intros t ρ. pose proof (env_of_ok W m (SuffCurr u t) Hm) as Hρ. rewrite HM by done.
    pose proof (Forall2_length _ _ _ Hs) as Hlen. split; intros [H1 H2]; (split; [|done]).
    - eapply table_chosen; try done. apply holds_dec.
    - by eapply chosen_table. }
  split.
  - intros [HS HE]. split; cbn.
    + intros Hl. by apply (HS 0%nat Hl).
    + intros i Hi. destruct (HS i Hi) as (_ & [H1 H2] & _). by apply Forall_app.
    + intros i Hi. destruct (HS i Hi) as (_ & _ & H3). by apply Hstep.
    + by apply Forall_app.
  - intros [H1 H2 H3 H4]. split; [|by apply Forall_app in H4]. intros i Hi.
    split; [|split; [by specialize (H2 i Hi); apply Forall_app in H2|]].
    + intros ->. apply H1. lia.
    + by apply Hstep, H3.
Qed.

(** C2.  [MonoAssn] is correct.  On a hierarchy it can translate it returns a
    formula, and a model satisfies the formula exactly when its time-stamped
    constants are a run: the predicates hold, and in every step exactly one
    selection bit is set; it is the bit of an instruction that is decoded and
    whose updates give the next state, or the extra bit when no instruction of
    the hierarchy is decoded and the state stays.  So every step of a model is a
    step of the hierarchy. *)
Theorem MonoAssn_correct len pos u : hier_ok -> preds_okU w0 u ->
  exists tb z w' u', MonoAssn top len pos (w0, u) = Ok (z, (w', u')) /\ z_has z SortBool /\ table_of tb /\
    forall m, model_ok m -> let ρ t := env_of W m (SuffCurr u t) in
      (z_eval m z = VBool true <-> mono_run tb u len pos ρ) /\
      (z_eval m z = VBool true -> forall i, (i < len)%nat ->
         mono_step (ρ (pos + Z.of_nat i)) (ρ (pos + Z.of_nat i + 1))).
Proof using LZ.
  intros Hk Hu. destruct (MonoAssn_run len pos u Hk Hu) as (tb & z & w' & u' & E & Hz & Ht & _ & Hv).
  exists tb, z, w', u'. do 3 (split; [done|]). intros m Hm ρ. split; [by apply Hv|].
  intros [_ _ Hs _]%(Hv m Hm) i Hi. by apply (choice_step tb), Hs.
Qed.
End mono.
End MonoOk.

(** ** The counting machine of [UnrollerSpec] *)
Module MonoSample.
Import UnrollerSpec.Sample.
Definition heap : gmap objid Expr := heap_of [x; konst 3 100; dec; konst 5 1; upd].

Lemma mono_heap : heap_ok heap world.
Proof.
  apply heap_of_ok; [apply (bool_decide_unpack _); reflexivity|].
  each; (split; [by apply N.leb_le|vm_compute; each]).
Qed.

Lemma at_top d l : w_ilas world !! d = Some l -> d = 1%N /\ l = UnrollerSpec.Sample.top.
Proof. intros H. cbn [w_ilas world] in H. by apply lookup_singleton_Some in H as [<- <-]. Qed.

Lemma mono_hier : MonoOk.hier_ok world heap 1.
Proof.
  assert (Hs : forall v, MonoOk.tree_state world 1 v -> v = x).
  { intros v (d & l & _ & [-> ->]%at_top & Hv). by apply list_elem_of_singleton in Hv. }
  assert (Hi : forall i, MonoOk.tree_instr world 1 i -> i = 9%N).
  { intros v (d & l & _ & [-> ->]%at_top & Hv). by apply list_elem_of_singleton in Hv. }
  assert (Hx : forall i y, MonoOk.tree_instr world 1 i -> w_instrs world !! i = Some y -> y = inc).
  { intros i y ->%Hi Hy. cbn [w_instrs world] in Hy. by apply lookup_singleton_Some in Hy as [_ <-]. }
  split.
  - apply IlaOk.ok_parent, world_ok.
  - apply mono_heap.
  - split.
    + intros m l [-> ->]%at_top. done.
    + intros m l c [-> ->]%at_top. by intros ?%elem_of_nil.
    + intros m l [-> ->]%at_top. constructor.
  - by eexists.
  - exists x, 1%N, UnrollerSpec.Sample.top. split; [constructor|]. split; [done|by left].
  - intros v ->%Hs. split; [by split|]. split; [done|]. by exists 1%N.
  - intros i ->%Hi. by exists inc, 1%N.
  - intros i y d Hin Hy Hd. rewrite (Hx i y Hin Hy) in Hd. injection Hd as <-. by split; [split|].
  - intros i y v Hin Hy ->%Hs. rewrite (Hx i y Hin Hy). split; [|done]. by split.
Qed.
End MonoSample.

Lemma MonoAssn_correct_witness :
  exists z w' u', MonoUnroll.MonoAssn (Z3 := Terms.terms) (L := layout_id) 1 2 0
    (UnrollerSpec.Sample.world, New "") = Ok (z, (w', u')).
Proof.
  destruct (MonoOk.MonoAssn_correct (Z3 := Terms.terms) (LZ := Terms.terms_laws) (L := layout_id)
    UnrollerSpec.Sample.world MonoSample.heap 1 2 0 (New "") MonoSample.mono_hier) as (tb & z & w' & u' & E & _).
  - split; [constructor|]. split; [constructor|]. intros k. unfold step_pred, New; cbn.
    rewrite lookup_empty. constructor.
  - exists z, w', u'. exact E.
Defined.
