(* ===== verification/CfgPassSpec.v ===== *)
(** * Correctness of the inference of the instruction sequencing

    [InferChildProgCFG] adds to the sequencing graph of every ILA below the top
    that has none an edge for each pair of instructions of which the second can
    be decoded after a step of the first.  The pass changes the records of the
    ILAs while it asks about them; [agree] says that they differ in their
    sequencing only, which no query depends on. *)
From S2P Require Import Prelude Sort Values Container Expr Smt Solver World Z3Expr ExprOp AstHub Collect Unroller UnrollerSpec Rewrite AbsKnobSpec SolverPasses SolverPassesSpec.
Local Open Scope Z_scope.

(** ** Stores that differ in the sequencing *)
Definition shape (l : InstrLvlAbs) : InstrLvlAbs := Ila.with_instr_seq l None.
Definition agree (W W' : gmap objid InstrLvlAbs) : Prop := forall m, shape <$> W' !! m = shape <$> W !! m.

Lemma agree_refl W : agree W W.
Proof. done. Qed.

Section agree.
Context (W W' : gmap objid InstrLvlAbs) (HA : agree W W').

Lemma agree_some m l : W !! m = Some l -> exists l', W' !! m = Some l' /\ shape l' = shape l.
Proof using HA.
  intros Hl. specialize (HA m). rewrite Hl in HA. cbn in HA.
  destruct (W' !! m) as [l'|]; [|done]. exists l'. split; [done|]. by apply (inj Some).
Qed.
Lemma agree_none m : W !! m = None -> W' !! m = None.
Proof using HA. intros Hl. specialize (HA m). rewrite Hl in HA. cbn in HA. by destruct (W' !! m). Qed.

Lemma root_name_agree n m : Ila.root_name n W' m = Ila.root_name n W m.
Proof using HA.
  revert m. induction n as [|n IH]; intros m; [done|]. cbn. destruct (W !! m) as [l|] eqn:E.
  - destruct (agree_some m l E) as (l' & -> & Hs). cbn.
    assert (parent_ l' = parent_ l) as -> by apply (f_equal parent_ Hs).
    assert (l_name l' = l_name l) as -> by apply (f_equal l_name Hs).
    destruct (parent_ l); [by rewrite IH|done].
  - by rewrite (agree_none m E).
Qed.

Lemma host_root_name_agree h : host_root_name W' h = host_root_name W h.
Proof using HA. destruct h; unfold host_root_name; [apply root_name_agree|done]. Qed.
Lemma host_name_agree h : host_name W' h = host_name W h.
Proof using HA.
  destruct h as [m|]; cbn; [|done]. destruct (W !! m) as [l|] eqn:E.
  - destruct (agree_some m l E) as (l' & -> & Hs). cbn. f_equal. apply (f_equal l_name Hs).
  - by rewrite (agree_none m E).
Qed.

Lemma hosted_agree h : hosted W' h = hosted W h.
Proof using HA.
  destruct h as [m|]; cbn; [|done]. destruct (W !! m) as [l|] eqn:E.
  - by destruct (agree_some m l E) as (l' & -> & _).
  - by rewrite (agree_none m E).
Qed.
Lemma translatable_agree e : translatable W' e = translatable W e.
Proof using HA.
  induction e as [h ps|h c ps|h op fn args ps IH] using Expr_ind'; cbn; [apply hosted_agree|done|].
  rewrite hosted_agree. f_equal; [|].
  - destruct fn; [by rewrite hosted_agree|done].
  - induction IH as [|a l Ha _ IHl]; [done|]. by rewrite Ha, IHl.
Qed.

Lemma eval_agree m s e : eval (env_of W' m s) e = eval (env_of W m s) e.
Proof using HA.
  apply eval_vars; cbn.
  - intros v _. by rewrite host_root_name_agree.
  - intros f vs. unfold Func_name. by rewrite host_name_agree.
  - intros h f. unfold nondet_name. by rewrite host_name_agree.
Qed.
End agree.

(** ** [InferChildProgCFG] *)
Module CfgOk.
Import InferCFG Collect.absknob.
Section cfg.
Context {Z3 : Z3Api} {LZ : Z3Laws Z3} {SV : Z3Solver Z3} {SL : Z3SolverLaws SV} {L : Layout}.
Context (w0 : World) (top : objid).
Local Abbreviation W := (w_ilas w0).

(** The instructions of the hierarchy are well-formed paths of length one. *)
Definition step_instr_ok (i : objid) : Prop := path_ok w0 [i].

Hypothesis Hok : IlaOk.world_ok w0.
Hypothesis Htree : tree_ok w0.
Hypothesis Htop : is_Some (W !! top).
Hypothesis Hinstr : forall d l i, under W top d -> W !! d = Some l -> i ∈ KeyVec.vec_ (instrs_ l) -> step_instr_ok i.

(** The state at time [t] in a model. *)
Definition at_t (m : Model) (t : Z) : Env := env_of W m (SuffCurr (New "") t).

(** Some step of [a] leads to a state in which [b] decodes. *)
Definition can_step (a b : objid) : Prop := exists m xa xb db, model_ok m /\
  w_instrs w0 !! a = Some xa /\ w_instrs w0 !! b = Some xb /\ decode_ xb = Some db /\
  instr_step (path_vars w0 [a]) xa (at_t m 0) (at_t m 1) /\ holds (at_t m 1) db.

(** *** One query *)
Record qstage (w : World) : Prop := {
  qs_agree : agree W (w_ilas w);
  qs_instrs : w_instrs w = w_instrs w0;
  qs_counter : (counter_ w0 <= counter_ w)%N }.

Lemma qstage_ok w : qstage w -> IlaOk.world_ok w.
Proof using Hok.
  intros [HA _ Hc]. destruct Hok as [Hle Hp]. split.
  - intros m l Hl. specialize (HA m). rewrite Hl in HA. destruct (W !! m) eqn:E; [|done].
    specialize (Hle _ _ E). lia.
  - intros m l p Hl Hpa. pose proof (HA m) as Hm. rewrite Hl in Hm. cbn in Hm.
    destruct (W !! m) as [l0|] eqn:E; [|done]. apply (inj Some) in Hm.
    assert (Hp0 : parent_ l0 = Some p) by (rewrite <- Hpa; symmetry; apply (f_equal parent_ Hm)).
    destruct (Hp m l0 p E Hp0) as [Hlt [lp Hlp]]. split; [done|].
    destruct (agree_some _ _ HA p lp Hlp) as (lp' & -> & _). by eexists.
Qed.

Lemma rec_at_agree w h : qstage w -> shape (rec_at (w_ilas w) h) = shape (rec_at W h).
Proof using Type.
  intros [HA _ _]. unfold rec_at. destruct (W !! h) as [l|] eqn:E.
  - by destruct (agree_some _ _ HA h l E) as (l' & -> & Hs).
  - by rewrite (agree_none _ _ HA h E).
Qed.

Lemma path_vars_agree w is_ : qstage w -> path_vars w is_ = path_vars w0 is_.
Proof using Type.
  intros Hq. unfold path_vars. f_equal. generalize (@nil Expr). induction is_ as [|i is_ IH]; intros s; [done|].
  cbn [foldl]. rewrite IH. f_equal. unfold absknob.InsertStt. f_equal.
  unfold host_rec. rewrite (qs_instrs _ Hq). destruct (w_instrs w0 !! i ≫= i_host) as [h|]; [|done].
  pose proof (rec_at_agree w h Hq) as Hs. exact (f_equal (fun l => KeyVec.vec_ (states_ l)) Hs).
Qed.

Lemma ok_expr_agree w e : qstage w -> ok_expr W e -> ok_expr (w_ilas w) e.
Proof using Type.
  intros [HA _ _] (H1 & H2 & H3). split; [done|]. split; [done|].
  by rewrite (translatable_agree _ _ HA).
Qed.

Lemma path_ok_agree w i : qstage w -> step_instr_ok i -> path_ok w [i].
Proof using Type.
  intros Hq [H1 H2 H3 H4]. split.
  - intros j Hj. destruct (H1 j Hj) as (x & h & l & d & Hx & Hh & Hl & Hd & [Hdo Hds]).
    destruct (agree_some _ _ (qs_agree _ Hq) h l Hl) as (l' & Hl' & _).
    exists x, h, l', d. rewrite (qs_instrs _ Hq). do 4 (split; [done|]). split; [by apply ok_expr_agree|done].
  - by rewrite (path_vars_agree w _ Hq).
  - rewrite (path_vars_agree w _ Hq). eapply Forall_impl; [exact H3|]. intros e. by apply ok_expr_agree.
  - intros j x v e Hj. rewrite (qs_instrs _ Hq), (path_vars_agree w _ Hq). intros Hx Hv He.
    destruct (H4 j x v e Hj Hx Hv He). split; [by apply ok_expr_agree|done].
Qed.

Lemma holds_agree w m s e : qstage w -> holds (env_of (w_ilas w) m s) e <-> holds (env_of W m s) e.
Proof using Type. intros Hq. unfold holds. by rewrite (eval_agree _ _ (qs_agree _ Hq)). Qed.

(** The formula of a path of one instruction without predicates. *)
Lemma path_run_one w a xa m : qstage w -> w_instrs w0 !! a = Some xa ->
  path_run w [a] (New "") 0 (fun t => env_of (w_ilas w) m (SuffCurr (New "") t)) <->
  instr_step (path_vars w0 [a]) xa (at_t m 0) (at_t m 1).
Proof using Type.
  intros Hq Hx. unfold path_run. cbn zeta.
  assert (Hs : instr_step (path_vars w [a]) xa (env_of (w_ilas w) m (SuffCurr (New "") 0))
             (env_of (w_ilas w) m (SuffCurr (New "") 1)) <->
           instr_step (path_vars w0 [a]) xa (at_t m 0) (at_t m 1)).
  { assert (He : forall t e, eval (env_of (w_ilas w) m (SuffCurr (New "") t)) e = eval (at_t m t) e)
      by (intros; apply (eval_agree _ _ (qs_agree _ Hq))).
    unfold instr_step, holds. rewrite (path_vars_agree w _ Hq). setoid_rewrite He. done. }
  rewrite <- Hs. split.
  - intros (_ & Hr & _). apply (Hr 0%nat xa). unfold instr_at. cbn. by rewrite (qs_instrs _ Hq).
  - intros Hst. split; [constructor|]. split; [|split; constructor].
    intros i x Hi. destruct i as [|i]; [|by destruct i]. unfold instr_at in Hi. cbn in Hi.
    rewrite (qs_instrs _ Hq), Hx in Hi. injection Hi as <-. split; [constructor|]. split; [constructor|done].
Qed.

(** A world in which only queries ran. *)
Record asked (w w' : World) : Prop := {
  as_ilas : w_ilas w' = w_ilas w;
  as_instrs : w_instrs w' = w_instrs w;
  as_counter : (counter_ w <= counter_ w')%N }.

Lemma qstage_asked w w' : qstage w -> asked w w' -> qstage w'.
Proof using Type. intros [H1 H2 H3] [A1 A2 A3]. split; [by rewrite A1|congruence|lia]. Qed.

Lemma can_trigger_run w a b : qstage w -> step_instr_ok a -> step_instr_ok b ->
  exists r w', can_trigger a b w = Ok (r, w') /\ asked w w' /\
    (r = true -> can_step a b) /\ (decides SV -> can_step a b -> r = true).
Proof using SL Hok.
  intros Hq Ha Hb.
  destruct (po_instr _ _ Ha a ltac:(by left)) as (xa & _ & _ & _ & Hxa & _).
  destruct (po_instr _ _ Hb b ltac:(by left)) as (xb & _ & _ & db & Hxb & _ & _ & Hdb & Hdo).
  destruct (PathAssn_run w (qstage_ok w Hq) [a] 0 (New "") (path_ok_agree w a Hq Ha))
    as (z & w1 & u1 & E1 & Hz & (Hi1 & [Hins1 Hc1] & Hsuf) & Hv).
  { split; [constructor|]. split; [constructor|]. intros k. unfold step_pred. cbn. rewrite lookup_empty. constructor. }
  assert (Hask : asked w w1) by by split.
  assert (Hq1 : qstage w1) by by eapply qstage_asked.
  destruct (gen_run (w_ilas w) (IlaOk.ok_parent _ (qstage_ok w Hq)) db (SuffCurr u1 1) w1 u1)
    as (zd & Ed & Dd); [apply ok_expr_agree; [done|apply Hdo]|done|].
  assert (Hsuff : SuffCurr u1 1 = SuffCurr (New "") 1) by (unfold SuffCurr; by rewrite Hsuf).
  assert (Mz : means [z] (fun m => instr_step (path_vars w0 [a]) xa (at_t m 0) (at_t m 1))).
  { split; [by apply Forall_singleton|]. intros m Hm. rewrite Forall_singleton, Hv by done.
    by apply path_run_one. }
  assert (Md : means [zd] (fun m => holds (at_t m 1) db)).
  { destruct Dd as [Hzd Hvd]. rewrite (proj2 Hdo) in Hzd. split; [by apply Forall_singleton|].
    intros m Hm. rewrite Forall_singleton. unfold at_t. rewrite <- (holds_agree w m _ db Hq), <- Hsuff.
    unfold holds. rewrite <- Hvd by done. split; congruence. }
  destruct (zand_means z zd _ _ Mz Md) as (zz & Ez & Mzz).
  destruct (check_answer _ _ Mzz) as [Hsat Hunsat].
  exists (bool_decide (z_check [zz] = sat)), w1. split; [|split; [done|split]].
  - unfold can_trigger, with_unroller. rewrite (ST_bind_run _ _ _ _ _ E1).
    assert (Eb : on_world (instr_ b) (w1, u1) = Ok (xb, (w1, u1))).
    { unfold on_world. cbn [fst snd]. rewrite (instr_run b w1 xb); [done|]. by rewrite (qs_instrs _ Hq1). }
    rewrite (ST_bind_run _ _ _ _ _ Eb), Hdb. unfold GetZ3Expr_opt.
    assert (Eg : (e ← lift (deref (Some db)); GetZ3Expr_at e 1) (w1, u1) = Ok (zd, (w1, u1))) by exact Ed.
    rewrite (ST_bind_run _ _ _ _ _ Eg), (lift_bind_run _ _ _ _ Ez). reflexivity.
  - intros Hr%bool_decide_eq_true. destruct (Hsat Hr) as (m & Hm & Hst & Hd).
    by exists m, xa, xb, db.
  - intros Hdec (m & xa' & xb' & db' & Hm & Hxa' & Hxb' & Hdb' & Hst & Hd).
    assert (xa' = xa) as -> by congruence. assert (xb' = xb) as -> by congruence.
    assert (db' = db) as -> by congruence.
    apply bool_decide_eq_true. destruct (z_check [zz]) eqn:E; [done| |by destruct (Hdec [zz])].
    by destruct (Hunsat eq_refl m Hm).
Qed.

(** *** The graph of an ILA *)
Definition edge (o : option InstrSeq) (a b : objid) : Prop :=
  exists s e, o = Some s /\ e ∈ edges_ s /\ src_ e = a /\ dst_ e = b.

Lemma edge_AddTran s a b c x y :
  edge (Some (InstrSeqs.AddTran s a b c)) x y <-> edge (Some s) x y \/ (x = a /\ y = b).
Proof using Type.
  unfold edge, InstrSeqs.AddTran. cbn. split.
  - intros (s' & e & [= <-] & He & <- & <-). cbn in He. apply elem_of_app in He as [He|He].
    + left. by exists s, e.
    + apply list_elem_of_singleton in He as ->. by right.
  - intros [(s' & e & [= <-] & He & <- & <-)|[-> ->]]; eexists _, _; (split; [done|]); cbn.
    + split; [apply elem_of_app; by left|done].
    + split; [apply elem_of_app; right; by left|done].
Qed.

Lemma edge_default o x y : edge (Some (default InstrSeqs.New o)) x y <-> edge o x y.
Proof using Type.
  destruct o as [s|]; [done|]. split; [|by intros (s & e & [=] & _)].
  intros (s & e & [= <-] & He & _). by apply elem_of_nil in He.
Qed.

(** The edges among the pairs in [P] that were asked about. *)
Record graph_of (P : objid -> objid -> Prop) (o : option InstrSeq) : Prop := {
  go_sound x y : edge o x y -> P x y /\ can_step x y;
  go_complete : decides SV -> forall x y, P x y -> can_step x y -> edge o x y }.

Lemma graph_iff P Q o : (forall x y, P x y <-> Q x y) -> graph_of P o -> graph_of Q o.
Proof using Type.
  intros H [Hs Hc]. split.
  - intros x y He. rewrite <- H. by apply Hs.
  - intros Hd x y Hq. apply Hc; [done|by apply H].
Qed.

(** A run that works on the graph of [c]. *)
Record building (c : objid) (ws : World) (P : objid -> objid -> Prop) (w : World) : Prop := {
  bd_stage : qstage w;
  bd_other d : d <> c -> w_ilas w !! d = w_ilas ws !! d;
  bd_graph : exists l, w_ilas w !! c = Some l /\ graph_of P (instr_seq_ l) }.

Lemma building_iff c ws P Q w : (forall x y, P x y <-> Q x y) -> building c ws P w -> building c ws Q w.
Proof using Type. intros H [H1 H2 (l & Hl & Hg)]. split; [done|done|]. exists l. split; [done|by eapply graph_iff]. Qed.

Lemma CheckCausality_run c ws P w a b : building c ws P w -> step_instr_ok a -> step_instr_ok b ->
  exists w', CheckCausality c a b w = Ok ((), w') /\ building c ws (fun x y => P x y \/ (x = a /\ y = b)) w'.
Proof using SL Hok.
  intros [Hq Ho (l & Hl & [Hs Hc])] Ha Hb.
  destruct (can_trigger_run w a b Hq Ha Hb) as (r & w1 & E & Hask & Hr & Hd).
  pose proof (qstage_asked _ _ Hq Hask) as Hq1. pose proof Hask as [A1 A2 A3].
  unfold CheckCausality. setoid_rewrite (ST_bind_run _ _ _ _ _ E). destruct r.
  - set (w2 := ExprOps.bump w1).
    assert (Hl2 : w_ilas w2 !! c = Some l) by (cbn; by rewrite A1).
    eexists. split.
    { match goal with |- context [asthub.BoolConst true] =>
        erewrite (ST_bind_run (asthub.BoolConst true) _ w1 _ w2) by reflexivity end.
      unfold Ila.AddSeqTran. rewrite (IlaOk.update_ila_run _ _ _ l Hl2). reflexivity. }
    split; cbn.
    + destruct Hq1 as [Q1 Q2 Q3]. split; cbn; [|done|lia]. intros d. rewrite <- (Q1 d).
      destruct (decide (d = c)) as [->|Hne]; [|by rewrite lookup_insert_ne].
      rewrite lookup_insert_eq. change (w_ilas w1 !! c) with (w_ilas w2 !! c). by rewrite Hl2.
    + intros d Hne. rewrite lookup_insert_ne by done. rewrite A1. by apply Ho.
    + eexists. split; [apply lookup_insert_eq|]. cbn [instr_seq_ Ila.with_instr_seq]. split.
      * intros x y. rewrite edge_AddTran, edge_default. intros [[Hp Hst]%Hs|[-> ->]]; [by split; [left|]|].
        split; [by right|by apply Hr].
      * intros Hdec x y Hp Hst. rewrite edge_AddTran, edge_default.
        destruct Hp as [Hp|[-> ->]]; [left; by apply Hc|by right].
  - exists w1. split; [done|]. split; [done|intros d Hne; rewrite A1; by apply Ho|].
    exists l. rewrite A1. split; [done|]. split.
    + intros x y [Hp Hst]%Hs. split; [by left|done].
    + intros Hdec x y [Hp|[-> ->]] Hst; [by apply Hc|]. by specialize (Hd Hdec Hst).
Qed.

Lemma check_row_run c ws j ks : step_instr_ok j -> (forall k, k ∈ ks -> step_instr_ok k) ->
  forall P w, building c ws P w -> exists w',
    foldM (fun k _ => CheckCausality c j k;; CheckCausality c k j) ks () w = Ok ((), w') /\
    building c ws (fun x y => P x y \/ (x = j /\ y ∈ ks) \/ (x ∈ ks /\ y = j)) w'.
Proof using SL Hok.
  intros Hj. induction ks as [|k ks IH]; intros Hk P w Hb.
  - exists w. split; [done|]. eapply building_iff; [|exact Hb]. intros x y. rewrite !elem_of_nil. tauto.
  - destruct (CheckCausality_run c ws P w j k Hb Hj) as (w1 & E1 & B1); [apply Hk; by left|].
    destruct (CheckCausality_run c ws _ w1 k j B1) as (w2 & E2 & B2); [apply Hk; by left|done|].
    destruct (IH (fun k H => Hk k ltac:(by right)) _ w2 B2) as (w3 & E3 & B3).
    exists w3. cbn [foldM]. split.
    + assert (E : (CheckCausality c j k;; CheckCausality c k j) w = Ok ((), w2)) by by rewrite (ST_bind_run _ _ _ _ _ E1).
      by rewrite (ST_bind_run _ _ _ _ _ E).
    + eapply building_iff; [|exact B3]. intros x y. cbn beta. rewrite !elem_of_cons. naive_solver.
Qed.

Lemma check_pairs_run c ws is_ : (forall k, k ∈ is_ -> step_instr_ok k) ->
  forall P w, building c ws P w -> exists w', check_pairs c is_ w = Ok ((), w') /\
    building c ws (fun x y => P x y \/ (x ∈ is_ /\ y ∈ is_)) w'.
Proof using SL Hok.
  induction is_ as [|j is_ IH]; intros Hk P w Hb.
  - exists w. split; [done|]. eapply building_iff; [|exact Hb]. intros x y. rewrite !elem_of_nil. tauto.
  - assert (Hj : step_instr_ok j) by (apply Hk; by left).
    destruct (CheckCausality_run c ws P w j j Hb Hj Hj) as (w1 & E1 & B1).
    destruct (check_row_run c ws j is_ Hj (fun k H => Hk k ltac:(by right)) _ w1 B1) as (w2 & E2 & B2).
    destruct (IH (fun k H => Hk k ltac:(by right)) _ w2 B2) as (w3 & E3 & B3).
    exists w3. split.
    + cbn [check_pairs]. by rewrite (ST_bind_run _ _ _ _ _ E1), (ST_bind_run _ _ _ _ _ E2).
    + eapply building_iff; [|exact B3]. intros x y. cbn beta. rewrite !elem_of_cons. naive_solver.
Qed.

(** *** The hierarchy *)

(** The sequencing of an ILA that was visited. *)
Definition sequenced (d : objid) (w : World) : Prop := exists l0 l,
  W !! d = Some l0 /\ w_ilas w !! d = Some l /\
  match instr_seq_ l0 with
  | Some s => instr_seq_ l = Some s
  | None => graph_of (fun x y => x ∈ KeyVec.vec_ (instrs_ l0) /\ y ∈ KeyVec.vec_ (instrs_ l0)) (instr_seq_ l)
  end.

Record cfg_stage (D : objid -> Prop) (w : World) : Prop := {
  cs_stage : qstage w;
  cs_all d : w_ilas w !! d = W !! d \/ sequenced d w;
  cs_done d : D d -> sequenced d w }.

Lemma sequenced_eq d w w' : w_ilas w' !! d = w_ilas w !! d -> sequenced d w -> sequenced d w'.
Proof using Type. intros E (l0 & l & H0 & Hl & H). exists l0, l. by rewrite E. Qed.

Lemma infer_child_run D w c : cfg_stage D w -> under W top c -> is_Some (W !! c) ->
  exists w', infer_child c w = Ok ((), w') /\ cfg_stage (fun d => D d \/ d = c) w'.
Proof using SL Hok Hinstr.
  intros [Hq Hall Hdone] Hu [l0 Hl0].
  destruct (agree_some _ _ (qs_agree _ Hq) c l0 Hl0) as (l & Hl & Hs).
  assert (Hins : KeyVec.vec_ (instrs_ l) = KeyVec.vec_ (instrs_ l0)) by exact (f_equal (fun l => KeyVec.vec_ (instrs_ l)) Hs).
  unfold infer_child. setoid_rewrite (ST_bind_run _ _ _ _ _ (ila_run _ _ _ Hl)).
  destruct (instr_seq_ l) as [s|] eqn:Es.
  - exists w. split; [done|]. split; [done|done|]. intros d [Hd| ->]; [by apply Hdone|].
    destruct (Hall c) as [E|H]; [|done]. exists l0, l. split; [done|]. split; [done|].
    assert (l = l0) as -> by congruence. by rewrite Es.
  - destruct (check_pairs_run c w (KeyVec.vec_ (instrs_ l))) with (P := fun _ _ : objid => False) (w := w)
      as (w1 & E1 & [B1 B2 (l1 & Hl1 & Hg)]).
    { intros k Hk. rewrite Hins in Hk. by eapply Hinstr. }
    { split; [done|done|]. exists l. split; [done|]. rewrite Es. split; [|done].
      by intros x y (s & e & [=] & _). }
    assert (Hseq : sequenced c w1).
    { exists l0, l1. split; [done|]. split; [done|].
      assert (Hn : instr_seq_ l0 = None).
      { destruct (Hall c) as [E|(l0' & l' & H0 & H1 & H)].
        - rewrite Hl, Hl0 in E. apply (inj Some) in E. by rewrite <- E.
        - rewrite Hl0 in H0. apply (inj Some) in H0 as <-. rewrite Hl in H1. apply (inj Some) in H1 as <-.
          destruct (instr_seq_ l0); [congruence|done]. }
      rewrite Hn. eapply graph_iff; [|exact Hg]. intros x y. cbn beta. rewrite Hins. tauto. }
    exists w1. split; [done|]. split; [done|..].
    + intros d. destruct (decide (d = c)) as [->|Hne]; [by right|]. rewrite (B2 d Hne).
      destruct (Hall d) as [?|H]; [by left|right]. eapply sequenced_eq; [|exact H]. by apply B2.
    + intros d [Hd| ->]; [|done]. destruct (decide (d = c)) as [->|Hne]; [done|].
      eapply sequenced_eq; [|by apply Hdone]. by apply B2.
Qed.

Definition below (m d : objid) : Prop := exists l c, W !! m = Some l /\ c ∈ KeyVec.vec_ (childs_ l) /\ under W c d.

Lemma cfg_stage_iff D D' w : (forall d, D d <-> D' d) -> cfg_stage D w -> cfg_stage D' w.
Proof using Type. intros H [H1 H2 H3]. split; [done|done|]. intros d Hd. apply H3. by apply H. Qed.

Lemma infer_run n : forall m D w, cfg_stage D w -> under W top m -> is_Some (W !! m) ->
  (counter_ w0 < m + N.of_nat n)%N ->
  exists w', infer n m w = Ok ((), w') /\ cfg_stage (fun d => D d \/ below m d) w'.
Proof using SL Hok Hinstr Htree.
  induction n as [|n IH]; intros m D w Hst Hu [l Hl] Hn.
  { pose proof (tree_le _ Htree _ _ Hl). lia. }
  destruct (agree_some _ _ (qs_agree _ (cs_stage _ _ Hst)) m l Hl) as (l' & Hl' & Hs).
  assert (Hcs : KeyVec.vec_ (childs_ l') = KeyVec.vec_ (childs_ l)) by exact (f_equal (fun l => KeyVec.vec_ (childs_ l)) Hs).
  assert (Hc : forall c, c ∈ KeyVec.vec_ (childs_ l) -> under W top c /\ (counter_ w0 < c + N.of_nat n)%N /\
            is_Some (W !! c)).
  { intros c Hc. destruct (tree_child _ Htree _ _ _ Hl Hc). split; [|split; [lia|done]].
    eapply under_trans; [exact Hu|]. by eapply under_step. }
  assert (Hloop : forall cs D w, (forall c, c ∈ cs -> c ∈ KeyVec.vec_ (childs_ l)) -> cfg_stage D w ->
            exists w', foldM (fun c _ => infer_child c;; infer n c) cs () w = Ok ((), w') /\
              cfg_stage (fun d => D d \/ exists c, c ∈ cs /\ under W c d) w').
  { clear w D Hst Hl'. induction cs as [|c cs IHcs]; intros D w Hin Hst.
    - exists w. split; [done|]. eapply cfg_stage_iff; [|exact Hst]. intros d. split; [by left|].
      intros [?|(c & ?%elem_of_nil & _)]; done.
    - destruct (Hc c (Hin c ltac:(by left))) as (U1 & U2 & U3).
      destruct (infer_child_run D w c Hst U1 U3) as (w1 & E1 & S1).
      destruct (IH c _ w1 S1 U1 U3 U2) as (w2 & E2 & S2).
      destruct (IHcs _ w2 (fun c H => Hin c ltac:(by right)) S2) as (w3 & E3 & S3).
      exists w3. cbn [foldM]. split.
      + assert (E : (infer_child c;; infer n c) w = Ok ((), w2)) by by rewrite (ST_bind_run _ _ _ _ _ E1).
        by rewrite (ST_bind_run _ _ _ _ _ E).
      + eapply cfg_stage_iff; [|exact S3]. intros d. cbn beta. split.
        * intros [[[?| ->]|(lc & c' & Hlc & Hc' & Hd)]|(c' & ? & ?)]; [by left|right..].
          -- exists c. split; [by left|constructor].
          -- exists c. split; [by left|]. by eapply under_child.
          -- exists c'. split; [by right|done].
        * intros [?|(c' & [->|Hc']%elem_of_cons & Hd)]; [by left; left; left| |right; by exists c'].
          left. inversion Hd as [|? lc c2 ? Hlc Hc2 Hd2]; subst; [left; by right|].
          right. by exists lc, c2. }
  destruct (Hloop (KeyVec.vec_ (childs_ l)) D w (fun c H => H) Hst) as (w' & E & S').
  exists w'. split.
  - cbn [infer]. rewrite (ST_bind_run _ _ _ _ _ (ila_run _ _ _ Hl')), Hcs. exact E.
  - eapply cfg_stage_iff; [|exact S']. intros d. cbn beta. unfold below. split.
    + intros [?|(c & ? & ?)]; [by left|right; by exists l, c].
    + intros [?|(l2 & c & Hl2 & ? & ?)]; [by left|right]. exists c.
      assert (l2 = l) as -> by congruence. done.
Qed.

(** C19.  [InferChildProgCFG] infers the sequencing of the programs of the hierarchy.  It
    succeeds; it changes nothing but the sequencing of the ILAs below the top,
    and keeps a sequencing that is there; in an inferred graph every edge is
    between two instructions of the ILA of which the second can decode after a step of
    the first, and with a solver that always decides there is an edge for every such pair: each
    pair of consecutive instructions of an execution is an edge. *)
Theorem InferChildProgCFG_spec : exists w',
  InferChildProgCFG top w0 = Ok (true, w') /\
  agree W (w_ilas w') /\ w_instrs w' = w_instrs w0 /\
  forall d, below top d -> sequenced d w'.
Proof using SL Hok Hinstr Htree Htop.
  destruct (infer_run (tree_fuel w0) top (fun _ => False) w0) as (w' & E & [[H1 H2 H3] _ H4]);
    [|constructor|done|unfold tree_fuel; lia|].
  { split; [by split|by left|done]. }
  exists w'. split; [unfold InferChildProgCFG; by rewrite (ST_bind_run _ _ _ _ _ E)|].
  split; [done|]. split; [done|]. intros d Hd. apply H4. by right.
Qed.
End cfg.
End CfgOk.

(** A parent whose child has the counter of [UnrollerSpec.Sample]. *)
Module CfgSample.
Definition counter_ila : InstrLvlAbs :=
  Ila.with_instrs
    (Ila.with_states (IlaOk.nil_ila "c" (Some 0%N)) (KeyVec.push_back KeyVec.empty "x" Sample.x).2)
    (KeyVec.push_back KeyVec.empty "inc" 9%N).2.
Definition parent_ila : InstrLvlAbs :=
  Ila.with_childs (IlaOk.nil_ila "top" None) (KeyVec.push_back KeyVec.empty "c" 1%N).2.
Definition cfg_world : World :=
  {| counter_ := 9; w_ilas := {[ 0%N := parent_ila; 1%N := counter_ila ]}; w_instrs := {[ 9%N := Sample.inc ]} |}.

Lemma cfg_at m l : w_ilas cfg_world !! m = Some l -> (m = 0%N /\ l = parent_ila) \/ (m = 1%N /\ l = counter_ila).
Proof.
  cbn [w_ilas cfg_world]. rewrite lookup_insert_Some, lookup_singleton_Some.
  intros [[<- <-]|[_ [<- <-]]]; auto.
Qed.

Lemma cfg_world_ok : IlaOk.world_ok cfg_world.
Proof.
  split.
  - intros m l [[-> _]|[-> _]]%cfg_at; cbn; lia.
  - intros m l p [[-> ->]|[-> ->]]%cfg_at; [done|]. intros [= <-]. split; [lia|]. by eexists.
Qed.

Lemma cfg_tree : absknob.tree_ok cfg_world.
Proof.
  split.
  - intros m l [[-> _]|[-> _]]%cfg_at; cbn; lia.
  - intros m l c [[-> ->]|[-> ->]]%cfg_at; [|by intros ?%elem_of_nil].
    intros ->%list_elem_of_singleton. split; [lia|]. by eexists.
  - intros m l [[-> ->]|[-> ->]]%cfg_at; [apply NoDup_singleton|apply NoDup_nil_2].
Qed.

Lemma cfg_exprs : Forall (ok_expr (w_ilas cfg_world)) [Sample.x; Sample.dec; Sample.upd].
Proof.
  repeat constructor.
  - exists (nodes_of Sample.x). vm_compute. done.
  - exists (nodes_of Sample.dec). vm_compute. repeat split.
  - exists (nodes_of Sample.upd). vm_compute. repeat split.
Qed.

Lemma cfg_path : CfgOk.step_instr_ok (L := layout_id) cfg_world 9.
Proof.
  pose proof cfg_exprs as [Hx [Hd [Hu _]%Forall_cons]%Forall_cons]%Forall_cons.
  change (path_ok (L := layout_id) cfg_world [9%N]).
  assert (Hv : path_vars (L := layout_id) cfg_world [9%N] = [Sample.x]) by (vm_compute; reflexivity).
  split.
  - intros i ->%list_elem_of_singleton. exists Sample.inc, 1%N, counter_ila, Sample.dec. done.
  - by rewrite Hv.
  - rewrite Hv. by constructor.
  - intros i y v e ->%list_elem_of_singleton. rewrite Hv. intros [= <-].
    intros ->%list_elem_of_singleton. intros [= <-]. done.
Qed.
End CfgSample.

Lemma InferChildProgCFG_spec_witness :
  let L := layout_id in
  exists w', InferCFG.InferChildProgCFG (Z3 := Terms.terms) (SV := PropSolver.solver) 0 CfgSample.cfg_world = Ok (true, w') /\
    CfgOk.sequenced (SV := PropSolver.solver) CfgSample.cfg_world 1 w'.
Proof.
  intros L.
  destruct (CfgOk.InferChildProgCFG_spec (SL := PropSolver.solver_laws) CfgSample.cfg_world 0) as (w' & E & _ & _ & H).
  - apply CfgSample.cfg_world_ok.
  - apply CfgSample.cfg_tree.
  - by eexists.
  - intros d l i _ [[-> ->]|[-> ->]]%CfgSample.cfg_at; [by intros ?%elem_of_nil|].
    intros ->%list_elem_of_singleton. apply CfgSample.cfg_path.
  - exists w'. split; [exact E|]. apply H. exists CfgSample.parent_ila, 1%N.
    split; [done|]. split; [by left|constructor].
Defined.
