(* ===== verification/Json.v ===== *)
(** * JSON values

    The part of [src/extern/json/include/nlohmann] that the exchange format
    uses: values, [emplace], [push_back], [at], [find], iteration, and the
    conversions [get<T>].  Floating-point numbers, which nothing here produces,
    are left out.  An object is the [std::map] of the default instantiation: a
    list of members in the order of their keys. *)
From S2P Require Import Prelude Sort.
Local Open Scope Z_scope.

Inductive json :=
| JNull
| JBool (b : bool)
| JInt (n : Z)        (* number_integer *)
| JUint (n : Z)       (* number_unsigned *)
| JStr (s : string)
| JArr (l : list json)
| JObj (o : list (string * json)).

Module Json.

Definition object : json := JObj [].
Definition array : json := JArr [].

(** [std::map::emplace]: a key that is present keeps its value. *)
Fixpoint put (k : string) (v : json) (o : list (string * json)) : list (string * json) :=
  match o with
  | [] => [(k, v)]
  | (k', v') :: o' =>
      match String.compare k k' with
      | Lt => (k, v) :: o
      | Eq => o
      | Gt => (k', v') :: put k v o'
      end
  end.

Fixpoint assoc (k : string) (o : list (string * json)) : option json :=
  match o with
  | [] => None
  | (k', v) :: o => if String.eqb k k' then Some v else assoc k o
  end.

Definition emplace (j : json) (k : string) (v : json) : Res json :=
  match j with
  | JNull => Ok (JObj [(k, v)])
  | JObj o => Ok (JObj (put k v o))
  | _ => Fail EThrow
  end.

Definition push_back (j v : json) : Res json :=
  match j with
  | JNull => Ok (JArr [v])
  | JArr l => Ok (JArr (l ++ [v]))
  | _ => Fail EThrow
  end.

(** [at(key)] and [at(idx)]. *)
Definition at_key (j : json) (k : string) : Res json :=
  match j with
  | JObj o => match assoc k o with Some v => Ok v | None => Fail EThrow end
  | _ => Fail EThrow
  end.
Definition at_idx (j : json) (i : nat) : Res json :=
  match j with
  | JArr l => match l !! i with Some v => Ok v | None => Fail EThrow end
  | _ => Fail EThrow
  end.

(** [find(key)], [None] for [end()]. *)
Definition find (j : json) (k : string) : option json :=
  match j with JObj o => assoc k o | _ => None end.

(** The values a range-based [for] runs over, and those of [items()] with their
    keys. *)
Definition elements (j : json) : list json :=
  match j with
  | JNull => []
  | JArr l => l
  | JObj o => o.*2
  | _ => [j]
  end.
Definition items (j : json) : list (string * json) :=
  match j with
  | JNull => []
  | JArr l => imap (fun i v => (pretty (N.of_nat i), v)) l
  | JObj o => o
  | _ => [("", j)]
  end.

(** ** Conversions: [get<size_t>], [get<uint64_t>], [get<int>], [get<bool>],
    [get<std::string>]. *)
Definition int32 (z : Z) : Z := (z + 2 ^ 31) mod 2 ^ 32 - 2 ^ 31.

Definition get_uint64 (j : json) : Res Z :=
  match j with JUint n | JInt n => Ok (SortValue.uint64 n) | _ => Fail EThrow end.
Definition get_int (j : json) : Res Z :=
  match j with
  | JUint n | JInt n => Ok (int32 n)
  | JBool b => Ok (if b then 1 else 0)
  | _ => Fail EThrow
  end.
Definition get_bool (j : json) : Res bool :=
  match j with JBool b => Ok b | _ => Fail EThrow end.
Definition get_string (j : json) : Res string :=
  match j with JStr s => Ok s | _ => Fail EThrow end.
Definition get_id (j : json) : Res N := n ← get_uint64 j; Ok (Z.to_N n).

(** The nesting depth, which bounds a recursion into a value. *)
Fixpoint depth (j : json) : nat :=
  match j with
  | JArr l => S ((fix go l := match l with [] => 0 | v :: l => Nat.max (depth v) (go l) end) l)
  | JObj o => S ((fix go o := match o with [] => 0 | (_, v) :: o => Nat.max (depth v) (go o) end) o)
  | _ => 0
  end%nat.

(** ** Members *)
Lemma put_assoc k v o k' : assoc k o = None ->
  assoc k' (put k v o) = if String.eqb k' k then Some v else assoc k' o.
Proof.
  induction o as [|[k1 v1] o IH]; cbn; [done|].
  destruct (String.eqb_spec k k1) as [->|Hne]; [done|]. intros Ho.
  destruct (String.compare k k1) eqn:E; cbn; [|done|].
  - apply String.compare_eq_iff in E. done.
  - rewrite IH by done. destruct (String.eqb_spec k' k1) as [->|]; [|done].
    destruct (String.eqb_spec k1 k); congruence.
Qed.

Lemma assoc_elem k v o : assoc k o = Some v -> (k, v) ∈ o.
Proof.
  induction o as [|[k1 v1] o IH]; cbn; [done|]. destruct (String.eqb_spec k k1) as [->|].
  - intros [= ->]. by left.
  - intros H. right. by apply IH.
Qed.

Lemma put_elem k v o x : x ∈ put k v o -> x = (k, v) \/ x ∈ o.
Proof.
  induction o as [|[k1 v1] o IH]; cbn; [intros ->%list_elem_of_singleton; by left|].
  destruct (String.compare k k1); [by right|intros [->|?]%elem_of_cons; auto|].
  intros [->|H]%elem_of_cons; [right; by left|]. destruct (IH H); [by left|right; by right].
Qed.

(** An object built by a run of [emplace]s with different keys. *)
Lemma emplaces {A} (key : A -> string) (val : A -> json) l o :
  NoDup (key <$> l) -> (forall a, a ∈ l -> assoc (key a) o = None) ->
  exists o', foldM (fun a j => emplace j (key a) (val a)) l (JObj o) = Ok (JObj o') /\
    (forall a, a ∈ l -> assoc (key a) o' = Some (val a)) /\
    (forall k, k ∉ key <$> l -> assoc k o' = assoc k o) /\
    (forall k v, (k, v) ∈ o' -> (k, v) ∈ o \/ exists a, a ∈ l /\ k = key a /\ v = val a).
Proof.
  revert o. induction l as [|a l IH]; intros o Hn Ho.
  - exists o. split; [done|]. split; [by intros a ?%elem_of_nil|]. split; [done|]. auto.
  - cbn in Hn. apply NoDup_cons in Hn as [Ha Hn].
    assert (Hp : forall k, assoc k (put (key a) (val a) o) = if String.eqb k (key a) then Some (val a) else assoc k o).
    { intros k. apply put_assoc, Ho. by left. }
    destruct (IH (put (key a) (val a) o)) as (o' & E & H1 & H2 & H3); [done|..].
    { intros b Hb. rewrite Hp. destruct (String.eqb_spec (key b) (key a)) as [Eb|]; [|apply Ho; by right].
      destruct Ha. rewrite <- Eb. by apply list_elem_of_fmap_2. }
    exists o'. cbn [foldM emplace]. split; [exact E|]. split; [|split].
    + intros b [->|Hb]%elem_of_cons; [|by apply H1]. by rewrite H2, Hp, String.eqb_refl.
    + intros k. cbn. rewrite not_elem_of_cons. intros [Hk Hl]. rewrite H2, Hp by done.
      by destruct (String.eqb_spec k (key a)).
    + intros k v [[[= -> ->]|?]%put_elem|(b & Hb & ? & ?)]%H3; [right; exists a; split; [by left|done]|by left|].
      right. exists b. split; [by right|done].
Qed.

Lemma push_backs {A} (f : A -> json) l vs :
  foldM (fun a j => push_back j (f a)) l (JArr vs) = Ok (JArr (vs ++ (f <$> l))).
Proof.
  revert vs. induction l as [|a l IH]; intros vs; cbn; [by rewrite app_nil_r|].
  by rewrite IH, <- app_assoc.
Qed.

(** ** Conversions of what was put in *)
Lemma uint64_id z : 0 <= z < 2 ^ 64 -> SortValue.uint64 z = z.
Proof. apply Z.mod_small. Qed.
Lemma int32_id z : - 2 ^ 31 <= z < 2 ^ 31 -> int32 z = z.
Proof. intros H. unfold int32. rewrite Z.mod_small by lia. lia. Qed.

Lemma get_id_uint (i : N) : (i < 2 ^ 64)%N -> get_id (JUint (Z.of_N i)) = Ok i.
Proof.
  intros H. unfold get_id, get_uint64. cbn. rewrite uint64_id by lia. by rewrite N2Z.id.
Qed.

(** ** Depth *)
Lemma depth_arr l v : v ∈ l -> (depth v < depth (JArr l))%nat.
Proof.
  intros Hv. cbn. apply Nat.lt_succ_r. revert Hv.
  induction l as [|a l IH]; [by intros ?%elem_of_nil|]. intros [->|H]%elem_of_cons; [lia|].
  specialize (IH H). lia.
Qed.
Lemma depth_obj o k v : (k, v) ∈ o -> (depth v < depth (JObj o))%nat.
Proof.
  intros Hv. cbn. apply Nat.lt_succ_r. revert Hv.
  induction o as [|[k' a] o IH]; [by intros ?%elem_of_nil|]. intros [[= <- <-]|H]%elem_of_cons; [lia|].
  specialize (IH H). lia.
Qed.
Lemma depth_at j k v : at_key j k = Ok v -> (depth v < depth j)%nat.
Proof.
  destruct j; try done. unfold at_key. destruct (assoc k o) eqn:E; [|done]. intros [= <-].
  eapply depth_obj, assoc_elem, E.
Qed.
Lemma depth_elem j v : v ∈ elements j -> (depth v <= depth j)%nat.
Proof.
  destruct j; unfold elements; try (intros ->%list_elem_of_singleton; done).
  - by intros ?%elem_of_nil.
  - intros H%depth_arr. lia.
  - intros ([k v'] & -> & H)%list_elem_of_fmap. apply depth_obj in H. cbn [snd] in *. lia.
Qed.
End Json.
