(* ===== verification/SerDes.v ===== *)
(** * Exchange of ILAs as JSON

    [src/target-json]: [I2JSer] writes a hierarchy as one JSON value, with a
    table of all expressions that refer to each other by their ids, and [J2IDes]
    builds a hierarchy from such a value.  Reading and writing the file itself is
    not modelled. *)
From S2P Require Import Prelude Sort Values Container Expr World ExprOp AstHub IlaVars Collect HashAst Json.
Local Open Scope Z_scope.

(** ** [StrToULongLong] ([src/util/str_util.cc]) *)
Definition isspace (c : ascii) : bool :=
  let n := N_of_ascii c in ((n =? 32) || ((9 <=? n) && (n <=? 13)))%N.
Fixpoint skip_space (s : string) : string :=
  match s with String c s' => if isspace c then skip_space s' else s | "" => "" end.
(** The number that the leading digits spell, after [acc]. *)
Fixpoint leading (s : string) (acc : Z) : Z :=
  match s with
  | String c s => if digit c then leading s (acc * 10 + Z.of_N (N_of_ascii c - 48)) else acc
  | "" => acc
  end.
(** [std::stoull] in base 10: white space, a sign, digits; a negative number wraps. *)
Definition stoull (str : string) : Res Z :=
  let s := skip_space str in
  let '(neg, s) := match s with
                   | String "-" s => (true, s)
                   | String "+" s => (false, s)
                   | _ => (false, s)
                   end in
  match s with
  | String c _ =>
      if digit c then
        let v := leading s 0 in
        if v <? 2 ^ 64 then Ok (if (neg : bool) then SortValue.uint64 (- v) else v) else Fail EThrow
      else Fail EThrow
  | "" => Fail EThrow
  end.
Definition StrToULongLong (str : string) : Z :=
  match stoull str with Ok v => v | Fail _ => 0 end.

(** ** The serializer *)
Module I2JSer.
Import Json.

Record I2JSer := {
  id_idx_map_ : gmap objid nat;
  func_id_idx_map_ : gmap objid nat;
  j_expr_arr_ : json;
  j_func_arr_ : json }.

Definition New : I2JSer :=
  {| id_idx_map_ := ∅; func_id_idx_map_ := ∅; j_expr_arr_ := JNull; j_func_arr_ := JNull |}.

(** A serialization that may fail. *)
Abbreviation SM := (ST I2JSer).

Definition id_json (i : objid) : json := JUint (Z.of_N i).

Definition SerSort (i_sort : Sort) : Res json :=
  j_sort ← emplace object "u" (JInt (ExprMngr.uid_num (Sorts.uid i_sort)));
  match Sorts.uid i_sort with
  | kBv => w ← Sorts.bit_width i_sort; emplace j_sort "w" (JInt w)
  | kMem =>
      a ← Sorts.addr_width i_sort;
      j_sort ← emplace j_sort "a" (JInt a);
      d ← Sorts.data_width i_sort;
      emplace j_sort "d" (JInt d)
  | _ => ila_assert (Sorts.is_bool i_sort);; Ok j_sort
  end.

Definition SerFunc (i_func : Func) : SM json :=
  let id := f_id i_func in
  s ← get;
  match func_id_idx_map_ s !! id with
  | Some idx => lift (at_idx (j_func_arr_ s) idx)
  | None =>
      j_func ← lift (emplace object "i" (id_json id));
      j_func ← lift (emplace j_func "n" (JStr (f_name i_func)));
      j_out_sort ← lift (SerSort (out_ i_func));
      j_func ← lift (emplace j_func "o" j_out_sort);
      j_arg_sort_arr ← lift (foldM (fun a j => s ← SerSort a; push_back j s) (args_ i_func) array);
      j_func ← lift (emplace j_func "a" j_arg_sort_arr);
      j_func_arr ← lift (push_back (j_func_arr_ s) j_func);
      modify (fun s => {| id_idx_map_ := id_idx_map_ s; func_id_idx_map_ := func_id_idx_map_ s;
                          j_expr_arr_ := j_expr_arr_ s; j_func_arr_ := j_func_arr |});;
      mret j_func
  end.

(** [val_bool], [val_bv] and [val_mem]: the sort was tested before. *)
Definition val_bool (v : ConstVal) : Res bool := if v is CBool b then Ok b else Fail ENull.
Definition val_bv (v : ConstVal) : Res Z := if v is CBv n then Ok n else Fail ENull.
Definition val_mem (v : ConstVal) : Res SortValue.MemVal := if v is CMem m then Ok m else Fail ENull.

Definition SerConstVal (e : Expr) (v : ConstVal) : Res json :=
  if Exprs.is_bool e then b ← val_bool v; emplace object "v" (JBool b)
  else if Exprs.is_bv e 0 then n ← val_bv v; emplace object "v" (JUint n)
  else
    m ← val_mem v;
    j_val ← emplace object "d" (JUint (SortValue.default_ m));
    j_val_map ← foldM (fun p j => emplace j (pretty p.1) (JUint p.2))
                  (map_entries (SortValue.val_map_ m)) object;
    emplace j_val "m" j_val_map.

(** [GetUidExpr], and the fields of one node. *)
Definition kVar : Z := 1.
Definition kConst : Z := 2.
Definition kOp : Z := 3.

Definition ser_fields (i_expr : Expr) (j_expr : json) : SM json :=
  match i_expr with
  | ExprVar h _ =>
      j_expr ← lift (emplace j_expr "u" (JInt kVar));
      s ← lift (SerSort (h_sort h));
      j_expr ← lift (emplace j_expr "s" s);
      lift (emplace j_expr "n" (JStr (h_name h)))
  | ExprConst h v _ =>
      j_expr ← lift (emplace j_expr "u" (JInt kConst));
      s ← lift (SerSort (h_sort h));
      j_expr ← lift (emplace j_expr "s" s);
      v ← lift (SerConstVal i_expr v);
      lift (emplace j_expr "v" v)
  | ExprOp h op fn args params =>
      j_expr ← lift (emplace j_expr "u" (JInt kOp));
      j_expr ← lift (emplace j_expr "o" (JInt (ExprMngr.op_num op)));
      j_arg_arr ← lift (foldM (fun a j => push_back j (id_json (Exprs.id a))) args array);
      j_expr ← lift (emplace j_expr "a" j_arg_arr);
      j_param_arr ← lift (foldM (fun p j => push_back j (JInt p)) params array);
      j_expr ← lift (emplace j_expr "p" j_param_arr);
      if bool_decide (op = kApplyFunc) then
        f ← lift (not_null fn);
        j_func ← SerFunc f;
        id ← lift (i ← at_key j_func "i"; get_id i);
        lift (emplace j_expr "f" (id_json id))
      else mret j_expr
  end.

Definition SerExprUnit (i_expr : Expr) : SM json :=
  let id := Exprs.id i_expr in
  s ← get;
  match id_idx_map_ s !! id with
  | Some idx => lift (at_idx (j_expr_arr_ s) idx)
  | None =>
      j_expr ← lift (emplace object "i" (id_json id));
      j_expr ← ser_fields i_expr j_expr;
      s ← get;
      j_expr_arr ← lift (push_back (j_expr_arr_ s) j_expr);
      modify (fun s => {| id_idx_map_ := <[id := length (elements (j_expr_arr_ s))]> (id_idx_map_ s);
                          func_id_idx_map_ := func_id_idx_map_ s;
                          j_expr_arr_ := j_expr_arr; j_func_arr_ := j_func_arr_ s |});;
      mret j_expr
  end.

(** The kernel discards the value of each node; a null pointer stops. *)
Definition SerExpr (i_expr : option Expr) : SM json :=
  e ← lift (not_null i_expr);
  s ← get;
  s ← lift (Exprs.DepthFirstVisit (fun x s => '(_, s) ← SerExprUnit x s; Ok s) e s);
  modify (fun _ => s);;
  let pos := id_idx_map_ s !! Exprs.id e in
  lift (ila_assert (is_some pos));;
  idx ← lift (deref pos);
  lift (at_idx (j_expr_arr_ s) idx).

(** [SerExpr(e).at(SERDES_EXPR_ID).get<ID_t>()]. *)
Definition ser_id (i_expr : option Expr) : SM json :=
  j ← SerExpr i_expr; i ← lift (i ← at_key j "i"; get_id i); mret (id_json i).

(** A loop that pushes one id per expression. *)
Definition ser_ids (es : list Expr) : SM json :=
  foldM (fun e j => i ← ser_id (Some e); lift (push_back j i)) es array.

Section ila.
(** The objects, which the serializer only reads. *)
Context (W : World).

Definition ser_update (x : Instr) (i_state : Expr) (j_update : json) : SM json :=
  let i_next := Instrs.update_state x i_state in
  let i_next := match i_next with Some e => Some e | None => Some i_state end in
  i ← ser_id i_next; lift (emplace j_update (Exprs.name i_state) i).

Definition SerInstr (i_instr : objid) : SM json :=
  x ← lift (deref (w_instrs W !! i_instr));
  j_instr ← lift (emplace object "n" (JStr (i_name x)));
  d ← ser_id (decode_ x);
  j_instr ← lift (emplace j_instr "d" d);
  host ← lift (h ← deref (i_host x); deref (w_ilas W !! h));
  j_update ← foldM (ser_update x) (KeyVec.vec_ (states_ host)) object;
  lift (emplace j_instr "u" j_update).

Fixpoint SerInstrLvlAbsNoAst (n : nat) (i_ila : objid) : SM json :=
  match n with
  | O => lift (Fail EDiverge)
  | S n =>
      l ← lift (deref (w_ilas W !! i_ila));
      j_ila ← lift (emplace object "n" (JStr (l_name l)));
      j_inp_arr ← ser_ids (KeyVec.vec_ (inputs_ l));
      j_ila ← lift (emplace j_ila "i" j_inp_arr);
      j_state_arr ← ser_ids (KeyVec.vec_ (states_ l));
      j_ila ← lift (emplace j_ila "s" j_state_arr);
      j_ila ← (if is_some (fetch_ l) then
                 j_fetch ← ser_id (fetch_ l); lift (emplace j_ila "f" j_fetch)
               else mret j_ila);
      j_valid ← ser_id (valid_ l);
      j_ila ← lift (emplace j_ila "v" j_valid);
      j_instr_arr ← foldM (fun i j => x ← SerInstr i; lift (push_back j x))
                      (KeyVec.vec_ (instrs_ l)) array;
      j_ila ← lift (emplace j_ila "instr" j_instr_arr);
      j_init_arr ← ser_ids (inits_ l);
      j_ila ← lift (emplace j_ila "init" j_init_arr);
      j_child_arr ← foldM (fun c j => x ← SerInstrLvlAbsNoAst n c; lift (push_back j x))
                      (KeyVec.vec_ (childs_ l)) array;
      lift (emplace j_ila "c" j_child_arr)
  end.

Definition SerInstrLvlAbs (i_ila : objid) : SM json :=
  j_top ← SerInstrLvlAbsNoAst (Collect.absknob.tree_fuel W) i_ila;
  j_global ← lift (emplace object "t" j_top);
  s ← get;
  j_global ← lift (emplace j_global "a" (j_expr_arr_ s));
  lift (emplace j_global "f" (j_func_arr_ s)).
End ila.
End I2JSer.

(** ** The deserializer *)
Module J2IDes.
Import Json asthub IlaVars.

Record J2IDes := {
  id_expr_map_ : gmap objid Expr;
  id_func_map_ : gmap objid Func;
  ila_name_ptr_map_ : gmap string objid }.

Definition New : J2IDes :=
  {| id_expr_map_ := ∅; id_func_map_ := ∅; ila_name_ptr_map_ := ∅ |}.

(** A computation on the objects and the members of the deserializer. *)
Abbreviation DM := (ST (World * J2IDes)).
Definition on_world {A} (m : M A) : DM A := fun s => '(a, w) ← m s.1; Ok (a, (w, s.2)).
Definition members : DM J2IDes := gets snd.
Definition set_members (f : J2IDes -> J2IDes) : DM unit := modify (fun s => (s.1, f s.2)).

(** [unordered_map::emplace] on the three maps, at a key that is new. *)
Definition add_expr (i : objid) (e : Expr) : DM unit := set_members (fun d =>
  {| id_expr_map_ := <[i := e]> (id_expr_map_ d); id_func_map_ := id_func_map_ d;
     ila_name_ptr_map_ := ila_name_ptr_map_ d |}).
Definition add_func (i : objid) (f : Func) : DM unit := set_members (fun d =>
  {| id_expr_map_ := id_expr_map_ d; id_func_map_ := <[i := f]> (id_func_map_ d);
     ila_name_ptr_map_ := ila_name_ptr_map_ d |}).
Definition add_ila (name : string) (m : objid) : DM unit := set_members (fun d =>
  {| id_expr_map_ := id_expr_map_ d; id_func_map_ := id_func_map_ d;
     ila_name_ptr_map_ := <[name := m]> (ila_name_ptr_map_ d) |}).

Definition at_id (j : json) (k : string) : Res objid := v ← at_key j k; get_id v.
Definition at_int (j : json) (k : string) : Res Z := v ← at_key j k; get_int v.
Definition at_string (j : json) (k : string) : Res string := v ← at_key j k; get_string v.
(** [get<UID_t>]. *)
Definition at_uid (j : json) (k : string) : Res Z := v ← at_key j k; get_uint64 v.

(** A null sort is refused here; the code would store it in the function. *)
Definition DesSort (j_sort : json) : Res Sort :=
  u ← at_uid j_sort "u";
  if u =? 1 then Ok Sorts.MakeBoolSort else
  if u =? 2 then width ← at_int j_sort "w"; Ok (Sorts.MakeBvSort width) else
  if u =? 3 then
    addr_width ← at_int j_sort "a";
    data_width ← at_int j_sort "d";
    Ok (Sorts.MakeMemSort addr_width data_width)
  else Fail ENull.

Definition DesFunc (j_func : json) : DM Func :=
  id ← lift (at_id j_func "i");
  d ← members;
  match id_func_map_ d !! id with
  | Some f => mret f
  | None =>
      name ← lift (at_string j_func "n");
      i_out_sort ← lift (j ← at_key j_func "o"; DesSort j);
      j_arg_sort_arr ← lift (at_key j_func "a");
      i_arg_sort_vec ← lift (mapM DesSort (elements j_arg_sort_arr));
      i_func ← on_world (Funcs.New name i_out_sort i_arg_sort_vec);
      add_func id i_func;;
      mret i_func
  end.

Section des.
Context {L : Layout}.

(** [New{Bool,Bv,Mem}{State,Input}], chosen by the sort; null otherwise. *)
Definition des_var (st : bool) (j_sort : json) (name : string) (i_host : objid) : DM (option Expr) :=
  u ← lift (at_uid j_sort "u");
  if u =? 1 then
    on_world (e ← (if st then NewBoolState i_host name else NewBoolInput i_host name); mret (Some e))
  else if u =? 2 then
    width ← lift (at_int j_sort "w");
    on_world (e ← (if st then NewBvState i_host name width else NewBvInput i_host name width);
              mret (Some e))
  else if u =? 3 then
    addr_width ← lift (at_int j_sort "a");
    data_width ← lift (at_int j_sort "d");
    on_world (e ← (if st then NewMemState i_host name addr_width data_width
                   else NewMemInput i_host name addr_width data_width); mret (Some e))
  else mret None.
Definition DesExprState := des_var true.
Definition DesExprInput := des_var false.

Definition DesExprConst (j_sort j_val : json) : DM (option Expr) :=
  u ← lift (at_uid j_sort "u");
  if u =? 1 then
    value ← lift (v ← at_key j_val "v"; get_bool v);
    on_world (e ← BoolConst value; mret (Some e))
  else if u =? 2 then
    width ← lift (at_int j_sort "w");
    value ← lift (v ← at_key j_val "v"; get_uint64 v);
    on_world (e ← BvConst value width; mret (Some e))
  else if u =? 3 then
    addr_width ← lift (at_int j_sort "a");
    data_width ← lift (at_int j_sort "d");
    default_value ← lift (v ← at_key j_val "d"; get_uint64 v);
    j_value_map ← lift (at_key j_val "m");
    i_value_map ← lift (foldM (fun p m => data ← get_uint64 p.2; Ok (<[StrToULongLong p.1 := data]> m))
                          (items j_value_map) (∅ : gmap Z Z));
    on_world (e ← MemConst_val (SortValue.MemVal_map default_value i_value_map) addr_width data_width;
              mret (Some e))
  else mret None.

(** The arguments that an array of ids names. *)
Definition des_args (j_arg_arr : json) : DM (list Expr) :=
  d ← members;
  lift (mapM (fun it =>
    arg_id ← get_id it;
    ila_assert (is_some (id_expr_map_ d !! arg_id));;
    deref (id_expr_map_ d !! arg_id)) (elements j_arg_arr)).

Definition all_ops : list AstUidExprOp :=
  [kNegate; kNot; kComplement; kAnd; kOr; kXor; kShiftLeft; kArithShiftRight; kLogicShiftRight;
   kAdd; kSubtract; kMultiply; kEqual; kLessThan; kGreaterThan; kUnsignedLessThan;
   kUnsignedGreaterThan; kLoad; kStore; kConcatenate; kExtract; kZeroExtend; kSignedExtend;
   kApplyFunc; kImply; kIfThenElse; kDivide; kRotateLeft; kRotateRight; kSignedRemainder;
   kUnsignedRemainder; kSignedModular].
(** The case label of a number. *)
Definition uid_op (u : Z) : option AstUidExprOp :=
  List.find (fun op => ExprMngr.op_num op =? u) all_ops.

Section switch.
Context (args : list Expr) (params : list Z).
Definition des1 (f : Expr -> M Expr) : M (option Expr) :=
  a ← lift (Exprs.at_ args 0); e ← f a; mret (Some e).
Definition des2 (f : Expr -> Expr -> M Expr) : M (option Expr) :=
  a ← lift (Exprs.at_ args 0); b ← lift (Exprs.at_ args 1); e ← f a b; mret (Some e).
Definition des3 (f : Expr -> Expr -> Expr -> M Expr) : M (option Expr) :=
  a ← lift (Exprs.at_ args 0); b ← lift (Exprs.at_ args 1); c ← lift (Exprs.at_ args 2);
  e ← f a b c; mret (Some e).
Definition des1p (f : Expr -> Z -> M Expr) : M (option Expr) :=
  a ← lift (Exprs.at_ args 0); p ← lift (Exprs.at_ params 0); e ← f a p; mret (Some e).

Definition des_switch (ast_expr_op_uid : Z) : M (option Expr) :=
  match uid_op ast_expr_op_uid with
  | Some kNegate => des1 Negate
  | Some kNot => des1 Not
  | Some kComplement => des1 Complement
  | Some kAnd => des2 And
  | Some kOr => des2 Or
  | Some kXor => des2 Xor
  | Some kShiftLeft => des2 Shl
  | Some kArithShiftRight => des2 Ashr
  | Some kLogicShiftRight => des2 Lshr
  | Some kAdd => des2 Add
  | Some kSubtract => des2 Sub
  | Some kDivide => des2 Div
  | Some kSignedRemainder => des2 SRem
  | Some kUnsignedRemainder => des2 URem
  | Some kSignedModular => des2 SMod
  | Some kMultiply => des2 Mul
  | Some kEqual => des2 Eq
  | Some kLessThan => des2 Lt
  | Some kGreaterThan => des2 Gt
  | Some kUnsignedLessThan => des2 Ult
  | Some kUnsignedGreaterThan => des2 Ugt
  | Some kLoad => des2 Load
  | Some kStore => des3 Store
  | Some kConcatenate => des2 Concat
  | Some kExtract =>
      a ← lift (Exprs.at_ args 0); p ← lift (Exprs.at_ params 0); q ← lift (Exprs.at_ params 1);
      e ← Extract a p q; mret (Some e)
  | Some kZeroExtend => des1p ZExt
  | Some kSignedExtend => des1p SExt
  | Some kRotateLeft => des1p LRotate
  | Some kRotateRight => des1p RRotate
  | Some kImply => des2 Imply
  | Some kIfThenElse => des3 Ite
  | Some kApplyFunc | Some kInvalid | None => mret None
  end.
End switch.

(** The number is passed as an [unsigned]. *)
Definition DesExprOp (ast_expr_op_uid : Z) (j_arg_arr j_param_arr : json) : DM (option Expr) :=
  args ← des_args j_arg_arr;
  params ← lift (mapM get_int (elements j_param_arr));
  on_world (des_switch args params (ast_expr_op_uid mod 2 ^ 32)).

Definition DesExprOpAppFunc (j_func j_arg_arr : json) : DM (option Expr) :=
  func_id ← lift (get_id j_func);
  d ← members;
  lift (ila_assert (is_some (id_func_map_ d !! func_id)));;
  i_func ← lift (deref (id_func_map_ d !! func_id));
  args ← des_args j_arg_arr;
  on_world (e ← AppFunc i_func args; mret (Some e)).

(** A variable that no ILA has declared is reported and refused. *)
Definition DesExpr (j_expr : json) : DM Expr :=
  id ← lift (at_id j_expr "i");
  d ← members;
  match id_expr_map_ d !! id with
  | Some e => mret e
  | None =>
      expr_uid ← lift (at_uid j_expr "u");
      i_expr ←
        (if expr_uid =? I2JSer.kConst then
           sort ← lift (at_key j_expr "s");
           value ← lift (at_key j_expr "v");
           DesExprConst sort value
         else if expr_uid =? I2JSer.kOp then
           expr_op_uid ← lift (at_uid j_expr "o");
           if expr_op_uid =? ExprMngr.op_num kApplyFunc then
             j_func_id ← lift (at_key j_expr "f");
             j_arg_arr ← lift (at_key j_expr "a");
             DesExprOpAppFunc j_func_id j_arg_arr
           else
             j_arg_arr ← lift (at_key j_expr "a");
             j_param_arr ← lift (at_key j_expr "p");
             DesExprOp expr_op_uid j_arg_arr j_param_arr
         else if expr_uid =? I2JSer.kVar then lift (at_key j_expr "n");; mret None
         else mret None);
      e ← lift (not_null i_expr);
      add_expr id e;;
      mret e
  end.

(** ** Variables *)
Definition id_set (j : json) : Res (list objid) := mapM get_id (elements j).

Definition des_var_entry (i_ila : objid) (input_id_set state_id_set : list objid)
    (j_expr : json) : DM unit :=
  id ← lift (at_id j_expr "i");
  d ← members;
  match id_expr_map_ d !! id with
  | Some _ => mret ()
  | None =>
      expr_uid ← lift (at_uid j_expr "u");
      if expr_uid =? I2JSer.kVar then
        name ← lift (at_string j_expr "n");
        sort ← lift (at_key j_expr "s");
        let declare st :=
          (i_expr ← des_var st sort name i_ila; e ← lift (not_null i_expr); add_expr id e) in
        if bool_decide (id ∈ state_id_set) then declare true
        else if bool_decide (id ∈ input_id_set) then declare false
        else mret ()
      else mret ()
  end.

Definition DesVarUnit (j_ila j_ast_list : json) (i_parent : option objid) : DM unit :=
  name ← lift (at_string j_ila "n");
  d ← members;
  lift (ila_check (negb (is_some (ila_name_ptr_map_ d !! name))));;
  i_ila ← on_world (match i_parent with
                    | Some p => Ila.NewChild p name
                    | None => Ila.New name None
                    end);
  add_ila name i_ila;;
  input_id_set ← lift (j ← at_key j_ila "i"; id_set j);
  state_id_set ← lift (j ← at_key j_ila "s"; id_set j);
  foldM (fun j_expr (_ : unit) => des_var_entry i_ila input_id_set state_id_set j_expr)
    (elements j_ast_list) ().

(** [ila_name_ptr_map_.find(name)]. *)
Definition find_ila (j_ila : json) : DM objid :=
  name ← lift (at_string j_ila "n");
  d ← members;
  let pos := ila_name_ptr_map_ d !! name in
  lift (ila_assert (is_some pos));;
  lift (deref pos).

(** The recursion into [j_ila] is bounded by its depth. *)
Fixpoint DesVarHier (n : nat) (j_ila j_ast_list : json) (i_parent : option objid) : DM unit :=
  match n with
  | O => lift (Fail EDiverge)
  | S n =>
      DesVarUnit j_ila j_ast_list i_parent;;
      i_ila ← find_ila j_ila;
      j_child_arr ← lift (at_key j_ila "c");
      foldM (fun j_child (_ : unit) => DesVarHier n j_child j_ast_list (Some i_ila))
        (elements j_child_arr) ()
  end.

(** ** Instructions *)
Definition des_update (instr : objid) (update : json) (state : Expr) (_ : unit) : DM unit :=
  let next_id_it := find update (Exprs.name state) in
  lift (ila_assert (is_some next_id_it));;
  next_id ← lift (v ← deref next_id_it; get_id v);
  d ← members;
  let next_expr_it := id_expr_map_ d !! next_id in
  lift (ila_assert (is_some next_expr_it));;
  on_world (Instrs.set_update_state instr state next_expr_it).

Definition DesInstr (j_instr : json) (i_host : objid) : DM objid :=
  name ← lift (at_string j_instr "n");
  instr ← on_world (Ila.NewInstr i_host name);
  decode_id ← lift (at_id j_instr "d");
  d ← members;
  let decode_pos := id_expr_map_ d !! decode_id in
  lift (ila_assert (is_some decode_pos));;
  on_world (Instrs.set_decode instr decode_pos);;
  update ← lift (at_key j_instr "u");
  l ← on_world (ila i_host);
  foldM (des_update instr update) (KeyVec.vec_ (states_ l)) ();;
  mret instr.

(** ** The rest of an ILA *)

(** A [try] block, which an exception leaves; only its first statement throws,
    before anything has changed. *)
Definition try_catch (body handler : DM unit) : DM unit := fun s =>
  match body s with Fail EThrow => handler s | r => r end.

(** The iterator of an id that is not found is dereferenced all the same. *)
Definition des_cond (m : objid) (j_ila : json) (key : string)
    (set : objid -> option Expr -> M unit) : DM unit :=
  i ← lift (at_id j_ila key);
  d ← members;
  e ← lift (deref (id_expr_map_ d !! i));
  on_world (set m (Some e)).

Definition des_init (m : objid) (j_init : json) (_ : unit) : DM unit :=
  i ← lift (get_id j_init);
  d ← members;
  let init_expr_it := id_expr_map_ d !! i in
  lift (ila_assert (is_some init_expr_it));;
  on_world (Ila.AddInit m init_expr_it).

Definition DesIlaUnit (j_ila : json) : DM unit :=
  m ← find_ila j_ila;
  try_catch (des_cond m j_ila "f" Ila.SetFetch)
    (on_world (c ← BvConst 1 1; Ila.SetFetch m (Some c)));;
  try_catch (des_cond m j_ila "v" Ila.SetValid)
    (on_world (c ← BoolConst true; Ila.SetValid m (Some c)));;
  j_instr_arr ← lift (at_key j_ila "instr");
  foldM (fun j_instr (_ : unit) => DesInstr j_instr m;; mret ()) (elements j_instr_arr) ();;
  j_init_arr ← lift (at_key j_ila "init");
  foldM (des_init m) (elements j_init_arr) ().

Fixpoint DesIlaHier (n : nat) (j_ila : json) : DM unit :=
  match n with
  | O => lift (Fail EDiverge)
  | S n =>
      DesIlaUnit j_ila;;
      j_child_arr ← lift (at_key j_ila "c");
      foldM (fun j_child (_ : unit) => DesIlaHier n j_child) (elements j_child_arr) ()
  end.

Definition DesInstrLvlAbs (j_global : json) : DM objid :=
  j_expr_arr ← lift (at_key j_global "a");
  j_func_arr ← lift (at_key j_global "f");
  j_top ← lift (at_key j_global "t");
  DesVarHier (S (depth j_top)) j_top j_expr_arr None;;
  foldM (fun j_func (_ : unit) => DesFunc j_func;; mret ()) (elements j_func_arr) ();;
  foldM (fun j_expr (_ : unit) => DesExpr j_expr;; mret ()) (elements j_expr_arr) ();;
  DesIlaHier (S (depth j_top)) j_top;;
  find_ila j_top.
End des.
End J2IDes.

(** ** [IlaSerDesMngr] ([interface.cc]) *)
Module IlaSerDesMngr.
Definition Serialize (m : objid) : M json := fun w =>
  '(j, _) ← I2JSer.SerInstrLvlAbs w m I2JSer.New; Ok (j, w).
Definition Deserialize {L : Layout} (j : json) : M objid := fun w =>
  '(m, s) ← J2IDes.DesInstrLvlAbs j (w, J2IDes.New); Ok (m, s.1).
End IlaSerDesMngr.
