(* ===== verification/SerSpec.v ===== *)
(** * What is written

    The serializer of [SerDes] as a function: the JSON value of each node,
    function, instruction and ILA, and the order in which the table of
    expressions lists the nodes. *)
From S2P Require Import Prelude Sort Values Container Expr World ExprOp AstHub IlaVars Collect HashAst Json SerDes.
Local Open Scope Z_scope.
Import Json I2JSer.

(** ** Values of sorts, functions and nodes *)
Definition sort_json (s : Sort) : json :=
  match s with
  | SortBool => JObj [("u", JInt 1)]
  | SortBv w => JObj [("u", JInt 2); ("w", JInt w)]
  | SortMem a d => JObj [("a", JInt a); ("d", JInt d); ("u", JInt 3)]
  | _ => JNull
  end.

Lemma SerSort_run s : sort_ok s = true -> SerSort s = Ok (sort_json s).
Proof. by destruct s. Qed.

Definition func_json (f : Func) : json :=
  JObj [("a", JArr (sort_json <$> args_ f)); ("i", id_json (f_id f)); ("n", JStr (f_name f));
        ("o", sort_json (out_ f))].

Lemma ser_sorts ss vs : Forall (fun s => sort_ok s = true) ss ->
  foldM (fun a j => s ← SerSort a; push_back j s) ss (JArr vs) = Ok (JArr (vs ++ (sort_json <$> ss))).
Proof.
  intros H. revert vs. induction H as [|s ss Hs _ IH]; intros vs; cbn [foldM fmap list_fmap];
    [by rewrite app_nil_r|].
  rewrite SerSort_run by done. cbn [mbind Res_bind push_back]. by rewrite IH, <- app_assoc.
Qed.

Definition add_entry (p : Z * Z) (j : json) : Res json := emplace j (pretty p.1) (JUint p.2).
Definition map_json (m : gmap Z Z) : json :=
  match foldM add_entry (map_entries m) object with Ok j => j | Fail _ => JNull end.

Lemma map_entries_perm m : map_entries m ≡ₚ map_to_list m.
Proof. apply merge_sort_Permutation. Qed.

Lemma map_json_run m : exists o, map_json m = JObj o /\
  foldM add_entry (map_entries m) object = Ok (JObj o) /\
  (forall k v, (k, v) ∈ o -> exists a d, m !! a = Some d /\ k = pretty a /\ v = JUint d) /\
  (forall a d, m !! a = Some d -> assoc (pretty a) o = Some (JUint d)).
Proof.
  destruct (emplaces (fun p : Z * Z => pretty p.1) (fun p => JUint p.2) (map_entries m) [])
    as (o & E & H1 & _ & H2); [|done|].
  - change (NoDup ((pretty ∘ fst : Z * Z -> string) <$> map_entries m)).
    rewrite (list_fmap_compose fst pretty). apply NoDup_fmap; [apply _|].
    rewrite map_entries_perm. apply NoDup_fst_map_to_list.
  - exists o. unfold map_json. unfold object, add_entry. rewrite E.
    assert (Hin : forall p, p ∈ map_entries m <-> m !! p.1 = Some p.2).
    { intros [a d]. rewrite map_entries_perm. apply elem_of_map_to_list. }
    split; [done|]. split; [done|]. split.
    + intros k v [?%elem_of_nil|([a d] & Hp & -> & ->)]%H2; [done|]. exists a, d. by apply Hin in Hp.
    + intros a d Hp. by apply (H1 (a, d)), Hin.
Qed.

Definition val_json (s : Sort) (v : ConstVal) : json :=
  match v with
  | CBool b => JObj [("v", JBool b)]
  | CBv n => JObj [("v", JUint n)]
  | CMem m => JObj [("d", JUint (SortValue.default_ m)); ("m", map_json (SortValue.val_map_ m))]
  end.

Lemma SerConstVal_run h v ps : const_ok (h_sort h) v = true ->
  SerConstVal (ExprConst h v ps) v = Ok (val_json (h_sort h) v).
Proof.
  unfold SerConstVal, Exprs.is_bool, Exprs.is_bv, Exprs.sort. cbn [Exprs.hdr].
  destruct (h_sort h), v; try done. intros _. cbn -[map_entries].
  destruct (map_json_run (SortValue.val_map_ m)) as (o & E & E' & _).
  unfold object, add_entry in *. rewrite E', E. done.
Qed.

Definition fn_members (fn : option Func) : list (string * json) :=
  match fn with Some f => [("f", id_json (f_id f))] | None => [] end.

Definition expr_json (e : Expr) : json :=
  match e with
  | ExprVar h _ =>
      JObj [("i", id_json (h_id h)); ("n", JStr (h_name h)); ("s", sort_json (h_sort h)); ("u", JInt kVar)]
  | ExprConst h v _ =>
      JObj [("i", id_json (h_id h)); ("s", sort_json (h_sort h)); ("u", JInt kConst);
            ("v", val_json (h_sort h) v)]
  | ExprOp h op fn args ps =>
      JObj (("a", JArr ((fun a => id_json (Exprs.id a)) <$> args)) :: fn_members fn ++
            [("i", id_json (h_id h)); ("o", JInt (ExprMngr.op_num op)); ("p", JArr (JInt <$> ps));
             ("u", JInt kOp)])
  end.

(** The function of a node. *)
Definition node_fn (e : Expr) : option Func :=
  match e with ExprOp _ _ fn _ _ => fn | _ => None end.

(** ** Nodes that can be written and read back

    Sorts are well formed and numbers fit the types of the code. *)
Definition int_ok (z : Z) : Prop := - 2 ^ 31 <= z < 2 ^ 31.
Definition word_ok (z : Z) : Prop := 0 <= z < 2 ^ 64.
Definition int_sort (s : Sort) : Prop :=
  match s with SortBv w => int_ok w | SortMem a d => int_ok a /\ int_ok d | _ => True end.
Definition const_words (v : ConstVal) : Prop :=
  match v with
  | CBool _ => True
  | CBv n => word_ok n
  | CMem m => word_ok (SortValue.default_ m) /\
      forall a d, SortValue.val_map_ m !! a = Some d -> word_ok a /\ word_ok d
  end.

Section nodes.
(** The functions, under their ids. *)
Context (FT : gmap objid Func).

Definition node_ok (e : Expr) : Prop :=
  (Exprs.id e < 2 ^ 64)%N /\ sort_ok (Exprs.sort e) = true /\ int_sort (Exprs.sort e) /\
  match e with
  | ExprVar _ _ => True
  | ExprConst h v _ => const_ok (h_sort h) v = true /\ const_words v
  | ExprOp h op fn args ps =>
      Forall int_ok ps /\
      match fn with
      | None => op_sort op ps (Exprs.sort <$> args) = Some (h_sort h)
      | Some f => fn_ok op f (Exprs.sort <$> args) (h_sort h) = true /\
                  FT !! f_id f = Some f /\ (f_id f < 2 ^ 64)%N
      end
  end.

Lemma node_fn_iff h op fn args ps : node_ok (ExprOp h op fn args ps) -> op = kApplyFunc <-> is_Some fn.
Proof.
  intros (_ & _ & _ & _ & H). destruct fn as [f|].
  - destruct H as [H _]. unfold fn_ok in H. bool_inv. subst. naive_solver.
  - split; [intros ->|intros [? ?]; done]. cbn in H. by destruct ps.
Qed.

(** ** The state after a list of nodes *)
Definition arr (l : list json) : json := match l with [] => JNull | _ => JArr l end.

Lemma arr_push l j : push_back (arr l) j = Ok (arr (l ++ [j])).
Proof. by destruct l. Qed.
Lemma arr_elements l : elements (arr l) = l.
Proof. by destruct l. Qed.
Lemma arr_at l i : l !! i <> None -> at_idx (arr l) i = match l !! i with Some v => Ok v | None => Fail EThrow end.
Proof. by destruct l. Qed.

Abbreviation ids L := (Exprs.id <$> L).

Definition index (L : list Expr) (m : gmap objid nat) : Prop :=
  forall i k, m !! i = Some k <-> exists e, L !! k = Some e /\ Exprs.id e = i.

Record state_of (L : list Expr) (s : I2JSer) : Prop := {
  so_idx : index L (id_idx_map_ s);
  so_fun : func_id_idx_map_ s = ∅;
  so_exprs : j_expr_arr_ s = arr (expr_json <$> L);
  so_funcs : j_func_arr_ s = arr (func_json <$> omap node_fn L) }.

Definition fn_list (e : Expr) : list Func := match node_fn e with Some f => [f] | None => [] end.
Definition with_funcs (s : I2JSer) (j : json) : I2JSer :=
  {| id_idx_map_ := id_idx_map_ s; func_id_idx_map_ := func_id_idx_map_ s;
     j_expr_arr_ := j_expr_arr_ s; j_func_arr_ := j |}.

Lemma with_funcs_id s : with_funcs s (j_func_arr_ s) = s.
Proof using Type. by destruct s. Qed.

Lemma SerFunc_run f s X : func_id_idx_map_ s = ∅ -> j_func_arr_ s = arr X ->
  sort_ok (out_ f) = true -> Forall (fun t => sort_ok t = true) (args_ f) ->
  SerFunc f s = Ok (func_json f, with_funcs s (arr (X ++ [func_json f]))).
Proof using Type.
  intros Hm Hf Ho Ha. unfold SerFunc. cbv [mbind ST_bind get]. rewrite Hm, lookup_empty. cbn [lift mbind Res_bind object emplace put].
  rewrite SerSort_run by done. unfold lift, array. rewrite ser_sorts by done.
  cbn -[push_back func_json]. change (JObj _) with (func_json f). rewrite Hf, arr_push. reflexivity.
Qed.

Lemma ser_params ps vs : foldM (fun p j => push_back j (JInt p)) ps (JArr vs) = Ok (JArr (vs ++ (JInt <$> ps))).
Proof using Type. apply (push_backs JInt). Qed.

Lemma ser_fields_run e s X : node_ok e -> func_id_idx_map_ s = ∅ -> j_func_arr_ s = arr X ->
  Forall (fun a => sort_ok (Exprs.sort a) = true) (Exprs.args e) ->
  ser_fields e (JObj [("i", id_json (Exprs.id e))]) s =
  Ok (expr_json e, with_funcs s (arr (X ++ (func_json <$> fn_list e)))).
Proof using Type.
  intros Hok Hm Hf Hargs. pose proof Hok as (Hid & Hs & _ & H). destruct e as [h ps|h v ps|h op fn args ps].
  - cbn [ser_fields]. cbn -[SerSort arr]. rewrite SerSort_run by done. cbn -[arr].
    by rewrite app_nil_r, <- Hf, with_funcs_id.
  - cbn [ser_fields]. destruct H as [Hc _]. cbn -[SerSort SerConstVal arr]. rewrite SerSort_run by done.
    cbn -[SerConstVal arr]. rewrite SerConstVal_run by done. cbn -[arr].
    by rewrite app_nil_r, <- Hf, with_funcs_id.
  - cbn [ser_fields]. pose proof (node_fn_iff _ _ _ _ _ Hok) as Hop. destruct H as [_ H].
    do 2 (erewrite lift_bind_run by reflexivity).
    rewrite (lift_bind_run _ _ _ _ (push_backs (fun a => id_json (Exprs.id a)) args [])).
    erewrite lift_bind_run by reflexivity. rewrite (lift_bind_run _ _ _ _ (ser_params ps [])).
    erewrite lift_bind_run by reflexivity. cbn [app]. destruct fn as [f|].
    + rewrite bool_decide_true by naive_solver. destruct H as (Hfn & HFT & Hfid). unfold fn_ok in Hfn. bool_inv.
      erewrite lift_bind_run by reflexivity. erewrite ST_bind_run.
      2:{ apply (SerFunc_run f s X); [done|done|congruence|]. rewrite H2. by apply Forall_fmap. }
      rewrite (lift_bind_run _ _ _ (f_id f)) by (cbn; by apply get_id_uint). reflexivity.
    + rewrite bool_decide_false by (rewrite Hop; by intros [? ?]). cbn [fn_list node_fn fmap list_fmap].
      by rewrite app_nil_r, <- Hf, with_funcs_id.
Qed.

(** ** The table *)
Definition add (e : Expr) (L : list Expr) : list Expr :=
  if decide (Exprs.id e ∈ ids L) then L else L ++ [e].

Lemma index_None L m i : index L m -> m !! i = None <-> i ∉ ids L.
Proof using Type.
  intros H. rewrite <- not_elem_of_dom, elem_of_dom. split; intros Hn Hi; apply Hn.
  - apply list_elem_of_fmap in Hi as (e & -> & [k He]%list_elem_of_lookup). exists k. apply H. by exists e.
  - destruct Hi as [k (e & He & <-)%H]. apply list_elem_of_fmap_2, (list_elem_of_lookup_2 _ _ _ He).
Qed.

Lemma index_snoc L m e : index L m -> Exprs.id e ∉ ids L -> index (L ++ [e]) (<[Exprs.id e := length L]> m).
Proof using Type.
  intros H He i k. destruct (decide (i = Exprs.id e)) as [->|Hne].
  - rewrite lookup_insert_eq. split; [intros [= <-]; exists e; by rewrite list_lookup_middle|].
    intros (x & Hx & Hid). apply lookup_app_Some in Hx as [Hx|[Hk Hx]].
    + destruct He. rewrite <- Hid. apply list_elem_of_fmap_2, (list_elem_of_lookup_2 _ _ _ Hx).
    + apply list_lookup_singleton_Some in Hx as [Hx _]. f_equal. lia.
  - rewrite lookup_insert_ne, (H i k) by done. split; intros (x & Hx & Hid); exists x; (split; [|done]).
    + by apply lookup_app_l_Some.
    + apply lookup_app_Some in Hx as [Hx|[_ Hx]]; [done|]. apply list_lookup_singleton_Some in Hx as [_ ->]. done.
Qed.

Lemma SerExprUnit_run e L s : node_ok e -> state_of L s ->
  Forall (fun a => sort_ok (Exprs.sort a) = true) (Exprs.args e) ->
  exists j s', SerExprUnit e s = Ok (j, s') /\ state_of (add e L) s'.
Proof using Type.
  intros Hok [Hi Hf He Hfn] Ha. unfold SerExprUnit, add. cbv [mbind ST_bind get].
  destruct (id_idx_map_ s !! Exprs.id e) as [k|] eqn:E.
  - pose proof E as (x & Hx & Hid)%Hi. rewrite decide_True.
    + unfold lift. rewrite He, arr_at, list_lookup_fmap, Hx by (by rewrite list_lookup_fmap, Hx). cbn. by eexists _, s.
    + rewrite <- Hid. apply list_elem_of_fmap_2, (list_elem_of_lookup_2 _ _ _ Hx).
  - apply (index_None _ _ _ Hi) in E. rewrite decide_False by done.
    cbn [lift mbind Res_bind object emplace put].
    rewrite (ser_fields_run e s _ Hok Hf Hfn Ha). cbn -[expr_json arr push_back].
    rewrite He, arr_push. cbn -[expr_json arr]. eexists _, _. split; [done|].
    split; cbn -[expr_json arr]; [|done|by rewrite fmap_app|].
    + rewrite He, arr_elements, length_fmap. by apply index_snoc.
    + rewrite omap_app, fmap_app. unfold fn_list. cbn. by destruct (node_fn e).
Qed.

(** ** The nodes under an expression, arguments first *)
Fixpoint post (e : Expr) : list Expr :=
  match e with ExprOp _ _ _ args _ => flat_map post args ++ [e] | _ => [e] end.

Lemma post_unfold e : post e = flat_map post (Exprs.args e) ++ [e].
Proof using Type. by destruct e. Qed.

Lemma elem_flat_map {A B} (f : A -> list B) l b : b ∈ flat_map f l <-> exists a, a ∈ l /\ b ∈ f a.
Proof using Type.
  rewrite list_elem_of_In, in_flat_map. setoid_rewrite <- list_elem_of_In. done.
Qed.
Lemma Forall_flat_map {A B} (P : B -> Prop) (f : A -> list B) l :
  Forall P (flat_map f l) <-> Forall (fun a => Forall P (f a)) l.
Proof using Type.
  induction l as [|a l IH]; cbn; [by rewrite !Forall_nil|]. by rewrite Forall_app, Forall_cons, IH.
Qed.

Definition all_nodes (e : Expr) : Prop := Forall node_ok (post e).

Lemma all_nodes_inv e : all_nodes e -> node_ok e /\ Forall all_nodes (Exprs.args e).
Proof using Type.
  unfold all_nodes. rewrite post_unfold, Forall_app, Forall_singleton, Forall_flat_map. tauto.
Qed.
Lemma all_nodes_sort e : all_nodes e -> sort_ok (Exprs.sort e) = true.
Proof using Type. intros [(_ & H & _) _]%all_nodes_inv. exact H. Qed.

Definition adds (L : list Expr) (es : list Expr) : list Expr := foldl (fun L e => add e L) L es.

Lemma adds_app L es es' : adds L (es ++ es') = adds (adds L es) es'.
Proof using Type. apply foldl_app. Qed.

Lemma adds_ids L es i : i ∈ ids (adds L es) <-> i ∈ ids L \/ i ∈ ids es.
Proof using Type.
  revert L. induction es as [|e es IH]; intros L; cbn; [rewrite elem_of_nil; tauto|].
  rewrite (IH (add e L)), elem_of_cons. unfold add.
  destruct (decide (Exprs.id e ∈ ids L)) as [Hd|Hd]; [naive_solver|].
  rewrite fmap_app, elem_of_app. cbn. rewrite list_elem_of_singleton. tauto.
Qed.

Lemma ser_visit_run e : all_nodes e -> forall L s, state_of L s ->
  exists s', Exprs.DepthFirstVisit (fun x s => '(_, s) ← SerExprUnit x s; Ok s) e s = Ok s' /\
    state_of (adds L (post e)) s'.
Proof using Type.
  induction e as [e IH] using Expr_args_ind. intros He L s Hs.
  pose proof He as [Hn Ha]%all_nodes_inv. rewrite DepthFirstVisit_unfold.
  assert (Hl : forall es L s, Forall (fun e => all_nodes e -> forall L s, state_of L s ->
      exists s', Exprs.DepthFirstVisit (fun x s => '(_, s) ← SerExprUnit x s; Ok s) e s = Ok s' /\
        state_of (adds L (post e)) s') es -> Forall all_nodes es -> state_of L s ->
    exists s', foldM (Exprs.DepthFirstVisit (fun x s => '(_, s) ← SerExprUnit x s; Ok s)) es s = Ok s' /\
      state_of (adds L (flat_map post es)) s').
  { clear. induction es as [|e es IH]; intros L s Hi Ha Hs; [by exists s|].
    apply Forall_cons in Hi as [He Hi]. apply Forall_cons in Ha as [Hae Ha].
    destruct (He Hae L s Hs) as (s1 & E1 & H1). destruct (IH _ s1 Hi Ha H1) as (s2 & E2 & H2).
    exists s2. cbn [foldM flat_map]. rewrite E1, adds_app. done. }
  destruct (Hl _ L s IH Ha Hs) as (s1 & E1 & H1). rewrite E1. cbn [mbind Res_bind].
  destruct (SerExprUnit_run e _ s1 Hn H1) as (j & s2 & E2 & H2).
  { eapply Forall_impl; [exact Ha|]. apply all_nodes_sort. }
  exists s2. rewrite E2. split; [done|]. by rewrite post_unfold, adds_app.
Qed.

Lemma expr_json_id e : at_key (expr_json e) "i" = Ok (id_json (Exprs.id e)).
Proof using Type. destruct e as [| |h op [f|] args ps]; reflexivity. Qed.

Lemma ser_id_run e L s : all_nodes e -> state_of L s ->
  exists s', ser_id (Some e) s = Ok (id_json (Exprs.id e), s') /\ state_of (adds L (post e)) s'.
Proof using Type.
  intros He Hs. destruct (ser_visit_run e He L s Hs) as (s' & E & Hs'). exists s'. split; [|done].
  destruct Hs' as [Hi _ He' _].
  assert (Hin : Exprs.id e ∈ ids (adds L (post e))).
  { apply adds_ids. right. rewrite post_unfold, fmap_app. apply elem_of_app. right. by left. }
  destruct (id_idx_map_ s' !! Exprs.id e) as [k|] eqn:Ek; [|by apply (index_None _ _ _ Hi) in Ek].
  pose proof Ek as (x & Hx & Hid)%Hi.
  assert (Hr : SerExpr (Some e) s = Ok (expr_json x, s')).
  { unfold SerExpr. rewrite (lift_bind_run _ _ _ e), (ST_bind_run get _ s s s) by done.
    rewrite (lift_bind_run _ _ _ _ E), (ST_bind_run (modify _) _ s () s') by done. rewrite Ek.
    rewrite (lift_bind_run _ _ _ ()), (lift_bind_run _ _ _ k) by done. unfold lift.
    by rewrite He', arr_at, list_lookup_fmap, Hx by (by rewrite list_lookup_fmap, Hx). }
  unfold ser_id. rewrite (ST_bind_run _ _ _ _ _ Hr), (lift_bind_run _ _ _ (Exprs.id e)); [done|].
  rewrite expr_json_id. cbn [mbind Res_bind]. unfold id_json. rewrite Hid. apply get_id_uint.
  by apply all_nodes_inv in He as [[]].
Qed.

Lemma ser_ids_loop es vs : forall L s, Forall all_nodes es -> state_of L s ->
  exists s', foldM (fun e j => i ← ser_id (Some e); lift (push_back j i)) es (JArr vs) s =
      Ok (JArr (vs ++ (id_json <$> ids es)), s') /\
    state_of (adds L (flat_map post es)) s'.
Proof using Type.
  revert vs. induction es as [|e es IH]; intros vs L s Ha Hs.
  - exists s. cbn. by rewrite app_nil_r.
  - apply Forall_cons in Ha as [He Ha]. destruct (ser_id_run e L s He Hs) as (s1 & E1 & H1).
    destruct (IH (vs ++ [id_json (Exprs.id e)]) _ s1 Ha H1) as (s2 & E2 & H2). exists s2. split.
    + cbn [foldM]. rewrite (ST_bind_run _ _ _ (JArr (vs ++ [id_json (Exprs.id e)])) s1).
      * rewrite E2. by rewrite <- app_assoc.
      * by rewrite (ST_bind_run _ _ _ _ _ E1).
    + cbn [flat_map]. by rewrite adds_app.
Qed.
Lemma ser_ids_run es L s : Forall all_nodes es -> state_of L s ->
  exists s', ser_ids es s = Ok (JArr (id_json <$> ids es), s') /\ state_of (adds L (flat_map post es)) s'.
Proof using Type. apply (ser_ids_loop es []). Qed.

(** ** Instructions *)

(** The next value of a state that is written: the state itself when the
    instruction does not update it. *)
Definition next_of (x : Instr) (s : Expr) : Expr := default s (Instrs.update_state x s).
Definition instr_roots (l : InstrLvlAbs) (x : Instr) : list Expr :=
  option_list (decode_ x) ++ (next_of x <$> KeyVec.vec_ (states_ l)).

Definition put_next (x : Instr) (s : Expr) (j : json) : Res json :=
  emplace j (Exprs.name s) (id_json (Exprs.id (next_of x s))).
Definition upd_json (l : InstrLvlAbs) (x : Instr) : json :=
  match foldM (put_next x) (KeyVec.vec_ (states_ l)) object with Ok j => j | Fail _ => JNull end.
Definition opt_id (e : option Expr) : json := match e with Some e => id_json (Exprs.id e) | None => JNull end.
Definition instr_json (l : InstrLvlAbs) (x : Instr) : json :=
  JObj [("d", opt_id (decode_ x)); ("n", JStr (i_name x)); ("u", upd_json l x)].

Lemma upd_json_run l x : NoDup (Exprs.name <$> KeyVec.vec_ (states_ l)) -> exists o,
  upd_json l x = JObj o /\ foldM (put_next x) (KeyVec.vec_ (states_ l)) object = Ok (JObj o) /\
  forall s, s ∈ KeyVec.vec_ (states_ l) -> assoc (Exprs.name s) o = Some (id_json (Exprs.id (next_of x s))).
Proof using Type.
  intros Hn. destruct (emplaces Exprs.name (fun s => id_json (Exprs.id (next_of x s)))
    (KeyVec.vec_ (states_ l)) [] Hn) as (o & E & H & _); [done|].
  exists o. unfold upd_json, object, put_next. by rewrite E.
Qed.

Lemma ser_updates_run x es j j' : forall L s, Forall all_nodes (next_of x <$> es) -> state_of L s ->
  foldM (put_next x) es j = Ok j' ->
  exists s', foldM (ser_update x) es j s = Ok (j', s') /\
    state_of (adds L (flat_map post (next_of x <$> es))) s'.
Proof using Type.
  revert j. induction es as [|e es IH]; intros j L s Ha Hs E.
  - cbn in E. injection E as <-. by exists s.
  - cbn in Ha. apply Forall_cons in Ha as [He Ha]. cbn [foldM] in E.
    destruct (put_next x e j) as [j1|] eqn:E1; [|done]. cbn [mbind Res_bind] in E.
    destruct (ser_id_run _ L s He Hs) as (s1 & R1 & H1).
    destruct (IH j1 _ s1 Ha H1 E) as (s2 & R2 & H2). exists s2. split.
    + cbn [foldM]. rewrite (ST_bind_run _ _ _ j1 s1); [done|]. unfold ser_update.
      replace (match Instrs.update_state x e with Some e0 => Some e0 | None => Some e end)
        with (Some (next_of x e)) by (unfold next_of; by destruct (Instrs.update_state x e)).
      rewrite (ST_bind_run _ _ _ _ _ R1). unfold put_next in E1. unfold lift. by rewrite E1.
    + cbn [fmap list_fmap flat_map]. by rewrite adds_app.
Qed.

(** ** Hierarchies

    A hierarchy as a tree of its ILAs, each with the records of its
    instructions. *)
Record entry := { en_id : objid; en_ila : InstrLvlAbs; en_instrs : list Instr }.
Inductive tree := Node (n : entry) (cs : list tree).

Definition root (t : tree) : entry := let 'Node n _ := t in n.
Definition subs (t : tree) : list tree := let 'Node _ cs := t in cs.
Fixpoint entries (t : tree) : list entry := let 'Node n cs := t in n :: flat_map entries cs.

Definition node_roots (n : entry) : list Expr :=
  let l := en_ila n in
  KeyVec.vec_ (inputs_ l) ++ KeyVec.vec_ (states_ l) ++ option_list (fetch_ l) ++
  option_list (valid_ l) ++ flat_map (instr_roots l) (en_instrs n) ++ inits_ l.
Fixpoint roots (t : tree) : list Expr := let 'Node n cs := t in node_roots n ++ flat_map roots cs.

Definition id_arr (es : list Expr) : json := JArr (id_json <$> ids es).
Definition ila_json (n : entry) (cs : list json) : json :=
  let l := en_ila n in
  JObj (("c", JArr cs) :: match fetch_ l with Some e => [("f", id_json (Exprs.id e))] | None => [] end ++
        [("i", id_arr (KeyVec.vec_ (inputs_ l))); ("init", id_arr (inits_ l));
         ("instr", JArr (instr_json l <$> en_instrs n)); ("n", JStr (l_name l));
         ("s", id_arr (KeyVec.vec_ (states_ l))); ("v", opt_id (valid_ l))]).
Fixpoint tree_json (t : tree) : json := let 'Node n cs := t in ila_json n (map tree_json cs).

(** What the serializer needs of an ILA. *)
Record writable (n : entry) : Prop := {
  wr_valid : is_Some (valid_ (en_ila n));
  wr_names : NoDup (Exprs.name <$> KeyVec.vec_ (states_ (en_ila n)));
  wr_instrs : Forall (fun x => is_Some (decode_ x) /\ i_host x = Some (en_id n)) (en_instrs n);
  wr_nodes : Forall all_nodes (node_roots n) }.

Section ilas.
Context (W : World).

(** The objects of the tree are those of the store. *)
Fixpoint stored (t : tree) : Prop :=
  let 'Node n cs := t in
  w_ilas W !! en_id n = Some (en_ila n) /\
  Forall2 (fun i x => w_instrs W !! i = Some x) (KeyVec.vec_ (instrs_ (en_ila n))) (en_instrs n) /\
  KeyVec.vec_ (childs_ (en_ila n)) = (fun c => en_id (root c)) <$> cs /\
  (fix go cs := match cs with [] => True | c :: cs => stored c /\ go cs end) cs.

Lemma stored_unfold n cs : stored (Node n cs) <->
  w_ilas W !! en_id n = Some (en_ila n) /\
  Forall2 (fun i x => w_instrs W !! i = Some x) (KeyVec.vec_ (instrs_ (en_ila n))) (en_instrs n) /\
  KeyVec.vec_ (childs_ (en_ila n)) = (fun c => en_id (root c)) <$> cs /\ Forall stored cs.
Proof using Type.
  cbn [stored]. assert (E : (fix go cs := match cs with [] => True | c :: cs => stored c /\ go cs end) cs <->
    Forall stored cs); [|tauto].
  induction cs as [|c cs IH]; [by rewrite Forall_nil|]. rewrite Forall_cons. tauto.
Qed.

Lemma SerInstr_run n i x L s : w_ilas W !! en_id n = Some (en_ila n) -> w_instrs W !! i = Some x ->
  is_Some (decode_ x) -> i_host x = Some (en_id n) ->
  NoDup (Exprs.name <$> KeyVec.vec_ (states_ (en_ila n))) ->
  Forall all_nodes (instr_roots (en_ila n) x) -> state_of L s ->
  exists s', SerInstr W i s = Ok (instr_json (en_ila n) x, s') /\
    state_of (adds L (flat_map post (instr_roots (en_ila n) x))) s'.
Proof using Type.
  intros Hl Hx [d Hd] Hh Hn Ha Hs. unfold instr_roots in Ha. rewrite Hd in Ha.
  apply Forall_cons in Ha as [Had Ha]. destruct (upd_json_run (en_ila n) x Hn) as (o & Eo & Ef & _).
  destruct (ser_id_run d L s Had Hs) as (s1 & E1 & H1).
  destruct (ser_updates_run x _ _ _ _ s1 Ha H1 Ef) as (s2 & E2 & H2). exists s2. split.
  - unfold SerInstr. rewrite Hx. erewrite (lift_bind_run _ _ _ x), lift_bind_run by reflexivity.
    rewrite Hd. rewrite (ST_bind_run _ _ _ _ _ E1). erewrite lift_bind_run by reflexivity.
    rewrite (lift_bind_run _ _ _ (en_ila n)) by (rewrite Hh; cbn; by rewrite Hl).
    rewrite (ST_bind_run _ _ _ _ _ E2). unfold instr_json. by rewrite Eo, Hd.
  - unfold instr_roots. rewrite Hd. change (state_of (adds L (post d ++ flat_map post (next_of x <$> KeyVec.vec_ (states_ (en_ila n))))) s2).
    by rewrite adds_app.
Qed.

Lemma ser_instrs_run n is_ xs vs : forall L s, w_ilas W !! en_id n = Some (en_ila n) ->
  Forall2 (fun i x => w_instrs W !! i = Some x) is_ xs ->
  NoDup (Exprs.name <$> KeyVec.vec_ (states_ (en_ila n))) ->
  Forall (fun x => is_Some (decode_ x) /\ i_host x = Some (en_id n)) xs ->
  Forall all_nodes (flat_map (instr_roots (en_ila n)) xs) -> state_of L s ->
  exists s', foldM (fun i j => x ← SerInstr W i; lift (push_back j x)) is_ (JArr vs) s =
      Ok (JArr (vs ++ (instr_json (en_ila n) <$> xs)), s') /\
    state_of (adds L (flat_map post (flat_map (instr_roots (en_ila n)) xs))) s'.
Proof using Type.
  intros L s Hl Hx Hn. revert vs L s. induction Hx as [|i x is_ xs Hi _ IH]; intros vs L s Hd Ha Hs.
  - exists s. cbn. by rewrite app_nil_r.
  - apply Forall_cons in Hd as [[Hdx Hh] Hd]. cbn [flat_map] in Ha. apply Forall_app in Ha as [Hax Ha].
    destruct (SerInstr_run n i x L s Hl Hi Hdx Hh Hn Hax Hs) as (s1 & E1 & H1).
    destruct (IH (vs ++ [instr_json (en_ila n) x]) _ s1 Hd Ha H1) as (s2 & E2 & H2). exists s2. split.
    + cbn [foldM]. rewrite (ST_bind_run _ _ _ (JArr (vs ++ [instr_json (en_ila n) x])) s1).
      * rewrite E2. by rewrite <- app_assoc.
      * by rewrite (ST_bind_run _ _ _ _ _ E1).
    + cbn [flat_map]. by rewrite flat_map_app, adds_app.
Qed.

(** An optional field of the ILA. *)
Lemma ser_opt_run (e : option Expr) k j j' L s : Forall all_nodes (option_list e) -> state_of L s ->
  match e with Some e => emplace j k (id_json (Exprs.id e)) | None => Ok j end = Ok j' ->
  exists s', (if is_some e then i ← ser_id e; lift (emplace j k i) else mret j) s = Ok (j', s') /\
    state_of (adds L (flat_map post (option_list e))) s'.
Proof using Type.
  destruct e as [e|]; intros Ha Hs E; [|injection E as <-; by exists s].
  apply Forall_inv in Ha. destruct (ser_id_run e L s Ha Hs) as (s1 & E1 & H1). exists s1. split.
  - cbn [is_some]. rewrite (ST_bind_run _ _ _ _ _ E1). unfold lift. by rewrite E.
  - change (state_of (adds L (post e ++ [])) s1). by rewrite app_nil_r.
Qed.

Lemma SerNoAst_run k : forall t L s, (length (entries t) <= k)%nat -> stored t ->
  Forall writable (entries t) -> state_of L s ->
  exists s', SerInstrLvlAbsNoAst W k (en_id (root t)) s = Ok (tree_json t, s') /\
    state_of (adds L (flat_map post (roots t))) s'.
Proof using Type.
  induction k as [|k IH]; intros [n cs] L s Hk Hst Hw Hs; [cbn in Hk; lia|].
  apply stored_unfold in Hst as (Hl & Hx & Hcs & Hst). cbn [entries length] in Hw, Hk.
  apply Forall_cons in Hw as [[[v Hv] Hn Hi Ha] Hw]. unfold node_roots in Ha. rewrite !Forall_app in Ha.
  destruct Ha as (Ha1 & Ha2 & Ha3 & Ha4 & Ha5 & Ha6). rewrite Hv in Ha4. apply Forall_inv in Ha4.
  assert (Hloop : forall cs vs L s, (length (flat_map entries cs) <= k)%nat -> Forall stored cs ->
    Forall writable (flat_map entries cs) -> state_of L s ->
    exists s', foldM (fun c j => x ← SerInstrLvlAbsNoAst W k c; lift (push_back j x))
        ((fun c => en_id (root c)) <$> cs) (JArr vs) s = Ok (JArr (vs ++ (tree_json <$> cs)), s') /\
      state_of (adds L (flat_map post (flat_map roots cs))) s').
  { clear -IH. induction cs as [|c cs IHc]; intros vs L s Hk Hst Hw Hs.
    - exists s. cbn. by rewrite app_nil_r.
    - cbn [flat_map] in *. rewrite length_app in Hk. apply Forall_cons in Hst as [Hsc Hst].
      apply Forall_app in Hw as [Hwc Hw].
      destruct (IH c L s ltac:(lia) Hsc Hwc Hs) as (s1 & E1 & H1).
      destruct (IHc (vs ++ [tree_json c]) _ s1 ltac:(lia) Hst Hw H1) as (s2 & E2 & H2). exists s2. split.
      + cbn [fmap list_fmap foldM]. rewrite (ST_bind_run _ _ _ (JArr (vs ++ [tree_json c])) s1).
        * unfold fmap in E2 |- *. rewrite E2. by rewrite <- app_assoc.
        * by rewrite (ST_bind_run _ _ _ _ _ E1).
      + by rewrite flat_map_app, adds_app. }
  destruct (ser_ids_run _ L s Ha1 Hs) as (s1 & E1 & H1).
  destruct (ser_ids_run _ _ s1 Ha2 H1) as (s2 & E2 & H2).
  set (j2 := JObj [("i", id_arr (KeyVec.vec_ (inputs_ (en_ila n)))); ("n", JStr (l_name (en_ila n)));
                   ("s", id_arr (KeyVec.vec_ (states_ (en_ila n))))]).
  set (j3 := JObj (match fetch_ (en_ila n) with Some e => [("f", id_json (Exprs.id e))] | None => [] end ++
               [("i", id_arr (KeyVec.vec_ (inputs_ (en_ila n)))); ("n", JStr (l_name (en_ila n)));
                ("s", id_arr (KeyVec.vec_ (states_ (en_ila n))))])).
  destruct (ser_opt_run (fetch_ (en_ila n)) "f" j2 j3 _ s2 Ha3 H2) as (s3 & E3 & H3);
    [subst j2 j3; by destruct (fetch_ (en_ila n))|].
  destruct (ser_id_run v _ s3 Ha4 H3) as (s4 & E4 & H4).
  destruct (ser_instrs_run n _ _ [] _ s4 Hl Hx Hn Hi Ha5 H4) as (s5 & E5 & H5).
  destruct (ser_ids_run _ _ s5 Ha6 H5) as (s6 & E6 & H6).
  destruct (Hloop cs [] _ s6 ltac:(lia) Hst Hw H6) as (s7 & E7 & H7). exists s7. split.
  - cbn [SerInstrLvlAbsNoAst root]. rewrite Hl. do 2 (erewrite lift_bind_run by reflexivity).
    rewrite (ST_bind_run _ _ _ _ _ E1). erewrite lift_bind_run by reflexivity.
    rewrite (ST_bind_run _ _ _ _ _ E2). erewrite lift_bind_run by reflexivity.
    rewrite (ST_bind_run _ _ _ _ _ E3). rewrite Hv, (ST_bind_run _ _ _ _ _ E4). subst j3.
    rewrite Hcs. destruct (fetch_ (en_ila n)) eqn:Ef.
    all: erewrite lift_bind_run by reflexivity; rewrite (ST_bind_run _ _ _ _ _ E5).
    all: erewrite lift_bind_run by reflexivity; rewrite (ST_bind_run _ _ _ _ _ E6).
    all: erewrite lift_bind_run by reflexivity; rewrite (ST_bind_run _ _ _ _ _ E7).
    all: cbn [tree_json ila_json]; unfold ila_json; rewrite Ef, Hv; reflexivity.
  - cbn [roots]. unfold node_roots. rewrite Hv, !flat_map_app, !adds_app.
    change (flat_map post (option_list (Some v))) with (post v ++ []). by rewrite app_nil_r.
Qed.
End ilas.

(** ** The table of expressions *)
Definition table (t : tree) : list Expr := adds [] (flat_map post (roots t)).

Lemma adds_sub L es x : x ∈ adds L es -> x ∈ L \/ x ∈ es.
Proof using Type.
  revert L. induction es as [|e es IH]; intros L; cbn; [by left|]. intros [H|H]%(IH (add e L)).
  - unfold add in H. destruct (decide _); [by left|]. apply elem_of_app in H as [H|H%list_elem_of_singleton]; [by left|].
    right. subst. by left.
  - right. by right.
Qed.

Lemma adds_mono L es x : x ∈ L -> x ∈ adds L es.
Proof using Type.
  revert L. induction es as [|e es IH]; intros L; cbn; [done|]. intros H. apply (IH (add e L)).
  unfold add. destruct (decide _); [done|]. apply elem_of_app. by left.
Qed.

Lemma add_NoDup e L : NoDup (ids L) -> NoDup (ids (add e L)).
Proof using Type.
  unfold add. destruct (decide _) as [|Hd]; [done|]. intros H. rewrite fmap_app. apply NoDup_app.
  split; [done|]. split; [|apply NoDup_singleton]. intros i Hi ->%list_elem_of_singleton. by apply Hd.
Qed.
Lemma adds_NoDup L es : NoDup (ids L) -> NoDup (ids (adds L es)).
Proof using Type.
  revert L. induction es as [|e es IH]; intros L H; cbn; [done|]. by apply (IH (add e L)), add_NoDup.
Qed.

Lemma adds_absorb L es : (forall e, e ∈ es -> Exprs.id e ∈ ids L) -> adds L es = L.
Proof using Type.
  induction es as [|e es IH]; intros H; [done|]. cbn. unfold add at 2. rewrite decide_True by (apply H; by left).
  apply IH. intros; apply H; by right.
Qed.

Lemma adds_new L es : NoDup (ids (L ++ es)) -> adds L es = L ++ es.
Proof using Type.
  revert L. induction es as [|e es IH]; intros L H; cbn; [by rewrite app_nil_r|].
  assert (Ha : add e L = L ++ [e]).
  { unfold add. rewrite decide_False; [done|]. rewrite fmap_app in H. apply NoDup_app in H as (_ & H & _).
    intros Hi. apply (H _ Hi). by left. }
  change (adds (add e L) es = L ++ e :: es). rewrite Ha, IH; [by rewrite <- app_assoc|]. by rewrite <- app_assoc.
Qed.

Lemma adds_filter (I : list objid) L es :
  filter (fun x => Exprs.id x ∈ I) (adds L es) =
  adds (filter (fun x => Exprs.id x ∈ I) L) (filter (fun x => Exprs.id x ∈ I) es).
Proof using Type.
  revert L. induction es as [|e es IH]; intros L; [done|]. cbn [adds foldl].
  change (foldl (fun L e => add e L) (add e L) es) with (adds (add e L) es). rewrite IH, filter_cons.
  assert (Ha : filter (fun x => Exprs.id x ∈ I) (add e L) =
    if decide (Exprs.id e ∈ I) then add e (filter (fun x => Exprs.id x ∈ I) L)
    else filter (fun x => Exprs.id x ∈ I) L).
  { unfold add. destruct (decide (Exprs.id e ∈ I)) as [He|He], (decide (Exprs.id e ∈ ids L)) as [Hi|Hi].
    - rewrite decide_True; [done|]. apply list_elem_of_fmap in Hi as (y & Hy & Hin). rewrite Hy.
      apply list_elem_of_fmap_2, list_elem_of_filter. by rewrite <- Hy.
    - rewrite decide_False, filter_app, filter_cons_True by (done || intros (y & Hy & Hin)%list_elem_of_fmap;
        apply Hi; rewrite Hy; apply list_elem_of_fmap_2; by apply list_elem_of_filter in Hin as [_ ?]).
      by rewrite filter_nil.
    - done.
    - by rewrite filter_app, filter_cons_False, filter_nil, app_nil_r. }
  rewrite Ha. by destruct (decide (Exprs.id e ∈ I)).
Qed.

Section coherent.
(** Equal ids mean equal nodes. *)
Context (T : gmap objid Expr).
Definition coherent (es : list Expr) : Prop := Forall (fun x => T !! Exprs.id x = Some x) es.

Lemma coherent_eq es x y : coherent es -> x ∈ es -> y ∈ es -> Exprs.id x = Exprs.id y -> x = y.
Proof using Type. intros H Hx Hy E. unfold coherent in H. rewrite Forall_forall in H. apply H in Hx, Hy. congruence. Qed.

Lemma adds_coherent L es : coherent L -> coherent es -> coherent (adds L es).
Proof using Type.
  unfold coherent. rewrite !Forall_forall. intros H1 H2 x [?|?]%adds_sub; auto.
Qed.

Lemma adds_elem L es x : coherent L -> coherent es -> x ∈ adds L es <-> x ∈ L \/ x ∈ es.
Proof using Type.
  intros H1 H2. split; [apply adds_sub|]. intros Hx.
  assert (Hi : Exprs.id x ∈ ids (adds L es)) by (rewrite adds_ids; destruct Hx; [left|right]; by apply list_elem_of_fmap_2).
  apply list_elem_of_fmap in Hi as (y & E & Hy). pose proof (adds_coherent _ _ H1 H2) as Hc.
  assert (x = y) as ->; [|done]. unfold coherent in *. rewrite Forall_forall in H1, H2, Hc. apply Hc in Hy.
  destruct Hx as [Hx|Hx]; [apply H1 in Hx|apply H2 in Hx]; congruence.
Qed.

(** Every node comes after its arguments. *)
Definition closed (L : list Expr) : Prop :=
  forall L1 x L2, L = L1 ++ x :: L2 -> forall a, a ∈ Exprs.args x -> a ∈ L1.

Lemma closed_snoc L e : closed L -> (forall a, a ∈ Exprs.args e -> a ∈ L) -> closed (L ++ [e]).
Proof using Type.
  intros HL He L1 x L2 E a Ha. destruct L2 as [|y L2 _] using rev_ind.
  - apply app_inj_tail in E as [-> ->]. by apply He.
  - rewrite app_comm_cons, app_assoc in E. apply app_inj_tail in E as [-> ->]. by eapply HL.
Qed.

Lemma closed_post e L : coherent (post e) -> coherent L -> closed L -> closed (adds L (post e)).
Proof using Type.
  revert L. induction e as [e IH] using Expr_args_ind. intros L He HL Hc.
  rewrite post_unfold in He |- *. unfold coherent in He. apply Forall_app in He as [Ha He]. rewrite adds_app.
  assert (Hl : forall es L, Forall (fun e => forall L, coherent (post e) -> coherent L -> closed L ->
      closed (adds L (post e))) es -> coherent (flat_map post es) -> coherent L -> closed L ->
      closed (adds L (flat_map post es))).
  { clear. induction es as [|e es IH]; intros L Hi He HL Hc; [done|]. cbn in *.
    apply Forall_cons in Hi as [Hie Hi]. unfold coherent in He. apply Forall_app in He as [He Hes].
    rewrite adds_app. apply IH; [done|done|by apply adds_coherent|by apply Hie]. }
  pose proof (Hl _ L IH Ha HL Hc) as Hc'. cbn. unfold add. destruct (decide _); [done|].
  apply closed_snoc; [done|]. intros a Hin. apply adds_elem; [done|done|]. right. apply elem_flat_map.
  exists a. split; [done|]. rewrite post_unfold. apply elem_of_app. right. by left.
Qed.

Lemma table_closed es : coherent (flat_map post es) -> closed (adds [] (flat_map post es)).
Proof using Type.
  assert (Hl : forall L, coherent (flat_map post es) -> coherent L -> closed L -> closed (adds L (flat_map post es))).
  { induction es as [|e es IH]; intros L He HL Hc; [done|]. cbn in *.
    unfold coherent in He. apply Forall_app in He as [He Hes].
    rewrite adds_app. apply IH; [done|by apply adds_coherent|by apply closed_post]. }
  intros H. apply Hl; [done|constructor|]. intros [] ? ?; discriminate.
Qed.
End coherent.

(** ** The variables of a hierarchy *)
Section tree_ind.
Context (P : tree -> Prop) (H : forall n cs, Forall P cs -> P (Node n cs)).
Fixpoint tree_ind' (t : tree) : P t :=
  match t with
  | Node n cs => H n cs ((fix go cs : Forall P cs :=
      match cs with [] => Forall_nil_2 _ | c :: cs => Forall_cons_2 _ _ _ (tree_ind' c) (go cs) end) cs)
  end.
End tree_ind.

Lemma flat_map_flat_map {A B C} (f : B -> list C) (g : A -> list B) l :
  flat_map f (flat_map g l) = flat_map (fun a => flat_map f (g a)) l.
Proof using Type. induction l as [|a l IH]; [done|]. cbn. by rewrite flat_map_app, IH. Qed.
Lemma flat_map_ext_Forall {A B} (f g : A -> list B) l : Forall (fun a => f a = g a) l -> flat_map f l = flat_map g l.
Proof using Type. induction 1 as [|a l E _ IH]; [done|]. cbn. by rewrite E, IH. Qed.

Lemma roots_entries t : roots t = flat_map node_roots (entries t).
Proof using Type.
  induction t as [n cs IH] using tree_ind'. cbn [roots entries flat_map]. f_equal.
  rewrite flat_map_flat_map. by apply flat_map_ext_Forall.
Qed.

Abbreviation tbl := IlaVars.tbl.
Definition tvars (l : InstrLvlAbs) : list Expr := KeyVec.vec_ (inputs_ l) ++ KeyVec.vec_ (states_ l).

(** The variables an ILA adds to those of its parent. *)
Definition own (st : bool) (lp l : InstrLvlAbs) : list Expr :=
  drop (length (KeyVec.vec_ (tbl st lp))) (KeyVec.vec_ (tbl st l)).
Definition owns (p : InstrLvlAbs * entry) : list Expr :=
  own false p.1 (en_ila p.2) ++ own true p.1 (en_ila p.2).

(** The ILAs with their parents, in the order they are visited. *)
Fixpoint pentries (lp : InstrLvlAbs) (t : tree) : list (InstrLvlAbs * entry) :=
  let 'Node n cs := t in (lp, n) :: flat_map (pentries (en_ila n)) cs.

Lemma pentries_entries lp t : (pentries lp t).*2 = entries t.
Proof using Type.
  revert lp. induction t as [n cs IH] using tree_ind'. intros lp. cbn. f_equal.
  induction IH as [|c cs Hc _ IH]; [done|]. cbn. by rewrite fmap_app, IH, Hc.
Qed.

(** Declared variables are variables, those of the parent come first, and
    expressions use declared variables only. *)
Record scoped (lp : InstrLvlAbs) (n : entry) : Prop := {
  sc_inherit st : KeyVec.vec_ (tbl st (en_ila n)) = KeyVec.vec_ (tbl st lp) ++ own st lp (en_ila n);
  sc_vars v : v ∈ tvars (en_ila n) -> Exprs.is_var v = true;
  sc_uses x : x ∈ flat_map post (node_roots n) -> Exprs.is_var x = true -> x ∈ tvars (en_ila n) }.

Lemma tvars_tbl l v : v ∈ tvars l <-> exists st, v ∈ KeyVec.vec_ (tbl st l).
Proof using Type.
  unfold tvars. rewrite elem_of_app. split; [intros [H|H]; [by exists false|by exists true]|].
  intros [[] H]; [by right|by left].
Qed.
Lemma owns_own p v : v ∈ owns p <-> exists st, v ∈ own st p.1 (en_ila p.2).
Proof using Type.
  unfold owns. rewrite elem_of_app. split; [intros [H|H]; [by exists false|by exists true]|].
  intros [[] H]; [by right|by left].
Qed.

Lemma scoped_tvars lp n v : scoped lp n -> v ∈ tvars (en_ila n) -> v ∈ tvars lp \/ v ∈ owns (lp, n).
Proof using Type.
  intros Hs [st Hv]%tvars_tbl. rewrite (sc_inherit _ _ Hs) in Hv. apply elem_of_app in Hv as [Hv|Hv].
  - left. apply tvars_tbl. by exists st.
  - right. apply owns_own. by exists st.
Qed.

(** An inherited variable was declared by an ILA visited before. *)
Lemma inherited_before t : forall lp E1 lp' n E2, Forall (fun p => scoped p.1 p.2) (pentries lp t) ->
  pentries lp t = E1 ++ (lp', n) :: E2 -> forall v, v ∈ tvars lp' -> v ∈ tvars lp \/ v ∈ flat_map owns E1.
Proof using Type.
  induction t as [n0 cs IH] using tree_ind'. intros lp E1 lp' n E2 Hs E v Hv. cbn [pentries] in *.
  destruct E1 as [|p E1]; [left; cbn in E; injection E as <- <-; done|].
  cbn in E. injection E as <- E. apply Forall_cons in Hs as [Hs0 Hs]. cbn [fst snd] in Hs0.
  assert (Hc : v ∈ tvars (en_ila n0) \/ v ∈ flat_map owns E1).
  { revert E1 E. induction IH as [|c cs Hc _ IHc]; intros E1 E; [by destruct E1|]. cbn [flat_map] in *.
    apply Forall_app in Hs as [Hsc Hs]. apply app_eq_app in E as (k & [[E1' E]|[E1' E]]).
    - destruct k as [|q k].
      + cbn in E. rewrite app_nil_r in E1'. subst E1.
        destruct (IHc Hs [] ltac:(done)) as [?|?%elem_of_nil]; [by left|done].
      + cbn in E. injection E as <- E. eapply (Hc _ _ _ _ _ Hsc); [exact E1'|done].
    - subst E1. destruct (IHc Hs k E) as [?|Hk]; [by left|]. right. rewrite flat_map_app.
      apply elem_of_app. by right. }
  cbn [flat_map]. destruct Hc as [Hc|Hc].
  - destruct (scoped_tvars _ _ _ Hs0 Hc) as [?|?]; [by left|right; apply elem_of_app; by left].
  - right. apply elem_of_app. by right.
Qed.

Lemma tvars_before t E1 lp n E2 v : Forall (fun p => scoped p.1 p.2) (pentries (IlaOk.nil_ila "" None) t) ->
  pentries (IlaOk.nil_ila "" None) t = E1 ++ (lp, n) :: E2 -> v ∈ tvars lp -> v ∈ flat_map owns E1.
Proof using Type.
  intros Hs E Hv. destruct (inherited_before t _ _ _ _ _ Hs E v Hv) as [?%elem_of_nil|?]; done.
Qed.

Abbreviation top_ila := (IlaOk.nil_ila "" None).

Section declared.
Context (T : gmap objid Expr) (t : tree) (E1 E2 : list (InstrLvlAbs * entry)) (lp : InstrLvlAbs) (n : entry).
Hypothesis Hs : Forall (fun p => scoped p.1 p.2) (pentries top_ila t).
Hypothesis Hc : coherent T (flat_map post (roots t)).
Hypothesis Hd : NoDup (ids (flat_map owns (pentries top_ila t))).
Hypothesis HE : pentries top_ila t = E1 ++ (lp, n) :: E2.

Lemma roots_split : roots t = flat_map node_roots E1.*2 ++ node_roots n ++ flat_map node_roots E2.*2.
Proof using HE.
  rewrite roots_entries, <- (pentries_entries top_ila), HE, fmap_app, flat_map_app. done.
Qed.

Lemma owns_disjoint v x : v ∈ owns (lp, n) -> x ∈ flat_map owns E1 -> Exprs.id v <> Exprs.id x.
Proof using Hd HE.
  intros Hv Hx E. rewrite HE, flat_map_app, fmap_app in Hd. cbn in Hd. rewrite fmap_app in Hd.
  apply NoDup_app in Hd as (_ & H & _). apply (H (Exprs.id x)); [by apply list_elem_of_fmap_2|].
  apply elem_of_app. left. rewrite <- E. by apply list_elem_of_fmap_2.
Qed.

Lemma own_NoDup : NoDup (ids (owns (lp, n))).
Proof using Hd HE.
  rewrite HE, flat_map_app, fmap_app in Hd. cbn in Hd. rewrite fmap_app in Hd.
  apply NoDup_app in Hd as (_ & _ & H). by apply NoDup_app in H as (H & _).
Qed.

Lemma entry_scoped p : p ∈ pentries top_ila t -> scoped p.1 p.2.
Proof using Hs. rewrite Forall_forall in Hs. apply Hs. Qed.

Lemma tbl_roots st v : v ∈ KeyVec.vec_ (tbl st (en_ila n)) -> v ∈ flat_map post (roots t).
Proof using HE.
  intros Hv. apply elem_flat_map. exists v. split.
  - rewrite roots_split. apply elem_of_app. right. apply elem_of_app. left. unfold node_roots.
    destruct st; rewrite !elem_of_app; tauto.
  - rewrite post_unfold. apply elem_of_app. right. by left.
Qed.

Lemma own_tbl st v : v ∈ own st lp (en_ila n) -> v ∈ KeyVec.vec_ (tbl st (en_ila n)).
Proof using Type. intros Hv. unfold own in Hv. rewrite <- (take_drop (length (KeyVec.vec_ (tbl st lp)))). apply elem_of_app. by right. Qed.

Lemma here_scoped : scoped lp n.
Proof using Hs HE. apply (entry_scoped (lp, n)). rewrite HE. apply elem_of_app. right. by left. Qed.

Lemma filter_none (I : list objid) (es : list Expr) : (forall x, x ∈ es -> Exprs.id x ∉ I) ->
  filter (fun x => Exprs.id x ∈ I) es = [].
Proof using Type.
  induction es as [|e es IH]; intros H; [done|]. rewrite filter_cons_False by (apply H; by left).
  apply IH. intros; apply H; by right.
Qed.
Lemma filter_every (I : list objid) (es : list Expr) : (forall x, x ∈ es -> Exprs.id x ∈ I) ->
  filter (fun x => Exprs.id x ∈ I) es = es.
Proof using Type.
  induction es as [|e es IH]; intros H; [done|]. rewrite filter_cons_True by (apply H; by left).
  f_equal. apply IH. intros; apply H; by right.
Qed.

(** The variables of one table, among the visited nodes. *)
Lemma filter_tbl st b :
  filter (fun x => Exprs.id x ∈ ids (own st lp (en_ila n))) (KeyVec.vec_ (tbl b (en_ila n))) =
  if Bool.eqb b st then own st lp (en_ila n) else [].
Proof using Hs Hd HE.
  rewrite (sc_inherit _ _ here_scoped b), filter_app.
  rewrite filter_none; cbn [app].
  - destruct (Bool.eqb_spec b st) as [Hb|Hb]; [subst b; apply filter_every; intros; by apply list_elem_of_fmap_2|].
    apply filter_none. intros x Hx (v & Ev & Hv)%list_elem_of_fmap. pose proof own_NoDup as Hn.
    unfold owns in Hn. cbn [fst snd] in Hn. rewrite fmap_app in Hn. apply NoDup_app in Hn as (_ & Hn & _).
    destruct b, st; try done; eapply Hn.
    1: by apply list_elem_of_fmap_2, Hv. 1: rewrite <- Ev; by apply list_elem_of_fmap_2.
    1: by apply list_elem_of_fmap_2, Hx. rewrite Ev; by apply list_elem_of_fmap_2.
  - intros x Hx (v & Ev & Hv)%list_elem_of_fmap. apply (owns_disjoint v x).
    + apply owns_own. by exists st.
    + eapply (tvars_before t E1 lp n E2); [done..|]. apply tvars_tbl. by exists b.
    + done.
Qed.

Lemma post_vars st : flat_map post (KeyVec.vec_ (tbl st (en_ila n))) = KeyVec.vec_ (tbl st (en_ila n)).
Proof using Hs HE.
  assert (H : Forall (fun v => Exprs.is_var v = true) (KeyVec.vec_ (tbl st (en_ila n)))).
  { apply Forall_forall. intros v Hv. apply (sc_vars _ _ here_scoped), tvars_tbl. by exists st. }
  induction H as [|v vs Hv _ IH]; [done|]. cbn. by destruct v; cbn in *; rewrite ?IH.
Qed.

(** In the table, the own variables of an ILA are listed in the order in which
    the ILA lists them. *)
Lemma table_own st :
  filter (fun x => Exprs.id x ∈ ids (own st lp (en_ila n))) (table t) = own st lp (en_ila n).
Proof using Hs Hc Hd HE.
  unfold table. rewrite adds_filter, filter_nil, roots_split, flat_map_app, filter_app.
  rewrite filter_none; cbn [app].
  - unfold node_roots. change (inputs_ (en_ila n)) with (tbl false (en_ila n)).
    change (states_ (en_ila n)) with (tbl true (en_ila n)). rewrite !flat_map_app, <- !app_assoc, !filter_app.
    rewrite (post_vars false), (post_vars true), !filter_tbl.
    assert (Hn : NoDup (ids (own st lp (en_ila n)))).
    { pose proof own_NoDup as Hn. unfold owns in Hn. cbn [fst snd] in Hn. rewrite fmap_app in Hn.
      apply NoDup_app in Hn as (? & _ & ?). by destruct st. }
    assert (Hgoal : forall R, Forall (fun x => Exprs.id x ∈ ids (own st lp (en_ila n))) R ->
      adds [] (own st lp (en_ila n) ++ R) = own st lp (en_ila n)).
    { intros R HR. rewrite adds_app, (adds_new []) by exact Hn. apply adds_absorb. by apply Forall_forall. }
    assert (HF : forall es, Forall (fun x => Exprs.id x ∈ ids (own st lp (en_ila n)))
      (filter (fun x => Exprs.id x ∈ ids (own st lp (en_ila n))) es)).
    { intros es. apply Forall_forall. intros x. intros Hx. by apply list_elem_of_filter in Hx as [? _]. }
    destruct st; cbn [Bool.eqb app]; apply Hgoal; rewrite ?Forall_app; auto.
  - intros x Hx (v & Ev & Hv)%list_elem_of_fmap.
    assert (x = v) as ->.
    { eapply (coherent_eq T); [exact Hc| |by eapply tbl_roots, own_tbl|done].
      rewrite roots_split, flat_map_app. apply elem_of_app. by left. }
    apply (owns_disjoint v v); [apply owns_own; by exists st| |done].
    assert (Hvar : Exprs.is_var v = true).
    { apply (sc_vars _ _ here_scoped), tvars_tbl. exists st. by apply own_tbl. }
    rewrite flat_map_flat_map in Hx. apply elem_flat_map in Hx as (e & He & Hx).
    apply list_elem_of_fmap in He as ([lq e'] & -> & He). cbn [snd] in *.
    apply list_elem_of_split in He as (A & B & ->).
    assert (Hse : scoped lq e').
    { apply (entry_scoped (lq, e')). rewrite HE, !elem_of_app. left. right. by left. }
    pose proof (sc_uses _ _ Hse v Hx Hvar) as Ht.
    rewrite <- app_assoc in HE. cbn [app] in HE. rewrite flat_map_app. apply elem_of_app.
    destruct (scoped_tvars _ _ _ Hse Ht) as [Ht'|Ht'].
    + left. by eapply (tvars_before t A lq e').
    + right. cbn [flat_map]. apply elem_of_app. by left.
Qed.
End declared.

(** ** The whole value *)
Definition global_json (t : tree) : json :=
  JObj [("a", arr (expr_json <$> table t)); ("f", arr (func_json <$> omap node_fn (table t)));
        ("t", tree_json t)].

Definition ila_names (t : tree) : list string := (fun n => l_name (en_ila n)) <$> entries t.

Lemma stored_entries W t : stored W t -> Forall (fun n => w_ilas W !! en_id n = Some (en_ila n)) (entries t).
Proof using Type.
  induction t as [n cs IH] using tree_ind'. intros (Hl & _ & _ & Hst)%stored_unfold. cbn [entries].
  constructor; [done|]. apply Forall_flat_map. eapply Forall_impl; [apply Forall_and; split; [exact IH|exact Hst]|].
  intros c [H1 H2]. by apply H1.
Qed.

Lemma NoDup_N_length (l : list N) (c : N) : NoDup l -> Forall (fun i => i <= c)%N l -> (length l <= S (N.to_nat c))%nat.
Proof using Type.
  intros Hn Hl. rewrite <- (length_seq (S (N.to_nat c)) 0), <- (length_fmap N.of_nat).
  apply submseteq_length, NoDup_submseteq; [done|]. intros i Hi. rewrite Forall_forall in Hl. specialize (Hl i Hi).
  apply list_elem_of_fmap. exists (N.to_nat i). split; [by rewrite N2Nat.id|]. apply elem_of_seq. lia.
Qed.

Lemma Serialize_run t w : stored w t -> Forall writable (entries t) -> NoDup (ila_names t) ->
  (forall m l, w_ilas w !! m = Some l -> (m <= counter_ w)%N) ->
  IlaSerDesMngr.Serialize (en_id (root t)) w = Ok (global_json t, w).
Proof using Type.
  intros Hst Hw Hn Hle. pose proof (stored_entries _ _ Hst) as He.
  assert (Hlen : (length (entries t) <= Collect.absknob.tree_fuel w)%nat).
  { rewrite <- (length_fmap en_id). etrans; [apply (NoDup_N_length _ (counter_ w))|unfold Collect.absknob.tree_fuel; lia].
    - unfold ila_names in Hn. rewrite Forall_forall in He. apply NoDup_alt. intros i j k.
      rewrite !list_lookup_fmap, !fmap_Some. intros (a & Ha & ->) (b & Hb & Hab).
      rewrite NoDup_alt in Hn. apply (Hn i j (l_name (en_ila a))); rewrite list_lookup_fmap, ?Ha, ?Hb; [done|].
      cbn. pose proof (He a (list_elem_of_lookup_2 _ _ _ Ha)). pose proof (He b (list_elem_of_lookup_2 _ _ _ Hb)).
      do 2 f_equal. congruence.
    - apply Forall_fmap. eapply Forall_impl; [exact He|]. cbn. intros n Hl. by eapply Hle. }
  destruct (SerNoAst_run w _ t [] New Hlen Hst Hw) as (s' & E & [_ _ H1 H2]).
  { split; [|done..]. intros i k. cbn. rewrite lookup_empty. split; [done|]. by intros (e & ? & _). }
  unfold IlaSerDesMngr.Serialize, SerInstrLvlAbs. rewrite (ST_bind_run _ _ _ _ _ E).
  erewrite lift_bind_run by reflexivity. rewrite (ST_bind_run get _ s' s' s') by done.
  rewrite H1, H2. erewrite lift_bind_run by reflexivity. reflexivity.
Qed.
End nodes.
