(* ===== verification/SerDesSpec.v ===== *)
(** * Reading back what was written

    The deserializer of [SerDes] on the output of the serializer, for any store
    it is run in: it builds a hierarchy of the same shape whose variables have
    the names and sorts of the original ones and whose expressions are those of
    the original, node by node. *)
From S2P Require Import Prelude Sort Values Container Expr World ExprOp AstHub IlaVars Collect HashAst Rewrite AbsKnobSpec Json SerDes SerSpec.
Local Open Scope Z_scope.
Import Json J2IDes IlaOk.

(** ** Sorts and numbers *)
Lemma DesSort_run s : sort_ok s = true -> int_sort s -> DesSort (sort_json s) = Ok s.
Proof.
  destruct s; try done; cbn [sort_ok int_sort].
  - intros _ Hw. unfold DesSort, at_uid, at_int; cbn. by rewrite int32_id.
  - intros _ [Ha Hd]. unfold DesSort, at_uid, at_int; cbn. by rewrite !int32_id.
Qed.

Lemma mapM_Ok {A B} (f : A -> Res B) l l' : Forall2 (fun a b => f a = Ok b) l l' -> mapM f l = Ok l'.
Proof. induction 1 as [|a b l l' E _ IH]; [done|]. cbn. by rewrite E; cbn; rewrite IH. Qed.

Lemma get_ids (l : list objid) : Forall (fun i => i < 2 ^ 64)%N l ->
  mapM get_id (I2JSer.id_json <$> l) = Ok l.
Proof.
  induction 1 as [|i l Hi _ IH]; [done|]. cbn [fmap list_fmap mapM].
  unfold I2JSer.id_json in *. rewrite get_id_uint by done. cbn [mbind Res_bind]. by rewrite IH.
Qed.

Lemma get_ints ps : Forall int_ok ps -> mapM get_int (JInt <$> ps) = Ok ps.
Proof.
  induction 1 as [|p ps Hp _ IH]; [done|]. cbn [fmap list_fmap mapM get_int].
  rewrite int32_id by done. cbn [mbind Res_bind]. by rewrite IH.
Qed.

(** *** Decimal numbers *)
Lemma digit_char (r : N) : (r < 10)%N -> digit (pretty_N_char r) = true /\
  Z.of_N (N_of_ascii (pretty_N_char r) - 48) = Z.of_N r.
Proof.
  intros H. assert (r = 0 \/ r = 1 \/ r = 2 \/ r = 3 \/ r = 4 \/ r = 5 \/ r = 6 \/ r = 7 \/ r = 8 \/ r = 9)%N
    as Hr by lia. repeat (destruct Hr as [->|Hr]; [done|]). by subst.
Qed.

Lemma leading_go n s : leading (pretty_N_go n s) 0 = leading s (Z.of_N n).
Proof.
  revert s. induction (N.lt_wf_0 n) as [n _ IH]. intros s.
  destruct (decide (n = 0)%N) as [->|Hn]; [by rewrite pretty_N_go_0|].
  rewrite pretty_N_go_step by lia. rewrite IH by (apply N.div_lt; lia). cbn [leading].
  destruct (digit_char (n mod 10)) as [-> ->]; [apply N.mod_lt; lia|]. f_equal.
  pose proof (N.div_mod' n 10). lia.
Qed.

Lemma pretty_N_first (n : N) : exists c s, pretty n = String c s /\ digit c = true.
Proof.
  pose proof (pretty_N_digits n) as Hd. pose proof (pretty_N_ne n) as Hn.
  destruct (pretty n) as [|c s]; [done|]. exists c, s. cbn in Hd. bool_inv. done.
Qed.

(** Reading a printed number. *)
Lemma StrToULongLong_pretty z : word_ok z -> StrToULongLong (pretty z) = z.
Proof.
  intros [H0 H1]. assert (Hp : pretty z = pretty (Z.to_N z)) by (destruct z; [done|done|lia]).
  unfold StrToULongLong, stoull. rewrite Hp.
  destruct (pretty_N_first (Z.to_N z)) as (c & s & E & Hc). rewrite E.
  assert (Hs : skip_space (String c s) = String c s).
  { cbn [skip_space]. assert (isspace c = false) as ->; [|done]. unfold isspace, digit in *. bool_inv.
    apply N.leb_le in H, H2. apply orb_false_iff. split; [apply N.eqb_neq; lia|].
    apply andb_false_iff. right. apply N.leb_gt. lia. }
  rewrite Hs.
  assert (Hsign : (match String c s with
                   | String "-" s => (true, s) | String "+" s => (false, s) | _ => (false, String c s) end)
                  = (false, String c s)).
  { assert (Hm : c <> "-"%char /\ c <> "+"%char) by (split; intros ->; discriminate).
    clear -Hm. destruct c as [[] [] [] [] [] [] [] []]; try done; naive_solver. }
  rewrite Hsign, Hc. rewrite <- E.
  assert (Hl : leading (pretty (Z.to_N z)) 0 = z).
  { unfold pretty, pretty_N. case_decide as Hz.
    - assert (z = 0) as -> by lia. done.
    - rewrite leading_go. cbn [leading]. lia. }
  rewrite Hl. rewrite (proj2 (Z.ltb_lt _ _)) by done. done.
Qed.

(** ** Constants *)
Definition read_entry (p : string * json) (m : gmap Z Z) : Res (gmap Z Z) :=
  data ← get_uint64 p.2; Ok (<[StrToULongLong p.1 := data]> m).

Lemma read_entries (m : gmap Z Z) o acc : acc ⊆ m ->
  (forall a d, m !! a = Some d -> word_ok a /\ word_ok d) ->
  (forall k v, (k, v) ∈ o -> exists a d, m !! a = Some d /\ k = pretty a /\ v = JUint d) ->
  exists acc', foldM read_entry o acc = Ok acc' /\ acc' ⊆ m /\ acc ⊆ acc' /\
    forall k v a, (k, v) ∈ o -> k = pretty a -> word_ok a -> acc' !! a = m !! a.
Proof.
  intros Hacc Hm. revert acc Hacc. induction o as [|[k v] o IH]; intros acc Hacc Ho.
  - exists acc. split_and!; [done..|]. by intros ? ? ? ?%elem_of_nil.
  - destruct (Ho k v ltac:(by left)) as (a & d & Ha & -> & ->). destruct (Hm a d Ha) as [Hwa Hwd].
    destruct (IH (<[a := d]> acc)) as (acc' & E & H1 & H2 & H3).
    { apply map_subseteq_spec. intros b x. rewrite lookup_insert_Some. intros [[<- <-]|[_ Hx]]; [done|].
      by apply (lookup_weaken acc). }
    { intros k v Hin. apply Ho. by right. }
    exists acc'. split; [|split; [done|split]].
    + assert (Hr : read_entry (pretty a, JUint d) acc = Ok (<[a := d]> acc)).
      { unfold read_entry. cbn [fst snd get_uint64 mbind Res_bind]. by rewrite StrToULongLong_pretty, uint64_id. }
      cbn [foldM]. by rewrite Hr.
    + destruct (acc !! a) as [x|] eqn:Ex.
      * assert (x = d) as -> by (pose proof (lookup_weaken _ _ _ _ Ex Hacc); congruence).
        by rewrite insert_id in H2.
      * etrans; [by apply insert_subseteq|done].
    + intros k' v' b [[= -> ->]|Hin]%elem_of_cons Hk Hb; [|by eapply H3].
      apply (inj pretty) in Hk as <-. rewrite Ha.
      apply (lookup_weaken (<[a:=d]> acc)); [apply lookup_insert_eq|done].
Qed.

Lemma read_map m : (forall a d, m !! a = Some d -> word_ok a /\ word_ok d) ->
  foldM read_entry (items (map_json m)) ∅ = Ok m.
Proof.
  intros Hm. destruct (map_json_run m) as (o & -> & _ & Ho & Hin). cbn [items].
  destruct (read_entries m o ∅ (map_empty_subseteq _) Hm Ho) as (acc & E & H1 & _ & H2).
  rewrite E. f_equal. apply map_eq. intros a. destruct (m !! a) as [d|] eqn:Ea.
  - rewrite <- Ea. eapply H2; [eapply assoc_elem, Hin, Ea|done|apply (Hm a d Ea)].
  - destruct (acc !! a) as [d|] eqn:Ea'; [|done]. by rewrite (lookup_weaken _ _ _ _ Ea' H1) in Ea.
Qed.

Section des.
Context {L : Layout}.
Import ExprOps.

Lemma DesExprConst_run s v w d : sort_ok s = true -> int_sort s -> const_ok s v = true -> const_words v ->
  DesExprConst (sort_json s) (val_json s v) (w, d) =
  Ok (Some (ExprConst {| h_id := (counter_ w + 1)%N; h_name := Symbol.default_name (counter_ w + 1)%N;
                         h_host := None; h_sort := s |} v []), (bump w, d)).
Proof.
  intros Hs Hi Hc Hw. destruct s, v; try done; cbn [int_sort const_words const_ok] in *.
  - cbn [sort_json val_json] in *. bool_inv. unfold DesExprConst, at_uid, at_int. erewrite lift_bind_run by reflexivity.
    cbn [SortValue.uint64 Z.eqb]. change (SortValue.uint64 2 =? 1) with false. change (SortValue.uint64 2 =? 2) with true.
    cbn iota. rewrite (lift_bind_run _ _ _ bit_width_) by (cbn; by rewrite int32_id).
    rewrite (lift_bind_run _ _ _ n) by (cbn; by rewrite uint64_id).
    unfold on_world, asthub.BvConst, ExprConsts.ExprConst_bv, check_. cbn [fst snd].
    assert (Hchk : ((SortValue.BvValTypeBitWidth <=? bit_width_) || (Z.shiftr n bit_width_ =? 0)) = true).
    { apply orb_true_iff. right. apply Z.eqb_eq. rewrite Z.shiftr_div_pow2 by lia. by apply Z.div_small. }
    rewrite (proj2 (Z.ltb_lt 0 bit_width_)), Hchk by done. reflexivity.
  - destruct Hi as [Ha Hd], Hw as [Hdef Hmap]. cbn [sort_json val_json].
    unfold DesExprConst, at_uid, at_int. erewrite lift_bind_run by reflexivity.
    change (SortValue.uint64 3 =? 1) with false. change (SortValue.uint64 3 =? 2) with false.
    change (SortValue.uint64 3 =? 3) with true. cbn iota.
    rewrite (lift_bind_run _ _ _ addr_width_) by (cbn; by rewrite int32_id).
    rewrite (lift_bind_run _ _ _ data_width_) by (cbn; by rewrite int32_id).
    rewrite (lift_bind_run _ _ _ (SortValue.default_ m)) by (cbn; by rewrite uint64_id).
    erewrite lift_bind_run by reflexivity.
    rewrite (lift_bind_run _ _ _ _ (read_map (SortValue.val_map_ m) Hmap)).
    by destruct m.
Qed.

(** ** Operators *)
Definition same_op (d : Expr) (op : AstUidExprOp) (s : Sort) (args : list Expr) (ps : list Z) : Prop :=
  exists h, d = ExprOp h op None args ps /\ h_sort h = s.

Lemma uid_op_num op : op <> kInvalid -> uid_op (ExprMngr.op_num op mod 2 ^ 32) = Some op.
Proof using Type. by destruct op. Qed.

(** A store that only gets expressions. *)
Definition only_exprs (w w' : World) : Prop :=
  w_ilas w' = w_ilas w /\ w_instrs w' = w_instrs w /\ (counter_ w <= counter_ w')%N.
Lemma only_refl w : only_exprs w w.
Proof using Type. split_and!; [done..|lia]. Qed.
Lemma only_trans w1 w2 w3 : only_exprs w1 w2 -> only_exprs w2 w3 -> only_exprs w1 w3.
Proof using Type. intros (?&?&?) (?&?&?). split_and!; [congruence..|lia]. Qed.
Lemma only_bump w : only_exprs w (bump w).
Proof using Type. split_and!; [done..|cbn; lia]. Qed.

Lemma op_sort_construct op args ps s : op_sort op ps (Exprs.sort <$> args) = Some s ->
  exists m, construct op args ps = Some m.
Proof using Type.
  destruct op, ps as [|p [|q [|]]], args as [|a [|b [|c [|]]]]; cbn; try discriminate; eauto;
    intros H; repeat case_match; try discriminate; eauto.
Qed.

Lemma construct_built op args ps s m w : Forall (fun a => sort_ok (Exprs.sort a) = true) args ->
  op_sort op ps (Exprs.sort <$> args) = Some s -> construct op args ps = Some m ->
  m w = built w op s args ps.
Proof using Type.
  intros Ha Hs Hm. rewrite (construct_run _ _ _ _ w Hm).
  pose proof (ctor_sort_spec op ps (Exprs.sort <$> args)) as H. rewrite Hs in H. rewrite H; [done|].
  by apply Forall_fmap.
Qed.

Lemma des_switch_run op args ps s w : Forall (fun a => sort_ok (Exprs.sort a) = true) args ->
  op_sort op ps (Exprs.sort <$> args) = Some s ->
  exists d w', des_switch args ps (ExprMngr.op_num op mod 2 ^ 32) w = Ok (Some d, w') /\
    same_op d op s args ps /\ only_exprs w w'.
Proof using Type.
  intros Ha Hs. destruct (op_sort_construct _ _ _ _ Hs) as [m Hm].
  pose proof (fun w => construct_built _ _ _ _ _ w Ha Hs Hm) as Hb.
  unfold des_switch. rewrite uid_op_num by (intros ->; by destruct ps).
  assert (Hgoal : forall R : M (option Expr), R w = (e ← m; mret (Some e)) w -> exists d w',
    R w = Ok (Some d, w') /\ same_op d op s args ps /\ only_exprs w w').
  { intros R ->. exists (node w op s args ps), (bump w). rewrite (ST_bind_run _ _ _ _ _ (Hb w)).
    split; [done|]. split; [by eexists|apply only_bump]. }
  assert (Hsame : forall a b c, args = [a; b] -> logic2_sort (Exprs.sort a) (Exprs.sort b) = Some c ->
            Exprs.sort a = Exprs.sort b) by (intros a b c _; by apply logic2_sort_eq).
  destruct op, ps as [|p [|q [|]]], args as [|a [|b [|c [|]]]]; try discriminate Hm;
    cbn [construct] in Hm; injection Hm as Hm; cbn [op_sort fmap list_fmap] in Hs.
  all: try (apply Hgoal; subst m; reflexivity).
  all: try (apply Hgoal; subst m; unfold des2, asthub.And, asthub.Or, asthub.Xor;
    do 2 (erewrite lift_bind_run by reflexivity);
    unfold mbind at 1, ST_bind; rewrite asthub.mixed_same by (by eapply Hsame); reflexivity).
  exists (node (bump (bump w)) kConcatenate s [a; b] []), (bump (bump (bump w))).
  split; [|split; [by eexists|split_and!; [done..|cbn; lia]]].
  unfold des2. do 2 (erewrite lift_bind_run by reflexivity). unfold asthub.Concat.
  assert (Hab : Exprs.is_bool a = false /\ Exprs.is_bool b = false)
    by (unfold Exprs.is_bool; destruct (Exprs.sort a), (Exprs.sort b); done).
  destruct Hab as [-> ->]. rewrite (ST_bind_run _ _ _ (node (bump (bump w)) kConcatenate s [a; b] [])
    (bump (bump (bump w)))); [done|].
  do 2 (erewrite ST_bind_run by reflexivity). cbv [mbind ST_bind mret ST_ret]. rewrite Hm. apply Hb.
Qed.

(** ** Functions *)
Definition same_fn (f f' : Func) : Prop := f_name f' = f_name f /\ out_ f' = out_ f /\ args_ f' = args_ f.
Definition sort_fine (s : Sort) : Prop := sort_ok s = true /\ int_sort s.

Section functions.
Context (FT : gmap objid Func).

Record fun_ok (f : Func) : Prop := {
  fo_id : (f_id f < 2 ^ 64)%N;
  fo_table : FT !! f_id f = Some f;
  fo_out : sort_fine (out_ f);
  fo_args : Forall sort_fine (args_ f) }.

Lemma node_fun_ok x f : Forall (node_ok FT) (Exprs.args x) -> node_ok FT x -> node_fn x = Some f -> fun_ok f.
Proof using Type.
  destruct x as [| |h op fn args ps]; try done. cbn. intros Ha (_ & Hs & Hi & _ & H) ->.
  destruct H as (Hf & HFT & Hid). unfold fn_ok in Hf. bool_inv. split; [done|done| |].
  - rewrite H1. by split.
  - rewrite H2. apply Forall_fmap. eapply Forall_impl; [exact Ha|]. intros a (_ & ? & ? & _). by split.
Qed.

(** The functions that were read stand for functions of the source. *)
Definition funs_ok (fm : gmap objid Func) : Prop :=
  forall i f', fm !! i = Some f' -> exists f, FT !! i = Some f /\ same_fn f f'.

Definition with_func (d : J2IDes) (i : objid) (f : Func) : J2IDes :=
  {| id_expr_map_ := id_expr_map_ d; id_func_map_ := <[i := f]> (id_func_map_ d);
     ila_name_ptr_map_ := ila_name_ptr_map_ d |}.

Lemma DesSorts_run ss : Forall sort_fine ss -> mapM DesSort (sort_json <$> ss) = Ok ss.
Proof using Type.
  induction 1 as [|s ss [Hs Hi] _ IH]; [done|]. cbn [fmap list_fmap mapM]. rewrite DesSort_run by done.
  cbn [mbind Res_bind]. by rewrite IH.
Qed.

Lemma DesFunc_run f w d : fun_ok f -> funs_ok (id_func_map_ d) ->
  exists f' w' d', DesFunc (func_json f) (w, d) = Ok (f', (w', d')) /\ only_exprs w w' /\
    id_expr_map_ d' = id_expr_map_ d /\ ila_name_ptr_map_ d' = ila_name_ptr_map_ d /\
    funs_ok (id_func_map_ d') /\ id_func_map_ d ⊆ id_func_map_ d' /\ is_Some (id_func_map_ d' !! f_id f).
Proof using Type.
  intros [Hid HT [Ho Hoi] Ha] Hd. unfold DesFunc.
  rewrite (lift_bind_run _ _ _ (f_id f)) by (cbn; by apply get_id_uint).
  unfold members. rewrite (ST_bind_run (gets snd) _ (w, d) d (w, d)) by done.
  destruct (id_func_map_ d !! f_id f) as [f'|] eqn:E.
  - exists f', w, d. split; [done|]. split; [apply only_refl|]. split_and!; [done..|by eexists].
  - do 1 (erewrite lift_bind_run by reflexivity).
    rewrite (lift_bind_run _ _ _ (out_ f)) by (cbn; by apply DesSort_run).
    erewrite lift_bind_run by reflexivity.
    rewrite (lift_bind_run _ _ _ (args_ f)) by (cbn [elements]; by apply DesSorts_run).
    eexists _, (bump w), (with_func d (f_id f) _). split; [reflexivity|]. split; [apply only_bump|].
    cbn [with_func id_expr_map_ ila_name_ptr_map_ id_func_map_]. split; [done|]. split; [done|].
    split; [|split; [by apply insert_subseteq|rewrite lookup_insert_eq; by eexists]].
    intros i f'. rewrite lookup_insert_Some. intros [[<- <-]|[_ Hf]]; [by exists f|by apply Hd].
Qed.

Lemma DesFuncs_run fs : forall w d, Forall fun_ok fs -> funs_ok (id_func_map_ d) ->
  exists w' d', foldM (fun j (_ : unit) => DesFunc j;; mret ()) (func_json <$> fs) () (w, d) = Ok ((), (w', d')) /\
    only_exprs w w' /\ id_expr_map_ d' = id_expr_map_ d /\ ila_name_ptr_map_ d' = ila_name_ptr_map_ d /\
    funs_ok (id_func_map_ d') /\ id_func_map_ d ⊆ id_func_map_ d' /\
    forall f, f ∈ fs -> exists f', id_func_map_ d' !! f_id f = Some f' /\ same_fn f f'.
Proof using Type.
  induction fs as [|f fs IH]; intros w d Hf Hd.
  - exists w, d. split; [done|]. split; [apply only_refl|]. split_and!; [done..|]. by intros f ?%elem_of_nil.
  - apply Forall_cons in Hf as [Hf Hfs].
    destruct (DesFunc_run f w d Hf Hd) as (f' & w1 & d1 & E1 & O1 & X1 & N1 & D1 & S1 & I1).
    destruct (IH w1 d1 Hfs D1) as (w2 & d2 & E2 & O2 & X2 & N2 & D2 & S2 & I2). exists w2, d2. split.
    { cbn [fmap list_fmap foldM]. rewrite (ST_bind_run _ _ _ () (w1, d1)); [done|].
      by rewrite (ST_bind_run _ _ _ _ _ E1). }
    split; [by eapply only_trans|]. split; [congruence|]. split; [congruence|]. split; [done|]. split; [by etrans|].
    intros g [->|Hg]%elem_of_cons; [|by apply I2]. destruct I1 as [g' Hg'].
    pose proof (lookup_weaken _ _ _ _ Hg' S2) as Hg2. exists g'. split; [done|].
    destruct (D2 _ _ Hg2) as (g0 & Hg0 & Hs). rewrite (fo_table _ Hf) in Hg0. by injection Hg0 as <-.
Qed.
End functions.

(** ** The expression a node becomes

    [em] gives the variables, [fm] the functions that were read.  Operators,
    parameters, values and sorts are those of the original. *)
Section image.
Context (em : gmap objid Expr) (fm : gmap objid Func).

Definition image_fn (fn fn' : option Func) : Prop :=
  match fn, fn' with
  | None, None => True
  | Some f, Some f' => fm !! f_id f = Some f' /\ same_fn f f'
  | _, _ => False
  end.

Fixpoint image (e d : Expr) : Prop :=
  match e with
  | ExprVar h _ => em !! h_id h = Some d
  | ExprConst h v _ => exists h', d = ExprConst h' v [] /\ h_sort h' = h_sort h
  | ExprOp h op fn args ps =>
      exists h' fn' ds, d = ExprOp h' op fn' ds (if fn is Some _ then [] else ps) /\
        h_sort h' = h_sort h /\ image_fn fn fn' /\ (fn <> None -> args = [] -> h_host h' = None) /\
        (fix go (args ds : list Expr) : Prop :=
           match args, ds with
           | [], [] => True
           | a :: args, d :: ds => image a d /\ go args ds
           | _, _ => False
           end) args ds
  end.

Lemma image_op h op fn args ps d : image (ExprOp h op fn args ps) d <->
  exists h' fn' ds, d = ExprOp h' op fn' ds (if fn is Some _ then [] else ps) /\
    h_sort h' = h_sort h /\ image_fn fn fn' /\ (fn <> None -> args = [] -> h_host h' = None) /\
    Forall2 image args ds.
Proof using Type.
  assert (E : forall args ds, (fix go (args ds : list Expr) : Prop :=
           match args, ds with
           | [], [] => True
           | a :: args, d :: ds => image a d /\ go args ds
           | _, _ => False
           end) args ds <-> Forall2 image args ds).
  { intros l. induction l as [|a l IH]; intros [|d' ds]; split; intros H; try done; try by inversion H.
    - destruct H as [H1 H2]. constructor; [done|]. by apply IH.
    - apply Forall2_cons in H as [H1 H2]. split; [done|]. by apply IH. }
  cbn [image]. setoid_rewrite E. done.
Qed.

(** The value of an image, in the environment read through the maps. *)
Definition pull (ρ : Env) : Env :=
  {| ev_var h := match em !! h_id h with Some d => ev_var ρ (Exprs.hdr d) | None => ev_var ρ h end;
     ev_fun f vs := match fm !! f_id f with Some f' => ev_fun ρ f' vs | None => ev_fun ρ f vs end;
     ev_nondet _ f := match fm !! f_id f with Some f' => ev_nondet ρ None f' | None => ev_nondet ρ None f end |}.

Lemma image_eval ρ e d : (forall i v, em !! i = Some v -> Exprs.is_var v = true) ->
  image e d -> eval ρ d = eval (pull ρ) e.
Proof using Type.
  intros Hv. revert d. induction e as [h ps|h v ps|h op fn args ps IH] using Expr_ind'; intros d.
  - cbn [image]. intros E. pose proof (Hv _ _ E). destruct d; try done. cbn. by rewrite E.
  - intros (h' & -> & E). cbn. by rewrite E.
  - intros (h' & fn' & ds & -> & Hs & Hf & Hh & Hds)%image_op. rewrite !eval_op.
    assert (E : evals ρ ds = evals (pull ρ) args).
    { clear Hh. unfold evals. induction Hds as [|a d args ds Ha _ IHds]; [done|].
      apply Forall_cons in IH as [IHa IH]. cbn [mapM]. by rewrite (IHa d Ha), (IHds IH). }
    rewrite E. destruct (evals (pull ρ) args) as [vs|] eqn:Ev; [|done]. cbn.
    destruct fn as [f|], fn' as [f'|]; try done. destruct Hf as [Hf _]. f_equal. unfold fn_sem. cbn.
    rewrite Hf. destruct vs as [|v vs]; [|done].
    rewrite Hh; [done|by intros|]. destruct args as [|a args]; [done|]. unfold evals in Ev. cbn in Ev.
    destruct (eval (pull ρ) a); [|done]. cbn in Ev. by destruct (mapM _ args).
Qed.

(** An entry of the map. *)
Definition entered (dm : gmap objid Expr) (x : Expr) : Prop :=
  exists d, dm !! Exprs.id x = Some d /\ image x d /\ Exprs.sort d = Exprs.sort x.

Lemma entered_weaken dm dm' x : dm ⊆ dm' -> entered dm x -> entered dm' x.
Proof using Type. intros Hs (d & Hd & H). exists d. split; [by eapply lookup_weaken|done]. Qed.

Lemma des_args_run args w d : Forall (fun a => Exprs.id a < 2 ^ 64)%N args -> Forall (entered (id_expr_map_ d)) args ->
  exists ds, des_args (JArr (I2JSer.id_json <$> (Exprs.id <$> args))) (w, d) = Ok (ds, (w, d)) /\
    Forall2 image args ds /\ Exprs.sort <$> ds = Exprs.sort <$> args.
Proof using Type.
  intros Hi Ha.
  assert (Hm : exists ds, Forall2 (fun a x => id_expr_map_ d !! Exprs.id a = Some x) args ds /\
      Forall2 image args ds /\ Exprs.sort <$> ds = Exprs.sort <$> args).
  { clear Hi. induction Ha as [|a args (x & Hx & Him & Hs) _ (ds & E & H1 & H2)]; [by exists []|].
    exists (x :: ds). split; [by constructor|]. split; [by constructor|]. cbn. by rewrite H2, Hs. }
  destruct Hm as (ds & E & H). exists ds. split; [|done]. unfold des_args, members.
  rewrite (ST_bind_run (gets snd) _ (w, d) d (w, d)) by done. unfold lift. cbn [elements].
  rewrite (mapM_Ok _ _ ds); [done|]. rewrite !Forall2_fmap_l. clear H.
  induction E as [|a x args ds Hx _ IH]; [constructor|]. apply Forall_cons in Hi as [Hia Hi].
  constructor; [|apply IH; [done|by apply Forall_cons in Ha as [_ ?]]]. cbn -[get_id].
  unfold I2JSer.id_json. rewrite get_id_uint by done. cbn [mbind Res_bind]. by rewrite Hx.
Qed.

Definition with_expr (d : J2IDes) (i : objid) (e : Expr) : J2IDes :=
  {| id_expr_map_ := <[i := e]> (id_expr_map_ d); id_func_map_ := id_func_map_ d;
     ila_name_ptr_map_ := ila_name_ptr_map_ d |}.

Lemma DesExprOp_run op args ps s w d : Forall (fun a => Exprs.id a < 2 ^ 64)%N args ->
  Forall (fun a => sort_ok (Exprs.sort a) = true) args ->
  Forall (entered (id_expr_map_ d)) args -> Forall int_ok ps -> op_sort op ps (Exprs.sort <$> args) = Some s ->
  exists e w' ds, DesExprOp (ExprMngr.op_num op) (JArr ((fun a => I2JSer.id_json (Exprs.id a)) <$> args)) (JArr (JInt <$> ps)) (w, d) =
      Ok (Some e, (w', d)) /\ only_exprs w w' /\ same_op e op s ds ps /\ Forall2 image args ds.
Proof using Type.
  intros Hi Ho Ha Hp Hs. destruct (des_args_run args w d Hi Ha) as (ds & E & Him & Hss).
  rewrite <- list_fmap_compose in E. unfold compose in E.
  assert (Hods : Forall (fun a => sort_ok (Exprs.sort a) = true) ds).
  { assert (H : Forall (fun s => sort_ok s = true) (Exprs.sort <$> ds)) by (rewrite Hss; by apply Forall_fmap).
    by apply Forall_fmap in H. }
  rewrite <- Hss in Hs. destruct (des_switch_run op ds ps s w Hods Hs) as (e & w' & Es & Hop & Ho').
  exists e, w', ds. split; [|done]. unfold DesExprOp. rewrite (ST_bind_run _ _ _ _ _ E).
  rewrite (lift_bind_run _ _ _ ps) by (cbn [elements]; by apply get_ints).
  unfold on_world. cbn [fst snd]. by rewrite Es.
Qed.

Lemma AppFunc_image f args w d : Forall (fun a => Exprs.id a < 2 ^ 64)%N args -> (f_id f < 2 ^ 64)%N ->
  Forall (entered (id_expr_map_ d)) args -> args_ f = Exprs.sort <$> args ->
  (exists f', id_func_map_ d !! f_id f = Some f' /\ fm !! f_id f = Some f' /\ same_fn f f') ->
  exists e w', DesExprOpAppFunc (I2JSer.id_json (f_id f)) (JArr ((fun a => I2JSer.id_json (Exprs.id a)) <$> args)) (w, d) =
      Ok (Some e, (w', d)) /\ only_exprs w w' /\ Exprs.sort e = out_ f /\
    forall h ps, h_sort h = out_ f -> image (ExprOp h kApplyFunc (Some f) args ps) e.
Proof using Type.
  intros Hi Hf Ha Hs (f' & Hf' & Hfm & Hn & Ho & Hargs). destruct (des_args_run args w d Hi Ha) as (ds & E & Him & Hss).
  rewrite <- list_fmap_compose in E. unfold compose in E.
  assert (Hr : args_ f' = Exprs.sort <$> ds) by congruence.
  exists (ExprOp (node_hdr w ds (out_ f')) kApplyFunc (Some f') ds []), (bump w).
  split; [|split; [apply only_bump|split; [done|]]].
  - unfold DesExprOpAppFunc. rewrite (lift_bind_run _ _ _ (f_id f)) by by apply get_id_uint.
    unfold members. rewrite (ST_bind_run (gets snd) _ (w, d) d (w, d)) by done. rewrite Hf'.
    do 2 (erewrite lift_bind_run by reflexivity). rewrite (ST_bind_run _ _ _ _ _ E).
    unfold on_world. cbn [fst snd]. by rewrite (ST_bind_run _ _ _ _ _ (AppFunc_run f' ds w Hr)).
  - intros h ps Hh. apply image_op. eexists _, (Some f'), ds. split; [done|]. split; [cbn; congruence|].
    split; [done|]. split; [|done]. intros _ ->. apply Forall2_nil_inv_l in Him as ->. cbn. apply GetHost_nil.
Qed.

Lemma DesExpr_known x w d e : (Exprs.id x < 2 ^ 64)%N -> id_expr_map_ d !! Exprs.id x = Some e ->
  DesExpr (expr_json x) (w, d) = Ok (e, (w, d)).
Proof using Type.
  intros Hi He. unfold DesExpr. rewrite (lift_bind_run _ _ _ (Exprs.id x)).
  - unfold members. rewrite (ST_bind_run (gets snd) _ (w, d) d (w, d)) by done. by rewrite He.
  - unfold at_id. rewrite expr_json_id. cbn [mbind Res_bind]. by apply get_id_uint.
Qed.

(** A node that is neither known nor a variable. *)
Lemma DesExpr_new FT x w d : node_ok FT x -> Forall (node_ok FT) (Exprs.args x) -> Exprs.is_var x = false ->
  id_expr_map_ d !! Exprs.id x = None -> Forall (entered (id_expr_map_ d)) (Exprs.args x) ->
  id_func_map_ d = fm -> (forall f, node_fn x = Some f -> exists f', fm !! f_id f = Some f' /\ same_fn f f') ->
  exists e w', DesExpr (expr_json x) (w, d) = Ok (e, (w', with_expr d (Exprs.id x) e)) /\
    only_exprs w w' /\ image x e /\ Exprs.sort e = Exprs.sort x.
Proof using Type.
  intros Hok Hargs Hv Hd Ha Hfm Hfn. pose proof Hok as (Hi & Hs & His & H).
  assert (Hgoal : forall (body : DM (option Expr)) e w' u, at_uid (expr_json x) "u" = Ok u ->
    body = (if u =? I2JSer.kConst then
           sort ← lift (at_key (expr_json x) "s");
           value ← lift (at_key (expr_json x) "v");
           DesExprConst sort value
         else if u =? I2JSer.kOp then
           expr_op_uid ← lift (at_uid (expr_json x) "o");
           if expr_op_uid =? ExprMngr.op_num kApplyFunc then
             j_func_id ← lift (at_key (expr_json x) "f");
             j_arg_arr ← lift (at_key (expr_json x) "a");
             DesExprOpAppFunc j_func_id j_arg_arr
           else
             j_arg_arr ← lift (at_key (expr_json x) "a");
             j_param_arr ← lift (at_key (expr_json x) "p");
             DesExprOp expr_op_uid j_arg_arr j_param_arr
         else if u =? I2JSer.kVar then lift (at_key (expr_json x) "n");; mret None
         else mret None) ->
    body (w, d) = Ok (Some e, (w', d)) -> only_exprs w w' -> image x e -> Exprs.sort e = Exprs.sort x ->
    exists e w', DesExpr (expr_json x) (w, d) = Ok (e, (w', with_expr d (Exprs.id x) e)) /\
      only_exprs w w' /\ image x e /\ Exprs.sort e = Exprs.sort x).
  { intros body e w' u Hu -> Hb Ho Him Hse. exists e, w'. split; [|done]. unfold DesExpr.
    rewrite (lift_bind_run _ _ _ (Exprs.id x)).
    2:{ unfold at_id. rewrite expr_json_id. cbn [mbind Res_bind]. by apply get_id_uint. }
    unfold members. rewrite (ST_bind_run (gets snd) _ (w, d) d (w, d)) by done. rewrite Hd.
    rewrite (lift_bind_run _ _ _ _ Hu), (ST_bind_run _ _ _ _ _ Hb). reflexivity. }
  destruct x as [h ps|h v ps|h op fn args ps]; [done| |].
  - destruct H as [Hc Hw]. eapply Hgoal; [reflexivity|reflexivity| |apply only_bump| |].
    + change (SortValue.uint64 I2JSer.kConst =? I2JSer.kConst) with true. cbn iota.
      do 2 (erewrite lift_bind_run by reflexivity). by apply DesExprConst_run.
    + cbn [image]. by eexists.
    + done.
  - pose proof (node_fn_iff _ _ _ _ _ _ Hok) as Hop. destruct H as [Hp H].
    assert (Hai : Forall (fun a => Exprs.id a < 2 ^ 64)%N args) by (eapply Forall_impl; [exact Hargs|]; by intros a (? & _)).
    assert (Has : Forall (fun a => sort_ok (Exprs.sort a) = true) args)
      by (eapply Forall_impl; [exact Hargs|]; by intros a (_ & ? & _)).
    assert (Hu : SortValue.uint64 (ExprMngr.op_num op) = ExprMngr.op_num op) by by destruct op.
    destruct fn as [f|].
    + destruct H as (Hf & HFT & Hfid). unfold fn_ok in Hf. bool_inv.
      destruct (Hfn f eq_refl) as (f' & Hf' & Hsf).
      destruct (AppFunc_image f args w d Hai Hfid Ha H2) as (e & w' & E & Ho & Hse & Him); [exists f'; by rewrite Hfm|].
      subst op. eapply Hgoal; [reflexivity|reflexivity| |exact Ho|by apply Him|by rewrite Hse, H1].
      change (SortValue.uint64 I2JSer.kOp =? I2JSer.kConst) with false.
      change (SortValue.uint64 I2JSer.kOp =? I2JSer.kOp) with true. cbn iota.
      rewrite (lift_bind_run _ _ _ (ExprMngr.op_num kApplyFunc)) by reflexivity. rewrite Z.eqb_refl.
      do 2 (erewrite lift_bind_run by reflexivity). exact E.
    + destruct (DesExprOp_run op args ps (h_sort h) w d Hai Has Ha Hp H) as (e & w' & ds & E & Ho & (h' & -> & Hh') & Him).
      eapply (Hgoal _ (ExprOp h' op None ds ps)); [reflexivity|reflexivity| |exact Ho| |exact Hh'].
      * change (SortValue.uint64 I2JSer.kOp =? I2JSer.kConst) with false.
        change (SortValue.uint64 I2JSer.kOp =? I2JSer.kOp) with true. cbn iota.
        rewrite (lift_bind_run _ _ _ (ExprMngr.op_num op)) by (cbn; by rewrite Hu).
        assert (Hne : (ExprMngr.op_num op =? ExprMngr.op_num kApplyFunc) = false).
        { by destruct op. }
        rewrite Hne. do 2 (erewrite lift_bind_run by reflexivity). exact E.
      * apply image_op. by exists h', None, ds.
Qed.

(** ** The table of expressions *)
Section exprs.
Context (FT : gmap objid Func) (tb : list Expr).
Hypothesis Hnodes : Forall (node_ok FT) tb.
Hypothesis Hclosed : closed tb.
Hypothesis Hids : NoDup (Exprs.id <$> tb).
Hypothesis Hem : forall x, x ∈ tb -> is_Some (em !! Exprs.id x) -> Exprs.is_var x = true.
Hypothesis Hvars : forall x, x ∈ tb -> Exprs.is_var x = true -> entered em x.
Hypothesis Hfuns : forall x f, x ∈ tb -> node_fn x = Some f -> exists f', fm !! f_id f = Some f' /\ same_fn f f'.

Record reading (L1 : list Expr) (d : J2IDes) : Prop := {
  rg_sub : em ⊆ id_expr_map_ d;
  rg_done : Forall (entered (id_expr_map_ d)) L1;
  rg_dom i : is_Some (id_expr_map_ d !! i) -> is_Some (em !! i) \/ i ∈ Exprs.id <$> L1;
  rg_fun : id_func_map_ d = fm }.

Lemma DesExprs_run L2 : forall L1 w d, tb = L1 ++ L2 -> reading L1 d ->
  exists w' d', foldM (fun j (_ : unit) => DesExpr j;; mret ()) (expr_json <$> L2) () (w, d) = Ok ((), (w', d')) /\
    only_exprs w w' /\ reading tb d' /\ ila_name_ptr_map_ d' = ila_name_ptr_map_ d.
Proof using Hnodes Hclosed Hids Hem Hvars Hfuns.
  induction L2 as [|x L2 IH]; intros L1 w d E Hd.
  - exists w, d. split; [done|]. split; [apply only_refl|]. rewrite app_nil_r in E. by subst L1.
  - assert (Hx : x ∈ tb) by (rewrite E; apply elem_of_app; right; by left).
    assert (E' : tb = (L1 ++ [x]) ++ L2) by by rewrite <- app_assoc.
    pose proof Hnodes as Hn. rewrite Forall_forall in Hn. pose proof (Hn x Hx) as Hok.
    assert (Hstep : exists e w1 d1, DesExpr (expr_json x) (w, d) = Ok (e, (w1, d1)) /\ only_exprs w w1 /\
      reading (L1 ++ [x]) d1 /\ ila_name_ptr_map_ d1 = ila_name_ptr_map_ d).
    { destruct Hd as [Hsub Hdone Hdom Hf]. destruct (Exprs.is_var x) eqn:Hv.
      - pose proof (entered_weaken _ _ x Hsub (Hvars x Hx Hv)) as Hin. pose proof Hin as (e & He & _).
        exists e, w, d. split; [apply DesExpr_known; [apply Hok|done]|]. split; [apply only_refl|]. split; [|done].
        split; [done| | |done]. { apply Forall_app. split; [done|]. by constructor. }
        intros i [?|?]%Hdom; [by left|]. right. rewrite fmap_app. apply elem_of_app. by left.
      - assert (Hnew : id_expr_map_ d !! Exprs.id x = None).
        { apply eq_None_not_Some. intros [He|He]%Hdom; [apply Hem in He; [congruence|done]|].
          rewrite E, fmap_app in Hids. apply NoDup_app in Hids as (_ & H & _). apply (H _ He). by left. }
        destruct (DesExpr_new FT x w d) as (e & w1 & E1 & Ho & Him & Hs);
          [done| |done|done| |done|intros f Hfx; exact (Hfuns x f Hx Hfx)|].
        + apply Forall_forall. intros a Ha. apply Hn. rewrite E. apply elem_of_app. left. by eapply (Hclosed L1 x L2).
        + apply Forall_forall. intros a Ha. rewrite Forall_forall in Hdone. apply Hdone. by eapply (Hclosed L1 x L2).
        + exists e, w1, (with_expr d (Exprs.id x) e). split; [done|]. split; [done|]. split; [|done].
          assert (Hs1 : id_expr_map_ d ⊆ <[Exprs.id x := e]> (id_expr_map_ d)) by by apply insert_subseteq.
          split; cbn [with_expr id_expr_map_ id_func_map_]; [by etrans| | |done].
          * apply Forall_app. split; [eapply Forall_impl; [exact Hdone|]; intros; by eapply entered_weaken|].
            constructor; [|constructor]. exists e. by rewrite lookup_insert_eq.
          * intros i. rewrite fmap_app, elem_of_app, lookup_insert_is_Some'. intros [<-|[?|?]%Hdom].
            -- right. right. by left.
            -- by left.
            -- right. by left. }
    destruct Hstep as (e & w1 & d1 & E1 & O1 & H1 & N1).
    destruct (IH _ w1 d1 E' H1) as (w2 & d2 & E2 & O2 & H2 & N2). exists w2, d2. split.
    + cbn [fmap list_fmap foldM]. rewrite (ST_bind_run _ _ _ () (w1, d1)); [done|].
      by rewrite (ST_bind_run _ _ _ _ _ E1).
    + split; [by eapply only_trans|]. split; [done|congruence].
Qed.
End exprs.
End image.
End des.
