(* ===== verification/SerDesVars.v ===== *)
(** * Reading back the variables

    The first pass of the deserializer ([DesVarHier]) on the output of the
    serializer: it creates one ILA for each ILA of the tree, in the same
    hierarchy, and in each the variables that the original one declares, in
    order, after those that the child inherits from its parent. *)
From S2P Require Import Prelude Sort Values Container Expr World ExprOp AstHub IlaVars Collect HashAst Rewrite AbsKnob AbsKnobSpec Json SerDes SerSpec SerDesSpec.
Local Open Scope Z_scope.
Import Json J2IDes IlaOk IlaVars.

Section des.
Context {L : Layout}.
Abbreviation ids l := (Exprs.id <$> l).
Abbreviation top_ila := (nil_ila "" None).

(** ** One variable *)
Definition var_of (w : World) (m : objid) (name : string) (s : Sort) : Expr :=
  ExprVar {| h_id := (counter_ w + 1)%N; h_name := name; h_host := Some m; h_sort := s |} [].

Lemma des_var_run st s name m w d ld : sort_ok s = true -> int_sort s -> w_ilas w !! m = Some ld ->
  (forall st, find_tbl st ld name = None) ->
  let v := var_of w m name s in
  des_var st (sort_json s) name m (w, d) =
  Ok (Some v, (set_ila (ExprOps.bump w) m (with_tbl st ld (KeyVec.push_back (tbl st ld) name v).2), d)).
Proof using Type.
  intros Hs Hi Hm Hn v.
  pose proof (AddTbl_run st m v (ExprOps.bump w) ld eq_refl Hm Hn) as Ha.
  assert (Hc : forall f : M Expr,
    f w = Ok (ExprVar {| h_id := (counter_ w + 1)%N; h_name := name; h_host := None; h_sort := s |} [], ExprOps.bump w) ->
    on_world (e ← (v ← f; let v := set_host v m in
                   (if st then Ila.AddState else Ila.AddInput) m (Some v);; mret v); mret (Some e)) (w, d) =
    Ok (Some v, (set_ila (ExprOps.bump w) m (with_tbl st ld (KeyVec.push_back (tbl st ld) name v).2), d))).
  { intros f Hf. unfold on_world. cbn [fst snd]. erewrite (ST_bind_run _ _ w); [reflexivity|].
    rewrite (ST_bind_run _ _ _ _ _ Hf). cbn zeta. rewrite (ST_bind_run _ _ _ () _ Ha). done. }
  destruct s; try discriminate Hs; cbn [sort_json int_sort] in *; unfold des_var, at_uid, at_int;
    erewrite lift_bind_run by reflexivity.
  - change (SortValue.uint64 1 =? 1) with true. cbn iota. destruct st; exact (Hc _ eq_refl).
  - change (SortValue.uint64 2 =? 1) with false. change (SortValue.uint64 2 =? 2) with true. cbn iota.
    rewrite (lift_bind_run _ _ _ bit_width_) by (cbn; by rewrite int32_id).
    destruct st; exact (Hc _ eq_refl).
  - change (SortValue.uint64 3 =? 1) with false. change (SortValue.uint64 3 =? 2) with false.
    change (SortValue.uint64 3 =? 3) with true. cbn iota. destruct Hi as [Ha' Hd'].
    rewrite (lift_bind_run _ _ _ addr_width_) by (cbn; by rewrite int32_id).
    rewrite (lift_bind_run _ _ _ data_width_) by (cbn; by rewrite int32_id).
    destruct st; exact (Hc _ eq_refl).
Qed.

(** The variable that stands for [v]. *)
Definition img (em : gmap objid Expr) (v d : Expr) : Prop :=
  em !! Exprs.id v = Some d /\
  exists h, d = ExprVar h [] /\ h_name h = Exprs.name v /\ h_sort h = Exprs.sort v.

Lemma img_mono em em' v d : em ⊆ em' -> img em v d -> img em' v d.
Proof using Type. intros Hs [H1 H2]. split; [by eapply lookup_weaken|done]. Qed.
Lemma imgs_mono em em' vs ds : em ⊆ em' -> Forall2 (img em) vs ds -> Forall2 (img em') vs ds.
Proof using Type. intros Hs H. eapply Forall2_impl; [exact H|]. intros v d. by apply img_mono. Qed.
Lemma imgs_names em vs ds : Forall2 (img em) vs ds -> Exprs.name <$> ds = Exprs.name <$> vs.
Proof using Type. induction 1 as [|v d vs ds (_ & h & -> & Hn & _) _ IH]; [done|]. cbn. f_equal; [exact Hn|exact IH]. Qed.

(** Different variables stand for different ids. *)
Definition fresh_map (w : World) (em : gmap objid Expr) : Prop :=
  (forall i x, em !! i = Some x -> Exprs.is_var x = true /\ (Exprs.id x <= counter_ w)%N) /\
  (forall i i' x y, em !! i = Some x -> em !! i' = Some y -> Exprs.id x = Exprs.id y -> i = i').

Lemma fresh_map_mono w w' em : (counter_ w <= counter_ w')%N -> fresh_map w em -> fresh_map w' em.
Proof using Type. intros Hc [H1 H2]. split; [|done]. intros i x Hx. destruct (H1 i x Hx). split; [done|lia]. Qed.

Lemma fresh_map_insert w m name s i em : fresh_map w em ->
  fresh_map (ExprOps.bump w) (<[i := var_of w m name s]> em).
Proof using Type.
  intros [H1 H2]. split.
  - intros k x. rewrite lookup_insert_Some. intros [[<- <-]|[_ Hx]]; [cbn; split; [done|lia]|].
    destruct (H1 k x Hx). split; [done|cbn; lia].
  - intros k k' x y. rewrite !lookup_insert_Some.
    intros [[<- <-]|[_ Hx]] [[<- <-]|[_ Hy]] E; [done| | |by eapply H2].
    + destruct (H1 _ _ Hy). cbn in E. lia.
    + destruct (H1 _ _ Hx). cbn in E. lia.
Qed.

(** One entry of the table that is not declared here. *)
Lemma des_var_skip m I S x w d : (Exprs.id x < 2 ^ 64)%N ->
  is_Some (id_expr_map_ d !! Exprs.id x) \/ (Exprs.is_var x = false) \/
    (int_sort (Exprs.sort x) /\ (Exprs.id x ∉ S) /\ (Exprs.id x ∉ I)) ->
  des_var_entry m I S (expr_json x) (w, d) = Ok ((), (w, d)).
Proof using Type.
  intros Hi H. unfold des_var_entry. rewrite (lift_bind_run _ _ _ (Exprs.id x)).
  2:{ unfold at_id. rewrite expr_json_id. cbn [mbind Res_bind]. by apply get_id_uint. }
  unfold members. rewrite (ST_bind_run (gets snd) _ (w, d) d (w, d)) by done.
  destruct (id_expr_map_ d !! Exprs.id x) as [e|] eqn:E; [done|].
  destruct x as [h ps|h v ps|h op fn args ps].
  - destruct H as [[? ?]|[?|(_ & HS & HI)]]; [done|done|]. erewrite lift_bind_run by reflexivity.
    change (SortValue.uint64 I2JSer.kVar =? I2JSer.kVar) with true. cbn iota.
    do 2 (erewrite lift_bind_run by reflexivity). by rewrite !bool_decide_false.
  - erewrite lift_bind_run by reflexivity. done.
  - destruct fn; erewrite lift_bind_run by reflexivity; done.
Qed.

(** One entry that is. *)
Lemma des_var_new (st : bool) m I S x w d ld : (Exprs.id x < 2 ^ 64)%N -> Exprs.is_var x = true ->
  sort_ok (Exprs.sort x) = true -> int_sort (Exprs.sort x) ->
  id_expr_map_ d !! Exprs.id x = None ->
  (if st then Exprs.id x ∈ S else (Exprs.id x ∉ S) /\ (Exprs.id x ∈ I)) ->
  w_ilas w !! m = Some ld -> (forall st, find_tbl st ld (Exprs.name x) = None) ->
  let v := var_of w m (Exprs.name x) (Exprs.sort x) in
  des_var_entry m I S (expr_json x) (w, d) =
  Ok ((), (set_ila (ExprOps.bump w) m (with_tbl st ld (KeyVec.push_back (tbl st ld) (Exprs.name x) v).2),
           with_expr d (Exprs.id x) v)).
Proof using Type.
  intros Hi Hv Hs His Hd Hset Hm Hn v. unfold des_var_entry. rewrite (lift_bind_run _ _ _ (Exprs.id x)).
  2:{ unfold at_id. rewrite expr_json_id. cbn [mbind Res_bind]. by apply get_id_uint. }
  unfold members. rewrite (ST_bind_run (gets snd) _ (w, d) d (w, d)), Hd by done.
  destruct x as [h ps| |]; try discriminate Hv. erewrite lift_bind_run by reflexivity.
  change (SortValue.uint64 I2JSer.kVar =? I2JSer.kVar) with true. cbn iota.
  do 2 (erewrite lift_bind_run by reflexivity). cbn [Exprs.id Exprs.hdr] in *.
  pose proof (des_var_run st _ _ m w d ld Hs His Hm Hn) as E.
  destruct st.
  - rewrite bool_decide_true by done. by rewrite (ST_bind_run _ _ _ _ _ E).
  - destruct Hset as [HS HI]. rewrite bool_decide_false, bool_decide_true by done.
    by rewrite (ST_bind_run _ _ _ _ _ E).
Qed.

(** ** The variables of one ILA *)
Section loop.
Context (FT : gmap objid Func) (tb : list Expr) (lp l ld0 : InstrLvlAbs) (m : objid) (em0 : gmap objid Expr).
Hypothesis Hnodes : Forall (node_ok FT) tb.
Hypothesis Hids : NoDup (ids tb).
Hypothesis Hl : vars_ok l.
Hypothesis Hvar : forall st v, v ∈ KeyVec.vec_ (tbl st l) -> Exprs.is_var v = true.
Hypothesis Hinh : forall st, KeyVec.vec_ (tbl st l) = KeyVec.vec_ (tbl st lp) ++ own st lp l.
Hypothesis Htb : forall st x v, x ∈ tb -> v ∈ own st lp l -> Exprs.id x = Exprs.id v -> x = v.
Hypothesis Hold : forall st v, v ∈ KeyVec.vec_ (tbl st lp) -> is_Some (em0 !! Exprs.id v).
Hypothesis Hnew : forall st v, v ∈ own st lp l -> em0 !! Exprs.id v = None.
Hypothesis Hdisj : forall v v', v ∈ own true lp l -> v' ∈ own false lp l -> Exprs.id v <> Exprs.id v'.

Definition sel (st : bool) (P : list Expr) : list Expr :=
  filter (fun x => Exprs.id x ∈ ids (own st lp l)) P.

Record declaring (P : list Expr) (w : World) (d : J2IDes) (ld : InstrLvlAbs) : Prop := {
  dc_at : w_ilas w !! m = Some ld;
  dc_vars : vars_ok ld;
  dc_tbl st : Forall2 (img (id_expr_map_ d)) (KeyVec.vec_ (tbl st lp) ++ sel st P) (KeyVec.vec_ (tbl st ld));
  dc_dom i : is_Some (id_expr_map_ d !! i) <-> is_Some (em0 !! i) \/ exists st, i ∈ ids (sel st P);
  dc_map : fresh_map w (id_expr_map_ d);
  dc_rest : same_rest ld0 ld }.

Lemma sel_in st P x : x ∈ sel st P -> x ∈ P /\ Exprs.id x ∈ ids (own st lp l).
Proof using Type. intros H%list_elem_of_filter. tauto. Qed.

Lemma own_in st v : v ∈ own st lp l -> v ∈ KeyVec.vec_ (tbl st l).
Proof using Hinh. intros H. rewrite Hinh. apply elem_of_app. by right. Qed.

(** Two variables of one name are one variable. *)
Lemma one_name st st' x y : x ∈ KeyVec.vec_ (tbl st l) -> y ∈ KeyVec.vec_ (tbl st' l) ->
  Exprs.name y = Exprs.name x -> y = x.
Proof using Hl.
  intros Hx%(tbl_elem _ Hl) Hy E. destruct (decide (st' = st)) as [->|Hst].
  - apply (tbl_elem _ Hl) in Hy. congruence.
  - apply (tbl_other _ Hl) in Hy. assert (negb st' = st) as E' by by destruct st, st'. rewrite E', E in Hy. congruence.
Qed.

Lemma free_name P x Q st w d ld : tb = P ++ x :: Q -> x ∈ own st lp l -> declaring P w d ld ->
  forall st', find_tbl st' ld (Exprs.name x) = None.
Proof using Hids Hinh Hl Hold Hnew Htb.
  intros E Hx [_ Hv Ht _ _ _] st'. destruct (find_tbl st' ld (Exprs.name x)) as [v|] eqn:Ev; [|done]. exfalso.
  destruct (find_tbl_elem _ Hv _ _ _ Ev) as [Hin Hn].
  assert (Hy : exists y, y ∈ KeyVec.vec_ (tbl st' lp) ++ sel st' P /\ Exprs.name y = Exprs.name x).
  { pose proof (imgs_names _ _ _ (Ht st')) as En. apply (list_elem_of_fmap_2 Exprs.name) in Hin.
    rewrite En, Hn in Hin. apply list_elem_of_fmap in Hin as (y & ? & ?). by exists y. }
  destruct Hy as (y & Hy & En).
  assert (Hyl : y ∈ KeyVec.vec_ (tbl st' l)).
  { rewrite Hinh. rewrite elem_of_app in Hy |- *. destruct Hy as [Hy|Hy]; [by left|]. right.
    apply sel_in in Hy as [Hp (v' & Ei & Hv')%list_elem_of_fmap].
    assert (y = v') as ->; [|done]. apply (Htb st'); [|done..]. rewrite E. apply elem_of_app. by left. }
  pose proof (one_name _ _ _ _ (own_in _ _ Hx) Hyl En) as ->.
  apply elem_of_app in Hy as [Hy|[Hp _]%sel_in].
  - apply Hold in Hy. rewrite (Hnew _ _ Hx) in Hy. by destruct Hy.
  - rewrite E, fmap_app in Hids. apply NoDup_app in Hids as (_ & H & _).
    apply (H (Exprs.id x)); [by apply list_elem_of_fmap_2|by left].
Qed.

Lemma sel_snoc st P x : sel st (P ++ [x]) = sel st P ++ (if decide (Exprs.id x ∈ ids (own st lp l)) then [x] else []).
Proof using Type. unfold sel. by rewrite filter_app. Qed.

Lemma declare_step P x Q w d ld : tb = P ++ x :: Q -> declaring P w d ld ->
  exists w' d' ld', des_var_entry m (ids (KeyVec.vec_ (inputs_ l))) (ids (KeyVec.vec_ (states_ l))) (expr_json x) (w, d)
      = Ok ((), (w', d')) /\ declaring (P ++ [x]) w' d' ld' /\ id_expr_map_ d ⊆ id_expr_map_ d' /\
    w_ilas w' = <[m := ld']> (w_ilas w) /\ w_instrs w' = w_instrs w /\ (counter_ w <= counter_ w')%N /\
    id_func_map_ d' = id_func_map_ d /\ ila_name_ptr_map_ d' = ila_name_ptr_map_ d.
Proof using All.
  intros E Hd. pose proof Hd as [Hm Hv Ht Hdom Hmap Hr].
  assert (Hx : x ∈ tb) by (rewrite E; apply elem_of_app; right; by left).
  pose proof Hnodes as Hn. rewrite Forall_forall in Hn. pose proof (Hn x Hx) as (Hxi & Hxs & Hxk & _).
  destruct (decide (exists st, Exprs.id x ∈ ids (own st lp l))) as [Hst|Hst].
  - destruct Hst as (st & (v & Ei & Hv')%list_elem_of_fmap). pose proof (Htb _ _ _ Hx Hv' Ei) as <-. clear Ei.
    pose proof (free_name _ _ _ _ _ _ _ E Hv' Hd) as Hfree.
    assert (Hunk : id_expr_map_ d !! Exprs.id x = None).
    { apply eq_None_not_Some. intros [[y Hy]|(st' & (y & Ey & [Hp _]%sel_in)%list_elem_of_fmap)]%Hdom.
      - by rewrite (Hnew _ _ Hv') in Hy.
      - rewrite E, fmap_app in Hids. apply NoDup_app in Hids as (_ & H & _).
        apply (H (Exprs.id x)); [rewrite Ey; by apply list_elem_of_fmap_2|by left]. }
    assert (Hoth : Exprs.id x ∉ ids (own (negb st) lp l)).
    { intros (y & Ey & Hy)%list_elem_of_fmap. destruct st; [by eapply Hdisj|]. by eapply (Hdisj y x). }
    assert (Hset : if st then Exprs.id x ∈ ids (KeyVec.vec_ (states_ l))
                   else (Exprs.id x ∉ ids (KeyVec.vec_ (states_ l))) /\ (Exprs.id x ∈ ids (KeyVec.vec_ (inputs_ l)))).
    { pose proof (list_elem_of_fmap_2 Exprs.id _ _ (own_in _ _ Hv')) as Hi. destruct st; [done|]. split; [|done].
      change (states_ l) with (tbl true l). rewrite (Hinh true), fmap_app, elem_of_app.
      intros [(y & Ey & Hy)%list_elem_of_fmap|H]; [|done]. apply Hold in Hy. rewrite <- Ey, (Hnew _ _ Hv') in Hy. by destruct Hy. }
    pose proof (des_var_new st m _ _ x w d ld Hxi (Hvar _ _ (own_in _ _ Hv')) Hxs Hxk Hunk Hset Hm Hfree) as Es.
    set (v := var_of w m _ _) in Es. set (ld' := with_tbl st ld (KeyVec.push_back (tbl st ld) (Exprs.name x) v).2) in Es.
    eexists _, _, ld'. split; [exact Es|]. cbn [with_expr id_expr_map_ id_func_map_ ila_name_ptr_map_ set_ila ExprOps.bump w_ilas w_instrs counter_].
    assert (Hsub : id_expr_map_ d ⊆ <[Exprs.id x := v]> (id_expr_map_ d)) by by apply insert_subseteq.
    split; [|split_and!; [done|done|done|lia|done|done]]. split; cbn [with_expr id_expr_map_ set_ila w_ilas].
    + by rewrite lookup_insert_eq.
    + by apply (with_tbl_vars st ld v).
    + intros st'. rewrite sel_snoc, app_assoc. destruct (decide (st' = st)) as [->|Hne].
      * rewrite decide_True by by apply list_elem_of_fmap_2.
        assert (Hvec : KeyVec.vec_ (tbl st ld') = KeyVec.vec_ (tbl st ld) ++ [v]).
        { assert (Hp : KeyVec.vec_ (KeyVec.push_back (tbl st ld) (Exprs.name x) v).2 = KeyVec.vec_ (tbl st ld) ++ [v]).
          { unfold KeyVec.push_back. pose proof (Hfree st) as Hf. unfold find_tbl in Hf.
            apply find_None in Hf; [by rewrite Hf|]. by destruct st; apply Hv. }
          subst ld'. rewrite <- Hp. by destruct st. }
        rewrite Hvec. apply Forall2_app; [by eapply imgs_mono, Ht|]. constructor; [|constructor].
        split; [by rewrite lookup_insert_eq|by eexists].
      * assert (st' = negb st) as -> by by destruct st, st'. rewrite decide_False, app_nil_r by done.
        assert (Hvec : tbl (negb st) ld' = tbl (negb st) ld) by (subst ld'; by destruct st).
        rewrite Hvec. by eapply imgs_mono, Ht.
    + intros i. rewrite lookup_insert_is_Some', Hdom. split.
      * intros [<-|[?|(st' & Hi)]]; [|by left|].
        -- right. exists st. rewrite sel_snoc, decide_True, fmap_app by by apply list_elem_of_fmap_2.
           apply elem_of_app. right. by left.
        -- right. exists st'. rewrite sel_snoc, fmap_app. apply elem_of_app. by left.
      * intros [?|(st' & Hi)]; [right; by left|]. rewrite sel_snoc, fmap_app in Hi.
        apply elem_of_app in Hi as [Hi|Hi]; [right; right; by exists st'|]. left.
        destruct (decide _); [by apply list_elem_of_singleton in Hi|by apply elem_of_nil in Hi].
    + by apply fresh_map_insert.
    + unfold same_rest in *. subst ld'. rewrite Hr. by destruct st, ld0.
  - exists w, d, ld. assert (Hsel : forall st, sel st (P ++ [x]) = sel st P).
    { intros st. rewrite sel_snoc, decide_False, app_nil_r; [done|]. intros H. apply Hst. by exists st. }
    split; [|split; [split; [done|done|intros st; by rewrite Hsel| |done|done]|split_and!; [done| |done|lia|done|done]]].
    + apply des_var_skip; [done|].
      destruct (id_expr_map_ d !! Exprs.id x) as [e|] eqn:Ee; [left; by eexists|]. right. right.
      assert (Hno : forall st, Exprs.id x ∉ ids (KeyVec.vec_ (tbl st l))).
      { intros st. rewrite (Hinh st), fmap_app, elem_of_app. intros [(y & Ey & Hy)%list_elem_of_fmap|H].
        - apply Hold in Hy. rewrite <- Ey in Hy.
          assert (Hk : is_Some (id_expr_map_ d !! Exprs.id x)) by (apply Hdom; by left).
          rewrite Ee in Hk. by destruct Hk.
        - apply Hst. by exists st. }
      split; [done|]. split; [exact (Hno true)|exact (Hno false)].
    + intros i. rewrite Hdom. by setoid_rewrite Hsel.
    + by rewrite insert_id.
Qed.

Lemma declare_loop Q : forall P w d ld, tb = P ++ Q -> declaring P w d ld ->
  exists w' d' ld', foldM (fun j (_ : unit) =>
      des_var_entry m (ids (KeyVec.vec_ (inputs_ l))) (ids (KeyVec.vec_ (states_ l))) j) (expr_json <$> Q) () (w, d)
      = Ok ((), (w', d')) /\ declaring tb w' d' ld' /\ id_expr_map_ d ⊆ id_expr_map_ d' /\
    w_ilas w' = <[m := ld']> (w_ilas w) /\ w_instrs w' = w_instrs w /\ (counter_ w <= counter_ w')%N /\
    id_func_map_ d' = id_func_map_ d /\ ila_name_ptr_map_ d' = ila_name_ptr_map_ d.
Proof using All.
  induction Q as [|x Q IH]; intros P w d ld E Hd.
  - rewrite app_nil_r in E. subst P. exists w, d, ld. split; [done|]. split; [done|].
    split_and!; [done| |done|lia|done|done]. by rewrite insert_id by apply Hd.
  - destruct (declare_step P x Q w d ld E Hd) as (w1 & d1 & ld1 & E1 & H1 & S1 & I1 & J1 & C1 & F1 & N1).
    destruct (IH (P ++ [x]) w1 d1 ld1) as (w2 & d2 & ld2 & E2 & H2 & S2 & I2 & J2 & C2 & F2 & N2);
      [by rewrite <- app_assoc|done|].
    exists w2, d2, ld2. split; [|split; [done|]].
    + cbn [fmap list_fmap foldM]. by rewrite (ST_bind_run _ _ _ _ _ E1).
    + split_and!; [by etrans| |congruence|lia|congruence|congruence]. by rewrite I2, I1, insert_insert_eq.
Qed.
End loop.

(** ** The members of an ILA *)
Lemma ila_name_at n cs : at_string (ila_json n cs) "n" = Ok (l_name (en_ila n)).
Proof using Type. unfold ila_json. by destruct (fetch_ (en_ila n)). Qed.
Lemma ila_childs_at n cs : at_key (ila_json n cs) "c" = Ok (JArr cs).
Proof using Type. unfold ila_json. by destruct (fetch_ (en_ila n)). Qed.
Lemma ila_vars_at (st : bool) n cs :
  at_key (ila_json n cs) (if st then "s" else "i") = Ok (id_arr (KeyVec.vec_ (tbl st (en_ila n)))).
Proof using Type. unfold ila_json. by destruct st, (fetch_ (en_ila n)). Qed.

(** ** Creating the ILA *)
Definition parent_at (par : option objid) (ldp : InstrLvlAbs) (w : World) : Prop :=
  match par with Some p => w_ilas w !! p = Some ldp | None => ldp = top_ila end.
Definition add_child (l : InstrLvlAbs) (name : string) (m : objid) : InstrLvlAbs :=
  Ila.with_childs l (KeyVec.push_back (childs_ l) name m).2.
Definition ilas_le (w : World) : Prop := forall m, is_Some (w_ilas w !! m) -> (m <= counter_ w)%N.

Record created (par : option objid) (ldp : InstrLvlAbs) (name : string) (w w1 : World) (ld0 : InstrLvlAbs) : Prop := {
  cr_counter : counter_ w1 = (counter_ w + 1)%N;
  cr_instrs : w_instrs w1 = w_instrs w;
  cr_new : w_ilas w1 !! (counter_ w + 1)%N = Some ld0;
  cr_vars : vars_ok ld0;
  cr_tbl st : KeyVec.vec_ (tbl st ld0) = KeyVec.vec_ (tbl st ldp);
  cr_rest : same_rest (nil_ila name par) ld0;
  cr_frame i : i <> (counter_ w + 1)%N -> par <> Some i -> w_ilas w1 !! i = w_ilas w !! i;
  cr_parent : parent_at par (if par is Some _ then add_child ldp name (counter_ w + 1)%N else ldp) w1 }.

Lemma create_run par ldp name w : parent_at par ldp w -> vars_ok ldp -> ilas_le w ->
  exists ld0 w1, match par with Some p => Ila.NewChild p name | None => Ila.New name None end w
      = Ok ((counter_ w + 1)%N, w1) /\ created par ldp name w w1 ld0.
Proof using Type.
  intros Hp Hv Hle. destruct par as [p|]; cbn in Hp.
  - assert (Hne : p <> (counter_ w + 1)%N) by (pose proof (Hle p ltac:(by eexists)); lia).
    exists (child_ila ldp p name). eexists. split; [by apply NewChild_run|].
    split; cbn [counter_ w_ilas w_instrs parent_at]; [done|done| |by apply child_ila_vars| | | |].
    + by rewrite lookup_insert_ne, lookup_insert_eq.
    + intros []; cbn; apply vec_push_vars, keyed_NoDup, Hv.
    + done.
    + intros i Hi Hpi. by rewrite !lookup_insert_ne by congruence.
    + by rewrite lookup_insert_eq.
  - subst ldp. exists (nil_ila name None). eexists. split; [reflexivity|].
    split; cbn [counter_ w_ilas w_instrs parent_at]; [done|done|by rewrite lookup_insert_eq|apply nil_ila_vars|by intros []|done| |done].
    intros i Hi _. by rewrite lookup_insert_ne.
Qed.

(** ** The hierarchy *)
Section hierarchy.
Context (T : gmap objid Expr) (FT : gmap objid Func) (t : tree).
Hypothesis Hs : Forall (fun p => scoped p.1 p.2) (pentries top_ila t).
Hypothesis Hc : coherent T (flat_map post (roots t)).
Hypothesis Hd : NoDup (ids (flat_map owns (pentries top_ila t))).
Hypothesis Hnm : NoDup (ila_names t).
Hypothesis Hok : Forall (node_ok FT) (flat_map post (roots t)).
Hypothesis Hvo : Forall (fun n => vars_ok (en_ila n)) (entries t).

Abbreviation jtable := (arr (expr_json <$> table t)).
Definition pname (p : InstrLvlAbs * entry) : string := l_name (en_ila p.2).

Record inv (E1 : list (InstrLvlAbs * entry)) (w : World) (d : J2IDes) : Prop := {
  iv_dom i : is_Some (id_expr_map_ d !! i) <-> i ∈ ids (flat_map owns E1);
  iv_name k : is_Some (ila_name_ptr_map_ d !! k) <-> k ∈ pname <$> E1;
  iv_le k m : ila_name_ptr_map_ d !! k = Some m -> (m <= counter_ w)%N;
  iv_inj k k' m : ila_name_ptr_map_ d !! k = Some m -> ila_name_ptr_map_ d !! k' = Some m -> k = k';
  iv_map : fresh_map w (id_expr_map_ d);
  iv_ilas : ilas_le w;
  iv_func : id_func_map_ d = ∅ }.

(** What a step changes: nothing that existed, except the children of [par]. *)
Record vstep (par : option objid) (w : World) (d : J2IDes) (w' : World) (d' : J2IDes) : Prop := {
  vs_em : id_expr_map_ d ⊆ id_expr_map_ d';
  vs_nm : ila_name_ptr_map_ d ⊆ ila_name_ptr_map_ d';
  vs_instrs : w_instrs w' = w_instrs w;
  vs_counter : (counter_ w <= counter_ w')%N;
  vs_ilas i : (i <= counter_ w)%N -> par <> Some i -> w_ilas w' !! i = w_ilas w !! i }.

Lemma vstep_refl par w d : vstep par w d w d.
Proof using Type. by split. Qed.
Lemma vstep_trans par w1 d1 w2 d2 w3 d3 : vstep par w1 d1 w2 d2 -> vstep par w2 d2 w3 d3 -> vstep par w1 d1 w3 d3.
Proof using Type.
  intros [A1 B1 C1 D1 F1] [A2 B2 C2 D2 F2]. split; [by etrans|by etrans|congruence|lia|].
  intros i Hi Hp. rewrite F2, F1 by (done || lia). done.
Qed.

Lemma nodes_at : Forall (node_ok FT) (table t).
Proof using Hok. apply Forall_forall. intros x [?%elem_of_nil|Hx]%adds_sub; [done|]. rewrite Forall_forall in Hok. auto. Qed.
Lemma table_ids : NoDup (ids (table t)).
Proof using Type. apply adds_NoDup. constructor. Qed.
Lemma table_in x : x ∈ table t <-> x ∈ flat_map post (roots t).
Proof using Hc. unfold table. rewrite (adds_elem T); [by rewrite elem_of_nil; naive_solver|constructor|done]. Qed.

Section unit.
Context (E1 E2 : list (InstrLvlAbs * entry)) (lp : InstrLvlAbs) (n : entry).
Hypothesis HE : pentries top_ila t = E1 ++ (lp, n) :: E2.

Lemma entry_in : n ∈ entries t.
Proof using HE.
  rewrite <- (pentries_entries top_ila), HE. apply list_elem_of_fmap. exists (lp, n). split; [done|].
  apply elem_of_app. right. by left.
Qed.

Lemma name_new : pname (lp, n) ∉ pname <$> E1.
Proof using HE Hnm.
  intros H. unfold ila_names in Hnm. rewrite <- (pentries_entries top_ila), HE, <- list_fmap_compose in Hnm.
  rewrite fmap_app in Hnm. apply NoDup_app in Hnm as (_ & Hn & _). apply (Hn (pname (lp, n))); [done|by left].
Qed.

Lemma ids_at st : mapM get_id (I2JSer.id_json <$> ids (KeyVec.vec_ (tbl st (en_ila n)))) =
  Ok (ids (KeyVec.vec_ (tbl st (en_ila n)))).
Proof using Hok HE.
  apply get_ids. apply Forall_fmap, Forall_forall. intros v Hv. rewrite Forall_forall in Hok.
  apply (Hok v). by eapply tbl_roots.
Qed.

Lemma DesVarUnit_run cs par ldp w d : inv E1 w d -> parent_at par ldp w -> vars_ok ldp ->
  (forall st, Forall2 (img (id_expr_map_ d)) (KeyVec.vec_ (tbl st lp)) (KeyVec.vec_ (tbl st ldp))) ->
  exists m ld w' d', DesVarUnit (ila_json n cs) jtable par (w, d) = Ok ((), (w', d')) /\
    inv (E1 ++ [(lp, n)]) w' d' /\ vstep par w d w' d' /\
    ila_name_ptr_map_ d' !! pname (lp, n) = Some m /\ (counter_ w < m)%N /\
    w_ilas w' !! m = Some ld /\ vars_ok ld /\ same_rest (nil_ila (pname (lp, n)) par) ld /\
    (forall st, Forall2 (img (id_expr_map_ d')) (KeyVec.vec_ (tbl st (en_ila n))) (KeyVec.vec_ (tbl st ld))) /\
    parent_at par (if par is Some _ then add_child ldp (pname (lp, n)) m else ldp) w'.
Proof using All.
  intros Hi Hp Hvp Him. set (name := pname (lp, n)). set (m := (counter_ w + 1)%N).
  destruct (create_run par ldp name w Hp Hvp (iv_ilas _ _ _ Hi)) as (ld0 & w1 & Ec & [C1 C2 C3 C4 C5 C6 C7 C8]).
  set (d1 := {| id_expr_map_ := id_expr_map_ d; id_func_map_ := id_func_map_ d;
                ila_name_ptr_map_ := <[name := m]> (ila_name_ptr_map_ d) |}).
  assert (Hfresh : ila_name_ptr_map_ d !! name = None).
  { apply eq_None_not_Some. rewrite (iv_name _ _ _ Hi). apply name_new. }
  pose proof (here_scoped t E1 E2 lp n Hs HE) as Hsc.
  assert (Hold : forall st v, v ∈ KeyVec.vec_ (tbl st lp) -> is_Some (id_expr_map_ d !! Exprs.id v)).
  { intros st v Hv. apply (iv_dom _ _ _ Hi). apply list_elem_of_fmap_2.
    eapply (tvars_before t E1 lp n E2); [done|done|]. apply tvars_tbl. by exists st. }
  assert (Hnew : forall st v, v ∈ own st lp (en_ila n) -> id_expr_map_ d !! Exprs.id v = None).
  { intros st v Hv. apply eq_None_not_Some. rewrite (iv_dom _ _ _ Hi). intros (y & Ey & Hy)%list_elem_of_fmap.
    refine (owns_disjoint t E1 E2 lp n Hd HE v y _ Hy Ey). apply owns_own. by exists st. }
  destruct (declare_loop FT (table t) lp (en_ila n) ld0 m (id_expr_map_ d) nodes_at table_ids) with
    (Q := table t) (P := @nil Expr) (w := w1) (d := d1) (ld := ld0)
    as (w' & d' & ld & E & [H1 H2 H3 H4 Hmap H5] & Hem & Hw & Hin & Hco & Hfu & Hna).
  - rewrite Forall_forall in Hvo. apply Hvo, entry_in.
  - intros st v Hv. apply (sc_vars _ _ Hsc), tvars_tbl. by exists st.
  - apply (sc_inherit _ _ Hsc).
  - intros st x v Hx%table_in Hv Ei. eapply (coherent_eq T); [exact Hc|done| |done].
    eapply tbl_roots; [exact HE|]. by eapply own_tbl.
  - done.
  - done.
  - intros v v' Hv Hv' Ei. pose proof (own_NoDup t E1 E2 lp n Hd HE) as Ho. unfold owns in Ho. cbn [fst snd] in Ho.
    rewrite fmap_app in Ho. apply NoDup_app in Ho as (_ & Ho & _). apply (Ho (Exprs.id v')); [by apply list_elem_of_fmap_2|].
    rewrite <- Ei. by apply list_elem_of_fmap_2.
  - done.
  - split; [done|done| | |eapply fresh_map_mono, Hi; lia|apply same_rest_refl].
    + intros st. rewrite C5. unfold sel. rewrite filter_nil, app_nil_r. apply Him.
    + intros i. split; [by left|]. intros [?|(st & Hx)]; [done|]. by apply elem_of_nil in Hx.
  - assert (Hsel : forall st, sel lp (en_ila n) st (table t) = own st lp (en_ila n)).
    { intros st. unfold sel. by eapply (table_own T). }
    exists m, ld, w', d'. split.
    { unfold DesVarUnit. rewrite (lift_bind_run _ _ _ name) by apply ila_name_at.
      unfold members. rewrite (ST_bind_run (gets snd) _ (w, d) d (w, d)) by done.
      rewrite Hfresh. rewrite (lift_bind_run _ _ _ ()) by done.
      rewrite (ST_bind_run _ _ _ m (w1, d)).
      2:{ unfold on_world. cbn [fst snd]. by rewrite Ec. }
      rewrite (ST_bind_run _ _ _ () (w1, d1)) by done.
      rewrite (lift_bind_run _ _ _ (ids (KeyVec.vec_ (inputs_ (en_ila n))))).
      2:{ rewrite (ila_vars_at false). apply (ids_at false). }
      rewrite (lift_bind_run _ _ _ (ids (KeyVec.vec_ (states_ (en_ila n))))).
      2:{ rewrite (ila_vars_at true). apply (ids_at true). }
      rewrite arr_elements. exact E. }
    assert (Hmw : w_ilas w1 !! m = Some ld0) by done.
    split; [split|split].
    + intros i. rewrite H4, (iv_dom _ _ _ Hi), flat_map_app, fmap_app, elem_of_app. cbn [flat_map].
      rewrite app_nil_r. apply or_iff_compat_l. setoid_rewrite Hsel. unfold owns. cbn [fst snd].
      rewrite fmap_app, elem_of_app. split; [intros [[] ?]; auto|intros [?|?]; [by exists false|by exists true]].
    + intros k. rewrite Hna. cbn [d1 ila_name_ptr_map_]. rewrite lookup_insert_is_Some', (iv_name _ _ _ Hi), fmap_app, elem_of_app.
      cbn. rewrite list_elem_of_singleton. naive_solver.
    + intros k i. rewrite Hna. cbn [d1 ila_name_ptr_map_]. rewrite lookup_insert_Some. intros [[<- <-]|[_ Hk]]; [lia|].
      pose proof (iv_le _ _ _ Hi _ _ Hk). lia.
    + intros k k' i. rewrite Hna. cbn [d1 ila_name_ptr_map_]. rewrite !lookup_insert_Some.
      intros [[<- <-]|[_ Hk]] [[<- E']|[_ Hk']]; [done| | |by eapply (iv_inj _ _ _ Hi)].
      * pose proof (iv_le _ _ _ Hi _ _ Hk'). unfold m in *. lia.
      * subst i. pose proof (iv_le _ _ _ Hi _ _ Hk). unfold m in *. lia.
    + done.
    + intros i. rewrite Hw, lookup_insert_is_Some'. intros [<-|His]; [lia|].
      destruct (decide (i = m)) as [->|Him']; [lia|]. destruct (decide (par = Some i)) as [->|Hpi].
      * cbn in Hp. pose proof (iv_ilas _ _ _ Hi i ltac:(by eexists)). lia.
      * rewrite C7 in His by done. pose proof (iv_ilas _ _ _ Hi i His). lia.
    + rewrite Hfu. apply Hi.
    + split; [exact Hem| |congruence|lia|].
      * rewrite Hna. by apply insert_subseteq.
      * intros i Hle Hpi. rewrite Hw, lookup_insert_ne by (unfold m; lia). apply C7; [unfold m in *; lia|done].
    + split; [rewrite Hna; cbn; by rewrite lookup_insert_eq|]. split; [unfold m; lia|]. split; [done|]. split; [done|].
      split; [by eapply same_rest_trans|]. split.
      * intros st. rewrite (sc_inherit _ _ Hsc st), <- (Hsel st). apply H3.
      * destruct par as [p|]; [|done]. cbn in C8 |- *. rewrite Hw, lookup_insert_ne; [done|].
        intros <-. cbn in Hp. pose proof (iv_ilas _ _ _ Hi m ltac:(by eexists)). unfold m in *. lia.
Qed.
End unit.

(** ** All ILAs

    A node of the tree with its parent, in the order of the visit. *)
Fixpoint pnodes (par : option entry) (t0 : tree) : list (option entry * tree) :=
  (par, t0) :: let 'Node n cs := t0 in flat_map (pnodes (Some n)) cs.

Definition ename (t0 : tree) : string := l_name (en_ila (root t0)).

(** The parent, as it is known by name. *)
Definition linked (nm : gmap string objid) (pe : option entry) (par : option objid) : Prop :=
  match pe, par with
  | None, None => True
  | Some p, Some i => nm !! l_name (en_ila p) = Some i
  | _, _ => False
  end.

(** The new ILA of a node. *)
Record rel (lo : objid) (em : gmap objid Expr) (nm : gmap string objid) (wi : gmap objid InstrLvlAbs)
    (pt : option entry * tree) (m : objid) (ld : InstrLvlAbs) : Prop := {
  rl_lo : (lo < m)%N;
  rl_name : nm !! ename pt.2 = Some m;
  rl_at : wi !! m = Some ld;
  rl_vars : vars_ok ld;
  rl_tbl st : Forall2 (img em) (KeyVec.vec_ (tbl st (en_ila (root pt.2)))) (KeyVec.vec_ (tbl st ld));
  rl_parent : linked nm pt.1 (parent_ ld);
  rl_rest : same_rest (Ila.with_childs (nil_ila (ename pt.2) (parent_ ld)) (childs_ ld)) ld;
  rl_childs : Forall2 (fun c i => nm !! ename c = Some i) (subs pt.2) (KeyVec.vec_ (childs_ ld)) }.
Definition related (lo : objid) em nm wi pt : Prop := exists m ld, rel lo em nm wi pt m ld.

Lemma related_step lo par w d w' d' pt : vstep par w d w' d' ->
  (match par with Some p => (p <= lo)%N | None => True end) ->
  (forall k m, ila_name_ptr_map_ d !! k = Some m -> (m <= counter_ w)%N) ->
  related lo (id_expr_map_ d) (ila_name_ptr_map_ d) (w_ilas w) pt ->
  related lo (id_expr_map_ d') (ila_name_ptr_map_ d') (w_ilas w') pt.
Proof using Type.
  intros [Se Sn _ _ Fi] Hp Hle (m & ld & [H1 H2 H3 H4 H5 H6 H7 H8]). exists m, ld.
  split; [done|by eapply lookup_weaken| |done| | |done|].
  - rewrite Fi; [done|by eapply Hle|]. intros ->. lia.
  - intros st. by eapply imgs_mono, H5.
  - unfold linked in *. destruct pt.1, (parent_ ld); try done. by eapply lookup_weaken.
  - eapply Forall2_impl; [exact H8|]. intros c i Hci. cbn beta in *. by eapply lookup_weaken.
Qed.

Definition hier_post (t0 : tree) (lp : InstrLvlAbs) (pe : option entry) (par : option objid) (ldp : InstrLvlAbs)
    (E1 : list (InstrLvlAbs * entry)) (w : World) (d : J2IDes) (w' : World) (d' : J2IDes) (m : objid) : Prop :=
  inv (E1 ++ pentries lp t0) w' d' /\ vstep par w d w' d' /\
  ila_name_ptr_map_ d' !! ename t0 = Some m /\
  parent_at par (if par is Some _ then add_child ldp (ename t0) m else ldp) w' /\
  Forall (related (counter_ w) (id_expr_map_ d') (ila_name_ptr_map_ d') (w_ilas w')) (pnodes pe t0).

Definition hier_spec (t0 : tree) : Prop := forall k par pe lp ldp E1 E2 w d,
  (depth (tree_json t0) < k)%nat -> pentries top_ila t = E1 ++ pentries lp t0 ++ E2 -> inv E1 w d ->
  parent_at par ldp w -> vars_ok ldp -> linked (ila_name_ptr_map_ d) pe par ->
  (forall st, Forall2 (img (id_expr_map_ d)) (KeyVec.vec_ (tbl st lp)) (KeyVec.vec_ (tbl st ldp))) ->
  exists w' d' m, DesVarHier k (tree_json t0) jtable par (w, d) = Ok ((), (w', d')) /\
    hier_post t0 lp pe par ldp E1 w d w' d' m.

(** The loop over the children. *)
Lemma childs_loop k n m ld cs : Forall hier_spec cs -> vars_ok ld ->
  (forall c, c ∈ cs -> (depth (tree_json c) < k)%nat) -> forall kv E1 E2 w d,
  pentries top_ila t = E1 ++ flat_map (pentries (en_ila n)) cs ++ E2 -> inv E1 w d ->
  w_ilas w !! m = Some (Ila.with_childs ld kv) -> ila_name_ptr_map_ d !! l_name (en_ila n) = Some m ->
  (forall key, is_Some (KeyVec.map_ kv !! key) -> key ∈ pname <$> E1) ->
  (forall st, Forall2 (img (id_expr_map_ d)) (KeyVec.vec_ (tbl st (en_ila n))) (KeyVec.vec_ (tbl st ld))) ->
  exists w' d' kv' is_, foldM (fun j (_ : unit) => DesVarHier k j jtable (Some m)) (map tree_json cs) () (w, d)
      = Ok ((), (w', d')) /\
    inv (E1 ++ flat_map (pentries (en_ila n)) cs) w' d' /\ vstep (Some m) w d w' d' /\
    w_ilas w' !! m = Some (Ila.with_childs ld kv') /\ KeyVec.vec_ kv' = KeyVec.vec_ kv ++ is_ /\
    Forall2 (fun c i => ila_name_ptr_map_ d' !! ename c = Some i) cs is_ /\
    Forall (related (counter_ w) (id_expr_map_ d') (ila_name_ptr_map_ d') (w_ilas w')) (flat_map (pnodes (Some n)) cs).
Proof using Hnm.
  intros Hspec Hv. induction Hspec as [|c cs Hcs _ IH]; intros Hdep kv E1 E2 w d HE Hi Hm Hn Hkey Him.
  - exists w, d, kv, []. split; [done|]. cbn [flat_map]. rewrite !app_nil_r. split_and!; [done|apply vstep_refl|done|done|constructor|constructor].
  - cbn [flat_map] in HE. rewrite <- app_assoc in HE.
    destruct (Hcs k (Some m) (Some n) (en_ila n) (Ila.with_childs ld kv) E1 _ w d (Hdep c ltac:(by left)) HE Hi Hm)
      as (w1 & d1 & i & R1 & I1 & V1 & N1 & P1 & Q1); [by destruct Hv|done|intros []; apply (Him true) || apply (Him false)|].
    cbn [parent_at] in P1. set (kv1 := (KeyVec.push_back kv (ename c) i).2).
    assert (Hp1 : w_ilas w1 !! m = Some (Ila.with_childs ld kv1)) by exact P1. clear P1.
    assert (Hne : KeyVec.map_ kv !! ename c = None).
    { apply eq_None_not_Some. intros Hk%Hkey. destruct c as [nc ccs]. cbn [pentries] in HE.
      by apply (name_new E1 _ (en_ila n) nc HE) in Hk. }
    assert (Hkv1 : KeyVec.vec_ kv1 = KeyVec.vec_ kv ++ [i]) by (unfold kv1, KeyVec.push_back; by rewrite Hne).
    pose proof V1 as [Ve Vn _ Vc _].
    destruct (IH ltac:(intros; apply Hdep; by right) kv1 (E1 ++ pentries (en_ila n) c) E2 w1 d1) as
      (w2 & d2 & kv2 & is_ & R2 & I2 & V2 & P2 & K2 & F2 & Q2).
    + by rewrite HE, <- !app_assoc.
    + done.
    + done.
    + by eapply lookup_weaken.
    + intros key. unfold kv1, KeyVec.push_back. rewrite Hne. cbn. rewrite lookup_insert_is_Some', fmap_app, elem_of_app.
      intros [<-|?]; [right|left; by apply Hkey]. destruct c as [nc ccs]. by left.
    + intros st. by eapply imgs_mono, Him.
    + exists w2, d2, kv2, (i :: is_). split.
      { cbn [map foldM]. by rewrite (ST_bind_run _ _ _ _ _ R1). }
      split; [cbn [flat_map]; by rewrite app_assoc|]. split; [by eapply vstep_trans|]. split; [done|].
      split; [by rewrite K2, Hkv1, <- app_assoc|]. split.
      * constructor; [|done]. eapply lookup_weaken; [exact N1|]. apply V2.
      * cbn [flat_map]. apply Forall_app. split.
        -- eapply Forall_impl; [exact Q1|]. intros pt. apply (related_step _ (Some m)); [done| |apply I1].
           by apply (iv_le _ _ _ Hi (l_name (en_ila n))).
        -- eapply Forall_impl; [exact Q2|]. intros pt (m' & l' & [H1 H2 H3 H4 H5 H6 H7 H8]). exists m', l'.
           split; try done. lia.
Qed.

Lemma DesVarHier_run t0 : hier_spec t0.
Proof using All.
  induction t0 as [n cs IH] using tree_ind'. intros k par pe lp ldp E1 E2 w d Hk HE Hi Hp Hv Hl Him.
  destruct k as [|k]; [lia|]. cbn [pentries] in HE.
  destruct (DesVarUnit_run E1 (flat_map (pentries (en_ila n)) cs ++ E2) lp n HE (map tree_json cs) par ldp w d Hi Hp Hv Him)
    as (m & ld & w1 & d1 & R1 & I1 & V1 & N1 & L1 & A1 & X1 & S1 & T1 & P1).
  assert (Hld : Ila.with_childs ld KeyVec.empty = ld) by (rewrite S1; reflexivity).
  assert (Hdep : forall c, c ∈ cs -> (depth (tree_json c) < k)%nat).
  { intros c Hc'. pose proof (depth_at _ _ _ (ila_childs_at n (map tree_json cs))).
    pose proof (depth_arr (map tree_json cs) (tree_json c)) as Ha.
    cbn [tree_json] in Hk. assert (tree_json c ∈ map tree_json cs) by by apply list_elem_of_fmap_2.
    specialize (Ha ltac:(done)). lia. }
  destruct (childs_loop k n m ld cs IH X1 Hdep KeyVec.empty (E1 ++ [(lp, n)]) E2 w1 d1)
    as (w2 & d2 & kv & is_ & R2 & I2 & V2 & A2 & K2 & F2 & Q2).
  - by rewrite HE, <- app_assoc.
  - done.
  - by rewrite Hld.
  - done.
  - intros key. cbn. rewrite lookup_empty. by intros [].
  - done.
  - exists w2, d2, m. split.
    { cbn [DesVarHier tree_json]. rewrite (ST_bind_run _ _ _ _ _ R1).
      rewrite (ST_bind_run (find_ila _) _ (w1, d1) m (w1, d1)).
      - rewrite (lift_bind_run _ _ _ _ (ila_childs_at _ _)). cbn [elements]. exact R2.
      - unfold find_ila. rewrite (lift_bind_run _ _ _ _ (ila_name_at _ _)).
        unfold members. rewrite (ST_bind_run (gets snd) _ (w1, d1) d1 (w1, d1)) by done.
        change (l_name (en_ila n)) with (pname (lp, n)). rewrite N1. reflexivity. }
    assert (Hpm : par <> Some m).
    { intros ->. cbn in Hp. pose proof (iv_ilas _ _ _ Hi m ltac:(by eexists)). lia. }
    pose proof (lookup_weaken _ _ _ _ N1 (vs_nm _ _ _ _ _ V2)) as N2.
    split; [cbn [pentries]; by rewrite <- app_assoc in I2|]. split; [|split; [exact N2|split]].
    + destruct V1 as [a1 b1 c1 e1 f1], V2 as [a2 b2 c2 e2 f2]. split; [by etrans|by etrans|congruence|lia|].
      intros i Hle Hpi. rewrite f2; [by apply f1|lia|]. intros [= <-]. lia.
    + destruct par as [p|]; [|done]. cbn in P1 |- *. cbn in Hp.
      pose proof (iv_ilas _ _ _ Hi p ltac:(by eexists)).
      rewrite (vs_ilas _ _ _ _ _ V2); [done|pose proof (vs_counter _ _ _ _ _ V1); lia|congruence].
    + cbn [pnodes]. constructor.
      * exists m, (Ila.with_childs ld kv). split; cbn [fst snd root subs].
        -- done.
        -- exact N2.
        -- exact A2.
        -- by destruct X1.
        -- intros st. destruct st; eapply imgs_mono; [apply V2|apply (T1 true)|apply V2|apply (T1 false)].
        -- assert (Hpar : parent_ (Ila.with_childs ld kv) = par) by (rewrite S1; reflexivity). rewrite Hpar.
           unfold linked in *. destruct pe, par; try done. eapply lookup_weaken; [exact Hl|]. etrans; [apply V1|apply V2].
        -- unfold same_rest. cbn [Ila.with_childs parent_ childs_]. rewrite S1. reflexivity.
        -- cbn [Ila.with_childs childs_]. by rewrite K2.
      * eapply Forall_impl; [exact Q2|]. intros pt (m' & l' & [H1 H2 H3 H4 H5 H6 H7 H8]). exists m', l'.
        split; try done. pose proof (vs_counter _ _ _ _ _ V1). lia.
Qed.
End hierarchy.
End des.
