(* ===== verification/SerDesIla.v ===== *)
(** * Reading back the instructions

    The last pass of the deserializer ([DesIlaHier]), once variables, functions
    and expressions are known: each new ILA gets the fetch, valid and initial
    conditions and the instructions of the ILA it stands for. *)
From S2P Require Import Prelude Sort Values Container Expr World ExprOp AstHub IlaVars Collect HashAst Rewrite AbsKnob AbsKnobSpec Json SerDes SerSpec SerDesSpec SerDesVars.
Local Open Scope Z_scope.
Import Json J2IDes IlaOk IlaVars.

Section des.
Context {L : Layout}.
Abbreviation ids l := (Exprs.id <$> l).
Context (em : gmap objid Expr) (fm : gmap objid Func) (d : J2IDes).
Abbreviation nm := (ila_name_ptr_map_ d).

(** A node that is listed in the table, and what it became. *)
Definition reads (x y : Expr) : Prop :=
  id_expr_map_ d !! Exprs.id x = Some y /\ image em fm x y /\ Exprs.sort y = Exprs.sort x.
Definition known (x : Expr) : Prop := (Exprs.id x < 2 ^ 64)%N /\ entered em fm (id_expr_map_ d) x.

Lemma known_reads x : known x -> (Exprs.id x < 2 ^ 64)%N /\ exists y, reads x y.
Proof using Type. intros [Hi (y & H)]. split; [done|]. by exists y. Qed.

Lemma knowns_read xs : Forall known xs -> exists ys, Forall2 reads xs ys.
Proof using Type.
  induction 1 as [|x xs [_ [y Hy]]%known_reads _ [ys IH]]; [by exists []|]. exists (y :: ys). by constructor.
Qed.

Lemma read_bool x y : reads x y -> Exprs.is_bool y = Exprs.is_bool x.
Proof using Type. intros (_ & _ & E). unfold Exprs.is_bool. by rewrite E. Qed.
Lemma read_bv x y : reads x y -> Exprs.is_bv y 0 = Exprs.is_bv x 0.
Proof using Type. intros (_ & _ & E). unfold Exprs.is_bv. by rewrite E. Qed.

(** ** One instruction *)
Definition with_instr (w : World) (j : objid) (y : Instr) : World :=
  {| counter_ := counter_ w; w_ilas := w_ilas w; w_instrs := <[j := y]> (w_instrs w) |}.

Definition put_update (y : Instr) (name : string) (e : Expr) : Instr :=
  Instrs.with_updates y (<[name := Some e]> (updates_ y)).

Lemma des_update_run j update s e w y x : w_instrs w !! j = Some y -> updates_ y !! Exprs.name s = None ->
  find update (Exprs.name s) = Some (I2JSer.id_json (Exprs.id x)) -> (Exprs.id x < 2 ^ 64)%N -> reads x e ->
  des_update j update s () (w, d) = Ok ((), (with_instr w j (put_update y (Exprs.name s) e), d)).
Proof using Type.
  intros Hj Hn Hf Hi (He & _). unfold des_update. rewrite Hf. rewrite (lift_bind_run _ _ _ ()) by done.
  rewrite (lift_bind_run _ _ _ (Exprs.id x)) by by apply get_id_uint.
  unfold members. rewrite (ST_bind_run (gets snd) _ (w, d) d (w, d)), He by done.
  rewrite (lift_bind_run _ _ _ ()) by done. unfold on_world, Instrs.set_update_state, Instrs.set_update. cbn [fst snd].
  rewrite (ST_bind_run _ _ _ _ _ (instr_run _ _ _ Hj)), Hn. unfold Instrs.ForceAddUpdate.
  by rewrite (ST_bind_run _ _ _ _ _ (instr_run _ _ _ Hj)).
Qed.

Lemma des_updates_run j update (nx : Expr -> Expr) ss ds : Exprs.name <$> ds = Exprs.name <$> ss ->
  NoDup (Exprs.name <$> ss) ->
  (forall s, s ∈ ss -> find update (Exprs.name s) = Some (I2JSer.id_json (Exprs.id (nx s))) /\ known (nx s)) ->
  forall w y, w_instrs w !! j = Some y -> (forall s, s ∈ ss -> updates_ y !! Exprs.name s = None) ->
  exists u, foldM (des_update j update) ds () (w, d) = Ok ((), (with_instr w j (Instrs.with_updates y u), d)) /\
    (forall s, s ∈ ss -> exists e, u !! Exprs.name s = Some (Some e) /\ reads (nx s) e) /\
    (forall k, k ∉ Exprs.name <$> ss -> u !! k = updates_ y !! k).
Proof using Type.
  intros En Hn. revert ds En. induction ss as [|s ss IH]; intros [|s' ds] En Hf w y Hj Hu; try done.
  - exists (updates_ y). split; [|split; [by intros ? ?%elem_of_nil|done]]. unfold with_instr.
    cbn. rewrite insert_id by (rewrite Hj; by destruct y). by destruct w.
  - cbn in En. injection En as En1 En. apply NoDup_cons in Hn as [Hs Hn].
    destruct (Hf s ltac:(by left)) as [Hfs [Hi [e He]]%known_reads].
    pose proof (des_update_run j update s' e w y (nx s)) as E1. rewrite En1 in E1.
    specialize (E1 Hj (Hu s ltac:(by left)) Hfs Hi He).
    destruct (IH Hn ds En ltac:(intros; apply Hf; by right) (with_instr w j (put_update y (Exprs.name s) e))
      (put_update y (Exprs.name s) e)) as (u & E2 & H1 & H2).
    + cbn. by rewrite lookup_insert_eq.
    + intros r Hr. cbn. rewrite lookup_insert_ne; [apply Hu; by right|]. intros E. apply Hs. rewrite E.
      by apply list_elem_of_fmap_2.
    + exists u. split; [|split].
      * cbn [foldM]. rewrite (ST_bind_run _ _ _ _ _ E1), E2. unfold with_instr. cbn [w_instrs counter_ w_ilas].
        by rewrite insert_insert_eq.
      * intros r [->|Hr]%elem_of_cons; [|by apply H1]. exists e. split; [|done].
        rewrite H2 by done. cbn. by rewrite lookup_insert_eq.
      * intros k [Hk Hks]%not_elem_of_cons. rewrite H2 by done. cbn. by rewrite lookup_insert_ne.
Qed.

(** The instruction [y] that stands for [x] of [l]. *)
Record instr_read (l : InstrLvlAbs) (m : objid) (x y : Instr) : Prop := {
  id_name : i_name y = i_name x;
  id_host : i_host y = Some m;
  id_decode : exists dx dy, decode_ x = Some dx /\ decode_ y = Some dy /\ image em fm dx dy;
  id_update s : s ∈ KeyVec.vec_ (states_ l) -> exists e, updates_ y !! Exprs.name s = Some (Some e) /\
    image em fm (next_of x s) e;
  id_other k : k ∉ Exprs.name <$> KeyVec.vec_ (states_ l) -> updates_ y !! k = None;
  id_prog : prog_ y = None }.

(** What an instruction needs. *)
Record instr_fit (l : InstrLvlAbs) (x : Instr) : Prop := {
  ft_name : i_name x <> "";
  ft_decode : exists dx, decode_ x = Some dx /\ Exprs.is_bool dx = true /\ known dx;
  ft_next s : s ∈ KeyVec.vec_ (states_ l) -> known (next_of x s) }.

Lemma DesInstr_run m l x w ld : w_ilas w !! m = Some ld -> instr_fit l x ->
  NoDup (Exprs.name <$> KeyVec.vec_ (states_ l)) ->
  Exprs.name <$> KeyVec.vec_ (states_ ld) = Exprs.name <$> KeyVec.vec_ (states_ l) ->
  let j := (counter_ w + 1)%N in
  exists y, DesInstr (instr_json l x) m (w, d) =
    Ok (j, ({| counter_ := j; w_ilas := <[m := add_instr ld (i_name x) j]> (w_ilas w);
               w_instrs := <[j := y]> (w_instrs w) |}, d)) /\ instr_read l m x y.
Proof using Type.
  intros Hm [Hn (dx & Ed & Hb & Hk) Hx] Hnd Hnames j.
  destruct (upd_json_run l x Hnd) as (o & Eo & _ & Hfind).
  destruct (known_reads _ Hk) as (Hki & dy & Hdy).
  set (y0 := {| i_name := i_name x; i_host := Some m; decode_ := None; updates_ := ∅; prog_ := None |}).
  set (y1 := Instrs.with_decode y0 (Some dy)).
  set (w1 := {| counter_ := j; w_ilas := <[m := add_instr ld (i_name x) j]> (w_ilas w);
                w_instrs := <[j := y0]> (w_instrs w) |}).
  set (w2 := with_instr w1 j y1).
  assert (Hj : w_instrs w2 !! j = Some y1) by (cbn; by rewrite lookup_insert_eq).
  destruct (des_updates_run j (JObj o) (next_of x) (KeyVec.vec_ (states_ l)) (KeyVec.vec_ (states_ ld)) Hnames Hnd)
    with (w := w2) (y := y1) as (u & E & H1 & H2).
  { intros s Hs. split; [by apply Hfind|by apply Hx]. }
  { done. }
  { done. }
  exists (Instrs.with_updates y1 u). split.
  - unfold DesInstr. rewrite (lift_bind_run _ _ _ (i_name x)) by reflexivity.
    rewrite (ST_bind_run _ _ _ j (w1, d)).
    2:{ unfold on_world. cbn [fst snd]. by rewrite (NewInstr_run m (i_name x) ld w Hm Hn). }
    rewrite (lift_bind_run _ _ _ (Exprs.id dx)).
    2:{ unfold at_id, instr_json. rewrite Ed. cbn. by apply get_id_uint. }
    destruct Hdy as (Hdy & Himg & Hsort).
    unfold members. rewrite (ST_bind_run (gets snd) _ (w1, d) d (w1, d)), Hdy by done.
    rewrite (lift_bind_run _ _ _ ()) by done.
    rewrite (ST_bind_run _ _ _ () (w2, d)).
    2:{ unfold on_world, Instrs.set_decode. cbn [fst snd].
        assert (Hj0 : w_instrs w1 !! j = Some y0) by (cbn; by rewrite lookup_insert_eq).
        rewrite (ST_bind_run _ _ _ _ _ (instr_run _ _ _ Hj0)). cbn [decode_ y0].
        unfold Instrs.ForceSetDecode, notnull, check_. rewrite (lift_bind_run _ _ _ dy) by done.
        rewrite (lift_bind_run _ _ _ ()); [|unfold Exprs.is_bool in *; by rewrite Hsort, Hb].
        by rewrite (ST_bind_run _ _ _ _ _ (instr_run _ _ _ Hj0)). }
    rewrite (lift_bind_run _ _ _ (JObj o)) by (unfold instr_json; by rewrite Eo).
    rewrite (ST_bind_run _ _ _ (add_instr ld (i_name x) j) (w2, d)).
    2:{ unfold on_world. cbn [fst snd]. erewrite ila_run; [done|]. cbn. by rewrite lookup_insert_eq. }
    cbn [add_instr Ila.with_instrs states_]. rewrite (ST_bind_run _ _ _ _ _ E).
    unfold w2, with_instr. cbn [w1 counter_ w_ilas w_instrs]. by rewrite !insert_insert_eq.
  - split; cbn [y1 y0 Instrs.with_updates Instrs.with_decode i_name i_host decode_ updates_ prog_]; [done|done| | | |done].
    + exists dx, dy. split; [done|]. split; [done|]. apply Hdy.
    + intros s Hs. destruct (H1 s Hs) as (e & He & _ & Him & _). by exists e.
    + intros k Hk'. by rewrite H2.
Qed.

Lemma DesInstrs_run m l xs : NoDup (Exprs.name <$> KeyVec.vec_ (states_ l)) -> Forall (instr_fit l) xs ->
  NoDup (i_name <$> xs) -> forall w ld kv, w_ilas w !! m = Some (Ila.with_instrs ld kv) ->
  Exprs.name <$> KeyVec.vec_ (states_ ld) = Exprs.name <$> KeyVec.vec_ (states_ l) ->
  (forall x, x ∈ xs -> KeyVec.map_ kv !! i_name x = None) ->
  exists w' kv' js, foldM (fun j (_ : unit) => DesInstr j m;; mret ()) (instr_json l <$> xs) () (w, d) = Ok ((), (w', d)) /\
    w_ilas w' = <[m := Ila.with_instrs ld kv']> (w_ilas w) /\ KeyVec.vec_ kv' = KeyVec.vec_ kv ++ js /\
    (counter_ w <= counter_ w')%N /\ (forall i, (i <= counter_ w)%N -> w_instrs w' !! i = w_instrs w !! i) /\
    Forall2 (fun x j => (counter_ w < j <= counter_ w')%N /\ exists y, w_instrs w' !! j = Some y /\ instr_read l m x y) xs js.
Proof using Type.
  intros Hnd. induction 1 as [|x xs Hx _ IH]; intros Hn w ld kv Hm Hst Hkv.
  - exists w, kv, []. split; [done|]. rewrite app_nil_r, insert_id by done. split_and!; [done|done|lia|done|constructor].
  - apply NoDup_cons in Hn as [Hxn Hn].
    destruct (DesInstr_run m l x w _ Hm Hx Hnd Hst) as (y & E1 & Hy). cbn zeta in E1. set (j := (counter_ w + 1)%N) in *.
    set (w1 := Build_World _ _ _) in E1.
    set (kv1 := (KeyVec.push_back kv (i_name x) j).2).
    assert (Hk : KeyVec.map_ kv !! i_name x = None) by (apply Hkv; by left).
    destruct (IH Hn w1 ld kv1) as (w2 & kv2 & js & E2 & H1 & H2 & H3 & H4 & H5).
    + cbn. by rewrite lookup_insert_eq.
    + done.
    + intros x' Hx'. unfold kv1, KeyVec.push_back. rewrite Hk. cbn. rewrite lookup_insert_ne; [apply Hkv; by right|].
      intros E. apply Hxn. rewrite E. by apply list_elem_of_fmap_2.
    + cbn [counter_ w1] in H3, H4. exists w2, kv2, (j :: js). split.
      { cbn [fmap list_fmap foldM]. rewrite (ST_bind_run _ _ _ () (w1, d)); [exact E2|].
        by rewrite (ST_bind_run _ _ _ _ _ E1). }
      split; [rewrite H1; cbn; by rewrite insert_insert_eq|].
      split; [rewrite H2; unfold kv1, KeyVec.push_back; rewrite Hk; cbn; by rewrite <- app_assoc|].
      split; [lia|]. split.
      * intros i Hi. rewrite H4 by lia. cbn. rewrite lookup_insert_ne by lia. done.
      * constructor.
        -- split; [lia|]. exists y. split; [|done]. rewrite H4 by lia. cbn. by rewrite lookup_insert_eq.
        -- eapply Forall2_impl; [exact H5|]. cbn beta. cbn [w1 counter_]. intros x' j' [? H]. split; [lia|done].
Qed.

(** ** One ILA *)

(** What an ILA needs of its own expressions and instructions. *)
Record fit (n : entry) : Prop := {
  fi_fetch e : fetch_ (en_ila n) = Some e -> Exprs.is_bv e 0 = true /\ known e;
  fi_valid : exists e, valid_ (en_ila n) = Some e /\ Exprs.is_bool e = true /\ known e;
  fi_inits : Forall (fun e => Exprs.is_bool e = true /\ known e) (inits_ (en_ila n));
  fi_states : NoDup (Exprs.name <$> KeyVec.vec_ (states_ (en_ila n)));
  fi_instrs : Forall (instr_fit (en_ila n)) (en_instrs n);
  fi_names : NoDup (i_name <$> en_instrs n) }.

(** The fetch that is read: the default when none was written. *)
Definition default_fetch (e : Expr) : Prop := exists h, e = ExprConst h (CBv 1) [] /\ h_sort h = SortBv 1.
Definition fetch_read (o o' : option Expr) : Prop :=
  match o, o' with
  | Some x, Some y => image em fm x y
  | None, Some y => default_fetch y
  | _, None => False
  end.
Definition valid_read (o o' : option Expr) : Prop :=
  match o, o' with Some x, Some y => image em fm x y | _, _ => False end.

Definition filled (ld : InstrLvlAbs) (f v : Expr) (is_ : list Expr) (kv : KeyVec objid) : InstrLvlAbs :=
  Ila.with_instrs (Ila.with_inits (Ila.with_valid (Ila.with_fetch ld (Some f)) (Some v)) is_) kv.

(** A world that differs in one ILA. *)
Lemma set_ila_at w m l : w_ilas (set_ila w m l) !! m = Some l.
Proof using Type. cbn. by rewrite lookup_insert_eq. Qed.

Lemma des_cond_run m j key e y (set : objid -> option Expr -> M unit) w w' :
  at_id j key = Ok (Exprs.id e) -> reads e y -> set m (Some y) w = Ok ((), w') ->
  des_cond m j key set (w, d) = Ok ((), (w', d)).
Proof using Type.
  intros Hj (Hy & _) Hs. unfold des_cond. rewrite (lift_bind_run _ _ _ _ Hj).
  unfold members. rewrite (ST_bind_run (gets snd) _ (w, d) d (w, d)), Hy by done.
  rewrite (lift_bind_run _ _ _ y) by done. unfold on_world. cbn [fst snd]. by rewrite Hs.
Qed.

Lemma SetFetch_run m l y w : w_ilas w !! m = Some l -> fetch_ l = None -> Exprs.is_bv y 0 = true ->
  Ila.SetFetch m (Some y) w = Ok ((), set_ila w m (Ila.with_fetch l (Some y))).
Proof using Type.
  intros Hm Hf Hb. unfold Ila.SetFetch. rewrite (ST_bind_run _ _ _ _ _ (ila_run _ _ _ Hm)), Hf.
  unfold Ila.ForceSetFetch, notnull, assert_. rewrite (lift_bind_run _ _ _ ()), (lift_bind_run _ _ _ y) by done.
  rewrite (lift_bind_run _ _ _ ()) by by rewrite Hb. by rewrite (update_ila_run _ _ _ _ Hm).
Qed.
Lemma SetValid_run m l y w : w_ilas w !! m = Some l -> valid_ l = None -> Exprs.is_bool y = true ->
  Ila.SetValid m (Some y) w = Ok ((), set_ila w m (Ila.with_valid l (Some y))).
Proof using Type.
  intros Hm Hf Hb. unfold Ila.SetValid. rewrite (ST_bind_run _ _ _ _ _ (ila_run _ _ _ Hm)), Hf.
  unfold Ila.ForceSetValid, notnull, assert_. rewrite (lift_bind_run _ _ _ ()), (lift_bind_run _ _ _ y) by done.
  rewrite (lift_bind_run _ _ _ ()) by by rewrite Hb. by rewrite (update_ila_run _ _ _ _ Hm).
Qed.

(** The fetch condition, or its default. *)
Lemma des_fetch_run m n cs w ld : w_ilas w !! m = Some ld -> fetch_ ld = None ->
  (forall e, fetch_ (en_ila n) = Some e -> Exprs.is_bv e 0 = true /\ known e) ->
  exists f w', try_catch (des_cond m (ila_json n cs) "f" Ila.SetFetch)
      (on_world (c ← asthub.BvConst 1 1; Ila.SetFetch m (Some c))) (w, d) = Ok ((), (w', d)) /\
    w_ilas w' = <[m := Ila.with_fetch ld (Some f)]> (w_ilas w) /\ w_instrs w' = w_instrs w /\
    (counter_ w <= counter_ w')%N /\ fetch_read (fetch_ (en_ila n)) (Some f).
Proof using Type.
  intros Hm Hf Hn. destruct (fetch_ (en_ila n)) as [e|] eqn:E.
  - destruct (Hn e eq_refl) as [Hb [Hi [y Hy]]%known_reads]. exists y, (set_ila w m (Ila.with_fetch ld (Some y))).
    split; [|split; [done|split; [done|split; [cbn; lia|apply Hy]]]].
    unfold try_catch. rewrite (des_cond_run m _ "f" e y Ila.SetFetch w (set_ila w m (Ila.with_fetch ld (Some y)))); [done| |done|].
    + unfold at_id, ila_json. rewrite E. cbn. by apply get_id_uint.
    + apply SetFetch_run; [done|done|]. by rewrite (read_bv _ _ Hy).
  - set (c := ExprConst {| h_id := (counter_ w + 1)%N; h_name := Symbol.default_name (counter_ w + 1)%N;
                           h_host := None; h_sort := SortBv 1 |} (CBv 1) []).
    exists c, (set_ila (ExprOps.bump w) m (Ila.with_fetch ld (Some c))).
    split; [|split; [done|split; [done|split; [cbn; lia|by eexists]]]].
    unfold try_catch. assert (Ef : des_cond m (ila_json n cs) "f" Ila.SetFetch (w, d) = Fail EThrow).
    { unfold des_cond, mbind, ST_bind, lift, at_id, ila_json. by rewrite E. }
    rewrite Ef. unfold on_world. cbn [fst snd]. rewrite (ST_bind_run _ _ _ c (ExprOps.bump w)) by reflexivity.
    by rewrite (SetFetch_run m ld).
Qed.

Lemma des_inits_run m es : Forall (fun e => Exprs.is_bool e = true /\ known e) es -> forall w ld,
  w_ilas w !! m = Some ld -> exists ys, foldM (des_init m) (I2JSer.id_json <$> ids es) () (w, d) =
    Ok ((), (set_ila w m (Ila.with_inits ld (inits_ ld ++ ys)), d)) /\ Forall2 reads es ys.
Proof using Type.
  induction 1 as [|e es [Hb [Hi [y Hy]]%known_reads] _ IH]; intros w ld Hm.
  - exists []. split; [|constructor]. cbn. do 3 f_equal. rewrite app_nil_r.
    unfold set_ila. rewrite insert_id by (rewrite Hm; by destruct ld). by destruct w.
  - destruct (IH (set_ila w m (Ila.with_inits ld (inits_ ld ++ [y]))) _ (set_ila_at _ _ _)) as (ys & E & H).
    exists (y :: ys). split; [|by constructor]. cbn [fmap list_fmap foldM].
    rewrite (ST_bind_run _ _ _ () (set_ila w m (Ila.with_inits ld (inits_ ld ++ [y])), d)).
    + etrans; [exact E|]. rewrite set_ila_twice. cbn. by rewrite <- app_assoc.
    + unfold des_init. rewrite (lift_bind_run _ _ _ (Exprs.id e)) by by apply get_id_uint.
      pose proof Hy as (Hy' & _). unfold members. rewrite (ST_bind_run (gets snd) _ (w, d) d (w, d)), Hy' by done.
      rewrite (lift_bind_run _ _ _ ()) by done. unfold on_world, Ila.AddInit, notnull, assert_. cbn [fst snd].
      rewrite (lift_bind_run _ _ _ y) by done. rewrite (lift_bind_run _ _ _ ()) by by rewrite (read_bool _ _ Hy), Hb.
      by rewrite (update_ila_run _ _ _ _ Hm).
Qed.

Lemma DesIlaUnit_run m n cs w ld : nm !! l_name (en_ila n) = Some m -> w_ilas w !! m = Some ld -> fit n ->
  fetch_ ld = None -> valid_ ld = None -> inits_ ld = [] -> instrs_ ld = KeyVec.empty ->
  Exprs.name <$> KeyVec.vec_ (states_ ld) = Exprs.name <$> KeyVec.vec_ (states_ (en_ila n)) ->
  exists w' f v ys kv, DesIlaUnit (ila_json n cs) (w, d) = Ok ((), (w', d)) /\
    w_ilas w' = <[m := filled ld f v ys kv]> (w_ilas w) /\
    (counter_ w <= counter_ w')%N /\ (forall i, (i <= counter_ w)%N -> w_instrs w' !! i = w_instrs w !! i) /\
    fetch_read (fetch_ (en_ila n)) (Some f) /\ valid_read (valid_ (en_ila n)) (Some v) /\
    Forall2 (image em fm) (inits_ (en_ila n)) ys /\
    Forall2 (fun x j => (counter_ w < j <= counter_ w')%N /\
      exists y, w_instrs w' !! j = Some y /\ instr_read (en_ila n) m x y) (en_instrs n) (KeyVec.vec_ kv).
Proof using Type.
  intros Hnm Hm [Hff (ev & Eev & Hbv & [Hvi [v Hv]]%known_reads) Hfi Hst Hin Hnn] H1 H2 H3 H4 H5.
  destruct (des_fetch_run m n cs w ld Hm H1 Hff) as (f & w1 & E1 & I1 & J1 & C1 & R1).
  set (ld1 := Ila.with_fetch ld (Some f)) in *. set (ld2 := Ila.with_valid ld1 (Some v)).
  set (w2 := set_ila w1 m ld2).
  assert (Hm1 : w_ilas w1 !! m = Some ld1) by (rewrite I1; by rewrite lookup_insert_eq).
  destruct (DesInstrs_run m (en_ila n) (en_instrs n) Hst Hin Hnn w2 ld2 KeyVec.empty)
    as (w3 & kv & js & E3 & I3 & K3 & C3 & J3 & R3).
  - unfold w2. rewrite set_ila_at. unfold ld2, ld1. rewrite <- H4. by destruct ld.
  - done.
  - done.
  - set (ld3 := Ila.with_instrs ld2 kv) in *. cbn [counter_ w2 set_ila] in C3, J3, R3.
    destruct (des_inits_run m (inits_ (en_ila n)) Hfi w3 ld3) as (ys & E4 & R4).
    { rewrite I3. by rewrite lookup_insert_eq. }
    exists (set_ila w3 m (Ila.with_inits ld3 (inits_ ld3 ++ ys))), f, v, ys, kv. split; [|split; [|split; [|split; [|split; [|split; [|split]]]]]].
    + unfold DesIlaUnit. rewrite (ST_bind_run _ _ _ m (w, d)).
      2:{ unfold find_ila. rewrite (lift_bind_run _ _ _ _ (ila_name_at _ _)).
          unfold members. rewrite (ST_bind_run (gets snd) _ (w, d) d (w, d)), Hnm by done. done. }
      rewrite (ST_bind_run _ _ _ _ _ E1). rewrite (ST_bind_run _ _ _ () (w2, d)).
      2:{ unfold try_catch. rewrite (des_cond_run m _ "v" ev v Ila.SetValid w1 w2); [done| |done|].
          - unfold at_id, ila_json. rewrite Eev. destruct (fetch_ (en_ila n)); cbn; by apply get_id_uint.
          - apply SetValid_run; [done|done|by rewrite (read_bool _ _ Hv)]. }
      rewrite (lift_bind_run _ _ _ (JArr (instr_json (en_ila n) <$> en_instrs n))).
      2:{ unfold ila_json. by destruct (fetch_ (en_ila n)). }
      cbn [elements]. rewrite (ST_bind_run _ _ _ _ _ E3).
      rewrite (lift_bind_run _ _ _ (id_arr (inits_ (en_ila n)))).
      2:{ unfold ila_json. by destruct (fetch_ (en_ila n)). }
      exact E4.
    + cbn [set_ila w_ilas]. rewrite I3. cbn [w2 set_ila w_ilas]. rewrite I1, !insert_insert_eq. f_equal.
      unfold ld3, ld2, ld1, filled. cbn. by rewrite H3.
    + cbn. lia.
    + intros i Hi. cbn. rewrite J3 by lia. cbn. by rewrite J1.
    + done.
    + rewrite Eev. apply Hv.
    + eapply Forall2_impl; [exact R4|]. intros ? ? (_ & ? & _). done.
    + rewrite K3. cbn [app KeyVec.vec_ KeyVec.empty]. eapply Forall2_impl; [exact R3|]. cbn beta.
      intros x j (Hj & y & Hy). cbn. split; [lia|]. by exists y.
Qed.

(** ** All ILAs *)
Fixpoint subtrees (t0 : tree) : list tree := t0 :: let 'Node n cs := t0 in flat_map subtrees cs.

Lemma pnodes_subtrees pe t0 : (pnodes pe t0).*2 = subtrees t0.
Proof using Type.
  revert pe. induction t0 as [n cs IH] using tree_ind'. intros pe. cbn. f_equal.
  induction IH as [|c cs Hc _ IH]; [done|]. cbn. by rewrite fmap_app, IH, Hc.
Qed.

Lemma bind_run {S A B} (m : ST S A) (f : A -> ST S B) (s : S) :
  (m ≫= f) s = match m s with Ok (a, s') => f a s' | Fail e => Fail e end.
Proof using Type. done. Qed.

Lemma foldM_app {S A B} (f : B -> A -> ST S A) (l k : list B) a (s : S) :
  foldM f (l ++ k) a s = (a' ← foldM f l a; foldM f k a') s.
Proof using Type.
  revert a s. induction l as [|b l IH]; intros a s; [done|]. cbn [app foldM].
  rewrite (bind_run (_ ≫= _)), !(bind_run (f b a)). destruct (f b a s) as [[a' s']|]; [by rewrite IH, bind_run|done].
Qed.

(** The recursion runs over the nodes in order. *)
Lemma DesIlaHier_flat t0 : forall k s, (depth (tree_json t0) < k)%nat ->
  DesIlaHier k (tree_json t0) s = foldM (fun c (_ : unit) => DesIlaUnit (tree_json c)) (subtrees t0) () s.
Proof using Type.
  induction t0 as [n cs IH] using tree_ind'. intros k s Hk. destruct k as [|k]; [lia|].
  assert (Hdep : forall c, c ∈ cs -> (depth (tree_json c) < k)%nat).
  { intros c Hc'. pose proof (depth_at _ _ _ (ila_childs_at n (map tree_json cs))).
    pose proof (depth_arr (map tree_json cs) (tree_json c)) as Ha.
    cbn [tree_json] in Hk. assert (tree_json c ∈ map tree_json cs) by by apply list_elem_of_fmap_2.
    specialize (Ha ltac:(done)). lia. }
  cbn [DesIlaHier subtrees foldM tree_json]. rewrite !(bind_run (DesIlaUnit _)).
  destruct (DesIlaUnit (ila_json n (map tree_json cs)) s) as [[[] s1]|]; [|done].
  rewrite (lift_bind_run _ _ _ _ (ila_childs_at _ _)). cbn [elements]. clear Hk.
  revert s1. induction IH as [|c cs Hc _ IHc]; intros s1; [done|]. cbn [map foldM flat_map].
  rewrite foldM_app, !bind_run, Hc by (apply Hdep; by left).
  destruct (foldM (F:=ST (World * J2IDes)) _ (subtrees c) () s1) as [[[] s2]|]; [|done]. apply IHc. intros; apply Hdep; by right.
Qed.

(** The ILA that stands for a node. *)
Record mirror (w : World) (pt : option entry * tree) (m : objid) (ld : InstrLvlAbs) : Prop := {
  mi_name : nm !! ename pt.2 = Some m /\ l_name ld = ename pt.2;
  mi_at : w_ilas w !! m = Some ld;
  mi_vars : vars_ok ld;
  mi_tbl st : Forall2 (img em) (KeyVec.vec_ (tbl st (en_ila (root pt.2)))) (KeyVec.vec_ (tbl st ld));
  mi_parent : linked nm pt.1 (parent_ ld);
  mi_fetch : fetch_read (fetch_ (en_ila (root pt.2))) (fetch_ ld);
  mi_valid : valid_read (valid_ (en_ila (root pt.2))) (valid_ ld);
  mi_inits : Forall2 (image em fm) (inits_ (en_ila (root pt.2))) (inits_ ld);
  mi_instrs : Forall2 (fun x j => exists y, w_instrs w !! j = Some y /\ instr_read (en_ila (root pt.2)) m x y)
    (en_instrs (root pt.2)) (KeyVec.vec_ (instrs_ ld));
  mi_childs : Forall2 (fun c i => nm !! ename c = Some i) (subs pt.2) (KeyVec.vec_ (childs_ ld)) }.
Definition mirrored (w : World) (pt : option entry * tree) : Prop := exists m ld, mirror w pt m ld.

(** While the pass runs, with the instructions' ids bounded. *)
Definition mirrored_le (w : World) (pt : option entry * tree) : Prop := exists m ld, mirror w pt m ld /\
  Forall (fun j => j <= counter_ w)%N (KeyVec.vec_ (instrs_ ld)).

Lemma mirrored_le_step w w' pt : mirrored_le w pt -> (forall i, nm !! ename pt.2 = Some i -> w_ilas w' !! i = w_ilas w !! i) ->
  (counter_ w <= counter_ w')%N -> (forall i, (i <= counter_ w)%N -> w_instrs w' !! i = w_instrs w !! i) ->
  mirrored_le w' pt.
Proof using Type.
  intros (m' & ld & [H1 H2 H3 H4 H5 H6 H7 H8 H9 H10] & Hj) Hi Hc Hins. exists m', ld. split.
  - split; try done; [by rewrite Hi by apply H1|]. clear -H9 Hj Hins.
    induction H9 as [|x j xs js (y & Hy & Hr) _ IH]; [constructor|]. apply Forall_cons in Hj as [Hj Hjs].
    constructor; [|by apply IH]. exists y. by rewrite Hins.
  - eapply Forall_impl; [exact Hj|]. cbn. lia.
Qed.

Lemma DesIla_loop lo (Lp : list (option entry * tree)) : NoDup ((fun pt => ename pt.2) <$> Lp) ->
  (forall k k' i, nm !! k = Some i -> nm !! k' = Some i -> k = k') ->
  Forall (fun pt => fit (root pt.2)) Lp -> forall w, (lo <= counter_ w)%N ->
  Forall (related lo em nm (w_ilas w)) Lp ->
  exists w', foldM (fun pt (_ : unit) => DesIlaUnit (tree_json pt.2)) Lp () (w, d) = Ok ((), (w', d)) /\
    Forall (mirrored_le w') Lp /\ (counter_ w <= counter_ w')%N /\
    (forall i, (i <= counter_ w)%N -> w_instrs w' !! i = w_instrs w !! i) /\
    (forall i, (forall pt, pt ∈ Lp -> nm !! ename pt.2 <> Some i) -> w_ilas w' !! i = w_ilas w !! i).
Proof using Type.
  intros Hn Hinj Hf. induction Hf as [|pt Lp Hpt _ IH]; intros w Hlo Hr.
  - exists w. split; [done|]. split_and!; [constructor|lia|done|done].
  - apply Forall_cons in Hr as [(m & ld & [R1 R2 R3 R4 R5 R6 R7 R8]) Hr]. apply NoDup_cons in Hn as [Hpn Hn].
    destruct pt as [pe [n cs]]. cbn [fst snd root subs] in *.
    destruct (DesIlaUnit_run m n (map tree_json cs) w ld R2 R3 Hpt)
      as (w1 & f & v & ys & kv & E1 & I1 & C1 & J1 & F1 & V1 & S1 & K1).
    1-4: rewrite R7; reflexivity.
    { exact (imgs_names _ _ _ (R5 true)). }
    assert (Hoth : forall pt i, pt ∈ Lp -> nm !! ename pt.2 = Some i -> i <> m).
    { intros pt i Hin Hi ->. pose proof (Hinj _ _ _ R2 Hi) as Hnn. apply Hpn. rewrite Hnn.
      by apply (list_elem_of_fmap_2 (fun pt => ename pt.2)). }
    destruct (IH Hn w1) as (w2 & E2 & M2 & C2 & J2 & I2).
    + lia.
    + rewrite Forall_forall in Hr |- *. intros pt Hin. destruct (Hr pt Hin) as (m' & ld' & [Q1 Q2 Q3 Q4 Q5 Q6 Q7 Q8]).
      exists m', ld'. split; try done. rewrite I1, lookup_insert_ne; [done|]. intros <-. by eapply Hoth.
    + exists w2. split; [|split; [constructor; [|done]|split; [lia|split]]].
      * cbn [foldM snd tree_json]. by rewrite (ST_bind_run _ _ _ _ _ E1).
      * assert (Hm1 : mirrored_le w1 (pe, Node n cs)).
        { exists m, (filled ld f v ys kv). split; [split|]; cbn [fst snd root subs].
          - split; [done|]. unfold filled. rewrite R7. reflexivity.
          - by rewrite I1, lookup_insert_eq.
          - by destruct R4.
          - intros st. pose proof (R5 st) as H. by destruct st.
          - exact R6.
          - exact F1.
          - exact V1.
          - exact S1.
          - eapply Forall2_impl; [exact K1|]. cbn beta. intros x j (_ & H). exact H.
          - exact R8.
          - cbn. clear -K1. induction K1 as [|x j xs js [Hj _] _ IH]; [constructor|]. constructor; [lia|exact IH]. }
        apply (mirrored_le_step w1); [done| |done|done]. intros i Hi. apply I2. intros pt Hin Hi'.
        cbn [snd] in Hi. rewrite R2 in Hi. injection Hi as <-. by eapply Hoth.
      * intros i Hi. rewrite J2, J1 by lia. done.
      * intros i Hi. rewrite I2; [|intros pt Hin; apply Hi; by right]. rewrite I1, lookup_insert_ne; [done|].
        intros <-. by apply (Hi (pe, Node n cs) ltac:(by left)).
Qed.
End des.
