(* ===== verification/SerDesRound.v ===== *)
(** * Writing and reading back

    [IlaSerDesMngr]: what [Deserialize] builds from the output of [Serialize],
    for a hierarchy that was built through the interface of the ILAs. *)
From S2P Require Import Prelude Sort Values Container Expr World ExprOp AstHub IlaVars Collect HashAst Rewrite AbsKnob AbsKnobSpec Json SerDes SerSpec SerDesSpec SerDesVars SerDesIla.
Local Open Scope Z_scope.
Import Json J2IDes IlaOk IlaVars.

Section des.
Context {L : Layout}.
Abbreviation ids l := (Exprs.id <$> l).
Abbreviation top_ila := (nil_ila "" None).

(** The conditions that the setters of an ILA and of its instructions check. *)
Record proper (n : entry) : Prop := {
  pp_vars : vars_ok (en_ila n);
  pp_fetch e : fetch_ (en_ila n) = Some e -> Exprs.is_bv e 0 = true;
  pp_valid e : valid_ (en_ila n) = Some e -> Exprs.is_bool e = true;
  pp_inits : Forall (fun e => Exprs.is_bool e = true) (inits_ (en_ila n));
  pp_decode : Forall (fun x => i_name x <> "" /\ forall e, decode_ x = Some e -> Exprs.is_bool e = true) (en_instrs n);
  pp_names : NoDup (i_name <$> en_instrs n) }.

(** A hierarchy that can be exchanged: it is stored in [w], every node of an
    expression is written with words and ids that fit, variables are declared
    where they are used, one id is one expression, and no two ILAs share a name. *)
Record exchangeable (w : World) (T : gmap objid Expr) (FT : gmap objid Func) (t : tree) : Prop := {
  ex_stored : stored w t;
  ex_le : ilas_le w;
  ex_writable : Forall (writable FT) (entries t);
  ex_proper : Forall proper (entries t);
  ex_scoped : Forall (fun p => scoped p.1 p.2) (pentries top_ila t);
  ex_own : NoDup (ids (flat_map owns (pentries top_ila t)));
  ex_ids : coherent T (flat_map post (roots t));
  ex_names : NoDup (ila_names t) }.

Section round.
Context (w : World) (T : gmap objid Expr) (FT : gmap objid Func) (t : tree).
Hypothesis Hx : exchangeable w T FT t.

Lemma all_ok : Forall (node_ok FT) (flat_map post (roots t)).
Proof using Hx.
  rewrite roots_entries, flat_map_flat_map. apply Forall_flat_map. eapply Forall_impl; [exact (ex_writable _ _ _ _ Hx)|].
  intros n Hn. apply Forall_flat_map. eapply Forall_impl; [apply Hn|]. done.
Qed.

Lemma all_vars_ok : Forall (fun n => vars_ok (en_ila n)) (entries t).
Proof using Hx. eapply Forall_impl; [exact (ex_proper _ _ _ _ Hx)|]. by intros n []. Qed.

Lemma entry_nodes n x : n ∈ entries t -> x ∈ flat_map post (node_roots n) -> x ∈ table t.
Proof using Hx.
  intros Hn Hin. apply (table_in T t (ex_ids _ _ _ _ Hx)). rewrite roots_entries, flat_map_flat_map.
  apply elem_flat_map. by exists n.
Qed.

Lemma root_nodes n x : n ∈ entries t -> x ∈ node_roots n -> x ∈ table t.
Proof using Hx.
  intros Hn Hr. apply (entry_nodes n); [done|]. apply elem_flat_map. exists x. split; [done|].
  rewrite post_unfold. apply elem_of_app. right. by left.
Qed.

Lemma entry_parent n : n ∈ entries t -> exists lp, (lp, n) ∈ pentries top_ila t.
Proof using Type.
  rewrite <- (pentries_entries top_ila). intros ([lp n'] & -> & H)%list_elem_of_fmap. by exists lp.
Qed.

(** A variable of the table is declared by the ILA that uses it. *)
Lemma table_var x : x ∈ table t -> Exprs.is_var x = true -> exists n st, n ∈ entries t /\ x ∈ KeyVec.vec_ (tbl st (en_ila n)).
Proof using Hx.
  intros Hin Hv. apply (table_in T t (ex_ids _ _ _ _ Hx)) in Hin. rewrite roots_entries, flat_map_flat_map in Hin.
  apply elem_flat_map in Hin as (n & Hn & Hin). destruct (entry_parent n Hn) as [lp Hp].
  pose proof (ex_scoped _ _ _ _ Hx) as Hs. rewrite Forall_forall in Hs. destruct (Hs _ Hp) as [_ _ Hu].
  apply Hu in Hin; [|done]. apply tvars_tbl in Hin as [st Hst]. by exists n, st.
Qed.

(** The ids of the declared variables belong to variables. *)
Lemma own_var x : x ∈ table t -> Exprs.id x ∈ ids (flat_map owns (pentries top_ila t)) -> Exprs.is_var x = true.
Proof using Hx.
  intros Hin (v & Ei & Hv)%list_elem_of_fmap. apply elem_flat_map in Hv as ([lp n] & Hp & Hv).
  pose proof (ex_scoped _ _ _ _ Hx) as Hs. rewrite Forall_forall in Hs. pose proof (Hs _ Hp) as Hsc. cbn [fst snd] in Hsc.
  apply owns_own in Hv as [st Hv%own_tbl]. cbn [fst snd] in Hv.
  assert (Hn : n ∈ entries t) by (rewrite <- (pentries_entries top_ila); apply list_elem_of_fmap; by exists (lp, n)).
  assert (x = v) as ->; [|apply (sc_vars _ _ Hsc), tvars_tbl; by exists st].
  apply (table_in T t (ex_ids _ _ _ _ Hx)) in Hin. eapply (coherent_eq T); [apply Hx|done| |done].
  apply (table_in T t (ex_ids _ _ _ _ Hx)), (root_nodes n); [done|]. unfold node_roots.
  destruct st; rewrite !elem_of_app; tauto.
Qed.

Lemma table_args x : x ∈ table t -> Forall (fun a => a ∈ table t) (Exprs.args x).
Proof using Hx.
  intros (A & B & E)%list_elem_of_split. apply Forall_forall. intros a Ha. rewrite E. apply elem_of_app. left.
  by eapply (table_closed T (roots t) (ex_ids _ _ _ _ Hx)).
Qed.

Lemma table_fun_ok : Forall (fun_ok FT) (omap node_fn (table t)).
Proof using Hx.
  apply Forall_forall. intros f (x & Hin & Hf)%list_elem_of_omap.
  pose proof (nodes_at FT t all_ok) as Hn. rewrite Forall_forall in Hn.
  apply (node_fun_ok FT x f); [|by apply Hn|done].
  eapply Forall_impl; [by apply table_args|]. done.
Qed.

(** What the last pass needs follows from what the setters checked. *)
Lemma fit_at em fm d n : n ∈ entries t -> Forall (entered em fm (id_expr_map_ d)) (table t) -> fit em fm d n.
Proof using Hx.
  intros Hn Ht. pose proof (nodes_at FT t all_ok) as Hok. rewrite Forall_forall in Ht. rewrite Forall_forall in Hok.
  assert (Hk : forall x, x ∈ node_roots n -> known em fm d x).
  { intros x Hr. pose proof (root_nodes n x Hn Hr) as Hin. split; [by apply Hok|by apply Ht]. }
  pose proof (ex_proper _ _ _ _ Hx) as Hp. pose proof (ex_writable _ _ _ _ Hx) as Hw.
  rewrite Forall_forall in Hp. rewrite Forall_forall in Hw. destruct (Hp n Hn) as [P1 P2 P3 P4 P5 P6], (Hw n Hn) as [[v Hv] W2 W3 _].
  unfold node_roots in Hk. rewrite Forall_forall in P4. rewrite Forall_forall in P5. rewrite Forall_forall in W3. split.
  - intros e He. split; [by apply P2|]. apply Hk. rewrite He, !elem_of_app. do 2 right. left. by left.
  - exists v. split; [done|]. split; [by apply P3|]. apply Hk. rewrite Hv, !elem_of_app. do 3 right. left. by left.
  - apply Forall_forall. intros e He. split; [by apply P4|]. apply Hk. rewrite !elem_of_app. tauto.
  - done.
  - apply Forall_forall. intros x Hxi. destruct (P5 x Hxi) as [N D], (W3 x Hxi) as [[dx Hd] _].
    assert (Hr : forall e, e ∈ instr_roots (en_ila n) x -> known em fm d e).
    { intros e He. apply Hk. rewrite !elem_of_app. do 4 right. left. apply elem_flat_map. by exists x. }
    split; [done| |].
    + exists dx. split; [done|]. split; [by apply D|]. apply Hr. unfold instr_roots. rewrite Hd. by left.
    + intros s Hs. apply Hr. unfold instr_roots. apply elem_of_app. right. by apply list_elem_of_fmap_2.
  - done.
Qed.

Lemma foldM_fst {S A B C} (f : B -> C -> ST S C) (l : list (A * B)) c (s : S) :
  foldM f (l.*2) c s = foldM (fun p => f p.2) l c s.
Proof using Type.
  revert c s. induction l as [|p l IH]; intros c s; [done|]. cbn [fmap list_fmap foldM]. rewrite !bind_run.
  destruct (f p.2 c s) as [[c' s']|]; [apply IH|done].
Qed.

Lemma subtree_entries (t0 : tree) : root <$> subtrees t0 = entries t0.
Proof using Type.
  induction t0 as [n cs IH] using tree_ind'. cbn. f_equal.
  induction IH as [|c cs Hc _ IH]; [done|]. cbn. by rewrite fmap_app, IH, Hc.
Qed.

Lemma pnode_entries (t0 : tree) pe : (fun pt => root pt.2) <$> pnodes pe t0 = entries t0.
Proof using Type. rewrite <- subtree_entries, <- (pnodes_subtrees pe), <- list_fmap_compose. done. Qed.

Lemma Deserialize_run w1 : ilas_le w1 -> exists m w2 em fm d,
  IlaSerDesMngr.Deserialize (global_json t) w1 = Ok (m, w2) /\
  ila_name_ptr_map_ d !! ename t = Some m /\
  Forall (mirrored em fm d w2) (pnodes None t) /\
  (forall k k' i, ila_name_ptr_map_ d !! k = Some i -> ila_name_ptr_map_ d !! k' = Some i -> k = k') /\
  fresh_map w2 em /\ funs_ok FT fm /\
  (forall i, (i <= counter_ w1)%N -> w_ilas w2 !! i = w_ilas w1 !! i /\ w_instrs w2 !! i = w_instrs w1 !! i).
Proof using Hx.
  intros Hle. destruct (DesVarHier_run T FT t (ex_scoped _ _ _ _ Hx) (ex_ids _ _ _ _ Hx) (ex_own _ _ _ _ Hx)
    (ex_names _ _ _ _ Hx) all_ok all_vars_ok t (S (depth (tree_json t))) None None top_ila top_ila [] [] w1 New)
    as (wv & dv & m & E1 & I1 & V1 & N1 & _ & R1).
  { lia. }
  { by rewrite app_nil_r. }
  { split; cbn; [|intros k|done|done| |done|done]; try (rewrite lookup_empty; split; [by intros []|by intros ?%elem_of_nil]).
    - intros i. rewrite lookup_empty. split; [by intros []|by intros ?%elem_of_nil].
    - by split. }
  { done. }
  { apply nil_ila_vars. }
  { done. }
  { intros []; constructor. }
  cbn [app] in I1. set (em := id_expr_map_ dv) in *.
  destruct (DesFuncs_run FT (omap node_fn (table t)) wv dv table_fun_ok)
    as (wf & df & E2 & O2 & X2 & NM2 & F2 & _ & G2).
  { rewrite (iv_func _ _ _ I1). intros i f'. by rewrite lookup_empty. }
  set (fm := id_func_map_ df) in *.
  rewrite Forall_forall in R1.
  assert (Hvars : forall x, x ∈ table t -> Exprs.is_var x = true -> entered em fm em x).
  { intros x Hin Hv. destruct (table_var x Hin Hv) as (n & st & Hn & Hst).
    rewrite <- (pnode_entries t None) in Hn. apply list_elem_of_fmap in Hn as (pt & -> & Hpt).
    destruct (R1 _ Hpt) as (mi & li & [_ _ _ _ Ht _ _ _]). specialize (Ht st).
    apply list_elem_of_lookup in Hst as [k Hk]. destruct (Forall2_lookup_l _ _ _ _ _ Ht Hk) as (y & _ & Hy & h & -> & Hn & Hs).
    exists (ExprVar h []). split; [done|]. split; [|done]. by destruct x. }
  destruct (DesExprs_run em fm FT (table t) (nodes_at FT t all_ok) (table_closed T _ (ex_ids _ _ _ _ Hx)) (table_ids t)) with
    (L2 := table t) (L1 := @nil Expr) (w := wf) (d := df) as (we & de & E3 & O3 & [_ RG2 _ RG4] & NM3).
  { intros x Hin Hi. apply own_var; [done|]. by apply (iv_dom _ _ _ I1). }
  { exact Hvars. }
  { intros x f Hin Hf. apply G2, list_elem_of_omap. by exists x. }
  { done. }
  { split; [by rewrite X2|constructor| |done]. intros i. rewrite X2. by left. }
  assert (Hnm : ila_name_ptr_map_ de = ila_name_ptr_map_ dv) by congruence.
  assert (Hwi : w_ilas we = w_ilas wv) by (destruct O2 as (? & _), O3 as (? & _); congruence).
  assert (Hwn : w_instrs we = w_instrs wv) by (destruct O2 as (_ & ? & _), O3 as (_ & ? & _); congruence).
  assert (Hco : (counter_ wv <= counter_ we)%N) by (destruct O2 as (_ & _ & ?), O3 as (_ & _ & ?); lia).
  pose proof (vs_counter _ _ _ _ _ V1) as Hc1.
  destruct (DesIla_loop em fm de (counter_ w1) (pnodes None t)) with (w := we) as (w2 & E4 & M4 & C4 & J4 & F4).
  { pose proof (ex_names _ _ _ _ Hx) as Hn. unfold ila_names in Hn. rewrite <- (pnode_entries t None), <- list_fmap_compose in Hn.
    exact Hn. }
  { rewrite Hnm. apply (iv_inj _ _ _ I1). }
  { apply Forall_forall. intros pt Hpt. apply fit_at; [|done]. rewrite <- (pnode_entries t None).
    by apply (list_elem_of_fmap_2 (fun pt => root pt.2)). }
  { lia. }
  { rewrite Hnm, Hwi. apply Forall_forall. exact R1. }
  exists m, w2, em, fm, de. split; [|split; [by rewrite Hnm|split; [|split; [|split; [|split]]]]].
  - unfold IlaSerDesMngr.Deserialize, DesInstrLvlAbs, global_json.
    do 3 (erewrite lift_bind_run by reflexivity).
    rewrite !arr_elements, (ST_bind_run _ _ _ _ _ E1), (ST_bind_run _ _ _ _ _ E2), (ST_bind_run _ _ _ _ _ E3).
    rewrite (ST_bind_run _ _ _ () (w2, de)).
    2:{ rewrite DesIlaHier_flat by lia. rewrite <- (pnodes_subtrees None), foldM_fst. exact E4. }
    unfold find_ila. destruct t as [n cs]. cbn [tree_json]. rewrite (lift_bind_run _ _ _ _ (ila_name_at _ _)).
    unfold members. rewrite (ST_bind_run (gets snd) _ (w2, de) de (w2, de)) by done. rewrite Hnm.
    change (l_name (en_ila n)) with (ename (Node n cs)). rewrite N1. reflexivity.
  - eapply Forall_impl; [exact M4|]. intros pt (mi & li & H & _). by exists mi, li.
  - rewrite Hnm. apply (iv_inj _ _ _ I1).
  - eapply fresh_map_mono, I1. lia.
  - exact F2.
  - intros i Hi. split.
    + rewrite F4; [rewrite Hwi; by apply V1|]. intros pt Hpt. rewrite Hnm.
      destruct (R1 _ Hpt) as (mi & li & [Hlo Hna _ _ _ _ _ _]). rewrite Hna. intros [= ->]. lia.
    + rewrite J4 by lia. rewrite Hwn. by rewrite (vs_instrs _ _ _ _ _ V1).
Qed.
End round.
End des.

(** C13.  What is written can be read back.  For a hierarchy that can be
    exchanged, [Serialize] produces a value and changes nothing, and
    [Deserialize] of that value succeeds in any store: it builds new objects
    only, one ILA per ILA of the hierarchy under the same name, with parent and
    children accordingly; its inputs and states are, in order, variables of the
    same names and sorts, different ones for different variables; its fetch,
    valid and initial conditions, its instructions and their decodes and updates
    are the images of the original ones, operator by operator, so they have the
    same values, when variables and functions are read through the maps of the
    deserializer.  A missing fetch becomes the constant 1 and an update is
    present for each state. *)
Theorem Serialize_Deserialize {L : Layout} w T FT t w1 : exchangeable w T FT t -> ilas_le w1 ->
  exists j m w2 em fm d,
  IlaSerDesMngr.Serialize (en_id (root t)) w = Ok (j, w) /\
  IlaSerDesMngr.Deserialize j w1 = Ok (m, w2) /\
  ila_name_ptr_map_ d !! ename t = Some m /\
  Forall (mirrored em fm d w2) (pnodes None t) /\
  (forall k k' i, ila_name_ptr_map_ d !! k = Some i -> ila_name_ptr_map_ d !! k' = Some i -> k = k') /\
  fresh_map w2 em /\ funs_ok FT fm /\
  (forall ρ e e', image em fm e e' -> eval ρ e' = eval (pull em fm ρ) e) /\
  (forall i, (i <= counter_ w1)%N -> w_ilas w2 !! i = w_ilas w1 !! i /\ w_instrs w2 !! i = w_instrs w1 !! i).
Proof.
  intros Hx Hle. destruct (Deserialize_run w T FT t Hx w1 Hle) as (m & w2 & em & fm & d & E & Hm & Hall & Hi & He & Hf & Hfr).
  exists (global_json t), m, w2, em, fm, d. split; [|do 6 (split; [done|]); split; [|done]].
  - apply (Serialize_run FT); try apply Hx. intros i l Hl. apply (ex_le _ _ _ _ Hx). by exists l.
  - intros ρ e e'. apply image_eval. intros i v Hv. exact (proj1 (proj1 He i v Hv)).
Qed.

(** The hierarchy of [CopySample], with the conditions that are written and an
    uninterpreted function. *)
Module RoundSample.
Import CopySample.
Definition f : Func := {| f_name := "f"; f_id := 11%N; f_host := None; out_ := SortBool; args_ := [SortBv 8] |}.
Definition fx : Expr :=
  ExprOp {| h_id := 10%N; h_name := "app"; h_host := Some 1%N; h_sort := SortBool |} kApplyFunc (Some f) [x] [].
Definition FT : gmap objid Func := {[ 11%N := f ]}.
Definition T : gmap objid Expr := Rewrite.heap_of [x; y; sum; same_x; same_xy; fx].

Definition top : InstrLvlAbs := Ila.with_inits (Ila.with_fetch (Ila.with_valid CopySample.top (Some same_x)) (Some sum)) [fx].
Definition child : InstrLvlAbs := Ila.with_valid CopySample.child (Some same_xy).
Definition world : World :=
  {| counter_ := 11; w_ilas := {[ 1%N := top; 3%N := child ]};
     w_instrs := {[ 8%N := inc; 9%N := move ]} |}.
Definition tr : tree := Node {| en_id := 1%N; en_ila := top; en_instrs := [inc] |}
  [Node {| en_id := 3%N; en_ila := child; en_instrs := [move] |} []].

Lemma byte_fits : int_sort (SortBv 8).
Proof. split; [by apply Z.leb_le|by apply Z.ltb_lt]. Qed.
Lemma nodes_ok : Forall (node_ok FT) [x; y; sum; same_x; same_xy; fx].
Proof.
  pose proof byte_fits. repeat apply Forall_cons_2; try apply Forall_nil_2;
    (split; [by apply N.ltb_lt|split; [reflexivity|split; [done|]]]); cbn [x y sum same_x same_xy fx var Samples.op2]; try exact I.
  1-3: split; [constructor|reflexivity].
  split; [constructor|]. split; [reflexivity|]. split; [reflexivity|]. by apply N.ltb_lt.
Qed.

Lemma ilas_bound : ilas_le world.
Proof.
  intros m [l H]. cbn in H. apply lookup_insert_Some in H as [[<- _]|[_ H]]; [by apply N.leb_le|].
  apply lookup_singleton_Some in H as [<- _]. by apply N.leb_le.
Qed.

Lemma ready : exchangeable world T FT tr.
Proof.
  pose proof nodes_ok as H. rewrite !Forall_cons in H. destruct H as (Ox & Oy & Os & O1 & O2 & Of & _). split.
  - apply stored_unfold. split; [done|]. split; [by repeat constructor|]. split; [done|]. constructor; [|constructor].
    apply stored_unfold. split; [done|]. split; [by repeat constructor|]. split; [done|constructor].
  - apply ilas_bound.
  - constructor; [|constructor; [|constructor]].
    + split; [by eexists|apply (bool_decide_unpack _); reflexivity| |].
      * constructor; [|constructor]. split; [by eexists|done].
      * unfold all_nodes. cbn -[node_ok]. each; done.
    + split; [by eexists|apply (bool_decide_unpack _); reflexivity| |].
      * constructor; [|constructor]. split; [by eexists|done].
      * unfold all_nodes. cbn -[node_ok]. each; done.
  - constructor; [|constructor; [|constructor]].
    + split; [destruct top_vars; by split|by intros e [= <-]|by intros e [= <-]|by repeat constructor| |apply NoDup_singleton].
      constructor; [|constructor]. split; [done|]. by intros e [= <-].
    + split; [destruct child_vars; by split|done|by intros e [= <-]|constructor| |apply NoDup_singleton].
      constructor; [|constructor]. split; [done|]. by intros e [= <-].
  - constructor; [|constructor; [|constructor]]; cbn [fst snd].
    + split; [by intros []|by intros v ->%list_elem_of_singleton|].
      refine (proj1 (Forall_forall (fun v => Exprs.is_var v = true -> v ∈ tvars _) _) _). cbn -[node_ok]. repeat apply Forall_cons_2; try apply Forall_nil_2; intros ?; try done; by left.
    + split; [by intros []|by intros v [->| ->]%own_xy|].
      refine (proj1 (Forall_forall (fun v => Exprs.is_var v = true -> v ∈ tvars _) _) _). cbn -[node_ok]. repeat apply Forall_cons_2; try apply Forall_nil_2; intros ?; try done; first [by left|by right; left].
  - apply (bool_decide_unpack _). reflexivity.
  - unfold coherent. cbn. each; reflexivity.
  - apply (bool_decide_unpack _). reflexivity.
Qed.
End RoundSample.

Lemma Serialize_Deserialize_witness :
  let L := layout_id in
  exists j m w2 ld, IlaSerDesMngr.Serialize 1 RoundSample.world = Ok (j, RoundSample.world) /\
    IlaSerDesMngr.Deserialize j RoundSample.world = Ok (m, w2) /\
    w_ilas w2 !! m = Some ld /\ l_name ld = "top" /\
    w_ilas w2 !! 3%N = Some RoundSample.child.
Proof.
  intros L.
  destruct (Serialize_Deserialize RoundSample.world RoundSample.T RoundSample.FT RoundSample.tr RoundSample.world
    RoundSample.ready RoundSample.ilas_bound)
    as (j & m & w2 & em & fm & d & E1 & E2 & Hm & Hall & _ & _ & _ & _ & Hold).
  apply Forall_cons in Hall as [(m' & ld & [[Hn Hna] Hat _ _ _ _ _ _ _ _]) _].
  exists j, m, w2, ld. split; [exact E1|]. split; [exact E2|]. split.
  - pose proof (eq_trans (eq_sym Hm) Hn) as Hmm. injection Hmm as <-. exact Hat.
  - split; [exact Hna|]. exact (proj1 (Hold 3%N ltac:(by apply N.leb_le))).
Defined.
