(* ===== verification/Bmc.v ===== *)
(** * Bounded equivalence checking of two ILAs

    [LegacyBmc] ([src/ila-mngr/v_eq_check_bmc.cc]): two flat ILAs are unrolled for
    given numbers of steps, and the solver is asked for runs from equal states
    that end in different ones.  The methods only read the objects. *)
From S2P Require Import Prelude Sort Values Container Expr Smt Solver World Z3Expr ExprOp AstHub Collect Unroller UnrollerSpec Rewrite AbsKnobSpec SolverPasses SolverPassesSpec.
Local Open Scope Z_scope.

Module LegacyBmc.
Section ops.
Context {Z3 : Z3Api} {SV : Z3Solver Z3}.

(** The members; the context and the generator have no state. *)
Record LegacyBmc := { invs_ : list (option Expr); inits_ : list (option Expr) }.
Definition New : LegacyBmc := {| invs_ := []; inits_ := [] |}.
Definition AddInit (b : LegacyBmc) (init : option Expr) : LegacyBmc :=
  {| invs_ := invs_ b; inits_ := inits_ b ++ [init] |}.
Definition AddInvariant (b : LegacyBmc) (inv : option Expr) : LegacyBmc :=
  {| invs_ := invs_ b ++ [inv]; inits_ := inits_ b |}.

(** [Z3Implies]. *)
Definition zimplies (a b : zexpr) : Res zexpr := throw (z_app SImplies [a; b]).

Section check.
Context (w : World).
Definition gen (e : Expr) (suffix : string) : Res zexpr := GetExpr (w_ilas w) e suffix.

(** [next_var == next_val], where a state that is not updated keeps its value
    if the instruction is complete. *)
Definition next_cnst (instr : Instr) (suffix_prev suffix_next : string) (complete : bool)
    (state_n : Expr) (cnst : zexpr) : Res zexpr :=
  match Instrs.update_state instr state_n with
  | Some update_n =>
      next_val_e ← gen update_n suffix_prev;
      next_var_e ← gen state_n suffix_next;
      eq_cnst ← zeq next_var_e next_val_e;
      zand cnst eq_cnst
  | None =>
      if complete then
        next_val_e ← gen state_n suffix_prev;
        next_var_e ← gen state_n suffix_next;
        eq_cnst ← zeq next_var_e next_val_e;
        zand cnst eq_cnst
      else Ok cnst
  end.

Definition Instr_cnst (instr : objid) (suffix_prev suffix_next : string) (complete : bool) : Res zexpr :=
  x ← deref (w_instrs w !! instr);
  h ← not_null (i_host x);
  l ← deref (w_ilas w !! h);
  cnst ← foldM (next_cnst x suffix_prev suffix_next complete) (KeyVec.vec_ (states_ l)) (z_bool_val true);
  decode_n ← not_null (decode_ x);
  decode_e ← gen decode_n suffix_prev;
  zimplies decode_e cnst.

Definition IlaOneHotFlat (ila : objid) (suffix_prev suffix_next : string) : Res zexpr :=
  l ← deref (w_ilas w !! ila);
  valid_n ← not_null (valid_ l);
  valid_e ← gen valid_n suffix_prev;
  cnst ← foldM (fun instr_i cnst =>
                  instr_cnst ← Instr_cnst instr_i suffix_prev suffix_next true; zand cnst instr_cnst)
           (KeyVec.vec_ (instrs_ l)) (z_bool_val true);
  zimplies valid_e cnst.

(** [n] steps from frame [pos + i]; the count is positive. *)
Fixpoint unroll_loop (m : objid) (pos : Z) (n : nat) (i : Z) (cnst : zexpr) : Res zexpr :=
  match n with
  | O => Ok cnst
  | S n =>
      cnst_i ← IlaOneHotFlat m (pretty (pos + i)) (pretty (pos + i + 1));
      cnst ← zand cnst_i cnst;
      unroll_loop m pos n (i + 1) cnst
  end.
Definition UnrollCmplIla (m : objid) (k pos : Z) : Res zexpr :=
  ila_assert (0 <? k);;
  ila_assert (0 <=? pos);;
  unroll_loop m pos (Z.to_nat k) 0 (z_bool_val true).

(** The assertions, in the order they are added. *)
Definition state_cnst (l1 : InstrLvlAbs) (suffix_k0 suffix_k1 : string) (state_m0 : Expr)
    (solver : list zexpr) : Res (list zexpr) :=
  state_m1 ← not_null (Ila.find_state l1 (Exprs.name state_m0));
  a ← gen state_m0 "0"; b ← gen state_m1 "0";
  init_cnst_i ← zeq a b;
  a ← gen state_m0 suffix_k0; b ← gen state_m1 suffix_k1;
  assert_i ← zeq a b;
  n ← znot assert_i;
  Ok (solver ++ [init_cnst_i; n]).
Definition input_cnst (l1 : InstrLvlAbs) (input_m0 : Expr) (solver : list zexpr) : Res (list zexpr) :=
  input_m1 ← not_null (Ila.find_input l1 (Exprs.name input_m0));
  a ← gen input_m0 "0"; b ← gen input_m1 "0";
  init_input ← zeq a b;
  Ok (solver ++ [init_input]).
Definition pred_cnst (e : option Expr) (solver : list zexpr) : Res (list zexpr) :=
  e ← deref e; z ← gen e "0"; Ok (solver ++ [z]).

Definition query (b : LegacyBmc) (m0 : objid) (k0 : Z) (m1 : objid) (k1 : Z) : Res (list zexpr) :=
  cnst_m0 ← UnrollCmplIla m0 k0 0;
  cnst_m1 ← UnrollCmplIla m1 k1 0;
  l0 ← deref (w_ilas w !! m0);
  l1 ← deref (w_ilas w !! m1);
  solver ← foldM (state_cnst l1 (pretty k0) (pretty k1)) (KeyVec.vec_ (states_ l0)) [cnst_m0; cnst_m1];
  solver ← foldM (input_cnst l1) (KeyVec.vec_ (inputs_ l0)) solver;
  solver ← foldM pred_cnst (inits_ b) solver;
  foldM pred_cnst (invs_ b) solver.

Definition Check (b : LegacyBmc) (m0 : objid) (k0 : Z) (m1 : objid) (k1 : Z) : Res CheckResult :=
  solver ← query b m0 k0 m1 k1; Ok (z_check solver).
End check.
End ops.

(** ** What the query says *)
Section spec.
Context {Z3 : Z3Api} {LZ : Z3Laws Z3} {SV : Z3Solver Z3} {SL : Z3SolverLaws SV}.
Context (w : World) (HW : IlaOk.ilas_ok (w_ilas w)).
Abbreviation W := (w_ilas w).
Abbreviation env m s := (env_of W m s).

(** A step of an instruction from [ρ] to [ρ'], and one of a flat ILA: every
    instruction that is decoded in a valid state takes place.  When the state is
    not valid, or nothing is decoded, the next state is arbitrary. *)
Definition instr_rel (i : objid) (ρ ρ' : Env) : Prop := forall x h l d,
  w_instrs w !! i = Some x -> i_host x = Some h -> W !! h = Some l -> decode_ x = Some d ->
  holds ρ d -> Forall (fun s => eval ρ' s = eval ρ (StateUpdCmpl x s)) (KeyVec.vec_ (states_ l)).
Definition ila_rel (m : objid) (ρ ρ' : Env) : Prop := forall l v,
  W !! m = Some l -> valid_ l = Some v -> holds ρ v ->
  Forall (fun i => instr_rel i ρ ρ') (KeyVec.vec_ (instrs_ l)).
(** [k] steps along the environments [ρ 0], [ρ 1], ... *)
Definition ila_run (m : objid) (k : Z) (ρ : Z -> Env) : Prop :=
  forall i, 0 <= i < k -> ila_rel m (ρ i) (ρ (i + 1)).

(** What the translation needs of an instruction and of an ILA. *)
Definition instr_ok (i : objid) : Prop := exists x h l d,
  w_instrs w !! i = Some x /\ i_host x = Some h /\ W !! h = Some l /\ decode_ x = Some d /\
  ok_pred W d /\
  Forall (fun s => ok_expr W s /\ ok_expr W (StateUpdCmpl x s) /\
                   Exprs.sort (StateUpdCmpl x s) = Exprs.sort s) (KeyVec.vec_ (states_ l)).
Definition ila_fit (m : objid) : Prop := exists l v,
  W !! m = Some l /\ valid_ l = Some v /\ ok_pred W v /\ Forall instr_ok (KeyVec.vec_ (instrs_ l)).

(** *** Terms *)
Lemma gen_denotes e s : ok_expr W e -> exists z, gen w e s = Ok z /\ denotes W s e z.
Proof using HW. intros ([T HT] & Hw & Ht). by apply (GetExpr_denotes W HW T). Qed.

Lemma gen_pred e s : ok_pred W e -> exists z, gen w e s = Ok z /\ means [z] (fun m => holds (env m s) e).
Proof using HW.
  intros [He Hs]. destruct (gen_denotes e s He) as (z & E & Hz & Hv). exists z. split; [done|].
  rewrite Hs in Hz. split; [by apply Forall_singleton|]. intros m Hm. rewrite Forall_singleton. unfold holds.
  rewrite <- Hv by done. split; congruence.
Qed.

Lemma zeq_means a b sa sb za zb : denotes W sa a za -> denotes W sb b zb -> Exprs.sort a = Exprs.sort b ->
  exists z, zeq za zb = Ok z /\ means [z] (fun m => eval (env m sa) a = eval (env m sb) b).
Proof using Type.
  intros [Ha Va] [Hb Vb] Hs.
  destruct (z_app_law SEq [za; zb] [Exprs.sort a; Exprs.sort b] SortBool) as (z & E & Hz & Hv).
  { by repeat constructor. }
  { cbn. by rewrite decide_True. }
  exists z. unfold zeq. rewrite E. split; [done|]. split; [by apply Forall_singleton|].
  intros m Hm. rewrite Forall_singleton, <- Va, <- Vb by done. specialize (Hv m Hm). cbn in Hv.
  injection Hv as ->. split.
  - intros [= H%bool_decide_eq_true]. by f_equal.
  - intros [= ->]. by rewrite bool_decide_true.
Qed.

Lemma zimplies_means a b Φ Ψ : means [a] Φ -> means [b] Ψ ->
  exists z, zimplies a b = Ok z /\ means [z] (fun m => Φ m -> Ψ m).
Proof using Type.
  intros [Ha%Forall_inv Hma] [Hb%Forall_inv Hmb].
  destruct (z_app_law SImplies [a; b] [SortBool; SortBool] SortBool) as (z & E & Hz & Hv);
    [constructor; [exact Ha|constructor; [exact Hb|constructor]]|done|].
  exists z. unfold zimplies. rewrite E. split; [done|]. split; [by apply Forall_singleton|].
  intros m Hok. rewrite Forall_singleton, <- Hma, <- Hmb, !Forall_singleton by done.
  specialize (Hv m Hok). cbn in Hv.
  pose proof (z_eval_sort m a SortBool Hok Ha) as [x Hx]%has_sort_bool.
  pose proof (z_eval_sort m b SortBool Hok Hb) as [y Hy]%has_sort_bool. rewrite Hx, Hy in *.
  injection Hv as ->. clear. destruct x, y; naive_solver.
Qed.

Lemma true_means : means [z_bool_val true] (fun _ => True).
Proof using Type.
  destruct (z_bool_val_law true) as [Ht Hv]. split; [by apply Forall_singleton|].
  intros m _. by rewrite Forall_singleton, Hv.
Qed.

(** A conjunction that is built by a loop. *)
Lemma conj_means {A} (f : A -> zexpr -> Res zexpr) (Ψ : A -> Model -> Prop) es :
  Forall (fun a => forall c Φ, means [c] Φ -> exists c', f a c = Ok c' /\ means [c'] (fun m => Φ m /\ Ψ a m)) es ->
  forall c Φ, means [c] Φ ->
  exists c', foldM f es c = Ok c' /\ means [c'] (fun m => Φ m /\ Forall (fun a => Ψ a m) es).
Proof using Type.
  induction 1 as [|a es Ha _ IH]; intros c Φ Hc.
  - exists c. split; [done|]. eapply means_iff; [|exact Hc]. intros m _. rewrite Forall_nil. tauto.
  - destruct (Ha c Φ Hc) as (c1 & E1 & M1). destruct (IH c1 _ M1) as (c2 & E2 & M2). exists c2. split.
    + cbn [foldM]. by rewrite E1.
    + eapply means_iff; [|exact M2]. intros m _. cbn beta. rewrite Forall_cons. tauto.
Qed.

(** *** Steps *)
Lemma Instr_cnst_means i sp sn : instr_ok i ->
  exists z, Instr_cnst w i sp sn true = Ok z /\ means [z] (fun m => instr_rel i (env m sp) (env m sn)).
Proof using HW.
  intros (x & h & l & d & Hx & Hh & Hl & Hd & Hp & Hs).
  destruct (conj_means (next_cnst w x sp sn true)
    (fun s m => eval (env m sn) s = eval (env m sp) (StateUpdCmpl x s)) (KeyVec.vec_ (states_ l))) with
    (c := z_bool_val true) (Φ := fun _ : Model => True) as (c & Ec & Mc).
  - eapply Forall_impl; [exact Hs|]. intros s (H1 & H2 & H3) c Φ Hc.
    destruct (gen_denotes s sn H1) as (zs & Es & Ds). destruct (gen_denotes _ sp H2) as (zu & Eu & Du).
    destruct (zeq_means s (StateUpdCmpl x s) sn sp zs zu Ds Du (eq_sym H3)) as (q & Eq & Mq).
    destruct (zand_means c q _ _ Hc Mq) as (c' & Ec & Mc). exists c'. split; [|done].
    unfold next_cnst. unfold StateUpdCmpl in Eu. destruct (Instrs.update_state x s);
      rewrite Eu; cbn [mbind Res_bind]; rewrite Es; cbn [mbind Res_bind]; by rewrite Eq.
  - apply true_means.
  - destruct (gen_pred d sp Hp) as (zd & Ed & Md).
    destruct (zimplies_means zd c _ _ Md Mc) as (z & Ez & Mz). exists z. split.
    + unfold Instr_cnst. rewrite Hx. cbn [deref mbind Res_bind]. rewrite Hh. cbn [not_null mbind Res_bind].
      rewrite Hl. cbn [deref mbind Res_bind]. rewrite Ec. cbn [mbind Res_bind]. rewrite Hd.
      cbn [not_null mbind Res_bind]. by rewrite Ed.
    + eapply means_iff; [|exact Mz]. intros m _. cbn beta. unfold instr_rel. split.
      * intros H x' h' l' d' Hx' Hh' Hl' Hd' Hh0. simplify_eq. by apply H.
      * intros H Hh0. split; [done|]. by eapply H.
Qed.

Lemma IlaOneHotFlat_means m0 sp sn : ila_fit m0 ->
  exists z, IlaOneHotFlat w m0 sp sn = Ok z /\ means [z] (fun m => ila_rel m0 (env m sp) (env m sn)).
Proof using HW.
  intros (l & v & Hl & Hv & Hp & Hi). destruct (gen_pred v sp Hp) as (zv & Ev & Mv).
  destruct (conj_means (fun instr_i cnst => instr_cnst ← Instr_cnst w instr_i sp sn true; zand cnst instr_cnst)
    (fun i m => instr_rel i (env m sp) (env m sn)) (KeyVec.vec_ (instrs_ l))) with
    (c := z_bool_val true) (Φ := fun _ : Model => True) as (c & Ec & Mc).
  - eapply Forall_impl; [exact Hi|]. intros i Hok c Φ Hc.
    destruct (Instr_cnst_means i sp sn Hok) as (q & Eq & Mq).
    destruct (zand_means c q _ _ Hc Mq) as (c' & Ec & Mc). exists c'. split; [|done].
    rewrite Eq. exact Ec.
  - apply true_means.
  - destruct (zimplies_means zv c _ _ Mv Mc) as (z & Ez & Mz). exists z. split.
    + unfold IlaOneHotFlat. rewrite Hl. cbn [deref mbind Res_bind]. rewrite Hv. cbn [not_null mbind Res_bind].
      rewrite Ev. cbn [mbind Res_bind]. by rewrite Ec.
    + eapply means_iff; [|exact Mz]. intros m _. cbn beta. unfold ila_rel. split.
      * intros H l' v' Hl' Hv' Hh. simplify_eq. by apply H.
      * intros H Hh. split; [done|]. by eapply H.
Qed.

Lemma unroll_loop_means m0 pos n : ila_fit m0 -> forall i c Φ, means [c] Φ ->
  exists z, unroll_loop w m0 pos n i c = Ok z /\
    means [z] (fun m => Φ m /\ forall j, i <= j < i + Z.of_nat n ->
      ila_rel m0 (env m (pretty (pos + j))) (env m (pretty (pos + j + 1)))).
Proof using HW.
  intros Hf. induction n as [|n IH]; intros i c Φ Hc.
  - exists c. split; [done|]. eapply means_iff; [|exact Hc]. intros m _. split; [|tauto].
    split; [done|]. lia.
  - destruct (IlaOneHotFlat_means m0 (pretty (pos + i)) (pretty (pos + i + 1)) Hf) as (q & Eq & Mq).
    destruct (zand_means q c _ _ Mq Hc) as (c' & Ec & Mc).
    destruct (IH (i + 1) c' _ Mc) as (z & Ez & Mz). exists z. split.
    + cbn [unroll_loop]. rewrite Eq. cbn [mbind Res_bind]. by rewrite Ec.
    + eapply means_iff; [|exact Mz]. intros m _. cbn beta. split.
      * intros [[H1 H2] H3]. split; [done|]. intros j Hj. destruct (decide (j = i)) as [->|]; [done|].
        apply H3. lia.
      * intros [H1 H2]. split; [split; [apply H2; lia|done]|]. intros j Hj. apply H2. lia.
Qed.

Lemma UnrollCmplIla_means m0 k : ila_fit m0 -> 0 < k ->
  exists z, UnrollCmplIla w m0 k 0 = Ok z /\ means [z] (fun m => ila_run m0 k (fun i => env m (pretty i))).
Proof using HW.
  intros Hf Hk. destruct (unroll_loop_means m0 0 (Z.to_nat k) Hf 0 _ _ true_means) as (z & E & M).
  exists z. split.
  - unfold UnrollCmplIla. rewrite (proj2 (Z.ltb_lt 0 k)) by done. exact E.
  - eapply means_iff; [|exact M]. intros m _. cbn beta. unfold ila_run. split.
    + intros [_ H] i Hi. rewrite <- (Z.add_0_l i). apply H. lia.
    + intros H. split; [done|]. intros j Hj. rewrite Z.add_0_l. apply H. lia.
Qed.

(** *** The query *)
Definition state_diff (m : Model) (l1 : InstrLvlAbs) (k0 k1 : Z) (s : Expr) : Prop :=
  exists s', Ila.find_state l1 (Exprs.name s) = Some s' /\
    eval (env m (pretty 0)) s = eval (env m (pretty 0)) s' /\
    eval (env m (pretty k0)) s <> eval (env m (pretty k1)) s'.
Definition input_same (m : Model) (l1 : InstrLvlAbs) (s : Expr) : Prop :=
  exists s', Ila.find_input l1 (Exprs.name s) = Some s' /\
    eval (env m (pretty 0)) s = eval (env m (pretty 0)) s'.

(** What the query asks for: runs of both ILAs from equal states and inputs, in
    which the conditions hold at the start and every state of the first ILA
    differs from its namesake at the end. *)
Record apart (b : LegacyBmc) (m0 : objid) (k0 : Z) (m1 : objid) (k1 : Z) (l0 l1 : InstrLvlAbs) (m : Model) : Prop := {
  ap_run0 : ila_run m0 k0 (fun i => env m (pretty i));
  ap_run1 : ila_run m1 k1 (fun i => env m (pretty i));
  ap_states : Forall (state_diff m l1 k0 k1) (KeyVec.vec_ (states_ l0));
  ap_inputs : Forall (input_same m l1) (KeyVec.vec_ (inputs_ l0));
  ap_inits : Forall (fun o => exists e, o = Some e /\ holds (env m (pretty 0)) e) (inits_ b);
  ap_invs : Forall (fun o => exists e, o = Some e /\ holds (env m (pretty 0)) e) (invs_ b) }.

(** What the check needs: variables with a namesake of their sort, and
    conditions the translation accepts. *)
Definition paired (find : string -> option Expr) (s : Expr) : Prop :=
  ok_expr W s /\ exists s', find (Exprs.name s) = Some s' /\ ok_expr W s' /\ Exprs.sort s' = Exprs.sort s.
Record checkable (b : LegacyBmc) (m0 m1 : objid) (l0 l1 : InstrLvlAbs) : Prop := {
  ck_at0 : W !! m0 = Some l0;
  ck_at1 : W !! m1 = Some l1;
  ck_fit0 : ila_fit m0;
  ck_fit1 : ila_fit m1;
  ck_states : Forall (paired (Ila.find_state l1)) (KeyVec.vec_ (states_ l0));
  ck_inputs : Forall (paired (Ila.find_input l1)) (KeyVec.vec_ (inputs_ l0));
  ck_inits : Forall (fun o => exists e, o = Some e /\ ok_pred W e) (inits_ b);
  ck_invs : Forall (fun o => exists e, o = Some e /\ ok_pred W e) (invs_ b) }.

(** A list of assertions that a loop extends. *)
Lemma adds_means {A} (f : A -> list zexpr -> Res (list zexpr)) (Ψ : A -> Model -> Prop) es :
  Forall (fun a => exists zs, (forall s, f a s = Ok (s ++ zs)) /\ means zs (Ψ a)) es ->
  forall s Φ, means s Φ ->
  exists s', foldM f es s = Ok s' /\ means s' (fun m => Φ m /\ Forall (fun a => Ψ a m) es).
Proof using Type.
  induction 1 as [|a es (zs & E & M) _ IH]; intros s Φ Hs.
  - exists s. split; [done|]. eapply means_iff; [|exact Hs]. intros m _. rewrite Forall_nil. tauto.
  - destruct (IH (s ++ zs) _ (means_app _ _ _ _ Hs M)) as (s' & E' & M'). exists s'. split.
    + cbn [foldM]. by rewrite E.
    + eapply means_iff; [|exact M']. intros m _. cbn beta. rewrite Forall_cons. tauto.
Qed.

Lemma pred_means o : (exists e, o = Some e /\ ok_pred W e) ->
  exists zs, (forall s, pred_cnst w o s = Ok (s ++ zs)) /\
    means zs (fun m => exists e, o = Some e /\ holds (env m (pretty 0)) e).
Proof using HW.
  intros (e & -> & He). destruct (gen_pred e (pretty 0) He) as (z & E & M). exists [z]. split.
  - intros s. unfold pred_cnst. change "0" with (pretty 0). cbn [deref mbind Res_bind]. by rewrite E.
  - eapply means_iff; [|exact M]. intros m _. split; [by exists e|]. by intros (e' & [= <-] & H).
Qed.

Lemma query_means b m0 k0 m1 k1 l0 l1 : checkable b m0 m1 l0 l1 -> 0 < k0 -> 0 < k1 ->
  exists zs, query w b m0 k0 m1 k1 = Ok zs /\ means zs (apart b m0 k0 m1 k1 l0 l1).
Proof using HW.
  intros [H0 H1 F0 F1 Hs Hi Hn Hv] K0 K1.
  destruct (UnrollCmplIla_means m0 k0 F0 K0) as (z0 & E0 & M0).
  destruct (UnrollCmplIla_means m1 k1 F1 K1) as (z1 & E1 & M1).
  destruct (adds_means (state_cnst w l1 (pretty k0) (pretty k1)) (fun s m => state_diff m l1 k0 k1 s)
    (KeyVec.vec_ (states_ l0))) with (s := [z0; z1]) (2 := means_app _ _ _ _ M0 M1) as (s2 & E2 & M2).
  { eapply Forall_impl; [exact Hs|]. intros s (Os & s' & Hf & Os' & Hsort).
    destruct (gen_denotes s (pretty 0) Os) as (a & Ea & Da). destruct (gen_denotes s' (pretty 0) Os') as (a' & Ea' & Da').
    destruct (gen_denotes s (pretty k0) Os) as (c & Ec & Dc). destruct (gen_denotes s' (pretty k1) Os') as (c' & Ec' & Dc').
    destruct (zeq_means _ _ _ _ a a' Da Da' (eq_sym Hsort)) as (q & Eq & Mq).
    destruct (zeq_means _ _ _ _ c c' Dc Dc' (eq_sym Hsort)) as (r & Er & Mr).
    destruct (znot_means r _ Mr) as (n & En & Mn). exists [q; n]. split.
    - intros zs. unfold state_cnst. rewrite Hf. cbn [not_null mbind Res_bind]. change "0" with (pretty 0).
      rewrite Ea. cbn [mbind Res_bind]. rewrite Ea'. cbn [mbind Res_bind]. rewrite Eq. cbn [mbind Res_bind].
      rewrite Ec. cbn [mbind Res_bind]. rewrite Ec'. cbn [mbind Res_bind]. rewrite Er. cbn [mbind Res_bind].
      rewrite En. done.
    - eapply means_iff; [|exact (means_app _ _ _ _ Mq Mn)]. intros m _. cbn beta. unfold state_diff. split.
      + intros [A B]. by exists s'.
      + intros (t & Ht & A & B). rewrite Hf in Ht. injection Ht as <-. done. }
  destruct (adds_means (input_cnst w l1) (fun s m => input_same m l1 s)
    (KeyVec.vec_ (inputs_ l0))) with (s := s2) (2 := M2) as (s3 & E3 & M3).
  { eapply Forall_impl; [exact Hi|]. intros s (Os & s' & Hf & Os' & Hsort).
    destruct (gen_denotes s (pretty 0) Os) as (a & Ea & Da). destruct (gen_denotes s' (pretty 0) Os') as (a' & Ea' & Da').
    destruct (zeq_means _ _ _ _ a a' Da Da' (eq_sym Hsort)) as (q & Eq & Mq). exists [q]. split.
    - intros zs. unfold input_cnst. rewrite Hf. cbn [not_null mbind Res_bind]. change "0" with (pretty 0).
      rewrite Ea. cbn [mbind Res_bind]. rewrite Ea'. cbn [mbind Res_bind]. by rewrite Eq.
    - eapply means_iff; [|exact Mq]. intros m _. cbn beta. unfold input_same. split.
      + intros A. by exists s'.
      + intros (t & Ht & A). rewrite Hf in Ht. injection Ht as <-. done. }
  destruct (adds_means (pred_cnst w) (fun o m => exists e, o = Some e /\ holds (env m (pretty 0)) e) (inits_ b))
    with (s := s3) (2 := M3) as (s4 & E4 & M4).
  { eapply Forall_impl; [exact Hn|]. apply pred_means. }
  destruct (adds_means (pred_cnst w) (fun o m => exists e, o = Some e /\ holds (env m (pretty 0)) e) (invs_ b))
    with (s := s4) (2 := M4) as (s5 & E5 & M5).
  { eapply Forall_impl; [exact Hv|]. apply pred_means. }
  exists s5. split.
  - unfold query. rewrite E0. cbn [mbind Res_bind]. rewrite E1. cbn [mbind Res_bind]. rewrite H0. cbn [deref mbind Res_bind].
    rewrite H1. cbn [deref mbind Res_bind]. rewrite E2. cbn [mbind Res_bind]. rewrite E3. cbn [mbind Res_bind]. by rewrite E4.
  - eapply means_iff; [|exact M5]. intros m _. cbn beta. split.
    + intros (((([A B] & C) & D) & E) & F). by split.
    + intros [A B C D E F]. tauto.
Qed.

(** C23.  The legacy check answers the question it asks: on ILAs it can
    translate, [Check] returns, and its answer is [sat] only if some model spells
    out runs of [k0] and [k1] steps from equal states and inputs, with the
    initial conditions and invariants at the start, in which all states of the
    first ILA differ from their namesakes at the end; it is [unsat] only if no
    model does. *)
Theorem Check_spec b m0 k0 m1 k1 l0 l1 : checkable b m0 m1 l0 l1 -> 0 < k0 -> 0 < k1 ->
  exists r, Check w b m0 k0 m1 k1 = Ok r /\
    (r = sat -> exists m, model_ok m /\ apart b m0 k0 m1 k1 l0 l1 m) /\
    (r = unsat -> forall m, model_ok m -> ~ apart b m0 k0 m1 k1 l0 l1 m).
Proof using HW SL.
  intros Hc K0 K1. destruct (query_means b m0 k0 m1 k1 l0 l1 Hc K0 K1) as (zs & E & M).
  exists (z_check zs). split; [unfold Check; by rewrite E|]. by apply check_answer.
Qed.
End spec.
End LegacyBmc.

(** ** Two ILAs that are not equivalent

    Both have the Boolean states [x] and [y]; the instruction of [a] changes
    nothing, that of [b] negates [y]. *)
Module BmcSample.
Definition var (id host : objid) (n : string) : Expr :=
  ExprVar {| h_id := id; h_name := n; h_host := Some host; h_sort := SortBool |} [].
Definition yes : Expr := ExprConst {| h_id := 7%N; h_name := "$7"; h_host := None; h_sort := SortBool |} (CBool true) [].
Definition flip : Expr :=
  ExprOp {| h_id := 8%N; h_name := "$8"; h_host := Some 2%N; h_sort := SortBool |} kNot None [var 6 2 "y"] [].
Definition tab (l : list Expr) : KeyVec Expr :=
  foldl (fun v e => (KeyVec.push_back v (Exprs.name e) e).2) KeyVec.empty l.
Definition machine (name : string) (xs : list Expr) (i : objid) : InstrLvlAbs :=
  Ila.with_instrs (Ila.with_valid (Ila.with_states (IlaOk.nil_ila name None) (tab xs)) (Some yes))
    (KeyVec.push_back KeyVec.empty "step" i).2.
Definition a : InstrLvlAbs := machine "a" [var 3 1 "x"; var 4 1 "y"] 9.
Definition b : InstrLvlAbs := machine "b" [var 5 2 "x"; var 6 2 "y"] 10.
Definition keep : Instr :=
  {| i_name := "step"; i_host := Some 1%N; decode_ := Some yes; updates_ := ∅; prog_ := None |}.
Definition neg : Instr :=
  {| i_name := "step"; i_host := Some 2%N; decode_ := Some yes; updates_ := {[ "y" := Some flip ]}; prog_ := None |}.
Definition world : World :=
  {| counter_ := 10; w_ilas := {[ 1%N := a; 2%N := b ]}; w_instrs := {[ 9%N := keep; 10%N := neg ]} |}.

(** [y] of [b] is true at time 1, all else is false. *)
Definition model : Model :=
  {| m_const n s := if String.eqb n "b_sEp_y_sEp_1" && bool_decide (s = SortBool) then VBool true else default_val s;
     m_fun _ _ s _ := default_val s |}.

Lemma hosts : IlaOk.ilas_ok (w_ilas world).
Proof.
  intros m l p H. cbn in H. apply lookup_insert_Some in H as [[<- <-]|[_ [<- <-]%lookup_singleton_Some]]; done.
Qed.

Lemma model_fine : model_ok model.
Proof.
  split; intros; cbn; [|by apply default_val_sort].
  destruct (_ && _) eqn:E; bool_inv; subst; [done|by apply default_val_sort].
Qed.

Lemma bmc_exprs : Forall (ok_expr (w_ilas world)) [var 3 1 "x"; var 4 1 "y"; var 5 2 "x"; var 6 2 "y"; yes; flip].
Proof.
  repeat apply Forall_cons_2; try apply Forall_nil_2;
    match goal with |- ok_expr _ ?e => split; [exists (nodes_of e); vm_compute; repeat split|split; reflexivity] end.
Qed.

Lemma bmc_ready : LegacyBmc.checkable world LegacyBmc.New 1 2 a b.
Proof.
  pose proof bmc_exprs as H. rewrite !Forall_cons in H. destruct H as (Ax & Ay & Bx & By & Oy & Of & _).
  split; [done|done| | | |constructor|constructor|constructor].
  - exists a, yes. split; [done|]. split; [done|]. split; [by split|]. constructor; [|constructor].
    exists keep, 1%N, a, yes. do 4 (split; [done|]). split; [by split|]. repeat apply Forall_cons_2; [done..|apply Forall_nil_2].
  - exists b, yes. split; [done|]. split; [done|]. split; [by split|]. constructor; [|constructor].
    exists neg, 2%N, b, yes. do 4 (split; [done|]). split; [by split|]. repeat apply Forall_cons_2; [done..|apply Forall_nil_2].
  - repeat apply Forall_cons_2; [split; [done|]..|apply Forall_nil_2].
    + by exists (var 5 2 "x").
    + by exists (var 6 2 "y").
Qed.
End BmcSample.
Import BmcSample.

Lemma Check_spec_witness :
  let b0 := LegacyBmc.New in
  exists r, LegacyBmc.Check (Z3 := Terms.terms) (SV := PropSolver.solver) world b0 1 1 2 1 = Ok r /\
    (r = sat -> exists m, model_ok m /\ LegacyBmc.apart world b0 1 1 2 1 a b m).
Proof.
  intros b0.
  destruct (LegacyBmc.Check_spec (Z3 := Terms.terms) (LZ := Terms.terms_laws) (SV := PropSolver.solver)
    (SL := PropSolver.solver_laws) world hosts b0 1 1 2 1 a b bmc_ready ltac:(lia) ltac:(lia)) as (r & E & H & _).
  exists r. split; [exact E|exact H].
Defined.

(** C24.  The legacy check can miss a difference.  The two ILAs of [BmcSample]
    start from equal states and end with different values of [y], but [Check]
    answers that there is no counterexample: it asks for a run after which every
    state differs, and [x] never does. *)
Theorem Check_misses :
  LegacyBmc.Check (Z3 := Terms.terms) (SV := PropSolver.solver) world LegacyBmc.New 1 1 2 1 = Ok unsat /\
  exists m, let ρ i := env_of (w_ilas world) m (pretty i) in
    model_ok m /\ LegacyBmc.ila_run world 1 1 ρ /\ LegacyBmc.ila_run world 2 1 ρ /\
    (forall s, s ∈ KeyVec.vec_ (states_ a) -> exists s', Ila.find_state b (Exprs.name s) = Some s' /\
       eval (ρ 0) s = eval (ρ 0) s') /\
    Ila.find_state a "y" = Some (var 4 1 "y") /\ Ila.find_state b "y" = Some (var 6 2 "y") /\
    eval (ρ 1) (var 4 1 "y") <> eval (ρ 1) (var 6 2 "y").
Proof.
  split.
  - assert (Hd : exists ks, match LegacyBmc.query (Z3 := Terms.terms) world LegacyBmc.New 1 1 2 1 with
        | Ok zs => PropSolver.all_consts zs | Fail _ => None end = Some ks /\
        forallb (fun k => bool_decide (k.2 = SortBool)) ks = true)
      by (eexists; split; vm_compute; reflexivity).
    destruct (LegacyBmc.query_means (Z3 := Terms.terms) (LZ := Terms.terms_laws) world hosts
      LegacyBmc.New 1 1 2 1 a b bmc_ready ltac:(lia) ltac:(lia)) as (zs & E & M).
    rewrite E in Hd. destruct Hd as (ks & Hk & Hb). unfold LegacyBmc.Check. rewrite E. cbn [mbind Res_bind]. f_equal.
    destruct (check_answer (LZ := Terms.terms_laws) (SL := PropSolver.solver_laws) zs _ M) as [Hsat _].
    destruct (z_check zs) eqn:Ez; [|done|].
    + destruct (Hsat eq_refl) as (m & _ & [R0 R1 Hs _ _ _]). exfalso. apply Forall_inv in Hs as (s' & Hf & H0 & H1).
      cbn in Hf. injection Hf as <-. apply H1.
      pose proof (R0 0 ltac:(lia) a yes eq_refl eq_refl eq_refl) as S0.
      pose proof (R1 0 ltac:(lia) b yes eq_refl eq_refl eq_refl) as S1.
      apply Forall_inv in S0. apply Forall_inv in S1.
      specialize (S0 keep 1%N a yes eq_refl eq_refl eq_refl eq_refl eq_refl). apply Forall_inv in S0.
      specialize (S1 neg 2%N b yes eq_refl eq_refl eq_refl eq_refl eq_refl). apply Forall_inv in S1.
      etrans; [exact S0|]. etrans; [exact H0|]. symmetry. exact S1.
    + exfalso. cbn in Ez. unfold PropSolver.check in Ez. rewrite Hk, Hb in Ez. by destruct (existsb _ _).
  - exists model. intros ρ. split; [apply model_fine|]. split; [|split; [|split; [|split; [done|split; [done|]]]]].
    + intros i Hi l v. assert (i = 0) as -> by lia. intros [= <-] [= <-] _. constructor; [|constructor].
      intros x h l d [= <-] [= <-] [= <-] [= <-] _. repeat apply Forall_cons_2; [by vm_compute..|apply Forall_nil_2].
    + intros i Hi l v. assert (i = 0) as -> by lia. intros [= <-] [= <-] _. constructor; [|constructor].
      intros x h l d [= <-] [= <-] [= <-] [= <-] _. repeat apply Forall_cons_2; [by vm_compute..|apply Forall_nil_2].
    + intros s. change (KeyVec.vec_ (states_ a)) with [var 3 1 "x"; var 4 1 "y"].
      rewrite elem_of_cons, list_elem_of_singleton. intros [->| ->].
      * exists (var 5 2 "x"). split; [done|]. by vm_compute.
      * exists (var 6 2 "y"). split; [done|]. by vm_compute.
    + by vm_compute.
Qed.
