(* ===== verification/TermSpec.v ===== *)
(** * Computations that make terms

    A computation on a store with the invariant [I] makes a Boolean term with a
    meaning ([yields]) or the translation of an expression ([makes_term]); the
    connectives and the loops that put terms together. *)
From S2P Require Import Prelude Sort Values Container Expr Smt World Z3Expr Unroller UnrollerSpec SolverPasses SolverPassesSpec Bmc.

Section terms.
Context {Z3 : Z3Api} {LZ : Z3Laws Z3} (W : gmap objid InstrLvlAbs) {S : Type} (I : S -> Prop).
Abbreviation C := (ST S).
Abbreviation zimplies := LegacyBmc.zimplies.

Definition yields (m : C zexpr) (Φ : Model -> Prop) : Prop := forall s, I s ->
  returns m s (fun z s' => I s' /\ means [z] Φ).
Definition makes_term (m : C zexpr) (suff : string) (e : Expr) : Prop := forall s, I s ->
  returns m s (fun z s' => I s' /\ denotes W suff e z).

Lemma term_yields m suff e : ok_pred W e -> makes_term m suff e -> yields m (fun M => holds (env_of W M suff) e).
Proof using Type.
  intros [_ Hs] Hm s Hsk. eapply returns_impl; [by apply Hm|]. intros z s' [H1 [Hz Hv]]. split; [done|].
  rewrite Hs in Hz. split; [by apply Forall_singleton|]. intros M HM. rewrite Forall_singleton. unfold holds.
  rewrite <- Hv by done. split; congruence.
Qed.
Lemma yields_iff m Φ Ψ : (forall M, model_ok M -> Φ M <-> Ψ M) -> yields m Φ -> yields m Ψ.
Proof using Type.
  intros H Hm s Hs. eapply returns_impl; [by apply Hm|]. intros z s' [H1 H2]. split; [done|].
  by eapply means_iff.
Qed.
Lemma term_bind m (k : zexpr -> C zexpr) Φ Ψ : yields m Φ -> (forall z, means [z] Φ -> yields (k z) Ψ) -> yields (m ≫= k) Ψ.
Proof using Type.
  intros Hm Hk s Hs. eapply returns_bind; [by apply Hm|]. intros z s' [H1 H2]. by apply Hk.
Qed.
Lemma lift_yields r z Φ : r = Ok z -> means [z] Φ -> yields (lift r) Φ.
Proof using Type. intros -> Hz s Hs. exists z, s. by split. Qed.
Lemma lift_and a b Φ Ψ : means [a] Φ -> means [b] Ψ -> yields (lift (zand a b)) (fun M => Φ M /\ Ψ M).
Proof using Type. intros Ha Hb. destruct (zand_means a b Φ Ψ Ha Hb) as (z & E & Hz). by eapply lift_yields. Qed.
Lemma lift_or a b Φ Ψ : means [a] Φ -> means [b] Ψ -> yields (lift (zor a b)) (fun M => Φ M \/ Ψ M).
Proof using Type. intros Ha Hb. destruct (zor_means a b Φ Ψ Ha Hb) as (z & E & Hz). by eapply lift_yields. Qed.
Lemma lift_not a Φ : means [a] Φ -> yields (lift (znot a)) (fun M => ~ Φ M).
Proof using Type. intros Ha. destruct (znot_means a Φ Ha) as (z & E & Hz). by eapply lift_yields. Qed.
Lemma lift_implies a b Φ Ψ : means [a] Φ -> means [b] Ψ -> yields (lift (zimplies a b)) (fun M => Φ M -> Ψ M).
Proof using Type.
  intros Ha Hb. destruct (LegacyBmc.zimplies_means a b Φ Ψ Ha Hb) as (z & E & Hz). by eapply lift_yields.
Qed.

(** A loop that builds a conjunction, or a disjunction. *)
Lemma fold_yields {A} (f : A -> zexpr -> C zexpr) (R : (Model -> Prop) -> A -> Model -> Prop) (F : (Model -> Prop) -> list A -> Model -> Prop) l :
  (forall Φ M, F Φ [] M <-> Φ M) -> (forall Φ a l M, F (R Φ a) l M <-> F Φ (a :: l) M) ->
  Forall (fun a => forall z Φ, means [z] Φ -> yields (f a z) (R Φ a)) l ->
  forall z Φ, means [z] Φ -> yields (foldM f l z) (F Φ l).
Proof using Type.
  intros F0 F1. induction 1 as [|a l Ha _ IH]; intros z Φ Hz.
  - intros s Hs. apply returns_ret. split; [done|]. eapply means_iff; [|exact Hz]. intros M _. by rewrite F0.
  - cbn [foldM]. eapply term_bind; [by apply Ha|]. intros z' Hz'.
    eapply yields_iff; [|by apply IH]. intros M _. apply F1.
Qed.
Lemma conj_yields {A} (f : A -> zexpr -> C zexpr) (Ψ : A -> Model -> Prop) l :
  Forall (fun a => forall z Φ, means [z] Φ -> yields (f a z) (fun M => Φ M /\ Ψ a M)) l ->
  forall z Φ, means [z] Φ -> yields (foldM f l z) (fun M => Φ M /\ Forall (fun a => Ψ a M) l).
Proof using Type.
  apply (fold_yields f (fun Φ a M => Φ M /\ Ψ a M) (fun Φ l M => Φ M /\ Forall (fun a => Ψ a M) l)).
  - intros Φ M. rewrite Forall_nil. tauto.
  - intros Φ a l' M. rewrite Forall_cons. tauto.
Qed.
Lemma disj_yields {A} (f : A -> zexpr -> C zexpr) (Ψ : A -> Model -> Prop) l :
  Forall (fun a => forall z Φ, means [z] Φ -> yields (f a z) (fun M => Φ M \/ Ψ a M)) l ->
  forall z Φ, means [z] Φ -> yields (foldM f l z) (fun M => Φ M \/ Exists (fun a => Ψ a M) l).
Proof using Type.
  apply (fold_yields f (fun Φ a M => Φ M \/ Ψ a M) (fun Φ l M => Φ M \/ Exists (fun a => Ψ a M) l)).
  - intros Φ M. rewrite Exists_nil. tauto.
  - intros Φ a l' M. rewrite Exists_cons. tauto.
Qed.

(** Calls that do not make a term. *)
Lemma yields_step {A} (m : C A) (k : A -> C zexpr) (P : A -> Prop) Φ :
  (forall s, I s -> returns m s (fun x s' => P x /\ I s')) -> (forall x, P x -> yields (k x) Φ) -> yields (m ≫= k) Φ.
Proof using Type.
  intros Hm Hk s Hs. eapply returns_bind; [by apply Hm|]. intros x s' [H1 H2]. by apply Hk.
Qed.
Lemma yields_need {A} (o : option A) a (k : A -> C zexpr) Φ : o = Some a -> yields (k a) Φ -> yields (lift (deref o) ≫= k) Φ.
Proof using Type. intros -> H s Hs. by apply returns_lift with a, H. Qed.
Lemma yields_lift {A} (r : Res A) a (k : A -> C zexpr) Φ : r = Ok a -> yields (k a) Φ -> yields (lift r ≫= k) Φ.
Proof using Type. intros E H s Hs. eapply returns_lift; [exact E|]. by apply H. Qed.

End terms.
#[global] Arguments term_yields {Z3 LZ W S I}.
#[global] Arguments yields_iff {Z3 LZ S I}.
#[global] Arguments term_bind {Z3 LZ S I}.
#[global] Arguments lift_yields {Z3 LZ S I}.
#[global] Arguments lift_and {Z3 LZ S I}.
#[global] Arguments lift_or {Z3 LZ S I}.
#[global] Arguments lift_not {Z3 LZ S I}.
#[global] Arguments lift_implies {Z3 LZ S I}.
#[global] Arguments fold_yields {Z3 LZ S I A}.
#[global] Arguments conj_yields {Z3 LZ S I A}.
#[global] Arguments disj_yields {Z3 LZ S I A}.
#[global] Arguments yields_step {Z3 LZ S I A}.
#[global] Arguments yields_need {Z3 LZ S I A}.
#[global] Arguments yields_lift {Z3 LZ S I A}.
