(* ===== verification/Crr.v ===== *)
(** * Equivalence by commuting diagrams: the operations

    [RefinementMap], [RelationMap], [CompRefRel] ([v_refinement.cc]) and
    [CommDiag] ([v_eq_check_crr.cc]) of [src/ila-mngr].  The diagram reads the
    refinement relation it was given; it owns several monolithic unrollers, which
    differ in their suffix.  [z3::forall] is not in the repository. *)
From S2P Require Import Prelude Sort Values Container Expr Smt Solver World Z3Expr ExprOp AstHub Collect Rewrite AbsKnob Unroller SolverPasses Bmc.
Local Open Scope Z_scope.

(** ** What is compared *)
Module RefinementMap.
Record RefinementMap := {
  coi_ : option objid; appl_ : option Expr; flush_ : option Expr; cmpl_ : option Expr;
  step_appl_ : Z; step_orig_ : Z; invs_ : list Expr }.

Definition New : M RefinementMap :=
  cmpl ← asthub.BoolConst true;
  mret {| coi_ := None; appl_ := None; flush_ := None; cmpl_ := Some cmpl;
          step_appl_ := -1; step_orig_ := -1; invs_ := [] |}.

Section setters.
Context (r : RefinementMap).
Definition with_coi (o : option objid) : RefinementMap :=
  {| coi_ := o; appl_ := appl_ r; flush_ := flush_ r; cmpl_ := cmpl_ r;
     step_appl_ := step_appl_ r; step_orig_ := step_orig_ r; invs_ := invs_ r |}.
Definition with_conds (a f c : option Expr) (is_ : list Expr) : RefinementMap :=
  {| coi_ := coi_ r; appl_ := a; flush_ := f; cmpl_ := c;
     step_appl_ := step_appl_ r; step_orig_ := step_orig_ r; invs_ := is_ |}.
Definition with_steps (sa so : Z) : RefinementMap :=
  {| coi_ := coi_ r; appl_ := appl_ r; flush_ := flush_ r; cmpl_ := cmpl_ r;
     step_appl_ := sa; step_orig_ := so; invs_ := invs_ r |}.

(** A pointer to a Boolean expression. *)
Definition bool_ptr (e : option Expr) : Res Expr :=
  match e with
  | Some e => ila_assert (Exprs.is_bool e);; Ok e
  | None => Fail EAssert
  end.

Definition set_tgt (tgt : option objid) : Res RefinementMap :=
  ila_assert (is_some tgt);; Ok (with_coi tgt).
Definition set_tgt_instr {L : Layout} (tgt : option objid) : M RefinementMap :=
  assert_ (is_some tgt);;
  i ← lift (deref tgt);
  x ← instr_ i;
  assert_ (is_some (i_host x));;
  h ← lift (deref (i_host x));
  l ← ila h;
  c ← absknob.ExtrDeptModl i (l_name l);
  mret (with_coi (Some c)).
Definition set_appl (e : option Expr) : Res RefinementMap :=
  e ← bool_ptr e; Ok (with_conds (Some e) (flush_ r) (cmpl_ r) (invs_ r)).
Definition set_flush (e : option Expr) : Res RefinementMap :=
  e ← bool_ptr e; Ok (with_conds (appl_ r) (Some e) (cmpl_ r) (invs_ r)).
Definition set_cmpl (e : option Expr) : Res RefinementMap :=
  e ← bool_ptr e; Ok (with_conds (appl_ r) (flush_ r) (Some e) (invs_ r)).
Definition set_step_appl (step : Z) : Res RefinementMap :=
  ila_assert (0 <=? step);; Ok (with_steps step (step_orig_ r)).
Definition set_step_orig (step : Z) : Res RefinementMap :=
  ila_assert (0 <=? step);; Ok (with_steps (step_appl_ r) step).
Definition add_inv (e : option Expr) : Res RefinementMap :=
  e ← bool_ptr e; Ok (with_conds (appl_ r) (flush_ r) (cmpl_ r) (invs_ r ++ [e])).
End setters.
End RefinementMap.
Import RefinementMap.

Module RelationMap.
Record RelationMap := { acc_ : Expr }.
Definition New : M RelationMap := t ← asthub.BoolConst true; mret {| acc_ := t |}.
Definition add {L : Layout} (r : RelationMap) (rel : option Expr) : M RelationMap :=
  rel ← lift (bool_ptr rel);
  acc ← asthub.And (acc_ r) rel;
  mret {| acc_ := acc |}.
End RelationMap.
Import RelationMap.

Module CompRefRel.
Record CompRefRel := { ref_a_ : RefinementMap; ref_b_ : RefinementMap; rel_ : RelationMap }.
Definition New (ref_a ref_b : option RefinementMap) (rel : option RelationMap) : Res CompRefRel :=
  match ref_a, ref_b, rel with
  | Some a, Some b, Some r => Ok {| ref_a_ := a; ref_b_ := b; rel_ := r |}
  | _, _, _ => Fail EAssert
  end.
End CompRefRel.
Import CompRefRel.

(** ** The solver object of a check

    The assertions, and those at each [push]. *)
Module SolverObj.
Section obj.
Context {Z3 : Z3Api} {SV : Z3Solver Z3}.
Record Solver := { asserts_ : list zexpr; scopes_ : list (list zexpr) }.
Definition empty : Solver := {| asserts_ := []; scopes_ := [] |}.
Definition add (z : zexpr) (s : Solver) : Solver :=
  {| asserts_ := asserts_ s ++ [z]; scopes_ := scopes_ s |}.
Definition push (s : Solver) : Solver := {| asserts_ := asserts_ s; scopes_ := asserts_ s :: scopes_ s |}.
Definition pop (s : Solver) : Res Solver :=
  match scopes_ s with
  | a :: l => Ok {| asserts_ := a; scopes_ := l |}
  | [] => Fail EThrow
  end.
Definition check (s : Solver) : CheckResult := z_check (asserts_ s).
End obj.
End SolverObj.

(** [z3::forall] over constants; an exception is [None]. *)
Class Z3Forall (Z3 : Z3Api) := { z_forall : list zexpr -> zexpr -> option zexpr }.

(** ** [class CommDiag] *)
Module CommDiag.
Section diag.
Context {Z3 : Z3Api} {SV : Z3Solver Z3} {FA : Z3Forall Z3} {L : Layout}.
Import Collect.absknob.
Abbreviation zimplies := LegacyBmc.zimplies.

Inductive UID := A_OLD | A_NEW | B_OLD | B_NEW.
#[global] Instance UID_eq_dec : EqDecision UID.
Proof. solve_decision. Defined.
Definition uids : list UID := [A_OLD; A_NEW; B_OLD; B_NEW].

(** The unrollers: the members, and the four locals of [IncEqCheck]. *)
Inductive Unr := unrl_a_old_ | unrl_a_new_ | unrl_b_old_ | unrl_b_new_ | unrl_old_ | unrl_new_
  | unrl_apl_ | unroll_appl_ | unroll_orig_
  | inc_unrl_old_a | inc_unrl_new_a | inc_unrl_old_b | inc_unrl_new_b.
#[global] Instance Unr_eq_dec : EqDecision Unr.
Proof. solve_decision. Defined.

Definition k_suff_orig_ : string := "org".
Definition k_suff_appl_ : string := "apl".
Definition k_suff_old_ : string := "old".
Definition k_suff_new_ : string := "new".
Definition k_suff_apl_ : string := "apl".
Definition suffix_of (k : Unr) : string :=
  match k with
  | unrl_a_old_ | unrl_b_old_ | unrl_old_ | inc_unrl_old_a | inc_unrl_old_b => k_suff_old_
  | unrl_a_new_ | unrl_b_new_ | unrl_new_ | inc_unrl_new_a | inc_unrl_new_b => k_suff_new_
  | unrl_apl_ => k_suff_apl_
  | unroll_appl_ => k_suff_appl_
  | unroll_orig_ => k_suff_orig_
  end.

Record UnrlUnit := { lo : Z; hi : Z }.

Record CommDiag := {
  crr_ : CompRefRel;
  uu_ : UID -> UnrlUnit;
  unrs : Unr -> Unroller;
  stts_a_ : list Expr;
  stts_b_ : list Expr }.
Definition with_uu (d : CommDiag) (u : UID) (x : UnrlUnit) : CommDiag :=
  {| crr_ := crr_ d; uu_ v := if decide (v = u) then x else uu_ d v; unrs := unrs d;
     stts_a_ := stts_a_ d; stts_b_ := stts_b_ d |}.
Definition with_unr (d : CommDiag) (k : Unr) (u : Unroller) : CommDiag :=
  {| crr_ := crr_ d; uu_ := uu_ d; unrs j := if decide (j = k) then u else unrs d j;
     stts_a_ := stts_a_ d; stts_b_ := stts_b_ d |}.
Definition with_stts (d : CommDiag) (a b : list Expr) : CommDiag :=
  {| crr_ := crr_ d; uu_ := uu_ d; unrs := unrs d; stts_a_ := a; stts_b_ := b |}.

(** ** Computations *)
Abbreviation C := (ST (World * CommDiag)).
Definition on_store {A} (m : M A) : C A := fun s =>
  match m s.1 with Ok (a, w) => Ok (a, (w, s.2)) | Fail e => Fail e end.
Definition on_unr {A} (k : Unr) (m : U A) : C A := fun s =>
  match m (s.1, unrs s.2 k) with
  | Ok (a, (w, u)) => Ok (a, (w, with_unr s.2 k u))
  | Fail e => Fail e
  end.
Definition this : C CommDiag := gets snd.
Definition set_this (f : CommDiag -> CommDiag) : C unit := modify (fun s => (s.1, f s.2)).
Definition refine_a : C RefinementMap := d ← this; mret (ref_a_ (crr_ d)).
Definition refine_b : C RefinementMap := d ← this; mret (ref_b_ (crr_ d)).
Definition relation : C Expr := d ← this; mret (acc_ (rel_ (crr_ d))).
Definition need {A} (o : option A) : C A := lift (deref o).
Definition preds (k : Unr) (f : Unroller -> Unroller) : C unit := on_unr k (set_self f).

(** [acc = acc && (a == b)] over the members of a set. *)
Definition eq_states (vars : list Expr) (a b : Expr -> C zexpr) : C zexpr :=
  foldM (fun v eq => x ← a v; y ← b v; e ← lift (zeq x y); lift (zand eq e))
    (ExprSet.iter vars) (z_bool_val true).
(** The integers of [for (i = a; i <= b; i++)]. *)
Definition upto (a b : Z) : list Z := seqZ a (b - a + 1).

(** ** Generation of terms *)
Definition GenInit (ref : RefinementMap) : C zexpr :=
  coi ← need (coi_ ref);
  vars ← on_store (GetSttTree coi);
  eq ← eq_states vars (fun v => on_unr unroll_orig_ (CurrState v 0))
         (fun v => on_unr unroll_appl_ (CurrState v 0));
  a ← need (appl_ ref);
  an ← on_unr unroll_appl_ (GetZ3Expr_at a 0);
  f ← need (flush_ ref);
  fo ← on_unr unroll_orig_ (GetZ3Expr_at f 0);
  z ← lift (zand an fo);
  lift (zand z eq).

Definition AtLeastOnce (k : Unr) (cmpl : Expr) (start end_ : Z) : C zexpr :=
  t ← on_store (asthub.BoolConst false);
  cstr ← on_unr k (GetZ3Expr_at t 0);
  foldM (fun i cstr => c ← on_unr k (GetZ3Expr_at cmpl i); lift (zor cstr c)) (upto start end_) cstr.

Definition AtMostOnce (k : Unr) (cmpl : Expr) (start end_ : Z) : C zexpr :=
  t ← on_store (asthub.BoolConst true);
  cstr ← on_unr k (GetZ3Expr_at t 0);
  foldM (fun i cstr =>
    cmpl_i ← on_unr k (GetZ3Expr_at cmpl i);
    foldM (fun j cstr =>
      cmpl_j ← on_unr k (GetZ3Expr_at cmpl j);
      ni ← lift (znot cmpl_i);
      nj ← lift (znot cmpl_j);
      o ← lift (zor ni nj);
      lift (zand cstr o)) (upto (i + 1) end_) cstr) (upto start end_) cstr.

(** [mark]: where [cmpl] holds, the representative state is the current one. *)
Definition mark_at (k : Unr) (cmpl : Expr) (stts : list Expr) (pos : Z) (acc : zexpr) : C zexpr :=
  c ← on_unr k (GetZ3Expr_at cmpl pos);
  eq ← eq_states stts (fun v => on_unr k (GetZ3Expr v)) (fun v => on_unr k (CurrState v pos));
  mark ← lift (zimplies c eq);
  lift (zand acc mark).

Definition UnrollFlush (k : Unr) (ref : RefinementMap) (base length start : Z) : C zexpr :=
  lift (ila_assert (start <=? base + length));;
  preds k ClearPred;;
  preds k (fun u => foldl AddGlobPred u (invs_ ref));;
  f ← need (flush_ ref);
  preds k (fun u => foldl (fun u i => AddStepPred u f i) u (upto start (base + length)));;
  coi ← need (coi_ ref);
  path ← on_unr k (MonoUnroll.MonoAssn coi (Z.to_nat length) base);
  l ← on_store (ila coi);
  c ← need (cmpl_ ref);
  mark ← foldM (mark_at k c (GetStt l)) (upto start (base + length)) (z_bool_val true);
  lift (zand path mark).

Definition GenTranRel (ref : RefinementMap) (k_orig k_appl : Z) : C zexpr :=
  init ← GenInit ref;
  orig ← UnrollFlush unroll_orig_ ref 0 k_orig 0;
  appl ← UnrollFlush unroll_appl_ ref 0 (k_appl + 1) 1;
  z ← lift (zand init orig);
  lift (zand z appl).

Definition GenAssm : C zexpr := r ← relation; on_unr unroll_orig_ (GetZ3Expr r).
Definition GenProp : C zexpr := r ← relation; on_unr unroll_appl_ (GetZ3Expr r).

(** ** Sanity checks *)
Definition gen_e (e : Expr) : C zexpr := on_store (SanityCheck.gen e).

Definition SanityCheckRefinement (ref : RefinementMap) : C bool :=
  m ← lift (not_null (coi_ ref));
  f ← lift (not_null (flush_ ref));
  a ← lift (not_null (appl_ ref));
  c ← lift (not_null (cmpl_ ref));
  fa ← on_store (asthub.And f a);
  exc ← gen_e fa;
  if bool_decide (z_check [exc] = sat) then mret false else
  implied ←
    (if negb (step_orig_ ref =? 0) || negb (step_appl_ ref =? 0) then
       fc ← on_store (asthub.Imply f c);
       cmpl_unique ← gen_e fc;
       n ← lift (znot cmpl_unique);
       mret (bool_decide (z_check [n] = unsat))
     else mret false);
  if (implied : bool) then mret false else
  init ← GenInit ref;
  an ← on_unr unroll_appl_ (GetZ3Expr_at a 0);
  appl_vars ← lift (GetVar a);
  appl_z3 ← foldM (fun v l => z ← on_unr unroll_appl_ (CurrState v 0); mret (l ++ [z]))
              (ExprSet.iter appl_vars) [];
  ni ← lift (znot init);
  body ← lift (zand an ni);
  z ← lift (throw (z_forall appl_z3 body));
  mret (negb (bool_decide (z_check [z] = sat))).

Definition SanityCheckRelation (rel : Expr) (ma mb : objid) : C bool :=
  rel_vars ← lift (GetVar rel);
  la ← on_store (ila ma);
  lb ← on_store (ila mb);
  let ref_vars := InsertStt lb (InsertStt la []) in
  mret (forallb (fun v => bool_decide (Exprs.id v ∈ ExprSet.ids ref_vars)) rel_vars).

Definition SanityCheck : C bool :=
  a ← refine_a;
  b ← refine_b;
  res_a ← SanityCheckRefinement a;
  res_b ← SanityCheckRefinement b;
  rel ← relation;
  ma ← need (coi_ a);
  mb ← need (coi_ b);
  res_r ← SanityCheckRelation rel ma mb;
  mret (res_a && res_b && res_r).

(** ** The number of steps *)
Definition CheckStepOrig (ref : RefinementMap) (k : Z) : C bool :=
  init ← GenInit ref;
  preds unroll_orig_ ClearPred;;
  f ← need (flush_ ref);
  preds unroll_orig_ (fun u => AddGlobPred u f);;
  preds unroll_orig_ (fun u => foldl AddGlobPred u (invs_ ref));;
  coi ← need (coi_ ref);
  tran ← on_unr unroll_orig_ (MonoUnroll.MonoAssn coi (Z.to_nat k) 0);
  both ← lift (zand init tran);
  (if bool_decide (z_check [both] = unsat) then lift (ila_check false) else mret ());;
  c ← need (cmpl_ ref);
  at_least_once ← AtLeastOnce unroll_orig_ c 0 k;
  n ← lift (znot at_least_once);
  z1 ← lift (zand both n);
  if bool_decide (z_check [z1] = sat) then mret false else
  at_most_once ← AtMostOnce unroll_orig_ c 0 k;
  n ← lift (znot at_most_once);
  z2 ← lift (zand both n);
  mret (negb (bool_decide (z_check [z1; z2] = sat))).

Definition CheckStepAppl (ref : RefinementMap) (k : Z) : C bool :=
  init ← GenInit ref;
  preds unroll_appl_ ClearPred;;
  a ← need (appl_ ref);
  preds unroll_appl_ (fun u => AddInitPred u a);;
  f ← need (flush_ ref);
  preds unroll_appl_ (fun u => foldl (fun u i => AddStepPred u f i) u (upto 1 (k + 1)));;
  preds unroll_appl_ (fun u => foldl AddGlobPred u (invs_ ref));;
  coi ← need (coi_ ref);
  tran ← on_unr unroll_appl_ (MonoUnroll.MonoAssn coi (Z.to_nat (k + 1)) 0);
  c ← need (cmpl_ ref);
  both ← lift (zand init tran);
  at_least_once ← AtLeastOnce unroll_appl_ c 1 (k + 1);
  n ← lift (znot at_least_once);
  z1 ← lift (zand both n);
  if bool_decide (z_check [z1] = sat) then mret false else
  at_most_once ← AtMostOnce unroll_appl_ c 1 (k + 1);
  n ← lift (znot at_most_once);
  z2 ← lift (zand both n);
  mret (negb (bool_decide (z_check [z1; z2] = sat))).

(** The first number of steps that passes, or [-1]. *)
Fixpoint first_step (check : Z -> C bool) (ns : list Z) : C Z :=
  match ns with
  | [] => mret (-1)
  | n :: ns => res ← check n; if (res : bool) then mret n else first_step check ns
  end.
Definition DetStepOrig (ref : RefinementMap) (max : Z) : C Z :=
  let k := step_orig_ ref in
  first_step (CheckStepOrig ref) (upto (if 0 <=? k then k else 0) max).
Definition DetStepAppl (ref : RefinementMap) (max : Z) : C Z :=
  let k := step_appl_ ref in
  first_step (CheckStepAppl ref) (upto (if 0 <=? k then k else 0) max).

(** ** [EqCheck] *)
Definition EqCheck (max : Z) : C bool :=
  SanityCheck;;
  a ← refine_a;
  b ← refine_b;
  step_orig_a ← DetStepOrig a max;
  step_appl_a ← DetStepAppl a max;
  step_orig_b ← DetStepOrig b max;
  step_appl_b ← DetStepAppl b max;
  if (step_orig_a <? 0) || (step_appl_a <? 0) || (step_orig_b <? 0) || (step_appl_b <? 0)
  then mret false else
  cstr_tran_a ← GenTranRel a step_orig_a step_appl_a;
  cstr_tran_b ← GenTranRel b step_orig_b step_appl_b;
  if bool_decide (z_check [cstr_tran_a] = unsat) then mret false else
  if bool_decide (z_check [cstr_tran_b] = unsat) then mret false else
  cstr_assm ← GenAssm;
  cstr_prop ← GenProp;
  ab ← lift (zand cstr_tran_a cstr_tran_b);
  z ← lift (zand ab cstr_assm);
  n ← lift (znot cstr_prop);
  mret (bool_decide (z_check [z; n] = unsat)).

(** ** Incremental checks *)
Import SolverObj.

(** The unrollers of the four paths: the two ILAs share them. *)
Definition GetUnrl (uid : UID) : Unr :=
  match uid with
  | A_OLD => unrl_old_
  | A_NEW => unrl_new_
  | B_OLD => unrl_old_
  | B_NEW => unrl_new_
  end.
Definition GetUnrlOld : Unr := unrl_a_old_.
Definition GetUnrlNew : Unr := unrl_a_new_.
Definition GetRefine (uid : UID) : C RefinementMap :=
  match uid with A_OLD | A_NEW => refine_a | B_OLD | B_NEW => refine_b end.
Definition GetUnrlUnit (uid : UID) : C UnrlUnit := d ← this; mret (uu_ d uid).
Definition set_unit (uid : UID) (x : UnrlUnit) : C unit := set_this (fun d => with_uu d uid x).
Definition GetStts (uid : UID) : C (list Expr) :=
  d ← this; mret (match uid with A_OLD | A_NEW => stts_a_ d | B_OLD | B_NEW => stts_b_ d end).

(** One pass of the loop of [Init]. *)
Definition init_unr (uid : UID) (_ : unit) : C unit :=
  let un := GetUnrl uid in
  ref ← GetRefine uid;
  preds un ClearPred;;
  f ← need (flush_ ref);
  preds un (fun u => AddGlobPred u f).
Definition Init : C unit :=
  SanityCheck;;
  foldM init_unr uids ();;
  a ← refine_a;
  ca ← need (coi_ a);
  sa ← on_store (GetSttTree ca);
  b ← refine_b;
  cb ← need (coi_ b);
  sb ← on_store (GetSttTree cb);
  set_this (fun d => with_stts d sa sb).
(** The constructor. *)
Definition New (crr : CompRefRel) : M CommDiag := fun w =>
  '((), (w, d)) ← Init (w, {| crr_ := crr; uu_ _ := {| lo := 0; hi := 0 |};
                              unrs k := Unroller.New (suffix_of k); stts_a_ := []; stts_b_ := [] |});
  Ok (d, w).

Definition GetZ3IncFlsh (uid : UID) : C zexpr :=
  let un := GetUnrl uid in
  uu ← GetUnrlUnit uid;
  ref ← GetRefine uid;
  stts ← GetStts uid;
  coi ← need (coi_ ref);
  tran ← on_unr un (MonoUnroll.MonoIncr coi (Z.to_nat (hi uu - lo uu)) (lo uu));
  c ← need (cmpl_ ref);
  foldM (mark_at un c stts) (upto (lo uu) (hi uu)) tran.

(** The disjunction of [cmpl] over a range of steps, of which [GetZ3IncCmpl] has
    a copy. *)
Definition GetZ3Cmpl (cmpl : Expr) (un : Unr) (begin end_ : Z) : C zexpr :=
  foldM (fun i acc => c ← on_unr un (GetZ3Expr_at cmpl i); lift (zor acc c)) (upto begin end_) (z_bool_val false).
Definition GetZ3IncCmpl (uid : UID) : C zexpr :=
  uu ← GetUnrlUnit uid;
  ref ← GetRefine uid;
  cmpl ← need (cmpl_ ref);
  GetZ3Cmpl cmpl (GetUnrl uid) 0 (hi uu).

Definition GetZ3IncUnrl (un : Unr) (ref : RefinementMap) (begin length : Z) (stts : list Expr) : C zexpr :=
  coi ← need (coi_ ref);
  tran ← on_unr un (MonoUnroll.MonoIncr coi (Z.to_nat length) begin);
  c ← need (cmpl_ ref);
  foldM (mark_at un c stts) (upto begin (begin + length)) tran.

Definition GetZ3Assm : C zexpr := r ← relation; on_unr GetUnrlOld (GetZ3Expr r).
Definition GetZ3Prop : C zexpr := r ← relation; on_unr GetUnrlNew (GetZ3Expr r).

(** Step 0 of the application is the old state, step 1 the new one. *)
Definition connect (v : Expr) (eq : zexpr) : C zexpr :=
  sa_0 ← on_unr unrl_apl_ (CurrState v 0);
  so_0 ← on_unr unrl_old_ (CurrState v 0);
  e ← lift (zeq sa_0 so_0);
  eq ← lift (zand eq e);
  sa_1 ← on_unr unrl_apl_ (CurrState v 1);
  sn_0 ← on_unr unrl_new_ (CurrState v 0);
  e ← lift (zeq sa_1 sn_0);
  lift (zand eq e).
Definition GetZ3ApplInstr (stts : list Expr) (ref : RefinementMap) : C zexpr :=
  preds unrl_apl_ ClearPred;;
  preds unrl_apl_ (fun u => foldl AddGlobPred u (invs_ ref));;
  a ← need (appl_ ref);
  preds unrl_apl_ (fun u => AddStepPred u a 0);;
  coi ← need (coi_ ref);
  apply_one_step ← on_unr unrl_apl_ (MonoUnroll.MonoAssn coi 1 0);
  preds unrl_apl_ ClearPred;;
  acc ← lift (zand (z_bool_val true) apply_one_step);
  eq ← foldM connect (ExprSet.iter stts) (z_bool_val true);
  acc ← lift (zand acc eq);
  f ← need (flush_ ref);
  flush_on_old ← on_unr unrl_old_ (GetZ3Expr_at f 0);
  flush_on_new ← on_unr unrl_new_ (GetZ3Expr_at f 0);
  acc ← lift (zand acc flush_on_old);
  lift (zand acc flush_on_new).

Definition CheckCmpl (s : Solver) (cmpl_expr : zexpr) : Res (bool * Solver) :=
  let s := push s in
  n ← znot cmpl_expr;
  let s := add n s in
  let must_cmpl := bool_decide (check s = unsat) in
  s ← pop s;
  if must_cmpl then Ok (true, push (add cmpl_expr s)) else Ok (false, s).

(** The start of both checks: the solver with the two applications, the constant
    that indicates completion, the guarded assumption and property. *)
Definition start_check (stts_a stts_b : list Expr) : C (Solver * (zexpr * zexpr * zexpr)) :=
  a ← refine_a;
  appl_instr_a ← GetZ3ApplInstr stts_a a;
  b ← refine_b;
  appl_instr_b ← GetZ3ApplInstr stts_b b;
  let s := push (add appl_instr_b (add appl_instr_a empty)) in
  cf ← lift (throw (z_const "cmpl_flag" SortBool));
  assm ← GetZ3Assm;
  prop ← GetZ3Prop;
  assm ← lift (zimplies cf assm);
  prop ← lift (zimplies cf prop);
  mret (s, (cf, assm, prop)).

(** The query of one iteration, which is popped, and what is kept of it. *)
Definition query_cmpl (s : Solver) (k : zexpr * zexpr * zexpr) (cmpl_acc : zexpr) : C (CheckResult * Solver) :=
  let '(cf, assm, prop) := k in
  let s := push s in
  e ← lift (zeq cf cmpl_acc);
  n ← lift (znot prop);
  let s := add n (add assm (add e s)) in
  let res := check s in
  s ← lift (pop s);
  mret (res, s).
Definition keep_partial (s : Solver) (cmpl_acc : zexpr) : C Solver :=
  partial_assm ← GetZ3Assm;
  partial_cmpl ← lift (zimplies cmpl_acc partial_assm);
  partial_prop ← GetZ3Prop;
  both ← lift (zand partial_cmpl partial_assm);
  z ← lift (zimplies both partial_prop);
  mret (push (add z s)).

(** *** [IncCheck] *)
Definition unroll_new (i : Z) (uid : UID) (s : Solver) : C Solver :=
  uu ← GetUnrlUnit uid;
  if hi uu =? i then tran ← GetZ3IncFlsh uid; mret (add tran s) else mret s.
Definition conj_cmpl (uid : UID) (acc : zexpr) : C zexpr :=
  cmpl_i ← GetZ3IncCmpl uid; lift (zand acc cmpl_i).
Definition advance (i step : Z) (uid : UID) (s : Solver) : C Solver :=
  uu ← GetUnrlUnit uid;
  set_unit uid {| lo := hi uu; hi := hi uu |};;
  if hi uu =? i then
    cmpl_i ← GetZ3IncCmpl uid;
    '(sufficient, s) ← lift (CheckCmpl s cmpl_i);
    set_unit uid {| lo := hi uu; hi := if (sufficient : bool) then hi uu else hi uu + step |};;
    mret s
  else mret s.
Fixpoint inc_loop (fuel : nat) (i max step : Z) (s : Solver) (k : zexpr * zexpr * zexpr) : C bool :=
  match fuel with
  | O => lift (Fail EDiverge)
  | S fuel =>
      if max <? i then mret true else
      d ← this;
      if forallb (fun uid => hi (uu_ d uid) <? i) uids then mret true else
      s ← foldM (unroll_new i) uids s;
      cmpl_acc ← foldM conj_cmpl uids (z_bool_val true);
      '(res, s) ← query_cmpl s k cmpl_acc;
      if bool_decide (res = sat) then mret false else
      s ← keep_partial s cmpl_acc;
      s ← foldM (advance i step) uids s;
      inc_loop fuel (i + step) max step s k
  end.
Definition loop_fuel (min max : Z) : nat := S (S (Z.to_nat (max - min))).
Definition IncCheck (min max step : Z) : C bool :=
  foldM (fun uid (_ : unit) => set_unit uid {| lo := 0; hi := min |}) uids ();;
  d ← this;
  '(s, k) ← start_check (stts_a_ d) (stts_b_ d);
  inc_loop (loop_fuel min max) min max step s k.

(** *** [IncEqCheck]: the bounds reached so far are in [num] *)
Definition inc_unr (uid : UID) : Unr :=
  match uid with
  | A_OLD => inc_unrl_old_a
  | A_NEW => inc_unrl_new_a
  | B_OLD => inc_unrl_old_b
  | B_NEW => inc_unrl_new_b
  end.
Definition new_unr (uid : UID) (_ : unit) : C unit :=
  set_this (fun d => with_unr d (inc_unr uid) (Unroller.New (suffix_of (inc_unr uid))));;
  ref ← GetRefine uid;
  f ← need (flush_ ref);
  preds (inc_unr uid) (fun u => AddGlobPred u f).
Definition unroll_eq (num : UID -> Z) (stts : UID -> list Expr) (i step : Z) (uid : UID) (s : Solver) : C Solver :=
  if num uid =? i then
    ref ← GetRefine uid;
    tran ← GetZ3IncUnrl (inc_unr uid) ref i step (stts uid);
    mret (add tran s)
  else mret s.
Definition cmpl_eq (num : UID -> Z) (uid : UID) : C zexpr :=
  ref ← GetRefine uid;
  c ← need (cmpl_ ref);
  GetZ3Cmpl c (inc_unr uid) 0 (num uid).
Definition advance_eq (i step : Z) (p : UID * zexpr) (x : (UID -> Z) * Solver) : C ((UID -> Z) * Solver) :=
  let '(num, s) := x in
  if num p.1 =? i then
    '(sufficient, s) ← lift (CheckCmpl s p.2);
    mret ((fun u => if decide (u = p.1) then if (sufficient : bool) then num u else num u + step else num u), s)
  else mret (num, s).
Fixpoint inc_eq_loop (fuel : nat) (i max step : Z) (stts : UID -> list Expr) (num : UID -> Z) (s : Solver)
    (k : zexpr * zexpr * zexpr) : C bool :=
  match fuel with
  | O => lift (Fail EDiverge)
  | S fuel =>
      if max <? i then mret true else
      if forallb (fun uid => num uid <? i) uids then mret true else
      s ← foldM (unroll_eq num stts i step) uids s;
      cmpl_old_a ← cmpl_eq num A_OLD;
      cmpl_new_a ← cmpl_eq num A_NEW;
      cmpl_old_b ← cmpl_eq num B_OLD;
      cmpl_new_b ← cmpl_eq num B_NEW;
      z ← lift (zand cmpl_old_a cmpl_new_a);
      z ← lift (zand z cmpl_old_b);
      cmpl_acc ← lift (zand z cmpl_new_b);
      '(res, s) ← query_cmpl s k cmpl_acc;
      if bool_decide (res = sat) then mret false else
      s ← keep_partial s cmpl_acc;
      '(num, s) ← foldM (advance_eq i step)
        [(A_OLD, cmpl_old_a); (A_NEW, cmpl_new_a); (B_OLD, cmpl_old_b); (B_NEW, cmpl_new_b)] (num, s);
      inc_eq_loop fuel (i + step) max step stts num s k
  end.
Definition IncEqCheck (min max step : Z) : C bool :=
  SanityCheck;;
  a ← refine_a;
  b ← refine_b;
  ma ← need (coi_ a);
  mb ← need (coi_ b);
  stts_a ← on_store (GetSttTree ma);
  stts_b ← on_store (GetSttTree mb);
  '(s, k) ← start_check stts_a stts_b;
  lift (ila_assert (min <=? max));;
  foldM new_unr uids ();;
  inc_eq_loop (loop_fuel min max) min max step
    (fun uid => match uid with A_OLD | A_NEW => stts_a | B_OLD | B_NEW => stts_b end) (fun _ => min) s k.
End diag.
End CommDiag.
