(* ===== verification/CrrSpec.v ===== *)
(** * What the commuting diagram decides

    The terms of [CommDiag] in a model, and the verdict of [EqCheck]. *)
From S2P Require Import Prelude Sort Values Container Expr Smt Solver World Z3Expr ExprOp AstHub Collect Rewrite Unroller UnrollerSpec SolverPasses SolverPassesSpec MonoSpec Bmc TermSpec Crr.
Import RefinementMap RelationMap CompRefRel.
Local Open Scope Z_scope.

(** ** Stores that differ in the counter *)
Section later.
Context {Z3 : Z3Api} (w w' : World).
Hypothesis Hi : w_ilas w' = w_ilas w.
Hypothesis Hs : w_instrs w' = w_instrs w.
Hypothesis Hc : (counter_ w <= counter_ w')%N.

Lemma heap_later T : heap_ok T w -> heap_ok T w'.
Proof using Hc. intros H i e E. destruct (H i e E) as (? & ? & ?). split_and!; [done|lia|done]. Qed.
Lemma tree_later : absknob.tree_ok w -> absknob.tree_ok w'.
Proof using Hi Hc.
  intros [H1 H2 H3]. split; rewrite Hi; [|done..]. intros m l Hl. specialize (H1 m l Hl). lia.
Qed.
Lemma hier_later T top : MonoOk.hier_ok w T top -> MonoOk.hier_ok w' T top.
Proof using Hi Hs Hc.
  intros [A B D E F G I J K].
  unfold MonoOk.tree_state, MonoOk.tree_instr, MonoOk.mvar_ok, MonoOk.cond in *.
  split; unfold MonoOk.tree_state, MonoOk.tree_instr, MonoOk.mvar_ok, MonoOk.cond; rewrite ?Hi, ?Hs;
    eauto using heap_later, tree_later.
Qed.
Lemma chosen_later vs ins sels dum ρ ρ' :
  MonoOk.chosen w' vs ins sels dum ρ ρ' <-> MonoOk.chosen w vs ins sels dum ρ ρ'.
Proof using Hs.
  split; (intros [k i s x ? ? Hx|]; [eapply MonoOk.chosen_instr; eauto; congruence|apply MonoOk.chosen_none; try done]).
  - unfold MonoOk.decodes in *. by rewrite <- Hs.
  - unfold MonoOk.decodes in *. by rewrite Hs.
Qed.
Lemma run_later tb u len pos ρ : MonoOk.mono_run w' tb u len pos ρ <-> MonoOk.mono_run w tb u len pos ρ.
Proof using Hs.
  split; (intros [H1 H2 H3 H4]; split; [done..| |done]; intros i Hl; destruct (H3 i Hl) as [H5 H6];
    split; [by apply chosen_later|done]).
Qed.
Lemma table_later top tb : MonoOk.table_of w' top tb <-> MonoOk.table_of w top tb.
Proof using Hi Hs.
  assert (H1 : forall v, MonoOk.tree_state w' top v <-> MonoOk.tree_state w top v)
    by (intros v; unfold MonoOk.tree_state; by rewrite Hi).
  assert (H2 : forall v, MonoOk.tree_instr w' top v <-> MonoOk.tree_instr w top v)
    by (intros v; unfold MonoOk.tree_instr; by rewrite Hi).
  assert (H3 : forall is_ ss, Forall2 (MonoOk.sel_var w') is_ ss <-> Forall2 (MonoOk.sel_var w) is_ ss)
    by (intros is_ ss; unfold MonoOk.sel_var; by rewrite Hs).
  split; intros [A B D E F]; split; try done; try (by apply H3); intros; rewrite ?A, ?B; try done;
    first [by rewrite H1|by rewrite H2].
Qed.
End later.

(** [GetVar] returns a set of variables. *)
Lemma GetVar_set e vs : absknob.GetVar e = Ok vs -> ExprSet.wf vs /\ Forall (fun v => Exprs.is_var v = true) vs.
Proof.
  set (I := fun vs => ExprSet.wf vs /\ Forall (fun v => Exprs.is_var v = true) vs).
  enough (H : forall s s', I s -> Exprs.DepthFirstVisit absknob.insert_var e s = Ok s' -> I s').
  { intros E. apply (H [] vs); [|exact E]. split; constructor. }
  clear vs. induction e as [e IH] using Expr_args_ind. intros s s' Hs. rewrite DepthFirstVisit_unfold.
  intros (s1 & E1 & E2)%Res_bind_ok.
  assert (H1 : I s1).
  { apply (foldM_Res_inv (Exprs.DepthFirstVisit absknob.insert_var) I (Exprs.args e) s s1); [|done..].
    rewrite Forall_forall in IH. intros a s2 s3 Ha. by apply IH. }
  injection E2 as <-. destruct (Exprs.is_var e) eqn:Ev; [|done]. destruct H1 as [Hw Hv]. split.
  - by apply ExprSet.insert_wf.
  - apply Forall_forall. intros v [->|Hin]%ExprSet.insert_elem; [done|]. rewrite Forall_forall in Hv. by apply Hv.
Qed.

(** [z3::forall] over at least one constant does not throw. *)
Class Z3ForallLaws {Z3 : Z3Api} {LZ : Z3Laws Z3} (FA : Z3Forall Z3) := {
  z_forall_law vs e : vs <> [] -> Forall (fun v => exists s, z_has v s) vs -> z_has e SortBool ->
    exists z, z_forall vs e = Some z }.

Module DiagOk.
Import CommDiag Collect.absknob.
Section diag.
Context {Z3 : Z3Api} {LZ : Z3Laws Z3} {SV : Z3Solver Z3} {SL : Z3SolverLaws SV}.
Context {FA : Z3Forall Z3} {FL : Z3ForallLaws FA} {L : Layout}.
Context (w0 : World) (T0 : gmap objid Expr).
Abbreviation W := (w_ilas w0).
Abbreviation C := (ST (World * CommDiag)).
Abbreviation zimplies := LegacyBmc.zimplies.

(** A refinement map that is complete, for the ILA [coi]. *)
Record ref_ok (r : RefinementMap) (coi : objid) (a f c : Expr) : Prop := {
  ro_coi : coi_ r = Some coi;
  ro_hier : MonoOk.hier_ok w0 T0 coi;
  ro_appl : appl_ r = Some a /\ MonoOk.cond w0 T0 a;
  ro_flush : flush_ r = Some f /\ MonoOk.cond w0 T0 f;
  ro_cmpl : cmpl_ r = Some c /\ MonoOk.cond w0 T0 c;
  ro_invs : Forall (MonoOk.cond w0 T0) (invs_ r);
  ro_vars : exists v vs, GetVar a = Ok (v :: vs) /\ Forall (good W T0) (v :: vs) }.

(** ** States of a check *)
Record sok (crr : CompRefRel) (s : World * CommDiag) : Prop := {
  sk_ilas : w_ilas s.1 = W;
  sk_instrs : w_instrs s.1 = w_instrs w0;
  sk_count : (counter_ w0 <= counter_ s.1)%N;
  sk_crr : crr_ s.2 = crr;
  sk_suff k : extra_suff_ (unrs s.2 k) = suffix_of k }.

Context (crr : CompRefRel) (HW : IlaOk.ilas_ok W) (Hheap : heap_ok T0 w0).
Abbreviation SK := (sok crr).

(** Environments: unroller [k] at time [t], and its representative state. *)
Definition at_t (k : Unr) (m : Model) (t : Z) : Env := env_of W m (pretty t +:+ "_" +:+ suffix_of k).
Definition rep (k : Unr) (m : Model) : Env := env_of W m (suffix_of k).

Abbreviation yields := (yields SK).
Abbreviation makes_term := (makes_term W SK).

Lemma cond_okp e : MonoOk.cond w0 T0 e -> ok_pred W e.
Proof using Hheap. intros [Hg Hs]. split; [|done]. eapply MonoOk.good_ok; [by apply grows_refl|done]. Qed.
Lemma good_oke e : good W T0 e -> ok_expr W e.
Proof using Hheap. intros Hg. eapply MonoOk.good_ok; [by apply grows_refl|done]. Qed.

Lemma SK_store s w : SK s -> w_ilas w = W -> w_instrs w = w_instrs w0 -> (counter_ w0 <= counter_ w)%N -> SK (w, s.2).
Proof using Type. intros [] ???. by split. Qed.
Lemma SK_unr s k u : SK s -> extra_suff_ u = suffix_of k -> SK (s.1, with_unr s.2 k u).
Proof using Type. intros [] Hu. split; try done. intros j. cbn. by case_decide; subst. Qed.

(** A call of an unroller that only reads it. *)
Lemma on_unr_gen k e suff (s : World * CommDiag) : SK s -> ok_expr W e ->
  returns (on_unr k (Unroller.gen e suff)) s (fun z s' => SK s' /\ denotes W suff e z).
Proof using HW.
  intros Hs ([T HT] & Hw & Ht). destruct (GetExpr_denotes W HW T suff e HT Hw Ht) as (z & E & Hz).
  exists z, (s.1, with_unr s.2 k (unrs s.2 k)). split; [|split; [|done]].
  - unfold on_unr, Unroller.gen. cbn [fst snd]. by rewrite (sk_ilas _ _ Hs), E.
  - apply SK_unr; [done|apply Hs].
Qed.

Lemma at_term k e t : ok_expr W e -> makes_term (on_unr k (GetZ3Expr_at e t)) (pretty t +:+ "_" +:+ suffix_of k) e.
Proof using HW.
  intros He s Hs. destruct (on_unr_gen k e (pretty t +:+ "_" +:+ suffix_of k) s Hs He) as (z & s' & E & H).
  exists z, s'. split; [|done]. rewrite <- E. unfold on_unr, GetZ3Expr_at, self, gets, SuffCurr.
  cbv [mbind ST_bind]. cbn [snd]. by rewrite (sk_suff _ _ Hs).
Qed.
Lemma curr_term k v t : ok_expr W v -> Exprs.is_var v = true ->
  makes_term (on_unr k (CurrState v t)) (pretty t +:+ "_" +:+ suffix_of k) v.
Proof using HW.
  intros He Hv s Hs. destruct (at_term k v t He s Hs) as (z & s' & E & H). exists z, s'. split; [|done].
  rewrite <- E. unfold CurrState. by rewrite Hv.
Qed.
Lemma rep_term k e : ok_expr W e -> makes_term (on_unr k (GetZ3Expr e)) (suffix_of k) e.
Proof using HW.
  intros He s Hs. destruct (on_unr_gen k e (suffix_of k) s Hs He) as (z & s' & E & H).
  exists z, s'. split; [|done]. rewrite <- E. unfold on_unr, GetZ3Expr, self, gets.
  cbv [mbind ST_bind]. cbn [snd]. by rewrite (sk_suff _ _ Hs).
Qed.

Lemma at_yields k e t : ok_pred W e -> yields (on_unr k (GetZ3Expr_at e t)) (fun M => holds (at_t k M t) e).
Proof using HW. intros He. apply (term_yields _ (pretty t +:+ "_" +:+ suffix_of k) e); [done|]. apply at_term, He. Qed.
Lemma rep_yields k e : ok_pred W e -> yields (on_unr k (GetZ3Expr e)) (fun M => holds (rep k M) e).
Proof using HW. intros He. apply (term_yields _ (suffix_of k) e); [done|]. apply rep_term, He. Qed.

(** ** Generation of terms *)
Lemma eq_states_yields vars a b sa sb :
  Forall (fun v => makes_term (a v) sa v /\ makes_term (b v) sb v) (ExprSet.iter vars) ->
  yields (eq_states vars a b)
    (fun M => Forall (fun v => eval (env_of W M sa) v = eval (env_of W M sb) v) (ExprSet.iter vars)).
Proof using Type.
  intros Hv. eapply yields_iff; [|apply (conj_yields _ (fun v M => eval (env_of W M sa) v = eval (env_of W M sb) v))
    with (Φ := fun _ => True)].
  - intros M _. cbn beta. tauto.
  - eapply Forall_impl; [exact Hv|]. intros v [Ha Hb] z Φ Hz s Hs.
    eapply returns_bind; [by apply Ha|]. intros x s1 [H1 Dx]. eapply returns_bind; [by apply Hb|].
    intros y s2 [H2 Dy]. destruct (LegacyBmc.zeq_means w0 v v sa sb x y Dx Dy eq_refl) as (e & E & He).
    eapply returns_lift; [exact E|]. by apply lift_and.
  - exact LegacyBmc.true_means.
Qed.

(** The state variables of a hierarchy, and those of its top. *)
Lemma hier_vars coi w : MonoOk.hier_ok w0 T0 coi -> w_ilas w = W -> w_instrs w = w_instrs w0 -> (counter_ w0 <= counter_ w)%N ->
  exists vs, GetSttTree coi w = Ok (vs, w) /\ forall v, v ∈ ExprSet.iter vs <-> MonoOk.tree_state w0 coi v.
Proof using Type.
  intros Hk Hi Hs Hc. destruct (MonoOk.tree_states w T0 coi) as (vs & E & H); [by apply (hier_later w0)|].
  exists vs. split; [done|]. intros v. rewrite H. unfold MonoOk.tree_state. by rewrite Hi.
Qed.

Lemma tree_var coi v : MonoOk.hier_ok w0 T0 coi -> MonoOk.tree_state w0 coi v -> ok_expr W v /\ Exprs.is_var v = true.
Proof using Hheap.
  intros Hk Hv. destruct (MonoOk.ho_var w0 T0 coi Hk v Hv) as (Hg & Hvar & _). split; [by apply good_oke|done].
Qed.

(** [vs] agree under two environments. *)
Definition same_on (P : Expr -> Prop) (ρ ρ' : Env) : Prop := forall v, P v -> eval ρ v = eval ρ' v.
Lemma same_on_list P vs ρ ρ' : (forall v, v ∈ vs <-> P v) ->
  Forall (fun v => eval ρ v = eval ρ' v) vs <-> same_on P ρ ρ'.
Proof using Type. intros H. rewrite Forall_forall. unfold same_on. by setoid_rewrite H. Qed.

Lemma GetSttTree_step coi : MonoOk.hier_ok w0 T0 coi -> forall s, SK s ->
  returns (on_store (GetSttTree coi)) s
    (fun vs s' => (forall v, v ∈ ExprSet.iter vs <-> MonoOk.tree_state w0 coi v) /\ SK s').
Proof using Type.
  intros Hk s Hs. destruct (hier_vars coi s.1 Hk) as (vs & Ev & Hv); [apply Hs..|].
  exists vs, s. unfold on_store. rewrite Ev. by destruct s.
Qed.

(** The initial state of the two paths: [appl] holds on the new one, [flush] on
    the old one, and they have the same states. *)
Definition init_at (coi : objid) (a f : Expr) (M : Model) : Prop :=
  (holds (at_t unroll_appl_ M 0) a /\ holds (at_t unroll_orig_ M 0) f) /\
  same_on (MonoOk.tree_state w0 coi) (at_t unroll_orig_ M 0) (at_t unroll_appl_ M 0).

Lemma GenInit_yields r coi a f c : ref_ok r coi a f c -> yields (GenInit r) (init_at coi a f).
Proof using HW Hheap.
  intros Hr. unfold GenInit. destruct (ro_appl _ _ _ _ _ Hr) as [Ea Ca], (ro_flush _ _ _ _ _ Hr) as [Ef Cf].
  pose proof (ro_hier _ _ _ _ _ Hr) as Hk. eapply yields_need; [apply Hr|].
  eapply yields_step; [by apply GetSttTree_step|]. intros vs Hv. cbn beta.
  eapply term_bind.
  { apply (eq_states_yields vs _ _ (pretty 0 +:+ "_" +:+ suffix_of unroll_orig_) (pretty 0 +:+ "_" +:+ suffix_of unroll_appl_)).
    apply Forall_forall. intros v Hin%Hv. destruct (tree_var coi v Hk Hin). split; by apply curr_term. }
  intros eq Heq. eapply yields_need; [exact Ea|].
  eapply term_bind; [by apply at_yields, cond_okp|]. intros an Han. eapply yields_need; [exact Ef|].
  eapply term_bind; [by apply at_yields, cond_okp|]. intros fo Hfo.
  eapply term_bind; [by apply lift_and|]. intros z Hz.
  eapply yields_iff; [|by apply lift_and]. intros M _. cbn beta. unfold init_at.
  by rewrite (same_on_list (MonoOk.tree_state w0 coi) (ExprSet.iter vs) _ _ Hv).
Qed.

(** ** Completion *)
Lemma const_step b : forall s, SK s -> returns (on_store (asthub.BoolConst b)) s
  (fun e s' => (ok_pred W e /\ forall ρ, holds ρ e <-> b = true) /\ SK s').
Proof using Type.
  intros s Hs. eexists _, (ExprOps.bump s.1, s.2). split; [reflexivity|]. split; [split|].
  - split; [|done]. split; [|done]. eexists {[ _ := _ ]}. cbn. split; [apply lookup_singleton_eq|done].
  - intros ρ. unfold holds. cbn. split; congruence.
  - apply SK_store; [done|apply Hs..|]. cbn. pose proof (sk_count _ _ Hs). lia.
Qed.

Lemma upto_elem a b i : i ∈ upto a b <-> a <= i <= b.
Proof using Type. unfold upto. rewrite elem_of_seqZ. lia. Qed.

(** [cmpl] holds at some time of the range; at two times of it never. *)
Definition some_time (k : Unr) (c : Expr) (a b : Z) (M : Model) : Prop :=
  exists i, a <= i <= b /\ holds (at_t k M i) c.
Definition one_time (k : Unr) (c : Expr) (a b : Z) (M : Model) : Prop :=
  forall i j, a <= i -> i < j -> j <= b -> ~ holds (at_t k M i) c \/ ~ holds (at_t k M j) c.

Lemma AtLeastOnce_yields k c a b : ok_pred W c -> yields (AtLeastOnce k c a b) (some_time k c a b).
Proof using HW.
  intros Hc. unfold AtLeastOnce. eapply yields_step; [apply const_step|]. intros e [He Hv].
  eapply term_bind; [by apply at_yields|]. intros z Hz.
  eapply yields_iff; [|eapply (disj_yields _ (fun i M => holds (at_t k M i) c) (upto a b)); [|exact Hz]].
  - intros M _. cbn beta. rewrite Hv, Exists_exists. unfold some_time. split.
    + intros [?|(i & Hi%upto_elem & H)]; [done|]. by exists i.
    + intros (i & Hi & H). right. exists i. by rewrite upto_elem.
  - apply Forall_forall. intros i _ z' Φ Hz'. eapply term_bind; [by apply at_yields|].
    intros ci Hci. by apply lift_or.
Qed.

Lemma AtMostOnce_yields k c a b : ok_pred W c -> yields (AtMostOnce k c a b) (one_time k c a b).
Proof using HW.
  intros Hc. unfold AtMostOnce. eapply yields_step; [apply const_step|]. intros e [He Hv].
  eapply term_bind; [by apply at_yields|]. intros z Hz.
  eapply yields_iff; [|eapply (conj_yields _ (fun i M => Forall (fun j =>
    ~ holds (at_t k M i) c \/ ~ holds (at_t k M j) c) (upto (i + 1) b)) (upto a b)); [|exact Hz]].
  - intros M _. cbn beta. rewrite Hv, Forall_forall. unfold one_time. split.
    + intros [_ H] i j Hi Hij Hj. specialize (H i). rewrite upto_elem, Forall_forall in H.
      apply H; [lia|]. rewrite upto_elem. lia.
    + intros H. split; [done|]. intros i Hi%upto_elem. apply Forall_forall. intros j Hj%upto_elem. apply H; lia.
  - apply Forall_forall. intros i _ z' Φ Hz'. eapply term_bind; [by apply at_yields|]. intros ci Hci.
    apply (conj_yields _ (fun j M => ~ holds (at_t k M i) c \/ ~ holds (at_t k M j) c)); [|done].
    apply Forall_forall. intros j _ z2 Φ2 Hz2. eapply term_bind; [by apply at_yields|]. intros cj Hcj.
    eapply term_bind; [by apply lift_not|]. intros ni Hni. eapply term_bind; [by apply lift_not|]. intros nj Hnj.
    eapply term_bind; [by apply lift_or|]. intros o Ho. by apply lift_and.
Qed.

(** ** Unrolling while [flush] holds *)
Definition top_state (coi : objid) (v : Expr) : Prop := exists l, W !! coi = Some l /\ v ∈ KeyVec.vec_ (states_ l).

(** Where [cmpl] holds, the representative state is the current one. *)
Definition marked (k : Unr) (c : Expr) (coi : objid) (M : Model) (i : Z) : Prop :=
  holds (at_t k M i) c -> same_on (top_state coi) (rep k M) (at_t k M i).

Lemma GetStt_elem coi l v : MonoOk.hier_ok w0 T0 coi -> W !! coi = Some l ->
  v ∈ ExprSet.iter (GetStt l) <-> top_state coi v.
Proof using Type.
  intros Hk Hl. unfold GetStt, InsertStt. rewrite (ExprSet_of T0).
  - unfold top_state. split; [by exists l|]. intros (l' & Hl' & Hv). by simplify_eq.
  - intros u Hu. apply good_heap with W, (MonoOk.ho_var _ _ _ Hk u). exists coi, l. split; [constructor|done].
Qed.

Lemma mark_yields k c coi stts i z Φ : MonoOk.hier_ok w0 T0 coi -> ok_pred W c ->
  (forall v, v ∈ ExprSet.iter stts <-> top_state coi v) -> means [z] Φ ->
  yields (mark_at k c stts i z) (fun M => Φ M /\ marked k c coi M i).
Proof using HW Hheap.
  intros Hk Hc Hv Hz. unfold mark_at. eapply term_bind; [by apply at_yields|]. intros ci Hci.
  eapply term_bind.
  { apply (eq_states_yields stts _ _ (suffix_of k) (pretty i +:+ "_" +:+ suffix_of k)).
    apply Forall_forall. intros v (l & Hl & Hin)%Hv.
    destruct (tree_var coi v Hk) as [He Hvar]; [exists coi, l; split; [constructor|done]|].
    split; [by apply rep_term|by apply curr_term]. }
  intros eq Heq. eapply term_bind; [by apply lift_implies|]. intros m Hm.
  eapply yields_iff; [|by apply lift_and]. intros M _. cbn beta. unfold marked.
  by rewrite (same_on_list (top_state coi) (ExprSet.iter stts) _ _ Hv).
Qed.

(** *** The predicates of an unroller *)
Lemma glob_preds l u : let u' := foldl AddGlobPred u l in
  g_pred_ u' = g_pred_ u ++ l /\ i_pred_ u' = i_pred_ u /\ s_pred_ u' = s_pred_ u /\ extra_suff_ u' = extra_suff_ u.
Proof using Type.
  revert u. induction l as [|p l IH]; intros u; cbn; [by rewrite app_nil_r|].
  destruct (IH (AddGlobPred u p)) as (-> & -> & -> & ->). cbn. by rewrite <- app_assoc.
Qed.
Lemma step_preds f l u : let u' := foldl (fun u i => AddStepPred u f i) u l in
  (forall (P : Expr -> Prop) j, Forall P (step_pred u' j) <-> Forall P (step_pred u j) /\ (j ∈ l -> P f)) /\
  g_pred_ u' = g_pred_ u /\ i_pred_ u' = i_pred_ u /\ extra_suff_ u' = extra_suff_ u.
Proof using Type.
  revert u. induction l as [|i l IH]; intros u; cbn.
  - split_and!; try done. intros P j. rewrite elem_of_nil. tauto.
  - destruct (IH (AddStepPred u f i)) as (H & -> & -> & ->). split_and!; try done. intros P j.
    rewrite H, elem_of_cons. unfold step_pred at 1. cbn. destruct (decide (j = i)) as [->|Hn].
    + rewrite lookup_insert_eq. cbn. rewrite Forall_app, Forall_singleton. tauto.
    + rewrite lookup_insert_ne by done. fold (step_pred u j). tauto.
Qed.

(** The state, with one unroller known. *)
Definition SKu (k : Unr) (u : Unroller) (s : World * CommDiag) : Prop := SK s /\ unrs s.2 k = u.
Lemma preds_step k f u s : SKu k u s -> extra_suff_ (f u) = extra_suff_ u ->
  returns (preds k f) s (fun _ s' => SKu k (f u) s').
Proof using Type.
  intros [Hs Hu] Hf. eexists (), _. split; [reflexivity|]. cbn. rewrite Hu. split.
  - apply SK_unr; [done|]. rewrite Hf, <- Hu. apply Hs.
  - cbn. by rewrite decide_True.
Qed.

Lemma MonoAssn_step k u coi len pos s : MonoOk.hier_ok w0 T0 coi -> SKu k u s -> preds_okU w0 u ->
  returns (on_unr k (MonoUnroll.MonoAssn coi len pos)) s (fun z s' => SK s' /\ exists tb,
    MonoOk.table_of w0 coi tb /\ means [z] (fun M => MonoOk.mono_run w0 tb u len pos (at_t k M))).
Proof using LZ.
  intros Hk [Hs Hu] Hp. destruct s as [w d]. cbn in Hu.
  pose proof (sk_ilas _ _ Hs) as Hi. pose proof (sk_instrs _ _ Hs) as Hj. pose proof (sk_count _ _ Hs) as Hc. cbn in Hi, Hj, Hc.
  destruct (MonoOk.MonoAssn_run w T0 coi len pos u) as (tb & z & w' & u' & E & Hz & Ht & (Hi' & Hj' & Hc' & He & _) & Hv).
  { by apply (hier_later w0). }
  { unfold preds_okU in *. by rewrite Hi. }
  exists z, (w', with_unr d k u'). split; [unfold on_unr; cbn [fst snd]; by rewrite Hu, E|]. split.
  - split; cbn; [by rewrite Hi'|by rewrite Hj'|lia|apply Hs|]. intros j. cbn. case_decide as Hjk; [|apply (sk_suff _ _ Hs)].
    subst. rewrite He. apply (sk_suff _ _ Hs).
  - exists tb. split; [by apply (table_later w0 w)|]. split; [by apply Forall_singleton|]. intros M HM.
    rewrite Forall_singleton, Hv, (run_later w0 w) by done. unfold at_t, SuffCurr.
    rewrite Hi, <- Hu, (sk_suff _ _ Hs). done.
Qed.

(** A path of [len] steps of unroller [k] with [flush] from time [start] on, and
    one whose complete states are represented. *)
Record bare (tb : MonoOk.table) (k : Unr) (r : RefinementMap) (f : Expr) (len start : Z) (M : Model) : Prop := {
  ba_inv i : 0 <= i <= len -> Forall (holds (at_t k M i)) (invs_ r);
  ba_flush i : start <= i <= len -> holds (at_t k M i) f;
  ba_step i : 0 <= i < len -> MonoOk.choice w0 tb (at_t k M i) (at_t k M (i + 1)) }.
Definition path (coi : objid) (tb : MonoOk.table) (k : Unr) (r : RefinementMap) (f c : Expr) (len start : Z) (M : Model) : Prop :=
  bare tb k r f len start M /\ forall i, start <= i <= len -> marked k c coi M i.

Lemma run_bare tb k r f len start u M : 0 <= start <= len ->
  (forall (P : Expr -> Prop) i, 0 <= i <= len ->
     Forall P (g_pred_ u ++ step_pred u i) <-> Forall P (invs_ r) /\ (start <= i -> P f)) ->
  MonoOk.mono_run w0 tb u (Z.to_nat len) 0 (at_t k M) <->
  (0 < len -> Forall (holds (at_t k M 0)) (i_pred_ u)) /\ bare tb k r f len start M.
Proof using Type.
  intros Hlen Hs. split.
  - intros [Hi Hp Hst He].
    assert (Hall : forall i, 0 <= i <= len -> Forall (holds (at_t k M i)) (invs_ r) /\ (start <= i -> holds (at_t k M i) f)).
    { intros i Hi'. apply Hs; [done|]. destruct (decide (i = len)) as [->|].
      - rewrite Z2Nat.id in He by lia. done.
      - specialize (Hp (Z.to_nat i) ltac:(lia)). by rewrite Z2Nat.id, Z.add_0_l in Hp by lia. }
    split; [intros; apply Hi; lia|]. split.
    + intros i Hi'%Hall. apply Hi'.
    + intros i Hi'. apply Hall; lia.
    + intros i Hi'. specialize (Hst (Z.to_nat i) ltac:(lia)). by rewrite Z2Nat.id, Z.add_0_l in Hst by lia.
  - intros [Hi [H1 H2 H3]].
    assert (Hall : forall i, 0 <= i <= len -> Forall (holds (at_t k M i)) (g_pred_ u ++ step_pred u i)).
    { intros i Hi'. apply Hs; [done|]. split; [by apply H1|]. intros ?. apply H2; lia. }
    split.
    + intros Hl. apply Hi. lia.
    + intros i Hi'. rewrite Z.add_0_l. apply Hall. lia.
    + intros i Hi'. rewrite Z.add_0_l. apply H3. lia.
    + apply Hall. lia.
Qed.

Lemma UnrollFlush_returns k r coi a f c len start : ref_ok r coi a f c -> 0 <= start <= len ->
  forall s, SK s -> returns (UnrollFlush k r 0 len start) s (fun z s' => SK s' /\ exists tb,
    MonoOk.table_of w0 coi tb /\ means [z] (path coi tb k r f c len start)).
Proof using HW Hheap.
  intros Hr Hlen s Hs. unfold UnrollFlush. destruct (ro_flush _ _ _ _ _ Hr) as [Ef Cf], (ro_cmpl _ _ _ _ _ Hr) as [Ec Cc].
  pose proof (ro_hier _ _ _ _ _ Hr) as Hk.
  eapply returns_lift; [change (0 + len) with len; rewrite (proj2 (Z.leb_le start len)) by lia; done|].
  eapply returns_bind; [apply (preds_step k ClearPred (unrs s.2 k) s); [by split|done]|]. intros [] s1 H1.
  set (u1 := ClearPred _) in H1. destruct (glob_preds (invs_ r) u1) as (G1 & G2 & G3 & G4).
  eapply returns_bind; [by apply (preds_step k _ u1 s1)|]. intros [] s2 H2.
  set (u2 := foldl AddGlobPred u1 (invs_ r)) in *.
  eapply returns_lift; [by rewrite Ef|]. destruct (step_preds f (upto start (0 + len)) u2) as (S1 & S2 & S3 & S4).
  eapply returns_bind; [by apply (preds_step k _ u2 s2)|]. intros [] s3 H3.
  set (u3 := foldl _ u2 _) in *.
  eapply returns_lift; [by rewrite (ro_coi _ _ _ _ _ Hr)|].
  assert (Hsp : forall (P : Expr -> Prop) j, Forall P (step_pred u3 j) <-> (start <= j <= len -> P f)).
  { intros P j. rewrite S1, upto_elem. unfold step_pred. rewrite G3. cbn. rewrite lookup_empty. cbn.
    rewrite Forall_nil. tauto. }
  eapply returns_bind; [apply (MonoAssn_step k u3 coi (Z.to_nat len) 0 s3 Hk H3)|].
  { unfold preds_okU. rewrite S2, S3, G1, G2. cbn [app u1 ClearPred ClearStepPred ClearInitPred ClearGlobPred with_preds g_pred_ i_pred_]. split; [|split].
    - eapply Forall_impl; [exact (ro_invs _ _ _ _ _ Hr)|]. intros e. by apply cond_okp.
    - constructor.
    - intros j. apply Hsp. intros _. by apply cond_okp. }
  intros p s4 (H4 & tb & Ht & Hp).
  destruct (MonoOk.ho_top _ _ _ Hk) as [l Hl].
  eapply (returns_bind _ _ _ (fun x s' => x = l /\ s' = s4)).
  { exists l, s4. split; [|done]. unfold on_store, ila. rewrite (sk_ilas _ _ H4), Hl. by destruct s4. }
  intros ? ? [-> ->]. eapply returns_lift; [by rewrite Ec|].
  eapply returns_bind.
  { apply (conj_yields (I := SK) _ (fun i M => marked k c coi M i)) with (Φ := fun _ => True); [|exact LegacyBmc.true_means|exact H4].
    apply Forall_forall. intros i _ z Φ Hz. apply mark_yields; [done|by apply cond_okp| |done].
    intros v. by apply GetStt_elem. }
  intros mk s5 [H5 Hmk]. eapply returns_impl; [by apply (lift_and (I := SK) p mk _ _ Hp Hmk)|]. intros z s6 [H6 Hz].
  split; [done|]. exists tb. split; [done|]. eapply means_iff; [|exact Hz]. intros M _. cbn beta.
  rewrite (run_bare tb k r f len start u3 M Hlen).
  - assert (Hm : Forall (fun i => marked k c coi M i) (upto start (0 + len)) <-> forall i, start <= i <= len -> marked k c coi M i).
    { rewrite Forall_forall. by setoid_rewrite upto_elem. }
    rewrite Hm, S3, G2. unfold path. split; [tauto|].
    intros [H H']. split; [|split; [done|exact H']]. split; [intros _; apply Forall_nil_2|done].
  - intros P i Hi. rewrite Forall_app, Hsp, S2, G1. cbn [app g_pred_ u1 ClearPred ClearStepPred ClearInitPred ClearGlobPred with_preds].
    split; [|intuition lia]. intros [H H']. split; [done|]. intros ?. apply H'. lia.
Qed.

(** The transition relation: a flushed path from the old state, and one that
    applies the instruction first. *)
Definition tran (coi : objid) (tbo tba : MonoOk.table) (r : RefinementMap) (a f c : Expr) (ko ka : Z) (M : Model) : Prop :=
  init_at coi a f M /\ path coi tbo unroll_orig_ r f c ko 0 M /\ path coi tba unroll_appl_ r f c (ka + 1) 1 M.

Lemma GenTranRel_returns r coi a f c ko ka : ref_ok r coi a f c -> 0 <= ko -> 0 <= ka ->
  forall s, SK s -> returns (GenTranRel r ko ka) s (fun z s' => SK s' /\ exists tbo tba,
    MonoOk.table_of w0 coi tbo /\ MonoOk.table_of w0 coi tba /\ means [z] (tran coi tbo tba r a f c ko ka)).
Proof using HW Hheap.
  intros Hr Hko Hka s Hs. unfold GenTranRel.
  eapply returns_bind; [by eapply GenInit_yields|]. intros i s1 [H1 Hi].
  eapply returns_bind; [apply (UnrollFlush_returns unroll_orig_ r coi a f c ko 0); [done|lia|done]|].
  intros o s2 (H2 & tbo & Ho & Mo).
  eapply returns_bind; [apply (UnrollFlush_returns unroll_appl_ r coi a f c (ka + 1) 1); [done|lia|done]|].
  intros p s3 (H3 & tba & Ha & Ma).
  eapply returns_bind; [by apply (lift_and (I := SK) i o _ _ Hi Mo)|]. intros z s4 [H4 Mz].
  eapply returns_impl; [by apply (lift_and (I := SK) z p _ _ Mz Ma)|]. intros y s5 [H5 My]. split; [done|].
  exists tbo, tba. do 2 (split; [done|]). eapply means_iff; [|exact My]. intros M _. unfold tran. tauto.
Qed.

(** ** The number of steps

    A call that returns, or that stops at a transition that is dead. *)
Definition settles {A} (m : C A) (s : World * CommDiag) (Q : A -> World * CommDiag -> Prop) (D : Prop) : Prop :=
  returns m s Q \/ (m s = Fail ECheck /\ D).
Lemma settles_returns {A} (m : C A) s Q D : returns m s Q -> settles m s Q D.
Proof using Type. by left. Qed.
Lemma settles_bind {A B} (m : C A) (k : A -> C B) s P Q D :
  settles m s P D -> (forall x s', P x s' -> settles (k x) s' Q D) -> settles (m ≫= k) s Q D.
Proof using Type.
  intros [(x & s' & E & H)|[E H]] Hk; unfold settles, returns, mbind, ST_bind; rewrite E; [by apply Hk|by right].
Qed.
Lemma settles_lift {A B} (r : Res A) a (k : A -> C B) s Q D :
  r = Ok a -> settles (k a) s Q D -> settles (lift r ≫= k) s Q D.
Proof using Type. intros -> H. exact H. Qed.
Lemma settles_stop {A} (m : C A) s Q (D E : Prop) : settles m s Q D -> (D -> E) -> settles m s Q E.
Proof using Type. intros [H|[H1 H2]] HD; [by left|right; auto]. Qed.
Lemma settles_impl {A} (m : C A) s (P Q : A -> World * CommDiag -> Prop) (D E : Prop) :
  settles m s P D -> (forall x s', P x s' -> Q x s') -> (D -> E) -> settles m s Q E.
Proof using Type. intros [H|[H1 H2]] HQ HD; [left; by eapply returns_impl|right; auto]. Qed.

(** No model has the initial state and [k] flushed steps. *)
Definition dead (r : RefinementMap) (coi : objid) (a f : Expr) : Prop := exists tb k,
  MonoOk.table_of w0 coi tb /\ 0 <= k /\ forall M, model_ok M -> ~ (init_at coi a f M /\ bare tb unroll_orig_ r f k 0 M).

(** Two queries, the second of which adds to the first. *)
Lemma two_queries (Φ Ψ1 Ψ2 : Model -> Prop) z1 z2 :
  means [z1] (fun M => Φ M /\ ~ Ψ1 M) -> means [z2] (fun M => Φ M /\ ~ Ψ2 M) ->
  ((forall M, model_ok M -> Φ M -> ~ ~ Ψ1 M) -> z_check [z1; z2] <> sat) /\
  (decides SV -> z_check [z1] <> sat -> forall M, model_ok M -> Φ M -> ~ ~ Ψ1 M).
Proof using SL.
  intros H1 H2. pose proof (means_app _ _ _ _ H1 H2) as H12. cbn in H12.
  destruct (check_answer _ _ H1) as [_ Un1], (check_answer _ _ H12) as [Sat2 _]. split.
  - intros H E. destruct (Sat2 E) as (M & HM & [HΦ Hno] & _). by apply (H M).
  - intros Hd Hn M HM HΦ Hno. destruct (z_check [z1]) eqn:E; [done|by apply (Un1 eq_refl M)|by apply (Hd [z1])].
Qed.

Lemma some_time_stable k c a b M : ~ ~ some_time k c a b M -> some_time k c a b M.
Proof using Type.
  intros H. assert (Hd : forall i, Decision (holds (at_t k M i) c)) by (intros i; unfold holds; apply _).
  destruct (decide (Exists (fun i => holds (at_t k M i) c) (upto a b))) as [Hx|Hx].
  - apply Exists_exists in Hx as (i & Hi%upto_elem & Hh). by exists i.
  - destruct H. intros (i & Hi & Hh). apply Hx, Exists_exists. exists i. by rewrite upto_elem.
Qed.

(** What the check of a number of steps answers: [true] if completion is reached
    on every such path, and only then if the solver decides.  The second query adds to the
    assertions of the first, which has no model, so that completion at most once
    is never asked. *)
Definition answers (b : bool) (Φ : Model -> Prop) (k : Unr) (c : Expr) (lo hi : Z) : Prop :=
  let every := forall M, model_ok M -> Φ M -> some_time k c lo hi M in
  (every -> b = true) /\ (decides SV -> b = true -> every).

(** The end of both checks. *)
Lemma two_checks Φ k c lo hi both : means [both] Φ -> ok_pred W c -> forall s, SK s ->
  returns (at_least_once ← AtLeastOnce k c lo hi;
    n ← lift (znot at_least_once);
    z1 ← lift (zand both n);
    if bool_decide (z_check [z1] = sat) then mret false else
    at_most_once ← AtMostOnce k c lo hi;
    n ← lift (znot at_most_once);
    z2 ← lift (zand both n);
    mret (negb (bool_decide (z_check [z1; z2] = sat)))) s
    (fun b s' => SK s' /\ answers b Φ k c lo hi).
Proof using HW SL.
  intros Hb Hc s Hs.
  eapply returns_bind; [by apply AtLeastOnce_yields|]. intros al s1 [H1 Hal].
  destruct (znot_means al _ Hal) as (n & En & Hn). eapply returns_lift; [exact En|].
  destruct (zand_means both n _ _ Hb Hn) as (z1 & E1 & Hz1). eapply returns_lift; [exact E1|].
  assert (Hstab : (forall M, model_ok M -> Φ M -> ~ ~ some_time k c lo hi M) <->
                  (forall M, model_ok M -> Φ M -> some_time k c lo hi M)).
  { split; intros H M HM HΦ; [by apply some_time_stable, H|]. intros Hno. by apply Hno, H. }
  destruct (bool_decide_reflect (z_check [z1] = sat)) as [E|E].
  - apply returns_ret. split; [done|]. split; [|done]. intros H. exfalso.
    destruct (check_answer _ _ Hz1) as [Sat _]. destruct (Sat E) as (M & HM & HΦ & Hno). by apply Hno, H.
  - eapply returns_bind; [by apply AtMostOnce_yields|]. intros am s2 [H2 Ham].
    destruct (znot_means am _ Ham) as (n2 & En2 & Hn2). eapply returns_lift; [exact En2|].
    destruct (zand_means both n2 _ _ Hb Hn2) as (z2 & E2 & Hz2). eapply returns_lift; [exact E2|].
    apply returns_ret. split; [done|]. destruct (two_queries Φ _ _ z1 z2 Hz1 Hz2) as [Q1 Q2]. split.
    + intros H. by apply negb_true_iff, bool_decide_eq_false, Q1, Hstab.
    + intros Hd _. by apply Hstab, Q2.
Qed.

Lemma CheckStepOrig_settles r coi a f c k s : ref_ok r coi a f c -> 0 <= k -> SK s ->
  settles (CheckStepOrig r k) s (fun b s' => SK s' /\ exists tb, MonoOk.table_of w0 coi tb /\
    answers b (fun M => init_at coi a f M /\ bare tb unroll_orig_ r f k 0 M) unroll_orig_ c 0 k) (dead r coi a f).
Proof using HW Hheap SL.
  intros Hr Hk Hs. unfold CheckStepOrig.
  destruct (ro_flush _ _ _ _ _ Hr) as [Ef Cf], (ro_cmpl _ _ _ _ _ Hr) as [Ec Cc].
  eapply settles_bind; [apply settles_returns; by eapply GenInit_yields|]. intros i s1 [H1 Hi].
  eapply settles_bind; [apply settles_returns, (preds_step unroll_orig_ ClearPred (unrs s1.2 unroll_orig_) s1); [by split|done]|].
  intros [] s2 H2. set (u1 := ClearPred _) in H2. eapply settles_lift; [by rewrite Ef|].
  eapply settles_bind; [apply settles_returns; by apply (preds_step unroll_orig_ _ u1 s2)|]. intros [] s3 H3.
  destruct (glob_preds (invs_ r) (AddGlobPred u1 f)) as (G1 & G2 & G3 & G4).
  eapply settles_bind; [apply settles_returns; by apply (preds_step unroll_orig_ _ (AddGlobPred u1 f) s3)|]. intros [] s4 H4.
  set (u4 := foldl AddGlobPred _ _) in *.
  eapply settles_lift; [by rewrite (ro_coi _ _ _ _ _ Hr)|].
  assert (Hsp : forall (P : Expr -> Prop) j, Forall P (g_pred_ u4 ++ step_pred u4 j) <-> Forall P (invs_ r) /\ P f).
  { intros P j. rewrite G1. unfold step_pred. rewrite G3. cbn. rewrite lookup_empty, app_nil_r. cbn.
    rewrite Forall_cons. tauto. }
  eapply settles_bind.
  { apply settles_returns, (MonoAssn_step unroll_orig_ u4 coi (Z.to_nat k) 0 s4); [apply (ro_hier _ _ _ _ _ Hr)|done|].
    assert (Hall : forall j, Forall (ok_pred W) (g_pred_ u4 ++ step_pred u4 j)).
    { intros j. apply Hsp. split; [|by apply cond_okp]. eapply Forall_impl; [apply (ro_invs _ _ _ _ _ Hr)|]. intros e. by apply cond_okp. }
    split; [|split]; [specialize (Hall 0); by apply Forall_app in Hall as [? _]|rewrite G2; constructor|].
    intros j. specialize (Hall j). by apply Forall_app in Hall as [_ ?]. }
  intros p s5 (H5 & tb & Ht & Hp).
  assert (Hp' : means [p] (bare tb unroll_orig_ r f k 0)).
  { eapply means_iff; [|exact Hp]. intros M _. cbn beta. rewrite (run_bare tb unroll_orig_ r f k 0 u4 M); [|lia|].
    - rewrite G2. split; [tauto|]. intros H. split; [intros _; apply Forall_nil_2|done].
    - intros P j Hj. rewrite Hsp. intuition lia. }
  destruct (zand_means i p _ _ Hi Hp') as (both & Eb & Hb).
  eapply settles_lift; [exact Eb|].
  destruct (bool_decide_reflect (z_check [both] = unsat)) as [E|E].
  - right. split; [done|]. exists tb, k. do 2 (split; [done|]). by apply (check_answer _ _ Hb).
  - eapply settles_bind; [by apply settles_returns, (returns_ret () s5 (fun _ s' => s' = s5))|]. intros ? ? ->.
    eapply settles_lift; [by rewrite Ec|].
    apply settles_returns. eapply returns_impl; [by apply (two_checks _ unroll_orig_ c 0 k both Hb (cond_okp c Cc) s5)|].
    intros b' s6 [H6 Ha]. split; [done|]. by exists tb.
Qed.

Lemma invs_okp r coi a f c : ref_ok r coi a f c -> Forall (ok_pred W) (invs_ r).
Proof using Hheap. intros Hr. eapply Forall_impl; [apply (ro_invs _ _ _ _ _ Hr)|]. intros e. by apply cond_okp. Qed.

Lemma CheckStepAppl_returns r coi a f c k s : ref_ok r coi a f c -> 0 <= k -> SK s ->
  returns (CheckStepAppl r k) s (fun b s' => SK s' /\ exists tb, MonoOk.table_of w0 coi tb /\
    answers b (fun M => init_at coi a f M /\ bare tb unroll_appl_ r f (k + 1) 1 M) unroll_appl_ c 1 (k + 1)).
Proof using HW Hheap SL.
  intros Hr Hk Hs. unfold CheckStepAppl.
  destruct (ro_appl _ _ _ _ _ Hr) as [Ea Ca], (ro_flush _ _ _ _ _ Hr) as [Ef Cf], (ro_cmpl _ _ _ _ _ Hr) as [Ec Cc].
  eapply returns_bind; [by eapply GenInit_yields|]. intros i s1 [H1 Hi].
  eapply returns_bind; [apply (preds_step unroll_appl_ ClearPred (unrs s1.2 unroll_appl_) s1); [by split|done]|].
  intros [] s2 H2. set (u1 := ClearPred _) in H2. eapply returns_lift; [by rewrite Ea|].
  eapply returns_bind; [by apply (preds_step unroll_appl_ _ u1 s2)|]. intros [] s3 H3. set (u2 := AddInitPred u1 a) in *.
  eapply returns_lift; [by rewrite Ef|]. destruct (step_preds f (upto 1 (k + 1)) u2) as (S1 & S2 & S3 & S4).
  eapply returns_bind; [by apply (preds_step unroll_appl_ _ u2 s3)|]. intros [] s4 H4. set (u3 := foldl _ u2 _) in *.
  destruct (glob_preds (invs_ r) u3) as (G1 & G2 & G3 & G4).
  eapply returns_bind; [by apply (preds_step unroll_appl_ _ u3 s4)|]. intros [] s5 H5. set (u4 := foldl AddGlobPred _ _) in *.
  eapply returns_lift; [by rewrite (ro_coi _ _ _ _ _ Hr)|].
  assert (Hg : g_pred_ u4 = invs_ r) by (rewrite G1, S2; done).
  assert (Hi4 : i_pred_ u4 = [a]) by (rewrite G2, S3; done).
  assert (Hsp : forall (P : Expr -> Prop) j, Forall P (step_pred u4 j) <-> (1 <= j <= k + 1 -> P f)).
  { intros P j. unfold step_pred. rewrite G3. fold (step_pred u3 j). rewrite S1, upto_elem. unfold step_pred. cbn.
    rewrite lookup_empty. cbn. rewrite Forall_nil. tauto. }
  eapply returns_bind.
  { apply (MonoAssn_step unroll_appl_ u4 coi (Z.to_nat (k + 1)) 0 s5); [apply (ro_hier _ _ _ _ _ Hr)|done|].
    split; [rewrite Hg; by eapply invs_okp|]. split; [rewrite Hi4; constructor; [by apply cond_okp|constructor]|].
    intros j. apply Hsp. intros _. by apply cond_okp. }
  intros p s6 (H6 & tb & Ht & Hp). eapply returns_lift; [by rewrite Ec|].
  destruct (zand_means i p _ _ Hi Hp) as (both & Eb & Hb). eapply returns_lift; [exact Eb|].
  assert (Hb' : means [both] (fun M => init_at coi a f M /\ bare tb unroll_appl_ r f (k + 1) 1 M)).
  { eapply means_iff; [|exact Hb]. intros M _. cbn beta. rewrite (run_bare tb unroll_appl_ r f (k + 1) 1 u4 M); [|lia|].
    - rewrite Hi4, Forall_singleton. split; [tauto|]. intros [Hin Hba]. split; [done|]. split; [intros _; apply Hin|done].
    - intros P j Hj. rewrite Forall_app, Hg, Hsp. intuition lia. }
  eapply returns_impl; [by apply (two_checks _ unroll_appl_ c 1 (k + 1) both Hb' (cond_okp c Cc) s6)|].
  intros b' s7 [H7 Ha]. split; [done|]. by exists tb.
Qed.

Lemma first_step_settles (check : Z -> C bool) (R : bool -> Z -> Prop) ns D s : SK s ->
  (forall n s, n ∈ ns -> SK s -> settles (check n) s (fun b s' => SK s' /\ R b n) D) ->
  settles (first_step check ns) s (fun n s' =>
    ((n = -1 /\ forall m, m ∈ ns -> R false m) \/ (n ∈ ns /\ R true n)) /\ SK s') D.
Proof using Type.
  revert s. induction ns as [|n ns IH]; intros s Hs Hc.
  - apply settles_returns, returns_ret. split; [|done]. left. split; [done|]. by intros m ?%elem_of_nil.
  - cbn [first_step]. eapply settles_bind; [apply Hc; [by left|done]|]. intros [] s1 [H1 H2].
    + apply settles_returns, returns_ret. split; [|done]. right. split; [by left|done].
    + eapply settles_impl; [apply IH; [done|intros; apply Hc; [by right|done]]| |done].
      intros m s2 [[[-> Hn]|[? ?]] ?]; (split; [|done]); [left|right].
      * split; [done|]. by intros j [->|?%Hn]%elem_of_cons.
      * split; [by right|done].
Qed.

(** Whether a number of steps is enough to complete. *)
Definition enough_orig (r : RefinementMap) (coi : objid) (a f c : Expr) (b : bool) (n : Z) : Prop := exists tb,
  MonoOk.table_of w0 coi tb /\
  answers b (fun M => init_at coi a f M /\ bare tb unroll_orig_ r f n 0 M) unroll_orig_ c 0 n.
Definition enough_appl (r : RefinementMap) (coi : objid) (a f c : Expr) (b : bool) (n : Z) : Prop := exists tb,
  MonoOk.table_of w0 coi tb /\
  answers b (fun M => init_at coi a f M /\ bare tb unroll_appl_ r f (n + 1) 1 M) unroll_appl_ c 1 (n + 1).

(** The first number from [k] to [max] that is enough, or [-1]. *)
Definition first_of (R : bool -> Z -> Prop) (k max n : Z) : Prop :=
  let k := if 0 <=? k then k else 0 in
  (n = -1 /\ forall m, k <= m <= max -> R false m) \/ (k <= n <= max /\ R true n).

Lemma det_settles (check : Z -> C bool) (R : bool -> Z -> Prop) k max D s : SK s ->
  (forall n s, 0 <= n -> SK s -> settles (check n) s (fun b s' => SK s' /\ R b n) D) ->
  settles (first_step check (upto (if 0 <=? k then k else 0) max)) s
    (fun n s' => first_of R k max n /\ SK s') D.
Proof using Type.
  intros Hs Hc. eapply settles_impl; [apply (first_step_settles check R); [done|]| |done].
  - intros n s1 Hn%upto_elem. apply Hc. destruct (Z.leb_spec 0 k); lia.
  - intros n s1 [Hn H1]. split; [|done]. unfold first_of. setoid_rewrite upto_elem in Hn. done.
Qed.
Lemma DetStepOrig_settles r coi a f c max s : ref_ok r coi a f c -> SK s ->
  settles (DetStepOrig r max) s (fun n s' => first_of (enough_orig r coi a f c) (step_orig_ r) max n /\ SK s') (dead r coi a f).
Proof using HW Hheap SL. intros Hr Hs. apply det_settles; [done|]. intros n s1 Hn H1. by apply CheckStepOrig_settles. Qed.
Lemma DetStepAppl_settles r coi a f c max s : ref_ok r coi a f c -> SK s ->
  settles (DetStepAppl r max) s (fun n s' => first_of (enough_appl r coi a f c) (step_appl_ r) max n /\ SK s') (dead r coi a f).
Proof using HW Hheap SL.
  intros Hr Hs. apply det_settles; [done|]. intros n s1 Hn H1. apply settles_returns. by apply CheckStepAppl_returns.
Qed.

(** ** Sanity checks *)
Lemma build_step (m : M Expr) Φ : (forall w, MonoOk.stage w0 T0 T0 w -> MonoOk.builds w0 T0 T0 w m Φ) ->
  forall s, SK s ->
  returns (on_store m) s (fun e s' => (ok_pred W e /\ forall ρ, env_ok ρ -> holds ρ e <-> Φ ρ) /\ SK s').
Proof using Hheap.
  intros Hm s Hs. destruct (Hm s.1) as (e & w' & E & T' & Hst & _ & [Hg Hb] & Hv).
  { split; [done| | | |]; [eapply heap_later; [|exact Hheap]|..]; apply Hs. }
  exists e, (w', s.2). split; [unfold on_store; by rewrite E|]. split; [split; [|done]|].
  - split; [|done]. eapply MonoOk.good_ok; [exact Hst|done].
  - apply SK_store; [done|apply Hst..].
Qed.

Lemma gen_e_returns e s : SK s -> ok_pred W e ->
  returns (gen_e e) s (fun z s' => (exists Φ, means [z] Φ) /\ SK s').
Proof using HW.
  intros Hs [([T HT] & Hw & Ht) Hb]. destruct (GetExpr_denotes W HW T "" e HT Hw Ht) as (z & E & [Hz Hv]).
  exists z, s. split.
  - unfold gen_e, on_store, SanityCheck.gen. rewrite (sk_ilas _ _ Hs), E. by destruct s.
  - split; [|done]. rewrite Hb in Hz. exists (fun m => Forall (fun z => z_eval m z = VBool true) [z]). split; [by apply Forall_singleton|done].
Qed.

(** The terms for the variables of the apply function. *)
Lemma vars_returns vs s acc : SK s -> Forall (fun v => ok_expr W v /\ Exprs.is_var v = true) vs ->
  returns (foldM (fun v l => z ← on_unr unroll_appl_ (CurrState v 0); mret (l ++ [z])) vs acc) s
    (fun l s' => (exists zs, l = acc ++ zs /\ length zs = length vs /\ Forall (fun z => exists s, z_has z s) zs) /\ SK s').
Proof using HW.
  intros Hs Hv. revert s acc Hs. induction Hv as [|v vs [Hv Hvar] _ IH]; intros s acc Hs.
  - apply returns_ret. split; [|done]. exists []. by rewrite app_nil_r.
  - cbn [foldM]. eapply (returns_bind _ _ _ (fun l s' => (exists z, l = acc ++ [z] /\ exists s, z_has z s) /\ SK s')).
    + eapply returns_bind; [by apply curr_term|]. intros z s1 [H1 [Hz _]]. apply returns_ret. split; [|done]. eauto.
    + intros l s1 [(z & -> & Hz) H1]. eapply returns_impl; [by apply IH|].
      intros l' s2 [(zs & -> & Hl & Hzs) H2]. split; [|done]. exists (z :: zs). rewrite <- app_assoc.
      split; [done|]. split; [cbn; by rewrite Hl|by constructor].
Qed.

Lemma SanityCheckRefinement_returns r coi a f c s : ref_ok r coi a f c -> SK s ->
  returns (SanityCheckRefinement r) s (fun _ s' => SK s').
Proof using HW Hheap FL.
  intros Hr Hs. unfold SanityCheckRefinement.
  destruct (ro_appl _ _ _ _ _ Hr) as [Ea Ca], (ro_flush _ _ _ _ _ Hr) as [Ef Cf], (ro_cmpl _ _ _ _ _ Hr) as [Ec Cc].
  eapply returns_lift; [by rewrite (ro_coi _ _ _ _ _ Hr)|]. eapply returns_lift; [by rewrite Ef|].
  eapply returns_lift; [by rewrite Ea|]. eapply returns_lift; [by rewrite Ec|].
  eapply returns_bind; [eapply build_step; [|exact Hs]; intros w Hw; by apply MonoOk.build_And|]. intros fa s1 [[Hfa _] H1].
  eapply returns_bind; [by apply gen_e_returns|]. intros exc s2 [_ H2].
  destruct (bool_decide _); [by apply returns_ret|].
  eapply (returns_bind _ _ _ (fun _ s' => SK s')).
  { destruct (_ || _); [|by apply returns_ret].
    eapply returns_bind; [eapply build_step; [|exact H2]; intros w Hw; by apply MonoOk.build_Imply|]. intros fc s3 [[Hfc _] H3].
    eapply returns_bind; [by apply gen_e_returns|]. intros u s4 [[Φ Hu] H4].
    destruct (znot_means u Φ Hu) as (n & En & _). eapply returns_lift; [exact En|]. by apply returns_ret. }
  intros [] s3 H3; [by apply returns_ret|].
  eapply returns_bind; [by eapply GenInit_yields|]. intros i s4 [H4 Hi].
  eapply returns_bind; [apply at_yields; [by apply cond_okp|done]|]. intros an s5 [H5 Han].
  destruct (ro_vars _ _ _ _ _ Hr) as (v & vs & Ev & Hv). eapply returns_lift; [exact Ev|]. cbn beta.
  apply GetVar_set in Ev as [Hwf Hvar]. pose proof (ExprSet.iter_perm _ Hwf) as Hperm.
  eapply returns_bind; [apply (vars_returns _ s5 []); [done|]|].
  { rewrite Hperm. rewrite Forall_forall in Hv. rewrite Forall_forall in Hvar. apply Forall_forall. intros u Hu.
    split; [by apply good_oke, Hv|by apply Hvar]. }
  intros l s6 [(zs & -> & Hlen & Hzs) H6]. cbn [app].
  destruct (znot_means i _ Hi) as (ni & Eni & Hni). eapply returns_lift; [exact Eni|].
  destruct (zand_means an ni _ _ Han Hni) as (body & Eb & Hb). eapply returns_lift; [exact Eb|].
  destruct (z_forall_law zs body) as [z Ez]; [|done|by destruct Hb as [?%Forall_inv _]|].
  { intros ->. cbn in Hlen. rewrite (Permutation_length Hperm) in Hlen. done. }
  eapply returns_lift; [by rewrite Ez|]. by apply returns_ret.
Qed.

(** ** [EqCheck] *)
Context (ma mb : objid) (aa fa ca ab fb cb : Expr).
Abbreviation ra := (ref_a_ crr).
Abbreviation rb := (ref_b_ crr).
Abbreviation rel := (acc_ (rel_ crr)).
Hypothesis Hra : ref_ok ra ma aa fa ca.
Hypothesis Hrb : ref_ok rb mb ab fb cb.
Hypothesis Hrel : MonoOk.cond w0 T0 rel.

Lemma SanityCheck_returns s : SK s -> returns SanityCheck s (fun _ s' => SK s').
Proof using HW Hheap FL Hra Hrb.
  intros Hs. unfold SanityCheck.
  assert (Hthis : forall {A} (g : CommDiag -> A) s, SK s -> returns (d ← this; mret (g d)) s (fun x s' => x = g s.2 /\ s' = s))
    by (intros A g s' _; by exists (g s'.2), s').
  eapply returns_bind; [by apply Hthis|]. intros ? ? [-> ->]. rewrite (sk_crr _ _ Hs).
  eapply returns_bind; [by apply Hthis|]. intros ? ? [-> ->]. rewrite (sk_crr _ _ Hs).
  eapply returns_bind; [by eapply SanityCheckRefinement_returns|]. intros b1 s1 H1.
  eapply returns_bind; [by eapply SanityCheckRefinement_returns|]. intros b2 s2 H2.
  eapply returns_bind; [by apply Hthis|]. intros ? ? [-> ->]. rewrite (sk_crr _ _ H2).
  eapply returns_lift; [by rewrite (ro_coi _ _ _ _ _ Hra)|]. eapply returns_lift; [by rewrite (ro_coi _ _ _ _ _ Hrb)|].
  eapply (returns_bind _ _ _ (fun _ s' => SK s')); [|intros b s3 H3; by apply returns_ret].
  unfold SanityCheckRelation. destruct (GetVar_run rel) as (vs & Ev & _). eapply returns_lift; [exact Ev|].
  destruct (MonoOk.ho_top _ _ _ (ro_hier _ _ _ _ _ Hra)) as [la Hla], (MonoOk.ho_top _ _ _ (ro_hier _ _ _ _ _ Hrb)) as [lb Hlb].
  eapply (returns_bind _ _ _ (fun _ s' => SK s')).
  { exists la, s2. unfold on_store, ila. rewrite (sk_ilas _ _ H2), Hla. by destruct s2. }
  intros x s3 H3. eapply (returns_bind _ _ _ (fun _ s' => SK s')).
  { exists lb, s3. unfold on_store, ila. rewrite (sk_ilas _ _ H3), Hlb. by destruct s3. }
  intros y s4 H4. by apply returns_ret.
Qed.

(** The diagram commutes: whatever the two transitions do, related old states lead
    to related new states. *)
Definition commutes (ta tb : Model -> Prop) : Prop := forall M, model_ok M -> ta M -> tb M ->
  holds (rep unroll_orig_ M) rel -> holds (rep unroll_appl_ M) rel.

(** The verdict on given numbers of steps. *)
Definition verdict (ta tb : Model -> Prop) (b : bool) : Prop :=
  (b = true -> commutes ta tb) /\
  (b = false -> decides SV -> (forall M, model_ok M -> ~ ta M) \/ (forall M, model_ok M -> ~ tb M) \/ ~ commutes ta tb).

(** The queries on the two transition relations. *)
Definition final_check (za zb : zexpr) : C bool :=
  if bool_decide (z_check [za] = unsat) then mret false else
  if bool_decide (z_check [zb] = unsat) then mret false else
  cstr_assm ← GenAssm;
  cstr_prop ← GenProp;
  ab ← lift (zand za zb);
  z ← lift (zand ab cstr_assm);
  n ← lift (znot cstr_prop);
  mret (bool_decide (z_check [z; n] = unsat)).

Lemma rel_yields k : forall s, SK s -> returns (r ← relation; on_unr k (GetZ3Expr r)) s
  (fun z s' => SK s' /\ means [z] (fun M => holds (rep k M) rel)).
Proof using HW Hheap Hrel.
  intros s Hs. eapply (returns_bind _ _ _ (fun x s' => x = rel /\ s' = s)).
  - exists (acc_ (rel_ (crr_ s.2))), s. split; [done|]. by rewrite (sk_crr _ _ Hs).
  - intros ? ? [-> ->]. apply rep_yields; [by apply cond_okp|done].
Qed.

Lemma final_check_returns za zb Ta Tb s : SK s -> means [za] Ta -> means [zb] Tb ->
  returns (final_check za zb) s (fun b s' => SK s' /\ verdict Ta Tb b).
Proof using HW Hheap Hrel SL.
  intros Hs Ha Hb. unfold final_check.
  destruct (bool_decide_reflect (z_check [za] = unsat)) as [E|_].
  { apply returns_ret. split; [done|]. split; [done|]. intros _ _. left. by apply (check_answer _ _ Ha). }
  destruct (bool_decide_reflect (z_check [zb] = unsat)) as [E|_].
  { apply returns_ret. split; [done|]. split; [done|]. intros _ _. right. left. by apply (check_answer _ _ Hb). }
  eapply returns_bind; [by apply (rel_yields unroll_orig_)|]. intros zo s1 [H1 Ho].
  eapply returns_bind; [by apply (rel_yields unroll_appl_)|]. intros zn s2 [H2 Hn].
  destruct (zand_means za zb _ _ Ha Hb) as (z1 & E1 & M1). eapply returns_lift; [exact E1|].
  destruct (zand_means z1 zo _ _ M1 Ho) as (z2 & E2 & M2). eapply returns_lift; [exact E2|].
  destruct (znot_means zn _ Hn) as (z3 & E3 & M3). eapply returns_lift; [exact E3|].
  apply returns_ret. split; [done|]. destruct (check_answer _ _ (means_app _ _ _ _ M2 M3)) as [Sat Un]. split.
  - intros E%bool_decide_eq_true M HM H3 H4 H5. destruct (MonoOk.holds_dec (rep unroll_appl_ M) rel) as [?|Hno]; [done|].
    exfalso. by apply (Un E M HM).
  - intros E%bool_decide_eq_false Hd. right. right. intros Hc.
    destruct (z_check ([z2] ++ [z3])) eqn:Ez; [|done|by apply (Hd ([z2] ++ [z3]))].
    destruct (Sat eq_refl) as (M & HM & [[H3 H4] H5] & Hno). by apply Hno, (Hc M).
Qed.

(** C20.  [EqCheck] decides what it promises.  On a refinement relation with
    translatable hierarchies it returns, or it stops because a flushed path of
    one of the ILAs is dead.  The numbers of steps are the first ones within the
    bound that are enough to complete (for a solver that decides).  If a number
    is missing the answer is [false].  Otherwise [true] means that the diagram
    commutes: in every model in which both ILAs make their transitions, from
    related old states they reach related new states; and [false], from a solver
    that decides, that a transition is impossible or that the diagram does not
    commute. *)
Theorem EqCheck_verdict max s : SK s -> settles (EqCheck max) s (fun b s' => SK s' /\ exists koa kaa kob kab,
    first_of (enough_orig ra ma aa fa ca) (step_orig_ ra) max koa /\
    first_of (enough_appl ra ma aa fa ca) (step_appl_ ra) max kaa /\
    first_of (enough_orig rb mb ab fb cb) (step_orig_ rb) max kob /\
    first_of (enough_appl rb mb ab fb cb) (step_appl_ rb) max kab /\
    if (koa <? 0) || (kaa <? 0) || (kob <? 0) || (kab <? 0) then b = false else
    exists toa taa tob tab, Forall (MonoOk.table_of w0 ma) [toa; taa] /\ Forall (MonoOk.table_of w0 mb) [tob; tab] /\
      verdict (tran ma toa taa ra aa fa ca koa kaa) (tran mb tob tab rb ab fb cb kob kab) b)
  (dead ra ma aa fa \/ dead rb mb ab fb).
Proof using HW Hheap SL FL Hra Hrb Hrel.
  intros Hs. unfold EqCheck.
  assert (Hthis : forall {A} (g : CommDiag -> A) s, returns (d ← this; mret (g d)) s (fun x s' => x = g s.2 /\ s' = s))
    by (intros A g s'; by exists (g s'.2), s').
  eapply settles_bind; [by apply settles_returns, SanityCheck_returns|]. intros sc s1 H1.
  eapply settles_bind; [by apply settles_returns, Hthis|]. intros ? ? [-> ->]. rewrite (sk_crr _ _ H1).
  eapply settles_bind; [by apply settles_returns, Hthis|]. intros ? ? [-> ->]. rewrite (sk_crr _ _ H1).
  eapply settles_bind; [eapply settles_stop; [by apply (DetStepOrig_settles ra ma aa fa ca max)|by left]|].
  intros koa s2 [K1 H2].
  eapply settles_bind; [eapply settles_stop; [by apply (DetStepAppl_settles ra ma aa fa ca max)|by left]|].
  intros kaa s3 [K2 H3].
  eapply settles_bind; [eapply settles_stop; [by apply (DetStepOrig_settles rb mb ab fb cb max)|by right]|].
  intros kob s4 [K3 H4].
  eapply settles_bind; [eapply settles_stop; [by apply (DetStepAppl_settles rb mb ab fb cb max)|by right]|].
  intros kab s5 [K4 H5]. apply settles_returns.
  destruct ((koa <? 0) || (kaa <? 0) || (kob <? 0) || (kab <? 0)) eqn:Eneg.
  { apply returns_ret. split; [done|]. exists koa, kaa, kob, kab. by rewrite Eneg. }
  assert (Hpos : (0 <= koa /\ 0 <= kaa) /\ (0 <= kob /\ 0 <= kab)) by (pose proof Eneg; bool_inv; lia).
  destruct Hpos as [[P1 P2] [P3 P4]].
  eapply returns_bind; [by apply (GenTranRel_returns ra ma aa fa ca koa kaa)|]. intros za s6 (J6 & toa & taa & T1 & T2 & Ma).
  eapply returns_bind; [by apply (GenTranRel_returns rb mb ab fb cb kob kab)|]. intros zb s7 (J7 & tob & tab & T3 & T4 & Mb).
  eapply (returns_impl (final_check za zb)); [by apply (final_check_returns za zb _ _ s7 J7 Ma Mb)|]. intros b s8 [H8 Hv].
  split; [done|]. exists koa, kaa, kob, kab. do 4 (split; [done|]). rewrite Eneg.
  exists toa, taa, tob, tab. split_and!; [by repeat apply Forall_cons_2; try apply Forall_nil_2..|done].
Qed.

(** C21.  The number of steps is not checked against repeated completion.  A
    completion indicator that always holds is accepted for every number of steps
    (unless the path is dead), although on each path it holds at all times, and
    for [k] of at least one so more than once: the query for completion at most
    once is added to that for completion at least once. *)
Theorem CheckStepOrig_repeats k s : (forall ρ, env_ok ρ -> holds ρ ca) -> 1 <= k -> SK s ->
  settles (CheckStepOrig ra k) s (fun b s' => SK s' /\ b = true) (dead ra ma aa fa) /\
  forall M, model_ok M -> ~ one_time unroll_orig_ ca 0 k M.
Proof using HW Hheap SL Hra.
  intros Hc Hk Hs. split.
  - eapply settles_impl; [apply (CheckStepOrig_settles ra ma aa fa ca k s Hra); [lia|done]| |done].
    intros b s' [H (tb & _ & Ha)]. split; [done|]. apply Ha. intros M HM _. exists 0. split; [lia|].
    by apply Hc, env_of_ok.
  - intros M HM H. destruct (H 0 1) as [Hn|Hn]; [lia..| |]; by apply Hn, Hc, env_of_ok.
Qed.

(** One pass of the loop of [Init]. *)
Lemma init_unr_returns u f s : SK s ->
  flush_ (match u with A_OLD | A_NEW => ra | B_OLD | B_NEW => rb end) = Some f ->
  returns (init_unr u ()) s (fun _ s' => SK s' /\ g_pred_ (unrs s'.2 (GetUnrl u)) = [f] /\
    forall k, k <> GetUnrl u -> unrs s'.2 k = unrs s.2 k).
Proof using Type.
  intros Hs Hf. unfold init_unr. set (k := GetUnrl u).
  eapply (returns_bind _ _ _ (fun x s' => flush_ x = Some f /\ s' = s)).
  { exists (match u with A_OLD | A_NEW => ref_a_ (crr_ s.2) | B_OLD | B_NEW => ref_b_ (crr_ s.2) end), s.
    split; [by destruct u|]. rewrite (sk_crr _ _ Hs). by destruct u. }
  intros r ? [Hr ->].
  eapply (returns_bind _ _ _ (fun _ s' => SK s' /\ unrs s'.2 k = ClearPred (unrs s.2 k) /\
    forall j, j <> k -> unrs s'.2 j = unrs s.2 j)).
  { eexists (), _. split; [reflexivity|]. split; [apply SK_unr; [done|apply Hs]|]. cbn. split; [by rewrite decide_True|].
    intros j Hj. by rewrite decide_False. }
  intros [] s1 (H1 & Hu & Ho). eapply returns_lift; [by rewrite Hr|].
  eexists (), _. split; [reflexivity|]. split; [|split].
  - apply SK_unr; [done|]. apply H1.
  - cbn. rewrite decide_True by done. by rewrite Hu.
  - intros j Hj. cbn. rewrite decide_False by done. by apply Ho.
Qed.

(** C22.  The two ILAs share the unrollers of the incremental check.  After the
    constructor ([Init]) the unrollers that [IncCheck] uses for the paths of the
    first ILA have the flush function of the second one as their only global
    predicate: the paths of the first ILA are not flushed at all. *)
Theorem Init_shares s : sok crr s -> returns Init s (fun _ s' => sok crr s' /\
  g_pred_ (unrs s'.2 (GetUnrl A_OLD)) = [fb] /\ g_pred_ (unrs s'.2 (GetUnrl A_NEW)) = [fb]).
Proof using HW Hheap FL Hra Hrb.
  intros Hs. unfold Init. eapply returns_bind; [by apply SanityCheck_returns|]. intros b s0 H0.
  eapply (returns_bind _ _ _ (fun _ s' => SK s' /\
    g_pred_ (unrs s'.2 (GetUnrl A_OLD)) = [fb] /\ g_pred_ (unrs s'.2 (GetUnrl A_NEW)) = [fb])).
  { destruct (ro_flush _ _ _ _ _ Hra) as [Efa _], (ro_flush _ _ _ _ _ Hrb) as [Efb _].
    cbn [uids foldM].
    eapply returns_bind; [by apply (init_unr_returns A_OLD fa s0)|]. intros [] s1 (H1 & _).
    eapply returns_bind; [by apply (init_unr_returns A_NEW fa s1)|]. intros [] s2 (H2 & _).
    eapply returns_bind; [by apply (init_unr_returns B_OLD fb s2)|]. intros [] s3 (H3 & E3 & _).
    eapply returns_bind; [by apply (init_unr_returns B_NEW fb s3)|]. intros [] s4 (H4 & E4 & O4).
    apply returns_ret. split; [done|]. split; [|done]. cbn [GetUnrl] in *. by rewrite O4. }
  intros _ s1 (H1 & E1 & E2).
  assert (Hthis : forall {A} (g : CommDiag -> A) s, returns (d ← this; mret (g d)) s (fun x s' => x = g s.2 /\ s' = s))
    by (intros A g s'; by exists (g s'.2), s').
  assert (Hstts : forall coi, MonoOk.hier_ok w0 T0 coi -> returns (on_store (GetSttTree coi)) s1 (fun _ s' => s' = s1)).
  { intros coi Hk. destruct (hier_vars coi s1.1 Hk) as (vs & Ev & _); [apply H1..|]. exists vs, s1.
    unfold on_store. rewrite Ev. by destruct s1. }
  eapply returns_bind; [by apply Hthis|]. intros ? ? [-> ->]. rewrite (sk_crr _ _ H1).
  eapply returns_lift; [by rewrite (ro_coi _ _ _ _ _ Hra)|].
  eapply returns_bind; [apply Hstts, (ro_hier _ _ _ _ _ Hra)|]. intros sa ? ->.
  eapply returns_bind; [by apply Hthis|]. intros ? ? [-> ->]. rewrite (sk_crr _ _ H1).
  eapply returns_lift; [by rewrite (ro_coi _ _ _ _ _ Hrb)|].
  eapply returns_bind; [apply Hstts, (ro_hier _ _ _ _ _ Hrb)|]. intros sb ? ->.
  eexists (), _. split; [reflexivity|]. split; [|done]. destruct H1. by split.
Qed.
End diag.
End DiagOk.

(** ** The diagram of two small machines

    Each has a Boolean state [y] and an input [x]; the one keeps [y], the other
    inverts it.  The instruction is applied where [x] holds, and a path is flushed
    where it does not. *)
Module CrrSample.
Definition inv (id host x : objid) : Expr :=
  ExprOp {| h_id := id; h_name := "$"; h_host := Some host; h_sort := SortBool |} kNot None [BmcSample.var x host "x"] [].
Definition same_y : Expr :=
  ExprOp {| h_id := 13; h_name := "$13"; h_host := None; h_sort := SortBool |} kEqual None
    [BmcSample.var 4 1 "y"; BmcSample.var 6 2 "y"] [].
Definition machine (name : string) (m xi yi i : objid) : InstrLvlAbs :=
  Ila.with_instrs (Ila.with_inputs (Ila.with_states (IlaOk.nil_ila name None)
    (BmcSample.tab [BmcSample.var yi m "y"])) (BmcSample.tab [BmcSample.var xi m "x"]))
    (KeyVec.push_back KeyVec.empty "step" i).2.
Definition crr_a : InstrLvlAbs := machine "a" 1 3 4 9.
Definition crr_b : InstrLvlAbs := machine "b" 2 5 6 10.
Definition crr_heap : gmap objid Expr :=
  heap_of [BmcSample.var 3 1 "x"; BmcSample.var 4 1 "y"; BmcSample.var 5 2 "x"; BmcSample.var 6 2 "y";
           BmcSample.yes; BmcSample.flip; inv 11 1 3; inv 12 2 5; same_y].
Definition crr_world : World :=
  {| counter_ := 13; w_ilas := {[ 1%N := crr_a; 2%N := crr_b ]}; w_instrs := w_instrs BmcSample.world |}.
Definition refinement (m : objid) (a f : Expr) : RefinementMap :=
  {| coi_ := Some m; appl_ := Some a; flush_ := Some f; cmpl_ := Some BmcSample.yes;
     step_appl_ := -1; step_orig_ := -1; invs_ := [] |}.
Definition crr : CompRefRel :=
  {| ref_a_ := refinement 1 (BmcSample.var 3 1 "x") (inv 11 1 3);
     ref_b_ := refinement 2 (BmcSample.var 5 2 "x") (inv 12 2 5);
     rel_ := {| acc_ := same_y |} |}.
Definition start : World * CommDiag.CommDiag (Z3 := Terms.terms) := (crr_world,
  {| CommDiag.crr_ := crr; CommDiag.uu_ _ := {| CommDiag.lo := 0; CommDiag.hi := 0 |};
     CommDiag.unrs k := Unroller.New (CommDiag.suffix_of k); CommDiag.stts_a_ := []; CommDiag.stts_b_ := [] |}).

(** A body that depends on no constant is its own closure. *)
#[export] Instance forall_terms : Z3Forall Terms.terms :=
  {| z_forall vs e := match vs with [] => None | _ => Some e end |}.
#[export] Instance forall_laws : Z3ForallLaws (LZ := Terms.terms_laws) forall_terms.
Proof. split. intros [|v vs] e Hn _ He; [done|]. by exists e. Qed.

(** A solver that gives up on more than eight constants. *)
Definition few_consts (es : list Terms.Term) : bool :=
  match PropSolver.all_consts es with Some ks => (length ks <=? 8)%nat | None => false end.
#[export] Instance few : Z3Solver Terms.terms :=
  {| z_check := (fun es => if few_consts es then PropSolver.check es else unknown) : list (@zexpr Terms.terms) -> _ |}.
#[export] Instance few_laws : Z3SolverLaws (LZ := Terms.terms_laws) few.
Proof.
  split; intros es He; cbn; destruct (few_consts es); try done.
  - exact (z_check_sat (Z3SolverLaws := PropSolver.solver_laws) es He).
  - exact (z_check_unsat (Z3SolverLaws := PropSolver.solver_laws) es He).
Qed.

Lemma crr_heap_ok : heap_ok crr_heap crr_world.
Proof.
  apply heap_of_ok; [apply (bool_decide_unpack _); reflexivity|].
  each; (split; [by apply N.leb_le|vm_compute; each]).
Qed.
Lemma crr_hosts : IlaOk.ilas_ok (w_ilas crr_world).
Proof.
  intros m l p H. cbn in H. apply lookup_insert_Some in H as [[<- <-]|[_ [<- <-]%lookup_singleton_Some]]; done.
Qed.

Lemma crr_at m l : w_ilas crr_world !! m = Some l -> m = 1%N /\ l = crr_a \/ m = 2%N /\ l = crr_b.
Proof.
  intros H. cbn in H. apply lookup_insert_Some in H as [[<- <-]|[_ [<- <-]%lookup_singleton_Some]]; [by left|by right].
Qed.
Lemma crr_instr i x : w_instrs crr_world !! i = Some x -> i = 9%N /\ x = BmcSample.keep \/ i = 10%N /\ x = BmcSample.neg.
Proof.
  intros H. cbn in H. apply lookup_insert_Some in H as [[<- <-]|[_ [<- <-]%lookup_singleton_Some]]; [by left|by right].
Qed.
Lemma crr_under m d : absknob.under (w_ilas crr_world) m d -> is_Some (w_ilas crr_world !! m) -> d = m.
Proof.
  destruct 1 as [|m l c d Hl Hc _]; [done|]. intros _. exfalso.
  apply crr_at in Hl as [[_ ->]|[_ ->]]; by apply elem_of_nil in Hc.
Qed.

Lemma crr_good e : e ∈ [BmcSample.var 3 1 "x"; BmcSample.var 4 1 "y"; BmcSample.var 5 2 "x"; BmcSample.var 6 2 "y";
    BmcSample.yes; BmcSample.flip; inv 11 1 3; inv 12 2 5; same_y] -> good (w_ilas crr_world) crr_heap e.
Proof.
  rewrite !elem_of_cons, elem_of_nil. intros H. repeat destruct H as [->|H]; try done; split; try done; by vm_compute.
Qed.
Lemma crr_hier m : is_Some (w_ilas crr_world !! m) -> MonoOk.hier_ok crr_world crr_heap m.
Proof.
  intros Hm.
  assert (Hs : forall v, MonoOk.tree_state crr_world m v ->
    v ∈ [BmcSample.var 4 1 "y"; BmcSample.var 6 2 "y"]).
  { intros v (d & l & _ & [[-> ->]|[-> ->]]%crr_at & Hv).
    - change (v ∈ [BmcSample.var 4 1 "y"]) in Hv. set_solver.
    - change (v ∈ [BmcSample.var 6 2 "y"]) in Hv. set_solver. }
  assert (Hi : forall i, MonoOk.tree_instr crr_world m i -> i = 9%N \/ i = 10%N).
  { intros i (d & l & _ & [[-> ->]|[-> ->]]%crr_at & Hv); apply list_elem_of_singleton in Hv; tauto. }
  split.
  - exact crr_hosts.
  - apply crr_heap_ok.
  - split; intros k l; [|intros c|]; intros [[-> ->]|[-> ->]]%crr_at; try done; try apply NoDup_nil_2; by intros ?%elem_of_nil.
  - done.
  - destruct Hm as [l Hl]. destruct (crr_at m l Hl) as [[-> ->]|[-> ->]].
    + exists (BmcSample.var 4 1 "y"), 1%N, crr_a. split; [constructor|]. split; [done|by left].
    + exists (BmcSample.var 6 2 "y"), 2%N, crr_b. split; [constructor|]. split; [done|by left].
  - intros v Hv%Hs. split; [apply crr_good; set_solver|].
    rewrite !elem_of_cons, elem_of_nil in Hv. repeat destruct Hv as [->|Hv]; try done;
      (split; [done|]); eexists; (split; [done|by eexists]).
  - intros i [-> | ->]%Hi; eexists _, _; (split; [done|]); (split; [done|by eexists]).
  - intros i x d _ [[-> ->]|[-> ->]]%crr_instr [= <-]; (split; [apply crr_good; set_solver|done]).
  - intros i x v _ Hx Hv%Hs. rewrite !elem_of_cons, elem_of_nil in Hv.
    apply crr_instr in Hx as [[-> ->]|[-> ->]]; repeat destruct Hv as [->|Hv]; try done; cbn;
      (split; [apply crr_good; set_solver|done]).
Qed.

Lemma crr_cond e : e ∈ [BmcSample.var 3 1 "x"; BmcSample.var 5 2 "x"; BmcSample.yes; inv 11 1 3; inv 12 2 5; same_y] ->
  MonoOk.cond crr_world crr_heap e.
Proof.
  intros He. split; [apply crr_good; set_solver|].
  rewrite !elem_of_cons, elem_of_nil in He. by repeat destruct He as [->|He].
Qed.
Lemma crr_ref_a : DiagOk.ref_ok crr_world crr_heap (ref_a_ crr) 1 (BmcSample.var 3 1 "x") (inv 11 1 3) BmcSample.yes.
Proof.
  split; try done; try (split; [done|apply crr_cond; set_solver]).
  - apply crr_hier. by eexists.
  - eexists _, _. split; [reflexivity|]. constructor; [apply crr_good; set_solver|constructor].
Qed.
Lemma crr_ref_b : DiagOk.ref_ok crr_world crr_heap (ref_b_ crr) 2 (BmcSample.var 5 2 "x") (inv 12 2 5) BmcSample.yes.
Proof.
  split; try done; try (split; [done|apply crr_cond; set_solver]).
  - apply crr_hier. by eexists.
  - eexists _, _. split; [reflexivity|]. constructor; [apply crr_good; set_solver|constructor].
Qed.
Lemma crr_start : DiagOk.sok crr_world crr start.
Proof. by split. Qed.
End CrrSample.
Import CrrSample.

(** The check of the machines returns: no path is dead. *)
Lemma EqCheck_verdict_witness :
  let L := layout_id in
  exists b s', CommDiag.EqCheck (Z3 := Terms.terms) (SV := few) (FA := forall_terms) 0 start = Ok (b, s') /\
    DiagOk.sok crr_world crr s'.
Proof.
  intros L.
  destruct (DiagOk.EqCheck_verdict (LZ := Terms.terms_laws) (SL := few_laws) (FL := forall_laws)
    crr_world crr_heap crr crr_hosts crr_heap_ok 1 2 _ _ _ _ _ _ crr_ref_a crr_ref_b
    (crr_cond same_y ltac:(set_solver)) 0 start crr_start) as [(b & s' & E & Hs & _)|[E _]].
  - exists b, s'. by split.
  - exfalso.
    assert (H : match CommDiag.EqCheck (Z3 := Terms.terms) (SV := few) (FA := forall_terms) 0 start with
      Ok _ => true | Fail _ => false end = true) by (vm_compute; reflexivity).
    by rewrite E in H.
Defined.

Lemma CheckStepOrig_repeats_witness :
  let L := layout_id in
  ~ DiagOk.one_time crr_world CommDiag.unroll_orig_ BmcSample.yes 0 1 BmcSample.model.
Proof.
  intros L.
  refine (proj2 (DiagOk.CheckStepOrig_repeats (LZ := Terms.terms_laws) (SL := PropSolver.solver_laws)
    crr_world crr_heap crr crr_hosts crr_heap_ok 1 _ _ _ crr_ref_a 1 start _ _ crr_start) _ BmcSample.model_fine).
  - done.
  - lia.
Defined.

Lemma Init_shares_witness :
  let L := layout_id in
  exists s', CommDiag.Init (Z3 := Terms.terms) (SV := few) (FA := forall_terms) start = Ok ((), s') /\
    g_pred_ (CommDiag.unrs s'.2 (CommDiag.GetUnrl CommDiag.A_OLD)) = [inv 12 2 5].
Proof.
  intros L.
  destruct (DiagOk.Init_shares (LZ := Terms.terms_laws) (SV := few) (FL := forall_laws)
    crr_world crr_heap crr crr_hosts crr_heap_ok 1 2 _ _ _ _ _ _ crr_ref_a crr_ref_b start crr_start)
    as ([] & s' & E & _ & H & _).
  exists s'. by split.
Defined.
