(* ===== verification/McmAst.v ===== *)
(** * Expressions as the memory models read them

    [src/mcm/ast_helper.cc], with the predicates on function names of
    [src/vtarget-out/directive.cc] it uses.  A [std::set<std::string>] is a
    [gset], enumerated in string order.  Visited nodes are remembered by their
    address, which is the id of the node. *)
From S2P Require Import Prelude Sort Values Container Expr World.

(** ** Sets of names *)
Module Names.
Definition iter (s : gset string) : list string := merge_sort Instrs.str_le (elements s).
Lemma iter_elem s x : x ∈ iter s <-> x ∈ s.
Proof. unfold iter. by rewrite merge_sort_Permutation, elem_of_elements. Qed.
Lemma iter_NoDup s : NoDup (iter s).
Proof. unfold iter. rewrite merge_sort_Permutation. apply NoDup_elements. Qed.
End Names.

(** ** [class VarUseFinder<std::string>] *)
Module VarUseFinder.
(** The arguments whose variables are uses: the memory that is stored to is not
    one when it is a variable. *)
Definition used_args (op : AstUidExprOp) (args : list Expr) : list Expr :=
  match op, args with
  | kStore, a :: rest => if Exprs.is_var a then rest else args
  | _, _ => args
  end.

Fixpoint Traverse (expr : Expr) (uses : gset string) : gset string :=
  match expr with
  | ExprVar h _ => {[ h_name h ]} ∪ uses
  | ExprConst _ _ _ => uses
  | ExprOp _ op _ args _ =>
      (fix go (l : list Expr) (uses : gset string) : gset string :=
         match l with [] => uses | a :: l => go l (Traverse a uses) end) (used_args op args) uses
  end.

Definition Traverse_instr (x : Instr) (uses : gset string) : Res (gset string) :=
  d ← not_null (decode_ x);
  foldM (fun name uses => u ← not_null (Instrs.update x name); Ok (Traverse u uses))
    (Instrs.updated_states x) (Traverse d uses).

Definition Traverse_ila (m : objid) (uses : gset string) : M (gset string) :=
  l ← ila m;
  f ← lift (deref (fetch_ l));
  v ← lift (deref (valid_ l));
  foldM (fun i uses => x ← instr_ i; lift (Traverse_instr x uses))
    (KeyVec.vec_ (instrs_ l)) (Traverse v (Traverse f uses)).

(** The variables that are used, as nodes. *)
Fixpoint used (e : Expr) : list Expr :=
  match e with
  | ExprVar _ _ => [e]
  | ExprConst _ _ _ => []
  | ExprOp _ op _ args _ =>
      (fix go (l : list Expr) := match l with [] => [] | a :: l => used a ++ go l end) (used_args op args)
  end.

Lemma used_op h op fn args ps : used (ExprOp h op fn args ps) = used_args op args ≫= used.
Proof. cbn [used]. induction (used_args op args) as [|a l IH]; [done|]. cbn. by rewrite IH. Qed.

Lemma used_args_sub op args : used_args op args ⊆ args.
Proof. unfold used_args. intros a. destruct op; try done. destruct args as [|b l]; [done|]. destruct (Exprs.is_var b); [|done]. by right. Qed.

Lemma Traverse_used e uses n : n ∈ Traverse e uses <-> (exists v, v ∈ used e /\ Exprs.name v = n) \/ n ∈ uses.
Proof.
  revert uses. induction e as [h ps|h c ps|h op fn args ps IH] using Expr_ind'; intros uses.
  - cbn. rewrite elem_of_union, elem_of_singleton. setoid_rewrite list_elem_of_singleton. cbn. naive_solver.
  - cbn. setoid_rewrite elem_of_nil. naive_solver.
  - rewrite used_op. cbn [Traverse].
    assert (Hs : Forall (fun a => forall uses, n ∈ Traverse a uses <-> (exists v, v ∈ used a /\ Exprs.name v = n) \/ n ∈ uses) (used_args op args)).
    { rewrite Forall_forall in IH. apply Forall_forall. intros a Ha. by apply IH, used_args_sub with op. }
    clear IH. revert uses. induction Hs as [|a l Ha _ IH]; intros uses; cbn.
    + setoid_rewrite elem_of_nil. naive_solver.
    + rewrite IH, Ha. setoid_rewrite elem_of_app. naive_solver.
Qed.
End VarUseFinder.

(** ** [class NestedMemAddrDataAvoider] *)
Module NestedMemAddrDataAvoider.
(** [map_] only holds nodes that are nested. *)
Record Avoider := { map_ : gset objid; InAddrOrData : bool }.
Definition New : Avoider := {| map_ := ∅; InAddrOrData := false |}.
Definition with_flag (s : Avoider) (b : bool) : Avoider := {| map_ := map_ s; InAddrOrData := b |}.
Definition insert (s : Avoider) (e : Expr) : Avoider :=
  {| map_ := {[ Exprs.id e ]} ∪ map_ s; InAddrOrData := InAddrOrData s |}.

Definition is_memop (e : Expr) : bool :=
  match e with ExprOp _ op _ _ _ => bool_decide (op = kLoad) || bool_decide (op = kStore) | _ => false end.

Fixpoint NotNested (node : Expr) (s : Avoider) : bool * Avoider :=
  if bool_decide (Exprs.id node ∈ map_ s) then (false, s) else
  if is_memop node && InAddrOrData s then (false, s) else
  let s := if is_memop node then with_flag s true else s in
  let '(r, s) :=
    match node with
    | ExprOp _ _ _ args _ =>
        (fix go (l : list Expr) (s : Avoider) : bool * Avoider :=
           match l with
           | [] => (true, s)
           | a :: l => let '(r, s) := NotNested a s in
                       if r then go l s else (false, insert s node)
           end) args s
    | _ => (true, s)
    end in
  if r then (true, if is_memop node then with_flag s false else s) else (false, s).
End NestedMemAddrDataAvoider.

(** ** [class FunctionApplicationFinder] *)
Module FunctionApplicationFinder.
Record Finder := { _func_refs : list Func; visited : gset objid }.
Definition New : Finder := {| _func_refs := []; visited := ∅ |}.
Definition func_insert (f : Func) (l : list Func) : list Func :=
  if decide (f_id f ∈ f_id <$> l) then l else l ++ [f].
Definition hasFuncAppOnNode (e : Expr) (s : Finder) : Finder :=
  match e with
  | ExprOp _ kApplyFunc (Some f) _ _ => {| _func_refs := func_insert f (_func_refs s); visited := visited s |}
  | _ => s
  end.

Fixpoint hasFuncApp (expr : Expr) (s : Finder) : Finder :=
  if bool_decide (Exprs.id expr ∈ visited s) then s else
  let s := {| _func_refs := _func_refs s; visited := {[ Exprs.id expr ]} ∪ visited s |} in
  let s := match expr with
    | ExprOp _ _ _ args _ =>
        (fix go (l : list Expr) (s : Finder) : Finder :=
           match l with [] => s | a :: l => go l (hasFuncApp a s) end) args s
    | _ => s
    end in
  hasFuncAppOnNode expr s.

(** The constructor, and [GetReferredFunc]. *)
Definition GetReferredFunc (expr : Expr) : list Func := _func_refs (hasFuncApp expr New).
End FunctionApplicationFinder.

(** ** Unknown values *)
Definition isSpecialUnknownFunctionName (funcname : string) : bool :=
  if (String.length funcname <? 11)%nat then false else
  if negb (String.prefix "__unknown__" funcname) then false else
  if String.eqb funcname "__unknown__" then true else
  digits (String.substring 11 (String.length funcname - 11) funcname).
Definition isSpecialUnknownFunction (f : Func) : bool :=
  match args_ f with [] => isSpecialUnknownFunctionName (f_name f) | _ => false end.

Definition is_unknown (e : Expr) : bool :=
  match e with ExprOp _ kApplyFunc (Some f) _ _ => isSpecialUnknownFunction f | _ => false end.
(** The condition and the value of [Ite(c, v, unknown)] or [Ite(c, unknown, v)];
    in the latter case the condition is not negated. *)
Definition getIteUnknownCondVal (e : Expr) : Res (option (Expr * Expr)) :=
  match e with
  | ExprOp _ kIfThenElse _ args _ =>
      match args with
      | [c; a; b] =>
          if is_unknown a then Ok (Some (c, b)) else
          if is_unknown b then Ok (Some (c, a)) else Ok None
      | _ => Fail EAssert
      end
  | _ => Ok None
  end.
