(* ===== verification/Mcm.v ===== *)
(** * Memory consistency models: the operations

    [src/mcm]: trace steps and the base class ([memory_model.cc],
    [axiom_helper.cc]), the models [Sc] ([sc_manual.cc]) and [Tso]
    ([tso_manual.cc]), and the unroller of several ILAs
    ([inter_ila_unroller.cc]).  A trace step is shared and mutable: it lives in a
    table, a pointer to it is its number.  Time-stamps are integer terms of the
    solver, which are not terms of a sort of the program: [Z3Time]. *)
From S2P Require Import Prelude Sort Values Container Expr Smt Solver World Z3Expr ExprOp AstHub IlaVars Collect Unroller SolverPasses Bmc McmAst.
Import NestedMemAddrDataAvoider.

(** [int_const], [int_val(0)] and the comparisons of two time-stamps. *)
Class Z3Time (Z3 : Z3Api) := {
  ztime : Type;
  t_const : string -> ztime;
  t_zero : ztime;
  t_lt : ztime -> ztime -> zexpr;
  t_gt : ztime -> ztime -> zexpr;
  t_eq : ztime -> ztime -> zexpr }.

(** ** The data *)
Inductive AccessType := READ | WRITE | EITHER.
Inductive TraceStepType := INST_EVT | FACET_EVT | INIT_EVT | FINAL_EVT.
Inductive AxiomFuncHint := HINT_NONE | HINT_READ | HINT_WRITE.
#[export] Instance TraceStepType_eq_dec : EqDecision TraceStepType.
Proof. solve_decision. Defined.
#[export] Instance AxiomFuncHint_eq_dec : EqDecision AxiomFuncHint.
Proof. solve_decision. Defined.

Abbreviation AddrDataVec := (list (Expr * Expr)).

Section data.
Context {Z3 : Z3Api} {TM : Z3Time Z3}.

(** [TraceStep], with the member of [TsoTraceStep]. *)
Record TraceStep := {
  nad_map_ : gmap string AddrDataVec;
  already_searched_for_memreadpair_ : bool;
  _type : TraceStepType;
  _inst : option objid;
  _parent_inst : option objid;
  _read_state_set : gset string;
  _write_state_set : gset string;
  _inst_read_set : gset string;
  _inst_write_set : gset string;
  _name : string;
  timestamp : ztime;
  _pos_suffix : Z;
  _host_final_ : option objid;
  _final_property : option Expr;
  wfe_global : option N }.

(** [MemoryModel], with the lists of [Sc] and [Tso]; [trace_step_seq_no] and
    [l_r_names_to_state] are static. *)
Record MemoryModel := {
  trace_step_seq_no : N;
  l_r_names_to_state : gmap string (gset string);
  m_shared_state_names : gset string;
  m_ila_private_state_names : gmap string (gset string);
  m_p_global_ila : objid;
  _constr : list zexpr;
  steps : gmap N TraceStep;
  next_step : N;
  _init_trace_step : option N;
  _final_trace_step : option N;
  _all_trace_steps : list N;
  _all_inst_trace_steps : list N;
  _ila_trace_steps : list (list (option N));
  WRITE_list : list N;
  READ_list : list N;
  FENCE_list : list N;
  RMW_list : list N;
  PureWrite_list : list N;
  nested_finder_ : Avoider }.

Section setters.
Context (m : MemoryModel).
Definition with_statics (seq : N) (cache : gmap string (gset string)) : MemoryModel :=
  {| trace_step_seq_no := seq; l_r_names_to_state := cache; m_shared_state_names := m_shared_state_names m;
     m_ila_private_state_names := m_ila_private_state_names m; m_p_global_ila := m_p_global_ila m;
     _constr := _constr m; steps := steps m; next_step := next_step m; _init_trace_step := _init_trace_step m;
     _final_trace_step := _final_trace_step m; _all_trace_steps := _all_trace_steps m;
     _all_inst_trace_steps := _all_inst_trace_steps m; _ila_trace_steps := _ila_trace_steps m;
     WRITE_list := WRITE_list m; READ_list := READ_list m; FENCE_list := FENCE_list m; RMW_list := RMW_list m;
     PureWrite_list := PureWrite_list m; nested_finder_ := nested_finder_ m |}.
Definition with_constr (c : list zexpr) : MemoryModel :=
  {| trace_step_seq_no := trace_step_seq_no m; l_r_names_to_state := l_r_names_to_state m;
     m_shared_state_names := m_shared_state_names m;
     m_ila_private_state_names := m_ila_private_state_names m; m_p_global_ila := m_p_global_ila m;
     _constr := c; steps := steps m; next_step := next_step m; _init_trace_step := _init_trace_step m;
     _final_trace_step := _final_trace_step m; _all_trace_steps := _all_trace_steps m;
     _all_inst_trace_steps := _all_inst_trace_steps m; _ila_trace_steps := _ila_trace_steps m;
     WRITE_list := WRITE_list m; READ_list := READ_list m; FENCE_list := FENCE_list m; RMW_list := RMW_list m;
     PureWrite_list := PureWrite_list m; nested_finder_ := nested_finder_ m |}.
Definition with_steps (t : gmap N TraceStep) (n : N) : MemoryModel :=
  {| trace_step_seq_no := trace_step_seq_no m; l_r_names_to_state := l_r_names_to_state m;
     m_shared_state_names := m_shared_state_names m;
     m_ila_private_state_names := m_ila_private_state_names m; m_p_global_ila := m_p_global_ila m;
     _constr := _constr m; steps := t; next_step := n; _init_trace_step := _init_trace_step m;
     _final_trace_step := _final_trace_step m; _all_trace_steps := _all_trace_steps m;
     _all_inst_trace_steps := _all_inst_trace_steps m; _ila_trace_steps := _ila_trace_steps m;
     WRITE_list := WRITE_list m; READ_list := READ_list m; FENCE_list := FENCE_list m; RMW_list := RMW_list m;
     PureWrite_list := PureWrite_list m; nested_finder_ := nested_finder_ m |}.
Definition with_ends (i f : option N) : MemoryModel :=
  {| trace_step_seq_no := trace_step_seq_no m; l_r_names_to_state := l_r_names_to_state m;
     m_shared_state_names := m_shared_state_names m;
     m_ila_private_state_names := m_ila_private_state_names m; m_p_global_ila := m_p_global_ila m;
     _constr := _constr m; steps := steps m; next_step := next_step m; _init_trace_step := i;
     _final_trace_step := f; _all_trace_steps := _all_trace_steps m;
     _all_inst_trace_steps := _all_inst_trace_steps m; _ila_trace_steps := _ila_trace_steps m;
     WRITE_list := WRITE_list m; READ_list := READ_list m; FENCE_list := FENCE_list m; RMW_list := RMW_list m;
     PureWrite_list := PureWrite_list m; nested_finder_ := nested_finder_ m |}.
Definition with_all (a i : list N) : MemoryModel :=
  {| trace_step_seq_no := trace_step_seq_no m; l_r_names_to_state := l_r_names_to_state m;
     m_shared_state_names := m_shared_state_names m;
     m_ila_private_state_names := m_ila_private_state_names m; m_p_global_ila := m_p_global_ila m;
     _constr := _constr m; steps := steps m; next_step := next_step m; _init_trace_step := _init_trace_step m;
     _final_trace_step := _final_trace_step m; _all_trace_steps := a;
     _all_inst_trace_steps := i; _ila_trace_steps := _ila_trace_steps m;
     WRITE_list := WRITE_list m; READ_list := READ_list m; FENCE_list := FENCE_list m; RMW_list := RMW_list m;
     PureWrite_list := PureWrite_list m; nested_finder_ := nested_finder_ m |}.
Definition with_ila_steps (l : list (list (option N))) : MemoryModel :=
  {| trace_step_seq_no := trace_step_seq_no m; l_r_names_to_state := l_r_names_to_state m;
     m_shared_state_names := m_shared_state_names m;
     m_ila_private_state_names := m_ila_private_state_names m; m_p_global_ila := m_p_global_ila m;
     _constr := _constr m; steps := steps m; next_step := next_step m; _init_trace_step := _init_trace_step m;
     _final_trace_step := _final_trace_step m; _all_trace_steps := _all_trace_steps m;
     _all_inst_trace_steps := _all_inst_trace_steps m; _ila_trace_steps := l;
     WRITE_list := WRITE_list m; READ_list := READ_list m; FENCE_list := FENCE_list m; RMW_list := RMW_list m;
     PureWrite_list := PureWrite_list m; nested_finder_ := nested_finder_ m |}.
Definition with_lists (w r f a p : list N) : MemoryModel :=
  {| trace_step_seq_no := trace_step_seq_no m; l_r_names_to_state := l_r_names_to_state m;
     m_shared_state_names := m_shared_state_names m;
     m_ila_private_state_names := m_ila_private_state_names m; m_p_global_ila := m_p_global_ila m;
     _constr := _constr m; steps := steps m; next_step := next_step m; _init_trace_step := _init_trace_step m;
     _final_trace_step := _final_trace_step m; _all_trace_steps := _all_trace_steps m;
     _all_inst_trace_steps := _all_inst_trace_steps m; _ila_trace_steps := _ila_trace_steps m;
     WRITE_list := w; READ_list := r; FENCE_list := f; RMW_list := a;
     PureWrite_list := p; nested_finder_ := nested_finder_ m |}.
Definition with_finder (a : Avoider) : MemoryModel :=
  {| trace_step_seq_no := trace_step_seq_no m; l_r_names_to_state := l_r_names_to_state m;
     m_shared_state_names := m_shared_state_names m;
     m_ila_private_state_names := m_ila_private_state_names m; m_p_global_ila := m_p_global_ila m;
     _constr := _constr m; steps := steps m; next_step := next_step m; _init_trace_step := _init_trace_step m;
     _final_trace_step := _final_trace_step m; _all_trace_steps := _all_trace_steps m;
     _all_inst_trace_steps := _all_inst_trace_steps m; _ila_trace_steps := _ila_trace_steps m;
     WRITE_list := WRITE_list m; READ_list := READ_list m; FENCE_list := FENCE_list m; RMW_list := RMW_list m;
     PureWrite_list := PureWrite_list m; nested_finder_ := a |}.
End setters.

Section step_setters.
Context (t : TraceStep).
Definition with_reads (m : gmap string AddrDataVec) (b : bool) : TraceStep :=
  {| nad_map_ := m; already_searched_for_memreadpair_ := b; _type := _type t; _inst := _inst t;
     _parent_inst := _parent_inst t; _read_state_set := _read_state_set t; _write_state_set := _write_state_set t;
     _inst_read_set := _inst_read_set t; _inst_write_set := _inst_write_set t; _name := _name t;
     timestamp := timestamp t; _pos_suffix := _pos_suffix t; _host_final_ := _host_final_ t;
     _final_property := _final_property t; wfe_global := wfe_global t |}.
Definition with_state_sets (r w : gset string) : TraceStep :=
  {| nad_map_ := nad_map_ t; already_searched_for_memreadpair_ := already_searched_for_memreadpair_ t;
     _type := _type t; _inst := _inst t; _parent_inst := _parent_inst t; _read_state_set := r;
     _write_state_set := w; _inst_read_set := _inst_read_set t; _inst_write_set := _inst_write_set t;
     _name := _name t; timestamp := timestamp t; _pos_suffix := _pos_suffix t; _host_final_ := _host_final_ t;
     _final_property := _final_property t; wfe_global := wfe_global t |}.
Definition with_inst_read (r : gset string) : TraceStep :=
  {| nad_map_ := nad_map_ t; already_searched_for_memreadpair_ := already_searched_for_memreadpair_ t;
     _type := _type t; _inst := _inst t; _parent_inst := _parent_inst t; _read_state_set := _read_state_set t;
     _write_state_set := _write_state_set t; _inst_read_set := r; _inst_write_set := _inst_write_set t;
     _name := _name t; timestamp := timestamp t; _pos_suffix := _pos_suffix t; _host_final_ := _host_final_ t;
     _final_property := _final_property t; wfe_global := wfe_global t |}.
Definition with_wfe (f : option N) : TraceStep :=
  {| nad_map_ := nad_map_ t; already_searched_for_memreadpair_ := already_searched_for_memreadpair_ t;
     _type := _type t; _inst := _inst t; _parent_inst := _parent_inst t; _read_state_set := _read_state_set t;
     _write_state_set := _write_state_set t; _inst_read_set := _inst_read_set t; _inst_write_set := _inst_write_set t;
     _name := _name t; timestamp := timestamp t; _pos_suffix := _pos_suffix t; _host_final_ := _host_final_ t;
     _final_property := _final_property t; wfe_global := f |}.
End step_setters.
End data.

(** ** Computations *)
Abbreviation MM := (ST (World * MemoryModel)).
Section ops.
Context {Z3 : Z3Api} {TM : Z3Time Z3} {L : Layout}.
Abbreviation MM := (ST (World * MemoryModel)).
Abbreviation zimplies := LegacyBmc.zimplies.

Definition on_store {A} (m : M A) : MM A := fun s =>
  match m s.1 with Ok (a, w) => Ok (a, (w, s.2)) | Fail e => Fail e end.
Definition self : MM MemoryModel := gets snd.
Definition set_self (f : MemoryModel -> MemoryModel) : MM unit := modify (fun s => (s.1, f s.2)).
Definition step (p : N) : MM TraceStep := m ← self; lift (deref (steps m !! p)).
Definition put_step (p : N) (t : TraceStep) : MM unit :=
  set_self (fun m => with_steps m (<[p := t]> (steps m)) (next_step m)).
(** [std::make_shared<TraceStep>]. *)
Definition new_step (t : TraceStep) : MM N :=
  m ← self;
  put_step (next_step m) t;;
  set_self (fun m => with_steps m (steps m) (next_step m + 1)%N);;
  mret (next_step m).
Definition push (z : zexpr) : MM unit := set_self (fun m => with_constr m (_constr m ++ [z])).
Definition need {A} (o : option A) : MM A := lift (deref o).
Definition get_instr (i : objid) : MM Instr := on_store (instr_ i).
Definition get_ila (m : objid) : MM InstrLvlAbs := on_store (ila m).
(** [std::set<TraceStepPtr>::insert] and iteration, by address. *)
Definition step_insert (p : N) (l : list N) : list N := if decide (p ∈ l) then l else l ++ [p].
Definition step_iter (l : list N) : list N := set_order l.

(** ** [TraceStep] *)
Definition is_init_tracestep (t : TraceStep) : bool := bool_decide (_type t = INIT_EVT).
Definition is_facet_tracestep (t : TraceStep) : bool := bool_decide (_type t = FACET_EVT).
Definition is_final_tracestep (t : TraceStep) : bool := bool_decide (_type t = FINAL_EVT).

Definition inst_of (t : TraceStep) : Res objid :=
  ila_assert (negb (is_final_tracestep t));;
  deref (match _type t with INST_EVT | INIT_EVT => _inst t | _ => _parent_inst t end).
Definition pos_suffix (t : TraceStep) : Res Z :=
  ila_assert (negb (is_final_tracestep t));; Ok (_pos_suffix t).
Definition inst (t : TraceStep) : MM Instr := i ← lift (inst_of t); get_instr i.
Definition host (t : TraceStep) : MM objid :=
  if is_final_tracestep t then need (_host_final_ t) else x ← inst t; need (i_host x).
Definition host_state (t : TraceStep) (sname : string) : MM (option Expr) :=
  h ← host t; l ← get_ila h; mret (Ila.find_state l sname).

(** [GetName]: advances the counter. *)
Definition GetName (x : Instr) : MM string :=
  set_self (fun m => with_statics m (trace_step_seq_no m + 1)%N (l_r_names_to_state m));;
  m ← self;
  mret (i_name x +:+ "_ts" +:+ pretty (trace_step_seq_no m)).

Definition step_of (ty : TraceStepType) (i par : option objid) (r w : gset string) (name : string) (ts : ztime)
    (pos : Z) (h : option objid) (p : option Expr) : TraceStep :=
  {| nad_map_ := ∅; already_searched_for_memreadpair_ := false; _type := ty; _inst := i; _parent_inst := par;
     _read_state_set := ∅; _write_state_set := ∅; _inst_read_set := r; _inst_write_set := w; _name := name;
     timestamp := ts; _pos_suffix := pos; _host_final_ := h; _final_property := p; wfe_global := None |}.

(** [InitReadWriteSet]. *)
Definition InitReadWriteSet (x : Instr) : MM (gset string * gset string) :=
  r ← lift (VarUseFinder.Traverse_instr x ∅);
  mret (r, list_to_set (Instrs.updated_states x)).

(** The four constructors. *)
Definition new_inst (i : objid) (pos : Z) : MM N :=
  x ← get_instr i;
  name ← GetName x;
  '(r, w) ← InitReadWriteSet x;
  push (t_gt (t_const name) t_zero);;
  new_step (step_of INST_EVT (Some i) None r w name (t_const name) pos None None).
Definition new_init (i : objid) (ts_overwrite : ztime) (pos : Z) : MM N :=
  x ← get_instr i;
  name ← GetName x;
  '(r, w) ← InitReadWriteSet x;
  new_step (step_of INIT_EVT (Some i) None r w name ts_overwrite pos None None).
Definition new_facet (i : objid) (pos : Z) : MM N :=
  x ← get_instr i;
  name ← GetName x;
  let name := name +:+ "_fevt" in
  '(r, w) ← InitReadWriteSet x;
  push (t_gt (t_const name) t_zero);;
  new_step (step_of FACET_EVT None (Some i) r w name (t_const name) pos None None).
Definition final_name : string := "__FINAL_STEP__".
Definition new_final (property : Expr) (h : objid) : MM N :=
  new_step (step_of FINAL_EVT None None (VarUseFinder.Traverse property ∅) ∅ final_name
    (t_const final_name) 65536 (Some h) (Some property)).

(** [AddStateAccess] of a set; that of a name is of a singleton. *)
Definition AddStateAccess (p : N) (s : gset string) (acc_type : AccessType) : MM unit :=
  t ← step p;
  lift (ila_assert (is_facet_tracestep t));;
  match acc_type with
  | WRITE => lift (ila_assert (bool_decide (s ⊆ _inst_write_set t)));;
             put_step p (with_state_sets t (_read_state_set t) (s ∪ _write_state_set t))
  | READ => lift (ila_assert (bool_decide (s ⊆ _inst_read_set t)));;
            put_step p (with_state_sets t (s ∪ _read_state_set t) (_write_state_set t))
  | EITHER => lift (ila_assert false)
  end.

(** [Access] of a name, and of a set. *)
Definition Access_name (t : TraceStep) (acc_type : AccessType) (name : string) : Res bool :=
  ila_assert (negb (is_facet_tracestep t));;
  Ok (match acc_type with
      | READ => bool_decide (name ∈ _inst_read_set t)
      | WRITE => bool_decide (name ∈ _inst_write_set t)
      | EITHER => bool_decide (name ∈ _inst_read_set t) || bool_decide (name ∈ _inst_write_set t)
      end).
Definition Access (t : TraceStep) (acc_type : AccessType) (stateset : gset string) : Res bool :=
  ila_assert (negb (is_facet_tracestep t));;
  let r := bool_decide (_inst_read_set t ∩ stateset <> ∅) in
  let w := bool_decide (_inst_write_set t ∩ stateset <> ∅) in
  Ok (match acc_type with READ => r | WRITE => w | EITHER => r || w end).

(** [ConvertZ3], and [ConvertZ3OnThisStep]. *)
Definition ConvertZ3 (ast : Expr) (suffix : string) : MM zexpr := fun s =>
  z ← GetExpr (w_ilas s.1) ast suffix; Ok (z, s).
Definition FINAL_STEP_SUFFIX : string := "final".
Definition ConvertZ3OnThisStep (t : TraceStep) (ast : Expr) : MM zexpr :=
  if is_final_tracestep t then ConvertZ3 ast FINAL_STEP_SUFFIX
  else pos ← lift (pos_suffix t); ConvertZ3 ast (pretty pos).

(** *** The addresses and data a step loads *)
Definition VisitNodeForMemoryRead (node : Expr) (s : gmap string AddrDataVec * Avoider) :
    Res (gmap string AddrDataVec * Avoider) :=
  let '(nad, finder) := s in
  match node with
  | ExprOp _ kLoad _ args _ =>
      let '(ok, finder) := NotNested node finder in
      ila_assert ok;;
      mem_var ← Exprs.at_ args 0;
      addr ← Exprs.at_ args 1;
      let name := Exprs.name mem_var in
      Ok (<[name := default [] (nad !! name) ++ [(addr, node)]]> nad, finder)
  | _ => Ok (nad, finder)
  end.
(** The finder is bound by value: the copy is dropped at the end. *)
Definition FindAddrDataPairVecInExpr (node : Expr) (finder : Avoider) (nad : gmap string AddrDataVec) :
    Res (gmap string AddrDataVec) :=
  '(nad, _) ← Exprs.DepthFirstVisit VisitNodeForMemoryRead node (nad, finder); Ok nad.

Definition FindAddrDataPairVecInInst (p : N) (sname : string) : MM AddrDataVec :=
  t ← step p;
  m ← self;
  let finder := nested_finder_ m in
  (if already_searched_for_memreadpair_ t then mret () else
   if is_final_tracestep t then
     e ← need (_final_property t);
     nad ← lift (FindAddrDataPairVecInExpr e finder (nad_map_ t));
     put_step p (with_reads t nad false)
   else
     x ← inst t;
     d ← need (decode_ x);
     nad ← lift (FindAddrDataPairVecInExpr d finder (nad_map_ t));
     nad ← lift (foldM (fun name nad => u ← deref (Instrs.update x name); FindAddrDataPairVecInExpr u finder nad)
                   (Instrs.updated_states x) nad);
     put_step p (with_reads t nad true));;
  t ← step p;
  match nad_map_ t !! sname with
  | Some v => mret v
  | None => put_step p (with_reads t (<[sname := []]> (nad_map_ t)) (already_searched_for_memreadpair_ t));; mret []
  end.

(** ** Axiom functions *)
Fixpoint fold_list (op : zexpr -> zexpr -> Res zexpr) (ret : zexpr) (l : list zexpr) : Res zexpr :=
  match l with [] => Ok ret | z :: l => ret ← op ret z; fold_list op ret l end.
Definition Z3ForallList (l : list zexpr) : Res zexpr :=
  match l with [] => Ok (z_bool_val true) | z :: l => fold_list zand z l end.
Definition Z3ExistsList (l : list zexpr) : Res zexpr :=
  match l with [] => Ok (z_bool_val false) | z :: l => fold_list zor z l end.

Definition HB (l r : TraceStep) : zexpr := t_lt (timestamp l) (timestamp r).
Definition Sync (l r : TraceStep) : zexpr := t_eq (timestamp l) (timestamp r).
Definition SameCore (l r : TraceStep) : MM bool :=
  hl ← host l; il ← get_ila hl;
  hr ← host r; ir ← get_ila hr;
  mret (String.eqb (l_name il) (l_name ir)).
Definition PO (l r : TraceStep) : MM zexpr :=
  c ← SameCore l r; lift (zand (z_bool_val c) (HB l r)).
Definition Decode (l : TraceStep) : MM zexpr :=
  if is_final_tracestep l then mret (z_bool_val true) else
  x ← inst l; d ← need (decode_ x); ConvertZ3OnThisStep l d.

(** *** Addresses and data *)
Definition eq_on (l : TraceStep) (a : Expr) (r : TraceStep) (b : Expr) : MM zexpr :=
  za ← ConvertZ3OnThisStep l a; zb ← ConvertZ3OnThisStep r b; lift (zeq za zb).

(** [match || (w == a)] over the addresses that the other step reads. *)
Definition match_of_addr (tw : TraceStep) (waddr : Expr) (tr : TraceStep) (reads : AddrDataVec) : MM zexpr :=
  foldM (fun (p : Expr * Expr) z => e ← eq_on tw waddr tr p.1; lift (zor z e)) reads (z_bool_val false).
Definition is_empty {A} (l : list A) : bool := match l with [] => true | _ => false end.

Definition MemVarSameAddress (leftWAddr : option Expr) (leftR : AddrDataVec) (rightWAddr : option Expr)
    (rightR : AddrDataVec) (traceL traceR : TraceStep) : MM zexpr :=
  let retVal := z_bool_val true in
  if negb (is_some leftWAddr) && is_empty leftR then mret retVal else
  if negb (is_some rightWAddr) && is_empty rightR then mret retVal else
  let lr := is_some leftWAddr && negb (is_empty rightR) in
  let rl := is_some rightWAddr && negb (is_empty leftR) in
  retVal ← match leftWAddr with
    | Some a => if lr then m ← match_of_addr traceL a traceR rightR; lift (zand retVal m) else mret retVal
    | None => mret retVal
    end;
  retVal ← match rightWAddr with
    | Some a => if rl then m ← match_of_addr traceR a traceL leftR; lift (zand retVal m) else mret retVal
    | None => mret retVal
    end;
  if lr || rl then mret retVal else
  match leftWAddr, rightWAddr with
  | Some a, Some b => eq_on traceL a traceR b
  | _, _ =>
      foldM (fun (pl : Expr * Expr) ret =>
        foldM (fun (pr : Expr * Expr) ret => e ← eq_on traceL pl.1 traceR pr.1; lift (zor ret e)) rightR ret)
        leftR retVal
  end.

(** [ret && (addr == addr' => data == data')]. *)
Definition imply_data (tw : TraceStep) (w : Expr * Expr) (tr : TraceStep) (p : Expr * Expr) (ret : zexpr) : MM zexpr :=
  a ← eq_on tw w.1 tr p.1;
  d ← eq_on tw w.2 tr p.2;
  i ← lift (zimplies a d);
  lift (zand ret i).
(** [ret && (select(mem_0, addr) == data)]. *)
Definition select_data (memVar : option Expr) (t : TraceStep) (p : Expr * Expr) (ret : zexpr) : MM zexpr :=
  mv ← need memVar;
  m0 ← ConvertZ3 mv (pretty 0%Z);
  a ← ConvertZ3OnThisStep t p.1;
  s ← lift (throw (z_app SSelect [m0; a]));
  d ← ConvertZ3OnThisStep t p.2;
  e ← lift (zeq s d);
  lift (zand ret e).
(** The initial step against another one. *)
Definition init_data (memVar : option Expr) (w : option (Expr * Expr)) (t : TraceStep) (reads : AddrDataVec) : MM zexpr :=
  ret ← match w with Some p => select_data memVar t p (z_bool_val true) | None => mret (z_bool_val true) end;
  foldM (select_data memVar t) reads ret.

(** An address and its data come together: [CheckAndPeel] finds both or none. *)
Definition MemVarSameData (leftW : option (Expr * Expr)) (leftR : AddrDataVec) (rightW : option (Expr * Expr))
    (rightR : AddrDataVec) (traceL traceR : TraceStep) (memVar : option Expr) : MM zexpr :=
  let retVal := z_bool_val true in
  if is_init_tracestep traceL && is_init_tracestep traceR then mret retVal else
  if is_init_tracestep traceL then
    lift (ila_assert (negb (is_some leftW)));; init_data memVar rightW traceR rightR
  else if is_init_tracestep traceR then
    lift (ila_assert (negb (is_some rightW)));; init_data memVar leftW traceL leftR
  else
  if negb (is_some leftW) && is_empty leftR then mret retVal else
  if negb (is_some rightW) && is_empty rightR then mret retVal else
  let lr := is_some leftW && negb (is_empty rightR) in
  let rl := is_some rightW && negb (is_empty leftR) in
  retVal ← match leftW with
    | Some w => if lr then m ← foldM (imply_data traceL w traceR) rightR (z_bool_val true); lift (zand retVal m)
                else mret retVal
    | None => mret retVal
    end;
  retVal ← match rightW with
    | Some w => if rl then m ← foldM (imply_data traceR w traceL) leftR (z_bool_val true); lift (zand retVal m)
                else mret retVal
    | None => mret retVal
    end;
  if lr || rl then mret retVal else
  match leftW, rightW with
  | Some w, Some w' =>
      a ← eq_on traceL w.1 traceR w'.1; d ← eq_on traceL w.2 traceR w'.2; lift (zimplies a d)
  | _, _ => foldM (fun pl ret => foldM (imply_data traceL pl traceR) rightR ret) leftR retVal
  end.

(** [CheckAndPeel(e, "STORE", ...)]: the address and the data of a store. *)
Definition CheckAndPeel (e : Expr) (argn : nat) : MM (option Expr) :=
  match e with
  | ExprOp _ kStore _ args _ =>
      m ← self;
      let '(ok, finder) := NotNested e (nested_finder_ m) in
      set_self (fun m => with_finder m finder);;
      mret (if ok : bool then args !! argn else None)
  | _ => mret None
  end.
Definition ARG_ADDR : nat := 1.
Definition ARG_DATA : nat := 2.

(** The names both steps access at the same sort, which are remembered. *)
Definition accessed (t : TraceStep) : gset string :=
  if is_facet_tracestep t then _read_state_set t ∪ _write_state_set t else _inst_read_set t ∪ _inst_write_set t.
Definition same_sort (l r : TraceStep) (name : string) (acc : gset string) : MM (gset string) :=
  el ← host_state l name;
  er ← host_state r name;
  el ← need el;
  er ← need er;
  mret (if decide (Exprs.sort el = Exprs.sort er) then {[ name ]} ∪ acc else acc).
Definition SameAddrDataSanityCheck (l r : TraceStep) (sname : string) : MM unit :=
  let _lookup_index := _name l +:+ "$-&-$" +:+ _name r in
  m ← self;
  match l_r_names_to_state m !! _lookup_index with
  | Some s => lift (ila_assert (bool_decide (sname ∈ s)))
  | None =>
      s ← foldM (same_sort l r) (Names.iter (accessed l ∩ accessed r)) ∅;
      set_self (fun m => with_statics m (trace_step_seq_no m) (<[_lookup_index := s]> (l_r_names_to_state m)));;
      lift (ila_assert (bool_decide (sname ∈ s)))
  end.

(** The address of the update of [sname], when the hint allows a write. *)
Definition write_addr (t : TraceStep) (sname : string) (hint : AxiomFuncHint) : MM (option Expr) :=
  if bool_decide (hint = HINT_READ) then mret None else
  x ← inst t;
  match Instrs.update x sname with
  | None => mret None
  | Some wexpr => a ← CheckAndPeel wexpr ARG_ADDR; lift (ila_assert (is_some a));; mret a
  end.
(** The address and the data of the update; the initial step has none. *)
Definition write_data (t : TraceStep) (sname : string) (hint : AxiomFuncHint) : MM (option (Expr * Expr)) :=
  if bool_decide (hint = HINT_READ) then mret None else
  x ← inst t;
  match Instrs.update x sname with
  | None => mret None
  | Some wexpr =>
      a ← CheckAndPeel wexpr ARG_ADDR;
      d ← CheckAndPeel wexpr ARG_DATA;
      (if is_init_tracestep t then mret () else lift (ila_assert (is_some a && is_some d)));;
      mret (match a, d with Some a, Some d => Some (a, d) | _, _ => None end)
  end.
Definition reads_of (p : N) (sname : string) (hint : AxiomFuncHint) : MM AddrDataVec :=
  if bool_decide (hint = HINT_WRITE) then mret [] else FindAddrDataPairVecInInst p sname.

Definition SameAddress (pl pr : N) (sname : string) (lhint rhint : AxiomFuncHint) : MM zexpr :=
  l ← step pl;
  r ← step pr;
  SameAddrDataSanityCheck l r sname;;
  mem_var_left ← host_state l sname;
  e ← need mem_var_left;
  if negb (Exprs.is_mem e) then mret (z_bool_val true) else
  if is_init_tracestep l then mret (z_bool_val true) else
  if is_init_tracestep r then mret (z_bool_val true) else
  leftW ← write_addr l sname lhint;
  leftR ← reads_of pl sname lhint;
  rightW ← write_addr r sname rhint;
  rightR ← reads_of pr sname rhint;
  MemVarSameAddress leftW leftR rightW rightR l r.

Definition NonMemVarSameData (l r : TraceStep) (sname : string) (lhint rhint : AxiomFuncHint) : MM zexpr :=
  let retVal := z_bool_val true in
  var_left ← host_state l sname;
  var_right ← host_state r sname;
  lw ← lift (Access_name l WRITE sname);
  let leftW := lw && negb (bool_decide (lhint = HINT_READ)) in
  lr ← lift (Access_name l READ sname);
  let leftR := lr && negb (bool_decide (lhint = HINT_WRITE)) in
  rw ← lift (Access_name r WRITE sname);
  let rightW := rw && negb (bool_decide (rhint = HINT_READ)) in
  rr ← lift (Access_name r READ sname);
  let rightR := rr && negb (bool_decide (rhint = HINT_WRITE)) in
  if negb leftW && negb leftR then mret retVal else
  if negb rightW && negb rightR then mret retVal else
  retVal ← (if leftW && rightR then
    x ← inst l; u ← need (Instrs.update x sname); v ← need var_right; e ← eq_on l u r v; lift (zand retVal e)
    else mret retVal);
  retVal ← (if rightW && leftR then
    x ← inst r; u ← need (Instrs.update x sname); v ← need var_left; e ← eq_on r u l v; lift (zand retVal e)
    else mret retVal);
  if (leftW && rightR) || (rightW && leftR) then mret retVal else
  retVal ← (if leftW && rightW then
    x ← inst l; u ← need (Instrs.update x sname);
    y ← inst r; v ← need (Instrs.update y sname); e ← eq_on l u r v; lift (zand retVal e)
    else mret retVal);
  if leftR && rightR then v ← need var_left; e ← eq_on l v r v; lift (zand retVal e) else mret retVal.

Definition SameData (pl pr : N) (sname : string) (lhint rhint : AxiomFuncHint) : MM zexpr :=
  l ← step pl;
  r ← step pr;
  SameAddrDataSanityCheck l r sname;;
  mem_var_left ← host_state l sname;
  e ← need mem_var_left;
  m ← self;
  g ← get_ila (m_p_global_ila m);
  if negb (Exprs.is_mem e) then NonMemVarSameData l r sname lhint rhint else
  leftW ← write_data l sname lhint;
  leftR ← reads_of pl sname lhint;
  rightW ← write_data r sname rhint;
  rightR ← reads_of pr sname rhint;
  MemVarSameData leftW leftR rightW rightR l r (Ila.find_state g sname).

(** ** [MemoryModel] *)
Definition NewMemoryModel (seq : N) (cache : gmap string (gset string)) (shared : gset string)
    (priv : gmap string (gset string)) (global : objid) (constr : list zexpr) : MemoryModel :=
  {| trace_step_seq_no := seq; l_r_names_to_state := cache; m_shared_state_names := shared;
     m_ila_private_state_names := priv; m_p_global_ila := global; _constr := constr; steps := ∅; next_step := 0;
     _init_trace_step := None; _final_trace_step := None; _all_trace_steps := []; _all_inst_trace_steps := [];
     _ila_trace_steps := []; WRITE_list := []; READ_list := []; FENCE_list := []; RMW_list := [];
     PureWrite_list := []; nested_finder_ := NestedMemAddrDataAvoider.New |}.

(** Insertion into the sets. *)
Definition add_all (p : N) : MM unit :=
  set_self (fun m => with_all m (step_insert p (_all_trace_steps m)) (_all_inst_trace_steps m)).
Definition add_all_inst (p : N) : MM unit :=
  set_self (fun m => with_all m (_all_trace_steps m) (step_insert p (_all_inst_trace_steps m))).
Definition add_write (p : N) : MM unit := set_self (fun m =>
  with_lists m (step_insert p (WRITE_list m)) (READ_list m) (FENCE_list m) (RMW_list m) (PureWrite_list m)).
Definition add_read (p : N) : MM unit := set_self (fun m =>
  with_lists m (WRITE_list m) (step_insert p (READ_list m)) (FENCE_list m) (RMW_list m) (PureWrite_list m)).
Definition add_fence (p : N) : MM unit := set_self (fun m =>
  with_lists m (WRITE_list m) (READ_list m) (step_insert p (FENCE_list m)) (RMW_list m) (PureWrite_list m)).
Definition add_rmw (p : N) : MM unit := set_self (fun m =>
  with_lists m (WRITE_list m) (READ_list m) (FENCE_list m) (step_insert p (RMW_list m)) (PureWrite_list m)).
Definition when (b : bool) (m : MM unit) : MM unit := if b then m else mret ().

Definition CreateGlobalInitStep : MM N :=
  m ← self;
  g ← get_ila (m_p_global_ila m);
  i ← need (Ila.find_instr g "__INIT__");
  p ← new_init i t_zero 0;
  set_self (fun m => with_ends m (Some p) (_final_trace_step m));;
  mret p.
Definition CreateGlobalFinalStep (property : Expr) : MM N :=
  m ← self;
  p ← new_final property (m_p_global_ila m);
  set_self (fun m => with_ends m (_init_trace_step m) (Some p));;
  mret p.

(** [vector::resize]: the elements of a longer vector are kept. *)
Definition resize {A} (n : nat) (a : A) (l : list A) : list A := take n l ++ replicate (n - length l) a.
Definition InitSize (tmpl : list (list objid)) : MM unit := set_self (fun m =>
  with_ila_steps m (zip_with (fun (is_ : list objid) l => resize (length is_) None l) tmpl
    (resize (length tmpl) [] (_ila_trace_steps m)))).
Definition set_ila_step (regIdx idx : nat) (p : N) : MM unit := set_self (fun m =>
  with_ila_steps m (alter (fun l => <[idx := Some p]> l) regIdx (_ila_trace_steps m))).

(** *** [SetLocalState] *)
Definition private_of (m : MemoryModel) (name : string) : Res (gset string) :=
  match m_ila_private_state_names m !! name with Some s => Ok s | None => Fail EAssert end.
Definition need_state (l : InstrLvlAbs) (sname : string) : MM Expr := need (Ila.find_state l sname).

(** [last_update_of_a_state]: an expression and the position it is read at. *)
Abbreviation LastUpdate := (gmap string (Expr * Z)).
Definition first_update (l : InstrLvlAbs) (priv : gset string) : MM LastUpdate :=
  foldM (fun sname u => v ← need_state l sname; mret (<[sname := (v, 0%Z)]> u)) (Names.iter priv) ∅.
Definition link_read (l : InstrLvlAbs) (t : TraceStep) (u : LastUpdate) (sname : string) (_ : unit) : MM unit :=
  '(expr_, pos_) ← lift (match u !! sname with Some p => Ok p | None => Fail EAssert end);
  v ← need_state l sname;
  a ← ConvertZ3OnThisStep t v;
  b ← ConvertZ3 expr_ (pretty pos_);
  z ← lift (zeq a b);
  push z.
Definition link_write (t : TraceStep) (sname : string) (u : LastUpdate) : MM LastUpdate :=
  x ← inst t;
  d ← need (decode_ x);
  e ← need (Instrs.update x sname);
  s ← host_state t sname;
  s ← need s;
  conditional_update ← on_store (asthub.Ite d e s);
  pos ← lift (pos_suffix t);
  mret (<[sname := (conditional_update, pos)]> u).
Definition link_step (l : InstrLvlAbs) (priv : gset string) (p : option N) (x : LastUpdate * option N) :
    MM (LastUpdate * option N) :=
  let '(u, prev_ts) := x in
  p ← need p;
  t ← step p;
  foldM (link_read l t u) (Names.iter (_inst_read_set t ∩ priv)) ();;
  u ← foldM (link_write t) (Names.iter (_inst_write_set t ∩ priv)) u;
  match prev_ts with
  | Some q => if decide (q = p) then mret () else tq ← step q; push (HB tq t)
  | None => mret ()
  end;;
  mret (u, Some p).
Definition link_final (l : InstrLvlAbs) (u : LastUpdate) (sname : string) (_ : unit) : MM unit :=
  '(expr_, pos_) ← lift (match u !! sname with Some p => Ok p | None => Fail EAssert end);
  v ← need_state l sname;
  a ← ConvertZ3 v FINAL_STEP_SUFFIX;
  b ← ConvertZ3 expr_ (pretty pos_);
  z ← lift (zeq a b);
  push z.
Definition link_ordered (l : InstrLvlAbs) (priv : gset string) (ts_seq : list (option N)) : MM unit :=
  u ← first_update l priv;
  p0 ← need (head ts_seq);
  '(u, _) ← foldM (link_step l priv) ts_seq (u, p0);
  foldM (link_final l u) (Names.iter priv) ().

(** [UpdateDecodeTsPosList]. *)
Record Define := { d_update : Expr; d_decode : Expr; d_tstamp : ztime; d_pos : Z }.
Abbreviation Defines := (gmap string (list Define)).
Definition add_define (sname : string) (d : Define) (u : Defines) : Defines :=
  <[sname := default [] (u !! sname) ++ [d]]> u.
Definition first_define (l : InstrLvlAbs) (decode_true : Expr) (sname : string) (u : Defines) : MM Defines :=
  v ← need_state l sname;
  mret (add_define sname {| d_update := v; d_decode := decode_true; d_tstamp := t_zero; d_pos := 0 |} u).
Definition step_define (t : TraceStep) (sname : string) (u : Defines) : MM Defines :=
  x ← inst t;
  e ← need (Instrs.update x sname);
  d ← need (decode_ x);
  pos ← lift (pos_suffix t);
  mret (add_define sname {| d_update := e; d_decode := d; d_tstamp := timestamp t; d_pos := pos |} u).
Definition collect_defines (priv : gset string) (p : option N) (u : Defines) : MM Defines :=
  p ← need p;
  t ← step p;
  foldM (step_define t) (Names.iter (_inst_write_set t ∩ priv)) u.

(** No other writer comes between; [r] is absent for the final state. *)
Definition interfere (w : Define) (r : option TraceStep) (i : Define) (z : zexpr) : MM zexpr :=
  di ← ConvertZ3 (d_decode i) (pretty (d_pos i));
  o ← match r with
      | Some t => lift (zor (t_lt (d_tstamp i) (d_tstamp w)) (t_gt (d_tstamp i) (timestamp t)))
      | None => mret (t_lt (d_tstamp i) (d_tstamp w))
      end;
  c ← lift (zimplies di o);
  lift (zand z c).
(** The elements of a list with their positions, without one of them. *)
Definition others {A} (k : nat) (l : list A) : list A := take k l ++ drop (S k) l.
Definition is_own (r : TraceStep) (d : Define) : bool := bool_decide (d_pos d = _pos_suffix r).
Definition unordered_writer (l : InstrLvlAbs) (r : TraceStep) (sname : string) (defs : list Define)
    (k : nat) (acc : zexpr) : MM zexpr :=
  w ← need (defs !! k);
  v ← need_state l sname;
  a ← ConvertZ3OnThisStep r v;
  b ← ConvertZ3 (d_update w) (pretty (d_pos w));
  e ← lift (zeq a b);
  z ← lift (zand e (t_lt (d_tstamp w) (timestamp r)));
  d ← ConvertZ3 (d_decode w) (pretty (d_pos w));
  z ← lift (zand z d);
  if is_own r w then mret acc else
  z ← foldM (interfere w (Some r)) (filter (fun d => is_own r d = false) (others k defs)) z;
  lift (zor acc z).
Definition unordered_read (l : InstrLvlAbs) (u : Defines) (r : TraceStep) (sname : string) (_ : unit) : MM unit :=
  defs ← lift (match u !! sname with Some d => Ok d | None => Fail EAssert end);
  z ← foldM (unordered_writer l r sname defs) (seq 0 (length defs)) (z_bool_val false);
  push z.
Definition unordered_step (l : InstrLvlAbs) (priv : gset string) (u : Defines) (p : option N) (_ : unit) : MM unit :=
  p ← need p;
  t ← step p;
  foldM (unordered_read l u t) (Names.iter (_inst_read_set t ∩ priv)) ().
Definition final_writer (l : InstrLvlAbs) (sname : string) (defs : list Define) (k : nat) (acc : zexpr) : MM zexpr :=
  w ← need (defs !! k);
  v ← need_state l sname;
  a ← ConvertZ3 v FINAL_STEP_SUFFIX;
  b ← ConvertZ3 (d_update w) (pretty (d_pos w));
  e ← lift (zeq a b);
  d ← ConvertZ3 (d_decode w) (pretty (d_pos w));
  z ← lift (zand e d);
  z ← foldM (interfere w None) (others k defs) z;
  lift (zor acc z).
Definition unordered_final (l : InstrLvlAbs) (u : Defines) (sname : string) (_ : unit) : MM unit :=
  defs ← lift (match u !! sname with Some d => Ok d | None => Fail EAssert end);
  z ← foldM (final_writer l sname defs) (seq 0 (length defs)) (z_bool_val false);
  push z.
Definition link_unordered (l : InstrLvlAbs) (priv : gset string) (ts_seq : list (option N)) : MM unit :=
  decode_true ← on_store (asthub.BoolConst true);
  u ← foldM (first_define l decode_true) (Names.iter priv) ∅;
  u ← foldM (collect_defines priv) ts_seq u;
  foldM (unordered_step l priv u) ts_seq ();;
  foldM (unordered_final l u) (Names.iter priv) ().

(** One ILA: an empty sequence has no first step. *)
Definition local_state (x : list (option N) * bool) (_ : unit) : MM unit :=
  let '(ts_seq, is_ordered) := x in
  p0 ← need (head ts_seq);
  p0 ← need p0;
  t0 ← step p0;
  h ← host t0;
  l ← get_ila h;
  m ← self;
  priv ← lift (private_of m (l_name l));
  if (is_ordered : bool) then link_ordered l priv ts_seq else link_unordered l priv ts_seq.
Definition SetLocalState (ordered : list bool) : MM unit :=
  m ← self;
  foldM local_state (zip (_ila_trace_steps m) ordered) ().

(** *** Properties of single steps *)
Definition add_reads (p : N) (read_set : gset string) : MM unit :=
  t ← step p; put_step p (with_inst_read t (read_set ∪ _inst_read_set t)).
Definition GetSingleTraceStepProperty (property : Expr) (filter : TraceStep -> bool) (collector : zexpr -> MM unit) : MM unit :=
  m ← self;
  foldM (fun p (_ : unit) =>
    t ← step p;
    if filter t then
      z ← ConvertZ3OnThisStep t property;
      collector z;;
      add_reads p (VarUseFinder.Traverse property ∅)
    else mret ()) (step_iter (_all_trace_steps m)) ().
Definition AddSingleTraceStepProperty (property : Expr) (filter : TraceStep -> bool) : MM unit :=
  GetSingleTraceStepProperty property filter push.
End ops.

(** ** The models *)
Class MemoryModelOps {Z3 : Z3Api} {TM : Z3Time Z3} := {
  RegisterSteps : nat -> list objid -> ST (World * MemoryModel) unit;
  FinishRegisterSteps : ST (World * MemoryModel) unit;
  SetFinalProperty : Expr -> ST (World * MemoryModel) unit;
  ApplyAxioms : ST (World * MemoryModel) unit }.

Section common.
Context {Z3 : Z3Api} {TM : Z3Time Z3} {L : Layout}.
Abbreviation MM := (ST (World * MemoryModel)).
Abbreviation zimplies := LegacyBmc.zimplies.

(** A loop that pushes back the terms of the elements that are not skipped. *)
Definition collect {A} (f : A -> MM (option zexpr)) (l : list A) : MM (list zexpr) :=
  foldM (fun a zs => z ← f a; mret (match z with Some z => zs ++ [z] | None => zs end)) l [].
Definition skip : MM (option zexpr) := mret None.
Definition emit (m : MM zexpr) : MM (option zexpr) := z ← m; mret (Some z).
Definition forall_list (m : MM (list zexpr)) : MM zexpr := l ← m; lift (Z3ForallList l).
Definition exists_list (m : MM (list zexpr)) : MM zexpr := l ← m; lift (Z3ExistsList l).
(** [Z3Implies(true, z)] and [Z3And(true, z)], which the axioms start with. *)
Definition imply_true (m : MM zexpr) : MM zexpr := z ← m; lift (zimplies (z_bool_val true) z).
Definition and_true (m : MM zexpr) : MM zexpr := z ← m; lift (zand (z_bool_val true) z).

(** The axiom on reads, over the orders of the model. *)
Section rf_co_fr.
Context (RF CO FR : N -> N -> MM zexpr).
Definition same_name (a b : TraceStep) : bool := String.eqb (_name a) (_name b).
Definition no_writer_between (s : string) (r w w2 : N) : MM (option zexpr) :=
  tr ← step r;
  tw ← step w;
  tw2 ← step w2;
  if same_name tw2 tw then skip else
  if same_name tw2 tr then skip else
  acc ← lift (Access_name tw2 WRITE s);
  if negb acc then skip else
  emit (imply_true (
    a ← SameAddress r w2 s HINT_READ HINT_WRITE;
    d ← Decode tw2;
    c ← lift (zand a d);
    co ← CO w2 w;
    fr ← FR r w2;
    o ← lift (zor co fr);
    lift (zimplies c o))).
Definition reads_from (s : string) (r w : N) : MM (option zexpr) :=
  tr ← step r;
  tw ← step w;
  if same_name tw tr then skip else
  acc ← lift (Access_name tw WRITE s);
  if negb acc then skip else
  m ← self;
  var5 ← forall_list (collect (no_writer_between s r w) (step_iter (WRITE_list m)));
  emit (and_true (
    a ← SameAddress w r s HINT_WRITE HINT_READ;
    d ← SameData w r s HINT_WRITE HINT_READ;
    z ← lift (zand a d);
    dec ← Decode tw;
    z ← lift (zand z dec);
    rf ← RF w r;
    z ← lift (zand z rf);
    lift (zand z var5))).
Definition read_axiom (s : string) (r : N) : MM (option zexpr) :=
  tr ← step r;
  acc ← lift (Access_name tr READ s);
  if negb acc then skip else
  m ← self;
  emit (imply_true (exists_list (collect (reads_from s r) (step_iter (WRITE_list m))))).
Definition AXIOM_RF_CO_FR : MM unit :=
  m ← self;
  var11 ← forall_list (collect (fun s => m ← self;
    emit (forall_list (collect (read_axiom s) (step_iter (READ_list m))))) (Names.iter (m_shared_state_names m)));
  push var11.
End rf_co_fr.

(** The final step comes after all others, and reads shared states. *)
Definition final_property (property : Expr) : MM unit :=
  p ← CreateGlobalFinalStep property;
  m ← self;
  foldM (fun q (_ : unit) => tq ← step q; tp ← step p; push (HB tq tp)) (step_iter (_all_inst_trace_steps m)) ();;
  tp ← step p;
  r ← lift (Access tp READ (m_shared_state_names m));
  when r (add_read p);;
  z ← ConvertZ3OnThisStep tp property;
  push z.
(** What both models register of an instruction, and of the initial step. *)
Definition init_step : MM unit :=
  p ← CreateGlobalInitStep;
  add_all p;;
  add_all_inst p;;
  t ← step p;
  m ← self;
  w ← lift (Access t WRITE (m_shared_state_names m));
  when w (add_write p).
End common.

(** *** [class Sc] *)
Module Sc.
Section sc.
Context {Z3 : Z3Api} {TM : Z3Time Z3} {L : Layout}.
Abbreviation MM := (ST (World * MemoryModel)).

Definition register (regIdx : nat) (i : objid) (pos : Z) : MM Z :=
  p ← new_inst i pos;
  add_all p;;
  add_all_inst p;;
  set_ila_step regIdx (Z.to_nat (pos - 1)) p;;
  t ← step p;
  m ← self;
  w ← lift (Access t WRITE (m_shared_state_names m));
  when w (add_write p);;
  r ← lift (Access t READ (m_shared_state_names m));
  when r (add_read p);;
  mret (pos + 1)%Z.
Definition RegisterSteps (regIdx : nat) (_inst_seq : list objid) : MM unit :=
  foldM (register regIdx) _inst_seq 1%Z;; mret ().

Definition RF (w r : N) : MM zexpr := tw ← step w; tr ← step r; mret (HB tw tr).
Definition FR (r w : N) : MM zexpr := tr ← step r; tw ← step w; mret (HB tr tw).
Definition CO (w1 w2 : N) : MM zexpr := t1 ← step w1; t2 ← step w2; mret (HB t1 t2).
Definition ApplyAxioms : MM unit := AXIOM_RF_CO_FR RF CO FR.

Definition ScModel : MemoryModelOps :=
  Build_MemoryModelOps _ _ RegisterSteps init_step final_property ApplyAxioms.
End sc.
End Sc.

(** *** [class Tso] *)
Module Tso.
Section tso.
Context {Z3 : Z3Api} {TM : Z3Time Z3} {L : Layout}.
Abbreviation MM := (ST (World * MemoryModel)).
Abbreviation zimplies := LegacyBmc.zimplies.

(** The facet of a write: when it becomes visible to the other cores. *)
Definition facet (p : N) (i : objid) (pos : Z) : MM unit :=
  f ← new_facet i pos;
  t ← step p;
  put_step p (with_wfe t (Some f));;
  add_all f;;
  m ← self;
  AddStateAccess f (_inst_write_set t ∩ m_shared_state_names m) WRITE.
Definition is_fence (n : string) : bool := String.eqb n "fence" || String.eqb n "Fence" || String.eqb n "FENCE".
Definition is_rmw (n : string) : bool := String.eqb n "atomic_add" || String.eqb n "atomic_and".
Definition register (regIdx : nat) (i : objid) (pos : Z) : MM Z :=
  p ← new_inst i pos;
  add_all p;;
  add_all_inst p;;
  set_ila_step regIdx (Z.to_nat (pos - 1)) p;;
  t ← step p;
  m ← self;
  w ← lift (Access t WRITE (m_shared_state_names m));
  when w (add_write p;; facet p i pos);;
  r ← lift (Access t READ (m_shared_state_names m));
  when r (add_read p);;
  x ← get_instr i;
  when (is_fence (i_name x)) (add_fence p);;
  when (is_rmw (i_name x)) (add_rmw p);;
  mret (pos + 1)%Z.
Definition RegisterSteps (regIdx : nat) (_inst_seq : list objid) : MM unit :=
  foldM (register regIdx) _inst_seq 1%Z;; mret ().
Definition FinishRegisterSteps : MM unit :=
  set_self (fun m => with_lists m (WRITE_list m) (READ_list m) (FENCE_list m) (RMW_list m)
    (PureWrite_list m ++ filter (fun p => p ∉ PureWrite_list m) (filter (fun p => p ∉ RMW_list m) (WRITE_list m))));;
  init_step.

(** Only instruction steps of this model have the member. *)
Definition __wfe_global (p : N) : MM N :=
  t ← step p;
  if is_init_tracestep t then mret p else
  lift (ila_assert (bool_decide (_type t = INST_EVT)));;
  need (wfe_global t).
Definition wfe (p : N) : MM TraceStep := q ← __wfe_global p; step q.

Definition RF (w r : N) : MM zexpr :=
  tw ← step w; tr ← step r;
  c ← SameCore tw tr;
  if (c : bool) then mret (HB tw tr) else gw ← wfe w; mret (HB gw tr).
Definition FR (r w : N) : MM zexpr :=
  tr ← step r; tw ← step w;
  c ← SameCore tr tw;
  if (c : bool) then mret (HB tr tw) else gw ← wfe w; mret (HB tr gw).
Definition CO (w1 w2 : N) : MM zexpr :=
  t1 ← step w1; t2 ← step w2;
  c ← SameCore t1 t2;
  if (c : bool) then mret (HB t1 t2) else g1 ← wfe w1; g2 ← wfe w2; mret (HB g1 g2).

Definition TSO_WriteFacetOrder : MM unit :=
  m ← self;
  var13 ← forall_list (collect (fun w => t ← step w; g ← wfe w; emit (mret (HB t g))) (step_iter (PureWrite_list m)));
  push var13.
Definition store_order (w1 w2 : N) : MM (option zexpr) :=
  t1 ← step w1;
  t2 ← step w2;
  if same_name t2 t1 then skip else
  c ← SameCore t1 t2;
  if negb c then skip else
  emit (imply_true (
    a ← lift (zand (z_bool_val c) (HB t1 t2));
    g1 ← wfe w1; g2 ← wfe w2;
    lift (zimplies a (HB g1 g2)))).
Definition TSO_Store : MM unit :=
  m ← self;
  var18 ← forall_list (collect (fun w1 => m ← self;
    emit (forall_list (collect (store_order w1) (step_iter (WRITE_list m))))) (step_iter (WRITE_list m)));
  push var18.
Definition fence_order (f w : N) : MM (option zexpr) :=
  tf ← step f;
  tw ← step w;
  c ← SameCore tw tf;
  if negb c then skip else
  emit (
    a ← lift (zand (z_bool_val c) (HB tw tf));
    gw ← wfe w;
    lift (zimplies a (HB gw tf))).
Definition TSO_Fence : MM unit :=
  m ← self;
  var22 ← forall_list (collect (fun f => m ← self;
    emit (forall_list (collect (fence_order f) (step_iter (WRITE_list m))))) (step_iter (FENCE_list m)));
  push var22.
Definition TSO_RMW : MM unit :=
  m ← self;
  var24 ← forall_list (collect (fun i => t ← step i; g ← wfe i; emit (mret (Sync t g))) (step_iter (RMW_list m)));
  push var24.
Definition ApplyAxioms : MM unit :=
  AXIOM_RF_CO_FR RF CO FR;;
  TSO_WriteFacetOrder;;
  TSO_Store;;
  TSO_Fence;;
  TSO_RMW.

Definition TsoModel : MemoryModelOps :=
  Build_MemoryModelOps _ _ RegisterSteps FinishRegisterSteps final_property ApplyAxioms.
End tso.
End Tso.

(** ** [class InterIlaUnroller] *)
Module InterIlaUnroller.

(** *** [HostRemoveRestore]

    The host of a variable node is replaced while the conditions are translated,
    and restored afterwards: [cur] has the hosts that are replaced, [map_] the
    recorded ones. *)
Record Hosts := { map_ : gmap objid (option objid); cur : gmap objid (option objid) }.
Definition host_now (s : Hosts) (e : Expr) : option objid := default (Exprs.host e) (cur s !! Exprs.id e).
Definition replace_host (f : Expr -> bool) (h : option objid) (e : Expr) (s : Hosts) : Res Hosts :=
  if Exprs.is_var e && f e then
    m ← match map_ s !! Exprs.id e with
        | Some old => ila_assert (bool_decide (old = host_now s e));; Ok (map_ s)
        | None => Ok (<[Exprs.id e := host_now s e]> (map_ s))
        end;
    Ok {| map_ := m; cur := <[Exprs.id e := h]> (cur s) |}
  else Ok s.
(** [RecordAndReplaceIf]; with no host it is [RecordAndRemoveIf], and for every
    variable [RecordAndRemove]. *)
Definition RecordAndReplaceIf (expr : Expr) (f : Expr -> bool) (h : option objid) (s : Hosts) : Res Hosts :=
  Exprs.DepthFirstVisit (replace_host f h) expr s.
Definition restore (e : Expr) (s : Hosts) : Res Hosts :=
  if Exprs.is_var e && negb (is_some (host_now s e)) then
    match map_ s !! Exprs.id e with
    | Some old => Ok {| map_ := map_ s; cur := <[Exprs.id e := old]> (cur s) |}
    | None => Ok s
    end
  else Ok s.
Definition Restore (expr : Expr) (s : Hosts) : Res Hosts := Exprs.DepthFirstVisit restore expr s.
Definition RestoreAll (h : option objid) (s : Hosts) : Res Hosts :=
  ila_assert (forallb (fun p : objid * option objid =>
    bool_decide (default None (cur s !! p.1) = h)) (map_to_list (map_ s)));;
  Ok {| map_ := map_ s; cur := map_ s ∪ cur s |}.

(** The expression as its nodes are now. *)
Fixpoint rehost (s : Hosts) (e : Expr) : Expr :=
  match e with
  | ExprVar h ps => ExprVar {| h_id := h_id h; h_name := h_name h; h_host := host_now s e; h_sort := h_sort h |} ps
  | ExprConst _ _ _ => e
  | ExprOp h op fn args ps => ExprOp h op fn (rehost s <$> args) ps
  end.

Section inter.
Context {Z3 : Z3Api} {TM : Z3Time Z3} {SV : Z3Solver Z3} {L : Layout} {MO : MemoryModelOps}.
Abbreviation MM := (ST (World * MemoryModel)).

(** The members that the memory model does not hold (it refers to the shared and
    private names and to the constraints); whether there is a model. *)
Record InterIlaUnroller := {
  sys_ila_ : list objid;
  mm_ : MemoryModel;
  zexpr_vec_pos_stack_ : list nat;
  model_ptr_ : bool }.

(** *** The constructor *)
Definition SharedStatesSet : Type := gmap string (list Expr).
Definition collect_state (v : Expr) (m : SharedStatesSet) : M SharedStatesSet :=
  let l := default [] (m !! Exprs.name v) in
  match l with
  | [] => mret ()
  | front :: _ => assert_ (bool_decide (Exprs.sort front = Exprs.sort v))
  end;;
  mret (<[Exprs.name v := l ++ [v]]> m).
Definition collect_ila (i : objid) (m : SharedStatesSet) : M SharedStatesSet :=
  l ← ila i;
  assert_ (Ila.child_num l =? 0)%nat;;
  foldM collect_state (KeyVec.vec_ (states_ l)) m.
Definition share_state (global : objid) (m : SharedStatesSet) (name : string) (shared : gset string) : M (gset string) :=
  match default [] (m !! name) with
  | v :: _ :: _ =>
      match Exprs.sort v with
      | SortBool => IlaVars.NewBoolState global name;; mret ()
      | SortBv w => IlaVars.NewBvState global name w;; mret ()
      | SortMem aw dw => IlaVars.NewMemState global name aw dw;; mret ()
      | _ => assert_ false
      end;;
      mret ({[ name ]} ∪ shared)
  | _ => mret shared
  end.
Definition private_states (shared : gset string) (i : objid) (p : gmap string (gset string)) : M (gmap string (gset string)) :=
  l ← ila i;
  let p := <[l_name l := default ∅ (p !! l_name l)]> p in
  mret (<[l_name l := default ∅ (p !! l_name l) ∪
           list_to_set (filter (fun n => n ∉ shared) (Exprs.name <$> KeyVec.vec_ (states_ l)))]> p).
Definition FindSharedStates (global : objid) (sys : list objid) : M (gset string * gmap string (gset string)) :=
  m ← foldM collect_ila sys (∅ : SharedStatesSet);
  shared ← foldM (share_state global m) (Names.iter (dom m)) ∅;
  priv ← foldM (private_states shared) sys ∅;
  mret (shared, priv).

Definition createDummyGlobalIla (global : objid) : M unit :=
  l ← ila global;
  init_instr_ptr ← Ila.NewInstr global "__INIT__";
  d ← asthub.BoolConst true;
  Instrs.set_decode init_instr_ptr (Some d);;
  foldM (fun s (_ : unit) => Instrs.set_update_state init_instr_ptr s (Some s)) (KeyVec.vec_ (states_ l)) ().
Definition global_name : string := "__GLOBAL_INIT__".
(** The statics of [TraceStep] and of the sanity check are arguments. *)
Definition New (seq : N) (cache : gmap string (gset string)) (iv : list objid) : M InterIlaUnroller :=
  global_ila_ ← Ila.New global_name None;
  '(shared, priv) ← FindSharedStates global_ila_ iv;
  createDummyGlobalIla global_ila_;;
  mret {| sys_ila_ := iv; mm_ := NewMemoryModel seq cache shared priv global_ila_ []; zexpr_vec_pos_stack_ := [];
          model_ptr_ := false |}.

(** *** Methods *)
Abbreviation I := (ST (World * InterIlaUnroller)).
Definition this : I InterIlaUnroller := gets snd.
Definition with_mm (u : InterIlaUnroller) (m : MemoryModel) : InterIlaUnroller :=
  {| sys_ila_ := sys_ila_ u; mm_ := m; zexpr_vec_pos_stack_ := zexpr_vec_pos_stack_ u; model_ptr_ := model_ptr_ u |}.
Definition with_stack (u : InterIlaUnroller) (l : list nat) : InterIlaUnroller :=
  {| sys_ila_ := sys_ila_ u; mm_ := mm_ u; zexpr_vec_pos_stack_ := l; model_ptr_ := model_ptr_ u |}.
Definition with_model (u : InterIlaUnroller) (b : bool) : InterIlaUnroller :=
  {| sys_ila_ := sys_ila_ u; mm_ := mm_ u; zexpr_vec_pos_stack_ := zexpr_vec_pos_stack_ u; model_ptr_ := b |}.
Definition on_mm {A} (m : MM A) : I A := fun s =>
  match m (s.1, mm_ s.2) with Ok (a, (w, x)) => Ok (a, (w, with_mm s.2 x)) | Fail e => Fail e end.
Definition set_this (f : InterIlaUnroller -> InterIlaUnroller) : I unit := modify (fun s => (s.1, f s.2)).

Definition Unroll (tmpl : list (list objid)) : I unit :=
  u ← this;
  lift (ila_assert (length (sys_ila_ u) =? length tmpl)%nat);;
  on_mm (InitSize tmpl);;
  foldM (fun p (_ : unit) => on_mm (RegisterSteps p.1 p.2)) (zip (seq 0 (length tmpl)) tmpl) ();;
  on_mm FinishRegisterSteps.
Definition LinkStates (ordered : list bool) : I unit :=
  u ← this;
  lift (ila_assert (length (sys_ila_ u) =? length ordered)%nat);;
  on_mm ApplyAxioms;;
  on_mm (SetLocalState ordered).

(** The initial conditions of one ILA; the vector of terms is not cleared
    between two ILAs. *)
Definition init_cond (global : objid) (shared : gset string) (e : Expr) (x : Hosts * list zexpr) : MM (Hosts * list zexpr) :=
  let '(h, zs) := x in
  h ← lift (RecordAndReplaceIf e (fun v => bool_decide (Exprs.name v ∈ shared)) (Some global) h);
  z ← ConvertZ3 (rehost h e) (pretty 0%Z);
  mret (h, zs ++ [z]).
Definition ila_init (i : objid) (x : Hosts * list zexpr) : MM (Hosts * list zexpr) :=
  m ← self;
  instr ← on_store (Instrs.New "__INIT__" (Some i));
  t ← on_store (asthub.BoolConst true);
  on_store (Instrs.set_decode instr (Some t));;
  l ← get_ila i;
  x ← foldM (init_cond (m_p_global_ila m) (m_shared_state_names m)) (inits_ l) x;
  z ← lift (ConjPred x.2);
  push z;;
  mret x.
(** The test of the conditions at the end is only logged. *)
Definition GenSysInitConstraints : I unit :=
  u ← this;
  '(h, _) ← on_mm (foldM ila_init (sys_ila_ u) ({| map_ := ∅; cur := ∅ |}, []));
  lift (RestoreAll (Some (m_p_global_ila (mm_ u))) h);;
  mret ().

Definition CheckSat : I bool :=
  u ← this;
  let result := bool_decide (z_check (_constr (mm_ u)) = sat) in
  set_this (fun u => with_model u result);;
  mret result.
Definition Push : I unit :=
  set_this (fun u => with_stack u (length (_constr (mm_ u)) :: zexpr_vec_pos_stack_ u)).
Definition Pop : I unit :=
  u ← this;
  match zexpr_vec_pos_stack_ u with
  | [] => lift (ila_assert false)
  | prev_size_ :: l =>
      set_this (fun u => with_stack u l);;
      lift (ila_assert (prev_size_ <=? length (_constr (mm_ u)))%nat);;
      set_this (fun u => with_mm u (with_constr (mm_ u) (take prev_size_ (_constr (mm_ u)))))
  end.
Definition InterSetFinalProperty (property : Expr) : I unit := on_mm (SetFinalProperty property).
Definition InterAddSingleTraceStepProperty (property : Expr) (filter : TraceStep -> bool) : I unit :=
  on_mm (AddSingleTraceStepProperty property filter).
End inter.
End InterIlaUnroller.
