(* ===== verification/McmSpec.v ===== *)
(** * What the memory models say

    The constraints of [Mcm] in a model of the solver: the meaning of the axioms
    of sequential consistency and of the constraints on private states, and the
    interleaving they describe. *)
From S2P Require Import Prelude Sort Values Container Expr Smt Solver World Z3Expr ExprOp AstHub Collect Unroller UnrollerSpec Rewrite SolverPasses SolverPassesSpec MonoSpec Bmc TermSpec McmAst Mcm.
Local Open Scope Z_scope.

(** Comparisons of time-stamps compare their values. *)
Class Z3TimeLaws {Z3 : Z3Api} {LZ : Z3Laws Z3} (TM : Z3Time Z3) := {
  t_eval : Model -> ztime -> Z;
  t_zero_law m : t_eval m t_zero = 0;
  t_lt_law a b : z_has (t_lt a b) SortBool /\
    forall m, model_ok m -> z_eval m (t_lt a b) = VBool (t_eval m a <? t_eval m b);
  t_gt_law a b : z_has (t_gt a b) SortBool /\
    forall m, model_ok m -> z_eval m (t_gt a b) = VBool (t_eval m b <? t_eval m a);
  t_eq_law a b : z_has (t_eq a b) SortBool /\
    forall m, model_ok m -> z_eval m (t_eq a b) = VBool (t_eval m a =? t_eval m b) }.

(** ** Names of steps *)
Lemma digits_split c x y d d' : digit c = false -> digits d = true -> digits d' = true ->
  x +:+ String c d = y +:+ String c d' -> d = d'.
Proof.
  intros Hc Hd Hd'. revert y. induction x as [|a x IH]; intros [|b y] E; cbn in E; simplify_eq; [done|..].
  - apply (digits_no _ _ Hc) in Hd. rewrite str_no_app in Hd. cbn in Hd. bool_inv. by rewrite Ascii.eqb_refl in *.
  - apply (digits_no _ _ Hc) in Hd'. rewrite str_no_app in Hd'. cbn in Hd'. bool_inv. by rewrite Ascii.eqb_refl in *.
  - by eapply IH.
Qed.
Definition step_name (n : string) (k : N) : string := n +:+ "_ts" +:+ pretty k.
Lemma step_name_inj n n' k k' : step_name n k = step_name n' k' -> k = k'.
Proof.
  unfold step_name. intros E. apply (inj pretty).
  apply (digits_split "s" (n +:+ "_t") (n' +:+ "_t")); [done|apply pretty_N_digits..|].
  rewrite <- !str_app_assoc. exact E.
Qed.

(** ** Lists of terms *)
Section lists.
Context {Z3 : Z3Api} {LZ : Z3Laws Z3} {TM : Z3Time Z3} {L : Layout} {X : Type} (I : World * MemoryModel -> Prop).
Abbreviation MM := (ST (World * MemoryModel)).

(** A call that makes a term when [P], and else none. *)
Definition emits (m : MM (option zexpr)) (P : Prop) (Φ : Model -> Prop) : Prop := forall s, I s ->
  returns m s (fun o s' => I s' /\ match o with Some z => P /\ means [z] Φ | None => ~ P end).
Lemma emits_skip (P : Prop) Φ : ~ P -> emits skip P Φ.
Proof using Type. intros HP s Hs. by apply returns_ret. Qed.
Lemma emits_emit (P : Prop) m Φ : P -> yields I m Φ -> emits (emit m) P Φ.
Proof using Type.
  intros HP Hm s Hs. eapply returns_bind; [by apply Hm|]. intros z s' [H1 H2]. by apply returns_ret.
Qed.

Lemma collect_terms_run (f : X -> MM (option zexpr)) P Φ l : Forall (fun a => emits (f a) (P a) (Φ a)) l -> forall s, I s ->
  returns (collect f l) s (fun zs s' => I s' /\ exists l', Forall2 (fun z a => means [z] (Φ a)) zs l' /\
    forall a, a ∈ l' <-> a ∈ l /\ P a).
Proof using Type.
  intros Hl. unfold collect.
  enough (H : forall pre zs0, Forall2 (fun z a => means [z] (Φ a)) zs0 pre -> forall s, I s ->
    returns (foldM (fun a zs => z ← f a; mret (match z with Some z => zs ++ [z] | None => zs end)) l zs0) s
      (fun zs s' => I s' /\ exists l', Forall2 (fun z a => means [z] (Φ a)) zs l' /\
        forall a, a ∈ l' <-> a ∈ pre \/ (a ∈ l /\ P a))).
  { intros s Hs. eapply returns_impl; [apply (H [] []); [constructor|exact Hs]|]. cbn beta.
    intros zs s' (H1 & l' & H2 & H3). split; [done|]. exists l'. split; [done|]. intros a. rewrite H3, elem_of_nil. tauto. }
  induction Hl as [|a l Ha _ IH]; intros pre zs0 Hz s Hs.
  - apply returns_ret. split; [done|]. exists pre. split; [done|]. intros a. rewrite elem_of_nil. tauto.
  - cbn [foldM]. apply (returns_bind _ _ _ (fun zs s' => I s' /\ exists pre', Forall2 (fun z a => means [z] (Φ a)) zs pre' /\
      forall b, b ∈ pre' <-> b ∈ pre \/ (b = a /\ P a))).
    + eapply returns_bind; [by apply Ha|]. intros o s1 [H1 H2]. apply returns_ret. split; [done|]. destruct o as [z|].
      * destruct H2 as [HP Hza]. exists (pre ++ [a]). split; [by apply Forall2_app; [|constructor]|].
        intros b. rewrite elem_of_app, list_elem_of_singleton. naive_solver.
      * exists pre. split; [done|]. naive_solver.
    + intros zs s1 (H1 & pre' & H2 & H3). eapply returns_impl; [by apply (IH pre' zs)|]. cbn beta.
      intros zs' s' (H4 & l' & H5 & H6). split; [done|]. exists l'. split; [done|]. intros b.
      rewrite H6, H3, elem_of_cons. naive_solver.
Qed.

Lemma fold_list_means (op : zexpr -> zexpr -> Res zexpr) (C : Prop -> Prop -> Prop)
    (Hop : forall a b Φ Ψ, means [a] Φ -> means [b] Ψ -> exists z, op a b = Ok z /\ means [z] (fun M => C (Φ M) (Ψ M)))
    (zs : list zexpr) (l : list X) (Φ : X -> Model -> Prop) : Forall2 (fun z a => means [z] (Φ a)) zs l -> forall z0 Φ0, means [z0] Φ0 ->
  exists z, fold_list op z0 zs = Ok z /\ means [z] (fun M => foldl (fun P a => C P (Φ a M)) (Φ0 M) l).
Proof using Type.
  induction 1 as [|z a zs l Ha _ IH]; intros z0 Φ0 H0; [by exists z0|].
  destruct (Hop z0 z _ _ H0 Ha) as (z1 & E & H1). cbn. rewrite E. cbn. by apply (IH z1 (fun M => C (Φ0 M) (Φ a M))).
Qed.
Lemma forall_means zs (l : list X) Φ : Forall2 (fun z a => means [z] (Φ a)) zs l ->
  exists z, Z3ForallList zs = Ok z /\ means [z] (fun M => forall a, a ∈ l -> Φ a M).
Proof using Type.
  intros [|z a zs' l' Ha Hl].
  { eexists. split; [done|]. eapply means_iff; [|exact LegacyBmc.true_means]. intros M _. split; [by intros _ a ?%elem_of_nil|done]. }
  destruct (fold_list_means zand and) with (zs := zs') (l := l') (Φ := Φ) (z0 := z) (Φ0 := Φ a) as (r & E & Hr); [|done..|].
  { intros. by apply zand_means. }
  exists r. split; [done|]. eapply means_iff; [|exact Hr]. intros M _. cbn beta. clear.
  setoid_rewrite elem_of_cons. revert a. assert (H : forall P, foldl (fun P a => P /\ Φ a M) P l' <-> P /\ forall b, b ∈ l' -> Φ b M).
  { induction l' as [|b l' IH]; intros P; cbn; [split; [split; [done|by intros ? ?%elem_of_nil]|tauto]|].
    rewrite IH. setoid_rewrite elem_of_cons. naive_solver. }
  intros a. rewrite H. naive_solver.
Qed.
Lemma exists_means zs (l : list X) Φ : Forall2 (fun z a => means [z] (Φ a)) zs l ->
  exists z, Z3ExistsList zs = Ok z /\ means [z] (fun M => exists a, a ∈ l /\ Φ a M).
Proof using Type.
  intros [|z a zs' l' Ha Hl].
  { destruct (z_bool_val_law false) as [Ht Hv]. eexists. split; [done|]. split; [by apply Forall_singleton|].
    intros M _. rewrite Forall_singleton, Hv. split; [done|]. by intros (a & ?%elem_of_nil & _). }
  destruct (fold_list_means zor or) with (zs := zs') (l := l') (Φ := Φ) (z0 := z) (Φ0 := Φ a) as (r & E & Hr); [|done..|].
  { intros. by apply zor_means. }
  exists r. split; [done|]. eapply means_iff; [|exact Hr]. intros M _. cbn beta. clear.
  setoid_rewrite elem_of_cons. revert a. assert (H : forall P, foldl (fun P a => P \/ Φ a M) P l' <-> P \/ exists b, b ∈ l' /\ Φ b M).
  { induction l' as [|b l' IH]; intros P; cbn; [split; [by left|by intros [?|(? & ?%elem_of_nil & _)]]|].
    rewrite IH. setoid_rewrite elem_of_cons. naive_solver. }
  intros a. rewrite H. naive_solver.
Qed.

Lemma forall_yields (f : X -> MM (option zexpr)) P Φ l : Forall (fun a => emits (f a) (P a) (Φ a)) l ->
  yields I (forall_list (collect f l)) (fun M => forall a, a ∈ l -> P a -> Φ a M).
Proof using Type.
  intros Hl s Hs. eapply returns_bind; [by apply collect_terms_run|]. intros zs s' (H1 & l' & H2 & H3).
  destruct (forall_means _ _ _ H2) as (z & E & Hz). rewrite E. exists z, s'. split; [done|]. split; [done|].
  eapply means_iff; [|exact Hz]. intros M _. cbn beta. setoid_rewrite H3. naive_solver.
Qed.
Lemma exists_yields (f : X -> MM (option zexpr)) P Φ l : Forall (fun a => emits (f a) (P a) (Φ a)) l ->
  yields I (exists_list (collect f l)) (fun M => exists a, a ∈ l /\ P a /\ Φ a M).
Proof using Type.
  intros Hl s Hs. eapply returns_bind; [by apply collect_terms_run|]. intros zs s' (H1 & l' & H2 & H3).
  destruct (exists_means _ _ _ H2) as (z & E & Hz). rewrite E. exists z, s'. split; [done|]. split; [done|].
  eapply means_iff; [|exact Hz]. intros M _. cbn beta. setoid_rewrite H3. naive_solver.
Qed.
End lists.

(** ** The system that is unrolled *)
Section sys.
Context {Z3 : Z3Api} {LZ : Z3Laws Z3} {TM : Z3Time Z3} {TL : Z3TimeLaws TM} {L : Layout}.
Context (w0 : World) (T0 : gmap objid Expr).
Abbreviation W := (w_ilas w0).
Abbreviation good := (good W T0).

(** The states of an ILA, as the table of their names. *)
Definition state_of (h : objid) (s : string) (v : Expr) : Prop :=
  exists l, W !! h = Some l /\ Ila.find_state l s = Some v.

(** An instruction of [h] that the models can read: a decode function, updates of
    states, and only states of [h] in them. *)
Record instr_fit (h : objid) (x : Instr) (d : Expr) : Prop := {
  if_host : i_host x = Some h;
  if_decode : decode_ x = Some d;
  if_cond : good d /\ Exprs.sort d = SortBool;
  if_update s o : updates_ x !! s = Some o -> exists u v, o = Some u /\ good u /\ state_of h s v /\
    Exprs.sort u = Exprs.sort v;
  if_used v : v ∈ VarUseFinder.used d \/ (exists s u, Instrs.update x s = Some u /\ v ∈ VarUseFinder.used u) ->
    state_of h (Exprs.name v) v }.

(** What an instruction uses: its read set. *)
Definition uses (x : Instr) (d : Expr) (n : string) : Prop :=
  (exists v, v ∈ VarUseFinder.used d /\ Exprs.name v = n) \/
  (exists s u v, Instrs.update x s = Some u /\ v ∈ VarUseFinder.used u /\ Exprs.name v = n).

Lemma update_Some x s u : Instrs.update x s = Some u <-> updates_ x !! s = Some (Some u).
Proof using Type. unfold Instrs.update. destruct (updates_ x !! s) as [[o|]|]; naive_solver. Qed.
Lemma updated_elem x s : s ∈ Instrs.updated_states x <-> is_Some (updates_ x !! s).
Proof using Type. unfold Instrs.updated_states. by rewrite merge_sort_Permutation, elem_of_elements, elem_of_dom. Qed.

Lemma Traverse_instr_run h x d : instr_fit h x d -> exists r, VarUseFinder.Traverse_instr x ∅ = Ok r /\
  forall n, n ∈ r <-> uses x d n.
Proof using Type.
  intros [_ Hd _ Hu _]. unfold VarUseFinder.Traverse_instr. rewrite Hd. cbn [not_null mbind Res_bind].
  enough (H : forall l us, (forall s, s ∈ l -> s ∈ Instrs.updated_states x) ->
    exists r, foldM (fun name uses => u ← not_null (Instrs.update x name); Ok (VarUseFinder.Traverse u uses)) l us = Ok r /\
      forall n, n ∈ r <-> n ∈ us \/ exists s u v, s ∈ l /\ Instrs.update x s = Some u /\ v ∈ VarUseFinder.used u /\ Exprs.name v = n).
  { destruct (H (Instrs.updated_states x) (VarUseFinder.Traverse d ∅)) as (r & E & Hr); [done|]. exists r. split; [exact E|].
    intros n. rewrite Hr, VarUseFinder.Traverse_used. unfold uses. split.
    - intros [[?|?%not_elem_of_empty]|(s & u & v & _ & ?)]; [by left|done|]. right. by exists s, u, v.
    - intros [?|(s & u & v & Hs & ?)]; [by left; left|]. right. exists s, u, v. split; [|done].
      apply updated_elem. apply update_Some in Hs. by eexists. }
  clear Hd d. induction l as [|s l IH]; intros us Hl.
  - exists us. split; [done|]. intros n. split; [by left|]. intros [?|(s & u & v & ?%elem_of_nil & _)]; done.
  - cbn [foldM]. destruct (proj1 (updated_elem x s) (Hl s ltac:(by left))) as [o Ho].
    destruct (Hu s o Ho) as (u & v & -> & _). apply update_Some in Ho. rewrite Ho. cbn [not_null mbind Res_bind].
    destruct (IH (VarUseFinder.Traverse u us)) as (r & E & Hr); [intros; apply Hl; by right|].
    exists r. split; [exact E|]. intros n. rewrite Hr, VarUseFinder.Traverse_used. setoid_rewrite elem_of_cons. naive_solver.
Qed.

(** ** Registered steps

    A step of a program, or the initial step: its number, its record, its ILA,
    its instruction and the decode function. *)
Record Entry := { e_id : N; e_step : TraceStep; e_ila : objid; e_rec : Instr; e_dec : Expr }.
Definition e_pos (e : Entry) : Z := _pos_suffix (e_step e).
Definition writes (e : Entry) (s : string) : Prop := is_Some (updates_ (e_rec e) !! s).
Definition reads (e : Entry) (s : string) : Prop := uses (e_rec e) (e_dec e) s.

(** The shared names, and the global ILA. *)
Context (m0 : MemoryModel).
Abbreviation shared := (m_shared_state_names m0).
Abbreviation global := (m_p_global_ila m0).

Record ila_fit (h : objid) : Prop := {
  il_some : is_Some (W !! h);
  il_state s v : state_of h s v -> good v /\ Exprs.is_var v = true /\ Exprs.name v = s;
  il_shared s v : state_of h s v -> s ∈ shared -> Exprs.is_mem v = false /\
    exists g, state_of global s g /\ Exprs.sort g = Exprs.sort v }.

Record entry_ok (e : Entry) : Prop := {
  eo_type : _type (e_step e) = INST_EVT \/ _type (e_step e) = INIT_EVT;
  eo_inst : exists i, _inst (e_step e) = Some i /\ w_instrs w0 !! i = Some (e_rec e);
  eo_fit : instr_fit (e_ila e) (e_rec e) (e_dec e);
  eo_ila : ila_fit (e_ila e);
  eo_read s : s ∈ _inst_read_set (e_step e) <-> reads e s;
  eo_write s : s ∈ _inst_write_set (e_step e) <-> writes e s }.

(** The environment of a step, and the values it reads and writes. *)
Definition env_at (M : Model) (pos : Z) : Env := env_of W M (pretty pos).
Definition env (M : Model) (e : Entry) : Env := env_at M (e_pos e).
Definition value (M : Model) (e : Entry) (s : string) (x : option val) : Prop :=
  exists v, state_of (e_ila e) s v /\ eval (env M e) v = x.
Definition written (M : Model) (e : Entry) (s : string) (x : option val) : Prop :=
  exists u, Instrs.update (e_rec e) s = Some u /\ eval (env M e) u = x.
Definition decoded (M : Model) (e : Entry) : Prop := holds (env M e) (e_dec e).
Definition time (M : Model) (e : Entry) : Z := t_eval M (timestamp (e_step e)).

Lemma state_of_inj h s v v' : state_of h s v -> state_of h s v' -> v = v'.
Proof using Type. intros (l & ? & ?) (l' & ? & ?). by simplify_eq. Qed.
Lemma accessed_state e s : entry_ok e -> reads e s \/ writes e s -> exists v, state_of (e_ila e) s v.
Proof using Type.
  intros He [Hr|[o Hw]].
  - destruct Hr as [(v & Hv & <-)|(s' & u & v & Hu & Hv & <-)]; exists v;
      apply (if_used _ _ _ (eo_fit e He)); [by left|right; by exists s', u].
  - destruct (if_update _ _ _ (eo_fit e He) s o Hw) as (u & v & _ & _ & Hv & _). by exists v.
Qed.
Lemma accessed_elem e s : entry_ok e -> s ∈ accessed (e_step e) <-> reads e s \/ writes e s.
Proof using Type.
  intros He. unfold accessed, is_facet_tracestep. rewrite bool_decide_eq_false_2.
  - rewrite elem_of_union, (eo_read e He), (eo_write e He). done.
  - by destruct (eo_type e He) as [-> | ->].
Qed.
Lemma written_run e s : entry_ok e -> writes e s -> exists u v, Instrs.update (e_rec e) s = Some u /\ good u /\
  state_of (e_ila e) s v /\ Exprs.sort u = Exprs.sort v.
Proof using Type.
  intros He [o Hw]. destruct (if_update _ _ _ (eo_fit e He) s o Hw) as (u & v & -> & ? & ? & ?).
  exists u, v. split; [by apply update_Some|done].
Qed.

(** ** Calls on registered steps *)
Context (es : list Entry) (Hes : Forall entry_ok es) (HW : IlaOk.ilas_ok W) (Hheap : heap_ok T0 w0).
Abbreviation MM := (ST (World * MemoryModel)).

(** The store and the model while the constraints are made. *)
Record frame (s : World * MemoryModel) : Prop := {
  fr_ilas : w_ilas s.1 = W;
  fr_instrs : w_instrs s.1 = w_instrs w0;
  fr_steps : forall e, e ∈ es -> steps s.2 !! e_id e = Some (e_step e);
  fr_shared : m_shared_state_names s.2 = shared;
  fr_global : m_p_global_ila s.2 = global }.

Lemma entry e : e ∈ es -> entry_ok e.
Proof using Hes. rewrite Forall_forall in Hes. apply Hes. Qed.
Lemma good_accepted e : good e -> ok_expr W e.
Proof using Hheap. intros [H ? ? ?]. split; [|done]. exists T0. by eapply heap_registered. Qed.

Section calls.
Context (I : World * MemoryModel -> Prop) (HI : forall s, I s -> frame s).
Abbreviation yields := (yields I).

(** A call that has a result and changes nothing. *)
Definition gives {A} (m : MM A) (a : A) : Prop := forall s, I s -> m s = Ok (a, s).
Lemma gives_bind {A B} (m : MM A) (k : A -> MM B) a b : gives m a -> gives (k a) b -> gives (m ≫= k) b.
Proof using Type. intros H1 H2 s Hs. cbv [mbind ST_bind]. rewrite H1 by done. by apply H2. Qed.
Lemma gives_ret {A} (a : A) : gives (mret a) a.
Proof using Type. by intros s _. Qed.
Lemma gives_lift {A} r (a : A) : r = Ok a -> gives (lift r) a.
Proof using Type. by intros -> s _. Qed.
Lemma yields_gives {A} (m : MM A) (k : A -> MM zexpr) a Φ : gives m a -> yields (k a) Φ -> yields (m ≫= k) Φ.
Proof using Type. 
  intros H1 H2 s Hs. eapply (returns_bind _ _ _ (fun x s' => x = a /\ s' = s)).
  - exists a, s. by rewrite (H1 s Hs).
  - intros ? ? [-> ->]. by apply H2.
Qed.

Lemma step_gives e : e ∈ es -> gives (step (e_id e)) (e_step e).
Proof using HI. 
  intros He s Hs. unfold step, self, gets, lift. cbv [mbind ST_bind]. by rewrite (fr_steps s (HI s Hs) e He).
Qed.
Lemma not_final e : entry_ok e -> is_final_tracestep (e_step e) = false.
Proof using Type. intros He. apply bool_decide_eq_false_2. by destruct (eo_type e He) as [-> | ->]. Qed.
Lemma not_facet e : entry_ok e -> is_facet_tracestep (e_step e) = false.
Proof using Type. intros He. apply bool_decide_eq_false_2. by destruct (eo_type e He) as [-> | ->]. Qed.
Lemma inst_gives e : e ∈ es -> gives (inst (e_step e)) (e_rec e).
Proof using HI Hes.
  intros He. pose proof (entry e He) as Ho. destruct (eo_inst e Ho) as (i & Hi & Hr). unfold inst.
  apply gives_bind with i.
  - apply gives_lift. unfold inst_of. rewrite not_final by done. by destruct (eo_type e Ho) as [-> | ->]; rewrite Hi.
  - intros [w m] Hs. pose proof (fr_instrs _ (HI _ Hs)) as Hw. cbn in Hw.
    unfold get_instr, on_store, instr_. cbn [fst snd]. by rewrite Hw, Hr.
Qed.
Lemma host_gives e : e ∈ es -> gives (host (e_step e)) (e_ila e).
Proof using HI Hes.
  intros He. unfold host. rewrite not_final by by apply entry.
  eapply gives_bind; [by apply inst_gives|]. apply gives_lift.
  by rewrite (if_host _ _ _ (eo_fit e (entry e He))).
Qed.
Lemma get_ila_gives h l : W !! h = Some l -> gives (get_ila h) l.
Proof using HI. intros Hl s Hs. unfold get_ila, on_store, ila. rewrite (fr_ilas s (HI s Hs)), Hl. by destruct s. Qed.
Lemma host_state_gives e n v : e ∈ es -> state_of (e_ila e) n v -> gives (host_state (e_step e) n) (Some v).
Proof using HI Hes.
  intros He (l & Hl & Hv). eapply gives_bind; [by apply host_gives|].
  eapply gives_bind; [by apply get_ila_gives|]. rewrite Hv. apply gives_ret.
Qed.

(** Terms of a step. *)
Lemma convert_term e pos : ok_expr W e -> makes_term W I (ConvertZ3 e pos) pos e.
Proof using HI HW.
  intros ([T HT] & Hw & Ht) s Hs. destruct (GetExpr_denotes W HW T pos e HT Hw Ht) as (z & E & Hz).
  exists z, s. split; [|done]. unfold ConvertZ3. by rewrite (fr_ilas s (HI s Hs)), E.
Qed.
Lemma convert_on e x : e ∈ es -> ok_expr W x ->
  makes_term W I (ConvertZ3OnThisStep (e_step e) x) (pretty (e_pos e)) x.
Proof using HI HW Hes.
  intros He Hx. unfold ConvertZ3OnThisStep, pos_suffix. rewrite not_final by by apply entry.
  intros s Hs. eapply returns_lift; [reflexivity|]. by apply convert_term.
Qed.
Lemma eq_yields (m1 m2 : MM zexpr) s1 s2 a b (k : zexpr -> MM zexpr) Φ : makes_term W I m1 s1 a -> makes_term W I m2 s2 b ->
  Exprs.sort a = Exprs.sort b ->
  (forall z, means [z] (fun M => eval (env_of W M s1) a = eval (env_of W M s2) b) -> yields (k z) Φ) ->
  yields (x ← m1; y ← m2; z ← lift (zeq x y); k z) Φ.
Proof using Type.
  intros H1 H2 Hs Hk s Hs'. eapply returns_bind; [by apply H1|]. intros x s1' [I1 Dx].
  eapply returns_bind; [by apply H2|]. intros y s2' [I2 Dy].
  destruct (LegacyBmc.zeq_means w0 a b s1 s2 x y Dx Dy Hs) as (z & E & Hz).
  eapply returns_lift; [exact E|]. by apply Hk.
Qed.
Lemma eq_on_yields e a e' b : e ∈ es -> e' ∈ es -> good a -> good b -> Exprs.sort a = Exprs.sort b ->
  yields (eq_on (e_step e) a (e_step e') b) (fun M => eval (env M e) a = eval (env M e') b).
Proof using HI HW Hes Hheap.
  intros He He' Ha Hb Hs s Hi. unfold eq_on.
  eapply returns_bind; [exact (convert_on e a He (good_accepted a Ha) s Hi)|]. intros x s1 [H1 Dx].
  eapply returns_bind; [exact (convert_on e' b He' (good_accepted b Hb) s1 H1)|]. intros y s2 [H2 Dy].
  destruct (LegacyBmc.zeq_means w0 a b _ _ x y Dx Dy Hs) as (z & E & Hz). rewrite E. by exists z, s2.
Qed.
Lemma Decode_yields e : e ∈ es -> yields (Decode (e_step e)) (fun M => decoded M e).
Proof using HI HW Hes Hheap.
  intros He. unfold Decode. rewrite not_final by by apply entry. pose proof (eo_fit e (entry e He)) as Hf.
  eapply yields_gives; [by apply inst_gives|].
  eapply yields_need; [apply (if_decode _ _ _ Hf)|]. destruct (if_cond _ _ _ Hf) as [Hg Hs].
  apply (term_yields (W := W) (I := I) _ (pretty (e_pos e)) (e_dec e)); [by split; [apply good_accepted|]|].
  by apply convert_on, good_accepted.
Qed.
Lemma HB_means e e' : means [HB (e_step e) (e_step e')] (fun M => time M e < time M e').
Proof using TL.
  unfold HB. destruct (t_lt_law (timestamp (e_step e)) (timestamp (e_step e'))) as [H1 H2]. split; [by apply Forall_singleton|].
  intros M HM. rewrite Forall_singleton, H2 by done. unfold time. rewrite <- Z.ltb_lt. split; congruence.
Qed.
End calls.

(** ** The axiom on reads, for sequential consistency *)
Section axioms.
Context (w1 : World) (m1 : MemoryModel) (H1 : frame (w1, m1)).
Context (Hname : forall e, e ∈ es -> str_no "$" (_name (e_step e)) = true).
Context (Hinj : forall e e', e ∈ es -> e' ∈ es -> _name (e_step e) = _name (e_step e') -> e = e').

(** The remembered names of two steps have the shared ones that both access. *)
Definition pair_key (l r : Entry) : string := _name (e_step l) +:+ "$-&-$" +:+ _name (e_step r).
Definition common (l r : Entry) (n : string) : Prop :=
  n ∈ shared /\ (reads l n \/ writes l n) /\ (reads r n \/ writes r n).
Definition cache_ok (c : gmap string (gset string)) : Prop := forall l r S, l ∈ es -> r ∈ es ->
  c !! pair_key l r = Some S -> forall n, common l r n -> n ∈ S.
Definition at_axioms (s : World * MemoryModel) : Prop :=
  s.1 = w1 /\ exists c, s.2 = with_statics m1 (trace_step_seq_no m1) c /\ cache_ok c.
Abbreviation A := at_axioms.

Lemma axioms_frame s : A s -> frame s.
Proof using H1. destruct s as [w m]. cbn. intros (Hw & c & Hm & _). cbn in *. subst. by destruct H1. Qed.
Hint Resolve axioms_frame : core.

Lemma pair_key_inj l r l' r' : l ∈ es -> r ∈ es -> l' ∈ es -> r' ∈ es -> pair_key l r = pair_key l' r' -> l = l' /\ r = r'.
Proof using Hname Hinj.
  intros Hl Hr Hl' Hr' E.
  destruct (str_split "$" _ _ _ _ (Hname l Hl) (Hname l' Hl') E) as [El Er]. cbn in Er. simplify_eq.
  by split; apply Hinj.
Qed.

(** Both steps have the shared state at the same sort. *)
Lemma shared_sort l r n v v' : l ∈ es -> r ∈ es -> n ∈ shared -> state_of (e_ila l) n v -> state_of (e_ila r) n v' ->
  Exprs.sort v = Exprs.sort v' /\ Exprs.is_mem v = false.
Proof using Hes.
  intros Hl Hr Hn Hv Hv'. destruct (il_shared _ (eo_ila l (entry l Hl)) n v Hv Hn) as (Hm & g & Hg & <-).
  destruct (il_shared _ (eo_ila r (entry r Hr)) n v' Hv' Hn) as (_ & g' & Hg' & <-).
  split; [|done]. by rewrite (state_of_inj _ _ _ _ Hg Hg').
Qed.

Lemma same_sort_run l r ns : l ∈ es -> r ∈ es ->
  (forall n, n ∈ ns -> (reads l n \/ writes l n) /\ (reads r n \/ writes r n)) -> forall acc,
  exists S, gives A (foldM (same_sort (e_step l) (e_step r)) ns acc) S /\
    forall n, n ∈ acc \/ (n ∈ ns /\ n ∈ shared) -> n ∈ S.
Proof using All.
  intros Hl Hr. induction ns as [|n ns IH]; intros Hns acc.
  - exists acc. split; [apply gives_ret|]. intros n [?|[?%not_elem_of_nil _]]; done.
  - destruct (Hns n ltac:(by left)) as [Al Ar].
    destruct (accessed_state l n (entry l Hl) Al) as [v Hv], (accessed_state r n (entry r Hr) Ar) as [v' Hv'].
    set (acc' := if decide (Exprs.sort v = Exprs.sort v') then {[ n ]} ∪ acc else acc).
    destruct (IH (fun n' Hn' => Hns n' ltac:(by right)) acc') as (S & HS & HS'). exists S. split.
    + cbn [foldM]. eapply gives_bind; [|exact HS]. unfold same_sort.
      eapply gives_bind; [exact (host_state_gives A axioms_frame l n v Hl Hv)|].
      eapply gives_bind; [exact (host_state_gives A axioms_frame r n v' Hr Hv')|]. cbn [need]. by apply gives_ret.
    + intros n' Hn'. apply HS'. destruct Hn' as [Ha|[[->|Hin]%elem_of_cons Hsh]].
      * left. unfold acc'. case_decide; set_solver.
      * left. unfold acc'. destruct (shared_sort l r n v v' Hl Hr Hsh Hv Hv') as [E _]. rewrite decide_True by done. set_solver.
      * by right.
Qed.

Lemma SanityCheck_run l r n s : l ∈ es -> r ∈ es -> common l r n -> A s ->
  returns (SameAddrDataSanityCheck (e_step l) (e_step r) n) s (fun _ s' => A s').
Proof using All.
  intros Hl Hr Hc Hs. pose proof Hs as (Hw & c & Hm & Hok). destruct s as [w m]. cbn in Hw, Hm. subst w m.
  unfold SameAddrDataSanityCheck. fold (pair_key l r).
  eapply (returns_bind _ _ _ (fun x s' => x = with_statics m1 (trace_step_seq_no m1) c /\ s' = (w1, with_statics m1 (trace_step_seq_no m1) c)));
    [eexists _, _; split; [reflexivity|done]|]. intros ? ? [-> ->]. cbn [l_r_names_to_state with_statics].
  destruct (c !! pair_key l r) as [S|] eqn:E.
  - exists (), (w1, with_statics m1 (trace_step_seq_no m1) c). split; [|done].
    unfold lift. by rewrite (bool_decide_eq_true_2 _ (Hok l r S Hl Hr E n Hc)).
  - destruct (same_sort_run l r (Names.iter (accessed (e_step l) ∩ accessed (e_step r))) Hl Hr) with (acc := (∅ : gset string))
      as (S & HS & Hin).
    { intros n'. rewrite Names.iter_elem, elem_of_intersection, !accessed_elem by by apply entry. done. }
    assert (Hall : forall n, common l r n -> n ∈ S).
    { intros n' (Hsh & ? & ?). apply Hin. right. rewrite Names.iter_elem, elem_of_intersection, !accessed_elem by by apply entry. done. }
    eapply (returns_bind _ _ _ (fun x s' => x = S /\ s' = (w1, with_statics m1 (trace_step_seq_no m1) c)));
      [eexists _, _; split; [exact (HS _ Hs)|done]|]. intros ? ? [-> ->].
    eexists (), _. split.
    + unfold set_self, modify, lift. cbv [mbind ST_bind]. cbn [fst snd].
      rewrite (bool_decide_eq_true_2 _ (Hall n Hc)). reflexivity.
    + split; [done|]. exists (<[pair_key l r := S]> c). split; [done|].
      intros l' r' S' Hl' Hr' E'. destruct (decide (pair_key l' r' = pair_key l r)) as [Ek|Hk].
      * apply pair_key_inj in Ek as [-> ->]; [|done..]. rewrite lookup_insert_eq in E'. by simplify_eq.
      * rewrite lookup_insert_ne in E' by done. by apply Hok.
Qed.

Abbreviation yields := (yields A).
Lemma true_yields : yields (mret (z_bool_val true)) (fun _ => True).
Proof using Type. intros s Hs. apply returns_ret. split; [done|]. apply LegacyBmc.true_means. Qed.
Lemma access_run e ty n : e ∈ es -> Access_name (e_step e) ty n = Ok (match ty with
  | READ => bool_decide (n ∈ _inst_read_set (e_step e))
  | WRITE => bool_decide (n ∈ _inst_write_set (e_step e))
  | EITHER => bool_decide (n ∈ _inst_read_set (e_step e)) || bool_decide (n ∈ _inst_write_set (e_step e))
  end).
Proof using Hes. intros He. unfold Access_name. by rewrite not_facet by by apply entry. Qed.

Lemma SameAddress_yields l r n lh rh : l ∈ es -> r ∈ es -> common l r n ->
  yields (SameAddress (e_id l) (e_id r) n lh rh) (fun _ => True).
Proof using All.
  intros Hl Hr Hc. destruct (accessed_state l n (entry l Hl)) as [v Hv]; [apply Hc|].
  unfold SameAddress. eapply yields_gives; [exact (step_gives A axioms_frame l Hl)|].
  eapply yields_gives; [exact (step_gives A axioms_frame r Hr)|].
  eapply (yields_step (I := A) _ _ (fun _ => True)).
  { intros s Hs. eapply returns_impl; [by apply SanityCheck_run|done]. }
  intros _ _. eapply yields_gives; [exact (host_state_gives A axioms_frame l n v Hl Hv)|].
  eapply yields_need; [done|]. destruct (il_shared _ (eo_ila l (entry l Hl)) n v Hv) as [-> _]; [apply Hc|].
  apply true_yields.
Qed.

(** The value that [w] writes to [n] is the one [r] reads. *)
Definition agree (n : string) (w r : Entry) (M : Model) : Prop :=
  exists x, written M w n x /\ value M r n x.

Lemma and_true_yields (m : MM zexpr) Φ : yields m Φ -> yields (z ← m; lift (zand (z_bool_val true) z)) Φ.
Proof using Type.
  intros Hm. eapply term_bind; [exact Hm|]. intros z Hz.
  eapply yields_iff; [|apply (lift_and (I := A) _ _ _ _ LegacyBmc.true_means Hz)]. intros M _. cbn beta. tauto.
Qed.

Lemma SameData_yields w r n : w ∈ es -> r ∈ es -> n ∈ shared -> writes w n -> reads r n ->
  yields (SameData (e_id w) (e_id r) n HINT_WRITE HINT_READ) (agree n w r).
Proof using All.
  intros Hw Hr Hn Ww Rr. assert (Hc : common w r n) by (split; [done|split; [by right|by left]]).
  destruct (written_run w n (entry w Hw) Ww) as (u & vw & Hu & Gu & Sw & Su).
  destruct (accessed_state r n (entry r Hr)) as [v Hv]; [by left|].
  destruct (shared_sort w r n vw v Hw Hr Hn Sw Hv) as [Evs Hm].
  unfold SameData. eapply yields_gives; [exact (step_gives A axioms_frame w Hw)|].
  eapply yields_gives; [exact (step_gives A axioms_frame r Hr)|].
  eapply (yields_step (I := A) _ _ (fun _ => True)).
  { intros s Hs. eapply returns_impl; [by apply SanityCheck_run|done]. }
  intros _ _. eapply yields_gives; [exact (host_state_gives A axioms_frame w n vw Hw Sw)|].
  eapply yields_need; [done|]. intros s Hs.
  eapply (returns_bind _ _ _ (fun x s' => x = s.2 /\ s' = s)); [eexists _, _; split; [reflexivity|done]|]. intros ? ? [-> ->].
  destruct (il_shared _ (eo_ila w (entry w Hw)) n vw Sw Hn) as (_ & g & (lg & Hlg & Hg) & _).
  rewrite (fr_global _ (axioms_frame s Hs)). revert s Hs. change (yields (
    g ← get_ila global;
    if negb (Exprs.is_mem vw) then NonMemVarSameData (e_step w) (e_step r) n HINT_WRITE HINT_READ else
    leftW ← write_data (e_step w) n HINT_WRITE;
    leftR ← reads_of (e_id w) n HINT_WRITE;
    rightW ← write_data (e_step r) n HINT_READ;
    rightR ← reads_of (e_id r) n HINT_READ;
    MemVarSameData leftW leftR rightW rightR (e_step w) (e_step r) (Ila.find_state g n)) (agree n w r)).
  eapply yields_gives; [exact (get_ila_gives A axioms_frame _ _ Hlg)|]. rewrite Hm. cbn [negb]. unfold NonMemVarSameData.
  eapply yields_gives; [exact (host_state_gives A axioms_frame w n vw Hw Sw)|].
  eapply yields_gives; [exact (host_state_gives A axioms_frame r n v Hr Hv)|].
  do 4 (eapply yields_lift; [by apply access_run|]).
  rewrite (bool_decide_eq_true_2 (n ∈ _inst_write_set (e_step w))) by (by apply eo_write; [apply entry|]).
  rewrite (bool_decide_eq_true_2 (n ∈ _inst_read_set (e_step r))) by (by apply eo_read; [apply entry|]).
  replace (bool_decide (HINT_WRITE = HINT_READ)) with false by done.
  replace (bool_decide (HINT_WRITE = HINT_WRITE)) with true by done.
  replace (bool_decide (HINT_READ = HINT_READ)) with true by done.
  replace (bool_decide (HINT_READ = HINT_WRITE)) with false by done.
  cbn [negb]. rewrite !andb_false_r. cbn [andb negb orb].
  destruct (il_state _ (eo_ila r (entry r Hr)) n v Hv) as (Gv & _).
  eapply term_bind; [|intros z Hz].
  - eapply yields_gives; [exact (inst_gives A axioms_frame w Hw)|]. eapply yields_need; [exact Hu|].
    eapply yields_need; [done|]. apply and_true_yields, (eq_on_yields A axioms_frame); [done..|congruence].
  - intros s Hs. apply returns_ret. split; [done|]. eapply means_iff; [|exact Hz].
    intros M _. cbn beta. unfold agree, written, value. rewrite Hu. split.
    + intros E. exists (eval (env M w) u). split; [by exists u|]. by exists v.
    + intros (x & (u' & [= <-] & <-) & v' & Hv' & E). by rewrite (state_of_inj _ _ _ _ Hv Hv').
Qed.

(** *** Steps that write shared states, and steps that read them *)
Context (ws rs : list Entry) (Hws : WRITE_list m1 = e_id <$> ws) (Hrs : READ_list m1 = e_id <$> rs).
Context (Hwe : ws ⊆ es) (Hre : rs ⊆ es) (Hids : NoDup (e_id <$> es)) (Hwn : NoDup ws) (Hrn : NoDup rs).

Lemma id_inj e e' : e ∈ es -> e' ∈ es -> e_id e = e_id e' -> e = e'.
Proof using Hids.
  intros (i & Hi)%list_elem_of_lookup (j & Hj)%list_elem_of_lookup E.
  assert (i = j) as -> by (eapply (NoDup_lookup (e_id <$> es)); [done|by rewrite list_lookup_fmap, Hi|by rewrite list_lookup_fmap, Hj, E]).
  congruence.
Qed.
Lemma iter_ids l : l ⊆ es -> NoDup l -> exists l', step_iter (e_id <$> l) = e_id <$> l' /\ forall e, e ∈ l' <-> e ∈ l.
Proof using Hids.
  intros Hl Hn. assert (Hp : step_iter (e_id <$> l) ≡ₚ e_id <$> l).
  { apply set_order_perm. revert Hn Hl. induction l as [|e l IH]; intros Hn Hl; [constructor|].
    apply NoDup_cons in Hn as [Hin Hn]. cbn. constructor.
    - intros (e' & E & He')%list_elem_of_fmap. apply Hin. enough (e = e') as -> by done.
      apply id_inj; [apply Hl; by left|apply Hl; by right|done].
    - apply IH; [done|]. intros e' He'. apply Hl. by right. }
  apply Permutation_map_inv in Hp as (l' & E & Hp). exists l'. split; [exact E|]. intros e. by rewrite Hp.
Qed.

(** The axiom on one read, and on one writer it may read from. *)
Definition not_between (M : Model) (r w w2 : Entry) : Prop := decoded M w2 -> time M w2 < time M w \/ time M r < time M w2.
Definition from (n : string) (r w : Entry) (M : Model) : Prop :=
  agree n w r M /\ decoded M w /\ time M w < time M r /\
  forall w2, w2 ∈ ws -> w2 <> w /\ w2 <> r /\ writes w2 n -> not_between M r w w2.
Definition rf (M : Model) : Prop := forall n, n ∈ shared -> forall r, r ∈ rs -> reads r n ->
  exists w, w ∈ ws /\ (w <> r /\ writes w n) /\ from n r w M.

Lemma same_name_iff e e' : e ∈ es -> e' ∈ es -> same_name (e_step e) (e_step e') = true <-> e = e'.
Proof using Hinj. intros He He'. unfold same_name. rewrite String.eqb_eq. split; [by apply Hinj|by intros ->]. Qed.
Lemma self_yields (k : MemoryModel -> MM zexpr) Φ :
  (forall m, WRITE_list m = WRITE_list m1 -> READ_list m = READ_list m1 -> m_shared_state_names m = shared -> yields (k m) Φ) ->
  yields (self ≫= k) Φ.
Proof using H1.
  intros Hk s Hs. eapply (returns_bind _ _ _ (fun x s' => x = s.2 /\ s' = s)); [eexists _, _; split; [reflexivity|done]|].
  intros ? ? [-> ->]. pose proof Hs as (_ & c & Hm & _). apply Hk; [by rewrite Hm..|apply (axioms_frame s Hs)|done].
Qed.
Lemma emits_gives {B} (m : MM B) (k : B -> MM (option zexpr)) b P Φ : gives A m b -> emits A (k b) P Φ -> emits A (m ≫= k) P Φ.
Proof using Type.
  intros Hm Hk s Hs. eapply (returns_bind _ _ _ (fun x s' => x = b /\ s' = s)); [eexists _, _; split; [exact (Hm s Hs)|done]|].
  intros ? ? [-> ->]. by apply Hk.
Qed.
Lemma if_name_emits e e' (k : MM (option zexpr)) P Φ : e ∈ es -> e' ∈ es -> (e = e' -> ~ P) -> (e <> e' -> emits A k P Φ) ->
  emits A (if same_name (e_step e) (e_step e') then skip else k) P Φ.
Proof using Hinj.
  intros He He' H2 H3. pose proof (same_name_iff e e' He He') as H. destruct (same_name _ _).
  - apply emits_skip, H2, H. done.
  - apply H3. intros E%H. done.
Qed.
(** A step that does not access the state is skipped. *)
Lemma if_access_emits e ty n (k : MM (option zexpr)) (Q P : Prop) Φ : e ∈ es ->
  match ty with READ => reads e n <-> Q | WRITE => writes e n <-> Q | EITHER => False end ->
  (~ Q -> ~ P) -> (Q -> emits A k P Φ) ->
  emits A (acc ← lift (Access_name (e_step e) ty n); if negb acc then skip else k) P Φ.
Proof using Hes.
  intros He HQ H2 H3. assert (E : exists b, Access_name (e_step e) ty n = Ok b /\ (b = true <-> Q)).
  { eexists. split; [by apply access_run|]. destruct ty; [| |done]; rewrite bool_decide_eq_true.
    - by rewrite (eo_read e (entry e He)).
    - by rewrite (eo_write e (entry e He)). }
  destruct E as (b & E & Hb). eapply emits_gives; [apply gives_lift, E|].
  destruct b; cbn [negb].
  - apply H3, Hb. done.
  - apply emits_skip, H2. intros HQ'%Hb. done.
Qed.
Lemma HB_yields e e' : yields (mret (HB (e_step e) (e_step e'))) (fun M => time M e < time M e').
Proof using TL. intros s Hs. apply returns_ret. split; [done|]. apply HB_means. Qed.
Lemma HB_gives (e e' : Entry) f : e ∈ es -> e' ∈ es -> f = (fun p q => x ← step p; y ← step q; mret (HB x y)) ->
  yields (f (e_id e) (e_id e')) (fun M => time M e < time M e').
Proof using H1 Hes TL.
  intros He He' ->. eapply yields_gives; [exact (step_gives A axioms_frame e He)|].
  eapply yields_gives; [exact (step_gives A axioms_frame e' He')|]. apply HB_yields.
Qed.
Lemma imply_yields (m : MM zexpr) Φ : yields m Φ -> yields (imply_true m) Φ.
Proof using Type.
  intros Hm. unfold imply_true. eapply term_bind; [exact Hm|]. intros z Hz.
  eapply yields_iff; [|apply (lift_implies (I := A) _ _ _ _ LegacyBmc.true_means Hz)]. intros M _. cbn beta. tauto.
Qed.

Lemma no_writer_between_emits n r w w2 : n ∈ shared -> r ∈ es -> reads r n -> w ∈ es -> w2 ∈ es ->
  emits A (no_writer_between Sc.CO Sc.FR n (e_id r) (e_id w) (e_id w2)) (w2 <> w /\ w2 <> r /\ writes w2 n)
    (fun M => not_between M r w w2).
Proof using All.
  intros Hn Hr Rr Hw Hw2. unfold no_writer_between.
  eapply emits_gives; [exact (step_gives A axioms_frame r Hr)|].
  eapply emits_gives; [exact (step_gives A axioms_frame w Hw)|].
  eapply emits_gives; [exact (step_gives A axioms_frame w2 Hw2)|].
  apply if_name_emits; [done..|tauto|]. intros N1. apply if_name_emits; [done..|tauto|]. intros N2.
  apply if_access_emits with (Q := writes w2 n); [done..|tauto|]. intros Ww. apply emits_emit; [done|]. apply imply_yields.
  eapply term_bind; [apply SameAddress_yields; [done..|split; [done|split; [by left|by right]]]|]. intros a Ha.
  eapply term_bind; [by apply (Decode_yields A axioms_frame)|]. intros d Hd.
  eapply term_bind; [by apply lift_and|]. intros c Hc.
  eapply term_bind; [by apply HB_gives|]. intros co Hco. eapply term_bind; [by apply HB_gives|]. intros fr Hfr.
  eapply term_bind; [by apply lift_or|]. intros o Ho.
  eapply yields_iff; [|by apply lift_implies]. intros M _. cbn beta. unfold not_between. tauto.
Qed.

Lemma collect_ids {X} (f : X -> MM (option zexpr)) (g : Entry -> X) l : collect f (g <$> l) = collect (fun e => f (g e)) l.
Proof using Type.
  unfold collect. generalize (@nil zexpr). intros zs. f_equal. revert zs.
  enough (H : forall h : X -> list zexpr -> MM (list zexpr), foldM h (g <$> l) = foldM (fun e => h (g e)) l) by (intros; by rewrite H).
  intros h. induction l as [|e l IH]; [done|]. cbn [fmap list_fmap foldM]. by rewrite IH.
Qed.

Lemma reads_from_emits n r w : n ∈ shared -> r ∈ es -> reads r n -> w ∈ es ->
  emits A (reads_from Sc.RF Sc.CO Sc.FR n (e_id r) (e_id w)) (w <> r /\ writes w n) (from n r w).
Proof using All.
  intros Hn Hr Rr Hw. unfold reads_from.
  eapply emits_gives; [exact (step_gives A axioms_frame r Hr)|].
  eapply emits_gives; [exact (step_gives A axioms_frame w Hw)|].
  apply if_name_emits; [done..|tauto|]. intros N1.
  apply if_access_emits with (Q := writes w n); [done..|tauto|]. intros Ww.
  intros s Hs. eapply (returns_bind _ _ _ (fun x s' => WRITE_list x = WRITE_list m1 /\ s' = s)).
  { eexists _, _. split; [reflexivity|]. split; [|done]. by destruct Hs as (_ & c & -> & _). }
  intros m ? [Em ->]. rewrite Em, Hws. destruct (iter_ids ws Hwe Hwn) as (ws' & -> & Hws'). rewrite collect_ids.
  eapply returns_bind; [apply forall_yields; [|exact Hs]|].
  { apply Forall_forall. intros w2 Hin. apply no_writer_between_emits; [done..|]. by apply Hwe, Hws'. }
  intros var5 s1 [I1 H5]. revert s1 I1. apply (emits_emit A (w <> r /\ writes w n)); [done|]. apply and_true_yields.
  eapply term_bind; [apply SameAddress_yields; [done..|split; [done|split; [by right|by left]]]|]. intros a Ha.
  eapply term_bind; [by apply SameData_yields|]. intros d Hd.
  eapply term_bind; [by apply lift_and|]. intros z1 Hz1.
  eapply term_bind; [by apply (Decode_yields A axioms_frame)|]. intros dec Hdec.
  eapply term_bind; [by apply lift_and|]. intros z2 Hz2.
  eapply term_bind; [by apply HB_gives|]. intros rf_ Hrf. eapply term_bind; [by apply lift_and|]. intros z3 Hz3.
  eapply yields_iff; [|by apply lift_and]. intros M _. cbn beta. unfold from. setoid_rewrite Hws'. tauto.
Qed.

Lemma read_axiom_emits n r : n ∈ shared -> r ∈ es ->
  emits A (read_axiom Sc.RF Sc.CO Sc.FR n (e_id r)) (reads r n)
    (fun M => exists w, w ∈ ws /\ (w <> r /\ writes w n) /\ from n r w M).
Proof using All.
  intros Hn Hr. unfold read_axiom. eapply emits_gives; [exact (step_gives A axioms_frame r Hr)|].
  apply if_access_emits with (Q := reads r n); [done..|]. intros Rr.
  intros s Hs. eapply (returns_bind _ _ _ (fun x s' => WRITE_list x = WRITE_list m1 /\ s' = s)).
  { eexists _, _. split; [reflexivity|]. split; [|done]. by destruct Hs as (_ & c & -> & _). }
  intros m ? [Em ->]. rewrite Em, Hws. destruct (iter_ids ws Hwe Hwn) as (ws' & -> & Hws'). rewrite collect_ids.
  revert s Hs. apply emits_emit; [done|]. apply imply_yields.
  eapply yields_iff; [|apply (exists_yields A _ (fun w => w <> r /\ writes w n) (fun w => from n r w))].
  - intros M _. cbn beta. by setoid_rewrite Hws'.
  - apply Forall_forall. intros w Hin. apply reads_from_emits; [done..|]. by apply Hwe, Hws'.
Qed.

Lemma AXIOM_yields s : A s -> returns (AXIOM_RF_CO_FR Sc.RF Sc.CO Sc.FR) s (fun _ s' => exists z c,
  s' = (w1, with_constr (with_statics m1 (trace_step_seq_no m1) c) (_constr m1 ++ [z])) /\ means [z] rf).
Proof using All.
  intros Hs. unfold AXIOM_RF_CO_FR.
  eapply (returns_bind _ _ _ (fun x s' => m_shared_state_names x = shared /\ s' = s)).
  { eexists _, _. split; [reflexivity|]. split; [|done]. apply (axioms_frame s Hs). }
  intros m ? [Em ->]. rewrite Em.
  eapply returns_bind; [apply (forall_yields A _ (fun _ => True) (fun n M => forall r, r ∈ rs -> reads r n ->
    exists w, w ∈ ws /\ (w <> r /\ writes w n) /\ from n r w M)); [|exact Hs]|].
  { apply Forall_forall. intros n Hn%Names.iter_elem. clear s Hs m Em. intros s Hs.
    eapply (returns_bind _ _ _ (fun x s' => READ_list x = READ_list m1 /\ s' = s)).
    { eexists _, _. split; [reflexivity|]. split; [|done]. by destruct Hs as (_ & c & -> & _). }
    intros m ? [Em ->]. rewrite Em, Hrs. destruct (iter_ids rs Hre Hrn) as (rs' & -> & Hrs'). rewrite collect_ids.
    revert s Hs. apply emits_emit; [done|]. eapply yields_iff; [|apply (forall_yields A _ (fun r => reads r n)
      (fun r M => exists w, w ∈ ws /\ (w <> r /\ writes w n) /\ from n r w M))].
    - intros M _. cbn beta. setoid_rewrite Hrs'. done.
    - apply Forall_forall. intros r Hin. apply read_axiom_emits; [done|]. by apply Hre, Hrs'. }
  intros z s1 [I1 Hz]. destruct I1 as (Ew & c & Em' & _). destruct s1 as [w1' m1']. cbn in Ew, Em'. subst.
  eexists (), _. split; [reflexivity|]. exists z, c. split; [done|]. eapply means_iff; [|exact Hz].
  intros M _. cbn beta. unfold rf. setoid_rewrite Names.iter_elem. naive_solver.
Qed.
End axioms.
End sys.
