(* ===== verification/McmLink.v ===== *)
(** * What the constraints on private states say

    [SetLocalState] in program order: each step reads the last value that its
    program gave to a private state, and the final state has the last values. *)
From S2P Require Import Prelude Sort Values Container Expr Smt Solver World Z3Expr ExprOp AstHub Collect Unroller UnrollerSpec Rewrite SolverPasses SolverPassesSpec MonoSpec Bmc TermSpec McmAst Mcm McmSpec.
Local Open Scope Z_scope.

Section link.
Context {Z3 : Z3Api} {LZ : Z3Laws Z3} {TM : Z3Time Z3} {TL : Z3TimeLaws TM} {L : Layout}.
Context (w0 : World) (T0 : gmap objid Expr) (m0 : MemoryModel).
Context (es : list Entry) (Hes : Forall (entry_ok w0 T0 m0) es).
Abbreviation W := (w_ilas w0).
Context (HW : IlaOk.ilas_ok W) (Hheap : heap_ok T0 w0).
Abbreviation MM := (ST (World * MemoryModel)).
Abbreviation stage := (MonoOk.stage w0 T0).

(** ** The value of a private state along a program *)
Definition val_at (M : Model) (suffix : string) (h : objid) (s : string) : option val :=
  l ← W !! h; v ← Ila.find_state l s; eval (env_of W M suffix) v.
Definition seen (M : Model) (e : Entry) (s : string) : option val := val_at M (pretty (e_pos e)) (e_ila e) s.
(** What the models keep of a step: the state itself where the step does not
    decode. *)
Definition kept (M : Model) (s : string) (x : option val) (e : Entry) : option val :=
  match Instrs.update (e_rec e) s with
  | None => x
  | Some u => match eval (env w0 M e) (e_dec e) with
              | Some (VBool true) => eval (env w0 M e) u
              | _ => seen M e s
              end
  end.
Definition last_value (M : Model) (h : objid) (pre : list Entry) (s : string) : option val :=
  foldl (kept M s) (val_at M (pretty 0) h s) pre.

Lemma val_at_state M suffix h s v : state_of w0 h s v -> val_at M suffix h s = eval (env_of W M suffix) v.
Proof using Type. intros (l & Hl & Hv). unfold val_at. rewrite Hl. cbn. by rewrite Hv. Qed.

(** ** One program *)
Context (m1 : MemoryModel) (H1 : frame w0 m0 es (w0, m1)).
Context (h : objid) (lh : InstrLvlAbs) (Hlh : W !! h = Some lh) (priv : gset string).
Context (Hfit : ila_fit w0 T0 m0 h) (Hpriv : forall s, s ∈ priv -> is_Some (Ila.find_state lh s)).

Definition private_read (M : Model) (pre : list Entry) (e : Entry) (s : string) : Prop := seen M e s = last_value M h pre s.
Definition link_ok (M : Model) (pre : list Entry) (e : Entry) : Prop :=
  (forall s, s ∈ priv -> reads e s -> private_read M pre e s) /\
  match last pre with Some q => time M q < time M e | None => True end.
Fixpoint links (M : Model) (pre prog : list Entry) : Prop :=
  match prog with [] => True | e :: prog => link_ok M pre e /\ links M (pre ++ [e]) prog end.
Definition final_ok (M : Model) (prog : list Entry) : Prop :=
  forall s, s ∈ priv -> val_at M FINAL_STEP_SUFFIX h s = last_value M h prog s.

(** The store and the model while the constraints are made. *)
Definition at_links (s : World * MemoryModel) : Prop := (exists T, stage T s.1) /\ exists zs, s.2 = with_constr m1 zs.
Lemma links_frame s : at_links s -> frame w0 m0 es s.
Proof using H1.
  destruct s as [w m]. intros [[T HT] [zs Hm]]. cbn in *. subst. destruct H1. split; cbn in *; try done.
  - apply (grows_ilas _ _ _ _ HT).
  - apply (grows_instrs _ _ _ _ HT).
Qed.
Definition has_constr (T : gmap objid Expr) (Φ : Model -> Prop) (s : World * MemoryModel) : Prop :=
  stage T s.1 /\ exists zs, s.2 = with_constr m1 zs /\ means zs Φ.
Lemma has_at T Φ s : has_constr T Φ s -> at_links s.
Proof using Type. intros (H & zs & E & _). split; [by exists T|by exists zs]. Qed.
Lemma has_iff T Φ Ψ s : (forall M, model_ok M -> Φ M <-> Ψ M) -> has_constr T Φ s -> has_constr T Ψ s.
Proof using Type. intros H (? & zs & ? & ?). split; [done|]. exists zs. split; [done|]. by eapply means_iff. Qed.

Lemma push_run z T Φ Ψ s : has_constr T Φ s -> means [z] Ψ ->
  returns (push z) s (fun _ s' => has_constr T (fun M => Φ M /\ Ψ M) s').
Proof using Type.
  destruct s as [w m]. intros (Hst & zs & Em & Hzs) Hz. cbn in Em, Hst. subst. eexists (), _. split; [reflexivity|].
  split; [done|]. exists (zs ++ [z]). split; [done|]. by apply means_app.
Qed.

(** A loop that adds a constraint for each element. *)
Lemma push_loop {X} (f : X -> unit -> MM unit) (Ψ : X -> Model -> Prop) T l :
  (forall a, a ∈ l -> forall Φ s, has_constr T Φ s -> returns (f a ()) s (fun _ s' => has_constr T (fun M => Φ M /\ Ψ a M) s')) ->
  forall Φ s, has_constr T Φ s -> returns (foldM f l ()) s (fun _ s' => has_constr T (fun M => Φ M /\ forall a, a ∈ l -> Ψ a M) s').
Proof using Type.
  induction l as [|a l IH]; intros Hf Φ s Hs.
  - apply returns_ret. eapply has_iff; [|exact Hs]. intros M _. cbn beta. split; [intros; split; [done|by intros ? ?%elem_of_nil]|tauto].
  - cbn [foldM]. eapply returns_bind; [apply Hf; [by left|exact Hs]|]. intros [] s1 H2.
    eapply returns_impl; [apply IH; [|exact H2]; intros; apply Hf; [by right|done]|]. intros [] s' H3.
    eapply has_iff; [|exact H3]. intros M _. cbn beta. setoid_rewrite elem_of_cons. naive_solver.
Qed.

(** The last update of each private state. *)
Definition u_ok (T : gmap objid Expr) (pre : list Entry) (u : gmap string (Expr * Z)) : Prop := forall s, s ∈ priv ->
  exists x pos v, u !! s = Some (x, pos) /\ good W T x /\ state_of w0 h s v /\ Exprs.sort x = Exprs.sort v /\
    forall M, model_ok M -> eval (env_at w0 M pos) x = last_value M h pre s.

Lemma priv_state s : s ∈ priv -> exists v, state_of w0 h s v /\ Ila.find_state lh s = Some v /\ good W T0 v.
Proof using Hfit Hpriv Hlh.
  intros [v Hv]%Hpriv. assert (Hst : state_of w0 h s v) by (by exists lh). exists v. split; [done|]. split; [done|].
  by apply (il_state _ _ _ _ Hfit s).
Qed.

Lemma link_eq_run T Φ s (m : MM zexpr) suffix v x pos Ψ :
  has_constr T Φ s -> makes_term W at_links m suffix v -> good W T x -> Exprs.sort v = Exprs.sort x ->
  (forall s' z, m s = Ok (z, s') -> s' = s) ->
  (forall M, model_ok M -> eval (env_of W M suffix) v = eval (env_at w0 M pos) x <-> Ψ M) ->
  returns (a ← m; b ← ConvertZ3 x (pretty pos); z ← lift (zeq a b); push z) s
    (fun _ s' => has_constr T (fun M => Φ M /\ Ψ M) s').
Proof using H1 HW.
  intros Hs Hm Hx Hsort Hstay HΨ. destruct (Hm s (has_at _ _ _ Hs)) as (a & s' & E & _ & Da).
  rewrite (Hstay _ _ E) in E. eapply (returns_bind _ _ _ (fun y s' => y = a /\ s' = s)); [by exists a, s|].
  intros ? ? [-> ->]. assert (Hok : ok_expr W x) by (eapply MonoOk.good_ok; [apply Hs|done]).
  destruct (convert_term w0 m0 es HW at_links links_frame x (pretty pos) Hok s (has_at _ _ _ Hs)) as (b & s1 & E1 & _ & Db).
  assert (s1 = s) as ->. { unfold ConvertZ3 in E1. destruct (GetExpr _ _ _); cbn in E1; by simplify_eq. }
  eapply (returns_bind _ _ _ (fun y s' => y = b /\ s' = s)); [by exists b, s|]. intros ? ? [-> ->].
  destruct (LegacyBmc.zeq_means w0 v x _ _ a b Da Db Hsort) as (z & Ez & Hz).
  eapply returns_lift; [exact Ez|]. apply push_run; [done|]. eapply means_iff; [|exact Hz]. intros M HM. by apply HΨ.
Qed.

Lemma ConvertZ3_stay e suffix s z s' : ConvertZ3 e suffix s = Ok (z, s') -> s' = s.
Proof using Type. unfold ConvertZ3. destruct (GetExpr _ _ _); cbn; intros E; by simplify_eq. Qed.
Lemma need_state_gives n v : Ila.find_state lh n = Some v -> gives at_links (need_state lh n) v.
Proof using Type. intros E. unfold need_state, need. rewrite E. by intros s _. Qed.

Lemma link_read_run T e pre u n Φ s : e ∈ es -> e_ila e = h -> u_ok T pre u -> n ∈ priv -> has_constr T Φ s ->
  returns (link_read lh (e_step e) u n ()) s (fun _ s' => has_constr T (fun M => Φ M /\ private_read M pre e n) s').
Proof using All.
  intros He Hh Hu Hn Hs. destruct (Hu n Hn) as (x & pos & v & Eu & Gx & Sv & Ss & Ev).
  destruct (priv_state n Hn) as (v' & Sv' & Fv & Gv). assert (v' = v) as -> by by eapply state_of_inj.
  unfold link_read. eapply returns_lift; [by rewrite Eu|]. cbn beta iota.
  eapply (returns_bind _ _ _ (fun y s' => y = v /\ s' = s)).
  { exists v, s. split; [|done]. by apply (need_state_gives n v Fv s (has_at _ _ _ Hs)). }
  intros ? ? [-> ->]. apply (link_eq_run T Φ s _ (pretty (e_pos e)) v x pos (fun M => private_read M pre e n)); [done| |done|done| |].
  - by apply (convert_on w0 T0 m0 es Hes HW at_links links_frame e v He), (good_accepted w0 T0 Hheap).
  - intros s' z. unfold ConvertZ3OnThisStep, pos_suffix. rewrite (not_final w0 T0 m0) by by apply (entry w0 T0 m0 es).
    apply ConvertZ3_stay.
  - intros M HM. unfold private_read, seen. rewrite Hh, (val_at_state M _ h n v Sv), Ev by done. done.
Qed.

(** A write extends the table by a conditional update. *)
Lemma link_write_run T e pre u n Φ s : e ∈ es -> e_ila e = h -> writes e n -> n ∈ priv -> has_constr T Φ s ->
  returns (link_write (e_step e) n u) s (fun u' s' => exists T' x, has_constr T' Φ s' /\ T ⊆ T' /\
    u' = <[n := (x, e_pos e)]> u /\ good W T' x /\ (exists v, state_of w0 h n v /\ Exprs.sort x = Exprs.sort v) /\
    forall M, model_ok M -> eval (env w0 M e) x = kept M n (last_value M h pre n) e).
Proof using All.
  intros He Hh Hw Hn Hs. pose proof (entry w0 T0 m0 es Hes e He) as Ho. pose proof (eo_fit w0 T0 m0 e Ho) as Hf.
  destruct (written_run w0 T0 m0 e n Ho Hw) as (g & v & Eg & Gg & Sv & Ss). rewrite Hh in Sv.
  destruct (priv_state n Hn) as (v' & Sv' & Fv & Gv). assert (v' = v) as -> by by eapply state_of_inj.
  unfold link_write. pose proof (has_at _ _ _ Hs) as Hl.
  eapply (returns_bind _ _ _ (fun y s' => y = e_rec e /\ s' = s)); [exists (e_rec e), s; split; [|done]; by apply (inst_gives w0 T0 m0 es Hes at_links links_frame e He)|].
  intros ? ? [-> ->]. eapply returns_lift; [by rewrite (if_decode _ _ _ _ _ Hf)|]. eapply returns_lift; [by rewrite Eg|].
  eapply (returns_bind _ _ _ (fun y s' => y = Some v /\ s' = s)).
  { exists (Some v), s. split; [|done]. apply (host_state_gives w0 T0 m0 es Hes at_links links_frame e n v He); [by rewrite Hh|done]. }
  intros ? ? [-> ->]. eapply returns_lift; [reflexivity|]. destruct (if_cond _ _ _ _ _ Hf) as [Gd Sd].
  pose proof Hs as (Hst & zs & Em & Hzs). pose proof (grows_ilas _ _ _ _ Hst) as Ew.
  assert (Hgood : forall a, good W T0 a -> good (w_ilas s.1) T a).
  { intros a Ga. eapply MonoOk.stage_good; [exact Hst|]. eapply MonoOk.good_mono; [apply Hst|done]. }
  destruct (makes_op (fun _ => True) T s.1 kIfThenElse [e_dec e; g; v] [] (ExprOps.ExprOpIte (e_dec e) g v) (Exprs.sort v))
    as (x & w' & T' & Ex & Hg & Gx & Sx & _ & Vx); [by apply (grows_ok _ _ _ _ Hst)| |done|done|done| |].
  { repeat apply Forall_cons_2; try apply Forall_nil_2; by apply Hgood. }
  { cbn. rewrite Sd, Ss. by rewrite decide_True. }
  eapply (returns_bind _ _ _ (fun y s' => y = x /\ s' = (w', s.2))).
  { exists x, (w', s.2). split; [|done]. unfold on_store, asthub.Ite. by rewrite Ex. }
  intros ? ? [-> ->]. eapply returns_lift; [unfold pos_suffix; by rewrite (not_final w0 T0 m0)|].
  apply returns_ret. exists T', x. pose proof (grows_trans _ _ _ _ _ _ Hst Hg) as Hst'. split; [by split; [|exists zs]|].
  split; [apply (grows_sub _ _ _ _ Hg)|]. split; [done|]. split; [by rewrite (grows_ilas _ _ _ _ Hst') in Gx|].
  split; [by exists v|]. intros M HM. unfold env. rewrite Vx by by apply env_of_ok.
  unfold kept, seen. rewrite Eg, Hh, (val_at_state M _ h n v Sv). cbn.
  destruct (MonoOk.cond_bool w0 T0 (e_dec e) (env_of W M (pretty (e_pos e)))) as (b & Eb & _); [by split|by apply env_of_ok|].
  unfold env, env_at. rewrite Eb. cbn.
  destruct (eval_sound (env_of W M (pretty (e_pos e))) g) as (vg & Evg & _); [by apply env_of_ok|apply Gg|].
  destruct (eval_sound (env_of W M (pretty (e_pos e))) v) as (vv & Evv & _); [by apply env_of_ok|apply Gv|].
  rewrite Evg, Evv. cbn. by destruct b.
Qed.

Lemma last_value_snoc M pre e n : last_value M h (pre ++ [e]) n = kept M n (last_value M h pre n) e.
Proof using Type. unfold last_value. by rewrite foldl_app. Qed.
Lemma kept_same M n x e : ~ writes e n -> kept M n x e = x.
Proof using Type.
  intros Hn. unfold kept, Instrs.update. destruct (updates_ (e_rec e) !! n) eqn:E; [|done].
  destruct Hn. by exists o.
Qed.
Lemma u_ok_mono T T' pre u : T ⊆ T' -> u_ok T pre u -> u_ok T' pre u.
Proof using Type.
  intros Hs Hu n Hn. destruct (Hu n Hn) as (x & pos & v & ? & ? & ?). exists x, pos, v. split; [done|]. split; [|done].
  by eapply MonoOk.good_mono.
Qed.

(** The table while the writes of [e] are added: those in [done] are. *)
Definition u_mid (T : gmap objid Expr) (pre : list Entry) (e : Entry) (done : list string) (u : gmap string (Expr * Z)) : Prop :=
  forall s, s ∈ priv -> exists x pos v, u !! s = Some (x, pos) /\ good W T x /\ state_of w0 h s v /\ Exprs.sort x = Exprs.sort v /\
    forall M, model_ok M -> eval (env_at w0 M pos) x =
      if decide (s ∈ done) then kept M s (last_value M h pre s) e else last_value M h pre s.

Lemma link_writes_run e pre Φ l : e ∈ es -> e_ila e = h -> (forall n, n ∈ l -> writes e n /\ n ∈ priv) ->
  forall done_ T u s, u_mid T pre e done_ u -> has_constr T Φ s -> returns (foldM (link_write (e_step e)) l u) s
    (fun u' s' => exists T', has_constr T' Φ s' /\ u_mid T' pre e (done_ ++ l) u').
Proof using All.
  intros He Hh. induction l as [|n l IH]; intros Hl done_ T u s Hu Hs.
  - apply returns_ret. exists T. by rewrite app_nil_r.
  - cbn [foldM]. destruct (Hl n ltac:(by left)) as [Hw Hn].
    eapply returns_bind; [exact (link_write_run T e pre u n Φ s He Hh Hw Hn Hs)|]. cbn beta.
    intros u1 s1 (T1 & x & H2 & Hsub & -> & Gx & (v & Sv & Ss) & Vx).
    eapply returns_impl; [apply (IH ltac:(intros; apply Hl; by right) (done_ ++ [n]) T1); [|exact H2]|].
    + intros n' Hn'. destruct (decide (n' = n)) as [->|Hne].
      * exists x, (e_pos e), v. rewrite lookup_insert_eq. do 4 (split; [done|]). intros M HM.
        rewrite decide_True by (apply elem_of_app; right; by left). by apply Vx.
      * destruct (Hu n' Hn') as (x' & pos & v' & Eu & Gx' & Sv' & Ss' & Vx'). exists x', pos, v'.
        rewrite lookup_insert_ne by done. split; [done|]. split; [by eapply MonoOk.good_mono|]. do 2 (split; [done|]).
        intros M HM. rewrite Vx' by done. assert (Hin : n' ∈ done_ ++ [n] <-> n' ∈ done_).
        { rewrite elem_of_app, list_elem_of_singleton. tauto. }
        repeat case_decide; tauto.
    + cbn beta. intros u' s' (T' & H3 & Hm). exists T'. split; [done|]. by rewrite <- app_assoc in Hm.
Qed.

Lemma link_step_run e pre prev u T Φ s : e ∈ es -> e_ila e = h -> u_ok T pre u ->
  (forall q, prev = Some q -> q ∈ es) -> has_constr T Φ s ->
  returns (link_step lh priv (Some (e_id e)) (u, Some (e_id (default e prev)))) s (fun x s' => exists T',
    has_constr T' (fun M => Φ M /\ (forall n, n ∈ priv -> reads e n -> private_read M pre e n) /\
      match prev with Some q => e_id q <> e_id e -> time M q < time M e | None => True end) s' /\
    u_ok T' (pre ++ [e]) x.1 /\ x.2 = Some (e_id e)).
Proof using All.
  intros He Hh Hu Hprev Hs. pose proof (entry w0 T0 m0 es Hes e He) as Ho. unfold link_step.
  eapply returns_lift; [reflexivity|]. pose proof (has_at _ _ _ Hs) as Hl.
  eapply (returns_bind _ _ _ (fun y s' => y = e_step e /\ s' = s)); [exists (e_step e), s; split; [|done]; by apply (step_gives w0 m0 es at_links links_frame e He)|].
  intros ? ? [-> ->].
  eapply returns_bind; [apply (push_loop _ (fun n M => private_read M pre e n) T)|].
  2:exact Hs.
  { intros n Hn%Names.iter_elem Φ' s' Hs'. apply elem_of_intersection in Hn as [_ Hn]. by apply link_read_run. }
  cbn beta. intros [] s1 H2.
  eapply returns_bind; [eapply (link_writes_run e pre _ (Names.iter (_inst_write_set (e_step e) ∩ priv))) with (done_ := []) (T := T); [done|done| | |exact H2]|].
  { intros n Hn%Names.iter_elem. rewrite elem_of_intersection in Hn. by rewrite <- (eo_write _ _ _ e Ho). }
  { intros n Hn. destruct (Hu n Hn) as (x & pos & v & ? & ? & ? & ? & Hv). exists x, pos, v. do 4 (split; [done|]).
    intros M HM. rewrite decide_False by apply not_elem_of_nil. by apply Hv. }
  cbn beta. intros u' s2 (T' & H3 & Hm).
  assert (Hu' : u_ok T' (pre ++ [e]) u').
  { intros n Hn. destruct (Hm n Hn) as (x & pos & v & ? & ? & ? & ? & Hv). exists x, pos, v. do 4 (split; [done|]).
    intros M HM. rewrite last_value_snoc, Hv by done. cbn [app]. destruct (decide (n ∈ _)) as [Hin|Hin]; [reflexivity|]. symmetry. apply kept_same.
    intros Hw. apply Hin. cbn [app]. by rewrite Names.iter_elem, elem_of_intersection, (eo_write _ _ _ e Ho). }
  assert (Hr : forall M, (forall n, n ∈ Names.iter (_inst_read_set (e_step e) ∩ priv) -> private_read M pre e n) <->
    forall n, n ∈ priv -> reads e n -> private_read M pre e n).
  { intros M. setoid_rewrite Names.iter_elem. setoid_rewrite elem_of_intersection. setoid_rewrite (eo_read _ _ _ e Ho). naive_solver. }
  destruct prev as [q|]; cbn [default].
  - pose proof (Hprev q eq_refl) as Hq. case_decide as Hd.
    + exists (u', Some (e_id e)), s2. split; [reflexivity|]. exists T'. split; [|done].
      eapply has_iff; [|exact H3]. intros M _. cbn beta. rewrite Hr. naive_solver.
    + eapply (returns_bind _ _ _ (fun _ s' => has_constr T' _ s')).
      { eapply (returns_bind _ _ _ (fun y s' => y = e_step q /\ s' = s2)).
        - exists (e_step q), s2. split; [|done]. by apply (step_gives w0 m0 es at_links links_frame q Hq s2 (has_at _ _ _ H3)).
        - intros ? ? [-> ->]. apply push_run; [exact H3|]. apply HB_means. }
      cbn beta. intros [] s3 H4. apply returns_ret. exists T'. split; [|done].
      eapply has_iff; [|exact H4]. intros M _. cbn beta. rewrite Hr. naive_solver.
  - rewrite decide_True by done. exists (u', Some (e_id e)), s2. split; [reflexivity|]. exists T'. split; [|done].
    eapply has_iff; [|exact H3]. intros M _. cbn beta. rewrite Hr. naive_solver.
Qed.

Lemma links_loop_run prog : prog ⊆ es -> (forall e, e ∈ prog -> e_ila e = h) -> forall pre u T Φ s x0, pre ⊆ es ->
  NoDup (e_id <$> pre ++ prog) -> u_ok T pre u ->
  (forall e prog', prog = e :: prog' -> x0 = Some (e_id (default e (last pre)))) -> has_constr T Φ s ->
  returns (foldM (link_step lh priv) ((fun e => Some (e_id e)) <$> prog) (u, x0)) s
    (fun x s' => exists T', has_constr T' (fun M => Φ M /\ links M pre prog) s' /\ u_ok T' (pre ++ prog) x.1).
Proof using All.
  induction prog as [|e prog IH]; intros Hp Hil pre u T Φ s x0 Hpre Hnd Hu Hx Hs.
  - apply returns_ret. exists T. rewrite app_nil_r. split; [|done]. eapply has_iff; [|exact Hs]. intros M _. cbn. tauto.
  - cbn [fmap list_fmap foldM]. rewrite (Hx e prog eq_refl).
    eapply returns_bind; [apply (link_step_run e pre (last pre) u T Φ s); [apply Hp; by left|apply Hil; by left|done| |done]|].
    { intros q Hq. apply Hpre, last_Some_elem_of. exact Hq. }
    cbn beta. intros [u1 x1] s1 (T1 & H2 & Hu1 & Ex). cbn in Hu1, Ex.
    eapply returns_impl; [apply (IH ltac:(intros a Ha; apply Hp; by right) ltac:(intros a Ha; apply Hil; by right) (pre ++ [e]) u1 T1); [| |done| |exact H2]|].
    + intros a [?| ->%list_elem_of_singleton]%elem_of_app; [by apply Hpre|apply Hp; by left].
    + by rewrite <- app_assoc.
    + intros e' prog' ->. by rewrite last_snoc.
    + cbn beta. intros x s' (T' & H3 & Hu'). exists T'. rewrite <- app_assoc in Hu'. split; [|done].
      eapply has_iff; [|exact H3]. intros M _. cbn beta. cbn [links]. unfold link_ok.
      destruct (last pre) as [q|] eqn:El; [|tauto]. assert (Hne : e_id q <> e_id e); [|tauto].
      apply last_Some in El as [l' ->]. intros E. rewrite <- app_assoc, fmap_app, NoDup_app in Hnd.
      destruct Hnd as (_ & _ & Hnd). cbn in Hnd. apply NoDup_cons in Hnd as [Hnd _]. apply Hnd. rewrite E. by left.
Qed.

Lemma first_update_run s : at_links s -> returns (first_update lh priv) s (fun u s' => s' = s /\ u_ok T0 [] u).
Proof using All.
  intros Hs. unfold first_update.
  enough (H : forall (l : list string) (u : gmap string (Expr * Z)), (forall n, n ∈ l -> n ∈ priv) -> returns (foldM (fun sname u => v ← need_state lh sname; mret (<[sname := (v, 0)]> u)) l u) s
    (fun (u' : gmap string (Expr * Z)) s' => s' = s /\ forall n, if decide (n ∈ l) then exists v, Ila.find_state lh n = Some v /\ u' !! n = Some (v, 0) else u' !! n = u !! n)).
  { eapply returns_impl; [apply H; by intros n ?%Names.iter_elem|]. cbn beta. intros u s' [-> Hu]. split; [done|].
    intros n Hn. specialize (Hu n). rewrite decide_True in Hu by by apply Names.iter_elem. destruct Hu as (v & Fv & Eu).
    destruct (priv_state n Hn) as (v' & Sv & Fv' & Gv). assert (v' = v) as -> by congruence.
    exists v, 0, v. do 4 (split; [done|]). intros M HM. unfold last_value. cbn. by rewrite (val_at_state M _ h n v Sv). }
  induction l as [|n l IH]; intros u Hl.
  - apply returns_ret. split; [done|]. intros n. rewrite decide_False; [done|apply not_elem_of_nil].
  - cbn [foldM]. destruct (priv_state n (Hl n ltac:(by left))) as (v & _ & Fv & _).
    eapply (returns_bind _ _ _ (fun u' s' => u' = <[n := (v, 0)]> u /\ s' = s)).
    { eapply (returns_bind _ _ _ (fun y s' => y = v /\ s' = s)).
      - exists v, s. split; [|done]. by apply (need_state_gives n v Fv s).
      - intros ? ? [-> ->]. by apply returns_ret. }
    intros ? ? [-> ->]. eapply returns_impl; [apply IH; intros; apply Hl; by right|]. cbn beta.
    intros u' s' [-> Hu]. split; [done|]. intros n'. specialize (Hu n').
    destruct (decide (n' ∈ l)) as [Hin|Hin]; [rewrite decide_True by (by right); done|].
    destruct (decide (n' = n)) as [->|Hne].
    + rewrite decide_True by (by left). exists v. split; [done|]. by rewrite Hu, lookup_insert_eq.
    + rewrite decide_False; [by rewrite Hu, lookup_insert_ne|]. by intros [?|?]%elem_of_cons.
Qed.

Lemma link_final_run T prog u n Φ s : u_ok T prog u -> n ∈ priv -> has_constr T Φ s ->
  returns (link_final lh u n ()) s (fun _ s' => has_constr T (fun M => Φ M /\ val_at M FINAL_STEP_SUFFIX h n = last_value M h prog n) s').
Proof using All.
  intros Hu Hn Hs. destruct (Hu n Hn) as (x & pos & v & Eu & Gx & Sv & Ss & Ev).
  destruct (priv_state n Hn) as (v' & Sv' & Fv & Gv). assert (v' = v) as -> by by eapply state_of_inj.
  unfold link_final. eapply returns_lift; [by rewrite Eu|]. cbn beta iota.
  eapply (returns_bind _ _ _ (fun y s' => y = v /\ s' = s)).
  { exists v, s. split; [|done]. by apply (need_state_gives n v Fv s (has_at _ _ _ Hs)). }
  intros ? ? [-> ->]. apply (link_eq_run T Φ s _ FINAL_STEP_SUFFIX v x pos (fun M => val_at M FINAL_STEP_SUFFIX h n = last_value M h prog n)); [done| |done|done| |].
  - by apply (convert_term w0 m0 es HW at_links links_frame), (good_accepted w0 T0 Hheap).
  - intros s' z. apply ConvertZ3_stay.
  - intros M HM. by rewrite (val_at_state M _ h n v Sv), Ev.
Qed.

Lemma link_ordered_run prog T Φ s : prog <> [] -> prog ⊆ es -> (forall e, e ∈ prog -> e_ila e = h) -> NoDup (e_id <$> prog) ->
  has_constr T Φ s -> T0 ⊆ T ->
  returns (link_ordered lh priv ((fun e => Some (e_id e)) <$> prog)) s (fun _ s' => exists T', T0 ⊆ T' /\
    has_constr T' (fun M => Φ M /\ links M [] prog /\ final_ok M prog) s').
Proof using All.
  intros Hne Hp Hil Hnd Hs Hsub. unfold link_ordered.
  eapply returns_bind; [by apply first_update_run; eapply has_at|]. cbn beta. intros u ? [-> Hu].
  destruct prog as [|e prog]; [done|]. eapply returns_lift; [reflexivity|].
  eapply returns_bind; [apply (links_loop_run (e :: prog) Hp Hil [] u T Φ s); [by intros ? ?%elem_of_nil|done|by eapply u_ok_mono| |done]|].
  { intros e' prog' [= -> ->]. reflexivity. }
  cbn beta. intros [u' x'] s1 (T1 & H2 & Hu'). cbn [app fst] in Hu'.
  eapply returns_impl; [apply (push_loop _ (fun n M => val_at M FINAL_STEP_SUFFIX h n = last_value M h (e :: prog) n) T1); [|exact H2]|].
  { intros n Hn%Names.iter_elem Φ' s' Hs'. by apply link_final_run. }
  cbn beta. intros [] s' H3. exists T1. split.
  - destruct H3 as (Hst & _). apply (grows_sub _ _ _ _ Hst).
  - eapply has_iff; [|exact H3]. intros M _. cbn beta. unfold final_ok. setoid_rewrite Names.iter_elem. tauto.
Qed.
End link.

(** ** All programs

    A core: its ILA, the private names and the steps of its program. *)
Section cores.
Context {Z3 : Z3Api} {LZ : Z3Laws Z3} {TM : Z3Time Z3} {TL : Z3TimeLaws TM} {L : Layout}.
Context (w0 : World) (T0 : gmap objid Expr) (m0 : MemoryModel).
Context (es : list Entry) (Hes : Forall (entry_ok w0 T0 m0) es).
Abbreviation W := (w_ilas w0).
Context (HW : IlaOk.ilas_ok W) (Hheap : heap_ok T0 w0).

Record Core := { c_ila : objid; c_rec : InstrLvlAbs; c_priv : gset string; c_prog : list Entry }.
Record core_ok (m : MemoryModel) (c : Core) : Prop := {
  co_rec : W !! c_ila c = Some (c_rec c);
  co_fit : ila_fit w0 T0 m0 (c_ila c);
  co_priv : m_ila_private_state_names m !! l_name (c_rec c) = Some (c_priv c);
  co_state s : s ∈ c_priv c -> is_Some (Ila.find_state (c_rec c) s);
  co_prog : c_prog c <> [];
  co_sub : c_prog c ⊆ es;
  co_ila e : e ∈ c_prog c -> e_ila e = c_ila c;
  co_ids : NoDup (e_id <$> c_prog c) }.
(** What the constraints on private states say of a core. *)
Definition core_runs (M : Model) (c : Core) : Prop :=
  links w0 (c_ila c) (c_priv c) M [] (c_prog c) /\ final_ok w0 (c_ila c) (c_priv c) M (c_prog c).

Context (m1 : MemoryModel) (H1 : frame w0 m0 es (w0, m1)).
Abbreviation has := (has_constr w0 T0 m1).
Abbreviation at_links := (at_links w0 T0 m1).

Lemma local_state_run c T Φ s : core_ok m1 c -> has T Φ s -> T0 ⊆ T ->
  returns (local_state ((fun e => Some (e_id e)) <$> c_prog c, true) ()) s
    (fun _ s' => exists T', T0 ⊆ T' /\ has T' (fun M => Φ M /\ core_runs M c) s').
Proof using All.
  intros Hc Hs Hsub. destruct (c_prog c) as [|e prog] eqn:Ep; [by destruct (co_prog _ _ Hc)|].
  assert (Hin : e ∈ c_prog c) by (rewrite Ep; by left). pose proof (co_sub _ _ Hc e Hin) as He.
  pose proof (co_ila _ _ Hc e Hin) as Hh. pose proof (links_frame w0 T0 m0 es m1 H1) as HI.
  pose proof (has_at w0 T0 m1 _ _ _ Hs) as Hl. unfold local_state. cbn [fmap list_fmap].
  eapply returns_lift; [reflexivity|]. eapply returns_lift; [reflexivity|].
  eapply (returns_bind _ _ _ (fun y s' => y = e_step e /\ s' = s)).
  { exists (e_step e), s. split; [|done]. by apply (step_gives w0 m0 es at_links HI e He). }
  intros ? ? [-> ->]. eapply (returns_bind _ _ _ (fun y s' => y = e_ila e /\ s' = s)).
  { exists (e_ila e), s. split; [|done]. by apply (host_gives w0 T0 m0 es Hes at_links HI e He). }
  intros ? ? [-> ->]. eapply (returns_bind _ _ _ (fun y s' => y = c_rec c /\ s' = s)).
  { exists (c_rec c), s. split; [|done]. apply (get_ila_gives w0 m0 es at_links HI (e_ila e)); [|done]. rewrite Hh. apply Hc. }
  intros ? ? [-> ->]. eapply (returns_bind _ _ _ (fun y s' => y = s.2 /\ s' = s)); [by exists s.2, s|].
  intros ? ? [-> ->]. destruct Hl as (_ & zs & Em).
  eapply returns_lift; [unfold private_of; rewrite Em; cbn; by rewrite (co_priv _ _ Hc)|].
  eapply returns_impl; [apply (link_ordered_run w0 T0 m0 es Hes HW Hheap m1 H1 (c_ila c) (c_rec c) (co_rec _ _ Hc) (c_priv c)
    (co_fit _ _ Hc) (co_state _ _ Hc) (e :: prog) T Φ s); [done| | | |done..]|].
  - rewrite <- Ep. apply Hc.
  - rewrite <- Ep. apply Hc.
  - rewrite <- Ep. apply Hc.
  - cbn beta. intros [] s' H. unfold core_runs. by rewrite Ep.
Qed.

(** [SetLocalState], every program in order. *)
Lemma SetLocalState_run cs Φ : Forall (core_ok m1) cs ->
  _ila_trace_steps m1 = (fun c => (fun e => Some (e_id e)) <$> c_prog c) <$> cs -> means (_constr m1) Φ ->
  returns (SetLocalState (replicate (length cs) true)) (w0, m1)
    (fun _ s' => exists T, has T (fun M => Φ M /\ Forall (core_runs M) cs) s').
Proof using All.
  intros Hcs Hi Hm. unfold SetLocalState.
  eapply (returns_bind _ _ _ (fun y s' => y = m1 /\ s' = (w0, m1))); [by exists m1, (w0, m1)|].
  intros ? ? [-> ->]. rewrite Hi. clear Hi.
  enough (H : forall T s Φ, T0 ⊆ T -> has T Φ s -> returns (foldM local_state (zip ((fun c => (fun e => Some (e_id e)) <$> c_prog c) <$> cs)
    (replicate (length cs) true)) ()) s (fun _ s' => exists T, has T (fun M => Φ M /\ Forall (core_runs M) cs) s')).
  { apply (H T0); [done|]. split; [by apply grows_refl|]. exists (_constr m1). split; [|done]. by destruct m1. }
  clear Hm Φ. induction Hcs as [|c cs Hc _ IH]; intros T s Φ Hsub Hs.
  - apply returns_ret. exists T. eapply has_iff; [|exact Hs]. intros M _. rewrite Forall_nil. tauto.
  - cbn [fmap list_fmap length replicate zip zip_with foldM].
    eapply returns_bind; [by eapply local_state_run|]. cbn beta. intros [] s1 (T1 & Hsub1 & H2).
    eapply returns_impl; [by eapply IH|]. cbn beta. intros [] s' (T' & H3). exists T'.
    eapply has_iff; [|exact H3]. intros M _. cbn beta. rewrite Forall_cons. tauto.
Qed.
End cores.
