(* ===== verification/McmRun.v ===== *)
(** * Sequentially consistent runs

    The machine that sequential consistency describes: one core after the other
    takes a step of its program on a store of shared and private states.  A model
    that satisfies the constraints of [Mcm] is such a run: the steps in the order
    of their time-stamps. *)
From S2P Require Import Prelude Sort Values Container Expr Smt Solver World Z3Expr ExprOp AstHub Collect Unroller UnrollerSpec Rewrite AbsKnobSpec SolverPasses SolverPassesSpec MonoSpec Bmc TermSpec McmAst Mcm McmSpec McmLink.
Local Open Scope Z_scope.

(** ** The machine *)
Inductive Loc := Shared (s : string) | Private (k : nat) (s : string).
#[export] Instance Loc_eq_dec : EqDecision Loc.
Proof. solve_decision. Defined.
Definition Store := Loc -> option val.

Section machine.
Context (w0 : World) (shared : gset string).
Abbreviation W := (w_ilas w0).
Definition loc (k : nat) (s : string) : Loc := if decide (s ∈ shared) then Shared s else Private k s.

(** The variables of an instruction. *)
Definition occurs (x : Instr) (d v : Expr) : Prop :=
  v ∈ vars d \/ exists s u, Instrs.update x s = Some u /\ v ∈ vars u.

(** The store after an instruction on core [k], in the environment [ρ]. *)
Definition assigned (ρ : Env) (x : Instr) (d : Expr) (s : string) (old : option val) : option val :=
  match Instrs.update x s with
  | Some u => match eval ρ d with Some (VBool true) => eval ρ u | _ => old end
  | None => old
  end.
Definition exec (k : nat) (ρ : Env) (x : Instr) (d : Expr) (σ : Store) : Store := fun l =>
  match l with
  | Shared s => if decide (s ∈ shared) then assigned ρ x d s (σ l) else σ l
  | Private k' s => if decide (k' = k /\ s ∉ shared) then assigned ρ x d s (σ l) else σ l
  end.

(** A step: core [k] executes its next instruction, whose variables have the
    values of the store. *)
Inductive sc_step : list (list objid) * Store -> list (list objid) * Store -> Prop :=
  | sc_exec progs σ k i is_ x d ρ :
      progs !! k = Some (i :: is_) -> w_instrs w0 !! i = Some x -> decode_ x = Some d -> env_ok ρ ->
      (forall v, occurs x d v -> eval ρ v = σ (loc k (Exprs.name v))) ->
      sc_step (progs, σ) (<[k := is_]> progs, exec k ρ x d σ).
End machine.

(** ** Merging programs by time *)
Section merge.
Context {A : Type} (t : A -> Z).
Definition earlier (x y : nat * A) : Prop := t x.2 <= t y.2.
#[local] Instance earlier_dec x y : Decision (earlier x y).
Proof using Type. unfold earlier. apply _. Defined.
#[local] Instance earlier_total : Total earlier.
Proof using Type. intros x y. unfold earlier. lia. Qed.
#[local] Instance earlier_trans : Transitive earlier.
Proof using Type. intros x y z. unfold earlier. lia. Qed.

(** The steps of core [k] in an order of all steps. *)
Definition steps_of (k : nat) (l : list (nat * A)) : list A := snd <$> filter (fun p => p.1 = k) l.
Fixpoint tagged (k : nat) (progs : list (list A)) : list (nat * A) :=
  match progs with [] => [] | p :: progs => (pair k <$> p) ++ tagged (S k) progs end.
Definition merge (progs : list (list A)) : list (nat * A) := merge_sort earlier (tagged 0 progs).

Lemma steps_of_app k l l' : steps_of k (l ++ l') = steps_of k l ++ steps_of k l'.
Proof using Type. unfold steps_of. by rewrite filter_app, fmap_app. Qed.
Lemma steps_of_cons k j a l : steps_of k ((j, a) :: l) = if decide (j = k) then a :: steps_of k l else steps_of k l.
Proof using Type. unfold steps_of. rewrite filter_cons. cbn. by case_decide. Qed.

Lemma tagged_steps progs : forall n k, steps_of k (tagged n progs) = if decide (n <= k)%nat then default [] (progs !! (k - n)%nat) else [].
Proof using Type.
  induction progs as [|p progs IH]; intros n k; cbn [tagged].
  - by case_decide.
  - rewrite steps_of_app, IH.
    assert (Hp : steps_of k (pair n <$> p) = if decide (n = k) then p else []).
    { induction p as [|a p IHp]; [by case_decide|]. cbn [fmap list_fmap]. rewrite steps_of_cons, IHp. by case_decide. }
    rewrite Hp. destruct (decide (n = k)) as [->|Hn].
    + rewrite decide_False by lia. rewrite decide_True by lia. by rewrite Nat.sub_diag, app_nil_r.
    + destruct (decide (S n <= k)%nat).
      * rewrite decide_True by lia. by replace (k - n)%nat with (S (k - S n)) by lia.
      * by rewrite decide_False by lia.
Qed.
Lemma tagged_elem progs : forall n k a, (k, a) ∈ tagged n progs <-> (n <= k)%nat /\ exists p, progs !! (k - n)%nat = Some p /\ a ∈ p.
Proof using Type.
  intros n k a. transitivity (a ∈ steps_of k (tagged n progs)).
  - unfold steps_of. rewrite list_elem_of_fmap. setoid_rewrite list_elem_of_filter. split.
    + intros H. by exists (k, a).
    + intros ([j b] & -> & <- & H). exact H.
  - rewrite tagged_steps. case_decide; [|split; [by intros ?%elem_of_nil|lia]].
    destruct (progs !! (k - n)%nat) as [p|] eqn:E; cbn.
    + split; [intros; split; [done|by exists p]|]. by intros (_ & p' & [= <-] & ?).
    + split; [by intros ?%elem_of_nil|]. by intros (_ & p' & ? & _).
Qed.

Lemma steps_of_perm k l l' : l ≡ₚ l' -> steps_of k l ≡ₚ steps_of k l'.
Proof using Type. intros H. unfold steps_of. by rewrite H. Qed.
Lemma merge_steps progs k : (forall p, p ∈ progs -> StronglySorted (fun a b => t a < t b) p) ->
  steps_of k (merge progs) = default [] (progs !! k).
Proof using Type.
  intros Hs. pose proof (tagged_steps progs 0 k) as Ht. rewrite decide_True, Nat.sub_0_r in Ht by lia. rewrite <- Ht.
  set (p := steps_of k (tagged 0 progs)) in *.
  assert (Hp : StronglySorted (fun a b => t a < t b) p).
  { rewrite Ht. destruct (progs !! k) as [q|] eqn:E; cbn; [|constructor]. apply Hs. by eapply list_elem_of_lookup_2. }
  apply (StronglySorted_unique_strong (fun a b => t a <= t b)).
  - clear Ht. intros a b Ha Hb Hab Hba. assert (E : t a = t b) by lia. clear Hab Hba.
    assert (Ha' : a ∈ p). { unfold p. rewrite <- (steps_of_perm k (merge progs)); [done|]. apply merge_sort_Permutation. }
    clearbody p. clear Ha. revert a b Ha' Hb E. induction Hp as [|c l _ IH Hc]; [by intros ?? ?%elem_of_nil|].
    rewrite Forall_forall in Hc. intros a b [->|Ha]%elem_of_cons [->|Hb]%elem_of_cons E; [done|..].
    + specialize (Hc b Hb). lia.
    + specialize (Hc a Ha). lia.
    + by apply IH.
  - unfold steps_of, merge. assert (Hm : StronglySorted earlier (merge_sort earlier (tagged 0 progs))) by (apply StronglySorted_merge_sort; apply _).
    induction Hm as [|[j a] l _ IH Ha]; [constructor|]. rewrite filter_cons. cbn [fst]. case_decide; [|done]. cbn. constructor; [done|].
    rewrite Forall_forall in Ha. apply Forall_forall. intros b ([j' b'] & -> & [_ Hb]%list_elem_of_filter)%list_elem_of_fmap. by apply (Ha (j', b')).
  - clear Ht. induction Hp as [|c l _ IH Hc]; constructor; [done|]. eapply Forall_impl; [exact Hc|]. intros b ?. cbn in *. lia.
  - apply steps_of_perm, merge_sort_Permutation.
Qed.
Lemma merge_sorted progs : StronglySorted earlier (merge progs).
Proof using Type. apply StronglySorted_merge_sort; apply _. Qed.
Lemma merge_elem progs k a : (k, a) ∈ merge progs <-> exists p, progs !! k = Some p /\ a ∈ p.
Proof using Type.
  unfold merge. rewrite merge_sort_Permutation, tagged_elem, Nat.sub_0_r. naive_solver lia.
Qed.
End merge.

(** ** The order of the steps in a model *)
Section run.
Context {Z3 : Z3Api} {LZ : Z3Laws Z3} {TM : Z3Time Z3} {TL : Z3TimeLaws TM} {L : Layout}.
Context (w0 : World) (T0 : gmap objid Expr) (m0 : MemoryModel).
Abbreviation W := (w_ilas w0).
Abbreviation shared := (m_shared_state_names m0).
Abbreviation global := (m_p_global_ila m0).

(** An instruction whose variables are all in its read set (the variable of a
    memory that is only stored to is not), and that always decodes if it writes a
    private state that it does not read: such a state is not linked to its value
    before the step. *)
Record covered (priv : gset string) (x : Instr) (d : Expr) : Prop := {
  cv_used v : occurs x d v -> v ∈ VarUseFinder.used d \/ exists s u, Instrs.update x s = Some u /\ v ∈ VarUseFinder.used u;
  cv_write s : s ∈ priv -> is_Some (updates_ x !! s) -> uses x d s \/ forall ρ, env_ok ρ -> holds ρ d }.

(** The steps are those of the cores and the initial one; the lists of the
    memory model have the ones that access shared states. *)
Record run_ok (es : list Entry) (cs : list Core) (ini : Entry) (ws rs : list Entry) : Prop := {
  ro_es : es = concat (c_prog <$> cs) ++ [ini];
  ro_entries : Forall (entry_ok w0 T0 m0) es;
  ro_ids : NoDup (e_id <$> es);
  ro_cores : Forall (core_ok w0 T0 m0 es m0) cs;
  ro_split c s : c ∈ cs -> is_Some (Ila.find_state (c_rec c) s) -> (s ∈ shared <-> s ∉ c_priv c);
  ro_cover c e : c ∈ cs -> e ∈ c_prog c -> covered (c_priv c) (e_rec e) (e_dec e);
  ro_ws e : e ∈ ws <-> e ∈ es /\ exists s, s ∈ shared /\ writes e s;
  ro_rs e : e ∈ rs <-> e ∈ concat (c_prog <$> cs) /\ exists s, s ∈ shared /\ reads e s;
  ro_ini : e_ila ini = global /\ e_pos ini = 0 /\ forall s, s ∈ shared ->
    exists v, Instrs.update (e_rec ini) s = Some v /\ state_of w0 global s v }.

(** What the constraints say of a model. *)
Record satisfies (cs : list Core) (ini : Entry) (ws rs : list Entry) (M : Model) : Prop := {
  sa_rf : rf w0 m0 ws rs M;
  sa_cores : Forall (core_runs w0 M) cs;
  sa_time e : e ∈ concat (c_prog <$> cs) -> 0 < time M e;
  sa_ini : time M ini = 0 }.

Definition e_ins (e : Entry) : objid := default 0%N (_inst (e_step e)).
Definition exec_all (M : Model) (l : list (nat * Entry)) (σ : Store) : Store :=
  foldl (fun σ p => exec shared p.1 (env w0 M p.2) (e_rec p.2) (e_dec p.2) σ) σ l.
Definition start (M : Model) (cs : list Core) : Store := fun l =>
  match l with
  | Shared s => val_at w0 M (pretty 0) global s
  | Private k s => c ← cs !! k; val_at w0 M (pretty 0) (c_ila c) s
  end.
Definition programs (n : nat) (l : list (nat * Entry)) : list (list objid) := (fun k => e_ins <$> steps_of k l) <$> seq 0 n.

Context (es : list Entry) (cs : list Core) (ini : Entry) (ws rs : list Entry) (HR : run_ok es cs ini ws rs).
Context (M : Model) (HM : model_ok M) (HS : satisfies cs ini ws rs M).
Definition order : list (nat * Entry) := merge (time M) (c_prog <$> cs).

Lemma prog_entry k c e : cs !! k = Some c -> e ∈ c_prog c -> e ∈ es /\ entry_ok w0 T0 m0 e /\ e_ila e = c_ila c.
Proof using HR.
  intros Hc He. pose proof (ro_cores _ _ _ _ _ HR) as Hcs. rewrite Forall_lookup in Hcs. specialize (Hcs k c Hc).
  pose proof (co_sub _ _ _ _ _ _ Hcs e He) as Hin. split; [done|]. split; [|by apply (co_ila _ _ _ _ _ _ Hcs)].
  pose proof (ro_entries _ _ _ _ _ HR) as Hen. rewrite Forall_forall in Hen. by apply Hen.
Qed.
Lemma order_elem k e : (k, e) ∈ order <-> exists c, cs !! k = Some c /\ e ∈ c_prog c.
Proof using Type.
  unfold order. rewrite merge_elem. setoid_rewrite list_lookup_fmap. split.
  - intros (p & Hp & He). destruct (cs !! k) as [c|] eqn:Ec; [|done]. injection Hp as <-. by exists c.
  - intros (c & -> & He). by exists (c_prog c).
Qed.

(** The constraints order each program. *)
Lemma links_sorted h priv prog : forall pre, links w0 h priv M pre prog ->
  StronglySorted (fun a b => time M a < time M b) pre -> StronglySorted (fun a b => time M a < time M b) (pre ++ prog).
Proof using Type.
  induction prog as [|e prog IH]; intros pre Hl Hs; [by rewrite app_nil_r|]. destruct Hl as [[_ Ht] Hl].
  replace (pre ++ e :: prog) with ((pre ++ [e]) ++ prog) by by rewrite <- app_assoc.
  apply IH; [done|]. clear IH Hl. induction Hs as [|a pre Hs IH Ha]; [by repeat constructor|]. cbn [app]. constructor.
  - apply IH. by destruct pre.
  - apply Forall_app. split; [done|]. apply Forall_singleton. destruct pre as [|b pre]; [exact Ht|].
    change (last (a :: b :: pre)) with (last (b :: pre)) in Ht. destruct (last (b :: pre)) as [q|] eqn:Eq; [|by apply last_None in Eq].
    rewrite Forall_forall in Ha. specialize (Ha q (last_Some_elem_of _ _ Eq)). lia.
Qed.
Lemma core_of k c : cs !! k = Some c -> core_runs w0 M c.
Proof using HS. intros Hc. pose proof (sa_cores _ _ _ _ _ HS) as H. rewrite Forall_lookup in H. by eapply H. Qed.
Lemma order_steps k c : cs !! k = Some c -> steps_of k order = c_prog c.
Proof using HS.
  intros Hc. unfold order. rewrite merge_steps.
  - by rewrite list_lookup_fmap, Hc.
  - intros p (c' & -> & (j & Hj)%list_elem_of_lookup)%list_elem_of_fmap.
    apply (links_sorted (c_ila c') (c_priv c') (c_prog c') []); [apply (core_of j), Hj|constructor].
Qed.
Lemma links_at h priv prog : forall pre0 pre e post, links w0 h priv M pre0 prog -> prog = pre ++ e :: post ->
  link_ok w0 h priv M (pre0 ++ pre) e.
Proof using Type.
  induction prog as [|a prog IH]; intros pre0 pre e post Hl E; [by destruct pre|]. destruct Hl as [Ha Hl].
  destruct pre as [|b pre]; injection E as -> E; [by rewrite app_nil_r|].
  replace (pre0 ++ b :: pre) with ((pre0 ++ [b]) ++ pre) by by rewrite <- app_assoc. by eapply IH.
Qed.

Lemma not_decoded e d : eval (env w0 M e) d <> Some (VBool true) -> forall (A : Type) (a b : A),
  match eval (env w0 M e) d with Some (VBool true) => a | _ => b end = b.
Proof using Type. intros H A a b. destruct (eval _ d) as [[[]| |]|]; done. Qed.

(** Private states have the last value of their program. *)
Lemma exec_private k c s : cs !! k = Some c -> s ∈ c_priv c -> forall pre post, order = pre ++ post ->
  exec_all M pre (start M cs) (Private k s) = last_value w0 M (c_ila c) (steps_of k pre) s.
Proof using HR HS HM.
  intros Hc Hs. pose proof (ro_cores _ _ _ _ _ HR) as Hcs. rewrite Forall_lookup in Hcs. specialize (Hcs k c Hc).
  assert (Hck : c ∈ cs) by by eapply list_elem_of_lookup_2.
  assert (Hns : s ∉ shared).
  { intros Hsh. apply (ro_split _ _ _ _ _ HR c) in Hsh; [done|done|]. by apply (co_state _ _ _ _ _ _ Hcs). }
  induction pre as [|[j e] pre IH] using rev_ind; intros post Eo.
  - cbn. by rewrite Hc.
  - rewrite <- app_assoc in Eo. specialize (IH _ Eo). unfold exec_all in *. rewrite foldl_app. cbn [foldl fst snd].
    rewrite steps_of_app, steps_of_cons. cbn [exec]. destruct (decide (j = k)) as [->|Hj].
    + rewrite decide_True by done. change (steps_of k []) with (@nil Entry).
      assert (Ep : c_prog c = steps_of k pre ++ e :: steps_of k post).
      { rewrite <- (order_steps k c Hc), Eo, steps_of_app. cbn [app]. by rewrite steps_of_cons, decide_True. }
      rewrite last_value_snoc, IH. unfold assigned, kept. destruct (Instrs.update (e_rec e) s) as [u|] eqn:Eu; [|done].
      destruct (decide (eval (env w0 M e) (e_dec e) = Some (VBool true))) as [-> |Hd]; [done|].
      rewrite !not_decoded by done. symmetry.
      destruct (links_at _ _ _ [] _ e _ (proj1 (core_of k c Hc)) Ep) as [Hr _]. apply Hr; [done|].
      assert (He : e ∈ c_prog c) by (rewrite Ep; set_solver).
      destruct (cv_write _ _ _ (ro_cover _ _ _ _ _ HR c e Hck He) s Hs) as [Hu|Hall]; [|done|].
      * apply update_Some in Eu. by eexists.
      * destruct Hd. by apply Hall, env_of_ok.
    + rewrite decide_False by (intros [? _]; congruence). change (steps_of k []) with (@nil Entry). by rewrite app_nil_r.
Qed.

(** A step that reads a shared state sees the last decoded write of the order. *)
Lemma exec_skip s l : (forall k e, (k, e) ∈ l -> writes e s -> ~ decoded w0 M e) -> forall σ, exec_all M l σ (Shared s) = σ (Shared s).
Proof using Type.
  induction l as [|[k e] l IH]; intros Hl σ; [done|]. unfold exec_all in *. cbn [foldl fst snd].
  rewrite IH by (intros; eapply Hl; [by right|done]). cbn [exec]. case_decide; [|done]. unfold assigned.
  destruct (Instrs.update (e_rec e) s) as [u|] eqn:Eu; [|done]. apply not_decoded. intros Hd.
  apply (Hl k e ltac:(by left)); [|done]. apply update_Some in Eu. by eexists.
Qed.
Lemma order_split pre k e post k' e' : order = pre ++ (k, e) :: post ->
  (k', e') ∈ order -> time M e' < time M e -> (k', e') ∈ pre.
Proof using Type.
  intros Eo Hin Ht. rewrite Eo in Hin. apply elem_of_app in Hin as [?|[[= -> ->]|Hin]%elem_of_cons]; [done|lia|].
  pose proof (merge_sorted (time M) (c_prog <$> cs)) as Hs. fold order in Hs. rewrite Eo in Hs.
  apply StronglySorted_app in Hs as (_ & _ & Hs). apply StronglySorted_cons in Hs as [Hs _]. rewrite Forall_forall in Hs.
  specialize (Hs _ Hin). unfold earlier in Hs. cbn in Hs. lia.
Qed.
Lemma order_before pre k e post k' e' : order = pre ++ (k, e) :: post -> (k', e') ∈ pre -> time M e' <= time M e.
Proof using Type.
  intros Eo Hin. pose proof (merge_sorted (time M) (c_prog <$> cs)) as Hs. fold order in Hs. rewrite Eo in Hs.
  apply StronglySorted_app in Hs as (Hs & _ & _). apply (Hs (k', e') (k, e)); [done|by left].
Qed.
Lemma prog_time k e : (k, e) ∈ order -> 0 < time M e.
Proof using HS.
  intros (c & Hc & He)%order_elem. apply (sa_time _ _ _ _ _ HS). apply list_elem_of_In, in_concat. exists (c_prog c).
  split; apply list_elem_of_In; [|done]. apply list_elem_of_fmap. exists c. split; [done|]. by eapply list_elem_of_lookup_2.
Qed.
Lemma es_elem e : e ∈ es <-> e = ini \/ exists k, (k, e) ∈ order.
Proof using HR.
  rewrite (ro_es _ _ _ _ _ HR), elem_of_app, list_elem_of_singleton. setoid_rewrite order_elem.
  rewrite list_elem_of_In, in_concat. split.
  - intros [(p & (c & -> & Hc)%list_elem_of_In%list_elem_of_fmap & He)|?]; [right|by left].
    apply list_elem_of_lookup in Hc as [k Hk]. exists k, c. by rewrite list_elem_of_In.
  - intros [?|(k & c & Hc & He)]; [by right|left]. exists (c_prog c). split; [|by apply list_elem_of_In].
    apply list_elem_of_In, list_elem_of_fmap. exists c. split; [done|]. by eapply list_elem_of_lookup_2.
Qed.
Lemma exec_snoc l k e σ : exec_all M (l ++ [(k, e)]) σ = exec shared k (env w0 M e) (e_rec e) (e_dec e) (exec_all M l σ).
Proof using Type. unfold exec_all. by rewrite foldl_app. Qed.
Lemma exec_app l l' σ : exec_all M (l ++ l') σ = exec_all M l' (exec_all M l σ).
Proof using Type. unfold exec_all. by rewrite foldl_app. Qed.

Lemma tagged_snd {A} (progs : list (list A)) : forall n, snd <$> tagged n progs = concat progs.
Proof using Type.
  induction progs as [|p progs IH]; intros n; [done|]. cbn [tagged concat]. rewrite fmap_app, IH. f_equal.
  rewrite <- list_fmap_compose. clear. induction p as [|a p IH]; [done|]. cbn. by f_equal.
Qed.
Lemma order_once pre k e post k' : order = pre ++ (k, e) :: post -> (k', e) ∉ pre ++ post.
Proof using HR.
  intros Eo Hin. assert (Hn : NoDup (snd <$> order)).
  { unfold order, merge. rewrite merge_sort_Permutation, tagged_snd.
    pose proof (ro_ids _ _ _ _ _ HR) as Hi. apply NoDup_fmap_1 in Hi. rewrite (ro_es _ _ _ _ _ HR) in Hi.
    by apply NoDup_app in Hi as [? _]. }
  rewrite Eo, fmap_app, fmap_cons, <- Permutation_middle, <- fmap_app in Hn. apply NoDup_cons in Hn as [Hn _].
  apply Hn, list_elem_of_fmap. by exists (k', e).
Qed.

Lemma exec_shared pre k e post s : order = pre ++ (k, e) :: post -> reads e s -> s ∈ shared ->
  exec_all M pre (start M cs) (Shared s) = seen w0 M e s.
Proof using HR HS HM.
  intros Eo Hr Hs. assert (Hin : (k, e) ∈ order) by (rewrite Eo; set_solver).
  pose proof Hin as (c & Hc & He)%order_elem. destruct (prog_entry k c e Hc He) as (Hees & Hok & _).
  destruct (sa_rf _ _ _ _ _ HS s Hs e) as (w & Hw & [Hwe Ww] & (x & (u & Eu & Vu) & (v & Sv & Vv)) & Dw & Tw & Hno); [|done|].
  { apply (ro_rs _ _ _ _ _ HR). split; [|by exists s].
    apply list_elem_of_In, in_concat. exists (c_prog c).
    split; apply list_elem_of_In; [|done]. apply list_elem_of_fmap. exists c. split; [done|]. by eapply list_elem_of_lookup_2. }
  unfold seen. rewrite (val_at_state w0 M _ _ s v Sv). unfold env, env_at in Vv. rewrite Vv. clear v Sv Vv.
  (** No other write that decodes is between [w] and [e]. *)
  assert (Hlate : forall k2 w2, (k2, w2) ∈ pre -> writes w2 s -> decoded w0 M w2 -> w2 <> w -> w2 <> e -> time M w2 < time M w).
  { intros k2 w2 Hp W2 D2 N1 N2. pose proof (order_before _ _ _ _ _ _ Eo Hp).
    destruct (Hno w2) as [?|?]; [|done|done|lia..].
    apply (ro_ws _ _ _ _ _ HR). split; [|by exists s]. apply es_elem. right. exists k2. rewrite Eo. set_solver. }
  assert (Hpre : forall k2, (k2, e) ∉ pre) by (intros k2 H; by apply (order_once _ _ _ _ k2 Eo), elem_of_app; left).
  pose proof (proj1 (ro_ws _ _ _ _ _ HR w) Hw) as [[->|[j Hj]]%es_elem _].
  - rewrite exec_skip.
    + cbn. destruct (ro_ini _ _ _ _ _ HR) as (_ & Hp & Hi). destruct (Hi s Hs) as (v & Ev & Sv).
      rewrite (val_at_state w0 M _ _ s v Sv), <- Vu. assert (u = v) as -> by congruence. unfold env, env_at. by rewrite Hp.
    + intros k2 w2 Hp W2 D2. assert (0 < time M w2) by (apply (prog_time k2); rewrite Eo; set_solver).
      pose proof (sa_ini _ _ _ _ _ HS). assert (time M w2 < time M ini); [|lia].
      apply (Hlate k2); try done; intros ->; [lia|]. by apply (Hpre k2).
  - assert (Hjp : (j, w) ∈ pre) by by eapply order_split.
    apply list_elem_of_split in Hjp as (p1 & p2 & ->). rewrite <- app_assoc in Eo. cbn [app] in Eo.
    change (p1 ++ (j, w) :: p2) with (p1 ++ [(j, w)] ++ p2) in *. rewrite app_assoc, exec_app, exec_skip.
    + rewrite exec_snoc. cbn [exec]. rewrite decide_True by done. unfold assigned. rewrite Eu. by rewrite Dw.
    + intros k2 w2 Hp W2 D2. assert (Hww : w2 <> w).
      { intros ->. apply (order_once _ _ _ _ k2 Eo). set_solver. }
      assert (time M w2 < time M w).
      { apply (Hlate k2); [set_solver|done..|]. intros ->. apply (Hpre k2). set_solver. }
      assert (time M w <= time M w2); [|lia].
      apply list_elem_of_split in Hp as (q1 & q2 & ->). apply (order_before (p1 ++ (j, w) :: q1) k2 w2 (q2 ++ (k, e) :: post) j w); [|set_solver].
      rewrite Eo. by rewrite <- !app_assoc.
Qed.

Lemma steps_length k e l : (k, e) ∈ order -> (k < length cs)%nat /\ programs (length cs) ((k, e) :: l) !! k = Some (e_ins e :: (e_ins <$> steps_of k l)).
Proof using Type.
  intros (c & Hc & _)%order_elem. apply lookup_lt_Some in Hc. split; [done|].
  unfold programs. rewrite list_lookup_fmap, lookup_seq_lt by done. cbn [fmap option_fmap option_map Nat.add]. by rewrite steps_of_cons, decide_True.
Qed.
Lemma programs_next k e l : (k < length cs)%nat ->
  programs (length cs) l = <[k := e_ins <$> steps_of k l]> (programs (length cs) ((k, e) :: l)).
Proof using Type.
  intros Hk. apply list_eq. intros j. destruct (decide (j = k)) as [->|Hj].
  - rewrite list_lookup_insert_eq by (unfold programs; by rewrite length_fmap, length_seq).
    unfold programs. by rewrite list_lookup_fmap, lookup_seq_lt.
  - rewrite list_lookup_insert_ne by done. unfold programs. rewrite !list_lookup_fmap. destruct (seq 0 (length cs) !! j) as [j'|] eqn:Ej; [|done].
    apply lookup_seq in Ej as [-> _]. cbn [fmap option_fmap option_map Nat.add]. by rewrite steps_of_cons, decide_False.
Qed.

Lemma order_run post : forall pre, order = pre ++ post -> rtc (sc_step w0 shared)
  (programs (length cs) post, exec_all M pre (start M cs)) (programs (length cs) [], exec_all M order (start M cs)).
Proof using HR HS HM.
  induction post as [|[k e] post IH]; intros pre Eo.
  { rewrite app_nil_r in Eo. by rewrite Eo. }
  assert (Hin : (k, e) ∈ order) by (rewrite Eo; set_solver).
  pose proof Hin as (c & Hc & He)%order_elem. destruct (prog_entry k c e Hc He) as (Hees & Hok & Hila).
  destruct (steps_length k e post Hin) as [Hk Hp].
  apply rtc_l with (programs (length cs) post, exec_all M (pre ++ [(k, e)]) (start M cs)); [|apply IH; by rewrite <- app_assoc].
  rewrite (programs_next k e post Hk), exec_snoc.
  destruct (eo_inst _ _ _ e Hok) as (i & Ei & Hi).
  eapply sc_exec with (i := i); [rewrite Hp; unfold e_ins; by rewrite Ei|exact Hi|apply (if_decode _ _ _ _ _ (eo_fit _ _ _ e Hok))|by apply env_of_ok|].
  intros v Hv. assert (Hck : c ∈ cs) by by eapply list_elem_of_lookup_2.
  pose proof (cv_used _ _ _ (ro_cover _ _ _ _ _ HR c e Hck He) v Hv) as Hu.
  pose proof (if_used _ _ _ _ _ (eo_fit _ _ _ e Hok) v Hu) as Sv.
  assert (Hr : reads e (Exprs.name v)).
  { destruct Hu as [?|(s & u & ? & ?)]; [left; by exists v|right; by exists s, u, v]. }
  assert (Es : eval (env w0 M e) v = seen w0 M e (Exprs.name v)).
  { unfold seen. by rewrite (val_at_state w0 M _ _ _ v Sv). }
  rewrite Es. unfold loc. case_decide as Hsh; [symmetry; by eapply exec_shared|].
  assert (Hpr : Exprs.name v ∈ c_priv c).
  { destruct (decide (Exprs.name v ∈ c_priv c)) as [|Hn]; [done|]. destruct Hsh.
    apply (ro_split _ _ _ _ _ HR c); [done| |done]. rewrite Hila in Sv. destruct Sv as (l & Hl & Hf).
    pose proof (ro_cores _ _ _ _ _ HR) as Hcs. rewrite Forall_lookup in Hcs. specialize (Hcs k c Hc).
    rewrite (co_rec _ _ _ _ _ _ Hcs) in Hl. injection Hl as <-. by exists v. }
  rewrite (exec_private k c _ Hc Hpr pre _ Eo).
  assert (Ep : c_prog c = steps_of k pre ++ e :: steps_of k post).
  { rewrite <- (order_steps k c Hc), Eo, steps_of_app, steps_of_cons. by rewrite decide_True. }
  destruct (links_at _ _ _ [] _ e _ (proj1 (core_of k c Hc)) Ep) as [Hl _]. by apply Hl.
Qed.

(** A model of the constraints is a run. *)
Lemma satisfies_run : exists σ, rtc (sc_step w0 shared)
    ((fun c => e_ins <$> c_prog c) <$> cs, start M cs) (replicate (length cs) [], σ) /\
  forall k c s, cs !! k = Some c -> s ∈ c_priv c -> val_at w0 M FINAL_STEP_SUFFIX (c_ila c) s = σ (Private k s).
Proof using HR HS HM.
  exists (exec_all M order (start M cs)). split.
  - assert (E1 : programs (length cs) order = (fun c => e_ins <$> c_prog c) <$> cs).
    { apply list_eq. intros k. unfold programs. rewrite !list_lookup_fmap. destruct (cs !! k) as [c|] eqn:Ec.
      - rewrite lookup_seq_lt by by eapply lookup_lt_Some. cbn. by rewrite (order_steps k c Ec).
      - rewrite lookup_seq_ge; [done|]. by apply lookup_ge_None. }
    assert (E2 : programs (length cs) [] = replicate (length cs) []).
    { unfold programs. apply list_eq. intros k. rewrite list_lookup_fmap. destruct (decide (k < length cs)%nat).
      - by rewrite lookup_seq_lt, lookup_replicate_2.
      - rewrite lookup_seq_ge by lia. symmetry. cbn. apply lookup_replicate_None. lia. }
    rewrite <- E1, <- E2. apply (order_run order []). done.
  - intros k c s Hc Hs. destruct (core_of k c Hc) as [_ Hf]. rewrite (Hf s Hs), <- (order_steps k c Hc).
    symmetry. apply (exec_private k c s Hc Hs order []). by rewrite app_nil_r.
Qed.
End run.
