(* ===== verification/McmReg.v ===== *)
(** * From the programs to the constraints

    [Unroll] registers the steps of the programs and the initial step; the final
    property adds a step; [LinkStates] constrains them. *)
From S2P Require Import Prelude Sort Values Container Expr Smt Solver World Z3Expr ExprOp AstHub Collect Unroller UnrollerSpec Rewrite SolverPasses SolverPassesSpec MonoSpec Bmc TermSpec McmAst Mcm McmSpec McmLink McmRun.
Local Open Scope Z_scope.

Lemma returns_step {S A B} (m : ST S A) (k : A -> ST S B) s a s' Q :
  m s = Ok (a, s') -> returns (k a) s' Q -> returns (m ≫= k) s Q.
Proof. intros E H. eapply (returns_bind _ _ _ (fun x y => x = a /\ y = s')); [by exists a, s'|]. by intros ? ? [-> ->]. Qed.

Lemma bind_step {S A B} (m : ST S A) (k : A -> ST S B) s a s' : m s = Ok (a, s') -> (m ≫= k) s = k a s'.
Proof. unfold mbind, ST_bind. by intros ->. Qed.

Section reg.
Context {Z3 : Z3Api} {LZ : Z3Laws Z3} {TM : Z3Time Z3} {TL : Z3TimeLaws TM} {L : Layout}.
Context (w0 : World) (T0 : gmap objid Expr) (m0 : MemoryModel) (base : N).
Abbreviation W := (w_ilas w0).
Abbreviation shared := (m_shared_state_names m0).
Abbreviation global := (m_p_global_ila m0).

(** Access to the shared states, as the lists record it. *)
Definition wr (e : Entry) : bool := bool_decide (_inst_write_set (e_step e) ∩ shared <> ∅).
Definition rd (e : Entry) : bool := bool_decide (_inst_read_set (e_step e) ∩ shared <> ∅).
Definition proper_name (e : Entry) : Prop := exists n, str_no "$" n = true /\ _name (e_step e) = step_name n (base + e_id e + 1).

(** The model after the steps [es] were registered. *)
Record registered (es : list Entry) (reads_ : list Entry) (ila : list (list (option N))) (Φ : Model -> Prop) (m : MemoryModel) : Prop := {
  rg_shared : m_shared_state_names m = shared;
  rg_global : m_p_global_ila m = global;
  rg_priv : m_ila_private_state_names m = m_ila_private_state_names m0;
  rg_cache : l_r_names_to_state m = l_r_names_to_state m0;
  rg_steps e : e ∈ es -> steps m !! e_id e = Some (e_step e) /\ (e_id e < next_step m)%N;
  rg_ids : NoDup (e_id <$> es);
  rg_names e : e ∈ es -> proper_name e;
  rg_entries : Forall (entry_ok w0 T0 m0) es;
  rg_all : _all_inst_trace_steps m = e_id <$> es;
  rg_write : WRITE_list m = e_id <$> filter (fun e => wr e = true) es;
  rg_read : READ_list m = e_id <$> filter (fun e => rd e = true) reads_;
  rg_ila : _ila_trace_steps m = ila;
  rg_constr : means (_constr m) Φ }.

(** While steps are registered, the counter of names goes with the numbers. *)
Definition counted (es reads_ : list Entry) (ila : list (list (option N))) (Φ : Model -> Prop) (m : MemoryModel) : Prop :=
  registered es reads_ ila Φ m /\ trace_step_seq_no m = (base + next_step m)%N.

(** The entry of an instruction. *)
Definition entry_for (ty : TraceStepType) (p seq : N) (h i : objid) (x : Instr) (d : Expr) (r : gset string) (pos : Z) (ts : string -> ztime) : Entry :=
  let name := step_name (i_name x) (seq + 1) in
  {| e_id := p; e_step := step_of ty (Some i) None r (list_to_set (Instrs.updated_states x)) name (ts name) pos None None;
     e_ila := h; e_rec := x; e_dec := d |}.

Lemma entry_for_ok ty p seq h i x d r pos ts : ty = INST_EVT \/ ty = INIT_EVT -> w_instrs w0 !! i = Some x ->
  instr_fit w0 T0 h x d -> ila_fit w0 T0 m0 h -> (forall n, n ∈ r <-> uses x d n) ->
  entry_ok w0 T0 m0 (entry_for ty p seq h i x d r pos ts).
Proof using Type.
  intros Hty Hi Hf Hh Hr. split; cbn; [done|by exists i|done..|].
  intros s. rewrite elem_of_list_to_set. apply updated_elem.
Qed.

Definition next_model (m : MemoryModel) (t : TraceStep) (zs : list zexpr) : MemoryModel :=
  let m := with_constr (with_statics m (trace_step_seq_no m + 1)%N (l_r_names_to_state m)) (_constr m ++ zs) in
  with_steps m (<[next_step m := t]> (steps m)) (next_step m + 1)%N.

Lemma with_constr_id (m : MemoryModel) : with_constr m (_constr m ++ []) = m.
Proof using Type. rewrite app_nil_r. by destruct m. Qed.

Lemma new_inst_run m h i x d pos : w_instrs w0 !! i = Some x -> instr_fit w0 T0 h x d ->
  exists r, (forall n, n ∈ r <-> uses x d n) /\
  let e := entry_for INST_EVT (next_step m) (trace_step_seq_no m) h i x d r pos t_const in
  new_inst i pos (w0, m) = Ok (e_id e, (w0, next_model m (e_step e) [t_gt (timestamp (e_step e)) t_zero])).
Proof using Type.
  intros Hi Hf. destruct (Traverse_instr_run w0 T0 h x d Hf) as (r & Er & Hr). exists r. split; [done|].
  unfold new_inst, get_instr, on_store, instr_, InitReadWriteSet. cbv [mbind ST_bind]. cbn [fst snd]. rewrite Hi. cbn.
  rewrite Er. reflexivity.
Qed.
Lemma new_init_run m h i x d : w_instrs w0 !! i = Some x -> instr_fit w0 T0 h x d ->
  exists r, (forall n, n ∈ r <-> uses x d n) /\
  let e := entry_for INIT_EVT (next_step m) (trace_step_seq_no m) h i x d r 0 (fun _ => t_zero) in
  new_init i t_zero 0 (w0, m) = Ok (e_id e, (w0, next_model m (e_step e) [])).
Proof using Type.
  intros Hi Hf. destruct (Traverse_instr_run w0 T0 h x d Hf) as (r & Er & Hr). exists r. split; [done|].
  unfold new_init, get_instr, on_store, instr_, InitReadWriteSet. cbv [mbind ST_bind]. cbn [fst snd]. rewrite Hi. cbn.
  rewrite Er. cbn. unfold next_model. cbn. rewrite app_nil_r. reflexivity.
Qed.

(** The lists after a step was inserted. *)
Definition add_lists (m : MemoryModel) (p : N) (w r : bool) : MemoryModel :=
  let m := with_all m (step_insert p (_all_trace_steps m)) (step_insert p (_all_inst_trace_steps m)) in
  with_lists m (if w then step_insert p (WRITE_list m) else WRITE_list m)
    (if r then step_insert p (READ_list m) else READ_list m) (FENCE_list m) (RMW_list m) (PureWrite_list m).
Definition put_ila (m : MemoryModel) (k j : nat) (p : N) : MemoryModel :=
  with_ila_steps m (alter (fun l => <[j := Some p]> l) k (_ila_trace_steps m)).

Lemma when_write m (b : bool) p w : when b (add_write p) (w, m) = Ok ((), (w,
  with_lists m (if b then step_insert p (WRITE_list m) else WRITE_list m) (READ_list m) (FENCE_list m) (RMW_list m) (PureWrite_list m))).
Proof using Type. destruct b; [done|]. by destruct m. Qed.
Lemma when_read m (b : bool) p w : when b (add_read p) (w, m) = Ok ((), (w,
  with_lists m (WRITE_list m) (if b then step_insert p (READ_list m) else READ_list m) (FENCE_list m) (RMW_list m) (PureWrite_list m))).
Proof using Type. destruct b; [done|]. by destruct m. Qed.

Lemma register_run m k h i x d pos : m_shared_state_names m = shared -> w_instrs w0 !! i = Some x -> instr_fit w0 T0 h x d ->
  exists r, (forall n, n ∈ r <-> uses x d n) /\
  let e := entry_for INST_EVT (next_step m) (trace_step_seq_no m) h i x d r pos t_const in
  Sc.register k i pos (w0, m) = Ok (pos + 1, (w0,
    add_lists (put_ila (next_model m (e_step e) [t_gt (timestamp (e_step e)) t_zero]) k (Z.to_nat (pos - 1)) (e_id e)) (e_id e) (wr e) (rd e))).
Proof using Type.
  intros Hsh Hi Hf. destruct (new_inst_run m h i x d pos Hi Hf) as (r & Hr & E). exists r. split; [done|].
  cbv zeta in *. set (e := entry_for _ _ _ _ _ _ _ _ _ _) in *. unfold Sc.register. cbv [mbind ST_bind] in *. rewrite E.
  unfold add_all, add_all_inst, set_ila_step, set_self, modify. cbn [fst snd].
  assert (Est : forall m', steps m' !! e_id e = Some (e_step e) -> step (e_id e) (w0, m') = Ok (e_step e, (w0, m'))).
  { intros m' Hm'. unfold step, self, gets, lift. cbv [mbind ST_bind]. cbn [snd]. by rewrite Hm'. }
  rewrite Est by (cbn; apply lookup_insert_eq). unfold self, gets, lift. cbn [snd m_shared_state_names with_ila_steps with_all next_model with_steps with_constr with_statics].
  rewrite Hsh. unfold Access, is_facet_tracestep. change (_type (e_step e)) with INST_EVT.
  change (bool_decide (INST_EVT = FACET_EVT)) with false. fold (wr e) (rd e). cbn [negb ila_assert mbind Res_bind].
  rewrite when_write. cbn [snd]. rewrite when_read. reflexivity.
Qed.

Lemma insert_fresh p l : p ∉ l -> step_insert p l = l ++ [p].
Proof using Type. intros H. unfold step_insert. by rewrite decide_False. Qed.
Lemma insert_filter (f : Entry -> bool) e l : e_id e ∉ e_id <$> l ->
  (if f e then step_insert (e_id e) (e_id <$> filter (fun e => f e = true) l) else e_id <$> filter (fun e => f e = true) l) =
  e_id <$> filter (fun e => f e = true) (l ++ [e]).
Proof using Type.
  intros Hn. rewrite filter_app, fmap_app. assert (Hf : e_id e ∉ e_id <$> filter (fun e => f e = true) l).
  { intros (e' & E & [_ He']%list_elem_of_filter)%list_elem_of_fmap. apply Hn, list_elem_of_fmap. by exists e'. }
  rewrite filter_cons. destruct (f e) eqn:Ef; cbn.
  - by rewrite insert_fresh.
  - by rewrite app_nil_r.
Qed.

Lemma registered_add es rds ila Φ Ψ m e zs (b : bool) : counted es rds ila Φ m -> rds ⊆ es -> e_id e = next_step m ->
  entry_ok w0 T0 m0 e -> (exists n, str_no "$" n = true /\ _name (e_step e) = step_name n (trace_step_seq_no m + 1)) -> means zs Ψ ->
  counted (es ++ [e]) (if b then rds ++ [e] else rds) ila (fun M => Φ M /\ Ψ M)
    (add_lists (next_model m (e_step e) zs) (e_id e) (wr e) (if b then rd e else false)).
Proof using Type.
  intros [[A1 A2 A3 A4 A6 A7 A8 A9 A10 A11 A12 A13 A14] A5] Hrd Hid Hok (n & Hn & Hname) Hz.
  assert (Hfresh : e_id e ∉ e_id <$> es).
  { intros (e' & E & He')%list_elem_of_fmap. destruct (A6 e' He') as [_ Hlt]. lia. }
  assert (Hfr : e_id e ∉ e_id <$> rds).
  { intros (e' & E & He')%list_elem_of_fmap. apply Hfresh, list_elem_of_fmap. exists e'. auto. }
  split; [|cbn; lia]. split; cbn; try done.
  - intros e' [He'| ->%list_elem_of_singleton]%elem_of_app.
    + destruct (A6 e' He') as [Es Hlt]. rewrite lookup_insert_ne by lia. split; [done|lia].
    + rewrite Hid, lookup_insert_eq. split; [done|lia].
  - rewrite fmap_app. apply NoDup_app. split; [done|]. split; [|apply NoDup_singleton].
    intros p Hp ->%list_elem_of_singleton. by apply Hfresh.
  - intros e' [He'| ->%list_elem_of_singleton]%elem_of_app; [by apply A8|]. exists n. split; [done|].
    rewrite Hname, A5, Hid. done.
  - apply Forall_app. split; [done|]. by apply Forall_singleton.
  - rewrite A10, insert_fresh by done. by rewrite fmap_app.
  - rewrite A11. by apply insert_filter.
  - rewrite A12. destruct b; [|done]. by apply insert_filter.
  - by apply means_app.
Qed.
Lemma registered_ila es rds ila ila' Φ m : counted es rds ila Φ m -> counted es rds ila' Φ (with_ila_steps m ila').
Proof using Type. intros [[] ?]. by split. Qed.
Lemma registered_ends es rds ila Φ m i f : counted es rds ila Φ m -> counted es rds ila Φ (with_ends m i f).
Proof using Type. intros [[] ?]. by split. Qed.
Lemma registered_iff es rds ila Φ Ψ m : (forall M, model_ok M -> Φ M <-> Ψ M) -> counted es rds ila Φ m -> counted es rds ila Ψ m.
Proof using Type. intros H [[] ?]. split; [|done]. split; try done. by eapply means_iff. Qed.

Lemma time_means e : means [t_gt (timestamp (e_step e)) t_zero] (fun M => 0 < time M e).
Proof using TL.
  destruct (t_gt_law (timestamp (e_step e)) t_zero) as [H1 H2]. split; [by apply Forall_singleton|].
  intros M HM. rewrite Forall_singleton, H2, t_zero_law by done. unfold time. rewrite <- Z.ltb_lt. split; congruence.
Qed.

(** ** One program *)
Record instr_ok (h : objid) (priv : gset string) (i : objid) : Prop := {
  io_fit : exists x d, w_instrs w0 !! i = Some x /\ instr_fit w0 T0 h x d /\ covered priv x d;
  io_name x : w_instrs w0 !! i = Some x -> str_no "$" (i_name x) = true }.
(** The entries of a program [is_] of [h], from position [pos]. *)
Definition entries_of (h : objid) (priv : gset string) (pos : Z) (is_ : list objid) (l : list Entry) : Prop :=
  (e_ins <$> l = is_) /\ (forall j e, l !! j = Some e -> e_ila e = h /\ covered priv (e_rec e) (e_dec e) /\ e_pos e = pos + Z.of_nat j /\
    _type (e_step e) = INST_EVT).

Lemma loop_run k h priv is_ : ila_fit w0 T0 m0 h -> Forall (instr_ok h priv) is_ -> forall pos es ila Φ m, 1 <= pos -> counted es es ila Φ m ->
  exists l m', foldM (Sc.register k) is_ pos (w0, m) = Ok (pos + Z.of_nat (length is_), (w0, m')) /\ entries_of h priv pos is_ l /\
    counted (es ++ l) (es ++ l)
      (foldl (fun ila p => alter (fun x => <[p.1 := Some (e_id p.2)]> x) k ila) ila (zip (seq (Z.to_nat (pos - 1)) (length l)) l))
      (fun M => Φ M /\ forall e, e ∈ l -> 0 < time M e) m'.
Proof using TL.
  intros Hh. induction 1 as [|i is_ [(x & d & Hi & Hf & Hc) Hname] _ IH]; intros pos es ila Φ m Hpos Hm.
  - exists [], m. split; [by rewrite Z.add_0_r|]. split; [by split|].
    rewrite app_nil_r. eapply registered_iff; [|exact Hm]. intros M _. cbn. split; [intros; split; [done|by intros ? ?%elem_of_nil]|tauto].
  - destruct (register_run m k h i x d pos (rg_shared _ _ _ _ _ (proj1 Hm)) Hi Hf) as (r & Hr & E). cbv zeta in E.
    set (e := entry_for _ _ _ _ _ _ _ _ _ _) in *.
    pose proof (registered_add es es ila Φ _ m e _ true Hm (fun _ H => H) eq_refl
      (entry_for_ok _ _ _ _ _ _ _ _ _ _ (or_introl eq_refl) Hi Hf Hh Hr)
      (ex_intro _ (i_name x) (conj (Hname x Hi) eq_refl)) (time_means e)) as Hm1. cbn beta iota in Hm1.
    apply (registered_ila _ _ _ (alter (fun l => <[Z.to_nat (pos - 1) := Some (e_id e)]> l) k ila)) in Hm1.
    destruct (IH (pos + 1) _ _ _ _ ltac:(lia) Hm1) as (l & m' & E' & [El Hl] & Hm').
    exists (e :: l), m'. split; [|split].
    + cbn [foldM]. cbv [mbind ST_bind]. rewrite E. cbn [length].
      replace (pos + Z.of_nat (S (length is_))) with (pos + 1 + Z.of_nat (length is_)) by lia. rewrite <- E'.
      rewrite <- (rg_ila _ _ _ _ _ (proj1 Hm)). reflexivity.
    + split; [cbn; by rewrite El|]. intros [|j] e' Ej; cbn in Ej.
      * injection Ej as <-. split_and!; [done|done|cbn; lia|done].
      * destruct (Hl j e' Ej) as (? & ? & -> & ?). split_and!; [done|done|lia|done].
    + rewrite <- app_assoc in Hm'. cbn [app length seq zip zip_with foldl fst snd].
      replace (S (Z.to_nat (pos - 1))) with (Z.to_nat (pos + 1 - 1)) by lia.
      eapply registered_iff; [|exact Hm']. intros M _. cbn beta. setoid_rewrite elem_of_cons. naive_solver.
Qed.

(** ** All programs *)
Definition rec_of (h : objid) : InstrLvlAbs := default (IlaOk.nil_ila "" None) (W !! h).
Definition priv_of (h : objid) : gset string := default ∅ (m_ila_private_state_names m0 !! l_name (rec_of h)).
Definition core_for (h : objid) (l : list Entry) : Core :=
  {| c_ila := h; c_rec := rec_of h; c_priv := priv_of h; c_prog := l |}.

(** An ILA of the system: its states are shared or private. *)
Record sys_ila_ok (h : objid) : Prop := {
  sy_some : is_Some (W !! h);
  sy_fit : ila_fit w0 T0 m0 h;
  sy_priv : is_Some (m_ila_private_state_names m0 !! l_name (rec_of h));
  sy_state s : s ∈ priv_of h -> is_Some (Ila.find_state (rec_of h) s);
  sy_split s : is_Some (Ila.find_state (rec_of h) s) -> (s ∈ shared <-> s ∉ priv_of h) }.
Definition prog_ok (h : objid) (is_ : list objid) : Prop :=
  sys_ila_ok h /\ is_ <> [] /\ Forall (instr_ok h (priv_of h)) is_.

Definition ids (l : list Entry) : list (option N) := (fun e => Some (e_id e)) <$> l.
Lemma fill_ila k l : forall pre (ila : list (list (option N))), ila !! k = Some (ids pre ++ replicate (length l) None) ->
  foldl (fun ila p => alter (fun x => <[p.1 := Some (e_id p.2)]> x) k ila) ila (zip (seq (length pre) (length l)) l) = <[k := ids (pre ++ l)]> ila.
Proof using Type.
  induction l as [|e l IH]; intros pre ila Hk.
  - cbn in *. rewrite app_nil_r in Hk. rewrite app_nil_r. symmetry. by apply list_insert_id.
  - cbn [length seq zip zip_with foldl fst snd].
    assert (Hlen : length (ids pre) = length pre) by apply length_fmap.
    assert (E : alter (fun x => <[length pre := Some (e_id e)]> x) k ila = <[k := ids (pre ++ [e]) ++ replicate (length l) None]> ila).
    { apply list_eq. intros j. destruct (decide (j = k)) as [->|Hj].
      - rewrite list_lookup_alter, list_lookup_insert_eq by by eapply lookup_lt_Some. rewrite Hk. cbn. rewrite decide_True by done. f_equal.
        rewrite <- Hlen, insert_app_r_alt by lia. rewrite Nat.sub_diag. cbn. unfold ids. rewrite fmap_app, <- app_assoc. done.
      - by rewrite list_lookup_alter_ne, list_lookup_insert_ne. }
    rewrite E. replace (S (length pre)) with (length (pre ++ [e])) by (rewrite length_app; cbn; lia).
    rewrite IH by (apply list_lookup_insert_eq; by eapply lookup_lt_Some).
    rewrite list_insert_insert_eq, <- app_assoc. done.
Qed.

Lemma programs_run hs tmpl : Forall2 prog_ok hs tmpl -> forall (done_ : list (list Entry)) Φ m,
  counted (concat done_) (concat done_) ((ids <$> done_) ++ ((fun is_ => replicate (length is_) None) <$> tmpl)) Φ m ->
  exists ls m', foldM (fun p (_ : unit) => Sc.RegisterSteps p.1 p.2) (zip (seq (length done_) (length tmpl)) tmpl) () (w0, m) = Ok ((), (w0, m')) /\
    Forall2 (fun (p : objid * list objid) l => entries_of p.1 (priv_of p.1) 1 p.2 l) (zip hs tmpl) ls /\
    counted (concat (done_ ++ ls)) (concat (done_ ++ ls)) (ids <$> done_ ++ ls) (fun M => Φ M /\ forall e, e ∈ concat ls -> 0 < time M e) m'.
Proof using TL.
  induction 1 as [|h is_ hs tmpl [Hh [Hne His]] _ IH]; intros done_ Φ m Hm.
  - exists [], m. split; [done|]. split; [constructor|]. rewrite !app_nil_r in *.
    eapply registered_iff; [|exact Hm]. intros M _. cbn. split; [intros; split; [done|by intros ? ?%elem_of_nil]|tauto].
  - destruct (loop_run (length done_) h (priv_of h) is_ (sy_fit _ Hh) His 1 _ _ _ _ ltac:(lia) Hm) as (l & m1 & E1 & Hl & Hm1).
    assert (Hlen : length is_ = length l) by (destruct Hl as [<- _]; by rewrite length_fmap).
    change (Z.to_nat (1 - 1)) with (length (@nil Entry)) in Hm1. cbn [fmap list_fmap] in Hm1.
    rewrite (fill_ila _ l [] _) in Hm1; cycle 1.
    { rewrite lookup_app_r by (by rewrite length_fmap). rewrite length_fmap, Nat.sub_diag. cbn. by rewrite Hlen. }
    rewrite insert_app_r_alt in Hm1 by (by rewrite length_fmap). rewrite length_fmap, Nat.sub_diag in Hm1. cbn [insert list_insert app] in Hm1.
    assert (Hc : concat done_ ++ l = concat (done_ ++ [l])) by (rewrite concat_app; cbn; by rewrite app_nil_r).
    assert (Hi : (ids <$> done_) ++ ids l :: ((fun is_ => replicate (length is_) None) <$> tmpl) =
      (ids <$> done_ ++ [l]) ++ ((fun is_ => replicate (length is_) None) <$> tmpl)) by (by rewrite fmap_app, <- app_assoc).
    rewrite Hc, Hi in Hm1. destruct (IH (done_ ++ [l]) _ _ Hm1) as (ls & m' & E' & Hls & Hm').
    exists (l :: ls), m'. split; [|split].
    + cbn [length seq zip zip_with foldM fst snd]. 
      assert (E2 : Sc.RegisterSteps (length done_) is_ (w0, m) = Ok ((), (w0, m1))).
      { unfold Sc.RegisterSteps. by erewrite bind_step. }
      rewrite (bind_step _ _ _ _ _ E2).
      rewrite length_app in E'. cbn [length] in E'. rewrite Nat.add_1_r in E'. exact E'.
    + by constructor.
    + rewrite <- app_assoc in Hm'. cbn [app] in Hm'. eapply registered_iff; [|exact Hm'].
      intros M _. cbn beta. cbn [concat]. setoid_rewrite elem_of_app. naive_solver.
Qed.
End reg.
