(* ===== verification/McmSc.v ===== *)
(** * Sequential consistency of the unrolled system

    [InterIlaUnroller] with the model [Sc]: [Unroll], the final property,
    [LinkStates] and [CheckSat], against the machine of [McmRun]. *)
From S2P Require Import Prelude Sort Values Container Expr Smt Solver World Z3Expr ExprOp AstHub Collect Unroller UnrollerSpec Rewrite SolverPasses SolverPassesSpec MonoSpec Bmc TermSpec McmAst Mcm McmSpec McmLink McmRun McmReg.
Import InterIlaUnroller.
Local Open Scope Z_scope.

Section sc.
Context {Z3 : Z3Api} {LZ : Z3Laws Z3} {TM : Z3Time Z3} {TL : Z3TimeLaws TM} {L : Layout}.
Context (w0 : World) (T0 : gmap objid Expr) (m0 : MemoryModel).
Abbreviation W := (w_ilas w0).
Abbreviation shared := (m_shared_state_names m0).
Abbreviation global := (m_p_global_ila m0).
#[local] Existing Instance Sc.ScModel.

(** The global ILA: its initial instruction assigns every shared state to
    itself. *)
Record global_ok (i : objid) (x : Instr) (d : Expr) : Prop := {
  go_instr : exists l, W !! global = Some l /\ Ila.find_instr l "__INIT__" = Some i;
  go_rec : w_instrs w0 !! i = Some x;
  go_fit : instr_fit w0 T0 global x d;
  go_ila : ila_fit w0 T0 m0 global;
  go_name : str_no "$" (i_name x) = true;
  go_update s : s ∈ shared -> exists v, Instrs.update x s = Some v /\ state_of w0 global s v }.

Abbreviation base := (trace_step_seq_no m0).
Abbreviation counted := (counted w0 T0 m0 base).
Abbreviation registered := (registered w0 T0 m0 base).

Lemma step_lookup p t w m : steps m !! p = Some t -> step p (w, m) = Ok (t, (w, m)).
Proof using Type. intros E. unfold step, self, gets, lift. cbv [mbind ST_bind]. cbn [snd]. by rewrite E. Qed.

Lemma init_step_run i x d es ts Φ m : global_ok i x d -> counted es es ts Φ m -> exists ini m',
  init_step (w0, m) = Ok ((), (w0, m')) /\ e_ila ini = global /\ e_pos ini = 0 /\ e_rec ini = x /\ e_dec ini = d /\ timestamp (e_step ini) = t_zero /\
  counted (es ++ [ini]) es ts Φ m'.
Proof using Type.
  intros [(l & Hl & Hfi) Hi Hf Hg Hn Hu] Hm. destruct (new_init_run w0 T0 m global i x d Hi Hf) as (r & Hr & E).
  cbv zeta in E. set (e := entry_for _ _ _ _ _ _ _ _ _ _) in *.
  pose proof (registered_add w0 T0 m0 base es es ts Φ (fun _ => True) m e [] false Hm (fun _ H => H) eq_refl
    (entry_for_ok w0 T0 m0 _ _ _ _ _ _ _ _ _ _ (or_intror eq_refl) Hi Hf Hg Hr)
    (ex_intro _ (i_name x) (conj Hn eq_refl)) means_nil) as Hm1. cbn beta iota in Hm1.
  apply (registered_ends _ _ _ _ _ _ _ _ _ (Some (e_id e)) (_final_trace_step m)) in Hm1.
  eexists e, _. split; [|split; [done|]; split; [done|]; split; [done|]; split; [done|]; split; [done|]; eapply registered_iff; [|exact Hm1]; intros M _; cbn; tauto].
  assert (E1 : CreateGlobalInitStep (w0, m) = Ok (e_id e, (w0, with_ends (next_model m (e_step e) []) (Some (e_id e)) (_final_trace_step m)))).
  { unfold CreateGlobalInitStep. rewrite (bind_step self _ _ m (w0, m)) by done.
    rewrite (bind_step _ _ _ l (w0, m)) by (rewrite (rg_global _ _ _ _ _ _ _ _ _ (proj1 Hm)); unfold get_ila, on_store, ila; cbn [fst]; by rewrite Hl).
    rewrite (bind_step _ _ _ i (w0, m)) by (unfold need; by rewrite Hfi). by rewrite (bind_step _ _ _ _ _ E). }
  unfold init_step. rewrite (bind_step _ _ _ _ _ E1).
  do 2 (erewrite bind_step; [|reflexivity]). cbn [fst snd].
  erewrite bind_step; [|apply step_lookup; cbn; apply lookup_insert_eq].
  erewrite bind_step; [|reflexivity].
  erewrite bind_step; [|unfold Access, is_facet_tracestep; change (_type (e_step e)) with INIT_EVT;
    change (bool_decide (INIT_EVT = FACET_EVT)) with false; cbn [negb ila_assert mbind Res_bind]; reflexivity].
  cbn [snd m_shared_state_names with_all with_ends next_model with_steps with_constr with_statics].
  rewrite (rg_shared _ _ _ _ _ _ _ _ _ (proj1 Hm)). fold (wr m0 e). rewrite when_write. reflexivity.
Qed.

(** ** The final property *)
Definition final_time (M : Model) : Z := t_eval M (t_const final_name).
Definition ends (es : list Entry) (property : Expr) (M : Model) : Prop :=
  (forall e, e ∈ es -> time M e < final_time M) /\ holds (env_of W M FINAL_STEP_SUFFIX) property.

Lemma before_run p t l : timestamp t = t_const final_name -> forall m, steps m !! p = Some t ->
  (forall e, e ∈ l -> steps m !! e_id e = Some (e_step e)) ->
  exists zs, foldM (fun q (_ : unit) => tq ← step q; tp ← step p; push (HB tq tp)) (e_id <$> l) () (w0, m) =
    Ok ((), (w0, with_constr m (_constr m ++ zs))) /\ means zs (fun M => forall e, e ∈ l -> time M e < final_time M).
Proof using TL.
  intros Ht. induction l as [|e l IH]; intros m Hp Hl.
  - exists []. split; [by rewrite with_constr_id|]. eapply means_iff; [|exact means_nil]. intros M _. split; [by intros _ e ?%elem_of_nil|done].
  - destruct (IH (with_constr m (_constr m ++ [HB (e_step e) t]))) as (zs & E & Hz); [done|intros; apply Hl; by right|].
    exists (HB (e_step e) t :: zs). split.
    + cbn [fmap list_fmap foldM]. rewrite (bind_step _ _ _ () (w0, with_constr m (_constr m ++ [HB (e_step e) t]))).
      * rewrite E. cbn. by rewrite <- app_assoc.
      * rewrite (bind_step _ _ _ _ _ (step_lookup _ _ w0 m (Hl e ltac:(by left)))).
        by rewrite (bind_step _ _ _ _ _ (step_lookup _ _ w0 m Hp)).
    + destruct (t_lt_law (timestamp (e_step e)) (timestamp t)) as [H1 H2].
      assert (Hh : means [HB (e_step e) t] (fun M => time M e < final_time M)).
      { split; [by apply Forall_singleton|]. intros M HM. rewrite Forall_singleton. unfold HB. rewrite H2 by done.
        unfold time, final_time. rewrite <- Ht, <- Z.ltb_lt. split; congruence. }
      change (means ([HB (e_step e) t] ++ zs) (fun M => forall e', e' ∈ e :: l -> time M e' < final_time M)).
      eapply means_iff; [|exact (means_app _ _ _ _ Hh Hz)]. intros M _. cbn beta. setoid_rewrite elem_of_cons. naive_solver.
Qed.

Lemma final_run es rds ts Φ m property : IlaOk.ilas_ok W -> registered es rds ts Φ m -> ok_pred W property ->
  (forall s, s ∈ VarUseFinder.Traverse property ∅ -> s ∉ shared) ->
  exists m', final_property property (w0, m) = Ok ((), (w0, m')) /\ registered es rds ts (fun M => Φ M /\ ends es property M) m'.
Proof using TL.
  intros HW Hm [Hok Hsort] Hsh.
  set (t := step_of FINAL_EVT None None (VarUseFinder.Traverse property ∅) ∅ final_name (t_const final_name) 65536 (Some (m_p_global_ila m)) (Some property)).
  set (m1 := with_ends (with_steps m (<[next_step m := t]> (steps m)) (next_step m + 1)%N) (_init_trace_step m) (Some (next_step m))).
  assert (E1 : CreateGlobalFinalStep property (w0, m) = Ok (next_step m, (w0, m1))) by done.
  destruct (iter_ids es (rg_ids _ _ _ _ _ _ _ _ _ Hm) es) as (l' & El & Hl'); [done|eapply NoDup_fmap_1; apply Hm|].
  destruct (before_run (next_step m) t l' eq_refl m1) as (zs & E2 & Hz).
  { apply lookup_insert_eq. }
  { intros e He%Hl'. destruct (rg_steps _ _ _ _ _ _ _ _ _ Hm e He) as [Hs Hlt]. cbn. by rewrite lookup_insert_ne by lia. }
  destruct Hok as ([T HT] & Hwt & Htr). destruct (GetExpr_denotes W HW T FINAL_STEP_SUFFIX property HT Hwt Htr) as (z & Ez & Dz & Vz).
  rewrite Hsort in Dz. set (m2 := with_constr m1 (_constr m1 ++ zs)) in *.
  exists (with_constr m2 (_constr m2 ++ [z])). split.
  - unfold final_property. rewrite (bind_step _ _ _ _ _ E1). rewrite (bind_step self _ _ m1 (w0, m1)) by done.
    change (_all_inst_trace_steps m1) with (_all_inst_trace_steps m). rewrite (rg_all _ _ _ _ _ _ _ _ _ Hm), El.
    rewrite (bind_step _ _ _ _ _ E2). fold m2.
    rewrite (bind_step _ _ _ t (w0, m2)) by (apply step_lookup, lookup_insert_eq).
    rewrite (bind_step _ _ _ false (w0, m2)).
    2:{ unfold lift, Access, is_facet_tracestep. change (_type t) with FINAL_EVT. cbn [mbind Res_bind].
        change (m_shared_state_names m1) with (m_shared_state_names m). rewrite (rg_shared _ _ _ _ _ _ _ _ _ Hm).
        change (_inst_read_set t) with (VarUseFinder.Traverse property ∅). rewrite bool_decide_eq_false_2; [done|].
        intros Hn. apply Hn. set_unfold. intros s [Hs1 Hs2]. by apply (Hsh s). }
    rewrite (bind_step _ _ _ () (w0, m2)) by done. rewrite (bind_step _ _ _ z (w0, m2)); [done|].
    unfold ConvertZ3OnThisStep, ConvertZ3. change (is_final_tracestep t) with true. cbn [fst]. by rewrite Ez.
  - destruct Hm as [A1 A2 A3 A4 A6 A7 A8 A9 A10 A11 A12 A13 A14]. split; try done.
    + intros e He. destruct (A6 e He) as [Es Hlt]. cbn. rewrite lookup_insert_ne by lia. split; [done|lia].
    + assert (Hp : means [z] (fun M => holds (env_of W M FINAL_STEP_SUFFIX) property)).
      { split; [by apply Forall_singleton|]. intros M HM. rewrite Forall_singleton. unfold holds. rewrite <- Vz by done.
        split; congruence. }
      cbn. eapply means_iff; [|exact (means_app _ _ _ _ (means_app _ _ _ _ A14 Hz) Hp)].
      intros M _. cbn beta. unfold ends.
      split; [intros [[? H] ?]|intros (? & H & ?)]; split_and!; try done; intros e He; by apply H, Hl'.
Qed.

(** ** The steps as a system of cores *)
Record system_ok (sys : list objid) (tmpl : list (list objid)) (i : objid) (x : Instr) (d : Expr) : Prop := {
  st_ilas : IlaOk.ilas_ok W;
  st_heap : heap_ok T0 w0;
  st_fresh : m0 = NewMemoryModel (trace_step_seq_no m0) (l_r_names_to_state m0) shared (m_ila_private_state_names m0) global [];
  st_cache n n' k k' : (base < k)%N -> (base < k')%N ->
    l_r_names_to_state m0 !! (step_name n k +:+ "$-&-$" +:+ step_name n' k') = None;
  st_global : global_ok i x d;
  st_progs : Forall2 (prog_ok w0 T0 m0) sys tmpl }.

Abbreviation cores sys ls := (zip_with (core_for w0 m0) sys ls).
Definition programs_of (sys : list objid) (tmpl : list (list objid)) (ls : list (list Entry)) : Prop :=
  Forall2 (fun (p : objid * list objid) l => entries_of p.1 (priv_of w0 m0 p.1) 1 p.2 l) (zip sys tmpl) ls.

Lemma programs_at sys tmpl ls k h l : programs_of sys tmpl ls -> sys !! k = Some h -> ls !! k = Some l ->
  exists is_, tmpl !! k = Some is_ /\ entries_of h (priv_of w0 m0 h) 1 is_ l.
Proof using Type.
  intros Hp Hh Hl. unfold programs_of in Hp. destruct (Forall2_lookup_r _ _ _ _ _ Hp Hl) as ([h' is_] & Hz & He).
  rewrite lookup_zip_with in Hz. rewrite Hh in Hz. cbn in Hz. destruct (tmpl !! k) as [is'|]; [|done]. injection Hz as <- <-.
  by exists is'.
Qed.
Lemma programs_lengths sys tmpl ls : length sys = length tmpl -> programs_of sys tmpl ls -> length ls = length sys.
Proof using Type. intros Hlen Hp. apply Forall2_length in Hp. rewrite length_zip_with in Hp. lia. Qed.
Lemma cores_prog sys ls : length ls = length sys -> c_prog <$> cores sys ls = ls.
Proof using Type. revert ls. induction sys as [|h sys IH]; intros [|l ls] E; try done. cbn. by rewrite IH by (cbn in E; lia). Qed.
Lemma core_at sys ls k c : cores sys ls !! k = Some c -> exists h l, c = core_for w0 m0 h l /\ sys !! k = Some h /\ ls !! k = Some l.
Proof using Type.
  rewrite lookup_zip_with. destruct (sys !! k) as [h|]; [|done]. cbn. destruct (ls !! k) as [l|]; [|done]. cbn.
  intros [= <-]. by exists h, l.
Qed.

Lemma wr_iff e : entry_ok w0 T0 m0 e -> wr m0 e = true <-> exists s, s ∈ shared /\ writes e s.
Proof using All.
  intros He. unfold wr. rewrite bool_decide_eq_true. split.
  - intros Hn. apply set_choose_L in Hn as [s [H1 H2]%elem_of_intersection]. exists s. split; [done|]. by apply (eo_write _ _ _ e He).
  - intros (s & H1 & H2) E. apply (eo_write _ _ _ e He) in H2. set_solver.
Qed.
Lemma rd_iff e : entry_ok w0 T0 m0 e -> rd m0 e = true <-> exists s, s ∈ shared /\ reads e s.
Proof using All.
  intros He. unfold rd. rewrite bool_decide_eq_true. split.
  - intros Hn. apply set_choose_L in Hn as [s [H1 H2]%elem_of_intersection]. exists s. split; [done|]. by apply (eo_read _ _ _ e He).
  - intros (s & H1 & H2) E. apply (eo_read _ _ _ e He) in H2. set_solver.
Qed.

Section system.
Context (sys : list objid) (tmpl : list (list objid)) (i : objid) (x : Instr) (d : Expr) (HS : system_ok sys tmpl i x d).
Context (ls : list (list Entry)) (ini : Entry) (Hls : programs_of sys tmpl ls).
Context (Hini : e_ila ini = global /\ e_pos ini = 0 /\ e_rec ini = x).
Abbreviation cs := (cores sys ls).
Abbreviation es := (concat ls ++ [ini]).
Context (ts : list (list (option N))) (Φ : Model -> Prop) (m : MemoryModel) (Hm : registered es (concat ls) ts Φ m).
Definition writers : list Entry := filter (fun e => wr m0 e = true) es.
Definition readers : list Entry := filter (fun e => rd m0 e = true) (concat ls).

Lemma concat_at k l : ls !! k = Some l -> l ⊆ concat ls.
Proof using Type.
  intros Hl e He. apply list_elem_of_In, in_concat. exists l. split; apply list_elem_of_In; [|done].
  by eapply list_elem_of_lookup_2.
Qed.
Lemma system_lengths : length ls = length sys.
Proof using HS Hls. apply (programs_lengths _ tmpl); [|done]. by eapply Forall2_length, HS. Qed.

Lemma system_core k c : cs !! k = Some c -> core_ok w0 T0 m0 es m0 c.
Proof using HS Hls Hm.
  intros (h & l & -> & Hh & Hl)%core_at. destruct (programs_at _ _ _ _ _ _ Hls Hh Hl) as (is_ & His & Ei & He).
  destruct (Forall2_lookup_lr _ _ _ _ _ _ (st_progs _ _ _ _ _ HS) Hh His) as ([A1 A2 A3 A4 A5] & Hne & _).
  assert (Hsub : l ⊆ es) by (intros e Hin; apply elem_of_app; left; by eapply concat_at).
  split; cbn [core_for c_ila c_rec c_priv c_prog].
  - unfold rec_of. by destruct A1 as [r ->].
  - done.
  - unfold priv_of. by destruct A3 as [p ->].
  - done.
  - intros ->. by subst.
  - done.
  - intros e (j & Hj)%list_elem_of_lookup. by apply (He j e Hj).
  - pose proof (rg_ids _ _ _ _ _ _ _ _ _ Hm) as Hn. rewrite fmap_app in Hn. apply NoDup_app in Hn as [Hn _].
    clear -Hn Hl. revert ls Hl Hn. induction k as [|k IH]; intros [|p ls] Hl Hn; cbn in *; try done.
    + injection Hl as ->. rewrite fmap_app in Hn. by apply NoDup_app in Hn as [? _].
    + rewrite fmap_app in Hn. apply NoDup_app in Hn as (_ & _ & Hn). by eapply IH.
Qed.

Lemma system_run_ok : run_ok w0 T0 m0 es cs ini writers readers.
Proof using All.
  pose proof (cores_prog sys ls system_lengths) as Ep. pose proof (rg_entries _ _ _ _ _ _ _ _ _ Hm) as Hen.
  assert (Hin : forall e, e ∈ es -> entry_ok w0 T0 m0 e) by by apply Forall_forall.
  split.
  - by rewrite Ep.
  - done.
  - apply (rg_ids _ _ _ _ _ _ _ _ _ Hm).
  - apply Forall_lookup. apply system_core.
  - intros c s (k & Hk)%list_elem_of_lookup. destruct (core_at _ _ _ _ Hk) as (h & l & -> & Hh & Hl). cbn.
    destruct (programs_at _ _ _ _ _ _ Hls Hh Hl) as (is_ & His & _).
    destruct (Forall2_lookup_lr _ _ _ _ _ _ (st_progs _ _ _ _ _ HS) Hh His) as (Hy & _). apply Hy.
  - intros c e (k & Hk)%list_elem_of_lookup. destruct (core_at _ _ _ _ Hk) as (h & l & -> & Hh & Hl). cbn.
    intros (j & Hj)%list_elem_of_lookup. destruct (programs_at _ _ _ _ _ _ Hls Hh Hl) as (is_ & _ & _ & He). by apply (He j e Hj).
  - intros e. unfold writers. rewrite list_elem_of_filter. split.
    + intros [Hw He]. split; [done|]. by apply wr_iff; [apply Hin|].
    + intros [He Hw]. split; [|done]. by apply wr_iff; [apply Hin|].
  - intros e. unfold readers. rewrite list_elem_of_filter, Ep. split.
    + intros [Hw He]. split; [done|]. apply rd_iff; [apply Hin, elem_of_app; by left|done].
    + intros [He Hw]. split; [|done]. apply rd_iff; [apply Hin, elem_of_app; by left|done].
  - destruct Hini as (-> & -> & ->). split; [done|]. split; [done|]. apply (st_global _ _ _ _ _ HS).
Qed.

Lemma registered_frame m' : w_ilas w0 = W -> m_shared_state_names m' = m_shared_state_names m -> m_p_global_ila m' = m_p_global_ila m ->
  steps m' = steps m -> frame w0 m0 es (w0, m').
Proof using All.
  intros _ E1 E2 E3. split; cbn; try done.
  - intros e He. rewrite E3. by apply (rg_steps _ _ _ _ _ _ _ _ _ Hm).
  - rewrite E1. apply (rg_shared _ _ _ _ _ _ _ _ _ Hm).
  - rewrite E2. apply (rg_global _ _ _ _ _ _ _ _ _ Hm).
Qed.
Lemma step_name_no n k : str_no "$" n = true -> str_no "$" (step_name n k) = true.
Proof using Type. intros Hn. unfold step_name. rewrite !str_no_app, Hn. cbn. apply digits_no; [done|apply pretty_N_digits]. Qed.
Lemma names_no e : e ∈ es -> str_no "$" (_name (e_step e)) = true.
Proof using All. intros He. destruct (rg_names _ _ _ _ _ _ _ _ _ Hm e He) as (n & Hn & ->). by apply step_name_no. Qed.
Lemma names_inj e e' : e ∈ es -> e' ∈ es -> _name (e_step e) = _name (e_step e') -> e = e'.
Proof using All.
  intros He He' E. destruct (rg_names _ _ _ _ _ _ _ _ _ Hm e He) as (n & _ & En), (rg_names _ _ _ _ _ _ _ _ _ Hm e' He') as (n' & _ & En').
  rewrite En, En' in E. apply step_name_inj in E. apply (id_inj es (rg_ids _ _ _ _ _ _ _ _ _ Hm)); [done..|lia].
Qed.
Lemma cache_start : cache_ok m0 es (l_r_names_to_state m).
Proof using All.
  intros l r S Hl Hr. unfold pair_key. destruct (rg_names _ _ _ _ _ _ _ _ _ Hm l Hl) as (n & _ & ->), (rg_names _ _ _ _ _ _ _ _ _ Hm r Hr) as (n' & _ & ->).
  rewrite (rg_cache _ _ _ _ _ _ _ _ _ Hm), (st_cache _ _ _ _ _ HS) by lia. done.
Qed.

(** [LinkStates]: the axioms and the private states. *)
Lemma link_states_run : ts = ids <$> ls -> exists w' m', (Sc.ApplyAxioms;; SetLocalState (replicate (length sys) true)) (w0, m) = Ok ((), (w', m')) /\
  means (_constr m') (fun M => (Φ M /\ rf w0 m0 writers readers M) /\ Forall (core_runs w0 M) cs).
Proof using All.
  intros Hts. pose proof (rg_entries _ _ _ _ _ _ _ _ _ Hm) as Hen. pose proof (st_ilas _ _ _ _ _ HS) as HW. pose proof (st_heap _ _ _ _ _ HS) as Hh.
  pose proof (registered_frame m eq_refl eq_refl eq_refl eq_refl) as H1.
  assert (Hn : NoDup es) by (eapply NoDup_fmap_1; apply Hm).
  destruct (AXIOM_yields w0 T0 m0 es Hen HW Hh w0 m H1 names_no names_inj writers readers
    (rg_write _ _ _ _ _ _ _ _ _ Hm) (rg_read _ _ _ _ _ _ _ _ _ Hm)) with (s := (w0, m)) as ([] & s1 & E1 & z & c & -> & Hz).
  { intros e He. by apply list_elem_of_filter in He as [_ ?]. }
  { intros e He. apply list_elem_of_filter in He as [_ ?]. apply elem_of_app. by left. }
  { apply Hm. }
  { by apply NoDup_filter. }
  { apply NoDup_filter. by apply NoDup_app in Hn as [? _]. }
  { split; [done|]. exists (l_r_names_to_state m). split; [by destruct m|apply cache_start]. }
  set (m1 := with_constr _ _) in E1.
  destruct (SetLocalState_run w0 T0 m0 es Hen HW Hh m1) with (cs := cs) (Φ := fun M => Φ M /\ rf w0 m0 writers readers M)
    as ([] & [w' m'] & E2 & T & Hst & zs & Em & Hzs).
  - by apply registered_frame.
  - apply Forall_lookup. intros k cc Hk. destruct (system_core k cc Hk) as [A1 A2 A3 A4 A5 A6 A7 A8]. split; try done.
    cbn [m1 m_ila_private_state_names with_constr with_statics]. by rewrite (rg_priv _ _ _ _ _ _ _ _ _ Hm).
  - cbn [m1 _ila_trace_steps with_constr with_statics]. rewrite (rg_ila _ _ _ _ _ _ _ _ _ Hm), Hts.
    rewrite <- (cores_prog sys ls system_lengths) at 1. by rewrite <- list_fmap_compose.
  - apply means_app; [apply Hm|done].
  - cbn [fst snd] in Hst, Em. subst m'. exists w', (with_constr m1 zs). split; [|exact Hzs].
    unfold Sc.ApplyAxioms. rewrite (bind_step _ _ _ _ _ E1).
    rewrite length_zip_with_l_eq in E2 by (symmetry; apply system_lengths). exact E2.
Qed.
End system.

(** ** A session with the unroller *)
Context {SV : Z3Solver Z3} {SL : Z3SolverLaws SV}.
Abbreviation I := (ST (World * InterIlaUnroller)).
Definition session (tmpl : list (list objid)) (property : Expr) (ordered : list bool) : I bool :=
  Unroll tmpl;; InterSetFinalProperty property;; LinkStates ordered;; CheckSat.

Lemma on_mm_run {A} (f : ST (World * MemoryModel) A) w (u : InterIlaUnroller) a w' m :
  f (w, mm_ u) = Ok (a, (w', m)) -> on_mm f (w, u) = Ok (a, (w', with_mm u m)).
Proof using Type. intros E. unfold on_mm. cbn [fst snd]. by rewrite E. Qed.
Lemma on_mm_fold {X} (f : X -> ST (World * MemoryModel) unit) l : forall w (u : InterIlaUnroller) w' m,
  foldM (fun a (_ : unit) => f a) l () (w, mm_ u) = Ok ((), (w', m)) ->
  foldM (fun a (_ : unit) => on_mm (f a)) l () (w, u) = Ok ((), (w', with_mm u m)).
Proof using Type.
  induction l as [|a l IH]; intros w u w' m E; cbn [foldM] in *.
  - cbn in E. injection E as <- <-. by destruct u.
  - destruct (f a (w, mm_ u)) as [[[] [w1 m1]]|] eqn:Ea; [|unfold mbind, ST_bind in E; by rewrite Ea in E].
    rewrite (bind_step _ _ _ _ _ Ea) in E. rewrite (bind_step _ _ _ _ _ (on_mm_run _ _ _ _ _ _ Ea)).
    by apply (IH w1 (with_mm u m1)).
Qed.

Section top.
Context (sys : list objid) (tmpl : list (list objid)) (i : objid) (x : Instr) (d : Expr) (HS : system_ok sys tmpl i x d).
Context (u0 : InterIlaUnroller) (Hu : sys_ila_ u0 = sys /\ mm_ u0 = m0).

Lemma session_Unroll_run : exists ls ini m, Unroll tmpl (w0, u0) = Ok ((), (w0, with_mm u0 m)) /\ programs_of sys tmpl ls /\
  (e_ila ini = global /\ e_pos ini = 0 /\ e_rec ini = x) /\ timestamp (e_step ini) = t_zero /\
  registered (concat ls ++ [ini]) (concat ls) (ids <$> ls) (fun M => forall e, e ∈ concat ls -> 0 < time M e) m.
Proof using All.
  destruct Hu as [Hs Hm0]. pose proof (Forall2_length _ _ _ (st_progs _ _ _ _ _ HS)) as Hlen.
  set (ila0 := zip_with (fun (is_ : list objid) l => resize (length is_) None l) tmpl (resize (length tmpl) [] (_ila_trace_steps m0))).
  assert (Eila : ila0 = (fun is_ => replicate (length is_) None) <$> tmpl).
  { unfold ila0. rewrite (st_fresh _ _ _ _ _ HS). cbn. unfold resize. cbn. rewrite take_nil. cbn. rewrite Nat.sub_0_r. clear.
    induction tmpl as [|is_ l IH]; [done|]. cbn. rewrite take_nil, Nat.sub_0_r, IH. done. }
  assert (Hstart : counted [] [] ila0 (fun _ => True) (with_ila_steps m0 ila0)).
  { rewrite (st_fresh _ _ _ _ _ HS). split; [|cbn; lia]. split; cbn; try done; try (by intros e ?%elem_of_nil); try apply means_nil; constructor. }
  rewrite Eila in Hstart. destruct (programs_run w0 T0 m0 base sys tmpl (st_progs _ _ _ _ _ HS) [] _ _ Hstart) as (ls & m1 & E1 & Hls & Hm1).
  cbn [app] in Hm1. destruct (init_step_run i x d _ _ _ m1 (st_global _ _ _ _ _ HS) Hm1) as (ini & m2 & E2 & H1 & H2 & H3 & _ & H4 & [Hm2 _]).
  exists ls, ini, m2. split; [|split; [done|split; [done|split; [done|]]]].
  - unfold Unroll. rewrite (bind_step this _ _ u0 (w0, u0)) by done. rewrite Hs.
    rewrite (bind_step _ _ _ () (w0, u0)) by (unfold lift; by rewrite Hlen, Nat.eqb_refl).
    rewrite (bind_step _ _ _ () (w0, with_mm u0 (with_ila_steps m0 ila0))) by (unfold on_mm; cbn [fst snd]; by rewrite Hm0).
    pose proof (on_mm_fold (fun p : nat * list objid => Sc.RegisterSteps p.1 p.2) (zip (seq 0 (length tmpl)) tmpl) w0 (with_mm u0 (with_ila_steps m0 ila0)) w0 m1) as E3.
    cbn [mm_ with_mm] in E3. rewrite Eila in E3. specialize (E3 E1). rewrite <- Eila in E3. rewrite (bind_step _ _ _ _ _ E3).
    exact (on_mm_run _ _ (with_mm (with_mm u0 (with_ila_steps m0 ila0)) m1) _ _ _ E2).
  - destruct Hm2; split; try done. eapply means_iff; [|done]. intros M _. cbn beta. tauto.
Qed.

(** C3.  Sequential consistency.  Take a system of ILAs that share some of their
    states, none of them a memory, a non-empty program per ILA and a property of
    the private states at the end.  The instructions have no inputs and no
    undefined functions and are [covered]: every variable that is used is in the
    read set that [VarUseFinder] computes, which leaves out a store to a private
    memory whose variable is not read otherwise, and an instruction that writes a
    private state without reading it always decodes ([McmLoose] shows that the code
    needs this).  [Unroll], [SetFinalProperty], [LinkStates] in program
    order and [CheckSat] return; and when the answer is that the constraints have
    a model, the machine of sequential consistency has a run: interleaving the
    programs step by step on one store, from a store that the model gives, every
    instruction evaluated on the values the store has at that moment, it executes
    every program to its end, and the property holds of the private states of the
    final store. *)
Theorem ScUnroll_sound property : good W T0 property -> Exprs.sort property = SortBool ->
  (forall s, s ∈ VarUseFinder.Traverse property ∅ -> s ∉ shared) ->
  exists r s', session tmpl property (replicate (length sys) true) (w0, u0) = Ok (r, s') /\
  (r = true -> exists σ0 σ ρ, rtc (sc_step w0 shared) (tmpl, σ0) (replicate (length sys) [], σ) /\
    env_ok ρ /\ holds ρ property /\
    forall k h s v, sys !! k = Some h -> state_of w0 h s v -> s ∉ shared -> eval ρ v = σ (Private k s)).
Proof using All.
  intros Hg Hsort Hsh. destruct session_Unroll_run as (ls & ini & m & E1 & Hls & Hini & Ht & Hm).
  pose proof (good_accepted w0 T0 (st_heap _ _ _ _ _ HS) property Hg) as Hok.
  destruct (final_run _ _ _ _ m property (st_ilas _ _ _ _ _ HS) Hm (conj Hok Hsort) Hsh) as (m2 & E2 & Hm2).
  destruct (link_states_run sys tmpl i x d HS ls ini Hls Hini _ _ m2 Hm2 eq_refl) as (w' & m3 & E3 & Hm3).
  set (r := bool_decide (z_check (_constr m3) = sat)).
  exists r, (w', with_model (with_mm u0 m3) r). split.
  - unfold session. rewrite (bind_step _ _ _ _ _ E1).
    rewrite (bind_step _ _ _ _ _ (on_mm_run _ _ (with_mm u0 m) _ _ _ E2)).
    rewrite (bind_step _ _ _ () (w', with_mm u0 m3)).
    + unfold CheckSat. rewrite (bind_step this _ _ (with_mm u0 m3) (w', with_mm u0 m3)) by done. done.
    + unfold LinkStates. rewrite (bind_step this _ _ (with_mm u0 m2) (w0, with_mm u0 m2)) by done.
      cbn [sys_ila_ with_mm]. rewrite (proj1 Hu), length_replicate, Nat.eqb_refl.
      rewrite (bind_step _ _ _ () (w0, with_mm u0 m2)) by done.
      change (@ApplyAxioms _ _ Sc.ScModel) with (Sc.ApplyAxioms (L := L)).
      destruct (Sc.ApplyAxioms (w0, m2)) as [[[] [w4 m4]]|] eqn:E4; [|unfold mbind, ST_bind in E3; by rewrite E4 in E3].
      rewrite (bind_step _ _ _ _ _ E4) in E3.
      rewrite (bind_step _ _ _ _ _ (on_mm_run _ _ (with_mm u0 m2) _ _ _ E4)).
      exact (on_mm_run _ _ (with_mm u0 m4) _ _ _ E3).
  - intros Hr%bool_decide_eq_true. destruct (check_answer _ _ Hm3) as [Hsat _].
    destruct (Hsat Hr) as (M & HM & ((Htime & _ & Hp) & Hrf) & Hcores).
    pose proof (system_run_ok sys tmpl i x d HS ls ini Hls Hini _ _ m2 Hm2) as HR.
    pose proof (system_lengths sys tmpl i x d HS ls Hls) as Hlen.
    destruct (satisfies_run w0 T0 m0 _ _ _ _ _ HR M HM) as (σ & Hrun & Hfin).
    { split; [done|done| |unfold time; rewrite Ht; apply t_zero_law]. by rewrite cores_prog. }
    exists (start w0 m0 M (zip_with (core_for w0 m0) sys ls)), σ, (env_of W M FINAL_STEP_SUFFIX). split; [|split; [by apply env_of_ok|split; [done|]]].
    + rewrite length_zip_with_l_eq in Hrun by done.
      replace ((fun c => e_ins <$> c_prog c) <$> zip_with (core_for w0 m0) sys ls) with tmpl in Hrun; [exact Hrun|].
      transitivity ((fun l => e_ins <$> l) <$> (c_prog <$> zip_with (core_for w0 m0) sys ls)); [|symmetry; by rewrite <- list_fmap_compose].
      rewrite cores_prog by done.
      apply list_eq. intros k. rewrite list_lookup_fmap. pose proof (Forall2_length _ _ _ (st_progs _ _ _ _ _ HS)) as Hl2.
      destruct (ls !! k) as [l|] eqn:El.
      * destruct (lookup_lt_is_Some_2 sys k) as [h Hh]; [rewrite <- Hlen; by eapply lookup_lt_Some|].
        destruct (programs_at _ _ _ _ _ _ Hls Hh El) as (is_ & -> & <- & _). done.
      * apply lookup_ge_None in El. apply lookup_ge_None. lia.
    + intros k h s v Hh Hv Hns. destruct (lookup_lt_is_Some_2 ls k) as [l Hl]; [rewrite Hlen; by eapply lookup_lt_Some|].
      destruct (programs_at _ _ _ _ _ _ Hls Hh Hl) as (is_ & His & _).
      destruct (Forall2_lookup_lr _ _ _ _ _ _ (st_progs _ _ _ _ _ HS) Hh His) as ([A1 A2 A3 A4 A5] & _).
      rewrite <- (Hfin k (core_for w0 m0 h l) s).
      * cbn. by rewrite (val_at_state w0 M _ h s v Hv).
      * rewrite lookup_zip_with, Hh. cbn. by rewrite Hl.
      * cbn. destruct (decide (s ∈ priv_of w0 m0 h)) as [|Hn]; [done|]. destruct Hns. apply A5; [|done].
        destruct Hv as (lh & Hlh & Hf). exists v. unfold rec_of. by rewrite Hlh.
Qed.
End top.
End sc.
