(* ===== verification/McmSample.v ===== *)
(** * A message between two cores

    The unroller of two ILAs that share a state: the first writes its private
    state there, the second reads it. *)
From S2P Require Import Prelude Sort Values Container Expr Smt Solver World Z3Expr ExprOp AstHub Collect Unroller UnrollerSpec Rewrite AbsKnobSpec SolverPasses SolverPassesSpec MonoSpec Bmc TermSpec McmAst Mcm McmSpec McmLink McmRun McmReg McmSc.
Import InterIlaUnroller.
Local Open Scope Z_scope.

Module ScSample.
(** Time-stamps are 32-bit constants of the term language. *)
Import Terms.
Definition time_term (t : option string) : Term := match t with Some n => TConst n (SortBv 32) | None => TBv 32 0 end.
#[export] Instance times : Z3Time Terms.terms :=
  {| ztime := option string; t_const := Some; t_zero := None;
     t_lt a b := TApp SUlt [time_term a; time_term b] : zexpr;
     t_gt a b := TApp SUgt [time_term a; time_term b] : zexpr;
     t_eq a b := TApp SEq [time_term a; time_term b] : zexpr |}.
Definition time_value (m : Model) (t : option string) : Z := match teval m (time_term t) with VBv _ n => n | _ => 0 end.
Lemma time_has t : has (time_term t) (SortBv 32).
Proof. destruct t; [done|]. cbn. split; [done|lia]. Qed.
Lemma time_eval m t : model_ok m -> teval m (time_term t) = VBv 32 (time_value m t).
Proof.
  intros Hm. destruct t as [n|]; [|done]. unfold time_value. cbn.
  pose proof (m_const_ok m Hm n (SortBv 32) eq_refl) as H. destruct (m_const m n (SortBv 32)); cbn in H; try done. by bool_inv; subst.
Qed.
#[export] Instance times_laws : Z3TimeLaws (LZ := Terms.terms_laws) times.
Proof.
  refine {| t_eval := time_value |}; [done| | |].
  all: intros a b; split; [exists [SortBv 32; SortBv 32]; split; [done|]; split; [apply time_has|split; [apply time_has|done]]|].
  all: intros m Hm; cbn [z_eval Terms.terms_laws teval t_lt t_gt t_eq times fmap list_fmap]; rewrite !time_eval by done; cbn; try done.
  - by rewrite Z.gtb_ltb.
  - f_equal. destruct (Z.eqb_spec (time_value m a) (time_value m b)) as [->|Hn]; [by apply bool_decide_eq_true_2|].
    apply bool_decide_eq_false_2. congruence.
Qed.

(** A solver that tries one model. *)
Section guess.
Context (m : Model) (Hm : model_ok m).
Definition holds_in (t : Term) : bool := bool_decide (teval m t = VBool true).
Definition guess : Z3Solver Terms.terms := {| z_check := (fun es => if forallb holds_in es then sat else unknown) : list (@zexpr Terms.terms) -> _ |}.
Lemma guess_laws : Z3SolverLaws (LZ := Terms.terms_laws) guess.
Proof using Hm.
  split; intros es _ H; cbn in H; destruct (forallb holds_in es) eqn:E; try done.
  exists m. split; [done|]. apply Forall_forall. intros t Ht.
  rewrite forallb_forall in E. by apply list_elem_of_In, E, bool_decide_eq_true in Ht.
Qed.
End guess.

(** The two ILAs: [put] writes [a] to [x], [get] writes [x] to [b]. *)
Definition v8 (id host : objid) (n : string) : Expr :=
  ExprVar {| h_id := id; h_name := n; h_host := Some host; h_sort := SortBv 8 |} [].
Definition yes : Expr := ExprConst {| h_id := 8%N; h_name := "$8"; h_host := None; h_sort := SortBool |} (CBool true) [].
Definition seven : Expr := ExprConst {| h_id := 9%N; h_name := "$9"; h_host := None; h_sort := SortBv 8 |} (CBv 7) [].
Definition got_seven : Expr :=
  ExprOp {| h_id := 10%N; h_name := "$10"; h_host := Some 2%N; h_sort := SortBool |} kEqual None [v8 7 2 "b"; seven] [].
Definition sender : InstrLvlAbs :=
  Ila.with_instrs (Ila.with_states (IlaOk.nil_ila "A" None) (BmcSample.tab [v8 4 1 "x"; v8 5 1 "a"])) (KeyVec.push_back KeyVec.empty "put" 11%N).2.
Definition receiver : InstrLvlAbs :=
  Ila.with_instrs (Ila.with_states (IlaOk.nil_ila "B" None) (BmcSample.tab [v8 6 2 "x"; v8 7 2 "b"])) (KeyVec.push_back KeyVec.empty "get" 12%N).2.
Definition instr (name : string) (h : objid) (s : string) (u : Expr) : Instr :=
  {| i_name := name; i_host := Some h; decode_ := Some yes; updates_ := {[ s := Some u ]}; prog_ := None |}.
Definition put : Instr := instr "put" 1 "x" (v8 5 1 "a").
Definition get : Instr := instr "get" 2 "b" (v8 6 2 "x").
Definition before : World :=
  {| counter_ := 12; w_ilas := {[ 1%N := sender; 2%N := receiver ]}; w_instrs := {[ 11%N := put; 12%N := get ]} |}.

(** What the constructor adds: the global ILA, its state and its instruction. *)
Definition global_ila : InstrLvlAbs :=
  Ila.with_instrs (Ila.with_states (IlaOk.nil_ila global_name None) (BmcSample.tab [v8 14 13 "x"])) (KeyVec.push_back KeyVec.empty "__INIT__" 15%N).2.
Definition always : Expr := ExprConst {| h_id := 16%N; h_name := "$16"; h_host := None; h_sort := SortBool |} (CBool true) [].
Definition init : Instr :=
  {| i_name := "__INIT__"; i_host := Some 13%N; decode_ := Some always; updates_ := {[ "x" := Some (v8 14 13 "x") ]}; prog_ := None |}.
Definition world : World :=
  {| counter_ := 16; w_ilas := <[13%N := global_ila]> (w_ilas before); w_instrs := <[15%N := init]> (w_instrs before) |}.
Definition start_model : MemoryModel (Z3 := Terms.terms) :=
  NewMemoryModel 0 ∅ {[ "x" ]} (<["B" := {[ "b" ]}]> {[ "A" := {[ "a" ]} ]}) 13 [].
Definition unroller : InterIlaUnroller (Z3 := Terms.terms) :=
  {| sys_ila_ := [1%N; 2%N]; mm_ := start_model; zexpr_vec_pos_stack_ := []; model_ptr_ := false |}.
Lemma made : New (Z3 := Terms.terms) 0 ∅ [1%N; 2%N] before = Ok (unroller, world).
Proof. vm_compute. reflexivity. Qed.

Definition heap : gmap objid Expr :=
  heap_of [v8 4 1 "x"; v8 5 1 "a"; v8 6 2 "x"; v8 7 2 "b"; yes; seven; got_seven; v8 14 13 "x"; always].
Lemma heap_fine : heap_ok heap world.
Proof.
  apply heap_of_ok; [apply (bool_decide_unpack _); reflexivity|].
  each; (split; [by apply N.leb_le|vm_compute; each]).
Qed.
Lemma all_good e : e ∈ [v8 4 1 "x"; v8 5 1 "a"; v8 6 2 "x"; v8 7 2 "b"; yes; seven; got_seven; v8 14 13 "x"; always] ->
  good (w_ilas world) heap e.
Proof.
  rewrite !elem_of_cons, elem_of_nil. intros H. repeat destruct H as [->|H]; try done; split; try done; by vm_compute.
Qed.

Lemma tab_wf l : KeyVec.wf (BmcSample.tab l) /\ forall s v, KeyVec.find (BmcSample.tab l) s = Some v -> v ∈ l /\ Exprs.name v = s.
Proof.
  induction l as [|e l IH] using rev_ind.
  - split; [apply KeyVec.empty_wf|]. intros s v H. by cbn in H.
  - destruct IH as [Hw Hf]. unfold BmcSample.tab in *. rewrite foldl_app. cbn [foldl]. split; [by apply KeyVec.push_back_wf|].
    intros s v. rewrite KeyVec.find_push_back by done. destruct (KeyVec.find _ s) as [t|] eqn:E.
    + intros [= <-]. destruct (Hf _ _ E) as [? ?]. split; [set_solver|done].
    + case_decide; [|done]. intros [= <-]. split; [set_solver|done].
Qed.
Definition states : list (objid * Expr) := [(1%N, v8 4 1 "x"); (1%N, v8 5 1 "a"); (2%N, v8 6 2 "x"); (2%N, v8 7 2 "b"); (13%N, v8 14 13 "x")].
Lemma ila_at h l : w_ilas world !! h = Some l -> (h = 13%N /\ l = global_ila) \/ (h = 1%N /\ l = sender) \/ (h = 2%N /\ l = receiver).
Proof.
  intros H. cbn in H. apply lookup_insert_Some in H as [[<- <-]|[_ H]]; [tauto|].
  apply lookup_insert_Some in H as [[<- <-]|[_ [<- <-]%lookup_singleton_Some]]; tauto.
Qed.
Lemma find_at l vs s v : states_ l = BmcSample.tab vs -> Ila.find_state l s = Some v -> v ∈ vs /\ Exprs.name v = s.
Proof. intros E. unfold Ila.find_state. rewrite E. apply tab_wf. Qed.
Lemma state_inv h s v : state_of world h s v -> (h, v) ∈ states /\ Exprs.name v = s.
Proof.
  intros (l & [[-> ->]|[[-> ->]|[-> ->]]]%ila_at & Hf).
  - apply (find_at _ [v8 14 13 "x"]) in Hf as [Hv <-]; [|done]. split; [|done]. apply list_elem_of_singleton in Hv as ->. set_solver.
  - apply (find_at _ [v8 4 1 "x"; v8 5 1 "a"]) in Hf as [Hv <-]; [|done]. split; [|done].
    apply elem_of_cons in Hv as [->|Hv%list_elem_of_singleton]; [|subst]; set_solver.
  - apply (find_at _ [v8 6 2 "x"; v8 7 2 "b"]) in Hf as [Hv <-]; [|done]. split; [|done].
    apply elem_of_cons in Hv as [->|Hv%list_elem_of_singleton]; [|subst]; set_solver.
Qed.
Lemma state_is h v : (h, v) ∈ states -> state_of world h (Exprs.name v) v.
Proof.
  unfold states. rewrite !elem_of_cons, elem_of_nil. intros H. repeat destruct H as [[= -> ->]|H]; try done; eexists; by split.
Qed.
Lemma state_good h v : (h, v) ∈ states -> good (w_ilas world) heap v /\ Exprs.is_var v = true.
Proof.
  intros H. split; [apply all_good|]; revert H; unfold states; rewrite ?elem_of_cons, ?elem_of_nil; naive_solver.
Qed.
Lemma state_sort h v : (h, v) ∈ states -> Exprs.sort v = SortBv 8.
Proof. unfold states; rewrite !elem_of_cons, elem_of_nil; naive_solver. Qed.
Lemma ila_fits h : is_Some (w_ilas world !! h) -> ila_fit world heap start_model h.
Proof.
  intros Hh. split; [done| |].
  - intros s v [Hv <-]%state_inv. destruct (state_good h v Hv). done.
  - intros s v [Hv <-]%state_inv Hs. assert (Hn : Exprs.name v = "x") by (cbn in Hs; set_solver).
    split; [unfold Exprs.is_mem; by rewrite (state_sort h v Hv)|]. exists (v8 14 13 "x"). split; [|by rewrite (state_sort h v Hv)]. rewrite Hn.
    apply (state_is 13 (v8 14 13 "x")). unfold states. set_solver.
Qed.

(** Instructions that assign one state to another. *)
Lemma assign_fit h x d s v u : i_host x = Some h -> decode_ x = Some d -> d = yes \/ d = always -> updates_ x = {[ s := Some u ]} ->
  (h, v) ∈ states -> Exprs.name v = s -> (h, u) ∈ states -> instr_fit world heap h x d.
Proof.
  intros Hh Hd Hc Hx Hv Hn Hu. split; [done|done| | |].
  - destruct Hc as [-> | ->]; (split; [apply all_good; set_solver|done]).
  - intros s' o. rewrite Hx. intros [<- <-]%lookup_singleton_Some. exists u, v. split; [done|]. split; [by apply (state_good h)|].
    split; [rewrite <- Hn; by apply state_is|].
    by rewrite (state_sort h u Hu), (state_sort h v Hv).
  - intros v' [Hv'|(s' & u' & Hu' & Hv')]; [by destruct Hc as [-> | ->]; apply elem_of_nil in Hv'|].
    apply update_Some in Hu'. rewrite Hx in Hu'. apply lookup_singleton_Some in Hu' as [_ [= <-]].
    assert (v' = u) as ->; [|by apply state_is].
    revert Hu. unfold states. rewrite !elem_of_cons, elem_of_nil. intros H. repeat destruct H as [[= -> ->]|H]; try done;
      by apply list_elem_of_singleton in Hv'.
Qed.
Lemma assign_covered h p x d s u : decode_ x = Some d -> d = yes \/ d = always -> updates_ x = {[ s := Some u ]} ->
  (h, u) ∈ states -> covered p x d.
Proof.
  intros Hd Hc Hx Hu. split.
  - intros v [Hv|(s' & u' & Hu' & Hv)]; [by destruct Hc as [-> | ->]; apply elem_of_nil in Hv|]. right. exists s', u'. split; [done|].
    apply update_Some in Hu'. rewrite Hx in Hu'. apply lookup_singleton_Some in Hu' as [_ [= <-]].
    revert Hu. unfold states. rewrite !elem_of_cons, elem_of_nil. intros H. by repeat destruct H as [[= -> ->]|H].
  - intros s' _ _. right. intros ρ _. by destruct Hc as [-> | ->].
Qed.

Lemma box_put_ok : instr_ok world heap 1 {[ "a" ]} 11.
Proof.
  split; [|by intros x [= <-]]. exists put, yes. split; [done|].
  split; [apply (assign_fit 1 put yes "x" (v8 4 1 "x") (v8 5 1 "a"))|apply (assign_covered 1 _ put yes "x" (v8 5 1 "a"))];
    try done; try (by left); unfold states; set_solver.
Qed.
Lemma box_get_ok : instr_ok world heap 2 {[ "b" ]} 12.
Proof.
  split; [|by intros x [= <-]]. exists get, yes. split; [done|].
  split; [apply (assign_fit 2 get yes "b" (v8 7 2 "b") (v8 6 2 "x"))|apply (assign_covered 2 _ get yes "b" (v8 6 2 "x"))];
    try done; try (by left); unfold states; set_solver.
Qed.
Lemma sys_fits h l p : w_ilas world !! h = Some l -> m_ila_private_state_names start_model !! l_name l = Some p ->
  (forall s, s ∈ p -> is_Some (Ila.find_state l s)) -> (forall v, (h, v) ∈ states -> Exprs.name v = "x" <-> Exprs.name v ∉ p) ->
  sys_ila_ok world heap start_model h.
Proof.
  intros Hl Hp Hs Hx. assert (Er : rec_of world h = l) by (unfold rec_of; by rewrite Hl).
  assert (Ep : priv_of world start_model h = p) by (unfold priv_of; by rewrite Er, Hp).
  split; rewrite ?Ep, ?Er; [by exists l|apply ila_fits; by exists l|by exists p|done|].
  intros s [v Hv]. destruct (state_inv h s v) as [Hin <-]; [by exists l|]. rewrite <- (Hx v Hin). cbn. by rewrite elem_of_singleton.
Qed.
Lemma system_fits : system_ok world heap start_model [1%N; 2%N] [[11%N]; [12%N]] 15 init always.
Proof.
  split; [|exact heap_fine|reflexivity|done| |].
  - intros m l p [[-> ->]|[[-> ->]|[-> ->]]]%ila_at; done.
  - split; [by exists global_ila|done| |by apply ila_fits; exists global_ila|done|].
    + apply (assign_fit 13 init always "x" (v8 14 13 "x") (v8 14 13 "x")); try done; try (by right); unfold states; set_solver.
    + intros s Hs. assert (s = "x") as -> by (cbn in Hs; set_solver). exists (v8 14 13 "x"). split; [done|].
      apply (state_is 13 (v8 14 13 "x")). unfold states. set_solver.
  - apply Forall2_cons_2; [|apply Forall2_cons_2; [|apply Forall2_nil_2]].
    + split; [|split; [done|apply Forall_singleton, box_put_ok]]. apply (sys_fits 1 sender {[ "a" ]}); [done|done| |].
      * intros s ->%elem_of_singleton. by exists (v8 5 1 "a").
      * intros v. unfold states. rewrite !elem_of_cons, elem_of_nil. intros H. repeat destruct H as [[= ->]|H]; try done; cbn; set_solver.
    + split; [|split; [done|apply Forall_singleton, box_get_ok]]. apply (sys_fits 2 receiver {[ "b" ]}); [done|done| |].
      * intros s ->%elem_of_singleton. by exists (v8 7 2 "b").
      * intros v. unfold states. rewrite !elem_of_cons, elem_of_nil. intros H. repeat destruct H as [[= ->]|H]; try done; cbn; set_solver.
Qed.

(** [put] before [get]; [a] is 7, [x] and [b] start at 0. *)
Definition clock (n : string) : Z :=
  if String.eqb n "put_ts1" then 1 else if String.eqb n "get_ts2" then 2 else 3.
Definition exchange : Model :=
  {| m_const n s :=
       if decide (s = SortBv 32) then VBv 32 (clock n)
       else if decide (s = SortBv 8) then
         VBv 8 (if String.eqb n "__GLOBAL_INIT___sEp_x_sEp_0" || String.eqb n "B_sEp_b_sEp_0" then 0 else 7)
       else default_val s;
     m_fun _ _ s _ := default_val s |}.
Lemma exchange_ok : model_ok exchange.
Proof.
  split; intros; cbn; [|by apply default_val_sort].
  repeat case_decide; subst; [..|by apply default_val_sort].
  - unfold clock. by repeat destruct (String.eqb _ _).
  - by destruct (_ || _).
Qed.
Definition talk := session (Z3 := Terms.terms) (SV := guess exchange) (L := layout_id) [[11%N]; [12%N]] got_seven
  (replicate (length [1%N; 2%N]) true) (world, unroller).
Lemma talk_sat : match talk with Ok (r, _) => r | Fail _ => false end = true.
Proof. vm_compute. reflexivity. Qed.
Lemma talk_true r s' : talk = Ok (r, s') -> r = true.
Proof. intros E. pose proof talk_sat as H. rewrite E in H. exact H. Qed.
Lemma b_state : state_of world 2 "b" (v8 7 2 "b").
Proof. apply (state_is 2 (v8 7 2 "b")). unfold states. set_solver. Qed.
Lemma b_private : "b" ∉ m_shared_state_names start_model.
Proof. cbn. set_solver. Qed.
Lemma property_private s : s ∈ VarUseFinder.Traverse got_seven ∅ -> s ∉ m_shared_state_names start_model.
Proof. cbn. set_solver. Qed.
Lemma property_good : good (w_ilas world) heap got_seven.
Proof. apply all_good. set_solver. Qed.
End ScSample.
Import ScSample.

Lemma ScUnroll_sound_witness : exists σ0 σ ρ, rtc (sc_step world {[ "x" ]}) ([[11%N]; [12%N]], σ0) ([[]; []], σ) /\
  env_ok ρ /\ holds ρ got_seven /\ eval ρ (v8 7 2 "b") = σ (Private 1 "b").
Proof.
  destruct (ScUnroll_sound (Z3 := Terms.terms) (LZ := Terms.terms_laws) (TL := times_laws) (SL := guess_laws exchange exchange_ok) (L := layout_id)
    world heap start_model [1%N; 2%N] [[11%N]; [12%N]] 15 init always system_fits unroller (conj eq_refl eq_refl) got_seven)
    as (r & s' & E & H).
  - exact property_good.
  - reflexivity.
  - exact property_private.
  - destruct (H (talk_true r s' E)) as (σ0 & σ & ρ & H1 & H2 & H3 & H4). exists σ0, σ, ρ. split; [exact H1|]. split; [done|]. split; [done|].
    exact (H4 1%nat 2%N "b" (v8 7 2 "b") eq_refl b_state b_private).
Defined.
