(* ===== verification/McmLoose.v ===== *)
(** * A private state that is written and not read

    [SetLocalState] of [Mcm] links a private state at a step to the last write
    before it only if the step reads the state.  A step that writes it under a
    condition takes its old value from an unconstrained constant then, and the
    unroller accepts an execution that no run of the machine of [McmRun] has. *)
From S2P Require Import Prelude Sort Values Container Expr Smt Solver World Z3Expr ExprOp AstHub Collect Unroller UnrollerSpec Rewrite AbsKnobSpec SolverPasses SolverPassesSpec MonoSpec Bmc TermSpec McmAst Mcm McmSpec McmLink McmRun McmReg McmSc McmSample.
Import InterIlaUnroller.
Local Open Scope Z_scope.

Module LooseSample.
Import Terms ScSample.
(** [clear] sets [b] to 0; [mark] sets it to 7 when [c] is 7. *)
Definition bv8 (id : objid) (n : Z) : Expr := ExprConst {| h_id := id; h_name := Symbol.default_name id; h_host := None; h_sort := SortBv 8 |} (CBv n) [].
Definition same (id : objid) (x y : Expr) : Expr :=
  ExprOp {| h_id := id; h_name := Symbol.default_name id; h_host := Some 1%N; h_sort := SortBool |} kEqual None [x; y] [].
Definition b := v8 4 1 "b".
Definition c := v8 5 1 "c".
Definition zero := bv8 6 0.
Definition seven := bv8 7 7.
Definition nine := bv8 9 9.
Definition c_is_seven := same 10 c seven.
Definition b_is_nine := same 11 b nine.
Definition core : InstrLvlAbs :=
  Ila.with_instrs (Ila.with_states (IlaOk.nil_ila "A" None) (BmcSample.tab [b; c]))
    (KeyVec.push_back (KeyVec.push_back KeyVec.empty "clear" 12%N).2 "mark" 13%N).2.
Definition clear : Instr := {| i_name := "clear"; i_host := Some 1%N; decode_ := Some yes; updates_ := {[ "b" := Some zero ]}; prog_ := None |}.
Definition mark : Instr := {| i_name := "mark"; i_host := Some 1%N; decode_ := Some c_is_seven; updates_ := {[ "b" := Some seven ]}; prog_ := None |}.
Definition before : World := {| counter_ := 13; w_ilas := {[ 1%N := core ]}; w_instrs := {[ 12%N := clear; 13%N := mark ]} |}.
(** What the constructor adds: a global ILA without states. *)
Definition global_ila : InstrLvlAbs := Ila.with_instrs (IlaOk.nil_ila global_name None) (KeyVec.push_back KeyVec.empty "__INIT__" 15%N).2.
Definition init : Instr := {| i_name := "__INIT__"; i_host := Some 14%N; decode_ := Some always; updates_ := ∅; prog_ := None |}.
Definition world : World := {| counter_ := 16; w_ilas := <[14%N := global_ila]> (w_ilas before); w_instrs := <[15%N := init]> (w_instrs before) |}.
Definition unroller : InterIlaUnroller (Z3 := Terms.terms) :=
  {| sys_ila_ := [1%N]; mm_ := NewMemoryModel 0 ∅ ∅ {[ "A" := {[ "b"; "c" ]} ]} 14 []; zexpr_vec_pos_stack_ := []; model_ptr_ := false |}.

(** The model of the constraints: [mark] is not decoded and [b] is 9 before it. *)
Definition clock (n : string) : Z := if String.eqb n "clear_ts1" then 1 else if String.eqb n "mark_ts2" then 2 else 3.
Definition loose : Model :=
  {| m_const n s :=
       if decide (s = SortBv 32) then VBv 32 (clock n)
       else if decide (s = SortBv 8) then VBv 8 (if String.eqb n "A_sEp_b_sEp_2" || String.eqb n "A_sEp_b_sEp_final" then 9 else 0)
       else default_val s;
     m_fun _ _ s _ := default_val s |}.
Lemma loose_ok : model_ok loose.
Proof.
  split; intros; cbn; [|by apply default_val_sort].
  repeat case_decide; subst; [..|by apply default_val_sort].
  - unfold clock. by repeat destruct (String.eqb _ _).
  - by destruct (_ || _).
Qed.
Definition check := session (Z3 := Terms.terms) (SV := guess loose) (L := layout_id) [[12%N; 13%N]] b_is_nine [true] (world, unroller).
Lemma accepted : exists s', check = Ok (true, s').
Proof.
  assert (H : match check with Ok (r, _) => r | Fail _ => false end = true) by (vm_compute; reflexivity).
  destruct check as [[r s']|]; [|done]. subst r. by exists s'.
Qed.

(** The runs of one core. *)
Lemma only_step sh i is_ σ p : sc_step world sh ([i :: is_], σ) p ->
  exists x d ρ, w_instrs world !! i = Some x /\ decode_ x = Some d /\ p = ([is_], exec sh 0 ρ x d σ).
Proof.
  intros H. inversion H as [progs σ' k i' is' x d ρ Hk Hi Hd Hρ Hv]; subst.
  destruct k as [|k]; [|done]. injection Hk as <- <-. exists x, d, ρ. by split_and!.
Qed.
Lemma runs_of sh l σ σ' : rtc (sc_step world sh) ([l], σ) ([[]], σ') ->
  match l with
  | [] => σ' = σ
  | i :: l => exists x d ρ, w_instrs world !! i = Some x /\ decode_ x = Some d /\ rtc (sc_step world sh) ([l], exec sh 0 ρ x d σ) ([[]], σ')
  end.
Proof.
  intros [H|(p & Hs & H)]%rtc_inv.
  - by injection H as -> ->.
  - destruct l as [|i l].
    { inversion Hs as [progs σ1 k i is_ x d ρ Hk]; subst. by destruct k. }
    apply only_step in Hs as (x & d & ρ & Hi & Hd & ->). by exists x, d, ρ.
Qed.
Lemma b_at_end σ σ' : rtc (sc_step world ∅) ([[12%N; 13%N]], σ) ([[]], σ') -> exists n, σ' (Private 0 "b") = Some (VBv 8 n) /\ n <> 9.
Proof.
  assert (Hc : w_instrs world !! 12%N = Some clear) by done. assert (Hm : w_instrs world !! 13%N = Some mark) by done.
  intros (x1 & d1 & ρ1 & E1 & Ed1 & (x2 & d2 & ρ2 & E2 & Ed2 & ->%runs_of)%runs_of)%runs_of.
  rewrite Hc in E1. rewrite Hm in E2. injection E1 as <-. injection E2 as <-. injection Ed1 as <-. injection Ed2 as <-.
  cbn [exec]. rewrite !decide_True by (split; [done|set_solver]). unfold assigned.
  change (Instrs.update mark "b") with (Some seven). change (Instrs.update clear "b") with (Some zero).
  change (eval ρ1 yes) with (Some (VBool true)). change (eval ρ1 zero) with (Some (VBv 8 0)). change (eval ρ2 seven) with (Some (VBv 8 7)).
  cbv iota. destruct (eval ρ2 c_is_seven) as [[[]| |]|]; first [exists 0; by split|exists 7; by split].
Qed.
End LooseSample.

(** C25.  The unroller can accept what no execution does.  A core sets its private
    state [b] to 0, and then, if its state [c] is 7, to 7.  [Unroll],
    [SetFinalProperty], [LinkStates] and [CheckSat], from what the constructor
    returns, find the constraints satisfiable with [b = 9] at the end, while no
    run of the sequentially consistent machine ends like this: the second
    instruction does not read [b], so its old value is not linked to the write of
    the first one. *)
Theorem ScUnroll_unlinked :
  InterIlaUnroller.New (Z3 := Terms.terms) 0 ∅ [1%N] LooseSample.before = Ok (LooseSample.unroller, LooseSample.world) /\
  (exists s', session (Z3 := Terms.terms) (SV := ScSample.guess LooseSample.loose) (L := layout_id) [[12%N; 13%N]] LooseSample.b_is_nine [true]
     (LooseSample.world, LooseSample.unroller) = Ok (true, s')) /\
  Z3SolverLaws (LZ := Terms.terms_laws) (ScSample.guess LooseSample.loose) /\
  ~ exists σ0 σ ρ, rtc (sc_step LooseSample.world ∅) ([[12%N; 13%N]], σ0) ([[]], σ) /\ env_ok ρ /\ holds ρ LooseSample.b_is_nine /\
      eval ρ LooseSample.b = σ (Private 0 "b").
Proof.
  split; [vm_compute; reflexivity|]. split; [exact LooseSample.accepted|].
  split; [exact (ScSample.guess_laws _ LooseSample.loose_ok)|]. intros (σ0 & σ & ρ & Hrun & _ & Hp & Hb).
  destruct (LooseSample.b_at_end σ0 σ Hrun) as (n & En & Hn). rewrite En in Hb. unfold holds in Hp.
  change (eval ρ LooseSample.b_is_nine) with (match eval ρ LooseSample.b with Some v => Some (VBool (bool_decide (v = VBv 8 9))) | None => None end) in Hp.
  rewrite Hb in Hp. injection Hp as Hp%bool_decide_eq_true. congruence.
Qed.
