(* ===== verification/StrUtil.v ===== *)
(** * String utilities

    [src/util/str_util.cc], without the regular expressions and with
    [StrToUpper] and [StrToBool] in [Sort].  A position is a number of
    characters; [std::string::npos] is the absent one.  A loop that may not end
    has fuel. *)
From S2P Require Import Prelude Sort.

(** ** [std::string] *)
Module Str.
Definition npos : option nat := None.
(** [str.substr(n)]. *)
Fixpoint sdrop (n : nat) (s : string) : string :=
  match n, s with S n, String _ s => sdrop n s | _, _ => s end.
Fixpoint stake (n : nat) (s : string) : string :=
  match n, s with S n, String c s => String c (stake n s) | _, _ => EmptyString end.
Definition substr (s : string) (pos n : nat) : string := stake n (sdrop pos s).
Fixpoint starts (p s : string) : bool :=
  match p, s with
  | EmptyString, _ => true
  | String a p, String b s => Ascii.eqb a b && starts p s
  | _, _ => false
  end.
Fixpoint find0 (a s : string) : option nat :=
  if starts a s then Some 0 else match s with EmptyString => None | String _ s => S <$> find0 a s end.
(** [str.find(a, from)]. *)
Definition find (a s : string) (from : nat) : option nat :=
  if String.length s <? from then npos else Nat.add from <$> find0 a (sdrop from s).
Fixpoint sfilter (f : ascii -> bool) (s : string) : string :=
  match s with EmptyString => EmptyString | String c s => if f c then String c (sfilter f s) else sfilter f s end.
Fixpoint smap (f : ascii -> ascii) (s : string) : string :=
  match s with EmptyString => EmptyString | String c s => String (f c) (smap f s) end.
End Str.
Import Str.

(** ** Numbers *)
Local Open Scope Z_scope.
Definition digit_char (uppercase : bool) (digit_val : Z) : ascii :=
  ascii_of_nat (Z.to_nat (if digit_val <? 10 then 48 + digit_val
                          else (if uppercase then 65 else 97) + digit_val - 10)).
Fixpoint int_digits (fuel : nat) (value base : Z) (uppercase : bool) (ret : string) : string :=
  match fuel with
  | O => ret
  | S fuel => if value =? 0 then ret
              else int_digits fuel (value / base) base uppercase (String (digit_char uppercase (value mod base)) ret)
  end.
(** A [uint64_t] has at most 64 digits. *)
Definition IntToStrCustomBase (value base : Z) (uppercase : bool) : Res string :=
  ila_assert ((1 <? base) && (base <=? 36));;
  if value =? 0 then Ok "0" else Ok (int_digits 64 value base uppercase "").

(** [isspace] in the C locale. *)
Definition isspace (c : ascii) : bool :=
  let n := nat_of_ascii c in (n =? 32)%nat || ((9 <=? n)%nat && (n <=? 13)%nat).
Definition tolower (c : ascii) : ascii :=
  let n := nat_of_ascii c in if (65 <=? n)%nat && (n <=? 90)%nat then ascii_of_nat (n + 32) else c.

(** [strtol] and the like: space, a sign, a prefix, digits; what follows is
    ignored.  The value of a digit is at most 35. *)
Definition digit_of (c : ascii) : option Z :=
  let n := Z.of_nat (nat_of_ascii (tolower c)) in
  if (48 <=? n) && (n <=? 57) then Some (n - 48) else
  if (97 <=? n) && (n <=? 122) then Some (n - 87) else None.
Definition digit_in (base : Z) (c : ascii) : option Z := d ← digit_of c; if d <? base then Some d else None.
Fixpoint read_digits (base acc : Z) (s : string) : Z :=
  match s with
  | EmptyString => acc
  | String c s => match digit_in base c with Some d => read_digits base (acc * base + d) s | None => acc end
  end.
Definition has_digit (base : Z) (s : string) : bool :=
  match s with EmptyString => false | String c _ => bool_decide (is_Some (digit_in base c)) end.
Definition is_x (c : ascii) : bool := Ascii.eqb (tolower c) "x".
(** The base that is read, and the rest after a prefix. *)
Definition read_prefix (base : Z) (s : string) : Z * string :=
  match s with
  | String "0" (String c r) =>
      if is_x c && ((base =? 0) || (base =? 16)) && has_digit 16 r then (16, r)
      else (if base =? 0 then 8 else base, s)
  | _ => (if base =? 0 then (match s with String "0" _ => 8 | _ => 10 end) else base, s)
  end.
Fixpoint skip_space (s : string) : string :=
  match s with String c r => if isspace c then skip_space r else s | EmptyString => EmptyString end.
Definition strto (base : Z) (s : string) : option Z :=
  let s := skip_space s in
  let '(neg, s) := match s with
    | String "-" s => (true, s) | String "+" s => (false, s) | _ => (false, s) end in
  let '(base, s) := read_prefix base s in
  if (2 <=? base) && (base <=? 36) && has_digit base s then
    let v := read_digits base 0 s in Some (if neg : bool then - v else v)
  else None.

(** [std::stoi], [std::stoll], [std::stoull]; the exceptions are caught and
    give 0.  An unsigned value is negated modulo [2 ^ 64]. *)
Definition signed_of (w : Z) (r : option Z) : Z :=
  match r with Some v => if (- 2 ^ (w - 1) <=? v) && (v <? 2 ^ (w - 1)) then v else 0 | None => 0 end.
Definition StrToInt (str : string) (base : Z) : Z := signed_of 32 (strto base str).
Definition StrToLong (str : string) (base : Z) : Z := signed_of 64 (strto base str).
Definition StrToULongLong (str : string) (base : Z) : Z :=
  match strto base str with
  | Some v => if Z.abs v <? 2 ^ 64 then SortValue.uint64 v else 0
  | None => 0
  end.
Local Close Scope Z_scope.

(** ** Case and space *)
Definition StrToLower (str : string) : string := smap tolower str.
Definition StrLeftTrim (s : string) : string := skip_space s.
Fixpoint StrRightTrim (s : string) : string :=
  match s with
  | EmptyString => EmptyString
  | String c r => match StrRightTrim r with
                  | EmptyString => if isspace c then EmptyString else String c EmptyString
                  | r => String c r
                  end
  end.
Definition StrTrim (s : string) : string := StrRightTrim (StrLeftTrim s).
Definition RemoveWhiteSpace (s : string) : string := sfilter (fun c => negb (isspace c)) s.

(** ** Parts *)
Definition StrStartsWith (str prefix : string) : bool :=
  (String.length prefix <=? String.length str) && String.eqb (stake (String.length prefix) str) prefix.
Definition StrEndsWith (str suffix : string) : bool :=
  (String.length suffix <=? String.length str) &&
  String.eqb (sdrop (String.length str - String.length suffix) str) suffix.

Fixpoint Split_loop (fuel : nat) (str delim : string) (prev : nat) (tokens : list string) : Res (list string) :=
  match fuel with
  | O => Fail EDiverge
  | S fuel =>
      let pos := default (String.length str) (find delim str prev) in
      let token := substr str prev (pos - prev) in
      let tokens := if String.eqb token "" then tokens else tokens ++ [token] in
      let prev := pos + String.length delim in
      if (pos <? String.length str) && (prev <? String.length str) then Split_loop fuel str delim prev tokens
      else Ok tokens
  end.
Definition Split (str delim : string) : Res (list string) := Split_loop (S (String.length str)) str delim 0 [].

(** [iss >> s] in a loop. *)
Fixpoint words (s word : string) : list string :=
  match s with
  | EmptyString => if String.eqb word "" then [] else [word]
  | String c s => if isspace c then (if String.eqb word "" then words s "" else word :: words s "")
                  else words s (word +:+ String c EmptyString)
  end.
Definition SplitSpaceTabEnter (str : string) : list string := words str "".

Fixpoint Join_loop (delim d : string) (l : list string) (ret : string) : string :=
  match l with [] => ret | s :: l => Join_loop delim delim l (ret +:+ (d +:+ s)) end.
Definition Join (l : list string) (delim : string) : string := Join_loop delim "" l "".

Fixpoint Replace_loop (fuel : nat) (str a b : string) (from : nat) (result : string) : Res string :=
  match fuel with
  | O => Fail EDiverge
  | S fuel =>
      match find a str from with
      | Some pos => Replace_loop fuel str a b (pos + String.length a) (result +:+ substr str from (pos - from) +:+ b)
      | None => Ok (result +:+ sdrop from str)
      end
  end.
Definition ReplaceAll (str a b : string) : Res string := Replace_loop (S (String.length str)) str a b 0 "".

Example Split_sample : Split "a, b,, c" "," = Ok ["a"; " b"; " c"]. Proof. reflexivity. Qed.
Example ReplaceAll_sample : ReplaceAll "aXXbXX" "XX" "-" = Ok "a-b-". Proof. reflexivity. Qed.
Example IntToStr_sample : IntToStrCustomBase 48879 16 false = Ok "beef". Proof. reflexivity. Qed.
Example StrToULongLong_sample : StrToULongLong " 0xBEEFg" 16 = 48879%Z. Proof. reflexivity. Qed.

(** ** Positions and parts *)
Lemma sdrop_add k n s : sdrop (k + n) s = sdrop n (sdrop k s).
Proof. revert s. induction k as [|k IH]; intros [|c s]; cbn; [done..|by destruct n|done]. Qed.
Lemma stake_all n s : String.length s <= n -> stake n s = s.
Proof. revert s. induction n as [|n IH]; intros [|c s] H; cbn in *; try done; try lia. by rewrite IH by lia. Qed.
Lemma stake_sdrop n s : s = stake n s +:+ sdrop n s.
Proof. revert s. induction n as [|n IH]; intros [|c s]; try done. cbn [stake sdrop]. exact (f_equal (String c) (IH s)). Qed.
Lemma sdrop_length n s : String.length (sdrop n s) = String.length s - n.
Proof. revert s. induction n as [|n IH]; intros [|c s]; cbn; auto. Qed.
Lemma slength_app s t : String.length (s +:+ t) = String.length s + String.length t.
Proof. induction s as [|c s IH]; [done|]. exact (f_equal S IH). Qed.
Lemma sdrop_app s t : sdrop (String.length s) (s +:+ t) = t.
Proof. induction s as [|c s IH]; [by destruct t|done]. Qed.

Lemma starts_app a s : starts a s = true <-> s = a +:+ sdrop (String.length a) s.
Proof.
  revert s. induction a as [|x a IH]; intros [|y s]; cbn [starts String.length sdrop]; [done|done|split; discriminate|].
  change (String x a +:+ sdrop (String.length a) s) with (String x (a +:+ sdrop (String.length a) s)).
  rewrite andb_true_iff, IH, Ascii.eqb_eq. split; [by intros [-> <-]|]. intros [= -> E]. done.
Qed.
Lemma starts_same a t : starts a (a +:+ t) = true.
Proof. apply starts_app. by rewrite sdrop_app. Qed.

Definition absent (a s : string) : Prop := find0 a s = None.

Lemma find0_Some a s k : find0 a s = Some k ->
  s = stake k s +:+ a +:+ sdrop (k + String.length a) s /\ k + String.length a <= String.length s.
Proof.
  revert k. induction s as [|c s IH]; intros k; cbn [find0].
  - destruct (starts a "") eqn:E; [|done]. intros [= <-]. apply starts_app in E. cbn [stake Nat.add].
    split; [exact E|]. apply (f_equal String.length) in E. rewrite slength_app in E. lia.
  - destruct (starts a (String c s)) eqn:E.
    + intros [= <-]. apply starts_app in E. cbn [stake Nat.add]. split; [exact E|]. apply (f_equal String.length) in E. rewrite slength_app in E. lia.
    + destruct (find0 a s) as [j|] eqn:Ej; [|done]. intros [= <-]. destruct (IH j eq_refl) as [IHs IHl].
      split; [|cbn; lia]. cbn [stake sdrop Nat.add].
      change (String c s = String c (stake j s +:+ a +:+ sdrop (j + String.length a) s)). by f_equal.
Qed.

(** An occurrence in a prefix is one in the whole. *)
Lemma starts_grow a s t : starts a s = true -> starts a (s +:+ t) = true.
Proof. intros ->%starts_app. rewrite <- str_app_assoc. apply starts_same. Qed.
Lemma find0_grow a s t j : find0 a s = Some j -> exists i, find0 a (s +:+ t) = Some i /\ i <= j.
Proof.
  revert j. induction s as [|c s IH]; intros j; cbn [find0].
  - destruct (starts a "") eqn:E; [|done]. intros [= <-]. exists 0. split; [|done].
    change ("" +:+ t) with t. pose proof (starts_grow a "" t E) as Ht. change ("" +:+ t) with t in Ht.
    destruct t; cbn [find0]; by rewrite Ht.
  - change (String c s +:+ t) with (String c (s +:+ t)). cbn [find0]. destruct (starts a (String c s)) eqn:E.
    + intros [= <-]. exists 0. pose proof (starts_grow a _ t E) as Ht. change (String c s +:+ t) with (String c (s +:+ t)) in Ht.
      by rewrite Ht.
    + destruct (find0 a s) as [i|] eqn:Ei; [|done]. intros [= <-]. destruct (IH i eq_refl) as (i' & E' & Hle). rewrite E'.
      destruct (starts a (String c (s +:+ t))); [exists 0|exists (S i')]; (split; [done|lia]).
Qed.
Lemma find0_first a s k : a <> "" -> find0 a s = Some k -> absent a (stake k s).
Proof.
  intros Ha Hk. unfold absent. destruct (find0 a (stake k s)) as [j|] eqn:E; [|done]. exfalso.
  destruct (find0_grow a _ (sdrop k s) j E) as (i & Hi & Hle). rewrite <- stake_sdrop, Hk in Hi. injection Hi as <-.
  apply find0_Some in E as [_ E]. assert (String.length (stake k s) <= k).
  { clear. revert s. induction k as [|k IH]; intros [|c s]; cbn; try lia. specialize (IH s). lia. }
  destruct a; [done|]. cbn in E. lia.
Qed.

(** ** Joining *)
Fixpoint tail_of (delim : string) (l : list string) : string :=
  match l with [] => "" | s :: l => delim +:+ s +:+ tail_of delim l end.
Lemma Join_loop_tail d l ret : Join_loop d d l ret = ret +:+ tail_of d l.
Proof.
  revert ret. induction l as [|s l IH]; intros ret; cbn [Join_loop tail_of]; [by rewrite str_app_nil|].
  by rewrite IH, <- !str_app_assoc.
Qed.
Lemma Join_cons d s l : Join (s :: l) d = s +:+ tail_of d l.
Proof. unfold Join. cbn [Join_loop]. by rewrite Join_loop_tail. Qed.
Lemma Join_next d s t l : Join (s :: t :: l) d = s +:+ d +:+ Join (t :: l) d.
Proof. by rewrite !Join_cons. Qed.

(** The pieces of a text between the leftmost occurrences of [a]. *)
Inductive pieces (a : string) : string -> list string -> Prop :=
| pieces_last s : absent a s -> pieces a s [s]
| pieces_next s k ps : find0 a s = Some k -> pieces a (sdrop (k + String.length a) s) ps ->
    pieces a s (stake k s :: ps).

Lemma pieces_total a : a <> "" -> forall n s, String.length s <= n -> exists ps, pieces a s ps.
Proof.
  intros Ha. induction n as [|n IH]; intros s Hn; (destruct (find0 a s) as [k|] eqn:E; [|exists [s]; by constructor]).
  all: pose proof (find0_Some _ _ _ E) as [_ Hl].
  - destruct a; [done|]. cbn in Hl. lia.
  - destruct (IH (sdrop (k + String.length a) s)) as [ps Hps].
    + rewrite sdrop_length. destruct a; [done|]. cbn in *. lia.
    + exists (stake k s :: ps). by apply pieces_next.
Qed.
Lemma pieces_cons a s ps : pieces a s ps -> exists p ps', ps = p :: ps'.
Proof. destruct 1; eauto. Qed.
Lemma pieces_join a s ps : pieces a s ps -> Join ps a = s.
Proof.
  induction 1 as [s Hs|s k ps Hk Hps IH]; [rewrite Join_cons; apply str_app_nil|].
  destruct (pieces_cons _ _ _ Hps) as (p & ps' & ->). rewrite Join_next, IH. symmetry. by apply find0_Some.
Qed.
Lemma pieces_absent a s ps : a <> "" -> pieces a s ps -> Forall (absent a) ps.
Proof. intros Ha. induction 1; constructor; auto using Forall_nil_2, find0_first. Qed.

Lemma pieces_same a s ps ps' : pieces a s ps -> pieces a s ps' -> ps = ps'.
Proof.
  intros H. revert ps'. induction H as [s Hs|s k ps Hk _ IH]; intros ps'; inversion 1; subst; unfold absent in *; [done|congruence..|].
  rewrite Hk in *. simplify_eq. f_equal. by apply IH.
Qed.

Lemma find_suffix a str from : from <= String.length str -> find a str from = Nat.add from <$> find0 a (sdrop from str).
Proof. intros H. unfold find. by rewrite (proj2 (Nat.ltb_ge _ _) H). Qed.
Lemma substr_suffix str from k : substr str from (from + k - from) = stake k (sdrop from str).
Proof. unfold substr. f_equal. lia. Qed.

(** ** The loops *)
Lemma Split_loop_pieces delim str : delim <> "" -> forall fuel prev tokens,
  prev <= String.length str -> String.length str - prev < fuel ->
  exists ps, pieces delim (sdrop prev str) ps /\
    Split_loop fuel str delim prev tokens = Ok (tokens ++ filter (fun t => t <> "") ps).
Proof.
  intros Hd. assert (Hdl : 0 < String.length delim) by (destruct delim; [done|cbn; lia]).
  assert (Hadd : forall (tokens : list string) t ps, (if String.eqb t "" then tokens else tokens ++ [t]) ++ filter (fun t => t <> "") ps =
    tokens ++ filter (fun t => t <> "") (t :: ps)).
  { intros tokens t ps. rewrite filter_cons. destruct (String.eqb_spec t "") as [->|Ht].
    - by rewrite decide_False by tauto.
    - rewrite decide_True by done. by rewrite <- app_assoc. }
  induction fuel as [|fuel IH]; intros prev tokens Hp Hf; [lia|].
  cbn [Split_loop]. rewrite find_suffix by done. destruct (find0 delim (sdrop prev str)) as [k|] eqn:E; cbn [fmap option_fmap option_map from_option id].
  - pose proof (find0_Some _ _ _ E) as [_ Hl]. rewrite sdrop_length in Hl. rewrite substr_suffix.
    destruct (Nat.ltb_spec (prev + k + String.length delim) (String.length str)) as [Hlt|Hge].
    + rewrite (proj2 (Nat.ltb_lt _ _)) by lia. cbn [andb]. specialize (IH (prev + k + String.length delim)).
      rewrite <- Nat.add_assoc, (sdrop_add prev) in IH. rewrite Nat.add_assoc in IH.
      destruct (IH (if String.eqb (stake k (sdrop prev str)) "" then tokens else tokens ++ [stake k (sdrop prev str)])
                  ltac:(lia) ltac:(lia)) as (ps & Hps & Er).
      exists (stake k (sdrop prev str) :: ps). split; [by apply pieces_next|]. by rewrite Er, Hadd.
    + rewrite andb_false_r. exists [stake k (sdrop prev str); ""]. split.
      * apply pieces_next; [done|]. assert (sdrop (k + String.length delim) (sdrop prev str) = "") as ->.
        { rewrite <- sdrop_add. assert (String.length (sdrop (prev + (k + String.length delim)) str) = 0) as H0
            by (rewrite sdrop_length; lia). destruct (sdrop (prev + (k + String.length delim)) str); [done|discriminate H0]. }
        constructor. unfold absent. destruct delim; [by destruct Hd|done].
      * by rewrite <- (app_nil_r (if String.eqb _ _ then _ else _)), (Hadd _ _ []).
  - exists [sdrop prev str]. split; [by constructor|]. rewrite Nat.ltb_irrefl. cbn [andb].
    assert (substr str prev (String.length str - prev) = sdrop prev str) as ->.
    { unfold substr. apply stake_all. by rewrite sdrop_length. }
    by rewrite <- (app_nil_r (if String.eqb _ _ then _ else _)), (Hadd _ _ []).
Qed.

Lemma Replace_loop_pieces a b str : a <> "" -> forall fuel from result,
  from <= String.length str -> String.length str - from < fuel ->
  exists ps, pieces a (sdrop from str) ps /\ Replace_loop fuel str a b from result = Ok (result +:+ Join ps b).
Proof.
  intros Ha. assert (Hal : 0 < String.length a) by (destruct a; [done|cbn; lia]).
  induction fuel as [|fuel IH]; intros from result Hp Hf; [lia|].
  cbn [Replace_loop]. rewrite find_suffix by done. destruct (find0 a (sdrop from str)) as [k|] eqn:E; cbn [fmap option_fmap option_map].
  - pose proof (find0_Some _ _ _ E) as [_ Hl]. rewrite sdrop_length in Hl. rewrite substr_suffix.
    destruct (IH (from + k + String.length a) (result +:+ stake k (sdrop from str) +:+ b) ltac:(lia) ltac:(lia)) as (ps & Hps & Er).
    exists (stake k (sdrop from str) :: ps). split.
    + apply pieces_next; [done|]. by rewrite <- sdrop_add, Nat.add_assoc.
    + rewrite Er. destruct (pieces_cons _ _ _ Hps) as (p & ps' & ->). rewrite Join_next. by rewrite !str_app_assoc.
  - exists [sdrop from str]. split; [by constructor|]. by rewrite Join_cons, str_app_nil.
Qed.

(** C32.  [Split] and [ReplaceAll] return for every text when the part that is
    looked for is not empty: the text is cut at its leftmost occurrences into
    pieces that do not have it; [Split] gives the pieces that are not empty,
    [ReplaceAll] the pieces joined by the replacement. *)
Theorem Split_ReplaceAll_spec str a b : a <> "" -> exists ps, Join ps a = str /\ Forall (absent a) ps /\
  Split str a = Ok (filter (fun p => p <> "") ps) /\ ReplaceAll str a b = Ok (Join ps b).
Proof.
  intros Ha. destruct (Split_loop_pieces a str Ha (S (String.length str)) 0 [] ltac:(lia) ltac:(lia)) as (ps & Hps & Es).
  destruct (Replace_loop_pieces a b str Ha (S (String.length str)) 0 "" ltac:(lia) ltac:(lia)) as (ps' & Hps' & Er).
  rewrite (pieces_same _ _ _ _ Hps Hps') in *.
  exists ps'. assert (sdrop 0 str = str) as E0 by (by destruct str). rewrite E0 in Hps.
  split; [by eapply pieces_join|]. split; [by eapply pieces_absent|]. split; [exact Es|exact Er].
Qed.
Lemma Split_ReplaceAll_spec_witness : exists ps, Join ps "," = "a,,b" /\ Forall (absent ",") ps /\
  Split "a,,b" "," = Ok (filter (fun p => p <> "") ps) /\ ReplaceAll "a,,b" "," ";" = Ok (Join ps ";").
Proof. apply (Split_ReplaceAll_spec "a,,b" "," ";"). discriminate. Defined.

(** With an empty delimiter neither loop ever ends. *)
Lemma Split_empty str fuel tokens : str <> "" -> Split_loop fuel str "" 0 tokens = Fail EDiverge.
Proof.
  intros Hs. destruct str as [|c str]; [done|]. revert tokens. induction fuel as [|fuel IH]; intros tokens; [done|].
  exact (IH tokens).
Qed.
Lemma ReplaceAll_empty str b fuel result : Replace_loop fuel str "" b 0 result = Fail EDiverge.
Proof.
  revert result. induction fuel as [|fuel IH]; intros result; [done|]. destruct str as [|c str]; apply IH.
Qed.

(** ** Numbers *)
Local Open Scope Z_scope.
Lemma digit_char_cases (P : ascii -> Z -> Prop) up d : 0 <= d < 36 ->
  Forall (fun d => P (digit_char up d) d) (seqZ 0 36) -> P (digit_char up d) d.
Proof. intros Hd H. rewrite Forall_forall in H. apply H. apply elem_of_seqZ. lia. Qed.

Lemma digit_of_char up d : 0 <= d < 36 -> digit_of (digit_char up d) = Some d.
Proof. intros Hd. apply (digit_char_cases (fun c d => digit_of c = Some d) up d Hd). destruct up; repeat constructor. Qed.
Lemma digit_in_char up base d : 0 <= d < base -> base <= 36 -> digit_in base (digit_char up d) = Some d.
Proof.
  intros Hd Hb. unfold digit_in. rewrite digit_of_char by lia. cbn. by rewrite (proj2 (Z.ltb_lt _ _)) by lia.
Qed.
(** A digit other than 0 is no space, sign or prefix. *)
Lemma strto_digit up base d r : 1 <= d < base -> 2 <= base <= 36 ->
  strto base (String (digit_char up d) r) = Some (read_digits base 0 (String (digit_char up d) r)).
Proof.
  intros Hd Hb. pose proof (digit_in_char up base d ltac:(lia) ltac:(lia)) as Hin.
  assert (Hs : strto base (String (digit_char up d) r) =
    if (2 <=? base) && (base <=? 36) && has_digit base (String (digit_char up d) r)
    then Some (read_digits base 0 (String (digit_char up d) r)) else None).
  { assert (Hb0 : (base =? 0) = false) by (apply Z.eqb_neq; lia). clear Hin.
    assert (H : 1 <= d -> (fun c => strto base (String c r) =
      if (2 <=? base) && (base <=? 36) && has_digit base (String c r) then Some (read_digits base 0 (String c r)) else None)
      (digit_char up d)); [|apply H; lia].
    apply (digit_char_cases (fun c d => 1 <= d -> strto base (String c r) =
      if (2 <=? base) && (base <=? 36) && has_digit base (String c r) then Some (read_digits base 0 (String c r)) else None) up d ltac:(lia)).
    unfold strto, read_prefix. rewrite Hb0.
    let l := eval vm_compute in (seqZ 0 36) in change (seqZ 0 36) with l.
    destruct up; repeat (apply Forall_cons; split; [intros H1; try (exfalso; lia); reflexivity|]); apply Forall_nil_2. }
  rewrite Hs, !(proj2 (Z.leb_le _ _)) by lia. cbn [andb has_digit]. by rewrite bool_decide_eq_true_2 by (rewrite Hin; eauto).
Qed.

Lemma int_digits_read fuel base up ret acc v : 2 <= base <= 36 -> 0 <= v < base ^ Z.of_nat fuel ->
  exists k, 0 <= k /\ read_digits base acc (int_digits fuel v base up ret) = read_digits base (acc * base ^ k + v) ret.
Proof.
  intros Hb. revert v ret. induction fuel as [|fuel IH]; intros v ret Hv; cbn [int_digits].
  - exists 0. split; [done|]. f_equal. cbn in Hv. lia.
  - case_match; bool_inv; [exists 0; split; [done|]; f_equal; lia|].
    pose proof (Z.mod_pos_bound v base ltac:(lia)) as Hm.
    rewrite Nat2Z.inj_succ, Z.pow_succ_r in Hv by lia.
    destruct (IH (v / base) (String (digit_char up (v mod base)) ret)) as (k & Hk & E).
    { split; [apply Z.div_pos; lia|]. apply Z.div_lt_upper_bound; lia. }
    exists (k + 1). split; [lia|]. rewrite E. cbn [read_digits]. rewrite digit_in_char by lia.
    f_equal. rewrite Z.pow_add_r, Z.pow_1_r by lia. pose proof (Z.div_mod v base ltac:(lia)). nia.
Qed.
Lemma int_digits_head fuel base up ret v : 2 <= base <= 36 -> 0 < v < base ^ Z.of_nat fuel ->
  exists d r, 1 <= d < base /\ int_digits fuel v base up ret = String (digit_char up d) r.
Proof.
  intros Hb. revert v ret. induction fuel as [|fuel IH]; intros v ret Hv; [cbn in Hv; lia|]. cbn [int_digits].
  rewrite (proj2 (Z.eqb_neq _ _)) by lia. pose proof (Z.mod_pos_bound v base ltac:(lia)) as Hm.
  rewrite Nat2Z.inj_succ, Z.pow_succ_r in Hv by lia.
  destruct (decide (v < base)) as [Hlt|Hge].
  - rewrite Z.div_small, Z.mod_small by lia. exists v, ret. split; [lia|]. by destruct fuel.
  - apply IH. split; [apply Z.div_str_pos; lia|]. apply Z.div_lt_upper_bound; lia.
Qed.

(** C33.  Reading back a number that [IntToStrCustomBase] wrote, in any base
    and case, gives the number. *)
Theorem IntToStr_StrToULongLong v base up : 0 <= v < 2 ^ 64 -> 2 <= base <= 36 ->
  exists s, IntToStrCustomBase v base up = Ok s /\ StrToULongLong s base = v.
Proof.
  intros Hv Hb. unfold IntToStrCustomBase. rewrite (proj2 (Z.ltb_lt 1 base)), (proj2 (Z.leb_le base 36)) by lia. cbn [andb ila_assert mbind Res_bind].
  destruct (Z.eqb_spec v 0) as [->|Hn]; eexists; (split; [done|]).
  - unfold StrToULongLong, strto. change (skip_space "0") with "0". cbn [read_prefix]. rewrite (proj2 (Z.eqb_neq base 0)) by lia.
    assert (digit_in base "0" = Some 0) as Hz by (exact (digit_in_char false base 0 ltac:(lia) ltac:(lia))).
    cbn [has_digit read_digits]. rewrite Hz. rewrite !(proj2 (Z.leb_le _ _)) by lia. reflexivity.
  - assert (Hp : v < base ^ Z.of_nat 64).
    { pose proof (Z.pow_le_mono_l 2 base 64 ltac:(lia)). change (Z.of_nat 64) with 64. lia. }
    destruct (int_digits_head 64 base up "" v Hb ltac:(lia)) as (d & r & Hd & Es).
    destruct (int_digits_read 64 base up "" 0 v Hb ltac:(lia)) as (k & _ & Er).
    unfold StrToULongLong. rewrite Es, strto_digit, <- Es, Er by lia. cbn [read_digits]. rewrite Z.mul_0_l, Z.add_0_l.
    rewrite (proj2 (Z.ltb_lt _ _)) by lia. unfold SortValue.uint64. by apply Z.mod_small.
Qed.
Lemma IntToStr_StrToULongLong_witness : exists s, IntToStrCustomBase 3735928559 16 false = Ok s /\ StrToULongLong s 16 = 3735928559.
Proof. apply (IntToStr_StrToULongLong 3735928559 16 false); lia. Defined.
