(* ===== verification/Verilog.v ===== *)
(** * Verilog generation

    [src/verilog-out/verilog_gen.cc]: the generator builds a module as text: names
    of signals with their widths, and statements as strings.  The table of names
    that are sanitized and its counter are static; [std::map] and [std::set] are
    maps and sets, printed in order.  Counters are unbounded. *)
From S2P Require Import Prelude Sort Values Container Expr World ExprOp AstHub McmAst StrUtil.
Local Open Scope Z_scope.

(** ** The data *)
Inductive funcOption := Internal | External.
Record VlgGenConfig := {
  extMem : bool;
  fcOpt : funcOption;
  start_signal : bool;
  pass_node_name : bool;
  reg_random_init : bool;
  expand_mem : bool;
  collect_ite_unknown_update : bool }.
Definition default_config : VlgGenConfig :=
  {| extMem := true; fcOpt := Internal; start_signal := false; pass_node_name := false; reg_random_init := false;
     expand_mem := false; collect_ite_unknown_update := false |}.

Abbreviation vlg_name_t := string.
Abbreviation vlg_stmt_t := string.
Abbreviation vlg_sig_t := (string * Z)%type.
Abbreviation vlg_ite_stmt_t := (string * string * string)%type.
Record vlg_mem_t := { mem_name : string; mem_addr_width : Z; mem_data_width : Z; mem_entry_num : Z }.
Record rport_t := { raddr : string; rdata : string; ren : string }.
Record wport_t := { waddr : string; wdata : string; wen : string }.
Record mem_write_entry_t := { addr : Expr; data : Expr }.
Record mem_write_t := { cond : Expr; writes : list mem_write_entry_t }.
Record function_app_t := { fa_args : list vlg_sig_t; fa_result : vlg_sig_t; fa_func_name : string }.

(** The members of [VerilogGeneratorBase], in groups. *)
Record VlgNames := {
  moduleName : string; clkName : string; rstName : string; validName : string; startName : string;
  counterName : string; decodeNames : list string; grantAccName : vlg_sig_t; decodeAccName : vlg_sig_t }.
Record VlgSigs := {
  inputs : gmap string Z; outputs : gmap string Z; mem_i : list vlg_sig_t; mem_o : list vlg_sig_t;
  mem_probe_o : list vlg_sig_t; wires : gmap string Z; wires_keep : gmap string bool; regs : list vlg_sig_t;
  mems_internal : gmap string vlg_mem_t; mems_external : gmap string vlg_mem_t }.
Record VlgBody := {
  init_stmts : list vlg_stmt_t; statements : list vlg_stmt_t; always_stmts : list vlg_stmt_t;
  ite_stmts : list vlg_ite_stmt_t; preheader : vlg_stmt_t }.
Record VlgMaps := {
  nmap : gmap objid vlg_name_t; cmap : gmap (Z * Z) vlg_name_t; idCounter : N; func_ptr_set : list Func;
  sanitizeTable : list (ascii * string); symbol_cnt : N }.
Record VlgPorts := {
  current_writes : list mem_write_t; past_writes : list mem_write_t;
  ila_rports : gmap string (list rport_t); ila_wports : gmap string (list wport_t);
  ila_func_app : list function_app_t; state_update_ite_unknown : gmap string vlg_name_t }.
Record VlgGen := {
  names : VlgNames; sigs : VlgSigs; body : VlgBody; maps : VlgMaps; ports : VlgPorts;
  cfg_ : VlgGenConfig; memory_export_annotation : gmap string bool; reference_name_set : gmap string string }.

Section setters.
Context (g : VlgGen).
Definition with_names (n : VlgNames) : VlgGen :=
  {| names := n; sigs := sigs g; body := body g; maps := maps g; ports := ports g; cfg_ := cfg_ g;
     memory_export_annotation := memory_export_annotation g; reference_name_set := reference_name_set g |}.
Definition with_sigs (s : VlgSigs) : VlgGen :=
  {| names := names g; sigs := s; body := body g; maps := maps g; ports := ports g; cfg_ := cfg_ g;
     memory_export_annotation := memory_export_annotation g; reference_name_set := reference_name_set g |}.
Definition with_body (b : VlgBody) : VlgGen :=
  {| names := names g; sigs := sigs g; body := b; maps := maps g; ports := ports g; cfg_ := cfg_ g;
     memory_export_annotation := memory_export_annotation g; reference_name_set := reference_name_set g |}.
Definition with_maps (m : VlgMaps) : VlgGen :=
  {| names := names g; sigs := sigs g; body := body g; maps := m; ports := ports g; cfg_ := cfg_ g;
     memory_export_annotation := memory_export_annotation g; reference_name_set := reference_name_set g |}.
Definition with_ports (p : VlgPorts) : VlgGen :=
  {| names := names g; sigs := sigs g; body := body g; maps := maps g; ports := p; cfg_ := cfg_ g;
     memory_export_annotation := memory_export_annotation g; reference_name_set := reference_name_set g |}.
(** [AnnotateMemory]. *)
Definition AnnotateMemory (annotation : gmap string bool) : VlgGen :=
  {| names := names g; sigs := sigs g; body := body g; maps := maps g; ports := ports g; cfg_ := cfg_ g;
     memory_export_annotation := annotation; reference_name_set := reference_name_set g |}.
End setters.

Section sub_setters.
Definition set_valid (n : VlgNames) (v : string) : VlgNames :=
  {| moduleName := moduleName n; clkName := clkName n; rstName := rstName n; validName := v; startName := startName n;
     counterName := counterName n; decodeNames := decodeNames n; grantAccName := grantAccName n; decodeAccName := decodeAccName n |}.
Definition set_module (n : VlgNames) (v : string) : VlgNames :=
  {| moduleName := v; clkName := clkName n; rstName := rstName n; validName := validName n; startName := startName n;
     counterName := counterName n; decodeNames := decodeNames n; grantAccName := grantAccName n; decodeAccName := decodeAccName n |}.
Definition set_counter (n : VlgNames) (v : string) : VlgNames :=
  {| moduleName := moduleName n; clkName := clkName n; rstName := rstName n; validName := validName n; startName := startName n;
     counterName := v; decodeNames := decodeNames n; grantAccName := grantAccName n; decodeAccName := decodeAccName n |}.
Definition set_start (n : VlgNames) (v : string) : VlgNames :=
  {| moduleName := moduleName n; clkName := clkName n; rstName := rstName n; validName := validName n; startName := v;
     counterName := counterName n; decodeNames := decodeNames n; grantAccName := grantAccName n; decodeAccName := decodeAccName n |}.
Definition add_decode (n : VlgNames) (v : string) : VlgNames :=
  {| moduleName := moduleName n; clkName := clkName n; rstName := rstName n; validName := validName n; startName := startName n;
     counterName := counterName n; decodeNames := decodeNames n ++ [v]; grantAccName := grantAccName n; decodeAccName := decodeAccName n |}.
Definition set_acc (n : VlgNames) (gr d : vlg_sig_t) : VlgNames :=
  {| moduleName := moduleName n; clkName := clkName n; rstName := rstName n; validName := validName n; startName := startName n;
     counterName := counterName n; decodeNames := decodeNames n; grantAccName := gr; decodeAccName := d |}.
Definition set_inputs (s : VlgSigs) (i : gmap string Z) : VlgSigs :=
  {| inputs := i; outputs := outputs s; mem_i := mem_i s; mem_o := mem_o s; mem_probe_o := mem_probe_o s; wires := wires s;
     wires_keep := wires_keep s; regs := regs s; mems_internal := mems_internal s; mems_external := mems_external s |}.
Definition set_outputs (s : VlgSigs) (o : gmap string Z) : VlgSigs :=
  {| inputs := inputs s; outputs := o; mem_i := mem_i s; mem_o := mem_o s; mem_probe_o := mem_probe_o s; wires := wires s;
     wires_keep := wires_keep s; regs := regs s; mems_internal := mems_internal s; mems_external := mems_external s |}.
Definition set_wires (s : VlgSigs) (w : gmap string Z) (k : gmap string bool) : VlgSigs :=
  {| inputs := inputs s; outputs := outputs s; mem_i := mem_i s; mem_o := mem_o s; mem_probe_o := mem_probe_o s; wires := w;
     wires_keep := k; regs := regs s; mems_internal := mems_internal s; mems_external := mems_external s |}.
Definition set_regs (s : VlgSigs) (r : list vlg_sig_t) : VlgSigs :=
  {| inputs := inputs s; outputs := outputs s; mem_i := mem_i s; mem_o := mem_o s; mem_probe_o := mem_probe_o s; wires := wires s;
     wires_keep := wires_keep s; regs := r; mems_internal := mems_internal s; mems_external := mems_external s |}.
Definition set_mems (s : VlgSigs) (i e : gmap string vlg_mem_t) : VlgSigs :=
  {| inputs := inputs s; outputs := outputs s; mem_i := mem_i s; mem_o := mem_o s; mem_probe_o := mem_probe_o s; wires := wires s;
     wires_keep := wires_keep s; regs := regs s; mems_internal := i; mems_external := e |}.
Definition set_mem_io (s : VlgSigs) (i o p : list vlg_sig_t) : VlgSigs :=
  {| inputs := inputs s; outputs := outputs s; mem_i := i; mem_o := o; mem_probe_o := p; wires := wires s;
     wires_keep := wires_keep s; regs := regs s; mems_internal := mems_internal s; mems_external := mems_external s |}.
Definition set_nmap (m : VlgMaps) (n : gmap objid vlg_name_t) : VlgMaps :=
  {| nmap := n; cmap := cmap m; idCounter := idCounter m; func_ptr_set := func_ptr_set m;
     sanitizeTable := sanitizeTable m; symbol_cnt := symbol_cnt m |}.
Definition set_cmap (m : VlgMaps) (c : gmap (Z * Z) vlg_name_t) : VlgMaps :=
  {| nmap := nmap m; cmap := c; idCounter := idCounter m; func_ptr_set := func_ptr_set m;
     sanitizeTable := sanitizeTable m; symbol_cnt := symbol_cnt m |}.
Definition set_id (m : VlgMaps) (n : N) : VlgMaps :=
  {| nmap := nmap m; cmap := cmap m; idCounter := n; func_ptr_set := func_ptr_set m;
     sanitizeTable := sanitizeTable m; symbol_cnt := symbol_cnt m |}.
Definition set_funcs (m : VlgMaps) (f : list Func) : VlgMaps :=
  {| nmap := nmap m; cmap := cmap m; idCounter := idCounter m; func_ptr_set := f;
     sanitizeTable := sanitizeTable m; symbol_cnt := symbol_cnt m |}.
Definition set_table (m : VlgMaps) (t : list (ascii * string)) (n : N) : VlgMaps :=
  {| nmap := nmap m; cmap := cmap m; idCounter := idCounter m; func_ptr_set := func_ptr_set m;
     sanitizeTable := t; symbol_cnt := n |}.
Definition set_writes (p : VlgPorts) (c past : list mem_write_t) : VlgPorts :=
  {| current_writes := c; past_writes := past; ila_rports := ila_rports p; ila_wports := ila_wports p;
     ila_func_app := ila_func_app p; state_update_ite_unknown := state_update_ite_unknown p |}.
Definition set_rw (p : VlgPorts) (r : gmap string (list rport_t)) (w : gmap string (list wport_t)) : VlgPorts :=
  {| current_writes := current_writes p; past_writes := past_writes p; ila_rports := r; ila_wports := w;
     ila_func_app := ila_func_app p; state_update_ite_unknown := state_update_ite_unknown p |}.
Definition set_apps (p : VlgPorts) (l : list function_app_t) : VlgPorts :=
  {| current_writes := current_writes p; past_writes := past_writes p; ila_rports := ila_rports p; ila_wports := ila_wports p;
     ila_func_app := l; state_update_ite_unknown := state_update_ite_unknown p |}.
Definition set_unknown (p : VlgPorts) (u : gmap string vlg_name_t) : VlgPorts :=
  {| current_writes := current_writes p; past_writes := past_writes p; ila_rports := ila_rports p; ila_wports := ila_wports p;
     ila_func_app := ila_func_app p; state_update_ite_unknown := u |}.
End sub_setters.

Abbreviation G := (ST VlgGen).
Definition on_names (f : VlgNames -> VlgNames) : G unit := modify (fun g => with_names g (f (names g))).
Definition on_sigs (f : VlgSigs -> VlgSigs) : G unit := modify (fun g => with_sigs g (f (sigs g))).
Definition on_body (f : VlgBody -> VlgBody) : G unit := modify (fun g => with_body g (f (body g))).
Definition on_maps (f : VlgMaps -> VlgMaps) : G unit := modify (fun g => with_maps g (f (maps g))).
Definition on_ports (f : VlgPorts -> VlgPorts) : G unit := modify (fun g => with_ports g (f (ports g))).
Definition toStr (x : Z) : string := pretty x.

(** ** [VerilogGeneratorBase] *)

(** *** Names *)
Definition initial_table : list (ascii * string) :=
  [("."%char, "__DOT__"); ("<"%char, "__LT__"); (">"%char, "__GT__"); ("!"%char, "__NOT__"); ("~"%char, "__NEG__");
   ("-"%char, "__DASH__"); ("&"%char, "__AND__"); ("|"%char, "__SEP__"); (" "%char, "__SPACE__"); ("*"%char, "__STAR__");
   ("%"%char, "__PERC__"); ("#"%char, "__BANG__"); ("@"%char, "__AT__"); ("0"%char, "__ZERO__"); ("1"%char, "__ONE__");
   ("2"%char, "__TWO__"); ("3"%char, "__THREE__"); ("4"%char, "__FOUR__"); ("5"%char, "__FIVE__"); ("6"%char, "__SIX__");
   ("7"%char, "__SEVEN__"); ("8"%char, "__EIGHT__"); ("9"%char, "__NINE__")].
Definition isalnum (c : ascii) : bool :=
  let n := nat_of_ascii c in
  digit c || ((65 <=? n)%nat && (n <=? 90)%nat) || ((97 <=? n)%nat && (n <=? 122)%nat).
Definition plain_char (c : ascii) : bool := isalnum c || Ascii.eqb c "_" || Ascii.eqb c "$".
Definition table_find (t : list (ascii * string)) (c : ascii) : option string :=
  snd <$> List.find (fun p => Ascii.eqb p.1 c) t.
Definition get_symbol_new : G string :=
  g ← get;
  on_maps (fun m => set_table m (sanitizeTable m) (symbol_cnt m + 1)%N);;
  mret ("n" +:+ pretty (symbol_cnt (maps g))).
(** [sanitizeTable[c]] inserts an empty string for an absent key; the digits
    are present. *)
Definition sanitize_char (first : bool) (c : ascii) : G string :=
  g ← get;
  let t := sanitizeTable (maps g) in
  if first && digit c then mret (default "" (table_find t c)) else
  if plain_char c then mret (String c "") else
  match table_find t c with
  | Some s => mret s
  | None =>
      n ← get_symbol_new;
      let newName := "_s_" +:+ n +:+ "_s_" in
      on_maps (fun m => set_table m (sanitizeTable m ++ [(c, newName)]) (symbol_cnt m));;
      mret newName
  end.
Fixpoint sanitize_loop (first : bool) (n : string) : G string :=
  match n with
  | EmptyString => mret ""
  | String c n => s ← sanitize_char first c; r ← sanitize_loop false n; mret (s +:+ r)
  end.
Definition sanitizeName (n : vlg_name_t) : G vlg_name_t := sanitize_loop true n.
Definition sanitizeName_e (n : Expr) : G vlg_name_t :=
  lift (ila_assert (Exprs.is_var n));; sanitizeName (Exprs.name n).

Definition check_reserved_name (g : VlgGen) (n : vlg_name_t) : bool :=
  let m := names g in
  negb (bool_decide (n ∈ [moduleName m; clkName m; rstName m; validName m; counterName m; startName m] ++ decodeNames m)).

Definition IlaBvValTypeBits : Z := 64.
Definition ToVlgNum (value width : Z) : Res string :=
  let maxpos := if IlaBvValTypeBits <=? width then 2 ^ 64 - 1 else 2 ^ width - 1 in
  ila_assert ((0 <=? value) && (value <=? maxpos));;
  valstr ← IntToStrCustomBase value 16 false;
  Ok (toStr width +:+ "'h" +:+ valstr).

Definition get_width (n : Expr) : Res Z :=
  match Exprs.sort n with
  | SortBool => Ok 1
  | SortBv w => Ok w
  | SortMem _ dw => Ok dw
  | _ => Fail EAssert
  end.
Definition WidthToRange (w : Z) : string := if 1 <? w then "[" +:+ toStr (w - 1) +:+ ":0]" else "".

Definition new_id : G vlg_name_t :=
  g ← get;
  on_maps (fun m => set_id m (idCounter m + 1)%N);;
  mret ("n" +:+ pretty (idCounter (maps g))).
Definition new_id_e (e : Expr) : G vlg_name_t :=
  g ← get;
  if pass_node_name (cfg_ g) then
    i ← new_id; s ← sanitizeName (Exprs.name e); mret (i +:+ "__" +:+ s)
  else
    match reference_name_set g !! Exprs.name e with
    | None => new_id
    | Some s => i ← new_id; mret (i +:+ "__" +:+ s)
    end.

(** *** Signals and statements *)
Definition insert_new {A} (n : string) (a : A) (m : gmap string A) : gmap string A :=
  match m !! n with Some _ => m | None => <[n := a]> m end.
Definition check_redeclare (m : gmap string Z) (n : string) (w : Z) : G unit :=
  lift (match m !! n with Some w' => ila_check (w' =? w) | None => Ok () end).
Definition add_input (n : vlg_name_t) (w : Z) : G unit :=
  g ← get; check_redeclare (inputs (sigs g)) n w;;
  on_sigs (fun s => set_inputs s (insert_new n w (inputs s))).
Definition add_output (n : vlg_name_t) (w : Z) : G unit :=
  g ← get; check_redeclare (outputs (sigs g)) n w;;
  on_sigs (fun s => set_outputs s (insert_new n w (outputs s))).
Definition add_wire_keep (n : vlg_name_t) (w : Z) (keep : bool) : G unit :=
  g ← get; check_redeclare (wires (sigs g)) n w;;
  on_sigs (fun s => set_wires s (insert_new n w (wires s))
    (if keep then insert_new n true (wires_keep s) else wires_keep s)).
Definition add_wire (n : vlg_name_t) (w : Z) : G unit := add_wire_keep n w false.
Definition add_reg (n : vlg_name_t) (w : Z) : G unit := on_sigs (fun s => set_regs s (regs s ++ [(n, w)])).
Definition add_stmt (s : vlg_stmt_t) : G unit := on_body (fun b =>
  {| init_stmts := init_stmts b; statements := statements b ++ [s]; always_stmts := always_stmts b;
     ite_stmts := ite_stmts b; preheader := preheader b |}).
Definition add_assign_stmt (l r : vlg_name_t) : G unit := add_stmt ("assign " +:+ l +:+ " = " +:+ r +:+ " ;").
Definition add_always_stmt (s : vlg_stmt_t) : G unit := on_body (fun b =>
  {| init_stmts := init_stmts b; statements := statements b; always_stmts := always_stmts b ++ [s];
     ite_stmts := ite_stmts b; preheader := preheader b |}).
Definition add_init_stmt (s : vlg_stmt_t) : G unit := on_body (fun b =>
  {| init_stmts := init_stmts b ++ [s]; statements := statements b; always_stmts := always_stmts b;
     ite_stmts := ite_stmts b; preheader := preheader b |}).
Definition add_ite_stmt (cond tstmt fstmt : vlg_stmt_t) : G unit := on_body (fun b =>
  {| init_stmts := init_stmts b; statements := statements b; always_stmts := always_stmts b;
     ite_stmts := ite_stmts b ++ [(cond, tstmt, fstmt)]; preheader := preheader b |}).
Definition add_preheader (stmt : vlg_stmt_t) : G unit := on_body (fun b =>
  {| init_stmts := init_stmts b; statements := statements b; always_stmts := always_stmts b;
     ite_stmts := ite_stmts b; preheader := preheader b +:+ stmt |}).
Definition vlg_mem (n : vlg_name_t) (aw dw en : Z) : vlg_mem_t :=
  {| mem_name := n; mem_addr_width := aw; mem_data_width := dw; mem_entry_num := en |}.
Definition add_internal_mem (n : vlg_name_t) (aw dw en : Z) : G unit :=
  on_sigs (fun s => set_mems s (insert_new n (vlg_mem n aw dw en) (mems_internal s)) (mems_external s)).
Definition add_external_mem (n : vlg_name_t) (aw dw en : Z) : G unit :=
  on_sigs (fun s => set_mems s (mems_internal s) (insert_new n (vlg_mem n aw dw en) (mems_external s))).
Definition push_mem_i (n : vlg_name_t) (w : Z) : G unit :=
  on_sigs (fun s => set_mem_io s (mem_i s ++ [(n, w)]) (mem_o s) (mem_probe_o s)).
Definition push_mem_o (n : vlg_name_t) (w : Z) : G unit :=
  on_sigs (fun s => set_mem_io s (mem_i s) (mem_o s ++ [(n, w)]) (mem_probe_o s)).
Definition push_mem_probe_o (n : vlg_name_t) (w : Z) : G unit :=
  on_sigs (fun s => set_mem_io s (mem_i s) (mem_o s) (mem_probe_o s ++ [(n, w)])).

(** The constructor; the statics are arguments. *)
Definition fresh_gen (config : VlgGenConfig) (modName clk rst : string) (t : list (ascii * string)) (n : N) : VlgGen :=
  {| names := {| moduleName := modName; clkName := clk; rstName := rst; validName := ""; startName := ""; counterName := "";
                 decodeNames := []; grantAccName := ("", 0); decodeAccName := ("", 0) |};
     sigs := {| inputs := ∅; outputs := ∅; mem_i := []; mem_o := []; mem_probe_o := []; wires := ∅; wires_keep := ∅; regs := [];
                mems_internal := ∅; mems_external := ∅ |};
     body := {| init_stmts := []; statements := []; always_stmts := []; ite_stmts := []; preheader := "" |};
     maps := {| nmap := ∅; cmap := ∅; idCounter := 0; func_ptr_set := []; sanitizeTable := t; symbol_cnt := n |};
     ports := {| current_writes := []; past_writes := []; ila_rports := ∅; ila_wports := ∅; ila_func_app := [];
                 state_update_ite_unknown := ∅ |};
     cfg_ := config; memory_export_annotation := ∅; reference_name_set := ∅ |}.
Definition New (config : VlgGenConfig) (modName clk rst : string) (t : list (ascii * string)) (n : N) : Res VlgGen :=
  '(_, g) ← (add_wire clk 1;; add_input clk 1;; add_wire rst 1;; add_input rst 1;;
    if start_signal config then
      on_names (fun m => set_start m "__START__");; add_wire "__START__" 1;; add_input "__START__" 1
    else mret () : G unit) (fresh_gen config modName clk rst t n);
  Ok g.

(** ** [VerilogGenerator] *)
Section gen.
Context {L : Layout}.

(** *** Inputs, states, the counter *)
Definition insertInput (input : Expr) : G unit :=
  lift (ila_check (Exprs.is_var input));;
  if Exprs.is_mem input then lift (Fail ECheck) else
  n ← sanitizeName_e input; w ← lift (get_width input); add_input n w;;
  add_wire n w.

Definition mem_widths (e : Expr) : Res (Z * Z) :=
  match Exprs.sort e with SortMem aw dw => Ok (aw, dw) | _ => Fail EAssert end.
Definition probe (n : vlg_name_t) (data_width : Z) (idx : Z) (_ : unit) : G unit :=
  let probe_wire_name := n +:+ "_" +:+ toStr idx in
  push_mem_probe_o probe_wire_name data_width;;
  add_wire probe_wire_name data_width;;
  add_assign_stmt probe_wire_name (n +:+ "[" +:+ toStr idx +:+ "]").
Definition insert_reg (state : Expr) (w : Z) : G unit :=
  reg_name ← sanitizeName_e state;
  add_reg reg_name w;;
  g ← get;
  if reg_random_init (cfg_ g) then
    add_wire_keep (reg_name +:+ "_randinit") w true;;
    add_init_stmt (reg_name +:+ " <= " +:+ reg_name +:+ "_randinit ;")
  else mret ().
Definition is_external (g : VlgGen) (state : Expr) : bool :=
  default (extMem (cfg_ g)) (memory_export_annotation g !! Exprs.name state).
Definition insertState (state : Expr) : G unit :=
  lift (ila_assert (Exprs.is_var state));;
  match Exprs.sort state with
  | SortMem aw dw =>
      g ← get;
      n ← sanitizeName_e state;
      en ← lift (asthub.GetMemSize state);
      if is_external g state then add_external_mem n aw dw en
      else
        add_internal_mem n aw dw en;;
        if expand_mem (cfg_ g) then
          let addr_range := 2 ^ aw in
          let addr_range := if negb (en =? 0) && (en <=? addr_range) then en else addr_range in
          foldM (probe n dw) (seqZ 0 addr_range) ()
        else mret ()
  | SortBv w => insert_reg state w
  | SortBool => insert_reg state 1
  | _ => mret ()
  end.

Definition addInternalCounter (decode_sig_name : vlg_name_t) (width : Z) : G unit :=
  i ← new_id;
  let counterName := "__COUNTER_start__" +:+ i in
  on_names (fun n => set_counter n counterName);;
  let max_val := 2 ^ width - 1 in
  let inc_cond := "(" +:+ counterName +:+ " >= 1 ) && ( " +:+ counterName +:+ " < " +:+ toStr max_val +:+ " )" in
  add_reg counterName width;;
  add_init_stmt (counterName +:+ " <= 0;");;
  let nl := String (ascii_of_nat 10) "" in
  add_always_stmt ("if ( " +:+ decode_sig_name +:+ " ) begin " +:+ nl +:+ "           " +:+ counterName +:+ " <= 1; end" +:+ nl +:+
    "       " +:+ "else if( " +:+ inc_cond +:+ ") begin" +:+ nl +:+ "           " +:+ counterName +:+ " <= " +:+ counterName +:+ " + 1; end").

(** *** Expressions *)
Definition getVlgFromExpr (e : Expr) : G vlg_name_t :=
  g ← get; lift (match nmap (maps g) !! Exprs.id e with Some n => Ok n | None => Fail EAssert end).
Definition getArg (e : Expr) (i : nat) : G vlg_name_t := a ← lift (Exprs.arg e i); getVlgFromExpr a.
Definition set_name (e : Expr) (n : vlg_name_t) : G unit := on_maps (fun m => set_nmap m (<[Exprs.id e := n]> (nmap m))).

Definition fun_width (e : Expr) : Res Z :=
  match Exprs.sort e with SortBool => Ok 1 | s => Sorts.bit_width s end.
Definition scalar (e : Expr) : bool := match Exprs.sort e with SortBool | SortBv _ => true | _ => false end.
Definition nl : string := String (ascii_of_nat 10) "".
Definition inst_arg (e : Expr) (i : nat) (s : string) : G string :=
  a ← lift (Exprs.arg e i);
  lift (ila_assert (scalar a));;
  n ← getArg e i;
  mret (s +:+ "    .arg" +:+ toStr (Z.of_nat i) +:+ "( " +:+ n +:+ " )," +:+ nl).
Definition app_arg (e : Expr) (prefix : string) (i : nat) (_ : unit) : G unit :=
  let argOutName := prefix +:+ "_arg" +:+ toStr (Z.of_nat i) in
  a ← lift (Exprs.arg e i);
  lift (ila_assert (scalar a));;
  argWidth ← lift (get_width a);
  add_wire argOutName argWidth;;
  add_output argOutName argWidth;;
  n ← getArg e i;
  add_assign_stmt argOutName n;;
  on_ports (fun p => set_apps p (match rev (ila_func_app p) with
    | f :: l => rev l ++ [{| fa_args := fa_args f ++ [(argOutName, argWidth)]; fa_result := fa_result f; fa_func_name := fa_func_name f |}]
    | [] => [] end)).
Definition push_app (r : string) (w : Z) (f : string) : G unit := on_ports (fun p =>
  set_apps p (ila_func_app p ++ [{| fa_args := []; fa_result := (r, w); fa_func_name := f |}])).
Definition translateApplyFunc (e : Expr) (f : Func) : G vlg_name_t :=
  width ← lift (fun_width e);
  func_name ← sanitizeName (f_name f);
  if (Exprs.arg_num e =? 0)%nat then
    i ← new_id;
    let result_stmt := "nondet_" +:+ func_name +:+ "_" +:+ i in
    add_wire result_stmt width;;
    add_input result_stmt width;;
    push_app result_stmt width func_name;;
    mret result_stmt
  else
    on_maps (fun m => set_funcs m (FunctionApplicationFinder.func_insert f (func_ptr_set m)));;
    g ← get;
    match fcOpt (cfg_ g) with
    | Internal =>
        result_stmt ← new_id_e e;
        add_wire result_stmt width;;
        i ← new_id;
        s ← foldM (inst_arg e) (seq 0 (Exprs.arg_num e)) ("fun_" +:+ func_name +:+ "  " +:+ "applyFunc_" +:+ i +:+ "(" +:+ nl);
        add_stmt (s +:+ "    .result( " +:+ result_stmt +:+ " )" +:+ nl +:+ ");");;
        mret result_stmt
    | External =>
        func_name ← sanitizeName (f_name f);
        i ← new_id;
        let prefix := "fun_" +:+ func_name +:+ "_applyFunc_" +:+ i in
        let resultName := prefix +:+ "_result" in
        add_input resultName width;;
        add_wire resultName width;;
        push_app resultName width func_name;;
        foldM (app_arg e prefix) (seq 0 (Exprs.arg_num e)) ();;
        mret resultName
    end.

(** The text of a Boolean operation on one, two and three arguments. *)
Definition bool_op1 (op : AstUidExprOp) (a : string) : Res string :=
  match op with kNot => Ok ("~ ( " +:+ a +:+ " ) ") | _ => Fail EAssert end.
Definition bool_op2 (op : AstUidExprOp) (a b : string) : Res string :=
  match op with
  | kAnd => Ok (" ( " +:+ a +:+ " ) & (" +:+ b +:+ " ) ")
  | kOr => Ok (" ( " +:+ a +:+ " ) | ( " +:+ b +:+ " ) ")
  | kXor => Ok (" ( " +:+ a +:+ " ) ^ ( " +:+ b +:+ " ) ")
  | kEqual => Ok (" ( " +:+ a +:+ " ) == ( " +:+ b +:+ " ) ")
  | kImply => Ok (" ( ~ ( " +:+ a +:+ " ) | ( " +:+ b +:+ " ) )")
  | kLessThan => Ok (" $signed( " +:+ a +:+ " ) < $signed( " +:+ b +:+ " ) ")
  | kGreaterThan => Ok (" $signed( " +:+ a +:+ " ) > $signed( " +:+ b +:+ " ) ")
  | kUnsignedLessThan => Ok (" ( " +:+ a +:+ " ) < ( " +:+ b +:+ " ) ")
  | kUnsignedGreaterThan => Ok (" ( " +:+ a +:+ " ) > ( " +:+ b +:+ " ) ")
  | _ => Fail EAssert
  end.
Definition bool_op3 (op : AstUidExprOp) (a b c : string) : Res string :=
  match op with
  | kIfThenElse => Ok (" ( " +:+ a +:+ " ) ? ( " +:+ b +:+ " ) : ( " +:+ c +:+ " ) ")
  | _ => Fail EAssert
  end.
Definition bool_stmt (e : Expr) (op : AstUidExprOp) (fn : option Func) : G string :=
  match op, fn, Exprs.arg_num e with
  | kApplyFunc, Some f, _ => translateApplyFunc e f
  | kApplyFunc, None, _ => lift (Fail ECheck)
  | _, _, 1%nat => match op with kNot => a ← getArg e 0; lift (bool_op1 op a) | _ => lift (Fail EAssert) end
  | _, _, 2%nat => a ← getArg e 0; b ← getArg e 1; lift (bool_op2 op a b)
  | _, _, 3%nat => a ← getArg e 0; b ← getArg e 1; c ← getArg e 2; lift (bool_op3 op a b c)
  | _, _, _ => mret ""
  end.
Definition translateBoolOp (e : Expr) (op : AstUidExprOp) (fn : option Func) : G vlg_name_t :=
  _ ← lift (Exprs.op_name op);
  result_stmt ← bool_stmt e op fn;
  result_var ← new_id_e e;
  add_wire result_var 1;;
  add_assign_stmt result_var result_stmt;;
  mret result_var.

(** The text of a vector operation; [inw] is the width of the first argument
    and [cst] tells that it is a constant. *)
Definition bv_op1 (op : AstUidExprOp) (ps : list Z) (inw : Res Z) (cst : bool) (a : string) : Res string :=
  match op with
  | kNegate => Ok ("( ~ ( " +:+ a +:+ " ) + 1'b1 )")
  | kComplement => Ok ("~ ( " +:+ a +:+ " )")
  | kExtract => hi ← Exprs.at_ ps 0; lo ← Exprs.at_ ps 1; Ok (a +:+ "[" +:+ toStr hi +:+ ":" +:+ toStr lo +:+ "]")
  | kZeroExtend =>
      outw ← Exprs.at_ ps 0; inw ← inw;
      if outw =? inw then Ok a else Ok (" {" +:+ toStr (outw - inw) +:+ "'d0 , " +:+ a +:+ "} ")
  | kSignedExtend =>
      outw ← Exprs.at_ ps 0; inw ← inw;
      if outw =? inw then Ok a else
      if cst && (inw =? 1) then Ok (" { {" +:+ toStr (outw - inw) +:+ "{" +:+ a +:+ "} }, " +:+ a +:+ "} ") else
      Ok (" { {" +:+ toStr (outw - inw) +:+ "{" +:+ a +:+ "[" +:+ toStr (inw - 1) +:+ "]} }, " +:+ a +:+ "} ")
  | kRotateRight =>
      rotw ← Exprs.at_ ps 0; inw ← inw;
      Ok (" { ( " +:+ a +:+ "[" +:+ toStr (rotw - 1) +:+ ":0] ), ( " +:+ a +:+ "[" +:+ toStr (inw - 1) +:+ ":" +:+ toStr rotw +:+ "] ) } ")
  | kRotateLeft =>
      rotw ← Exprs.at_ ps 0; inw ← inw;
      Ok (" { ( " +:+ a +:+ "[" +:+ toStr (inw - 1 - rotw) +:+ ":0] ), ( " +:+ a +:+ "[" +:+ toStr (inw - 1) +:+ ":" +:+
          toStr (inw - rotw) +:+ "] ) } ")
  | _ => Fail EAssert
  end.
Definition bv_op2 (op : AstUidExprOp) (a b : string) : Res string :=
  match op with
  | kAnd => Ok (" ( " +:+ a +:+ " ) & ( " +:+ b +:+ " ) ")
  | kOr => Ok (" ( " +:+ a +:+ " ) | ( " +:+ b +:+ " ) ")
  | kXor => Ok (" ( " +:+ a +:+ " ) ^ ( " +:+ b +:+ " ) ")
  | kShiftLeft => Ok (" ( " +:+ a +:+ " ) << ( " +:+ b +:+ " ) ")
  | kArithShiftRight => Ok (" ( $signed( " +:+ a +:+ " ) >>> ( " +:+ b +:+ " )) ")
  | kLogicShiftRight => Ok (" ( ( " +:+ a +:+ " ) >> ( " +:+ b +:+ " )) ")
  | kAdd => Ok (" ( " +:+ a +:+ " ) + ( " +:+ b +:+ " ) ")
  | kSubtract => Ok (" ( " +:+ a +:+ " ) - ( " +:+ b +:+ " ) ")
  | kMultiply => Ok (" ( " +:+ a +:+ " ) * ( " +:+ b +:+ " ) ")
  | kDivide => Ok (" ( " +:+ a +:+ " ) / ( " +:+ b +:+ " ) ")
  | kUnsignedRemainder => Ok (" ( " +:+ a +:+ " ) % ( " +:+ b +:+ " ) ")
  | kConcatenate => Ok (" { ( " +:+ a +:+ " ) , ( " +:+ b +:+ " ) } ")
  | _ => Fail EAssert
  end.
Definition bv_op3 (op : AstUidExprOp) (a b c : string) : Res string :=
  match op with
  | kIfThenElse => Ok (" ( " +:+ a +:+ " ) ? ( " +:+ b +:+ " ) : ( " +:+ c +:+ " )")
  | _ => Fail EAssert
  end.
(** A load: an external memory has a port per load. *)
Definition translate_load (e : Expr) (arg1 arg2 : vlg_name_t) : G string :=
  m ← lift (Exprs.arg e 0);
  lift (ila_assert (Exprs.is_var m));;
  mem_var_name ← sanitizeName_e m;
  g ← get;
  match mems_external (sigs g) !! mem_var_name with
  | Some mem =>
      i ← new_id;
      let addr_name := arg1 +:+ "_addr_" +:+ i in
      j ← new_id;
      let data_name := arg1 +:+ "_data_" +:+ j in
      push_mem_o addr_name (mem_addr_width mem);;
      push_mem_i data_name (mem_data_width mem);;
      add_wire addr_name (mem_addr_width mem);;
      add_wire data_name (mem_data_width mem);;
      on_ports (fun p => set_rw p (<[mem_var_name := default [] (ila_rports p !! mem_var_name) ++
        [{| raddr := addr_name; rdata := data_name; ren := "__START__" |}]]> (ila_rports p)) (ila_wports p));;
      add_assign_stmt addr_name arg2;;
      mret data_name
  | None => mret (" (  " +:+ mem_var_name +:+ "[" +:+ arg2 +:+ "] ) ")
  end.
Definition bv_stmt (e : Expr) (op : AstUidExprOp) (fn : option Func) : G string :=
  match op, fn, Exprs.arg_num e with
  | kApplyFunc, Some f, _ => translateApplyFunc e f
  | kApplyFunc, None, _ => lift (Fail ECheck)
  | _, _, 1%nat =>
      a ← getArg e 0; x ← lift (Exprs.arg e 0);
      lift (bv_op1 op (Exprs.params e) (get_width x) (Exprs.is_const x) a)
  | kLoad, _, 2%nat => a ← getArg e 0; b ← getArg e 1; translate_load e a b
  | _, _, 2%nat => a ← getArg e 0; b ← getArg e 1; lift (bv_op2 op a b)
  | _, _, 3%nat => a ← getArg e 0; b ← getArg e 1; c ← getArg e 2; lift (bv_op3 op a b c)
  | _, _, _ => lift (Fail EAssert)
  end.
Definition translateBvOp (e : Expr) (op : AstUidExprOp) (fn : option Func) : G vlg_name_t :=
  _ ← lift (Exprs.op_name op);
  result_stmt ← bv_stmt e op fn;
  result_var ← new_id_e e;
  w ← lift (get_width e);
  add_wire result_var w;;
  add_assign_stmt result_var result_stmt;;
  mret result_var.

(** Constants are shared by value and width. *)
Definition translate_const (e : Expr) (value : Z) : G vlg_name_t :=
  width ← lift (get_width e);
  lift (ila_assert (0 <? width));;
  g ← get;
  match cmap (maps g) !! (value, width) with
  | Some n => mret n
  | None =>
      bvcnst ← lift (ToVlgNum value width);
      i ← new_id_e e;
      let result_var := "bv_" +:+ toStr width +:+ "_" +:+ toStr value +:+ "_" +:+ i in
      add_wire result_var width;;
      add_assign_stmt result_var bvcnst;;
      on_maps (fun m => set_cmap m (<[(value, width) := result_var]> (cmap m)));;
      mret result_var
  end.
Fixpoint ParseNonMemUpdateExpr (e : Expr) : G unit :=
  g ← get;
  match nmap (maps g) !! Exprs.id e with
  | Some _ => mret ()
  | None =>
      match e with
      | ExprVar h _ =>
          match h_sort h with
          | SortBool | SortBv _ | SortMem _ _ => n ← sanitizeName_e e; set_name e n
          | _ => lift (Fail EAssert)
          end
      | ExprConst h c _ =>
          match h_sort h, c with
          | SortBool, CBool b => set_name e ("1'b" +:+ (if b then "1" else "0"))
          | SortBv _, CBv value => n ← translate_const e value; set_name e n
          | SortMem _ _, _ => n ← sanitizeName_e e; set_name e n
          | SortBool, _ | SortBv _, _ => lift (Fail ENull)
          | _, _ => lift (Fail EAssert)
          end
      | ExprOp h op fn args _ =>
          let parseArg := (fix parseArg (l : list Expr) : G unit :=
             match l with [] => mret () | a :: l => ParseNonMemUpdateExpr a;; parseArg l end) in
          match h_sort h with
          | SortBool => parseArg args;; n ← translateBoolOp e op fn; set_name e n
          | SortBv _ => parseArg args;; n ← translateBvOp e op fn; set_name e n
          | _ => lift (Fail EAssert)
          end
      end
  end.

(** *** Updates of memories *)
Fixpoint CheckMemUpdateNode (e : Expr) (mem_var_name : string) : G bool :=
  lift (ila_assert (Exprs.is_mem e));;
  match e with
  | ExprConst _ _ _ => mret false
  | ExprVar _ _ => n ← sanitizeName_e e; mret (String.eqb n mem_var_name)
  | ExprOp _ op _ args _ =>
      match op, args with
      | kStore, m :: _ => CheckMemUpdateNode m mem_var_name
      | kIfThenElse, [_; t; f] =>
          b ← CheckMemUpdateNode t mem_var_name;
          if (b : bool) then CheckMemUpdateNode f mem_var_name else mret false
      | kStore, _ | kIfThenElse, _ => lift (Fail EThrow)
      | _, _ => mret false
      end
  end.

Abbreviation MG := (ST (World * VlgGen)).
Definition on_world {A} (m : M A) : MG A := fun s =>
  match m s.1 with Ok (a, w) => Ok (a, (w, s.2)) | Fail e => Fail e end.
Definition on_gen {A} (m : G A) : MG A := fun s =>
  match m s.2 with Ok (a, g) => Ok (a, (s.1, g)) | Fail e => Fail e end.
Definition push_write (c : Expr) (l : list mem_write_entry_t) : G unit := on_ports (fun p =>
  set_writes p (current_writes p ++ [{| cond := c; writes := l |}]) (past_writes p)).

(** The back of the stack is its head; a node that is no [Ite] is taken for a
    [Store]. *)
Abbreviation write_stack := (list (list mem_write_entry_t)).
Definition back (s : write_stack) : list mem_write_entry_t := default [] (head s).
Fixpoint VisitMemNodes (e : Expr) (cond : Expr) (writesStack : write_stack) : MG write_stack :=
  match e with
  | ExprVar _ _ => on_gen (push_write cond (back writesStack));; mret writesStack
  | ExprConst _ _ _ => lift (Fail ECheck)
  | ExprOp _ op _ args _ =>
      match op, args with
      | kIfThenElse, [c; t; f] =>
          ctrue ← on_world (asthub.And cond c);
          nc ← on_world (asthub.Not c);
          cfalse ← on_world (asthub.And cond nc);
          let writes := back writesStack in
          s ← VisitMemNodes t ctrue (writes :: writesStack);
          s ← VisitMemNodes f cfalse (writes :: tail s);
          mret (tail s)
      | kIfThenElse, _ => lift (Fail EThrow)
      | _, m :: a :: d :: _ =>
          VisitMemNodes m cond ((back writesStack ++ [{| addr := a; data := d |}]) :: tail writesStack)
      | _, _ => lift (Fail EThrow)
      end
  end.
Definition ParseMemUpdateNode (cond e : Expr) (mem_var_name : string) : MG unit :=
  b ← on_gen (CheckMemUpdateNode e mem_var_name);
  lift (ila_assert b);;
  on_gen (on_ports (fun p => set_writes p [] (past_writes p ++ current_writes p)));;
  VisitMemNodes e cond [[]];;
  mret ().

Definition wport (n : string) (portIdx : nat) : wport_t :=
  let i := toStr (Z.of_nat portIdx) in
  {| waddr := n +:+ "_addr" +:+ i; wdata := n +:+ "_data" +:+ i; wen := n +:+ "_wen" +:+ i |}.
Definition declare_port (ext : bool) (n : string) (aw dw : Z) (portIdx : nat) (_ : unit) : G unit :=
  let p := wport n portIdx in
  add_wire (waddr p) aw;; add_wire (wdata p) dw;; add_wire (wen p) 1;;
  if ext then
    push_mem_o (waddr p) aw;; push_mem_o (wdata p) dw;; push_mem_o (wen p) 1;;
    on_ports (fun ps => set_rw ps (ila_rports ps) (<[n := default [] (ila_wports ps !! n) ++ [p]]> (ila_wports ps)))
  else mret ().
(** The statements of the ports: address, data and enable. *)
Record port_stmts := { ps_addr : string; ps_data : string; ps_enab : string }.
Definition no_write : port_stmts := {| ps_addr := "0"; ps_data := "'d0"; ps_enab := "1'b0" |}.
Definition add_port_write (c : vlg_name_t) (wr : nat * mem_write_entry_t) (l : list port_stmts) : G (list port_stmts) :=
  ParseNonMemUpdateExpr (addr wr.2);;
  a ← getVlgFromExpr (addr wr.2);
  ParseNonMemUpdateExpr (data wr.2);;
  d ← getVlgFromExpr (data wr.2);
  g ← get;
  let wen_start := if start_signal (cfg_ g) then "&&" +:+ startName (names g) else "" in
  mret (alter (fun p =>
    {| ps_addr := c +:+ " ? (" +:+ a +:+ ") : (" +:+ ps_addr p +:+ ")";
       ps_data := c +:+ " ? (" +:+ d +:+ ") : (" +:+ ps_data p +:+ ")";
       ps_enab := "(" +:+ c +:+ ")" +:+ wen_start +:+ " ? ( 1'b1 ) : (" +:+ ps_enab p +:+ ")" |}) wr.1 l).
Definition add_write (mw : mem_write_t) (l : list port_stmts) : G (list port_stmts) :=
  ParseNonMemUpdateExpr (cond mw);;
  c ← getVlgFromExpr (cond mw);
  foldM (add_port_write c) (zip (seq 0 (length (writes mw))) (writes mw)) l.
Definition emit_port (ext : bool) (n : string) (x : nat * port_stmts) (_ : unit) : G unit :=
  let p := wport n x.1 in
  add_assign_stmt (waddr p) (ps_addr x.2);;
  add_assign_stmt (wdata p) (ps_data x.2);;
  add_assign_stmt (wen p) (ps_enab x.2);;
  if ext then mret () else
  add_ite_stmt (wen p) (n +:+ " [ " +:+ waddr p +:+ " ] " +:+ "<= " +:+ wdata p) "".
Definition ExportCondWrites (mem_var : Expr) (writeList : list mem_write_t) : G unit :=
  g ← get;
  let this_mem_external := is_external g mem_var in
  n ← sanitizeName_e mem_var;
  '(aw, dw) ← lift (mem_widths mem_var);
  let max_port_no := foldl (fun m mw => Nat.max m (length (writes mw))) 0%nat writeList in
  foldM (declare_port this_mem_external n aw dw) (seq 0 max_port_no) ();;
  l ← foldM add_write (rev writeList) (replicate max_port_no no_write);
  foldM (emit_port this_mem_external n) (zip (seq 0 max_port_no) l) ().

(** *** Definitions of functions *)
Definition func_width (s : Sort) : Res Z := match s with SortBool => Ok 1 | s => Sorts.bit_width s end.
Definition func_arg (x : nat * Sort) (s : string) : Res string :=
  w ← func_width x.2; Ok (s +:+ "    input " +:+ WidthToRange w +:+ " arg" +:+ toStr (Z.of_nat x.1) +:+ "," +:+ nl).
Definition export_func (f : Func) (_ : unit) : G unit :=
  func_name ← sanitizeName (f_name f);
  s ← lift (foldM func_arg (zip (seq 0 (length (args_ f))) (args_ f)) ("module fun_" +:+ func_name +:+ " (" +:+ nl));
  w ← lift (func_width (out_ f));
  add_preheader (s +:+ "    output " +:+ WidthToRange w +:+ " result" +:+ nl +:+ ");" +:+ nl +:+
    "//TODO: Add the specific function HERE." +:+ nl +:+ "endmodule" +:+ nl).
(** The set of functions, by address. *)
Definition func_iter (l : list Func) : list Func :=
  omap (fun i => List.find (fun f => (f_id f =? i)%N) l) (set_order (f_id <$> l)).
Definition ExportFuncDefs : G unit :=
  g ← get;
  match fcOpt (cfg_ g) with
  | External => mret ()
  | Internal => foldM export_func (func_iter (func_ptr_set (maps g))) ()
  end.

(** *** Modules *)
Definition export_vars (l : InstrLvlAbs) : MG unit :=
  foldM (fun v (_ : unit) => on_gen (insertInput v)) (KeyVec.vec_ (inputs_ l)) ();;
  foldM (fun v (_ : unit) => on_gen (insertState v)) (KeyVec.vec_ (states_ l)) ().
(** A condition, which is true when it is unset. *)
Definition or_true (o : option Expr) : MG Expr :=
  match o with Some e => mret e | None => on_world (asthub.BoolConst true) end.
Definition export_valid (l : InstrLvlAbs) : MG unit :=
  valid_ptr ← or_true (valid_ l);
  on_gen (
    ParseNonMemUpdateExpr valid_ptr;;
    valid_sig_name ← getVlgFromExpr valid_ptr;
    g ← get;
    (if String.eqb (validName (names g)) "" then
      n ← sanitizeName (l_name l); on_names (fun m => set_valid m ("__ILA_" +:+ n +:+ "_valid__"))
     else mret ());;
    g ← get;
    let v := validName (names g) in
    add_wire v 1;; add_output v 1;; add_assign_stmt v valid_sig_name).
Definition export_decode (l : InstrLvlAbs) (x : Instr) (decode_ptr : Expr) : MG vlg_name_t :=
  on_gen (
    ParseNonMemUpdateExpr decode_ptr;;
    decode_sig_name ← getVlgFromExpr decode_ptr;
    n ← sanitizeName (l_name l);
    i ← sanitizeName (i_name x);
    let decodeName := "__ILA_" +:+ n +:+ "_decode_of_" +:+ i +:+ "__" in
    on_names (fun m => add_decode m decodeName);;
    add_wire decodeName 1;; add_output decodeName 1;; add_assign_stmt decodeName decode_sig_name;;
    mret decodeName).

Definition export_instr_decode (l : InstrLvlAbs) (x : nat * objid) (_ : unit) : MG unit :=
  i ← on_world (instr_ x.2);
  decode_ptr ← or_true (decode_ i);
  d ← export_decode l i decode_ptr;
  on_gen (g ← get; add_assign_stmt ((decodeAccName (names g)).1 +:+ "[" +:+ toStr (Z.of_nat x.1) +:+ "]") d).
(** [Ite] of the instructions that update the memory, the last one first. *)
Definition mem_update (name : string) (i : objid) (e : Expr) : MG Expr :=
  x ← on_world (instr_ i);
  match Instrs.update x name with
  | None => mret e
  | Some u => d ← lift (deref (decode_ x)); on_world (asthub.Ite d u e)
  end.
Definition reg_update (state : Expr) (x : nat * objid) (end_else_if : string) : MG string :=
  i ← on_world (instr_ x.2);
  match Instrs.update i (Exprs.name state) with
  | None => mret end_else_if
  | Some u => on_gen (
      ParseNonMemUpdateExpr u;;
      result ← getVlgFromExpr u;
      g ← get;
      decode_name ← lift (Exprs.at_ (decodeNames (names g)) x.1);
      let grant_name := (grantAccName (names g)).1 +:+ "[" +:+ toStr (Z.of_nat x.1) +:+ "]" in
      add_always_stmt (end_else_if +:+ "if ( " +:+ decode_name +:+ " && " +:+ grant_name +:+ " ) begin");;
      n ← sanitizeName_e state;
      add_always_stmt ("    " +:+ n +:+ " <= " +:+ result +:+ ";");;
      mret "end else ")
  end.
Definition export_state (instrs : list (nat * objid)) (state : Expr) (_ : unit) : MG unit :=
  if Exprs.is_mem state then
    e ← foldM (fun x => mem_update (Exprs.name state) x.2) instrs state;
    t ← on_world (asthub.BoolConst true);
    ParseMemUpdateNode t e (Exprs.name state);;
    on_gen (g ← get; ExportCondWrites state (current_writes (ports g)))
  else
    end_else_if ← foldM (reg_update state) instrs "";
    if String.eqb end_else_if "" then mret () else on_gen (add_always_stmt "end").
Definition ExportIla (m : objid) : MG unit :=
  l ← on_world (ila m);
  let num := Z.of_nat (length (KeyVec.vec_ (instrs_ l))) in
  let instrs := zip (seq 0 (length (KeyVec.vec_ (instrs_ l)))) (KeyVec.vec_ (instrs_ l)) in
  on_gen (g ← get;
    if String.eqb (moduleName (names g)) "" then
      n ← sanitizeName (l_name l); on_names (fun m => set_module m n)
    else mret ());;
  export_vars l;;
  export_valid l;;
  on_gen (n ← sanitizeName (l_name l);
    let gr := "__ILA_" +:+ n +:+ "_grant__" in
    let dc := "__ILA_" +:+ n +:+ "_acc_decode__" in
    on_names (fun m => set_acc m (gr, num) (dc, num));;
    add_wire gr num;; add_input gr num;; add_wire dc num;; add_output dc num);;
  foldM (export_instr_decode l) instrs ();;
  foldM (export_state instrs) (KeyVec.vec_ (states_ l)) ();;
  on_gen ExportFuncDefs.

(** The condition of an update [Ite(c, v, unknown)]; its register is not
    declared. *)
Definition export_unknown (decodeName : string) (var update : Expr) : G unit :=
  g ← get;
  if collect_ite_unknown_update (cfg_ g) then
    r ← lift (getIteUnknownCondVal update);
    match r with
    | None => mret ()
    | Some (c, _) =>
        original_cond_sig ← getVlgFromExpr c;
        let sig_name := "__ite_ukn_cond_" +:+ original_cond_sig in
        let reg_name := "__ite_ukn_cond_reg_" +:+ original_cond_sig in
        on_ports (fun p => set_unknown p (insert_new (Exprs.name var) sig_name (state_update_ite_unknown p)));;
        add_output sig_name 1;; add_wire sig_name 1;;
        add_assign_stmt sig_name reg_name;;
        add_ite_stmt decodeName (reg_name +:+ " <= " +:+ original_cond_sig) ""
    end
  else mret ().
Definition export_update (x : Instr) (decode_ptr : Expr) (decodeName : string) (var : Expr) (_ : unit) : MG unit :=
  let update := default var (Instrs.update x (Exprs.name var)) in
  (if Exprs.is_mem var then
    ParseMemUpdateNode decode_ptr update (Exprs.name var);;
    on_gen (g ← get; ExportCondWrites var (current_writes (ports g)))
  else on_gen (
    ParseNonMemUpdateExpr update;;
    result ← getVlgFromExpr update;
    n ← sanitizeName_e var;
    add_ite_stmt decodeName (n +:+ " <= " +:+ result) ""));;
  on_gen (export_unknown decodeName var update).
Definition ExportTopLevelInstr (i : objid) : MG unit :=
  x ← on_world (instr_ i);
  h ← lift (deref (i_host x));
  l ← on_world (ila h);
  on_gen (g ← get;
    if String.eqb (moduleName (names g)) "" then
      n ← sanitizeName (l_name l);
      k ← sanitizeName (i_name x);
      on_names (fun m => set_module m (n +:+ "__DOT__" +:+ k))
    else mret ());;
  export_vars l;;
  export_valid l;;
  decode_ptr ← or_true (decode_ x);
  decodeName ← export_decode l x decode_ptr;
  on_gen (addInternalCounter decodeName 8);;
  foldM (export_update x decode_ptr decodeName) (KeyVec.vec_ (states_ l)) ();;
  on_gen ExportFuncDefs.
End gen.

(** ** [DumpToFile] *)
Definition str_le_pair {A} (p q : string * A) : Prop := Instrs.str_le p.1 q.1.
#[export] Instance str_le_pair_dec {A} : RelDecision (@str_le_pair A).
Proof. intros p q. unfold str_le_pair. apply _. Defined.
Definition sorted {A} (m : gmap string A) : list (string * A) := merge_sort str_le_pair (map_to_list m).
(** [std::setw(10)]. *)
Definition setw (s : string) : string := String.concat "" (replicate (10 - String.length s) " ") +:+ s.
Definition concat_map {A} (f : A -> string) (l : list A) : string := String.concat "" (f <$> l).
Definition decl (kind : string) (x : vlg_sig_t) : string := kind +:+ setw (WidthToRange x.2) +:+ " " +:+ x.1 +:+ ";" +:+ nl.
Definition dump_wire (g : VlgGen) (x : vlg_sig_t) : string :=
  (if default false (wires_keep (sigs g) !! x.1) then "(* keep *) " else "") +:+ decl "wire " x.
Definition dump_mem (x : string * vlg_mem_t) : string :=
  let n_elem_allowed := 2 ^ mem_addr_width x.2 in
  let en := mem_entry_num x.2 in
  let n_elem := if negb (en =? 0) && (en <=? n_elem_allowed) then en else n_elem_allowed in
  "reg " +:+ setw (WidthToRange (mem_data_width x.2)) +:+ " " +:+ mem_name x.2 +:+ WidthToRange n_elem +:+ ";" +:+ nl.
Definition dump_ite (x : vlg_ite_stmt_t) : string :=
  let '(c, t, f) := x in
  "       " +:+ "if (" +:+ c +:+ ") begin" +:+ nl +:+
  "       " +:+ "    " +:+ t +:+ " ;" +:+ nl +:+
  "       " +:+ "end" +:+ nl +:+
  (if String.eqb f "" then "" else
   "       " +:+ "else begin" +:+ nl +:+ "            " +:+ f +:+ " ;" +:+ nl +:+ "        end" +:+ nl).
Definition dump_always (g : VlgGen) : string :=
  let b := body g in
  match init_stmts b, always_stmts b, ite_stmts b with
  | [], [], [] => ""
  | _, _, _ =>
      "always @(posedge " +:+ clkName (names g) +:+ ") begin" +:+ nl +:+
      "   if(" +:+ rstName (names g) +:+ ") begin" +:+ nl +:+
      concat_map (fun s => "       " +:+ s +:+ nl) (init_stmts b) +:+
      "   end" +:+ nl +:+
      (if start_signal (cfg_ g) then
         "   else if(" +:+ startName (names g) +:+ " && " +:+ validName (names g) +:+ ") begin" +:+ nl
       else
         "   else if(" +:+ (if String.eqb (validName (names g)) "" then "1" else validName (names g)) +:+ ") begin" +:+ nl) +:+
      concat_map (fun s => "       " +:+ s +:+ nl) (always_stmts b) +:+
      concat_map dump_ite (ite_stmts b) +:+
      "   end" +:+ nl +:+
      "end" +:+ nl
  end.
Definition DumpToFile (g : VlgGen) : string :=
  let s := sigs g in
  (if String.eqb (preheader (body g)) "" then "" else
   "/* PREHEADER */" +:+ nl +:+ preheader (body g) +:+ nl +:+ "/* END OF PREHEADER */" +:+ nl) +:+
  "module " +:+ moduleName (names g) +:+ "(" +:+ nl +:+
  String.concat ("," +:+ nl) (fst <$> sorted (inputs s)) +:+
  concat_map (fun x : vlg_sig_t => "," +:+ nl +:+ x.1) (sorted (outputs s) ++ mem_i s ++ mem_o s ++ mem_probe_o s ++ regs s) +:+
  nl +:+ ");" +:+ nl +:+
  concat_map (decl "input ") (sorted (inputs s)) +:+
  concat_map (decl "input ") (mem_i s) +:+
  concat_map (decl "output ") (sorted (outputs s)) +:+
  concat_map (decl "output ") (mem_o s) +:+
  concat_map (decl "output ") (mem_probe_o s) +:+
  concat_map (decl "output reg ") (regs s) +:+
  concat_map (dump_wire g) (sorted (wires s)) +:+
  concat_map dump_mem (sorted (mems_internal s)) +:+
  concat_map (fun t => t +:+ nl) (statements (body g)) +:+
  dump_always g +:+
  "endmodule" +:+ nl.
