(* ===== verification/VlgSem.v ===== *)
(** * The meaning of generated Verilog (specification)

    The statements [Verilog] builds are text.  This file translates no code: it
    reads the text of the subset that is generated (a lexer and a parser) and
    gives it the meaning of IEEE 1364: the size and the signedness of an
    expression are determined by its operands, operands are extended to the size
    of their context, division by zero and selects out of range are unknown.
    Signals are two-valued; a word of a memory is selected by its address. *)
From S2P Require Import Prelude Sort Values StrUtil Verilog.
Local Open Scope Z_scope.

(** ** Words and symbols *)
Inductive tok := TW (w : string) | TS (s : string).
Definition word_char (c : ascii) : bool := plain_char c || Ascii.eqb c "'".
Definition flush (w : string) (l : list tok) : list tok :=
  if String.eqb w "" then l else if String.eqb w "$signed" then TS w :: l else TW w :: l.
Definition two_char (c d : ascii) : bool :=
  bool_decide ((c, d) ∈ [("<", "<"); (">", ">"); ("<", "="); (">", "="); ("=", "="); ("&", "&"); ("|", "|")]%char).
Definition three_char (c d e : ascii) : bool := Ascii.eqb c ">" && Ascii.eqb d ">" && Ascii.eqb e ">".
Fixpoint lex (w : string) (s : string) : list tok :=
  match s with
  | EmptyString => flush w []
  | String c r =>
      if word_char c then lex (w +:+ String c "") r else
      flush w (if isspace c then lex "" r else
        match r with
        | String d r2 =>
            if two_char c d then
              match r2 with
              | String e r3 => if three_char c d e then TS (String c (String d (String e ""))) :: lex "" r3
                               else TS (String c (String d "")) :: lex "" r2
              | EmptyString => [TS (String c (String d ""))]
              end
            else TS (String c "") :: lex "" r
        | EmptyString => [TS (String c "")]
        end)
  end.

(** ** Expressions *)
Inductive vexp :=
| EName (n : string)
| ELit (w : Z) (sg : bool) (v : Z)
| ESel (e : vexp) (hi lo : vexp)
| EIndex (e : vexp) (i : vexp)
| ENot (e : vexp)
| EBin (op : string) (a b : vexp)
| ECond (c a b : vexp)
| ESigned (e : vexp)
| EConcat (l : list vexp)
| ERepl (k : vexp) (e : vexp).

(** A number: [8'hff], ['d0] (32 bits), [12] (32 bits, signed). *)
Fixpoint cut (c : ascii) (s : string) : string * option string :=
  match s with
  | EmptyString => (EmptyString, None)
  | String a r => if Ascii.eqb a c then (EmptyString, Some r) else let '(p, q) := cut c r in (String a p, q)
  end.
Definition base_of (c : ascii) : Z :=
  if Ascii.eqb c "h" then 16 else if Ascii.eqb c "b" then 2 else if Ascii.eqb c "d" then 10 else 1.
Definition literal (s : string) : vexp :=
  match cut "'" s with
  | (w, Some (String b d)) =>
      let size := if String.eqb w "" then 32 else read_digits 10 0 w in
      ELit size false (read_digits (base_of b) 0 d mod 2 ^ size)
  | (w, _) => ELit 32 true (read_digits 10 0 w)
  end.
Definition atom (w : string) : vexp :=
  match w with
  | String c _ => if digit c || Ascii.eqb c "'" then literal w else EName w
  | EmptyString => EName w
  end.

Definition prec (s : string) : option nat :=
  if String.eqb s "||" then Some 1%nat else if String.eqb s "&&" then Some 2%nat else
  if String.eqb s "|" then Some 3%nat else if String.eqb s "^" then Some 4%nat else
  if String.eqb s "&" then Some 5%nat else if String.eqb s "==" then Some 6%nat else
  if bool_decide (s ∈ ["<"; ">"; "<="; ">="]) then Some 7%nat else
  if bool_decide (s ∈ ["<<"; ">>"; ">>>"]) then Some 8%nat else
  if bool_decide (s ∈ ["+"; "-"]) then Some 9%nat else
  if bool_decide (s ∈ ["*"; "/"; "%"]) then Some 10%nat else None.

(** Operators of precedence at least [p] after [lhs]; the elements of a
    concatenation after [acc]. *)
Inductive pmode := MExpr | MUnary | MClimb (p : nat) (lhs : vexp) | MList (acc : list vexp).
Definition expect (s : string) (l : list tok) : option (list tok) :=
  match l with TS t :: l => if String.eqb t s then Some l else None | _ => None end.
Definition is_sym (s : string) (l : list tok) : bool :=
  match l with TS t :: _ => String.eqb t s | _ => false end.
Fixpoint parse (fuel : nat) (m : pmode) (l : list tok) : option (vexp * list tok) :=
  match fuel with
  | O => None
  | S fuel =>
      match m with
      | MExpr =>
          '(a, l) ← parse fuel MUnary l;
          '(c, l) ← parse fuel (MClimb 1 a) l;
          if is_sym "?" l then
            '(t, l) ← parse fuel MExpr (tail l);
            l ← expect ":" l;
            '(f, l) ← parse fuel MExpr l;
            Some (ECond c t f, l)
          else Some (c, l)
      | MClimb p lhs =>
          match l with
          | TS s :: r =>
              match prec s with
              | Some q =>
                  if (p <=? q)%nat then
                    '(b, r) ← parse fuel MUnary r;
                    '(b, r) ← parse fuel (MClimb (S q) b) r;
                    parse fuel (MClimb p (EBin s lhs b)) r
                  else Some (lhs, l)
              | None => Some (lhs, l)
              end
          | _ => Some (lhs, l)
          end
      | MList acc =>
          '(e, l) ← parse fuel MExpr l;
          if is_sym "," l then parse fuel (MList (acc ++ [e])) (tail l)
          else l ← expect "}" l; Some (EConcat (acc ++ [e]), l)
      | MUnary =>
          match l with
          | TW w :: r =>
              if is_sym "[" r then
                '(i, r) ← parse fuel MExpr (tail r);
                if is_sym ":" r then
                  '(j, r) ← parse fuel MExpr (tail r);
                  r ← expect "]" r; Some (ESel (atom w) i j, r)
                else r ← expect "]" r; Some (EIndex (atom w) i, r)
              else Some (atom w, r)
          | TS s :: r =>
              if String.eqb s "~" then '(e, r) ← parse fuel MUnary r; Some (ENot e, r) else
              if String.eqb s "(" then '(e, r) ← parse fuel MExpr r; r ← expect ")" r; Some (e, r) else
              if String.eqb s "$signed" then
                r ← expect "(" r; '(e, r) ← parse fuel MExpr r; r ← expect ")" r; Some (ESigned e, r) else
              if String.eqb s "{" then
                match r with
                | TW k :: TS t :: r' =>
                    if String.eqb t "{" then
                      '(e, r) ← parse fuel MExpr r'; r ← expect "}" r; r ← expect "}" r; Some (ERepl (atom k) e, r)
                    else parse fuel (MList []) r
                | _ => parse fuel (MList []) r
                end
              else None
          | [] => None
          end
      end
  end.
Definition fuel_of (l : list tok) : nat := (8 * length l + 8)%nat.
Definition read_exp (s : string) : option vexp :=
  let l := lex "" s in
  match parse (fuel_of l) MExpr l with Some (e, []) => Some e | _ => None end.

(** ** Values *)
Record vval := { v_sig : string -> Z; v_mem : string -> gmap Z Z }.
Definition width_of (Σ : VlgSigs) (n : string) : option Z :=
  match List.find (fun p : string * Z => String.eqb p.1 n) (regs Σ) with
  | Some p => Some p.2
  | None => wires Σ !! n
  end.

Definition arith (op : string) : bool := bool_decide (op ∈ ["+"; "-"; "*"; "/"; "%"; "&"; "|"; "^"]).
Definition shift (op : string) : bool := bool_decide (op ∈ ["<<"; ">>"; ">>>"]).
Definition compare (op : string) : bool := bool_decide (op ∈ ["=="; "<"; ">"; "<="; ">="]).
Definition lit_val (e : vexp) : option Z := match e with ELit _ _ v => Some v | _ => None end.
Definition vector (Σ : VlgSigs) (e : vexp) : option (string * Z) :=
  match e with EName n => w ← width_of Σ n; if 1 <? w then Some (n, w) else None | _ => None end.
Definition memory (Σ : VlgSigs) (e : vexp) : option (string * vlg_mem_t) :=
  match e with EName n => m ← mems_internal Σ !! n; Some (n, m) | _ => None end.

Section sem.
Context (Σ : VlgSigs) (V : vval).

(** The size of an expression whose names are declared. *)
Fixpoint vsize (e : vexp) : option Z :=
  match e with
  | EName n => width_of Σ n
  | ELit w _ _ => Some w
  | ESel e hi lo =>
      '(_, w) ← vector Σ e; h ← lit_val hi; l ← lit_val lo;
      if (0 <=? l) && (l <=? h) && (h <? w) then Some (h - l + 1) else None
  | EIndex e i => _ ← vsize i; match memory Σ e with Some (_, m) => Some (mem_data_width m) | None => '(_, _) ← vector Σ e; Some 1 end
  | ENot e | ESigned e => vsize e
  | EBin op a b =>
      x ← vsize a; y ← vsize b;
      if arith op then Some (Z.max x y) else if shift op then Some x else Some 1
  | ECond c a b => _ ← vsize c; x ← vsize a; y ← vsize b; Some (Z.max x y)
  | EConcat l => (fix go (l : list vexp) : option Z := match l with [] => Some 0 | e :: l => x ← vsize e; y ← go l; Some (x + y) end) l
  | ERepl k e => k ← lit_val k; x ← vsize e; Some (k * x)
  end.
Fixpoint vsigned (e : vexp) : bool :=
  match e with
  | ELit _ sg _ => sg
  | ENot e => vsigned e
  | EBin op a b => if arith op then vsigned a && vsigned b else if shift op then vsigned a else false
  | ECond _ a b => vsigned a && vsigned b
  | ESigned _ => true
  | _ => false
  end.

(** Extension from [w] to [W] bits. *)
Definition ext (sg : bool) (w W v : Z) : Z := if sg then Bits.sext w W v else v.
Definition bit (b : bool) : Z := if b then 1 else 0.
(** Known operations; a shift amount is unsigned. *)
Definition arith_val (op : string) (sg : bool) (W x y : Z) : option Z :=
  if String.eqb op "+" then Some (Bits.add W x y) else if String.eqb op "-" then Some (Bits.sub W x y) else
  if String.eqb op "*" then Some (Bits.mul W x y) else
  if String.eqb op "&" then Some (Z.land x y) else if String.eqb op "|" then Some (Z.lor x y) else
  if String.eqb op "^" then Some (Z.lxor x y) else
  if y =? 0 then None else
  if String.eqb op "/" then Some (if sg then Bits.sdiv W x y else x / y) else
  if String.eqb op "%" then Some (if sg then Bits.srem W x y else x mod y) else None.
Definition shift_val (op : string) (sg : bool) (W x y : Z) : option Z :=
  if String.eqb op "<<" then Some (Bits.shl W x y) else
  if String.eqb op ">>" then Some (Bits.lshr W x y) else
  if String.eqb op ">>>" then Some (if sg then Bits.ashr W x y else Bits.lshr W x y) else None.
Definition compare_val (op : string) (sg : bool) (w x y : Z) : option Z :=
  let lt a b := if sg then Bits.slt w a b else a <? b in
  if String.eqb op "==" then Some (bit (x =? y)) else
  if String.eqb op "<" then Some (bit (lt x y)) else if String.eqb op ">" then Some (bit (lt y x)) else
  if String.eqb op "<=" then Some (bit (negb (lt y x))) else
  if String.eqb op ">=" then Some (bit (negb (lt x y))) else None.

(** The value in a context of [W] bits that is signed or not. *)
Fixpoint veval (W : Z) (sg : bool) (e : vexp) : option Z :=
  match e with
  | EName n => w ← width_of Σ n; Some (ext sg w W (v_sig V n))
  | ELit w _ v => Some (ext sg w W v)
  | ESel e hi lo =>
      '(n, w) ← vector Σ e; h ← lit_val hi; l ← lit_val lo;
      if (0 <=? l) && (l <=? h) && (h <? w) then Some (ext sg (h - l + 1) W (Bits.extract h l (v_sig V n))) else None
  | EIndex e i =>
      x ← (if lit_val i is Some v then Some v else s ← vsize i; veval s (vsigned i) i);
      match memory Σ e with
      | Some (n, m) => if x <? 2 ^ mem_addr_width m then Some (ext sg (mem_data_width m) W (mem_load (v_mem V n) x)) else None
      | None => '(n, w) ← vector Σ e; if x <? w then Some (ext sg 1 W (Bits.extract x x (v_sig V n))) else None
      end
  | ENot e => x ← veval W sg e; Some (Bits.not W x)
  | ESigned e => s ← vsize e; x ← veval s (vsigned e) e; Some (ext sg s W x)
  | EBin op a b =>
      if arith op then x ← veval W sg a; y ← veval W sg b; arith_val op sg W x y else
      if shift op then x ← veval W sg a; s ← vsize b; y ← veval s (vsigned b) b; shift_val op sg W x y else
      s ← vsize a; t ← vsize b;
      if compare op then
        let sg' := vsigned a && vsigned b in
        x ← veval (Z.max s t) sg' a; y ← veval (Z.max s t) sg' b;
        z ← compare_val op sg' (Z.max s t) x y; Some (ext sg 1 W z)
      else
        x ← veval s (vsigned a) a; y ← veval t (vsigned b) b;
        let nz n := negb (n =? 0) in
        if String.eqb op "&&" then Some (ext sg 1 W (bit (nz x && nz y))) else
        if String.eqb op "||" then Some (ext sg 1 W (bit (nz x || nz y))) else None
  | ECond c a b => s ← vsize c; x ← veval s (vsigned c) c; if x =? 0 then veval W sg b else veval W sg a
  | EConcat l =>
      w ← vsize e;
      x ← (fix go (l : list vexp) (acc : Z) : option Z :=
             match l with
             | [] => Some acc
             | e :: l => s ← vsize e; x ← veval s (vsigned e) e; go l (Bits.concat s acc x)
             end) l 0;
      Some (ext sg w W x)
  | ERepl k e' =>
      w ← vsize e; k ← lit_val k; s ← vsize e'; x ← veval s (vsigned e') e';
      Some (ext sg w W (Nat.iter (Z.to_nat k) (fun acc => Bits.concat s acc x) 0))
  end.
(** The value that is assigned to a signal of [w] bits. *)
Definition assigned (w : Z) (e : vexp) : option Z :=
  s ← vsize e; x ← veval (Z.max w s) (vsigned e) e; Some (Bits.wrap w x).

(** ** Continuous assignments *)
Definition read_assign (s : string) : option (vexp * vexp) :=
  match lex "" s with
  | TW k :: l =>
      if String.eqb k "assign" then
        match parse (fuel_of l) MUnary l with
        | Some (lhs, TS q :: r) =>
            if String.eqb q "=" then
              match parse (fuel_of r) MExpr r with
              | Some (e, [TS t]) => if String.eqb t ";" then Some (lhs, e) else None
              | _ => None
              end
            else None
        | _ => None
        end
      else None
  | _ => None
  end.
(** What a signal that is driven has to be; an unknown value drives nothing. *)
Definition stmt_holds (s : string) : Prop :=
  match read_assign s with
  | Some (EName n, e) =>
      match width_of Σ n with
      | Some w => match assigned w e with Some x => v_sig V n = x | None => True end
      | None => True
      end
  | Some (EIndex (EName n) (ELit _ _ i), e) =>
      match assigned 1 e with Some x => Bits.extract i i (v_sig V n) = x | None => True end
  | _ => True
  end.
Definition respects (l : list string) : Prop := Forall stmt_holds l.

(** ** The clocked block *)
Definition truth (e : vexp) : option bool := s ← vsize e; x ← veval s (vsigned e) e; Some (negb (x =? 0)).
End sem.

Inductive vstmt := SSkip | SAssign (lhs e : vexp) | SIf (c : vexp) (t f : vstmt) | SSeq (a b : vstmt).
Definition is_word (s : string) (l : list tok) : bool := match l with TW t :: _ => String.eqb t s | _ => false end.
(** One statement, or the statements of a block up to its [end]. *)
Fixpoint parse_stmt (fuel : nat) (block : bool) (l : list tok) : option (vstmt * list tok) :=
  match fuel with
  | O => None
  | S fuel =>
      if block then
        if is_word "end" l then Some (SSkip, tail l) else
        '(a, l) ← parse_stmt fuel false l;
        '(b, l) ← parse_stmt fuel true l;
        Some (SSeq a b, l)
      else if is_word "begin" l then parse_stmt fuel true (tail l)
      else if is_word "if" l then
        l ← expect "(" (tail l);
        '(c, l) ← parse (fuel_of l) MExpr l;
        l ← expect ")" l;
        '(t, l) ← parse_stmt fuel false l;
        if is_word "else" l then '(f, l) ← parse_stmt fuel false (tail l); Some (SIf c t f, l)
        else Some (SIf c t SSkip, l)
      else
        '(lhs, l) ← parse (fuel_of l) MUnary l;
        l ← expect "<=" l;
        '(e, l) ← parse (fuel_of l) MExpr l;
        l ← expect ";" l;
        Some (SAssign lhs e, l)
  end.
(** [always @(posedge clk) statement]: the clock and the statement. *)
Definition read_always (s : string) : option (string * vstmt) :=
  match lex "" s with
  | TW a :: TS b :: TS c :: TW p :: TW clk :: TS d :: l =>
      if String.eqb a "always" && String.eqb b "@" && String.eqb c "(" && String.eqb p "posedge" && String.eqb d ")" then
        match parse_stmt (2 * length l + 2) false l with Some (st, []) => Some (clk, st) | _ => None end
      else None
  | _ => None
  end.

Section clock.
Context (Σ : VlgSigs) (V : vval).
(** What is scheduled for the register [n] when a statement is executed, if it
    was [cur] before: assignments are nonblocking, their right-hand sides and
    all conditions have the values from before the edge, and the last
    assignment counts.  An unknown condition may take either branch. *)
Fixpoint exec_stmt (n : string) (st : vstmt) (cur : Z) : option Z :=
  match st with
  | SSkip => Some cur
  | SAssign (EName m) e => if String.eqb m n then w ← width_of Σ n; assigned Σ V w e else Some cur
  | SAssign _ _ => None
  | SIf c t f =>
      match truth Σ V c with
      | Some true => exec_stmt n t cur
      | Some false => exec_stmt n f cur
      | None => x ← exec_stmt n t cur; y ← exec_stmt n f cur; if x =? y then Some x else None
      end
  | SSeq a b => x ← exec_stmt n a cur; exec_stmt n b x
  end.
(** The register after an edge of the clock. *)
Definition after_edge (st : vstmt) (n : string) : option Z := exec_stmt n st (v_sig V n).
End clock.
