(* ===== verification/VlgText.v ===== *)
(** * Reading generated text

    Generated text is put together from literal parts and words.  Text is cut at
    separators, characters that belong to no word and to no longer symbol; then
    what the templates of [Verilog] are read as is computed. *)
From S2P Require Import Prelude Sort Values StrUtil Verilog VlgSem.
Local Open Scope Z_scope.

Definition sep (c : ascii) : bool := negb (word_char c) && negb (bool_decide (c ∈ ["<"; ">"; "="; "&"; "|"]%char)).
Definition starts_sep (s : string) : bool := match s with String c _ => sep c | EmptyString => false end.
Fixpoint ends_sep (s : string) : bool :=
  match s with EmptyString => false | String c EmptyString => sep c | String _ s => ends_sep s end.

Lemma flush_app w l : flush w l = flush w [] ++ l.
Proof. unfold flush. by repeat case_match. Qed.

Lemma two_char_sep a c : sep c = true -> two_char a c = false.
Proof.
  unfold sep, two_char. intros [_ H]%andb_true_iff. apply negb_true_iff in H. apply bool_decide_eq_false in H.
  apply bool_decide_eq_false. intros Hin. apply H. rewrite !elem_of_cons in Hin. rewrite !elem_of_cons.
  repeat (destruct Hin as [Hin|Hin]; [injection Hin as -> ->; tauto|]). by apply elem_of_nil in Hin.
Qed.
Lemma sep_two_char a c : sep a = true -> two_char a c = false.
Proof.
  unfold sep, two_char. intros [_ H]%andb_true_iff. apply negb_true_iff in H. apply bool_decide_eq_false in H.
  apply bool_decide_eq_false. intros Hin. apply H. rewrite !elem_of_cons in Hin. rewrite !elem_of_cons.
  repeat (destruct Hin as [Hin|Hin]; [injection Hin as -> ->; tauto|]). by apply elem_of_nil in Hin.
Qed.
Lemma three_char_sep a d c : sep c = true -> three_char a d c = false.
Proof.
  intros H. unfold three_char. destruct (Ascii.eqb_spec c ">") as [->|]; [discriminate|]. by rewrite andb_false_r.
Qed.
Lemma sep_not_word c : sep c = true -> word_char c = false.
Proof. unfold sep. intros [H _]%andb_true_iff. by apply negb_true_iff. Qed.

(** One step of the lexer. *)
Definition lex_symbol (c : ascii) (r : string) : list tok :=
  match r with
  | String d r2 =>
      if two_char c d then
        match r2 with
        | String e r3 => if three_char c d e then TS (String c (String d (String e ""))) :: lex "" r3
                         else TS (String c (String d "")) :: lex "" r2
        | EmptyString => [TS (String c (String d ""))]
        end
      else TS (String c "") :: lex "" r
  | EmptyString => [TS (String c "")]
  end.
Lemma lex_cons w c r : lex w (String c r) =
  if word_char c then lex (w +:+ String c "") r else flush w (if isspace c then lex "" r else lex_symbol c r).
Proof. done. Qed.

Lemma lex_before s c r : sep c = true -> forall w, lex w (s +:+ String c r) = lex w s ++ lex "" (String c r).
Proof.
  intros Hc. remember (String.length s) as n eqn:Hn. revert s Hn. induction (lt_wf n) as [n _ IH]. intros s Hn w.
  pose proof (sep_not_word c Hc) as Hw. destruct s as [|a s].
  - change ("" +:+ String c r) with (String c r). rewrite !lex_cons, Hw. rewrite (flush_app w), (flush_app "").
    change (flush "" []) with (@nil tok). by rewrite app_nil_l.
  - change (String a s +:+ String c r) with (String a (s +:+ String c r)). rewrite !(lex_cons w). cbn in Hn.
    destruct (word_char a); [by apply (IH (String.length s)); [lia|]|].
    rewrite flush_app, (flush_app w (if isspace a then lex "" s else _)), <- app_assoc. f_equal.
    destruct (isspace a); [by apply (IH (String.length s)); [lia|]|].
    destruct s as [|d s2].
    + change ("" +:+ String c r) with (String c r). unfold lex_symbol. by rewrite two_char_sep.
    + change (String d s2 +:+ String c r) with (String d (s2 +:+ String c r)). cbn in Hn. unfold lex_symbol.
      destruct (two_char a d).
      * destruct s2 as [|e s3].
        -- change ("" +:+ String c r) with (String c r). cbv beta iota. by rewrite three_char_sep.
        -- change (String e s3 +:+ String c r) with (String e (s3 +:+ String c r)). cbn in Hn. cbv beta iota.
           destruct (three_char a d e); (rewrite <- app_comm_cons; f_equal).
           ++ by apply (IH (String.length s3)); [lia|].
           ++ change (String e (s3 +:+ String c r)) with (String e s3 +:+ String c r).
              by apply (IH (String.length (String e s3))); [cbn; lia|].
      * rewrite <- app_comm_cons. f_equal. change (String d (s2 +:+ String c r)) with (String d s2 +:+ String c r).
        by apply (IH (String.length (String d s2))); [cbn; lia|].
Qed.
Lemma lex_sep c r : sep c = true -> lex "" (String c r) = lex "" (String c "") ++ lex "" r.
Proof.
  intros Hc. rewrite !lex_cons, (sep_not_word c Hc), (flush_app "" (if isspace c then lex "" r else _)), (flush_app "" (if isspace c then lex "" "" else _)).
  change (flush "" []) with (@nil tok). rewrite !app_nil_l.
  destruct (isspace c); [done|]. destruct r as [|d r]; [done|]. unfold lex_symbol. by rewrite sep_two_char.
Qed.

Lemma lex_start w s t : starts_sep t = true -> lex w (s +:+ t) = lex w s ++ lex "" t.
Proof. destruct t as [|c t]; [done|]. intros. by apply lex_before. Qed.
Lemma ends_sep_inv s : ends_sep s = true -> exists s' c, s = s' +:+ String c "" /\ sep c = true.
Proof.
  induction s as [|a s IH]; [done|]. destruct s as [|b s].
  - intros H. by exists "", a.
  - intros H. destruct (IH H) as (s' & c & E & Hc). exists (String a s'), c. split; [|done].
    change (String a s' +:+ String c "") with (String a (s' +:+ String c "")). by rewrite E.
Qed.
Lemma lex_end w s t : ends_sep s = true -> lex w (s +:+ t) = lex w s ++ lex "" t.
Proof.
  intros (s' & c & -> & Hc)%ends_sep_inv. rewrite <- str_app_assoc. change (String c "" +:+ t) with (String c t).
  rewrite !lex_before by done. by rewrite (lex_sep c t), app_assoc.
Qed.

(** ** Words *)
Fixpoint word_chars (s : string) : bool := match s with EmptyString => true | String c s => word_char c && word_chars s end.
Definition word (s : string) : bool := negb (String.eqb s "") && negb (String.eqb s "$signed") && word_chars s.
Lemma lex_chars n : word_chars n = true -> forall w, lex w n = flush (w +:+ n) [].
Proof.
  induction n as [|c n IH]; cbn [word_chars lex]; intros H w; [by rewrite str_app_nil|].
  bool_inv. rewrite H, IH by done. by rewrite <- str_app_assoc.
Qed.
Lemma lex_word n : word n = true -> lex "" n = [TW n].
Proof.
  unfold word. intros H. bool_inv. rewrite lex_chars by done. change ("" +:+ n) with n. unfold flush.
  repeat (rewrite (proj2 (String.eqb_neq _ _)) by done). done.
Qed.
Lemma word_chars_app s t : word_chars (s +:+ t) = word_chars s && word_chars t.
Proof.
  induction s as [|c s IH]; [done|]. change (word_char c && word_chars (s +:+ t) = word_char c && word_chars s && word_chars t).
  by rewrite IH, andb_assoc.
Qed.
Lemma digits_word_chars s : digits s = true -> word_chars s = true.
Proof.
  induction s as [|c s IH]; [done|]. cbn. intros. bool_inv. rewrite IH by done. unfold word_char, plain_char, isalnum. by rewrite H.
Qed.
(** A word that starts with another character than [$]. *)
Lemma word_intro c s : Ascii.eqb c "$" = false -> word_char c = true -> word_chars s = true -> word (String c s) = true.
Proof.
  intros Hd Hc Hs. unfold word. cbn [word_chars]. rewrite Hc, Hs, !andb_true_r. apply negb_true_iff, String.eqb_neq.
  intros [= -> _]. discriminate.
Qed.
Lemma digits_word s : digits s = true -> s <> "" -> word s = true.
Proof.
  destruct s as [|c s]; [done|]. cbn. intros [Hc Hs]%andb_true_iff _. apply word_intro; [| |by apply digits_word_chars].
  - destruct (Ascii.eqb_spec c "$") as [->|]; [discriminate|done].
  - unfold word_char, plain_char, isalnum. by rewrite Hc.
Qed.
Lemma pretty_nonempty (z : Z) : 0 <= z -> pretty z <> "".
Proof.
  intros Hz. destruct z as [|p|p]; [done| |lia]. change (pretty (Z.pos p)) with (pretty (N.pos p)). unfold pretty, pretty_N. rewrite decide_False by done.
  rewrite pretty_N_go_step by lia. intros E. pose proof (pretty_N_go_length (N.pos p / 10)%N (String (pretty_N_char (N.pos p `mod` 10)%N) "")) as H.
  rewrite E in H. cbn in H. lia.
Qed.
Lemma toStr_word z : 0 <= z -> word (toStr z) = true.
Proof. intros Hz. apply digits_word; [by apply pretty_Z_digits|by apply pretty_nonempty]. Qed.

(** ** The value of printed numbers *)
Lemma digit_in_10 c : digit c = true -> exists d, digit_in 10 c = Some d.
Proof. destruct c as [[] [] [] [] [] [] [] []]; cbn; try discriminate; intros _; eexists; reflexivity. Qed.
Lemma read_digits_app s t acc : digits s = true -> read_digits 10 acc (s +:+ t) = read_digits 10 (read_digits 10 acc s) t.
Proof.
  revert acc. induction s as [|c s IH]; intros acc; [done|]. cbn [digits]. intros [Hc Hs]%andb_true_iff.
  destruct (digit_in_10 c Hc) as (d & Hd). change (String c s +:+ t) with (String c (s +:+ t)). cbn [read_digits].
  rewrite Hd. by apply IH.
Qed.
Lemma read_pretty_go x s acc : exists k, read_digits 10 acc (pretty_N_go x s) = read_digits 10 (acc * 10 ^ Z.of_nat k + Z.of_N x) s.
Proof.
  revert s. induction (N.lt_wf_0 x) as [x _ IH]; intros s.
  destruct (decide (x = 0)%N) as [->|Hx]; [exists O; rewrite pretty_N_go_0; f_equal; cbn; lia|].
  rewrite pretty_N_go_step by lia. destruct (IH (x / 10)%N ltac:(apply N.div_lt; lia) (String (pretty_N_char (x `mod` 10)) s)) as (k & E).
  exists (S k). rewrite E. cbn [read_digits].
  assert (digit_in 10 (pretty_N_char (x `mod` 10)) = Some (Z.of_N (x `mod` 10))) as ->.
  { assert ((x `mod` 10 < 10)%N) as Hm by (apply N.mod_lt; lia). revert Hm. generalize (x `mod` 10)%N. intros d Hd.
    assert (d ∈ [0; 1; 2; 3; 4; 5; 6; 7; 8; 9]%N) as Hin by (rewrite !elem_of_cons; lia).
    rewrite !elem_of_cons in Hin. repeat (destruct Hin as [->|Hin]; [done|]). by apply elem_of_nil in Hin. }
  f_equal. rewrite Nat2Z.inj_succ, Z.pow_succ_r by lia. pose proof (N.div_mod x 10 ltac:(lia)). nia.
Qed.
Lemma read_pretty z : 0 <= z -> read_digits 10 0 (toStr z) = z.
Proof.
  intros Hz. unfold toStr. destruct z as [|p|p]; [done| |lia]. change (pretty (Z.pos p)) with (pretty (N.pos p)). unfold pretty, pretty_N. rewrite decide_False by done.
  destruct (read_pretty_go (N.pos p) "" 0) as (k & E). rewrite E. cbn [read_digits]. lia.
Qed.

Lemma cut_none c s : str_no c s = true -> cut c s = (s, None).
Proof. induction s as [|a s IH]; [done|]. cbn. intros. bool_inv. by rewrite H, IH. Qed.
Lemma cut_some c s t : str_no c s = true -> cut c (s +:+ String c t) = (s, Some t).
Proof.
  induction s as [|a s IH].
  { intros _. change ("" +:+ String c t) with (String c t). cbn [cut]. by rewrite Ascii.eqb_refl. }
  cbn [str_no]. intros. bool_inv. change (String a s +:+ String c t) with (String a (s +:+ String c t)). cbn [cut]. by rewrite H, IH.
Qed.
Lemma atom_digits s : digits s = true -> s <> "" -> atom s = literal s.
Proof. destruct s as [|c s]; [done|]. cbn. intros [Hc _]%andb_true_iff _. by rewrite Hc. Qed.
(** Plain and sized decimal numbers. *)
Lemma atom_toStr z : 0 <= z -> atom (toStr z) = ELit 32 true z.
Proof.
  intros Hz. pose proof (pretty_Z_digits z Hz) as Hd. rewrite atom_digits by (done || by apply pretty_nonempty).
  unfold literal. rewrite cut_none by (by apply digits_no). by rewrite read_pretty.
Qed.
Lemma digits_head s t : digits s = true -> s <> "" -> exists c r, s +:+ t = String c r /\ digit c = true.
Proof. destruct s as [|c s]; [done|]. cbn. intros [Hc _]%andb_true_iff _. by exists c, (s +:+ t). Qed.
Lemma atom_sized z b d : 0 <= z -> atom (toStr z +:+ String "'" (String b d)) = ELit z false (read_digits (base_of b) 0 d mod 2 ^ z).
Proof.
  intros Hz. pose proof (pretty_Z_digits z Hz) as Hd. pose proof (pretty_nonempty z Hz) as Hn.
  destruct (digits_head _ (String "'" (String b d)) Hd Hn) as (c & r & E & Hc).
  assert (atom (toStr z +:+ String "'" (String b d)) = literal (toStr z +:+ String "'" (String b d))) as ->.
  { unfold atom, toStr. rewrite E. cbv beta iota. by rewrite Hc. }
  unfold literal. rewrite cut_some by (by apply digits_no). rewrite (proj2 (String.eqb_neq _ _)) by done. by rewrite read_pretty.
Qed.
