(* ===== verification/VlgOps.v ===== *)
(** * The operations of generated Verilog

    What the text of each operation of [Verilog] is read as, and its value: the
    value the operator has in the reference semantics of expressions. *)
From S2P Require Import Prelude Sort Values Expr StrUtil Verilog VlgSem VlgText.
Local Open Scope Z_scope.

(** [text] is read as [e] up to a semicolon. *)
Definition reads (text : string) (e : vexp) : Prop :=
  parse (fuel_of (lex "" text ++ [TS ";"])) MExpr (lex "" text ++ [TS ";"]) = Some (e, [TS ";"]).

Ltac lexing := repeat first
  [ rewrite lex_end by reflexivity | rewrite lex_start by reflexivity
  | match goal with H : word ?x = true |- context [lex "" ?x] => rewrite (lex_word x H) end ].
Ltac reading := unfold reads; lexing; reflexivity.

Lemma fuel_S l : exists k, fuel_of l = S k.
Proof. exists (8 * length l + 7)%nat. unfold fuel_of. lia. Qed.
Lemma read_assign_text n text e : word n = true -> reads text e ->
  read_assign ("assign " +:+ n +:+ " = " +:+ text +:+ " ;") = Some (atom n, e).
Proof.
  intros Hn Hr. unfold read_assign.
  assert (lex "" ("assign " +:+ n +:+ " = " +:+ text +:+ " ;") = TW "assign" :: TW n :: TS "=" :: lex "" text ++ [TS ";"]) as ->.
  { rewrite lex_end by reflexivity. rewrite lex_start by reflexivity. rewrite (lex_word n Hn). rewrite lex_end by reflexivity.
    by rewrite lex_start by reflexivity. }
  cbv beta iota. rewrite String.eqb_refl. destruct (fuel_S (TW n :: TS "=" :: lex "" text ++ [TS ";"])) as [k ->].
  cbn [parse is_sym]. change (String.eqb "=" "[") with false. cbv beta iota. rewrite String.eqb_refl. rewrite Hr. by rewrite String.eqb_refl.
Qed.

Section templates.
Context (a b c : string) (Ha : word a = true) (Hb : word b = true) (Hc : word c = true).

Lemma read_name : reads a (atom a).
Proof using Ha. reading. Qed.
Lemma read_bool_op2 op t : bool_op2 op a b = Ok t -> exists e, reads t e /\ e =
  match op with
  | kAnd => EBin "&" (atom a) (atom b) | kOr => EBin "|" (atom a) (atom b) | kXor => EBin "^" (atom a) (atom b)
  | kEqual => EBin "==" (atom a) (atom b) | kImply => EBin "|" (ENot (atom a)) (atom b)
  | kLessThan => EBin "<" (ESigned (atom a)) (ESigned (atom b)) | kGreaterThan => EBin ">" (ESigned (atom a)) (ESigned (atom b))
  | kUnsignedLessThan => EBin "<" (atom a) (atom b) | _ => EBin ">" (atom a) (atom b)
  end.
Proof using Ha Hb. destruct op; cbn [bool_op2]; intros E; simplify_eq; (eexists; split; [|reflexivity]); reading. Qed.
Lemma read_bv_op2 op t : bv_op2 op a b = Ok t -> exists e, reads t e /\ e =
  match op with
  | kAnd => EBin "&" (atom a) (atom b) | kOr => EBin "|" (atom a) (atom b) | kXor => EBin "^" (atom a) (atom b)
  | kShiftLeft => EBin "<<" (atom a) (atom b) | kLogicShiftRight => EBin ">>" (atom a) (atom b)
  | kArithShiftRight => EBin ">>>" (ESigned (atom a)) (atom b)
  | kAdd => EBin "+" (atom a) (atom b) | kSubtract => EBin "-" (atom a) (atom b) | kMultiply => EBin "*" (atom a) (atom b)
  | kDivide => EBin "/" (atom a) (atom b) | kUnsignedRemainder => EBin "%" (atom a) (atom b)
  | _ => EConcat [atom a; atom b]
  end.
Proof using Ha Hb. destruct op; cbn [bv_op2]; intros E; simplify_eq; (eexists; split; [|reflexivity]); reading. Qed.
Lemma read_ite t : bool_op3 kIfThenElse a b c = Ok t \/ bv_op3 kIfThenElse a b c = Ok t -> reads t (ECond (atom a) (atom b) (atom c)).
Proof using Ha Hb Hc. intros [E|E]; cbn in E; simplify_eq; reading. Qed.
Lemma read_not : reads ("~ ( " +:+ a +:+ " ) ") (ENot (atom a)).
Proof using Ha. reading. Qed.
Lemma read_compl : reads ("~ ( " +:+ a +:+ " )") (ENot (atom a)).
Proof using Ha. reading. Qed.
Lemma read_negate : reads ("( ~ ( " +:+ a +:+ " ) + 1'b1 )") (EBin "+" (ENot (atom a)) (ELit 1 false 1)).
Proof using Ha. reading. Qed.
Lemma read_load : reads (" (  " +:+ a +:+ "[" +:+ b +:+ "] ) ") (EIndex (atom a) (atom b)).
Proof using Ha Hb. reading. Qed.

Section numbers.
Context (i j k : Z) (Hi : 0 <= i) (Hj : 0 <= j) (Hk : 0 <= k).
Let Wi : word (toStr i) = true := toStr_word i Hi.
Let Wj : word (toStr j) = true := toStr_word j Hj.
Let Wk : word (toStr k) = true := toStr_word k Hk.
Abbreviation num n := (ELit 32 true n).

Lemma read_extract : reads (a +:+ "[" +:+ toStr i +:+ ":" +:+ toStr j +:+ "]") (ESel (atom a) (num i) (num j)).
Proof using Ha Wi Wj. rewrite <- (atom_toStr i Hi), <- (atom_toStr j Hj). reading. Qed.
Lemma read_zext : reads (" {" +:+ toStr i +:+ "'d0 , " +:+ a +:+ "} ") (EConcat [ELit i false 0; atom a]).
Proof using Ha Hi.
  assert (E : ELit i false 0 = atom (toStr i +:+ "'d0")).
  { rewrite (atom_sized i "d" "0" Hi). change (read_digits (base_of "d") 0 "0") with 0. f_equal. }
  rewrite E. change ("'d0 , " +:+ a +:+ "} ") with ("'d0" +:+ (" , " +:+ a +:+ "} ")). rewrite (str_app_assoc (toStr i)).
  assert (Wd : word (toStr i +:+ "'d0") = true).
  { pose proof (pretty_Z_digits i Hi) as Hd. pose proof (pretty_nonempty i Hi) as Hn. unfold toStr. destruct (pretty i) as [|x s]; [done|].
    cbn in Hd. apply andb_true_iff in Hd as [Hx Hs]. apply word_intro.
    - destruct (Ascii.eqb_spec x "$") as [->|]; [discriminate|done].
    - unfold word_char, plain_char, isalnum. by rewrite Hx.
    - change (word_chars (s +:+ "'d0") = true). by rewrite word_chars_app, digits_word_chars. }
  reading.
Qed.
Lemma read_sext1 : reads (" { {" +:+ toStr i +:+ "{" +:+ a +:+ "} }, " +:+ a +:+ "} ") (EConcat [ERepl (num i) (atom a); atom a]).
Proof using Ha Wi. rewrite <- (atom_toStr i Hi). reading. Qed.
Lemma read_sext : reads (" { {" +:+ toStr i +:+ "{" +:+ a +:+ "[" +:+ toStr j +:+ "]} }, " +:+ a +:+ "} ")
  (EConcat [ERepl (num i) (EIndex (atom a) (num j)); atom a]).
Proof using Ha Wi Wj. rewrite <- (atom_toStr i Hi), <- (atom_toStr j Hj). reading. Qed.
Lemma read_rotr : reads (" { ( " +:+ a +:+ "[" +:+ toStr i +:+ ":0] ), ( " +:+ a +:+ "[" +:+ toStr j +:+ ":" +:+ toStr k +:+ "] ) } ")
  (EConcat [ESel (atom a) (num i) (num 0); ESel (atom a) (num j) (num k)]).
Proof using Ha Wi Wj Wk. rewrite <- (atom_toStr i Hi), <- (atom_toStr j Hj), <- (atom_toStr k Hk). reading. Qed.
End numbers.
End templates.

(** ** Values *)
Section values.
Context (Σ : VlgSigs) (V : vval).

(** A word that has [w] bits, unsigned, and the value [x]. *)
Record is_sig (s : string) (w x : Z) : Prop := {
  sig_word : word s = true;
  sig_width : 0 < w;
  sig_range : 0 <= x < 2 ^ w;
  sig_size : vsize Σ (atom s) = Some w;
  sig_unsigned : vsigned (atom s) = false;
  sig_eval W : veval Σ V W false (atom s) = Some x }.
(** ... and is the name of a signal. *)
Record is_name (s : string) (w x : Z) : Prop := {
  name_sig : is_sig s w x;
  name_atom : atom s = EName s;
  name_width : width_of Σ s = Some w;
  name_mem : mems_internal Σ !! s = None;
  name_value : v_sig V s = x }.
Lemma is_name_intro s w : word s = true -> atom s = EName s -> 0 < w -> width_of Σ s = Some w ->
  mems_internal Σ !! s = None -> 0 <= v_sig V s < 2 ^ w -> is_name s w (v_sig V s).
Proof using Type.
  intros Hw Ha H0 Hs Hm Hr. split; [|done..]. split; rewrite ?Ha; try done. intros W. cbn [veval]. by rewrite Hs.
Qed.

(** The value an assignment gives to [w] bits. *)
Definition gives (e : vexp) (w x : Z) : Prop := assigned Σ V w e = Some x.
Lemma gives_intro e w x : vsize Σ e = Some w -> vsigned e = false -> veval Σ V w false e = Some x -> 0 <= x < 2 ^ w -> 0 < w ->
  gives e w x.
Proof using Type.
  intros Hs Hg He Hr Hw. unfold gives, assigned. rewrite Hs. cbn [mbind option_bind]. rewrite Hg, Z.max_id, He. cbn [mbind option_bind].
  by rewrite Bits.wrap_small.
Qed.
Lemma gives_atom s w x : is_sig s w x -> gives (atom s) w x.
Proof using Type. intros []. by apply gives_intro. Qed.
Lemma signed_size s w x : is_sig s w x -> vsize Σ (ESigned (atom s)) = Some w.
Proof using Type. by intros []. Qed.
Lemma signed_eval s w x W : is_sig s w x -> veval Σ V W true (ESigned (atom s)) = Some (Bits.sext w W x).
Proof using Type. intros []. cbn [veval]. rewrite sig_size0. cbn [mbind option_bind]. by rewrite sig_unsigned0, sig_eval0. Qed.
Lemma bool_range b : 0 <= bit b < 2 ^ 1.
Proof using Type. by destruct b. Qed.

Lemma sext_same w x : 0 < w -> 0 <= x < 2 ^ w -> Bits.sext w w x = x.
Proof using Type.
  intros Hw Hx. unfold Bits.sext, Bits.sgn, Bits.wrap. case_match; bool_inv; [by apply Z.mod_small|].
  symmetry. apply Z.mod_unique_pos with (-1); lia.
Qed.
Lemma slt_sext w x y : Bits.slt w x y = (Bits.sgn w x <? Bits.sgn w y).
Proof using Type. done. Qed.

(** Two parts, each of its own size. *)
Lemma gives_concat2 e1 e2 w1 w2 x1 x2 W z : vsize Σ e1 = Some w1 -> veval Σ V w1 (vsigned e1) e1 = Some x1 ->
  vsize Σ e2 = Some w2 -> veval Σ V w2 (vsigned e2) e2 = Some x2 -> 0 < w1 -> 0 < w2 -> 0 <= x1 < 2 ^ w1 -> 0 <= x2 < 2 ^ w2 ->
  W = w1 + w2 -> z = Bits.concat w2 x1 x2 -> gives (EConcat [e1; e2]) W z.
Proof using Type.
  intros S1 E1 S2 E2 H1 H2 R1 R2 -> ->.
  assert (HW : vsize Σ (EConcat [e1; e2]) = Some (w1 + w2)).
  { cbn [vsize]. rewrite S1, S2. cbn [mbind option_bind]. f_equal. lia. }
  apply gives_intro; [exact HW|done| |apply Bits.concat_range; lia|lia].
  change (veval Σ V (w1 + w2) false (EConcat [e1; e2])) with
    (w ← vsize Σ (EConcat [e1; e2]); x ← (s ← vsize Σ e1; x ← veval Σ V s (vsigned e1) e1;
       s' ← vsize Σ e2; x' ← veval Σ V s' (vsigned e2) e2; Some (Bits.concat s' (Bits.concat s 0 x) x')); Some (ext false w (w1 + w2) x)).
  rewrite HW, S1, S2. cbn [mbind option_bind]. rewrite E1, E2. cbn [mbind option_bind]. f_equal. unfold ext, Bits.concat. by rewrite Z.shiftl_0_l.
Qed.

Section two.
Context (a b : string) (w x y : Z) (Ha : is_sig a w x) (Hb : is_sig b w y).
Local Lemma size_a : vsize Σ (atom a) = Some w. Proof using Ha. apply Ha. Qed.
Local Lemma size_b : vsize Σ (atom b) = Some w. Proof using Hb. apply Hb. Qed.
Lemma gives_arith op z : arith op = true -> arith_val op false w x y = Some z -> 0 <= z < 2 ^ w ->
  gives (EBin op (atom a) (atom b)) w z.
Proof using Ha Hb.
  intros Ho Hz Hr. pose proof Ha as [? ? ? ? Hua ?]. apply gives_intro; [| | |done|done].
  - cbn [vsize]. by rewrite size_a, size_b, Ho; cbn [mbind option_bind]; rewrite Z.max_id.
  - cbn [vsigned]. by rewrite Ho, Hua.
  - cbn [veval]. rewrite Ho, (sig_eval _ _ _ Ha), (sig_eval _ _ _ Hb). exact Hz.
Qed.
Lemma gives_compare op z : arith op = false -> shift op = false -> compare op = true -> compare_val op false w x y = Some (bit z) ->
  gives (EBin op (atom a) (atom b)) 1 (bit z).
Proof using Ha Hb.
  intros H1 H2 H3 Hz. apply gives_intro; [| | |by destruct z|done].
  - cbn [vsize]. by rewrite size_a, size_b, H1, H2.
  - cbn [vsigned]. by rewrite H1, H2.
  - cbn [veval]. rewrite H1, H2, H3, size_a, size_b. cbn [mbind option_bind]. rewrite (sig_unsigned _ _ _ Ha), Z.max_id. cbn [andb].
    rewrite (sig_eval _ _ _ Ha), (sig_eval _ _ _ Hb). cbn [mbind option_bind]. by rewrite Hz.
Qed.
Lemma gives_compare_signed op z : arith op = false -> shift op = false -> compare op = true ->
  compare_val op true w x y = Some (bit z) -> gives (EBin op (ESigned (atom a)) (ESigned (atom b))) 1 (bit z).
Proof using Ha Hb.
  intros H1 H2 H3 Hz. pose proof Ha as [? Hw ? ? ? ?]. apply gives_intro; [| | |by destruct z|done].
  - cbn [vsize]. by rewrite size_a, size_b, H1, H2.
  - cbn [vsigned]. by rewrite H1, H2.
  - cbn [veval]. rewrite H1, H2, H3. rewrite (signed_size _ _ _ Ha), (signed_size _ _ _ Hb). cbn [mbind option_bind vsigned andb].
    rewrite Z.max_id, size_a, size_b. cbn [mbind option_bind]. rewrite (sig_unsigned _ _ _ Ha), (sig_unsigned _ _ _ Hb).
    rewrite (sig_eval _ _ _ Ha), (sig_eval _ _ _ Hb). cbn [mbind option_bind ext].
    rewrite !sext_same by (done || apply Ha || apply Hb). by rewrite Hz.
Qed.
Lemma gives_shift op z : op = "<<" \/ op = ">>" -> shift_val op false w x y = Some z -> 0 <= z < 2 ^ w ->
  gives (EBin op (atom a) (atom b)) w z.
Proof using Ha Hb.
  intros Ho Hz Hr. pose proof Ha as [? ? ? ? Hua ?].
  assert (arith op = false /\ shift op = true) as [H1 H2] by (by destruct Ho; subst).
  apply gives_intro; [| | |done|done].
  - cbn [vsize]. by rewrite size_a, size_b, H1, H2.
  - cbn [vsigned]. by rewrite H1, H2.
  - cbn [veval]. rewrite H1, H2, (sig_eval _ _ _ Ha). cbn [mbind option_bind]. rewrite size_b. cbn [mbind option_bind].
    rewrite (sig_unsigned _ _ _ Hb), (sig_eval _ _ _ Hb). exact Hz.
Qed.
Lemma gives_ashr : gives (EBin ">>>" (ESigned (atom a)) (atom b)) w (Bits.ashr w x y).
Proof using Ha Hb.
  pose proof Ha as [? Hw Hx ? Hua ?]. unfold gives, assigned. cbn [vsize vsigned]. change (arith ">>>") with false. change (shift ">>>") with true.
  cbv beta iota. rewrite size_a, size_b. cbn [mbind option_bind]. rewrite Z.max_id. cbn [veval]. change (arith ">>>") with false. change (shift ">>>") with true.
  cbv beta iota. rewrite size_a. cbn [mbind option_bind]. rewrite Hua, (sig_eval _ _ _ Ha). cbn [mbind option_bind ext]. rewrite size_b. cbn [mbind option_bind].
  rewrite (sig_unsigned _ _ _ Hb), (sig_eval _ _ _ Hb), sext_same by done. unfold shift_val. cbn [mbind option_bind String.eqb Ascii.eqb Bool.eqb].
  rewrite Bits.wrap_small; [done|by apply Bits.ashr_range].
Qed.
Lemma gives_implb : w = 1 -> gives (EBin "|" (ENot (atom a)) (atom b)) 1 (Z.lor (Bits.not 1 x) y).
Proof using Ha Hb.
  intros H1. rewrite <- H1. pose proof Ha as [? ? Hx ? Hua ?]. apply gives_intro; [| | | |done].
  - cbn [vsize]. rewrite size_a, size_b. cbn [mbind option_bind]. by rewrite Z.max_id.
  - cbn [vsigned]. by rewrite Hua.
  - cbn [veval]. by rewrite (sig_eval _ _ _ Ha), (sig_eval _ _ _ Hb).
  - apply Bits.lor_range; [done| |apply Hb]. by apply Bits.not_range.
Qed.
Lemma gives_concat wb z : is_sig b wb z -> gives (EConcat [atom a; atom b]) (w + wb) (Bits.concat wb x z).
Proof using Ha.
  intros Hz. pose proof Ha as [? ? ? Hsa Hua Hea]. pose proof Hz as [? ? ? Hsb Hub Heb].
  apply (gives_concat2 _ _ w wb x z); rewrite ?Hua, ?Hub; done.
Qed.
End two.

Lemma gives_ite c a b cv w x y : is_sig c 1 (bit cv) -> is_sig a w x -> is_sig b w y ->
  gives (ECond (atom c) (atom a) (atom b)) w (if cv then x else y).
Proof using Type.
  intros [? ? ? Hsc Huc Hec] [? ? ? Hsa Hua Hea] [? ? ? Hsb Hub Heb]. apply gives_intro; [| | |by destruct cv|done].
  - cbn [vsize]. rewrite Hsc, Hsa, Hsb. cbn [mbind option_bind]. by rewrite Z.max_id.
  - cbn [vsigned]. by rewrite Hua.
  - cbn [veval]. rewrite Hsc. cbn [mbind option_bind]. rewrite Huc, Hec. cbn [mbind option_bind]. destruct cv; [apply Hea|apply Heb].
Qed.
Lemma gives_compl a w x : is_sig a w x -> gives (ENot (atom a)) w (Bits.not w x).
Proof using Type.
  intros [? ? ? Hsa Hua Hea]. apply gives_intro; [done|done| | |done].
  - cbn [veval]. by rewrite Hea.
  - by apply Bits.not_range.
Qed.
Lemma gives_negate a w x : is_sig a w x -> gives (EBin "+" (ENot (atom a)) (ELit 1 false 1)) w (Bits.neg w x).
Proof using Type.
  intros [? ? ? Hsa Hua Hea]. apply gives_intro; [| | |by apply Bits.neg_range|done].
  - cbn [vsize]. rewrite Hsa. change (arith "+") with true. cbv beta iota. cbn [mbind option_bind]. f_equal. lia.
  - cbn [vsigned]. by rewrite Hua.
  - cbn [veval]. rewrite Hea. change (arith "+") with true. cbn [mbind option_bind]. unfold arith_val, ext. cbn [String.eqb Ascii.eqb Bool.eqb].
    f_equal. unfold Bits.add, Bits.neg, Bits.not, Bits.ones, Bits.wrap. rewrite <- (Z_mod_plus_full (- x) 1 (2 ^ w)). f_equal. lia.
Qed.
Lemma gives_rem a b w x y : is_sig a w x -> is_sig b w y -> y <> 0 -> gives (EBin "%" (atom a) (atom b)) w (Bits.urem w x y).
Proof using Type.
  intros Ha Hb Hy. unfold Bits.urem. rewrite (proj2 (Z.eqb_neq _ _)) by done. apply gives_arith with x y; [done..| |].
  - unfold arith_val. cbn [String.eqb Ascii.eqb Bool.eqb]. by rewrite (proj2 (Z.eqb_neq _ _)) by done.
  - destruct Hb as [_ _ ? _ _ _], Ha as [_ _ ? _ _ _]. pose proof (Z.mod_pos_bound x y). lia.
Qed.
Lemma gives_load m a mem x : atom m = EName m -> mems_internal Σ !! m = Some mem -> 0 < mem_data_width mem ->
  is_sig a (mem_addr_width mem) x -> 0 <= mem_load (v_mem V m) x < 2 ^ mem_data_width mem ->
  gives (EIndex (atom m) (atom a)) (mem_data_width mem) (mem_load (v_mem V m) x).
Proof using Type.
  intros Hm Hmem Hdw [? ? Hx Hsa Hua Hea] Hr. rewrite Hm. apply gives_intro; [|done| |done|done].
  - cbn [vsize memory]. rewrite Hsa, Hmem. done.
  - assert (Hi : (if lit_val (atom a) is Some v then Some v else s ← vsize Σ (atom a); veval Σ V s (vsigned (atom a)) (atom a)) = Some x).
    { destruct (lit_val (atom a)) as [v|] eqn:El; [|rewrite Hsa; cbn [mbind option_bind]; by rewrite Hua].
      destruct (atom a); try discriminate El. injection El as <-. exact (Hea 1). }
    cbn [veval memory]. rewrite Hi. cbn [mbind option_bind]. rewrite Hmem. cbn [mbind option_bind].
    by rewrite (proj2 (Z.ltb_lt _ _)) by lia.
Qed.

(** *** Selects *)
Section select.
Context (a : string) (w x : Z) (Ha : is_name a w x) (Hw : 1 < w).
Abbreviation num n := (ELit 32 true n).
Local Lemma vector_a : vector Σ (atom a) = Some (a, w).
Proof using Ha Hw.
  destruct Ha as [_ Hat Hwd _ _]. rewrite Hat. cbn [vector]. rewrite Hwd. cbn [mbind option_bind]. by rewrite (proj2 (Z.ltb_lt _ _)).
Qed.
Lemma sel_size h l : 0 <= l <= h -> h < w -> vsize Σ (ESel (atom a) (num h) (num l)) = Some (h - l + 1).
Proof using Ha Hw.
  intros Hl Hh. cbn [vsize]. rewrite vector_a. cbn [mbind option_bind lit_val].
  by rewrite !(proj2 (Z.leb_le _ _)), (proj2 (Z.ltb_lt _ _)) by lia.
Qed.
Lemma sel_eval W h l : 0 <= l <= h -> h < w -> veval Σ V W false (ESel (atom a) (num h) (num l)) = Some (Bits.extract h l x).
Proof using Ha Hw.
  intros Hl Hh. cbn [veval]. rewrite vector_a. cbn [mbind option_bind lit_val].
  rewrite !(proj2 (Z.leb_le _ _)), (proj2 (Z.ltb_lt _ _)) by lia. by rewrite (name_value _ _ _ Ha).
Qed.
Lemma gives_extract h l : 0 <= l <= h -> h < w -> gives (ESel (atom a) (num h) (num l)) (h - l + 1) (Bits.extract h l x).
Proof using Ha Hw.
  intros Hl Hh. apply gives_intro; [by apply sel_size|done|by apply sel_eval|apply Bits.extract_range; lia|lia].
Qed.
Lemma gives_sel2 h l h' l' W z : 0 <= l <= h -> h < w -> 0 <= l' <= h' -> h' < w -> W = h - l + 1 + (h' - l' + 1) ->
  z = Bits.concat (h' - l' + 1) (Bits.extract h l x) (Bits.extract h' l' x) ->
  gives (EConcat [ESel (atom a) (num h) (num l); ESel (atom a) (num h') (num l')]) W z.
Proof using Ha Hw.
  intros H1 H2 H3 H4 -> ->. eapply gives_concat2; [by apply sel_size|by apply sel_eval|by apply sel_size|by apply sel_eval|..|done|done];
    first [lia|apply Bits.extract_range; lia].
Qed.
Lemma gives_rotr k : 0 < k < w -> gives (EConcat [ESel (atom a) (num (k - 1)) (num 0); ESel (atom a) (num (w - 1)) (num k)]) w (Bits.rotr w k x).
Proof using Ha Hw.
  intros Hk. apply gives_sel2; [lia..|]. destruct Ha as [[_ _ Hx _ _ _] _ _ _ _]. unfold Bits.rotr, Bits.rotl, Bits.concat, Bits.extract.
  rewrite (Z.mod_small k), (Z.mod_small (w - k)) by lia. replace (w - (w - k)) with k by lia. replace (w - 1 - k + 1) with (w - k) by lia.
  replace (k - 1 - 0 + 1) with k by lia. rewrite Z.shiftr_0_r. unfold Bits.wrap. f_equal.
  - rewrite !Z.shiftl_mul_pow2 by lia. replace (2 ^ w) with (2 ^ k * 2 ^ (w - k)) by (rewrite <- Z.pow_add_r by lia; f_equal; lia).
    assert (0 < 2 ^ k) by (apply Z.pow_pos_nonneg; lia). assert (0 < 2 ^ (w - k)) by (apply Z.pow_pos_nonneg; lia). by rewrite Zmult_mod_distr_r.
  - symmetry. apply Z.mod_small. rewrite Z.shiftr_div_pow2 by lia. assert (0 < 2 ^ k) by (apply Z.pow_pos_nonneg; lia).
    split; [apply Z.div_pos; lia|]. apply Z.div_lt_upper_bound; [lia|]. rewrite <- Z.pow_add_r by lia. replace (k + (w - k)) with w by lia. lia.
Qed.
Lemma gives_rotl k : 0 < k < w ->
  gives (EConcat [ESel (atom a) (num (w - 1 - k)) (num 0); ESel (atom a) (num (w - 1)) (num (w - k))]) w (Bits.rotl w k x).
Proof using Ha Hw.
  intros Hk. replace (Bits.rotl w k x) with (Bits.rotr w (w - k) x).
  - replace (w - 1 - k) with (w - k - 1) by lia. apply gives_rotr. lia.
  - unfold Bits.rotr. rewrite (Z.mod_small (w - k)) by lia. by replace (w - (w - k)) with k by lia.
Qed.
(** The sign bit, repeated. *)
Lemma sign_eval : veval Σ V 1 false (EIndex (atom a) (num (w - 1))) = Some (bit (2 ^ (w - 1) <=? x)).
Proof using Ha Hw.
  pose proof Ha as [[_ _ Hx _ _ _] Hat Hwd Hm Hv]. pose proof vector_a as Hve. rewrite Hat in Hve |- *.
  cbn [veval memory lit_val]. rewrite Hm. cbn [mbind option_bind]. rewrite Hve. cbn [mbind option_bind].
  rewrite (proj2 (Z.ltb_lt _ _)) by lia. f_equal. unfold ext, Bits.extract, Bits.wrap. rewrite Hv, Z.shiftr_div_pow2 by lia.
  assert (Hp : 2 ^ w = 2 * 2 ^ (w - 1)) by (rewrite <- Z.pow_succ_r by lia; f_equal; lia).
  assert (0 < 2 ^ (w - 1)) by (apply Z.pow_pos_nonneg; lia). replace (w - 1 - (w - 1) + 1) with 1 by lia.
  destruct (Z.leb_spec (2 ^ (w - 1)) x) as [Hl|Hl]; cbn [bit].
  - replace (x / 2 ^ (w - 1)) with 1; [done|]. apply Z.div_unique_pos with (x - 2 ^ (w - 1)); lia.
  - by rewrite Z.div_small by lia.
Qed.
Lemma sign_size : vsize Σ (EIndex (atom a) (num (w - 1))) = Some 1.
Proof using Ha Hw.
  pose proof Ha as [_ Hat _ Hm _]. pose proof vector_a as Hve. rewrite Hat in Hve |- *. cbn [vsize memory]. rewrite Hm. cbn [mbind option_bind]. by rewrite Hve.
Qed.
End select.

Lemma repeat_bit n b : Nat.iter n (fun acc => Bits.concat 1 acc (bit b)) 0 = if b then 2 ^ Z.of_nat n - 1 else 0.
Proof using Type.
  induction n as [|n IH]; [by destruct b|]. 
  change (Bits.concat 1 (Nat.iter n (fun acc => Bits.concat 1 acc (bit b)) 0) (bit b) = if b then 2 ^ Z.of_nat (S n) - 1 else 0).
  rewrite IH. unfold Bits.concat. rewrite Z.shiftl_mul_pow2 by lia.
  rewrite Nat2Z.inj_succ, Z.pow_succ_r by lia. destruct b; cbn [bit]; lia.
Qed.
Lemma sext_concat w w' x : 0 < w < w' -> 0 <= x < 2 ^ w ->
  Bits.sext w w' x = Bits.concat w (if 2 ^ (w - 1) <=? x then 2 ^ (w' - w) - 1 else 0) x.
Proof using Type.
  intros Hw Hx. unfold Bits.sext, Bits.sgn, Bits.concat, Bits.wrap. rewrite Z.shiftl_mul_pow2 by lia.
  assert (Hp : 2 ^ w' = 2 ^ (w' - w) * 2 ^ w) by (rewrite <- Z.pow_add_r by lia; f_equal; lia).
  assert (0 < 2 ^ (w' - w)) by (apply Z.pow_pos_nonneg; lia).
  destruct (Z.ltb_spec x (2 ^ (w - 1))), (Z.leb_spec (2 ^ (w - 1)) x); try lia.
  - rewrite Z.mul_0_l, Z.add_0_l. apply Z.mod_small. nia.
  - symmetry. apply Z.mod_unique_pos with (-1); nia.
Qed.
Lemma gives_repl e b n a w x : vsize Σ e = Some 1 -> veval Σ V 1 (vsigned e) e = Some (bit b) -> is_sig a w x -> 0 < n ->
  b = (2 ^ (w - 1) <=? x) -> gives (EConcat [ERepl (ELit 32 true n) e; atom a]) (w + n) (Bits.sext w (w + n) x).
Proof using Type.
  intros Hs He [? ? ? Hsa Hua Hea] Hn ->. rewrite sext_concat by lia. replace (w + n - w) with n by lia.
  eapply (gives_concat2 _ _ n w _ x); [| |exact Hsa|by rewrite Hua| | | |done|lia|reflexivity]; try done.
  - cbn [vsize lit_val]. rewrite Hs. cbn [mbind option_bind]. f_equal. lia.
  - change (veval Σ V n (vsigned (ERepl (ELit 32 true n) e)) (ERepl (ELit 32 true n) e)) with
      (w ← vsize Σ (ERepl (ELit 32 true n) e); s ← vsize Σ e; x ← veval Σ V s (vsigned e) e;
       Some (ext false w n (Nat.iter (Z.to_nat n) (fun acc => Bits.concat s acc x) 0))).
    cbn [vsize lit_val]. rewrite Hs. cbn [mbind option_bind]. rewrite He. cbn [mbind option_bind]. unfold ext. rewrite repeat_bit.
    by rewrite Z2Nat.id by lia.
  - assert (0 < 2 ^ n) by (apply Z.pow_pos_nonneg; lia). case_match; lia.
Qed.
Lemma gives_zext n a w x : is_sig a w x -> 0 < n -> gives (EConcat [ELit n false 0; atom a]) (w + n) x.
Proof using Type.
  intros [? ? ? Hsa Hua Hea] Hn. eapply (gives_concat2 _ _ n w 0 x); [done|done|done|by rewrite Hua|done|done| |done|lia|].
  - assert (0 < 2 ^ n) by (apply Z.pow_pos_nonneg; lia). lia.
  - unfold Bits.concat. by rewrite Z.shiftl_0_l.
Qed.
Lemma gives_sext1 n a x : is_sig a 1 x -> 0 < n -> gives (EConcat [ERepl (ELit 32 true n) (atom a); atom a]) (1 + n) (Bits.sext 1 (1 + n) x).
Proof using Type.
  intros Ha Hn. pose proof Ha as [? ? Hx Hsa Hua Hea]. apply (gives_repl _ (1 <=? x)); try done.
  rewrite Hua, Hea. f_equal. assert (x = 0 \/ x = 1) as [-> | ->] by lia; done.
Qed.
Lemma gives_sext n a w x : is_name a w x -> 1 < w -> 0 < n ->
  gives (EConcat [ERepl (ELit 32 true n) (EIndex (atom a) (ELit 32 true (w - 1))); atom a]) (w + n) (Bits.sext w (w + n) x).
Proof using Type.
  intros Ha Hw Hn. eapply gives_repl; [by eapply sign_size|by eapply sign_eval|apply Ha|done|done].
Qed.
End values.
