(* ===== verification/VlgSpec.v ===== *)
(** * The translation of expressions to Verilog is correct

    [ParseNonMemUpdateExpr] adds wires and assignments; in every valuation of the
    signals that respects the assignments, the name it gives to an expression has
    the value of the expression.  Names are those of variables and [n<id>], which
    is why variables must not have names of the latter form. *)
From S2P Require Import Prelude Sort Values Container Expr World ExprOp AstHub McmAst StrUtil Verilog VlgSem VlgText VlgOps.
Local Open Scope Z_scope.

(** ** Values of names *)
Definition sig_of (Σ : VlgSigs) (V : vval) (s : string) (v : val) : Prop :=
  match v with
  | VBool b => is_sig Σ V s 1 (bit b)
  | VBv w n => is_name Σ V s w n
  | VMem aw dw m => word s = true /\ atom s = EName s /\ v_mem V s = m /\
      exists mem, mems_internal Σ !! s = Some mem /\ mem_addr_width mem = aw /\ mem_data_width mem = dw
  end.
Definition width_val (v : val) : Z := match v with VBool _ => 1 | VBv w _ => w | VMem _ dw _ => dw end.
Definition bits_val (v : val) : Z := match v with VBool b => bit b | VBv _ n => n | VMem _ _ _ => 0 end.
Lemma sig_of_word Σ V s v : sig_of Σ V s v -> word s = true.
Proof. destruct v; cbn; [by intros []|by intros [[]]|naive_solver]. Qed.

Section ops.
Context (Σ : VlgSigs) (V : vval).
Abbreviation gives := (gives Σ V).
Abbreviation sig_of := (sig_of Σ V).

Lemma bit_land x y : Z.land (bit x) (bit y) = bit (x && y). Proof. by destruct x, y. Qed.
Lemma bit_lor x y : Z.lor (bit x) (bit y) = bit (x || y). Proof. by destruct x, y. Qed.
Lemma bit_lxor x y : Z.lxor (bit x) (bit y) = bit (xorb x y). Proof. by destruct x, y. Qed.

Lemma not_gives a b : sig_of a (VBool b) -> gives (ENot (atom a)) 1 (bit (negb b)).
Proof using Type. intros Ha. replace (bit (negb b)) with (Bits.not 1 (bit b)) by (by destruct b). by apply gives_compl. Qed.

Lemma equal_gives a b va vb s : has_sort va s = true -> has_sort vb s = true -> sig_of a va -> sig_of b vb ->
  (if s is SortMem _ _ then False else True) -> gives (EBin "==" (atom a) (atom b)) 1 (bit (bool_decide (va = vb))).
Proof using Type.
  intros Ha Hb Hsa Hsb Hs. destruct s; try (destruct va; discriminate Ha); [| |done].
  - apply has_sort_bool in Ha as [x ->], Hb as [y ->]. eapply gives_compare; [exact Hsa|exact Hsb|done..|].
    cbn. do 2 f_equal. destruct x, y; try done.
  - apply has_sort_bv in Ha as (x & -> & _), Hb as (y & -> & _). eapply gives_compare; [exact (name_sig _ _ _ _ _ Hsa)|exact (name_sig _ _ _ _ _ Hsb)|done..|].
    unfold compare_val. cbn [String.eqb Ascii.eqb Bool.eqb]. do 2 f_equal. destruct (Z.eqb_spec x y) as [->|Hn]; [by rewrite bool_decide_eq_true_2|].
    symmetry. apply bool_decide_eq_false. congruence.
Qed.

(** Operations on two Booleans or vectors with a Boolean result. *)
Lemma bool2_gives op a b va vb sa sb z t : op_sort op [] [sa; sb] = Some SortBool -> has_sort va sa = true -> has_sort vb sb = true ->
  sig_of a va -> sig_of b vb -> (op = kEqual -> if sa is SortMem _ _ then False else True) ->
  op_sem op [] [va; vb] = Some (VBool z) -> bool_op2 op a b = Ok t -> exists e, reads t e /\ gives e 1 (bit z).
Proof using Type.
  intros Hs Ha Hb Hsa Hsb He Hz Ht.
  destruct (read_bool_op2 a b (sig_of_word _ _ _ _ Hsa) (sig_of_word _ _ _ _ Hsb) op t Ht) as (e & Hr & ->).
  eexists. split; [exact Hr|]. clear Hr.
  assert (Hlt : forall f, cmp2_sort sa sb = Some SortBool -> cmp2 f va vb = Some (VBool z) ->
    exists w x y, is_sig Σ V a w x /\ is_sig Σ V b w y /\ z = f w x y).
  { intros f Hc Hf. unfold cmp2_sort in Hc. destruct (bv2_sort sa sb) eqn:E; [|done]. apply bv2_sort_Some in E as (w & -> & -> & _ & _).
    apply has_sort_bv in Ha as (x & -> & _), Hb as (y & -> & _). cbn in Hf. rewrite Z.eqb_refl in Hf. injection Hf as <-.
    exists w, x, y. split; [exact (name_sig _ _ _ _ _ Hsa)|]. split; [exact (name_sig _ _ _ _ _ Hsb)|done]. }
  assert (Hlo : forall f g op', logic2_sort sa sb = Some SortBool -> logic2 f g va vb = Some (VBool z) -> arith op' = true ->
    (forall x y, arith_val op' false 1 (bit x) (bit y) = Some (bit (f x y))) -> gives (EBin op' (atom a) (atom b)) 1 (bit z)).
  { intros f g op' Hl Hf Ho Hv. destruct va as [x|w n|], vb as [y|w' n'|]; cbn in Hf; try discriminate Hf; try (by case_match).
    injection Hf as <-. eapply gives_arith; [exact Hsa|exact Hsb|done|apply Hv|apply bool_range]. }
  destruct op; cbn [bool_op2 op_sort op_sem] in *; try discriminate.
  - eapply Hlo; [done|done|done|]. intros x y. unfold arith_val. cbn [String.eqb Ascii.eqb Bool.eqb]. by rewrite bit_land.
  - eapply Hlo; [done|done|done|]. intros x y. unfold arith_val. cbn [String.eqb Ascii.eqb Bool.eqb]. by rewrite bit_lor.
  - eapply Hlo; [done|done|done|]. intros x y. unfold arith_val. cbn [String.eqb Ascii.eqb Bool.eqb]. by rewrite bit_lxor.
  - injection Hz as <-. case_decide; [subst sb|done]. apply (equal_gives a b va vb sa); [done|done|done|done|by apply He].
  - destruct (Hlt _ Hs Hz) as (w & x & y & Hx & Hy & ->). by eapply gives_compare_signed.
  - destruct (Hlt _ Hs Hz) as (w & x & y & Hx & Hy & ->). by eapply gives_compare_signed.
  - destruct (Hlt _ Hs Hz) as (w & x & y & Hx & Hy & ->). by eapply gives_compare.
  - destruct (Hlt _ Hs Hz) as (w & x & y & Hx & Hy & ->). eapply gives_compare; [exact Hx|exact Hy|done..|].
    unfold compare_val. cbn [String.eqb Ascii.eqb Bool.eqb]. by rewrite Z.gtb_ltb.
  - destruct va as [x| |], vb as [y| |]; try discriminate Hz. injection Hz as <-.
    replace (bit (implb x y)) with (Z.lor (Bits.not 1 (bit x)) (bit y)) by (by destruct x, y). by eapply gives_implb.
Qed.

Lemma bv2_gives op a b va vb sa sb w z t : op_sort op [] [sa; sb] = Some (SortBv w) -> has_sort va sa = true -> has_sort vb sb = true ->
  sig_of a va -> sig_of b vb -> op <> kDivide -> (op = kUnsignedRemainder -> bits_val vb <> 0) ->
  op_sem op [] [va; vb] = Some (VBv w z) -> bv_op2 op a b = Ok t -> exists e, reads t e /\ gives e w z.
Proof using Type.
  intros Hs Ha Hb Hsa Hsb Hd Hm Hz Ht.
  destruct (read_bv_op2 a b (sig_of_word _ _ _ _ Hsa) (sig_of_word _ _ _ _ Hsb) op t Ht) as (e & Hr & ->).
  eexists. split; [exact Hr|]. clear Hr.
  assert (Hbv : forall f, bv2_sort sa sb = Some (SortBv w) -> bv2 f va vb = Some (VBv w z) ->
    exists x y, is_sig Σ V a w x /\ is_sig Σ V b w y /\ 0 < w /\ z = f w x y /\ vb = VBv w y).
  { intros f (w' & -> & -> & [= <-] & Hw)%bv2_sort_Some Hf.
    apply has_sort_bv in Ha as (x & -> & _), Hb as (y & -> & _). cbn in Hf. rewrite Z.eqb_refl in Hf. injection Hf as <-.
    exists x, y. split; [exact (name_sig _ _ _ _ _ Hsa)|]. split; [exact (name_sig _ _ _ _ _ Hsb)|done]. }
  assert (Hlo : forall f g, logic2_sort sa sb = Some (SortBv w) -> logic2 f g va vb = Some (VBv w z) ->
    bv2_sort sa sb = Some (SortBv w) /\ bv2 (fun _ => g) va vb = Some (VBv w z)).
  { intros f g Hl Hf. destruct sa, sb; try discriminate Hl; (split; [exact Hl|]).
    by apply has_sort_bv in Ha as (x & -> & _), Hb as (y & -> & _). }
  destruct op; cbn [bv_op2 op_sort op_sem] in *; try discriminate; try done.
  1-3: destruct (Hlo _ _ Hs Hz) as [Hs' Hz']; destruct (Hbv _ Hs' Hz') as (x & y & Hx & Hy & Hw & -> & _);
    (eapply gives_arith; [exact Hx|exact Hy|done|reflexivity|]); destruct Hx, Hy; auto with bits.
  - destruct (Hbv _ Hs Hz) as (x & y & Hx & Hy & Hw & -> & _). eapply gives_shift; [exact Hx|exact Hy|by left|done|auto with bits].
  - destruct (Hbv _ Hs Hz) as (x & y & Hx & Hy & Hw & -> & _). by apply gives_ashr.
  - destruct (Hbv _ Hs Hz) as (x & y & Hx & Hy & Hw & -> & _). eapply gives_shift; [exact Hx|exact Hy|by right|done|].
    destruct Hx, Hy. auto with bits.
  - destruct (Hbv _ Hs Hz) as (x & y & Hx & Hy & Hw & -> & _). eapply gives_arith; [exact Hx|exact Hy|done|done|auto with bits].
  - destruct (Hbv _ Hs Hz) as (x & y & Hx & Hy & Hw & -> & _). eapply gives_arith; [exact Hx|exact Hy|done|done|auto with bits].
  - destruct (Hbv _ Hs Hz) as (x & y & Hx & Hy & Hw & -> & _). eapply gives_arith; [exact Hx|exact Hy|done|done|auto with bits].
  - destruct sa, sb; try discriminate Hs. injection Hs as <-.
    apply has_sort_bv in Ha as (x & -> & _), Hb as (y & -> & _). injection Hz as <-.
    apply gives_concat; [exact (name_sig _ _ _ _ _ Hsa)|exact (name_sig _ _ _ _ _ Hsb)].
  - destruct (Hbv _ Hs Hz) as (x & y & Hx & Hy & Hw & -> & ->). eapply gives_rem; [exact Hx|exact Hy|by apply Hm].
Qed.

(** Operations on one vector. *)
Definition bv1_ok (op : AstUidExprOp) (ps : list Z) (wi : Z) (cst : bool) : bool :=
  match op, ps with
  | (kNegate | kComplement | kZeroExtend), _ => true
  | kExtract, _ => 1 <? wi
  | kSignedExtend, [w'] => (w' =? wi) || (1 <? wi) || cst
  | (kRotateLeft | kRotateRight), [k] => (0 <? k) && (k <? wi)
  | _, _ => false
  end.
Lemma bv1_gives op ps a wi x cst w z : is_name Σ V a wi x -> op_sort op ps [SortBv wi] = Some (SortBv w) ->
  op_sem op ps [VBv wi x] = Some (VBv w z) -> bv1_ok op ps wi cst = true ->
  exists t e, bv_op1 op ps (Ok wi) cst a = Ok t /\ reads t e /\ gives e w z.
Proof using Type.
  intros Ha Hs Hz Hok. pose proof (name_sig _ _ _ _ _ Ha) as Hsig. pose proof (sig_word _ _ _ _ _ Hsig) as Hw.
  pose proof (sig_width _ _ _ _ _ Hsig) as Hp.
  destruct op; cbn [op_sort op_sem bv1_ok bv_op1] in *; try discriminate;
    repeat match type of Hs with context [match ?l with _ => _ end] => is_var l; destruct l as [|? l]; try discriminate end.
  - injection Hz as <- <-. do 2 eexists. split; [done|]. split; [by apply read_negate|by apply gives_negate].
  - injection Hz as <- <-. do 2 eexists. split; [done|]. split; [by apply read_compl|by apply gives_compl].
  - case_match; [|done]. injection Hz as <- <-. bool_inv. do 2 eexists. split; [done|].
    split; [apply read_extract; [done|lia|lia]|apply gives_extract with wi; [done|lia|lia|lia]].
  - case_match; [|done]. injection Hz as -> <-. bool_inv. cbn [Exprs.at_ lookup list_lookup mbind Res_bind].
    destruct (Z.eqb_spec w wi) as [->|Hne]; (do 2 eexists; split; [done|]).
    + split; [by apply read_name|by apply gives_atom].
    + split; [apply read_zext; [done|lia]|]. replace w with (wi + (w - wi)) at 2 by lia. apply gives_zext; [done|lia].
  - case_match; [|done]. injection Hz as -> <-. bool_inv. cbn [Exprs.at_ lookup list_lookup mbind Res_bind].
    destruct (Z.eqb_spec w wi) as [->|Hne]; [|destruct (cst && (wi =? 1)) eqn:Ec]; (do 2 eexists; split; [done|]).
    + split; [by apply read_name|]. rewrite sext_same by apply Hsig || done. by apply gives_atom.
    + bool_inv. subst wi. split; [apply read_sext1; [done|lia]|]. replace w with (1 + (w - 1)) at 2 3 by lia. apply gives_sext1; [done|lia].
    + split; [apply read_sext; [done|lia|lia]|]. replace w with (wi + (w - wi)) at 2 3 by lia. apply gives_sext; [done| |lia].
      destruct (Z.ltb_spec 1 wi) as [|Hle]; [done|]. exfalso. assert (wi = 1) as -> by lia.
      destruct cst; discriminate.
  - injection Hz as <- <-. cbn [Exprs.at_ lookup list_lookup mbind Res_bind]. bool_inv. do 2 eexists. split; [done|].
    split; [apply read_rotr; [done|lia|lia|lia]|]. apply gives_rotl; [done|lia|lia].
  - injection Hz as <- <-. cbn [Exprs.at_ lookup list_lookup mbind Res_bind]. bool_inv. do 2 eexists. split; [done|].
    split; [|apply gives_rotr; [done|lia|lia]]. apply read_rotr; [done|lia|lia|lia].
Qed.

Lemma ite_gives c a b cv va vb s w x t : has_sort va s = true -> has_sort vb s = true ->
  sig_of c (VBool cv) -> sig_of a va -> sig_of b vb -> (if s is SortMem _ _ then False else True) ->
  w = width_val (if cv then va else vb) -> x = bits_val (if cv then va else vb) ->
  bool_op3 kIfThenElse c a b = Ok t \/ bv_op3 kIfThenElse c a b = Ok t -> exists e, reads t e /\ gives e w x.
Proof using Type.
  intros Ha Hb Hsc Hsa Hsb Hs -> -> Ht. eexists. split.
  { eapply read_ite; [| | |exact Ht]; by eapply sig_of_word. }
  destruct s; try (destruct va; discriminate Ha); [| |done].
  - apply has_sort_bool in Ha as [x ->], Hb as [y ->].
    replace (width_val _) with 1 by (by destruct cv). replace (bits_val _) with (if cv then bit x else bit y) by (by destruct cv).
    by apply gives_ite.
  - apply has_sort_bv in Ha as (x & -> & _), Hb as (y & -> & _).
    replace (width_val _) with bit_width_ by (by destruct cv). replace (bits_val _) with (if cv then x else y) by (by destruct cv).
    apply gives_ite; [done|apply Hsa|apply Hsb].
Qed.

Lemma load_gives m a aw dw mv x : 0 < dw -> map_Forall (fun a d => 0 <= a < 2 ^ aw /\ 0 < d < 2 ^ dw) mv ->
  sig_of m (VMem aw dw mv) -> sig_of a (VBv aw x) ->
  reads (" (  " +:+ m +:+ "[" +:+ a +:+ "] ) ") (EIndex (atom m) (atom a)) /\ gives (EIndex (atom m) (atom a)) dw (mem_load mv x).
Proof using Type.
  intros Hdw Hm (Hw & Hat & <- & mem & Hmem & <- & <-) Ha. split; [by apply read_load; [|by eapply (sig_of_word _ _ _ (VBv _ _))]|].
  apply gives_load; [done..|exact (name_sig _ _ _ _ _ Ha)|]. by eapply mem_load_range.
Qed.
End ops.

(** ** Names of the generator *)
Fixpoint gen_at (start : bool) (s : string) : bool :=
  match s with
  | EmptyString => false
  | String c r => (start && Ascii.eqb c "n" && digits r && negb (String.eqb r "")) || gen_at (Ascii.eqb c "_") r
  end.
(** Ends in [n<id>], at the start or after an underscore. *)
Definition generated (s : string) : bool := gen_at true s.
Definition uses (k : N) (s : string) : Prop := exists t, s = t +:+ "n" +:+ pretty k /\ (t = "" \/ exists t0, t = t0 +:+ "_").

Lemma pretty_N_nonempty (k : N) : pretty k <> "".
Proof. destruct k as [|p]; [done|]. exact (pretty_nonempty (Z.pos p) ltac:(lia)). Qed.
Lemma gen_at_app u : gen_at true u = true -> forall t b, gen_at b (t +:+ "_" +:+ u) = true.
Proof.
  intros Hk. induction t as [|c t IH]; intros b.
  - change ("" +:+ "_" +:+ u) with (String "_" u). etrans; [exact (f_equal (orb _) Hk)|apply orb_true_r].
  - change (String c t +:+ "_" +:+ u) with (String c (t +:+ "_" +:+ u)). cbn [gen_at]. by rewrite IH, orb_true_r.
Qed.
Lemma uses_generated k s : uses k s -> generated s = true.
Proof.
  intros (t & -> & Ht). unfold generated.
  assert (Hk : gen_at true ("n" +:+ pretty k) = true).
  { change (true && true && digits (pretty k) && negb (String.eqb (pretty k) "") || gen_at false (pretty k) = true).
    rewrite pretty_N_digits, (proj2 (String.eqb_neq _ _)) by apply pretty_N_nonempty. done. }
  destruct Ht as [->|[t0 ->]]; [exact Hk|]. rewrite <- str_app_assoc. by apply gen_at_app.
Qed.
Lemma digits_no_n t d : digits (t +:+ String "n" d) = false.
Proof. induction t as [|c t IH]; [done|]. change (digit c && digits (t +:+ String "n" d) = false). by rewrite IH, andb_false_r. Qed.
Lemma last_digits t t' d d' : digits d = true -> digits d' = true -> t +:+ String "n" d = t' +:+ String "n" d' -> d = d'.
Proof.
  intros Hd Hd'. revert t'. induction t as [|c t IH]; intros [|c' t'] E.
  - by injection E.
  - injection E as _ E. change (d = t' +:+ String "n" d') in E. by rewrite E, digits_no_n in Hd.
  - injection E as _ E. change (t +:+ String "n" d = d') in E. by rewrite <- E, digits_no_n in Hd'.
  - injection E as _ E. by eapply IH.
Qed.
Lemma uses_inj k k' s : uses k s -> uses k' s -> k = k'.
Proof.
  intros (t & -> & _) (t' & E & _). apply (inj pretty). eapply last_digits; [apply pretty_N_digits|apply pretty_N_digits|exact E].
Qed.

(** The names a user gives: [sanitizeName] keeps them. *)
Fixpoint plain (s : string) : bool := match s with EmptyString => true | String c s => plain_char c && plain s end.
Definition name_ok (s : string) : bool :=
  match s with
  | String c r => plain_char c && negb (digit c) && negb (Ascii.eqb c "$") && plain r && negb (generated s)
  | EmptyString => false
  end.
Lemma name_ok_inv s : name_ok s = true -> exists c r, s = String c r /\ plain_char c = true /\ digit c = false /\ Ascii.eqb c "$" = false /\
  plain r = true /\ generated s = false.
Proof.
  destruct s as [|c r]; [done|]. cbn [name_ok]. rewrite !andb_true_iff, !negb_true_iff. intros [[[[H0 H1] H2] H3] H4].
  by exists c, r.
Qed.
Lemma plain_word_chars s : plain s = true -> word_chars s = true.
Proof. induction s as [|c s IH]; [done|]. cbn. intros. bool_inv. unfold word_char. by rewrite H, IH. Qed.
Lemma name_ok_word s : name_ok s = true -> word s = true /\ atom s = EName s.
Proof.
  intros (c & r & -> & Hc & Hd & Hs & Hr & _)%name_ok_inv. split.
  - apply word_intro; [done|unfold word_char; by rewrite Hc|by apply plain_word_chars].
  - unfold atom. rewrite Hd. destruct (Ascii.eqb_spec c "'") as [->|]; [discriminate|done].
Qed.
Lemma sanitize_plain n g : plain n = true -> sanitize_loop false n g = Ok (n, g).
Proof.
  induction n as [|c n IH]; [done|]. cbn [plain]. intros [Hc Hn]%andb_true_iff. cbn [sanitize_loop]. unfold sanitize_char, get.
  unfold mbind, ST_bind. cbn [andb]. rewrite Hc. unfold mret, ST_ret. by rewrite IH.
Qed.
Lemma sanitizeName_ok n g : name_ok n = true -> sanitizeName n g = Ok (n, g).
Proof.
  intros (c & r & -> & Hc & Hd & _ & Hr & _)%name_ok_inv. unfold sanitizeName. cbn [sanitize_loop]. unfold sanitize_char, get, mbind, ST_bind.
  rewrite Hd, Hc. cbn [andb]. unfold mret, ST_ret. by rewrite sanitize_plain.
Qed.

Lemma fresh_word k s : (exists p r, s = String p r /\ digit p = false /\ Ascii.eqb p "'" = false /\ Ascii.eqb p "$" = false /\ word_char p = true /\
  word_chars r = true) -> uses k s -> word s = true /\ atom s = EName s.
Proof.
  intros (p & r & -> & Hd & Hq & Hs & Hp & Hr) _. split; [by apply word_intro|]. unfold atom. by rewrite Hd, Hq.
Qed.

(** ** What the generator keeps *)
(** Declarations that only grow. *)
Record sigs_le (a b : VlgSigs) : Prop := {
  le_width n w : width_of a n = Some w -> width_of b n = Some w;
  le_internal : mems_internal b = mems_internal a;
  le_external : mems_external b = mems_external a }.
#[export] Instance sigs_le_preorder : PreOrder sigs_le.
Proof. split; [done|]. intros a b c [] []. split; [auto|congruence..]. Qed.

(** Expressions that have a size keep it and their value when declarations are
    added and the declared signals keep their values. *)
Section vexp_ind.
Context (P : vexp -> Prop).
Context (Hname : forall n, P (EName n)) (Hlit : forall w sg v, P (ELit w sg v))
  (Hsel : forall e hi lo, P (ESel e hi lo)) (Hindex : forall e i, P i -> P (EIndex e i)) (Hnot : forall e, P e -> P (ENot e))
  (Hbin : forall op a b, P a -> P b -> P (EBin op a b)) (Hcond : forall c a b, P c -> P a -> P b -> P (ECond c a b))
  (Hsigned : forall e, P e -> P (ESigned e)) (Hconcat : forall l, Forall P l -> P (EConcat l)) (Hrepl : forall k e, P e -> P (ERepl k e)).
Fixpoint vexp_ind' (e : vexp) : P e :=
  match e with
  | EName n => Hname n
  | ELit w sg v => Hlit w sg v
  | ESel e hi lo => Hsel e hi lo
  | EIndex e i => Hindex e i (vexp_ind' i)
  | ENot e => Hnot e (vexp_ind' e)
  | EBin op a b => Hbin op a b (vexp_ind' a) (vexp_ind' b)
  | ECond c a b => Hcond c a b (vexp_ind' c) (vexp_ind' a) (vexp_ind' b)
  | ESigned e => Hsigned e (vexp_ind' e)
  | EConcat l => Hconcat l ((fix go l : Forall P l := match l with [] => Forall_nil_2 _ | e :: l => Forall_cons_2 _ _ _ (vexp_ind' e) (go l) end) l)
  | ERepl k e => Hrepl k e (vexp_ind' e)
  end.
End vexp_ind.
Ltac opt H := repeat (apply bind_Some in H; let x := fresh "x" in let E := fresh "E" in destruct H as (x & E & H); cbv beta in H).
Section frame.
Context (Σ Σ' : VlgSigs) (V V' : vval) (Hle : sigs_le Σ Σ').
Context (Hsig : forall n, is_Some (width_of Σ n) -> v_sig V' n = v_sig V n) (Hmem : forall n, v_mem V' n = v_mem V n).
Lemma memory_le e : memory Σ' e = memory Σ e.
Proof using Hle. destruct e; cbn [memory]; [|done..]. by rewrite (le_internal _ _ Hle). Qed.
Lemma vector_le e p : vector Σ e = Some p -> vector Σ' e = Some p.
Proof using Hle. destruct e; cbn [vector]; [|done..]. intros H. opt H. by rewrite (le_width _ _ Hle _ _ E). Qed.
Lemma vector_sig e n w : vector Σ e = Some (n, w) -> v_sig V' n = v_sig V n.
Proof using Hsig. destruct e; cbn [vector]; [|done..]. intros H. opt H. case_match; [|done]. injection H as <- <-. apply Hsig. by eexists. Qed.
Lemma vsize_le e : forall s, vsize Σ e = Some s -> vsize Σ' e = Some s.
Proof using Hle.
  induction e as [n|w sg v|e hi lo|e i IHi|e IH|op a b IHa IHb|c a b IHc IHa IHb|e IH|l IHl|k e IH] using vexp_ind'; intros s Hs;
    cbn [vsize] in *; try done; try (by eauto).
  - by apply (le_width _ _ Hle _ _).
  - opt Hs. destruct x as [n w]. by rewrite (vector_le _ _ E).
  - opt Hs. rewrite (IHi _ E), memory_le. cbn [mbind option_bind]. destruct (memory Σ e); [done|]. opt Hs. by rewrite (vector_le _ _ E0).
  - opt Hs. by rewrite (IHa _ E), (IHb _ E0).
  - opt Hs. by rewrite (IHc _ E), (IHa _ E0), (IHb _ E1).
  - revert s Hs. induction IHl as [|e l He _ IH]; intros s Hs; [done|]. opt Hs. by rewrite (He _ E), (IH _ E0).
  - opt Hs. by rewrite E, (IH _ E0).
Qed.
Lemma size_le e : is_Some (vsize Σ e) -> vsize Σ' e = vsize Σ e.
Proof using Hle. intros [s Hs]. rewrite Hs. by apply vsize_le. Qed.
Lemma veval_le e : forall s, vsize Σ e = Some s -> forall W sg, veval Σ' V' W sg e = veval Σ V W sg e.
Proof using All.
  induction e as [n|w sg v|e hi lo|e i IHi|e IH|op a b IHa IHb|c a b IHc IHa IHb|e IH|l IHl|k e IH] using vexp_ind'; intros s Hs W sg0.
  - cbn [vsize veval] in *. rewrite (le_width _ _ Hle _ _ Hs), Hs. cbn [mbind option_bind]. by rewrite Hsig by (by eexists).
  - done.
  - cbn [vsize veval] in *. opt Hs. destruct x as [n w]. rewrite (vector_le _ _ E), E. cbn [mbind option_bind]. by rewrite (vector_sig _ _ _ E).
  - cbn [vsize veval] in *. opt Hs. rewrite memory_le, (vsize_le _ _ E), E.
    cbn [mbind option_bind]. rewrite (IHi _ E). apply option_bind_ext; [|done]. intros y. destruct (memory Σ e) as [[n m]|]; [by rewrite Hmem|]. opt Hs.
    destruct x0 as [n w]. rewrite (vector_le _ _ E0), E0. cbn [mbind option_bind]. by rewrite (vector_sig _ _ _ E0).
  - cbn [vsize veval] in *. by rewrite (IH _ Hs).
  - cbn [vsize veval] in *. opt Hs. rewrite !(vsize_le _ _ E), !(vsize_le _ _ E0), E, E0. cbn [mbind option_bind]. by rewrite !(IHa _ E), !(IHb _ E0).
  - cbn [vsize veval] in *. opt Hs. rewrite (vsize_le _ _ E), E. cbn [mbind option_bind]. by rewrite !(IHc _ E), !(IHa _ E0), !(IHb _ E1).
  - cbn [vsize veval] in *. rewrite (vsize_le _ _ Hs), Hs. cbn [mbind option_bind]. by rewrite (IH _ Hs).
  - assert (Hc : vsize Σ' (EConcat l) = vsize Σ (EConcat l)) by (apply size_le; by eexists).
    assert (Hg : forall acc, (fix go (l : list vexp) (acc : Z) : option Z :=
      match l with [] => Some acc | e :: l => s ← vsize Σ' e; x ← veval Σ' V' s (vsigned e) e; go l (Bits.concat s acc x) end) l acc =
      (fix go (l : list vexp) (acc : Z) : option Z :=
      match l with [] => Some acc | e :: l => s ← vsize Σ e; x ← veval Σ V s (vsigned e) e; go l (Bits.concat s acc x) end) l acc).
    { cbn [vsize] in Hs. clear Hc. revert s Hs. induction IHl as [|e l He _ IH]; intros s Hs acc; [done|]. opt Hs.
      rewrite (vsize_le _ _ E), E. cbn [mbind option_bind]. rewrite (He _ E). apply option_bind_ext; [|done]. intros y. by apply (IH _ E0). }
    change (veval Σ' V' W sg0 (EConcat l)) with (w ← vsize Σ' (EConcat l); x ← (fix go (l : list vexp) (acc : Z) : option Z :=
      match l with [] => Some acc | e :: l => s ← vsize Σ' e; x ← veval Σ' V' s (vsigned e) e; go l (Bits.concat s acc x) end) l 0; Some (ext sg0 w W x)).
    by rewrite Hc, Hg.
  - cbn [vsize veval] in *. opt Hs. rewrite !E, !(vsize_le _ _ E0), !E0. cbn [mbind option_bind]. by rewrite (IH _ E0).
Qed.
Lemma assigned_le e w : is_Some (vsize Σ e) -> assigned Σ' V' w e = assigned Σ V w e.
Proof using All. intros [s Hs]. unfold assigned. rewrite (vsize_le _ _ Hs), Hs. cbn [mbind option_bind]. by rewrite (veval_le _ _ Hs). Qed.

(** The statement is about declared names. *)
Definition readable (st : string) : Prop :=
  match read_assign st with
  | Some (EName n, e) | Some (EIndex (EName n) (ELit _ _ _), e) => is_Some (width_of Σ n) /\ is_Some (vsize Σ e)
  | _ => True
  end.
Lemma stmt_holds_le st : readable st -> stmt_holds Σ V st -> stmt_holds Σ' V' st.
Proof using All.
  unfold readable, stmt_holds. destruct (read_assign st) as [[lhs e]|]; [|done]. destruct lhs as [n| | |lhs i| | | | | |]; try done.
  - intros [Hn He]. pose proof (Hsig n Hn) as Hs. destruct Hn as [w Hn]. by rewrite (le_width _ _ Hle _ _ Hn), Hn, assigned_le, Hs.
  - destruct lhs; try done. destruct i; try done. intros [Hn He]. by rewrite assigned_le, Hsig.
Qed.
End frame.
Lemma readable_le Σ Σ' st : sigs_le Σ Σ' -> readable Σ st -> readable Σ' st.
Proof.
  intros Hle. assert (Hw : forall n, is_Some (width_of Σ n) -> is_Some (width_of Σ' n)).
  { intros n [w Hn]. exists w. by eapply le_width. }
  assert (Hv : forall e, is_Some (vsize Σ e) -> is_Some (vsize Σ' e)) by (intros e [s Hs]; exists s; by apply (vsize_le Σ)).
  unfold readable. destruct (read_assign st) as [[lhs e]|]; [|done]. destruct lhs as [n| | |lhs i| | | | | |]; try done; [naive_solver|].
  destruct lhs; try done. destruct i; try done. naive_solver.
Qed.
Lemma gives_size Σ V e w x : gives Σ V e w x -> is_Some (vsize Σ e).
Proof. unfold gives, assigned. intros H. opt H. by eexists. Qed.

(** What the state of a generator keeps while expressions are parsed. *)
Record grown (g g' : VlgGen) : Prop := {
  gr_sigs : sigs_le (sigs g) (sigs g');
  gr_stmts : statements (body g) `prefix_of` statements (body g');
  gr_wire n : generated n = false -> wires (sigs g') !! n = wires (sigs g) !! n;
  gr_width n : generated n = false -> width_of (sigs g') n = width_of (sigs g) n;
  gr_nmap i : is_Some (nmap (maps g) !! i) -> is_Some (nmap (maps g') !! i);
  gr_names : names g' = names g;
  gr_inputs : inputs (sigs g') = inputs (sigs g);
  gr_outputs : outputs (sigs g') = outputs (sigs g);
  gr_inits : init_stmts (body g') = init_stmts (body g);
  gr_always : always_stmts (body g') = always_stmts (body g);
  gr_ites : ite_stmts (body g') = ite_stmts (body g);
  gr_cfg : cfg_ g' = cfg_ g;
  gr_refs : reference_name_set g' = reference_name_set g;
  gr_annot : memory_export_annotation g' = memory_export_annotation g;
  gr_funcs : func_ptr_set (maps g') = func_ptr_set (maps g);
  gr_ports : ports g' = ports g }.
#[export] Instance grown_preorder : PreOrder grown.
Proof.
  split; [intros g; by split|]. intros a b c [] []. split; try congruence.
  - by etrans.
  - by etrans.
  - intros n Hn. etrans; [apply gr_wire1|apply gr_wire0]; done.
  - intros n Hn. etrans; [apply gr_width1|apply gr_width0]; done.
  - auto.
Qed.

(** The known variables, their declarations and values. *)
Section expr.
Context {L : Layout}.
Context (T : gmap objid Expr) (known : Hdr -> Prop).

Definition declares (Σ : VlgSigs) (h : Hdr) : Prop :=
  match h_sort h with
  | SortBool => width_of Σ (h_name h) = Some 1 /\ mems_internal Σ !! h_name h = None
  | SortBv w => width_of Σ (h_name h) = Some w /\ mems_internal Σ !! h_name h = None
  | SortMem aw dw => mems_external Σ !! h_name h = None /\
      exists m, mems_internal Σ !! h_name h = Some m /\ mem_addr_width m = aw /\ mem_data_width m = dw
  | _ => False
  end.
Definition agrees (V : vval) (ρ : Env) : Prop := forall h, known h ->
  match ev_var ρ h with
  | VBool b => v_sig V (h_name h) = bit b
  | VBv _ n => v_sig V (h_name h) = n
  | VMem _ _ m => v_mem V (h_name h) = m
  end.
(** A name denotes an expression, a constant. *)
Definition valuation (g : VlgGen) (Σ : VlgSigs) (V : vval) : Prop :=
  sigs_le (sigs g) Σ /\ respects Σ V (statements (body g)).
Definition denotes (g : VlgGen) (e : Expr) (s : string) : Prop := word s = true /\ forall Σ V ρ, valuation g Σ V -> env_ok ρ -> agrees V ρ ->
  exists v, eval ρ e = Some v /\ sig_of Σ V s v.
Definition constant (g : VlgGen) (w n : Z) (s : string) : Prop := word s = true /\ forall Σ V, valuation g Σ V -> is_name Σ V s w n.

Record vlg_inv (g : VlgGen) : Prop := {
  iv_conf : pass_node_name (cfg_ g) = false;
  iv_refs : reference_name_set g = ∅;
  iv_fresh k s : (idCounter (maps g) <= k)%N -> uses k s ->
    wires (sigs g) !! s = None /\ width_of (sigs g) s = None /\ mems_internal (sigs g) !! s = None;
  iv_nmap i s : nmap (maps g) !! i = Some s -> exists e, T !! i = Some e /\ denotes g e s;
  iv_cmap w n s : cmap (maps g) !! (n, w) = Some s -> constant g w n s;
  iv_known h : known h -> declares (sigs g) h;
  iv_read : Forall (readable (sigs g)) (statements (body g));
  iv_sat ρ : env_ok ρ -> exists V, agrees V ρ /\ respects (sigs g) V (statements (body g)) }.

Lemma valuation_grown g g' Σ V : sigs_le (sigs g) (sigs g') -> statements (body g) `prefix_of` statements (body g') ->
  valuation g' Σ V -> valuation g Σ V.
Proof using Type.
  intros Hs [l Hl] [H1 H2]. split; [by etrans|]. unfold respects in *. rewrite Hl in H2. by apply Forall_app in H2 as [? _].
Qed.
Lemma denotes_grown g g' e s : sigs_le (sigs g) (sigs g') -> statements (body g) `prefix_of` statements (body g') ->
  denotes g e s -> denotes g' e s.
Proof using Type. intros H1 H2 [Hw Hd]. split; [done|]. intros Σ V ρ HV. apply Hd. by eapply valuation_grown. Qed.
Lemma declares_grown Σ Σ' h : sigs_le Σ Σ' -> declares Σ h -> declares Σ' h.
Proof using Type.
  intros Hle. unfold declares. destruct (h_sort h); try done.
  - intros [H1 H2]. split; [by eapply le_width|]. by rewrite (le_internal _ _ Hle).
  - intros [H1 H2]. split; [by eapply le_width|]. by rewrite (le_internal _ _ Hle).
  - by rewrite (le_internal _ _ Hle), (le_external _ _ Hle).
Qed.

(** *** A new wire with its assignment *)
(** [s] is not declared, and no name from the [k]th on is [s]. *)
Record new_name (g : VlgGen) (k : N) (s : string) : Prop := {
  nn_later : (idCounter (maps g) <= k)%N;
  nn_wire : wires (sigs g) !! s = None;
  nn_width : width_of (sigs g) s = None;
  nn_mem : mems_internal (sigs g) !! s = None;
  nn_id k' : uses k' s -> (k' < k)%N;
  nn_word : word s = true;
  nn_atom : atom s = EName s }.
Lemma new_name_id g s : vlg_inv g -> uses (idCounter (maps g)) s -> word s = true -> atom s = EName s ->
  new_name g (idCounter (maps g) + 1) s.
Proof using Type.
  intros Hg Hs Hw Ha. destruct (iv_fresh g Hg (idCounter (maps g)) s ltac:(lia) Hs) as (? & ? & ?). split; try done; [lia|].
  intros k' Hk. rewrite (uses_inj _ _ _ Hk Hs). lia.
Qed.
Definition new_wire (k : N) (s : string) (w : Z) (text : string) (g : VlgGen) : VlgGen :=
  let sg := sigs g in
  let b := body g in
  {| names := names g;
     sigs := set_wires sg (<[s := w]> (wires sg)) (wires_keep sg);
     body := {| init_stmts := init_stmts b; statements := statements b ++ ["assign " +:+ s +:+ " = " +:+ text +:+ " ;"];
                always_stmts := always_stmts b; ite_stmts := ite_stmts b; preheader := preheader b |};
     maps := set_id (maps g) k;
     ports := ports g; cfg_ := cfg_ g; memory_export_annotation := memory_export_annotation g;
     reference_name_set := reference_name_set g |}.
Lemma new_wire_run k s w text g {A} (f : string -> G A) : new_name g k s ->
  (add_wire s w;; add_assign_stmt s text;; f s) (with_maps g (set_id (maps g) k)) = f s (new_wire k s w text g).
Proof using Type.
  intros [_ Hw _ _ _ _ _].
  unfold add_wire, add_wire_keep, check_redeclare, get, mbind, ST_bind. cbn [sigs with_maps]. rewrite Hw. unfold lift. cbn [mbind Res_bind].
  unfold on_sigs, modify, insert_new. cbn [sigs with_maps]. by rewrite Hw.
Qed.
Lemma new_id_run g e {A} (f : string -> G A) : vlg_inv g ->
  (s ← new_id_e e; f s) g = f ("n" +:+ pretty (idCounter (maps g))) (with_maps g (set_id (maps g) (idCounter (maps g) + 1))).
Proof using Type.
  intros Hg. unfold new_id_e, get, mbind, ST_bind. rewrite (iv_conf _ Hg), (iv_refs _ Hg), lookup_empty. done.
Qed.
Lemma new_wire_other k s w text g n : n <> s -> width_of (sigs (new_wire k s w text g)) n = width_of (sigs g) n.
Proof using Type. intros Hn. unfold width_of. cbn [new_wire sigs set_wires regs wires]. case_match; [done|]. by apply lookup_insert_ne. Qed.
Lemma new_wire_le k s w text g : new_name g k s -> sigs_le (sigs g) (sigs (new_wire k s w text g)).
Proof using Type. intros []. split; try done. intros n w' Hn. rewrite new_wire_other; [done|]. intros ->. congruence. Qed.
Lemma new_wire_prefix k s w text g : statements (body g) `prefix_of` statements (body (new_wire k s w text g)).
Proof using Type. by exists ["assign " +:+ s +:+ " = " +:+ text +:+ " ;"]. Qed.
Lemma new_wire_grown k s w text g : new_name g k s -> generated s = true -> grown g (new_wire k s w text g).
Proof using Type.
  intros Hn Hs. split; try done; [by apply new_wire_le|apply new_wire_prefix| |].
  - intros n Hg. cbn [new_wire sigs set_wires wires]. apply lookup_insert_ne. congruence.
  - intros n Hg. apply new_wire_other. congruence.
Qed.
(** The text has a value, whatever the signals are. *)
Definition defines (g : VlgGen) (w : Z) (text : string) (f : Env -> Z) : Prop := forall Σ V ρ, valuation g Σ V -> env_ok ρ -> agrees V ρ ->
  exists e, reads text e /\ gives Σ V e w (f ρ).
Lemma declared_fresh g k s h : vlg_inv g -> new_name g k s -> known h -> h_name h <> s.
Proof using Type.
  intros Hg [_ _ Hw Hm _ _ _] Hh E. pose proof (iv_known g Hg h Hh) as Hd.
  unfold declares in Hd. rewrite E in Hd. destruct (h_sort h); try done; [by destruct Hd as [Hd _]; rewrite Hw in Hd..|].
  destruct Hd as (_ & m & Hd & _). by rewrite Hm in Hd.
Qed.
Section new_wire.
Context (k : N) (s : string) (w : Z) (text : string) (g : VlgGen) (f : Env -> Z).
Context (Hg : vlg_inv g) (Hs : new_name g k s) (Hf : defines g w text f).
Let g' := new_wire k s w text g.
Lemma new_wire_width : width_of (sigs g') s = Some w.
Proof using Hg Hs.
  destruct Hs as [_ _ Hwd _ _ _ _]. unfold width_of in *. cbn [g' sigs new_wire set_wires regs wires].
  case_match; [done|]. apply lookup_insert_eq.
Qed.
Lemma new_wire_fresh n : is_Some (width_of (sigs g) n) -> n <> s.
Proof using Hg Hs. intros [w' Hn] ->. destruct Hs as [_ _ Hwd _ _ _ _]. congruence. Qed.
Lemma new_wire_sat ρ : env_ok ρ -> exists V, agrees V ρ /\ respects (sigs g') V (statements (body g')).
Proof using All.
  intros Hρ. destruct (iv_sat g Hg ρ Hρ) as (V & Hk & Hr). pose proof (new_wire_le k s w text g Hs) as Hle.
  set (V' := {| v_sig n := if decide (n = s) then f ρ else v_sig V n; v_mem := v_mem V |}).
  assert (Hk' : agrees V' ρ).
  { intros h Hh. specialize (Hk h Hh). cbn [v_sig v_mem V']. by rewrite decide_False by (by eapply declared_fresh). }
  assert (Hr' : respects (sigs g') V' (statements (body g))).
  { unfold respects in *. apply Forall_forall. intros st Hst. rewrite Forall_forall in Hr.
    eapply (stmt_holds_le (sigs g) (sigs g') V V'); [exact Hle| |done| |by apply Hr].
    - intros n Hn. cbn [v_sig V']. by rewrite decide_False by (by apply new_wire_fresh).
    - by eapply Forall_forall in Hst; [|apply (iv_read g Hg)]. }
  exists V'. split; [done|]. unfold respects. cbn [g' new_wire body statements]. apply Forall_app. split; [exact Hr'|]. rewrite Forall_singleton.
  destruct (Hf (sigs g') V' ρ) as (e & He & Hgi); [by split; [exact Hle|]|done..|].
  unfold stmt_holds. rewrite (read_assign_text s text e (nn_word _ _ _ Hs) He), (nn_atom _ _ _ Hs). fold g'. rewrite new_wire_width. unfold gives in Hgi. rewrite Hgi.
  cbn [v_sig V']. by rewrite decide_True.
Qed.
Lemma new_wire_readable : readable (sigs g') ("assign " +:+ s +:+ " = " +:+ text +:+ " ;").
Proof using All.
  destruct (iv_sat g Hg default_env default_env_ok) as (V & Hk & Hr). destruct (Hf (sigs g) V default_env) as (e & He & Hgi); [done|apply default_env_ok|done|].
  unfold readable. rewrite (read_assign_text s text e (nn_word _ _ _ Hs) He), (nn_atom _ _ _ Hs). split; [rewrite new_wire_width; by eexists|].
  apply gives_size in Hgi as [z Hz]. exists z. eapply vsize_le; [by apply new_wire_le|done].
Qed.
Lemma new_wire_inv : vlg_inv g'.
Proof using All.
  pose proof (new_wire_le k s w text g Hs) as Hle. pose proof Hg as [H1 H2 H3 H4 H5 H6 H7 H8]. split; [done|done| | | | | |exact new_wire_sat].
  - intros k' s' Hk Hu. pose proof (nn_later _ _ _ Hs). cbn [g' maps new_wire set_id idCounter] in Hk. destruct (H3 k' s' ltac:(lia) Hu) as (Hwi & Hwd & Hm).
    assert (s <> s') as Hne by (intros <-; pose proof (nn_id _ _ _ Hs _ Hu); lia).
    cbn [g' sigs new_wire set_wires wires mems_internal]. rewrite lookup_insert_ne by done. split_and!; [done| |done].
    unfold width_of in *. cbn [set_wires regs wires]. case_match; [done|]. by rewrite lookup_insert_ne.
  - intros i n Hi. destruct (H4 i n Hi) as (e & He & Hd). exists e. split; [done|]. eapply denotes_grown; [exact Hle|apply new_wire_prefix|exact Hd].
  - intros w' n s' [Hws Hc]%H5. split; [done|]. intros Σ V HV. apply Hc. eapply valuation_grown; [exact Hle|apply new_wire_prefix|exact HV].
  - intros h Hh. eapply declares_grown; [exact Hle|by apply H6].
  - cbn [g' new_wire body statements]. apply Forall_app. rewrite Forall_singleton. split; [|exact new_wire_readable].
    eapply Forall_impl; [exact H7|]. intros st. by apply readable_le.
Qed.
End new_wire.
(** The new name has the value of the text. *)
Lemma new_wire_value k s w text e g Σ V x : vlg_inv g -> new_name g k s ->
  valuation (new_wire k s w text g) Σ V -> reads text e -> gives Σ V e w x -> 0 < w -> 0 <= x < 2 ^ w -> is_name Σ V s w x.
Proof using Type.
  intros Hg Hs [Hle Hr] Ht He Hw Hx. pose proof Hs as [_ Hn Hwd Hm _ Hws Hat].
  assert (Hwid : width_of Σ s = Some w).
  { eapply le_width; [exact Hle|]. unfold width_of in *. cbn [sigs new_wire set_wires regs wires]. case_match; [done|]. apply lookup_insert_eq. }
  assert (Hv : v_sig V s = x).
  { unfold respects in Hr. cbn [new_wire body statements] in Hr. apply Forall_app in Hr as [_ Hr]. apply Forall_inv in Hr.
    unfold stmt_holds in Hr. rewrite (read_assign_text s text e Hws Ht), Hat, Hwid in Hr. unfold gives in He. by rewrite He in Hr. }
  rewrite <- Hv. apply is_name_intro; try done; [|by rewrite Hv]. rewrite (le_internal _ _ Hle). exact Hm.
Qed.
End expr.
