(* ===== verification/VlgTrans.v ===== *)
(** * Correctness of the translation of expressions

    [ParseNonMemUpdateExpr] of [Verilog] on expressions of the supported kind: it
    gives every node a name, and in every valuation of the signals in which the
    assignments hold, the name of a node has the node's value in the reference
    semantics.  The invariant is that of [VlgSpec]; the tables of shared nodes and
    constants are kept by it. *)
From S2P Require Import Prelude Sort Values Container Expr World ExprOp AstHub McmAst StrUtil Verilog VlgSem VlgText VlgOps VlgSpec.
Local Open Scope Z_scope.

(** ** Supported expressions *)
(** What the operations need besides being well sorted.  Signed division and
    remainders and memory updates are left out, as are selects of one bit of a
    signal that is declared without a range, and rotations by zero. *)
Definition op_ok (op : AstUidExprOp) (ps : list Z) (args : list Expr) : bool :=
  match op, args with
  | (kDivide | kSignedRemainder | kSignedModular | kStore | kApplyFunc | kInvalid), _ => false
  | kEqual, [a; _] => scalar a
  | kUnsignedRemainder, [_; ExprConst _ (CBv n) _] => negb (n =? 0)
  | kUnsignedRemainder, _ => false
  | kLoad, [m; _] => Exprs.is_var m
  | (kExtract | kSignedExtend | kRotateLeft | kRotateRight), [a] =>
      match Exprs.sort a with SortBv wi => bv1_ok op ps wi (Exprs.is_const a) | _ => false end
  | _, _ => true
  end.
Definition known_ok (h : Hdr) : bool := name_ok (h_name h).
Fixpoint supported (known : Hdr -> Prop) (e : Expr) : Prop :=
  match e with
  | ExprVar h _ => known h /\ name_ok (h_name h) = true
  | ExprConst _ (CBv n) _ => n < 2 ^ 64
  | ExprConst _ (CBool _) _ => True
  | ExprConst _ (CMem _) _ => False
  | ExprOp h op fn args ps =>
      fn = None /\ scalar e = true /\ op_ok op ps args = true /\
      (fix go (l : list Expr) : Prop := match l with [] => True | a :: l => supported known a /\ go l end) args
  end.
Lemma supported_op known h op fn args ps : supported known (ExprOp h op fn args ps) <->
  fn = None /\ scalar (ExprOp h op fn args ps) = true /\ op_ok op ps args = true /\ Forall (supported known) args.
Proof.
  cbn [supported]. assert (H : forall l, (fix go (l : list Expr) : Prop := match l with [] => True | a :: l => supported known a /\ go l end) l <->
    Forall (supported known) l).
  { induction l as [|a l IH]; [by rewrite Forall_nil|]. by rewrite Forall_cons, IH. }
  by rewrite H.
Qed.
Lemma supported_mono (known known' : Hdr -> Prop) e : (forall h, known h -> known' h) -> supported known e -> supported known' e.
Proof.
  intros Hk. induction e as [h ps|h c ps|h op fn args ps IH] using Expr_ind'.
  - intros [Hh Hn]. split; auto.
  - done.
  - rewrite !supported_op. intros (Hf & Hs & Ho & Ha). split_and!; try done. rewrite !Forall_forall in IH |- *. rewrite Forall_forall in Ha. auto.
Qed.

(** ** Names and constants *)
Lemma id_word (k : N) : word ("n" +:+ pretty k) = true /\ atom ("n" +:+ pretty k) = EName ("n" +:+ pretty k).
Proof. split; [|done]. apply word_intro; [done|done|]. apply digits_word_chars, pretty_N_digits. Qed.
Lemma uses_id k : uses k ("n" +:+ pretty k).
Proof. exists "". split; [done|by left]. Qed.
Lemma hex_word_chars fuel v : 0 <= v -> forall r, word_chars r = true -> word_chars (int_digits fuel v 16 false r) = true.
Proof.
  revert v. induction fuel as [|fuel IH]; intros v Hv r Hr; cbn [int_digits]; [done|]. case_match; [done|].
  apply IH; [apply Z.div_pos; lia|]. cbn [word_chars]. rewrite Hr, andb_true_r. pose proof (Z.mod_pos_bound v 16 ltac:(lia)).
  apply (digit_char_cases (fun c d => d < 16 -> word_char c = true) false (v mod 16)); [lia| |lia].
  repeat (apply Forall_cons; split; [first [done|lia]|]). apply Forall_nil_2.
Qed.
(** [ToVlgNum] prints a literal of the value. *)
Lemma read_num v w : 0 < w -> 0 <= v < 2 ^ w -> v < 2 ^ 64 -> exists t, ToVlgNum v w = Ok t /\ reads t (ELit w false v).
Proof.
  intros Hw Hv Hv'. unfold ToVlgNum.
  assert ((v <=? (if IlaBvValTypeBits <=? w then 2 ^ 64 - 1 else 2 ^ w - 1)) = true) as -> by (case_match; lia).
  rewrite (proj2 (Z.leb_le 0 v)) by lia. cbn [andb ila_assert mbind Res_bind].
  assert (exists s, IntToStrCustomBase v 16 false = Ok s /\ word_chars s = true /\ read_digits 16 0 s = v) as (s & -> & Hs & Hr).
  { unfold IntToStrCustomBase. cbn [Z.ltb Z.leb Z.compare Pos.compare Pos.compare_cont andb ila_assert mbind Res_bind].
    destruct (Z.eqb_spec v 0) as [->|Hn]; eexists; (split; [done|]); [done|]. split; [by apply hex_word_chars; [lia|]|].
    destruct (int_digits_read 64 16 false "" 0 v ltac:(lia)) as (k & _ & Er).
    { change (16 ^ Z.of_nat 64) with (2 ^ 256). pose proof (Z.pow_lt_mono_r 2 64 256). lia. }
    rewrite Er. cbn [read_digits]. lia. }
  eexists. split; [done|].
  assert (Ht : word (toStr w +:+ "'h" +:+ s) = true).
  { pose proof (pretty_Z_digits w ltac:(lia)) as Hd. pose proof (pretty_nonempty w ltac:(lia)) as Hn. unfold toStr. destruct (pretty w) as [|x r]; [done|].
    cbn in Hd. apply andb_true_iff in Hd as [Hx Hd]. apply word_intro.
    - destruct (Ascii.eqb_spec x "$") as [->|]; [discriminate|done].
    - unfold word_char, plain_char, isalnum. by rewrite Hx.
    - change (word_chars (r +:+ "'h" +:+ s) = true). by rewrite !word_chars_app, digits_word_chars, Hs. }
  pose proof (read_name _ Ht) as H. change ("'h" +:+ s) with (String "'" (String "h" s)) in H |- *. rewrite atom_sized in H by lia.
  change (base_of "h") with 16 in H. rewrite Hr, Z.mod_small in H by lia. exact H.
Qed.

Section trans.
Context {L : Layout} (T : gmap objid Expr) (known : Hdr -> Prop).
Abbreviation inv := (vlg_inv T known).
Abbreviation denotes := (VlgSpec.denotes known).

(** ** Named nodes *)
Definition named (g : VlgGen) (e : Expr) : Prop := exists s, nmap (maps g) !! Exprs.id e = Some s /\ denotes g e s.
Lemma has_name g e s : inv g -> registered T e -> nmap (maps g) !! Exprs.id e = Some s -> named g e.
Proof using Type.
  intros Hg He%registered_lookup Hs. destruct (iv_nmap _ _ g Hg _ _ Hs) as (e' & He' & Hd). rewrite He in He'. injection He' as <-. by exists s.
Qed.
Lemma named_grown g g' e : inv g' -> registered T e -> grown g g' -> named g e -> named g' e.
Proof using Type.
  intros Hg' Hr Hg (s & Hs & _). destruct (gr_nmap _ _ Hg (Exprs.id e)) as [s' Hs']; [by eexists|]. by eapply has_name.
Qed.
Lemma set_name_run e s g : inv g -> T !! Exprs.id e = Some e -> denotes g e s ->
  exists g', set_name e s g = Ok (tt, g') /\ inv g' /\ grown g g' /\ named g' e.
Proof using Type.
  intros Hg HT Hd. eexists. split; [done|]. split_and!.
  - destruct Hg as [H1 H2 H3 H4 H5 H6 H7 H8]. split; [done|done|exact H3| |exact H5|exact H6|exact H7|exact H8].
    intros i s' Hi. cbn [maps with_maps set_nmap nmap] in Hi. apply lookup_insert_Some in Hi as [[<- <-]|[_ Hi]]; [by exists e|by apply H4].
  - split; try done. intros i Hi. cbn [maps with_maps set_nmap nmap]. by apply lookup_insert_is_Some'; right.
  - exists s. split; [apply lookup_insert_eq|exact Hd].
Qed.
(** ** A text for an expression, and its wire *)
Definition text_of (g : VlgGen) (e : Expr) (t : string) : Prop := forall Σ V ρ, valuation g Σ V -> env_ok ρ -> agrees known V ρ ->
  exists v ex, eval ρ e = Some v /\ has_sort v (Exprs.sort e) = true /\ reads t ex /\ gives Σ V ex (width_val v) (bits_val v).
Lemma width_scalar e w : scalar e = true -> get_width e = Ok w -> Exprs.sort e = SortBool /\ w = 1 \/ Exprs.sort e = SortBv w.
Proof using Type. unfold scalar, get_width. destruct (Exprs.sort e); try done; intros _ [= <-]; auto. Qed.
Definition value_bits (e : Expr) (ρ : Env) : Z := from_option bits_val 0 (eval ρ e).
Lemma text_defines g e w t : scalar e = true -> get_width e = Ok w -> text_of g e t -> defines known g w t (value_bits e).
Proof using Type.
  intros He Hw Ht Σ V ρ HV Hρ Hk. destruct (Ht Σ V ρ HV Hρ Hk) as (v & ex & Hv & Hvs & Hr & Hgi). exists ex. split; [done|].
  unfold value_bits. rewrite Hv. cbn [from_option]. destruct (width_scalar _ _ He Hw) as [[Es ->]|Es]; rewrite Es in Hvs.
  - by apply has_sort_bool in Hvs as [b ->].
  - by apply has_sort_bv in Hvs as (n & -> & _).
Qed.
Lemma wire_denotes e k s w t g : inv g -> new_name g k s ->
  scalar e = true -> get_width e = Ok w -> text_of g e t -> denotes (new_wire k s w t g) e s.
Proof using Type.
  intros Hg Hs He Hwd Ht. split; [apply Hs|]. intros Σ V ρ HV Hρ Hk. 
  destruct (Ht Σ V ρ) as (v & ex & Hv & Hvs & Hr & Hgi); [by eapply valuation_grown; [by apply new_wire_le|apply new_wire_prefix|]|done|done|].
  exists v. split; [done|]. destruct (width_scalar _ _ He Hwd) as [[Es ->]|Es]; rewrite Es in Hvs.
  - apply has_sort_bool in Hvs as [b ->]. by eapply new_wire_value; [exact Hg|..|apply bool_range].
  - apply has_sort_bv in Hvs as (n & -> & Hp & Hn). by eapply new_wire_value.
Qed.
(** The node gets the wire. *)
Lemma finish_run e w t g : inv g -> T !! Exprs.id e = Some e -> scalar e = true ->
  get_width e = Ok w -> text_of g e t -> exists g',
  (n ← (result_var ← new_id_e e; add_wire result_var w;; add_assign_stmt result_var t;; mret result_var); set_name e n) g = Ok (tt, g') /\
  inv g' /\ grown g g' /\ named g' e.
Proof using L.
  intros Hg HT He Hw Ht. set (k := idCounter (maps g)). set (s := "n" +:+ pretty k).
  destruct (id_word k) as [Hws Ha]. pose proof (new_name_id T known g s Hg (uses_id k) Hws Ha) as Hnn.
  pose proof (new_wire_grown _ s w t g Hnn (uses_generated _ _ (uses_id k))) as Hgr.
  destruct (set_name_run e s (new_wire (idCounter (maps g) + 1) s w t g)) as (g' & Hrun & Hg' & Hgr' & Hnm).
  { eapply new_wire_inv; [done|done|by apply text_defines]. }
  { done. }
  { by apply wire_denotes. }
  exists g'. split_and!; [|done|by etrans|done]. unfold mbind at 1, ST_bind at 1. rewrite (new_id_run T known) by done.
  rewrite new_wire_run by done. exact Hrun.
Qed.

(** Variables keep their names. *)
Lemma vlg_var_denotes h ps g : inv g -> known h -> name_ok (h_name h) = true -> sort_ok (h_sort h) = true -> denotes g (ExprVar h ps) (h_name h).
Proof using Type.
  intros Hg Hh Hn Hs. destruct (name_ok_word _ Hn) as [Hw Ha]. split; [done|]. intros Σ V ρ [Hle _] Hρ Hk. exists (ev_var ρ h). split; [done|].
  pose proof (declares_grown _ _ h Hle (iv_known _ _ _ Hg h Hh)) as Hd. specialize (Hk h Hh). pose proof (env_var_ok _ Hρ h Hs) as Hv.
  unfold declares in Hd. destruct (h_sort h) eqn:Es; try done.
  - apply has_sort_bool in Hv as [b Eb]. rewrite Eb in Hk |- *. cbn [sig_of]. rewrite <- Hk.
    apply is_name_intro; try done; try apply Hd. rewrite Hk. apply bool_range.
  - apply has_sort_bv in Hv as (n & Eb & Hp & Hr). rewrite Eb in Hk |- *. cbn [sig_of]. rewrite <- Hk.
    apply is_name_intro; try done; try apply Hd. by rewrite Hk.
  - apply has_sort_mem in Hv as (m & Eb & _). rewrite Eb in Hk |- *. destruct Hd as [_ Hd]. by split_and!.
Qed.

(** ** Operations *)
Lemma getArg_run e i a s g : Exprs.args e !! i = Some a -> nmap (maps g) !! Exprs.id a = Some s -> getArg e i g = Ok (s, g).
Proof using Type.
  intros Ha Hs. unfold getArg, Exprs.arg, Exprs.at_. rewrite Ha.
  change (lift (match nmap (maps g) !! Exprs.id a with Some n => Ok n | None => Fail EAssert end) g = Ok (s, g)). by rewrite Hs.
Qed.
(** The value of a named node. *)
Lemma named_value g a s Σ V ρ : wt a = true -> denotes g a s -> valuation g Σ V -> env_ok ρ -> agrees known V ρ ->
  exists v, eval ρ a = Some v /\ has_sort v (Exprs.sort a) = true /\ sig_of Σ V s v.
Proof using Type.
  intros Hw [_ Hd] HV Hρ Hk. destruct (Hd Σ V ρ HV Hρ Hk) as (v & Hv & Hs). exists v. split_and!; [done| |done].
  destruct (eval_sound ρ a Hρ Hw) as (v' & Hv' & Hs'). rewrite Hv in Hv'. by injection Hv' as <-.
Qed.
Lemma op_value ρ e h op args ps vs : e = ExprOp h op None args ps -> env_ok ρ -> wt e = true -> evals ρ args = Some vs ->
  exists v, eval ρ e = Some v /\ op_sem op ps vs = Some v /\ has_sort v (h_sort h) = true.
Proof using Type.
  intros -> Hρ Hw Hvs. destruct (eval_sound ρ _ Hρ Hw) as (v & Hv & Hs). exists v. split; [done|]. split; [|done].
  rewrite eval_op, Hvs in Hv. exact Hv.
Qed.

Lemma op_named op ps args : op_ok op ps args = true -> exists s, Exprs.op_name op = Ok s.
Proof using Type. destruct op; try discriminate; by eexists. Qed.
Lemma no_params op ps sa sb s : op_sort op ps [sa; sb] = Some s -> ps = [].
Proof using Type. destruct ps; [done|]. destruct op; cbn [op_sort]; intros; repeat case_match; done. Qed.
Section op.
Context (h : Hdr) (op : AstUidExprOp) (args : list Expr) (ps : list Z) (g : VlgGen).
Let e := ExprOp h op None args ps.
Context (Hg : inv g) (Hw : wt e = true) (Hok : op_ok op ps args = true) (Hn : Forall (named g) args) (Hsup : Forall (supported known) args).

Lemma args_wt : Forall (fun a => wt a = true) args /\ op_sort op ps (Exprs.sort <$> args) = Some (h_sort h).
Proof using Hw. by apply wt_op in Hw. Qed.

(** One argument. *)
Lemma not_text a : args = [a] -> h_sort h = SortBool -> exists t, bool_stmt e op None g = Ok (t, g) /\ text_of g e t.
Proof using All.
  intros Ea Eh. destruct args_wt as [Hwa Hs]. subst args. rewrite Forall_singleton in Hwa. apply Forall_singleton in Hn as (s & Hsn & Hd).
  assert (op = kNot) as ->.
  { rewrite Eh in Hs. cbn [fmap list_fmap] in Hs. destruct op; cbn [op_sort] in Hs; repeat case_match; try done. }
  eexists. split.
  { unfold bool_stmt. cbn [e Exprs.arg_num Exprs.args length]. unfold mbind, ST_bind. erewrite getArg_run by done. reflexivity. }
  intros Σ V ρ HV Hρ Hk. destruct (named_value g a s Σ V ρ Hwa Hd HV Hρ Hk) as (va & Hva & Hvs & Hsig).
  destruct (op_value ρ e h kNot [a] ps [va] eq_refl Hρ Hw) as (v & Hv & Hz & Hvv); [unfold evals; cbn; by rewrite Hva|].
  exists v. exists (ENot (atom s)). split_and!; [done|done|by apply read_not, Hd|].
  rewrite Eh in Hvv. apply has_sort_bool in Hvv as [z ->]. cbn [op_sem] in Hz. destruct ps; [|done]. destruct va as [b| |]; try done.
  injection Hz as <-. by apply not_gives.
Qed.
Lemma bv1_text a w : args = [a] -> h_sort h = SortBv w -> exists t, bv_stmt e op None g = Ok (t, g) /\ text_of g e t.
Proof using All.
  intros Ea Eh. destruct args_wt as [Hwa Hs]. subst args. rewrite Forall_singleton in Hwa. apply Forall_singleton in Hn as (s & Hsn & Hd).
  cbn [fmap list_fmap] in Hs. rewrite Eh in Hs.
  assert (exists wi, Exprs.sort a = SortBv wi) as [wi Ewi].
  { destruct op; cbn [op_sort] in Hs; repeat case_match; try done; by eexists. }
  rewrite Ewi in Hs.
  assert (bv1_ok op ps wi (Exprs.is_const a) = true) as Hb1.
  { revert Hok Hs. unfold op_ok. rewrite Ewi. destruct op; cbn [op_sort bv1_ok]; try done; intros ? Hs; repeat case_match; done. }
  assert (exists t, bv_op1 op ps (Ok wi) (Exprs.is_const a) s = Ok t) as [t Ht].
  { clear -Hs. destruct op; cbn [op_sort] in Hs; repeat case_match; try done; cbn; repeat case_match; by eexists. }
  exists t. split.
  { assert (bv_stmt e op None g = (a0 ← getArg e 0; x ← lift (Exprs.arg e 0); lift (bv_op1 op (Exprs.params e) (get_width x) (Exprs.is_const x) a0)) g) as ->.
    { clear -Hs. destruct op; try done; cbn [op_sort] in Hs; repeat case_match; done. }
    unfold mbind, ST_bind. erewrite getArg_run by done. unfold lift. cbn [Exprs.arg Exprs.at_ e Exprs.args lookup list_lookup Exprs.params].
    cbn [mbind Res_bind]. assert (get_width a = Ok wi) as -> by (unfold get_width; by rewrite Ewi). by rewrite Ht. }
  intros Σ V ρ HV Hρ Hk. destruct (named_value g a s Σ V ρ Hwa Hd HV Hρ Hk) as (va & Hva & Hvs & Hsig).
  destruct (op_value ρ e h op [a] ps [va] eq_refl Hρ Hw) as (v & Hv & Hz & Hvv); [unfold evals; cbn; by rewrite Hva|].
  rewrite Ewi in Hvs. apply has_sort_bv in Hvs as (x & -> & _ & _). pose proof Hvv as Hvv'. rewrite Eh in Hvv'. apply has_sort_bv in Hvv' as (z & -> & _ & _).
  destruct (bv1_gives Σ V op ps s wi x (Exprs.is_const a) w z Hsig Hs Hz Hb1) as (t' & ex & Ht' & Hr & Hgi).
  rewrite Ht in Ht'. injection Ht' as <-. by exists (VBv w z), ex.
Qed.

(** Two arguments. *)
Lemma two_run (f : string -> string -> G string) a b sa sb : args = [a; b] -> nmap (maps g) !! Exprs.id a = Some sa ->
  nmap (maps g) !! Exprs.id b = Some sb -> (x ← getArg e 0; y ← getArg e 1; f x y) g = f sa sb g.
Proof using Type.
  intros Ea Ha Hb. unfold mbind, ST_bind. erewrite getArg_run; [|by unfold e; cbn [Exprs.args]; rewrite Ea|done].
  by erewrite getArg_run; [|by unfold e; cbn [Exprs.args]; rewrite Ea|done].
Qed.
Lemma two_named a b : args = [a; b] -> exists sa sb, nmap (maps g) !! Exprs.id a = Some sa /\ denotes g a sa /\
  nmap (maps g) !! Exprs.id b = Some sb /\ denotes g b sb /\ wt a = true /\ wt b = true /\
  op_sort op ps [Exprs.sort a; Exprs.sort b] = Some (h_sort h).
Proof using All.
  intros Ea. destruct args_wt as [Hwa Hs]. rewrite Ea in Hwa, Hs. pose proof Hn as Hn'. rewrite Ea in Hn'.
  apply Forall_cons in Hn' as [(sa & ?) Hn']. rewrite Forall_singleton in Hn'. destruct Hn' as (sb & ?).
  apply Forall_cons in Hwa as [? Hwb]. rewrite Forall_singleton in Hwb. exists sa, sb. naive_solver.
Qed.
Lemma two_value a b sa sb Σ V ρ : args = [a; b] -> wt a = true -> wt b = true -> denotes g a sa -> denotes g b sb ->
  valuation g Σ V -> env_ok ρ -> agrees known V ρ -> exists va vb v, has_sort va (Exprs.sort a) = true /\ has_sort vb (Exprs.sort b) = true /\
  eval ρ b = Some vb /\ sig_of Σ V sa va /\ sig_of Σ V sb vb /\ eval ρ e = Some v /\ op_sem op ps [va; vb] = Some v /\ has_sort v (h_sort h) = true.
Proof using Hw.
  intros Ea Hwa Hwb Ha Hb HV Hρ Hk. destruct (named_value g a sa Σ V ρ Hwa Ha HV Hρ Hk) as (va & Hva & Hvs & Hsig).
  destruct (named_value g b sb Σ V ρ Hwb Hb HV Hρ Hk) as (vb & Hvb & Hvs' & Hsig').
  destruct (op_value ρ e h op args ps [va; vb] eq_refl Hρ Hw) as (v & Hv & Hz & Hvv).
  { rewrite Ea. unfold evals. cbn. by rewrite Hva, Hvb. }
  by exists va, vb, v.
Qed.
Lemma bool2_text a b : args = [a; b] -> h_sort h = SortBool -> exists t, bool_stmt e op None g = Ok (t, g) /\ text_of g e t.
Proof using All.
  intros Ea Eh. destruct (two_named a b Ea) as (sa & sb & Hsa & Hda & Hsb & Hdb & Hwa & Hwb & Hs). rewrite Eh in Hs.
  assert (exists t, bool_op2 op sa sb = Ok t) as [t Ht].
  { clear -Hs. destruct op; try (eexists; reflexivity); exfalso; cbn [op_sort] in Hs; repeat case_match; try done;
      by apply bv2_sort_Some in Hs as (? & _ & _ & [=] & _). }
  exists t. split.
  { assert (bool_stmt e op None g = (x ← getArg e 0; y ← getArg e 1; lift (bool_op2 op x y)) g) as ->.
    { unfold bool_stmt, e. cbn [Exprs.arg_num Exprs.args]. rewrite Ea. clear -Hok Hs. destruct op; done. }
    rewrite (two_run _ a b sa sb) by done. unfold lift. by rewrite Ht. }
  intros Σ V ρ HV Hρ Hk. destruct (two_value a b sa sb Σ V ρ) as (va & vb & v & Hva & Hvb & _ & Hsga & Hsgb & Hv & Hz & Hvv); [done..|].
  rewrite Eh in Hvv. apply has_sort_bool in Hvv as [z ->].
  destruct (bool2_gives Σ V op sa sb va vb (Exprs.sort a) (Exprs.sort b) z t) as (ex & Hr & Hgi); try done.
  - by rewrite (no_params _ _ _ _ _ Hs) in Hs.
  - intros ->. rewrite Ea in Hok. cbn [op_ok] in Hok. unfold scalar in Hok. by destruct (Exprs.sort a).
  - by rewrite (no_params _ _ _ _ _ Hs) in Hz.
  - exists (VBool z), ex. unfold e, Exprs.sort. cbn [Exprs.hdr]. by rewrite Eh.
Qed.
Lemma bv2_text a b w : args = [a; b] -> h_sort h = SortBv w -> op <> kLoad -> exists t, bv_stmt e op None g = Ok (t, g) /\ text_of g e t.
Proof using All.
  intros Ea Eh Hl. destruct (two_named a b Ea) as (sa & sb & Hsa & Hda & Hsb & Hdb & Hwa & Hwb & Hs). rewrite Eh in Hs.
  assert (exists t, bv_op2 op sa sb = Ok t) as [t Ht].
  { clear -Hs Hl Hok. destruct op; try (eexists; reflexivity); exfalso; try (by discriminate Hok);
      cbn [op_sort] in Hs; repeat case_match; try done; unfold cmp2_sort in Hs; destruct (bv2_sort _ _); done. }
  exists t. split.
  { assert (bv_stmt e op None g = (x ← getArg e 0; y ← getArg e 1; lift (bv_op2 op x y)) g) as ->.
    { unfold bv_stmt, e. cbn [Exprs.arg_num Exprs.args]. rewrite Ea. clear -Hok Hs Hl. destruct op; done. }
    rewrite (two_run _ a b sa sb) by done. unfold lift. by rewrite Ht. }
  intros Σ V ρ HV Hρ Hk. destruct (two_value a b sa sb Σ V ρ) as (va & vb & v & Hva & Hvb & Hevb & Hsga & Hsgb & Hv & Hz & Hvv); [done..|].
  pose proof Hvv as Hvv'. rewrite Eh in Hvv. apply has_sort_bv in Hvv as (z & -> & _ & _).
  destruct (bv2_gives Σ V op sa sb va vb (Exprs.sort a) (Exprs.sort b) w z t) as (ex & Hr & Hgi); try done.
  - by rewrite (no_params _ _ _ _ _ Hs) in Hs.
  - intros ->. discriminate Hok.
  - intros ->. apply wt_op in Hw as [_ _]. rewrite Ea in Hok. cbn [op_ok] in Hok. destruct b as [|hb cb pb|]; try done. destruct cb as [|n|]; try done.
    apply negb_true_iff, Z.eqb_neq in Hok. cbn [wt] in Hwb. destruct (h_sort hb) as [|wb| | |] eqn:Eb; try done. cbn [const_ok] in Hwb. bool_inv.
    cbn [eval] in Hevb. rewrite Eb in Hevb. cbn [const_sem] in Hevb. injection Hevb as <-. cbn [bits_val]. by rewrite Bits.wrap_small by lia.
  - by rewrite (no_params _ _ _ _ _ Hs) in Hz.
  - exists (VBv w z), ex. unfold e, Exprs.sort. cbn [Exprs.hdr]. by split_and!.
Qed.
Lemma load_text a b w : op = kLoad -> args = [a; b] -> h_sort h = SortBv w -> exists t, bv_stmt e op None g = Ok (t, g) /\ text_of g e t.
Proof using All.
  intros Eo Ea Eh. destruct (two_named a b Ea) as (sa & sb & Hsa & Hda & Hsb & Hdb & Hwa & Hwb & Hs). rewrite Eh in Hs.
  pose proof Hok as Hv. rewrite Eo, Ea in Hv. cbn [op_ok] in Hv. destruct a as [ha pa| |]; try discriminate Hv.
  pose proof Hsup as Hsa'. rewrite Ea in Hsa'. apply Forall_cons in Hsa' as [[Hka Hna] _].
  assert (exists aw, h_sort ha = SortMem aw w /\ Exprs.sort b = SortBv aw) as (aw & Ema & Eb).
  { rewrite Eo in Hs. cbn [op_sort] in Hs. unfold Exprs.sort in Hs at 1. cbn [Exprs.hdr] in Hs. destruct ps; [|done].
    destruct (h_sort ha); try done. destruct (Exprs.sort b); try done. case_match; [|done]. bool_inv. injection Hs as ->. subst. by eexists. }
  pose proof (iv_known _ _ _ Hg ha Hka) as Hd. unfold declares in Hd. rewrite Ema in Hd. destruct Hd as [Hext Hint].
  exists (" (  " +:+ h_name ha +:+ "[" +:+ sb +:+ "] ) "). split.
  { assert (bv_stmt e op None g = (x ← getArg e 0; y ← getArg e 1; translate_load e x y) g) as ->.
    { unfold bv_stmt, e. cbn [Exprs.arg_num Exprs.args]. by rewrite Ea, Eo. }
    rewrite (two_run _ (ExprVar ha pa) b sa sb) by done. unfold translate_load, mbind, ST_bind. unfold e, Exprs.arg, Exprs.at_. cbn [Exprs.args]. rewrite Ea.
    cbn [lookup list_lookup lift mbind Res_bind ila_assert Exprs.is_var]. unfold sanitizeName_e, mbind, ST_bind. cbn [lift mbind Res_bind ila_assert Exprs.is_var].
    rewrite sanitizeName_ok by done. unfold get. unfold Exprs.name. cbn [Exprs.hdr]. by rewrite Hext. }
  intros Σ V ρ HV Hρ Hk. pose proof (vlg_var_denotes ha pa g Hg Hka Hna Hwa) as Hdv.
  destruct (two_value (ExprVar ha pa) b (h_name ha) sb Σ V ρ) as (va & vb & v & Hva & Hvb & Hevb & Hsga & Hsgb & Hv' & Hz & Hvv); [done..|].
  unfold Exprs.sort in Hva at 1. cbn [Exprs.hdr] in Hva. rewrite Ema in Hva. apply has_sort_mem in Hva as (m & -> & _ & Hdw & Hm).
  rewrite Eb in Hvb. apply has_sort_bv in Hvb as (x & -> & _ & _).
  rewrite Eo, (no_params _ _ _ _ _ Hs) in Hz. cbn [op_sem] in Hz. rewrite Z.eqb_refl in Hz. injection Hz as <-.
  destruct (load_gives Σ V (h_name ha) sb aw w m x Hdw Hm Hsga Hsgb) as [Hr Hgi]. eexists _, _. split; [exact Hv'|]. split; [exact Hvv|].
  split; [exact Hr|exact Hgi].
Qed.

(** A condition. *)
Lemma three_run (f : string -> string -> string -> G string) a b c sa sb sc : args = [a; b; c] -> nmap (maps g) !! Exprs.id a = Some sa ->
  nmap (maps g) !! Exprs.id b = Some sb -> nmap (maps g) !! Exprs.id c = Some sc ->
  (x ← getArg e 0; y ← getArg e 1; z ← getArg e 2; f x y z) g = f sa sb sc g.
Proof using Type.
  intros Ea Ha Hb Hc. unfold mbind, ST_bind. erewrite getArg_run; [|by unfold e; cbn [Exprs.args]; rewrite Ea|done].
  erewrite getArg_run; [|by unfold e; cbn [Exprs.args]; rewrite Ea|done].
  by erewrite getArg_run; [|by unfold e; cbn [Exprs.args]; rewrite Ea|done].
Qed.
Lemma ite_text c a b : args = [c; a; b] -> scalar e = true -> exists t,
  (h_sort h = SortBool -> bool_stmt e op None g = Ok (t, g)) /\ (h_sort h <> SortBool -> bv_stmt e op None g = Ok (t, g)) /\ text_of g e t.
Proof using All.
  intros Ea Hsc. destruct args_wt as [Hwa Hs]. rewrite Ea in Hwa, Hs. pose proof Hn as Hn'. rewrite Ea in Hn'.
  apply Forall_cons in Hn' as [(sc & Hsc' & Hdc) Hn']. apply Forall_cons in Hn' as [(sa & Hsa & Hda) Hn']. rewrite Forall_singleton in Hn'.
  destruct Hn' as (sb & Hsb & Hdb). apply Forall_cons in Hwa as [Hwc Hwa]. apply Forall_cons in Hwa as [Hwa Hwb]. rewrite Forall_singleton in Hwb.
  cbn [fmap list_fmap] in Hs.
  assert (op = kIfThenElse /\ ps = [] /\ Exprs.sort c = SortBool /\ Exprs.sort a = h_sort h /\ Exprs.sort b = h_sort h) as (Eo & Ep & Ec & Eaa & Ebb).
  { clear -Hs Hok. destruct op; cbn [op_sort] in Hs; repeat case_match; try done; try (by destruct op).
    injection Hs as <-. by split_and!. }
  exists (" ( " +:+ sc +:+ " ) ? ( " +:+ sa +:+ " ) : ( " +:+ sb +:+ " )" +:+ (if h_sort h is SortBool then " " else "")).
  split_and!.
  - intros Eh. assert (bool_stmt e op None g = (x ← getArg e 0; y ← getArg e 1; z ← getArg e 2; lift (bool_op3 kIfThenElse x y z)) g) as ->.
    { unfold bool_stmt, e. cbn [Exprs.arg_num Exprs.args]. by rewrite Ea, Eo. }
    rewrite (three_run _ c a b sc sa sb), Eh by done. done.
  - intros Eh. assert (bv_stmt e op None g = (x ← getArg e 0; y ← getArg e 1; z ← getArg e 2; lift (bv_op3 kIfThenElse x y z)) g) as ->.
    { unfold bv_stmt, e. cbn [Exprs.arg_num Exprs.args]. by rewrite Ea, Eo. }
    rewrite (three_run _ c a b sc sa sb) by done. unfold scalar, e, Exprs.sort in Hsc. cbn [Exprs.hdr] in Hsc. by destruct (h_sort h).
  - intros Σ V ρ HV Hρ Hk. destruct (named_value g c sc Σ V ρ Hwc Hdc HV Hρ Hk) as (vc & Hvc & Hcs & Hcg).
    destruct (named_value g a sa Σ V ρ Hwa Hda HV Hρ Hk) as (va & Hva & Has & Hag).
    destruct (named_value g b sb Σ V ρ Hwb Hdb HV Hρ Hk) as (vb & Hvb & Hbs & Hbg).
    rewrite Ec in Hcs. apply has_sort_bool in Hcs as [cv ->]. rewrite Eaa in Has. rewrite Ebb in Hbs.
    destruct (op_value ρ e h op args ps [VBool cv; va; vb] eq_refl Hρ Hw) as (v & Hv & Hz & Hvv).
    { rewrite Ea. unfold evals. cbn. by rewrite Hvc, Hva, Hvb. }
    rewrite Eo, Ep in Hz. injection Hz as <-. exists (if cv then va else vb).
    destruct (ite_gives Σ V sc sa sb cv va vb (h_sort h) (width_val (if cv then va else vb)) (bits_val (if cv then va else vb))
      (" ( " +:+ sc +:+ " ) ? ( " +:+ sa +:+ " ) : ( " +:+ sb +:+ " )" +:+ (if h_sort h is SortBool then " " else ""))) as (ex & Hr & Hgi); try done.
    + unfold scalar, e, Exprs.sort in Hsc. cbn [Exprs.hdr] in Hsc. by destruct (h_sort h).
    + unfold scalar, e, Exprs.sort in Hsc. cbn [Exprs.hdr] in Hsc. destruct (h_sort h); try done; [by left|by right].
    + by exists ex.
Qed.
End op.

(** ** Constants *)
Definition const_name (w n : Z) (k : N) : string := "bv_" +:+ toStr w +:+ "_" +:+ toStr n +:+ "_" +:+ "n" +:+ pretty k.
Lemma const_name_ok w n k : 0 <= w -> 0 <= n -> let s := const_name w n k in uses k s /\ word s = true /\ atom s = EName s.
Proof using Type.
  intros Hw Hn. split_and!; [| |done].
  - exists ("bv_" +:+ toStr w +:+ "_" +:+ toStr n +:+ "_"). split; [unfold const_name; by rewrite <- !str_app_assoc|].
    right. exists ("bv_" +:+ toStr w +:+ "_" +:+ toStr n). by rewrite <- !str_app_assoc.
  - apply word_intro; [done|done|]. cbn [word_chars]. 
    change (word_chars ("v_" +:+ toStr w +:+ "_" +:+ toStr n +:+ "_" +:+ "n" +:+ pretty k) = true).
    rewrite !word_chars_app. unfold toStr. rewrite (digits_word_chars (pretty w)), (digits_word_chars (pretty n)), (digits_word_chars (pretty k))
      by (apply pretty_N_digits || by apply pretty_Z_digits). done.
Qed.
Lemma add_const_run (w n : Z) s g : inv g -> constant g w n s ->
  let g' := with_maps g (set_cmap (maps g) (<[(n, w) := s]> (cmap (maps g)))) in inv g' /\ grown g g'.
Proof using Type.
  intros Hg Hc. split; [|by split]. destruct Hg as [H1 H2 H3 H4 H5 H6 H7 H8]. split; [done|done|exact H3|exact H4| |exact H6|exact H7|exact H8].
  intros w' n' s' Hi. cbn [maps with_maps set_cmap cmap] in Hi. apply lookup_insert_Some in Hi as [[[= <- <-] <-]|[_ Hi]]; [done|by apply H5].
Qed.
Lemma const_run h ps w n g : let e := ExprConst h (CBv n) ps in inv g -> T !! h_id h = Some e ->
  wt e = true -> h_sort h = SortBv w -> n < 2 ^ 64 -> exists g',
  (s ← translate_const e n; set_name e s) g = Ok (tt, g') /\ inv g' /\ grown g g' /\ named g' e.
Proof using L.
  intros e Hg HT Hw Es Hn64. cbn [wt e] in Hw. rewrite Es in Hw. cbn [const_ok] in Hw. bool_inv.
  assert (Hden : forall g s, constant g w n s -> denotes g e s).
  { intros g' s [Hws Hc]. split; [done|]. intros Σ V ρ HV _ _. exists (VBv w n). cbn [eval e]. rewrite Es. cbn [const_sem].
    rewrite Bits.wrap_small by done. split; [done|by apply Hc]. }
  assert (Hb : translate_const e n g = match cmap (maps g) !! (n, w) with
    | Some s => Ok (s, g)
    | None => (bvcnst ← lift (ToVlgNum n w); i ← new_id_e e; (fun result_var =>
        add_wire result_var w;; add_assign_stmt result_var bvcnst;;
        (fun s => on_maps (fun m => set_cmap m (<[(n, w) := s]> (cmap m)));; mret s) result_var)
        ("bv_" +:+ toStr w +:+ "_" +:+ toStr n +:+ "_" +:+ i)) g
    end).
  { unfold translate_const, get_width, Exprs.sort. cbn [e Exprs.hdr]. rewrite Es. unfold mbind at 1, ST_bind at 1. cbn [lift mbind Res_bind].
    unfold mbind at 1, ST_bind at 1. rewrite (proj2 (Z.ltb_lt 0 w)) by done. cbn [lift mbind Res_bind ila_assert].
    unfold mbind at 1, ST_bind at 1, get at 1. by destruct (cmap (maps g) !! (n, w)). }
  destruct (cmap (maps g) !! (n, w)) as [s|] eqn:Ec.
  { unfold mbind at 1, ST_bind at 1. rewrite Hb. apply (set_name_run e s g Hg HT). apply Hden. by eapply (iv_cmap _ _ _ Hg). }
  destruct (read_num n w) as (t & Et & Hr); [done|done|done|].
  pose proof (const_name_ok w n (idCounter (maps g)) ltac:(lia) ltac:(done)) as (Hu & Hws & Ha). set (s := const_name w n (idCounter (maps g))) in *.
  assert (Hdef : defines known g w t (fun _ => n)).
  { intros Σ V ρ _ _ _. eexists. split; [exact Hr|]. by apply gives_intro. }
  pose proof (new_name_id T known g s Hg Hu Hws Ha) as Hnn.
  pose proof (new_wire_inv T known _ s w t g _ Hg Hnn Hdef) as Hg1. pose proof (new_wire_grown _ s w t g Hnn (uses_generated _ _ Hu)) as Hgr1.
  assert (Hc : constant (new_wire (idCounter (maps g) + 1) s w t g) w n s).
  { split; [done|]. intros Σ V HV. eapply new_wire_value; [exact Hg|done..|exact Hr| |done|done]. by apply gives_intro. }
  destruct (add_const_run w n s _ Hg1 Hc) as [Hg2 Hgr2].
  destruct (set_name_run e s _ Hg2 HT) as (g' & Hrun & Hg' & Hgr' & Hnm); [apply Hden; exact Hc|].
  exists g'. split_and!; [|done|by etrans; [|etrans]|done].
  unfold mbind at 1, ST_bind at 1. rewrite Hb, Et, (lift_bind_run _ _ _ t eq_refl), (new_id_run T known) by done. fold (const_name w n (idCounter (maps g))). fold s.
  pose proof (new_wire_run _ s w t g (fun s => on_maps (fun m => set_cmap m (<[(n, w) := s]> (cmap m)));; mret s) Hnn) as E.
  etrans; [exact (f_equal (fun r : Res (vlg_name_t * VlgGen) => match r with Ok (a, s') => set_name e a s' | Fail x => Fail x end) E)|exact Hrun].
Qed.

(** ** The translation *)
Fixpoint parse_args (l : list Expr) : G unit :=
  match l with [] => mret () | a :: l => ParseNonMemUpdateExpr a;; parse_args l end.
Definition translates (e : Expr) : Prop := forall g, inv g -> registered T e -> wt e = true -> supported known e ->
  exists g', ParseNonMemUpdateExpr e g = Ok (tt, g') /\ inv g' /\ grown g g' /\ named g' e.
Lemma parse_args_run l : Forall translates l -> forall g, inv g -> Forall (registered T) l -> Forall (fun a => wt a = true) l ->
  Forall (supported known) l -> exists g', parse_args l g = Ok (tt, g') /\ inv g' /\ grown g g' /\ Forall (named g') l.
Proof using Type.
  induction 1 as [|a l Ha Hl IH]; intros g Hg Hr Hw Hs; [by exists g|].
  apply Forall_cons in Hr as [Hr Hr'], Hw as [Hw Hw'], Hs as [Hs Hs'].
  destruct (Ha g Hg Hr Hw Hs) as (g1 & Hrun & Hg1 & Hgr1 & Hn). destruct (IH g1 Hg1 Hr' Hw' Hs') as (g2 & Hrun2 & Hg2 & Hgr2 & Hn2).
  exists g2. split_and!; [|done|by etrans|constructor; [by apply (named_grown g1)|done]].
  cbn [parse_args]. by rewrite (ST_bind_run _ _ _ _ _ Hrun).
Qed.
Lemma parse_named e g s : nmap (maps g) !! Exprs.id e = Some s -> ParseNonMemUpdateExpr e g = Ok (tt, g).
Proof using Type.
  intros Hs.
  destruct e; cbn [ParseNonMemUpdateExpr]; unfold mbind at 1, ST_bind at 1, get at 1; unfold Exprs.id in Hs |- *; cbn [Exprs.hdr] in *; by rewrite Hs.
Qed.
Lemma parse_op h op fn args ps g : let e := ExprOp h op fn args ps in nmap (maps g) !! h_id h = None -> scalar e = true ->
  ParseNonMemUpdateExpr e g = (parse_args args;; n ← (match h_sort h with SortBool => translateBoolOp e op fn | _ => translateBvOp e op fn end); set_name e n) g.
Proof using Type.
  intros e Hn Hs. unfold e. cbn [ParseNonMemUpdateExpr]. unfold mbind at 1, ST_bind at 1, get at 1. unfold Exprs.id. cbn [Exprs.hdr]. rewrite Hn.
  unfold scalar, e, Exprs.sort in Hs. cbn [Exprs.hdr] in Hs. by destruct (h_sort h).
Qed.
Lemma parse_node h op args ps g t w : let e := ExprOp h op None args ps in inv g -> scalar e = true -> get_width e = Ok w ->
  (exists s, Exprs.op_name op = Ok s) ->
  (h_sort h = SortBool -> bool_stmt e op None g = Ok (t, g)) -> (h_sort h <> SortBool -> bv_stmt e op None g = Ok (t, g)) ->
  (match h_sort h with SortBool => translateBoolOp e op None | _ => translateBvOp e op None end) g =
  (result_var ← new_id_e e; add_wire result_var w;; add_assign_stmt result_var t;; mret result_var) g.
Proof using L.
  intros e Hg Hs Hw [s Eo] H1 H2. assert (h_sort h = SortBool \/ h_sort h <> SortBool) as [Es|Es] by (destruct (h_sort h); auto).
  - unfold get_width, Exprs.sort in Hw. cbn [e Exprs.hdr] in Hw. rewrite Es in Hw |- *. injection Hw as <-.
    unfold translateBoolOp. by rewrite (lift_bind_run _ _ _ _ Eo), (ST_bind_run _ _ _ _ _ (H1 Es)).
  - transitivity (translateBvOp e op None g); [by destruct (h_sort h)|]. unfold translateBvOp.
    rewrite (lift_bind_run _ _ _ _ Eo), (ST_bind_run _ _ _ _ _ (H2 Es)), !(new_id_run T known) by done. by rewrite (lift_bind_run _ _ _ _ Hw).
Qed.
(** The text of a node whose arguments are named. *)
Lemma node_text h op args ps g w : let e := ExprOp h op None args ps in inv g -> wt e = true -> scalar e = true -> get_width e = Ok w ->
  op_ok op ps args = true -> Forall (named g) args -> Forall (supported known) args -> exists t,
  (h_sort h = SortBool -> bool_stmt e op None g = Ok (t, g)) /\ (h_sort h <> SortBool -> bv_stmt e op None g = Ok (t, g)) /\ text_of g e t.
Proof using L.
  intros e Hg Hw Hsc Hwd Hok Hn Hs. pose proof Hw as [_ Hop]%wt_op.
  assert (h_sort h = SortBool \/ h_sort h = SortBv w) as Es.
  { unfold scalar, get_width, Exprs.sort in *. cbn [e Exprs.hdr] in *. destruct (h_sort h); try done; [by left|right]. by injection Hwd as ->. }
  destruct args as [|a [|b [|c [|d args]]]].
  - exfalso. clear -Hop. cbn [fmap list_fmap] in Hop. destruct op; cbn [op_sort] in Hop; repeat case_match; done.
  - destruct Es as [Es|Es].
    + destruct (not_text h op [a] ps g Hg Hw Hok Hn Hs a eq_refl Es) as (t & Ht & Htx). by exists t.
    + destruct (bv1_text h op [a] ps g Hg Hw Hok Hn Hs a w eq_refl Es) as (t & Ht & Htx). exists t. split; [by rewrite Es|done].
  - destruct Es as [Es|Es].
    + destruct (bool2_text h op [a; b] ps g Hg Hw Hok Hn Hs a b eq_refl Es) as (t & Ht & Htx). by exists t.
    + destruct (decide (op = kLoad)) as [El|El].
      * destruct (load_text h op [a; b] ps g Hg Hw Hok Hn Hs a b w El eq_refl Es) as (t & Ht & Htx). exists t. split; [by rewrite Es|done].
      * destruct (bv2_text h op [a; b] ps g Hg Hw Hok Hn Hs a b w eq_refl Es El) as (t & Ht & Htx). exists t. split; [by rewrite Es|done].
  - by apply (ite_text h op [a; b; c] ps g Hg Hw Hok Hn Hs a b c eq_refl).
  - exfalso. clear -Hop. cbn [fmap list_fmap] in Hop. destruct op; cbn [op_sort] in Hop; repeat case_match; done.
Qed.
Lemma translates_new e : (forall g, inv g -> nmap (maps g) !! Exprs.id e = None -> registered T e -> wt e = true -> supported known e ->
  exists g', ParseNonMemUpdateExpr e g = Ok (tt, g') /\ inv g' /\ grown g g' /\ named g' e) -> translates e.
Proof using Type.
  intros H g Hg Hr Hw Hs. destruct (nmap (maps g) !! Exprs.id e) as [s|] eqn:En; [|by apply H].
  exists g. split_and!; [by eapply parse_named|done|done|by eapply has_name].
Qed.
Lemma translates_all e : translates e.
Proof using L.
  induction e as [h ps|h c ps|h op fn args ps IH] using Expr_ind'; apply translates_new; intros g Hg En Hr Hw Hs;
    pose proof (registered_lookup _ _ Hr) as HT; unfold Exprs.id in En; cbn [Exprs.hdr] in En.
  - destruct Hs as [Hk Hn]. pose proof (vlg_var_denotes h ps g Hg Hk Hn Hw) as Hd.
    destruct (set_name_run _ _ g Hg HT Hd) as (g' & Hrun & Hg' & Hgr & Hnm). exists g'. split_and!; try done.
    cbn [ParseNonMemUpdateExpr]. unfold mbind at 1, ST_bind at 1, get at 1. unfold Exprs.id. cbn [Exprs.hdr]. rewrite En.
    assert (E : (n ← sanitizeName_e (ExprVar h ps); set_name (ExprVar h ps) n) g = Ok (tt, g')).
    { unfold sanitizeName_e, mbind, ST_bind. cbn [lift mbind Res_bind ila_assert Exprs.is_var]. unfold Exprs.name. cbn [Exprs.hdr].
      rewrite sanitizeName_ok by done. exact Hrun. }
    pose proof (iv_known _ _ _ Hg h Hk) as Hdec. unfold declares in Hdec. by destruct (h_sort h).
  - cbn [supported] in Hs. destruct c as [b|n|]; [| |done].
    + assert (Es : h_sort h = SortBool) by (cbn [wt] in Hw; by destruct (h_sort h)).
      assert (Hd : denotes g (ExprConst h (CBool b) ps) ("1'b" +:+ (if b then "1" else "0"))).
      { split; [by destruct b|]. intros Σ V ρ _ _ _. exists (VBool b). cbn [eval]. rewrite Es. split; [done|]. by destruct b. }
      destruct (set_name_run _ _ g Hg HT Hd) as (g' & Hrun & Hg' & Hgr & Hnm). exists g'. split_and!; try done.
      cbn [ParseNonMemUpdateExpr]. unfold mbind at 1, ST_bind at 1, get at 1. unfold Exprs.id. cbn [Exprs.hdr]. by rewrite En, Es.
    + assert (exists w, h_sort h = SortBv w) as [w Es].
      { cbn [wt] in Hw. destruct (h_sort h); try done. by eexists. }
      destruct (const_run h ps w n g Hg HT Hw Es Hs) as (g' & Hrun & Hg' & Hgr & Hnm). exists g'. split_and!; try done.
      cbn [ParseNonMemUpdateExpr]. unfold mbind at 1, ST_bind at 1, get at 1. unfold Exprs.id. cbn [Exprs.hdr]. by rewrite En, Es.
  - apply supported_op in Hs as (-> & Hsc & Hok & Hss). apply registered_unfold in Hr as [_ Hra]. pose proof Hw as [Hwa Hop]%wt_op.
    rewrite parse_op by done. cbn [Exprs.args] in Hra. destruct (parse_args_run args IH g Hg Hra Hwa Hss) as (g1 & Hrun & Hg1 & Hgr1 & Hn1).
    assert (exists w, get_width (ExprOp h op None args ps) = Ok w) as [w Hwd].
    { clear -Hsc. unfold scalar, get_width in *. destruct (Exprs.sort _); try done; by eexists. }
    rewrite (ST_bind_run _ _ _ _ _ Hrun).
    destruct (node_text h op args ps g1 w Hg1 Hw Hsc Hwd Hok Hn1 Hss) as (t & Hb1 & Hb2 & Ht).
    destruct (finish_run _ w t g1 Hg1 HT Hsc Hwd Ht) as (g' & Hrun' & Hg' & Hgr' & Hnm). exists g'. split_and!; [|done|by etrans|done].
    unfold mbind at 1, ST_bind at 1. rewrite (parse_node h op args ps g1 t w Hg1 Hsc Hwd (op_named _ _ _ Hok) Hb1 Hb2). exact Hrun'.
Qed.
End trans.
