(* ===== verification/VlgDecl.v ===== *)
(** * Declared variables

    The constructor and [insertInput], [insertState] of [Verilog] declare the
    clock, the reset and the variables; from then on the invariant of the
    translation holds, and every assignment of values to the variables extends to
    the signals of the module. *)
From S2P Require Import Prelude Sort Values Container Expr World ExprOp AstHub McmAst StrUtil Verilog VlgSem VlgText VlgOps VlgSpec VlgTrans.
Local Open Scope Z_scope.

(** Inputs and registers, and memories that are kept inside of the module. *)
Definition declarable (e : Expr) : bool :=
  Exprs.is_var e && name_ok (Exprs.name e) && sort_ok (Exprs.sort e) &&
  (scalar e || (Exprs.is_mem e && (Exprs.param_num e <=? 1)%nat)).
Definition plain_config (c : VlgGenConfig) : bool := negb (extMem c) && negb (pass_node_name c) && negb (reg_random_init c) && negb (expand_mem c) &&
  negb (collect_ite_unknown_update c).
Definition known_in (vars : list Expr) (h : Hdr) : Prop := h ∈ Exprs.hdr <$> vars.

(** The signals that control the clocked block, as variables. *)
Definition port (n : string) : Expr := ExprVar {| h_id := 0; h_name := n; h_host := None; h_sort := SortBool |} [].
Definition start_of (c : VlgGenConfig) : string := if start_signal c then "__START__" else "".
Definition controls (rst : string) (c : VlgGenConfig) : list Expr := port rst :: if start_signal c then [port "__START__"] else [].

Section decl.
Context {L : Layout} (T : gmap objid Expr) (clk rst : string) (config : VlgGenConfig).

(** What holds while variables are declared. *)
Record declared (vars : list Expr) (g : VlgGen) : Prop := {
  de_cfg : plain_config (cfg_ g) = true;
  de_config : cfg_ g = config;
  de_inits : init_stmts (body g) = [];
  de_always : always_stmts (body g) = [];
  de_clock : clkName (names g) = clk /\ rstName (names g) = rst /\ startName (names g) = start_of config;
  de_controls : Forall (fun e => declares (sigs g) (Exprs.hdr e)) (controls rst config);
  de_refs : reference_name_set g = ∅;
  de_annot : memory_export_annotation g = ∅;
  de_nmap : nmap (maps g) = ∅;
  de_cmap : cmap (maps g) = ∅;
  de_stmts : statements (body g) = [];
  de_outputs : outputs (sigs g) = ∅;
  de_ites : ite_stmts (body g) = [];
  de_funcs : func_ptr_set (maps g) = [];
  de_valid : validName (names g) = "";
  de_external : mems_external (sigs g) = ∅;
  de_names n : is_Some (wires (sigs g) !! n) \/ is_Some (inputs (sigs g) !! n) \/ is_Some (width_of (sigs g) n) \/
    is_Some (mems_internal (sigs g) !! n) -> n ∈ [clk; rst; "__START__"] ++ (Exprs.name <$> vars);
  de_vars : Forall (fun e => declares (sigs g) (Exprs.hdr e)) vars }.

Lemma known_name vars h : NoDup (Exprs.name <$> vars) -> known_in vars h -> exists e, e ∈ vars /\ h = Exprs.hdr e /\
  List.find (fun e => String.eqb (Exprs.name e) (h_name h)) vars = Some e.
Proof using Type.
  intros Hn (e & -> & He)%list_elem_of_fmap. exists e. split_and!; [done|done|]. induction vars as [|a vars IH]; [by apply elem_of_nil in He|].
  apply NoDup_cons in Hn as [Ha Hn]. cbn [List.find]. apply elem_of_cons in He as [->|He]; [by rewrite String.eqb_refl|].
  rewrite (proj2 (String.eqb_neq _ _)); [by apply IH|]. intros E. apply Ha, list_elem_of_fmap. by exists e.
Qed.
Lemma control_name e : e ∈ controls rst config -> Exprs.name e ∈ [rst; "__START__"].
Proof using Type. unfold controls. destruct (start_signal config); rewrite ?elem_of_cons, ?elem_of_nil; intros H; repeat destruct H as [->|H]; cbn; set_solver. Qed.
(** The variables with some of the control signals. *)
Lemma declared_inv_with ps vars g : NoDup (Exprs.name <$> ps ++ vars) -> Forall (fun e => generated e = false) ([clk; rst] ++ (Exprs.name <$> vars)) ->
  ps ⊆ controls rst config -> declared vars g -> vlg_inv T (known_in (ps ++ vars)) g.
Proof using Type.
  intros Hn Hgen Hps []. assert (Hf : forall n, generated n = true -> n ∉ [clk; rst; "__START__"] ++ (Exprs.name <$> vars)).
  { intros n Hg Hin. rewrite Forall_forall in Hgen. apply elem_of_app in Hin as [Hin|Hin].
    - rewrite !elem_of_cons in Hin. destruct Hin as [->|[->|[->|Hin]]]; [| |done|by apply elem_of_nil in Hin].
      + rewrite (Hgen clk) in Hg; [done|]. by left.
      + rewrite (Hgen rst) in Hg; [done|]. by right; left.
    - rewrite (Hgen n) in Hg; [done|]. apply elem_of_app. by right. }
  split.
  - unfold plain_config in de_cfg0. rewrite !andb_true_iff, !negb_true_iff in de_cfg0. tauto.
  - done.
  - intros k s _ Hu%uses_generated. specialize (Hf s Hu). split_and!; apply eq_None_not_Some; intros H; apply Hf, de_names0; tauto.
  - intros i s. by rewrite de_nmap0, lookup_empty.
  - intros w n s. by rewrite de_cmap0, lookup_empty.
  - intros h (e & -> & [He|He]%elem_of_app)%list_elem_of_fmap.
    + rewrite Forall_forall in de_controls0. by apply de_controls0, Hps.
    + rewrite Forall_forall in de_vars0. by apply de_vars0.
  - rewrite de_stmts0. constructor.
  - intros ρ Hρ. rewrite de_stmts0.
    set (at_ n := List.find (fun e => String.eqb (Exprs.name e) n) (ps ++ vars)).
    exists {| v_sig n := from_option (fun e => bits_val (ev_var ρ (Exprs.hdr e))) 0 (at_ n);
              v_mem n := from_option (fun e => match ev_var ρ (Exprs.hdr e) with VMem _ _ m => m | _ => ∅ end) ∅ (at_ n) |}.
    split; [|by constructor]. intros h Hh. destruct (known_name (ps ++ vars) h Hn Hh) as (e & _ & -> & Hfind). unfold at_. cbn [v_sig v_mem].
    rewrite Hfind. cbn [from_option]. by destruct (ev_var ρ (Exprs.hdr e)).
Qed.

Lemma declared_inv vars g : NoDup (Exprs.name <$> vars) -> Forall (fun e => generated e = false) ([clk; rst] ++ (Exprs.name <$> vars)) ->
  declared vars g -> vlg_inv T (known_in vars) g.
Proof using Type. intros Hn Hg Hd. apply (declared_inv_with [] vars g Hn Hg); [set_solver|done]. Qed.

(** *** The operations *)
Lemma sanitize_var e g : declarable e = true -> sanitizeName_e e g = Ok (Exprs.name e, g).
Proof using Type.
  unfold declarable. rewrite !andb_true_iff. intros [[[Hv Hn] _] _]. unfold sanitizeName_e, mbind, ST_bind. rewrite Hv. cbn [lift mbind Res_bind ila_assert].
  by rewrite sanitizeName_ok.
Qed.
Lemma undeclared_none vars g n : declared vars g -> n ∉ [clk; rst; "__START__"] ++ (Exprs.name <$> vars) ->
  wires (sigs g) !! n = None /\ inputs (sigs g) !! n = None /\ width_of (sigs g) n = None /\ mems_internal (sigs g) !! n = None.
Proof using Type. intros Hd Hn. split_and!; apply eq_None_not_Some; intros H; apply Hn, (de_names _ _ Hd); tauto. Qed.
(** Declarations that stay when one is added. *)
Record extends (n : string) (g g' : VlgGen) : Prop := {
  ex_cfg : cfg_ g' = cfg_ g;
  ex_refs : reference_name_set g' = reference_name_set g;
  ex_annot : memory_export_annotation g' = memory_export_annotation g;
  ex_maps : maps g' = maps g;
  ex_names : names g' = names g;
  ex_stmts : statements (body g') = statements (body g);
  ex_outputs : outputs (sigs g') = outputs (sigs g);
  ex_ites : ite_stmts (body g') = ite_stmts (body g);
  ex_inits : init_stmts (body g') = init_stmts (body g);
  ex_always : always_stmts (body g') = always_stmts (body g);
  ex_external : mems_external (sigs g') = mems_external (sigs g);
  ex_wires m : m <> n -> wires (sigs g') !! m = wires (sigs g) !! m;
  ex_inputs m : m <> n -> inputs (sigs g') !! m = inputs (sigs g) !! m;
  ex_width m : m <> n -> width_of (sigs g') m = width_of (sigs g) m;
  ex_mems m : m <> n -> mems_internal (sigs g') !! m = mems_internal (sigs g) !! m }.
Lemma declared_snoc vars e g g' : declared vars g -> Exprs.name e ∉ [clk; rst; "__START__"] ++ (Exprs.name <$> vars) ->
  extends (Exprs.name e) g g' -> declares (sigs g') (Exprs.hdr e) -> declared (vars ++ [e]) g'.
Proof using Type.
  intros [H1 Hcf Hin Hal Hck Hct H2 H3 H4 H5 H6 Ho Hi Hf Hv0 H7 H8 H9] Hn Hex Hd.
  assert (Hkeep : forall v, Exprs.name v <> Exprs.name e -> declares (sigs g) (Exprs.hdr v) -> declares (sigs g') (Exprs.hdr v)).
  { intros v Hne H. unfold Exprs.name in Hne at 1. destruct Hex. unfold declares in *. by rewrite ex_width0, ex_mems0, ex_external0. }
  assert (Hold : forall l, Forall (fun v => declares (sigs g) (Exprs.hdr v)) l -> (forall v, v ∈ l -> Exprs.name v <> Exprs.name e) ->
    Forall (fun v => declares (sigs g') (Exprs.hdr v)) l).
  { intros l Hl Hne. rewrite Forall_forall in Hl |- *. auto. }
  assert (Hcn : forall v, v ∈ controls rst config -> Exprs.name v <> Exprs.name e).
  { intros v Hv%control_name E. apply Hn, elem_of_app. left. rewrite <- E. set_solver. }
  assert (Hvn : forall v, v ∈ vars -> Exprs.name v <> Exprs.name e).
  { intros v Hv E. apply Hn, elem_of_app. right. rewrite <- E. apply list_elem_of_fmap. by exists v. }
  pose proof Hex as []. split; try congruence.
  - by apply Hold.
  - intros n Hin'. rewrite fmap_app, (app_assoc [clk; rst; "__START__"]). apply elem_of_app. destruct (decide (n = Exprs.name e)) as [->|Hne]; [right; by left|left].
    apply H8. by rewrite ex_wires0, ex_inputs0, ex_width0, ex_mems0 in Hin'.
  - apply Forall_app. split; [|by constructor]. by apply Hold.
Qed.
Lemma width_reg Σ n m w : width_of Σ n = None -> width_of (set_regs Σ (regs Σ ++ [(n, w)])) m = if decide (m = n) then Some w else width_of Σ m.
Proof using Type.
  unfold width_of. cbn [set_regs regs wires]. intros Hn.
  assert (Hf : forall l, List.find (fun p : string * Z => String.eqb p.1 m) (l ++ [(n, w)]) =
    match List.find (fun p : string * Z => String.eqb p.1 m) l with Some p => Some p | None => if String.eqb n m then Some (n, w) else None end).
  { induction l as [|p l IH]; [done|]. cbn [app List.find]. by destruct (String.eqb p.1 m). }
  rewrite Hf. destruct (decide (m = n)) as [->|Hne].
  - revert Hn. destruct (List.find _ (regs Σ)); [done|]. by rewrite String.eqb_refl.
  - clear Hn Hf. rewrite (proj2 (String.eqb_neq n m)) by congruence. by destruct (List.find _ (regs Σ)).
Qed.
Lemma declares_scalar e g w : get_width e = Ok w -> scalar e = true -> width_of (sigs g) (Exprs.name e) = Some w ->
  mems_internal (sigs g) !! Exprs.name e = None -> declares (sigs g) (Exprs.hdr e).
Proof using Type.
  intros Hw Hs H1 H2. unfold declares. unfold get_width, scalar, Exprs.sort in *. destruct (h_sort (Exprs.hdr e)); try done; by injection Hw as ->.
Qed.
Lemma insertInput_run vars e g : declared vars g -> declarable e = true -> scalar e = true ->
  Exprs.name e ∉ [clk; rst; "__START__"] ++ (Exprs.name <$> vars) -> exists g', insertInput e g = Ok (tt, g') /\ declared (vars ++ [e]) g'.
Proof using Type.
  intros Hd He Hs Hn. destruct (undeclared_none _ _ _ Hd Hn) as (Hw & Hi & Hwd & Hm).
  assert (exists w, get_width e = Ok w) as [w Ewd] by (unfold get_width, scalar in *; destruct (Exprs.sort e); try done; by eexists).
  assert (Hv : Exprs.is_var e = true) by (unfold declarable in He; rewrite !andb_true_iff in He; tauto).
  assert (Hnm : Exprs.is_mem e = false) by (unfold Exprs.is_mem, scalar in *; by destruct (Exprs.sort e)).
  assert (E : insertInput e g = Ok (tt, with_sigs (with_sigs g (set_inputs (sigs g) (<[Exprs.name e := w]> (inputs (sigs g)))))
    (set_wires (set_inputs (sigs g) (<[Exprs.name e := w]> (inputs (sigs g)))) (<[Exprs.name e := w]> (wires (sigs g))) (wires_keep (sigs g))))).
  { unfold insertInput. rewrite Hv, Hnm. unfold mbind, ST_bind. cbn [lift mbind Res_bind ila_check]. rewrite (sanitize_var _ _ He), Ewd.
    cbn [lift mbind Res_bind]. unfold add_input, add_wire, add_wire_keep, check_redeclare, on_sigs, modify, insert_new, get, mbind, ST_bind.
    rewrite Hi. cbn [lift mbind Res_bind with_sigs sigs set_inputs wires inputs]. rewrite Hw, Hi. cbn [lift mbind Res_bind with_sigs sigs set_inputs wires]. by rewrite Hw. }
  eexists. split; [exact E|]. eapply declared_snoc; [exact Hd|done| |].
  - split; try done; cbn [sigs with_sigs set_wires set_inputs wires inputs]; intros m Hne.
    + by apply lookup_insert_ne.
    + by apply lookup_insert_ne.
    + unfold width_of. cbn [set_wires set_inputs regs wires]. case_match; [done|]. by apply lookup_insert_ne.
  - eapply declares_scalar; [exact Ewd|done| |done]. unfold width_of in *. cbn [sigs with_sigs set_wires set_inputs regs wires].
    case_match; [done|]. apply lookup_insert_eq.
Qed.
Lemma config_inv c : plain_config c = true -> extMem c = false /\ pass_node_name c = false /\ reg_random_init c = false /\ expand_mem c = false /\
  collect_ite_unknown_update c = false.
Proof using Type. unfold plain_config. rewrite !andb_true_iff, !negb_true_iff. tauto. Qed.
Lemma insert_reg_run vars e w g : declared vars g -> declarable e = true -> scalar e = true -> get_width e = Ok w ->
  Exprs.name e ∉ [clk; rst; "__START__"] ++ (Exprs.name <$> vars) -> exists g', insert_reg e w g = Ok (tt, g') /\ declared (vars ++ [e]) g'.
Proof using Type.
  intros Hd He Hs Ewd Hn. destruct (undeclared_none _ _ _ Hd Hn) as (Hw & Hi & Hwd & Hm).
  destruct (config_inv _ (de_cfg _ _ Hd)) as (_ & _ & Hrnd & _ & _).
  assert (E : insert_reg e w g = Ok (tt, with_sigs g (set_regs (sigs g) (regs (sigs g) ++ [(Exprs.name e, w)])))).
  { unfold insert_reg, mbind, ST_bind. rewrite (sanitize_var _ _ He). unfold add_reg, on_sigs, modify, get. cbn [with_sigs cfg_]. by rewrite Hrnd. }
  eexists. split; [exact E|]. eapply declared_snoc; [exact Hd|done| |].
  - split; try done. cbn [sigs with_sigs]. intros m Hne. rewrite width_reg by done. by rewrite decide_False.
  - eapply declares_scalar; [exact Ewd|done| |exact Hm]. cbn [sigs with_sigs]. rewrite width_reg by done. by apply decide_True.
Qed.
Lemma insertState_run vars e g : declared vars g -> declarable e = true ->
  Exprs.name e ∉ [clk; rst; "__START__"] ++ (Exprs.name <$> vars) -> exists g', insertState e g = Ok (tt, g') /\ declared (vars ++ [e]) g'.
Proof using Type.
  intros Hd He Hn. assert (Hv : Exprs.is_var e = true) by (unfold declarable in He; rewrite !andb_true_iff in He; tauto).
  unfold insertState. rewrite Hv. unfold mbind at 1, ST_bind at 1. cbn [lift mbind Res_bind ila_assert].
  destruct (Exprs.sort e) as [|w|aw dw| |] eqn:Es.
  - apply insert_reg_run; try done; unfold scalar, get_width; by rewrite Es.
  - apply insert_reg_run; try done; unfold scalar, get_width; by rewrite Es.
  - destruct (undeclared_none _ _ _ Hd Hn) as (Hw & Hi & Hwd & Hm). destruct (config_inv _ (de_cfg _ _ Hd)) as (Hext & _ & _ & Hexp & _).
    assert (Hmem : Exprs.is_mem e = true) by (unfold Exprs.is_mem; by rewrite Es).
    assert (exists en, asthub.GetMemSize e = Ok en) as [en Een].
    { unfold asthub.GetMemSize. rewrite Hmem. cbn [ila_assert mbind Res_bind]. unfold declarable in He. rewrite !andb_true_iff, orb_true_iff in He.
      destruct He as [_ [He|He]]; [unfold scalar in He; by rewrite Es in He|]. apply andb_true_iff in He as [_ He]. apply Nat.leb_le in He.
      unfold Exprs.param, Exprs.at_, Exprs.param_num in *. destruct (Exprs.params e) as [|n [|? ?]]; [by eexists|by eexists|cbn in He; lia]. }
    assert (Hex : is_external g e = false).
    { unfold is_external. by rewrite (de_annot _ _ Hd), lookup_empty, Hext. }
    unfold mbind, ST_bind, get. rewrite (sanitize_var _ _ He), Een. cbn [lift mbind Res_bind]. rewrite Hex.
    unfold add_internal_mem, on_sigs, modify, insert_new. rewrite Hm, Hexp. eexists. split; [done|]. eapply declared_snoc; [exact Hd|done| |].
    + split; try done. cbn [sigs with_sigs set_mems mems_internal]. intros m Hne. by apply lookup_insert_ne.
    + unfold declares. unfold Exprs.sort in Es. rewrite Es. cbn [sigs with_sigs set_mems mems_internal mems_external].
      split; [by rewrite (de_external _ _ Hd), lookup_empty|]. eexists. split; [apply lookup_insert_eq|done].
  - exfalso. unfold declarable, scalar, Exprs.is_mem in He. rewrite Es in He. by rewrite andb_false_r in He.
  - exfalso. unfold declarable, scalar, Exprs.is_mem in He. rewrite Es in He. by rewrite andb_false_r in He.
Qed.

Lemma declare_vars_loop (f : Expr -> G unit) (ok : Expr -> bool) :
  (forall vars e g, declared vars g -> ok e = true -> Exprs.name e ∉ [clk; rst; "__START__"] ++ (Exprs.name <$> vars) ->
     exists g', f e g = Ok (tt, g') /\ declared (vars ++ [e]) g') ->
  forall l vars g, declared vars g -> Forall (fun e => ok e = true) l -> NoDup ([clk; rst; "__START__"] ++ (Exprs.name <$> vars ++ l)) ->
  exists g', foldM (fun v (_ : unit) => f v) l () g = Ok (tt, g') /\ declared (vars ++ l) g'.
Proof using Type.
  intros Hf l. induction l as [|e l IH]; intros vars g Hd Hl Hn; [rewrite app_nil_r; by exists g|].
  apply Forall_cons in Hl as [He Hl]. destruct (Hf vars e g Hd He) as (g1 & Hrun & Hd1).
  { rewrite fmap_app, app_assoc in Hn. apply NoDup_app in Hn as (_ & Hn & _). intros Hin. apply (Hn _ Hin). by left. }
  destruct (IH (vars ++ [e]) g1 Hd1 Hl) as (g2 & Hrun2 & Hd2); [by rewrite <- (app_assoc vars)|].
  exists g2. split; [|by rewrite <- (app_assoc vars) in Hd2]. cbn [foldM]. by rewrite (ST_bind_run _ _ _ _ _ Hrun).
Qed.
(** A port. *)
Definition add_io (n : string) (g : VlgGen) : VlgGen :=
  with_sigs (with_sigs g (set_wires (sigs g) (<[n := 1]> (wires (sigs g))) (wires_keep (sigs g))))
    (set_inputs (set_wires (sigs g) (<[n := 1]> (wires (sigs g))) (wires_keep (sigs g))) (<[n := 1]> (inputs (sigs g)))).
Lemma add_io_run n g (k : G unit) : wires (sigs g) !! n = None -> inputs (sigs g) !! n = None -> (add_wire n 1;; add_input n 1;; k) g = k (add_io n g).
Proof using Type.
  intros Hw Hi. unfold add_wire, add_wire_keep, add_input, check_redeclare, on_sigs, modify, insert_new, get, mbind, ST_bind.
  rewrite Hw. cbn [lift mbind Res_bind with_sigs sigs set_wires inputs]. rewrite Hw, Hi. cbn [lift mbind Res_bind with_sigs sigs set_wires inputs]. by rewrite Hi.
Qed.
(** Only ports so far. *)
Record ports_only (l : list string) (g : VlgGen) : Prop := {
  po_cfg : plain_config (cfg_ g) = true;
  po_config : cfg_ g = config;
  po_refs : reference_name_set g = ∅;
  po_annot : memory_export_annotation g = ∅;
  po_nmap : nmap (maps g) = ∅;
  po_cmap : cmap (maps g) = ∅;
  po_stmts : statements (body g) = [];
  po_outputs : outputs (sigs g) = ∅;
  po_ites : ite_stmts (body g) = [];
  po_inits : init_stmts (body g) = [];
  po_always : always_stmts (body g) = [];
  po_clock : clkName (names g) = clk /\ rstName (names g) = rst;
  po_funcs : func_ptr_set (maps g) = [];
  po_valid : validName (names g) = "";
  po_external : mems_external (sigs g) = ∅;
  po_internal : mems_internal (sigs g) = ∅;
  po_regs : regs (sigs g) = [];
  po_wire n : n ∈ l -> wires (sigs g) !! n = Some 1;
  po_io n : is_Some (wires (sigs g) !! n) \/ is_Some (inputs (sigs g) !! n) -> n ∈ l }.
Lemma ports_io n l g : ports_only l g -> ports_only (n :: l) (add_io n g).
Proof using Type.
  intros []. split; try done; intros m; cbn [add_io with_sigs sigs set_wires set_inputs wires inputs].
  - intros Hm. apply lookup_insert_Some. destruct (decide (n = m)) as [->|Hne]; [by left|right]. apply elem_of_cons in Hm as [->|Hm]; [done|auto].
  - rewrite !lookup_insert_is_Some', elem_of_cons. intros [[->|H]|[->|H]]; auto.
Qed.
Lemma ports_run n l g (k : G unit) : ports_only l g -> n ∉ l -> (add_wire n 1;; add_input n 1;; k) g = k (add_io n g).
Proof using Type. intros H Hn. apply add_io_run; apply eq_None_not_Some; intros Hs; apply Hn, (po_io _ _ H); auto. Qed.
Lemma ports_declared l g : ports_only l g -> l ⊆ [clk; rst; "__START__"] -> startName (names g) = start_of config ->
  (forall e, e ∈ controls rst config -> Exprs.name e ∈ l) -> declared [] g.
Proof using Type.
  intros [] Hl Hst Hct. assert (Hs : forall e, e ∈ controls rst config -> h_sort (Exprs.hdr e) = SortBool).
  { unfold controls. destruct (start_signal config); intros e; rewrite ?elem_of_cons, ?elem_of_nil; intros H; by repeat destruct H as [->|H]. }
  split; try done; [naive_solver| |].
  { apply Forall_forall. intros e He. unfold declares. rewrite Hs by done. rewrite po_internal0. split; [|apply lookup_empty].
    unfold width_of. rewrite po_regs0. by apply po_wire0, Hct. }
  intros x Hx. apply elem_of_app. left. apply Hl, po_io0.
  unfold width_of in Hx. rewrite po_regs0 in Hx. cbn [List.find] in Hx. rewrite po_internal0, lookup_empty in Hx. destruct Hx as [?|[?|[?|[? ?]]]]; auto; done.
Qed.
Lemma then_ret (a b : G unit) g : (a;; b) g = (a;; b;; mret ()) g.
Proof using Type. unfold mbind, ST_bind. destruct (a g) as [[[] s]|]; [|done]. by destruct (b s) as [[[] ?]|]. Qed.
Lemma New_run m t n : plain_config config = true -> NoDup [clk; rst; "__START__"] ->
  exists g, New config m clk rst t n = Ok g /\ declared [] g.
Proof using Type.
  intros Hc Hn. assert (H0 : ports_only [] (fresh_gen config m clk rst t n)).
  { split; try done; [by intros x ?%elem_of_nil|]. intros x [[? H]|[? H]]; discriminate H. }
  assert (H1 : ports_only [rst; clk] (add_io rst (add_io clk (fresh_gen config m clk rst t n)))) by (by apply ports_io, ports_io).
  assert ((rst ∉ [clk]) /\ ("__START__" ∉ [rst; clk])) as [Hr Hst].
  { apply NoDup_cons in Hn as [Hn1 Hn]. apply NoDup_cons in Hn as [Hn2 _].
    rewrite !elem_of_cons in Hn1. rewrite !elem_of_cons in Hn2. split; intros H; rewrite !elem_of_cons, elem_of_nil in H; intuition congruence. }
  assert (Hcs : start_signal config = false -> forall e, e ∈ controls rst config -> Exprs.name e ∈ [rst; clk]).
  { unfold controls. intros -> e ->%list_elem_of_singleton. by left. }
  unfold New. rewrite (ports_run clk [] _ _ H0 (not_elem_of_nil clk)), (ports_run rst [clk] _ _ (ports_io clk _ _ H0) Hr).
  destruct (start_signal config) eqn:Es.
  - set (g2 := add_io rst _) in *.
    assert (H2 : ports_only [rst; clk] (with_names g2 (set_start (names g2) "__START__"))) by (by destruct H1).
    pose proof (ports_run "__START__" [rst; clk] _ (mret ()) H2 Hst) as E.
    exists (add_io "__START__" (with_names g2 (set_start (names g2) "__START__"))). split; [|eapply ports_declared; [by apply ports_io|set_solver|unfold start_of; by rewrite Es|]].
    + etrans; [exact (f_equal (fun r : Res (unit * VlgGen) => '(_, g) ← r; Ok g) 
      (then_ret (add_wire "__START__" 1) (add_input "__START__" 1) (with_names g2 (set_start (names g2) "__START__"))))|]. by rewrite E.
    + intros e He%control_name. set_solver.
  - eexists. split; [done|]. eapply ports_declared; [exact H1|set_solver|unfold start_of; by rewrite Es|by apply Hcs].
Qed.

(** *** The variables of a model *)
Lemma on_gen_run {A} (m : G A) w g a g' : m g = Ok (a, g') -> on_gen m (w, g) = Ok (a, (w, g')).
Proof using Type. unfold on_gen. cbn [snd fst]. by intros ->. Qed.
Lemma on_gen_loop (f : Expr -> G unit) l w g g' : foldM (fun v (_ : unit) => f v) l () g = Ok (tt, g') ->
  foldM (fun v (_ : unit) => on_gen (f v)) l () (w, g) = Ok (tt, (w, g')).
Proof using Type.
  revert g. induction l as [|v l IH]; intros g H; [by injection H as <-|]. cbn [foldM] in *. apply ST_bind_ok in H as ([] & g1 & H1 & H).
  rewrite (ST_bind_run _ _ _ _ _ (on_gen_run _ w _ _ _ H1)). by apply IH.
Qed.
(** The variables of the model can be declared. *)
Record good_vars (l : InstrLvlAbs) : Prop := {
  gv_inputs : Forall (fun e => declarable e = true /\ scalar e = true) (KeyVec.vec_ (inputs_ l));
  gv_states : Forall (fun e => declarable e = true) (KeyVec.vec_ (states_ l));
  gv_names : NoDup ([clk; rst; "__START__"] ++ (Exprs.name <$> KeyVec.vec_ (inputs_ l) ++ KeyVec.vec_ (states_ l)));
  gv_clk : generated clk = false;
  gv_rst : generated rst = false }.
Definition vars_of (l : InstrLvlAbs) : list Expr := KeyVec.vec_ (inputs_ l) ++ KeyVec.vec_ (states_ l).
Lemma export_vars_run l w g : good_vars l -> declared [] g -> exists g', export_vars l (w, g) = Ok (tt, (w, g')) /\ declared (vars_of l) g'.
Proof using Type.
  intros [Hi Hs Hn _ _] Hd.
  destruct (declare_vars_loop insertInput (fun e => declarable e && scalar e)) with (l := KeyVec.vec_ (inputs_ l)) (vars := @nil Expr) (g := g) as (g1 & Hrun & Hd1).
  { intros vars e g' Hd' [He Hs']%andb_true_iff. by apply insertInput_run. }
  { done. }
  { eapply Forall_impl; [exact Hi|]. intros e [-> ->]. done. }
  { rewrite app_nil_l. rewrite fmap_app, app_assoc in Hn. by apply NoDup_app in Hn as [Hn _]. }
  destruct (declare_vars_loop insertState declarable insertState_run (KeyVec.vec_ (states_ l)) _ g1 Hd1 Hs) as (g2 & Hrun2 & Hd2).
  { exact Hn. }
  exists g2. split; [|exact Hd2]. unfold export_vars. rewrite (ST_bind_run _ _ _ _ _ (on_gen_loop _ _ w _ _ Hrun)).
  by apply on_gen_loop.
Qed.
Lemma good_generated l : good_vars l -> Forall (fun e => generated e = false) ([clk; rst] ++ (Exprs.name <$> vars_of l)).
Proof using Type.
  intros [Hi Hs _ Hc Hr]. assert (Hd : forall e, declarable e = true -> generated (Exprs.name e) = false).
  { unfold declarable. intros e. rewrite !andb_true_iff. intros [[[_ (c & r & -> & _ & _ & _ & _ & ?)%name_ok_inv] _] _]. done. }
  apply Forall_app. split; [by repeat constructor|]. unfold vars_of. rewrite fmap_app. apply Forall_app.
  split; apply Forall_fmap; (eapply Forall_impl; [eassumption|]); intros e; cbn [compose]; naive_solver.
Qed.
(** From the constructor on. *)
Lemma vars_inv m t n l w : plain_config config = true -> good_vars l -> exists g0 g,
  New config m clk rst t n = Ok g0 /\ export_vars l (w, g0) = Ok (tt, (w, g)) /\ vlg_inv T (known_in (vars_of l)) g.
Proof using Type.
  intros Hc Hl. pose proof (gv_names _ Hl) as Hn. destruct (New_run m t n Hc) as (g0 & Hnew & Hd0).
  { by apply NoDup_app in Hn as [Hn _]. }
  destruct (export_vars_run l w g0 Hl Hd0) as (g & Hrun & Hd). exists g0, g. split_and!; [done|done|].
  eapply declared_inv; [|by apply good_generated|exact Hd]. by apply NoDup_app in Hn as (_ & _ & Hn).
Qed.
End decl.

(** C5.  Translating an expression to Verilog preserves its meaning.  A fresh
    generator declares the variables of a model and translates a supported,
    well-sorted expression over them: both runs return, with a signal name for the
    expression.  For any values of the variables there are values of the signals in
    which every generated assignment holds, and whenever the assignments hold, the
    signal has the value of the expression in the reference semantics. *)
Theorem ParseNonMemUpdateExpr_correct {L : Layout} (T : gmap objid Expr) clk rst config m t n l w e :
  plain_config config = true -> good_vars clk rst l -> registered T e -> wt e = true -> supported (known_in (vars_of l)) e ->
  exists g s, (g0 ← New config m clk rst t n; (export_vars l;; on_gen (ParseNonMemUpdateExpr e;; getVlgFromExpr e)) (w, g0)) = Ok (s, (w, g)) /\
  forall ρ, env_ok ρ ->
    (exists V, agrees (known_in (vars_of l)) V ρ /\ respects (sigs g) V (statements (body g))) /\
    (forall V, agrees (known_in (vars_of l)) V ρ -> respects (sigs g) V (statements (body g)) ->
      exists v, eval ρ e = Some v /\ sig_of (sigs g) V s v).
Proof.
  intros Hc Hl Hr Hw Hs. destruct (vars_inv T clk rst config m t n l w Hc Hl) as (g0 & g1 & Hnew & Hvars & Hinv).
  destruct (translates_all T (known_in (vars_of l)) e g1 Hinv Hr Hw Hs) as (g & Hrun & Hg & _ & s & Hname & _ & Hd).
  exists g, s. split.
  - rewrite Hnew. cbn [mbind Res_bind]. rewrite (ST_bind_run _ _ _ _ _ Hvars). apply on_gen_run. rewrite (ST_bind_run _ _ _ _ _ Hrun).
    change (lift (match nmap (maps g) !! Exprs.id e with Some n => Ok n | None => Fail EAssert end) g = Ok (s, g)). by rewrite Hname.
  - intros ρ Hρ. split; [by apply (iv_sat _ _ _ Hg)|]. intros V Hk HV. by apply Hd.
Qed.

(** A register that is loaded from a memory when an input is small. *)
Module VlgSample.
Definition hdr_of (i : objid) (n : string) (s : Sort) : Hdr := {| h_id := i; h_name := n; h_host := Some 0%N; h_sort := s |}.
Definition op_node (i : objid) (s : Sort) (op : AstUidExprOp) (args : list Expr) : Expr := ExprOp (hdr_of i (Symbol.default_name i) s) op None args [].
Definition x := ExprVar (hdr_of 1 "x" (SortBv 8)) [].
Definition r := ExprVar (hdr_of 2 "r" (SortBv 8)) [].
Definition mem := ExprVar (hdr_of 3 "mem" (SortMem 8 8)) [].
Definition load := op_node 4 (SortBv 8) kLoad [mem; x].
Definition three := ExprConst (hdr_of 5 "$5" (SortBv 8)) (CBv 3) [].
Definition sum := op_node 6 (SortBv 8) kAdd [x; three].
Definition less := op_node 7 SortBool kUnsignedLessThan [x; r].
Definition next_r := op_node 8 (SortBv 8) kIfThenElse [less; load; sum].
Definition nodes : list Expr := [x; r; mem; load; three; sum; less; next_r].
Definition table : gmap objid Expr := list_to_map ((fun e => (Exprs.id e, e)) <$> nodes).
Definition config : VlgGenConfig :=
  {| extMem := false; fcOpt := Internal; start_signal := false; pass_node_name := false; reg_random_init := false;
     expand_mem := false; collect_ite_unknown_update := false |}.
Definition keyed_list (l : list Expr) : KeyVec Expr := foldl (fun v e => snd (KeyVec.push_back v (Exprs.name e) e)) KeyVec.empty l.
Definition model : InstrLvlAbs :=
  {| l_name := "model"; parent_ := None; inputs_ := keyed_list [x]; states_ := keyed_list [r; mem]; input_objects_ := KeyVec.empty;
     state_objects_ := KeyVec.empty; inits_ := []; fetch_ := None; valid_ := None; instrs_ := KeyVec.empty; childs_ := KeyVec.empty;
     instr_seq_ := None; is_spec_ := true |}.
Definition world : World := {| counter_ := 20; w_ilas := {[ 0%N := model ]}; w_instrs := ∅ |}.
Lemma model_vars : good_vars "clk" "rst" model.
Proof. by split; vm_compute; repeat constructor; (intros H; repeat (apply elem_of_cons in H as [H|H]; [discriminate|]); by apply elem_of_nil in H). Qed.
Lemma known_var e : e ∈ [x; r; mem] -> known_in (vars_of model) (Exprs.hdr e).
Proof. intros H. by apply list_elem_of_fmap_2. Qed.
End VlgSample.
Lemma ParseNonMemUpdateExpr_correct_witness : let l := VlgSample.model in let e := VlgSample.next_r in
  exists g s, (g0 ← New VlgSample.config "" "clk" "rst" initial_table 0;
    (export_vars l;; on_gen (ParseNonMemUpdateExpr e;; getVlgFromExpr e)) (VlgSample.world, g0)) = Ok (s, (VlgSample.world, g)) /\
  forall ρ, env_ok ρ ->
    (exists V, agrees (known_in (vars_of l)) V ρ /\ respects (sigs g) V (statements (body g))) /\
    (forall V, agrees (known_in (vars_of l)) V ρ -> respects (sigs g) V (statements (body g)) ->
      exists v, eval ρ e = Some v /\ sig_of (sigs g) V s v).
Proof.
  apply (@ParseNonMemUpdateExpr_correct layout_id VlgSample.table "clk" "rst").
  - reflexivity.
  - apply VlgSample.model_vars.
  - repeat (apply registered_unfold; split; [reflexivity|repeat constructor]).
  - reflexivity.
  - repeat split; first [apply (VlgSample.known_var VlgSample.x)|apply (VlgSample.known_var VlgSample.r)|apply (VlgSample.known_var VlgSample.mem)]; 
      set_solver.
Defined.
