(* ===== verification/VlgClock.v ===== *)
(** * The clocked block of a module

    [dump_always] of [Verilog] prints the block that updates the registers.
    Read back, it is a reset, a guard by the valid signal (and by the start
    signal, if there is one), the step counter and the conditional updates; a
    register other than the counter keeps its value in reset and when the guard
    does not hold, and takes its update if the decode signal is set. *)
From S2P Require Import Prelude Sort Values Expr StrUtil Verilog VlgSem VlgText VlgOps VlgSpec.
Local Open Scope Z_scope.

(** ** Reading statements *)
Definition keyword (s : string) : bool := bool_decide (s ∈ ["begin"; "end"; "if"; "else"]).
(** Words that can start a statement. *)
Definition opens (l : list tok) : bool := match l with TW t :: _ => negb (bool_decide (t ∈ ["end"; "else"])) | _ => false end.
Definition reads_cond (l : list tok) (c : vexp) : Prop := forall r, parse (fuel_of (l ++ TS ")" :: r)) MExpr (l ++ TS ")" :: r) = Some (c, TS ")" :: r).
Definition reads_rhs (l : list tok) (e : vexp) : Prop := forall r, parse (fuel_of (l ++ TS ";" :: r)) MExpr (l ++ TS ";" :: r) = Some (e, TS ";" :: r).
(** A statement that is complete by itself, one that must not be followed by an
    [else], and the statements of a block. *)
Definition reads_body (l : list tok) (st : vstmt) : Prop := opens l = true /\
  forall fuel r, (2 * length l < fuel)%nat -> parse_stmt fuel false (l ++ r) = Some (st, r).
Definition reads_stmt (l : list tok) (st : vstmt) : Prop := opens l = true /\
  forall fuel r, (2 * length l < fuel)%nat -> is_word "else" r = false -> parse_stmt fuel false (l ++ r) = Some (st, r).
Definition reads_block (l : list tok) (st : vstmt) : Prop := is_word "else" l = false /\
  forall fuel r, (2 * length l + 1 < fuel)%nat -> parse_stmt fuel true (l ++ TW "end" :: r) = Some (st, r).

Lemma body_stmt l st : reads_body l st -> reads_stmt l st.
Proof. intros [Ho H]. split; [done|]. intros. by apply H. Qed.
Lemma opens_words l r : opens l = true -> is_word "end" (l ++ r) = false /\ is_word "else" (l ++ r) = false.
Proof.
  destruct l as [|[w|s] l]; try done. cbn. intros H. apply negb_true_iff in H. apply bool_decide_eq_false in H.
  split; apply String.eqb_neq; intros ->; apply H; set_solver.
Qed.
Lemma block_nil : reads_block [] SSkip.
Proof. split; [done|]. intros [|fuel] r Hf; [lia|]. done. Qed.
Lemma block_cons l a l' b : reads_stmt l a -> reads_block l' b -> reads_block (l ++ l') (SSeq a b).
Proof.
  intros [Ho Ha] [He Hb]. split; [by apply opens_words|]. intros [|fuel] r Hf; [lia|]. rewrite length_app in Hf.
  cbn [parse_stmt]. rewrite <- app_assoc. rewrite (proj1 (opens_words _ _ Ho)).
  assert (1 <= length l)%nat by (destruct l; [done|cbn; lia]).
  rewrite Ha by (lia || by destruct l' as [|[] ?]). cbn [mbind option_bind]. by rewrite Hb by lia.
Qed.
Lemma stmt_block l st : reads_block l st -> reads_body (TW "begin" :: l ++ [TW "end"]) st.
Proof.
  intros [He Hb]. split; [done|]. intros [|fuel] r Hf; [lia|]. cbn in Hf. rewrite length_app in Hf. cbn in Hf.
  cbn [parse_stmt app]. change (is_word "begin" (TW "begin" :: (l ++ [TW "end"]) ++ r)) with true. cbv beta iota. cbn [tail].
  rewrite <- app_assoc. apply Hb. lia.
Qed.
Lemma stmt_assign m le e : keyword m = false -> reads_rhs le e -> reads_body (TW m :: TS "<=" :: le ++ [TS ";"]) (SAssign (atom m) e).
Proof.
  intros Hk He. unfold keyword in Hk. apply bool_decide_eq_false in Hk. split.
  { apply negb_true_iff, bool_decide_eq_false. set_solver. }
  intros [|fuel] r Hf; [lia|]. cbn [parse_stmt app]. rewrite <- app_assoc.
  assert (forall k, k ∈ ["begin"; "if"] -> is_word k (TW m :: TS "<=" :: le ++ [TS ";"] ++ r) = false) as Hw.
  { intros k Hin. apply String.eqb_neq. intros ->. apply Hk. set_solver. }
  rewrite !Hw by set_solver. change (parse (fuel_of (TW m :: TS "<=" :: le ++ [TS ";"] ++ r)) MUnary (TW m :: TS "<=" :: le ++ [TS ";"] ++ r))
    with (Some (atom m, TS "<=" :: le ++ [TS ";"] ++ r)).
  cbn [mbind option_bind expect app]. rewrite String.eqb_refl. cbn [mbind option_bind]. by rewrite He.
Qed.
Lemma stmt_if lc c lt t : reads_cond lc c -> reads_stmt lt t -> reads_stmt (TW "if" :: TS "(" :: lc ++ TS ")" :: lt) (SIf c t SSkip).
Proof.
  intros Hc [Ho Ht]. split; [done|]. intros [|fuel] r Hf Hr; [lia|]. cbn in Hf. rewrite length_app in Hf. cbn in Hf.
  cbn [parse_stmt app is_word String.eqb Ascii.eqb Bool.eqb tail expect mbind option_bind]. rewrite <- app_assoc. cbn [app].
  rewrite Hc. cbn [mbind option_bind expect String.eqb Ascii.eqb Bool.eqb]. rewrite Ht by (lia || done). cbn [mbind option_bind]. by rewrite Hr.
Qed.
Lemma stmt_if_else lc c lt t lf f : reads_cond lc c -> reads_body lt t -> reads_stmt lf f ->
  reads_stmt (TW "if" :: TS "(" :: lc ++ TS ")" :: lt ++ TW "else" :: lf) (SIf c t f).
Proof.
  intros Hc [Ho Ht] [Ho' Hf']. split; [done|]. intros [|fuel] r Hf Hr; [lia|]. cbn in Hf. rewrite length_app in Hf. cbn in Hf. rewrite length_app in Hf. cbn in Hf.
  cbn [parse_stmt app is_word String.eqb Ascii.eqb Bool.eqb tail expect mbind option_bind]. rewrite <- app_assoc. cbn [app].
  rewrite Hc. cbn [mbind option_bind expect String.eqb Ascii.eqb Bool.eqb]. rewrite <- app_assoc. rewrite Ht by lia.
  cbn [app mbind option_bind is_word String.eqb Ascii.eqb Bool.eqb tail]. by rewrite Hf' by (lia || done).
Qed.
Lemma fuel_some l k : (k <= length l)%nat -> exists m, fuel_of l = (8 * k + m)%nat.
Proof. intros H. exists (8 * (length l - k) + 8)%nat. unfold fuel_of. lia. Qed.
Lemma cond_word w : reads_cond [TW w] (atom w).
Proof. intros r. reflexivity. Qed.
Lemma rhs_word w : reads_rhs [TW w] (atom w).
Proof. intros r. reflexivity. Qed.

(** ** The text of the block *)
Definition counter_inc (cn : string) (mx : Z) : vexp := EBin "&&" (EBin ">=" (atom cn) (atom "1")) (EBin "<" (atom cn) (atom (toStr mx))).
Definition counter_stmt (d cn : string) (mx : Z) : vstmt :=
  SIf (atom d) (SSeq (SAssign (atom cn) (atom "1")) SSkip)
    (SIf (counter_inc cn mx) (SSeq (SAssign (atom cn) (EBin "+" (atom cn) (atom "1"))) SSkip) SSkip).
Definition update_stmt (d : string) (p : string * string) : vstmt := SIf (atom d) (SSeq (SAssign (atom p.1) (atom p.2)) SSkip) SSkip.
Definition updates_stmt (d : string) (ups : list (string * string)) : vstmt := foldr (fun p st => SSeq (update_stmt d p) st) SSkip ups.
Definition guard (start valid : string) : vexp := if String.eqb start "" then atom valid else EBin "&&" (atom start) (atom valid).
Definition clocked (rst start valid d cn : string) (mx : Z) (ups : list (string * string)) : vstmt :=
  SSeq (SIf (atom rst) (SSeq (SAssign (atom cn) (atom "0")) SSkip)
    (SIf (guard start valid) (SSeq (counter_stmt d cn mx) (updates_stmt d ups)) SSkip)) SSkip.
Definition assign_toks (m : string) (le : list tok) : list tok := TW "begin" :: (TW m :: TS "<=" :: le ++ [TS ";"]) ++ [TW "end"].
Definition counter_toks (d cn : string) (mx : Z) : list tok :=
  TW "if" :: TS "(" :: [TW d] ++ TS ")" :: assign_toks cn [TW "1"] ++ TW "else" ::
  TW "if" :: TS "(" :: [TS "("; TW cn; TS ">="; TW "1"; TS ")"; TS "&&"; TS "("; TW cn; TS "<"; TW (toStr mx); TS ")"] ++ TS ")" ::
  assign_toks cn [TW cn; TS "+"; TW "1"].
Definition update_toks (d : string) (p : string * string) : list tok := TW "if" :: TS "(" :: [TW d] ++ TS ")" :: assign_toks p.1 [TW p.2].
Definition guard_toks (start valid : string) : list tok := if String.eqb start "" then [TW valid] else [TW start; TS "&&"; TW valid].

Lemma read_assign_block m le e : keyword m = false -> reads_rhs le e -> reads_body (assign_toks m le) (SSeq (SAssign (atom m) e) SSkip).
Proof.
  intros Hm He. apply stmt_block. rewrite <- (app_nil_r (TW m :: _)). apply block_cons; [|apply block_nil]. by apply body_stmt, stmt_assign.
Qed.
Lemma read_counter d cn mx : keyword cn = false -> reads_stmt (counter_toks d cn mx) (counter_stmt d cn mx).
Proof.
  intros Hc. apply stmt_if_else; [apply cond_word|apply read_assign_block; [done|apply rhs_word]|].
  apply stmt_if; [intros r; reflexivity|]. apply body_stmt, read_assign_block; [done|intros r; reflexivity].
Qed.
Lemma read_updates d ups : Forall (fun p => keyword p.1 = false) ups -> reads_block (mjoin (update_toks d <$> ups)) (updates_stmt d ups).
Proof.
  induction 1 as [|p ups Hp _ IH]; [apply block_nil|]. cbn [fmap list_fmap mjoin list_join updates_stmt foldr]. apply block_cons; [|exact IH].
  apply stmt_if; [apply cond_word|]. apply body_stmt, read_assign_block; [done|apply rhs_word].
Qed.
Lemma read_guard start valid : reads_cond (guard_toks start valid) (guard start valid).
Proof. intros r. unfold guard_toks, guard. by destruct (String.eqb start ""). Qed.

(** *** From text to tokens *)
Definition counter_init (cn : string) : string := cn +:+ " <= 0;".
Definition counter_text (d cn : string) (mx : Z) : string :=
  "if ( " +:+ d +:+ " ) begin " +:+ nl +:+ "           " +:+ cn +:+ " <= 1; end" +:+ nl +:+
  "       " +:+ "else if( " +:+ ("(" +:+ cn +:+ " >= 1 ) && ( " +:+ cn +:+ " < " +:+ toStr mx +:+ " )") +:+ ") begin" +:+ nl +:+
  "           " +:+ cn +:+ " <= " +:+ cn +:+ " + 1; end".
Definition updates (d : string) (l : list (string * string)) : list (string * string * string) := (fun p => (d, p.1 +:+ " <= " +:+ p.2, "")) <$> l.
(** What the generator has when the block is printed. *)
Record clock_state (g : VlgGen) (clk rst start valid d cn : string) (mx : Z) (ups : list (string * string)) : Prop := {
  cs_names : clkName (names g) = clk /\ rstName (names g) = rst /\ validName (names g) = valid;
  cs_start : if start_signal (cfg_ g) then startName (names g) = start /\ word start = true else start = "";
  cs_inits : init_stmts (body g) = [counter_init cn];
  cs_always : always_stmts (body g) = [counter_text d cn mx];
  cs_ites : ite_stmts (body g) = updates d ups;
  cs_words : Forall (fun n => word n = true) [clk; rst; valid; d; cn];
  cs_ups : Forall (fun p => (word p.1 = true /\ atom p.1 = EName p.1 /\ keyword p.1 = false) /\ word p.2 = true) ups;
  cs_counter : keyword cn = false /\ 0 <= mx }.

Lemma concat_map_cons {A} (f : A -> string) x l : concat_map f (x :: l) = f x +:+ concat_map f l.
Proof. unfold concat_map. cbn [fmap list_fmap String.concat]. destruct (f <$> l) as [|y r] eqn:E; [by rewrite str_app_nil|done]. Qed.
(** One piece of text at a time. *)
Ltac lex_step := first
  [ rewrite lex_end by reflexivity
  | rewrite lex_start by reflexivity ].
Ltac lex_text := rewrite <- ?str_app_assoc; repeat lex_step;
  repeat match goal with H : word ?a = true |- context [lex "" ?a] => rewrite (lex_word a H) end.
Lemma lex_updates d ups : word d = true -> Forall (fun p => word p.1 = true /\ word p.2 = true) ups ->
  lex "" (concat_map dump_ite (updates d ups)) = mjoin (update_toks d <$> ups).
Proof.
  intros Hd. induction 1 as [|[m r] ups [Hm Hr] _ IH]; [done|]. unfold updates. cbn [fmap list_fmap]. fold (updates d ups). rewrite concat_map_cons.
  cbn [dump_ite fst snd]. change (String.eqb "" "") with true. cbv beta iota. cbn [fst snd] in *. rewrite str_app_nil. lex_text. rewrite IH.
  reflexivity.
Qed.
Lemma lex_counter d cn mx : word d = true -> word cn = true -> 0 <= mx -> lex "" (counter_text d cn mx) = counter_toks d cn mx.
Proof.
  intros Hd Hc Hm. pose proof (toStr_word mx Hm). unfold counter_text. lex_text. reflexivity.
Qed.
Definition clocked_toks (rst start valid d cn : string) (mx : Z) (ups : list (string * string)) : list tok :=
  TW "begin" ::
    (TW "if" :: TS "(" :: [TW rst] ++ TS ")" :: assign_toks cn [TW "0"] ++ TW "else" ::
     TW "if" :: TS "(" :: guard_toks start valid ++ TS ")" ::
     TW "begin" :: (counter_toks d cn mx ++ mjoin (update_toks d <$> ups)) ++ [TW "end"]) ++ [TW "end"].
Section block.
Context (g : VlgGen) (clk rst start valid d cn : string) (mx : Z) (ups : list (string * string)).
Context (Hg : clock_state g clk rst start valid d cn mx ups).
Lemma lex_block : lex "" (dump_always g) = [TW "always"; TS "@"; TS "("; TW "posedge"; TW clk; TS ")"] ++ clocked_toks rst start valid d cn mx ups.
Proof using Hg.
  destruct Hg as [(E1 & E2 & E3) Hs E4 E5 E6 Hw Hu [_ Hm]]. unfold dump_always. rewrite E1, E2, E3, E4, E5, E6. cbv beta iota zeta. cbn [concat_map fmap list_fmap String.concat].
  rewrite !Forall_cons in Hw. destruct Hw as (Hck & Hrs & Hv & Hd & Hc & _).
  assert (Hu' : Forall (fun p => word p.1 = true /\ word p.2 = true) ups) by (eapply Forall_impl; [exact Hu|naive_solver]).
  assert (valid <> "") as Hne by (by intros ->). rewrite (proj2 (String.eqb_neq valid "")) by done.
  unfold counter_init, clocked_toks, guard_toks. destruct (start_signal (cfg_ g)).
  - destruct Hs as [-> Hs]. assert (start <> "") as Hns by (by intros ->). rewrite (proj2 (String.eqb_neq start "")) by done.
    lex_text. rewrite lex_counter, lex_updates by done. cbn [assign_toks app]. rewrite <- !app_assoc. reflexivity.
  - subst start. change (String.eqb "" "") with true. cbv beta iota. lex_text. rewrite lex_counter, lex_updates by done. cbn [assign_toks app]. rewrite <- !app_assoc. reflexivity.
Qed.
Lemma read_block : read_always (dump_always g) = Some (clk, clocked rst start valid d cn mx ups).
Proof using Hg.
  unfold read_always. rewrite lex_block. cbn [app String.eqb Ascii.eqb Bool.eqb andb]. destruct Hg as [_ _ _ _ _ _ Hu [Hc _]].
  assert (Hu' : Forall (fun p => keyword p.1 = false) ups) by (eapply Forall_impl; [exact Hu|naive_solver]).
  assert (reads_body (clocked_toks rst start valid d cn mx ups) (clocked rst start valid d cn mx ups)) as [_ H].
  { apply stmt_block. rewrite <- (app_nil_r (TW "if" :: _)). apply block_cons; [|apply block_nil].
    apply stmt_if_else; [apply cond_word|apply read_assign_block; [done|apply rhs_word]|].
    apply stmt_if; [apply read_guard|]. apply body_stmt, stmt_block, block_cons; [by apply read_counter|by apply read_updates]. }
  rewrite <- (app_nil_r (clocked_toks _ _ _ _ _ _ _)) at 2. by rewrite H by lia.
Qed.
End block.

(** ** What the block does *)
Section exec.
Context (Σ : VlgSigs) (V : vval).
Lemma truth_sig s b : is_sig Σ V s 1 (bit b) -> truth Σ V (atom s) = Some b.
Proof using Type. intros [_ _ _ Hs Hu He]. unfold truth. rewrite Hs. cbn [mbind option_bind]. rewrite Hu, He. cbn [mbind option_bind]. by destruct b. Qed.
(** Both branches of a condition leave the same. *)
Lemma exec_same n c t f cur x : exec_stmt Σ V n t cur = Some x -> exec_stmt Σ V n f cur = Some x -> exec_stmt Σ V n (SIf c t f) cur = Some x.
Proof using Type. intros Ht Hf. cbn [exec_stmt]. destruct (truth Σ V c) as [[]|]; [done|done|]. rewrite Ht, Hf. cbn [mbind option_bind]. by rewrite Z.eqb_refl. Qed.
Lemma exec_other n m e cur : atom m = EName m -> m <> n -> exec_stmt Σ V n (SSeq (SAssign (atom m) e) SSkip) cur = Some cur.
Proof using Type. intros Ha Hn. cbn [exec_stmt]. rewrite Ha. by rewrite (proj2 (String.eqb_neq m n)). Qed.
Lemma exec_counter n d cn mx cur : atom cn = EName cn -> cn <> n -> exec_stmt Σ V n (counter_stmt d cn mx) cur = Some cur.
Proof using Type. intros Ha Hn. apply exec_same; [by apply exec_other|]. apply exec_same; [by apply exec_other|done]. Qed.

Context (d : string) (b : bool) (Hd : is_sig Σ V d 1 (bit b)).
Lemma exec_update n cur m r : atom m = EName m -> exec_stmt Σ V n (update_stmt d (m, r)) cur =
  if b && String.eqb m n then w ← width_of Σ n; assigned Σ V w (atom r) else Some cur.
Proof using Hd.
  intros Ha. unfold update_stmt. cbn [exec_stmt fst snd]. rewrite (truth_sig d b Hd), Ha. destruct b; [|done]. cbn [andb].
  destruct (String.eqb m n); [|done]. destruct (width_of Σ n) as [w|]; [|done]. cbn [mbind option_bind]. by destruct (assigned Σ V w (atom r)).
Qed.
Lemma exec_others l n cur : Forall (fun p => atom p.1 = EName p.1) l -> n ∉ l.*1 -> exec_stmt Σ V n (updates_stmt d l) cur = Some cur.
Proof using Hd.
  induction 1 as [|[m r] l Ha _ IH]; intros Hn; [done|]. cbn [updates_stmt foldr fmap list_fmap fst exec_stmt] in *. apply not_elem_of_cons in Hn as [Hne Hn].
  change (exec_stmt Σ V n (update_stmt d (m, r)) cur ≫= (fun x => exec_stmt Σ V n (updates_stmt d l) x) = Some cur).
  rewrite exec_update by done. rewrite (proj2 (String.eqb_neq m n)), andb_false_r by congruence. by apply IH.
Qed.
Lemma exec_updates l n r w x cur : Forall (fun p => atom p.1 = EName p.1) l -> NoDup l.*1 -> (n, r) ∈ l ->
  width_of Σ n = Some w -> is_sig Σ V r w x -> exec_stmt Σ V n (updates_stmt d l) cur = Some (if b then x else cur).
Proof using Hd.
  intros Hl Hn Hin Hw Hx. induction Hl as [|[m r'] l Ha Hl IH]; [by apply elem_of_nil in Hin|].
  cbn [updates_stmt foldr fmap list_fmap fst exec_stmt] in *. apply NoDup_cons in Hn as [Hm Hn]. fold (updates_stmt d l).
  rewrite exec_update by done. apply elem_of_cons in Hin as [[= <- <-]|Hin].
  - rewrite String.eqb_refl, andb_true_r, Hw. cbn [mbind option_bind]. pose proof (gives_atom _ _ _ _ _ Hx) as Hgx. unfold gives in Hgx. rewrite Hgx.
    pose proof (fun cur => exec_others l n cur Hl Hm) as Ho. by destruct b; cbn [mbind option_bind].
  - assert (m <> n) as Hne. { intros ->. apply Hm, list_elem_of_fmap. by exists (n, r). }
    rewrite (proj2 (String.eqb_neq m n)), andb_false_r by done. by apply IH.
Qed.
(** A register of the model at a clock edge. *)
Lemma edge_register rst start valid cn mx l n r w x br bs bv : let go := negb br && (String.eqb start "" || bs) && bv in
  is_sig Σ V rst 1 (bit br) -> (start <> "" -> is_sig Σ V start 1 (bit bs)) -> is_sig Σ V valid 1 (bit bv) ->
  atom cn = EName cn -> cn <> n -> Forall (fun p => atom p.1 = EName p.1) l -> NoDup l.*1 -> (n, r) ∈ l ->
  width_of Σ n = Some w -> is_sig Σ V r w x ->
  after_edge Σ V (clocked rst start valid d cn mx l) n = Some (if go && b then x else v_sig V n).
Proof using Hd.
  intros go Hr Hs Hv Ha Hc Hl Hn Hin Hw Hx. unfold after_edge. set (cur := v_sig V n).
  assert (Hg : truth Σ V (guard start valid) = Some ((String.eqb start "" || bs) && bv)).
  { unfold guard. destruct (String.eqb_spec start "") as [->|Hne]; [by apply truth_sig|]. specialize (Hs Hne). destruct Hs as [_ _ _ S1 S2 S3], Hv as [_ _ _ V1 V2 V3].
    unfold truth. cbn [vsize vsigned veval]. change (arith "&&") with false. change (shift "&&") with false. change (compare "&&") with false.
    cbv iota. rewrite S1, V1. cbn [mbind option_bind]. rewrite S2, V2, S3, V3. cbn [mbind option_bind]. by destruct bs, bv. }
  assert (exec_stmt Σ V n (SSeq (counter_stmt d cn mx) (updates_stmt d l)) cur = Some (if b then x else cur)) as Hb.
  { cbn [exec_stmt]. change (exec_stmt Σ V n (counter_stmt d cn mx) cur ≫= (fun y => exec_stmt Σ V n (updates_stmt d l) y) = Some (if b then x else cur)).
    rewrite exec_counter by done. cbn [mbind option_bind]. by eapply exec_updates. }
  unfold clocked. cbn [exec_stmt]. rewrite (truth_sig rst br Hr), Hg. unfold go. destruct br.
  - rewrite Ha, (proj2 (String.eqb_neq cn n)) by done. done.
  - cbn [negb andb]. destruct (_ && bv); [|done]. cbn [exec_stmt] in Hb. by rewrite Hb.
Qed.
End exec.
