(* ===== verification/VlgInstr.v ===== *)
(** * Correctness of an exported instruction

    [ExportTopLevelInstr] of [Verilog] on an instruction whose model has Boolean
    and vector states: the valid and the decode signal have the values of the
    conditions, and at a clock edge every register takes the value of its update
    when the module is not in reset, is started, and the instruction is valid and
    decoded; it keeps its value otherwise. *)
From S2P Require Import Prelude Sort Values Container Expr World ExprOp AstHub McmAst StrUtil Verilog VlgSem VlgText VlgOps VlgSpec VlgTrans VlgDecl VlgClock.
Local Open Scope Z_scope.

Section instr.
Context {L : Layout} (T : gmap objid Expr) (known : Hdr -> Prop).
Abbreviation inv := (vlg_inv T known).
Abbreviation denotes := (VlgSpec.denotes known).

(** ** Changes that keep the invariant *)
Definition clock_names (m : VlgNames) : string * string * string := (clkName m, rstName m, startName m).
(** The statements of the clocked block. *)
Definition block_of (g : VlgGen) : list string * list string * list (string * string * string) :=
  (init_stmts (body g), always_stmts (body g), ite_stmts (body g)).
Lemma grown_block g g' : grown g g' -> block_of g' = block_of g.
Proof using Type. intros []. unfold block_of. congruence. Qed.
Record kept (g g' : VlgGen) : Prop := {
  kp_sigs : sigs_le (sigs g) (sigs g');
  kp_stmts : statements (body g) `prefix_of` statements (body g');
  kp_cfg : cfg_ g' = cfg_ g;
  kp_funcs : func_ptr_set (maps g') = func_ptr_set (maps g);
  kp_clock : clock_names (names g') = clock_names (names g);
  kp_valid : validName (names g) <> "" -> validName (names g') = validName (names g) }.
#[export] Instance kept_preorder : PreOrder kept.
Proof.
  split; [intros g; by split|]. intros a b c [] []. split; try congruence; try by etrans.
  intros Hv. rewrite kp_valid1; [auto|]. by rewrite kp_valid0.
Qed.
Lemma grown_kept g g' : grown g g' -> kept g g'.
Proof using Type. intros H. pose proof (gr_names _ _ H) as En. destruct H. split; try done; by rewrite En. Qed.
Lemma denotes_kept g g' e s : kept g g' -> denotes g e s -> denotes g' e s.
Proof using Type. intros []. by apply denotes_grown. Qed.
(** Other declarations and other statements. *)
Lemma inv_other g g' : inv g -> cfg_ g' = cfg_ g -> reference_name_set g' = reference_name_set g -> nmap (maps g') = nmap (maps g) ->
  cmap (maps g') = cmap (maps g) -> statements (body g') = statements (body g) -> sigs_le (sigs g) (sigs g') ->
  (forall k s, (idCounter (maps g') <= k)%N -> uses k s ->
     wires (sigs g') !! s = None /\ width_of (sigs g') s = None /\ mems_internal (sigs g') !! s = None) -> inv g'.
Proof using Type.
  intros [H1 H2 H3 H4 H5 H6 H7 H8] Ec Er En Em Es Hle Hf.
  assert (Hp : statements (body g) `prefix_of` statements (body g')) by (by rewrite Es).
  split; [congruence|congruence|done| | | | |].
  - intros i s Hi. rewrite En in Hi. destruct (H4 i s Hi) as (e & He & Hd). exists e. split; [done|]. by eapply denotes_grown.
  - intros w n s Hc. rewrite Em in Hc. destruct (H5 w n s Hc) as [Hw Hc']. split; [done|]. intros Σ V HV. apply Hc'. by eapply valuation_grown.
  - intros h Hh. eapply declares_grown; [done|by apply H6].
  - rewrite Es. eapply Forall_impl; [exact H7|]. intros st. by apply readable_le.
  - intros ρ Hρ. destruct (H8 ρ Hρ) as (V & Hk & Hr). exists V. split; [done|]. rewrite Es. unfold respects in *.
    apply Forall_forall. intros st Hst. rewrite Forall_forall in Hr, H7. by eapply (stmt_holds_le (sigs g) (sigs g') V V); [|done|done|apply H7|apply Hr].
Qed.
Lemma inv_same g g' : inv g -> cfg_ g' = cfg_ g -> reference_name_set g' = reference_name_set g -> maps g' = maps g ->
  statements (body g') = statements (body g) -> wires (sigs g') = wires (sigs g) -> regs (sigs g') = regs (sigs g) ->
  mems_internal (sigs g') = mems_internal (sigs g) -> mems_external (sigs g') = mems_external (sigs g) -> inv g'.
Proof using Type.
  intros Hg Ec Er Em Es Ew Ere Ei Ee. assert (Hw : forall n, width_of (sigs g') n = width_of (sigs g) n) by (intros n; unfold width_of; by rewrite Ew, Ere).
  apply (inv_other g); try congruence.
  - split; congruence.
  - intros k s Hk Hs. rewrite Hw, Ew, Ei. rewrite Em in Hk. by apply (iv_fresh _ _ _ Hg k).
Qed.

(** *** Signals that are outputs *)
Lemma name_text g e s : denotes g e s -> wt e = true -> scalar e = true -> text_of known g e s.
Proof using Type.
  intros Hd Hw Hs Σ V ρ HV Hρ Hk. destruct (named_value known g e s Σ V ρ Hw Hd HV Hρ Hk) as (v & Hv & Hvs & Hsig).
  exists v, (atom s). split_and!; [done|done|apply read_name, Hd|]. unfold scalar in Hs. destruct (Exprs.sort e); try done.
  - apply has_sort_bool in Hvs as [b ->]. by apply gives_atom.
  - apply has_sort_bv in Hvs as (n & -> & _). apply gives_atom, Hsig.
Qed.
Definition add_out (v s : string) (g : VlgGen) : VlgGen :=
  let g' := new_wire (idCounter (maps g)) v 1 s g in with_sigs g' (set_outputs (sigs g') (<[v := 1]> (outputs (sigs g')))).
Record output_name (g : VlgGen) (v : string) : Prop := {
  on_new : new_name g (idCounter (maps g)) v;
  on_out : outputs (sigs g) !! v = None }.
Lemma output_run {A} v s g (k : G A) : output_name g v -> (add_wire v 1;; add_output v 1;; add_assign_stmt v s;; k) g = k (add_out v s g).
Proof using Type.
  intros [[_ Hw _ _ _ _ _] Ho]. unfold add_wire, add_wire_keep, add_output, check_redeclare, on_sigs, modify, insert_new, get, mbind, ST_bind.
  rewrite Hw. cbn [lift mbind Res_bind with_sigs sigs set_wires outputs]. rewrite Hw, Ho. cbn [lift mbind Res_bind with_sigs sigs set_wires outputs].
  rewrite Ho. unfold add_assign_stmt, add_stmt, on_body, modify. unfold add_out, new_wire. destruct g as [? [] [] [] ? ? ? ?]. done.
Qed.
Lemma output_inv v s g e : inv g -> output_name g v -> denotes g e s -> wt e = true -> Exprs.sort e = SortBool ->
  inv (add_out v s g) /\ kept g (add_out v s g) /\ denotes (add_out v s g) e v.
Proof using L.
  intros Hg [Hn Ho] Hd Hw Es. assert (Hsc : scalar e = true) by (unfold scalar; by rewrite Es).
  assert (Hwd : get_width e = Ok 1) by (unfold get_width; by rewrite Es). pose proof (name_text g e s Hd Hw Hsc) as Ht.
  pose proof (new_wire_inv T known _ v 1 s g _ Hg Hn (text_defines known g e 1 s Hsc Hwd Ht)) as Hg'.
  split_and!.
  - by apply (inv_same _ _ Hg').
  - split; [|apply new_wire_prefix|done..]. pose proof (new_wire_le _ v 1 s g Hn) as [H1 H2 H3]. by split.
  - assert (Hd' := wire_denotes T known e _ v 1 s g Hg Hn Hsc Hwd Ht). split; [apply Hd'|]. intros Σ V ρ [Hle Hr]. apply Hd'. split; [|exact Hr].
    destruct Hle as [H1 H2 H3]. by split.
Qed.

(** *** The counter *)
Lemma counter_name (k : N) cn : cn = "__COUNTER_start__" +:+ "n" +:+ pretty k -> generated cn = true /\ word cn = true /\ atom cn = EName cn /\ keyword cn = false.
Proof using Type.
  intros ->. split_and!.
  - apply (uses_generated k). exists "__COUNTER_start__". split; [done|right; by exists "__COUNTER_start_"].
  - apply word_intro; [done|done|]. change (word_chars ("_COUNTER_start__n" +:+ pretty k) = true). rewrite word_chars_app.
    by rewrite (digits_word_chars _ (pretty_N_digits k)).
  - done.
  - apply bool_decide_eq_false. intros H. repeat (apply elem_of_cons in H as [H|H]; [discriminate H|]). by apply elem_of_nil in H.
Qed.
Lemma counter_run d w g : inv g -> exists g', addInternalCounter d w g = Ok (tt, g') /\ inv g' /\ kept g g' /\
  exists cn, generated cn = true /\ word cn = true /\ atom cn = EName cn /\ keyword cn = false /\
  block_of g' = (init_stmts (body g) ++ [counter_init cn], always_stmts (body g) ++ [counter_text d cn (2 ^ w - 1)], ite_stmts (body g)).
Proof using L.
  intros Hg. set (k := idCounter (maps g)). set (cn := "__COUNTER_start__" +:+ "n" +:+ pretty k).
  assert (Hu : uses k cn) by (exists "__COUNTER_start__"; split; [done|right; by exists "__COUNTER_start_"]).
  destruct (iv_fresh _ _ _ Hg k cn ltac:(unfold k; lia) Hu) as (Hw & Hwd & Hm). pose proof (counter_name k cn eq_refl) as Hcn.
  cbv beta iota zeta delta [addInternalCounter new_id get mbind ST_bind mret ST_ret on_maps on_names on_sigs on_body modify add_reg add_init_stmt add_always_stmt].
  eexists. split; [reflexivity|].
  match goal with |- inv ?g' /\ _ => set (g1 := g') end.
  assert (Hwid : forall m, width_of (sigs g1) m = if decide (m = cn) then Some w else width_of (sigs g) m) by (intros m; by apply width_reg).
  assert (Hle : sigs_le (sigs g) (sigs g1)).
  { split; try done. intros m w' Hm'. rewrite Hwid. rewrite decide_False; [done|]. intros ->. congruence. }
  split_and!; [|by split|exists cn; destruct Hcn as (? & ? & ? & ?); split_and!; [done|done|done|done|reflexivity]].
  apply (inv_other g g1); try done. intros k' s Hk Hs. change (idCounter (maps g1)) with (k + 1)%N in Hk. rewrite Hwid.
  destruct (iv_fresh _ _ _ Hg k' s ltac:(unfold k in *; lia) Hs) as (? & ? & ?). rewrite decide_False; [done|].
  intros ->. pose proof (uses_inj _ _ _ Hs Hu). lia.
Qed.

(** *** Conditions and updates *)
Definition expr_ok (e : Expr) : Prop := registered T e /\ wt e = true /\ supported known e.
Lemma parse_run {A} e g (k : string -> G A) : inv g -> expr_ok e -> exists g' s, (ParseNonMemUpdateExpr e;; s ← getVlgFromExpr e; k s) g = k s g' /\
  inv g' /\ grown g g' /\ denotes g' e s.
Proof using L.
  intros Hg (Hr & Hw & Hs). destruct (translates_all T known e g Hg Hr Hw Hs) as (g' & Hrun & Hg' & Hgr & s & Hn & Hd).
  exists g', s. split_and!; try done. rewrite (ST_bind_run _ _ _ _ _ Hrun).
  assert (getVlgFromExpr e g' = Ok (s, g')) as E.
  { change (lift (match nmap (maps g') !! Exprs.id e with Some n => Ok n | None => Fail EAssert end) g' = Ok (s, g')). by rewrite Hn. }
  by rewrite (ST_bind_run _ _ _ _ _ E).
Qed.
Definition update_of (x : Instr) (var : Expr) : Expr := default var (Instrs.update x (Exprs.name var)).
Record var_ok (x : Instr) (var : Expr) : Prop := {
  vo_decl : declarable var = true;
  vo_scalar : scalar var = true;
  vo_update : expr_ok (update_of x var);
  vo_sort : Exprs.sort (update_of x var) = Exprs.sort var }.
Lemma update_run x d dn var w g : inv g -> collect_ite_unknown_update (cfg_ g) = false -> var_ok x var ->
  exists g' r, export_update x d dn var () (w, g) = Ok (tt, (w, g')) /\ inv g' /\ kept g g' /\ denotes g' (update_of x var) r /\
  block_of g' = (init_stmts (body g), always_stmts (body g), ite_stmts (body g) ++ [(dn, Exprs.name var +:+ " <= " +:+ r, "")]).
Proof using L.
  intros Hg Hc [Hd Hs He _]. destruct (parse_run (update_of x var) g (fun r => n ← sanitizeName_e var; add_ite_stmt dn (n +:+ " <= " +:+ r) "") Hg He)
    as (g1 & r & Hrun & Hg1 & Hgr & Hden).
  rewrite (ST_bind_run _ _ _ _ _ (sanitize_var _ _ Hd)) in Hrun.
  set (g2 := with_body g1 {| init_stmts := init_stmts (body g1); statements := statements (body g1); always_stmts := always_stmts (body g1);
     ite_stmts := ite_stmts (body g1) ++ [(dn, Exprs.name var +:+ " <= " +:+ r, "")]; preheader := preheader (body g1) |}).
  exists g2, r. split_and!.
  - assert (Hnm : Exprs.is_mem var = false) by (unfold Exprs.is_mem, scalar in *; by destruct (Exprs.sort var)).
    unfold export_update. rewrite Hnm. fold (update_of x var). rewrite (ST_bind_run _ _ _ tt (w, g2)); [|by apply on_gen_run].
    apply on_gen_run. unfold export_unknown, mbind at 1, ST_bind at 1, get at 1.
    assert (collect_ite_unknown_update (cfg_ g2) = false) as ->; [|done]. change (cfg_ g2) with (cfg_ g1). by rewrite (gr_cfg _ _ Hgr).
  - by apply (inv_same g1).
  - etrans; [by apply grown_kept|]. by split.
  - exact Hden.
  - unfold block_of. cbn [g2 with_body body ite_stmts init_stmts always_stmts]. by rewrite (gr_ites _ _ Hgr), (gr_inits _ _ Hgr), (gr_always _ _ Hgr).
Qed.
Definition results (g : VlgGen) (x : Instr) (l : list Expr) (ups : list (string * string)) : Prop :=
  Forall2 (fun v p => p.1 = Exprs.name v /\ denotes g (update_of x v) p.2) l ups.
Lemma updates_run x d dn w l : forall g, inv g -> collect_ite_unknown_update (cfg_ g) = false -> Forall (var_ok x) l ->
  exists g' ups, foldM (export_update x d dn) l () (w, g) = Ok (tt, (w, g')) /\ inv g' /\ kept g g' /\ results g' x l ups /\
  block_of g' = (init_stmts (body g), always_stmts (body g), ite_stmts (body g) ++ updates dn ups).
Proof using L.
  induction l as [|v l IH]; intros g Hg Hc Hl.
  { exists g, []. split_and!; [done|done|done|constructor|by unfold block_of; rewrite app_nil_r]. }
  apply Forall_cons in Hl as [Hv Hl]. destruct (update_run x d dn v w g Hg Hc Hv) as (g1 & r & Hrun & Hg1 & Hk1 & Hd1 & Hi1).
  destruct (IH g1 Hg1 ltac:(by rewrite (kp_cfg _ _ Hk1)) Hl) as (g2 & ups & Hrun2 & Hg2 & Hk2 & Hr2 & Hi2).
  exists g2, ((Exprs.name v, r) :: ups). split_and!; [|done|by etrans| |].
  - cbn [foldM]. by rewrite (ST_bind_run _ _ _ _ _ Hrun).
  - constructor; [|done]. split; [done|]. by eapply denotes_kept.
  - unfold block_of in Hi1. injection Hi1 as E1 E2 E3. by rewrite Hi2, E1, E2, E3, <- app_assoc.
Qed.

(** *** The conditions of the instruction *)
Lemma gen_at_last b s : gen_at b (s +:+ "_") = false.
Proof using Type.
  revert b. induction s as [|c s IH]; intros b; [by destruct b|]. change (String c s +:+ "_") with (String c (s +:+ "_")). cbn [gen_at]. rewrite IH, orb_false_r.
  assert (digits (s +:+ "_") = false) as ->; [|by rewrite !andb_false_r].
  clear. induction s as [|a s IH]; [done|]. change (String a s +:+ "_") with (String a (s +:+ "_")). cbn [digits]. by rewrite IH, andb_false_r.
Qed.
Definition valid_name (l : InstrLvlAbs) : string := "__ILA_" +:+ l_name l +:+ "_valid__".
Definition decode_name (l : InstrLvlAbs) (x : Instr) : string := "__ILA_" +:+ l_name l +:+ "_decode_of_" +:+ i_name x +:+ "__".
Lemma name_ok_chars s : name_ok s = true -> word_chars s = true.
Proof using Type. intros [H _]%name_ok_word. unfold word in H. by apply andb_true_iff in H as [_ H]. Qed.
Lemma ila_word s : word_chars s = true -> word ("__ILA_" +:+ s) = true /\ atom ("__ILA_" +:+ s) = EName ("__ILA_" +:+ s).
Proof using Type. intros H. split; [|done]. apply word_intro; [done|done|]. by change (word_chars ("_ILA_" +:+ s) = true); rewrite word_chars_app, H. Qed.
Lemma valid_name_ok l : name_ok (l_name l) = true -> generated (valid_name l) = false /\ word (valid_name l) = true /\ atom (valid_name l) = EName (valid_name l).
Proof using Type.
  intros H%name_ok_chars. split; [|apply ila_word; by rewrite word_chars_app, H].
  unfold generated, valid_name. change "_valid__" with ("_valid_" +:+ "_"). rewrite !str_app_assoc. apply gen_at_last.
Qed.
Lemma decode_name_ok l x : name_ok (l_name l) = true -> name_ok (i_name x) = true ->
  generated (decode_name l x) = false /\ word (decode_name l x) = true /\ atom (decode_name l x) = EName (decode_name l x).
Proof using Type.
  intros H%name_ok_chars H'%name_ok_chars. split; [|apply ila_word; by rewrite !word_chars_app, H, H'].
  unfold generated, decode_name. change "__" with ("_" +:+ "_"). rewrite !str_app_assoc. apply gen_at_last.
Qed.
Lemma names_differ l x : decode_name l x <> valid_name l.
Proof using Type. unfold decode_name, valid_name. intros E. apply (inj (String.append "__ILA_")), (inj (String.append (l_name l))) in E. discriminate E. Qed.

(** A name that is still free. *)
Record free (g : VlgGen) (n : string) : Prop := {
  fr_gen : generated n = false;
  fr_wire : wires (sigs g) !! n = None;
  fr_width : width_of (sigs g) n = None;
  fr_mem : mems_internal (sigs g) !! n = None;
  fr_out : outputs (sigs g) !! n = None }.
Lemma free_grown g g' n : grown g g' -> free g n -> free g' n.
Proof using Type.
  intros Hgr []. split; [done|by rewrite (gr_wire _ _ Hgr)|by rewrite (gr_width _ _ Hgr)|by rewrite (le_internal _ _ (gr_sigs _ _ Hgr))|by rewrite (gr_outputs _ _ Hgr)].
Qed.
Lemma free_output g n : free g n -> word n = true -> atom n = EName n -> output_name g n.
Proof using Type. intros [] Hw Ha. split; [|done]. split; try done. intros k' Hu%uses_generated. congruence. Qed.
Lemma free_add_out g v s n : n <> v -> free g n -> free (add_out v s g) n.
Proof using Type.
  intros Hne []. split; try done; cbn [add_out with_sigs sigs set_outputs new_wire set_wires wires outputs].
  - by rewrite lookup_insert_ne.
  - etrans; [|exact fr_width0]. unfold width_of. cbn [set_outputs set_wires regs wires]. case_match; [done|]. by apply lookup_insert_ne.
  - by rewrite lookup_insert_ne.
Qed.
Lemma output_last v s g : output_name g v -> (add_wire v 1;; add_output v 1;; add_assign_stmt v s) g = Ok (tt, add_out v s g).
Proof using Type.
  intros Ho. pose proof (output_run v s g (mret ()) Ho) as H. unfold mbind, ST_bind in *. destruct (add_wire v 1 g) as [[[] g1]|]; [|done].
  destruct (add_output v 1 g1) as [[[] g2]|]; [|done]. by destruct (add_assign_stmt v s g2) as [[[] g3]|].
Qed.
(** A condition that is translated becomes an output. *)
Lemma output_done e v s g g' N : inv g' -> grown g g' -> denotes g' e s -> wt e = true -> Exprs.sort e = SortBool ->
  free g v -> word v = true -> atom v = EName v -> clock_names N = clock_names (names g) -> (validName (names g) <> "" -> validName N = validName (names g)) ->
  let g2 := with_names g' N in
  output_name g2 v /\ inv (add_out v s g2) /\ kept g (add_out v s g2) /\ denotes (add_out v s g2) e v /\
  (forall n, n <> v -> free g n -> free (add_out v s g2) n) /\ block_of (add_out v s g2) = block_of g.
Proof using L.
  intros Hg' Hgr Hd Hwt Es Hf Hw Ha HN HvN g2. assert (Hg2 : inv g2) by (by apply (inv_same g')).
  assert (Hf2 : forall n, free g n -> free g2 n) by (intros n Hn; by destruct (free_grown _ _ _ Hgr Hn)).
  pose proof (free_output _ _ (Hf2 _ Hf) Hw Ha) as Ho. destruct (output_inv v s g2 e Hg2 Ho Hd Hwt Es) as (H1 & H2 & H3).
  split_and!; try done; [| |by apply (grown_block g g')].
  - pose proof (gr_names _ _ Hgr) as En. etrans; [by apply grown_kept|]. etrans; [|exact H2]. split; try done; cbn [g2 with_names names]; by rewrite En.
  - intros n Hne Hn. apply free_add_out; auto.
Qed.
Lemma export_valid_run l vd w g : inv g -> valid_ l = Some vd -> expr_ok vd -> Exprs.sort vd = SortBool -> name_ok (l_name l) = true ->
  validName (names g) = "" -> free g (valid_name l) -> exists g', export_valid l (w, g) = Ok (tt, (w, g')) /\
  inv g' /\ kept g g' /\ denotes g' vd (valid_name l) /\ (forall n, n <> valid_name l -> free g n -> free g' n) /\ block_of g' = block_of g /\
  validName (names g') = valid_name l.
Proof using L.
  intros Hg Hv He Es Hn Hvn Hf. destruct (valid_name_ok l Hn) as (_ & Hw & Ha).
  destruct (parse_run vd g (fun s => g ← get;
    (if String.eqb (validName (names g)) "" then n ← sanitizeName (l_name l); on_names (fun m => set_valid m ("__ILA_" +:+ n +:+ "_valid__")) else mret ());;
    g ← get; let v := validName (names g) in add_wire v 1;; add_output v 1;; add_assign_stmt v s) Hg He) as (g1 & s & Hrun & Hg1 & Hgr & Hd).
  destruct (output_done vd _ s g g1 (set_valid (names g1) (valid_name l)) Hg1 Hgr Hd (proj1 (proj2 He)) Es Hf Hw Ha)
    as (Ho & H1 & H2 & H3 & H4 & H5); [by rewrite (gr_names _ _ Hgr)|done|].
  exists (add_out (valid_name l) s (with_names g1 (set_valid (names g1) (valid_name l)))). split; [|by split_and!].
  unfold export_valid, or_true. rewrite Hv. rewrite (ST_bind_run _ _ _ vd (w, g)) by done. apply on_gen_run. etrans; [exact Hrun|].
  unfold mbind at 1, ST_bind at 1, get at 1.
  assert (validName (names g1) = "") as -> by (by rewrite (gr_names _ _ Hgr)). change (String.eqb "" "") with true. cbv beta iota.
  rewrite (ST_bind_run _ _ _ tt (with_names g1 (set_valid (names g1) (valid_name l)))).
  - exact (output_last _ s _ Ho).
  - by rewrite (ST_bind_run _ _ _ _ _ (sanitizeName_ok _ _ Hn)).
Qed.
Lemma export_decode_run l x d w g : inv g -> expr_ok d -> Exprs.sort d = SortBool -> name_ok (l_name l) = true -> name_ok (i_name x) = true ->
  free g (decode_name l x) -> exists g', export_decode l x d (w, g) = Ok (decode_name l x, (w, g')) /\
  inv g' /\ kept g g' /\ denotes g' d (decode_name l x) /\ block_of g' = block_of g.
Proof using L.
  intros Hg He Es Hn Hi Hf. destruct (decode_name_ok l x Hn Hi) as (_ & Hw & Ha).
  destruct (parse_run d g (fun s => n ← sanitizeName (l_name l); i ← sanitizeName (i_name x);
    let decodeName := "__ILA_" +:+ n +:+ "_decode_of_" +:+ i +:+ "__" in
    on_names (fun m => add_decode m decodeName);; add_wire decodeName 1;; add_output decodeName 1;; add_assign_stmt decodeName s;; mret decodeName)
    Hg He) as (g1 & s & Hrun & Hg1 & Hgr & Hd).
  destruct (output_done d _ s g g1 (add_decode (names g1) (decode_name l x)) Hg1 Hgr Hd (proj1 (proj2 He)) Es Hf Hw Ha)
    as (Ho & H1 & H2 & H3 & _ & H5); [by rewrite (gr_names _ _ Hgr)|cbn; by rewrite (gr_names _ _ Hgr)|].
  exists (add_out (decode_name l x) s (with_names g1 (add_decode (names g1) (decode_name l x)))). split; [|by split_and!]. unfold export_decode. apply on_gen_run. etrans; [exact Hrun|].
  rewrite (ST_bind_run _ _ _ _ _ (sanitizeName_ok _ _ Hn)), (ST_bind_run _ _ _ _ _ (sanitizeName_ok _ _ Hi)). cbv zeta.
  fold (decode_name l x). rewrite (ST_bind_run _ _ _ tt (with_names g1 (add_decode (names g1) (decode_name l x)))) by done.
  by rewrite (output_run _ s _ _ Ho).
Qed.
End instr.

(** ** The instruction *)
(** An instruction of a model with Boolean and vector states; its conditions are
    set, the names of the valid and the decode signal are free, the clock and the
    reset have plain names and no state has the name of a keyword. *)
Record exportable (T : gmap objid Expr) (clk rst : string) (w : World) (i : objid) (l : InstrLvlAbs) (x : Instr) (vd d : Expr) : Prop := {
  xp_instr : w_instrs w !! i = Some x;
  xp_host : exists h, i_host x = Some h /\ w_ilas w !! h = Some l;
  xp_vars : good_vars clk rst l;
  xp_model : name_ok (l_name l) = true;
  xp_name : name_ok (i_name x) = true;
  xp_free : Forall (fun n => n ∉ [clk; rst; "__START__"] ++ (Exprs.name <$> vars_of l)) [valid_name l; decode_name l x];
  xp_ports : name_ok clk = true /\ name_ok rst = true;
  xp_keywords : Forall (fun s => keyword (Exprs.name s) = false) (KeyVec.vec_ (states_ l));
  xp_valid : valid_ l = Some vd /\ Exprs.sort vd = SortBool /\ expr_ok T (known_in (vars_of l)) vd;
  xp_decode : decode_ x = Some d /\ Exprs.sort d = SortBool /\ expr_ok T (known_in (vars_of l)) d;
  xp_states : Forall (var_ok T (known_in (vars_of l)) x) (KeyVec.vec_ (states_ l)) }.

Section top.
Context {L : Layout} (T : gmap objid Expr) (clk rst : string) (w : World) (i : objid) (l : InstrLvlAbs) (x : Instr) (vd d : Expr).
Context (Hx : exportable T clk rst w i l x vd d) (config : VlgGenConfig).
Abbreviation known := (known_in (controls rst config ++ vars_of l)).
Lemma known_more h : known_in (vars_of l) h -> known h.
Proof using Type. unfold known_in. rewrite fmap_app, elem_of_app. by right. Qed.
Lemma expr_ok_more e : expr_ok T (known_in (vars_of l)) e -> expr_ok T known e.
Proof using Type. intros (Hr & Hw & Hs). split_and!; [done|done|]. eapply supported_mono; [apply known_more|done]. Qed.
Lemma states_ok : Forall (var_ok T known x) (KeyVec.vec_ (states_ l)).
Proof using Hx. eapply Forall_impl; [exact (xp_states _ _ _ _ _ _ _ _ _ Hx)|]. intros s []. split; try done. by apply expr_ok_more. Qed.
Lemma controls_names : NoDup (Exprs.name <$> controls rst config ++ vars_of l).
Proof using Hx.
  pose proof (gv_names _ _ _ (xp_vars _ _ _ _ _ _ _ _ _ Hx)) as Hn. fold (vars_of l) in Hn. rewrite fmap_app.
  apply NoDup_app in Hn as (Hp & Hd & Hn). apply NoDup_cons in Hp as [_ Hp]. apply NoDup_app. split_and!; [| |done].
  - apply NoDup_cons in Hp as [Hr Hp]. unfold controls. destruct (start_signal config); cbn [fmap list_fmap].
    + apply NoDup_cons. by split.
    + apply NoDup_singleton.
  - intros n (e & -> & He%control_name)%list_elem_of_fmap. apply Hd. by right.
Qed.

(** The state of the generator at the end. *)
Record exported (g : VlgGen) (ups : list (string * string)) : Prop := {
  ed_inv : vlg_inv T known g;
  ed_valid : denotes known g vd (valid_name l);
  ed_decode : denotes known g d (decode_name l x);
  ed_results : results known g x (KeyVec.vec_ (states_ l)) ups;
  ed_clock : exists cn mx, generated cn = true /\ atom cn = EName cn /\
    clock_state g clk rst (start_of config) (valid_name l) (decode_name l x) cn mx ups }.
Lemma rename_declared g n : declared clk rst config [] g -> declared clk rst config [] (with_names g (set_module (names g) n)).
Proof using Type. by intros []. Qed.
Lemma module_run g : declared clk rst config [] g -> exists g', on_gen (g ← get;
    if String.eqb (moduleName (names g)) "" then
      n ← sanitizeName (l_name l);
      k ← sanitizeName (i_name x);
      on_names (fun m => set_module m (n +:+ "__DOT__" +:+ k))
    else mret ()) (w, g) = Ok (tt, (w, g')) /\ declared clk rst config [] g'.
Proof using Hx.
  intros Hd. destruct (String.eqb (moduleName (names g)) "") eqn:E.
  - eexists. split; [|by eapply rename_declared]. apply on_gen_run. unfold mbind at 1, ST_bind at 1, get at 1. rewrite E.
    rewrite (ST_bind_run _ _ _ _ _ (sanitizeName_ok _ _ (xp_model _ _ _ _ _ _ _ _ _ Hx))).
    rewrite (ST_bind_run _ _ _ _ _ (sanitizeName_ok _ _ (xp_name _ _ _ _ _ _ _ _ _ Hx))). reflexivity.
  - exists g. split; [|done]. apply on_gen_run. unfold mbind at 1, ST_bind at 1, get at 1. by rewrite E.
Qed.
Lemma declared_free g n : declared clk rst config (vars_of l) g -> generated n = false -> n ∉ [clk; rst; "__START__"] ++ (Exprs.name <$> vars_of l) -> free g n.
Proof using Type.
  intros Hd Hg Hn. destruct (undeclared_none _ _ _ _ _ _ Hd Hn) as (? & _ & ? & ?). split; try done. by rewrite (de_outputs _ _ _ _ _ Hd), lookup_empty.
Qed.
Lemma funcs_none g : func_ptr_set (maps g) = [] -> ExportFuncDefs g = Ok (tt, g).
Proof using Type.
  intros Hf. unfold ExportFuncDefs, mbind, ST_bind, get. destruct (fcOpt (cfg_ g)); [|done]. rewrite Hf. unfold func_iter. cbn [fmap list_fmap].
  pose proof (set_order_perm [] ltac:(constructor)) as Hp. apply Permutation_nil_r in Hp. by rewrite Hp.
Qed.
Lemma results_words g ups : results known g x (KeyVec.vec_ (states_ l)) ups ->
  Forall (fun p => (word p.1 = true /\ atom p.1 = EName p.1 /\ keyword p.1 = false) /\ word p.2 = true) ups.
Proof using Hx.
  intros Hr. pose proof (xp_keywords _ _ _ _ _ _ _ _ _ Hx) as Hk. pose proof states_ok as Hst. induction Hr as [|v p st ups [Hp Hd] _ IH]; [constructor|].
  apply Forall_cons in Hst as [Hv Hst], Hk as [Hkv Hk]. constructor; [|by apply IH]. split; [|apply Hd]. rewrite Hp.
  pose proof (vo_decl _ _ _ _ Hv) as Hdc. unfold declarable in Hdc. rewrite !andb_true_iff in Hdc.
  destruct (name_ok_word (Exprs.name v)) as [? ?]; [tauto|done].
Qed.
Lemma clock_fits g ups cn mx : results known g x (KeyVec.vec_ (states_ l)) ups -> cfg_ g = config ->
  clock_names (names g) = (clk, rst, start_of config) -> validName (names g) = valid_name l -> word cn = true -> keyword cn = false -> 0 <= mx ->
  block_of g = ([counter_init cn], [counter_text (decode_name l x) cn mx], updates (decode_name l x) ups) ->
  clock_state g clk rst (start_of config) (valid_name l) (decode_name l x) cn mx ups.
Proof using Hx.
  intros Hr Hc Hn Hv Hw Hk Hm Hb. unfold clock_names in Hn. injection Hn as E1 E2 E3. unfold block_of in Hb. injection Hb as B1 B2 B3.
  destruct (xp_ports _ _ _ _ _ _ _ _ _ Hx) as [[Hcw _]%name_ok_word [Hrw _]%name_ok_word].
  pose proof (xp_model _ _ _ _ _ _ _ _ _ Hx) as Hln. pose proof (xp_name _ _ _ _ _ _ _ _ _ Hx) as Hin.
  split; [done| |done|done|done| |by eapply results_words|done].
  - rewrite Hc, E3. unfold start_of. by destruct (start_signal config).
  - repeat apply Forall_cons_2; try done; [by apply valid_name_ok|by apply decode_name_ok].
Qed.
Lemma export_run g : declared clk rst config [] g ->
  exists g' ups, ExportTopLevelInstr i (w, g) = Ok (tt, (w, g')) /\ exported g' ups.
Proof using Hx.
  intros Hd. destruct Hx as [Hi (h & Hh & Hl) Hgv Hln Hin Hfree _ _ (Hv & Hvs & Hve%expr_ok_more) (Hdc & Hds & Hde%expr_ok_more) _].
  apply Forall_cons in Hfree as [Hfv Hfd]. rewrite Forall_singleton in Hfd.
  destruct (valid_name_ok l Hln) as (Hgenv & _). destruct (decode_name_ok l x Hln Hin) as (Hgend & _).
  destruct (module_run g Hd) as (g1 & Hrun1 & Hd1). destruct (export_vars_run clk rst config l w g1 Hgv Hd1) as (g2 & Hrun2 & Hd2).
  assert (Hg2 : vlg_inv T known g2).
  { eapply (declared_inv_with T clk rst config (controls rst config)); [exact controls_names|by apply good_generated|done|exact Hd2]. }
  destruct (export_valid_run T known l vd w g2 Hg2 Hv Hve Hvs Hln (de_valid _ _ _ _ _ Hd2) (declared_free _ _ Hd2 Hgenv Hfv))
    as (g3 & Hrun3 & Hg3 & Hk3 & Hdv & Hf3 & Hi3 & Hvn).
  destruct (export_decode_run T known l x d w g3 Hg3 Hde Hds Hln Hin) as (g4 & Hrun4 & Hg4 & Hk4 & Hdd & Hi4).
  { apply Hf3; [apply names_differ|by apply declared_free]. }
  destruct (counter_run T known (decode_name l x) 8 g4 Hg4) as (g5 & Hrun5 & Hg5 & Hk5 & cn & Hcn & Hcw & Hca & Hck & Hi5).
  assert (Hk : kept g2 g5) by (etrans; [exact Hk3|etrans; [exact Hk4|exact Hk5]]).
  destruct (updates_run T known x d (decode_name l x) w (KeyVec.vec_ (states_ l)) g5 Hg5) as (g6 & ups & Hrun6 & Hg6 & Hk6 & Hr6 & Hi6).
  { rewrite (kp_cfg _ _ Hk). apply config_inv, (de_cfg _ _ _ _ _ Hd2). }
  { exact states_ok. }
  exists g6, ups. split.
  - unfold ExportTopLevelInstr. rewrite (ST_bind_run _ _ _ x (w, g)) by (unfold on_world; cbn [fst]; unfold instr_; by rewrite Hi).
    rewrite (lift_bind_run _ _ _ h) by (by rewrite Hh).
    rewrite (ST_bind_run _ _ _ l (w, g)) by (unfold on_world; cbn [fst]; by rewrite (ila_run _ _ _ Hl)).
    rewrite (ST_bind_run _ _ _ _ _ Hrun1), (ST_bind_run _ _ _ _ _ Hrun2), (ST_bind_run _ _ _ _ _ Hrun3). unfold or_true. rewrite Hdc.
    rewrite (ST_bind_run _ _ _ d (w, g3)) by done. rewrite (ST_bind_run _ _ _ _ _ Hrun4), (ST_bind_run _ _ _ _ _ (on_gen_run _ w _ _ _ Hrun5)).
    rewrite (ST_bind_run _ _ _ _ _ Hrun6). apply on_gen_run, funcs_none. by rewrite (kp_funcs _ _ Hk6), (kp_funcs _ _ Hk), (de_funcs _ _ _ _ _ Hd2).
  - split; [done| | |done|].
    + eapply denotes_kept; [|exact Hdv]. by etrans; [exact Hk4|etrans].
    + eapply denotes_kept; [|exact Hdd]. by etrans.
    + exists cn, 255. split_and!; [done|done|]. pose proof (de_clock _ _ _ _ _ Hd2) as (C1 & C2 & C3).
      apply clock_fits; [done| | | |done|done|done|].
      * by rewrite (kp_cfg _ _ Hk6), (kp_cfg _ _ Hk), (de_config _ _ _ _ _ Hd2).
      * rewrite (kp_clock _ _ Hk6), (kp_clock _ _ Hk). unfold clock_names. by rewrite C1, C2, C3.
      * rewrite <- Hvn. assert (Hk35 : kept g3 g6) by (etrans; [exact Hk4|by etrans]). apply (kp_valid _ _ Hk35). by rewrite Hvn.
      * pose proof Hi3 as E3. rewrite <- Hi4 in E3. unfold block_of in Hi5, E3. injection E3 as E1 E2 E3. injection Hi5 as D1 D2 D3.
        by rewrite Hi6, D1, D2, D3, E1, E2, E3, (de_inits _ _ _ _ _ Hd2), (de_always _ _ _ _ _ Hd2), (de_ites _ _ _ _ _ Hd2).
Qed.

(** *** What the module computes *)
Lemma signal_value Σ V s n y : atom s = EName s -> is_sig Σ V s n y -> v_sig V s = y.
Proof using Type.
  intros Ha [_ _ _ _ _ He]. specialize (He 0). rewrite Ha in He. cbn [veval] in He. apply bind_Some in He as (w' & _ & [= He]). exact He.
Qed.
Lemma bool_value g e s Σ V ρ : denotes known g e s -> atom s = EName s -> wt e = true -> Exprs.sort e = SortBool -> valuation g Σ V -> env_ok ρ ->
  agrees known V ρ -> exists b, eval ρ e = Some (VBool b) /\ is_sig Σ V s 1 (bit b) /\ v_sig V s = bit b.
Proof using Type.
  intros Hd Ha Hw Es HV Hρ Hk. destruct (named_value known g e s Σ V ρ Hw Hd HV Hρ Hk) as (v & Hv & Hvs & Hsig).
  rewrite Es in Hvs. apply has_sort_bool in Hvs as [b ->]. exists b. split_and!; [done|done|]. by eapply signal_value.
Qed.
Lemma results_names g ups st : results known g x st ups -> ups.*1 = Exprs.name <$> st.
Proof using Type. induction 1 as [|v p st ups [Hp _] _ IH]; [done|]. cbn [fmap list_fmap]. by rewrite Hp, IH. Qed.
Lemma control_value g n V ρ : vlg_inv T known g -> port n ∈ controls rst config -> name_ok n = true -> valuation g (sigs g) V -> env_ok ρ -> agrees known V ρ ->
  exists b, is_sig (sigs g) V n 1 (bit b) /\ v_sig V n = bit b.
Proof using L.
  intros Hg Hin Hn HV Hρ Hk. assert (Hkn : known (Exprs.hdr (port n))) by (apply list_elem_of_fmap_2, elem_of_app; by left).
  pose proof (vlg_var_denotes T known (Exprs.hdr (port n)) [] g Hg Hkn Hn eq_refl) as Hd. destruct (name_ok_word n Hn) as [_ Ha].
  destruct (bool_value g (port n) n (sigs g) V ρ Hd Ha eq_refl eq_refl HV Hρ Hk) as (b & _ & Hs & Hb). by exists b.
Qed.
(** The condition under which the clocked block runs. *)
Definition running (V : vval) (bv : bool) : bool :=
  (v_sig V rst =? 0) && (negb (start_signal config) || negb (v_sig V "__START__" =? 0)) && bv.
Lemma state_after g ups V ρ bv b : exported g ups -> valuation g (sigs g) V -> env_ok ρ -> agrees known V ρ ->
  is_sig (sigs g) V (valid_name l) 1 (bit bv) -> is_sig (sigs g) V (decode_name l x) 1 (bit b) ->
  exists st, read_always (dump_always g) = Some (clk, st) /\ forall n r k y, (n, r) ∈ ups -> name_ok n = true -> width_of (sigs g) n = Some k ->
    is_sig (sigs g) V r k y -> after_edge (sigs g) V st n = Some (if running V bv && b then y else v_sig V n).
Proof using All.
  intros [Hg _ _ Hr (cn & mx & Hcg & Hca & Hcl)] HV Hρ Hk Hv Hd. eexists. split; [exact (read_block _ _ _ _ _ _ _ _ _ Hcl)|].
  intros n r k y Hin Hn Hw Hy. assert (Hcr : port rst ∈ controls rst config) by (by left).
  destruct (control_value g rst V ρ Hg Hcr (proj2 (xp_ports _ _ _ _ _ _ _ _ _ Hx)) HV Hρ Hk) as (br & Hrs & Vr).
  assert (exists bs, (start_of config <> "" -> is_sig (sigs g) V (start_of config) 1 (bit bs)) /\
    running V bv = negb br && (String.eqb (start_of config) "" || bs) && bv) as (bs & Hbs & ->).
  { unfold running, start_of. rewrite Vr. destruct (start_signal config) eqn:Es; [|exists true; by destruct br].
    destruct (control_value g "__START__" V ρ Hg) as (bs & Hss & Vs); try done.
    { unfold controls. rewrite Es. right. by left. }
    exists bs. split; [done|]. rewrite Vs. by destruct br, bs. }
  assert (Hnd : NoDup ups.*1).
  { rewrite (results_names _ _ _ Hr). pose proof controls_names as Hc. rewrite fmap_app in Hc. apply NoDup_app in Hc as (_ & _ & Hc).
    unfold vars_of in Hc. rewrite fmap_app in Hc. by apply NoDup_app in Hc as (_ & _ & Hc). }
  eapply (edge_register (sigs g) V (decode_name l x) b Hd); try done.
  - intros ->. destruct (name_ok_inv n Hn) as (? & ? & _ & _ & _ & _ & _ & Hgn). congruence.
  - eapply Forall_impl; [exact (cs_ups _ _ _ _ _ _ _ _ _ Hcl)|]. naive_solver.
Qed.
Lemma states_after g ups V ρ bv b : exported g ups -> valuation g (sigs g) V -> env_ok ρ -> agrees known V ρ ->
  is_sig (sigs g) V (valid_name l) 1 (bit bv) -> is_sig (sigs g) V (decode_name l x) 1 (bit b) ->
  exists st, read_always (dump_always g) = Some (clk, st) /\ Forall (fun s => exists u, eval ρ (update_of x s) = Some u /\
    after_edge (sigs g) V st (Exprs.name s) = Some (bits_val (if running V bv && b then u else ev_var ρ (Exprs.hdr s)))) (KeyVec.vec_ (states_ l)).
Proof using All.
  intros He HV Hρ Hk Hv Hd. destruct (state_after g ups V ρ bv b He HV Hρ Hk Hv Hd) as (st & Hread & Hstep). exists st. split; [done|].
  destruct He as [Hg _ _ Hr _]. apply Forall_forall. intros s Hs. pose proof states_ok as Hst. rewrite Forall_forall in Hst. destruct (Hst s Hs) as [Hdc Hsc (_ & Huw & _) Hus].
  assert (Hn : name_ok (Exprs.name s) = true) by (unfold declarable in Hdc; rewrite !andb_true_iff in Hdc; tauto).
  pose proof Hs as [j Hj]%list_elem_of_lookup. destruct (Forall2_lookup_l _ _ _ _ _ Hr Hj) as (p & Hp & Hpn & Hpd).
  destruct (named_value known g _ _ (sigs g) V ρ Huw Hpd HV Hρ Hk) as (u & Hu & Hus' & Hsig). exists u. split; [done|].
  assert (Hkn : known (Exprs.hdr s)) by (apply known_more, list_elem_of_fmap_2, elem_of_app; by right).
  pose proof (iv_known _ _ _ Hg _ Hkn) as Hdec. pose proof (Hk _ Hkn) as Hval.
  assert (Hin : (Exprs.name s, p.2) ∈ ups) by (rewrite <- Hpn; destruct p; by eapply list_elem_of_lookup_2).
  assert (Hso : sort_ok (h_sort (Exprs.hdr s)) = true) by (change (sort_ok (Exprs.sort s) = true); rewrite <- Hus; by eapply wt_sort_ok).
  pose proof (env_var_ok _ Hρ (Exprs.hdr s) Hso) as Hvs. rewrite Hus in Hus'. unfold scalar in Hsc. unfold Exprs.sort in Hus', Hsc. unfold declares in Hdec.
  destruct (h_sort (Exprs.hdr s)) as [|ws| | |]; try done.
  - apply has_sort_bool in Hus' as [bu ->], Hvs as [bs Ebs]. rewrite Ebs in Hval |- *.
    rewrite (Hstep _ _ _ _ Hin Hn (proj1 Hdec) Hsig). f_equal. by destruct (_ && b).
  - apply has_sort_bv in Hus' as (nu & -> & _), Hvs as (ns & Ens & _). rewrite Ens in Hval |- *.
    rewrite (Hstep _ _ _ _ Hin Hn (proj1 Hdec) (name_sig _ _ _ _ _ Hsig)). f_equal. by destruct (_ && b).
Qed.
End top.


(** A register that is updated when an input is small. *)
Module InstrSample.
Import VlgSample.
Definition always := ExprConst (hdr_of 9 "$9" SortBool) (CBool true) [].
Definition next := op_node 10 (SortBv 8) kIfThenElse [less; sum; r].
Definition nodes : list Expr := [x; r; three; sum; less; always; next].
Definition table : gmap objid Expr := list_to_map ((fun e => (Exprs.id e, e)) <$> nodes).
Definition model : InstrLvlAbs :=
  {| l_name := "model"; parent_ := None; inputs_ := keyed_list [x]; states_ := keyed_list [r]; input_objects_ := KeyVec.empty;
     state_objects_ := KeyVec.empty; inits_ := []; fetch_ := None; valid_ := Some always;
     instrs_ := snd (KeyVec.push_back KeyVec.empty "step" 1%N); childs_ := KeyVec.empty; instr_seq_ := None; is_spec_ := true |}.
Definition step : Instr :=
  {| i_name := "step"; i_host := Some 0%N; decode_ := Some less; updates_ := {[ "r" := Some next ]}; prog_ := None |}.
Definition world : World := {| counter_ := 20; w_ilas := {[ 0%N := model ]}; w_instrs := {[ 1%N := step ]} |}.
Ltac not_in := intros H; repeat (apply elem_of_cons in H as [H|H]; [discriminate H|]); by apply elem_of_nil in H.
Lemma instr_known_var e : e ∈ [x; r] -> known_in (vars_of model) (Exprs.hdr e).
Proof. intros H. by apply list_elem_of_fmap_2. Qed.
Lemma known_x : known_in (vars_of model) (Exprs.hdr x). Proof. apply instr_known_var. set_solver. Qed.
Lemma known_r : known_in (vars_of model) (Exprs.hdr r). Proof. apply instr_known_var. set_solver. Qed.
Lemma ok_expr e : e ∈ [always; less; next] -> expr_ok table (known_in (vars_of model)) e.
Proof.
  pose proof known_x. pose proof known_r. intros H'. repeat (apply elem_of_cons in H' as [->|H']; [|]); [..|by apply elem_of_nil in H'].
  all: split_and!; [repeat (apply registered_unfold; split; [reflexivity|repeat constructor])|reflexivity|by repeat split].
Qed.
Lemma step_exportable : exportable table "clk" "rst" world 1 model step always less.
Proof.
  split; try reflexivity.
  - by exists 0%N.
  - by split; vm_compute; repeat constructor; not_in.
  - repeat constructor; vm_compute; not_in.
  - done.
  - by repeat constructor.
  - split_and!; [done|done|]. apply ok_expr. set_solver.
  - split_and!; [done|done|]. apply ok_expr. set_solver.
  - constructor; [|constructor]. split; [done|done| |done]. apply (ok_expr next). set_solver.
Qed.
End InstrSample.
